(* ===== verification/_CoqProject ===== *)
-Q . S2P
Prelude.v
PostingSet.v
Value.v
OrderKey.v
Filter.v
IndexStore.v
BTree.v
MemIndex.v
MemStore.v
Codec.v
Template.v
Projection.v
Intervals.v
Refs.v
Keys.v
Pebble.v
PersistStore.v
PersistSpec.v
PersistFacts.v
PersistRefine.v
PersistRun.v
PersistReads.v
PersistViews.v
PersistScan.v
PersistLegacy.v
PersistHistory.v
PersistSearch.v
MemViews.v
Candidates.v
Completeness.v
Positions.v
Planner.v
Stream.v
Open.v
PersistCandidates.v
Events.v
Coalescer.v
Merge.v
Progress.v
Subscriber.v
Admission.v
Subscription.v
SubscriptionStops.v
SubscriptionProtocol.v
SubscriptionLossless.v
FlowControl.v
ReplicaBudget.v
Documents.v
Prog.v
Mongo.v
DocumentStore.v
Router.v
Engine.v
TypedValue.v
PushWire.v
Push.v
PushFacts.v
PushResponse.v
QueryPage.v
QueryFacts.v
QueryTermination.v
PullWire.v
Pull.v
PullFacts.v
Buffer.v
BufferScan.v
BufferMachine.v
BufferInv.v
BufferModels.v
BufferFacts.v
Replay.v
ReplayFacts.v
EventWire.v
Normalizer.v
Capture.v
CaptureFacts.v
Cleaner.v
Service.v
ServiceFacts.v
Bootstrap.v
