(* ===== verification/Prelude.v ===== *)
(** * Syntrix: documents, replication, indexes and change events

    Syntrix is a document database service in Go. The query engine writes
    documents to a Mongo store, answers queries page by page, and replicates
    collections: clients push their changes and pull those of others. A puller
    turns the change streams of the backends into one ordered stream of events;
    the indexer turns each changed document into posting keys of the index
    templates, and queries are answered from them. This library models that core
    (all paths below are under src/packages/syntrix) and proves what makes it
    correct.

    ** Parts and files

    Prelude    results of fallible code ([res]), machine integers, byte strings
               and their order, UTF-8, the interface of sort.Slice ([SliceSort])
               with insertion sort as an instance, container/heap as a class with a
               sorted-slice instance, shared list lemmas.
    Value      pkg/model/value.go: dynamic values, normalisation, the exact order
               of scalars (int64 against binary64 without rounding), the JSON
               escape scanner.
    OrderKey   internal/indexer/encoding/orderkey.go: order-preserving keys.
    Filter     pkg/model/filter.go, filter_eval.go: filters and their evaluation.
    IndexStore internal/indexer/store/store.go: the records of the store contract;
               views and iterators as the classes [IndexViews], [IndexReads].
    BTree      the ordered tree the in-memory index uses, as a class with a list
               instance; the order of its items.
    MemIndex   internal/indexer/mem_store/index.go, database.go.
    MemStore   internal/indexer/mem_store/store.go, projection.go: the store, its
               read views and iterators with work budget and context polls;
               [MemViews]: it implements the read interfaces.
    PostingSet, Keys, Pebble, PersistStore
               internal/indexer/persist_store: posting sets, the key layout
               (keys.go), the database as a class (db.go), and every write and
               query of PebbleStore (pebble.go, projection.go, catalog.go). A
               background flush is three steps, other calls run between them. At
               the end of PersistStore, a database, a hash and a codec that satisfy
               the interfaces.
    PersistSpec, PersistFacts, PersistRefine, PersistRun, PersistReads,
    PersistHistory
               the abstract store, what a batch does to the rows, the invariant,
               each call against the abstract store, and runs.
    PersistViews, PersistScan, PersistCandidates
               read views of projection.go, what a scan returns, and queries over
               this store; [Refs] has the ordered lists they merge.
    PersistLegacy, PersistSearch
               Get, Search and the listings of the legacy indexes (pebble.go).
    Codec      SHA-256, hex, base64 and the JSON writer the code calls.
    Template   internal/indexer/template/template.go.
    Projection internal/indexer/service.go (DocumentField,
               BuildDocumentProjection), internal/core/storage/types/helpers.go.
    Intervals, Candidates, Completeness
               internal/indexer/manager/candidates.go: key intervals of a filter,
               compilation of a query into branches, and the proof that the
               branches reach every matching document.
    Positions  order positions of the same file: within a branch key order is
               query order, and a scan resumes exactly after a position.
    Stream, Open
               the merged candidate stream and OpenCandidates.
    Planner    internal/indexer/manager/manager.go: template selection and the
               search bounds of the legacy path.
    Events     internal/puller/events/types.go: events, cluster times, buffer
               keys, the iterator interface as the class [EventIterator].
    Coalescer  internal/puller/buffer/coalescer.go and
               internal/puller/core/coalescing_iterator.go.
    Merge      internal/puller/core/merge_iterator.go.
    Progress   internal/puller/cursor/progress.go, the event identifiers of
               internal/puller/normalizer/normalizer.go.
    Normalizer the rest of that file, over the BSON library as a class.
    EventWire  internal/puller/events/codec.go: the JSON rows of events.
    Buffer, BufferScan, BufferMachine
               internal/puller/buffer (buffer.go, writer.go, reader.go,
               iterator.go): the durable event buffer, its two iterators, and its
               goroutines as steps with crashes and restarts. The database
               ([PebbleBack]) and the event rows ([EventCodec]) are classes;
               [BufferModels] and [EventWire] have instances.
    BufferInv, BufferFacts
               the invariant of those steps and what follows from it.
    Replay, ReplayFacts
               the replay of internal/puller/core/puller.go and the capture
               boundary of internal/puller/core/boundary.go.
    Capture, CaptureFacts
               internal/puller/recovery/recovery.go (the classes of capture errors,
               the gap detector, the actions of the handler) and the change-stream
               loop of internal/puller/core/puller.go (runBackend,
               watchChangeStream) over a backend, the buffer and its batcher.
    Cleaner    internal/puller/buffer/cleaner.go.
    Service, ServiceFacts
               internal/indexer/service.go: the application of events, start, stop,
               the subscription loop, readiness, health and Search, over the store
               as the class [IndexWriter]; the in-memory store is an instance.
    Bootstrap  internal/indexer/bootstrap.go: the complete rebuild of an index.
    Subscriber internal/puller/core/subscriber.go, subscribers and their registry,
               and the delivery step of internal/puller/core/subscription.go.
    Admission  internal/puller/events/admission.go: the readiness fence.
    Subscription, SubscriptionStops, SubscriptionProtocol, SubscriptionLossless
               RunSubscription of internal/puller/core/subscription.go as a step
               machine, with replay, the wait for readiness and the live loop.
    FlowControl
               the circuit breaker and the backpressure monitor of the puller.
    ReplicaBudget
               internal/gateway/realtime/replica_budget.go and its part of
               internal/gateway/config/config.go: the shares of the replication
               budget (binary64 arithmetic) and the authorisation queue.
    Documents  pkg/model/document.go, internal/helper/validation.go, convert.go and
               the document part of internal/core/storage/types.
    Prog, Mongo
               code that calls its environment as a free monad with its
               executions, alone and beside other threads; the driver's calls on a
               database other clients change, and an instance of it.
    DocumentStore, Router, Engine
               internal/core/storage/mongo/document_store.go and utils.go, the
               routers of internal/core/storage/router, and the document operations
               of internal/query/core/engine.go, each against the contract of the
               one below ([StoreContract]).
    TypedValue, PushWire, Push, PushFacts, PushResponse
               the typed values of pkg/model/value.go, internal/query/wire/push.go
               and internal/query/core/push.go.
    QueryPage, QueryFacts, QueryTermination
               internal/query/core/page.go: query pages over the candidate stream,
               a list of identifiers or a scan.
    PullWire, Pull, PullFacts
               internal/query/wire/pull.go, pull_source.go, pull_window.go and the
               files of the same names in internal/query/core.

    ** How the code is rendered

    Records and inductive types follow the Go structs and enums; a Go map is a
    stdpp [gmap], a set a [gset]; an error result is [res] or [option]; a struct
    whose methods mutate it is threaded through functions that return it. Methods
    that share a name across types carry a prefix ([idx_], [store_], [co_],
    [ci_], [mi_], [sub_]). Integers are [Z]; where a width matters the wrap-around
    is written ([u32], [i64]) or the range is a hypothesis ([is_u32]). Bytes are
    lists of [Z], Go strings are [string] compared bytewise. A method that holds a
    lock is one step; one that releases it in between is several. sort.Slice, container/heap and the
    third-party B-tree and database are classes: theorems hold for every implementation of
    what they document, and iteration over a Go map that is sorted afterwards is
    covered by the sorter's freedom.

    Loops that are not structural take fuel. Scanners get the length of their
    input, which each iteration shortens; [drain], [search_pages] and [ci_Next]
    take the number of calls, and the theorems state the number that is enough;
    the loops of a query page get the bounds of the code (its batches, its limit on
    candidates), and [page_ends] shows that they never run out.

    Code that talks to a store is a program ([prog]) over its calls: a statement
    about it ranges over every answer, or over the answers of a stated contract
    with other clients acting between any two calls ([exec], [runs]). Cursor and
    checkpoint tokens are represented by what they carry; the sizes protobuf
    computes and the form of UUIDs are parameters.

    ** What is proved

    Values and keys: [CompareValues_exact], [ValidateJSONUnicode_spec], [Encode_order]: scalar
    comparison is exact, and index keys sort like the rows they encode. Filters: [EvaluateFilters_holds],
    [NormalizeFilters_in_members].

    Indexes: [idx_Search_refines] and [search_pages_all] refine the index to a
    plain map; [ApplyDocumentProjection_replaces] and [projection_scan_exact] give the in-memory store's
    contract. The persistent store: [store_refines] (queries answer from the
    accepted calls, whatever is pending or being flushed), [durable_history] (a
    restart finds the result of a history that misses at most the last
    write-behind calls), [fail_stop] (after a batch that failed, the projection
    writes and queries are refused for good and the indexes on disk keep still;
    SetState and the legacy reads are not refused), [view_scan_exact],
    [Search_exact].

    Planning: [filterIntervals_exact] (the intervals of a filter select exactly
    the keys that satisfy it), [candidate_plan_complete] (no matching document is
    lost by a compiled plan; a tombstone is only indexed under a template that
    includes deleted documents), [OpenCandidates_complete] and
    [store_candidates_complete] (the merged stream is ordered and complete, over
    any store with the read interfaces and over the persistent one while its
    iterators report no error), [scanOptions_resumes] (a branch resumes after a position
    without repeating or skipping), [SelectBestTemplate_best],
    [NormalizePattern_canonical], [ValidateTemplate_spec], [buildSearchOptions_complete].

    The indexer: [index_mirrors_source] (after a bootstrap and any messages of the
    subscription the keys posted are those of the newest versions of the documents, and
    queries are answered only behind the puller's barrier), [Bootstrap_returns] (the
    bootstrap of a finite source ends), [ApplyEvent_refused] (an event that fails changes
    nothing and withdraws the generations it cannot keep), [Health_ok] and
    [search_loop_drain] (a search answers with the first groups of its stream).

    Documents and replication: [engine_writes] (what each document operation of the
    engine has done to the database when it answers), [typed_value_roundtrip],
    [push_request_roundtrip], [push_accounts] (a push makes exactly the writes of
    its changes, or reports them, whatever other clients do meanwhile; only an
    unversioned delete of a document that is gone makes neither) and
    [push_response_valid]; [page_sound] (a page shows only source documents that
    match, in strict order after the cursor, and its own cursor is accepted by
    the same query and continues after its last document) and
    [page_ends]; [pull_converges] (a client that follows pulls to a watermark has
    every document as it was then or later) and [replication_error_roundtrip].

    Events: [FormatBufferKey_order], [ParseEventID_generateEventID],
    [merge_stream] (a sorted merge that loses nothing), [event_roundtrip] (for
    events whose strings are valid UTF-8),
    [CoalesceEvents_replay] and [CoalesceEvents_latest]. Subscribers:
    [acknowledged_in_order], [replayAdmitted_exact],
    [left_registry_closed]. The subscription loop: [ready_sound],
    [admission_protocol], [admitted_lossless] and [cancelled_loop_stops]. Flow
    control and budgets: [breaker_history], [backpressure_monotone],
    [budget_bounds], [auth_queue_fair].

    The event buffer, in every state its goroutines reach, with failed commits and
    restarts at any point: [checkpoint_durable] (the checkpoint never covers an event
    that is not durable, or pruned on record), [replay_complete] (after a position
    that validates, a scan returns every captured event in order),
    [retention_keeps_group] (pruning removes whole groups of a cluster time, and never
    the newest), [close_drains] (a closed buffer writes its queue out or reports the
    failure), [cleanup_ends] and [cleanup_returns] (a cleanup ends). The puller: [capture_gapless] (between a boundary that was saved
    and the checkpoint capture resumes from, every event of the source became durable,
    through reconnections and restarts), [replay_validated] (the merged replay of all backends is sorted, has no
    event twice and misses none after the starts), [Normalize_event] and
    [Normalize_again].

    Nine theorems record behaviour that differs from what the code or its
    documentation intends: [buildSearchOptions_skips_unbounded],
    [coalesced_insert_loses_backend], [coalescing_loses_delete],
    [Search_misses_escaped], [countDocs_counts_twice],
    [precondition_keeps_last], [reopen_skips], [watch_never_nil] and
    [errors_accumulate].

    ** What is not modelled

    The legacy rebuild and reconciliation of the indexer, which its service does not
    start; the construction, start and stop of the puller; the scans and watches of the
    Mongo store (their documented contract is the hypothesis of [pull_converges] and
    [index_mirrors_source]) and the gateway's handlers. Timers,
    goroutine scheduling and the waiting of Flush are the free order of steps.
    Network and disk transports, drivers, configuration, generated code and the
    YAML and JSON decoders are outside: they are I/O or third-party code.

    Simplifications inside the models: JSON values of TypedValue are trees, without
    the nesting limit of the decoder; number texts are decimal literals; an order key
    that is nil and one that is empty are the same; the laws of [IndexWriter], for a
    store whose writes succeed, have the in-memory store as their instance, while the
    persistent store refuses after a failed write ([fail_stop]). *)
From stdpp Require Import base list gmap strings sorting.
From Stdlib Require Import ZArith Ascii.
From Stdlib Require String.
Local Open Scope Z_scope.

(** ** Fallible code: Go's (value, error) results *)
Inductive res (E A : Type) : Type :=
| Ok (a : A)
| Err (e : E).
Arguments Ok {E A} a.
Arguments Err {E A} e.

#[export] Instance res_ret {E} : MRet (res E) := fun _ a => Ok a.
#[export] Instance res_bind {E} : MBind (res E) := fun _ _ k r =>
  match r with Ok a => k a | Err e => Err e end.
#[export] Instance res_fmap {E} : FMap (res E) := fun _ _ f r =>
  match r with Ok a => Ok (f a) | Err e => Err e end.

Definition is_ok {E A} (r : res E A) : bool :=
  match r with Ok _ => true | Err _ => false end.

Lemma Ok_inj {E A} (a b : A) : @Ok E A a = Ok b -> a = b.
Proof. congruence. Qed.

(** [%w]-wrapping of an error on the way out. *)
Definition map_err {E F A} (f : E -> F) (r : res E A) : res F A :=
  match r with Ok a => Ok a | Err e => Err (f e) end.

Lemma bind_ok {E A B} (r : res E A) (k : A -> res E B) b :
  (r ≫= k) = Ok b <-> exists a, r = Ok a /\ k a = Ok b.
Proof.
  destruct r as [a|e]; cbn; split.
  - eauto.
  - intros (a' & [= ->] & H); exact H.
  - discriminate.
  - intros (a' & H & _); discriminate H.
Qed.

Lemma fmap_ok {E A B} (r : res E A) (f : A -> B) b :
  (f <$> r) = Ok b <-> exists a, r = Ok a /\ b = f a.
Proof.
  destruct r as [a|e]; cbn; split.
  - intros [= <-]; eauto.
  - intros (a' & [= ->] & ->); reflexivity.
  - discriminate.
  - intros (a' & H & _); discriminate H.
Qed.

Lemma map_err_ok {E F A} (f : E -> F) (r : res E A) a :
  map_err f r = Ok a <-> r = Ok a.
Proof. destruct r; cbn; split; congruence. Qed.

(** Traversal of a slice by a fallible function, stopping at the first error. *)
Fixpoint mapM_res {E A B} (f : A -> res E B) (l : list A) : res E (list B) :=
  match l with
  | [] => Ok []
  | x :: l => y ← f x; ys ← mapM_res f l; Ok (y :: ys)
  end.

Lemma mapM_res_ok {E A B} (f : A -> res E B) l ys :
  mapM_res f l = Ok ys <-> Forall2 (fun x y => f x = Ok y) l ys.
Proof.
  revert ys; induction l as [|x l IH]; intros ys; cbn [mapM_res].
  - split; [intros [= <-]; constructor | inversion 1; reflexivity].
  - rewrite bind_ok; split.
    + intros (y & Hy & H); apply bind_ok in H as (ys' & Hys & [= <-]).
      constructor; [exact Hy | by apply IH].
    + inversion 1 as [|? y ? ys' Hy Hys]; subst.
      exists y; split; [exact Hy|]. apply bind_ok; exists ys'; split; [by apply IH|done].
Qed.

(** Unfolds a successful chain of binds into its steps. *)
Ltac ok_inv :=
  repeat match goal with
  | H : (_ ≫= _) = Ok _ |- _ => apply bind_ok in H as (? & ? & ?)
  | H : (_ <$> _) = Ok _ |- _ => apply fmap_ok in H as (? & ? & ?)
  | H : map_err _ _ = Ok _ |- _ => apply map_err_ok in H
  | H : Ok _ = Ok _ |- _ => injection H as H
  | H : Err _ = Ok _ |- _ => discriminate H
  | H : Ok _ = Err _ |- _ => discriminate H
  end.

(** Splits the outermost [if] or [match] of a hypothesis or of the goal. *)
Ltac case_step :=
  match goal with
  | H : context [if ?b then _ else _] |- _ => destruct b eqn:?
  | |- context [if ?b then _ else _] => destruct b eqn:?
  | H : context [match ?b with _ => _ end] |- _ => destruct b eqn:?
  | |- context [match ?b with _ => _ end] => destruct b eqn:?
  end.

(** ** Machine integers *)
Definition u8 (z : Z) : Z := z mod 2 ^ 8.
Definition u16 (z : Z) : Z := z mod 2 ^ 16.
Definition u32 (z : Z) : Z := z mod 2 ^ 32.
Definition u64 (z : Z) : Z := z mod 2 ^ 64.
Definition i64 (z : Z) : Z := (z + 2 ^ 63) mod 2 ^ 64 - 2 ^ 63.

Definition is_u32 (z : Z) : Prop := 0 <= z < 2 ^ 32.
Definition is_u64 (z : Z) : Prop := 0 <= z < 2 ^ 64.
Definition is_i64 (z : Z) : Prop := - 2 ^ 63 <= z < 2 ^ 63.

Lemma u64_id z : is_u64 z -> u64 z = z.
Proof. apply Z.mod_small. Qed.
Lemma u16_id z : 0 <= z < 2 ^ 16 -> u16 z = z.
Proof. apply Z.mod_small. Qed.
Lemma u8_id z : 0 <= z < 2 ^ 8 -> u8 z = z.
Proof. apply Z.mod_small. Qed.
Lemma i64_id z : is_i64 z -> i64 z = z.
Proof. unfold is_i64, i64; intros. rewrite Z.mod_small; lia. Qed.
Lemma i64_range z : is_i64 (i64 z).
Proof. unfold is_i64, i64. pose proof (Z.mod_pos_bound (z + 2 ^ 63) (2 ^ 64)). lia. Qed.

(** [bits.Len64]: the number of bits needed to write [x]. *)
Definition Len64 (x : Z) : Z := if x =? 0 then 0 else Z.log2 x + 1.

(** ** Byte strings *)
Abbreviation bytes := (list Z).

Definition is_byte (b : Z) : Prop := 0 <= b < 256.
Definition is_bytes (l : bytes) : Prop := Forall is_byte l.

Lemma is_bytes_app a b : is_bytes a -> is_bytes b -> is_bytes (a ++ b).
Proof. intros. by apply Forall_app. Qed.

(** [^b] on a [uint8]. *)
Definition bnot (b : Z) : Z := 255 - b.

Lemma bnot_byte b : is_byte b -> is_byte (bnot b).
Proof. unfold is_byte, bnot; lia. Qed.
Lemma bnot_involutive b : bnot (bnot b) = b.
Proof. unfold bnot; lia. Qed.
Lemma bnot_lxor b : is_byte b -> bnot b = Z.lxor b 255.
Proof.
  unfold is_byte; intros Hb.
  assert (forallb (fun n => bnot (Z.of_nat n) =? Z.lxor (Z.of_nat n) 255) (seq 0 256) = true)
    as H by (vm_compute; reflexivity).
  rewrite forallb_forall in H. specialize (H (Z.to_nat b)).
  rewrite Z2Nat.id in H by lia. apply Z.eqb_eq, H. apply in_seq. lia.
Qed.

(** [bytes.Compare], and Go's [<] on strings through [bytes_of_string]. *)
Fixpoint bytes_compare (a b : bytes) : comparison :=
  match a, b with
  | [], [] => Eq
  | [], _ :: _ => Lt
  | _ :: _, [] => Gt
  | x :: a', y :: b' =>
      match x ?= y with Eq => bytes_compare a' b' | c => c end
  end.

(** Lexicographic chaining of two comparisons. *)
Definition then_compare (c d : comparison) : comparison :=
  match c with Eq => d | _ => c end.

Definition bytes_ltb (a b : bytes) : bool :=
  match bytes_compare a b with Lt => true | _ => false end.
Definition bytes_leb (a b : bytes) : bool :=
  match bytes_compare a b with Gt => false | _ => true end.
Definition bytes_eqb (a b : bytes) : bool :=
  match bytes_compare a b with Eq => true | _ => false end.

Lemma bytes_compare_refl a : bytes_compare a a = Eq.
Proof. induction a; cbn; [done|]. by rewrite Z.compare_refl. Qed.

Lemma bytes_compare_eq a b : bytes_compare a b = Eq <-> a = b.
Proof.
  split; [|intros ->; apply bytes_compare_refl].
  revert b; induction a as [|x a IH]; intros [|y b]; cbn; try done.
  destruct (Z.compare_spec x y); subst; try done. intros H. f_equal; auto.
Qed.

Lemma bytes_compare_antisym a b : bytes_compare b a = CompOpp (bytes_compare a b).
Proof.
  revert b; induction a as [|x a IH]; intros [|y b]; cbn; try done.
  rewrite (Z.compare_antisym x y). by destruct (x ?= y); cbn.
Qed.

Lemma bytes_compare_lt_gt a b : bytes_compare a b = Lt <-> bytes_compare b a = Gt.
Proof. rewrite (bytes_compare_antisym a b). by destruct (bytes_compare a b). Qed.

Lemma bytes_compare_trans a b c :
  bytes_compare a b = Lt -> bytes_compare b c = Lt -> bytes_compare a c = Lt.
Proof.
  revert b c; induction a as [|x a IH]; intros [|y b] [|z c]; cbn; try done.
  destruct (Z.compare_spec x y), (Z.compare_spec y z), (Z.compare_spec x z);
    subst; try done; try lia; eauto.
Qed.

Lemma bytes_compare_app_r p a b : bytes_compare (p ++ a) (p ++ b) = bytes_compare a b.
Proof. induction p; cbn; [done|]. by rewrite Z.compare_refl. Qed.

(** Extending both sides of an already decided comparison of equal lengths. *)
Lemma bytes_compare_app a b c d :
  length a = length b ->
  bytes_compare (a ++ c) (b ++ d) = then_compare (bytes_compare a b) (bytes_compare c d).
Proof.
  revert b; induction a as [|x a IH]; intros [|y b]; cbn; try done.
  intros [= Hl]. destruct (x ?= y); cbn; auto.
Qed.

Lemma bytes_compare_bnot a b :
  length a = length b ->
  bytes_compare (map bnot a) (map bnot b) = CompOpp (bytes_compare a b).
Proof.
  revert b; induction a as [|x a IH]; intros [|y b]; cbn; try done.
  intros [= Hl]. replace (bnot x ?= bnot y) with (CompOpp (x ?= y)).
  - destruct (x ?= y); cbn; auto.
  - rewrite <- Z.compare_antisym. unfold bnot.
    destruct (Z.compare_spec y x), (Z.compare_spec (255 - x) (255 - y)); lia || done.
Qed.

Lemma bytes_nil_le k : bytes_compare [] k <> Gt.
Proof. by destruct k. Qed.

Lemma bytes_ltb_lt a b : bytes_ltb a b = true <-> bytes_compare a b = Lt.
Proof. unfold bytes_ltb. by destruct (bytes_compare a b). Qed.
Lemma bytes_eqb_eq a b : bytes_eqb a b = true <-> a = b.
Proof. rewrite <- bytes_compare_eq. unfold bytes_eqb. by destruct (bytes_compare a b). Qed.
Lemma bytes_leb_le a b : bytes_leb a b = true <-> bytes_compare a b <> Gt.
Proof. unfold bytes_leb. by destruct (bytes_compare a b). Qed.
Lemma bytes_leb_ltb a b : bytes_leb a b = negb (bytes_ltb b a).
Proof. unfold bytes_leb, bytes_ltb. rewrite (bytes_compare_antisym a b). by destruct (bytes_compare a b). Qed.

Lemma bytes_le_lt_trans a b c :
  bytes_compare a b <> Gt -> bytes_compare b c = Lt -> bytes_compare a c = Lt.
Proof.
  intros H1 H2. destruct (bytes_compare a b) eqn:E; [|by eapply bytes_compare_trans|done].
  apply bytes_compare_eq in E as ->. done.
Qed.
Lemma bytes_lt_le_trans a b c :
  bytes_compare a b = Lt -> bytes_compare b c <> Gt -> bytes_compare a c = Lt.
Proof.
  intros H1 H2. destruct (bytes_compare b c) eqn:E; [|by eapply bytes_compare_trans|done].
  apply bytes_compare_eq in E as <-. done.
Qed.
Lemma bytes_le_trans a b c :
  bytes_compare a b <> Gt -> bytes_compare b c <> Gt -> bytes_compare a c <> Gt.
Proof.
  intros H1 H2. destruct (bytes_compare a b) eqn:E; [| |done].
  - apply bytes_compare_eq in E as ->. done.
  - rewrite (bytes_lt_le_trans a b c); done.
Qed.

(** Big-endian encoding on [n] bytes ([binary.BigEndian.PutUint16/64]). *)
Fixpoint be_bytes (n : nat) (x : Z) : bytes :=
  match n with
  | O => []
  | S n => be_bytes n (x / 256) ++ [x mod 256]
  end.

Lemma length_be_bytes n x : length (be_bytes n x) = n.
Proof. revert x; induction n; intros; cbn; [done|]. rewrite length_app, IHn. cbn; lia. Qed.

Lemma be_bytes_bytes n x : is_bytes (be_bytes n x).
Proof.
  revert x; induction n; intros; cbn; [constructor|].
  apply Forall_app; split; [apply IHn|]. constructor; [|constructor].
  apply Z.mod_pos_bound; lia.
Qed.

Lemma be_bytes_compare n x y :
  0 <= x < 256 ^ Z.of_nat n -> 0 <= y < 256 ^ Z.of_nat n ->
  bytes_compare (be_bytes n x) (be_bytes n y) = (x ?= y).
Proof.
  revert x y; induction n as [|n IH]; intros x y Hx Hy.
  { cbn in *. destruct (Z.compare_spec x y); lia || done. }
  rewrite Nat2Z.inj_succ, Z.pow_succ_r in Hx, Hy by lia.
  cbn [be_bytes]. rewrite bytes_compare_app by (rewrite !length_be_bytes; done).
  rewrite IH by (split; [apply Z.div_pos; lia | apply Z.div_lt_upper_bound; lia]).
  pose proof (Z.div_mod x 256 ltac:(lia)). pose proof (Z.div_mod y 256 ltac:(lia)).
  pose proof (Z.mod_pos_bound x 256 ltac:(lia)). pose proof (Z.mod_pos_bound y 256 ltac:(lia)).
  destruct (Z.compare_spec (x / 256) (y / 256)); cbn;
    [destruct (Z.compare_spec (x mod 256) (y mod 256))|..];
    destruct (Z.compare_spec x y); lia || done.
Qed.

(** ** Strings: Go strings are byte sequences *)
Definition byte_of_ascii (c : ascii) : Z := Z.of_N (N_of_ascii c).
Definition ascii_of_byte (b : Z) : ascii := ascii_of_N (Z.to_N b).

Fixpoint bytes_of_string (s : string) : bytes :=
  match s with
  | String.EmptyString => []
  | String.String c s => byte_of_ascii c :: bytes_of_string s
  end.
Fixpoint string_of_bytes (l : bytes) : string :=
  match l with
  | [] => String.EmptyString
  | b :: l => String.String (ascii_of_byte b) (string_of_bytes l)
  end.

Lemma byte_of_ascii_byte c : is_byte (byte_of_ascii c).
Proof. unfold is_byte, byte_of_ascii. pose proof (N_ascii_bounded c). lia. Qed.
Lemma bytes_of_string_bytes s : is_bytes (bytes_of_string s).
Proof. induction s; constructor; [apply byte_of_ascii_byte|done]. Qed.
Lemma string_of_bytes_of_string s : string_of_bytes (bytes_of_string s) = s.
Proof.
  induction s as [|c s IH]; cbn; [done|]. rewrite IH. f_equal.
  unfold ascii_of_byte, byte_of_ascii. rewrite N2Z.id. apply ascii_N_embedding.
Qed.
Lemma bytes_of_string_of_bytes l : is_bytes l -> bytes_of_string (string_of_bytes l) = l.
Proof.
  induction 1 as [|b l Hb Hl IH]; cbn; [done|]. rewrite IH. f_equal.
  unfold ascii_of_byte, byte_of_ascii, is_byte in *.
  rewrite N_ascii_embedding by lia. lia.
Qed.
#[export] Instance bytes_of_string_inj : Inj (=) (=) bytes_of_string.
Proof. intros a b H. by rewrite <- (string_of_bytes_of_string a), H, string_of_bytes_of_string. Qed.

Definition string_compare (a b : string) : comparison :=
  bytes_compare (bytes_of_string a) (bytes_of_string b).
Definition string_ltb (a b : string) : bool := bytes_ltb (bytes_of_string a) (bytes_of_string b).

Lemma string_compare_eq a b : string_compare a b = Eq <-> a = b.
Proof. unfold string_compare. rewrite bytes_compare_eq. split; [apply (inj _)|by intros ->]. Qed.

(** [len(s)]. *)
Definition slen (s : string) : Z := Z.of_nat (String.length s).

Lemma length_bytes_of_string s : length (bytes_of_string s) = String.length s.
Proof. induction s; cbn; congruence. Qed.
Lemma bytes_of_string_app a b :
  bytes_of_string (String.append a b) = bytes_of_string a ++ bytes_of_string b.
Proof.
  induction a as [|c a IH]; [done|].
  change (byte_of_ascii c :: bytes_of_string (String.append a b)
          = byte_of_ascii c :: bytes_of_string a ++ bytes_of_string b).
  by rewrite IH.
Qed.

(** [utf8.Valid]: shortest-form UTF-8, no surrogates, at most U+10FFFF. *)
Definition in_range (lo hi b : Z) : bool := (lo <=? b) && (b <=? hi).

Fixpoint utf8_valid (l : bytes) : bool :=
  match l with
  | [] => true
  | b0 :: l1 =>
    if in_range 0 0x7F b0 then utf8_valid l1
    else match l1 with
    | [] => false
    | b1 :: l2 =>
      if in_range 0xC2 0xDF b0 then in_range 0x80 0xBF b1 && utf8_valid l2
      else match l2 with
      | [] => false
      | b2 :: l3 =>
        if in_range 0xE0 0xEF b0 then
          in_range (if b0 =? 0xE0 then 0xA0 else 0x80) (if b0 =? 0xED then 0x9F else 0xBF) b1
          && in_range 0x80 0xBF b2 && utf8_valid l3
        else match l3 with
        | [] => false
        | b3 :: l4 =>
          if in_range 0xF0 0xF4 b0 then
            in_range (if b0 =? 0xF0 then 0x90 else 0x80) (if b0 =? 0xF4 then 0x8F else 0xBF) b1
            && in_range 0x80 0xBF b2 && in_range 0x80 0xBF b3 && utf8_valid l4
          else false
        end
      end
    end
  end.

Definition utf8_valid_string (s : string) : bool := utf8_valid (bytes_of_string s).

(** ** [sort.Slice] and [slices.SortFunc]

    Both promise a permutation sorted by [less]; neither promises stability, so
    clients are proved against this interface only. *)
Record strict_weak {A} (less : A -> A -> bool) : Prop := {
  sw_irrefl x : less x x = false;
  sw_trans x y z : less x y = true -> less y z = true -> less x z = true;
  sw_incomparable x y z : less x y = true -> less x z = true \/ less z y = true;
}.

Definition sorted_by {A} (less : A -> A -> bool) : list A -> Prop :=
  StronglySorted (fun x y => less y x = false).

Class SliceSort := {
  sort_slice : forall {A}, (A -> A -> bool) -> list A -> list A;
  sort_slice_perm : forall {A} (less : A -> A -> bool) l, sort_slice less l ≡ₚ l;
  sort_slice_sorted : forall {A} (less : A -> A -> bool) l,
    strict_weak less -> sorted_by less (sort_slice less l);
}.

(** A sorter that satisfies the interface: insertion sort. *)
Fixpoint insert_by {A} (less : A -> A -> bool) (x : A) (l : list A) : list A :=
  match l with
  | [] => [x]
  | y :: l' => if less y x then y :: insert_by less x l' else x :: l
  end.
Definition insertion_sort {A} (less : A -> A -> bool) (l : list A) : list A :=
  foldr (insert_by less) [] l.

Lemma insert_by_perm {A} (less : A -> A -> bool) x l : insert_by less x l ≡ₚ x :: l.
Proof.
  induction l as [|y l IH]; cbn; [done|]. destruct (less y x); [|done].
  rewrite IH. apply Permutation_swap.
Qed.
Lemma insertion_sort_perm {A} (less : A -> A -> bool) l : insertion_sort less l ≡ₚ l.
Proof. induction l as [|x l IH]; cbn; [done|]. by rewrite insert_by_perm, IH. Qed.

Lemma insert_by_sorted {A} (less : A -> A -> bool) x l :
  strict_weak less -> sorted_by less l -> sorted_by less (insert_by less x l).
Proof.
  intros Hsw; unfold sorted_by; induction 1 as [|y l Hl IH Hy]; cbn; [by repeat constructor|].
  destruct (less y x) eqn:E.
  - constructor; [done|]. rewrite insert_by_perm. constructor; [|done].
    destruct (less x y) eqn:E'; [|done].
    pose proof (sw_trans _ Hsw _ _ _ E E') as H1. by rewrite (sw_irrefl _ Hsw) in H1.
  - constructor; [by constructor|]. constructor; [done|].
    eapply Forall_impl; [exact Hy|]. cbn. intros z Hz.
    destruct (less z x) eqn:E'; [|done].
    destruct (sw_incomparable _ Hsw _ _ y E'); congruence.
Qed.
Lemma insertion_sort_sorted {A} (less : A -> A -> bool) l :
  strict_weak less -> sorted_by less (insertion_sort less l).
Proof. intros. induction l; cbn; [constructor|]. by apply insert_by_sorted. Qed.

Definition insertion_slice_sort : SliceSort := {|
  sort_slice _ less l := insertion_sort less l;
  sort_slice_perm _ := insertion_sort_perm;
  sort_slice_sorted _ := insertion_sort_sorted;
|}.

Lemma bytes_ltb_strict_weak {A} (key : A -> bytes) :
  strict_weak (fun x y => bytes_ltb (key x) (key y)).
Proof.
  split; intros *.
  - unfold bytes_ltb. by rewrite bytes_compare_refl.
  - rewrite !bytes_ltb_lt. apply bytes_compare_trans.
  - rewrite !bytes_ltb_lt. intros H.
    destruct (bytes_compare (key x) (key z)) eqn:E; [right|by left|right].
    + apply bytes_compare_eq in E. congruence.
    + apply bytes_compare_lt_gt in E. by eapply bytes_compare_trans.
Qed.

Lemma take_map {A B} (f : A -> B) n l : take n (map f l) = map f (take n l).
Proof. revert n; induction l; intros [|n]; cbn; congruence. Qed.
Lemma last_map {A B} (f : A -> B) l : last (map f l) = option_map f (last l).
Proof. induction l as [|x [|y l] IH]; cbn in *; [done..|]. exact IH. Qed.

Lemma NoDup_map_inj_elem {A B} (f : A -> B) l x y :
  NoDup (map f l) -> x ∈ l -> y ∈ l -> f x = f y -> x = y.
Proof.
  induction l as [|z l IH]; cbn; [by intros _ ?%elem_of_nil|].
  intros [Hz Hn]%NoDup_cons Hx Hy E. apply elem_of_cons in Hx, Hy.
  destruct Hx as [->|Hx], Hy as [->|Hy]; [done| | |auto]; exfalso; apply Hz;
    [rewrite E|rewrite <- E]; by apply list_elem_of_In, in_map, list_elem_of_In.
Qed.

(** ** [range] over a map

    The language leaves the order of the entries open: clients are proved for
    every order. *)
Class RangeOrder := {
  range : forall {K} `{Countable K} {A}, gmap K A -> list (K * A);
  range_perm : forall {K} `{Countable K} {A} (m : gmap K A), range m ≡ₚ map_to_list m;
}.
Definition any_range_order : RangeOrder := {|
  range _ _ _ _ m := map_to_list m; range_perm _ _ _ _ m := Permutation_refl (map_to_list m);
|}.
Lemma elem_of_range `{RangeOrder} {K} `{Countable K} {A} (m : gmap K A) k x : (k, x) ∈ range m <-> m !! k = Some x.
Proof. by rewrite range_perm, elem_of_map_to_list. Qed.
Lemma length_range `{RangeOrder} {K} `{Countable K} {A} (m : gmap K A) : length (range m) = size m.
Proof. rewrite <- length_map_to_list. by apply Permutation_length, range_perm. Qed.

Lemma filter_none {A} (P : A -> bool) l : (forall x, x ∈ l -> P x = false) -> List.filter P l = [].
Proof.
  induction l as [|x l IH]; intros H; [done|]. cbn. rewrite (H x) by left.
  apply IH. intros y Hy. apply H. by right.
Qed.

(** ** Automation shared by the components *)
Create HintDb syntrix.
#[export] Hint Resolve is_bytes_app bytes_compare_refl be_bytes_bytes bytes_of_string_bytes
  bnot_byte byte_of_ascii_byte : syntrix.

(** * Priority queues: container/heap as the code uses it

    A queue is the slice [heap.Push] and [heap.Pop] keep in heap order; the code
    reads its first element and its length directly. The interface is what the
    package documents; a slice kept sorted satisfies it. *)
Local Close Scope Z_scope.

Class GoHeap := {
  heap_ok : forall {A}, (A -> A -> bool) -> list A -> Prop;
  heap_push : forall {A}, (A -> A -> bool) -> list A -> A -> list A;
  heap_pop : forall {A}, (A -> A -> bool) -> list A -> list A;   (** what is left without the first element *)
  heap_ok_nil : forall {A} (less : A -> A -> bool), heap_ok less [];
  heap_ok_push : forall {A} (less : A -> A -> bool) h x,
    strict_weak less -> heap_ok less h -> heap_ok less (heap_push less h x);
  heap_ok_pop : forall {A} (less : A -> A -> bool) x h,
    strict_weak less -> heap_ok less (x :: h) -> heap_ok less (heap_pop less (x :: h));
  heap_push_perm : forall {A} (less : A -> A -> bool) h x, heap_push less h x ≡ₚ x :: h;
  heap_pop_perm : forall {A} (less : A -> A -> bool) x h, heap_pop less (x :: h) ≡ₚ h;
  heap_min : forall {A} (less : A -> A -> bool) x h,
    strict_weak less -> heap_ok less (x :: h) -> Forall (fun y => less y x = false) h;
}.

Definition sorted_heap : GoHeap.
Proof.
  refine {| heap_ok A less h := sorted_by less h;
            heap_push A less h x := insert_by less x h;
            heap_pop A less h := tail h |}.
  - constructor.
  - intros. by apply insert_by_sorted.
  - intros A less x h _ H. by apply StronglySorted_inv in H as [? _].
  - intros. apply insert_by_perm.
  - done.
  - intros A less x h _ H. by apply StronglySorted_inv in H as [_ ?].
Defined.

Section Facts.
Context `{GH : GoHeap} {A : Type} (less : A -> A -> bool) (Hless : strict_weak less).

(** The first element is a least one of the queue. *)
Lemma heap_top_least x h y : heap_ok less (x :: h) -> y ∈ x :: h -> less y x = false.
Proof.
  intros Hok [->|Hy]%elem_of_cons.
  - destruct (less x x) eqn:E; [|done]. by rewrite (sw_irrefl _ Hless) in E.
  - pose proof (heap_min less x h Hless Hok) as F. by rewrite Forall_forall in F; apply F.
Qed.
End Facts.
