(* ===== verification/PostingSet.v ===== *)
(** * Reverse rows: the posting keys of one document as one value
      (encodePostingSet and decodePostingSet of
      internal/indexer/persist_store/projection.go)

    A count and the length of each key as [encoding/binary]'s unsigned varints,
    kept at 64 bits, then the bytes of the key. *)
From stdpp Require Import base list.
From Stdlib Require Import ZArith.
From S2P Require Import Prelude.
Local Open Scope Z_scope.

(** ** Varints of [encoding/binary]: seven bits a byte, the least first; ten
    bytes hold any uint64, so nine continuation bytes are enough fuel *)
Fixpoint put_uvarint (fuel : nat) (x : Z) : bytes :=
  match fuel with
  | O => [u8 x]
  | S fuel => if 128 <=? x then Z.lor (u8 x) 128 :: put_uvarint fuel (Z.shiftr x 7) else [u8 x]
  end.
Definition AppendUvarint (buf : bytes) (x : Z) : bytes := buf ++ put_uvarint 9 x.

(** The value and the number of bytes read, which is 0 when the buffer is too
    short and negative when the value does not fit 64 bits. *)
Fixpoint uvarint_from (i : Z) (x s : Z) (buf : bytes) : Z * Z :=
  match buf with
  | [] => (0, 0)
  | b :: buf =>
      if i =? 10 then (0, - (i + 1))
      else if b <? 128 then
        if (i =? 9) && (1 <? b) then (0, - (i + 1)) else (Z.lor x (u64 (Z.shiftl b s)), i + 1)
      else uvarint_from (i + 1) (Z.lor x (u64 (Z.shiftl (Z.land b 127) s))) (s + 7) buf
  end.
Definition Uvarint (buf : bytes) : Z * Z := uvarint_from 0 0 0 buf.

(** ** The posting set *)
Inductive decode_error := ErrPostingSet | ErrPostingLength | ErrPostingTrailing.

Definition encodePostingSet (keys : list bytes) : bytes :=
  foldl (fun encoded key => AppendUvarint encoded (Z.of_nat (length key)) ++ key)
    (AppendUvarint [] (Z.of_nat (length keys))) keys.

Fixpoint decode_keys (count : nat) (encoded : bytes) : res decode_error (list bytes * bytes) :=
  match count with
  | O => Ok ([], encoded)
  | S count =>
      let '(size, n) := Uvarint encoded in
      if n <=? 0 then Err ErrPostingLength
      else
        let encoded := drop (Z.to_nat n) encoded in
        if (size =? 0) || (Z.of_nat (length encoded) <? size) then Err ErrPostingLength
        else
          r ← decode_keys count (drop (Z.to_nat size) encoded);
          Ok (take (Z.to_nat size) encoded :: r.1, r.2)
  end.

Definition decodePostingSet (encoded : bytes) : res decode_error (list bytes) :=
  let '(count, n) := Uvarint encoded in
  if (n <=? 0) || (Z.of_nat (length encoded) <? count) then Err ErrPostingSet
  else
    r ← decode_keys (Z.to_nat count) (drop (Z.to_nat n) encoded);
    match r.2 with [] => Ok r.1 | _ => Err ErrPostingTrailing end.

(** ** Round trip *)
Lemma continuation_byte b : is_byte b -> 128 <= Z.lor b 128 < 256 /\ Z.land (Z.lor b 128) 127 = b mod 128.
Proof.
  unfold is_byte; intros Hb.
  assert (forallb (fun n => let b := Z.of_nat n in
    (128 <=? Z.lor b 128) && (Z.lor b 128 <? 256) && (Z.land (Z.lor b 128) 127 =? b mod 128)) (seq 0 256) = true)
    as H by (vm_compute; reflexivity).
  rewrite forallb_forall in H. specialize (H (Z.to_nat b)). rewrite Z2Nat.id in H by lia.
  specialize (H ltac:(apply in_seq; lia)). cbv zeta in H. lia.
Qed.

(** Bits above those of the accumulator are added to it. *)
Lemma lor_shiftl x y s : 0 <= s -> 0 <= x < 2 ^ s -> Z.lor x (Z.shiftl y s) = x + y * 2 ^ s.
Proof.
  intros Hs Hx. pose proof (Z.pow_pos_nonneg 2 s). rewrite Z.shiftl_mul_pow2 by done. apply Z.bits_inj'. intros n Hn. rewrite Z.lor_spec.
  destruct (Z.lt_ge_cases n s).
  - rewrite Z.mul_pow2_bits_low, orb_false_r by lia.
    rewrite <- (Z.mod_pow2_bits_low (x + y * 2 ^ s) s n) by lia. by rewrite Z.mod_add, Z.mod_small by lia.
  - assert (E : Z.testbit x n = false).
    { destruct (Z.eq_dec x 0) as [->|]; [apply Z.bits_0|]. apply Z.bits_above_log2; [lia|]. apply Z.log2_lt_pow2; [lia|].
      apply Z.lt_le_trans with (2 ^ s); [lia|]. apply Z.pow_le_mono_r; lia. }
    rewrite E, orb_false_l, Z.mul_pow2_bits by done.
    replace n with (n - s + s) at 2 by lia. rewrite <- Z.shiftr_spec, Z.shiftr_div_pow2 by lia.
    rewrite Z.div_add, Z.div_small by lia. done.
Qed.

Lemma uvarint_from_put fuel i x y rest :
  i + Z.of_nat fuel = 9 -> 0 <= i -> 0 <= x < 2 ^ (7 * i) -> 0 <= y < 2 ^ (64 - 7 * i) ->
  uvarint_from i x (7 * i) (put_uvarint fuel y ++ rest)
  = (x + y * 2 ^ (7 * i), i + Z.of_nat (length (put_uvarint fuel y))).
Proof.
  revert i x y; induction fuel as [|fuel IH]; intros i x y Hi H0 Hx Hy.
  - assert (i = 9) as -> by lia. cbn in Hy. cbn [put_uvarint app uvarint_from].
    unfold u8. rewrite Z.mod_small by lia. cbn [Z.eqb Pos.eqb]. rewrite (proj2 (Z.ltb_lt y 128)) by lia.
    rewrite (proj2 (Z.ltb_ge 1 y)) by lia. cbn [andb]. rewrite u64_id, lor_shiftl by (rewrite ?Z.shiftl_mul_pow2; unfold is_u64; lia).
    done.
  - cbn [put_uvarint]. destruct (Z.leb_spec 128 y) as [Hge|Hlt].
    + cbn [app uvarint_from]. rewrite (proj2 (Z.eqb_neq i 10)) by lia.
      destruct (continuation_byte (u8 y)) as [Hb El]; [unfold u8, is_byte; apply Z.mod_pos_bound; lia|].
      rewrite (proj2 (Z.ltb_ge _ 128)) by lia. rewrite El. unfold u8 in *.
      replace ((y mod 2 ^ 8) mod 128) with (y mod 128) by (change (2 ^ 8) with (128 * 2); rewrite Z.rem_mul_r, Z.mul_comm, Z.mod_add, Z.mod_mod by lia; done).
      pose proof (Z.mod_pos_bound y 128 ltac:(lia)). pose proof (Z.div_mod y 128 ltac:(lia)).
      assert (Hi8 : i <= 8) by lia.
      assert (Hp : 0 < 2 ^ (7 * i)) by (apply Z.pow_pos_nonneg; lia).
      assert (Hmul : 2 ^ (64 - 7 * i) * 2 ^ (7 * i) = 2 ^ 64) by (rewrite <- Z.pow_add_r by lia; f_equal; lia).
      rewrite u64_id, lor_shiftl by (rewrite ?Z.shiftl_mul_pow2 by lia; unfold is_u64; nia).
      replace (7 * i + 7) with (7 * (i + 1)) by lia.
      assert (E7 : 2 ^ (7 * (i + 1)) = 128 * 2 ^ (7 * i)) by (rewrite Z.mul_add_distr_l, Z.pow_add_r by lia; lia).
      rewrite Z.shiftr_div_pow2 by lia. change (2 ^ 7) with 128. rewrite IH.
      * f_equal; [rewrite E7; nia|cbn [length]; lia].
      * lia.
      * lia.
      * rewrite E7. nia.
      * split; [apply Z.div_pos; lia|]. apply Z.div_lt_upper_bound; [lia|].
        replace (64 - 7 * (i + 1)) with (64 - 7 * i - 7) by lia.
        assert (128 * 2 ^ (64 - 7 * i - 7) = 2 ^ (64 - 7 * i)); [|lia].
        change 128 with (2 ^ 7). rewrite <- Z.pow_add_r by lia. f_equal; lia.
    + unfold u8. rewrite Z.mod_small by lia. cbn [app uvarint_from]. rewrite (proj2 (Z.eqb_neq i 10)) by lia.
      rewrite (proj2 (Z.ltb_lt y 128)) by lia. rewrite (proj2 (Z.eqb_neq i 9)) by lia. cbn [andb].
      assert (Hmul : 2 ^ (64 - 7 * i) * 2 ^ (7 * i) = 2 ^ 64) by (rewrite <- Z.pow_add_r by lia; f_equal; lia).
      assert (Hp : 0 < 2 ^ (7 * i)) by (apply Z.pow_pos_nonneg; lia).
      rewrite u64_id, lor_shiftl by (rewrite ?Z.shiftl_mul_pow2 by lia; unfold is_u64; nia). cbn [length]. done.
Qed.

Lemma Uvarint_put x rest : is_u64 x -> Uvarint (put_uvarint 9 x ++ rest) = (x, Z.of_nat (length (put_uvarint 9 x))).
Proof.
  intros Hx. unfold Uvarint. change 0 with (7 * 0) at 3. rewrite uvarint_from_put by (unfold is_u64 in *; lia).
  f_equal; cbn; lia.
Qed.
Lemma put_uvarint_pos fuel x : (0 < length (put_uvarint fuel x))%nat.
Proof. destruct fuel; cbn; [lia|]. destruct (128 <=? x); cbn; lia. Qed.

Lemma put_uvarint_bytes fuel x : 0 <= x -> is_bytes (put_uvarint fuel x).
Proof.
  revert x; induction fuel as [|fuel IH]; intros x Hx; cbn.
  - repeat constructor; apply Z.mod_pos_bound; lia.
  - assert (is_byte (u8 x)) by (apply Z.mod_pos_bound; lia). destruct (128 <=? x).
    + constructor; [destruct (continuation_byte (u8 x)); [done|unfold is_byte; lia]|]. apply IH, Z.shiftr_nonneg, Hx.
    + constructor; [done|constructor].
Qed.

(** The encoding of the keys that follow the count. *)
Definition encode_keys (keys : list bytes) : bytes :=
  concat (map (fun key => put_uvarint 9 (Z.of_nat (length key)) ++ key) keys).

Lemma encodePostingSet_eq keys : encodePostingSet keys = put_uvarint 9 (Z.of_nat (length keys)) ++ encode_keys keys.
Proof.
  unfold encodePostingSet, encode_keys, AppendUvarint. cbn [app].
  generalize (put_uvarint 9 (Z.of_nat (length keys))) as acc. induction keys as [|key keys IH]; intros acc; cbn; [by rewrite app_nil_r|].
  rewrite IH. by rewrite <- !app_assoc.
Qed.

(** A non-empty key whose length is a uint64. *)
Definition storable (key : bytes) : Prop := key <> [] /\ is_u64 (Z.of_nat (length key)).

Lemma decode_keys_encode keys rest :
  Forall storable keys -> decode_keys (length keys) (encode_keys keys ++ rest) = Ok (keys, rest).
Proof.
  induction 1 as [|key keys [Hne Hlen] Hkeys IH]; [done|]. cbn [length decode_keys].
  unfold encode_keys. cbn [map concat]. fold (encode_keys keys). rewrite <- !app_assoc.
  rewrite Uvarint_put by done. pose proof (put_uvarint_pos 9 (Z.of_nat (length key))).
  rewrite (proj2 (Z.leb_gt _ 0)) by lia. rewrite Nat2Z.id, drop_app_length.
  destruct key as [|b key]; [done|]. rewrite (proj2 (Z.eqb_neq _ 0)) by (cbn; lia).
  rewrite (proj2 (Z.ltb_ge _ _)) by (rewrite length_app; lia). cbn [orb].
  rewrite Nat2Z.id, drop_app_length, take_app_length, IH. done.
Qed.

Lemma length_encode_keys keys : Forall storable keys -> (length keys <= length (encode_keys keys))%nat.
Proof.
  induction 1 as [|key keys [Hne _] _ IH]; [done|]. unfold encode_keys in *. cbn [map concat length]. rewrite !length_app.
  destruct key; [done|]. cbn [length]. lia.
Qed.

Lemma decode_encodePostingSet keys :
  Forall storable keys -> is_u64 (Z.of_nat (length keys)) -> decodePostingSet (encodePostingSet keys) = Ok keys.
Proof.
  intros Hk Hl. rewrite encodePostingSet_eq. unfold decodePostingSet. rewrite Uvarint_put by done.
  pose proof (put_uvarint_pos 9 (Z.of_nat (length keys))). pose proof (length_encode_keys keys Hk).
  rewrite (proj2 (Z.leb_gt _ 0)) by lia. rewrite (proj2 (Z.ltb_ge _ _)) by (rewrite length_app; lia). cbn [orb].
  rewrite !Nat2Z.id, drop_app_length. rewrite <- (app_nil_r (encode_keys keys)), decode_keys_encode by done. done.
Qed.
