(* ===== verification/Value.v ===== *)
(** * Values: pkg/model/value.go

    The dynamic values a document field or a query operand can hold, their
    normalisation to the int64 / finite-binary64 / UTF-8 domain, the byte key
    that orders scalars exactly, and the byte-level validation of JSON unicode
    escapes. A [float64] is its IEEE-754 bit pattern, so every comparison below
    is exact. *)
From stdpp Require Import base list gmap strings.
From Stdlib Require Import ZArith Ascii.
From Stdlib Require String.
From S2P Require Import Prelude.
#[local] Set Warnings "-register-all".
Local Open Scope Z_scope.

(** ** binary64 and binary32 bit patterns *)
Definition f64_sign (b : Z) : bool := Z.testbit b 63.
Definition f64_exp (b : Z) : Z := Z.land (Z.shiftr b 52) 0x7ff.
Definition f64_frac (b : Z) : Z := Z.land b (2 ^ 52 - 1).

Definition IsNaN (b : Z) : bool := (f64_exp b =? 0x7ff) && negb (f64_frac b =? 0).
Definition IsInf (b : Z) : bool := (f64_exp b =? 0x7ff) && (f64_frac b =? 0).
(** [v == 0]: both zeros. *)
Definition f64_is_zero (b : Z) : bool := (f64_exp b =? 0) && (f64_frac b =? 0).
(** [floating < 0]. *)
Definition f64_neg (b : Z) : bool := f64_sign b && negb (f64_is_zero b) && negb (IsNaN b).
(** [math.Float64bits(math.Abs(v))]. *)
Definition f64_abs (b : Z) : Z := Z.land b (2 ^ 63 - 1).

(** [float64(v)] of a float32, exact. *)
Definition f64_of_f32 (b : Z) : Z :=
  let sign := if Z.testbit b 31 then 2 ^ 63 else 0 in
  let e := Z.land (Z.shiftr b 23) 0xff in
  let f := Z.land b (2 ^ 23 - 1) in
  if e =? 0xff then sign + 0x7ff * 2 ^ 52 + f * 2 ^ 29
  else if e =? 0 then
    if f =? 0 then sign
    else let l := Z.log2 f in
         sign + (l - 149 + 1023) * 2 ^ 52 + (f * 2 ^ (52 - l) - 2 ^ 52)
  else sign + (e - 127 + 1023) * 2 ^ 52 + f * 2 ^ 29.

(** The exact value of a finite binary64, in units of [2^-1074]. *)
Definition f64_scaled (b : Z) : Z :=
  let m := if f64_exp b =? 0 then f64_frac b
           else (2 ^ 52 + f64_frac b) * 2 ^ (f64_exp b - 1) in
  if f64_sign b then - m else m.

(** ** strconv: what [json.Number] uses *)
Definition is_digit (b : Z) : bool := in_range 48 57 b.

Fixpoint digits_value (acc : Z) (l : bytes) : option Z :=
  match l with
  | [] => Some acc
  | b :: l => if is_digit b then digits_value (acc * 10 + (b - 48)) l else None
  end.

Definition split_sign (l : bytes) : bool * bytes :=
  match l with
  | b :: l' => if b =? 45 then (true, l') else if b =? 43 then (false, l') else (false, l)
  | [] => (false, [])
  end.

(** [strconv.ParseInt(s, 10, 64)]; [None] is a syntax or a range error. *)
Definition parse_int64 (s : string) : option Z :=
  let '(neg, ds) := split_sign (bytes_of_string s) in
  match ds with
  | [] => None
  | _ => n ← digits_value 0 ds;
         let i := if neg : bool then - n else n in
         if ((- 2 ^ 63 <=? i) && (i <? 2 ^ 63))%bool then Some i else None
  end.

(** The longest prefix of digits, and what follows it. *)
Fixpoint span_digits (l : bytes) : bytes * bytes :=
  match l with
  | [] => ([], [])
  | b :: l' => if is_digit b then let '(d, r) := span_digits l' in (b :: d, r) else ([], l)
  end.

Definition round_half_even (n d : Z) : Z :=
  let q := n / d in
  match 2 * (n - q * d) ?= d with
  | Lt => q | Gt => q + 1 | Eq => if Z.even q then q else q + 1
  end.

(** The binary64 nearest to [n / d] (ties to even); [None] beyond the finite range. *)
Definition f64_of_ratio (n d : Z) : option Z :=
  if n =? 0 then Some 0
  else
    let g := Z.log2 n - Z.log2 d in
    let e := if n * 2 ^ Z.max 0 (- g) <? d * 2 ^ Z.max 0 g then g - 1 else g in
    let t := Z.max (e - 52) (-1074) in
    let r := round_half_even (n * 2 ^ Z.max 0 (- t)) (d * 2 ^ Z.max 0 t) in
    let b := (t + 1074) * 2 ^ 52 + r in
    if b <? 0x7ff * 2 ^ 52 then Some b else None.

(** [strconv.ParseFloat(s, 64)] on the decimal literals a [json.Number] holds. *)
Definition parse_float64 (s : string) : option Z :=
  let '(neg, l) := split_sign (bytes_of_string s) in
  let '(ip, r) := span_digits l in
  let '(fp, r) := match r with
                  | 46 :: r' => span_digits r'
                  | _ => ([], r)
                  end in
  match ip ++ fp with
  | [] => None
  | ds =>
    ex ← match r with
         | [] => Some 0
         | b :: r' =>
           if (b =? 101) || (b =? 69) then
             let '(eneg, ed) := split_sign r' in
             match ed with
             | [] => None
             | _ => n ← digits_value 0 ed; Some (if eneg : bool then - n else n)
             end
           else None
         end;
    m ← digits_value 0 ds;
    let ex := ex - Z.of_nat (length fp) in
    b ← f64_of_ratio (m * 10 ^ Z.max 0 ex) (10 ^ Z.max 0 (- ex));
    Some (if neg : bool then 2 ^ 63 + b else b)
  end.

(** [strings.ContainsAny(s, ".eE")]. *)
Definition has_float_syntax (s : string) : bool :=
  existsb (fun b => (b =? 46) || (b =? 101) || (b =? 69)) (bytes_of_string s).

(** ** Values *)
Inductive int_kind := KInt | KInt8 | KInt16 | KInt32 | KInt64.

(** [any]: a slice stands for every Go slice or array, a map (in its iteration
    order) for every Go map with string keys, [VOther] for the remaining types. *)
Inductive value :=
| VNil
| VBool (b : bool)
| VString (s : string)
| VInt (k : int_kind) (i : Z)
| VFloat32 (bits : Z)
| VFloat64 (bits : Z)
| VNumber (s : string)
| VSlice (l : list value)
| VMap (m : list (string * value))
| VOther (type_name : string).

Inductive value_error :=
| ErrValueUTF8
| ErrNonFinite
| ErrIntDomain
| ErrInvalidNumber (s : string)
| ErrArrayElement (i : nat) (e : value_error)
| ErrKeyUTF8
| ErrObjectField (key : string) (e : value_error)
| ErrUnsupportedType (type_name : string)
| ErrNotScalar.

(** The [float64] case of NormalizeValue. *)
Definition normalize_float (b : Z) : res value_error value :=
  if IsNaN b || IsInf b then Err ErrNonFinite
  else if f64_is_zero b then Ok (VFloat64 0)
  else Ok (VFloat64 b).

Fixpoint NormalizeValue (v : value) : res value_error value :=
  match v with
  | VNil | VBool _ => Ok v
  | VString s => if utf8_valid_string s then Ok v else Err ErrValueUTF8
  | VInt _ i => Ok (VInt KInt64 i)
  | VFloat32 b => normalize_float (f64_of_f32 b)
  | VFloat64 b => normalize_float b
  | VNumber s =>
      if negb (has_float_syntax s) then
        match parse_int64 s with
        | Some i => Ok (VInt KInt64 i)
        | None => Err ErrIntDomain
        end
      else match parse_float64 s with
           | Some f => normalize_float f
           | None => Err (ErrInvalidNumber s)
           end
  | VSlice l =>
      VSlice <$> (fix items i l := match l with
                  | [] => Ok []
                  | x :: l => y ← map_err (ErrArrayElement i) (NormalizeValue x);
                              ys ← items (S i) l; Ok (y :: ys)
                  end) O l
  | VMap m =>
      VMap <$> (fix fields m := match m with
                | [] => Ok []
                | (k, x) :: m =>
                    if utf8_valid_string k then
                      y ← map_err (ErrObjectField k) (NormalizeValue x);
                      ys ← fields m; Ok ((k, y) :: ys)
                    else Err ErrKeyUTF8
                end) m
  | VOther n => Err (ErrUnsupportedType n)
  end.

(** ** Scalar keys *)

(** Sign, normalised significand and binary exponent of a number, as numberKey
    computes them before it lays the bytes out. *)
Definition number_parts (integer floating : Z) (isInteger : bool) : bool * Z * Z :=
  if isInteger then
    let negative := integer <? 0 in
    let magnitude := if negative then u64 (u64 (i64 (- i64 (integer + 1))) + 1) else u64 integer in
    if negb (magnitude =? 0) then
      let length := Len64 magnitude in
      (negative, u64 (Z.shiftl magnitude (64 - length)), length - 1)
    else (negative, 0, 0)
  else
    let negative := f64_neg floating in
    let raw := f64_abs floating in
    let fraction := Z.land raw (2 ^ 52 - 1) in
    let encodedExponent := Z.land (Z.shiftr raw 52) 0x7ff in
    if encodedExponent =? 0 then
      if negb (fraction =? 0) then
        let length := Len64 fraction in
        (negative, u64 (Z.shiftl fraction (64 - length)), -1074 + length - 1)
      else (negative, 0, 0)
    else (negative, u64 (Z.shiftl (Z.lor (2 ^ 52) fraction) 11), encodedExponent - 1023).

Definition numberKey (integer floating : Z) (isInteger : bool) : bytes :=
  let '(negative, significand, exponent) := number_parts integer floating isInteger in
  if significand =? 0 then [0x40; 1; 0; 0; 0; 0; 0; 0; 0; 0; 0; 0]
  else
    let body := be_bytes 2 (u16 (exponent + 1074)) ++ be_bytes 8 significand in
    if negative then 0x40 :: 0 :: map bnot body else 0x40 :: 2 :: body.

Definition ScalarKey (v : value) : res value_error bytes :=
  n ← NormalizeValue v;
  match n with
  | VNil => Ok [0x10]
  | VBool b => Ok [if b then 0x30 else 0x20]
  | VString s => Ok (0x50 :: bytes_of_string s)
  | VInt _ i => Ok (numberKey i 0 true)
  | VFloat64 b => Ok (numberKey 0 b false)
  | _ => Err ErrNotScalar
  end.

Definition CompareValues (a b : value) : res value_error comparison :=
  left ← ScalarKey a;
  right ← ScalarKey b;
  Ok (bytes_compare left right).

Definition EqualValues (a b : value) : bool :=
  match CompareValues a b with Ok Eq => true | _ => false end.

(** ** Well-formed values: what Go's types guarantee *)
Definition int_bound (k : int_kind) : Z :=
  match k with KInt8 => 2 ^ 7 | KInt16 => 2 ^ 15 | KInt32 => 2 ^ 31 | KInt | KInt64 => 2 ^ 63 end.

Fixpoint wf_value (v : value) : Prop :=
  match v with
  | VNil | VBool _ | VString _ | VNumber _ | VOther _ => True
  | VInt k i => - int_bound k <= i < int_bound k
  | VFloat32 b => is_u32 b
  | VFloat64 b => is_u64 b
  | VSlice l => (fix all l := match l with [] => True | x :: l => wf_value x /\ all l end) l
  | VMap m => NoDup (map fst m) /\
              (fix all m := match m with [] => True | (_, x) :: m => wf_value x /\ all m end) m
  end.

(** ** Fields of a bit pattern *)
Lemma f64_exp_div b : f64_exp b = (b / 2 ^ 52) mod 2 ^ 11.
Proof. unfold f64_exp. change 0x7ff with (Z.ones 11). by rewrite Z.land_ones, Z.shiftr_div_pow2 by lia. Qed.
Lemma f64_frac_mod b : f64_frac b = b mod 2 ^ 52.
Proof. unfold f64_frac. change (2 ^ 52 - 1) with (Z.ones 52). by rewrite Z.land_ones by lia. Qed.
Lemma f64_sign_ge b : is_u64 b -> f64_sign b = (2 ^ 63 <=? b).
Proof.
  unfold f64_sign, is_u64; intros. rewrite Z.testbit_eqb by lia.
  destruct (Z.leb_spec (2 ^ 63) b).
  - replace (b / 2 ^ 63) with 1 by (apply Z.div_unique with (b - 2 ^ 63); lia). done.
  - rewrite Z.div_small by lia. done.
Qed.
Lemma f64_exp_range b : 0 <= f64_exp b < 2 ^ 11.
Proof. rewrite f64_exp_div. apply Z.mod_pos_bound; lia. Qed.
Lemma f64_frac_range b : 0 <= f64_frac b < 2 ^ 52.
Proof. rewrite f64_frac_mod. apply Z.mod_pos_bound; lia. Qed.

Lemma f64_abs_frac b : Z.land (f64_abs b) (2 ^ 52 - 1) = f64_frac b.
Proof.
  unfold f64_abs, f64_frac. rewrite <- Z.land_assoc. f_equal.
Qed.
Lemma f64_abs_exp b : Z.land (Z.shiftr (f64_abs b) 52) 0x7ff = f64_exp b.
Proof.
  unfold f64_abs, f64_exp. rewrite Z.shiftr_land, <- Z.land_assoc. f_equal.
Qed.

Definition f64_finite (b : Z) : Prop := is_u64 b /\ f64_exp b <> 0x7ff.

Lemma normalize_float_ok b v :
  is_u64 b -> normalize_float b = Ok v ->
  exists b', v = VFloat64 b' /\ f64_finite b' /\ f64_scaled b' = f64_scaled b
             /\ (f64_is_zero b' = true -> b' = 0).
Proof.
  unfold normalize_float, IsNaN, IsInf. intros Hb.
  destruct (f64_exp b =? 0x7ff) eqn:E; cbn.
  { destruct (f64_frac b =? 0); done. }
  apply Z.eqb_neq in E. destruct (f64_is_zero b) eqn:Z0; intros [= <-].
  - exists 0. repeat split; try done.
    unfold f64_is_zero in Z0. apply andb_prop in Z0 as [He Hf].
    apply Z.eqb_eq in He, Hf. change (f64_scaled 0) with 0. unfold f64_scaled. rewrite He, Hf.
    destruct (f64_sign b); done.
  - exists b. split; [done|]. repeat split; [apply Hb|apply Hb|done|congruence].
Qed.

(** ** Ranges of the conversions *)
Lemma f64_of_f32_range b : is_u32 b -> is_u64 (f64_of_f32 b).
Proof.
  unfold is_u32, is_u64, f64_of_f32; intros Hb.
  set (s := if Z.testbit b 31 then 2 ^ 63 else 0).
  assert (s = 0 \/ s = 2 ^ 63) as Hs by (unfold s; destruct (Z.testbit b 31); auto).
  change 0xff with (Z.ones 8). change (2 ^ 23 - 1) with (Z.ones 23).
  rewrite !Z.land_ones by lia.
  pose proof (Z.mod_pos_bound (Z.shiftr b 23) (2 ^ 8) ltac:(lia)) as He.
  pose proof (Z.mod_pos_bound b (2 ^ 23) ltac:(lia)) as Hf.
  set (e := Z.shiftr b 23 mod 2 ^ 8) in *. set (f := b mod 2 ^ 23) in *.
  change (Z.ones 8) with 255.
  destruct (e =? 255) eqn:E1; [lia|]. apply Z.eqb_neq in E1.
  destruct (e =? 0) eqn:E2; [|lia].
  destruct (f =? 0) eqn:E3; [lia|]. apply Z.eqb_neq in E3.
  pose proof (Z.log2_spec f ltac:(lia)) as [H1 H2].
  assert (0 <= Z.log2 f < 23) as Hl.
  { split; [apply Z.log2_nonneg|]. apply Z.log2_lt_pow2; lia. }
  assert (2 ^ 52 <= f * 2 ^ (52 - Z.log2 f) < 2 ^ 53) as Hm.
  { replace (2 ^ 52) with (2 ^ Z.log2 f * 2 ^ (52 - Z.log2 f)) by (rewrite <- Z.pow_add_r by lia; f_equal; lia).
    replace (2 ^ 53) with (2 ^ Z.succ (Z.log2 f) * 2 ^ (52 - Z.log2 f)) by (rewrite <- Z.pow_add_r by lia; f_equal; lia).
    pose proof (Z.pow_pos_nonneg 2 (52 - Z.log2 f) ltac:(lia) ltac:(lia)). nia. }
  lia.
Qed.

Lemma round_half_even_nonneg n d : 0 <= n -> 0 < d -> 0 <= round_half_even n d.
Proof.
  intros. unfold round_half_even. pose proof (Z.div_pos n d ltac:(lia) ltac:(lia)).
  destruct (_ ?= _); try destruct (Z.even _); lia.
Qed.

Lemma f64_of_ratio_range n d b : 0 <= n -> 0 < d -> f64_of_ratio n d = Some b -> 0 <= b < 2 ^ 63.
Proof.
  unfold f64_of_ratio; intros Hn Hd. destruct (n =? 0); [intros [= <-]; lia|]. cbv zeta.
  set (t := Z.max _ (-1074)). set (r := round_half_even _ _).
  destruct ((t + 1074) * 2 ^ 52 + r <? _) eqn:E; intros H; [|discriminate H].
  assert (b = (t + 1074) * 2 ^ 52 + r) as -> by congruence. clear H. apply Z.ltb_lt in E.
  assert (0 <= r).
  { apply round_half_even_nonneg; [|]; pose proof (Z.pow_pos_nonneg 2 (Z.max 0 (- t)));
      pose proof (Z.pow_pos_nonneg 2 (Z.max 0 t)); nia. }
  assert (0 <= t + 1074) by (unfold t; lia). lia.
Qed.

Lemma digits_value_nonneg acc l n : 0 <= acc -> digits_value acc l = Some n -> 0 <= n.
Proof.
  revert acc; induction l as [|b l IH]; cbn; intros acc Hacc; [by intros [= <-]|].
  unfold is_digit, in_range. destruct ((48 <=? b) && (b <=? 57)) eqn:E; [|done].
  apply andb_prop in E as [E1 E2]. apply Z.leb_le in E1, E2. apply IH. lia.
Qed.

Lemma parse_int64_range s i : parse_int64 s = Some i -> is_i64 i.
Proof.
  unfold parse_int64. destruct (split_sign _) as [neg [|d ds]]; [done|]. cbn [mbind option_bind].
  destruct (digits_value 0 (d :: ds)); cbn; [|done].
  destruct (_ && _)%bool eqn:E; intros [= <-].
  apply andb_prop in E as [E1 E2]. apply Z.leb_le in E1. apply Z.ltb_lt in E2.
  unfold is_i64; lia.
Qed.

Lemma parse_float64_range s b : parse_float64 s = Some b -> is_u64 b.
Proof.
  unfold parse_float64. destruct (split_sign _) as [neg l]. destruct (span_digits l) as [ip r].
  destruct (match r with 46 :: r' => span_digits r' | _ => ([], r) end) as [fp r'].
  destruct (ip ++ fp) as [|d ds]; [done|].
  intros H. apply bind_Some in H as (ex & _ & H). apply bind_Some in H as (m & Hm & H).
  apply bind_Some in H as (b' & Hb & [= <-]).
  apply digits_value_nonneg in Hm; [|lia].
  apply f64_of_ratio_range in Hb.
  - unfold is_u64. destruct neg; lia.
  - pose proof (Z.pow_pos_nonneg 10 (Z.max 0 (ex - Z.of_nat (length fp)))). nia.
  - apply Z.pow_pos_nonneg; lia.
Qed.

(** ** Numbers: the key orders them by exact value *)

(** What numberKey needs of a number: its sign, normalised significand and
    exponent represent the scaled value exactly. *)
Record parts_of (x : Z) (p : bool * Z * Z) : Prop := {
  parts_neg : p.1.1 = (x <? 0);
  parts_zero : p.1.2 = 0 <-> x = 0;
  parts_norm : x <> 0 -> 2 ^ 63 <= p.1.2 < 2 ^ 64;
  parts_exp : x <> 0 -> 0 <= p.2 + 1074 < 2 ^ 16;
  parts_value : x <> 0 -> p.1.2 * 2 ^ (p.2 + 1074) = Z.abs x * 2 ^ 63;
}.

Lemma normalize_significand m :
  0 < m < 2 ^ 64 ->
  let l := Len64 m in
  0 < l <= 64 /\ u64 (Z.shiftl m (64 - l)) = m * 2 ^ (64 - l)
  /\ 2 ^ 63 <= m * 2 ^ (64 - l) < 2 ^ 64.
Proof.
  intros Hm l. unfold Len64 in l.
  destruct (m =? 0) eqn:E; [apply Z.eqb_eq in E; lia|]. clear E.
  pose proof (Z.log2_spec m ltac:(lia)) as [H1 H2].
  assert (0 <= Z.log2 m < 64) by (split; [apply Z.log2_nonneg|apply Z.log2_lt_pow2; lia]).
  assert (2 ^ 63 <= m * 2 ^ (64 - l) < 2 ^ 64).
  { unfold l.
    replace (2 ^ 63) with (2 ^ Z.log2 m * 2 ^ (64 - (Z.log2 m + 1))) by (rewrite <- Z.pow_add_r by lia; f_equal; lia).
    replace (2 ^ 64) with (2 ^ Z.succ (Z.log2 m) * 2 ^ (64 - (Z.log2 m + 1))) by (rewrite <- Z.pow_add_r by lia; f_equal; lia).
    pose proof (Z.pow_pos_nonneg 2 (64 - (Z.log2 m + 1)) ltac:(lia) ltac:(lia)). nia. }
  split; [unfold l; lia|]. split; [|done].
  rewrite Z.shiftl_mul_pow2 by (unfold l; lia). apply u64_id. unfold is_u64; lia.
Qed.

Lemma int_parts i : is_i64 i -> parts_of (i * 2 ^ 1074) (number_parts i 0 true).
Proof.
  unfold is_i64; intros Hi. unfold number_parts.
  assert ((if i <? 0 then u64 (u64 (i64 (- i64 (i + 1))) + 1) else u64 i) = Z.abs i) as ->.
  { destruct (Z.ltb_spec i 0).
    - rewrite (i64_id (i + 1)), (i64_id (- (i + 1))), (u64_id (- (i + 1))), u64_id;
        unfold is_i64, is_u64; lia.
    - rewrite u64_id; unfold is_u64; lia. }
  assert (0 < 2 ^ 1074) as P by (apply Z.pow_pos_nonneg; lia).
  assert ((i * 2 ^ 1074 <? 0) = (i <? 0)) as Hs
    by (destruct (Z.ltb_spec (i * 2 ^ 1074) 0), (Z.ltb_spec i 0); nia || done).
  assert (Z.abs (i * 2 ^ 1074) = Z.abs i * 2 ^ 1074) as Ha by (rewrite Z.abs_mul, (Z.abs_eq (2 ^ 1074)); lia).
  destruct (Z.eqb_spec (Z.abs i) 0) as [E|E]; cbn [negb].
  - assert (i = 0) as -> by lia. split; cbn [fst snd]; [done|done|lia..].
  - pose proof (normalize_significand (Z.abs i) ltac:(lia)) as (Hl & Hsig & Hn). cbv zeta in *.
    rewrite Hsig. split; cbn [fst snd]; [done| |lia|lia|].
    + split; [lia|nia].
    + intros _. rewrite Ha. rewrite <- !Z.mul_assoc. f_equal.
      rewrite <- !Z.pow_add_r by lia. f_equal. lia.
Qed.

Lemma f64_scaled_abs b :
  Z.abs (f64_scaled b) = if f64_exp b =? 0 then f64_frac b
                         else (2 ^ 52 + f64_frac b) * 2 ^ (f64_exp b - 1).
Proof.
  unfold f64_scaled. pose proof (f64_frac_range b). pose proof (f64_exp_range b).
  destruct (Z.eqb_spec (f64_exp b) 0).
  - destruct (f64_sign b); lia.
  - pose proof (Z.pow_pos_nonneg 2 (f64_exp b - 1) ltac:(lia) ltac:(lia)).
    destruct (f64_sign b); rewrite ?Z.abs_opp, Z.abs_eq; nia.
Qed.

Lemma f64_scaled_zero b : f64_scaled b = 0 <-> f64_is_zero b = true.
Proof.
  rewrite <- Z.abs_0_iff, f64_scaled_abs. unfold f64_is_zero.
  pose proof (f64_frac_range b). pose proof (f64_exp_range b).
  destruct (Z.eqb_spec (f64_exp b) 0); cbn.
  - by rewrite Z.eqb_eq.
  - pose proof (Z.pow_pos_nonneg 2 (f64_exp b - 1) ltac:(lia) ltac:(lia)).
    split; [nia|done].
Qed.

Lemma f64_scaled_sign b : f64_exp b <> 0x7ff -> f64_neg b = (f64_scaled b <? 0).
Proof.
  intros Hf. unfold f64_neg, IsNaN. apply Z.eqb_neq in Hf. rewrite Hf. cbn [andb negb].
  rewrite andb_true_r.
  destruct (f64_is_zero b) eqn:E.
  - apply f64_scaled_zero in E as ->. by rewrite andb_false_r.
  - assert (f64_scaled b <> 0) as Hz by (rewrite f64_scaled_zero; congruence).
    rewrite andb_true_r. revert Hz. unfold f64_scaled.
    pose proof (f64_frac_range b). pose proof (f64_exp_range b).
    set (m := if f64_exp b =? 0 then _ else _).
    assert (0 <= m).
    { unfold m. destruct (Z.eqb_spec (f64_exp b) 0); [lia|].
      pose proof (Z.pow_pos_nonneg 2 (f64_exp b - 1) ltac:(lia) ltac:(lia)). nia. }
    destruct (f64_sign b); cbn [andb]; intros Hz; symmetry; [apply Z.ltb_lt|apply Z.ltb_ge]; lia.
Qed.

Lemma float_parts b : f64_finite b -> parts_of (f64_scaled b) (number_parts 0 b false).
Proof.
  intros [Hb Hf]. unfold number_parts. rewrite f64_abs_frac, f64_abs_exp.
  rewrite f64_scaled_sign by done.
  pose proof (f64_frac_range b) as Hfr. pose proof (f64_exp_range b) as Hex.
  pose proof (f64_scaled_abs b) as Ha.
  destruct (Z.eqb_spec (f64_exp b) 0) as [E|E].
  - destruct (Z.eqb_spec (f64_frac b) 0) as [F|F]; cbn [negb].
    + assert (f64_scaled b = 0) as -> by lia. split; cbn [fst snd]; done || lia.
    + pose proof (normalize_significand (f64_frac b) ltac:(lia)) as (Hl & Hsig & Hn). cbv zeta in *.
      assert (f64_scaled b <> 0) by lia.
      rewrite Hsig. split; cbn [fst snd]; [done|lia|lia|lia|].
      intros _. rewrite Ha, <- Z.mul_assoc, <- Z.pow_add_r by lia. do 2 f_equal. lia.
  - assert (Z.lor (2 ^ 52) (f64_frac b) = 2 ^ 52 + f64_frac b) as Hlor.
    { rewrite Z.add_nocarry_lxor, Z.lxor_lor; [done|..]; apply Z.bits_inj'; intros n Hn;
        rewrite Z.land_spec, Z.pow2_bits_eqb, Z.bits_0 by lia;
        (destruct (Z.eqb_spec 52 n) as [<-|]; [|done]); cbn [andb];
        rewrite f64_frac_mod, Z.mod_pow2_bits_high by lia; done. }
    rewrite Hlor, Z.shiftl_mul_pow2 by lia.
    rewrite (u64_id ((2 ^ 52 + f64_frac b) * 2 ^ 11)) by (unfold is_u64; lia).
    pose proof (Z.pow_pos_nonneg 2 (f64_exp b - 1) ltac:(lia) ltac:(lia)).
    assert (f64_scaled b <> 0) by nia.
    split; cbn [fst snd]; [done|lia|lia|lia|].
    intros _. rewrite Ha, <- !Z.mul_assoc, <- !Z.pow_add_r by lia. do 2 f_equal. lia.
Qed.

(** The bytes numberKey lays out after the tag, from the parts alone. *)
Definition parts_key (p : bool * Z * Z) : bytes :=
  let '(negative, significand, exponent) := p in
  if significand =? 0 then [0x40; 1; 0; 0; 0; 0; 0; 0; 0; 0; 0; 0]
  else
    let body := be_bytes 2 (u16 (exponent + 1074)) ++ be_bytes 8 significand in
    if negative then 0x40 :: 0 :: map bnot body else 0x40 :: 2 :: body.

Lemma scaled_magnitude_compare s1 e1 s2 e2 :
  2 ^ 63 <= s1 < 2 ^ 64 -> 2 ^ 63 <= s2 < 2 ^ 64 -> 0 <= e1 -> 0 <= e2 ->
  (s1 * 2 ^ e1 ?= s2 * 2 ^ e2) = then_compare (e1 ?= e2) (s1 ?= s2).
Proof.
  intros H1 H2 He1 He2.
  assert (forall s e s' e', 2 ^ 63 <= s < 2 ^ 64 -> 2 ^ 63 <= s' < 2 ^ 64 -> 0 <= e < e' ->
          s * 2 ^ e < s' * 2 ^ e') as Hlt.
  { intros s e s' e' Hs Hs' He.
    assert (2 ^ (e + 1) <= 2 ^ e') by (apply Z.pow_le_mono_r; lia).
    rewrite Z.pow_add_r in H by lia. pose proof (Z.pow_pos_nonneg 2 e ltac:(lia) ltac:(lia)). nia. }
  destruct (Z.compare_spec e1 e2) as [<-|He|He]; cbn.
  - pose proof (Z.pow_pos_nonneg 2 e1 ltac:(lia) ltac:(lia)).
    rewrite (Z.mul_comm s1), (Z.mul_comm s2). symmetry. apply Zmult_compare_compat_l. lia.
  - apply Hlt; lia.
  - apply Z.compare_gt_iff. apply Hlt; lia.
Qed.

Lemma parts_body_compare x y p q :
  parts_of x p -> parts_of y q -> x <> 0 -> y <> 0 ->
  bytes_compare (be_bytes 2 (u16 (p.2 + 1074)) ++ be_bytes 8 p.1.2)
                (be_bytes 2 (u16 (q.2 + 1074)) ++ be_bytes 8 q.1.2)
  = (Z.abs x ?= Z.abs y).
Proof.
  intros Hp Hq Hx Hy.
  pose proof (parts_norm _ _ Hp Hx). pose proof (parts_norm _ _ Hq Hy).
  pose proof (parts_exp _ _ Hp Hx). pose proof (parts_exp _ _ Hq Hy).
  rewrite bytes_compare_app by (rewrite !length_be_bytes; done).
  rewrite !u16_id, !be_bytes_compare by (cbn; lia).
  rewrite <- scaled_magnitude_compare by lia.
  rewrite (parts_value _ _ Hp Hx), (parts_value _ _ Hq Hy).
  rewrite (Z.mul_comm (Z.abs x)), (Z.mul_comm (Z.abs y)).
  symmetry. apply Zmult_compare_compat_l. lia.
Qed.

Lemma parts_key_compare x y p q :
  parts_of x p -> parts_of y q -> bytes_compare (parts_key p) (parts_key q) = (x ?= y).
Proof.
  intros Hp Hq.
  pose proof (parts_body_compare x y p q Hp Hq) as Hbody.
  pose proof (parts_neg _ _ Hp) as Hnp. pose proof (parts_neg _ _ Hq) as Hnq.
  pose proof (parts_zero _ _ Hp) as Hzp. pose proof (parts_zero _ _ Hq) as Hzq.
  destruct p as [[np sp] ep], q as [[nq sq] eq]; cbn [fst snd] in *. unfold parts_key.
  destruct (Z.eqb_spec sp 0) as [E|E], (Z.eqb_spec sq 0) as [F|F].
  - assert (x = 0) as -> by tauto. assert (y = 0) as -> by tauto. done.
  - assert (x = 0) as -> by tauto. assert (y <> 0) by tauto. subst nq.
    destruct (Z.ltb_spec y 0); cbn -[be_bytes]; destruct y; lia || done.
  - assert (y = 0) as -> by tauto. assert (x <> 0) by tauto. subst np.
    destruct (Z.ltb_spec x 0); cbn -[be_bytes]; destruct x; lia || done.
  - assert (x <> 0) by tauto. assert (y <> 0) by tauto. specialize (Hbody ltac:(done) ltac:(done)).
    subst np nq. destruct (Z.ltb_spec x 0), (Z.ltb_spec y 0);
      cbn -[be_bytes app map]; rewrite ?bytes_compare_bnot by (rewrite !length_app, !length_be_bytes; done);
      rewrite ?Hbody.
    + rewrite <- Z.compare_antisym. destruct (Z.compare_spec (Z.abs y) (Z.abs x)), (Z.compare_spec x y); lia || done.
    + destruct (Z.compare_spec x y); lia || done.
    + destruct (Z.compare_spec x y); lia || done.
    + rewrite !Z.abs_eq by lia. done.
Qed.

(** ** Scalars: the order keys realise *)
Inductive scalar := SNull | SBool (b : bool) | SNum (scaled : Z) | SStr (s : string).

Definition scalar_rank (s : scalar) : Z :=
  match s with SNull => 0 | SBool false => 1 | SBool true => 2 | SNum _ => 3 | SStr _ => 4 end.

(** null < false < true < numbers by exact value < strings by bytes. *)
Definition scalar_compare (a b : scalar) : comparison :=
  then_compare (scalar_rank a ?= scalar_rank b)
    match a, b with
    | SNum x, SNum y => x ?= y
    | SStr s, SStr t => string_compare s t
    | _, _ => Eq
    end.

(** The scalar a normalised value stands for; numbers in units of [2^-1074]. *)
Definition scalar_of (v : value) : option scalar :=
  match v with
  | VNil => Some SNull
  | VBool b => Some (SBool b)
  | VString s => Some (SStr s)
  | VInt _ i => Some (SNum (i * 2 ^ 1074))
  | VFloat64 b => Some (SNum (f64_scaled b))
  | _ => None
  end.

Definition denote (v : value) : option scalar :=
  match NormalizeValue v with Ok n => scalar_of n | Err _ => None end.

Lemma NormalizeValue_range v n :
  wf_value v -> NormalizeValue v = Ok n ->
  match n with VInt k i => k = KInt64 /\ is_i64 i | VFloat64 b => f64_finite b | _ => True end.
Proof.
  destruct v; cbn; intros Hv H; ok_inv; subst; auto.
  - by destruct (utf8_valid_string s); ok_inv; subst.
  - split; [done|]. unfold is_i64. destruct k; cbn in *; lia.
  - apply normalize_float_ok in H as (b' & -> & Hb & _); [done|by apply f64_of_f32_range].
  - by apply normalize_float_ok in H as (b' & -> & Hb & _).
  - destruct (has_float_syntax s); cbn in H.
    + destruct (parse_float64 s) eqn:E; [|done]. apply parse_float64_range in E.
      by apply normalize_float_ok in H as (b' & -> & Hb & _).
    + destruct (parse_int64 s) eqn:E; [|done]. apply parse_int64_range in E.
      by ok_inv; subst.
Qed.

(** The key of each scalar. *)
Definition key_of (s : scalar) (k : bytes) : Prop :=
  match s with
  | SNull => k = [0x10]
  | SBool b => k = [if b then 0x30 else 0x20]
  | SNum x => exists p, parts_of x p /\ k = parts_key p
  | SStr s => k = 0x50 :: bytes_of_string s
  end.

Lemma ScalarKey_denote v k :
  wf_value v -> ScalarKey v = Ok k -> exists s, denote v = Some s /\ key_of s k.
Proof.
  intros Hv H. unfold ScalarKey in H. apply bind_ok in H as (n & Hn & H).
  pose proof (NormalizeValue_range _ _ Hv Hn) as Hr. unfold denote. rewrite Hn.
  destruct n as [|b|t|k' i|b|b|t|l|m|t]; cbn in H; try discriminate H; injection H as <-;
    (eexists; split; [reflexivity|]); cbn [key_of]; try reflexivity.
  - exists (number_parts i 0 true). split; [apply int_parts, Hr|reflexivity].
  - exists (number_parts 0 b false). split; [by apply float_parts|reflexivity].
Qed.

Lemma ScalarKey_of_denote v s :
  denote v = Some s -> exists k, ScalarKey v = Ok k.
Proof.
  unfold denote, ScalarKey. destruct (NormalizeValue v) as [n|]; [|done]. cbn.
  destruct n; cbn; intros H; try discriminate H; eauto.
Qed.

Lemma key_of_head s k : key_of s k ->
  exists r, k = (0x10 + 0x10 * scalar_rank s) :: r.
Proof.
  destruct s as [|[]|x|t]; cbn; try (intros ->; eauto).
  intros (p & _ & ->). destruct p as [[n s] e]. unfold parts_key.
  destruct (s =? 0); [eauto|]. destruct n; eauto.
Qed.

Lemma key_of_compare a b ka kb :
  key_of a ka -> key_of b kb -> bytes_compare ka kb = scalar_compare a b.
Proof.
  intros Ha Hb. unfold scalar_compare.
  destruct (Z.eq_dec (scalar_rank a) (scalar_rank b)) as [E|E].
  - rewrite E, Z.compare_refl. cbn.
    destruct a as [|[]|x|s], b as [|[]|y|t]; cbn in E; try discriminate E; cbn in Ha, Hb.
    + by subst. + by subst. + by subst.
    + destruct Ha as (p & Hp & ->), Hb as (q & Hq & ->). by apply parts_key_compare.
    + subst. cbn. done.
  - destruct (key_of_head _ _ Ha) as [ra ->], (key_of_head _ _ Hb) as [rb ->]. cbn.
    destruct (Z.compare_spec (scalar_rank a) (scalar_rank b)); [done|..];
      destruct (Z.compare_spec (16 + 16 * scalar_rank a) (16 + 16 * scalar_rank b)); lia || done.
Qed.

(** ** Structural induction through arrays and objects *)
Section ValueInd.
  Variable P : value -> Prop.
  Hypothesis HNil : P VNil.
  Hypothesis HBool : forall b, P (VBool b).
  Hypothesis HString : forall s, P (VString s).
  Hypothesis HInt : forall k i, P (VInt k i).
  Hypothesis HFloat32 : forall b, P (VFloat32 b).
  Hypothesis HFloat64 : forall b, P (VFloat64 b).
  Hypothesis HNumber : forall s, P (VNumber s).
  Hypothesis HSlice : forall l, Forall P l -> P (VSlice l).
  Hypothesis HMap : forall m, Forall (fun kv => P kv.2) m -> P (VMap m).
  Hypothesis HOther : forall s, P (VOther s).

Fixpoint value_nested_ind (v : value) : P v :=
    match v with
    | VNil => HNil
    | VBool b => HBool b
    | VString s => HString s
    | VInt k i => HInt k i
    | VFloat32 b => HFloat32 b
    | VFloat64 b => HFloat64 b
    | VNumber s => HNumber s
    | VSlice l => HSlice l ((fix all l : Forall P l := match l with
                             | [] => Forall_nil_2 _
                             | x :: l => Forall_cons_2 _ _ _ (value_nested_ind x) (all l)
                             end) l)
    | VMap m => HMap m ((fix all m : Forall (fun kv => P kv.2) m := match m with
                         | [] => Forall_nil_2 _
                         | kv :: m => Forall_cons_2 _ kv _
                             (match kv as p return P p.2 with (_, x) => value_nested_ind x end) (all m)
                         end) m)
    | VOther s => HOther s
    end.
End ValueInd.

(** ** Normal forms *)
Fixpoint normal (v : value) : Prop :=
  match v with
  | VNil | VBool _ => True
  | VString s => utf8_valid_string s = true
  | VInt k i => k = KInt64
  | VFloat64 b => f64_exp b <> 0x7ff /\ (f64_is_zero b = true -> b = 0)
  | VSlice l => (fix all l := match l with [] => True | x :: l => normal x /\ all l end) l
  | VMap m => (fix all m := match m with
               | [] => True
               | (k, x) :: m => utf8_valid_string k = true /\ normal x /\ all m end) m
  | VFloat32 _ | VNumber _ | VOther _ => False
  end.

Lemma normalize_float_normal b v : normalize_float b = Ok v -> normal v.
Proof.
  unfold normalize_float, IsNaN, IsInf.
  destruct (Z.eqb_spec (f64_exp b) 0x7ff) as [E|E]; cbn [andb orb].
  { destruct (f64_frac b =? 0); done. }
  destruct (f64_is_zero b) eqn:Z0; intros [= <-]; cbn [normal]; [done|].
  split; [done|congruence].
Qed.

Lemma NormalizeValue_normal v n : NormalizeValue v = Ok n -> normal n.
Proof.
  revert n; induction v as [|b|s|k i|b|b|s|l IH|m IH|s] using value_nested_ind;
    intros n; cbn [NormalizeValue]; intros H.
  - ok_inv; subst; done.
  - ok_inv; subst; done.
  - destruct (utf8_valid_string s) eqn:E; ok_inv; subst; done.
  - ok_inv; subst; done.
  - by eapply normalize_float_normal.
  - by eapply normalize_float_normal.
  - destruct (negb _); [destruct (parse_int64 s)|destruct (parse_float64 s)];
      ok_inv; subst; try done. by eapply normalize_float_normal.
  - apply fmap_ok in H as (ys & H & ->). cbn [normal]. revert ys H. generalize O.
    induction IH as [|x l Hx _ IH]; intros i ys H; ok_inv; subst; [done|].
    split; [by apply Hx|by eapply IH].
  - apply fmap_ok in H as (ys & H & ->). cbn [normal]. revert ys H.
    induction IH as [|[k x] m Hx _ IH]; intros ys H; [ok_inv; subst; done|].
    destruct (utf8_valid_string k) eqn:E; ok_inv; subst.
    split; [done|]. split; [by apply Hx|by apply IH].
  - discriminate H.
Qed.

Lemma NormalizeValue_of_normal v : normal v -> NormalizeValue v = Ok v.
Proof.
  induction v as [|b|s|k i|b|b|s|l IH|m IH|s] using value_nested_ind; cbn [normal NormalizeValue];
    intros H; try done.
  - by rewrite H.
  - by subst.
  - destruct H as [He Hz]. unfold normalize_float, IsNaN, IsInf.
    apply Z.eqb_neq in He. rewrite He. cbn [andb orb].
    destruct (f64_is_zero b) eqn:Z0; [|done]. by rewrite (Hz eq_refl).
  - cut (forall i, (fix items i l := match l with
                  | [] => Ok []
                  | x :: l => y ← map_err (ErrArrayElement i) (NormalizeValue x);
                              ys ← items (S i) l; Ok (y :: ys)
                  end) i l = Ok l); [intros E; by rewrite E|].
    induction IH as [|x l Hx _ IH]; intros i; [done|]. destruct H as [Hn Hl].
    rewrite (Hx Hn). cbn. by rewrite (IH Hl).
  - match goal with |- (_ <$> ?g) = _ => cut (g = Ok m); [intros E; by rewrite E|] end.
    induction IH as [|[k x] m Hx _ IH]; [done|]. destruct H as (Hk & Hn & Hl).
    cbn [snd] in Hx. rewrite Hk, (Hx Hn). cbn. by rewrite (IH Hl).
Qed.

Lemma NormalizeValue_wf v n : wf_value v -> NormalizeValue v = Ok n -> wf_value n.
Proof.
  revert n; induction v as [|b|s|k i|b|b|s|l IH|m IH|s] using value_nested_ind; intros n Hv H;
    try (pose proof (NormalizeValue_range _ _ Hv H) as Hr; pose proof (NormalizeValue_normal _ _ H) as Hn;
         cbn [NormalizeValue] in H; unfold normalize_float in H; repeat (case_step; ok_inv; try subst);
         cbn [wf_value] in *; try done; destruct Hr; subst; done).
  - cbn [NormalizeValue] in H. apply fmap_ok in H as (ys & H & ->). cbn [wf_value] in *.
    revert ys H. generalize O.
    induction IH as [|x l Hx _ IH]; intros i ys H; ok_inv; subst; [done|].
    destruct Hv as [Hv1 Hv2]. split; [by apply Hx|by eapply (IH Hv2)].
  - cbn [NormalizeValue] in H. apply fmap_ok in H as (ys & H & ->). cbn [wf_value] in *.
    destruct Hv as [Hnd Hv]. cut (map fst ys = map fst m /\
      (fix all m := match m with [] => True | (_, x) :: m => wf_value x /\ all m end) ys);
      [intros [-> Ha]; done|]. clear Hnd. revert ys H.
    induction IH as [|[k x] m Hx _ IH]; intros ys H; [ok_inv; subst; done|].
    destruct (utf8_valid_string k) eqn:E; ok_inv; subst.
    destruct Hv as [Hv1 Hv2]. match goal with H : _ = Ok ?l |- context [?l] => destruct (IH Hv2 _ H) as [Hf Ha] end.
    cbn [map fst]. rewrite Hf. split; [done|]. split; [by apply Hx|done].
Qed.

Lemma denote_normalized v n : NormalizeValue v = Ok n -> denote n = denote v.
Proof.
  intros H. unfold denote. rewrite H. pose proof (NormalizeValue_normal _ _ H) as Hn.
  by rewrite (NormalizeValue_of_normal _ Hn).
Qed.

(** ** JSON unicode escapes *)
Inductive json_unicode_error :=
| ErrJSONUTF8
| ErrInvalidEscape (at_byte : Z)
| ErrLowSurrogate (at_byte : Z)
| ErrHighSurrogate (at_byte : Z).

Definition hex_digit (c : Z) : option Z :=
  if in_range 48 57 c then Some (c - 48)
  else if in_range 97 102 c then Some (c - 97 + 10)
  else if in_range 65 70 c then Some (c - 65 + 10)
  else None.

Fixpoint hex_accumulate (value : Z) (l : bytes) : option Z :=
  match l with
  | [] => Some value
  | c :: l => d ← hex_digit c; hex_accumulate (Z.lor (u16 (Z.shiftl value 4)) d) l
  end.

Definition jsonHexCodeUnit (data : bytes) : option Z :=
  if Z.of_nat (length data) <? 4 then None else hex_accumulate 0 (take 4 data).

Definition is_low_surrogate (u : Z) : bool := in_range 0xDC00 0xDFFF u.
Definition is_high_surrogate (u : Z) : bool := in_range 0xD800 0xDBFF u.

(** The byte at an offset; out of range never compares equal to a byte. *)
Definition byte_at (data : bytes) (i : nat) : Z := nth i data (-1).

(** The loop of ValidateJSONUnicode on [data[i:]]; every iteration consumes at
    least one byte, so the length of the data is enough fuel. *)
Fixpoint scan_json (fuel : nat) (inString : bool) (i : Z) (data : bytes)
    : res json_unicode_error unit :=
  match fuel with
  | O => Ok tt
  | S fuel =>
    match data with
    | [] => Ok tt
    | c :: rest =>
      if c =? 34 then scan_json fuel (negb inString) (i + 1) rest
      else if inString && (c =? 92) then
        if negb (byte_at data 1 =? 117) then scan_json fuel inString (i + 2) (drop 2 data)
        else
          match jsonHexCodeUnit (drop 2 data) with
          | None => Err (ErrInvalidEscape i)
          | Some first =>
            if is_low_surrogate first then Err (ErrLowSurrogate i)
            else if is_high_surrogate first then
              if (Z.of_nat (length data) <? 12) || negb (byte_at data 6 =? 92)
                 || negb (byte_at data 7 =? 117)
              then Err (ErrHighSurrogate i)
              else match jsonHexCodeUnit (drop 8 data) with
                   | Some second =>
                       if is_low_surrogate second
                       then scan_json fuel inString (i + 12) (drop 12 data)
                       else Err (ErrHighSurrogate i)
                   | None => Err (ErrHighSurrogate i)
                   end
            else scan_json fuel inString (i + 6) (drop 6 data)
          end
      else scan_json fuel inString (i + 1) rest
    end
  end.

Definition ValidateJSONUnicode (data : bytes) : res json_unicode_error unit :=
  if utf8_valid data then scan_json (length data) false 0 data else Err ErrJSONUTF8.

(** *** Specification: the UTF-16 code units the escapes of the data denote *)
Inductive json_token := TUnit (u : Z) | TChar.

(** One token per [\uXXXX] escape inside a string and one per other step;
    [None] when an escape is not four hexadecimal digits. *)
Fixpoint json_tokens (fuel : nat) (inString : bool) (data : bytes) : option (list json_token) :=
  match fuel with
  | O => Some []
  | S fuel =>
    match data with
    | [] => Some []
    | c :: rest =>
      if c =? 34 then cons TChar <$> json_tokens fuel (negb inString) rest
      else if inString && (c =? 92) then
        if byte_at data 1 =? 117 then
          u ← jsonHexCodeUnit (drop 2 data);
          cons (TUnit u) <$> json_tokens fuel inString (drop 6 data)
        else cons TChar <$> json_tokens fuel inString (drop 2 data)
      else cons TChar <$> json_tokens fuel inString rest
    end
  end.

(** Every high surrogate is followed at once by a low one, and no low one is alone. *)
Fixpoint well_paired (l : list json_token) : bool :=
  match l with
  | [] => true
  | TUnit u :: l' =>
      if is_low_surrogate u then false
      else if is_high_surrogate u then
        match l' with
        | TUnit v :: l'' => is_low_surrogate v && well_paired l''
        | _ => false
        end
      else well_paired l'
  | TChar :: l' => well_paired l'
  end.

Definition tokens_well_paired (data : bytes) : bool :=
  match json_tokens (length data) false data with Some l => well_paired l | None => false end.

Definition accepts (o : option (list json_token)) : bool :=
  match o with Some l => well_paired l | None => false end.

Lemma accepts_char o : accepts (cons TChar <$> o) = accepts o.
Proof. by destruct o. Qed.
Lemma accepts_unit u o :
  is_low_surrogate u = false -> is_high_surrogate u = false ->
  accepts (cons (TUnit u) <$> o) = accepts o.
Proof. intros H1 H2. destruct o; cbn; [|done]. by rewrite H1, H2. Qed.
Lemma accepts_low u o : is_low_surrogate u = true -> accepts (cons (TUnit u) <$> o) = false.
Proof. intros H. destruct o; cbn; [|done]. by rewrite H. Qed.

Lemma jsonHexCodeUnit_length data u : jsonHexCodeUnit data = Some u -> (4 <= length data)%nat.
Proof. unfold jsonHexCodeUnit. destruct (Z.ltb_spec (Z.of_nat (length data)) 4); [done|lia]. Qed.

Lemma low_not_high u : is_low_surrogate u = true -> is_high_surrogate u = false.
Proof. unfold is_low_surrogate, is_high_surrogate, in_range. lia. Qed.

(** A high surrogate escape: the scanner reads the second escape of the pair
    where the tokens show a second unit. *)
Lemma accepts_high fuel u data :
  is_low_surrogate u = false -> is_high_surrogate u = true ->
  accepts (cons (TUnit u) <$> json_tokens (S fuel) true data) =
  if (byte_at data 0 =? 92) && (byte_at data 1 =? 117) then
    match jsonHexCodeUnit (drop 2 data) with
    | Some v => is_low_surrogate v && accepts (json_tokens fuel true (drop 6 data))
    | None => false
    end
  else false.
Proof.
  intros Hl Hh. destruct data as [|c data]; [cbn; by rewrite Hl, Hh|].
  change (byte_at (c :: data) 0) with c. cbn [json_tokens].
  destruct (Z.eqb_spec c 34) as [->|Hq].
  { cbn [Z.eqb andb]. destruct (json_tokens fuel _ _); cbn; [|done]. by rewrite Hl, Hh. }
  destruct (Z.eqb_spec c 92) as [->|Hb]; cbn [andb].
  - destruct (byte_at (92 :: data) 1 =? 117).
    + destruct (jsonHexCodeUnit (drop 2 (92 :: data))) as [v|]; cbn [mbind option_bind]; [|done].
      destruct (json_tokens fuel true _) as [l|]; cbn -[is_low_surrogate is_high_surrogate];
        [by rewrite Hl, Hh|by rewrite andb_false_r].
    + destruct (json_tokens fuel true _); cbn; [by rewrite Hl, Hh|done].
  - destruct (json_tokens fuel true _); cbn; [by rewrite Hl, Hh|done].
Qed.

Lemma scan_json_tokens n : forall f1 f2 s i data,
  (length data <= n)%nat -> (length data <= f1)%nat -> (length data <= f2)%nat ->
  is_ok (scan_json f1 s i data) = accepts (json_tokens f2 s data).
Proof.
  induction n as [|n IH]; intros f1 f2 s i data Hn H1 H2.
  { destruct data; [|cbn in Hn; lia]. by destruct f1, f2. }
  destruct data as [|c rest]; [by destruct f1, f2|].
  destruct f1 as [|f1]; [cbn in H1; lia|]. destruct f2 as [|f2]; [cbn in H2; lia|].
  cbn [length] in Hn, H1, H2. cbn [scan_json json_tokens].
  pose (data := c :: rest). change (c :: rest) with data.
  assert (length data = S (length rest)) as Hlen by done. clearbody data.
  destruct (c =? 34) eqn:Eq.
  { rewrite accepts_char. apply IH; lia. }
  destruct (s && (c =? 92)) eqn:Eb; [|rewrite accepts_char; apply IH; lia].
  destruct (byte_at data 1 =? 117) eqn:Eu; cbn [negb];
    [|rewrite accepts_char; apply IH; rewrite ?length_drop; lia].
  destruct (jsonHexCodeUnit (drop 2 data)) as [u|] eqn:E1; cbn [mbind option_bind]; [|done].
  apply jsonHexCodeUnit_length in E1. rewrite length_drop in E1.
  destruct (is_low_surrogate u) eqn:El; [by rewrite accepts_low|].
  destruct (is_high_surrogate u) eqn:Eh;
    [|rewrite accepts_unit by done; apply IH; rewrite ?length_drop; lia].
  apply andb_prop in Eb as [-> _].
  destruct f2 as [|f2]; [lia|]. rewrite accepts_high by done.
  assert (forall k, byte_at (drop 6 data) k = byte_at data (6 + k)) as Hat
    by (intros k; unfold byte_at; rewrite (nth_lookup (drop 6 data)), lookup_drop, <- nth_lookup; done).
  rewrite !Hat, !drop_drop. change (6 + 0)%nat with 6%nat. change (6 + 1)%nat with 7%nat.
  change (6 + 2)%nat with 8%nat. change (6 + 6)%nat with 12%nat.
  destruct (byte_at data 6 =? 92); [|by rewrite orb_true_r].
  destruct (byte_at data 7 =? 117); [|by rewrite orb_true_r].
  cbn [negb andb]. rewrite !orb_false_r.
  destruct (jsonHexCodeUnit (drop 8 data)) as [v|] eqn:E2; [|by case_match].
  apply jsonHexCodeUnit_length in E2. rewrite length_drop in E2.
  destruct (Z.ltb_spec (Z.of_nat (length data)) 12); [lia|].
  destruct (is_low_surrogate v); [|done]. apply IH; rewrite ?length_drop; lia.
Qed.

(** ** Theorems *)
Lemma CompareValues_denote a b sa sb :
  wf_value a -> wf_value b -> denote a = Some sa -> denote b = Some sb ->
  CompareValues a b = Ok (scalar_compare sa sb).
Proof.
  intros Wa Wb Ha Hb.
  destruct (ScalarKey_of_denote _ _ Ha) as [ka Ka], (ScalarKey_of_denote _ _ Hb) as [kb Kb].
  unfold CompareValues. rewrite Ka, Kb. cbn. f_equal.
  destruct (ScalarKey_denote _ _ Wa Ka) as (sa' & Ha' & Hka).
  destruct (ScalarKey_denote _ _ Wb Kb) as (sb' & Hb' & Hkb).
  replace sa with sa' by congruence. replace sb with sb' by congruence. by apply key_of_compare.
Qed.

Lemma scalar_compare_eq a b : scalar_compare a b = Eq <-> a = b.
Proof.
  unfold scalar_compare. split.
  - destruct a as [|[]|x|s], b as [|[]|y|t]; cbn; try done.
    + by intros ->%Z.compare_eq_iff.
    + by intros ->%string_compare_eq.
  - intros <-. rewrite Z.compare_refl. destruct a; cbn; try done.
    + by apply Z.compare_eq_iff.
    + by apply string_compare_eq.
Qed.

Lemma key_of_unique_key s k k' : key_of s k -> key_of s k' -> k = k'.
Proof.
  intros H H'. apply bytes_compare_eq. rewrite (key_of_compare _ _ _ _ H H'). by apply scalar_compare_eq.
Qed.


Lemma CompareValues_ok_denote a b c :
  CompareValues a b = Ok c -> exists sa sb, denote a = Some sa /\ denote b = Some sb.
Proof.
  unfold CompareValues, denote. intros H. ok_inv.
  unfold ScalarKey in *. ok_inv.
  repeat match goal with H : NormalizeValue _ = Ok _ |- _ => rewrite H; clear H end.
  repeat match goal with H : match ?n with _ => _ end = Ok _ |- _ => destruct n; try discriminate H; clear H end;
    cbn; eauto.
Qed.

Lemma EqualValues_denote a b :
  wf_value a -> wf_value b ->
  EqualValues a b = true <-> exists s, denote a = Some s /\ denote b = Some s.
Proof.
  intros Wa Wb. unfold EqualValues. split.
  - destruct (CompareValues a b) as [c|] eqn:E; [|done].
    destruct (CompareValues_ok_denote _ _ _ E) as (sa & sb & Ha & Hb).
    rewrite (CompareValues_denote _ _ sa sb) in E by done. injection E as E.
    destruct c; try done. apply scalar_compare_eq in E as ->. eauto.
  - intros (s & Ha & Hb). rewrite (CompareValues_denote _ _ s s) by done.
    by rewrite (proj2 (scalar_compare_eq s s) eq_refl).
Qed.

(** C38: CompareValues orders any two admitted scalars exactly: null < false <
    true < numbers by mathematical value (an int64 against a binary64 without
    rounding, both zeros equal) < strings bytewise. *)
Theorem CompareValues_exact a b sa sb :
  wf_value a -> wf_value b -> denote a = Some sa -> denote b = Some sb ->
  CompareValues a b = Ok (scalar_compare sa sb).
Proof. exact (CompareValues_denote a b sa sb). Qed.

(** 2^53+1 as an int64 against 2^53 as a float64. *)
Lemma CompareValues_exact_witness :
  CompareValues (VInt KInt64 9007199254740993) (VFloat64 0x4340000000000000) = Ok Gt.
Proof.
  rewrite (CompareValues_exact _ _ (SNum (9007199254740993 * 2 ^ 1074))
             (SNum (f64_scaled 0x4340000000000000))).
  - vm_compute. reflexivity.
  - cbn. lia.
  - cbn. unfold is_u64. lia.
  - reflexivity.
  - vm_compute. reflexivity.
Defined.

(** Normalisation is a retraction onto the admitted domain: its result holds
    only UTF-8 strings, int64 integers and finite binary64 numbers with a single
    zero, recursively, and normalising it again changes nothing. *)
Theorem NormalizeValue_idempotent v n :
  NormalizeValue v = Ok n -> normal n /\ NormalizeValue n = Ok n.
Proof.
  intros H. pose proof (NormalizeValue_normal _ _ H).
  split; [done|by apply NormalizeValue_of_normal].
Qed.

Lemma NormalizeValue_idempotent_witness :
  NormalizeValue (VSlice [VFloat64 (2 ^ 63); VInt KInt8 (-3)]) = Ok (VSlice [VFloat64 0; VInt KInt64 (-3)])
  /\ NormalizeValue (VSlice [VFloat64 0; VInt KInt64 (-3)]) = Ok (VSlice [VFloat64 0; VInt KInt64 (-3)]).
Proof.
  assert (NormalizeValue (VSlice [VFloat64 (2 ^ 63); VInt KInt8 (-3)])
          = Ok (VSlice [VFloat64 0; VInt KInt64 (-3)])) as H by (vm_compute; reflexivity).
  exact (conj H (proj2 (NormalizeValue_idempotent _ _ H))).
Defined.

(** The one-pass escape scanner accepts exactly the valid UTF-8 texts whose
    string escapes, read as UTF-16 code units, pair every surrogate; it never
    runs out of fuel before the end of the data. *)
Theorem ValidateJSONUnicode_spec data :
  is_ok (ValidateJSONUnicode data) = utf8_valid data && tokens_well_paired data.
Proof.
  unfold ValidateJSONUnicode, tokens_well_paired.
  destruct (utf8_valid data); [|done]. cbn [andb].
  rewrite (scan_json_tokens (length data) (length data) (length data)) by lia. done.
Qed.
