(* ===== verification/OrderKey.v ===== *)
(** * Index keys: internal/indexer/encoding/orderkey.go

    Prefix-free byte tuples whose bytewise order is the order of the fields they
    encode. A field is escaped (0x00 becomes 0x00 0x01), closed by 0x00 0x00 and,
    when descending, complemented. *)
From stdpp Require Import base list strings.
From Stdlib Require Import ZArith.
From S2P Require Import Prelude Value.
Local Open Scope Z_scope.

Definition Version : Z := 0x02.
Definition TypeMissing : Z := 0x01.
Definition TypeString : Z := 0x50.

(** [type Direction int]: the two constants and any other integer. *)
Inductive direction := Asc | Desc | OtherDirection (n : Z).
#[export] Instance direction_eq_dec : EqDecision direction.
Proof. solve_decision. Defined.

Record field := Field { field_value : value; field_direction : direction; field_missing : bool }.

Inductive encoding_error :=
| ErrUnsupportedValue (e : value_error)
| ErrStringTooLong
| ErrIDTooLong
| ErrIDUTF8
| ErrInvalidDirection
| ErrInvalidOrderKey.

Definition escape (raw : bytes) : bytes :=
  flat_map (fun b => if b =? 0 then [b; 1] else [b]) raw.

Definition string_too_long (v : value) : bool :=
  match v with VString s => 65535 <? slen s | _ => false end.

Definition encodeField (f : field) : res encoding_error bytes :=
  match field_direction f with
  | OtherDirection _ => Err ErrInvalidDirection
  | dir =>
    raw ← if field_missing f then Ok [TypeMissing]
          else if string_too_long (field_value f) then Err ErrStringTooLong
          else map_err ErrUnsupportedValue (ScalarKey (field_value f));
    let buf := escape raw ++ [0; 0] in
    Ok (match dir with Desc => map bnot buf | _ => buf end)
  end.

Definition EncodePrefix (fields : list field) : res encoding_error bytes :=
  encoded ← mapM_res encodeField fields;
  Ok (Version :: concat encoded).

Definition Encode (fields : list field) (docID : string) : res encoding_error bytes :=
  if 65535 <? slen docID then Err ErrIDTooLong
  else if negb (utf8_valid_string docID) then Err ErrIDUTF8
  else
    prefix ← EncodePrefix fields;
    id ← encodeField (Field (VString docID) Asc false);
    Ok (prefix ++ id).

(** The inner loop of ExtractDocID: the bytes of one component up to its
    terminator, and the rest of the key. *)
Fixpoint read_component (descending : bool) (last key : bytes) : option (bytes * bytes) :=
  match key with
  | [] => None
  | b0 :: key1 =>
      let b := if descending then bnot b0 else b0 in
      if negb (b =? 0) then read_component descending (last ++ [b]) key1
      else match key1 with
           | [] => None
           | n0 :: key2 =>
               let next := if descending then bnot n0 else n0 in
               if next =? 0 then Some (last, key2)
               else if negb (next =? 1) then None
               else read_component descending (last ++ [0]) key2
           end
  end.

(** The outer loop; a component takes at least two bytes of the key, so its
    length is enough fuel. *)
Fixpoint extract_components (fuel : nat) (descending : bool) (last key : bytes)
    : option (bool * bytes) :=
  match fuel with
  | O => None
  | S fuel =>
    match key with
    | [] => Some (descending, last)
    | tag :: _ =>
        let descending := 0x80 <? tag in
        match read_component descending [] key with
        | Some (last, key) =>
            if Z.of_nat (length last) =? 0 then None
            else extract_components fuel descending last key
        | None => None
        end
    end
  end.

Definition ExtractDocID (key : bytes) : res encoding_error string :=
  if (Z.of_nat (length key) <? 4) || negb (hd (-1) key =? Version) then Err ErrInvalidOrderKey
  else
    match extract_components (length key) false [] (tl key) with
    | Some (descending, last) =>
        if descending || negb (hd (-1) last =? TypeString) || negb (utf8_valid (tl last))
        then Err ErrInvalidOrderKey
        else Ok (string_of_bytes (tl last))
    | None => Err ErrInvalidOrderKey
    end.

(** ** Components *)
Definition flip (d : direction) (c : comparison) : comparison :=
  match d with Desc => CompOpp c | _ => c end.

(** An encoded field: escaped, terminated, complemented when descending. *)
Definition component (d : direction) (raw : bytes) : bytes :=
  match d with Desc => map bnot (escape raw ++ [0; 0]) | _ => escape raw ++ [0; 0] end.

Lemma escape_cons b raw : escape (b :: raw) = (if b =? 0 then [b; 1] else [b]) ++ escape raw.
Proof. done. Qed.

Lemma component_asc_compare r1 r2 x y :
  is_bytes r1 -> is_bytes r2 ->
  bytes_compare (escape r1 ++ [0; 0] ++ x) (escape r2 ++ [0; 0] ++ y)
  = then_compare (bytes_compare r1 r2) (bytes_compare x y).
Proof.
  intros H1; revert r2; induction H1 as [|b r1 Hb H1 IH]; intros r2 H2.
  - destruct H2 as [|c r2 Hc H2]; [done|]. rewrite escape_cons. unfold is_byte in Hc.
    destruct (Z.eqb_spec c 0) as [->|]; [done|]. cbn [escape flat_map app bytes_compare].
    destruct (Z.compare_spec 0 c); lia || done.
  - destruct H2 as [|c r2 Hc H2]; rewrite ?escape_cons; unfold is_byte in *.
    + destruct (Z.eqb_spec b 0) as [->|]; [done|]. cbn [escape flat_map app bytes_compare].
      destruct (Z.compare_spec b 0); lia || done.
    + cbn [bytes_compare]. destruct (Z.compare_spec b c) as [<-|Hlt|Hgt]; cbn [then_compare].
      * rewrite <- !app_assoc, bytes_compare_app_r. by apply IH.
      * destruct (Z.eqb_spec b 0), (Z.eqb_spec c 0); try lia; cbn [escape flat_map app bytes_compare];
          destruct (Z.compare_spec b c); lia || done.
      * destruct (Z.eqb_spec b 0), (Z.eqb_spec c 0); try lia; cbn [escape flat_map app bytes_compare];
          destruct (Z.compare_spec b c); lia || done.
Qed.

Lemma bnot_compare b c : (bnot b ?= bnot c) = (c ?= b).
Proof.
  unfold bnot. destruct (Z.compare_spec c b), (Z.compare_spec (255 - b) (255 - c)); lia || done.
Qed.

Lemma component_desc_compare r1 r2 x y :
  is_bytes r1 -> is_bytes r2 ->
  bytes_compare (map bnot (escape r1 ++ [0; 0]) ++ x) (map bnot (escape r2 ++ [0; 0]) ++ y)
  = then_compare (CompOpp (bytes_compare r1 r2)) (bytes_compare x y).
Proof.
  rewrite !map_app, <- !app_assoc.
  intros H1; revert r2; induction H1 as [|b r1 Hb H1 IH]; intros r2 H2.
  - destruct H2 as [|c r2 Hc H2]; [done|]. rewrite escape_cons. unfold is_byte in Hc.
    destruct (Z.eqb_spec c 0) as [->|]; [done|]. rewrite map_app. cbn [escape flat_map map app bytes_compare].
    rewrite bnot_compare. destruct (Z.compare_spec c 0); lia || done.
  - destruct H2 as [|c r2 Hc H2]; rewrite ?escape_cons; unfold is_byte in *.
    + destruct (Z.eqb_spec b 0) as [->|]; [done|]. rewrite map_app. cbn [escape flat_map map app bytes_compare].
      rewrite bnot_compare. destruct (Z.compare_spec 0 b); lia || done.
    + cbn [bytes_compare]. destruct (Z.compare_spec b c) as [<-|Hlt|Hgt]; cbn [then_compare CompOpp].
      * rewrite !map_app, <- !app_assoc, bytes_compare_app_r. by apply IH.
      * destruct (Z.eqb_spec b 0), (Z.eqb_spec c 0); try lia; rewrite !map_app;
          cbn [escape flat_map map app bytes_compare]; rewrite bnot_compare;
          destruct (Z.compare_spec c b); lia || done.
      * destruct (Z.eqb_spec b 0), (Z.eqb_spec c 0); try lia; rewrite !map_app;
          cbn [escape flat_map map app bytes_compare]; rewrite bnot_compare;
          destruct (Z.compare_spec c b); lia || done.
Qed.

Lemma component_compare d r1 r2 x y :
  is_bytes r1 -> is_bytes r2 ->
  bytes_compare (component d r1 ++ x) (component d r2 ++ y)
  = then_compare (flip d (bytes_compare r1 r2)) (bytes_compare x y).
Proof.
  intros H1 H2. destruct d; cbn [component flip].
  - rewrite <- !app_assoc. by apply component_asc_compare.
  - by apply component_desc_compare.
  - rewrite <- !app_assoc. by apply component_asc_compare.
Qed.

(** Components are prefix-free: a key splits in one way. *)
Lemma component_inj d r1 r2 x y :
  is_bytes r1 -> is_bytes r2 -> component d r1 ++ x = component d r2 ++ y -> r1 = r2 /\ x = y.
Proof.
  intros H1 H2 H. apply bytes_compare_eq in H. rewrite component_compare in H by done.
  destruct (bytes_compare r1 r2) eqn:E.
  - apply bytes_compare_eq in E. split; [done|]. apply bytes_compare_eq. by destruct d.
  - by destruct d. - by destruct d.
Qed.

Lemma escape_bytes r : is_bytes r -> is_bytes (escape r).
Proof.
  induction 1 as [|b r Hb Hr IH]; [constructor|]. rewrite escape_cons.
  destruct (b =? 0); cbn [app]; (constructor; [done|]); [|done].
  constructor; [unfold is_byte; lia|done].
Qed.
Lemma component_bytes d r : is_bytes r -> is_bytes (component d r).
Proof.
  intros H. assert (is_bytes (escape r ++ [0; 0])) as H'.
  { apply Forall_app; split; [by apply escape_bytes|]. repeat constructor; unfold is_byte; lia. }
  destruct d; cbn; [done| |done]. apply Forall_map. eapply Forall_impl; [exact H'|]. apply bnot_byte.
Qed.
#[export] Hint Resolve component_bytes escape_bytes : syntrix.

(** ** Fields: what they mean and how they compare *)

(** A missing field sorts before every present one, explicit null included. *)
Inductive field_val := FMissing | FScalar (s : scalar).

Definition field_val_compare (a b : field_val) : comparison :=
  match a, b with
  | FMissing, FMissing => Eq
  | FMissing, FScalar _ => Lt
  | FScalar _, FMissing => Gt
  | FScalar s, FScalar t => scalar_compare s t
  end.

Definition denote_field (f : field) : option field_val :=
  if field_missing f then Some FMissing else FScalar <$> denote (field_value f).

(** The raw bytes a field's component escapes. *)
Definition raw_of (v : field_val) (raw : bytes) : Prop :=
  match v with FMissing => raw = [TypeMissing] | FScalar s => key_of s raw end.

Lemma key_of_bytes s k : key_of s k -> is_bytes k.
Proof.
  destruct s as [|[]|x|t]; cbn.
  - intros ->. repeat constructor; unfold is_byte; lia.
  - intros ->. repeat constructor; unfold is_byte; lia.
  - intros ->. repeat constructor; unfold is_byte; lia.
  - intros ([[n s] e] & _ & ->). unfold parts_key.
    destruct (s =? 0).
    { by repeat (constructor; [unfold is_byte; lia|]). }
    assert (is_bytes (be_bytes 2 (u16 (e + 1074)) ++ be_bytes 8 s)) as H
      by (apply Forall_app; split; apply be_bytes_bytes).
    destruct n; (constructor; [unfold is_byte; lia|]); (constructor; [unfold is_byte; lia|]); [|done].
    apply Forall_map. eapply Forall_impl; [exact H|]. apply bnot_byte.
  - intros ->. constructor; [unfold is_byte; lia|apply bytes_of_string_bytes].
Qed.

Lemma raw_of_bytes v raw : raw_of v raw -> is_bytes raw.
Proof.
  destruct v; cbn; [|apply key_of_bytes]. intros ->. constructor; [unfold is_byte, TypeMissing; lia|constructor].
Qed.

Lemma raw_of_compare v w r s :
  raw_of v r -> raw_of w s -> bytes_compare r s = field_val_compare v w.
Proof.
  destruct v as [|a], w as [|b]; cbn.
  - by intros -> ->.
  - intros -> H. destruct (key_of_head _ _ H) as [r' ->]. by destruct b as [|[]| |].
  - intros H ->. destruct (key_of_head _ _ H) as [r' ->]. by destruct a as [|[]| |].
  - apply key_of_compare.
Qed.

(** A tag byte is in 0x01..0x50, so its top bit tells the direction. *)
Lemma raw_of_head v raw : raw_of v raw -> exists t r, raw = t :: r /\ 0 < t <= 0x50.
Proof.
  destruct v as [|s]; cbn.
  - intros ->. exists TypeMissing, []. split; [done|]. unfold TypeMissing; lia.
  - intros H. destruct (key_of_head _ _ H) as [r ->]. eexists _, _. split; [done|].
    destruct s as [|[]| |]; cbn; lia.
Qed.

Definition wf_field (f : field) : Prop := wf_value (field_value f).

Definition valid_direction (d : direction) : Prop := d = Asc \/ d = Desc.

Lemma encodeField_component f buf :
  wf_field f -> encodeField f = Ok buf ->
  valid_direction (field_direction f) /\
  exists v raw, denote_field f = Some v /\ raw_of v raw /\ buf = component (field_direction f) raw.
Proof.
  unfold encodeField, wf_field, denote_field, valid_direction; intros Hwf H.
  assert (exists raw, (if field_missing f then Ok [TypeMissing]
          else if string_too_long (field_value f) then Err ErrStringTooLong
          else map_err ErrUnsupportedValue (ScalarKey (field_value f))) = Ok raw
          /\ buf = component (field_direction f) raw) as (raw & Hraw & ->).
  { destruct (field_direction f); [..|discriminate H]; apply bind_ok in H as (raw & Hr & H);
      injection H as <-; exists raw; done. }
  split; [destruct (field_direction f); auto; discriminate H|].
  destruct (field_missing f).
  - injection Hraw as <-. exists FMissing, [TypeMissing]. done.
  - destruct (string_too_long _); ok_inv.
    destruct (ScalarKey_denote _ _ Hwf Hraw) as (s & Hs & Hk).
    exists (FScalar s), raw. rewrite Hs. done.
Qed.

(** Lexicographic order of two rows under the directions of the index. *)
Fixpoint row_compare (dirs : list direction) (a b : list field_val) : comparison :=
  match dirs, a, b with
  | d :: dirs, v :: a, w :: b => then_compare (flip d (field_val_compare v w)) (row_compare dirs a b)
  | _, _, _ => Eq
  end.

Definition denote_row (fs : list field) : option (list field_val) := mapM denote_field fs.

Lemma encoded_fields_compare fs gs ef eg vf vg x y :
  Forall wf_field fs -> Forall wf_field gs ->
  map field_direction fs = map field_direction gs ->
  mapM_res encodeField fs = Ok ef -> mapM_res encodeField gs = Ok eg ->
  denote_row fs = Some vf -> denote_row gs = Some vg ->
  bytes_compare (concat ef ++ x) (concat eg ++ y)
  = then_compare (row_compare (map field_direction fs) vf vg) (bytes_compare x y).
Proof.
  intros Hf; revert gs ef eg vf vg; induction Hf as [|f fs Hwf Hf IH];
    intros [|g gs] ef eg vf vg Hg Hd Ef Eg Vf Vg; try discriminate Hd.
  { injection Ef as <-. injection Eg as <-. done. }
  injection Hd as Hd Hds. apply Forall_cons in Hg as [Hwg Hg].
  cbn [mapM_res] in Ef, Eg.
  apply bind_ok in Ef as (bf & Hbf & Ef). apply bind_ok in Ef as (ef' & Hef & [= <-]).
  apply bind_ok in Eg as (bg & Hbg & Eg). apply bind_ok in Eg as (eg' & Heg & [= <-]).
  apply encodeField_component in Hbf as (_ & v & rf & Hv & Hrv & ->); [|done].
  apply encodeField_component in Hbg as (_ & w & rg & Hw & Hrw & ->); [|done].
  unfold denote_row in Vf, Vg. cbn [mapM] in Vf, Vg. rewrite Hv in Vf. rewrite Hw in Vg.
  cbn in Vf, Vg. apply bind_Some in Vf as (vf' & Vf & [= <-]). apply bind_Some in Vg as (vg' & Vg & [= <-]).
  cbn [concat map row_compare]. rewrite <- !app_assoc, <- Hd.
  rewrite component_compare by (by eapply raw_of_bytes).
  rewrite (raw_of_compare v w) by done.
  rewrite (IH gs ef' eg' vf' vg') by done.
  by destruct (flip _ _).
Qed.

Lemma encodeField_denote f buf :
  wf_field f -> encodeField f = Ok buf -> is_Some (denote_field f).
Proof. intros Hw H. destruct (encodeField_component _ _ Hw H) as (_ & v & _ & -> & _). eauto. Qed.

Lemma encoded_denote_row fs ef :
  Forall wf_field fs -> mapM_res encodeField fs = Ok ef -> is_Some (denote_row fs).
Proof.
  intros Hf H. apply mapM_res_ok in H. unfold denote_row. apply mapM_is_Some.
  induction H as [|f b fs ef Hfb H IH]; [constructor|].
  apply Forall_cons in Hf as [Hw Hf]. constructor; [by eapply encodeField_denote|by apply IH].
Qed.

Lemma id_component docID idk :
  encodeField (Field (VString docID) Asc false) = Ok idk ->
  idk = component Asc (TypeString :: bytes_of_string docID) /\ utf8_valid_string docID = true.
Proof.
  unfold encodeField; cbn [field_direction field_missing field_value].
  intros H. destruct (string_too_long _); ok_inv. subst.
  unfold ScalarKey, NormalizeValue in *. destruct (utf8_valid_string docID); ok_inv. subst.
  cbn in *. ok_inv. by subst.
Qed.

(** ** Reading components back *)
Definition is_desc (d : direction) : bool := match d with Desc => true | _ => false end.

Lemma read_component_asc acc raw rest :
  read_component false acc (escape raw ++ 0 :: 0 :: rest) = Some (acc ++ raw, rest).
Proof.
  revert acc; induction raw as [|b raw IH]; intros acc.
  - cbn. by rewrite app_nil_r.
  - rewrite escape_cons. destruct (Z.eqb_spec b 0) as [->|Hb]; cbn [app read_component Z.eqb negb].
    + rewrite IH, <- app_assoc. done.
    + apply Z.eqb_neq in Hb. rewrite Hb. cbn [negb]. rewrite IH, <- app_assoc. done.
Qed.

Lemma map_bnot_involutive l : map bnot (map bnot l) = l.
Proof. induction l; cbn; [done|]. by rewrite bnot_involutive, IHl. Qed.

(** Reading a descending component is reading its complement. *)
Lemma read_component_desc acc key :
  read_component true acc key =
  prod_map id (map bnot) <$> read_component false acc (map bnot key).
Proof.
  cut (forall n acc key, (length key <= n)%nat ->
       read_component true acc key = prod_map id (map bnot) <$> read_component false acc (map bnot key));
    [eauto|].
  clear acc key; intros n; induction n as [|n IH]; intros acc [|b [|c key]] Hl; try done; cbn in Hl; try lia.
  - cbn [map read_component]. by case_match.
  - cbn [map read_component]. case_match.
    + apply (IH (acc ++ [bnot b]) (c :: key)). cbn; lia.
    + case_match; [cbn; by rewrite map_bnot_involutive|]. case_match; [done|]. apply IH. lia.
Qed.

Lemma read_component_encoded d acc raw rest :
  read_component (is_desc d) acc (component d raw ++ rest) = Some (acc ++ raw, rest).
Proof.
  destruct d; cbn [is_desc component].
  - rewrite <- app_assoc. apply read_component_asc.
  - rewrite read_component_desc, map_app, map_bnot_involutive, <- app_assoc. cbn [app].
    rewrite read_component_asc. cbn. by rewrite map_bnot_involutive.
  - rewrite <- app_assoc. apply read_component_asc.
Qed.

Lemma component_head d v raw rest :
  valid_direction d -> raw_of v raw ->
  exists tag key, component d raw ++ rest = tag :: key /\ (0x80 <? tag) = is_desc d.
Proof.
  intros Hd Hr. destruct (raw_of_head _ _ Hr) as (t & r & -> & Ht).
  destruct Hd as [-> | ->]; cbn [component is_desc]; rewrite escape_cons;
    (destruct (Z.eqb_spec t 0); [lia|]); cbn [app map].
  - eexists _, _. split; [done|]. apply Z.ltb_ge. lia.
  - eexists _, _. split; [done|]. apply Z.ltb_lt. unfold bnot. lia.
Qed.

Lemma extract_component d v raw fuel d0 l0 rest :
  valid_direction d -> raw_of v raw ->
  extract_components (S fuel) d0 l0 (component d raw ++ rest)
  = extract_components fuel (is_desc d) raw rest.
Proof.
  intros Hd Hr. destruct (component_head d v raw rest Hd Hr) as (tag & key & E & Ht).
  cbn [extract_components]. rewrite E. rewrite Ht, <- E, read_component_encoded. cbn [app].
  destruct (raw_of_head _ _ Hr) as (t & r & -> & _). done.
Qed.

Lemma extract_fields fs ef fuel d0 l0 rest :
  Forall wf_field fs -> mapM_res encodeField fs = Ok ef ->
  exists d l, extract_components (length ef + fuel) d0 l0 (concat ef ++ rest)
              = extract_components fuel d l rest.
Proof.
  intros Hf H. apply mapM_res_ok in H. revert d0 l0.
  induction H as [|f b fs ef Hfb H IH]; intros d0 l0; [by eexists _, _|].
  apply Forall_cons in Hf as [Hw Hf].
  destruct (encodeField_component _ _ Hw Hfb) as (Hd & v & raw & _ & Hr & ->).
  cbn [concat length Nat.add]. rewrite <- app_assoc, (extract_component _ v) by done. eauto.
Qed.

Lemma encoded_length fs ef :
  Forall wf_field fs -> mapM_res encodeField fs = Ok ef -> (length ef <= length (concat ef))%nat.
Proof.
  intros Hf H. apply mapM_res_ok in H. induction H as [|f b fs ef Hfb H IH]; [done|].
  apply Forall_cons in Hf as [Hw Hf]. specialize (IH Hf).
  destruct (encodeField_component _ _ Hw Hfb) as (Hd & v & raw & _ & Hr & ->).
  cbn [concat length]. rewrite length_app.
  destruct (component_head _ v raw [] Hd Hr) as (tag & key & E & _).
  rewrite app_nil_r in E. rewrite E. cbn. lia.
Qed.

Lemma Encode_inv fs docID key :
  Encode fs docID = Ok key ->
  exists ef, mapM_res encodeField fs = Ok ef /\ utf8_valid_string docID = true /\
             key = Version :: concat ef ++ component Asc (TypeString :: bytes_of_string docID).
Proof.
  unfold Encode, EncodePrefix. intros H.
  destruct (65535 <? slen docID); [discriminate H|].
  destruct (utf8_valid_string docID) eqn:U; [|discriminate H]. cbn [negb] in H.
  apply bind_ok in H as (prefix & Hp & H). apply bind_ok in Hp as (ef & Hef & [= <-]).
  apply bind_ok in H as (idk & Hid & [= <-]). apply id_component in Hid as [-> _]. eauto.
Qed.

Lemma fields_compare_complete fs gs kf kg :
  Forall wf_field fs -> Forall wf_field gs ->
  EncodePrefix fs = Ok kf -> EncodePrefix gs = Ok kg ->
  map field_direction fs = map field_direction gs ->
  exists vf vg, denote_row fs = Some vf /\ denote_row gs = Some vg /\
    bytes_compare kf kg = row_compare (map field_direction fs) vf vg.
Proof.
  unfold EncodePrefix. intros Hf Hg Ef Eg Hd.
  apply bind_ok in Ef as (ef & H & [= <-]). apply bind_ok in Eg as (eg & H1 & [= <-]).
  destruct (encoded_denote_row _ _ Hf H) as [vf Vf], (encoded_denote_row _ _ Hg H1) as [vg Vg].
  exists vf, vg. split; [done|]. split; [done|]. cbn [bytes_compare]. rewrite Z.compare_refl.
  pose proof (encoded_fields_compare fs gs _ _ vf vg [] [] Hf Hg Hd H H1 Vf Vg) as E.
  rewrite !app_nil_r in E. rewrite E. cbn. by destruct (row_compare _ _ _).
Qed.

(** ** Theorems *)

(** C32: Index keys sort exactly like the rows they encode: for rows encoded
    under the same directions, byte order is the lexicographic order of the
    fields (missing first, then scalar order, reversed on descending fields),
    with ties broken by ascending document ID. *)
Theorem Encode_order fs gs idf idg kf kg :
  Forall wf_field fs -> Forall wf_field gs ->
  map field_direction fs = map field_direction gs ->
  Encode fs idf = Ok kf -> Encode gs idg = Ok kg ->
  exists vf vg, denote_row fs = Some vf /\ denote_row gs = Some vg /\
    bytes_compare kf kg
    = then_compare (row_compare (map field_direction fs) vf vg) (string_compare idf idg).
Proof.
  intros Hf Hg Hd Ef Eg.
  apply Encode_inv in Ef as (ef & Hef & Uf & ->). apply Encode_inv in Eg as (eg & Heg & Ug & ->).
  destruct (encoded_denote_row _ _ Hf Hef) as [vf Vf], (encoded_denote_row _ _ Hg Heg) as [vg Vg].
  exists vf, vg. split; [done|]. split; [done|]. cbn [bytes_compare]. rewrite Z.compare_refl.
  rewrite (encoded_fields_compare fs gs ef eg vf vg) by done. f_equal.
  rewrite <- (app_nil_r (component Asc (_ :: bytes_of_string idf))),
          <- (app_nil_r (component Asc (_ :: bytes_of_string idg))).
  rewrite component_compare by (constructor; [unfold is_byte, TypeString; lia|apply bytes_of_string_bytes]).
  cbn [flip bytes_compare]. unfold string_compare. cbn.
  by destruct (bytes_compare _ _).
Qed.

Lemma Encode_order_witness :
  exists ka kb,
    Encode [Field (VInt KInt64 2) Desc false; Field VNil Asc true] "a" = Ok ka /\
    Encode [Field (VFloat64 0x3ff8000000000000) Desc false; Field VNil Asc false] "b" = Ok kb /\
    bytes_compare ka kb = Lt.
Proof.
  eexists _, _. split; [reflexivity|]. split; [vm_compute; reflexivity|].
  edestruct (Encode_order [Field (VInt KInt64 2) Desc false; Field VNil Asc true]
               [Field (VFloat64 0x3ff8000000000000) Desc false; Field VNil Asc false] "a" "b")
    as (va & vb & Ha & Hb & ->).
  - repeat constructor; cbn; lia.
  - repeat constructor; cbn; unfold is_u64; lia.
  - reflexivity.
  - reflexivity.
  - vm_compute. reflexivity.
  - vm_compute in Ha, Hb. injection Ha as <-. injection Hb as <-. vm_compute. reflexivity.
Defined.

(** Reading the document ID back from an encoded key returns the ID that was
    encoded, whatever fields and directions precede it; the component loops
    always have enough fuel. *)
Theorem ExtractDocID_Encode fs docID key :
  Forall wf_field fs -> Encode fs docID = Ok key -> ExtractDocID key = Ok docID.
Proof.
  intros Hf H. apply Encode_inv in H as (ef & Hef & U & ->).
  pose proof (encoded_length _ _ Hf Hef) as Hlen.
  set (idc := component Asc (TypeString :: bytes_of_string docID)).
  assert (3 <= length idc)%nat as Hid.
  { unfold idc. cbn [component]. rewrite escape_cons. change (TypeString =? 0) with false.
    cbn [app length]. rewrite length_app. cbn. lia. }
  unfold ExtractDocID. cbn [hd tl].
  destruct (Z.ltb_spec (Z.of_nat (length (Version :: concat ef ++ idc))) 4) as [Hl|_].
  { cbn [length] in Hl. rewrite length_app in Hl. lia. }
  rewrite Z.eqb_refl. cbn [orb negb].
  replace (length (Version :: concat ef ++ idc))
    with (length ef + (2 + (length (concat ef) - length ef + (length idc - 1))))%nat
    by (cbn [length]; rewrite length_app; lia).
  generalize (length (concat ef) - length ef + (length idc - 1))%nat. intros k.
  rewrite <- (app_nil_r idc).
  destruct (extract_fields fs ef (2 + k) false [] (idc ++ []) Hf Hef) as (d & l & ->).
  unfold idc. cbn [Nat.add]. rewrite (extract_component _ (FScalar (SStr docID)));
    [|by left|done]. cbn [is_desc extract_components orb hd tl].
  unfold utf8_valid_string in U. rewrite U. cbn [negb].
  change (TypeString =? TypeString) with true. cbn [negb orb]. by rewrite string_of_bytes_of_string.
Qed.

Lemma ExtractDocID_Encode_witness :
  exists key, Encode [Field (VString "x") Desc false] "doc-1" = Ok key /\ ExtractDocID key = Ok "doc-1".
Proof.
  eexists. split; [vm_compute; reflexivity|].
  apply (ExtractDocID_Encode [Field (VString "x") Desc false]); [repeat constructor|vm_compute; reflexivity].
Defined.
