(* ===== verification/Filter.v ===== *)
(** * Filters: pkg/model/filter.go and pkg/model/filter_eval.go

    Query predicates: their validation, the normalisation of their operands and
    their evaluation against a document, with an operand-level specification. *)
From stdpp Require Import base list gmap strings.
From Stdlib Require Import ZArith.
From S2P Require Import Prelude Value.
Local Open Scope Z_scope.

(** [type FilterOp string]: the eight operators and any other string. *)
Inductive FilterOp :=
| OpEq | OpNe | OpGt | OpGte | OpLt | OpLte | OpIn | OpContains
| OpUnknown (s : string).
#[export] Instance FilterOp_eq_dec : EqDecision FilterOp.
Proof. solve_decision. Defined.

Definition ValidOps : list FilterOp := [OpEq; OpNe; OpGt; OpGte; OpLt; OpLte; OpIn; OpContains].

Definition IsValid (op : FilterOp) : bool :=
  match op with OpUnknown _ => false | _ => true end.

Record filter := Filter { filter_field : string; filter_op : FilterOp; filter_value : value }.

Definition Validate (f : filter) : bool :=
  if String.eqb (filter_field f) "" then false else IsValid (filter_op f).

Inductive filter_error :=
| ErrQueryField (field : string)
| ErrInvalidOperator
| ErrOperand (e : value_error)
| ErrInRequiresArray
| ErrInMember (e : value_error)
| ErrRangeOperand
| ErrAtFilter (i : nat) (e : filter_error)
| ErrAtField (field : string) (e : filter_error)
| ErrFieldValue (e : value_error)
| ErrTypeAssertion.  (** a Go panic: [filter.Value.([]any)] on another type *)

(** [strings.IndexFunc(field, unicode.IsControl) >= 0] on valid UTF-8: U+0000..U+001F,
    U+007F..U+009F. *)
Fixpoint has_control (l : bytes) : bool :=
  match l with
  | [] => false
  | b :: l' =>
      in_range 0 0x1F b || (b =? 0x7F)
      || ((b =? 0xC2) && match l' with c :: _ => in_range 0x80 0x9F c | [] => false end)
      || has_control l'
  end.

Definition ValidateQueryField (field : string) : res filter_error unit :=
  let b := bytes_of_string field in
  if String.eqb field "" || negb (utf8_valid b) || existsb (Z.eqb 46) b || has_control b
  then Err (ErrQueryField field) else Ok tt.

(** The members of an [in] list with the first occurrence of each scalar key. *)
Fixpoint unique_members (seen : list bytes) (items : list value) : res filter_error (list value) :=
  match items with
  | [] => Ok []
  | item :: items =>
      key ← map_err ErrInMember (ScalarKey item);
      if bool_decide (key ∈ seen) then unique_members seen items
      else cons item <$> unique_members (key :: seen) items
  end.

Definition isRangeValue (v : value) : bool :=
  match v with VInt KInt64 _ | VFloat64 _ | VString _ => true | _ => false end.

Definition normalize_filter (f : filter) : res filter_error filter :=
  _ ← ValidateQueryField (filter_field f);
  if negb (IsValid (filter_op f)) then Err ErrInvalidOperator
  else
    v ← map_err ErrOperand (NormalizeValue (filter_value f));
    v' ← match filter_op f with
         | OpIn =>
             match v with
             | VSlice items => VSlice <$> unique_members [] items
             | _ => Err ErrInRequiresArray
             end
         | OpGt | OpGte | OpLt | OpLte => if isRangeValue v then Ok v else Err ErrRangeOperand
         | _ => _ ← map_err ErrOperand (ScalarKey v); Ok v
         end;
    Ok (Filter (filter_field f) (filter_op f) v').

Fixpoint NormalizeFilters_from (i : nat) (fs : list filter) : res filter_error (list filter) :=
  match fs with
  | [] => Ok []
  | f :: fs => g ← map_err (ErrAtFilter i) (normalize_filter f);
               gs ← NormalizeFilters_from (S i) fs; Ok (g :: gs)
  end.

Definition NormalizeFilters (fs : list filter) : res filter_error (list filter) :=
  NormalizeFilters_from 0 fs.

Definition sameRangeFamily (a b : value) : bool :=
  match a, b with
  | VString _, VString _ => true
  | (VInt KInt64 _ | VFloat64 _), (VInt KInt64 _ | VFloat64 _) => true
  | _, _ => false
  end.

Definition evaluateNormalizedFilter (f : filter) (v : value) (present : bool) : res filter_error bool :=
  if negb present then Ok false
  else
    n ← map_err ErrFieldValue (NormalizeValue v);
    match filter_op f with
    | OpEq => Ok (EqualValues n (filter_value f))
    | OpNe => Ok (negb (EqualValues n (filter_value f)))
    | OpIn =>
        match filter_value f with
        | VSlice items => Ok (existsb (EqualValues n) items)
        | _ => Err ErrTypeAssertion
        end
    | OpContains =>
        match n with
        | VSlice items => Ok (existsb (fun item => EqualValues item (filter_value f)) items)
        | _ => Ok false
        end
    | OpGt | OpGte | OpLt | OpLte =>
        if negb (sameRangeFamily n (filter_value f)) then Ok false
        else
          c ← map_err ErrFieldValue (CompareValues n (filter_value f));
          match filter_op f with
          | OpGt => Ok (match c with Gt => true | _ => false end)
          | OpGte => Ok (match c with Lt => false | _ => true end)
          | OpLt => Ok (match c with Lt => true | _ => false end)
          | _ => Ok (match c with Gt => false | _ => true end)
          end
    | OpUnknown _ => Err ErrInvalidOperator
    end.

(** Every filter is evaluated, also after one that does not match. *)
Fixpoint evaluate_all (fs : list filter) (field : string -> value * bool) (matched : bool)
    : res filter_error bool :=
  match fs with
  | [] => Ok matched
  | f :: fs =>
      let '(v, present) := field (filter_field f) in
      r ← map_err (ErrAtField (filter_field f)) (evaluateNormalizedFilter f v present);
      evaluate_all fs field (matched && r)
  end.

Definition EvaluateFilters (fs : list filter) (field : string -> value * bool) : res filter_error bool :=
  normalized ← NormalizeFilters fs;
  evaluate_all normalized field true.

Definition EvaluateFilter (f : filter) (v : value) (present : bool) : res filter_error bool :=
  normalized ← NormalizeFilters [f];
  match normalized with
  | g :: _ => evaluateNormalizedFilter g v present
  | [] => Err ErrTypeAssertion
  end.

(** ** Specification: what a filter means, on the scalars its operands denote *)
Definition denote_eqb (a b : value) : bool :=
  match denote a, denote b with
  | Some s, Some t => match scalar_compare s t with Eq => true | _ => false end
  | _, _ => false
  end.

(** Numbers compare with numbers and strings with strings; nothing else is in range. *)
Definition in_family (s t : scalar) : bool :=
  match s, t with SNum _, SNum _ | SStr _, SStr _ => true | _, _ => false end.

Definition range_holds (test : comparison -> bool) (operand v : value) : bool :=
  match denote v, denote operand with
  | Some s, Some t => in_family s t && test (scalar_compare s t)
  | _, _ => false
  end.

(** The elements of an array value. *)
Definition elements_of (v : value) : list value :=
  match v with VSlice l => l | _ => [] end.

Definition holds (op : FilterOp) (operand v : value) : bool :=
  match op with
  | OpEq => denote_eqb v operand
  | OpNe => negb (denote_eqb v operand)
  | OpIn => existsb (denote_eqb v) (elements_of operand)
  | OpContains => existsb (fun item => denote_eqb item operand) (elements_of v)
  | OpGt => range_holds (fun c => match c with Gt => true | _ => false end) operand v
  | OpGte => range_holds (fun c => match c with Lt => false | _ => true end) operand v
  | OpLt => range_holds (fun c => match c with Lt => true | _ => false end) operand v
  | OpLte => range_holds (fun c => match c with Gt => false | _ => true end) operand v
  | OpUnknown _ => false
  end.

(** A missing field satisfies no filter, not even [!=]. *)
Definition filter_holds (f : filter) (field : string -> value * bool) : bool :=
  let '(v, present) := field (filter_field f) in
  present && holds (filter_op f) (filter_value f) v.

(** ** Operands *)
Lemma EqualValues_eqb a b : wf_value a -> wf_value b -> EqualValues a b = denote_eqb a b.
Proof.
  intros Wa Wb. unfold denote_eqb. destruct (EqualValues a b) eqn:E.
  - apply EqualValues_denote in E as (s & -> & ->); [|done|done].
    by rewrite (proj2 (scalar_compare_eq s s) eq_refl).
  - destruct (denote a) as [s|] eqn:Da; [|done]. destruct (denote b) as [t|] eqn:Db; [|done].
    destruct (scalar_compare s t) eqn:C; try done. apply scalar_compare_eq in C as ->.
    rewrite (proj2 (EqualValues_denote a b Wa Wb)) in E; [done|]. eauto.
Qed.

Lemma denote_eqb_normalized a b a' b' :
  NormalizeValue a = Ok a' -> NormalizeValue b = Ok b' -> denote_eqb a' b' = denote_eqb a b.
Proof. intros Ha Hb. unfold denote_eqb. by rewrite (denote_normalized _ _ Ha), (denote_normalized _ _ Hb). Qed.

Lemma wf_slice l : wf_value (VSlice l) <-> Forall wf_value l.
Proof. cbn. induction l as [|x l IH]; cbn; [by split|]. rewrite Forall_cons, <- IH. done. Qed.

Lemma normalize_slice l n :
  NormalizeValue (VSlice l) = Ok n ->
  exists l', n = VSlice l' /\ Forall2 (fun x y => NormalizeValue x = Ok y) l l'.
Proof.
  cbn [NormalizeValue]. intros H. apply fmap_ok in H as (ys & H & ->). exists ys. split; [done|].
  revert ys H. generalize O. induction l as [|x l IH]; intros i ys H.
  - injection H as <-. constructor.
  - apply bind_ok in H as (y & Hy & H). apply bind_ok in H as (ys' & Hys & [= <-]).
    apply map_err_ok in Hy. constructor; [done|]. by eapply IH.
Qed.

Lemma normalize_not_slice v n :
  NormalizeValue v = Ok n -> (forall l, v <> VSlice l) -> forall l, n <> VSlice l.
Proof.
  intros H Hv l ->. destruct v; cbn [NormalizeValue] in H; unfold normalize_float in H;
    repeat (case_step; ok_inv); ok_inv; try congruence.
Qed.

Lemma existsb_normalized (P Q : value -> bool) l l' :
  Forall2 (fun x y => NormalizeValue x = Ok y) l l' ->
  (forall x y, x ∈ l -> NormalizeValue x = Ok y -> P y = Q x) ->
  existsb P l' = existsb Q l.
Proof.
  induction 1 as [|x y l l' Hxy H IH]; intros HPQ; [done|]. cbn.
  rewrite (HPQ x y) by (done || left). f_equal. apply IH. intros; apply HPQ; [by right|done].
Qed.

Lemma existsb_ext_in {A} (P Q : A -> bool) l :
  (forall x, x ∈ l -> P x = Q x) -> existsb P l = existsb Q l.
Proof.
  induction l as [|x l IH]; intros H; [done|]. cbn. rewrite (H x) by left.
  f_equal. apply IH. intros y Hy. apply H. by right.
Qed.

(** ** Members of an [in] list *)
Lemma same_key_same_denote a b k :
  wf_value a -> wf_value b -> ScalarKey a = Ok k -> ScalarKey b = Ok k -> denote a = denote b.
Proof.
  intros Wa Wb Ha Hb.
  destruct (ScalarKey_denote _ _ Wa Ha) as (s & -> & Hs), (ScalarKey_denote _ _ Wb Hb) as (t & -> & Ht).
  pose proof (key_of_compare _ _ _ _ Hs Ht) as E. rewrite bytes_compare_refl in E.
  symmetry in E. apply scalar_compare_eq in E. by subst.
Qed.

Lemma unique_members_sub seen items us :
  unique_members seen items = Ok us -> forall u, u ∈ us -> u ∈ items.
Proof.
  revert seen us; induction items as [|x items IH]; intros seen us; cbn [unique_members].
  - intros [= <-] u Hu. by apply elem_of_nil in Hu.
  - intros H. apply bind_ok in H as (k & Hk & H). case_bool_decide.
    + intros u Hu. right. by eapply IH.
    + apply fmap_ok in H as (us' & H & ->). intros u [->|Hu]%elem_of_cons; [left|right; by eapply IH].
Qed.

(** A member the list drops shares its key, hence its meaning, with one it keeps. *)
Lemma unique_members_cover (P : value -> bool) seen items us :
  Forall wf_value items ->
  (forall a b, denote a = denote b -> P a = P b) ->
  unique_members seen items = Ok us ->
  existsb P items = true ->
  existsb P us = true \/ exists x k, x ∈ items /\ P x = true /\ ScalarKey x = Ok k /\ k ∈ seen.
Proof.
  intros Hwf HP; revert seen us; induction Hwf as [|x items Hx Hwf IH]; intros seen us H He;
    cbn [unique_members existsb] in *; [done|].
  apply bind_ok in H as (k & Hk & H). apply map_err_ok in Hk.
  case_bool_decide as Hin.
  - apply orb_prop in He as [He|He].
    + right. exists x, k. repeat split; [left|done..].
    + destruct (IH _ _ H He) as [|(y & k' & Hy & ?)]; [by left|right].
      exists y, k'. split; [by right|done].
  - apply fmap_ok in H as (us' & H & ->). cbn [existsb].
    destruct (P x) eqn:Px; [by left|]. cbn [orb] in *.
    destruct (IH _ _ H He) as [|(y & k' & Hy & Py & Hk' & Hin')]; [by left|].
    apply elem_of_cons in Hin' as [->|Hin'].
    + rewrite (HP y x) in Py; [congruence|].
      eapply same_key_same_denote; [|exact Hx|exact Hk'|exact Hk].
      by eapply (proj1 (Forall_forall _ _) Hwf), Hy.
    + right. exists y, k'. split; [by right|done].
Qed.

Lemma unique_members_existsb (P : value -> bool) items us :
  Forall wf_value items -> (forall a b, denote a = denote b -> P a = P b) ->
  unique_members [] items = Ok us -> existsb P us = existsb P items.
Proof.
  intros Hwf HP H. destruct (existsb P items) eqn:E.
  - destruct (unique_members_cover P [] items us Hwf HP H E) as [|(x & k & _ & _ & _ & Hk)]; [done|].
    by apply elem_of_nil in Hk.
  - destruct (existsb P us) eqn:E'; [|done]. exfalso.
    apply existsb_exists in E' as (u & Hu & Pu). apply list_elem_of_In in Hu.
    eapply unique_members_sub in Hu; [|exact H].
    assert (existsb P items = true) by (apply existsb_exists; exists u; split; [by apply list_elem_of_In|done]).
    congruence.
Qed.

(** ** Evaluation *)
Definition wf_filter (f : filter) : Prop := wf_value (filter_value f).

(** The field accessor returns a well-formed, admitted value where it has one. *)
Definition readable (field : string -> value * bool) (f : filter) : Prop :=
  let '(v, present) := field (filter_field f) in
  present = true -> wf_value v /\ exists n, NormalizeValue v = Ok n.

Lemma normalize_filter_inv f g :
  normalize_filter f = Ok g ->
  filter_field g = filter_field f /\ filter_op g = filter_op f /\ IsValid (filter_op f) = true /\
  exists w, NormalizeValue (filter_value f) = Ok w /\
    match filter_op f with
    | OpIn => exists items us, w = VSlice items /\ unique_members [] items = Ok us /\ filter_value g = VSlice us
    | OpGt | OpGte | OpLt | OpLte => filter_value g = w /\ isRangeValue w = true
    | _ => filter_value g = w /\ exists k, ScalarKey w = Ok k
    end.
Proof.
  unfold normalize_filter. intros H. apply bind_ok in H as ([] & _ & H).
  destruct (IsValid (filter_op f)) eqn:V; cbn [negb] in H; [|discriminate H].
  apply bind_ok in H as (w & Hw & H). apply map_err_ok in Hw.
  apply bind_ok in H as (v & Hv & [= <-]). cbn. repeat split. exists w. split; [done|].
  destruct (filter_op f); ok_inv; subst; eauto.
  1-4: destruct (isRangeValue w); ok_inv; subst; eauto.
  destruct w; ok_inv; subst; eauto.
Qed.

Lemma sameRangeFamily_denote a b s t :
  normal a -> normal b -> scalar_of a = Some s -> scalar_of b = Some t ->
  sameRangeFamily a b = in_family s t.
Proof.
  destruct a, b; cbn; intros Na Nb [= <-] [= <-]; try done; subst; done.
Qed.

Lemma sameRangeFamily_scalar a b : sameRangeFamily a b = true -> is_Some (scalar_of a) /\ is_Some (scalar_of b).
Proof. destruct a as [| | |[]| | | | | |], b as [| | |[]| | | | | |]; cbn; try done; eauto. Qed.

Lemma denote_normal a : normal a -> denote a = scalar_of a.
Proof. intros H. unfold denote. by rewrite NormalizeValue_of_normal. Qed.

Lemma range_evaluated (test : comparison -> bool) v n w operand :
  wf_value v -> wf_value operand ->
  NormalizeValue v = Ok n -> NormalizeValue operand = Ok w ->
  (if negb (sameRangeFamily n w) then Ok false
   else c ← map_err ErrFieldValue (CompareValues n w); Ok (test c))
  = Ok (range_holds test operand v).
Proof.
  intros Wv Wo Hn Hw. unfold range_holds.
  rewrite <- (denote_normalized _ _ Hn), <- (denote_normalized _ _ Hw).
  pose proof (NormalizeValue_normal _ _ Hn) as Nn. pose proof (NormalizeValue_normal _ _ Hw) as Nw.
  rewrite !denote_normal by done.
  destruct (sameRangeFamily n w) eqn:F; cbn [negb].
  - destruct (sameRangeFamily_scalar _ _ F) as [[s Hs] [t Ht]]. rewrite Hs, Ht.
    rewrite (sameRangeFamily_denote n w s t) in F by done. rewrite F.
    pose proof (NormalizeValue_wf _ _ Wv Hn). pose proof (NormalizeValue_wf _ _ Wo Hw).
    rewrite (CompareValues_denote n w s t) by (done || by rewrite denote_normal). done.
  - destruct (scalar_of n) as [s|] eqn:Hs; [|done]. destruct (scalar_of w) as [t|] eqn:Ht; [|done].
    rewrite (sameRangeFamily_denote n w s t) in F by done. by rewrite F.
Qed.

Lemma evaluate_normalized f g v n :
  wf_filter f -> normalize_filter f = Ok g -> wf_value v -> NormalizeValue v = Ok n ->
  evaluateNormalizedFilter g v true = Ok (holds (filter_op f) (filter_value f) v).
Proof.
  unfold wf_filter. intros Wf H Wv Hn.
  apply normalize_filter_inv in H as (_ & Hop & Hvalid & w & Hw & H).
  pose proof (NormalizeValue_wf _ _ Wv Hn) as Wn. pose proof (NormalizeValue_wf _ _ Wf Hw) as Ww.
  unfold evaluateNormalizedFilter. cbn [negb]. rewrite Hn, Hop. cbn [map_err mbind res_bind].
  destruct (filter_op f); cbn [holds].
  1-2: destruct H as [-> _]; rewrite EqualValues_eqb by done; by rewrite (denote_eqb_normalized v (filter_value f)).
  1-4: destruct H as [-> _]; by apply range_evaluated.
  - destruct H as (items & us & -> & Hu & ->). f_equal.
    destruct (filter_value f) as [| | | | | | |l| |] eqn:Ev;
      try (exfalso; by eapply normalize_not_slice; [exact Hw|done|]).
    apply normalize_slice in Hw as (l' & [= ->] & Hl). cbn [elements_of].
    assert (Forall wf_value l') as Wl by (by apply wf_slice).
    assert (existsb (EqualValues n) us = existsb (denote_eqb n) us) as ->.
    { apply existsb_ext_in. intros u Hin. apply EqualValues_eqb; [done|].
      apply (proj1 (Forall_forall _ _) Wl). by eapply unique_members_sub. }
    rewrite (unique_members_existsb _ l' us Wl); [|by intros a b E; unfold denote_eqb; rewrite E|done].
    apply existsb_normalized with (1 := Hl). intros x y Hx Hy. by apply denote_eqb_normalized.
  - destruct H as [-> _]. destruct v as [| | | | | | |l| |];
      try (destruct n; try done; exfalso; by eapply normalize_not_slice; [exact Hn|done|]).
    apply normalize_slice in Hn as (l' & -> & Hl). cbn [elements_of]. f_equal.
    apply existsb_normalized with (1 := Hl). intros x y Hx Hy.
    apply wf_slice in Wv. pose proof (proj1 (Forall_forall _ _) Wv x Hx) as Wx.
    rewrite EqualValues_eqb; [by apply denote_eqb_normalized|by eapply NormalizeValue_wf|done].
  - discriminate Hvalid.
Qed.

Lemma NormalizeFilters_from_ok i fs gs :
  NormalizeFilters_from i fs = Ok gs -> Forall2 (fun f g => normalize_filter f = Ok g) fs gs.
Proof.
  revert i gs; induction fs as [|f fs IH]; intros i gs H; cbn [NormalizeFilters_from] in H.
  - injection H as <-. constructor.
  - apply bind_ok in H as (g & Hg & H). apply map_err_ok in Hg.
    apply bind_ok in H as (gs' & H & [= <-]). constructor; eauto.
Qed.

Lemma evaluate_all_holds fs gs field acc :
  Forall2 (fun f g => normalize_filter f = Ok g) fs gs ->
  Forall wf_filter fs -> Forall (readable field) fs ->
  evaluate_all gs field acc = Ok (acc && forallb (fun f => filter_holds f field) fs).
Proof.
  intros H; revert acc; induction H as [|f g fs gs Hfg H IH]; intros acc Hw Hr.
  { cbn. by rewrite andb_true_r. }
  apply Forall_cons in Hw as [Wf Hw]. apply Forall_cons in Hr as [Rf Hr].
  destruct (normalize_filter_inv _ _ Hfg) as (Hfield & _).
  cbn [evaluate_all forallb]. rewrite Hfield. unfold filter_holds at 1. unfold readable in Rf.
  destruct (field (filter_field f)) as [v present].
  assert (evaluateNormalizedFilter g v present = Ok (present && holds (filter_op f) (filter_value f) v)) as ->.
  { destruct present; [|done]. destruct (Rf eq_refl) as (Wv & n & Hn).
    by apply (evaluate_normalized f g v n). }
  cbn [map_err mbind res_bind]. rewrite IH by done. by rewrite <- !andb_assoc.
Qed.

(** ** Theorems *)

(** C39: Evaluating an accepted conjunction over a readable document never fails
    and returns exactly the conjunction of the filters' meanings on the scalars
    they denote; de-duplicating [in] members and normalising operands changes no
    result, and a missing field satisfies nothing. *)
Theorem EvaluateFilters_holds fs gs field :
  Forall wf_filter fs -> NormalizeFilters fs = Ok gs -> Forall (readable field) fs ->
  EvaluateFilters fs field = Ok (forallb (fun f => filter_holds f field) fs).
Proof.
  intros Hw Hn Hr. unfold EvaluateFilters. rewrite Hn. cbn [mbind res_bind].
  apply NormalizeFilters_from_ok in Hn. exact (evaluate_all_holds fs gs field true Hn Hw Hr).
Qed.

Definition sample_field (name : string) : value * bool :=
  if String.eqb name "age" then (VInt KInt64 7, true)
  else if String.eqb name "tags" then (VSlice [VString "a"; VNil], true)
  else (VNil, false).

Lemma EvaluateFilters_holds_witness :
  EvaluateFilters [Filter "age" OpIn (VSlice [VFloat64 0x401c000000000000; VInt KInt64 7]);
                   Filter "tags" OpContains VNil; Filter "age" OpLt (VFloat64 0x401e000000000000)]
    sample_field = Ok true.
Proof.
  erewrite EvaluateFilters_holds.
  - vm_compute. reflexivity.
  - repeat constructor; unfold wf_filter; cbn; unfold is_u64; lia.
  - vm_compute. reflexivity.
  - repeat (constructor; [cbn; intros _; split; [cbn; try lia; auto|eauto]|]); constructor.
Defined.

(** Normalising an [in] filter keeps its meaning while removing duplicates
    (an integer and an equal float are one member): the kept members have pairwise
    different scalar keys and match the same values. *)
Theorem NormalizeFilters_in_members f g v :
  wf_filter f -> normalize_filter f = Ok g -> filter_op f = OpIn ->
  exists items us keys,
    NormalizeValue (filter_value f) = Ok (VSlice items) /\ filter_value g = VSlice us /\
    mapM_res ScalarKey us = Ok keys /\ NoDup keys /\
    existsb (denote_eqb v) us = existsb (denote_eqb v) items.
Proof.
  intros Wf H Hop. apply normalize_filter_inv in H as (_ & _ & _ & w & Hw & H).
  rewrite Hop in H. destruct H as (items & us & -> & Hu & ->).
  assert (exists keys, mapM_res ScalarKey us = Ok keys /\ NoDup keys) as (keys & Hk & Hnd).
  { cut (forall seen us, unique_members seen items = Ok us ->
         exists keys, mapM_res ScalarKey us = Ok keys /\ NoDup keys /\ (forall k, k ∈ keys -> k ∉ seen)).
    { intros C. destruct (C _ _ Hu) as (keys & ? & ? & _). eauto. }
    clear. induction items as [|x items IH]; intros seen us; cbn [unique_members].
    - intros [= <-]. exists []. repeat split; [constructor|set_solver].
    - intros H. apply bind_ok in H as (k & Hk & H). apply map_err_ok in Hk.
      case_bool_decide as Hin; [by apply IH|]. apply fmap_ok in H as (us' & H & ->).
      destruct (IH _ _ H) as (keys & E & Hnd & Hs). exists (k :: keys). cbn [mapM_res].
      rewrite Hk, E. cbn. repeat split; [constructor; [|done]|set_solver].
      intros Hk'. by apply (Hs k Hk'); left. }
  exists items, us, keys. repeat split; try done.
  apply unique_members_existsb; [|by intros a b E; unfold denote_eqb; rewrite E|done].
  apply wf_slice. by eapply NormalizeValue_wf.
Qed.

Lemma NormalizeFilters_in_members_witness :
  exists us keys,
    normalize_filter (Filter "age" OpIn (VSlice [VInt KInt64 1; VFloat64 0x3ff0000000000000; VBool true]))
      = Ok (Filter "age" OpIn (VSlice us)) /\ mapM_res ScalarKey us = Ok keys /\ NoDup keys.
Proof.
  destruct (NormalizeFilters_in_members
    (Filter "age" OpIn (VSlice [VInt KInt64 1; VFloat64 0x3ff0000000000000; VBool true]))
    (Filter "age" OpIn (VSlice [VInt KInt64 1; VBool true])) VNil)
    as (items & us & keys & _ & Hu & Hk & Hnd & _).
  - unfold wf_filter. cbn. unfold is_u64. lia.
  - vm_compute. reflexivity.
  - reflexivity.
  - exists us, keys. cbn in Hu. injection Hu as <-. split; [vm_compute; reflexivity|done].
Defined.
