(* ===== verification/IndexStore.v ===== *)
(** * The storage contract of the indexer: internal/indexer/store/store.go

    Identities of index partitions, document projections, read budgets, bootstrap
    catalogs and generations, with the validation every backend shares. *)
From stdpp Require Import base list sorting gmap strings.
From Stdlib Require Import ZArith.
From S2P Require Import Prelude PostingSet.
Local Open Scope Z_scope.

Record QueryIndexRef := IndexRef {
  ref_Database : string;
  ref_Collection : string;
  ref_TemplateFingerprint : string;
  ref_Generation : string;
}.
#[export] Instance QueryIndexRef_eq_dec : EqDecision QueryIndexRef.
Proof. solve_decision. Defined.
#[export] Instance QueryIndexRef_countable : Countable QueryIndexRef.
Proof.
  refine (inj_countable'
    (fun r => (ref_Database r, ref_Collection r, ref_TemplateFingerprint r, ref_Generation r))
    (fun '(a, b, c, d) => IndexRef a b c d) _). by intros [].
Defined.

Record Projection := { proj_Index : QueryIndexRef; proj_DocumentID : string; proj_PostingKeys : list bytes }.

Record ReadBudget := { MaxOverlayReplacements : Z; MaxOverlayBytes : Z; MaxExamined : Z }.

Inductive store_error :=
| ErrNegativeBudget
| ErrWorkLimit
| ErrIncompleteCatalog
| ErrEmptyFingerprint
| ErrEmptyInventory
| ErrInventoryBoundary
| ErrDuplicateDatabase (db : string)
| ErrNoTemplates
| ErrIncompleteProjection
| ErrDuplicateProjection (doc : string)
| ErrEmptyPostingKey (doc : string)
| ErrPluralPublication
| ErrIncompleteIdentity
| ErrCatalogGeneration
| ErrViewClosed
| ErrContext
| ErrDatabaseNotFound
| ErrStoreClosed
| ErrIteratorClosed
| ErrBackend (message : string)      (** of the database under a persistent store *)
| ErrPostingRow (e : decode_error)
| ErrMetadata                         (** a metadata row that does not decode *)
| ErrRetirementMarker
| ErrInventoryMarker
| ErrStorePath
| ErrIncompatibleFormat
| ErrUnversionedStore
| ErrJoined (a b : store_error).      (** [errors.Join] of two errors *)

Definition errors_Join (a b : option store_error) : option store_error :=
  match a, b with
  | Some a, Some b => Some (ErrJoined a b)
  | None, e | e, None => e
  end.

Definition NormalizeReadBudget (b : ReadBudget) : res store_error ReadBudget :=
  if (MaxOverlayReplacements b <? 0) || (MaxOverlayBytes b <? 0) || (MaxExamined b <? 0)
  then Err ErrNegativeBudget
  else Ok {|
    MaxOverlayReplacements := if MaxOverlayReplacements b =? 0 then 10000 else MaxOverlayReplacements b;
    MaxOverlayBytes := if MaxOverlayBytes b =? 0 then Z.shiftl 16 20 else MaxOverlayBytes b;
    MaxExamined := if MaxExamined b =? 0 then 100000 else MaxExamined b;
  |}.

Record Generation := {
  gen_ID : string; gen_Ready : bool; gen_BootstrapProgress : string; gen_Failure : string;
}.
(** The zero value Go returns for an absent map entry. *)
Definition no_generation : Generation :=
  {| gen_ID := ""; gen_Ready := false; gen_BootstrapProgress := ""; gen_Failure := "" |}.

Record BootstrapCatalog := {
  cat_Database : string; cat_Generation : string;
  cat_TemplateFingerprints : list string; cat_BootstrapProgress : string;
}.

(** [slices.Sort] on strings: the order is total, so the result is unique. *)
Definition sort_strings (l : list string) : list string := insertion_sort string_ltb l.

(** [slices.Compact]: drops each element equal to its predecessor. *)
Fixpoint compact (l : list string) : list string :=
  match l with
  | x :: ((y :: _) as l') => if String.eqb x y then compact l' else x :: compact l'
  | _ => l
  end.

Definition OwnBootstrapCatalog (c : BootstrapCatalog) : res store_error BootstrapCatalog :=
  if String.eqb (cat_Database c) "" || String.eqb (cat_Generation c) "" then Err ErrIncompleteCatalog
  else if existsb (fun f => String.eqb f "") (cat_TemplateFingerprints c) then Err ErrEmptyFingerprint
  else Ok {| cat_Database := cat_Database c; cat_Generation := cat_Generation c;
             cat_TemplateFingerprints := compact (sort_strings (cat_TemplateFingerprints c));
             cat_BootstrapProgress := cat_BootstrapProgress c |}.

Fixpoint own_catalogs (generation progress : string) (databases : gset string) (hasTemplate : bool)
    (catalogs : list BootstrapCatalog) : res store_error (list BootstrapCatalog * bool) :=
  match catalogs with
  | [] => Ok ([], hasTemplate)
  | c :: catalogs =>
      owned ← OwnBootstrapCatalog c;
      if negb (String.eqb (cat_Generation c) generation)
         || negb (String.eqb (cat_BootstrapProgress c) progress) then Err ErrInventoryBoundary
      else if bool_decide (cat_Database c ∈ databases) then Err (ErrDuplicateDatabase (cat_Database c))
      else
        r ← own_catalogs generation progress ({[cat_Database c]} ∪ databases)
              (hasTemplate || negb (bool_decide (cat_TemplateFingerprints c = []))) catalogs;
        Ok (owned :: r.1, r.2)
  end.

Definition OwnBootstrapCatalogs (catalogs : list BootstrapCatalog) (progress : string)
    : res store_error (list BootstrapCatalog) :=
  match catalogs with
  | [] => Err ErrEmptyInventory
  | c0 :: _ =>
      r ← own_catalogs (cat_Generation c0) progress ∅ false catalogs;
      if negb (r.2 : bool) then Err ErrNoTemplates else Ok r.1
  end.

Definition ResolveGeneration (catalog : option BootstrapCatalog) (fingerprint : string)
    (local : option Generation) : option Generation :=
  match catalog with
  | None => local
  | Some c =>
      if negb (bool_decide (fingerprint ∈ cat_TemplateFingerprints c)) then None
      else
        let failure := match local with
                       | Some g => if String.eqb (gen_ID g) (cat_Generation c)
                                      && negb (String.eqb (gen_Failure g) "")
                                   then Some (gen_Failure g) else None
                       | None => None
                       end in
        Some {| gen_ID := cat_Generation c;
                gen_Ready := match failure with Some _ => false | None => true end;
                gen_BootstrapProgress := cat_BootstrapProgress c;
                gen_Failure := default "" failure |}
  end.

Definition incomplete_ref (r : QueryIndexRef) : bool :=
  String.eqb (ref_Database r) "" || String.eqb (ref_Collection r) ""
  || String.eqb (ref_TemplateFingerprint r) "" || String.eqb (ref_Generation r) "".

(** The distinct posting keys of one projection, in their first order. *)
Fixpoint own_keys (doc : string) (seen : gset bytes) (keys : list bytes) : res store_error (list bytes) :=
  match keys with
  | [] => Ok []
  | key :: keys =>
      if bool_decide (key = []) then Err (ErrEmptyPostingKey doc)
      else if bool_decide (key ∈ seen) then own_keys doc seen keys
      else cons key <$> own_keys doc ({[key]} ∪ seen) keys
  end.

Fixpoint own_projections (seen : gset (QueryIndexRef * string)) (ps : list Projection)
    : res store_error (list Projection) :=
  match ps with
  | [] => Ok []
  | p :: ps =>
      if incomplete_ref (proj_Index p) || String.eqb (proj_DocumentID p) "" then Err ErrIncompleteProjection
      else if bool_decide ((proj_Index p, proj_DocumentID p) ∈ seen)
      then Err (ErrDuplicateProjection (proj_DocumentID p))
      else
        keys ← own_keys (proj_DocumentID p) ∅ (proj_PostingKeys p);
        ps' ← own_projections ({[(proj_Index p, proj_DocumentID p)]} ∪ seen) ps;
        Ok ({| proj_Index := proj_Index p; proj_DocumentID := proj_DocumentID p;
               proj_PostingKeys := keys |} :: ps')
  end.

Definition OwnProjections (ps : list Projection) : res store_error (list Projection) :=
  own_projections ∅ ps.

Record SearchOptions := {
  opt_Lower : bytes;            (** inclusive; a nil lower bound is the empty key *)
  opt_Upper : option bytes;     (** exclusive; [None] is nil, no bound *)
  opt_StartAfter : option bytes;
  opt_Limit : Z;
}.

Record DocRef := { docref_ID : string; docref_OrderKey : bytes }.
#[export] Instance DocRef_eq_dec : EqDecision DocRef.
Proof. solve_decision. Defined.

(** An entry a search may return: at or after the lower bound, strictly after
    the cursor, strictly before the upper bound. *)
Definition in_bounds (opts : SearchOptions) (key : bytes) : bool :=
  bytes_leb (opt_Lower opts) key
  && match opt_StartAfter opts with Some after => bytes_ltb after key | None => true end
  && match opt_Upper opts with Some upper => bytes_ltb key upper | None => true end.

Definition below_upper (opts : SearchOptions) (key : bytes) : bool :=
  match opt_Upper opts with Some upper => bytes_ltb key upper | None => true end.

(** An entry a search looks at: the cursor's own key too. *)
Definition in_reach (opts : SearchOptions) (key : bytes) : bool :=
  bytes_leb (opt_Lower opts) key
  && match opt_StartAfter opts with Some after => bytes_leb after key | None => true end
  && match opt_Upper opts with Some upper => bytes_ltb key upper | None => true end.

(** A context is the sequence of answers its [Err] method gives during one call,
    by poll: true once it is done. *)
Definition Context := nat -> bool.
Definition Background : Context := fun _ => false.

Inductive IndexState := IndexStateHealthy | IndexStateRebuilding | IndexStateFailed | IndexStateOther (s : string).

Record IndexInfo := {
  info_Pattern : string; info_TemplateID : string; info_RawPattern : string;
  info_State : IndexState; info_DocCount : nat;
}.

(** ** What ownership guarantees *)
Lemma own_keys_spec doc seen keys out :
  own_keys doc seen keys = Ok out ->
  NoDup out /\ (forall k, k ∈ out -> k <> [] /\ k ∉ seen) /\ (forall k, k ∈ keys -> k ∈ out \/ k ∈ seen).
Proof.
  revert seen out; induction keys as [|key keys IH]; intros seen out; cbn [own_keys].
  - intros [= <-]. split; [constructor|]. split; [set_solver|set_solver].
  - case_bool_decide as Hne; [done|]. case_bool_decide as Hin.
    + intros H. destruct (IH _ _ H) as (H1 & H2 & H3). split; [done|]. split; [done|].
      intros k [->|Hk]%elem_of_cons; auto.
    + intros H. apply fmap_ok in H as (out' & H & ->). destruct (IH _ _ H) as (H1 & H2 & H3).
      split; [|split].
      * constructor; [|done]. intros Hk. destruct (H2 _ Hk) as [_ Hk']. set_solver.
      * intros k [->|Hk]%elem_of_cons; [done|]. destruct (H2 _ Hk). set_solver.
      * intros k [->|Hk]%elem_of_cons; [left; left|]. rewrite elem_of_cons.
        destruct (H3 k Hk) as [|Hs]; [auto|]. set_solver.
Qed.

Definition projection_owned (p q : Projection) : Prop :=
  proj_Index q = proj_Index p /\ proj_DocumentID q = proj_DocumentID p /\
  incomplete_ref (proj_Index p) = false /\ proj_DocumentID p <> "" /\
  NoDup (proj_PostingKeys q) /\ (([] : bytes) ∉ proj_PostingKeys q) /\
  (forall k, k ∈ proj_PostingKeys q <-> k ∈ proj_PostingKeys p).

Lemma own_keys_sub doc seen keys out k : own_keys doc seen keys = Ok out -> k ∈ out -> k ∈ keys.
Proof.
  revert seen out; induction keys as [|key keys IH]; intros seen out; cbn [own_keys].
  - by intros [= <-].
  - case_bool_decide; [done|]. case_bool_decide.
    + intros H' Hk. right. by eapply IH.
    + intros H'. apply fmap_ok in H' as (out' & H' & ->).
      intros [->|Hk]%elem_of_cons; [left|right; by eapply IH].
Qed.

Lemma own_projections_spec seen ps qs :
  own_projections seen ps = Ok qs ->
  Forall2 projection_owned ps qs /\
  NoDup (map (fun q => (proj_Index q, proj_DocumentID q)) qs) /\
  (forall q, q ∈ qs -> (proj_Index q, proj_DocumentID q) ∉ seen).
Proof.
  revert seen qs; induction ps as [|p ps IH]; intros seen qs; cbn [own_projections].
  - intros [= <-]. split; [constructor|]. split; [constructor|set_solver].
  - destruct (incomplete_ref (proj_Index p)) eqn:Hi; [done|].
    destruct (String.eqb_spec (proj_DocumentID p) "") as [|Hd]; [done|]. cbn [orb].
    case_bool_decide as Hs; [done|]. intros H.
    apply bind_ok in H as (keys & Hk & H). apply bind_ok in H as (qs' & H & [= <-]).
    destruct (IH _ _ H) as (H1 & H2 & H3). destruct (own_keys_spec _ _ _ _ Hk) as (K1 & K2 & K3).
    split; [|split].
    + constructor; [|done]. unfold projection_owned; cbn. repeat split; try done.
      * intros Hn. by destruct (K2 _ Hn).
      * intros Hin. by eapply own_keys_sub.
      * intros Hin. apply K3 in Hin. set_solver.
    + cbn. constructor; [|done]. intros Hin.
      apply list_elem_of_fmap in Hin as (q & E & Hq). apply H3 in Hq. rewrite <- E in Hq. set_solver.
    + intros q [->|Hq]%elem_of_cons; [done|]. apply H3 in Hq. set_solver.
Qed.

(** * Reading an index: the ReadView and Iterator interfaces of
      internal/indexer/store/store.go

    The candidate stream reads a store only through these interfaces. The class
    has their methods and the laws a client relies on; the in-memory store is an
    instance ([MemViews]). *)
(** The abstraction of an iterator on a view: the documents it has yet to return
    ([v_pending]) and how many postings it examines for that ([v_cost]), against
    what is left of the budget all iterators of the view share ([v_left]). *)
Class IndexViews := {
  view : Type;
  iterator : Type;
  v_Scan : Context -> view -> SearchOptions -> res store_error iterator;
  v_Next : Context -> view -> iterator -> view * iterator * res store_error (option DocRef);
  v_Examined : iterator -> Z;
  v_CloseIterator : iterator -> iterator * option store_error;
  v_Close : view -> view * option store_error;
  v_postings : view -> list DocRef;
  v_ready : view -> Prop;
  v_open : view -> iterator -> Prop;
  v_pending : view -> iterator -> list DocRef;
  v_cost : view -> iterator -> Z;
  v_left : view -> Z;
  v_scan_cost : view -> SearchOptions -> Z;
  (** An unlimited scan of an open view, once it is open, returns the postings
      within its bounds. *)
  v_Scan_law : forall v opts it, v_ready v -> opt_Limit opts = 0 -> v_Scan Background v opts = Ok it ->
    v_open v it /\ v_Examined it = 0 /\
    v_pending v it = List.filter (fun d => in_bounds opts (docref_OrderKey d)) (v_postings v) /\
    v_cost v it = v_scan_cost v opts;
  v_cost_nonneg : forall v it, 0 <= v_cost v it;
  (** One call with a live context: the next document, the end, or
      [ErrWorkLimit], and the last only when the budget does not cover the
      iterator; other iterators of the view are not affected. *)
  v_Next_law : forall v it, v_open v it -> 0 <= v_left v ->
    exists v' it' r, v_Next Background v it = (v', it', r) /\
      (forall other, v_open v other ->
         v_open v' other /\ v_pending v' other = v_pending v other /\ v_cost v' other = v_cost v other) /\
      ((r = Err ErrWorkLimit /\ v_left v < v_cost v it) \/
       (exists n, 0 <= v_left v' /\ v_left v' = v_left v - n /\ v_Examined it' = v_Examined it + n /\
          v_cost v' it' = v_cost v it - n /\ v_open v' it' /\
          match v_pending v it with
          | [] => r = Ok None /\ v_pending v' it' = [] /\ v_cost v' it' = 0
          | d :: ds => r = Ok (Some d) /\ v_pending v' it' = ds
          end));
}.

(** Postings are kept in key order, those of one key by document. *)
Definition docref_lt (a b : DocRef) : Prop :=
  then_compare (bytes_compare (docref_OrderKey a) (docref_OrderKey b)) (string_compare (docref_ID a) (docref_ID b)) = Lt.

(** The methods of Store that open candidates call. *)
Class IndexReads `{IV : IndexViews} := {
  index_store : Type;
  r_ReadGeneration : index_store -> string -> string -> string -> res store_error (option Generation);
  r_ReadView : Context -> index_store -> QueryIndexRef -> ReadBudget -> res store_error view;
  r_ok : index_store -> Prop;
  r_postings : index_store -> QueryIndexRef -> list DocRef;
  r_postings_sorted : forall s r, r_ok s -> StronglySorted docref_lt (r_postings s r);
  r_scan_cost : index_store -> QueryIndexRef -> SearchOptions -> Z;
  r_ReadView_law : forall s r n v, r_ok s -> 0 < n ->
    r_ReadView Background s r {| MaxOverlayReplacements := 0; MaxOverlayBytes := 0; MaxExamined := n |} = Ok v ->
    v_ready v /\ v_postings v = r_postings s r /\ v_left v = n /\ forall opts, v_scan_cost v opts = r_scan_cost s r opts;
}.
