(* ===== verification/BTree.v ===== *)
(** * The ordered tree the memory index is built on

    [github.com/google/btree] is a dependency: the components use it through the
    interface below, which states its documented behaviour over the in-order
    list of its items. Items and their order are the repository's
    (internal/indexer/mem_store/index.go). *)
From stdpp Require Import base list sorting gmap strings.
From Stdlib Require Import ZArith.
From S2P Require Import Prelude.
Local Open Scope Z_scope.

Record btreeItem := BtreeItem { item_key : bytes; item_id : string }.
#[export] Instance btreeItem_eq_dec : EqDecision btreeItem.
Proof. solve_decision. Defined.

Definition lessFunc (a b : btreeItem) : bool :=
  match bytes_compare (item_key a) (item_key b) with
  | Eq => string_ltb (item_id a) (item_id b)
  | Lt => true
  | Gt => false
  end.

Definition item_compare (a b : btreeItem) : comparison :=
  then_compare (bytes_compare (item_key a) (item_key b)) (string_compare (item_id a) (item_id b)).

Lemma lessFunc_compare a b : lessFunc a b = match item_compare a b with Lt => true | _ => false end.
Proof.
  unfold lessFunc, item_compare, string_ltb, bytes_ltb, string_compare.
  by destruct (bytes_compare (item_key a) (item_key b)).
Qed.

Lemma item_compare_eq a b : item_compare a b = Eq <-> a = b.
Proof.
  unfold item_compare. split.
  - destruct (bytes_compare _ _) eqn:E; try done. cbn. intros H%string_compare_eq.
    apply bytes_compare_eq in E. destruct a, b; cbn in *; congruence.
  - intros ->. rewrite bytes_compare_refl. by apply string_compare_eq.
Qed.

Lemma item_compare_antisym a b : item_compare b a = CompOpp (item_compare a b).
Proof.
  unfold item_compare, string_compare.
  rewrite (bytes_compare_antisym (item_key a)), (bytes_compare_antisym (bytes_of_string (item_id a))).
  by destruct (bytes_compare (item_key a) _).
Qed.

Lemma lessFunc_irrefl a : lessFunc a a = false.
Proof. rewrite lessFunc_compare. by rewrite (proj2 (item_compare_eq a a) eq_refl). Qed.

Lemma lessFunc_trans a b c : lessFunc a b = true -> lessFunc b c = true -> lessFunc a c = true.
Proof.
  unfold lessFunc, string_ltb.
  destruct (bytes_compare (item_key a) (item_key b)) eqn:E1;
    destruct (bytes_compare (item_key b) (item_key c)) eqn:E2; try done.
  - apply bytes_compare_eq in E1, E2. rewrite E1, E2, bytes_compare_refl.
    rewrite !bytes_ltb_lt. apply bytes_compare_trans.
  - apply bytes_compare_eq in E1. by rewrite E1, E2.
  - apply bytes_compare_eq in E2. by rewrite <- E2, E1.
  - by rewrite (bytes_compare_trans _ _ _ E1 E2).
Qed.

Lemma lessFunc_total a b : lessFunc a b = false -> lessFunc b a = false -> a = b.
Proof.
  rewrite !lessFunc_compare, (item_compare_antisym a b). intros H1 H2. apply item_compare_eq.
  by destruct (item_compare a b).
Qed.

Lemma lessFunc_asym a b : lessFunc a b = true -> lessFunc b a = false.
Proof. rewrite !lessFunc_compare, (item_compare_antisym a b). by destruct (item_compare a b). Qed.

(** ** Strictly sorted lists of items *)
Definition items_sorted : list btreeItem -> Prop := StronglySorted (fun a b => lessFunc a b = true).

Fixpoint items_insert (x : btreeItem) (l : list btreeItem) : list btreeItem :=
  match l with
  | [] => [x]
  | y :: l' => match item_compare x y with
               | Lt => x :: l
               | Eq => x :: l'
               | Gt => y :: items_insert x l'
               end
  end.

Definition items_delete (x : btreeItem) (l : list btreeItem) : list btreeItem :=
  List.filter (fun y => negb (bool_decide (y = x))) l.

(** The items at or after a pivot. *)
Fixpoint items_from (pivot : btreeItem) (l : list btreeItem) : list btreeItem :=
  match l with
  | [] => []
  | y :: l' => if lessFunc y pivot then items_from pivot l' else l
  end.

(** The visit of an iterator function that stops when it returns false. *)
Fixpoint visit {S} (f : S -> btreeItem -> S * bool) (s : S) (l : list btreeItem) : S :=
  match l with
  | [] => s
  | y :: l' => let '(s', continue) := f s y in if continue then visit f s' l' else s'
  end.

Class BTree := {
  tree : Type;
  tree_items : tree -> list btreeItem;
  tree_new : tree;
  ReplaceOrInsert : btreeItem -> tree -> tree;
  tree_Delete : btreeItem -> tree -> tree;
  AscendGreaterOrEqual : forall {S}, tree -> btreeItem -> (S -> btreeItem -> S * bool) -> S -> S;
  tree_new_items : tree_items tree_new = [];
  ReplaceOrInsert_items : forall x t, items_sorted (tree_items t) ->
    tree_items (ReplaceOrInsert x t) = items_insert x (tree_items t);
  tree_Delete_items : forall x t, items_sorted (tree_items t) ->
    tree_items (tree_Delete x t) = items_delete x (tree_items t);
  Ascend_items : forall S t pivot (f : S -> btreeItem -> S * bool) s, items_sorted (tree_items t) ->
    AscendGreaterOrEqual t pivot f s = visit f s (items_from pivot (tree_items t));
}.

(** A model of the interface: the sorted list itself. *)
Definition list_btree : BTree := {|
  tree := list btreeItem;
  tree_items l := l;
  tree_new := [];
  ReplaceOrInsert := items_insert;
  tree_Delete := items_delete;
  AscendGreaterOrEqual S l pivot f s := visit f s (items_from pivot l);
  tree_new_items := eq_refl;
  ReplaceOrInsert_items _ _ _ := eq_refl;
  tree_Delete_items _ _ _ := eq_refl;
  Ascend_items _ _ _ _ _ _ := eq_refl;
|}.

(** ** Facts about sorted lists *)
Lemma items_insert_elem x l y : items_sorted l -> y ∈ items_insert x l <-> y = x \/ y ∈ l.
Proof.
  induction 1 as [|z l Hl IH Hz]; cbn [items_insert]; [set_solver|].
  destruct (item_compare x z) eqn:E; [|set_solver|].
  - apply item_compare_eq in E as ->. set_solver.
  - rewrite !elem_of_cons, IH. tauto.
Qed.

Lemma items_insert_sorted x l : items_sorted l -> items_sorted (items_insert x l).
Proof.
  unfold items_sorted. induction 1 as [|z l Hl IH Hz]; cbn [items_insert]; [by repeat constructor|].
  destruct (item_compare x z) eqn:E.
  - apply item_compare_eq in E as ->. by constructor.
  - assert (lessFunc x z = true) by (by rewrite lessFunc_compare, E).
    constructor; [by constructor|]. constructor; [done|].
    eapply Forall_impl; [exact Hz|]. cbn. intros. by eapply lessFunc_trans.
  - assert (lessFunc z x = true) by (by rewrite lessFunc_compare, item_compare_antisym, E).
    constructor; [done|]. apply Forall_forall. intros y Hy.
    apply items_insert_elem in Hy as [->|Hy]; [done| |done].
    by eapply (proj1 (Forall_forall _ _) Hz).
Qed.

Lemma items_delete_elem x l y : y ∈ items_delete x l <-> y ∈ l /\ y <> x.
Proof.
  unfold items_delete. rewrite !list_elem_of_In, filter_In.
  destruct (bool_decide_reflect (y = x)); naive_solver.
Qed.

Lemma filter_sorted {A} (R : A -> A -> Prop) (P : A -> bool) l :
  StronglySorted R l -> StronglySorted R (List.filter P l).
Proof.
  induction 1 as [|x l Hl IH Hx]; cbn; [constructor|]. destruct (P x); [|done].
  constructor; [done|]. apply Forall_forall. intros y Hy.
  apply list_elem_of_In, filter_In in Hy as [Hy _]. apply list_elem_of_In in Hy.
  by eapply (proj1 (Forall_forall _ _) Hx).
Qed.

Lemma items_delete_sorted x l : items_sorted l -> items_sorted (items_delete x l).
Proof. apply filter_sorted. Qed.

Lemma items_from_filter pivot l :
  items_sorted l -> items_from pivot l = List.filter (fun y => negb (lessFunc y pivot)) l.
Proof.
  unfold items_sorted. induction 1 as [|y l Hl IH Hy]; cbn; [done|].
  destruct (lessFunc y pivot) eqn:E; cbn; [done|]. f_equal.
  symmetry. apply forallb_filter_id. apply forallb_forall. intros z Hz.
  apply list_elem_of_In in Hz. pose proof (proj1 (Forall_forall _ _) Hy z Hz) as H. cbn in H.
  destruct (lessFunc z pivot) eqn:E'; [|done]. by rewrite (lessFunc_trans _ _ _ H E') in E.
Qed.

(** A strictly sorted list is determined by its members. *)
Lemma items_sorted_unique l1 l2 :
  items_sorted l1 -> items_sorted l2 -> (forall x, x ∈ l1 <-> x ∈ l2) -> l1 = l2.
Proof.
  unfold items_sorted. intros H1; revert l2; induction H1 as [|x l1 Hl1 IH Hx1]; intros l2 H2 He.
  - destruct l2 as [|y l2]; [done|]. exfalso. assert (y ∈ []) as H by (apply He; left). by apply elem_of_nil in H.
  - destruct H2 as [|y l2 Hl2 Hy2].
    { exfalso. assert (x ∈ []) as H by (apply He; left). by apply elem_of_nil in H. }
    rewrite Forall_forall in Hx1, Hy2.
    assert (x = y) as ->.
    { assert (x ∈ y :: l2) as Hx by (apply He; left). assert (y ∈ x :: l1) as Hy by (apply He; left).
      apply elem_of_cons in Hx as [->|Hx]; [done|]. apply elem_of_cons in Hy as [->|Hy]; [done|].
      pose proof (Hx1 _ Hy) as A. pose proof (Hy2 _ Hx) as B. cbn in A, B.
      rewrite (lessFunc_asym _ _ A) in B. done. }
    f_equal. apply IH; [done|]. intros z. split; intros Hz.
    + assert (z ∈ y :: l2) as [->|]%elem_of_cons by (apply He; by right); [|done].
      pose proof (Hx1 _ Hz) as A. cbn in A. by rewrite lessFunc_irrefl in A.
    + assert (z ∈ y :: l1) as [->|]%elem_of_cons by (apply He; by right); [|done].
      pose proof (Hy2 _ Hz) as A. cbn in A. by rewrite lessFunc_irrefl in A.
Qed.

Lemma lessFunc_strict_weak : strict_weak lessFunc.
Proof.
  split; [apply lessFunc_irrefl|apply lessFunc_trans|]. intros x y z H.
  destruct (lessFunc x z) eqn:E; [by left|]. right.
  destruct (lessFunc z x) eqn:E'; [by eapply lessFunc_trans|].
  by rewrite <- (lessFunc_total _ _ E E').
Qed.

Lemma strict_sorted_NoDup l : sorted_by lessFunc l -> NoDup l -> items_sorted l.
Proof.
  unfold sorted_by, items_sorted. induction 1 as [|x l Hl IH Hx]; intros Hn; [constructor|].
  apply NoDup_cons in Hn as [Hnx Hn]. constructor; [auto|].
  rewrite Forall_forall in Hx |- *. intros y Hy. specialize (Hx y Hy). cbn in Hx.
  destruct (lessFunc x y) eqn:E; [done|]. by rewrite (lessFunc_total _ _ E Hx) in Hnx.
Qed.
#[export] Hint Resolve items_insert_sorted items_delete_sorted : syntrix.
