(* ===== verification/MemIndex.v ===== *)
(** * The in-memory index: internal/indexer/mem_store/index.go and database.go

    One ordered index per (pattern, template): a tree of (order key, id) items
    and the map from ids to their current key. Every method holds the index's
    lock for its whole body, so a method is one atomic state transition. *)
From stdpp Require Import base list sorting gmap strings.
From Stdlib Require Import ZArith.
From S2P Require Import Prelude IndexStore BTree.
Local Open Scope Z_scope.

Inductive State := StateHealthy | StateRebuilding | StateFailed | StateUnknown (n : Z).

Definition State_String (s : State) : string :=
  match s with
  | StateHealthy => "healthy"
  | StateRebuilding => "rebuilding"
  | StateFailed => "failed"
  | StateUnknown _ => "unknown"
  end.

Section MemIndex.
Context `{BT : BTree}.

Record Index := {
  idx_Pattern : string;
  idx_TemplateID : string;
  idx_RawPattern : string;
  idx_state : State;
  idx_tree : tree;
  idx_byID : gmap string bytes;
}.

Definition NewIndex (pattern templateID rawPattern : string) : Index := {|
  idx_Pattern := pattern; idx_TemplateID := templateID; idx_RawPattern := rawPattern;
  idx_state := StateHealthy; idx_tree := tree_new; idx_byID := ∅;
|}.

Definition with_entries (idx : Index) (t : tree) (byID : gmap string bytes) : Index := {|
  idx_Pattern := idx_Pattern idx; idx_TemplateID := idx_TemplateID idx;
  idx_RawPattern := idx_RawPattern idx; idx_state := idx_state idx;
  idx_tree := t; idx_byID := byID;
|}.

Definition idx_Upsert (idx : Index) (id : string) (orderKey : bytes) : Index :=
  let t := match idx_byID idx !! id with
           | Some oldKey => tree_Delete (BtreeItem oldKey id) (idx_tree idx)
           | None => idx_tree idx
           end in
  with_entries idx (ReplaceOrInsert (BtreeItem orderKey id) t) (<[id := orderKey]> (idx_byID idx)).

Definition idx_Delete (idx : Index) (id : string) : Index :=
  match idx_byID idx !! id with
  | Some oldKey =>
      with_entries idx (tree_Delete (BtreeItem oldKey id) (idx_tree idx)) (delete id (idx_byID idx))
  | None => idx
  end.

(** The callback of Search: skip the cursor itself, stop at the upper bound or
    when the page is full. *)
Definition search_visit (opts : SearchOptions) (isStartAfter : bool) (limit : Z)
    (results : list DocRef) (item : btreeItem) : list DocRef * bool :=
  if isStartAfter && match opt_StartAfter opts with
                     | Some after => bytes_eqb (item_key item) after
                     | None => false
                     end
  then (results, true)
  else if match opt_Upper opts with
          | Some upper => negb (bytes_ltb (item_key item) upper)
          | None => false
          end
  then (results, false)
  else
    let results := results ++ [{| docref_ID := item_id item; docref_OrderKey := item_key item |}] in
    (results, Z.of_nat (length results) <? limit).

Definition idx_Search (idx : Index) (opts : SearchOptions) : list DocRef :=
  let limit := if opt_Limit opts <=? 0 then 1000 else opt_Limit opts in
  let '(startKey, isStartAfter) :=
    match opt_StartAfter opts with
    | Some after => if negb (bytes_ltb after (opt_Lower opts)) then (after, true) else (opt_Lower opts, false)
    | None => (opt_Lower opts, false)
    end in
  AscendGreaterOrEqual (idx_tree idx) (BtreeItem startKey "")
    (search_visit opts isStartAfter limit) [].

Definition idx_Get (idx : Index) (id : string) : option bytes := idx_byID idx !! id.
Definition idx_Len (idx : Index) : nat := size (idx_byID idx).

Definition idx_Clear (idx : Index) : Index := with_entries idx tree_new ∅.

Definition idx_SetState (idx : Index) (s : State) : Index := {|
  idx_Pattern := idx_Pattern idx; idx_TemplateID := idx_TemplateID idx;
  idx_RawPattern := idx_RawPattern idx; idx_state := s;
  idx_tree := idx_tree idx; idx_byID := idx_byID idx;
|}.

Definition idx_IsHealthy (idx : Index) : bool :=
  match idx_state idx with StateHealthy => true | _ => false end.

(** ** Databases of indexes *)
Record Database := { db_Name : string; db_indexes : gmap string Index }.

Definition NewDatabase (name : string) : Database := {| db_Name := name; db_indexes := ∅ |}.

Definition IndexKey (pattern templateID : string) : string :=
  String.append pattern (String.append "|" templateID).

Definition db_GetIndex (d : Database) (pattern templateID : string) : option Index :=
  db_indexes d !! IndexKey pattern templateID.

(** The read-locked fast path and the double-checked slow path agree on the map
    they read, so together they are one lookup-or-create step. *)
Definition db_GetOrCreateIndex (d : Database) (pattern templateID rawPattern : string) : Database * Index :=
  let key := IndexKey pattern templateID in
  match db_indexes d !! key with
  | Some idx => (d, idx)
  | None =>
      let idx := NewIndex pattern templateID rawPattern in
      ({| db_Name := db_Name d; db_indexes := <[key := idx]> (db_indexes d) |}, idx)
  end.

(** A method called through the [*Index] pointer the map holds. *)
Definition db_update (d : Database) (pattern templateID : string) (f : Index -> Index) : Database :=
  {| db_Name := db_Name d; db_indexes := alter f (IndexKey pattern templateID) (db_indexes d) |}.

Definition db_DeleteIndex (d : Database) (pattern templateID : string) : Database :=
  {| db_Name := db_Name d; db_indexes := delete (IndexKey pattern templateID) (db_indexes d) |}.

Definition index_state_of (s : State) : IndexState :=
  match s with
  | StateRebuilding => IndexStateRebuilding
  | StateFailed => IndexStateFailed
  | _ => IndexStateHealthy
  end.

(** In the map's iteration order. *)
Definition db_ListIndexes (d : Database) : list IndexInfo :=
  map (fun kv => {| info_Pattern := idx_Pattern kv.2; info_TemplateID := idx_TemplateID kv.2;
                    info_RawPattern := idx_RawPattern kv.2; info_State := index_state_of (idx_state kv.2);
                    info_DocCount := idx_Len kv.2 |}) (map_to_list (db_indexes d)).

Definition db_IndexCount (d : Database) : nat := size (db_indexes d).
Definition db_Clear (d : Database) : Database := {| db_Name := db_Name d; db_indexes := ∅ |}.

(** ** Invariant: the tree and the map hold the same entries *)
Definition entries (idx : Index) : list btreeItem := tree_items (idx_tree idx).

Record idx_inv (idx : Index) : Prop := {
  inv_sorted : items_sorted (entries idx);
  inv_agree x : x ∈ entries idx <-> idx_byID idx !! item_id x = Some (item_key x);
}.

Lemma NewIndex_inv p t r : idx_inv (NewIndex p t r).
Proof.
  split; unfold entries; cbn; rewrite tree_new_items; [constructor|].
  intros x. rewrite lookup_empty. split; [by intros ?%elem_of_nil|done].
Qed.

Lemma idx_Upsert_entries idx id k x :
  idx_inv idx ->
  x ∈ entries (idx_Upsert idx id k) <-> x = BtreeItem k id \/ x ∈ entries idx /\ item_id x <> id.
Proof.
  intros [Hs Ha]. unfold idx_Upsert, entries in *; cbn.
  destruct (idx_byID idx !! id) as [old|] eqn:E.
  - rewrite ReplaceOrInsert_items, tree_Delete_items, items_insert_elem, items_delete_elem;
      rewrite ?tree_Delete_items by done; auto with syntrix.
    rewrite (Ha x). destruct x as [xk xi]; cbn. split; [|naive_solver].
    intros [?|[H Hne]]; [auto|]. right. split; [done|]. intros ->. congruence.
  - rewrite ReplaceOrInsert_items, items_insert_elem by done. rewrite (Ha x). naive_solver.
Qed.

Lemma idx_Upsert_inv idx id k : idx_inv idx -> idx_inv (idx_Upsert idx id k).
Proof.
  intros Hinv. split.
  - destruct Hinv as [Hs _]. unfold idx_Upsert, entries in *; cbn.
    destruct (idx_byID idx !! id); rewrite ReplaceOrInsert_items; rewrite ?tree_Delete_items by done;
      auto with syntrix.
  - intros x. rewrite idx_Upsert_entries by done. rewrite (inv_agree _ Hinv x).
    destruct x as [xk xi]; cbn. rewrite lookup_insert. case_decide; naive_solver.
Qed.

Lemma idx_Delete_inv idx id : idx_inv idx -> idx_inv (idx_Delete idx id).
Proof.
  intros Hinv. unfold idx_Delete. destruct (idx_byID idx !! id) as [old|] eqn:E; [|done].
  destruct Hinv as [Hs Ha]. split; unfold entries in *; cbn; rewrite tree_Delete_items by done;
    [auto with syntrix|].
  intros x. rewrite items_delete_elem, Ha, lookup_delete. destruct x as [xk xi]; cbn.
  case_decide; naive_solver.
Qed.

Lemma idx_Clear_inv idx : idx_inv (idx_Clear idx).
Proof.
  split; unfold entries; cbn; rewrite tree_new_items; [constructor|].
  intros x. rewrite lookup_empty. split; [by intros ?%elem_of_nil|done].
Qed.
#[local] Hint Resolve NewIndex_inv idx_Upsert_inv idx_Delete_inv idx_Clear_inv : syntrix.

(** The mutating operations of an index. *)
Inductive idx_op :=
| DoUpsert (id : string) (orderKey : bytes)
| DoDelete (id : string)
| DoClear
| DoSetState (s : State).

Definition run_idx_op (idx : Index) (op : idx_op) : Index :=
  match op with
  | DoUpsert id k => idx_Upsert idx id k
  | DoDelete id => idx_Delete idx id
  | DoClear => idx_Clear idx
  | DoSetState s => idx_SetState idx s
  end.

Lemma run_idx_op_inv idx op : idx_inv idx -> idx_inv (run_idx_op idx op).
Proof. intros H. destruct op; cbn; auto with syntrix. destruct H; by split. Qed.

Lemma run_idx_ops_inv idx ops : idx_inv idx -> idx_inv (foldl run_idx_op idx ops).
Proof. revert idx; induction ops; intros; cbn; auto using run_idx_op_inv. Qed.

(** *** Specification: the index is the map from ids to order keys *)
Definition spec_op (m : gmap string bytes) (op : idx_op) : gmap string bytes :=
  match op with
  | DoUpsert id k => <[id := k]> m
  | DoDelete id => delete id m
  | DoClear => ∅
  | DoSetState _ => m
  end.

Lemma run_idx_op_byID idx op : idx_byID (run_idx_op idx op) = spec_op (idx_byID idx) op.
Proof.
  destruct op; cbn; try done. unfold idx_Delete.
  destruct (idx_byID idx !! id) eqn:E; cbn; [done|]. symmetry. by apply delete_id.
Qed.

Lemma run_idx_ops_byID idx ops :
  idx_byID (foldl run_idx_op idx ops) = foldl spec_op (idx_byID idx) ops.
Proof. revert idx; induction ops as [|op ops IH]; intros; cbn; [done|]. by rewrite IH, run_idx_op_byID. Qed.

(** ** Search *)
Definition opts_limit (opts : SearchOptions) : Z :=
  if opt_Limit opts <=? 0 then 1000 else opt_Limit opts.

Definition to_docref (x : btreeItem) : DocRef :=
  {| docref_ID := item_id x; docref_OrderKey := item_key x |}.

Lemma filter_filter {A} (P Q : A -> bool) l :
  List.filter P (List.filter Q l) = List.filter (fun x => Q x && P x) l.
Proof. induction l as [|x l IH]; cbn; [done|]. destruct (Q x); cbn; [destruct (P x)|]; congruence. Qed.

Lemma lessFunc_pivot x k : lessFunc x (BtreeItem k "") = bytes_ltb (item_key x) k.
Proof.
  unfold lessFunc, bytes_ltb, string_ltb; cbn. destruct (bytes_compare _ k); try done.
  unfold bytes_ltb. by destruct (bytes_of_string (item_id x)).
Qed.

Lemma lessFunc_key x y : lessFunc x y = true -> bytes_compare (item_key x) (item_key y) <> Gt.
Proof. unfold lessFunc. by destruct (bytes_compare _ _). Qed.

(** What one visit keeps of an entry. *)
Definition visit_skips (opts : SearchOptions) (isStartAfter : bool) (key : bytes) : bool :=
  isStartAfter && match opt_StartAfter opts with Some after => bytes_eqb key after | None => false end.

Lemma below_upper_mono opts k k' :
  below_upper opts k = false -> bytes_compare k k' <> Gt -> below_upper opts k' = false.
Proof.
  unfold below_upper. destruct (opt_Upper opts) as [u|]; [|done].
  intros H Hle. destruct (bytes_ltb k' u) eqn:E; [|done]. apply bytes_ltb_lt in E.
  pose proof (bytes_le_lt_trans _ _ _ Hle E) as E'. apply bytes_ltb_lt in E'. congruence.
Qed.

Lemma search_visit_eq opts sa limit acc x :
  search_visit opts sa limit acc x =
  if visit_skips opts sa (item_key x) then (acc, true)
  else if below_upper opts (item_key x)
       then (acc ++ [to_docref x], Z.of_nat (length (acc ++ [to_docref x])) <? limit)
       else (acc, false).
Proof.
  unfold search_visit, visit_skips, below_upper, to_docref. destruct (sa && _); [done|].
  destruct (opt_Upper opts) as [u|]; [|done]. by destruct (bytes_ltb _ u).
Qed.

Lemma visit_search opts sa limit l acc :
  items_sorted l -> Z.of_nat (length acc) < limit ->
  visit (search_visit opts sa limit) acc l
  = acc ++ take (Z.to_nat limit - length acc)
             (map to_docref (List.filter (fun x => negb (visit_skips opts sa (item_key x))
                                                   && below_upper opts (item_key x)) l)).
Proof.
  unfold items_sorted. intros Hs; revert acc; induction Hs as [|x l Hl IH Hx]; intros acc Hlim.
  { cbn. by rewrite take_nil, app_nil_r. }
  cbn [visit List.filter]. rewrite search_visit_eq.
  destruct (visit_skips opts sa (item_key x)); cbn [negb andb]; [by apply IH|].
  destruct (below_upper opts (item_key x)) eqn:Eu.
  - rewrite length_app. cbn [length]. destruct (Z.ltb_spec (Z.of_nat (length acc + 1)) limit) as [Hlt|Hge].
    + rewrite IH by (rewrite length_app; done). rewrite <- app_assoc. f_equal.
      replace (Z.to_nat limit - length acc)%nat with (S (Z.to_nat limit - length (acc ++ [to_docref x])))
        by (rewrite length_app; cbn; lia). done.
    + replace (Z.to_nat limit - length acc)%nat with 1%nat by lia. done.
  - rewrite filter_none; [cbn [map]; by rewrite take_nil, app_nil_r|].
    intros y Hy. rewrite Forall_forall in Hx. specialize (Hx y Hy). cbn in Hx.
    rewrite (below_upper_mono opts (item_key x)); [apply andb_false_r|done|by apply lessFunc_key].
Qed.

Lemma in_bounds_start opts after k :
  opt_StartAfter opts = Some after -> bytes_ltb after (opt_Lower opts) = false ->
  bytes_leb after k && (negb (bytes_eqb k after) && below_upper opts k) = in_bounds opts k.
Proof.
  intros E Hle. unfold in_bounds, below_upper. rewrite E.
  assert (bytes_leb after k && negb (bytes_eqb k after)
          = bytes_leb (opt_Lower opts) k && bytes_ltb after k) as H.
  { unfold bytes_leb, bytes_eqb, bytes_ltb. rewrite (bytes_compare_antisym after k).
    destruct (bytes_compare after k) eqn:C; cbn; rewrite ?andb_false_r; try done.
    unfold bytes_ltb in Hle. rewrite (bytes_compare_antisym (opt_Lower opts) after) in Hle.
    assert (bytes_compare (opt_Lower opts) after <> Gt) as Hl
      by (destruct (bytes_compare (opt_Lower opts) after); done).
    by rewrite (bytes_le_lt_trans _ _ _ Hl C). }
  by rewrite andb_assoc, H.
Qed.

Lemma in_bounds_lower opts k :
  match opt_StartAfter opts with Some after => bytes_ltb after (opt_Lower opts) = true | None => True end ->
  bytes_leb (opt_Lower opts) k && below_upper opts k = in_bounds opts k.
Proof.
  intros H. unfold in_bounds, below_upper. f_equal.
  destruct (opt_StartAfter opts) as [after|]; [|by rewrite andb_true_r].
  destruct (bytes_leb (opt_Lower opts) k) eqn:E; [|done]. cbn. symmetry.
  apply bytes_ltb_lt. apply bytes_ltb_lt in H. apply bytes_leb_le in E. by eapply bytes_lt_le_trans.
Qed.

Lemma filter_ext_bool {A} (P Q : A -> bool) l : (forall x, P x = Q x) -> List.filter P l = List.filter Q l.
Proof. intros H. apply filter_ext. exact H. Qed.

Lemma idx_Search_eq idx opts :
  idx_inv idx ->
  idx_Search idx opts =
  take (Z.to_nat (opts_limit opts))
    (map to_docref (List.filter (fun x => in_bounds opts (item_key x)) (entries idx))).
Proof.
  intros [Hs Ha]. unfold idx_Search. cbv zeta. fold (opts_limit opts).
  assert (0 < opts_limit opts) as Hlim by (unfold opts_limit; destruct (Z.leb_spec (opt_Limit opts) 0); lia).
  assert (forall start sa,
    (forall k, bytes_leb start k && (negb (visit_skips opts sa k) && below_upper opts k) = in_bounds opts k) ->
    AscendGreaterOrEqual (idx_tree idx) (BtreeItem start "") (search_visit opts sa (opts_limit opts)) []
    = take (Z.to_nat (opts_limit opts))
        (map to_docref (List.filter (fun x => in_bounds opts (item_key x)) (entries idx)))) as Hcore.
  { intros start sa Hk. rewrite Ascend_items by done. unfold entries in *.
    rewrite items_from_filter by done. rewrite visit_search; [|by apply filter_sorted|cbn; lia].
    cbn [length app]. rewrite Nat.sub_0_r. do 2 f_equal. rewrite filter_filter.
    apply filter_ext_bool. intros x. rewrite lessFunc_pivot, <- bytes_leb_ltb. apply Hk. }
  destruct (opt_StartAfter opts) as [after|] eqn:Esa; cbn [negb].
  - destruct (bytes_ltb after (opt_Lower opts)) eqn:El; cbn [negb]; apply Hcore; intros k.
    + rewrite andb_true_l. apply in_bounds_lower. by rewrite Esa.
    + unfold visit_skips. rewrite Esa. cbn [andb]. by apply in_bounds_start.
  - apply Hcore. intros k. rewrite andb_true_l. apply in_bounds_lower. by rewrite Esa.
Qed.

(** ** Paging *)

(** A client that follows the cursor: each page starts after the last key of the
    previous one, until a page is empty. *)
Fixpoint search_pages (fuel : nat) (idx : Index) (opts : SearchOptions) : list DocRef :=
  match fuel with
  | O => []
  | S fuel =>
      let page := idx_Search idx opts in
      match last page with
      | None => []
      | Some r =>
          page ++ search_pages fuel idx
            {| opt_Lower := opt_Lower opts; opt_Upper := opt_Upper opts;
               opt_StartAfter := Some (docref_OrderKey r); opt_Limit := opt_Limit opts |}
      end
  end.

Definition keys_sorted : list btreeItem -> Prop :=
  StronglySorted (fun a b => bytes_compare (item_key a) (item_key b) = Lt).

(** Documents have different order keys (their keys end with the document ID). *)
Definition keys_distinct (idx : Index) : Prop :=
  forall x y, x ∈ entries idx -> y ∈ entries idx -> item_key x = item_key y -> x = y.

Lemma entries_keys_sorted idx : idx_inv idx -> keys_distinct idx -> keys_sorted (entries idx).
Proof.
  intros [Hs _] Hd. unfold keys_distinct in Hd. revert Hd. unfold items_sorted, keys_sorted in *.
  induction Hs as [|x l Hl IH Hx]; intros Hd; [constructor|].
  constructor; [apply IH; intros; apply Hd; set_solver|].
  rewrite Forall_forall in Hx |- *. intros y Hy. specialize (Hx y Hy). cbn in Hx.
  destruct (bytes_compare (item_key x) (item_key y)) eqn:E; [|done|by apply lessFunc_key in Hx].
  apply bytes_compare_eq in E. assert (x = y) as -> by (apply Hd; set_solver).
  by rewrite lessFunc_irrefl in Hx.
Qed.

Lemma filter_after_page l n x :
  keys_sorted l -> last (take n l) = Some x ->
  List.filter (fun y => bytes_ltb (item_key x) (item_key y)) l = drop n l.
Proof.
  unfold keys_sorted. intros Hs; revert n; induction Hs as [|y l Hl IH Hy]; intros n Hlast.
  { by rewrite take_nil in Hlast. }
  destruct n as [|n]; [done|]. cbn [take drop List.filter] in *. rewrite Forall_forall in Hy.
  destruct (last (take n l)) as [z|] eqn:E.
  - rewrite last_cons, E in Hlast. injection Hlast as ->.
    assert (x ∈ l) as Hx by (apply last_Some_elem_of in E; by eapply subseteq_take, E).
    specialize (Hy x Hx). cbn in Hy. apply bytes_compare_lt_gt in Hy. unfold bytes_ltb at 1.
    rewrite Hy. by apply IH.
  - rewrite last_cons, E in Hlast. injection Hlast as ->.
    unfold bytes_ltb at 1. rewrite bytes_compare_refl.
    apply last_None in E. assert (drop n l = l) as ->.
    { destruct n; [done|]. by destruct l. }
    apply forallb_filter_id, forallb_forall. intros z Hz%list_elem_of_In.
    by apply bytes_ltb_lt, Hy.
Qed.

Definition next_page (opts : SearchOptions) (key : bytes) : SearchOptions :=
  {| opt_Lower := opt_Lower opts; opt_Upper := opt_Upper opts;
     opt_StartAfter := Some key; opt_Limit := opt_Limit opts |}.

Lemma in_bounds_next opts key k :
  in_bounds opts key = true ->
  in_bounds (next_page opts key) k = in_bounds opts k && bytes_ltb key k.
Proof.
  unfold in_bounds; cbn. destruct (opt_StartAfter opts) as [after|].
  - rewrite !andb_true_iff. intros [[_ Ha] _]. destruct (bytes_ltb key k) eqn:E.
    + apply bytes_ltb_lt in Ha, E. rewrite (proj2 (bytes_ltb_lt after k)) by (by eapply bytes_compare_trans).
      by rewrite !andb_true_r.
    + by rewrite !andb_false_r.
  - intros _. rewrite andb_true_r. destruct (bytes_ltb key k); by rewrite ?andb_true_r, ?andb_false_r.
Qed.

Definition found (idx : Index) (opts : SearchOptions) : list btreeItem :=
  List.filter (fun x => in_bounds opts (item_key x)) (entries idx).

Lemma found_next idx opts n x :
  idx_inv idx -> keys_distinct idx -> last (take n (found idx opts)) = Some x ->
  found idx (next_page opts (item_key x)) = drop n (found idx opts).
Proof.
  intros Hinv Hd Hx. unfold found in *.
  rewrite <- (filter_after_page _ _ _ (filter_sorted _ _ _ (entries_keys_sorted _ Hinv Hd)) Hx).
  rewrite filter_filter. apply filter_ext_bool. intros y. apply in_bounds_next.
  apply last_Some_elem_of in Hx. eapply subseteq_take, list_elem_of_In, filter_In in Hx. tauto.
Qed.

Lemma search_pages_complete fuel idx opts :
  idx_inv idx -> keys_distinct idx -> (length (found idx opts) < fuel)%nat ->
  search_pages fuel idx opts = map to_docref (found idx opts).
Proof.
  intros Hinv Hd. revert opts; induction fuel as [|fuel IH]; intros opts Hf; [lia|].
  cbn [search_pages]. rewrite idx_Search_eq by done. fold (found idx opts).
  assert (0 < opts_limit opts) as Hlim by (unfold opts_limit; destruct (Z.leb_spec (opt_Limit opts) 0); lia).
  set (n := Z.to_nat (opts_limit opts)). assert (0 < n)%nat as Hn by lia.
  rewrite take_map, last_map.
  destruct (last (take n (found idx opts))) as [x|] eqn:E; cbn [option_map].
  - change (docref_OrderKey (to_docref x)) with (item_key x). fold (next_page opts (item_key x)).
    rewrite IH by (rewrite (found_next _ _ _ _ Hinv Hd E), length_drop;
      assert (found idx opts <> []) by (intros H; by rewrite H, take_nil in E);
      destruct (found idx opts); cbn in *; [done|lia]).
    rewrite (found_next _ _ _ _ Hinv Hd E).
    by rewrite <- map_app, take_drop.
  - apply last_None in E. destruct (found idx opts); [done|]. by destruct n; [lia|].
Qed.

(** ** The specification of a search over the map alone *)
Definition spec_entries (m : gmap string bytes) : list btreeItem :=
  insertion_sort lessFunc (map (fun kv => BtreeItem kv.2 kv.1) (map_to_list m)).

Definition spec_search (m : gmap string bytes) (opts : SearchOptions) : list DocRef :=
  map to_docref (List.filter (fun x => in_bounds opts (item_key x)) (spec_entries m)).

Lemma spec_entries_elem m x : x ∈ spec_entries m <-> m !! item_id x = Some (item_key x).
Proof.
  unfold spec_entries. rewrite insertion_sort_perm, list_elem_of_In, in_map_iff. destruct x as [k i]; cbn. split.
  - intros ([i' k'] & [= <- <-] & H%list_elem_of_In). by apply elem_of_map_to_list in H.
  - intros H. exists (i, k). split; [done|]. by apply list_elem_of_In, elem_of_map_to_list.
Qed.

Lemma spec_entries_sorted m : items_sorted (spec_entries m).
Proof.
  unfold spec_entries. apply strict_sorted_NoDup.
  - apply insertion_sort_sorted, lessFunc_strict_weak.
  - rewrite insertion_sort_perm. apply (NoDup_fmap_2_strong (fun kv => BtreeItem kv.2 kv.1)); [|apply NoDup_map_to_list].
    intros [] [] _ _; cbn; congruence.
Qed.

Lemma entries_spec idx : idx_inv idx -> entries idx = spec_entries (idx_byID idx).
Proof.
  intros [Hs Ha]. apply items_sorted_unique; [done|apply spec_entries_sorted|].
  intros x. by rewrite Ha, spec_entries_elem.
Qed.

(** No two documents of the map share an order key. *)
Definition keys_injective (m : gmap string bytes) : Prop := NoDup (map snd (map_to_list m)).

Lemma keys_injective_distinct idx : idx_inv idx -> keys_injective (idx_byID idx) -> keys_distinct idx.
Proof.
  intros [_ Ha] Hn [k i] [k' i'] Hx Hy E; cbn in E. subst k'. apply Ha in Hx, Hy; cbn in *.
  apply elem_of_map_to_list in Hx, Hy. unfold keys_injective in Hn.
  assert ((i, k) = (i', k)); [|congruence]. eapply NoDup_map_inj_elem; eauto.
Qed.

Definition after_ops (p t r : string) (ops : list idx_op) : Index :=
  foldl run_idx_op (NewIndex p t r) ops.
Definition spec_after (ops : list idx_op) : gmap string bytes := foldl spec_op ∅ ops.

Lemma after_ops_byID p t r ops : idx_byID (after_ops p t r ops) = spec_after ops.
Proof. unfold after_ops. by rewrite run_idx_ops_byID. Qed.
Lemma after_ops_inv p t r ops : idx_inv (after_ops p t r ops).
Proof. apply run_idx_ops_inv, NewIndex_inv. Qed.

(** C36: refinement. After any sequence of upserts, deletes, clears and state
    changes, an index behaves as the plain map from document ids to order keys
    that the sequence describes: [Get] is the map's lookup, [Len] its size, and
    [Search] returns the first [limit] (1000 when not positive) entries of the
    map, in (order key, id) order, that lie at or after the lower bound,
    strictly after the cursor and strictly before the upper bound. *)
Theorem idx_Search_refines p t r ops :
  let idx := after_ops p t r ops in
  let m := spec_after ops in
  (forall id, idx_Get idx id = m !! id) /\ idx_Len idx = size m /\
  (forall opts, idx_Search idx opts = take (Z.to_nat (opts_limit opts)) (spec_search m opts)).
Proof.
  cbv zeta. unfold idx_Get, idx_Len. rewrite after_ops_byID. repeat split; try done.
  intros opts. rewrite idx_Search_eq by apply after_ops_inv.
  by rewrite entries_spec, after_ops_byID by apply after_ops_inv.
Qed.

(** Completeness of pagination. When documents have distinct order keys,
    following the cursor page by page returns every entry within the bounds
    exactly once and in order, whatever the page size; a client needs at most
    one page more than there are entries. *)
Theorem search_pages_all p t r ops opts fuel :
  keys_injective (spec_after ops) ->
  (length (spec_search (spec_after ops) opts) < fuel)%nat ->
  search_pages fuel (after_ops p t r ops) opts = spec_search (spec_after ops) opts.
Proof.
  intros Hk Hf. unfold spec_search in *. rewrite <- (after_ops_byID p t r) in *.
  rewrite <- entries_spec in * by apply after_ops_inv. rewrite length_map in Hf.
  apply search_pages_complete; auto using after_ops_inv, keys_injective_distinct.
Qed.
End MemIndex.

(** Three documents, one re-keyed and one deleted, read two at a time. *)
Lemma search_pages_all_witness :
  let ops := [DoUpsert "a" [3]; DoUpsert "b" [1]; DoUpsert "c" [2]; DoUpsert "d" [9]; DoUpsert "a" [5]; DoDelete "d"] in
  let opts := {| opt_Lower := []; opt_Upper := None; opt_StartAfter := None; opt_Limit := 2 |} in
  keys_injective (spec_after ops) /\
  @search_pages list_btree 4 (after_ops (BT:=list_btree) "p" "t" "r" ops) opts =
  [ {| docref_ID := "b"; docref_OrderKey := [1] |}; {| docref_ID := "c"; docref_OrderKey := [2] |};
    {| docref_ID := "a"; docref_OrderKey := [5] |} ].
Proof.
  cbv zeta.
  assert (keys_injective (spec_after
    [DoUpsert "a" [3]; DoUpsert "b" [1]; DoUpsert "c" [2]; DoUpsert "d" [9]; DoUpsert "a" [5]; DoDelete "d"])) as H
    by (apply (bool_decide_unpack _); vm_compute; exact I).
  split; [exact H|].
  rewrite (search_pages_all (BT:=list_btree)); [vm_compute; reflexivity|exact H|vm_compute; lia].
Defined.
#[export] Hint Resolve NewIndex_inv idx_Upsert_inv idx_Delete_inv idx_Clear_inv : syntrix.
