(* ===== verification/MemStore.v ===== *)
(** * The in-memory store: internal/indexer/mem_store/store.go and projection.go

    The whole store behind one lock: legacy indexes per database, projection
    partitions (several posting keys per document), generations, bootstrap
    catalogs and retired databases; read views with a shared work budget and
    their iterators. Every method is one atomic transition of [Store]; a map
    enumerated by [range] is read in the order of [map_to_list]. *)
From stdpp Require Import base list sorting gmap strings.
From Stdlib Require Import ZArith.
From S2P Require Import Prelude IndexStore BTree MemIndex.
Local Open Scope Z_scope.

Record generationKey := GenKey { gk_database : string; gk_collection : string; gk_fingerprint : string }.
#[export] Instance generationKey_eq_dec : EqDecision generationKey.
Proof. solve_decision. Defined.
#[export] Instance generationKey_countable : Countable generationKey.
Proof.
  refine (inj_countable' (fun k => (gk_database k, gk_collection k, gk_fingerprint k))
    (fun '(a, b, c) => GenKey a b c) _). by intros [].
Defined.

Definition generationIdentity (r : QueryIndexRef) : generationKey :=
  GenKey (ref_Database r) (ref_Collection r) (ref_TemplateFingerprint r).

Definition ref_compare (a b : QueryIndexRef) : comparison :=
  then_compare (string_compare (ref_Database a) (ref_Database b))
    (then_compare (string_compare (ref_Collection a) (ref_Collection b))
      (then_compare (string_compare (ref_TemplateFingerprint a) (ref_TemplateFingerprint b))
        (string_compare (ref_Generation a) (ref_Generation b)))).
Definition ref_ltb (a b : QueryIndexRef) : bool :=
  match ref_compare a b with Lt => true | _ => false end.

(** The start key of a scan against its cursor. *)
Lemma cursor_cases lower after k :
  let start := if bytes_ltb lower after then after else lower in
  bytes_leb k after && bytes_leb start k = bytes_eqb k after && bytes_leb lower k /\
  negb (bytes_leb k after) && bytes_leb start k = bytes_leb lower k && bytes_ltb after k.
Proof.
  cbv zeta. unfold bytes_ltb, bytes_leb, bytes_eqb.
  rewrite (bytes_compare_antisym after k). destruct (bytes_compare lower after) eqn:C1.
  - apply bytes_compare_eq in C1 as ->. by destruct (bytes_compare after k).
  - destruct (bytes_compare after k) eqn:C2; cbn; try by rewrite ?andb_false_r.
    + apply bytes_compare_eq in C2 as ->. by rewrite C1.
    + by rewrite (bytes_compare_trans _ _ _ C1 C2).
  - apply bytes_compare_lt_gt in C1. destruct (bytes_compare after k) eqn:C2; cbn; [|by rewrite andb_true_r|].
    + apply bytes_compare_eq in C2 as <-. by rewrite (proj1 (bytes_compare_lt_gt _ _) C1).
    + apply bytes_compare_lt_gt in C2. rewrite (proj1 (bytes_compare_lt_gt _ _) (bytes_compare_trans _ _ _ C2 C1)).
      done.
Qed.

Section MemStore.
Context `{BT : BTree} `{SS : SliceSort}.

Record projectionIndex := { pi_tree : tree; pi_byID : gmap string (list bytes) }.
Definition new_projectionIndex : projectionIndex := {| pi_tree := tree_new; pi_byID := ∅ |}.

Record Store := {
  st_databases : gmap string (Database (BT:=BT));
  st_progress : string;
  st_partitions : gmap QueryIndexRef projectionIndex;
  st_generations : gmap generationKey Generation;
  st_catalogs : gmap string BootstrapCatalog;
  st_inventoryPublished : bool;
  st_retired : gset string;
}.

Definition New : Store := {|
  st_databases := ∅; st_progress := ""; st_partitions := ∅; st_generations := ∅;
  st_catalogs := ∅; st_inventoryPublished := false; st_retired := ∅;
|}.

(** Field updates. *)
Definition set_databases (s : Store) d := {|
  st_databases := d; st_progress := st_progress s; st_partitions := st_partitions s;
  st_generations := st_generations s; st_catalogs := st_catalogs s;
  st_inventoryPublished := st_inventoryPublished s; st_retired := st_retired s |}.
Definition set_partitions (s : Store) p := {|
  st_databases := st_databases s; st_progress := st_progress s; st_partitions := p;
  st_generations := st_generations s; st_catalogs := st_catalogs s;
  st_inventoryPublished := st_inventoryPublished s; st_retired := st_retired s |}.
Definition set_generations (s : Store) g := {|
  st_databases := st_databases s; st_progress := st_progress s; st_partitions := st_partitions s;
  st_generations := g; st_catalogs := st_catalogs s;
  st_inventoryPublished := st_inventoryPublished s; st_retired := st_retired s |}.

(** [if progress != "" { s.progress = progress }]. *)
Definition note_progress (s : Store) (progress : string) : Store := {|
  st_databases := st_databases s;
  st_progress := if String.eqb progress "" then st_progress s else progress;
  st_partitions := st_partitions s; st_generations := st_generations s; st_catalogs := st_catalogs s;
  st_inventoryPublished := st_inventoryPublished s; st_retired := st_retired s |}.

(** ** Legacy indexes (store.go) *)
Definition getOrCreateDB (s : Store) (db : string) : Store * Database (BT:=BT) :=
  match st_databases s !! db with
  | Some d => (s, d)
  | None => let d := NewDatabase db in (set_databases s (<[db := d]> (st_databases s)), d)
  end.

(** Runs a method on the index the store holds, created when absent. *)
Definition on_created_index (s : Store) (db pattern tmplID : string) (f : Index -> Index) : Store :=
  let '(s, d) := getOrCreateDB s db in
  let '(d, _) := db_GetOrCreateIndex d pattern tmplID pattern in
  set_databases s (<[db := db_update d pattern tmplID f]> (st_databases s)).

Definition store_Upsert (s : Store) (db pattern tmplID docID : string) (orderKey : bytes)
    (progress : string) : Store :=
  note_progress (on_created_index s db pattern tmplID (fun idx => idx_Upsert idx docID orderKey)) progress.

Definition store_Delete (s : Store) (db pattern tmplID docID progress : string) : Store :=
  match st_databases s !! db with
  | None => note_progress s progress
  | Some d =>
      match db_GetIndex d pattern tmplID with
      | Some _ =>
          note_progress (set_databases s
            (<[db := db_update d pattern tmplID (fun idx => idx_Delete idx docID)]> (st_databases s))) progress
      | None => note_progress s progress
      end
  end.

Definition store_Get (s : Store) (db pattern tmplID docID : string) : option bytes :=
  match st_databases s !! db with
  | None => None
  | Some d => match db_GetIndex d pattern tmplID with
              | None => None
              | Some idx => idx_Get idx docID
              end
  end.

Definition store_Search (s : Store) (db pattern tmplID : string) (opts : SearchOptions) : list DocRef :=
  match st_databases s !! db with
  | None => []
  | Some d => match db_GetIndex d pattern tmplID with
              | None => []
              | Some idx => idx_Search idx opts
              end
  end.

Definition store_DeleteIndex (s : Store) (db pattern tmplID : string) : Store :=
  match st_databases s !! db with
  | None => s
  | Some d => set_databases s (<[db := db_DeleteIndex d pattern tmplID]> (st_databases s))
  end.

Definition DeleteDatabase (s : Store) (db : string) : Store := {|
  st_databases := delete db (st_databases s);
  st_progress := st_progress s;
  st_partitions := filter (fun kv => ref_Database kv.1 <> db) (st_partitions s);
  st_generations := filter (fun kv => gk_database kv.1 <> db) (st_generations s);
  st_catalogs := delete db (st_catalogs s);
  st_inventoryPublished := st_inventoryPublished s;
  st_retired := {[db]} ∪ st_retired s;
|}.

Definition IsDatabaseRetired (s : Store) (db : string) : bool := bool_decide (db ∈ st_retired s).

Definition state_of (st : IndexState) : State :=
  match st with
  | IndexStateHealthy => StateHealthy
  | IndexStateRebuilding => StateRebuilding
  | IndexStateFailed => StateFailed
  | IndexStateOther _ => StateHealthy
  end.

Definition store_SetState (s : Store) (db pattern tmplID : string) (st : IndexState) : Store :=
  on_created_index s db pattern tmplID (fun idx => idx_SetState idx (state_of st)).

Definition store_GetState (s : Store) (db pattern tmplID : string) : IndexState :=
  match st_databases s !! db with
  | None => IndexStateHealthy
  | Some d => match db_GetIndex d pattern tmplID with
              | None => IndexStateHealthy
              | Some idx => index_state_of (idx_state idx)
              end
  end.

Definition LoadProgress (s : Store) : string := st_progress s.
Definition ListDatabases (s : Store) : list string := map fst (map_to_list (st_databases s)).
Definition store_ListIndexes (s : Store) (db : string) : res store_error (list IndexInfo) :=
  match st_databases s !! db with
  | None => Err ErrDatabaseNotFound
  | Some d => Ok (db_ListIndexes d)
  end.

(** ** Projections (projection.go) *)

(** Creates the partition on first use. *)
Definition partition_or_new (s : Store) (r : QueryIndexRef) : projectionIndex :=
  default new_projectionIndex (st_partitions s !! r).

Definition apply_projection (s : Store) (p : Projection) : Store :=
  let idx := partition_or_new s (proj_Index p) in
  let doc := proj_DocumentID p in
  let t := foldl (fun t key => tree_Delete (BtreeItem key doc) t) (pi_tree idx)
             (default [] (pi_byID idx !! doc)) in
  let t := foldl (fun t key => ReplaceOrInsert (BtreeItem key doc) t) t (proj_PostingKeys p) in
  let byID := delete doc (pi_byID idx) in
  let byID := match proj_PostingKeys p with
              | [] => byID
              | keys => <[doc := keys]> byID
              end in
  set_partitions s (<[proj_Index p := {| pi_tree := t; pi_byID := byID |}]> (st_partitions s)).

Definition ApplyDocumentProjection (s : Store) (replacements : list Projection) (progress : string)
    : res store_error Store :=
  owned ← OwnProjections replacements;
  Ok (note_progress (foldl apply_projection s owned) progress).

Definition ReadGeneration (s : Store) (db collection fingerprint : string) : option Generation :=
  if bool_decide (db ∈ st_retired s) then None
  else
    let g := st_generations s !! GenKey db collection fingerprint in
    match st_catalogs s !! db with
    | None => if st_inventoryPublished s then None else ResolveGeneration None fingerprint g
    | Some catalog => ResolveGeneration (Some catalog) fingerprint g
    end.

Definition PublishBootstrapCatalog (s : Store) (c : BootstrapCatalog) : res store_error Store :=
  owned ← OwnBootstrapCatalog c;
  if st_inventoryPublished s then Err ErrPluralPublication
  else Ok (note_progress {|
    st_databases := st_databases s; st_progress := st_progress s; st_partitions := st_partitions s;
    st_generations := st_generations s; st_catalogs := <[cat_Database c := owned]> (st_catalogs s);
    st_inventoryPublished := st_inventoryPublished s; st_retired := st_retired s |}
    (cat_BootstrapProgress c)).

Definition PublishBootstrapCatalogs (s : Store) (cs : list BootstrapCatalog) (progress : string)
    : res store_error Store :=
  owned ← OwnBootstrapCatalogs cs progress;
  let replacement := foldl (fun m c => <[cat_Database c := c]> m) (∅ : gmap string BootstrapCatalog) owned in
  Ok {|
    st_databases := st_databases s; st_progress := progress; st_partitions := st_partitions s;
    st_generations := st_generations s; st_catalogs := replacement;
    st_inventoryPublished := true; st_retired := st_retired s ∖ dom replacement |}.

Definition ReadBootstrapCatalog (s : Store) (db : string) : option BootstrapCatalog := st_catalogs s !! db.

Definition ListBootstrapCatalogs (s : Store) : list BootstrapCatalog :=
  sort_slice (fun a b => string_ltb (cat_Database a) (cat_Database b))
    (map snd (map_to_list (st_catalogs s))).

Definition generation_ref (k : generationKey) (g : Generation) : QueryIndexRef :=
  IndexRef (gk_database k) (gk_collection k) (gk_fingerprint k) (gen_ID g).

Definition ListQueryIndexes (s : Store) : list QueryIndexRef :=
  let refs : gset QueryIndexRef :=
    dom (st_partitions s)
    ∪ list_to_set (map (fun kv => generation_ref kv.1 kv.2) (map_to_list (st_generations s))) in
  sort_slice ref_ltb (elements refs).

(** The catalog of the reference's database lists its template. *)
Definition catalog_covers (s : Store) (r : QueryIndexRef) (same_generation : bool) : option BootstrapCatalog :=
  match st_catalogs s !! ref_Database r with
  | Some c =>
      if Bool.eqb (String.eqb (cat_Generation c) (ref_Generation r)) same_generation
         && bool_decide (ref_TemplateFingerprint r ∈ cat_TemplateFingerprints c)
      then Some c else None
  | None => None
  end.

Definition DeleteQueryIndex (s : Store) (r : QueryIndexRef) : res store_error Store :=
  if incomplete_ref r then Err ErrIncompleteIdentity
  else
    let key := generationIdentity r in
    let s := set_partitions s (delete r (st_partitions s)) in
    let s := if String.eqb (gen_ID (default no_generation (st_generations s !! key))) (ref_Generation r)
             then set_generations s (delete key (st_generations s)) else s in
    Ok match catalog_covers s r true with
       | Some c => set_generations s
           (<[key := {| gen_ID := ref_Generation r; gen_Ready := false;
                        gen_BootstrapProgress := cat_BootstrapProgress c;
                        gen_Failure := "index partition deleted" |}]> (st_generations s))
       | None => s
       end.

Definition PublishGeneration (s : Store) (r : QueryIndexRef) (progress : string) : res store_error Store :=
  if incomplete_ref r then Err ErrIncompleteIdentity
  else match catalog_covers s r false with
  | Some _ => Err ErrCatalogGeneration
  | None =>
      let s := set_generations s
        (<[generationIdentity r := {| gen_ID := ref_Generation r; gen_Ready := true;
              gen_BootstrapProgress := progress; gen_Failure := "" |}]> (st_generations s)) in
      let s := set_partitions s (<[r := partition_or_new s r]> (st_partitions s)) in
      Ok (note_progress s progress)
  end.

Definition SetFailure (s : Store) (r : QueryIndexRef) (failure : string) : res store_error Store :=
  if incomplete_ref r || String.eqb failure "" then Err ErrIncompleteIdentity
  else match catalog_covers s r false with
  | Some _ => Ok s
  | None =>
      let key := generationIdentity r in
      let g := default no_generation (st_generations s !! key) in
      let g := if String.eqb (gen_ID g) (ref_Generation r) then g
               else {| gen_ID := ref_Generation r; gen_Ready := false; gen_BootstrapProgress := ""; gen_Failure := "" |} in
      let s := set_generations s
        (<[key := {| gen_ID := gen_ID g; gen_Ready := false;
                     gen_BootstrapProgress := gen_BootstrapProgress g; gen_Failure := failure |}]>
         (st_generations s)) in
      Ok (set_partitions s (<[r := partition_or_new s r]> (st_partitions s)))
  end.

(** ** Read views

    [Clone] hands the view its own copy of the tree. *)
Record projectionView := { view_tree : tree; view_closed : bool; view_maxExamined : Z; view_examined : Z }.

Definition ReadView (ctx : Context) (s : Store) (r : QueryIndexRef) (budget : ReadBudget)
    : res store_error projectionView :=
  budget ← NormalizeReadBudget budget;
  if ctx 0%nat then Err ErrContext
  else Ok {| view_tree := match st_partitions s !! r with
                          | Some idx => pi_tree idx
                          | None => tree_new
                          end;
             view_closed := false; view_maxExamined := MaxExamined budget; view_examined := 0 |}.

Definition view_Close (v : projectionView) : projectionView :=
  {| view_tree := tree_new; view_closed := true; view_maxExamined := view_maxExamined v;
     view_examined := view_examined v |}.

Record projectionIterator := {
  it_opts : SearchOptions;
  it_last : option btreeItem;   (** [last] once [started] *)
  it_closed : bool;
  it_count : Z;
  it_examined : Z;
}.

Definition Scan (ctx : Context) (v : projectionView) (opts : SearchOptions) : res store_error projectionIterator :=
  if ctx 0%nat then Err ErrContext
  else if view_closed v then Err ErrViewClosed
  else Ok {| it_opts := opts; it_last := None; it_closed := false; it_count := 0; it_examined := 0 |}.

(** What the callback of Next writes: both counters, the item found, the error
    and the number of context polls so far. *)
Record next_state := {
  ns_view_examined : Z; ns_it_examined : Z; ns_found : option btreeItem; ns_limit : bool; ns_polls : nat;
}.

Definition next_visit (ctx : Context) (maxExamined : Z) (it : projectionIterator)
    (ns : next_state) (item : btreeItem) : next_state * bool :=
  let cancelled := ctx (ns_polls ns) in
  let ns := {| ns_view_examined := ns_view_examined ns; ns_it_examined := ns_it_examined ns;
               ns_found := ns_found ns; ns_limit := ns_limit ns; ns_polls := S (ns_polls ns) |} in
  if cancelled then (ns, false)
  else if match it_last it with Some l => negb (lessFunc l item) | None => false end then (ns, true)
  else if match opt_Upper (it_opts it) with
          | Some upper => negb (bytes_ltb (item_key item) upper)
          | None => false
          end then (ns, false)
  else if (maxExamined <? ns_view_examined ns + 1)
  then ({| ns_view_examined := ns_view_examined ns + 1; ns_it_examined := ns_it_examined ns;
           ns_found := ns_found ns; ns_limit := true; ns_polls := ns_polls ns |}, false)
  else
    let skip := match opt_StartAfter (it_opts it) with
                | Some after => bytes_leb (item_key item) after
                | None => false
                end in
    ({| ns_view_examined := ns_view_examined ns + 1; ns_it_examined := ns_it_examined ns + 1;
        ns_found := if skip then ns_found ns else Some item; ns_limit := ns_limit ns;
        ns_polls := ns_polls ns |}, skip).

Definition next_start (it : projectionIterator) : btreeItem :=
  match it_last it with
  | Some l => l
  | None => BtreeItem
      match opt_StartAfter (it_opts it) with
      | Some after => if bytes_ltb (opt_Lower (it_opts it)) after then after else opt_Lower (it_opts it)
      | None => opt_Lower (it_opts it)
      end ""
  end.

(** One call: the view and the iterator afterwards, with the document, [None] at
    the end, or the error. *)
Definition Next (ctx : Context) (v : projectionView) (it : projectionIterator)
    : projectionView * projectionIterator * res store_error (option DocRef) :=
  if ctx 0%nat then (v, it, Err ErrContext)
  else if it_closed it || ((0 <? opt_Limit (it_opts it)) && (opt_Limit (it_opts it) <=? it_count it))
  then (v, it, Ok None)
  else if view_closed v then (v, it, Err ErrViewClosed)
  else
    let ns := AscendGreaterOrEqual (view_tree v) (next_start it) (next_visit ctx (view_maxExamined v) it)
      {| ns_view_examined := view_examined v; ns_it_examined := it_examined it;
         ns_found := None; ns_limit := false; ns_polls := 1 |} in
    let v := {| view_tree := view_tree v; view_closed := view_closed v;
                view_maxExamined := view_maxExamined v; view_examined := ns_view_examined ns |} in
    let step last closed count := {| it_opts := it_opts it; it_last := last; it_closed := closed;
                                     it_count := count; it_examined := ns_it_examined ns |} in
    if ns_limit ns then (v, step (it_last it) (it_closed it) (it_count it), Err ErrWorkLimit)
    else if ctx (ns_polls ns) then (v, step (it_last it) (it_closed it) (it_count it), Err ErrContext)
    else match ns_found ns with
    | None => (v, step (it_last it) true (it_count it), Ok None)
    | Some item => (v, step (Some item) (it_closed it) (it_count it + 1),
                    Ok (Some {| docref_ID := item_id item; docref_OrderKey := item_key item |}))
    end.

Definition it_Close (it : projectionIterator) : projectionIterator :=
  {| it_opts := it_opts it; it_last := it_last it; it_closed := true;
     it_count := it_count it; it_examined := it_examined it |}.

(** A client that reads an iterator to its end. *)
Inductive drain_end := Drained | DrainFailed (e : store_error) | DrainOutOfFuel.

Fixpoint drain (fuel : nat) (v : projectionView) (it : projectionIterator)
    : list DocRef * drain_end * projectionView :=
  match fuel with
  | O => ([], DrainOutOfFuel, v)
  | S fuel =>
      match Next Background v it with
      | (v, it, Ok (Some d)) => let '(ds, e, v) := drain fuel v it in (d :: ds, e, v)
      | (v, _, Ok None) => ([], Drained, v)
      | (v, _, Err e) => ([], DrainFailed e, v)
      end
  end.

(** ** What one call of Next examines *)

(** The items the iterator has yet to examine. *)
Definition pending (it : projectionIterator) (x : btreeItem) : bool :=
  match it_last it with Some l => lessFunc l x | None => negb (lessFunc x (next_start it)) end
  && below_upper (it_opts it) (item_key x).

Definition skipped (it : projectionIterator) (x : btreeItem) : bool :=
  match opt_StartAfter (it_opts it) with Some after => bytes_leb (item_key x) after | None => false end.

(** Whether the walk finds a document, exhausts the budget or ends; [e] counts
    what the view examined. *)
Inductive walk_end := WalkFound (x : btreeItem) | WalkLimit | WalkEnd.

Fixpoint walk (it : projectionIterator) (maxExamined e : Z) (l : list btreeItem) : Z * walk_end :=
  match l with
  | [] => (e, WalkEnd)
  | x :: l =>
      if maxExamined <? e + 1 then (e + 1, WalkLimit)
      else if skipped it x then walk it maxExamined (e + 1) l
      else (e + 1, WalkFound x)
  end.

Definition ns_end (ns : next_state) : walk_end :=
  if ns_limit ns then WalkLimit else match ns_found ns with Some x => WalkFound x | None => WalkEnd end.

Definition polled (ns : next_state) (n : Z) (m : Z) (f : option btreeItem) (limit : bool) : next_state :=
  {| ns_view_examined := ns_view_examined ns + n; ns_it_examined := ns_it_examined ns + m;
     ns_found := f; ns_limit := limit; ns_polls := S (ns_polls ns) |}.

Definition after_last (it : projectionIterator) (x : btreeItem) : bool :=
  match it_last it with Some l => lessFunc l x | None => true end.

Lemma next_visit_eq max it ns x :
  next_visit Background max it ns x =
  if negb (after_last it x) then (polled ns 0 0 (ns_found ns) (ns_limit ns), true)
  else if negb (below_upper (it_opts it) (item_key x)) then (polled ns 0 0 (ns_found ns) (ns_limit ns), false)
  else if max <? ns_view_examined ns + 1 then (polled ns 1 0 (ns_found ns) true, false)
  else (polled ns 1 1 (if skipped it x then ns_found ns else Some x) (ns_limit ns), skipped it x).
Proof.
  unfold next_visit, polled, after_last, below_upper, skipped. cbn. rewrite !Z.add_0_r.
  destruct (it_last it); cbn; [destruct (lessFunc _ x); cbn; [|done]|];
    destruct (opt_Upper (it_opts it)); cbn; try (destruct (bytes_ltb _ _); cbn; [|done]); done.
Qed.

Lemma visit_next max it l ns :
  items_sorted l -> ns_found ns = None -> ns_limit ns = false ->
  let ns' := visit (next_visit Background max it) ns l in
  (ns_view_examined ns', ns_end ns')
  = walk it max (ns_view_examined ns)
      (List.filter (fun x => after_last it x && below_upper (it_opts it) (item_key x)) l).
Proof.
  cbv zeta. unfold items_sorted. intros Hs; revert ns; induction Hs as [|x l Hl IH Hx]; intros ns Hf Hlim.
  { cbn. unfold ns_end. by rewrite Hf, Hlim. }
  cbn [visit List.filter]. rewrite next_visit_eq.
  destruct (after_last it x); cbn [negb andb].
  2: { rewrite IH by done. cbn. by rewrite Z.add_0_r. }
  destruct (below_upper (it_opts it) (item_key x)) eqn:Eu; cbn [negb walk].
  - destruct (max <? ns_view_examined ns + 1) eqn:Em; [done|].
    destruct (skipped it x) eqn:Ek; [by rewrite IH|]. unfold ns_end; cbn. by rewrite Hlim.
  - rewrite filter_none; [cbn; unfold ns_end; cbn; by rewrite Hf, Hlim, Z.add_0_r|].
    intros y Hy. rewrite Forall_forall in Hx. specialize (Hx y Hy); cbn in Hx.
    rewrite (below_upper_mono (it_opts it) (item_key x)); [apply andb_false_r|done|by apply lessFunc_key].
Qed.

(** The view after examining up to [e]. *)
Definition view_at (v : projectionView) (e : Z) : projectionView :=
  {| view_tree := view_tree v; view_closed := view_closed v;
     view_maxExamined := view_maxExamined v; view_examined := e |}.

Definition at_limit (it : projectionIterator) : bool :=
  (0 <? opt_Limit (it_opts it)) && (opt_Limit (it_opts it) <=? it_count it).

Definition pending_items (v : projectionView) (it : projectionIterator) : list btreeItem :=
  List.filter (pending it) (tree_items (view_tree v)).

Lemma visit_examined max it l ns :
  ns_limit (visit (next_visit Background max it) ns l) = false ->
  ns_it_examined (visit (next_visit Background max it) ns l) - ns_view_examined (visit (next_visit Background max it) ns l)
  = ns_it_examined ns - ns_view_examined ns.
Proof.
  revert ns; induction l as [|x l IH]; intros ns; cbn [visit]; [done|]. rewrite next_visit_eq.
  destruct (after_last it x); cbn [negb]; [|intros H; rewrite (IH _ H); cbn; lia].
  destruct (below_upper _ _); cbn [negb]; [|intros _; cbn; lia].
  destruct (max <? _); [done|]. destruct (skipped it x); [intros H; rewrite (IH _ H)|intros _]; cbn; lia.
Qed.

Lemma Next_walk v it :
  items_sorted (tree_items (view_tree v)) -> view_closed v = false ->
  it_closed it = false -> at_limit it = false ->
  exists it',
  let w := walk it (view_maxExamined v) (view_examined v) (pending_items v it) in
  Next Background v it =
    (view_at v w.1, it',
     match w.2 with
     | WalkFound x => Ok (Some (to_docref x))
     | WalkLimit => Err ErrWorkLimit
     | WalkEnd => Ok None
     end) /\
  (forall x, w.2 = WalkFound x -> it_opts it' = it_opts it /\ it_last it' = Some x /\
     it_closed it' = false /\ it_count it' = it_count it + 1) /\
  (w.2 = WalkEnd -> it_opts it' = it_opts it /\ it_closed it' = true) /\
  (w.2 <> WalkLimit -> it_examined it' = it_examined it + (w.1 - view_examined v)).
Proof.
  intros Hs Hv Hc Hl. unfold Next. cbn [Background]. rewrite Hc. fold (at_limit it). rewrite Hl, Hv.
  cbn [orb]. rewrite Ascend_items by done.
  match goal with |- context [visit _ ?ns0 _] => set (ns := ns0) end.
  set (ns' := visit _ ns _).
  assert ((ns_view_examined ns', ns_end ns')
          = walk it (view_maxExamined v) (view_examined v) (pending_items v it)) as <-.
  { subst ns'. rewrite visit_next; [|by rewrite items_from_filter; [apply filter_sorted|]|done|done].
    unfold pending_items. rewrite items_from_filter by done. rewrite filter_filter. f_equal. apply filter_ext_bool.
    intros x. unfold pending, next_start, after_last. destruct (it_last it) as [l|] eqn:E; cbn [andb]; [|by destruct (lessFunc x _)].
    destruct (lessFunc l x) eqn:El; [by rewrite (lessFunc_asym _ _ El)|by rewrite andb_false_r]. }
  pose proof (visit_examined (view_maxExamined v) it (items_from (next_start it) (tree_items (view_tree v))) ns) as He.
  fold ns' in He. unfold ns_end, view_at. rewrite Hv. cbn [fst snd].
  destruct (ns_limit ns'), (ns_found ns') as [y|];
    eexists; (split; [reflexivity|]); split_and!; try done; try (intros x [= <-]; done);
    intros _; cbn [it_examined]; specialize (He eq_refl); cbn in He; lia.
Qed.

Lemma walk_skip it max e sk l :
  Forall (fun x => skipped it x = true) sk -> e <= max ->
  walk it max e (sk ++ l) =
  if Z.of_nat (length sk) <=? max - e then walk it max (e + Z.of_nat (length sk)) l else (max + 1, WalkLimit).
Proof.
  intros Hf; revert e; induction Hf as [|x sk Hx Hsk IH]; intros e He; cbn [app length].
  { rewrite (proj2 (Z.leb_le _ _)) by lia. by rewrite Z.add_0_r. }
  cbn [walk]. rewrite Hx. destruct (Z.ltb_spec max (e + 1)).
  - rewrite (proj2 (Z.leb_gt _ _)) by lia. f_equal. lia.
  - rewrite IH by lia. replace (Z.of_nat (S (length sk)) <=? max - e) with (Z.of_nat (length sk) <=? max - (e + 1))
      by (destruct (Z.leb_spec (Z.of_nat (length sk)) (max - (e + 1))), (Z.leb_spec (Z.of_nat (S (length sk))) (max - e)); lia || done).
    destruct (_ <=? _); [|done]. f_equal. lia.
Qed.

(** Moving the iterator past a found item leaves what followed it. *)
Lemma filter_past (P Q : btreeItem -> bool) l a x b :
  items_sorted l -> List.filter P l = a ++ x :: b ->
  (forall y, lessFunc x y = true -> P y = Q y) ->
  List.filter (fun y => lessFunc x y && Q y) l = b.
Proof.
  intros Hs E HPQ. transitivity (List.filter (lessFunc x) (List.filter P l)).
  { rewrite filter_filter. apply filter_ext_bool. intros y. rewrite andb_comm.
    destruct (lessFunc x y) eqn:El; [by rewrite HPQ|by rewrite !andb_false_r]. }
  pose proof (filter_sorted _ P _ Hs) as Hs'. rewrite E in *. clear E Hs.
  induction a as [|y a IH]; cbn [app List.filter] in *.
  - rewrite lessFunc_irrefl. apply forallb_filter_id, forallb_forall. intros y Hy%list_elem_of_In.
    inversion Hs' as [|? ? _ Hx]; subst. by apply (proj1 (Forall_forall _ _) Hx).
  - inversion Hs' as [|? ? Hl Hy]; subst. rewrite Forall_forall in Hy.
    rewrite lessFunc_asym; [by apply IH|]. apply Hy. set_solver.
Qed.

Lemma pending_next v e it it' sk x l :
  items_sorted (tree_items (view_tree v)) -> pending_items v it = sk ++ x :: l ->
  it_opts it' = it_opts it -> it_last it' = Some x ->
  pending_items (view_at v e) it' = l.
Proof.
  intros Hs Hp Ho Hl. unfold pending_items, view_at, pending in *. cbn. rewrite Ho, Hl.
  eapply filter_past; [done|exact Hp|]. intros y Hy. cbn.
  assert (x ∈ List.filter (pending it) (tree_items (view_tree v))) as Hx
    by (unfold pending; rewrite Hp; set_solver).
  apply list_elem_of_In, filter_In in Hx as [_ Hx]. unfold pending in Hx.
  apply andb_true_iff in Hx as [Hx _]. destruct (it_last it) as [last|].
  - by rewrite (lessFunc_trans _ _ _ Hx Hy).
  - destruct (lessFunc y (next_start it)) eqn:E; [|done].
    by rewrite (lessFunc_trans _ _ _ Hy E) in Hx.
Qed.

(** How many documents the iterator may still return. *)
Definition capped (it : projectionIterator) (l : list btreeItem) : list btreeItem :=
  if 0 <? opt_Limit (it_opts it) then take (Z.to_nat (opt_Limit (it_opts it) - it_count it)) l else l.

Lemma capped_cons it x l :
  at_limit it = false ->
  exists c, capped it (x :: l) = x :: c /\
    forall it', it_opts it' = it_opts it -> it_count it' = it_count it + 1 -> capped it' l = c.
Proof.
  unfold capped, at_limit. destruct (0 <? opt_Limit (it_opts it)) eqn:E0; cbn [andb]; intros Eat.
  - apply Z.leb_gt in Eat. destruct (Z.to_nat (opt_Limit (it_opts it) - it_count it)) as [|n] eqn:En; [lia|].
    exists (take n l). split; [done|]. intros it' -> ->. rewrite E0. f_equal. lia.
  - exists l. split; [done|]. intros it' -> _. by rewrite E0.
Qed.

Lemma capped_nil it l : at_limit it = true \/ l = [] -> capped it l = [].
Proof.
  unfold capped, at_limit. intros [[-> ?%Z.leb_le]%andb_true_iff | ->].
  - by replace (Z.to_nat _) with O by lia.
  - by destruct (0 <? _); rewrite ?take_nil.
Qed.

Lemma drain_pending fuel v it sk l :
  items_sorted (tree_items (view_tree v)) -> view_closed v = false -> it_closed it = false ->
  view_examined v <= view_maxExamined v ->
  pending_items v it = sk ++ l ->
  Forall (fun x => skipped it x = true) sk -> Forall (fun x => skipped it x = false) l ->
  (sk = [] \/ at_limit it = false) -> (length (capped it l) < fuel)%nat ->
  let n := (length sk + length (capped it l))%nat in
  let budget := Z.to_nat (view_maxExamined v - view_examined v) in
  drain fuel v it =
  if decide (n <= budget)%nat
  then (map to_docref (capped it l), Drained, view_at v (view_examined v + Z.of_nat n))
  else (map to_docref (take (budget - length sk) (capped it l)), DrainFailed ErrWorkLimit,
        view_at v (view_maxExamined v + 1)).
Proof.
  cbv zeta. revert v it sk l; induction fuel as [|fuel IH]; intros v it sk l Hs Hv Hc He Hp Hsk Hl Hlim Hf; [lia|].
  cbn [drain]. destruct (at_limit it) eqn:Eat.
  { destruct Hlim as [->|]; [|done]. unfold Next; cbn [Background]. rewrite Hc. fold (at_limit it). rewrite Eat.
    rewrite capped_nil by auto. cbn. rewrite decide_True by lia. rewrite Z.add_0_r. by destruct v. }
  destruct (Next_walk v it Hs Hv Hc Eat) as (it' & -> & Hit' & _). rewrite Hp in *.
  rewrite walk_skip in * by done. destruct (Z.leb_spec (Z.of_nat (length sk)) (view_maxExamined v - view_examined v)).
  2: { cbn. rewrite decide_False by lia. by replace (_ - length sk)%nat with O by lia. }
  destruct l as [|x l].
  { cbn [walk fst snd]. rewrite capped_nil by auto. cbn. rewrite decide_True by lia. by rewrite Nat.add_0_r. }
  inversion Hl as [|? ? Hx Hl']; subst. cbn [walk] in *. rewrite Hx in *.
  destruct (capped_cons it x l Eat) as (c & Ec & Ec').
  rewrite Ec in *. cbn [length] in *.
  destruct (Z.ltb_spec (view_maxExamined v) (view_examined v + Z.of_nat (length sk) + 1)); cbn [fst snd] in *.
  { rewrite decide_False by lia. replace (_ - length sk)%nat with O by lia. cbn. do 2 f_equal. lia. }
  destruct (Hit' x eq_refl) as (Ho & Hlast & Hc' & Hcount).
  rewrite (IH _ it' [] l); try done; cbn [view_at view_tree view_maxExamined view_examined length].
  2: by eapply pending_next.
  2: { eapply Forall_impl; [exact Hl'|]. cbn. intros y. unfold skipped. by rewrite Ho. }
  2: by left.
  2: by rewrite (Ec' it'); [lia|..].
  rewrite (Ec' it') by done. destruct (decide _); [rewrite decide_True by lia|rewrite decide_False by lia].
  - cbn [map]. replace (view_examined v + Z.of_nat (length sk + S (length c)))
      with (view_examined v + Z.of_nat (length sk) + 1 + Z.of_nat (0 + length c)) by lia. done.
  - replace (Z.to_nat (view_maxExamined v - view_examined v) - length sk)%nat
      with (S (Z.to_nat (view_maxExamined v - (view_examined v + Z.of_nat (length sk) + 1)) - 0)) by lia.
    done.
Qed.

(** A window over the items of a view, as a fresh iterator sees it. *)
Definition window (v : projectionView) (opts : SearchOptions) : list btreeItem :=
  List.filter (fun x => in_bounds opts (item_key x)) (tree_items (view_tree v)).

(** Items a fresh iterator examines only to skip: those at the cursor's key. *)
Definition at_cursor (v : projectionView) (opts : SearchOptions) : list btreeItem :=
  List.filter (fun x => match opt_StartAfter opts with
                        | Some after => bytes_eqb (item_key x) after && bytes_leb (opt_Lower opts) (item_key x)
                        | None => false
                        end && below_upper opts (item_key x)) (tree_items (view_tree v)).

Definition fresh (opts : SearchOptions) : projectionIterator :=
  {| it_opts := opts; it_last := None; it_closed := false; it_count := 0; it_examined := 0 |}.

(** Splitting a sorted list by a downward-closed predicate. *)
Lemma filter_split (P Q : btreeItem -> bool) l :
  items_sorted l ->
  (forall x y, lessFunc x y = true -> P y = true -> P x = true \/ Q x = false) ->
  List.filter Q l = List.filter (fun x => P x && Q x) l ++ List.filter (fun x => negb (P x) && Q x) l.
Proof.
  unfold items_sorted. intros Hs Hdown. induction Hs as [|x l Hl IH Hx]; cbn; [done|].
  destruct (Q x) eqn:EQ; rewrite ?andb_false_r; [|done]. rewrite !andb_true_r.
  destruct (P x) eqn:EP; cbn [negb]; [cbn; by rewrite IH|].
  rewrite IH. assert (List.filter (fun z => P z && Q z) l = []) as ->; [|done].
  apply filter_none. intros y Hy. rewrite Forall_forall in Hx. specialize (Hx y Hy). cbn in Hx.
  destruct (P y) eqn:EPy; [|done]. destruct (Hdown _ _ Hx EPy); congruence.
Qed.

Lemma pending_fresh v opts :
  items_sorted (tree_items (view_tree v)) ->
  pending_items v (fresh opts) = at_cursor v opts ++ window v opts /\
  Forall (fun x => skipped (fresh opts) x = true) (at_cursor v opts) /\
  Forall (fun x => skipped (fresh opts) x = false) (window v opts).
Proof.
  intros Hs. unfold pending_items, at_cursor, window.
  set (start := next_start (fresh opts)).
  assert (forall x, pending (fresh opts) x = bytes_leb (item_key start) (item_key x) && below_upper opts (item_key x)) as Hp.
  { intros x. unfold pending; cbn [it_last fresh it_opts]. subst start. cbn [next_start it_last fresh].
    by rewrite lessFunc_pivot, <- bytes_leb_ltb. }
  assert (forall x, (skipped (fresh opts) x && pending (fresh opts) x =
     match opt_StartAfter opts with
     | Some after => bytes_eqb (item_key x) after && bytes_leb (opt_Lower opts) (item_key x)
     | None => false end && below_upper opts (item_key x)) /\
    (negb (skipped (fresh opts) x) && pending (fresh opts) x = in_bounds opts (item_key x))) as Hk.
  { intros x. rewrite Hp. unfold skipped, in_bounds, below_upper. subst start.
    cbn [fresh it_opts next_start it_last]. destruct (opt_StartAfter opts) as [after|]; cbn [negb andb item_key].
    2: by rewrite andb_true_r.
    split; (destruct (opt_Upper opts) as [u|]; [destruct (bytes_ltb (item_key x) u)|]; rewrite ?andb_false_r, ?andb_true_r; try done);
    apply cursor_cases. }
  split; [|split].
  - rewrite (filter_split (skipped (fresh opts))); [|done|].
    + f_equal; apply filter_ext_bool; intros x; apply Hk.
    + intros x y Hxy Hy. left. unfold skipped in *; cbn [fresh it_opts] in *.
      destruct (opt_StartAfter opts) as [after|]; [|done]. apply bytes_leb_le in Hy. apply bytes_leb_le.
      eapply bytes_le_trans; [by apply lessFunc_key|done].
  - apply Forall_forall. intros x Hx%list_elem_of_In. apply filter_In in Hx as [_ Hx].
    rewrite <- (proj1 (Hk x)) in Hx. by apply andb_true_iff in Hx as [? _].
  - apply Forall_forall. intros x Hx%list_elem_of_In. apply filter_In in Hx as [_ Hx].
    rewrite <- (proj2 (Hk x)) in Hx. apply andb_true_iff in Hx as [Hx _]. by destruct (skipped _ x).
Qed.

(** ** Partitions hold exactly the postings of their documents *)
Record pi_inv (idx : projectionIndex) : Prop := {
  pi_sorted : items_sorted (tree_items (pi_tree idx));
  pi_agree x : x ∈ tree_items (pi_tree idx) <-> item_key x ∈ default [] (pi_byID idx !! item_id x);
}.

Definition partitions_inv (s : Store) : Prop := forall r idx, st_partitions s !! r = Some idx -> pi_inv idx.

Definition postings (s : Store) (r : QueryIndexRef) : list btreeItem :=
  tree_items (pi_tree (partition_or_new s r)).

Lemma new_projectionIndex_inv : pi_inv new_projectionIndex.
Proof.
  split; cbn; rewrite tree_new_items; [constructor|].
  intros x. rewrite lookup_empty. cbn. set_solver.
Qed.

Lemma partition_or_new_inv s r : partitions_inv s -> pi_inv (partition_or_new s r).
Proof.
  intros H. unfold partition_or_new. destruct (st_partitions s !! r) eqn:E; cbn; [by eapply H|].
  apply new_projectionIndex_inv.
Qed.

Lemma delete_keys_items doc keys t :
  items_sorted (tree_items t) ->
  let t' := foldl (fun t key => tree_Delete (BtreeItem key doc) t) t keys in
  items_sorted (tree_items t') /\
  (forall x, x ∈ tree_items t' <-> x ∈ tree_items t /\ ~ (item_id x = doc /\ item_key x ∈ keys)).
Proof.
  cbv zeta. revert t; induction keys as [|k keys IH]; intros t Hs; cbn [foldl].
  { split; [done|]. set_solver. }
  destruct (IH (tree_Delete (BtreeItem k doc) t)) as [H1 H2];
    [rewrite tree_Delete_items by done; auto with syntrix|].
  split; [done|]. intros x. rewrite H2, tree_Delete_items, items_delete_elem by done.
  destruct x as [xk xi]; cbn. rewrite elem_of_cons. naive_solver.
Qed.

Lemma insert_keys_items doc keys t :
  items_sorted (tree_items t) ->
  let t' := foldl (fun t key => ReplaceOrInsert (BtreeItem key doc) t) t keys in
  items_sorted (tree_items t') /\
  (forall x, x ∈ tree_items t' <-> x ∈ tree_items t \/ item_id x = doc /\ item_key x ∈ keys).
Proof.
  cbv zeta. revert t; induction keys as [|k keys IH]; intros t Hs; cbn [foldl].
  { split; [done|]. set_solver. }
  destruct (IH (ReplaceOrInsert (BtreeItem k doc) t)) as [H1 H2];
    [rewrite ReplaceOrInsert_items by done; auto with syntrix|].
  split; [done|]. intros x. rewrite H2, ReplaceOrInsert_items, items_insert_elem by done.
  destruct x as [xk xi]; cbn. rewrite elem_of_cons. naive_solver.
Qed.

Lemma apply_projection_spec s p :
  partitions_inv s ->
  partitions_inv (apply_projection s p) /\
  forall r x, x ∈ postings (apply_projection s p) r <->
    if decide (r = proj_Index p /\ item_id x = proj_DocumentID p)
    then item_key x ∈ proj_PostingKeys p else x ∈ postings s r.
Proof.
  intros Hinv. pose proof (partition_or_new_inv s (proj_Index p) Hinv) as [Hs Ha].
  unfold postings at 1, partition_or_new at 1, apply_projection, partitions_inv. cbn [st_partitions set_partitions].
  set (doc := proj_DocumentID p) in *. set (idx := partition_or_new s (proj_Index p)) in *.
  destruct (delete_keys_items doc (default [] (pi_byID idx !! doc)) _ Hs) as [Ds Dm].
  destruct (insert_keys_items doc (proj_PostingKeys p) _ Ds) as [Is Im].
  set (t := foldl _ _ (proj_PostingKeys p)) in *.
  assert (forall x, x ∈ tree_items t <->
    if decide (item_id x = doc) then item_key x ∈ proj_PostingKeys p else x ∈ tree_items (pi_tree idx)) as Ht.
  { intros x. rewrite Im, Dm. destruct (decide (item_id x = doc)) as [E|]; [|naive_solver].
    rewrite (Ha x), E. naive_solver. }
  split.
  - intros r i. rewrite lookup_insert. case_decide as Er; [|apply Hinv]. intros [= <-]. split; cbn; [done|].
    intros x. rewrite Ht. destruct (decide (item_id x = doc)) as [->|Hne].
    + destruct (proj_PostingKeys p); [by rewrite lookup_delete_eq|by rewrite lookup_insert_eq].
    + rewrite (Ha x). destruct (proj_PostingKeys p); rewrite ?lookup_insert_ne, lookup_delete_ne; done.
  - intros r x. rewrite lookup_insert. unfold postings. destruct (decide (proj_Index p = r)) as [<-|Hne]; cbn.
    + rewrite Ht. destruct (decide (item_id x = doc)) as [E|E].
      * by rewrite decide_True.
      * by rewrite decide_False by naive_solver.
    + by rewrite decide_False by naive_solver.
Qed.
#[local] Hint Resolve new_projectionIndex_inv partition_or_new_inv : syntrix.

(** The replacement that names a document of a partition. *)
Definition replacement_for (ps : list Projection) (r : QueryIndexRef) (doc : string) : option Projection :=
  List.find (fun p => bool_decide (proj_Index p = r) && bool_decide (proj_DocumentID p = doc)) ps.

Lemma apply_projections_spec s ps :
  partitions_inv s -> NoDup (map (fun p => (proj_Index p, proj_DocumentID p)) ps) ->
  partitions_inv (foldl apply_projection s ps) /\
  forall r x, x ∈ postings (foldl apply_projection s ps) r <->
    match replacement_for ps r (item_id x) with
    | Some p => item_key x ∈ proj_PostingKeys p
    | None => x ∈ postings s r
    end.
Proof.
  revert s; induction ps as [|p ps IH]; intros s Hinv Hnd; [done|]. cbn [foldl map] in *.
  apply NoDup_cons in Hnd as [Hp Hnd]. destruct (apply_projection_spec s p Hinv) as [Hi Hx].
  destruct (IH _ Hi Hnd) as [H1 H2]. split; [done|]. intros r x. rewrite H2.
  unfold replacement_for at 2. cbn [List.find]. fold (replacement_for ps r (item_id x)).
  specialize (Hx r x). destruct (decide (r = proj_Index p /\ item_id x = proj_DocumentID p)) as [[-> E]|Hne].
  - rewrite !bool_decide_true by done. cbn [andb].
    destruct (replacement_for ps _ (item_id x)) as [q|] eqn:F; [|exact Hx]. exfalso. apply Hp.
    apply find_some in F as [F1 F2].
    apply andb_true_iff in F2 as [F2%bool_decide_eq_true F3%bool_decide_eq_true].
    apply list_elem_of_In, in_map_iff. exists q. split; [|done]. by rewrite F2, F3, E.
  - rewrite (proj2 (andb_false_iff (bool_decide (proj_Index p = r)) _)); [by destruct (replacement_for ps r (item_id x))|].
    rewrite !bool_decide_eq_false. destruct (decide (proj_Index p = r)) as [<-|]; [right|by left].
    intros E. by apply Hne.
Qed.

Lemma replacement_owned ps qs r doc :
  Forall2 projection_owned ps qs ->
  match replacement_for ps r doc, replacement_for qs r doc with
  | Some p, Some q => forall k, k ∈ proj_PostingKeys q <-> k ∈ proj_PostingKeys p
  | None, None => True
  | _, _ => False
  end.
Proof.
  induction 1 as [|p q ps qs Hpq _ IH]; cbn; [done|].
  destruct Hpq as (E1 & E2 & _ & _ & _ & _ & Hk). rewrite E1, E2. destruct (_ && _); [done|exact IH].
Qed.

(** ** The store as a state machine *)
Inductive store_op :=
| OpUpsert (db pattern tmplID docID : string) (orderKey : bytes) (progress : string)
| OpDelete (db pattern tmplID docID progress : string)
| OpDeleteIndex (db pattern tmplID : string)
| OpDeleteDatabase (db : string)
| OpSetState (db pattern tmplID : string) (st : IndexState)
| OpApply (ps : list Projection) (progress : string)
| OpPublishCatalog (c : BootstrapCatalog)
| OpPublishCatalogs (cs : list BootstrapCatalog) (progress : string)
| OpDeleteQueryIndex (r : QueryIndexRef)
| OpPublishGeneration (r : QueryIndexRef) (progress : string)
| OpSetFailure (r : QueryIndexRef) (failure : string).

(** An operation that returns an error has changed nothing. *)
Definition or_same (s : Store) (r : res store_error Store) : Store :=
  match r with Ok s' => s' | Err _ => s end.

Definition run_store_op (s : Store) (op : store_op) : Store :=
  match op with
  | OpUpsert db p t d k g => store_Upsert s db p t d k g
  | OpDelete db p t d g => store_Delete s db p t d g
  | OpDeleteIndex db p t => store_DeleteIndex s db p t
  | OpDeleteDatabase db => DeleteDatabase s db
  | OpSetState db p t st => store_SetState s db p t st
  | OpApply ps g => or_same s (ApplyDocumentProjection s ps g)
  | OpPublishCatalog c => or_same s (PublishBootstrapCatalog s c)
  | OpPublishCatalogs cs g => or_same s (PublishBootstrapCatalogs s cs g)
  | OpDeleteQueryIndex r => or_same s (DeleteQueryIndex s r)
  | OpPublishGeneration r g => or_same s (PublishGeneration s r g)
  | OpSetFailure r f => or_same s (SetFailure s r f)
  end.

Definition run_store (ops : list store_op) : Store := foldl run_store_op New ops.

Definition same_projections (s s' : Store) : Prop :=
  st_partitions s' = st_partitions s /\ st_retired s' = st_retired s.

Lemma on_created_index_same s db p t f : same_projections s (on_created_index s db p t f).
Proof.
  unfold on_created_index, getOrCreateDB. destruct (st_databases s !! db); cbn; by destruct (db_GetOrCreateIndex _ _ _ _).
Qed.

Lemma store_Upsert_same s db p t d k g : same_projections s (store_Upsert s db p t d k g).
Proof. exact (on_created_index_same s db p t _). Qed.
Lemma store_SetState_same s db p t st : same_projections s (store_SetState s db p t st).
Proof. exact (on_created_index_same s db p t _). Qed.

Lemma store_Delete_same s db p t d g : same_projections s (store_Delete s db p t d g).
Proof.
  unfold store_Delete. destruct (st_databases s !! db); [|done]. by destruct (db_GetIndex _ _ _).
Qed.

Lemma insert_partition_inv s m r :
  partitions_inv s -> m = <[r := partition_or_new s r]> (st_partitions s) ->
  forall r' idx, m !! r' = Some idx -> pi_inv idx.
Proof.
  intros Hinv -> r' idx. rewrite lookup_insert. case_decide; [|apply Hinv].
  intros [= <-]. auto with syntrix.
Qed.

Lemma run_store_op_inv s op : partitions_inv s -> partitions_inv (run_store_op s op).
Proof.
  intros Hinv. unfold partitions_inv. destruct op; cbn [run_store_op].
  - rewrite (proj1 (store_Upsert_same s _ _ _ _ _ _)). done.
  - rewrite (proj1 (store_Delete_same s _ _ _ _ _)). done.
  - unfold store_DeleteIndex. destruct (st_databases s !! db); apply Hinv.
  - intros r idx. cbn. intros [H _]%map_lookup_filter_Some. by eapply Hinv.
  - rewrite (proj1 (store_SetState_same s _ _ _ _)). done.
  - unfold ApplyDocumentProjection. destruct (OwnProjections ps) as [qs|] eqn:E; cbn; [|done].
    apply own_projections_spec in E as (_ & Hnd & _). by apply (apply_projections_spec s qs).
  - unfold PublishBootstrapCatalog. destruct (OwnBootstrapCatalog c); cbn; [|done].
    by destruct (st_inventoryPublished s).
  - unfold PublishBootstrapCatalogs. by destruct (OwnBootstrapCatalogs cs progress).
  - unfold DeleteQueryIndex. destruct (incomplete_ref r); [done|]. cbn [or_same].
    intros r' idx H. apply (Hinv r' idx). revert H. cbn.
    repeat case_match; cbn; rewrite lookup_delete; by case_decide.
  - unfold PublishGeneration. destruct (incomplete_ref r); [done|]. destruct (catalog_covers s r false); [done|].
    by apply (insert_partition_inv s _ r).
  - unfold SetFailure. destruct (_ || _); [done|]. destruct (catalog_covers s r false); [done|].
    by apply (insert_partition_inv s _ r).
Qed.

Lemma run_store_ops_inv s ops : partitions_inv s -> partitions_inv (foldl run_store_op s ops).
Proof. revert s; induction ops; intros; cbn; auto using run_store_op_inv. Qed.

Lemma run_store_inv ops : partitions_inv (run_store ops).
Proof. apply run_store_ops_inv. intros r idx. cbn. by rewrite lookup_empty. Qed.

Lemma postings_sorted s r : partitions_inv s -> items_sorted (postings s r).
Proof. intros H. unfold postings. by apply pi_sorted, partition_or_new_inv. Qed.

(** The databases a successful publication of the whole inventory names. *)
Definition revives (op : store_op) (db : string) : bool :=
  match op with
  | OpPublishCatalogs cs progress =>
      is_ok (OwnBootstrapCatalogs cs progress) && existsb (fun c => String.eqb (cat_Database c) db) cs
  | _ => false
  end.

Lemma owned_databases g p dbs h cs r :
  own_catalogs g p dbs h cs = Ok r -> map cat_Database r.1 = map cat_Database cs.
Proof.
  revert dbs h r; induction cs as [|c cs IH]; intros dbs h r; cbn [own_catalogs]; [by intros [= <-]|].
  intros H. apply bind_ok in H as (o & Ho & H). destruct (_ || _); [done|]. case_bool_decide; [done|].
  apply bind_ok in H as (r' & Hr & [= <-]). cbn. rewrite (IH _ _ _ Hr). f_equal.
  unfold OwnBootstrapCatalog in Ho. destruct (_ || _); [done|]. destruct (existsb _ _); [done|]. by injection Ho as <-.
Qed.

Lemma OwnBootstrapCatalogs_databases cs p owned :
  OwnBootstrapCatalogs cs p = Ok owned -> map cat_Database owned = map cat_Database cs.
Proof.
  unfold OwnBootstrapCatalogs. destruct cs as [|c cs]; [done|]. intros H. apply bind_ok in H as (r & Hr & H).
  destruct (negb r.2); [done|]. injection H as <-. by eapply owned_databases.
Qed.

Lemma dom_insert_catalogs (m : gmap string BootstrapCatalog) cs db :
  db ∈ dom (foldl (fun m c => <[cat_Database c := c]> m) m cs) -> db ∈ dom m \/ db ∈ map cat_Database cs.
Proof.
  revert m; induction cs as [|c cs IH]; intros m; cbn; [by left|].
  intros H. apply IH in H as [H|H]; rewrite elem_of_cons; [|by right; right].
  rewrite dom_insert in H. set_solver.
Qed.

Lemma run_store_op_retired s op db :
  revives op db = false -> db ∈ st_retired s -> db ∈ st_retired (run_store_op s op).
Proof.
  intros Hr Hd. destruct op; cbn [run_store_op].
  - by rewrite (proj2 (store_Upsert_same s _ _ _ _ _ _)).
  - by rewrite (proj2 (store_Delete_same s _ _ _ _ _)).
  - unfold store_DeleteIndex. by destruct (st_databases s !! db0).
  - cbn. set_solver.
  - by rewrite (proj2 (store_SetState_same s _ _ _ _)).
  - unfold ApplyDocumentProjection. destruct (OwnProjections ps) as [qs|]; cbn; [|done].
    clear Hr. revert s Hd; induction qs as [|q qs IH]; intros s Hd; cbn; [done|]. by apply IH.
  - unfold PublishBootstrapCatalog. destruct (OwnBootstrapCatalog c); cbn; [|done].
    by destruct (st_inventoryPublished s).
  - unfold PublishBootstrapCatalogs. cbn in Hr. destruct (OwnBootstrapCatalogs cs progress) as [o|] eqn:E; cbn; [|done].
    apply elem_of_difference. split; [done|]. intros H%dom_insert_catalogs. destruct H as [H|H]; [set_solver|].
    rewrite (OwnBootstrapCatalogs_databases _ _ _ E) in H. cbn in Hr.
    apply list_elem_of_In, in_map_iff in H as (c & Hc & Hin). apply not_true_iff_false in Hr. apply Hr.
    apply existsb_exists. exists c. split; [done|]. by apply String.eqb_eq.
  - unfold DeleteQueryIndex. destruct (incomplete_ref r); [done|]. cbn [or_same].
    repeat case_match; done.
  - unfold PublishGeneration. destruct (incomplete_ref r); [done|]. by destruct (catalog_covers s r false).
  - unfold SetFailure. destruct (_ || _); [done|]. by destruct (catalog_covers s r false).
Qed.

Lemma run_store_ops_retired s ops db :
  Forall (fun op => revives op db = false) ops -> db ∈ st_retired s -> db ∈ st_retired (foldl run_store_op s ops).
Proof. intros Hf; revert s; induction Hf; intros; cbn; auto using run_store_op_retired. Qed.

(** C6: replacement of document projections. On any store reached by its
    operations, a successful ApplyDocumentProjection makes the postings of each
    replaced document in each named partition exactly the posting keys given
    for it, and leaves every other posting of every partition unchanged; each
    partition stays a sorted tree that agrees with its per-document map. *)
Theorem ApplyDocumentProjection_replaces ops ps progress s' :
  ApplyDocumentProjection (run_store ops) ps progress = Ok s' ->
  partitions_inv s' /\
  forall r x, x ∈ postings s' r <->
    match replacement_for ps r (item_id x) with
    | Some p => item_key x ∈ proj_PostingKeys p
    | None => x ∈ postings (run_store ops) r
    end.
Proof.
  unfold ApplyDocumentProjection. intros H. apply bind_ok in H as (qs & Hq & [= <-]).
  apply own_projections_spec in Hq as (Hown & Hnd & _).
  destruct (apply_projections_spec (run_store ops) qs (run_store_inv ops) Hnd) as [H1 H2]. split; [exact H1|].
  intros r x. specialize (H2 r x). pose proof (replacement_owned ps qs r (item_id x) Hown) as Ho.
  change (postings (note_progress _ progress) r) with (postings (foldl apply_projection (run_store ops) qs) r).
  rewrite H2. destruct (replacement_for ps r (item_id x)), (replacement_for qs r (item_id x)); naive_solver.
Qed.

(** C5: a read view's iterator, read to its end with a live context, returns
    exactly the postings of the partition inside the window (at or after the
    lower bound, strictly after the cursor, strictly before the upper bound) in
    order, cut to the limit, as long as the work budget covers them and the
    postings at the cursor's own key; otherwise it returns the longest prefix
    the budget pays for and then ErrWorkLimit. Reading takes one call per
    document and one more. *)
Theorem projection_scan_exact ops ctx r budget v opts it fuel :
  ReadView ctx (run_store ops) r budget = Ok v -> Scan ctx v opts = Ok it ->
  (length (capped it (window v opts)) < fuel)%nat ->
  let docs := map to_docref (capped it (window v opts)) in
  let skips := length (at_cursor v opts) in
  let cost := (skips + length docs)%nat in
  drain fuel v it =
  if decide (Z.of_nat cost <= view_maxExamined v)
  then (docs, Drained, view_at v (Z.of_nat cost))
  else (take (Z.to_nat (view_maxExamined v) - skips) docs, DrainFailed ErrWorkLimit,
        view_at v (view_maxExamined v + 1)).
Proof.
  intros Hv Hit. cbv zeta.
  assert (items_sorted (tree_items (view_tree v)) /\ view_closed v = false /\ view_examined v = 0
          /\ 0 <= view_maxExamined v) as (Hs & Hc & He & Hm).
  { unfold ReadView in Hv. apply bind_ok in Hv as (b & Hb & Hv). destruct (ctx 0%nat); [done|]. injection Hv as <-. cbn.
    split_and!; [|done|done|].
    - pose proof (postings_sorted _ r (run_store_inv ops)) as Hp. unfold postings, partition_or_new in Hp.
      destruct (st_partitions (run_store ops) !! r); [exact Hp|]. rewrite tree_new_items. constructor.
    - unfold NormalizeReadBudget in Hb. destruct (_ || _) eqn:E; [done|]. injection Hb as <-. cbn.
      apply orb_false_iff in E as [_ E%Z.ltb_ge]. destruct (MaxExamined budget =? 0); lia. }
  assert (it = fresh opts) as -> by (unfold Scan in Hit; destruct (ctx 0%nat); [done|]; rewrite Hc in Hit; by injection Hit as <-).
  destruct (pending_fresh v opts Hs) as (Hp & Hsk & Hw). intros Hf.
  rewrite (drain_pending fuel v (fresh opts) (at_cursor v opts) (window v opts)); try done; [|lia|].
  2: { right. unfold at_limit; cbn. destruct (Z.ltb_spec 0 (opt_Limit opts)); [|done]. cbn. apply Z.leb_gt. lia. }
  rewrite length_map, take_map, He, Z.sub_0_r, Z.add_0_l.
  destruct (decide _), (decide _); try lia; done.
Qed.

(** A deleted database is not readable again until an inventory publication
    names it. After DeleteDatabase, whatever operations follow (late
    projections, generation publications, failures, single catalogs) short of a
    successful PublishBootstrapCatalogs that lists the database, it stays
    retired and ReadGeneration finds no generation of it. *)
Theorem DeleteDatabase_retires before after db collection fingerprint :
  Forall (fun op => revives op db = false) after ->
  let s := run_store (before ++ OpDeleteDatabase db :: after) in
  IsDatabaseRetired s db = true /\ ReadGeneration s db collection fingerprint = None.
Proof.
  intros Ha. cbv zeta. unfold run_store. rewrite foldl_app. cbn [foldl run_store_op].
  assert (db ∈ st_retired (foldl run_store_op (DeleteDatabase (foldl run_store_op New before) db) after)) as H.
  { apply run_store_ops_retired; [done|]. cbn. set_solver. }
  unfold IsDatabaseRetired, ReadGeneration. by rewrite bool_decide_true.
Qed.

Lemma read_at_ref s r g :
  ReadGeneration s (ref_Database r) (ref_Collection r) (ref_TemplateFingerprint r) = Some g ->
  gen_ID g = ref_Generation r ->
  match catalog_covers s r true with
  | Some c => match st_generations s !! generationIdentity r with
              | Some l => gen_ID l = ref_Generation r -> gen_Failure l <> "" ->
                          gen_Ready g = false /\ gen_Failure g = gen_Failure l
              | None => True
              end
  | None => st_generations s !! generationIdentity r = Some g
  end.
Proof.
  unfold ReadGeneration, catalog_covers, generationIdentity. destruct (bool_decide (_ ∈ st_retired s)); [done|].
  destruct (st_catalogs s !! ref_Database r) as [c|]; [|by destruct (st_inventoryPublished s)].
  cbn [ResolveGeneration]. case_bool_decide as Hf; cbn [negb]; [|done]. intros [= <-]; cbn. intros ->.
  rewrite String.eqb_refl. cbn.
  destruct (st_generations s !! _) as [l|]; [|done]. intros ->. rewrite String.eqb_refl. cbn.
  intros Hne. apply String.eqb_neq in Hne. by rewrite Hne.
Qed.

(** Withdrawal of a generation. After SetFailure or DeleteQueryIndex succeeds
    on a generation, ReadGeneration never reports that generation as ready: what
    it may still report under that identity carries the failure ("index
    partition deleted" for a deletion). *)
Theorem generation_withdrawn s r failure s' g :
  (SetFailure s r failure = Ok s' \/ DeleteQueryIndex s r = Ok s' /\ failure = "index partition deleted") ->
  ReadGeneration s' (ref_Database r) (ref_Collection r) (ref_TemplateFingerprint r) = Some g ->
  gen_ID g = ref_Generation r ->
  gen_Ready g = false /\ gen_Failure g = failure.
Proof.
  intros Hs' Hr Hid. pose proof (read_at_ref s' r g Hr Hid) as Hat. destruct Hs' as [H|[H ->]].
  - unfold SetFailure in H. destruct (incomplete_ref r); [done|]. cbn [orb] in H.
    destruct (String.eqb_spec failure "") as [|Hne]; [done|].
    destruct (catalog_covers s r false) eqn:Ec; injection H as <-.
    + unfold catalog_covers in Ec, Hat. unfold ReadGeneration in Hr.
      destruct (bool_decide (ref_Database r ∈ st_retired s)); [done|].
      destruct (st_catalogs s !! ref_Database r) as [c|]; [|done]. cbn in Hr.
      destruct (String.eqb_spec (cat_Generation c) (ref_Generation r)); cbn in *; [done|].
      case_bool_decide; cbn in *; [|done]. by injection Hr as <-.
    + change (catalog_covers _ r true) with (catalog_covers s r true) in Hat. cbn in Hat.
      rewrite lookup_insert_eq in Hat. destruct (catalog_covers s r true); [|by injection Hat as <-].
      apply Hat; [|done]. cbn. by destruct (String.eqb_spec (gen_ID (default no_generation (st_generations s !! generationIdentity r))) (ref_Generation r)).
  - unfold DeleteQueryIndex in H. destruct (incomplete_ref r); [done|]. injection H as <-. revert Hat.
    set (s1 := if String.eqb _ _ then _ else _). 
    assert (catalog_covers s1 r true = catalog_covers s r true) as -> by (subst s1; by destruct (String.eqb _ _)).
    destruct (catalog_covers s r true) as [c|] eqn:Ec.
    + change (catalog_covers (set_generations _ _) r true) with (catalog_covers s1 r true).
      assert (catalog_covers s1 r true = Some c) as -> by (subst s1; by destruct (String.eqb _ _)).
      cbn. rewrite lookup_insert_eq. intros H. by apply H.
    + assert (catalog_covers s1 r true = None) as -> by (subst s1; by destruct (String.eqb _ _)).
      subst s1. cbn. destruct (String.eqb_spec (gen_ID (default no_generation (st_generations s !! generationIdentity r))) (ref_Generation r)) as [|Hne]; cbn.
      * by rewrite lookup_delete_eq.
      * intros Hg. rewrite Hg in Hne. done.
Qed.
End MemStore.

(** ** Witnesses, on the list-backed tree *)
Definition demo_ref : QueryIndexRef := IndexRef "db" "users" "fp" "g1".
Definition demo_projection (doc : string) (keys : list bytes) : Projection :=
  {| proj_Index := demo_ref; proj_DocumentID := doc; proj_PostingKeys := keys |}.
Definition demo_ops : list store_op :=
  [OpApply [demo_projection "a" [[1]; [4]]; demo_projection "b" [[2]; [2]]] "p1";
   OpPublishGeneration demo_ref "p2"].

Lemma ApplyDocumentProjection_replaces_witness :
  match ApplyDocumentProjection (run_store (BT:=list_btree) demo_ops) [demo_projection "a" [[3]]] "p3" with
  | Ok s' => BtreeItem [3] "a" ∈ postings s' demo_ref
  | Err _ => False
  end.
Proof.
  assert (is_ok (ApplyDocumentProjection (run_store (BT:=list_btree) demo_ops) [demo_projection "a" [[3]]] "p3") = true)
    as Hok by (vm_compute; reflexivity).
  destruct (ApplyDocumentProjection _ _ _) as [s'|] eqn:E; [|discriminate Hok].
  apply (proj2 (ApplyDocumentProjection_replaces (BT:=list_btree) _ _ _ _ E)). cbn. by left.
Defined.

Definition demo_opts : SearchOptions :=
  {| opt_Lower := [1]; opt_Upper := Some [4]; opt_StartAfter := Some [1]; opt_Limit := 0 |}.
Definition demo_budget : ReadBudget := {| MaxOverlayReplacements := 0; MaxOverlayBytes := 0; MaxExamined := 2 |}.
Definition demo_view : projectionView (BT:=list_btree) :=
  {| view_tree := ([BtreeItem [1] "a"; BtreeItem [2] "b"; BtreeItem [4] "a"] : @tree list_btree);
     view_closed := false; view_maxExamined := 2; view_examined := 0 |}.

Lemma projection_scan_exact_witness :
  ReadView (BT:=list_btree) Background (run_store demo_ops) demo_ref demo_budget = Ok demo_view /\
  Scan Background demo_view demo_opts = Ok (fresh demo_opts) /\
  (drain 5 demo_view (fresh demo_opts)).1 = ([{| docref_ID := "b"; docref_OrderKey := [2] |}], Drained).
Proof.
  assert (ReadView (BT:=list_btree) Background (run_store demo_ops) demo_ref demo_budget = Ok demo_view) as H
    by (vm_compute; reflexivity).
  split; [exact H|]. split; [reflexivity|].
  rewrite (projection_scan_exact (BT:=list_btree) demo_ops Background demo_ref demo_budget demo_view demo_opts
    (fresh demo_opts) 5 H eq_refl); vm_compute; [reflexivity|lia].
Defined.

Lemma DeleteDatabase_retires_witness :
  ReadGeneration (run_store (BT:=list_btree) (demo_ops ++ OpDeleteDatabase "db" :: demo_ops)) "db" "users" "fp" = None.
Proof. apply (DeleteDatabase_retires (BT:=list_btree)). repeat constructor. Defined.

Lemma generation_withdrawn_witness :
  match SetFailure (run_store (BT:=list_btree) demo_ops) demo_ref "corrupt" with
  | Ok s' => match ReadGeneration s' "db" "users" "fp" with
             | Some g => gen_Ready g = false /\ gen_Failure g = "corrupt"
             | None => False
             end
  | Err _ => False
  end.
Proof.
  assert (match SetFailure (run_store (BT:=list_btree) demo_ops) demo_ref "corrupt" with
          | Ok s' => match ReadGeneration s' "db" "users" "fp" with
                     | Some g => String.eqb (gen_ID g) "g1" | None => false end
          | Err _ => false end = true) as Hok by (vm_compute; reflexivity).
  destruct (SetFailure _ _ _) as [s'|] eqn:E; [|discriminate Hok].
  destruct (ReadGeneration s' "db" "users" "fp") as [g|] eqn:Eg; [|discriminate Hok].
  apply String.eqb_eq in Hok.
  exact (generation_withdrawn (BT:=list_btree) _ demo_ref "corrupt" s' g (or_introl E) Eg Hok).
Defined.
