(* ===== verification/Codec.v ===== *)
(** * Standard-library codecs the indexer's fingerprints are made of

    [crypto/sha256], [encoding/hex], [encoding/base64] and the strings of
    [encoding/json], over byte lists. *)
From stdpp Require Import base list strings.
From Stdlib Require Import ZArith.
From S2P Require Import Prelude.
Local Open Scope Z_scope.

(** ** SHA-256 (FIPS 180-4) *)
Module Sha256.
Definition add32 (a b : Z) : Z := u32 (a + b).
Definition rotr (x n : Z) : Z := Z.lor (Z.shiftr x n) (u32 (Z.shiftl x (32 - n))).
Definition not32 (x : Z) : Z := Z.lxor x 0xffffffff.
Definition Ch (x y z : Z) : Z := Z.lxor (Z.land x y) (Z.land (not32 x) z).
Definition Maj (x y z : Z) : Z := Z.lxor (Z.lxor (Z.land x y) (Z.land x z)) (Z.land y z).
Definition big0 (x : Z) : Z := Z.lxor (Z.lxor (rotr x 2) (rotr x 13)) (rotr x 22).
Definition big1 (x : Z) : Z := Z.lxor (Z.lxor (rotr x 6) (rotr x 11)) (rotr x 25).
Definition small0 (x : Z) : Z := Z.lxor (Z.lxor (rotr x 7) (rotr x 18)) (Z.shiftr x 3).
Definition small1 (x : Z) : Z := Z.lxor (Z.lxor (rotr x 17) (rotr x 19)) (Z.shiftr x 10).

(** The constants are the first 32 bits of the fractional parts of the square
    roots (initial state) and cube roots (round constants) of the first primes. *)
Definition is_prime (n : Z) : bool :=
  forallb (fun d => negb (n mod Z.of_nat d =? 0)) (seq 2 (Z.to_nat (Z.sqrt n) - 1)).
Definition primes (n : nat) : list Z :=
  take n (List.filter is_prime (map Z.of_nat (seq 2 400))).
(** The integer cube root, bit by bit. *)
Fixpoint cbrt_from (bits : nat) (x n : Z) : Z :=
  match bits with
  | O => x
  | S bits =>
      let y := x + 2 ^ Z.of_nat bits in
      cbrt_from bits (if y * y * y <=? n then y else x) n
  end.

Definition K : list Z := Eval vm_compute in map (fun p => u32 (cbrt_from 36 0 (p * 2 ^ 96))) (primes 64).
Definition H0 : list Z := Eval vm_compute in map (fun p => u32 (Z.sqrt (p * 2 ^ 64))) (primes 8).

Fixpoint be_value (acc : Z) (l : bytes) : Z :=
  match l with [] => acc | b :: l => be_value (acc * 256 + b) l end.

Fixpoint words (n : nat) (l : bytes) : list Z :=
  match n with O => [] | S n => be_value 0 (take 4 l) :: words n (drop 4 l) end.

(** The message schedule, kept newest first. *)
Fixpoint schedule (n : nat) (w : list Z) : list Z :=
  match n with
  | O => w
  | S n =>
      let at_ i := nth i w 0 in
      schedule n (u32 (small1 (at_ 1%nat) + at_ 6%nat + small0 (at_ 14%nat) + at_ 15%nat) :: w)
  end.

Definition round (s : list Z) (kw : Z * Z) : list Z :=
  match s with
  | [a; b; c; d; e; f; g; h] =>
      let t1 := u32 (h + big1 e + Ch e f g + kw.1 + kw.2) in
      let t2 := u32 (big0 a + Maj a b c) in
      [u32 (t1 + t2); a; b; c; add32 d t1; e; f; g]
  | _ => s
  end.

Definition compress (h : list Z) (block : bytes) : list Z :=
  let w := rev (schedule 48 (rev (words 16 block))) in
  zip_with add32 h (foldl round h (zip K w)).

Fixpoint blocks (n : nat) (h : list Z) (l : bytes) : list Z :=
  match n with O => h | S n => blocks n (compress h (take 64 l)) (drop 64 l) end.

Definition pad (m : bytes) : bytes :=
  let n := Z.of_nat (length m) in
  m ++ 0x80 :: repeat 0 (Z.to_nat ((55 - n) mod 64)) ++ be_bytes 8 (8 * n).

Definition Sum256 (m : bytes) : bytes :=
  let p := pad m in
  flat_map (be_bytes 4) (blocks (length p / 64) H0 p).
End Sha256.

(** ** hex *)
Definition hex_char (d : Z) : Z := if d <? 10 then 48 + d else 87 + d.
Definition hex_encode (l : bytes) : bytes := flat_map (fun b => [hex_char (b / 16); hex_char (b mod 16)]) l.

Example sha256_abc :
  string_of_bytes (hex_encode (Sha256.Sum256 (bytes_of_string "abc")))
  = "ba7816bf8f01cfea414140de5dae2223b00361a396177a9cb410ff61f20015ad".
Proof. vm_compute. reflexivity. Qed.

(** ** base64 (standard alphabet, padded) *)
Definition b64_char (d : Z) : Z :=
  if d <? 26 then 65 + d else if d <? 52 then 71 + d else if d <? 62 then d - 4
  else if d =? 62 then 43 else 47.

Fixpoint b64_encode (l : bytes) : bytes :=
  match l with
  | a :: b :: c :: l =>
      b64_char (a / 4) :: b64_char ((a mod 4) * 16 + b / 16)
      :: b64_char ((b mod 16) * 4 + c / 64) :: b64_char (c mod 64) :: b64_encode l
  | [a; b] => [b64_char (a / 4); b64_char ((a mod 4) * 16 + b / 16); b64_char ((b mod 16) * 4); 61]
  | [a] => [b64_char (a / 4); b64_char ((a mod 4) * 16); 61; 61]
  | [] => []
  end.

(** ** JSON strings as [json.Marshal] writes them

    Control characters, quotes, backslashes and the HTML characters are escaped,
    U+2028 and U+2029 too; an invalid UTF-8 byte becomes [\ufffd]. *)
Definition json_ascii (b : Z) : bytes :=
  if b =? 34 then [92; 34]
  else if b =? 92 then [92; 92]
  else if b =? 8 then [92; 98]
  else if b =? 9 then [92; 116]
  else if b =? 10 then [92; 110]
  else if b =? 12 then [92; 102]
  else if b =? 13 then [92; 114]
  else if (b <? 32) || (b =? 60) || (b =? 62) || (b =? 38)
  then [92; 117; 48; 48; hex_char (b / 16); hex_char (b mod 16)]
  else [b].

(** The length of the valid multi-byte sequence at the head, if any. *)
Definition utf8_head (l : bytes) : option nat :=
  if utf8_valid (take 2 l) && (length (take 2 l) =? 2)%nat then Some 2%nat
  else if utf8_valid (take 3 l) && (length (take 3 l) =? 3)%nat then Some 3%nat
  else if utf8_valid (take 4 l) && (length (take 4 l) =? 4)%nat then Some 4%nat
  else None.

Definition json_rune (r : bytes) : bytes :=
  if bool_decide (r = [0xE2; 0x80; 0xA8]) then bytes_of_string "\u2028"
  else if bool_decide (r = [0xE2; 0x80; 0xA9]) then bytes_of_string "\u2029"
  else r.

Fixpoint json_chars (fuel : nat) (l : bytes) : bytes :=
  match fuel, l with
  | S fuel, b :: l' =>
      if b <? 0x80 then json_ascii b ++ json_chars fuel l'
      else match utf8_head l with
      | Some n => json_rune (take n l) ++ json_chars fuel (drop n l)
      | None => bytes_of_string "\ufffd" ++ json_chars fuel l'
      end
  | _, _ => []
  end.

Definition json_string (s : string) : bytes :=
  let l := bytes_of_string s in 34 :: json_chars (length l) l ++ [34].

Definition json_bool (b : bool) : bytes := bytes_of_string (if b then "true" else "false").

(** An object from its members' names and encoded values. *)
Fixpoint json_members (ms : list (string * bytes)) : bytes :=
  match ms with
  | [] => []
  | [m] => json_string m.1 ++ 58 :: m.2
  | m :: ms => json_string m.1 ++ 58 :: m.2 ++ 44 :: json_members ms
  end.
Definition json_object (ms : list (string * bytes)) : bytes := 123 :: json_members ms ++ [125].

Fixpoint json_elements (l : list bytes) : bytes :=
  match l with
  | [] => []
  | [e] => e
  | e :: l => e ++ 44 :: json_elements l
  end.
(** A slice; a nil one is [null]. *)
Definition json_slice (l : list bytes) : bytes :=
  match l with [] => bytes_of_string "null" | _ => 91 :: json_elements l ++ [93] end.

(** A [[]byte]: base64 in quotes; a nil one is [null]. *)
Definition json_bytes (b : option bytes) : bytes :=
  match b with None => bytes_of_string "null" | Some l => 34 :: b64_encode l ++ [34] end.

(** A small non-negative integer in decimal. *)
Fixpoint decimal (fuel : nat) (n : Z) (acc : bytes) : bytes :=
  match fuel with
  | O => acc
  | S fuel => let acc := 48 + n mod 10 :: acc in if n <? 10 then acc else decimal fuel (n / 10) acc
  end.
Definition json_int (n : Z) : bytes :=
  if n <? 0 then 45 :: decimal 20 (- n) [] else decimal 20 n [].

Example json_string_escapes :
  string_of_bytes (json_string (string_of_bytes [97; 60; 9; 0xE2; 0x82; 0xAC]))
  = string_of_bytes (34 :: bytes_of_string "a\u003c\t" ++ [0xE2; 0x82; 0xAC; 34]).
Proof. vm_compute. reflexivity. Qed.
