(* ===== verification/Template.v ===== *)
(** * Index templates: internal/indexer/template/template.go

    Validation of template definitions, pattern matching of collection paths and
    the priority order of matches. Reading YAML files from a directory is not
    modelled; what is done with the parsed configurations is. *)
From stdpp Require Import base list sorting gmap strings.
From Stdlib Require Import ZArith Ascii.
From S2P Require Import Prelude Value OrderKey Filter Codec.
Local Open Scope Z_scope.

(** ** strings.Split and strings.Join on one separator character *)
Fixpoint split (sep : ascii) (s : string) : list string :=
  match s with
  | String.EmptyString => [""]
  | String.String c s =>
      if Ascii.eqb c sep then "" :: split sep s
      else match split sep s with
           | seg :: segs => String.String c seg :: segs
           | [] => [String.String c ""]
           end
  end.

Fixpoint join (sep : string) (l : list string) : string :=
  match l with
  | [] => ""
  | [x] => x
  | x :: l => String.append x (String.append sep (join sep l))
  end.

Definition slash : ascii := "/"%char.

(** ** Data *)
Inductive Mode := ModeUnset | Scalar | Membership | OtherMode (s : string).
Inductive Order := OrderAsc | OrderDesc | OrderUnset | OtherOrder (s : string).
#[export] Instance Mode_eq_dec : EqDecision Mode. Proof. solve_decision. Defined.
#[export] Instance Order_eq_dec : EqDecision Order. Proof. solve_decision. Defined.

Definition Order_string (o : Order) : string :=
  match o with OrderAsc => "asc" | OrderDesc => "desc" | OrderUnset => "" | OtherOrder s => s end.
Definition Mode_string (m : Mode) : string :=
  match m with ModeUnset => "" | Scalar => "scalar" | Membership => "membership" | OtherMode s => s end.

Record tfield := TField { tf_Field : string; tf_Order : Order; tf_Mode : Mode }.
#[export] Instance tfield_eq_dec : EqDecision tfield. Proof. solve_decision. Defined.

Record Template := {
  tmpl_Name : string; tmpl_CollectionPattern : string;
  tmpl_Fields : list tfield; tmpl_IncludeDeleted : bool;
}.

Definition field_signature (f : tfield) : string :=
  match tf_Mode f with
  | Membership => String.append (tf_Field f) ":membership"
  | _ => String.append (tf_Field f) (String.append ":" (Order_string (tf_Order f)))
  end.

Definition Identity (t : Template) : string :=
  if String.eqb (tmpl_Name t) "" then join "," (map field_signature (tmpl_Fields t)) else tmpl_Name t.

(** [^\{[^}]+\}$]. *)
Fixpoint var_tail (nonempty : bool) (s : string) : bool :=
  match s with
  | String.EmptyString => false
  | String.String c rest =>
      if Ascii.eqb c "}"%char then nonempty && String.eqb rest "" else var_tail true rest
  end.
Definition varPattern (s : string) : bool :=
  match s with
  | String.String c rest => Ascii.eqb c "{"%char && var_tail false rest
  | String.EmptyString => false
  end.

Definition normalize_segment (seg : string) : string := if varPattern seg then "*" else seg.

Definition NormalizePattern (pattern : string) : string :=
  join "/" (map normalize_segment (split slash pattern)).

Definition NormalizedPattern (t : Template) : string := NormalizePattern (tmpl_CollectionPattern t).

(** The fields as the fingerprint sees them: the default mode and the order of
    membership fields written out. *)
Definition canonical_field (f : tfield) : tfield :=
  let mode := match tf_Mode f with ModeUnset => Scalar | m => m end in
  TField (tf_Field f) (match mode with Membership => OrderAsc | _ => tf_Order f end) mode.

Definition fingerprint_payload (t : Template) : bytes :=
  json_object
    [("Pattern", json_string (NormalizedPattern t));
     ("Fields", json_slice (map (fun f => json_object
        [("Field", json_string (tf_Field f)); ("Order", json_string (Order_string (tf_Order f)));
         ("Mode", json_string (Mode_string (tf_Mode f)))]) (map canonical_field (tmpl_Fields t))));
     ("IncludeDeleted", json_bool (tmpl_IncludeDeleted t));
     ("Codec", json_int Version)].

Definition Fingerprint (t : Template) : string :=
  string_of_bytes (hex_encode (Sha256.Sum256 (fingerprint_payload t))).

(** ** Validation *)
Inductive template_error :=
| ErrEmptyPattern
| ErrEmptySegment
| ErrNoFields
| ErrFieldName (f : string)
| ErrInvalidDirection (f : string)
| ErrManyMemberships
| ErrMembershipOrder (f : string)
| ErrMembershipMetadata (f : string)
| ErrInvalidMode (f : string)
| ErrDuplicateField (f : string)
| ErrDuplicateTemplate
| ErrDuplicateSemantics
| ErrEmptyDatabase
| ErrLoad.

Definition metadata_fields : list string := ["id"; "collection"; "version"; "createdAt"; "updatedAt"; "deleted"].

Fixpoint validate_fields (seen : gset string) (memberships : nat) (fs : list tfield) : res template_error unit :=
  match fs with
  | [] => Ok tt
  | f :: fs =>
      _ ← map_err (fun _ => ErrFieldName (tf_Field f)) (ValidateQueryField (tf_Field f));
      memberships ← match tf_Mode f with
        | ModeUnset | Scalar =>
            match tf_Order f with
            | OrderAsc | OrderDesc => Ok memberships
            | _ => Err (ErrInvalidDirection (tf_Field f))
            end
        | Membership =>
            if (1 <? S memberships)%nat then Err ErrManyMemberships
            else match tf_Order f with
            | OrderUnset | OrderAsc =>
                if bool_decide (tf_Field f ∈ metadata_fields) then Err (ErrMembershipMetadata (tf_Field f))
                else Ok (S memberships)
            | _ => Err (ErrMembershipOrder (tf_Field f))
            end
        | OtherMode _ => Err (ErrInvalidMode (tf_Field f))
        end;
      if bool_decide (tf_Field f ∈ seen) then Err (ErrDuplicateField (tf_Field f))
      else validate_fields ({[tf_Field f]} ∪ seen) memberships fs
  end.

Definition ValidateTemplate (t : Template) : res template_error unit :=
  if String.eqb (tmpl_CollectionPattern t) "" then Err ErrEmptyPattern
  else if existsb (fun seg => String.eqb seg "") (split slash (tmpl_CollectionPattern t)) then Err ErrEmptySegment
  else match tmpl_Fields t with
  | [] => Err ErrNoFields
  | fs => validate_fields ∅ 0 fs
  end.

Definition template_key (t : Template) : string :=
  String.append (NormalizedPattern t) (String.append "|" (Identity t)).

Fixpoint validate_unique (seen fingerprints : gset string) (ts : list Template) : res template_error unit :=
  match ts with
  | [] => Ok tt
  | t :: ts =>
      if bool_decide (template_key t ∈ seen) then Err ErrDuplicateTemplate
      else if bool_decide (Fingerprint t ∈ fingerprints) then Err ErrDuplicateSemantics
      else validate_unique ({[template_key t]} ∪ seen) ({[Fingerprint t]} ∪ fingerprints) ts
  end.

Definition ValidateTemplates (ts : list Template) : res template_error unit := validate_unique ∅ ∅ ts.

(** LoadFromBytes after the YAML parse. *)
Fixpoint validate_each (ts : list Template) : res template_error unit :=
  match ts with [] => Ok tt | t :: ts => _ ← ValidateTemplate t; validate_each ts end.
Definition LoadFromBytes (parsed : option (list Template)) : res template_error (list Template) :=
  match parsed with
  | None => Err ErrLoad
  | Some ts => _ ← validate_each ts; _ ← ValidateTemplates ts; Ok ts
  end.

(** LoadFromDir after the files are read: one (database, templates) per file. *)
Fixpoint load_templates (db : string) (seen : gset string) (ts : list Template) : res template_error (gset string) :=
  match ts with
  | [] => Ok seen
  | t :: ts =>
      _ ← ValidateTemplate t;
      let key := String.append db (String.append "|" (Identity t)) in
      if bool_decide (key ∈ seen) then Err ErrDuplicateTemplate
      else load_templates db ({[key]} ∪ seen) ts
  end.

Fixpoint load_files (result : gmap string (list Template)) (seen : gset string)
    (files : list (option (string * list Template))) : res template_error (gmap string (list Template)) :=
  match files with
  | [] => Ok result
  | None :: _ => Err ErrLoad
  | Some (db, ts) :: files =>
      if String.eqb db "" then Err ErrEmptyDatabase
      else
        seen ← load_templates db seen ts;
        load_files (<[db := default [] (result !! db) ++ ts]> result) seen files
  end.

Fixpoint validate_databases (l : list (string * list Template)) : res template_error unit :=
  match l with [] => Ok tt | kv :: l => _ ← ValidateTemplates kv.2; validate_databases l end.

Definition LoadFromDir (files : list (option (string * list Template)))
    : res template_error (gmap string (list Template)) :=
  result ← load_files ∅ ∅ files;
  _ ← validate_databases (map_to_list result);
  Ok result.

Definition AllTemplates (dt : gmap string (list Template)) : list Template :=
  concat (map snd (map_to_list dt)).

(** ** Matching *)
Record PatternScore := Score { FixedSegments : Z; TotalSegments : Z }.
#[export] Instance PatternScore_eq_dec : EqDecision PatternScore. Proof. solve_decision. Defined.

Definition Score_Less (s other : PatternScore) : bool :=
  if negb (FixedSegments s =? FixedSegments other) then FixedSegments s <? FixedSegments other
  else TotalSegments s <? TotalSegments other.
Definition Score_Equal (s other : PatternScore) : bool :=
  (FixedSegments s =? FixedSegments other) && (TotalSegments s =? TotalSegments other).

Record MatchResult := { match_Template : Template; match_Score : PatternScore }.

Definition is_wildcard (seg : string) : bool := varPattern seg || String.eqb seg "*".

(** [pattern] has at least the length of [path] (an index past it panics). *)
Fixpoint segmentsMatch (path pattern : list string) : bool :=
  match path, pattern with
  | x :: path, p :: pattern =>
      if is_wildcard p then segmentsMatch path pattern
      else if negb (String.eqb x p) then false
      else segmentsMatch path pattern
  | _, _ => true
  end.

Definition calculateScore (segments : list string) : PatternScore :=
  Score (foldl (fun n seg => if negb (varPattern seg) && negb (String.eqb seg "*") then n + 1 else n) 0 segments)
        (Z.of_nat (length segments)).

Definition match_template (pathSegments : list string) (t : Template) : option MatchResult :=
  let patternSegments := split slash (tmpl_CollectionPattern t) in
  if negb (length pathSegments =? length patternSegments)%nat then None
  else if negb (segmentsMatch pathSegments patternSegments) then None
  else Some {| match_Template := t; match_Score := calculateScore patternSegments |}.

Definition higher_score (a b : MatchResult) : bool := Score_Less (match_Score b) (match_Score a).

Section Matching.
Context `{SS : SliceSort}.

Definition MatchTemplates (path : string) (ts : list Template) : list MatchResult :=
  sort_slice higher_score (omap (match_template (split slash path)) ts).
End Matching.

Fixpoint take_score (bestScore : PatternScore) (results : list MatchResult) : list MatchResult :=
  match results with
  | r :: results => if Score_Equal (match_Score r) bestScore then r :: take_score bestScore results else []
  | [] => []
  end.

Definition SelectBestTemplates (results : list MatchResult) : list MatchResult :=
  match results with
  | [] => []
  | r :: _ => take_score (match_Score r) results
  end.

(** ** Splitting and joining *)
Definition no_sep (sep : ascii) (s : string) : Prop := Forall (fun c => c <> sep) (String.list_ascii_of_string s).

Lemma split_nonempty sep s : split sep s <> [].
Proof. destruct s; cbn; [done|]. destruct (Ascii.eqb _ _); [done|]. by destruct (split sep s). Qed.

Lemma split_no_sep sep s : Forall (no_sep sep) (split sep s).
Proof.
  induction s as [|c s IH]; cbn; [by repeat constructor|].
  destruct (Ascii.eqb_spec c sep); [constructor; [constructor|done]|].
  destruct (split sep s) as [|seg segs]; [by repeat constructor|].
  inversion IH; subst. constructor; [|done]. by constructor.
Qed.

Lemma split_single sep s : no_sep sep s -> split sep s = [s].
Proof.
  unfold no_sep. induction s as [|c s IH]; cbn; [done|]. intros H. inversion H; subst.
  destruct (Ascii.eqb_spec c sep); [done|]. by rewrite IH.
Qed.

Lemma split_app sep a b :
  no_sep sep a -> split sep (String.append a (String.String sep b)) = a :: split sep b.
Proof.
  unfold no_sep. induction a as [|c a IH]; intros H.
  - change (String.append "" (String.String sep b)) with (String.String sep b). cbn.
    by rewrite Ascii.eqb_refl.
  - inversion H; subst. change (String.append (String.String c a) (String.String sep b))
      with (String.String c (String.append a (String.String sep b))). cbn [split].
    destruct (Ascii.eqb_spec c sep); [done|]. by rewrite IH.
Qed.

Lemma join_cons sep x y l :
  join (String.String sep "") (x :: y :: l) = String.append x (String.String sep (join (String.String sep "") (y :: l))).
Proof. reflexivity. Qed.

Lemma split_join sep l :
  l <> [] -> Forall (no_sep sep) l -> split sep (join (String.String sep "") l) = l.
Proof.
  intros Hne Hf. induction Hf as [|x l Hx Hl IH]; [done|]. destruct l as [|y l].
  - by apply split_single.
  - rewrite join_cons, split_app by done. by rewrite IH.
Qed.

Lemma join_split sep s : join (String.String sep "") (split sep s) = s.
Proof.
  induction s as [|c s IH]; cbn; [done|]. destruct (Ascii.eqb_spec c sep) as [->|Hne].
  - destruct (split sep s) as [|seg segs] eqn:E; [by apply split_nonempty in E|].
    rewrite join_cons, IH. reflexivity.
  - destruct (split sep s) as [|seg [|seg' segs]] eqn:E; [by apply split_nonempty in E| |].
    + cbn in *. by rewrite IH.
    + rewrite join_cons in *. by rewrite <- IH.
Qed.

(** ** Normalised patterns *)
Lemma normalize_segment_no_sep seg : no_sep slash seg -> no_sep slash (normalize_segment seg).
Proof. unfold normalize_segment. destruct (varPattern seg); [|done]. intros _. by repeat constructor. Qed.

Lemma normalize_segment_idempotent seg : normalize_segment (normalize_segment seg) = normalize_segment seg.
Proof. unfold normalize_segment. destruct (varPattern seg) eqn:E; [done|]. by rewrite E. Qed.

Lemma split_NormalizePattern p : split slash (NormalizePattern p) = map normalize_segment (split slash p).
Proof.
  unfold NormalizePattern. apply (split_join slash).
  - pose proof (split_nonempty slash p). by destruct (split slash p).
  - pose proof (split_no_sep slash p) as H. induction H; cbn; constructor; auto using normalize_segment_no_sep.
Qed.

Lemma is_wildcard_normalize seg : is_wildcard (normalize_segment seg) = is_wildcard seg.
Proof. unfold is_wildcard, normalize_segment. destruct (varPattern seg) eqn:E; [done|]. by rewrite E. Qed.

Lemma segmentsMatch_normalize path segs :
  segmentsMatch path (map normalize_segment segs) = segmentsMatch path segs.
Proof.
  revert segs; induction path as [|x path IH]; intros [|p segs]; cbn; try done.
  rewrite is_wildcard_normalize, IH. destruct (is_wildcard p) eqn:E; [done|].
  unfold is_wildcard, normalize_segment in *. destruct (varPattern p); done.
Qed.

Lemma score_fold_normalize n segs :
  let count := fun n seg => if negb (varPattern seg) && negb (String.eqb seg "*") then n + 1 else n in
  foldl count n (map normalize_segment segs) = foldl count n segs.
Proof.
  cbv zeta. revert n; induction segs as [|seg segs IH]; intros n; cbn; [done|]. rewrite IH. f_equal.
  unfold normalize_segment. destruct (varPattern seg) eqn:E; [done|]. by rewrite E.
Qed.

Lemma calculateScore_normalize segs : calculateScore (map normalize_segment segs) = calculateScore segs.
Proof. unfold calculateScore. by rewrite score_fold_normalize, length_map. Qed.

(** A template read with its normalised pattern. *)
Definition normalized (t : Template) : Template :=
  {| tmpl_Name := tmpl_Name t; tmpl_CollectionPattern := NormalizedPattern t;
     tmpl_Fields := tmpl_Fields t; tmpl_IncludeDeleted := tmpl_IncludeDeleted t |}.

(** NormalizePattern is a faithful canonical form. It is idempotent, it leaves
    a pattern without variables unchanged, and a template matches a path with
    the same priority score whether its pattern is read as written or
    normalised, so two templates whose patterns normalise alike match the same
    collections. *)
Theorem NormalizePattern_canonical p path t :
  NormalizePattern (NormalizePattern p) = NormalizePattern p /\
  (existsb varPattern (split slash p) = false -> NormalizePattern p = p) /\
  option_map match_Score (match_template path (normalized t)) = option_map match_Score (match_template path t).
Proof.
  split_and!.
  - unfold NormalizePattern at 1. rewrite split_NormalizePattern, map_map. unfold NormalizePattern. f_equal.
    apply map_ext, normalize_segment_idempotent.
  - intros H. rewrite <- (join_split slash p) at 2. unfold NormalizePattern. f_equal.
    induction (split slash p) as [|seg segs IH]; cbn in *; [done|].
    apply orb_false_iff in H as [H1 H2]. rewrite IH by done. unfold normalize_segment. by rewrite H1.
  - unfold match_template; cbn [tmpl_CollectionPattern normalized]. unfold NormalizedPattern.
    rewrite split_NormalizePattern, length_map, segmentsMatch_normalize, calculateScore_normalize.
    destruct (negb _); [done|]. by destruct (negb _).
Qed.

(** ** What validation accepts *)
Definition valid_field (f : tfield) : Prop :=
  is_ok (ValidateQueryField (tf_Field f)) = true /\
  match tf_Mode f with
  | ModeUnset | Scalar => tf_Order f = OrderAsc \/ tf_Order f = OrderDesc
  | Membership => (tf_Order f = OrderUnset \/ tf_Order f = OrderAsc) /\ tf_Field f ∉ metadata_fields
  | OtherMode _ => False
  end.

Definition memberships (fs : list tfield) : nat :=
  length (List.filter (fun f => match tf_Mode f with Membership => true | _ => false end) fs).

Definition valid_template (t : Template) : Prop :=
  tmpl_CollectionPattern t <> "" /\
  "" ∉ split slash (tmpl_CollectionPattern t) /\
  tmpl_Fields t <> [] /\
  Forall valid_field (tmpl_Fields t) /\
  NoDup (map tf_Field (tmpl_Fields t)) /\
  (memberships (tmpl_Fields t) <= 1)%nat.

Lemma validate_fields_cons seen m f fs :
  is_ok (validate_fields seen m (f :: fs)) = true <->
  valid_field f /\ tf_Field f ∉ seen /\
  (match tf_Mode f with Membership => m = 0%nat | _ => True end) /\
  is_ok (validate_fields ({[tf_Field f]} ∪ seen)
    (match tf_Mode f with Membership => 1%nat | _ => m end) fs) = true.
Proof.
  cbn [validate_fields]. unfold valid_field.
  destruct (ValidateQueryField (tf_Field f)) as [[]|e]; cbn [map_err mbind res_bind is_ok]; [|intuition done].
  destruct (tf_Mode f); cbn [mbind res_bind].
  1-2: destruct (tf_Order f); cbn [mbind res_bind is_ok]; try (intuition congruence);
       case_bool_decide; cbn; intuition congruence.
  - destruct m as [|m]; cbn [Nat.ltb Nat.leb]; [|cbn; intuition congruence].
    destruct (bool_decide_reflect (tf_Field f ∈ metadata_fields)) as [Hm|Hm];
      destruct (tf_Order f); cbn [mbind res_bind is_ok]; try (intuition congruence);
      case_bool_decide; cbn; intuition congruence.
  - cbn. intuition done.
Qed.

Lemma validate_fields_spec seen m fs :
  (m <= 1)%nat ->
  (is_ok (validate_fields seen m fs) = true <->
   Forall valid_field fs /\ NoDup (map tf_Field fs) /\ (forall f, f ∈ fs -> tf_Field f ∉ seen) /\
   (m + memberships fs <= 1)%nat).
Proof.
  revert seen m; induction fs as [|f fs IH]; intros seen m Hm.
  { cbn. split; [intros _|done]. repeat split; [constructor|constructor|set_solver|lia]. }
  rewrite validate_fields_cons, Forall_cons, IH by (destruct (tf_Mode f); lia). cbn [map].
  rewrite NoDup_cons. unfold memberships; cbn [List.filter].
  assert ((forall g, g ∈ fs -> tf_Field g ∉ ({[tf_Field f]} ∪ seen : gset string)) <->
          (forall g, g ∈ fs -> tf_Field g ∉ seen) /\ tf_Field f ∉ map tf_Field fs) as ->.
  { split.
    - intros H. split; [set_solver|]. intros (g & E & Hg)%list_elem_of_fmap. apply (H g Hg). set_solver.
    - intros [H1 H2] g Hg. apply not_elem_of_union. split; [|auto]. intros E%elem_of_singleton.
      apply H2, list_elem_of_fmap. exists g. auto. }
  assert ((forall g, g ∈ f :: fs -> tf_Field g ∉ seen) <->
          tf_Field f ∉ seen /\ (forall g, g ∈ fs -> tf_Field g ∉ seen)) as ->.
  { split; [intros H; split; [|intros]; apply H; set_solver|intros [H1 H2] g [->|Hg]%elem_of_cons; auto]. }
  destruct (tf_Mode f); cbn [length]; intuition lia.
Qed.

Lemma ValidateTemplate_iff t : is_ok (ValidateTemplate t) = true <-> valid_template t.
Proof.
  unfold ValidateTemplate, valid_template.
  destruct (String.eqb_spec (tmpl_CollectionPattern t) "") as [E|E]; [cbn; naive_solver|].
  destruct (existsb _ _) eqn:Ex.
  { apply existsb_exists in Ex as (seg & Hin & ->%String.eqb_eq). apply list_elem_of_In in Hin. cbn. naive_solver. }
  assert ("" ∉ split slash (tmpl_CollectionPattern t)) as Hs.
  { intros Hin%list_elem_of_In. apply not_true_iff_false in Ex. apply Ex, existsb_exists. by exists "". }
  destruct (tmpl_Fields t) as [|f fs]; [cbn; naive_solver|].
  rewrite validate_fields_spec by lia. cbn [Nat.add].
  assert (forall g, g ∈ f :: fs -> tf_Field g ∉ (∅ : gset string)) by set_solver. naive_solver.
Qed.

(** C40: ValidateTemplate accepts exactly the well-formed templates: a non-empty
    pattern without empty segments, at least one field, field names that are
    valid query fields and pairwise distinct, scalar fields with a direction, at
    most one membership field, which is ascending and not document metadata. *)
Theorem ValidateTemplate_spec t : is_ok (ValidateTemplate t) = true <-> valid_template t.
Proof. exact (ValidateTemplate_iff t). Qed.

(** ** Priority of matches *)
Definition score_key (s : PatternScore) : Z * Z := (FixedSegments s, TotalSegments s).

Lemma Score_Less_lt a b :
  Score_Less a b = true <->
  FixedSegments a < FixedSegments b \/ FixedSegments a = FixedSegments b /\ TotalSegments a < TotalSegments b.
Proof.
  unfold Score_Less. destruct (Z.eqb_spec (FixedSegments a) (FixedSegments b)); cbn [negb]; rewrite Z.ltb_lt; lia.
Qed.

Lemma Score_Equal_eq a b : Score_Equal a b = true <-> a = b.
Proof.
  unfold Score_Equal. rewrite andb_true_iff, !Z.eqb_eq. destruct a, b; cbn. split; [intros [-> ->]|intros [= -> ->]]; done.
Qed.

Lemma higher_score_strict_weak : strict_weak higher_score.
Proof.
  unfold higher_score. split; intros *.
  - apply not_true_iff_false. rewrite Score_Less_lt. lia.
  - rewrite !Score_Less_lt. lia.
  - rewrite !Score_Less_lt. lia.
Qed.

Lemma take_score_sorted best l r :
  sorted_by higher_score l -> (forall x, x ∈ l -> Score_Less best (match_Score x) = false) ->
  r ∈ take_score best l <-> r ∈ l /\ match_Score r = best.
Proof.
  unfold sorted_by. induction 1 as [|x l Hl IH Hx]; intros Hb; cbn [take_score]; [set_solver|].
  destruct (Score_Equal (match_Score x) best) eqn:E.
  - apply Score_Equal_eq in E. rewrite !elem_of_cons, IH by (intros; apply Hb; set_solver).
    split; [intros [->|]|]; naive_solver.
  - split; [by intros ?%elem_of_nil|]. intros [[->|Hr]%elem_of_cons Hs].
    { by rewrite (proj2 (Score_Equal_eq _ _) Hs) in E. }
    exfalso. rewrite Forall_forall in Hx. specialize (Hx r Hr). cbn in Hx. unfold higher_score in Hx.
    apply not_true_iff_false in Hx. rewrite Score_Less_lt in Hx. pose proof (Hb x ltac:(left)) as Hbx.
    apply not_true_iff_false in Hbx. rewrite Score_Less_lt in Hbx. apply not_true_iff_false in E.
    apply E, Score_Equal_eq. subst best. destruct (match_Score x), (match_Score r); cbn in *. f_equal; lia.
Qed.

Section Priority.
Context `{SS : SliceSort}.

Lemma MatchTemplates_elem path ts m :
  m ∈ MatchTemplates path ts <-> exists t, t ∈ ts /\ match_template (split slash path) t = Some m.
Proof. unfold MatchTemplates. by rewrite sort_slice_perm, list_elem_of_omap. Qed.

Lemma MatchTemplates_sorted path ts : sorted_by higher_score (MatchTemplates path ts).
Proof. apply sort_slice_sorted, higher_score_strict_weak. Qed.

(** the best templates of a collection. Whatever order the sort leaves ties
    in, SelectBestTemplates of MatchTemplates returns exactly the matching
    templates whose score (fixed segments, then length) no matching template
    beats, and returns some whenever any template matches. *)
Theorem SelectBestTemplates_max path ts m :
  let matches := MatchTemplates path ts in
  (m ∈ SelectBestTemplates matches <->
   (exists t, t ∈ ts /\ match_template (split slash path) t = Some m) /\
   forall t m', t ∈ ts -> match_template (split slash path) t = Some m' ->
     Score_Less (match_Score m) (match_Score m') = false) /\
  (SelectBestTemplates matches = [] <-> forall t, t ∈ ts -> match_template (split slash path) t = None).
Proof.
  cbv zeta. pose proof (MatchTemplates_sorted path ts) as Hs. pose proof (MatchTemplates_elem path ts) as He.
  destruct (MatchTemplates path ts) as [|r l]; cbn [SelectBestTemplates].
  { split.
    - split; [by intros ?%elem_of_nil|]. intros [H _]. by apply He, elem_of_nil in H.
    - split; [|done]. intros _ t Ht. destruct (match_template _ t) as [m'|] eqn:E; [|done].
      assert (m' ∈ []) as H by (apply He; eauto). by apply elem_of_nil in H. }
  assert (forall x, x ∈ r :: l -> Score_Less (match_Score r) (match_Score x) = false) as Hr.
  { inversion Hs as [|? ? _ Hr]; subst. intros x [->|Hx]%elem_of_cons.
    - apply not_true_iff_false. rewrite Score_Less_lt. lia.
    - by apply (proj1 (Forall_forall _ _) Hr). }
  split.
  - rewrite take_score_sorted by done. rewrite He. split; intros [Hm Hbest]; (split; [done|]).
    + intros t m' Ht Hm'. rewrite Hbest. apply Hr, He. eauto.
    + assert (exists t, t ∈ ts /\ match_template (split slash path) t = Some r) as (t & Ht & Hrt) by (apply He; left).
      specialize (Hbest t r Ht Hrt). apply He in Hm. specialize (Hr m Hm).
      apply not_true_iff_false in Hbest, Hr. rewrite Score_Less_lt in Hbest, Hr.
      destruct (match_Score m), (match_Score r); cbn in *. f_equal; lia.
  - cbn [take_score]. rewrite (proj2 (Score_Equal_eq _ _) eq_refl). split; [done|].
    intros H. destruct (proj1 (He r) ltac:(left)) as (t & Ht & Hrt). by rewrite H in Hrt.
Qed.
End Priority.

Definition chats_template : Template :=
  {| tmpl_Name := "by-time"; tmpl_CollectionPattern := "users/{uid}/chats";
     tmpl_Fields := [TField "createdAt" OrderDesc ModeUnset]; tmpl_IncludeDeleted := false |}.

Lemma NormalizePattern_canonical_witness :
  existsb varPattern (split slash "users/*/chats") = false /\ NormalizePattern "users/*/chats" = "users/*/chats".
Proof.
  split; [reflexivity|].
  apply (proj1 (proj2 (NormalizePattern_canonical "users/*/chats" [] chats_template))). reflexivity.
Defined.
