(* ===== verification/Projection.v ===== *)
(** * Document projections: internal/indexer/service.go (DocumentField,
    BuildDocumentProjection) and internal/core/storage/types/helpers.go
    (LogicalDocumentID)

    How a stored document becomes the posting keys of an index template. *)
From stdpp Require Import base list sorting gmap strings.
From Stdlib Require Import ZArith Ascii.
From S2P Require Import Prelude Value OrderKey Filter IndexStore Codec Template.
Local Open Scope Z_scope.

Record StoredDoc := {
  doc_Id : string; doc_Database : string; doc_Fullpath : string; doc_Collection : string;
  doc_CollectionHash : string; doc_Parent : string;
  doc_UpdatedAt : Z; doc_CreatedAt : Z; doc_Version : Z;
  doc_Data : gmap string value; doc_Deleted : bool;
}.

Inductive projection_error :=
| ErrLimitsNotPositive
| ErrTemplate (e : template_error)
| ErrIdentityDatabase
| ErrConcreteCollection
| ErrCollectionSegment
| ErrFullpathCollection
| ErrFullpathID
| ErrNoGeneration
| ErrProjectionValue (field : string) (e : value_error)
| ErrMembershipElements
| ErrMembershipPostings
| ErrProjectionEncoding (e : encoding_error)
| ErrPositionBytes
| ErrPostingBytes.

(** [strings.ContainsAny(s, chars)] for a set of ASCII characters. *)
Definition contains_any (chars : list Z) (s : string) : bool :=
  existsb (fun b => existsb (Z.eqb b) chars) (bytes_of_string s).

Definition ValidateConcreteCollection (collection : string) : res projection_error unit :=
  if String.eqb collection "" || contains_any [42; 0] collection then Err ErrConcreteCollection
  else if existsb (fun seg => String.eqb seg "") (split slash collection) then Err ErrCollectionSegment
  else Ok tt.

(** [strings.HasPrefix] and [strings.TrimPrefix]. *)
Fixpoint strip_prefix (prefix s : string) : option string :=
  match prefix, s with
  | String.EmptyString, _ => Some s
  | String.String a p, String.String b s => if Ascii.eqb a b then strip_prefix p s else None
  | String.String _ _, String.EmptyString => None
  end.

Definition LogicalDocumentID (doc : StoredDoc) : res projection_error string :=
  if String.eqb (doc_Database doc) "" then Err ErrIdentityDatabase
  else
    _ ← ValidateConcreteCollection (doc_Collection doc);
    match strip_prefix (String.append (doc_Collection doc) "/") (doc_Fullpath doc) with
    | None => Err ErrFullpathCollection
    | Some id =>
        if String.eqb id "" || contains_any [47; 0] id then Err ErrFullpathID else Ok id
    end.

Definition DocumentField (doc : StoredDoc) (logicalID field : string) : value * bool :=
  if String.eqb field "id" then (VString logicalID, true)
  else if String.eqb field "collection" then (VString (doc_Collection doc), true)
  else if String.eqb field "version" then (VInt KInt64 (doc_Version doc), true)
  else if String.eqb field "createdAt" then (VInt KInt64 (doc_CreatedAt doc), true)
  else if String.eqb field "updatedAt" then (VInt KInt64 (doc_UpdatedAt doc), true)
  else if String.eqb field "deleted" then (VBool (doc_Deleted doc), true)
  else if doc_Deleted doc then (VNil, false)
  else match doc_Data doc !! field with
       | Some v => (v, true)
       | None => (VNil, false)
       end.

Record ProjectionLimits := {
  MaxArrayElements : Z; MaxPostings : Z; MaxEncodedBytes : Z; MaxPositionBytes : Z;
}.
Definition DefaultProjectionLimits : ProjectionLimits :=
  {| MaxArrayElements := 10000; MaxPostings := 1024; MaxEncodedBytes := Z.shiftl 1 20; MaxPositionBytes := 4096 |}.

Definition fieldDirection (f : tfield) : direction :=
  match tf_Order f with OrderDesc => Desc | _ => Asc end.

(** The distinct scalar members of an array, in order; nested arrays and objects
    are skipped. *)
Fixpoint collect_members (limits : ProjectionLimits) (name : string) (seen : gset bytes) (members : list value)
    (elements : list value) : res projection_error (list value) :=
  match elements with
  | [] => Ok members
  | e :: elements =>
      member ← map_err (ErrProjectionValue name) (NormalizeValue e);
      match member with
      | VSlice _ | VMap _ => collect_members limits name seen members elements
      | _ =>
          key ← map_err (ErrProjectionValue name) (ScalarKey member);
          if bool_decide (key ∈ seen) then collect_members limits name seen members elements
          else if Z.of_nat (length members) =? MaxPostings limits then Err ErrMembershipPostings
          else collect_members limits name ({[key]} ∪ seen) (members ++ [member]) elements
      end
  end.

(** The fields of one document under a template: the encoded dimensions, the
    position of the membership dimension and its members. *)
Fixpoint project_fields (doc : StoredDoc) (id : string) (limits : ProjectionLimits) (i : nat)
    (membership : option nat) (members : list value) (fs : list tfield)
    : res projection_error (list field * option nat * list value) :=
  match fs with
  | [] => Ok ([], membership, members)
  | f :: fs =>
      let '(v, present) := DocumentField doc id (tf_Field f) in
      let fld := Field v (fieldDirection f) (negb present) in
      r ← match tf_Mode f with
          | Membership =>
              if negb present then Ok (Some i, members)
              else match v with
              | VNil => Ok (Some i, members)
              | VSlice elements =>
                  if MaxArrayElements limits <? Z.of_nat (length elements) then Err ErrMembershipElements
                  else ms ← collect_members limits (tf_Field f) ∅ members elements; Ok (Some i, ms)
              | _ => _ ← map_err (ErrProjectionValue (tf_Field f)) (NormalizeValue v); Ok (Some i, members)
              end
          | _ =>
              if present then _ ← map_err (ErrProjectionValue (tf_Field f)) (ScalarKey v); Ok (membership, members)
              else Ok (membership, members)
          end;
      rest ← project_fields doc id limits (S i) r.1 r.2 fs;
      Ok (fld :: rest.1.1, rest.1.2, rest.2)
  end.

Fixpoint encode_postings (id : string) (limits : ProjectionLimits) (fields : list field) (membership : option nat)
    (encodedBytes : Z) (members : list value) : res projection_error (list bytes) :=
  match members with
  | [] => Ok []
  | member :: members =>
      let fields := match membership with
                    | Some m => <[m := Field member Asc false]> fields
                    | None => fields
                    end in
      key ← map_err ErrProjectionEncoding (Encode fields id);
      if MaxEncodedBytes limits - encodedBytes <? Z.of_nat (length key) then Err ErrPostingBytes
      else
        keys ← encode_postings id limits fields membership (encodedBytes + Z.of_nat (length key)) members;
        Ok (key :: keys)
  end.

Section Build.
Context `{SS : SliceSort}.

Definition BuildDocumentProjection (doc : StoredDoc) (tmpl : Template) (generation : string)
    (limits : ProjectionLimits) : res projection_error Projection :=
  if (MaxArrayElements limits <=? 0) || (MaxPostings limits <=? 0)
     || (MaxEncodedBytes limits <=? 0) || (MaxPositionBytes limits <=? 0) then Err ErrLimitsNotPositive
  else
    _ ← map_err ErrTemplate (ValidateTemplate tmpl);
    id ← LogicalDocumentID doc;
    if String.eqb generation "" then Err ErrNoGeneration
    else
      let index := IndexRef (doc_Database doc) (doc_Collection doc) (Fingerprint tmpl) generation in
      if doc_Deleted doc && negb (tmpl_IncludeDeleted tmpl)
      then Ok {| proj_Index := index; proj_DocumentID := id; proj_PostingKeys := [] |}
      else
        r ← project_fields doc id limits 0 None [] (tmpl_Fields tmpl);
        let '(fields, membership, members) := r in
        let scalarFields := match membership with Some m => delete m fields | None => fields end in
        position ← map_err ErrProjectionEncoding (Encode scalarFields id);
        if MaxPositionBytes limits <? Z.of_nat (length position) then Err ErrPositionBytes
        else
          let members := match membership with None => [VNil] | Some _ => members end in
          keys ← encode_postings id limits fields membership 0 members;
          Ok {| proj_Index := index; proj_DocumentID := id;
                proj_PostingKeys := sort_slice bytes_ltb keys |}.
End Build.

Lemma fieldDirection_valid f : valid_direction (fieldDirection f).
Proof. unfold valid_direction, fieldDirection. destruct (tf_Order f); auto. Qed.
