(* ===== verification/Intervals.v ===== *)
(** * Key intervals of filters: internal/indexer/manager/candidates.go

    The byte intervals of an index that a filter on its next field selects, and
    that they select exactly the values the filter accepts. *)
From stdpp Require Import base list strings.
From Stdlib Require Import ZArith.
From S2P Require Import Prelude Value OrderKey Filter.
Local Open Scope Z_scope.

Inductive plan_error :=
| ErrPlanEncoding (e : encoding_error)
| ErrPlanFilter (e : filter_error)
| ErrPlanValue (e : value_error)
| ErrInvalidPlan
| ErrNoMatchingIndex
| ErrTooManyBranches
| ErrManifestBytes
| ErrPlanWorkLimit
| ErrPlanIndexRange
| ErrPlanTypeAssertion. (** a Go panic: [f.Value.([]any)] on another type *)

(** The bytes after the last one that is not 0xff are dropped; nil when there is
    none. *)
Fixpoint PrefixSuccessor (prefix : bytes) : option bytes :=
  match prefix with
  | [] => None
  | b :: rest =>
      match PrefixSuccessor rest with
      | Some out => Some (b :: out)
      | None => if negb (b =? 0xff) then Some [u8 (b + 1)] else None
      end
  end.

Definition fieldBytes (v : value) (dir : direction) : res plan_error bytes :=
  key ← map_err ErrPlanEncoding (EncodePrefix [Field v dir false]);
  Ok (drop 1 key).

Record keyInterval := Interval { iv_lower : bytes; iv_upper : option bytes }.

(** [lo] and [hi] of two intervals; a nil upper bound is no bound. *)
Definition max_lower (a b : bytes) : bytes := if bytes_ltb a b then b else a.
Definition min_upper (a b : option bytes) : option bytes :=
  match a, b with
  | None, hb => hb
  | Some ha, Some hb => if bytes_ltb hb ha then Some hb else Some ha
  | Some ha, None => Some ha
  end.

Definition intersect_one (a b : keyInterval) : option keyInterval :=
  let lo := max_lower (iv_lower a) (iv_lower b) in
  let hi := min_upper (iv_upper a) (iv_upper b) in
  match hi with
  | None => Some (Interval lo hi)
  | Some h => if bytes_ltb lo h then Some (Interval lo hi) else None
  end.

Definition intersectIntervals (left right : list keyInterval) : list keyInterval :=
  flat_map (fun a => omap (intersect_one a) right) left.

(** The byte a range family starts with. *)
Definition family_interval (prefix : bytes) (dir : direction) (tag : Z) : keyInterval :=
  match dir with
  | Asc => Interval (prefix ++ [tag]) (Some (prefix ++ [u8 (tag + 1)]))
  | _ => Interval (prefix ++ [bnot tag]) (Some (prefix ++ [u8 (bnot tag + 1)]))
  end.

Definition reverse_op (dir : direction) (op : FilterOp) : FilterOp :=
  match dir, op with
  | Desc, OpGt => OpLt
  | Desc, OpGte => OpLte
  | Desc, OpLt => OpGt
  | Desc, OpLte => OpGte
  | _, _ => op
  end.

Fixpoint point_intervals (prefix : bytes) (dir : direction) (vs : list value) : res plan_error (list keyInterval) :=
  match vs with
  | [] => Ok []
  | v :: vs =>
      part ← fieldBytes v dir;
      let p := prefix ++ part in
      out ← point_intervals prefix dir vs;
      Ok (Interval p (PrefixSuccessor p) :: out)
  end.

(** A nil lower bound is the empty key. *)
Definition lower_of (k : option bytes) : bytes := default [] k.

Definition filterIntervals (prefix : bytes) (dir : direction) (f : filter) : res plan_error (list keyInterval) :=
  match filter_op f with
  | OpIn =>
      match filter_value f with
      | VSlice vs => point_intervals prefix dir vs
      | _ => Err ErrPlanTypeAssertion
      end
  | op =>
      point ← fieldBytes (filter_value f) dir;
      let p := prefix ++ point in
      let next := PrefixSuccessor p in
      let whole := Interval prefix (PrefixSuccessor prefix) in
      match op with
      | OpEq => Ok [Interval p next]
      | OpNe =>
          missing ← map_err ErrPlanEncoding (EncodePrefix [Field VNil dir true]);
          let missingPoint := prefix ++ drop 1 missing in
          let present := match dir with
                         | Asc => Interval (lower_of (PrefixSuccessor missingPoint)) (iv_upper whole)
                         | _ => Interval (iv_lower whole) (Some missingPoint)
                         end in
          Ok (intersectIntervals [present]
                [Interval (iv_lower whole) (Some p); Interval (lower_of next) (iv_upper whole)])
      | _ =>
          raw ← map_err ErrPlanValue (ScalarKey (filter_value f));
          let family := family_interval prefix dir (hd 0 raw) in
          match reverse_op dir op with
          | OpGt => match next with
                    | None => Ok []
                    | Some n => Ok (intersectIntervals [family] [Interval n (iv_upper whole)])
                    end
          | OpGte => Ok (intersectIntervals [family] [Interval p (iv_upper whole)])
          | OpLt => Ok (intersectIntervals [family] [Interval (iv_lower whole) (Some p)])
          | OpLte => Ok (intersectIntervals [family] [Interval (iv_lower whole) next])
          | _ => Err ErrInvalidPlan
          end
      end
  end.

(** ** Membership *)
Definition in_interval (k : bytes) (i : keyInterval) : bool :=
  bytes_leb (iv_lower i) k && match iv_upper i with Some u => bytes_ltb k u | None => true end.
Definition in_intervals (k : bytes) (l : list keyInterval) : bool := existsb (in_interval k) l.

Definition below (k : bytes) (upper : option bytes) : bool :=
  match upper with Some u => bytes_ltb k u | None => true end.

Lemma max_lower_spec a b k : bytes_leb (max_lower a b) k = bytes_leb a k && bytes_leb b k.
Proof.
  unfold max_lower. destruct (bytes_ltb a b) eqn:E.
  - destruct (bytes_leb b k) eqn:E2; [|by rewrite andb_false_r]. apply bytes_ltb_lt in E. apply bytes_leb_le in E2.
    rewrite (proj2 (bytes_leb_le a k)); [done|]. by rewrite (bytes_lt_le_trans _ _ _ E E2).
  - destruct (bytes_leb a k) eqn:E2; [|done]. apply bytes_leb_le in E2. symmetry. apply bytes_leb_le.
    eapply bytes_le_trans; [|exact E2]. apply bytes_leb_le. by rewrite bytes_leb_ltb, E.
Qed.

Lemma min_upper_spec a b k : below k (min_upper a b) = below k a && below k b.
Proof.
  destruct a as [ha|], b as [hb|]; cbn; rewrite ?andb_true_r; try done.
  destruct (bytes_ltb hb ha) eqn:E; cbn.
  - destruct (bytes_ltb k hb) eqn:E2; [|by rewrite andb_false_r].
    apply bytes_ltb_lt in E, E2. by rewrite (proj2 (bytes_ltb_lt _ _) (bytes_compare_trans _ _ _ E2 E)).
  - destruct (bytes_ltb k ha) eqn:E2; [|done]. symmetry. apply bytes_ltb_lt in E2. apply bytes_ltb_lt.
    eapply bytes_lt_le_trans; [exact E2|]. apply bytes_leb_le. by rewrite bytes_leb_ltb, E.
Qed.

Lemma intersect_one_spec a b k :
  match intersect_one a b with Some i => in_interval k i | None => false end
  = in_interval k a && in_interval k b.
Proof.
  transitivity (bytes_leb (max_lower (iv_lower a) (iv_lower b)) k && below k (min_upper (iv_upper a) (iv_upper b))).
  - unfold intersect_one. destruct (min_upper _ _) as [h|]; [|done].
    destruct (bytes_ltb _ h) eqn:E; [done|]. symmetry. cbn [below].
    destruct (bytes_leb _ k) eqn:E1; [|done]. destruct (bytes_ltb k h) eqn:E2; [|done].
    apply bytes_leb_le in E1. apply bytes_ltb_lt in E2.
    pose proof (bytes_le_lt_trans _ _ _ E1 E2) as E3. apply bytes_ltb_lt in E3. congruence.
  - rewrite max_lower_spec, min_upper_spec. unfold in_interval. fold (below k (iv_upper a)) (below k (iv_upper b)).
    destruct (bytes_leb (iv_lower a) k), (bytes_leb (iv_lower b) k); cbn; rewrite ?andb_false_r; done.
Qed.

Lemma omap_existsb k a right :
  existsb (in_interval k) (omap (intersect_one a) right) = in_interval k a && existsb (in_interval k) right.
Proof.
  induction right as [|b right IH]; cbn; [by rewrite andb_false_r|].
  pose proof (intersect_one_spec a b k) as H. destruct (intersect_one a b); cbn; rewrite ?H, IH;
    destruct (in_interval k a), (in_interval k b); cbn in *; done.
Qed.

Lemma intersectIntervals_spec k left right :
  in_intervals k (intersectIntervals left right) = in_intervals k left && in_intervals k right.
Proof.
  unfold in_intervals, intersectIntervals. induction left as [|a left IH]; cbn; [done|].
  rewrite existsb_app, omap_existsb, IH.
  destruct (in_interval k a), (existsb (in_interval k) left), (existsb (in_interval k) right); done.
Qed.

(** ** Prefixes *)
Fixpoint prefixb (p k : bytes) : bool :=
  match p, k with
  | [], _ => true
  | b :: p, c :: k => (b =? c) && prefixb p k
  | _ :: _, [] => false
  end.

Lemma prefixb_app p k : prefixb p (p ++ k) = true.
Proof. induction p; cbn; [done|]. by rewrite Z.eqb_refl. Qed.

Lemma prefixb_split p k : prefixb p k = true -> exists rest, k = p ++ rest.
Proof.
  revert k; induction p as [|b p IH]; intros k H; [by exists k|]. destruct k as [|c k]; [done|]. cbn in H.
  apply andb_true_iff in H as [->%Z.eqb_eq H]. destruct (IH _ H) as [rest ->]. by exists rest.
Qed.

Lemma prefixb_app_r q p k : prefixb (q ++ p) (q ++ k) = prefixb p k.
Proof. induction q; cbn; [done|]. by rewrite Z.eqb_refl. Qed.

(** Below the successor of a prefix lie exactly the keys below the prefix and
    those that extend it. *)
Lemma PrefixSuccessor_below p k :
  is_bytes p -> is_bytes k -> below k (PrefixSuccessor p) = bytes_ltb k p || prefixb p k.
Proof.
  intros Hp; revert k; induction Hp as [|b p Hb Hp IH]; intros k Hk.
  { cbn. by rewrite orb_true_r. }
  destruct Hk as [|c k Hc Hk].
  { cbn [PrefixSuccessor]. destruct (PrefixSuccessor p); [done|]. by destruct (negb (b =? 255)). }
  specialize (IH k Hk). unfold is_byte in *. cbn [PrefixSuccessor prefixb].
  unfold bytes_ltb in *. cbn [bytes_compare]. destruct (Z.compare_spec c b) as [->|Hlt|Hgt].
  - rewrite Z.eqb_refl, andb_true_l. destruct (PrefixSuccessor p) as [out|]; cbn [below] in *.
    + unfold bytes_ltb. cbn [bytes_compare]. rewrite Z.compare_refl. exact IH.
    + rewrite <- IH. destruct (Z.eqb_spec b 255); [done|]. cbn. unfold bytes_ltb, u8; cbn.
      rewrite Z.mod_small by lia. destruct (Z.compare_spec b (b + 1)); lia || done.
  - destruct (PrefixSuccessor p) as [out|]; cbn [below]; unfold bytes_ltb.
    + cbn. destruct (Z.compare_spec c b); lia || done.
    + destruct (Z.eqb_spec b 255); [done|]. cbn. unfold bytes_ltb, u8; cbn.
      rewrite Z.mod_small by lia. destruct (Z.compare_spec c (b + 1)); lia || done.
  - destruct (Z.eqb_spec b c); [lia|]. cbn [andb orb].
    destruct (PrefixSuccessor p) as [out|]; cbn [below]; unfold bytes_ltb.
    + cbn. destruct (Z.compare_spec c b); lia || done.
    + destruct (Z.eqb_spec b 255); [lia|]. cbn. unfold bytes_ltb, u8; cbn.
      rewrite Z.mod_small by lia. destruct (Z.compare_spec c (b + 1)); [|lia|done]. by destruct k.
Qed.

Lemma PrefixSuccessor_some b p : b <> 0xff -> is_Some (PrefixSuccessor (b :: p)).
Proof.
  intros Hb. cbn. destruct (PrefixSuccessor p); [eauto|]. destruct (Z.eqb_spec b 255); [done|]. cbn. eauto.
Qed.

(** ** A posting key against the point of an operand *)
Definition is_Lt (c : comparison) : bool := match c with Lt => true | _ => false end.
Definition is_Gt (c : comparison) : bool := match c with Gt => true | _ => false end.
Definition is_Eq (c : comparison) : bool := match c with Eq => true | _ => false end.

Section Posting.
Context (prefix : bytes) (dir : direction) (raw rest : bytes).
Hypothesis (Hprefix : is_bytes prefix) (Hraw : is_bytes raw) (Hrest : is_bytes rest).
(** The key starts with the codec version, so it always has a successor. *)
Hypothesis (Hversion : hd 0xff prefix <> 0xff).

Let key := prefix ++ component dir raw ++ rest.
Definition side (raw0 : bytes) : comparison := flip dir (bytes_compare raw raw0).

Lemma key_bytes : is_bytes key.
Proof. unfold key. auto with syntrix. Qed.

Lemma point_ltb raw0 : is_bytes raw0 ->
  bytes_ltb key (prefix ++ component dir raw0) = is_Lt (side raw0).
Proof.
  intros H0. unfold key. unfold bytes_ltb, side. rewrite bytes_compare_app_r.
  rewrite <- (app_nil_r (component dir raw0)), component_compare by done.
  destruct (flip dir _); cbn; [|done..]. by destruct rest.
Qed.

Lemma point_prefix raw0 : is_bytes raw0 ->
  prefixb (prefix ++ component dir raw0) key = is_Eq (side raw0).
Proof.
  intros H0. unfold key. rewrite prefixb_app_r. unfold side.
  destruct (bytes_compare raw raw0) eqn:E.
  - apply bytes_compare_eq in E as ->. rewrite prefixb_app. by destruct dir.
  - destruct (prefixb _ _) eqn:P; [|by destruct dir]. exfalso. apply prefixb_split in P as [r' P].
    apply component_inj in P as [-> _]; [|done|done]. by rewrite bytes_compare_refl in E.
  - destruct (prefixb _ _) eqn:P; [|by destruct dir]. exfalso. apply prefixb_split in P as [r' P].
    apply component_inj in P as [-> _]; [|done|done]. by rewrite bytes_compare_refl in E.
Qed.

Lemma next_below raw0 : is_bytes raw0 ->
  below key (PrefixSuccessor (prefix ++ component dir raw0)) = negb (is_Gt (side raw0)).
Proof.
  intros H0. rewrite PrefixSuccessor_below; [|auto with syntrix|apply key_bytes].
  rewrite point_ltb, point_prefix by done. by destruct (side raw0).
Qed.

Lemma successor_is_some x : is_Some (PrefixSuccessor (prefix ++ x)).
Proof. destruct prefix as [|b p]; [done|]. cbn in Hversion. by apply PrefixSuccessor_some. Qed.

Lemma next_leb raw0 : is_bytes raw0 ->
  bytes_leb (lower_of (PrefixSuccessor (prefix ++ component dir raw0))) key = is_Gt (side raw0).
Proof.
  intros H0. pose proof (next_below raw0 H0) as H. destruct (successor_is_some (component dir raw0)) as [n E].
  rewrite E in *. cbn in *. rewrite bytes_leb_ltb, H. apply negb_involutive.
Qed.

Lemma point_leb raw0 : is_bytes raw0 ->
  bytes_leb (prefix ++ component dir raw0) key = negb (is_Lt (side raw0)).
Proof. intros H0. by rewrite bytes_leb_ltb, point_ltb. Qed.

Lemma whole_leb : bytes_leb prefix key = true.
Proof.
  unfold key. unfold bytes_leb. rewrite <- (app_nil_r prefix) at 1. rewrite bytes_compare_app_r.
  by destruct (component dir raw ++ rest).
Qed.

Lemma whole_below : below key (PrefixSuccessor prefix) = true.
Proof. rewrite PrefixSuccessor_below; [|done|apply key_bytes]. unfold key. by rewrite prefixb_app, orb_true_r. Qed.

(** The key lies in the family of a tag when its own tag is that one. *)
Lemma family_in tag v :
  raw_of v raw -> 0 < tag <= 0x50 -> valid_direction dir ->
  in_interval key (family_interval prefix dir tag) = (hd 0 raw =? tag).
Proof.
  intros Hv Ht Hd. destruct (raw_of_head _ _ Hv) as (t & r & E & Htr). rewrite E. cbn [hd].
  assert (exists x, component dir raw ++ rest = (match dir with Asc => t | _ => bnot t end) :: x) as [x Ex].
  { rewrite E. destruct Hd as [-> | ->]; cbn [component]; rewrite escape_cons; (destruct (Z.eqb_spec t 0); [lia|]);
      cbn; eauto. }
  unfold key. rewrite Ex. unfold in_interval, family_interval, bytes_leb, bytes_ltb.
  destruct Hd as [Hd|Hd]; rewrite Hd; cbn [iv_lower iv_upper]; rewrite !bytes_compare_app_r; cbn [bytes_compare];
    unfold u8, bnot; rewrite Z.mod_small by lia.
  - destruct (Z.compare_spec tag t), (Z.compare_spec t (tag + 1)), (Z.eqb_spec t tag); try lia; destruct x; done.
  - destruct (Z.compare_spec (255 - tag) (255 - t)), (Z.compare_spec (255 - t) (255 - tag + 1)), (Z.eqb_spec t tag);
      try lia; destruct x; done.
Qed.
End Posting.

(** ** Exactness of the intervals of a filter *)
Lemma fieldBytes_component v dir part :
  wf_value v -> fieldBytes v dir = Ok part ->
  exists s raw, denote v = Some s /\ key_of s raw /\ part = component dir raw.
Proof.
  intros Hw H. unfold fieldBytes, EncodePrefix in H. apply bind_ok in H as (key & H & [= <-]).
  apply map_err_ok, bind_ok in H as (enc & H & [= <-]). apply mapM_res_ok in H.
  inversion H as [|? buf ? ? Hb Hnil]; subst. inversion Hnil; subst.
  apply encodeField_component in Hb as (_ & fv & raw & Hd & Hr & ->); [|done].
  cbn in Hd. destruct (denote v) as [s|]; [|done]. injection Hd as <-. exists s, raw.
  cbn. by rewrite app_nil_r, drop_0.
Qed.

(** What a filter accepts of an indexed field value. *)
Definition accepts_field (f : filter) (v : field_val) : bool :=
  match v with
  | FMissing => false
  | FScalar s =>
      let eqb x := match denote x with Some t => is_Eq (scalar_compare s t) | None => false end in
      let range test := match denote (filter_value f) with
                        | Some t => in_family s t && test (scalar_compare s t)
                        | None => false
                        end in
      match filter_op f with
      | OpEq => eqb (filter_value f)
      | OpNe => negb (eqb (filter_value f))
      | OpIn => existsb eqb (elements_of (filter_value f))
      | OpGt => range is_Gt
      | OpGte => range (fun c => negb (is_Lt c))
      | OpLt => range is_Lt
      | OpLte => range (fun c => negb (is_Gt c))
      | _ => false
      end
  end.

Lemma accepts_field_holds f w s :
  denote w = Some s -> filter_op f <> OpContains ->
  accepts_field f (FScalar s) = holds (filter_op f) (filter_value f) w.
Proof.
  intros Hs Hop. unfold accepts_field, holds, range_holds, denote_eqb. rewrite Hs.
  destruct (filter_op f); try done.
  all: try (destruct (denote (filter_value f)); [|done]; by destruct (scalar_compare _ _)).
Qed.

(** Normalising a filter does not change what it accepts. *)
Lemma holds_normalized f g v :
  wf_filter f -> normalize_filter f = Ok g ->
  holds (filter_op g) (filter_value g) v = holds (filter_op f) (filter_value f) v.
Proof.
  intros Hw H. unfold wf_filter in Hw. apply normalize_filter_inv in H as (_ & -> & _ & w & Hn & H).
  pose proof (denote_normalized _ _ Hn) as Hd. unfold holds, range_holds, denote_eqb.
  destruct (filter_op f).
  all: try done; try (destruct H as [-> _]; by rewrite ?Hd).
  all: try (destruct H as [-> _]; apply existsb_ext_in; intros x _; by rewrite Hd).
  destruct H as (items & us & -> & Hu & ->). cbn [elements_of].
  assert (exists l, filter_value f = VSlice l) as [l El].
  { destruct (filter_value f) eqn:E; try (exfalso; eapply normalize_not_slice; [exact Hn|intros ?; discriminate|done]). eauto. }
  rewrite El in *. cbn [elements_of]. destruct (normalize_slice _ _ Hn) as (l' & [= <-] & Hl).
  rewrite (unique_members_existsb _ items us); [|apply wf_slice; by eapply NormalizeValue_wf| |done].
  - apply (existsb_normalized _ _ l items Hl). intros x y _ Hxy. by rewrite (denote_normalized _ _ Hxy).
  - intros a b E. by rewrite E.
Qed.

Definition range_scalar (t : scalar) : bool := match t with SNum _ | SStr _ => true | _ => false end.

(** The filters the planner works with: well-formed, with an operand of the
    shape their operator needs, as NormalizeFilters leaves them. *)
Definition plan_filter (f : filter) : Prop :=
  match filter_op f with
  | OpIn => exists items, filter_value f = VSlice items /\ Forall wf_value items
  | OpGt | OpGte | OpLt | OpLte => wf_value (filter_value f) /\
      exists t, denote (filter_value f) = Some t /\ range_scalar t = true
  | _ => wf_value (filter_value f)
  end.

Lemma normalize_plan_filter f g : wf_filter f -> normalize_filter f = Ok g -> plan_filter g.
Proof.
  intros Hw H. apply normalize_filter_inv in H as (_ & Hop & _ & w & Hn & H). unfold plan_filter. rewrite Hop.
  pose proof (NormalizeValue_wf _ _ Hw Hn) as Hww. pose proof (NormalizeValue_normal _ _ Hn) as Hnw.
  destruct (filter_op f); try (destruct H as [-> _]; done).
  1-4: destruct H as [-> Hr]; split; [done|]; rewrite denote_normal by done;
       destruct w as [| | |[]| | | | | |]; cbn in *; try done; eauto.
  destruct H as (items & us & -> & Hu & ->). exists us. split; [done|]. apply wf_slice in Hww.
  rewrite Forall_forall in Hww |- *. intros u Hin. apply Hww. by eapply unique_members_sub.
Qed.

Lemma tag_family v raw t r0 :
  raw_of v raw -> key_of t r0 -> range_scalar t = true ->
  (hd 0 raw =? hd 0 r0) = match v with FScalar s => in_family s t | FMissing => false end /\
  0 < hd 0 r0 <= 0x50.
Proof.
  intros Hv Ht Hr. destruct (key_of_head _ _ Ht) as [y ->]. destruct v as [|s]; cbn in Hv.
  - rewrite Hv. cbn [hd]. destruct t; try done; cbn; split; done || lia.
  - destruct (key_of_head _ _ Hv) as [x ->]. cbn [hd].
    destruct t; try done; destruct s as [|[]| |]; cbn; split; done || lia.
Qed.

Section Exact.
Context (prefix : bytes) (dir : direction) (v : field_val) (raw rest : bytes).
Hypothesis (Hprefix : is_bytes prefix) (Hversion : hd 0xff prefix <> 0xff).
Hypothesis (Hdir : valid_direction dir) (Hraw : raw_of v raw) (Hrest : is_bytes rest).

Let key := prefix ++ component dir raw ++ rest.

Lemma side_value w raw0 :
  raw_of w raw0 -> side dir raw raw0 = flip dir (field_val_compare v w).
Proof. intros H. unfold side. by rewrite (raw_of_compare v w). Qed.

Lemma point_intervals_exact vs ivs :
  Forall wf_value vs -> point_intervals prefix dir vs = Ok ivs ->
  in_intervals key ivs
  = match v with
    | FMissing => false
    | FScalar s => existsb (fun x => match denote x with Some t => is_Eq (scalar_compare s t) | None => false end) vs
    end.
Proof.
  intros Hw; revert ivs; induction Hw as [|x vs Hx Hw IH]; intros ivs H; cbn [point_intervals] in H.
  { injection H as <-. by destruct v. }
  apply bind_ok in H as (part & Hp & H). apply bind_ok in H as (out & Ho & [= <-]).
  destruct (fieldBytes_component _ _ _ Hx Hp) as (t & raw0 & Ht & Hk & ->).
  specialize (IH _ Ho). cbn [in_intervals existsb]. fold (in_intervals key out). rewrite IH.
  pose proof (raw_of_bytes _ _ Hraw) as Hb. assert (is_bytes raw0) as Hb0 by (by eapply key_of_bytes).
  unfold in_interval; cbn [iv_lower iv_upper]. fold (below key (PrefixSuccessor (prefix ++ component dir raw0))).
  unfold key. rewrite point_leb, next_below by done. rewrite (side_value (FScalar t)) by done.
  destruct v as [|s]; cbn [field_val_compare existsb]; [by destruct Hdir as [-> | ->]|].
  rewrite Ht. by destruct Hdir as [-> | ->], (scalar_compare s t).
Qed.

Lemma missing_prefix missing :
  EncodePrefix [Field VNil dir true] = Ok missing -> drop 1 missing = component dir [TypeMissing].
Proof.
  unfold EncodePrefix. intros H. apply bind_ok in H as (enc & H & [= <-]). apply mapM_res_ok in H.
  inversion H as [|? buf ? ? Hb Hnil]; subst. inversion Hnil; subst.
  cbn. rewrite app_nil_r, drop_0. unfold encodeField in Hb. cbn in Hb.
  destruct Hdir as [-> | ->]; cbn in Hb; by injection Hb as <-.
Qed.

Lemma in_singletons k a b : in_intervals k (intersectIntervals [a] [b]) = in_interval k a && in_interval k b.
Proof. rewrite intersectIntervals_spec. unfold in_intervals. cbn. by rewrite !orb_false_r. Qed.

(** The family test of a range filter. *)
Lemma family_accepts t r0 :
  key_of t r0 -> range_scalar t = true ->
  in_interval key (family_interval prefix dir (hd 0 r0))
  = match v with FScalar s => in_family s t | FMissing => false end.
Proof.
  intros Hk Ht. pose proof (raw_of_bytes _ _ Hraw) as Hb.
  destruct (tag_family v raw t r0 Hraw Hk Ht) as [<- Hr]. unfold key. by apply (family_in _ _ _ _ _ v).
Qed.

(** The bound of a range filter: the operand's point or its successor. *)
Lemma range_bound_accepts t raw0 op :
  key_of t raw0 ->
  let p := prefix ++ component dir raw0 in
  let c := flip dir (field_val_compare v (FScalar t)) in
  in_interval key (Interval (lower_of (PrefixSuccessor p)) (PrefixSuccessor prefix)) = is_Gt c /\
  in_interval key (Interval p (PrefixSuccessor prefix)) = negb (is_Lt c) /\
  in_interval key (Interval prefix (Some p)) = is_Lt c /\
  in_interval key (Interval prefix (PrefixSuccessor p)) = negb (is_Gt c) /\
  in_interval key (Interval p (PrefixSuccessor p)) = is_Eq c /\
  (match op with OpGt | OpGte | OpLt | OpLte => True | _ => False end ->
   is_Some (PrefixSuccessor p)).
Proof.
  intros Hk. cbv zeta. pose proof (raw_of_bytes _ _ Hraw) as Hb.
  assert (is_bytes raw0) as Hb0 by (by eapply key_of_bytes).
  rewrite <- (side_value (FScalar t) raw0) by done. unfold in_interval. cbn [iv_lower iv_upper].
  fold (below key (PrefixSuccessor prefix)) (below key (PrefixSuccessor (prefix ++ component dir raw0))). unfold key.
  rewrite next_leb, point_leb, point_ltb, next_below, whole_leb, whole_below by done.
  split_and!; try (by destruct (side dir raw raw0)). intros _. by apply successor_is_some.
Qed.

Lemma present_accepts missing :
  EncodePrefix [Field VNil dir true] = Ok missing ->
  let missingPoint := prefix ++ drop 1 missing in
  in_interval key (match dir with
                   | Asc => Interval (lower_of (PrefixSuccessor missingPoint)) (PrefixSuccessor prefix)
                   | _ => Interval prefix (Some missingPoint)
                   end) = match v with FMissing => false | FScalar _ => true end.
Proof.
  intros H. cbv zeta. rewrite (missing_prefix _ H). pose proof (raw_of_bytes _ _ Hraw) as Hb.
  assert (is_bytes [TypeMissing]) as Hm by (repeat constructor; unfold is_byte, TypeMissing; lia).
  pose proof (side_value FMissing [TypeMissing] eq_refl) as Hs.
  destruct Hdir as [Ed|Ed]; rewrite Ed at 1; unfold in_interval; cbn [iv_lower iv_upper];
    fold (below key (PrefixSuccessor prefix)); unfold key.
  - rewrite next_leb, whole_below, Hs, Ed by done. by destruct v.
  - rewrite point_ltb, whole_leb, Hs, Ed by done. by destruct v.
Qed.

Lemma range_accepts f ivs t raw0 :
  wf_value (filter_value f) -> denote (filter_value f) = Some t -> range_scalar t = true -> key_of t raw0 ->
  match filter_op f with OpGt | OpGte | OpLt | OpLte => True | _ => False end ->
  (raw ← map_err ErrPlanValue (ScalarKey (filter_value f));
   let p := prefix ++ component dir raw0 in
   let family := family_interval prefix dir (hd 0 raw) in
   match reverse_op dir (filter_op f) with
   | OpGt => match PrefixSuccessor p with
             | None => Ok []
             | Some n => Ok (intersectIntervals [family] [Interval n (PrefixSuccessor prefix)])
             end
   | OpGte => Ok (intersectIntervals [family] [Interval p (PrefixSuccessor prefix)])
   | OpLt => Ok (intersectIntervals [family] [Interval prefix (Some p)])
   | OpLte => Ok (intersectIntervals [family] [Interval prefix (PrefixSuccessor p)])
   | _ => Err ErrInvalidPlan
   end) = Ok ivs ->
  in_intervals key ivs = accepts_field f v.
Proof.
  intros Hw Ht Hr Hk Hop H. apply bind_ok in H as (rk & Hrk & H). apply map_err_ok in Hrk.
  destruct (ScalarKey_denote _ _ Hw Hrk) as (t' & Ht' & Hk'). rewrite Ht in Ht'. injection Ht' as <-.
  pose proof (family_accepts t rk Hk' Hr) as Hfam.
  destruct (range_bound_accepts t raw0 (filter_op f) Hk) as (Bgt & Bge & Blt & Ble & _ & Hsome).
  destruct (Hsome Hop) as [n En]. cbv zeta in H. rewrite En in *. cbn [lower_of default] in Bgt. unfold id in Bgt.
  unfold accepts_field. rewrite Ht.
  destruct (reverse_op dir (filter_op f)) eqn:Erop; try discriminate H;
    try (apply Ok_inj in H; subst ivs; rewrite in_singletons, Hfam; first [rewrite Bgt | rewrite Bge | rewrite Blt | rewrite Ble]);
    destruct Hdir as [Ed|Ed]; rewrite Ed in Erop; destruct (filter_op f); try done;
    rewrite ?Ed; (destruct v as [|s]; [reflexivity|]); cbn [field_val_compare flip];
    destruct (in_family s t); try done; by destruct (scalar_compare s t).
Qed.

Lemma filterIntervals_accepts f ivs :
  plan_filter f -> filter_op f <> OpContains -> filterIntervals prefix dir f = Ok ivs ->
  in_intervals key ivs = accepts_field f v.
Proof.
  intros Hf Hop H. unfold filterIntervals in H. unfold plan_filter in Hf.
  destruct (filter_op f) eqn:Eop; try done.
  all: try match type of Hf with
           | exists _, _ => destruct Hf as (items & Ev & Hw); rewrite Ev in *; unfold accepts_field; rewrite Eop, Ev;
                            by rewrite (point_intervals_exact items ivs)
           end.
  all: apply bind_ok in H as (point & Hp & H);
       assert (wf_value (filter_value f)) as Hw by (apply Hf || done);
       destruct (fieldBytes_component _ _ _ Hw Hp) as (t & raw0 & Ht & Hk & ->).
  all: try (destruct Hf as (_ & t' & Ht' & Hr); assert (t' = t) as -> by congruence;
            apply (range_accepts f ivs t raw0); rewrite ?Eop; done).
  all: destruct (range_bound_accepts t raw0 (filter_op f) Hk) as (Bgt & _ & Blt & _ & Beq & _).
  all: unfold accepts_field; rewrite Eop; try rewrite Ht; cbv zeta in H.
  - injection H as <-. unfold in_intervals. cbn [existsb]. rewrite Beq, orb_false_r.
    destruct v as [|s]; cbn [field_val_compare]; [by destruct Hdir as [-> | ->]|].
    by destruct Hdir as [-> | ->], (scalar_compare s t).
  - apply bind_ok in H as (missing & Hm & H). apply map_err_ok in Hm. apply Ok_inj in H as <-.
    rewrite intersectIntervals_spec. unfold in_intervals. cbn [existsb iv_lower iv_upper].
    rewrite (present_accepts missing Hm), Bgt, Blt, !orb_false_r.
    destruct v as [|s]; [done|]. cbn [field_val_compare andb].
    by destruct Hdir as [-> | ->], (scalar_compare s t).
  - apply bind_ok in H as (rk & _ & H). by destruct Hdir as [Ed|Ed]; rewrite Ed in H.
Qed.
End Exact.

(** C33: exact range access. For a filter accepted by the query model (any operator
    but contains), the key intervals the planner derives for the next index
    field select exactly the postings whose field value satisfies the filter:
    under either direction, whatever prefix precedes the field and whatever
    follows it, a posting's key lies in one of the intervals if and only if the
    field is present and the filter holds of it. *)
Theorem filterIntervals_exact prefix dir f g ivs w present part rest :
  wf_filter f -> normalize_filter f = Ok g -> filter_op f <> OpContains ->
  filterIntervals prefix dir g = Ok ivs ->
  is_bytes prefix -> hd 0xff prefix <> 0xff -> is_bytes rest ->
  wf_value w -> encodeField (Field w dir (negb present)) = Ok part ->
  in_intervals (prefix ++ part ++ rest) ivs = present && holds (filter_op f) (filter_value f) w.
Proof.
  intros Hf Hn Hop Hi Hp Hv Hr Hw He.
  pose proof (normalize_plan_filter _ _ Hf Hn) as Hg. destruct (normalize_filter_inv _ _ Hn) as (_ & Eop & _).
  destruct (encodeField_component _ _ (Hw : wf_field (Field w dir (negb present))) He) as (Hd & v & raw & Hden & Hraw & ->). cbn [field_direction] in *.
  rewrite (filterIntervals_accepts prefix dir v raw rest Hp Hv Hd Hraw Hr g ivs Hg) by congruence.
  unfold denote_field in Hden. cbn in Hden. destruct present; cbn [negb] in Hden; [|by injection Hden as <-].
  destruct (denote w) as [s|] eqn:Es; [|done]. injection Hden as <-. cbn [andb].
  rewrite (accepts_field_holds g w s) by (done || congruence). by apply holds_normalized.
Qed.

Lemma filterIntervals_exact_witness :
  exists ivs part,
    filterIntervals [Version] Desc (Filter "age" OpGte (VInt KInt64 7)) = Ok ivs /\
    encodeField (Field (VFloat64 0x401e000000000000) Desc false) = Ok part /\
    in_intervals ([Version] ++ part ++ [0x50; 0; 0]) ivs = true.
Proof.
  eexists _, _. split; [vm_compute; reflexivity|]. split; [vm_compute; reflexivity|].
  rewrite (filterIntervals_exact [Version] Desc (Filter "age" OpGte (VInt KInt64 7))
    (Filter "age" OpGte (VInt KInt64 7)) _ (VFloat64 0x401e000000000000) true).
  - vm_compute. reflexivity.
  - unfold wf_filter; cbn; lia.
  - vm_compute; reflexivity.
  - discriminate.
  - vm_compute; reflexivity.
  - repeat constructor; unfold Version; lia.
  - discriminate.
  - repeat constructor; lia.
  - cbn; unfold is_u64; lia.
  - vm_compute; reflexivity.
Defined.
