(* ===== verification/Refs.v ===== *)
(** * Lists of document references in key order

    Binary search as [sort.Search] does it, the merge of two ordered lists of
    references and what a bound selects of one. *)
From stdpp Require Import base list sorting strings.
From Stdlib Require Import ZArith.
From S2P Require Import Prelude IndexStore Intervals.
Local Open Scope Z_scope.

(** [sort.Search]: binary search for the smallest index where [f] holds; each
    round halves the interval, so its length is fuel enough. *)
Fixpoint binary_search (fuel : nat) (f : nat -> bool) (i j : nat) : nat :=
  match fuel with
  | O => i
  | S fuel =>
      if (i <? j)%nat
      then let h := ((i + j) / 2)%nat in if f h then binary_search fuel f i h else binary_search fuel f (S h) j
      else i
  end.
Definition sort_Search (n : nat) (f : nat -> bool) : nat := binary_search n f 0 n.

Lemma binary_search_spec fuel f i j :
  (forall a b, (a <= b)%nat -> f a = true -> f b = true) -> (i <= j)%nat -> (j - i <= fuel)%nat ->
  (forall a, (a < i)%nat -> f a = false) -> f j = true ->
  f (binary_search fuel f i j) = true /\ (binary_search fuel f i j <= j)%nat /\
  forall a, (a < binary_search fuel f i j)%nat -> f a = false.
Proof.
  intros Hm; revert i j; induction fuel as [|fuel IH]; intros i j Hij Hf Hlo Hj; cbn [binary_search].
  - assert (i = j) as -> by lia. done.
  - destruct (Nat.ltb_spec i j); [|assert (i = j) as -> by lia; done].
    pose proof (Nat.Div0.div_lt_upper_bound (i + j) 2 j ltac:(lia)).
    pose proof (Nat.div_le_lower_bound (i + j) 2 i ltac:(lia) ltac:(lia)).
    destruct (f ((i + j) / 2)%nat) eqn:E.
    + destruct (IH i ((i + j) / 2)%nat) as (? & ? & ?); [lia|lia|done|done|]. split_and!; [done|lia|done].
    + apply IH; [lia|lia| |done]. intros a Ha. destruct (f a) eqn:Ea; [|done].
      rewrite (Hm a ((i + j) / 2)%nat) in E; [done|lia|done].
Qed.

(** ** References in strictly increasing key order *)
Definition key_lt (a b : DocRef) : Prop := bytes_compare (docref_OrderKey a) (docref_OrderKey b) = Lt.
Definition key_less (a b : DocRef) : bool := bytes_ltb (docref_OrderKey a) (docref_OrderKey b).

Lemma key_less_lt a b : key_less a b = true <-> key_lt a b.
Proof. apply bytes_ltb_lt. Qed.
#[export] Instance key_lt_trans : Transitive key_lt.
Proof. intros a b c. apply bytes_compare_trans. Qed.
Lemma key_lt_irrefl a : ~ key_lt a a.
Proof. unfold key_lt. by rewrite bytes_compare_refl. Qed.
Lemma key_lt_docref a b : key_lt a b -> docref_lt a b.
Proof. unfold key_lt, docref_lt. by intros ->. Qed.
Lemma key_lt_total a b : docref_OrderKey a <> docref_OrderKey b -> key_less a b = false -> key_lt b a.
Proof.
  unfold key_less, key_lt, bytes_ltb. intros Hne. destruct (bytes_compare (docref_OrderKey a) _) eqn:E; [|done|].
  - by apply bytes_compare_eq in E.
  - intros _. by apply bytes_compare_lt_gt.
Qed.

Abbreviation key_sorted := (StronglySorted key_lt).

Lemma key_sorted_NoDup l : key_sorted l -> NoDup l.
Proof.
  induction 1 as [|x l Hl IH Hx]; constructor; [|done]. intros Hin. rewrite Forall_forall in Hx. by apply (key_lt_irrefl x), Hx.
Qed.
(** Two ordered lists with the same members are the same. *)
Lemma key_sorted_unique l k : key_sorted l -> key_sorted k -> (forall d, d ∈ l <-> d ∈ k) -> l = k.
Proof.
  intros Hl Hk Hin. revert k Hk Hin; induction Hl as [|x l Hl IH Hx]; intros k Hk Hin.
  - destruct k as [|y k]; [done|]. assert (y ∈ ([] : list DocRef)) as H by (apply Hin; by left). by apply elem_of_nil in H.
  - destruct Hk as [|y k Hk Hy]; [assert (x ∈ ([] : list DocRef)) as H by (apply Hin; by left); by apply elem_of_nil in H|].
    rewrite Forall_forall in Hx, Hy. assert (x = y) as ->.
    { assert (Hxy : x ∈ y :: k) by (apply Hin; by left). assert (Hyx : y ∈ x :: l) by (apply Hin; by left).
      apply elem_of_cons in Hxy as [->|Hxy]; [done|]. apply elem_of_cons in Hyx as [->|Hyx]; [done|].
      destruct (key_lt_irrefl x). etrans; [by apply Hx|by apply Hy]. }
    f_equal. apply IH; [done|]. intros d. specialize (Hin d). rewrite !elem_of_cons in Hin. split; intros Hd.
    + destruct (proj1 Hin) as [->|]; [by right| |done]. destruct (key_lt_irrefl y). by apply Hx.
    + destruct (proj2 Hin) as [->|]; [by right| |done]. destruct (key_lt_irrefl y). by apply Hy.
Qed.
Lemma key_sorted_filter P l : key_sorted l -> key_sorted (List.filter P l).
Proof.
  induction 1 as [|x l Hl IH Hx]; cbn; [constructor|]. destruct (P x); [|done]. constructor; [done|].
  rewrite Forall_forall in *. intros y [Hy%list_elem_of_In _]%list_elem_of_In%filter_In. by apply Hx.
Qed.
Lemma key_sorted_drop n l : key_sorted l -> key_sorted (drop n l).
Proof. intros H; revert n; induction H as [|x l Hl IH Hx]; intros [|n]; cbn; try constructor; done. Qed.

(** Sorting references whose keys differ. *)
Lemma key_sorted_sort l : NoDup l -> (forall a b, a ∈ l -> b ∈ l -> docref_OrderKey a = docref_OrderKey b -> a = b) ->
  sorted_by key_less l -> key_sorted l.
Proof.
  intros Hn Hinj H. unfold sorted_by in H. induction H as [|x l Hl IH Hx]; [constructor|].
  apply NoDup_cons in Hn as [Hx' Hn]. constructor.
  - apply IH; [done|]. intros; apply Hinj; [by right|by right|done].
  - rewrite Forall_forall in *. intros y Hy. apply key_lt_total; [|by apply Hx]. intros E.
    rewrite (Hinj y x) in Hy; [done|by right|by left|done].
Qed.

(** ** Merging *)
Fixpoint merge_refs (a : list DocRef) : list DocRef -> list DocRef :=
  match a with
  | [] => fun b => b
  | d :: a' => fix inner b :=
      match b with
      | [] => a
      | o :: b' => if key_less o d then o :: inner b' else d :: merge_refs a' b
      end
  end.
Lemma merge_nil_r a : merge_refs a [] = a.
Proof. by destruct a. Qed.
Lemma merge_cons d a o b :
  merge_refs (d :: a) (o :: b) = if key_less o d then o :: merge_refs (d :: a) b else d :: merge_refs a (o :: b).
Proof. done. Qed.
Lemma elem_of_merge a b d : d ∈ merge_refs a b <-> d ∈ a \/ d ∈ b.
Proof.
  revert b; induction a as [|x a IHa]; intros b; [rewrite elem_of_nil; cbn; tauto|].
  induction b as [|o b IHb]; [rewrite merge_nil_r, elem_of_nil; tauto|]. rewrite merge_cons. destruct (key_less o x).
  - rewrite (elem_of_cons _ d o), IHb, (elem_of_cons b). tauto.
  - rewrite (elem_of_cons _ d x), IHa, (elem_of_cons a). tauto.
Qed.

Definition keys_apart (a b : list DocRef) : Prop :=
  forall d o, d ∈ a -> o ∈ b -> docref_OrderKey d <> docref_OrderKey o.

Lemma merge_sorted a b : key_sorted a -> key_sorted b -> keys_apart a b -> key_sorted (merge_refs a b).
Proof.
  intros Ha; revert b; induction Ha as [|x a Ha IHa Hx]; intros b Hb Hap; [done|].
  induction Hb as [|o b Hb IHb Ho]; [rewrite merge_nil_r; by constructor|]. rewrite merge_cons.
  rewrite Forall_forall in Hx, Ho. destruct (key_less o x) eqn:E.
  - apply key_less_lt in E. constructor; [apply IHb; intros ? ? ? ?; apply Hap; [done|by right]|].
    rewrite Forall_forall. intros y [Hy|Hy]%elem_of_merge; [|by apply Ho].
    apply elem_of_cons in Hy as [->|Hy]; [done|]. etrans; [exact E|by apply Hx].
  - assert (Hlt : key_lt x o) by (apply key_lt_total; [intros Eq; eapply (Hap x o); [by left|by left|done]|done]).
    constructor; [apply IHa; [by constructor; [|rewrite Forall_forall]|intros ? ? ? ?; apply Hap; [by right|done]]|].
    rewrite Forall_forall. intros y [Hy|Hy]%elem_of_merge; [by apply Hx|].
    apply elem_of_cons in Hy as [->|Hy]; [done|]. etrans; [exact Hlt|by apply Ho].
Qed.

Lemma filter_apart P a b : keys_apart a b -> keys_apart (List.filter P a) (List.filter P b).
Proof.
  intros H d o [Hd%list_elem_of_In _]%list_elem_of_In%filter_In [Ho%list_elem_of_In _]%list_elem_of_In%filter_In. by apply H.
Qed.
Lemma elem_of_filterb {A} (P : A -> bool) l x : x ∈ List.filter P l <-> x ∈ l /\ P x = true.
Proof. by rewrite !list_elem_of_In, filter_In. Qed.

Lemma filter_merge P a b : key_sorted a -> key_sorted b -> keys_apart a b ->
  List.filter P (merge_refs a b) = merge_refs (List.filter P a) (List.filter P b).
Proof.
  intros Ha Hb Hap. apply key_sorted_unique.
  - by apply key_sorted_filter, merge_sorted.
  - apply merge_sorted; [by apply key_sorted_filter|by apply key_sorted_filter|by apply filter_apart].
  - intros d. rewrite elem_of_filterb, !elem_of_merge, !elem_of_filterb. tauto.
Qed.

(** ** Searching an ordered list *)
Lemma filter_suffix (l : list DocRef) n P :
  (forall i d, l !! i = Some d -> P d = bool_decide (n <= i)%nat) -> List.filter P l = drop n l.
Proof.
  revert n; induction l as [|d l IH]; intros n H; [by rewrite drop_nil|]. cbn [List.filter]. rewrite (H 0%nat d eq_refl).
  destruct n as [|n]; cbn [drop].
  - rewrite bool_decide_true by lia. rewrite (IH 0%nat); [by rewrite drop_0|]. intros i e Hi. rewrite (H (S i) e Hi).
    apply bool_decide_ext. lia.
  - rewrite bool_decide_false by lia. apply IH. intros i e Hi. rewrite (H (S i) e Hi). apply bool_decide_ext. lia.
Qed.

Lemma key_sorted_lookup (l : list DocRef) i j d e : key_sorted l -> l !! i = Some d -> l !! j = Some e -> (i < j)%nat -> key_lt d e.
Proof.
  intros Hl; revert i j; induction Hl as [|x l Hl IH Hx]; intros i j Hi Hj Hij; [done|].
  destruct j as [|j]; [lia|]. destruct i as [|i]; cbn in *.
  - injection Hi as <-. rewrite Forall_forall in Hx. by eapply Hx, list_elem_of_lookup_2.
  - by apply (IH i j); [..|lia].
Qed.

(** The position [sort.Search] finds for a lower bound. *)
Definition search_position (l : list DocRef) (lower : bytes) : nat :=
  sort_Search (length l) (fun i => match l !! i with Some d => bytes_leb lower (docref_OrderKey d) | None => true end).

Lemma search_position_spec l lower : key_sorted l ->
  drop (search_position l lower) l = List.filter (fun d => bytes_leb lower (docref_OrderKey d)) l.
Proof.
  intros Hl. unfold search_position, sort_Search. set (f := fun i : nat => _).
  assert (Hm : forall a b, (a <= b)%nat -> f a = true -> f b = true).
  { intros a b Hab. unfold f. destruct (l !! b) as [e|] eqn:Eb; [|done]. destruct (l !! a) as [d|] eqn:Ea.
    - destruct (decide (a = b)) as [->|]; [congruence|]. assert (Hlt : key_lt d e) by (eapply key_sorted_lookup; [done..|lia]).
      rewrite !bytes_leb_le. intros Hle. eapply bytes_le_trans; [exact Hle|]. unfold key_lt in Hlt. by rewrite Hlt.
    - apply lookup_ge_None in Ea. apply lookup_lt_Some in Eb. lia. }
  destruct (binary_search_spec (length l) f 0 (length l) Hm) as (H1 & H2 & H3); [lia|lia|lia| |].
  { unfold f. by rewrite (proj2 (lookup_ge_None l (length l))) by lia. }
  symmetry. apply filter_suffix. intros i d Hi. assert (E : f i = bytes_leb lower (docref_OrderKey d)) by (unfold f; by rewrite Hi).
  rewrite <- E. destruct (decide (binary_search (length l) f 0 (length l) <= i)%nat) as [Hle|Hgt].
  - rewrite bool_decide_true by done. by apply (Hm _ _ Hle).
  - rewrite bool_decide_false by done. apply H3. lia.
Qed.

(** Once a key is at or past the upper bound, all later ones are. *)
Lemma below_upper_sorted opts d l : key_sorted (d :: l) -> below_upper opts (docref_OrderKey d) = false ->
  List.filter (fun e => below_upper opts (docref_OrderKey e)) (d :: l) = [].
Proof.
  intros Hs Hd. apply StronglySorted_inv in Hs as [_ Hl]. cbn. rewrite Hd. apply filter_none. intros e He.
  rewrite Forall_forall in Hl. specialize (Hl e He). unfold below_upper in *. destruct (opt_Upper opts) as [u|]; [|done].
  destruct (bytes_ltb (docref_OrderKey e) u) eqn:E; [|done]. apply bytes_ltb_lt in E. unfold key_lt in Hl.
  pose proof (bytes_compare_trans _ _ _ Hl E) as Ht. apply bytes_ltb_lt in Ht. congruence.
Qed.
