(* ===== verification/Keys.v ===== *)
(** * The key layout of the persistent index store:
      internal/indexer/persist_store/keys.go, projection.go and catalog.go

    Every row of the database has a key made of escaped path components. The
    layout is injective: rows of different kinds, partitions, documents or
    databases never share a key ([decode_encode_key]), and a range of keys with
    a common prefix holds exactly the rows of one kind under one database or
    partition ([in_prefix]). *)
From stdpp Require Import base list gmap strings.
From Stdlib Require Import ZArith.
From S2P Require Import Prelude OrderKey IndexStore Codec Intervals.
Local Open Scope Z_scope.

(** ** [url.PathEscape] and [url.PathUnescape]: bytes that may stand in one path
    segment are kept, the others are written as a percent sign and two digits *)
Definition in_span (lo hi c : Z) : bool := (lo <=? c) && (c <=? hi).
Definition alphanumeric (c : Z) : bool := in_span 97 122 c || in_span 65 90 c || in_span 48 57 c.

Definition shouldEscape (c : Z) : bool :=
  negb (alphanumeric c ||
        existsb (Z.eqb c) (bytes_of_string "-_.~") || existsb (Z.eqb c) (bytes_of_string "$&+=:@")).

Definition upperhex (d : Z) : Z := if d <? 10 then 48 + d else 55 + d.
Definition unhex (c : Z) : option Z :=
  if in_span 48 57 c then Some (c - 48)
  else if in_span 97 102 c then Some (c - 87)
  else if in_span 65 70 c then Some (c - 55)
  else None.

Fixpoint escape (s : bytes) : bytes :=
  match s with
  | [] => []
  | c :: s => if shouldEscape c then 37 :: upperhex (Z.shiftr c 4) :: upperhex (Z.land c 15) :: escape s
              else c :: escape s
  end.

Fixpoint unescape (s : bytes) : option bytes :=
  match s with
  | [] => Some []
  | c :: s =>
      if c =? 37 then
        match s with
        | h :: l :: s =>
            match unhex h, unhex l with
            | Some h, Some l => cons (Z.lor (Z.shiftl h 4) l) <$> unescape s
            | _, _ => None
            end
        | _ => None
        end
      else cons c <$> unescape s
  end.

Definition encodePathComponent (s : string) : bytes := escape (bytes_of_string s).
Definition decodePathComponent (s : bytes) : option string := string_of_bytes <$> unescape s.

(** Every byte survives, and no separator is left. *)
Definition escape_ok (c : Z) : bool :=
  let e := escape [c] in
  negb (existsb (Z.eqb 47) e) && forallb (fun b => in_span 0 255 b) e
  && bool_decide (unescape e = Some [c]).

Lemma escape_byte c : is_byte c -> escape_ok c = true.
Proof.
  unfold is_byte; intros Hc.
  assert (forallb (fun n => escape_ok (Z.of_nat n)) (seq 0 256) = true) as H by (vm_compute; reflexivity).
  rewrite forallb_forall in H. specialize (H (Z.to_nat c)). rewrite Z2Nat.id in H by lia.
  apply H, in_seq. lia.
Qed.

Lemma path_escape_cons c s : escape (c :: s) = escape [c] ++ escape s.
Proof. cbn. by destruct (shouldEscape c). Qed.

Lemma unescape_cons c s : is_byte c -> unescape (escape [c] ++ s) = cons c <$> unescape s.
Proof.
  intros Hc. pose proof (escape_byte c Hc) as H. unfold escape_ok in H. cbn [escape] in *.
  destruct (shouldEscape c) eqn:E; apply andb_true_iff in H as [_ H%bool_decide_eq_true]; cbn in *.
  - destruct (unhex _); [|done]. destruct (unhex _); [|done]. cbn in *. congruence.
  - destruct (c =? 37); [done|]. done.
Qed.

Lemma unescape_escape s : is_bytes s -> unescape (escape s) = Some s.
Proof.
  induction 1 as [|c s Hc Hs IH]; [done|]. rewrite path_escape_cons, unescape_cons by done. by rewrite IH.
Qed.

Lemma escape_no_slash s : is_bytes s -> 47 ∉ escape s.
Proof.
  induction 1 as [|c s Hc Hs IH]; [by intros ?%elem_of_nil|]. rewrite path_escape_cons, elem_of_app. intros [H|H]; [|done].
  pose proof (escape_byte c Hc) as Ho. unfold escape_ok in Ho. do 2 apply andb_true_iff in Ho as [Ho _].
  apply negb_true_iff in Ho. apply not_true_iff_false in Ho. apply Ho, existsb_exists.
  exists 47. split; [by apply list_elem_of_In|done].
Qed.

Lemma path_escape_bytes s : is_bytes s -> is_bytes (escape s).
Proof.
  induction 1 as [|c s Hc Hs IH]; [constructor|]. rewrite path_escape_cons. apply is_bytes_app; [|done].
  pose proof (escape_byte c Hc) as Ho. unfold escape_ok in Ho. apply andb_true_iff in Ho as [Ho _].
  apply andb_true_iff in Ho as [_ Ho]. apply Forall_forall. intros b Hb.
  rewrite forallb_forall in Ho. apply list_elem_of_In, Ho in Hb. unfold in_span, is_byte in *. lia.
Qed.

Lemma component_no_slash s : 47 ∉ encodePathComponent s.
Proof. apply escape_no_slash, bytes_of_string_bytes. Qed.
Lemma path_component_bytes s : is_bytes (encodePathComponent s).
Proof. apply path_escape_bytes, bytes_of_string_bytes. Qed.
Lemma decode_component s : decodePathComponent (encodePathComponent s) = Some s.
Proof.
  unfold decodePathComponent, encodePathComponent. rewrite unescape_escape by apply bytes_of_string_bytes.
  cbn. by rewrite string_of_bytes_of_string.
Qed.
#[export] Instance encodePathComponent_inj : Inj (=) (=) encodePathComponent.
Proof. intros a b H. pose proof (decode_component a) as E. rewrite H, decode_component in E. by injection E. Qed.
Lemma slash_bytes : is_bytes [47].
Proof. constructor; [unfold is_byte; lia|constructor]. Qed.
#[export] Hint Resolve component_no_slash path_component_bytes slash_bytes : syntrix.
#[global] Arguments encodePathComponent : simpl never.
#[global] Arguments decodePathComponent : simpl never.

(** ** Key builders *)

(** [xxhash.Sum64] of a byte string. *)
Class XXHash := { Sum64 : bytes -> Z }.

Definition prefixIdx : bytes := bytes_of_string "idx/".
Definition prefixRev : bytes := bytes_of_string "rev/".
Definition prefixMap : bytes := bytes_of_string "map/".
Definition prefixState : bytes := bytes_of_string "meta/state/".
Definition keyProgress : bytes := bytes_of_string "meta/progress".
Definition manifestKey : bytes := bytes_of_string "meta/format".
Definition catalogInventoryKey : bytes := bytes_of_string "v2/catalog-inventory".

Section Builders.
Context `{XX : XXHash}.

Definition indexHash (pattern tmplID : string) : bytes :=
  hex_encode (be_bytes 8 (Sum64 (bytes_of_string pattern ++ bytes_of_string "|" ++ bytes_of_string tmplID))).

Definition indexKeyPrefix (db pattern tmplID : string) : bytes :=
  prefixIdx ++ encodePathComponent db ++ [47] ++ indexHash pattern tmplID ++ [47].
Definition indexKey (db pattern tmplID : string) (orderKey : bytes) : bytes :=
  prefixIdx ++ encodePathComponent db ++ [47] ++ indexHash pattern tmplID ++ [47] ++ orderKey.
Definition reverseKeyPrefix (db pattern tmplID : string) : bytes :=
  prefixRev ++ encodePathComponent db ++ [47] ++ indexHash pattern tmplID ++ [47].
Definition reverseKey (db pattern tmplID docID : string) : bytes :=
  prefixRev ++ encodePathComponent db ++ [47] ++ indexHash pattern tmplID ++ [47] ++ encodePathComponent docID.
Definition mapKey (db pattern tmplID : string) : bytes :=
  prefixMap ++ encodePathComponent db ++ [47] ++ indexHash pattern tmplID.
Definition stateKey (db pattern tmplID : string) : bytes :=
  prefixState ++ encodePathComponent db ++ [47] ++ indexHash pattern tmplID.
End Builders.

Definition parseIndexKey (key prefix : bytes) : bytes :=
  if (length key <=? length prefix)%nat then [] else drop (length prefix) key.

Definition projectionPrefix (kind : string) (r : QueryIndexRef) : bytes :=
  bytes_of_string "v2/" ++ bytes_of_string kind ++ [47] ++ encodePathComponent (ref_Database r) ++ [47]
  ++ encodePathComponent (ref_Collection r) ++ [47] ++ encodePathComponent (ref_TemplateFingerprint r) ++ [47]
  ++ encodePathComponent (ref_Generation r) ++ [47].

Definition generationKey (db collection fingerprint : string) : bytes :=
  bytes_of_string "v2/generation/" ++ encodePathComponent db ++ [47] ++ encodePathComponent collection ++ [47]
  ++ encodePathComponent fingerprint.

Definition catalogKey (database : string) : bytes := bytes_of_string "v2/catalog/" ++ encodePathComponent database.
Definition retiredDatabaseKey (database : string) : bytes := bytes_of_string "v2/retired/" ++ encodePathComponent database.

(** The loop of prefixEnd, from the last byte backwards. *)
Fixpoint prefixEnd_from (reversed : bytes) : option bytes :=
  match reversed with
  | [] => None
  | b :: reversed => if negb (b =? 255) then Some (rev reversed ++ [u8 (b + 1)]) else prefixEnd_from reversed
  end.
Definition prefixEnd (prefix : bytes) : option bytes := prefixEnd_from (rev prefix).

(** ** The rows of the database *)
Inductive db_key :=
| KPosting (r : QueryIndexRef) (key : bytes)
| KReverse (r : QueryIndexRef) (docID : string)
| KPartition (r : QueryIndexRef)
| KGeneration (db collection fingerprint : string)
| KCatalog (db : string)
| KInventory
| KRetired (db : string)
| KIndex (db : string) (hash key : bytes)
| KRev (db : string) (hash : bytes) (docID : string)
| KMap (db : string) (hash : bytes)
| KState (db : string) (hash : bytes)
| KProgress
| KFormat.

#[export] Instance db_key_eq_dec : EqDecision db_key.
Proof. solve_decision. Defined.

Definition encode_key (k : db_key) : bytes :=
  match k with
  | KPosting r key => projectionPrefix "posting" r ++ key
  | KReverse r docID => projectionPrefix "reverse" r ++ encodePathComponent docID
  | KPartition r => projectionPrefix "partition" r
  | KGeneration db collection fingerprint => generationKey db collection fingerprint
  | KCatalog db => catalogKey db
  | KInventory => catalogInventoryKey
  | KRetired db => retiredDatabaseKey db
  | KIndex db hash key => prefixIdx ++ encodePathComponent db ++ [47] ++ hash ++ [47] ++ key
  | KRev db hash docID => prefixRev ++ encodePathComponent db ++ [47] ++ hash ++ [47] ++ encodePathComponent docID
  | KMap db hash => prefixMap ++ encodePathComponent db ++ [47] ++ hash
  | KState db hash => prefixState ++ encodePathComponent db ++ [47] ++ hash
  | KProgress => keyProgress
  | KFormat => manifestKey
  end.

(** Hashes are hexadecimal, keys and hashes are bytes. *)
Definition wf_key (k : db_key) : Prop :=
  match k with
  | KPosting _ key => is_bytes key
  | KIndex _ hash key => is_bytes hash /\ (47 ∉ hash) /\ is_bytes key
  | KRev _ hash _ | KMap _ hash | KState _ hash => is_bytes hash /\ (47 ∉ hash)
  | _ => True
  end.

(** The text up to the first separator, and what follows it. *)
Fixpoint cut (l : bytes) : option (bytes * bytes) :=
  match l with
  | [] => None
  | b :: l => if b =? 47 then Some ([], l) else (prod_map (cons b) id <$> cut l)
  end.

Lemma cut_app a b : 47 ∉ a -> cut (a ++ 47 :: b) = Some (a, b).
Proof.
  induction a as [|c a IH]; cbn; [done|]. intros [Hc Ha]%not_elem_of_cons.
  destruct (Z.eqb_spec c 47); [congruence|]. by rewrite (IH Ha).
Qed.
Lemma cut_none a : 47 ∉ a -> cut a = None.
Proof.
  induction a as [|c a IH]; cbn; [done|]. intros [Hc Ha]%not_elem_of_cons.
  destruct (Z.eqb_spec c 47); [congruence|]. by rewrite (IH Ha).
Qed.
Lemma cut_component s b : cut (encodePathComponent s ++ 47 :: b) = Some (encodePathComponent s, b).
Proof. apply cut_app, component_no_slash. Qed.

(** Reads one component and its separator. *)
Definition component {A} (l : bytes) (k : string -> bytes -> option A) : option A :=
  '(a, l) ← cut l; s ← decodePathComponent a; k s l.
#[local] Arguments component : simpl never.
Lemma component_app {A} s l (k : string -> bytes -> option A) : component (encodePathComponent s ++ 47 :: l) k = k s l.
Proof. unfold component. rewrite cut_component. cbn. by rewrite decode_component. Qed.

Definition reference {A} (l : bytes) (k : QueryIndexRef -> bytes -> option A) : option A :=
  component l (fun a l => component l (fun b l => component l (fun c l => component l (fun d l =>
    k (IndexRef a b c d) l)))).

Definition decode_v2 (kind l : bytes) : option db_key :=
  if bytes_eqb kind (bytes_of_string "posting") then reference l (fun r l => Some (KPosting r l))
  else if bytes_eqb kind (bytes_of_string "reverse")
  then reference l (fun r l => KReverse r <$> decodePathComponent l)
  else if bytes_eqb kind (bytes_of_string "partition") then reference l (fun r _ => Some (KPartition r))
  else if bytes_eqb kind (bytes_of_string "generation")
  then component l (fun a l => component l (fun b l => KGeneration a b <$> decodePathComponent l))
  else if bytes_eqb kind (bytes_of_string "catalog") then KCatalog <$> decodePathComponent l
  else if bytes_eqb kind (bytes_of_string "retired") then KRetired <$> decodePathComponent l
  else None.

Definition decode_key (l : bytes) : option db_key :=
  '(head, l) ← cut l;
  if bytes_eqb head (bytes_of_string "v2") then
    match cut l with
    | Some (kind, l) => decode_v2 kind l
    | None => Some KInventory
    end
  else if bytes_eqb head (bytes_of_string "idx") then
    component l (fun db l => '(hash, key) ← cut l; Some (KIndex db hash key))
  else if bytes_eqb head (bytes_of_string "rev") then
    component l (fun db l => '(hash, doc) ← cut l; KRev db hash <$> decodePathComponent doc)
  else if bytes_eqb head (bytes_of_string "map") then component l (fun db hash => Some (KMap db hash))
  else match cut l with
  | Some (_, l) => component l (fun db hash => Some (KState db hash))
  | None => if bytes_eqb l (bytes_of_string "progress") then Some KProgress else Some KFormat
  end.

(** Replaces a literal by its bytes. *)
Ltac literals :=
  unfold prefixIdx, prefixRev, prefixMap, prefixState, keyProgress, manifestKey, catalogInventoryKey in *;
  repeat match goal with
  | |- context [bytes_of_string (String.String ?a ?b)] =>
      let v := eval vm_compute in (bytes_of_string (String.String a b)) in
      change (bytes_of_string (String.String a b)) with v
  end.

Lemma projectionPrefix_app kind r l :
  projectionPrefix kind r ++ l =
  bytes_of_string "v2/" ++ bytes_of_string kind ++ 47 :: encodePathComponent (ref_Database r) ++ 47 ::
    encodePathComponent (ref_Collection r) ++ 47 :: encodePathComponent (ref_TemplateFingerprint r) ++ 47 ::
    encodePathComponent (ref_Generation r) ++ 47 :: l.
Proof. unfold projectionPrefix. by rewrite <- !app_assoc. Qed.

Lemma reference_app {A} r l (k : QueryIndexRef -> bytes -> option A) :
  reference (encodePathComponent (ref_Database r) ++ 47 :: encodePathComponent (ref_Collection r) ++ 47 ::
    encodePathComponent (ref_TemplateFingerprint r) ++ 47 :: encodePathComponent (ref_Generation r) ++ 47 :: l) k = k r l.
Proof. unfold reference. rewrite !component_app. by destruct r. Qed.

Lemma decode_projection kind r l :
  47 ∉ bytes_of_string kind ->
  decode_key (projectionPrefix kind r ++ l) = decode_v2 (bytes_of_string kind)
    (encodePathComponent (ref_Database r) ++ 47 :: encodePathComponent (ref_Collection r) ++ 47 ::
     encodePathComponent (ref_TemplateFingerprint r) ++ 47 :: encodePathComponent (ref_Generation r) ++ 47 :: l).
Proof.
  intros Hk. rewrite projectionPrefix_app. change (bytes_of_string "v2/") with ([118; 50] ++ [47]). rewrite <- app_assoc.
  cbn [app]. unfold decode_key. cbn [cut Z.eqb Pos.eqb fmap option_fmap option_map prod_map].
  cbn. rewrite cut_app by done. done.
Qed.

Lemma decode_encode_key k : wf_key k -> decode_key (encode_key k) = Some k.
Proof.
  assert (Hlit : forall kind, bool_decide (47 ∉ bytes_of_string kind) = true -> 47 ∉ bytes_of_string kind)
    by (intros ?; by apply bool_decide_eq_true).
  destruct k; cbn [wf_key encode_key]; intros Hk.
  - rewrite decode_projection by (by apply Hlit). unfold decode_v2. rewrite reference_app. done.
  - rewrite decode_projection by (by apply Hlit). unfold decode_v2. literals. cbn. rewrite reference_app. by rewrite decode_component.
  - rewrite <- (app_nil_r (projectionPrefix _ _)). rewrite decode_projection by (by apply Hlit).
    unfold decode_v2. literals. cbn. by rewrite reference_app.
  - unfold generationKey, decode_key. literals. cbn. unfold decode_v2. literals. cbn. rewrite !component_app. cbn. by rewrite decode_component.
  - unfold catalogKey, decode_key. literals. cbn. unfold decode_v2. literals. cbn. by rewrite decode_component.
  - done.
  - unfold retiredDatabaseKey, decode_key. literals. cbn. unfold decode_v2. literals. cbn. by rewrite decode_component.
  - destruct Hk as (_ & Hh & _). unfold decode_key. literals. cbn. rewrite component_app. rewrite cut_app by done. done.
  - destruct Hk as (_ & Hh). unfold decode_key. literals. cbn. rewrite component_app. rewrite cut_app by done. cbn.
    by rewrite decode_component.
  - unfold decode_key. literals. cbn. by rewrite component_app.
  - unfold decode_key. literals. cbn. by rewrite component_app.
  - done.
  - done.
Qed.

Lemma encode_key_inj k k' : wf_key k -> wf_key k' -> encode_key k = encode_key k' -> k = k'.
Proof. intros H H' E. apply decode_encode_key in H, H'. rewrite E, H' in H. by injection H. Qed.

(** ** Ranges of keys with a common prefix *)
Lemma prefixb_cut x y p k : 47 ∉ x -> 47 ∉ y -> prefixb (x ++ 47 :: p) (y ++ 47 :: k) = bool_decide (x = y) && prefixb p k.
Proof.
  revert y; induction x as [|b x IH]; intros [|c y]; cbn [app prefixb]; intros Hx Hy.
  - by rewrite bool_decide_true.
  - apply not_elem_of_cons in Hy as [Hc _]. rewrite bool_decide_false by done. rewrite (proj2 (Z.eqb_neq 47 c)) by done. done.
  - apply not_elem_of_cons in Hx as [Hb _]. rewrite bool_decide_false by done. destruct (Z.eqb_spec b 47); [congruence|done].
  - apply not_elem_of_cons in Hx as [Hb Hx], Hy as [Hc Hy]. rewrite IH by done.
    destruct (Z.eqb_spec b c) as [->|Hbc]; cbn.
    + f_equal. apply bool_decide_ext. split; congruence.
    + rewrite bool_decide_false by congruence. done.
Qed.
Lemma prefixb_uncut x y p : 47 ∉ y -> prefixb (x ++ 47 :: p) y = false.
Proof.
  revert y; induction x as [|b x IH]; intros [|c y]; cbn [app prefixb]; intros Hy; [done| |done|].
  - apply not_elem_of_cons in Hy as [Hc _]. destruct (Z.eqb_spec 47 c); [congruence|done].
  - apply not_elem_of_cons in Hy as [Hc Hy]. rewrite IH by done. apply andb_false_r.
Qed.
Lemma prefixb_component a b p k :
  prefixb (encodePathComponent a ++ 47 :: p) (encodePathComponent b ++ 47 :: k) = bool_decide (a = b) && prefixb p k.
Proof.
  rewrite prefixb_cut by apply component_no_slash. f_equal. apply bool_decide_ext. split; [apply (inj _)|congruence].
Qed.
Lemma prefixb_last a b p : prefixb (encodePathComponent a ++ 47 :: p) (encodePathComponent b) = false.
Proof. apply prefixb_uncut, component_no_slash. Qed.
Lemma prefixb_nil k : prefixb [] k = true.
Proof. by destruct k. Qed.
#[global] Arguments prefixb !p !k /.

Lemma prefixEnd_PrefixSuccessor p : prefixEnd p = PrefixSuccessor p.
Proof.
  unfold prefixEnd. rewrite <- (rev_involutive p) at 2. induction (rev p) as [|b r IH] using rev_ind; [done|].
  rewrite rev_app_distr. cbn [rev app PrefixSuccessor]. rewrite <- IH. clear IH p.
  induction r as [|c r IH]; cbn [app prefixEnd_from rev]; [by destruct (b =? 255)|].
  destruct (c =? 255); cbn [negb]; [exact IH|]. by rewrite rev_app_distr.
Qed.

Lemma range_prefix p k : is_bytes p -> is_bytes k -> bytes_leb p k && below k (prefixEnd p) = prefixb p k.
Proof.
  intros Hp Hk. rewrite prefixEnd_PrefixSuccessor, PrefixSuccessor_below, bytes_leb_ltb by done.
  destruct (bytes_ltb k p) eqn:E; cbn; [|done]. destruct (prefixb p k) eqn:Ep; [|done].
  apply prefixb_split in Ep as [rest ->]. apply bytes_ltb_lt in E.
  rewrite <- (app_nil_r p) in E at 2. rewrite bytes_compare_app_r in E. by destruct rest.
Qed.

Lemma projectionPrefix_bytes kind r : is_bytes (projectionPrefix kind r).
Proof. unfold projectionPrefix. repeat apply is_bytes_app; eauto with syntrix; repeat constructor; lia. Qed.

Lemma hex_encode_spec l : is_bytes l -> is_bytes (hex_encode l) /\ 47 ∉ hex_encode l.
Proof.
  assert (H : forall d, 0 <= d < 16 -> 48 <= hex_char d < 128) by (intros d; unfold hex_char; destruct (Z.ltb_spec d 10); lia).
  induction 1 as [|b l Hb Hl [IH1 IH2]]; cbn; [split; [constructor|by intros ?%elem_of_nil]|].
  unfold is_byte in *. pose proof (H (b / 16) ltac:(split; [apply Z.div_pos|apply Z.div_lt_upper_bound]; lia)).
  pose proof (H (b mod 16) ltac:(apply Z.mod_pos_bound; lia)). split.
  - do 2 (constructor; [unfold is_byte; lia|]). done.
  - rewrite !not_elem_of_cons. split_and!; [lia|lia|done].
Qed.
Lemma indexHash_spec `{XX : XXHash} pattern tmplID : is_bytes (indexHash pattern tmplID) /\ 47 ∉ indexHash pattern tmplID.
Proof. apply hex_encode_spec, be_bytes_bytes. Qed.

Lemma indexKeyPrefix_bytes `{XX : XXHash} db pattern tmplID : is_bytes (indexKeyPrefix db pattern tmplID).
Proof.
  destruct (indexHash_spec pattern tmplID) as [Hb _]. unfold indexKeyPrefix. revert Hb. generalize (indexHash pattern tmplID).
  intros. unfold prefixIdx. repeat apply is_bytes_app; eauto with syntrix.
Qed.
Lemma reverseKeyPrefix_bytes `{XX : XXHash} db pattern tmplID : is_bytes (reverseKeyPrefix db pattern tmplID).
Proof.
  destruct (indexHash_spec pattern tmplID) as [Hb _]. unfold reverseKeyPrefix. revert Hb. generalize (indexHash pattern tmplID).
  intros. unfold prefixRev. repeat apply is_bytes_app; eauto with syntrix.
Qed.

Lemma encode_key_bytes k : wf_key k -> is_bytes (encode_key k).
Proof.
  destruct k; cbn [wf_key encode_key]; intros Hk; destruct_and?; unfold generationKey, catalogKey, retiredDatabaseKey;
    try apply is_bytes_app; try apply projectionPrefix_bytes;
    repeat apply is_bytes_app; unfold prefixIdx, prefixRev, prefixMap, prefixState; eauto with syntrix;
    try (apply bytes_of_string_bytes); try (repeat constructor; lia).
Qed.

(** The rows of one partition. *)
Lemma prefixb_reference kind kind' r r' l : 47 ∉ bytes_of_string kind -> 47 ∉ bytes_of_string kind' ->
  prefixb (projectionPrefix kind r) (projectionPrefix kind' r' ++ l) = bool_decide (kind = kind' /\ r = r').
Proof.
  intros Hk Hk'. rewrite <- (app_nil_r (projectionPrefix _ _)), !projectionPrefix_app. literals.
  rewrite prefixb_app_r, prefixb_cut, !prefixb_component, prefixb_nil by done.
  rewrite andb_true_r, <- !bool_decide_and. apply bool_decide_ext. destruct r, r'; cbn.
  split; [intros (?%(inj _) & ? & ? & ? & ?); by subst|by intros [-> [= -> -> -> ->]]].
Qed.

Ltac by_literal := literals; cbn; done.

Lemma projection_prefix kind r k : kind = "posting" \/ kind = "reverse" ->
  prefixb (projectionPrefix kind r) (encode_key k) =
  match k with
  | KPosting r' _ => bool_decide (kind = "posting" /\ r = r')
  | KReverse r' _ => bool_decide (kind = "reverse" /\ r = r')
  | _ => false
  end.
Proof.
  assert (Hn : forall s, s ∈ ["posting"; "reverse"; "partition"] -> 47 ∉ bytes_of_string s)
    by (intros s Hs; repeat (apply elem_of_cons in Hs as [->|Hs]; [by apply (bool_decide_unpack _)|]); by apply elem_of_nil in Hs).
  intros Hkind. assert (Hs : kind ∈ ["posting"; "reverse"; "partition"]) by (destruct Hkind; set_solver).
  destruct k; cbn [encode_key];
    try (rewrite <- (app_nil_r (projectionPrefix "partition" _))); try (rewrite prefixb_reference by (apply Hn; set_solver));
    try (rewrite <- (app_nil_r (projectionPrefix kind _)), projectionPrefix_app; destruct Hkind as [-> | ->]; by_literal).
  - done.
  - done.
  - apply bool_decide_false. destruct Hkind as [-> | ->]; by intros [? _].
Qed.

(** The rows of one database in one namespace. *)
Definition key_namespace (k : db_key) : option (string * string) :=
  match k with
  | KPosting r _ => Some ("v2/posting/", ref_Database r)
  | KReverse r _ => Some ("v2/reverse/", ref_Database r)
  | KPartition r => Some ("v2/partition/", ref_Database r)
  | KGeneration db _ _ => Some ("v2/generation/", db)
  | KIndex db _ _ => Some ("idx/", db)
  | KRev db _ _ => Some ("rev/", db)
  | KMap db _ => Some ("map/", db)
  | KState db _ => Some ("meta/state/", db)
  | _ => None
  end%string.
Definition namespaces : list string :=
  ["idx/"; "rev/"; "map/"; "meta/state/"; "v2/posting/"; "v2/reverse/"; "v2/generation/"; "v2/partition/"].
Definition database_prefix (namespace db : string) : bytes := bytes_of_string namespace ++ encodePathComponent db ++ [47].

Lemma encode_key_namespace k :
  match key_namespace k with
  | Some (ns, db) => exists rest, encode_key k = bytes_of_string ns ++ encodePathComponent db ++ 47 :: rest
  | None => True
  end.
Proof.
  destruct k; cbn [key_namespace encode_key]; try done;
    try (unfold projectionPrefix; rewrite <- !app_assoc); unfold generationKey; literals; cbn [app]; by eexists.
Qed.

Lemma prefixb_database ns db k : ns ∈ namespaces ->
  prefixb (database_prefix ns db) (encode_key k) = bool_decide (key_namespace k = Some (ns, db)).
Proof.
  intros Hns. pose proof (encode_key_namespace k) as Hk. unfold database_prefix.
  destruct (key_namespace k) as [[ns' db']|] eqn:E.
  - destruct Hk as [rest ->]. destruct (decide (ns = ns')) as [->|Hne].
    + rewrite prefixb_app_r, prefixb_component, prefixb_nil, andb_true_r. apply bool_decide_ext. split; congruence.
    + rewrite bool_decide_false by congruence.
      assert (Hns' : ns' ∈ namespaces) by (unfold namespaces; destruct k; cbn in E; simplify_eq; set_solver). clear E k.
      unfold namespaces in *.
      repeat (apply elem_of_cons in Hns as [->|Hns];
        [repeat (apply elem_of_cons in Hns' as [->|Hns']; [first [done|by_literal]|]); by apply elem_of_nil in Hns'|]).
      by apply elem_of_nil in Hns.
  - rewrite bool_decide_false by done. unfold namespaces in *.
    repeat (apply elem_of_cons in Hns as [->|Hns]; [destruct k; cbn in E; simplify_eq; unfold encode_key, catalogKey, retiredDatabaseKey; by_literal|]).
    by apply elem_of_nil in Hns.
Qed.

Lemma prefixb_catalogs k :
  prefixb (bytes_of_string "v2/catalog/") (encode_key k) = match k with KCatalog _ => true | _ => false end.
Proof.
  destruct k; cbn [encode_key]; unfold projectionPrefix, generationKey, catalogKey, retiredDatabaseKey; by_literal.
Qed.
Lemma prefixb_partitions k :
  prefixb (bytes_of_string "v2/partition/") (encode_key k) = match k with KPartition _ => true | _ => false end.
Proof.
  destruct k; cbn [encode_key]; unfold projectionPrefix, generationKey, catalogKey, retiredDatabaseKey; by_literal.
Qed.

(** The rows of one legacy index. *)
Lemma prefixb_index db hash k : 47 ∉ hash -> wf_key k ->
  prefixb (prefixIdx ++ encodePathComponent db ++ [47] ++ hash ++ [47]) (encode_key k) =
  match k with KIndex db' hash' _ => bool_decide (db = db' /\ hash = hash') | _ => false end.
Proof.
  intros Hh Hk. destruct k; cbn [encode_key]; unfold projectionPrefix, generationKey, catalogKey, retiredDatabaseKey; try by_literal.
  cbn in Hk. destruct_and? Hk. cbn [app]. rewrite prefixb_app_r, prefixb_component, prefixb_cut, prefixb_nil, andb_true_r by done.
  by rewrite <- bool_decide_and.
Qed.
Lemma prefixb_reverse db hash k : 47 ∉ hash -> wf_key k ->
  prefixb (prefixRev ++ encodePathComponent db ++ [47] ++ hash ++ [47]) (encode_key k) =
  match k with KRev db' hash' _ => bool_decide (db = db' /\ hash = hash') | _ => false end.
Proof.
  intros Hh Hk. destruct k; cbn [encode_key]; unfold projectionPrefix, generationKey, catalogKey, retiredDatabaseKey; try by_literal.
  cbn in Hk. destruct_and? Hk. cbn [app]. rewrite prefixb_app_r, prefixb_component, prefixb_cut, prefixb_nil, andb_true_r by done.
  by rewrite <- bool_decide_and.
Qed.
