(* ===== verification/Pebble.v ===== *)
(** * The database under the persistent store: the interfaces of
      internal/indexer/persist_store/db.go

    github.com/cockroachdb/pebble is not part of the repository: the class has
    the methods of DB, Snapshot, Iterator and Batch that the store calls and what
    their documentation promises. Any call may fail; a failing call promises
    nothing about its result, except that a batch is applied whole or not at
    all. *)
From stdpp Require Import base list gmap sorting strings.
From Stdlib Require Import ZArith.
From S2P Require Import Prelude Intervals.
Local Open Scope Z_scope.

(** What a batch holds: Set with its value, Delete without one. *)
Definition batch_op : Type := bytes * option bytes.
Definition BatchSet (key value : bytes) : batch_op := (key, Some value).
Definition BatchDelete (key : bytes) : batch_op := (key, None).

Definition apply_op (m : gmap bytes bytes) (op : batch_op) : gmap bytes bytes :=
  match op.2 with Some value => <[op.1 := value]> m | None => delete op.1 m end.
Definition apply_ops (m : gmap bytes bytes) (ops : list batch_op) : gmap bytes bytes := foldl apply_op m ops.

(** The keys of [NewIter]'s range: the lower bound is inclusive, the upper
    exclusive, and a nil upper bound is no bound. *)
Definition in_range (lower : bytes) (upper : option bytes) (key : bytes) : bool :=
  bytes_leb lower key && below key upper.

Definition row : Type := bytes * bytes.
Definition row_lt (a b : row) : Prop := bytes_compare a.1 b.1 = Lt.

Class Pebble := {
  pebble : Type;    (** an open database at one moment; an error is its message *)
  content : pebble -> gmap bytes bytes;
  (** [Get]: the value with the error of closing it, [None] for ErrNotFound. *)
  db_Get : pebble -> bytes -> res string (option (bytes * option string));
  (** [NewIter], then [First] and [Next] to the end: the rows met, what [Error]
      says after the last and what [Close] says. *)
  db_Iter : pebble -> bytes -> option bytes -> res string (list row * option string * option string);
  (** Adding one operation to a batch that holds some. *)
  batch_Add : pebble -> list batch_op -> batch_op -> option string;
  (** [Commit] and [Close] of a batch. *)
  batch_Commit : pebble -> list batch_op -> pebble * option string;
  batch_Close : pebble -> list batch_op -> option string;
  db_Set : pebble -> bytes -> bytes -> pebble * option string;
  (** A snapshot is the database as it was; closing it may fail. *)
  db_NewSnapshot : pebble -> pebble;
  snapshot_Close : pebble -> option string;
  db_Close : pebble -> option string;

  db_Get_law : forall d k r, db_Get d k = Ok r -> fst <$> r = content d !! k;
  db_Iter_law : forall d lower upper rows e c, db_Iter d lower upper = Ok (rows, e, c) ->
    StronglySorted row_lt rows /\
    (forall x, x ∈ rows -> content d !! x.1 = Some x.2 /\ in_range lower upper x.1 = true) /\
    (e = None -> forall k v, content d !! k = Some v -> in_range lower upper k = true -> (k, v) ∈ rows) /\
    (** none is skipped before an error *)
    (forall k v x, content d !! k = Some v -> in_range lower upper k = true -> x ∈ rows -> bytes_compare k x.1 = Lt -> (k, v) ∈ rows);
  batch_Commit_law : forall d ops,
    content (batch_Commit d ops).1 = apply_ops (content d) ops \/
    (content (batch_Commit d ops).1 = content d /\ is_Some (batch_Commit d ops).2);
  db_Set_law : forall d k v,
    content (db_Set d k v).1 = <[k := v]> (content d) \/
    (content (db_Set d k v).1 = content d /\ is_Some (db_Set d k v).2);
  db_NewSnapshot_law : forall d, content (db_NewSnapshot d) = content d;
}.

(** ** What a batch does to one key: the last operation on it counts *)
Definition written (ops : list batch_op) (k : bytes) : option (option bytes) :=
  foldl (fun w op => if bool_decide (op.1 = k) then Some op.2 else w) None ops.

Lemma written_from w ops k :
  foldl (fun w op => if bool_decide (op.1 = k) then Some op.2 else w) w ops =
  match written ops k with Some e => Some e | None => w end.
Proof.
  unfold written. revert w; induction ops as [|op ops IH]; intros w; cbn; [done|]. 
  rewrite (IH (if bool_decide (op.1 = k) then Some op.2 else w)), (IH (if bool_decide (op.1 = k) then Some op.2 else None)).
  case_bool_decide; by destruct (foldl _ None ops).
Qed.
Lemma written_app a b k : written (a ++ b) k = match written b k with Some e => Some e | None => written a k end.
Proof. unfold written at 1. rewrite foldl_app, written_from. done. Qed.
Lemma written_cons op ops k :
  written (op :: ops) k = match written ops k with Some e => Some e | None => if bool_decide (op.1 = k) then Some op.2 else None end.
Proof. apply (written_app [op] ops k). Qed.

Lemma apply_ops_lookup m ops k : apply_ops m ops !! k = default (m !! k) (written ops k).
Proof.
  revert m; induction ops as [|[k' v] ops IH]; intros m; [done|]. cbn [apply_ops foldl]. fold (apply_ops (apply_op m (k', v)) ops).
  rewrite IH, written_cons. destruct (written ops k); [done|]. cbn. unfold apply_op; cbn.
  case_bool_decide as E; cbn; [subst k'|]; destruct v; by simplify_map_eq.
Qed.
Lemma apply_ops_app m a b : apply_ops m (a ++ b) = apply_ops (apply_ops m a) b.
Proof. apply foldl_app. Qed.

Lemma written_none ops k : (forall op, op ∈ ops -> op.1 <> k) -> written ops k = None.
Proof.
  induction ops as [|op ops IH]; intros H; [done|]. rewrite written_cons, IH by (intros; apply H; by right).
  rewrite bool_decide_false; [done|]. apply H. by left.
Qed.
Lemma written_deletes keys k : written (map BatchDelete keys) k = if bool_decide (k ∈ keys) then Some None else None.
Proof.
  induction keys as [|key keys IH]; [done|]. cbn [map]. rewrite written_cons, IH. cbn.
  repeat case_bool_decide; try done; set_solver.
Qed.
Lemma written_sets keys value k :
  written (map (fun key => BatchSet key value) keys) k = if bool_decide (k ∈ keys) then Some (Some value) else None.
Proof.
  induction keys as [|key keys IH]; [done|]. cbn [map]. rewrite written_cons, IH. cbn.
  repeat case_bool_decide; try done; set_solver.
Qed.

(** Of blocks that agree on a key, any that writes it decides. *)
Lemma written_concat blocks k e :
  (forall b, b ∈ blocks -> written b k = None \/ written b k = Some e) ->
  (exists b, b ∈ blocks /\ written b k = Some e) -> written (concat blocks) k = Some e.
Proof.
  intros Ha [b [Hb He]]. induction blocks as [|c blocks IH]; [by apply elem_of_nil in Hb|]. cbn [concat]. rewrite written_app.
  destruct (written (concat blocks) k) as [e'|] eqn:E.
  - assert (Hin : exists b, b ∈ blocks /\ written b k = Some e').
    { clear -E. induction blocks as [|c blocks IH]; [done|]. cbn [concat] in E. rewrite written_app in E.
      destruct (written (concat blocks) k) eqn:E'; [|exists c; split; [left|done]].
      destruct (IH ltac:(congruence)) as (b & Hb & He). exists b. split; [by right|done]. }
    destruct Hin as (b' & Hb' & He'). destruct (Ha b' ltac:(by right)) as [|]; congruence.
  - apply elem_of_cons in Hb as [<-|Hb]; [done|]. discriminate (IH (fun b H => Ha b (list_elem_of_further _ _ _ H)) Hb).
Qed.
Lemma written_concat_none blocks k : (forall b, b ∈ blocks -> written b k = None) -> written (concat blocks) k = None.
Proof.
  intros H. induction blocks as [|c blocks IH]; [done|]. cbn [concat]. rewrite written_app, IH by (intros; apply H; by right).
  apply H. by left.
Qed.

(** ** The rows of a range, in key order *)
Definition sorted_rows (m : gmap bytes bytes) (lower : bytes) (upper : option bytes) : list row :=
  insertion_sort (fun a b => bytes_ltb a.1 b.1) (List.filter (fun x => in_range lower upper x.1) (map_to_list m)).

Lemma elem_of_sorted_rows m lower upper k v :
  (k, v) ∈ sorted_rows m lower upper <-> m !! k = Some v /\ in_range lower upper k = true.
Proof.
  unfold sorted_rows. rewrite insertion_sort_perm. rewrite list_elem_of_In, filter_In, <- list_elem_of_In. by rewrite elem_of_map_to_list.
Qed.

Lemma strictly_sorted (l : list row) :
  StronglySorted (fun a b => bytes_ltb b.1 a.1 = false) l -> NoDup (map fst l) -> StronglySorted row_lt l.
Proof.
  induction 1 as [|x l Hl IH Hx]; intros Hn; constructor; cbn in Hn; apply NoDup_cons in Hn as [Hx' Hn]; [by apply IH|].
  apply Forall_forall. intros y Hy. rewrite Forall_forall in Hx. specialize (Hx y Hy). cbn in Hx. unfold row_lt.
  destruct (bytes_compare x.1 y.1) eqn:E; [|done|].
  - apply bytes_compare_eq in E. destruct Hx'. rewrite E. by apply list_elem_of_fmap_2.
  - apply bytes_compare_lt_gt in E. unfold bytes_ltb in Hx. by rewrite E in Hx.
Qed.

Lemma insertion_sort_rows (l : list row) : NoDup (map fst l) -> StronglySorted row_lt (insertion_sort (fun a b => bytes_ltb a.1 b.1) l).
Proof.
  intros Hn. apply strictly_sorted.
  - apply (insertion_sort_sorted (fun a b : row => bytes_ltb a.1 b.1) l (bytes_ltb_strict_weak fst)).
  - by rewrite insertion_sort_perm.
Qed.

Lemma sorted_rows_law m lower upper :
  StronglySorted row_lt (sorted_rows m lower upper) /\
  (forall x, x ∈ sorted_rows m lower upper -> m !! x.1 = Some x.2 /\ in_range lower upper x.1 = true) /\
  (forall k v, m !! k = Some v -> in_range lower upper k = true -> (k, v) ∈ sorted_rows m lower upper).
Proof.
  split_and!.
  - apply insertion_sort_rows. pose proof (NoDup_fst_map_to_list m) as H. induction (map_to_list m) as [|x l IH]; cbn in *; [constructor|].
    apply NoDup_cons in H as [Hx H]. destruct (in_range lower upper x.1); [|by apply IH]. cbn. constructor; [|by apply IH].
    intros (y & E & Hy)%list_elem_of_fmap. apply Hx. rewrite E. apply list_elem_of_fmap_2. apply list_elem_of_In in Hy.
    by apply filter_In in Hy as [Hy%list_elem_of_In _].
  - intros [k v]. by rewrite elem_of_sorted_rows.
  - intros k v Hk Hr. by apply elem_of_sorted_rows.
Qed.
