(* ===== verification/PersistStore.v ===== *)
(** * The persistent store: internal/indexer/persist_store/projection.go,
      catalog.go and pebble.go

    Writes are admitted into pending maps under one lock and moved to the
    database by a background flush; readers overlay what is pending and what is
    being flushed over the rows on disk. A method that runs under the lock is one
    transition of [PebbleStore]. A background flush releases the lock while its
    batch is built and committed, so it is three transitions ([flush_begin],
    [flush_commit], [flush_finish]) between which other methods run, unless they
    need the flush lock too. *)
From stdpp Require Import base list sorting gmap strings.
From Stdlib Require Import ZArith.
From S2P Require Import Prelude PostingSet IndexStore Intervals Keys Pebble.
Local Open Scope Z_scope.

(** ** Metadata rows: [encoding/json] on the closed set of records

    [json.Unmarshal] of what [json.Marshal] wrote is the record, when its strings
    are valid UTF-8 (others are written with replacement characters). *)
Record catalogInventory := { inv_Generation : string; inv_BootstrapProgress : string }.

Definition utf8_ref (r : QueryIndexRef) : bool :=
  utf8_valid_string (ref_Database r) && utf8_valid_string (ref_Collection r)
  && utf8_valid_string (ref_TemplateFingerprint r) && utf8_valid_string (ref_Generation r).
Definition utf8_generation (g : Generation) : bool :=
  utf8_valid_string (gen_ID g) && utf8_valid_string (gen_BootstrapProgress g) && utf8_valid_string (gen_Failure g).
Definition utf8_catalog (c : BootstrapCatalog) : bool :=
  utf8_valid_string (cat_Database c) && utf8_valid_string (cat_Generation c)
  && forallb utf8_valid_string (cat_TemplateFingerprints c) && utf8_valid_string (cat_BootstrapProgress c).
Definition utf8_inventory (i : catalogInventory) : bool :=
  utf8_valid_string (inv_Generation i) && utf8_valid_string (inv_BootstrapProgress i).

Class MetadataJSON := {
  marshal_ref : QueryIndexRef -> bytes;
  marshal_generation : Generation -> bytes;
  marshal_catalog : BootstrapCatalog -> bytes;
  marshal_inventory : catalogInventory -> bytes;
  unmarshal_ref : bytes -> option QueryIndexRef;
  unmarshal_generation : bytes -> option Generation;
  unmarshal_catalog : bytes -> option BootstrapCatalog;
  unmarshal_inventory : bytes -> option catalogInventory;
  unmarshal_bool : bytes -> option bool;
  unmarshal_marshal_ref : forall r, utf8_ref r = true -> unmarshal_ref (marshal_ref r) = Some r;
  unmarshal_marshal_generation : forall g, utf8_generation g = true -> unmarshal_generation (marshal_generation g) = Some g;
  unmarshal_marshal_catalog : forall c, utf8_catalog c = true -> unmarshal_catalog (marshal_catalog c) = Some c;
  unmarshal_marshal_inventory : forall i, utf8_inventory i = true -> unmarshal_inventory (marshal_inventory i) = Some i;
  unmarshal_true : unmarshal_bool (bytes_of_string "true") = Some true;
}.

(** ** State *)
Record projectionOp := { pop_projection : Projection; pop_bytes : Z }.

(** A pending write of a legacy index; a nil order key is a deletion. The keys
    the code stores in the operation are those of its identity. *)
Record pendingOp := {
  op_db : string; op_pattern : string; op_tmplID : string; op_docID : string;
  op_orderKey : option bytes;
}.
Record indexDeleteOp := { del_db : string; del_pattern : string; del_tmplID : string }.

Record catalogRecord := { rec_database : string; rec_key : bytes; rec_value : bytes }.
Record metadataWrite := {
  mw_key : bytes; mw_value : bytes; mw_progress : string; mw_partition : option QueryIndexRef;
  mw_catalogs : list catalogRecord; mw_replaceCatalogs : bool; mw_singleCatalog : bool; mw_inventory : bytes;
}.

(** Who holds the flush lock: nobody, a flush that has taken its batch, or one
    that has tried to commit it. *)
Inductive flush_phase := FlushIdle | FlushBegun | FlushCommitted (e : option store_error).

Section PersistStore.
Context `{PB : Pebble} `{XX : XXHash} `{MJ : MetadataJSON} `{SS : SliceSort} `{RO : RangeOrder}.

Record PebbleStore := {
  ps_db : pebble;
  ps_flushErr : option store_error;
  ps_projectionPending : gmap QueryIndexRef (gmap string projectionOp);
  ps_projectionFlushing : gmap QueryIndexRef (gmap string projectionOp);
  ps_pending : gmap string (gmap string pendingOp);
  ps_flushing : gmap string (gmap string pendingOp);
  ps_pendingIndexDeletes : gmap string indexDeleteOp;
  ps_flushingIndexDeletes : gmap string indexDeleteOp;
  ps_pendingProgress : string;
  ps_flushingProgress : string;
  ps_closed : bool;
  ps_batchSize : Z;
  ps_notified : bool;            (** notifyCh holds a token *)
  ps_phase : flush_phase;
}.

(** ** Batches: every addition may fail, and the batch keeps what it has *)
Definition batch_m : Type := list batch_op -> list batch_op * option store_error.
Definition b_done : batch_m := fun b => (b, None).
Definition b_fail (e : store_error) : batch_m := fun b => (b, Some e).
Definition b_seq (m k : batch_m) : batch_m :=
  fun b => match m b with (b', None) => k b' | r => r end.
Definition b_all (ms : list batch_m) : batch_m := foldr b_seq b_done ms.
Definition b_add (d : pebble) (op : batch_op) : batch_m :=
  fun b => match batch_Add d b op with Some e => (b, Some (ErrBackend e)) | None => (b ++ [op], None) end.
Definition b_adds (d : pebble) (ops : list batch_op) : batch_m := b_all (map (b_add d) ops).
(** [errors.Join(err, closer.Close())]. *)
Definition b_close (m : batch_m) (close : option string) : batch_m :=
  fun b => let '(b', e) := m b in (b', errors_Join e (ErrBackend <$> close)).
End PersistStore.

Notation "m >>> k" := (b_seq m k) (at level 62, right associativity).

Section Operations.
Context `{PB : Pebble} `{XX : XXHash} `{MJ : MetadataJSON} `{SS : SliceSort} `{RO : RangeOrder}.

Definition readMetadata {A} (d : pebble) (key : bytes) (unmarshal : bytes -> option A) : res store_error (option A) :=
  match db_Get d key with
  | Err e => Err (ErrBackend e)
  | Ok None => Ok None
  | Ok (Some (encoded, close)) =>
      match unmarshal encoded with
      | Some a => match ErrBackend <$> close with Some e => Err e | None => Ok (Some a) end
      | None => Err match ErrBackend <$> close with Some e => ErrJoined ErrMetadata e | None => ErrMetadata end
      end
  end.

Definition setPartition (d : pebble) (r : QueryIndexRef) : batch_m :=
  b_add d (BatchSet (projectionPrefix "partition" r) (marshal_ref r)).

Definition deletePrefixInBatch (d : pebble) (prefix : bytes) : batch_m :=
  match db_Iter d prefix (prefixEnd prefix) with
  | Err e => b_fail (ErrBackend e)
  | Ok (rows, err, close) =>
      b_close (b_adds d (map (fun x => BatchDelete x.1) rows) >>>
               match err with Some e => b_fail (ErrBackend e) | None => b_done end) close
  end.

(** ** Projections (projection.go) *)
Definition writeErrorLocked (s : PebbleStore) : option store_error :=
  match ps_flushErr s with
  | Some e => Some e
  | None => if ps_closed s then Some ErrStoreClosed else None
  end.

Definition sum_lengths (keys : list bytes) : Z := foldr (fun key n => Z.of_nat (length key) + n) 0 keys.
Definition new_projectionOp (p : Projection) : projectionOp :=
  {| pop_projection := p; pop_bytes := slen (proj_DocumentID p) + sum_lengths (proj_PostingKeys p) |}.

Definition add_pending (m : gmap QueryIndexRef (gmap string projectionOp)) (op : projectionOp) :=
  let p := pop_projection op in
  <[proj_Index p := <[proj_DocumentID p := op]> (default ∅ (m !! proj_Index p))]> m.

Definition partition_count {K} `{Countable K} {A} (m : gmap K (gmap string A)) : Z :=
  foldr (fun x n => Z.of_nat (size x.2) + n) 0 (range m).

(** Admits writes: new pending maps and progress, and a token for the batcher. *)
Definition set_projections (s : PebbleStore) pending progress notify : PebbleStore := {|
  ps_db := ps_db s; ps_flushErr := ps_flushErr s; ps_projectionPending := pending;
  ps_projectionFlushing := ps_projectionFlushing s; ps_pending := ps_pending s; ps_flushing := ps_flushing s;
  ps_pendingIndexDeletes := ps_pendingIndexDeletes s; ps_flushingIndexDeletes := ps_flushingIndexDeletes s;
  ps_pendingProgress := if String.eqb progress "" then ps_pendingProgress s else progress;
  ps_flushingProgress := ps_flushingProgress s; ps_closed := ps_closed s; ps_batchSize := ps_batchSize s;
  ps_notified := ps_notified s || notify; ps_phase := ps_phase s |}.

Definition ApplyDocumentProjection (s : PebbleStore) (replacements : list Projection) (progress : string)
    : PebbleStore * option store_error :=
  match OwnProjections replacements with
  | Err e => (s, Some e)
  | Ok owned =>
      let ops := map new_projectionOp owned in
      match writeErrorLocked s with
      | Some e => (s, Some e)
      | None =>
          let pending := foldl add_pending (ps_projectionPending s) ops in
          let notify := (ps_batchSize s <=? partition_count pending)
                        || ((length ops =? 0)%nat && negb (String.eqb progress "")) in
          (set_projections s pending progress notify, None)
      end
  end.

Definition applyProjection (d : pebble) (op : projectionOp) : batch_m :=
  let p := pop_projection op in
  let prefix := projectionPrefix "posting" (proj_Index p) in
  let reverse := projectionPrefix "reverse" (proj_Index p) ++ encodePathComponent (proj_DocumentID p) in
  match db_Get d reverse with
  | Err e => b_fail (ErrBackend e)
  | Ok got =>
      match got with
      | Some (old, close) =>
          b_close match decodePostingSet old with
                  | Ok keys => b_adds d (map (fun key => BatchDelete (prefix ++ key)) keys)
                  | Err e => b_fail (ErrPostingRow e)
                  end close
      | None => b_done
      end >>>
      b_adds d (map (fun key => BatchSet (prefix ++ key) (bytes_of_string (proj_DocumentID p))) (proj_PostingKeys p)) >>>
      setPartition d (proj_Index p) >>>
      match proj_PostingKeys p with
      | [] => b_add d (BatchDelete reverse)
      | keys => b_add d (BatchSet reverse (encodePostingSet keys))
      end
  end.

(** ** Legacy index operations (pebble.go) *)
Definition idxMapKey (db pattern tmplID : string) : string :=
  String.append db (String.append "|" (string_of_bytes (indexHash pattern tmplID))).

Definition applyOp (d : pebble) (op : pendingOp) : batch_m :=
  let revKey := reverseKey (op_db op) (op_pattern op) (op_tmplID op) (op_docID op) in
  let idxKey := indexKey (op_db op) (op_pattern op) (op_tmplID op) in
  match op_orderKey op with
  | None =>
      match db_Get d revKey with
      | Ok None => b_done
      | Err e => b_fail (ErrBackend e)
      | Ok (Some (oldOrderKey, close)) =>
          match close with
          | Some e => b_fail (ErrBackend e)
          | None => b_add d (BatchDelete (idxKey oldOrderKey)) >>> b_add d (BatchDelete revKey)
          end
      end
  | Some orderKey =>
      match db_Get d revKey with
      | Err e => b_fail (ErrBackend e)
      | Ok got =>
          match got with
          | Some (oldOrderKey, _) => b_add d (BatchDelete (idxKey oldOrderKey))
          | None => b_done
          end >>>
          b_add d (BatchSet (idxKey orderKey) (bytes_of_string (op_docID op))) >>>
          b_add d (BatchSet revKey orderKey) >>>
          b_add d (BatchSet (mapKey (op_db op) (op_pattern op) (op_tmplID op))
                     (bytes_of_string (String.append (op_pattern op) (String.append "|" (op_tmplID op)))))
      end
  end.

(** ** Publication (catalog.go) *)
Definition b_each {A} (f : A -> batch_m) (l : list A) : batch_m := b_all (map f l).

(** Two nested loops over a map of maps. *)
Definition b_nested {X} `{Countable X} {A} (f : A -> batch_m) (F : gmap X (gmap string A)) : batch_m :=
  b_each (fun x => b_each (fun y => f y.2) (range x.2)) (range F).

Definition applyMetadata (d : pebble) (publication : option metadataWrite) (progress : string) : batch_m :=
  let save p := if String.eqb p "" then b_done else b_add d (BatchSet keyProgress (bytes_of_string p)) in
  match publication with
  | None => save progress
  | Some w =>
      if mw_replaceCatalogs w then
        deletePrefixInBatch d (bytes_of_string "v2/catalog/") >>>
        b_each (fun c => b_add d (BatchSet (rec_key c) (rec_value c)) >>>
                         b_add d (BatchDelete (retiredDatabaseKey (rec_database c)))) (mw_catalogs w) >>>
        b_add d (BatchSet catalogInventoryKey (mw_inventory w)) >>>
        b_add d (BatchSet keyProgress (bytes_of_string (mw_progress w)))
      else
        match mw_partition w with Some r => setPartition d r | None => b_done end >>>
        b_add d (BatchSet (mw_key w) (mw_value w)) >>>
        save (if String.eqb (mw_progress w) "" then progress else mw_progress w)
  end.

Definition delete_index_rows (d : pebble) (op : indexDeleteOp) : batch_m :=
  deletePrefixInBatch d (indexKeyPrefix (del_db op) (del_pattern op) (del_tmplID op)) >>>
  deletePrefixInBatch d (reverseKeyPrefix (del_db op) (del_pattern op) (del_tmplID op)) >>>
  b_add d (BatchDelete (mapKey (del_db op) (del_pattern op) (del_tmplID op))) >>>
  b_add d (BatchDelete (stateKey (del_db op) (del_pattern op) (del_tmplID op))).

Definition populateBatch (s : PebbleStore) (publication : option metadataWrite) : batch_m :=
  let d := ps_db s in
  b_nested (applyOp d) (ps_flushing s) >>>
  b_nested (applyProjection d) (ps_projectionFlushing s) >>>
  b_each (fun x => delete_index_rows d x.2) (range (ps_flushingIndexDeletes s)) >>>
  applyMetadata d publication (ps_flushingProgress s).

(** ** Flushing *)
Definition set_db (s : PebbleStore) (d : pebble) (flushErr : option store_error) (phase : flush_phase) : PebbleStore := {|
  ps_db := d; ps_flushErr := flushErr; ps_projectionPending := ps_projectionPending s;
  ps_projectionFlushing := ps_projectionFlushing s; ps_pending := ps_pending s; ps_flushing := ps_flushing s;
  ps_pendingIndexDeletes := ps_pendingIndexDeletes s; ps_flushingIndexDeletes := ps_flushingIndexDeletes s;
  ps_pendingProgress := ps_pendingProgress s; ps_flushingProgress := ps_flushingProgress s;
  ps_closed := ps_closed s; ps_batchSize := ps_batchSize s; ps_notified := ps_notified s; ps_phase := phase |}.

(** The batch takes everything pending. *)
Definition take_pending (s : PebbleStore) (phase : flush_phase) : PebbleStore := {|
  ps_db := ps_db s; ps_flushErr := ps_flushErr s; ps_projectionPending := ∅;
  ps_projectionFlushing := ps_projectionPending s; ps_pending := ∅; ps_flushing := ps_pending s;
  ps_pendingIndexDeletes := ∅; ps_flushingIndexDeletes := ps_pendingIndexDeletes s;
  ps_pendingProgress := ""; ps_flushingProgress := ps_pendingProgress s;
  ps_closed := ps_closed s; ps_batchSize := ps_batchSize s; ps_notified := ps_notified s; ps_phase := phase |}.

(** The batch is on disk. *)
Definition drop_flushing (s : PebbleStore) : PebbleStore := {|
  ps_db := ps_db s; ps_flushErr := ps_flushErr s; ps_projectionPending := ps_projectionPending s;
  ps_projectionFlushing := ∅; ps_pending := ps_pending s; ps_flushing := ∅;
  ps_pendingIndexDeletes := ps_pendingIndexDeletes s; ps_flushingIndexDeletes := ∅;
  ps_pendingProgress := ps_pendingProgress s; ps_flushingProgress := "";
  ps_closed := ps_closed s; ps_batchSize := ps_batchSize s; ps_notified := ps_notified s; ps_phase := FlushIdle |}.

Definition commit_batch (d : pebble) (m : batch_m) : pebble * option store_error :=
  match m [] with
  | (ops, Some e) => (d, errors_Join (Some e) (ErrBackend <$> batch_Close d ops))
  | (ops, None) =>
      let '(d', e) := batch_Commit d ops in
      (d', errors_Join (ErrBackend <$> e) (ErrBackend <$> batch_Close d' ops))
  end.

Definition nothing_pending (s : PebbleStore) : bool :=
  bool_decide (ps_pending s = ∅) && bool_decide (ps_projectionPending s = ∅)
  && String.eqb (ps_pendingProgress s) "" && bool_decide (ps_pendingIndexDeletes s = ∅).

(** doFlush: flushLocked(nil) by the batcher, which first takes the flush lock.
    It holds the store's lock at the begin and at the end only. *)
Definition flush_begin (s : PebbleStore) : PebbleStore :=
  match ps_flushErr s with
  | Some _ => s
  | None => if nothing_pending s then s else take_pending s FlushBegun
  end.
Definition flush_commit (s : PebbleStore) : PebbleStore :=
  let '(d, e) := commit_batch (ps_db s) (populateBatch s None) in
  set_db s d (ps_flushErr s) (FlushCommitted e).
Definition flush_end (s : PebbleStore) (e : option store_error) : PebbleStore :=
  match e with
  | Some e => set_db s (ps_db s) (Some e) FlushIdle
  | None => drop_flushing s
  end.
Definition flush_finish (s : PebbleStore) : PebbleStore :=
  match ps_phase s with FlushCommitted e => flush_end s e | _ => s end.

(** ** Catalogs and generations (catalog.go) *)
Definition lists_template (c : BootstrapCatalog) (fingerprint : string) : bool :=
  bool_decide (fingerprint ∈ cat_TemplateFingerprints c).

Definition fail_with (s : PebbleStore) (e : store_error) : PebbleStore * option store_error :=
  (set_db s (ps_db s) (Some e) (ps_phase s), Some e).

Definition validatePublishedGenerationLocked (s : PebbleStore) (r : QueryIndexRef) : PebbleStore * option store_error :=
  match readMetadata (ps_db s) (catalogKey (ref_Database r)) unmarshal_catalog with
  | Err e => fail_with s e
  | Ok (Some c) =>
      if negb (String.eqb (cat_Generation c) (ref_Generation r)) && lists_template c (ref_TemplateFingerprint r)
      then (s, Some ErrCatalogGeneration) else (s, None)
  | Ok None => (s, None)
  end.

Definition validateSingleCatalogPublicationLocked (s : PebbleStore) : PebbleStore * option store_error :=
  match readMetadata (ps_db s) catalogInventoryKey unmarshal_inventory with
  | Err e => fail_with s e
  | Ok (Some _) => (s, Some ErrPluralPublication)
  | Ok None => (s, None)
  end.

(** flushLocked with a publication holds the lock throughout. *)
Definition flush_publish (s : PebbleStore) (w : metadataWrite) : PebbleStore * option store_error :=
  match ps_flushErr s with
  | Some e => (s, Some e)
  | None =>
      let '(s, e) := match mw_partition w with
                     | Some r => validatePublishedGenerationLocked s r
                     | None => (s, None)
                     end in
      match e with
      | Some e => (s, Some e)
      | None =>
          let '(s, e) := if mw_singleCatalog w then validateSingleCatalogPublicationLocked s else (s, None) in
          match e with
          | Some e => (s, Some e)
          | None =>
              let s := take_pending s FlushIdle in
              let '(d, e) := commit_batch (ps_db s) (populateBatch s (Some w)) in
              (flush_end (set_db s d (ps_flushErr s) FlushIdle) e, e)
          end
      end
  end.

Definition publishMetadata (s : PebbleStore) (w : metadataWrite) : PebbleStore * option store_error :=
  match writeErrorLocked s with
  | Some e => (s, Some e)
  | None => flush_publish s w
  end.

Definition PublishGeneration (s : PebbleStore) (r : QueryIndexRef) (progress : string) : PebbleStore * option store_error :=
  if incomplete_ref r then (s, Some ErrIncompleteIdentity)
  else
    publishMetadata s {|
      mw_key := generationKey (ref_Database r) (ref_Collection r) (ref_TemplateFingerprint r);
      mw_value := marshal_generation {| gen_ID := ref_Generation r; gen_Ready := true;
                                        gen_BootstrapProgress := progress; gen_Failure := "" |};
      mw_progress := progress; mw_partition := Some r;
      mw_catalogs := []; mw_replaceCatalogs := false; mw_singleCatalog := false; mw_inventory := [] |}.

Definition PublishBootstrapCatalog (s : PebbleStore) (c : BootstrapCatalog) : PebbleStore * option store_error :=
  match OwnBootstrapCatalog c with
  | Err e => (s, Some e)
  | Ok owned =>
      publishMetadata s {|
        mw_key := catalogKey (cat_Database owned); mw_value := marshal_catalog owned;
        mw_progress := cat_BootstrapProgress owned; mw_partition := None;
        mw_catalogs := []; mw_replaceCatalogs := false; mw_singleCatalog := true; mw_inventory := [] |}
  end.

Definition catalog_record (c : BootstrapCatalog) : catalogRecord :=
  {| rec_database := cat_Database c; rec_key := catalogKey (cat_Database c); rec_value := marshal_catalog c |}.

Definition PublishBootstrapCatalogs (s : PebbleStore) (catalogs : list BootstrapCatalog) (progress : string)
    : PebbleStore * option store_error :=
  match OwnBootstrapCatalogs catalogs progress with
  | Err e => (s, Some e)
  | Ok [] => (s, None)   (* unreachable: ownership refuses an empty inventory *)
  | Ok ((c0 :: _) as owned) =>
      publishMetadata s {|
        mw_key := []; mw_value := []; mw_progress := progress; mw_partition := None;
        mw_catalogs := map catalog_record owned; mw_replaceCatalogs := true; mw_singleCatalog := false;
        mw_inventory := marshal_inventory {| inv_Generation := cat_Generation c0; inv_BootstrapProgress := progress |} |}
  end.

(** A metadata batch under the lock: a failure stops queries and checkpoints. *)
Definition commitMetadataBatch (s : PebbleStore) (m : batch_m) : PebbleStore * option store_error :=
  let '(d, e) := commit_batch (ps_db s) m in
  (set_db s d (match e with Some e => Some e | None => ps_flushErr s end) (ps_phase s), e).

Definition SetFailure (s : PebbleStore) (r : QueryIndexRef) (failure : string) : PebbleStore * option store_error :=
  if incomplete_ref r || String.eqb failure "" then (s, Some ErrIncompleteIdentity)
  else match writeErrorLocked s with
  | Some e => (s, Some e)
  | None =>
      let d := ps_db s in
      match readMetadata d (catalogKey (ref_Database r)) unmarshal_catalog with
      | Err e => (s, Some e)
      | Ok catalog =>
          let covered := match catalog with
                         | Some c => if lists_template c (ref_TemplateFingerprint r) then Some c else None
                         | None => None
                         end in
          if match covered with Some c => negb (String.eqb (cat_Generation c) (ref_Generation r)) | None => false end
          then (s, None)
          else
            let key := generationKey (ref_Database r) (ref_Collection r) (ref_TemplateFingerprint r) in
            match readMetadata d key unmarshal_generation with
            | Err e => (s, Some e)
            | Ok local =>
                let progress := match local with
                                | Some g => if String.eqb (gen_ID g) (ref_Generation r) then gen_BootstrapProgress g else ""
                                | None => ""
                                end in
                let progress := match covered with Some c => cat_BootstrapProgress c | None => progress end in
                let g := {| gen_ID := ref_Generation r; gen_Ready := false;
                            gen_BootstrapProgress := progress; gen_Failure := failure |} in
                commitMetadataBatch s (setPartition d r >>> b_add d (BatchSet key (marshal_generation g)))
            end
      end
  end.

Definition DeleteQueryIndex (s : PebbleStore) (r : QueryIndexRef) : PebbleStore * option store_error :=
  if incomplete_ref r then (s, Some ErrIncompleteIdentity)
  else match writeErrorLocked s with
  | Some e => (s, Some e)
  | None =>
      let d := ps_db s in
      match readMetadata d (catalogKey (ref_Database r)) unmarshal_catalog with
      | Err e => (s, Some e)
      | Ok catalog =>
          let active := match catalog with
                        | Some c => if String.eqb (cat_Generation c) (ref_Generation r)
                                       && lists_template c (ref_TemplateFingerprint r) then Some c else None
                        | None => None
                        end in
          let key := generationKey (ref_Database r) (ref_Collection r) (ref_TemplateFingerprint r) in
          match readMetadata d key unmarshal_generation with
          | Err e => (s, Some e)
          | Ok local =>
              let rows :=
                deletePrefixInBatch d (projectionPrefix "posting" r) >>>
                deletePrefixInBatch d (projectionPrefix "reverse" r) >>>
                match active with
                | Some c =>
                    setPartition d r >>>
                    b_add d (BatchSet key (marshal_generation
                      {| gen_ID := ref_Generation r; gen_Ready := false;
                         gen_BootstrapProgress := cat_BootstrapProgress c; gen_Failure := "index partition deleted" |}))
                | None =>
                    b_add d (BatchDelete (projectionPrefix "partition" r)) >>>
                    match local with
                    | Some g => if String.eqb (gen_ID g) (ref_Generation r) then b_add d (BatchDelete key) else b_done
                    | None => b_done
                    end
                end in
              match commitMetadataBatch s rows with
              | (s, Some e) => (s, Some e)
              | (s, None) => (set_projections s (delete r (ps_projectionPending s)) "" false, None)
              end
          end
      end
  end.

Definition isDatabaseRetiredLocked (s : PebbleStore) (database : string) : res store_error bool :=
  retired ← readMetadata (ps_db s) (retiredDatabaseKey database) unmarshal_bool;
  match retired with
  | Some true => Ok true
  | Some false => Err ErrRetirementMarker
  | None => Ok false
  end.
Definition IsDatabaseRetired (s : PebbleStore) (database : string) : res store_error bool :=
  match writeErrorLocked s with Some e => Err e | None => isDatabaseRetiredLocked s database end.

Definition ReadGeneration (s : PebbleStore) (db collection fingerprint : string) : res store_error (option Generation) :=
  match writeErrorLocked s with
  | Some e => Err e
  | None =>
      retired ← isDatabaseRetiredLocked s db;
      if (retired : bool) then Ok None
      else
        catalog ← readMetadata (ps_db s) (catalogKey db) unmarshal_catalog;
        omitted ← match catalog with
                  | Some _ => Ok false
                  | None =>
                      inventory ← readMetadata (ps_db s) catalogInventoryKey unmarshal_inventory;
                      match inventory with
                      | Some i => if String.eqb (inv_Generation i) "" then Err ErrInventoryMarker else Ok true
                      | None => Ok false
                      end
                  end;
        if (omitted : bool) then Ok None
        else
          local ← readMetadata (ps_db s) (generationKey db collection fingerprint) unmarshal_generation;
          Ok (ResolveGeneration catalog fingerprint local)
  end.

Definition ReadBootstrapCatalog (s : PebbleStore) (database : string) : res store_error (option BootstrapCatalog) :=
  match writeErrorLocked s with
  | Some e => Err e
  | None => readMetadata (ps_db s) (catalogKey database) unmarshal_catalog
  end.

(** The rows under a prefix, decoded, with the errors of the iteration; [close]
    joins the error of closing the iterator. *)
Definition read_rows {A} (d : pebble) (prefix : bytes) (decode : bytes -> option A) : res store_error (list A) :=
  match db_Iter d prefix (prefixEnd prefix) with
  | Err e => Err (ErrBackend e)
  | Ok (rows, err, close) =>
      let r := values ← mapM_res (fun x => match decode x.2 with Some a => Ok a | None => Err ErrMetadata end) rows;
               match err with Some e => Err (ErrBackend e) | None => Ok values end in
      match r, ErrBackend <$> close with
      | Ok values, None => Ok values
      | Ok _, Some e => Err e
      | Err e, None => Err e
      | Err e, Some e' => Err (ErrJoined e e')
      end
  end.

Definition ListBootstrapCatalogs (s : PebbleStore) : res store_error (list BootstrapCatalog) :=
  match writeErrorLocked s with
  | Some e => Err e
  | None =>
      catalogs ← read_rows (ps_db s) (bytes_of_string "v2/catalog/") unmarshal_catalog;
      Ok (sort_slice (fun a b => string_ltb (cat_Database a) (cat_Database b)) catalogs)
  end.

Definition ref_less (a b : QueryIndexRef) : bool :=
  if negb (String.eqb (ref_Database a) (ref_Database b)) then string_ltb (ref_Database a) (ref_Database b)
  else if negb (String.eqb (ref_Collection a) (ref_Collection b)) then string_ltb (ref_Collection a) (ref_Collection b)
  else if negb (String.eqb (ref_TemplateFingerprint a) (ref_TemplateFingerprint b))
  then string_ltb (ref_TemplateFingerprint a) (ref_TemplateFingerprint b)
  else string_ltb (ref_Generation a) (ref_Generation b).

Definition ListQueryIndexes (s : PebbleStore) : res store_error (list QueryIndexRef) :=
  match writeErrorLocked s with
  | Some e => Err e
  | None =>
      refs ← read_rows (ps_db s) (bytes_of_string "v2/partition/") unmarshal_ref;
      let seen : gset QueryIndexRef :=
        dom (ps_projectionFlushing s) ∪ dom (ps_projectionPending s) ∪ list_to_set refs in
      Ok (sort_slice ref_less (map fst (range (gset_to_gmap tt seen))))
  end.

(** ** Databases, progress and lifecycle (pebble.go) *)
Definition first_db (partition : gmap string pendingOp) : option string :=
  match range partition with (_, op) :: _ => Some (op_db op) | [] => None end.
Definition drop_database (s : PebbleStore) (db : string) : PebbleStore := {|
  ps_db := ps_db s; ps_flushErr := ps_flushErr s;
  ps_projectionPending := filter (fun x => ref_Database x.1 <> db) (ps_projectionPending s);
  ps_projectionFlushing := ps_projectionFlushing s;
  (* the first operation of a partition in range order tells its database *)
  ps_pending := filter (fun x => first_db x.2 <> Some db) (ps_pending s);
  ps_flushing := ps_flushing s;
  ps_pendingIndexDeletes := filter (fun x => del_db x.2 <> db) (ps_pendingIndexDeletes s);
  ps_flushingIndexDeletes := ps_flushingIndexDeletes s;
  ps_pendingProgress := ps_pendingProgress s; ps_flushingProgress := ps_flushingProgress s;
  ps_closed := ps_closed s; ps_batchSize := ps_batchSize s; ps_notified := ps_notified s; ps_phase := ps_phase s |}.

Definition DeleteDatabase (s : PebbleStore) (db : string) : PebbleStore * option store_error :=
  match writeErrorLocked s with
  | Some e => (s, Some e)
  | None =>
      let d := ps_db s in
      let rows :=
        b_each (fun namespace => deletePrefixInBatch d (bytes_of_string namespace ++ encodePathComponent db ++ [47]))
          ["idx/"; "rev/"; "map/"; "meta/state/"; "v2/posting/"; "v2/reverse/"; "v2/generation/"; "v2/partition/"] >>>
        b_add d (BatchDelete (catalogKey db)) >>>
        b_add d (BatchSet (retiredDatabaseKey db) (bytes_of_string "true")) in
      match commitMetadataBatch s rows with
      | (s, Some e) => (s, Some e)
      | (s, None) => (drop_database s db, None)
      end
  end.

Definition LoadProgress (s : PebbleStore) : res store_error string :=
  match ps_flushErr s with
  | Some e => Err e
  | None =>
      if negb (String.eqb (ps_pendingProgress s) "") then Ok (ps_pendingProgress s)
      else if negb (String.eqb (ps_flushingProgress s) "") then Ok (ps_flushingProgress s)
      else match db_Get (ps_db s) keyProgress with
           | Err e => Err (ErrBackend e)
           | Ok None => Ok ""%string
           | Ok (Some (value, _)) => Ok (string_of_bytes value)
           end
  end.

(** ** Writes of the legacy indexes *)
Definition indexDeletingLocked (s : PebbleStore) (key : string) : bool :=
  bool_decide (is_Some (ps_pendingIndexDeletes s !! key)) || bool_decide (is_Some (ps_flushingIndexDeletes s !! key)).

Definition set_legacy (s : PebbleStore) pending deletes progress notify : PebbleStore := {|
  ps_db := ps_db s; ps_flushErr := ps_flushErr s; ps_projectionPending := ps_projectionPending s;
  ps_projectionFlushing := ps_projectionFlushing s; ps_pending := pending; ps_flushing := ps_flushing s;
  ps_pendingIndexDeletes := deletes; ps_flushingIndexDeletes := ps_flushingIndexDeletes s;
  ps_pendingProgress := if String.eqb progress "" then ps_pendingProgress s else progress;
  ps_flushingProgress := ps_flushingProgress s; ps_closed := ps_closed s; ps_batchSize := ps_batchSize s;
  ps_notified := ps_notified s || notify; ps_phase := ps_phase s |}.

(** The common part of Upsert and Delete. *)
Definition enqueue_op (s : PebbleStore) (op : pendingOp) (progress : string) : PebbleStore * option store_error :=
  let key := idxMapKey (op_db op) (op_pattern op) (op_tmplID op) in
  match writeErrorLocked s with
  | Some e => (s, Some e)
  | None =>
      if indexDeletingLocked s key
      then (set_legacy s (ps_pending s) (ps_pendingIndexDeletes s) progress false, None)
      else
        let pending := <[key := <[op_docID op := op]> (default ∅ (ps_pending s !! key))]> (ps_pending s) in
        (set_legacy s pending (ps_pendingIndexDeletes s) progress (ps_batchSize s <=? partition_count pending), None)
  end.

Definition Upsert (s : PebbleStore) (db pattern tmplID docID : string) (orderKey : bytes) (progress : string)
    : PebbleStore * option store_error :=
  enqueue_op s {| op_db := db; op_pattern := pattern; op_tmplID := tmplID; op_docID := docID; op_orderKey := Some orderKey |} progress.
Definition Delete (s : PebbleStore) (db pattern tmplID docID progress : string) : PebbleStore * option store_error :=
  enqueue_op s {| op_db := db; op_pattern := pattern; op_tmplID := tmplID; op_docID := docID; op_orderKey := None |} progress.

Definition DeleteIndex (s : PebbleStore) (db pattern tmplID : string) : PebbleStore * option store_error :=
  let key := idxMapKey db pattern tmplID in
  match writeErrorLocked s with
  | Some e => (s, Some e)
  | None =>
      (set_legacy s (delete key (ps_pending s))
         (<[key := {| del_db := db; del_pattern := pattern; del_tmplID := tmplID |}]> (ps_pendingIndexDeletes s)) "" true, None)
  end.

(** The states of an index as the strings of the database. *)
Definition state_string (st : IndexState) : string :=
  match st with
  | IndexStateHealthy => "healthy"
  | IndexStateRebuilding => "rebuilding"
  | IndexStateFailed => "failed"
  | IndexStateOther s => s
  end.
Definition SetState (s : PebbleStore) (db pattern tmplID : string) (st : IndexState) : PebbleStore * option store_error :=
  let '(d, e) := db_Set (ps_db s) (stateKey db pattern tmplID) (bytes_of_string (state_string st)) in
  (set_db s d (ps_flushErr s) (ps_phase s), ErrBackend <$> e).

(** Close refuses later writes; the batcher then flushes once more. *)
Definition Close (s : PebbleStore) : PebbleStore := {|
  ps_db := ps_db s; ps_flushErr := ps_flushErr s; ps_projectionPending := ps_projectionPending s;
  ps_projectionFlushing := ps_projectionFlushing s; ps_pending := ps_pending s; ps_flushing := ps_flushing s;
  ps_pendingIndexDeletes := ps_pendingIndexDeletes s; ps_flushingIndexDeletes := ps_flushingIndexDeletes s;
  ps_pendingProgress := ps_pendingProgress s; ps_flushingProgress := ps_flushingProgress s;
  ps_closed := true; ps_batchSize := ps_batchSize s; ps_notified := ps_notified s; ps_phase := ps_phase s |}.

(** ensureManifest: a new database is stamped, an old or foreign one refused. *)
Definition manifestV2 : bytes := bytes_of_string "syntrix-index-v2".
Definition ensureManifest (d : pebble) : pebble * option store_error :=
  match db_Get d manifestKey with
  | Ok (Some (value, close)) =>
      (d, match close with
          | Some e => Some (ErrBackend e)
          | None => if bytes_eqb value manifestV2 then None else Some ErrIncompatibleFormat
          end)
  | Err e => (d, Some (ErrBackend e))
  | Ok None =>
      match db_Iter d [] None with
      | Err e => (d, Some (ErrBackend e))
      | Ok (rows, err, close) =>
          match errors_Join (ErrBackend <$> err) (ErrBackend <$> close) with
          | Some e => (d, Some e)
          | None => match rows with
                    | [] => let '(d', e) := db_Set d manifestKey manifestV2 in (d', ErrBackend <$> e)
                    | _ => (d, Some ErrUnversionedStore)
                    end
          end
      end
  end.

(** NewPebbleStore, given the database that opened at the path. *)
Definition NewPebbleStore (path : string) (batchSize : Z) (d : pebble) : res store_error PebbleStore :=
  if String.eqb path "" then Err ErrStorePath
  else match ensureManifest d with
  | (d, Some e) => Err match ErrBackend <$> db_Close d with Some e' => ErrJoined e e' | None => e end
  | (d, None) => Ok {|
      ps_db := d; ps_flushErr := None; ps_projectionPending := ∅; ps_projectionFlushing := ∅;
      ps_pending := ∅; ps_flushing := ∅; ps_pendingIndexDeletes := ∅; ps_flushingIndexDeletes := ∅;
      ps_pendingProgress := ""; ps_flushingProgress := ""; ps_closed := false;
      ps_batchSize := if batchSize <=? 0 then 100 else batchSize; ps_notified := false; ps_phase := FlushIdle |}
  end.
End Operations.

(** * A database and a codec that satisfy the interfaces of the persistent store

    An in-memory map that never fails, and records written as escaped path
    components: they show that the assumptions on Pebble and [encoding/json] hold
    together, and run the store on concrete inputs. *)
Definition map_pebble : Pebble.
Proof.
  refine {|
    pebble := gmap bytes bytes; content m := m;
    db_Get m k := Ok ((fun v => (v, None)) <$> m !! k);
    db_Iter m lower upper := Ok (sorted_rows m lower upper, None, None);
    batch_Add _ _ _ := None;
    batch_Commit m ops := (apply_ops m ops, None);
    batch_Close _ _ := None;
    db_Set m k v := (<[k := v]> m, None);
    db_NewSnapshot m := m; snapshot_Close _ := None; db_Close _ := None |}.
  - intros d k r [= <-]. by destruct (d !! k).
  - intros d lower upper rs e c [= <- <- <-]. destruct (sorted_rows_law d lower upper) as (H1 & H2 & H3). split_and!; auto.
  - intros d ops. by left.
  - intros d k v. by left.
  - done.
Defined.

(** The sum of the bytes stands for the hash. *)
Definition sum_hash : XXHash := {| Sum64 l := u64 (foldr Z.add 0 l) |}.

(** ** Records as components, each followed by a separator *)
Definition put (s : string) : bytes := encodePathComponent s ++ [47].
Definition put_list (l : list string) : bytes := concat (map put l).
Fixpoint get_list (n : nat) (l : bytes) : option (list string) :=
  match n with
  | O => Some []
  | S n => component l (fun s l => cons s <$> get_list n l)
  end.
Lemma get_put_list ss rest : get_list (length ss) (put_list ss ++ rest) = Some ss.
Proof.
  induction ss as [|s ss IH]; [done|]. cbn [length get_list]. unfold put_list. cbn [map concat]. fold (put_list ss).
  unfold put at 1. rewrite <- !app_assoc. cbn [app]. rewrite component_app, IH. done.
Qed.

Definition bool_string (b : bool) : string := if b then "true" else "false".

Definition component_json : MetadataJSON.
Proof.
  refine {|
    marshal_ref r := put_list [ref_Database r; ref_Collection r; ref_TemplateFingerprint r; ref_Generation r];
    marshal_generation g := put_list [gen_ID g; bool_string (gen_Ready g); gen_BootstrapProgress g; gen_Failure g];
    marshal_catalog c := repeat 37 (length (cat_TemplateFingerprints c)) ++
      47 :: put_list (cat_Database c :: cat_Generation c :: cat_BootstrapProgress c :: cat_TemplateFingerprints c);
    marshal_inventory i := put_list [inv_Generation i; inv_BootstrapProgress i];
    unmarshal_ref l := match get_list 4 l with Some [a; b; c; d] => Some (IndexRef a b c d) | _ => None end;
    unmarshal_generation l :=
      match get_list 4 l with
      | Some [a; b; c; d] => Some {| gen_ID := a; gen_Ready := String.eqb b "true"; gen_BootstrapProgress := c; gen_Failure := d |}
      | _ => None
      end;
    unmarshal_catalog l :=
      match cut l with
      | Some (n, l) => match get_list (3 + length n) l with
          | Some (a :: b :: c :: fs) => Some {| cat_Database := a; cat_Generation := b; cat_TemplateFingerprints := fs; cat_BootstrapProgress := c |}
          | _ => None
          end
      | None => None
      end;
    unmarshal_inventory l :=
      match get_list 2 l with Some [a; b] => Some {| inv_Generation := a; inv_BootstrapProgress := b |} | _ => None end;
    unmarshal_bool l := if bytes_eqb l (bytes_of_string "true") then Some true else None |}.
  - intros [a b c d] _. cbn [ref_Database ref_Collection ref_TemplateFingerprint ref_Generation].
    pose proof (get_put_list [a; b; c; d] []) as H. rewrite app_nil_r in H. cbn [length] in H. by rewrite H.
  - intros [a b c d] _. cbn [gen_ID gen_Ready gen_BootstrapProgress gen_Failure].
    pose proof (get_put_list [a; bool_string b; c; d] []) as H. rewrite app_nil_r in H. cbn [length] in H. rewrite H. by destruct b.
  - intros [a b fs c] _. cbn [cat_Database cat_Generation cat_BootstrapProgress cat_TemplateFingerprints].
    rewrite cut_app by (intros H%list_elem_of_In%repeat_spec; done).
    pose proof (get_put_list (a :: b :: c :: fs) []) as H. rewrite app_nil_r in H. cbn [length] in H. rewrite repeat_length. cbn [Nat.add]. by rewrite H.
  - intros [a b] _. cbn [inv_Generation inv_BootstrapProgress].
    pose proof (get_put_list [a; b] []) as H. rewrite app_nil_r in H. cbn [length] in H. by rewrite H.
  - done.
Defined.
