(* ===== verification/PersistSpec.v ===== *)
(** * What a persistent index store promises

    The contract of internal/indexer/store as an abstract state: the posting keys
    of every document in every partition, the checkpoint, generations, catalogs
    and retired databases, without batches, overlays or rows. [spec_exec] is the
    meaning of each write, [spec_ReadGeneration] that of the readiness query. *)
From stdpp Require Import base list gmap strings sorting.
From Stdlib Require Import ZArith.
From S2P Require Import Prelude PostingSet IndexStore Intervals Keys Pebble PersistStore.

Record Spec := {
  sp_postings : QueryIndexRef -> string -> list bytes;
  sp_partition : QueryIndexRef -> bool;
  sp_progress : string;
  sp_generation : string -> string -> string -> option Generation;
  sp_catalog : string -> option BootstrapCatalog;
  sp_inventory : option catalogInventory;
  sp_retired : string -> bool;
}.

Definition spec_new : Spec := {|
  sp_postings _ _ := []; sp_partition _ := false; sp_progress := ""; sp_generation _ _ _ := None;
  sp_catalog _ := None; sp_inventory := None; sp_retired _ := false |}.

(** Two states with the same answers. *)
#[export] Instance spec_equiv : Equiv Spec := fun A B =>
  (forall r doc, sp_postings A r doc = sp_postings B r doc) /\
  (forall r, sp_partition A r = sp_partition B r) /\
  sp_progress A = sp_progress B /\
  (forall db c f, sp_generation A db c f = sp_generation B db c f) /\
  (forall db, sp_catalog A db = sp_catalog B db) /\
  sp_inventory A = sp_inventory B /\
  (forall db, sp_retired A db = sp_retired B db).

#[export] Instance spec_equivalence : Equivalence (≡@{Spec}).
Proof.
  split.
  - intros A. by split_and!.
  - intros A B (? & ? & ? & ? & ? & ? & ?). by split_and!.
  - intros A B C (H1 & H2 & H3 & H4 & H5 & H6 & H7) (K1 & K2 & K3 & K4 & K5 & K6 & K7).
    split_and!; intros; etransitivity; eauto.
Qed.

Inductive store_op :=
| OApply (replacements : list Projection) (progress : string)
| OPublishGeneration (r : QueryIndexRef) (progress : string)
| OPublishCatalog (c : BootstrapCatalog)
| OPublishCatalogs (catalogs : list BootstrapCatalog) (progress : string)
| OSetFailure (r : QueryIndexRef) (failure : string)
| ODeleteQueryIndex (r : QueryIndexRef)
| ODeleteDatabase (db : string)
| OUpsert (db pattern tmplID docID : string) (orderKey : bytes) (progress : string)
| ODelete (db pattern tmplID docID progress : string)
| ODeleteIndex (db pattern tmplID : string).

(** Writes that are acknowledged before they are on disk. *)
Definition write_behind (op : store_op) : bool :=
  match op with OApply _ _ | OUpsert _ _ _ _ _ _ | ODelete _ _ _ _ _ | ODeleteIndex _ _ _ => true | _ => false end.

(** The replacement of one document, the last when there are several. *)
Definition replace_postings (f : QueryIndexRef -> string -> list bytes) (p : Projection) :=
  fun r doc => if decide (proj_Index p = r /\ proj_DocumentID p = doc) then proj_PostingKeys p else f r doc.
Definition note (progress old : string) : string := if String.eqb progress "" then old else progress.

Definition find_catalog (catalogs : list BootstrapCatalog) (db : string) : option BootstrapCatalog :=
  List.find (fun c => String.eqb (cat_Database c) db) catalogs.

(** The catalog that lists the reference's template. *)
Definition covering (A : Spec) (r : QueryIndexRef) : option BootstrapCatalog :=
  match sp_catalog A (ref_Database r) with
  | Some c => if lists_template c (ref_TemplateFingerprint r) then Some c else None
  | None => None
  end.

Definition set_generation_of (A : Spec) (r : QueryIndexRef) (g : option Generation) :=
  fun db c f => if decide (ref_Database r = db /\ ref_Collection r = c /\ ref_TemplateFingerprint r = f) then g
                else sp_generation A db c f.

Definition generation_of (A : Spec) (r : QueryIndexRef) : option Generation :=
  sp_generation A (ref_Database r) (ref_Collection r) (ref_TemplateFingerprint r).

Definition with_meta (A : Spec) partition generation : Spec := {|
  sp_postings := sp_postings A; sp_partition := partition; sp_progress := sp_progress A;
  sp_generation := generation; sp_catalog := sp_catalog A; sp_inventory := sp_inventory A; sp_retired := sp_retired A |}.
Definition add_partition (A : Spec) (r : QueryIndexRef) := fun r' => bool_decide (r = r') || sp_partition A r'.

Definition noted (A : Spec) (progress : string) : Spec := {|
  sp_postings := sp_postings A; sp_partition := sp_partition A; sp_progress := note progress (sp_progress A);
  sp_generation := sp_generation A; sp_catalog := sp_catalog A; sp_inventory := sp_inventory A; sp_retired := sp_retired A |}.

(** The legacy indexes are specified apart; their writes carry the checkpoint too. *)
Definition spec_exec (op : store_op) (A : Spec) : Spec :=
  match op with
  | OApply replacements progress =>
      match OwnProjections replacements with
      | Err _ => A
      | Ok owned => {|
          sp_postings := foldl replace_postings (sp_postings A) owned;
          sp_partition r := existsb (fun p => bool_decide (proj_Index p = r)) owned || sp_partition A r;
          sp_progress := note progress (sp_progress A); sp_generation := sp_generation A;
          sp_catalog := sp_catalog A; sp_inventory := sp_inventory A; sp_retired := sp_retired A |}
      end
  | OPublishGeneration r progress => {|
      sp_postings := sp_postings A; sp_partition := add_partition A r; sp_progress := note progress (sp_progress A);
      sp_generation := set_generation_of A r (Some {| gen_ID := ref_Generation r; gen_Ready := true;
                         gen_BootstrapProgress := progress; gen_Failure := "" |});
      sp_catalog := sp_catalog A; sp_inventory := sp_inventory A; sp_retired := sp_retired A |}
  | OPublishCatalog c =>
      match OwnBootstrapCatalog c with
      | Err _ => A
      | Ok owned => {|
          sp_postings := sp_postings A; sp_partition := sp_partition A;
          sp_progress := note (cat_BootstrapProgress owned) (sp_progress A); sp_generation := sp_generation A;
          sp_catalog db := if decide (cat_Database owned = db) then Some owned else sp_catalog A db;
          sp_inventory := sp_inventory A; sp_retired := sp_retired A |}
      end
  | OPublishCatalogs catalogs progress =>
      match OwnBootstrapCatalogs catalogs progress with
      | Ok ((c0 :: _) as owned) => {|
          sp_postings := sp_postings A; sp_partition := sp_partition A; sp_progress := progress;
          sp_generation := sp_generation A; sp_catalog := find_catalog owned;
          sp_inventory := Some {| inv_Generation := cat_Generation c0; inv_BootstrapProgress := progress |};
          sp_retired db := match find_catalog owned db with Some _ => false | None => sp_retired A db end |}
      | _ => A
      end
  | OSetFailure r failure =>
      let fail progress := with_meta A (add_partition A r) (set_generation_of A r (Some {|
        gen_ID := ref_Generation r; gen_Ready := false; gen_BootstrapProgress := progress; gen_Failure := failure |})) in
      match covering A r with
      | Some c => if String.eqb (cat_Generation c) (ref_Generation r) then fail (cat_BootstrapProgress c) else A
      | None => fail match generation_of A r with
                     | Some g => if String.eqb (gen_ID g) (ref_Generation r) then gen_BootstrapProgress g else ""
                     | None => ""
                     end
      end
  | ODeleteQueryIndex r =>
      let A := {| sp_postings r' doc := if decide (r = r') then [] else sp_postings A r' doc;
                  sp_partition := sp_partition A; sp_progress := sp_progress A; sp_generation := sp_generation A;
                  sp_catalog := sp_catalog A; sp_inventory := sp_inventory A; sp_retired := sp_retired A |} in
      match match covering A r with
            | Some c => if String.eqb (cat_Generation c) (ref_Generation r) then Some c else None
            | None => None
            end with
      | Some c => with_meta A (add_partition A r) (set_generation_of A r (Some {|
          gen_ID := ref_Generation r; gen_Ready := false; gen_BootstrapProgress := cat_BootstrapProgress c;
          gen_Failure := "index partition deleted" |}))
      | None => with_meta A (fun r' => negb (bool_decide (r = r')) && sp_partition A r')
          match generation_of A r with
          | Some g => if String.eqb (gen_ID g) (ref_Generation r) then set_generation_of A r None else sp_generation A
          | None => sp_generation A
          end
      end
  | ODeleteDatabase db => {|
      sp_postings r doc := if decide (ref_Database r = db) then [] else sp_postings A r doc;
      sp_partition r := negb (bool_decide (ref_Database r = db)) && sp_partition A r;
      sp_progress := sp_progress A;
      sp_generation db' c f := if decide (db' = db) then None else sp_generation A db' c f;
      sp_catalog db' := if decide (db' = db) then None else sp_catalog A db';
      sp_inventory := sp_inventory A;
      sp_retired db' := bool_decide (db' = db) || sp_retired A db' |}
  | OUpsert _ _ _ _ _ progress | ODelete _ _ _ _ progress => noted A progress
  | ODeleteIndex _ _ _ => A
  end.

(** A generation queries may use. *)
Definition spec_ReadGeneration (A : Spec) (db collection fingerprint : string) : option Generation :=
  if sp_retired A db then None
  else match sp_catalog A db, sp_inventory A with
  | None, Some _ => None
  | c, _ => ResolveGeneration c fingerprint (sp_generation A db collection fingerprint)
  end.

Lemma foldl_replace f g owned r doc :
  (forall r doc, f r doc = g r doc) -> foldl replace_postings f owned r doc = foldl replace_postings g owned r doc.
Proof.
  revert f g; induction owned as [|p owned IH]; intros f g H; cbn; [done|]. apply IH. intros r' doc'.
  unfold replace_postings. by destruct (decide _).
Qed.

#[export] Instance spec_exec_proper op : Proper ((≡) ==> (≡)) (spec_exec op).
Proof.
  intros A B (H1 & H2 & H3 & H4 & H5 & H6 & H7). unfold spec_exec, covering, generation_of, with_meta, add_partition, set_generation_of.
  destruct op as [ps p|r p|c|cs p|r f|r|db|? ? ? ? ? p|? ? ? ? p|]; cbn; rewrite ?H3, ?H4, ?H5.
  - destruct (OwnProjections ps); [|by split_and!]. split_and!; cbn; intros; rewrite ?H2, ?H3; try done.
    by apply foldl_replace.
  - split_and!; cbn; intros; try done; [by rewrite H2|]. by destruct (decide _).
  - destruct (OwnBootstrapCatalog c); [|by split_and!]. split_and!; cbn; intros; try done. by destruct (decide _).
  - destruct (OwnBootstrapCatalogs cs p) as [[|]|]; [by split_and!| |by split_and!].
    split_and!; cbn; intros; try done. by rewrite H7.
  - repeat case_match; split_and!; cbn; intros; rewrite ?H2; try done; by destruct (decide _).
  - repeat case_match; split_and!; cbn; intros; rewrite ?H2; try done; by destruct (decide _).
  - split_and!; cbn; intros; rewrite ?H2, ?H7; try done; by destruct (decide _).
  - split_and!; cbn; intros; rewrite ?H3; done.
  - split_and!; cbn; intros; rewrite ?H3; done.
  - by split_and!.
Qed.

#[export] Instance noted_proper : Proper ((≡) ==> (=) ==> (≡)) noted.
Proof. intros A B (H1 & H2 & H3 & H4 & H5 & H6 & H7) p _ <-. split_and!; cbn; intros; rewrite ?H3; done. Qed.

Lemma spec_ReadGeneration_equiv A B db c f : A ≡ B -> spec_ReadGeneration A db c f = spec_ReadGeneration B db c f.
Proof. intros (_ & _ & _ & H4 & H5 & H6 & H7). unfold spec_ReadGeneration. by rewrite H4, H5, H6, H7. Qed.

(** * What the batches of the persistent store do to the rows

    A batch is a function from rows to their last write ([effect]); [writes]
    relates the code that builds a batch to its effect, so that the content of
    the database after a commit is read off the code's structure. *)
Local Open Scope Z_scope.

(** The rows by their kind. *)
Definition rows (m : gmap bytes bytes) (K : db_key) : option bytes := m !! encode_key K.
(** Every row of the database has a key of the layout. *)
Definition typed (m : gmap bytes bytes) : Prop := forall k v, m !! k = Some v -> exists K, wf_key K /\ k = encode_key K.

(** The last write to a row: none, a deletion or a value. *)
Definition effect : Type := db_key -> option (option bytes).
Definition e_none : effect := fun _ => None.
Definition e_one (K : db_key) (v : option bytes) : effect := fun K' => if decide (K = K') then Some v else None.
Definition e_seq (e f : effect) : effect := fun K => match f K with Some v => Some v | None => e K end.
Definition e_each {A} (f : A -> effect) (l : list A) : effect := foldr (fun x e => e_seq (f x) e) e_none l.
Definition after (e : effect) (T : db_key -> option bytes) : db_key -> option bytes := fun K => default (T K) (e K).

Lemma after_seq e f T K : after (e_seq e f) T K = after f (after e T) K.
Proof. unfold after, e_seq. by destruct (f K). Qed.

(** The last writer of a list decides; writers that agree may come in any order. *)
Lemma e_each_cons {A} (f : A -> effect) x l : e_each f (x :: l) = e_seq (f x) (e_each f l).
Proof. done. Qed.
Lemma e_each_inv {A} (f : A -> effect) l K v : e_each f l K = Some v -> exists x, x ∈ l /\ f x K = Some v.
Proof.
  induction l as [|x l IH]; [done|]. rewrite e_each_cons. unfold e_seq. destruct (e_each f l K) eqn:E.
  - intros H. destruct (IH H) as (y & Hy & Ey). exists y. split; [by right|done].
  - intros H. exists x. split; [by left|done].
Qed.
Lemma e_each_none {A} (f : A -> effect) l K : (forall x, x ∈ l -> f x K = None) -> e_each f l K = None.
Proof. intros H. destruct (e_each f l K) eqn:E; [|done]. apply e_each_inv in E as (x & Hx & E). by rewrite H in E. Qed.
Lemma e_each_some {A} (f : A -> effect) l K v :
  (forall x w, x ∈ l -> f x K = Some w -> w = v) -> (exists x, x ∈ l /\ f x K = Some v) -> e_each f l K = Some v.
Proof.
  intros Ha (x & Hx & Ex). destruct (e_each f l K) as [w|] eqn:E.
  - apply e_each_inv in E as (y & Hy & E). by rewrite (Ha y w).
  - exfalso. induction l as [|y l IH]; [by apply elem_of_nil in Hx|]. rewrite e_each_cons in E. unfold e_seq in E.
    destruct (e_each f l K) eqn:E'; [done|]. apply elem_of_cons in Hx as [->|Hx]; [congruence|].
    apply IH; [|done|done]. intros z w Hz. apply Ha. by right.
Qed.

(** Maps of maps: the pending writes of every partition, by document. *)
Definition lookup2 {X} `{Countable X} {A} (F : gmap X (gmap string A)) (i : X) (doc : string) : option A :=
  F !! i ≫= fun inner => inner !! doc.
Lemma lookup2_Some {X} `{Countable X} {A} (F : gmap X (gmap string A)) i doc op :
  lookup2 F i doc = Some op <-> exists inner, F !! i = Some inner /\ inner !! doc = Some op.
Proof. unfold lookup2. by rewrite bind_Some. Qed.

Section Nested.
Context `{RO : RangeOrder} {X : Type} `{Countable X} {A : Type}.
Implicit Types (f : A -> effect) (F : gmap X (gmap string A)).

Definition e_nested f F : effect := e_each (fun x => e_each (fun y => f y.2) (range x.2)) (range F).

Lemma e_nested_inv f F K w : e_nested f F K = Some w -> exists i doc op, lookup2 F i doc = Some op /\ f op K = Some w.
Proof.
  intros Hw. apply e_each_inv in Hw as ([i inner] & Hi%elem_of_range & Hw).
  apply e_each_inv in Hw as ([doc op] & Hop%elem_of_range & Hw). exists i, doc, op. split; [|done]. apply lookup2_Some. eauto.
Qed.
Lemma e_nested_some f F K i doc op w :
  lookup2 F i doc = Some op -> f op K = Some w ->
  (forall i' doc' op' w', lookup2 F i' doc' = Some op' -> f op' K = Some w' -> w' = w) -> e_nested f F K = Some w.
Proof.
  intros Hop Ew Ha. pose proof Hop as Hop'. apply lookup2_Some in Hop' as (inner & Hi & Hd). apply e_each_some.
  - intros [i' inner'] w' Hi'%elem_of_range Hw. apply e_each_inv in Hw as ([doc' op'] & Hd'%elem_of_range & Hw).
    apply (Ha i' doc' op'); [apply lookup2_Some; eauto|done].
  - exists (i, inner). split; [by apply elem_of_range|]. apply e_each_some; [|exists (doc, op); split; [by apply elem_of_range|done]].
    intros [doc' op'] w' Hd'%elem_of_range Hw. apply (Ha i doc' op'); [apply lookup2_Some; eauto|done].
Qed.
(** A row that only one write may touch. *)
Lemma e_nested_at f F K i doc :
  (forall i' doc' op w, lookup2 F i' doc' = Some op -> f op K = Some w -> i' = i /\ doc' = doc) ->
  e_nested f F K = lookup2 F i doc ≫= fun op => f op K.
Proof.
  intros Ha. destruct (e_nested f F K) as [w|] eqn:E.
  - apply e_nested_inv in E as (i' & doc' & op & Hop & E). destruct (Ha _ _ _ _ Hop E) as [-> ->]. by rewrite Hop.
  - destruct (lookup2 F i doc) as [op|] eqn:Hop; [|done]. cbn. destruct (f op K) as [w|] eqn:Ew; [|done].
    rewrite <- E. apply (e_nested_some f F K i doc op); [done|done|]. intros i' doc' op' w' Hop' Ew'.
    destruct (Ha _ _ _ _ Hop' Ew') as [-> ->]. congruence.
Qed.
End Nested.

Section Writes.
Context `{PB : Pebble} `{XX : XXHash} `{MJ : MetadataJSON} `{SS : SliceSort} `{RO : RangeOrder}.

Definition typed_op (op : batch_op) : Prop := exists K, wf_key K /\ op.1 = encode_key K.

(** A successful run appends operations with that effect. *)
Definition writes (m : batch_m) (e : effect) : Prop :=
  forall b b', m b = (b', None) -> exists ops, b' = b ++ ops /\ Forall typed_op ops /\
    forall K, wf_key K -> written ops (encode_key K) = e K.

Lemma writes_ext m e f : (forall K, wf_key K -> e K = f K) -> writes m e -> writes m f.
Proof. intros E H b b' Hm. destruct (H b b' Hm) as (ops & -> & Ht & Hw). exists ops. split_and!; [done..|]. intros K HK. by rewrite Hw, E. Qed.
Lemma writes_done : writes b_done e_none.
Proof. intros b b' [= <-]. exists []. rewrite app_nil_r. split_and!; [done|constructor|done]. Qed.
Lemma writes_fail err e : writes (b_fail err) e.
Proof. intros b b' [=]. Qed.
Lemma writes_seq m k e f : writes m e -> writes k f -> writes (m >>> k) (e_seq e f).
Proof.
  intros Hm Hk b b' H. unfold b_seq in H. destruct (m b) as [b1 [err|]] eqn:E; [done|].
  destruct (Hm _ _ E) as (o1 & -> & T1 & W1). destruct (Hk _ _ H) as (o2 & -> & T2 & W2).
  exists (o1 ++ o2). rewrite app_assoc. split_and!; [done|by apply Forall_app|].
  intros K HK. rewrite written_app, W1, W2 by done. done.
Qed.
Lemma writes_add d K v : wf_key K -> writes (b_add d (encode_key K, v)) (e_one K v).
Proof.
  intros HK b b' H. unfold b_add in H. destruct (batch_Add _ _ _); [done|]. injection H as <-.
  exists [(encode_key K, v)]. split_and!; [done|by repeat econstructor|]. intros K' HK'. unfold written, e_one. cbn.
  destruct (decide (K = K')) as [->|Hne]; [by rewrite bool_decide_true|]. rewrite bool_decide_false; [done|].
  intros E%encode_key_inj; done.
Qed.
Lemma writes_close m e close : writes m e -> writes (b_close m close) e.
Proof.
  intros Hm b b' H. unfold b_close in H. destruct (m b) as [b1 err] eqn:E. destruct err, close; try done.
  apply Hm. rewrite E. cbn in H. by injection H as <-.
Qed.
Lemma writes_each {A} (f : A -> batch_m) (e : A -> effect) l :
  (forall x, x ∈ l -> writes (f x) (e x)) -> writes (b_each f l) (e_each e l).
Proof.
  induction l as [|x l IH]; intros H; [apply writes_done|]. apply writes_seq; [apply H; by left|].
  apply IH. intros; apply H; by right.
Qed.
Lemma writes_nested {X} `{Countable X} {A} (f : A -> batch_m) (e : A -> effect) (F : gmap X (gmap string A)) :
  (forall i doc op, lookup2 F i doc = Some op -> writes (f op) (e op)) -> writes (b_nested f F) (e_nested e F).
Proof.
  intros Hf. apply writes_each. intros [i inner] Hi%elem_of_range. apply writes_each. intros [doc op] Hop%elem_of_range.
  apply (Hf i doc). apply lookup2_Some. eauto.
Qed.
Lemma writes_adds {A} d (f : A -> db_key) (v : option bytes) l : (forall x, x ∈ l -> wf_key (f x)) ->
  writes (b_adds d (map (fun x => (encode_key (f x), v)) l)) (fun K => if decide (K ∈ map f l) then Some v else None).
Proof.
  intros Hf. unfold b_adds. rewrite map_map. eapply writes_ext, (writes_each _ (fun x => e_one (f x) v)); [|intros; by apply writes_add, Hf].
  intros K HK. destruct (decide _) as [Hin|Hn].
  - apply e_each_some; unfold e_one; [intros ? ?; destruct (decide _); congruence|].
    apply list_elem_of_fmap in Hin as (x & -> & Hx). exists x. split; [done|]. by destruct (decide _).
  - apply e_each_none. intros x Hx. unfold e_one. destruct (decide _) as [<-|]; [|done]. destruct Hn. by apply list_elem_of_fmap_2.
Qed.

Definition e_prefix (p : bytes) (m : gmap bytes bytes) : effect :=
  fun K => if prefixb p (encode_key K) && bool_decide (is_Some (m !! encode_key K)) then Some None else None.

Lemma after_prefix p m K : after (e_prefix p m) (rows m) K = if prefixb p (encode_key K) then None else rows m K.
Proof.
  unfold after, e_prefix, rows. destruct (prefixb p (encode_key K)); cbn; [|done]. case_bool_decide as E; [done|].
  cbn. by apply eq_None_not_Some.
Qed.

Lemma writes_deletePrefix d p : is_bytes p -> typed (content d) -> writes (deletePrefixInBatch d p) (e_prefix p (content d)).
Proof.
  intros Hp Ht. unfold deletePrefixInBatch. destruct (db_Iter _ _ _) as [[[rs err] close]|] eqn:E; [|apply writes_fail].
  apply db_Iter_law in E as (_ & Hin & Hall & _). apply writes_close. destruct err as [e|].
  { intros b b' H. unfold b_seq in H. destruct (b_adds _ _ _) as [? [|]]; done. }
  specialize (Hall eq_refl).
  intros b b' H. unfold b_seq, b_done in H. destruct (b_adds _ _ _) as [b1 [|]] eqn:E; [done|]. injection H as <-.
  assert (Ha : exists ops, b1 = b ++ ops /\ ops = map BatchDelete (map fst rs)).
  { clear -E. revert b b1 E. induction rs as [|x rs IH]; intros b b1 E; [injection E as <-; exists []; by rewrite app_nil_r|].
    cbn in E. unfold b_seq, b_add in E. destruct (batch_Add _ _ _); [done|]. destruct (IH _ _ E) as (ops & -> & ->).
    eexists. rewrite <- app_assoc. split; [done|]. done. }
  destruct Ha as (ops & -> & ->). exists (map BatchDelete (map fst rs)). split; [done|]. split.
  - apply Forall_map, Forall_map, Forall_forall. intros x Hx. destruct (Hin x Hx) as [Hm _]. exact (Ht _ _ Hm).
  - intros K HK. rewrite written_deletes. unfold e_prefix. pose proof (encode_key_bytes K HK) as HKb.
    case_bool_decide as Hk; destruct (_ && _) eqn:E2; try done; exfalso.
    + apply list_elem_of_fmap in Hk as (x & Ex & Hx). destruct (Hin x Hx) as [Hm Hr]. unfold Pebble.in_range in Hr.
      rewrite <- Ex, range_prefix in Hr by done. rewrite Hr, Ex, Hm in E2. by rewrite bool_decide_true in E2.
    + apply andb_true_iff in E2 as [E2 [v Hv]%bool_decide_eq_true]. apply Hk.
      apply list_elem_of_fmap. exists (encode_key K, v). split; [done|]. apply Hall; [done|]. unfold Pebble.in_range.
      by rewrite range_prefix.
Qed.

(** ** Committing *)
Lemma apply_ops_typed m ops : typed m -> Forall typed_op ops -> typed (apply_ops m ops).
Proof.
  intros Hm Hops. revert m Hm; induction Hops as [|op ops [K [HK E]] _ IH]; intros m Hm; [done|]. apply IH.
  intros k v H. unfold apply_op in H. destruct (op.2).
  - apply lookup_insert_Some in H as [[<- _]|[_ H]]; [by eexists|by eapply Hm].
  - apply lookup_delete_Some in H as [_ H]. by eapply Hm.
Qed.

Lemma commit_batch_spec d m e d' err :
  typed (content d) -> writes m e -> commit_batch d m = (d', err) ->
  typed (content d') /\
  ((forall K, wf_key K -> rows (content d') K = after e (rows (content d)) K) \/
   (content d' = content d /\ is_Some err)).
Proof.
  intros Ht Hw H. unfold commit_batch in H. destruct (m []) as [ops [e0|]] eqn:E.
  { injection H as <- <-. split; [done|]. right. split; [done|]. destruct (batch_Close d ops); cbn; by eexists. }
  destruct (batch_Commit d ops) as [d1 e1] eqn:Ec. injection H as <- <-.
  pose proof (batch_Commit_law d ops) as Hl. rewrite Ec in Hl. cbn in Hl.
  destruct (Hw _ _ E) as (ops' & -> & Hops & Hwr). cbn [app] in *. destruct Hl as [->|[-> [x ->]]].
  - split; [by apply apply_ops_typed|]. left. intros K HK. unfold rows, after. by rewrite apply_ops_lookup, Hwr.
  - split; [done|]. right. split; [done|]. cbn. destruct (batch_Close d1 ops'); cbn; by eexists.
Qed.
End Writes.
