(* ===== verification/PersistFacts.v ===== *)
(** * The rows of the persistent store and what they mean

    [disk_spec] reads the abstract state off the rows; [overlay] puts admitted
    writes over it. A flush moves an overlay into the rows without changing what
    is read ([flush_spec]), and keeps posting rows and reverse rows in step
    ([disk_ok]). *)
From stdpp Require Import base list sorting gmap strings.
From Stdlib Require Import ZArith.
From S2P Require Import Prelude PostingSet OrderKey IndexStore Intervals Keys Pebble PersistStore PersistSpec.
Local Open Scope Z_scope.

(** A posting key of a document: its last component names the document. *)
Definition key_of (doc : string) (key : bytes) : Prop :=
  is_bytes key /\ storable key /\ ExtractDocID key = Ok doc.

Lemma key_of_agree doc doc' key : key_of doc key -> key_of doc' key -> doc = doc'.
Proof. intros (_ & _ & E) (_ & _ & E'). rewrite E in E'. by injection E'. Qed.

(** Rows of the legacy indexes. *)
Definition legacy (K : db_key) : bool :=
  match K with KIndex _ _ _ | KRev _ _ _ | KMap _ _ | KState _ _ => true | _ => false end.

Section PersistFacts.
Context `{PB : Pebble} `{XX : XXHash} `{MJ : MetadataJSON} `{SS : SliceSort} `{RO : RangeOrder}.

Abbreviation table := (db_key -> option bytes).

Definition disk_postings (T : table) (r : QueryIndexRef) (doc : string) : list bytes :=
  match T (KReverse r doc) with
  | Some v => match decodePostingSet v with Ok keys => keys | Err _ => [] end
  | None => []
  end.

Definition disk_spec (T : table) : Spec := {|
  sp_postings := disk_postings T;
  sp_partition r := match T (KPartition r) with Some _ => true | None => false end;
  sp_progress := default ""%string (string_of_bytes <$> T KProgress);
  sp_generation db c f := T (KGeneration db c f) ≫= unmarshal_generation;
  sp_catalog db := T (KCatalog db) ≫= unmarshal_catalog;
  sp_inventory := T KInventory ≫= unmarshal_inventory;
  sp_retired db := default false (T (KRetired db) ≫= unmarshal_bool) |}.

(** Posting rows and reverse rows say the same, and metadata rows decode. *)
Record disk_ok (T : table) : Prop := {
  dk_reverse : forall r doc v, T (KReverse r doc) = Some v ->
    exists keys, decodePostingSet v = Ok keys /\ keys <> [] /\ Forall (key_of doc) keys;
  dk_posting : forall r x v, is_bytes x ->
    (T (KPosting r x) = Some v <-> exists doc, v = bytes_of_string doc /\ x ∈ disk_postings T r doc);
  dk_partition : forall r v, T (KPartition r) = Some v -> unmarshal_ref v = Some r;
  dk_generation : forall db c f v, T (KGeneration db c f) = Some v ->
    exists g, unmarshal_generation v = Some g /\ utf8_generation g = true;
  dk_catalog : forall db v, T (KCatalog db) = Some v ->
    exists c, unmarshal_catalog v = Some c /\ cat_Database c = db /\ utf8_catalog c = true;
  dk_inventory : forall v, T KInventory = Some v -> exists i, unmarshal_inventory v = Some i /\ inv_Generation i <> "";
  dk_retired : forall db v, T (KRetired db) = Some v -> unmarshal_bool v = Some true;
}.

Lemma disk_postings_key T r doc x : disk_ok T -> x ∈ disk_postings T r doc -> key_of doc x.
Proof.
  intros Hd Hx. unfold disk_postings in Hx. destruct (T (KReverse r doc)) eqn:E; [|by apply elem_of_nil in Hx].
  apply (dk_reverse _ Hd) in E as (keys & Ek & _ & Hk). rewrite Ek in Hx. rewrite Forall_forall in Hk. by apply Hk.
Qed.

(** Rows that agree outside the legacy indexes. *)
Definition same_rows (T U : table) : Prop := forall K, wf_key K -> legacy K = false -> T K = U K.

Lemma same_postings T U r doc : same_rows T U -> disk_postings T r doc = disk_postings U r doc.
Proof. intros H. unfold disk_postings. by rewrite (H (KReverse r doc)). Qed.

Lemma disk_ok_same T U : same_rows T U -> disk_ok T -> disk_ok U.
Proof.
  intros H Hd. split.
  - intros r doc v E. rewrite <- (H (KReverse r doc)) in E by done. by apply (dk_reverse _ Hd r).
  - intros r x v Hx. rewrite <- (H (KPosting r x)) by done. rewrite (dk_posting _ Hd) by done.
    setoid_rewrite (same_postings T U); done.
  - intros r v E. rewrite <- (H (KPartition r)) in E by done. by apply (dk_partition _ Hd).
  - intros db c f v E. rewrite <- (H (KGeneration db c f)) in E by done. by eapply (dk_generation _ Hd).
  - intros db v E. rewrite <- (H (KCatalog db)) in E by done. by apply (dk_catalog _ Hd).
  - intros v E. rewrite <- (H KInventory) in E by done. by apply (dk_inventory _ Hd).
  - intros db v E. rewrite <- (H (KRetired db)) in E by done. by eapply (dk_retired _ Hd).
Qed.
Lemma disk_spec_same T U : same_rows T U -> disk_spec T ≡ disk_spec U.
Proof.
  intros H. split_and!; cbn; intros; try (rewrite H by done; done). by apply same_postings.
Qed.

(** ** Admitted writes over a state *)
Definition op_keys (op : projectionOp) : list bytes := proj_PostingKeys (pop_projection op).

Record op_ok (r : QueryIndexRef) (doc : string) (op : projectionOp) : Prop := {
  ok_index : proj_Index (pop_projection op) = r;
  ok_doc : proj_DocumentID (pop_projection op) = doc;
  ok_keys : Forall (key_of doc) (op_keys op);
  ok_nodup : NoDup (op_keys op);
  ok_count : is_u64 (Z.of_nat (length (op_keys op)));
  ok_utf8 : utf8_ref r = true;
}.

Definition mem_ok (F : gmap QueryIndexRef (gmap string projectionOp)) : Prop :=
  forall r inner, F !! r = Some inner -> inner <> ∅ /\ forall doc op, inner !! doc = Some op -> op_ok r doc op.

Definition overlay (F : gmap QueryIndexRef (gmap string projectionOp)) (progress : string) (A : Spec) : Spec := {|
  sp_postings r doc := match lookup2 F r doc with Some op => op_keys op | None => sp_postings A r doc end;
  sp_partition r := bool_decide (is_Some (F !! r)) || sp_partition A r;
  sp_progress := note progress (sp_progress A);
  sp_generation := sp_generation A; sp_catalog := sp_catalog A; sp_inventory := sp_inventory A; sp_retired := sp_retired A |}.

#[export] Instance overlay_proper F progress : Proper ((≡) ==> (≡)) (overlay F progress).
Proof.
  intros A B (H1 & H2 & H3 & H4 & H5 & H6 & H7). split_and!; cbn; intros; rewrite ?H2, ?H3; try done.
  by destruct (lookup2 F r doc).
Qed.
Lemma overlay_none A : overlay ∅ "" A ≡ A.
Proof.
  by split_and!.
Qed.

(** ** The effect of applying one projection *)
Definition e_projection (T : table) (op : projectionOp) : effect := fun K =>
  let p := pop_projection op in
  match K with
  | KPosting r x =>
      if decide (proj_Index p = r) then
        if decide (x ∈ proj_PostingKeys p) then Some (Some (bytes_of_string (proj_DocumentID p)))
        else if decide (x ∈ disk_postings T r (proj_DocumentID p)) then Some None else None
      else None
  | KReverse r doc =>
      if decide (proj_Index p = r /\ proj_DocumentID p = doc) then
        Some match proj_PostingKeys p with [] => None | keys => Some (encodePostingSet keys) end
      else None
  | KPartition r => if decide (proj_Index p = r) then Some (Some (marshal_ref r)) else None
  | _ => None
  end.

Lemma posting_in r keys K : K ∈ map (KPosting r) keys <-> exists x, K = KPosting r x /\ x ∈ keys.
Proof. rewrite list_elem_of_fmap. firstorder. Qed.

Lemma writes_projection d op r doc :
  typed (content d) -> disk_ok (rows (content d)) -> op_ok r doc op ->
  writes (applyProjection d op) (e_projection (rows (content d)) op).
Proof.
  intros Ht Hd [Hr Hdoc Hk _ _ _]. unfold op_keys in *. destruct op as [p size]. cbn in *. subst r doc.
  unfold applyProjection. cbn [pop_projection].
  change (projectionPrefix "reverse" (proj_Index p) ++ encodePathComponent (proj_DocumentID p))
    with (encode_key (KReverse (proj_Index p) (proj_DocumentID p))).
  destruct (db_Get d _) as [got|] eqn:Eg; [|apply writes_fail]. apply db_Get_law in Eg.
  set (old := disk_postings (rows (content d)) (proj_Index p) (proj_DocumentID p)).
  assert (Hold : Forall is_bytes old).
  { apply Forall_forall. intros x Hx. by apply (disk_postings_key _ _ _ _ Hd) in Hx as [? _]. }
  assert (H1 : writes match got with
      | Some (v, close) => b_close match decodePostingSet v with
                  | Ok keys => b_adds d (map (fun key => BatchDelete (projectionPrefix "posting" (proj_Index p) ++ key)) keys)
                  | Err e => b_fail (ErrPostingRow e) end close
      | None => b_done end (fun K => if decide (K ∈ map (KPosting (proj_Index p)) old) then Some None else None)).
  { unfold old, disk_postings, rows in *. rewrite <- Eg in *. destruct got as [[v close]|]; cbn in *; [|apply writes_done].
    apply writes_close. destruct (decodePostingSet v) as [keys|]; [|apply writes_fail].
    apply (writes_adds d (KPosting (proj_Index p)) None). intros x Hx. rewrite Forall_forall in Hold. by apply Hold. }
  assert (H2 : writes (b_adds d (map (fun key => BatchSet (projectionPrefix "posting" (proj_Index p) ++ key)
                 (bytes_of_string (proj_DocumentID p))) (proj_PostingKeys p)))
      (fun K => if decide (K ∈ map (KPosting (proj_Index p)) (proj_PostingKeys p)) then Some (Some (bytes_of_string (proj_DocumentID p))) else None)).
  { apply (writes_adds d (KPosting (proj_Index p)) (Some _)). intros x Hx. rewrite Forall_forall in Hk. by apply Hk in Hx as [? _]. }
  assert (H3 : writes (setPartition d (proj_Index p)) (e_one (KPartition (proj_Index p)) (Some (marshal_ref (proj_Index p)))))
    by (by apply (writes_add d (KPartition _))).
  assert (H4 : writes match proj_PostingKeys p with
      | [] => b_add d (BatchDelete (encode_key (KReverse (proj_Index p) (proj_DocumentID p))))
      | keys => b_add d (BatchSet (encode_key (KReverse (proj_Index p) (proj_DocumentID p))) (encodePostingSet keys)) end
      (e_one (KReverse (proj_Index p) (proj_DocumentID p)) match proj_PostingKeys p with [] => None | keys => Some (encodePostingSet keys) end)).
  { destruct (proj_PostingKeys p); by apply (writes_add d (KReverse _ _)). }
  eapply writes_ext, (writes_seq _ _ _ _ H1 (writes_seq _ _ _ _ H2 (writes_seq _ _ _ _ H3 H4))).
  intros K _. unfold e_seq, e_one, e_projection. cbn [pop_projection].
  destruct K as [r x|r doc|r| | | | | | | | | |];
    try (repeat (rewrite decide_False by done); repeat (rewrite decide_False; [|by intros (? & ? & _)%posting_in]); done).
  - rewrite decide_False by done. cbn. rewrite decide_False by done.
    destruct (decide (proj_Index p = r)) as [<-|Hne].
    + repeat destruct (decide _); try done; rewrite ?posting_in in *; naive_solver.
    + rewrite !decide_False; [done|intros (? & ? & _)%posting_in; congruence..].
  - destruct (decide (proj_Index p = r /\ proj_DocumentID p = doc)) as [[-> ->]|Hn]; [by rewrite decide_True|].
    rewrite decide_False; [|intros [=]; naive_solver]. rewrite decide_False by done.
    repeat (rewrite decide_False; [|by intros (? & ? & _)%posting_in]). done.
  - rewrite decide_False by done. destruct (decide (proj_Index p = r)) as [->|Hn]; [by rewrite decide_True|].
    rewrite decide_False; [|congruence]. repeat (rewrite decide_False; [|by intros (? & ? & _)%posting_in]). done.
Qed.

(** ** The effect of a batch of projections, in any order *)
Definition e_projections (T : table) (F : gmap QueryIndexRef (gmap string projectionOp)) : effect :=
  e_nested (e_projection T) F.

Lemma mem_ok_lookup2 F r doc op : mem_ok F -> lookup2 F r doc = Some op -> op_ok r doc op.
Proof. intros HF (inner & Hr & Hd)%lookup2_Some. by apply (HF r inner Hr). Qed.

Lemma writes_projections d F :
  typed (content d) -> disk_ok (rows (content d)) -> mem_ok F ->
  writes (b_nested (applyProjection d) F) (e_projections (rows (content d)) F).
Proof. intros Ht Hd HF. apply writes_nested. intros r doc op Hop. by apply (writes_projection d op r doc), mem_ok_lookup2 with F.
Qed.

Lemma e_projections_inv T F K w : e_projections T F K = Some w ->
  exists r doc op, lookup2 F r doc = Some op /\ e_projection T op K = Some w.
Proof. exact (e_nested_inv (e_projection T) F K w). Qed.

(** Posting rows stay in step with the keys of each document: [keys] before, and
    [new] for the documents that are written; a posting key names its document. *)
Section Postings.
Context (T U : bytes -> option bytes) (keys : string -> list bytes) (new : string -> option (list bytes)).
Context (x : bytes) (w : option (option bytes)).
Context (Hrow : forall v, T x = Some v <-> exists doc, v = bytes_of_string doc /\ x ∈ keys doc).
Context (Hkeys : forall doc, x ∈ keys doc -> key_of doc x).
Context (Hnew : forall doc l, new doc = Some l -> x ∈ l -> key_of doc x).
Context (Hafter : U x = default (T x) w).
Context (Hsome : forall e, w = Some e -> exists doc l, key_of doc x /\ new doc = Some l /\
  (e = Some (bytes_of_string doc) /\ x ∈ l \/ e = None /\ (x ∉ l) /\ x ∈ keys doc)).
Context (Hnone : w = None -> forall doc l, new doc = Some l -> key_of doc x -> (x ∉ l) /\ (x ∉ keys doc)).

Lemma posting_row v : U x = Some v <-> exists doc, v = bytes_of_string doc /\ x ∈ default (keys doc) (new doc).
Proof using All.
  rewrite Hafter. destruct w as [e|]; cbn.
  - destruct (Hsome e eq_refl) as (doc & l & Hdoc & Hl & He).
    assert (Howner : forall doc', x ∈ default (keys doc') (new doc') -> doc' = doc).
    { intros doc' Hin. destruct (new doc') as [l'|] eqn:E; cbn in Hin; [|by eapply key_of_agree, Hdoc; apply Hkeys].
      by eapply key_of_agree, Hdoc; eapply Hnew. }
    destruct He as [[-> Hin]|(-> & Hout & _)].
    + split; [intros [= <-]; exists doc; by rewrite Hl|]. intros (doc' & -> & Hin'). by rewrite (Howner doc').
    + split; [done|]. intros (doc' & -> & Hin'). rewrite (Howner doc'), Hl in Hin' by done. done.
  - rewrite Hrow. specialize (Hnone eq_refl). split; intros (doc & -> & Hin); exists doc; (split; [done|]).
    + destruct (new doc) as [l|] eqn:E; [|done]. destruct (Hnone doc l E (Hkeys doc Hin)). done.
    + destruct (new doc) as [l|] eqn:E; [|done]. cbn in Hin. destruct (Hnone doc l E (Hnew doc l E Hin)). done.
Qed.
End Postings.

Section Flush.
Context (T : table) (F : gmap QueryIndexRef (gmap string projectionOp)).
Context (Hd : disk_ok T) (HF : mem_ok F).
Let U : table := after (e_projections T F) T.

Lemma flush_reverse r doc :
  U (KReverse r doc) = match lookup2 F r doc with
                       | Some op => match op_keys op with [] => None | keys => Some (encodePostingSet keys) end
                       | None => T (KReverse r doc)
                       end.
Proof.
  unfold U, after, e_projections. rewrite (e_nested_at _ F _ r doc).
  - destruct (lookup2 F r doc) as [op|] eqn:E; [|done]. destruct (mem_ok_lookup2 _ _ _ _ HF E) as [Hr Hdoc _ _ _ _].
    cbn. rewrite decide_True by done. done.
  - intros r' doc' op w Hop. destruct (mem_ok_lookup2 _ _ _ _ HF Hop) as [Hr Hdoc _ _ _ _]. cbn.
    destruct (decide _) as [[<- <-]|]; [|done]. by subst.
Qed.

Lemma flush_postings r doc :
  disk_postings U r doc = match lookup2 F r doc with Some op => op_keys op | None => disk_postings T r doc end.
Proof.
  unfold disk_postings. rewrite flush_reverse. destruct (lookup2 F r doc) as [op|] eqn:E; [|done].
  destruct (mem_ok_lookup2 _ _ _ _ HF E) as [_ _ Hk _ Hc _]. destruct (op_keys op) as [|x keys] eqn:Ek; [done|].
  rewrite <- Ek in *. rewrite decode_encodePostingSet; [done| |done]. eapply Forall_impl; [exact Hk|]. by intros ? (_ & ? & _).
Qed.

(** A posting row belongs to the document its key names. *)
Lemma e_projection_owner op r doc r' x w :
  op_ok r doc op -> e_projection T op (KPosting r' x) = Some w -> r = r' /\ key_of doc x.
Proof.
  intros [Hr Hdoc Hk _ _ _] H. cbn in H. subst. destruct (decide _) as [->|]; [|done]. split; [done|].
  destruct (decide (x ∈ _)) as [Hx|]; [rewrite Forall_forall in Hk; by apply Hk|].
  destruct (decide _) as [Hx|]; [|done]. by eapply disk_postings_key.
Qed.

Lemma flush_posting r x v : is_bytes x ->
  (U (KPosting r x) = Some v <-> exists doc, v = bytes_of_string doc /\ x ∈ disk_postings U r doc).
Proof.
  intros Hx. assert (Hok : forall doc op, lookup2 F r doc = Some op -> op_ok r doc op) by (intros; by eapply mem_ok_lookup2).
  rewrite (posting_row (fun x => T (KPosting r x)) (fun x => U (KPosting r x)) (disk_postings T r)
    (fun doc => op_keys <$> lookup2 F r doc) x (e_projections T F (KPosting r x))).
  - split; intros (doc & -> & Hin); exists doc; (split; [done|]); rewrite flush_postings in *; by destruct (lookup2 F r doc).
  - intros. by apply (dk_posting _ Hd).
  - intros doc. by apply disk_postings_key.
  - intros doc l (op & Hop & ->)%fmap_Some Hin. destruct (Hok _ _ Hop) as [_ _ Hk _ _ _]. rewrite Forall_forall in Hk. by apply Hk.
  - done.
  - intros e E. apply e_projections_inv in E as (r' & doc & op & Hop & Ew). pose proof (mem_ok_lookup2 _ _ _ _ HF Hop) as Ho.
    destruct (e_projection_owner _ _ _ _ _ _ Ho Ew) as [-> Hkey]. exists doc, (op_keys op). rewrite Hop. do 2 (split; [done|]).
    destruct Ho as [Hr Hdoc _ _ _ _]. cbn in Ew. rewrite Hr, Hdoc, decide_True in Ew by done. unfold op_keys.
    destruct (decide (x ∈ proj_PostingKeys _)); [left; by simplify_eq|]. destruct (decide _); [right; by simplify_eq|done].
  - intros E doc l (op & Hop & ->)%fmap_Some Hkey. destruct (e_projection T op (KPosting r x)) as [w|] eqn:Ew.
    + exfalso. unfold e_projections in E. rewrite (e_nested_at _ F _ r doc), Hop in E; [change (e_projection T op (KPosting r x) = None) in E; congruence|].
      intros r' doc' op' w' Hop' Ew'. destruct (e_projection_owner _ _ _ _ _ _ (mem_ok_lookup2 _ _ _ _ HF Hop') Ew') as [-> Hk'].
      split; [done|]. by eapply key_of_agree.
    + destruct (Hok _ _ Hop) as [Hr Hdoc _ _ _ _]. cbn in Ew. unfold op_keys. rewrite Hr, Hdoc, decide_True in Ew by done.
      destruct (decide (x ∈ _)); [done|]. by destruct (decide (x ∈ _)).
Qed.

Lemma flush_partition r :
  U (KPartition r) = T (KPartition r) /\ F !! r = None \/ U (KPartition r) = Some (marshal_ref r) /\ is_Some (F !! r) /\ utf8_ref r = true.
Proof.
  unfold U, after. destruct (e_projections T F (KPartition r)) as [w|] eqn:E.
  - right. apply e_projections_inv in E as (r' & doc & op & Hop & Ew). pose proof (mem_ok_lookup2 _ _ _ _ HF Hop) as [Hr _ _ _ _ Hu].
    cbn in Ew. rewrite Hr in Ew. destruct (decide _) as [->|]; [|done]. injection Ew as <-. cbn. split; [done|]. split; [|done].
    apply lookup2_Some in Hop as (inner & -> & _). eauto.
  - left. split; [done|]. destruct (F !! r) as [inner|] eqn:Er; [|done]. exfalso. destruct (HF _ _ Er) as [Hne Hops].
    apply map_choose in Hne as (doc & op & Hop). destruct (Hops _ _ Hop) as [Hr _ _ _ _ _].
    assert (E' : e_projections T F (KPartition r) = Some (Some (marshal_ref r))); [|by rewrite E in E'].
    apply (e_nested_some _ F _ r doc op); [apply lookup2_Some; eauto|cbn; by rewrite decide_True|].
    intros r' doc' op' w _ H. cbn in H. destruct (decide _); congruence.
Qed.

Lemma flush_other K : match K with KPosting _ _ | KReverse _ _ | KPartition _ => False | _ => True end -> U K = T K.
Proof.
  intros HK. unfold U, after. destruct (e_projections T F K) as [w|] eqn:E; [|done].
  apply e_projections_inv in E as (r & doc & op & _ & E). by destruct K.
Qed.

Lemma flush_disk_ok : disk_ok U.
Proof.
  split.
  - intros r doc v. rewrite flush_reverse. destruct (lookup2 F r doc) as [op|] eqn:E; [|apply Hd].
    destruct (mem_ok_lookup2 _ _ _ _ HF E) as [_ _ Hk _ Hc _]. destruct (op_keys op) as [|x keys] eqn:Ek; [done|].
    rewrite <- Ek in *. intros [= <-]. exists (op_keys op). split; [|split; [by rewrite Ek|done]].
    apply decode_encodePostingSet; [|done]. eapply Forall_impl; [exact Hk|]. by intros ? (_ & ? & _).
  - intros. by apply flush_posting.
  - intros r v. destruct (flush_partition r) as [[-> _]|(-> & _ & Hu)]; [apply Hd|]. intros [= <-]. by apply unmarshal_marshal_ref.
  - intros *. rewrite flush_other by done. apply Hd.
  - intros *. rewrite flush_other by done. apply Hd.
  - intros *. rewrite flush_other by done. apply Hd.
  - intros *. rewrite flush_other by done. apply Hd.
Qed.

(** Moving an overlay to disk does not change what is read. *)
Lemma flush_spec : disk_spec U ≡ overlay F "" (disk_spec T).
Proof.
  split_and!; cbn; intros; rewrite ?flush_other by done; try done; [apply flush_postings|].
  destruct (flush_partition r) as [[-> ->]|(-> & Hs & _)].
  - rewrite bool_decide_false by (by intros []). done.
  - by rewrite bool_decide_true.
Qed.
End Flush.

(** ** Legacy rows: each document has one order key per index *)
Definition wf_hash (hash : bytes) : Prop := is_bytes hash /\ (47 ∉ hash).
Record legacy_ok (T : table) : Prop := {
  lk_rev : forall db hash doc v, wf_hash hash -> T (KRev db hash doc) = Some v -> key_of doc v;
  lk_index : forall db hash x v, wf_hash hash -> is_bytes x ->
    (T (KIndex db hash x) = Some v <-> exists doc, v = bytes_of_string doc /\ T (KRev db hash doc) = Some x);
}.

Definition op_hash (op : pendingOp) : bytes := indexHash (op_pattern op) (op_tmplID op).

#[local] Arguments op_hash : simpl never.

(** The effect of one legacy write. *)
Definition e_legacy (T : table) (op : pendingOp) : effect := fun K =>
  match K with
  | KIndex db hash x =>
      if decide (op_db op = db /\ op_hash op = hash) then
        if decide (op_orderKey op = Some x) then Some (Some (bytes_of_string (op_docID op)))
        else if decide (T (KRev db hash (op_docID op)) = Some x) then Some None else None
      else None
  | KRev db hash doc =>
      if decide (op_db op = db /\ op_hash op = hash /\ op_docID op = doc) then
        match op_orderKey op with
        | Some x => Some (Some x)
        | None => match T K with Some _ => Some None | None => None end
        end
      else None
  | KMap db hash =>
      if decide (op_db op = db /\ op_hash op = hash) then
        match op_orderKey op with
        | Some _ => Some (Some (bytes_of_string (String.append (op_pattern op) (String.append "|" (op_tmplID op)))))
        | None => None
        end
      else None
  | _ => None
  end.

Lemma e_one_ne K K' v : K <> K' -> e_one K v K' = None.
Proof. intros H. unfold e_one. by rewrite decide_False. Qed.
Lemma e_one_eq K v : e_one K v K = Some v.
Proof. unfold e_one. by rewrite decide_True. Qed.

Lemma writes_applyOp d op :
  legacy_ok (rows (content d)) -> (forall x, op_orderKey op = Some x -> is_bytes x) ->
  writes (applyOp d op) (e_legacy (rows (content d)) op).
Proof.
  intros Hl Hk. pose proof (indexHash_spec (op_pattern op) (op_tmplID op)) as [Hb Hs]. fold (op_hash op) in Hb, Hs.
  unfold applyOp. cbv zeta.
  change (reverseKey (op_db op) (op_pattern op) (op_tmplID op) (op_docID op)) with (encode_key (KRev (op_db op) (op_hash op) (op_docID op))).
  set (T := rows (content d)) in *.
  assert (Hget : forall got, db_Get d (encode_key (KRev (op_db op) (op_hash op) (op_docID op))) = Ok got ->
            fst <$> got = T (KRev (op_db op) (op_hash op) (op_docID op))) by (intros got E; by apply db_Get_law in E).
  assert (Hidx : forall x v, is_bytes x -> writes (b_add d (indexKey (op_db op) (op_pattern op) (op_tmplID op) x, v))
            (e_one (KIndex (op_db op) (op_hash op) x) v)) by (intros; by apply (writes_add d (KIndex _ _ _))).
  assert (Hrev : forall v, writes (b_add d (encode_key (KRev (op_db op) (op_hash op) (op_docID op)), v))
            (e_one (KRev (op_db op) (op_hash op) (op_docID op)) v)) by (intros; by apply (writes_add d (KRev _ _ _))).
  assert (Hold : forall old, T (KRev (op_db op) (op_hash op) (op_docID op)) = Some old -> is_bytes old)
    by (intros old E; by apply (lk_rev _ Hl) in E as [? _]).
  clearbody T.
  destruct (op_orderKey op) as [x|] eqn:Ex.
  - specialize (Hk x eq_refl). destruct (db_Get d _) as [got|]; [|apply writes_fail]. specialize (Hget _ eq_refl).
    assert (Hmap : writes (b_add d (mapKey (op_db op) (op_pattern op) (op_tmplID op),
       Some (bytes_of_string (String.append (op_pattern op) (String.append "|" (op_tmplID op))))))
       (e_one (KMap (op_db op) (op_hash op)) (Some (bytes_of_string (String.append (op_pattern op) (String.append "|" (op_tmplID op)))))))
      by (by apply (writes_add d (KMap _ _))).
    assert (H1 : writes match got with Some (old, _) => b_add d (BatchDelete (indexKey (op_db op) (op_pattern op) (op_tmplID op) old)) | None => b_done end
        (match T (KRev (op_db op) (op_hash op) (op_docID op)) with Some old => e_one (KIndex (op_db op) (op_hash op) old) None | None => e_none end)).
    { destruct got as [[old c]|]; rewrite <- Hget; cbn; [|apply writes_done]. by apply Hidx, Hold. }
    eapply writes_ext, (writes_seq _ _ _ _ H1 (writes_seq _ _ _ _ (Hidx x (Some _) Hk) (writes_seq _ _ _ _ (Hrev (Some x)) Hmap))).
    intros K _. unfold e_seq, e_legacy. rewrite Ex. destruct K as [| | | | | | |db hash y|db hash doc|db hash|db hash| |];
      try (rewrite !e_one_ne by done; by destruct (T (KRev _ _ _))).
    + rewrite !(e_one_ne (KMap _ _)), (e_one_ne (KRev _ _ _)) by done. destruct (decide (op_db op = db /\ op_hash op = hash)) as [[<- <-]|Hn].
      * destruct (decide (Some x = Some y)) as [[= ->]|Hxy]; [by rewrite e_one_eq|]. rewrite e_one_ne by congruence.
        destruct (T (KRev (op_db op) (op_hash op) (op_docID op))) as [old|]; [|by rewrite decide_False by done].
        destruct (decide (Some old = Some y)) as [[= ->]|]; [by rewrite e_one_eq|]. rewrite e_one_ne by congruence. done.
      * rewrite e_one_ne by naive_solver. destruct (T (KRev _ _ _)) as [old|]; [|done]. rewrite e_one_ne by naive_solver. done.
    + rewrite !(e_one_ne (KMap _ _)) by done. destruct (decide (op_db op = db /\ op_hash op = hash /\ op_docID op = doc)) as [(<- & <- & <-)|Hn];
        [by rewrite e_one_eq|]. rewrite e_one_ne by naive_solver. rewrite e_one_ne by done. by destruct (T (KRev _ _ _)).
    + destruct (decide (op_db op = db /\ op_hash op = hash)) as [[<- <-]|Hn]; [by rewrite e_one_eq|].
      rewrite e_one_ne by naive_solver. rewrite !e_one_ne by done. by destruct (T (KRev _ _ _)).
  - destruct (db_Get d _) as [[[old [c|]]|]|]; try apply writes_fail; specialize (Hget _ eq_refl); cbn [fmap option_fmap option_map fst] in Hget.
    + pose proof (Hold _ (eq_sym Hget)) as Hob.
      eapply writes_ext, (writes_seq _ _ _ _ (Hidx old None Hob) (Hrev None)). intros K _. unfold e_seq, e_legacy. rewrite Ex.
      destruct K as [| | | | | | |db hash y|db hash doc|db hash|db hash| |]; try done.
      * rewrite e_one_ne by done. destruct (decide (op_db op = db /\ op_hash op = hash)) as [[<- <-]|Hn].
        -- rewrite decide_False by done. rewrite <- Hget. destruct (decide (Some old = Some y)) as [[= ->]|]; [by rewrite e_one_eq|].
           by rewrite e_one_ne by congruence.
        -- by rewrite e_one_ne by naive_solver.
      * destruct (decide (op_db op = db /\ op_hash op = hash /\ op_docID op = doc)) as [(<- & <- & <-)|Hn].
        -- rewrite e_one_eq, <- Hget. done.
        -- rewrite !e_one_ne by naive_solver. done.
      * rewrite !e_one_ne by done. by destruct (decide _).
    + eapply writes_ext, writes_done. intros K _. unfold e_none, e_legacy. rewrite Ex.
      destruct K as [| | | | | | |db hash y|db hash doc|db hash|db hash| |]; try done.
      * destruct (decide (op_db op = db /\ op_hash op = hash)) as [[<- <-]|Hn]; [|done]. rewrite decide_False by done. by rewrite <- Hget.
      * destruct (decide _) as [(<- & <- & <-)|Hn]; [|done]. by rewrite <- Hget.
      * by destruct (decide _).
Qed.

(** ** Batches of legacy writes and index deletions *)
Definition index_id (db : string) (hash : bytes) : string := String.append db (String.append "|" (string_of_bytes hash)).
Definition del_hash (op : indexDeleteOp) : bytes := indexHash (del_pattern op) (del_tmplID op).

#[local] Arguments index_id : simpl never.
#[local] Arguments del_hash : simpl never.

Definition legacy_mem (F : gmap string (gmap string pendingOp)) : Prop :=
  forall i doc op, lookup2 F i doc = Some op ->
    i = index_id (op_db op) (op_hash op) /\ op_docID op = doc /\ forall x, op_orderKey op = Some x -> key_of doc x.
Definition deletes_mem (D : gmap string indexDeleteOp) : Prop :=
  forall i op, D !! i = Some op -> i = index_id (del_db op) (del_hash op).

(** The write pending for a document, and whether its index is being deleted. *)
Definition legacy_write (F : gmap string (gmap string pendingOp)) (db : string) (hash : bytes) (doc : string) : option (option bytes) :=
  match lookup2 F (index_id db hash) doc with
  | Some op => if decide (op_db op = db /\ op_hash op = hash) then Some (op_orderKey op) else None
  | None => None
  end.
Definition index_deleted (D : gmap string indexDeleteOp) (db : string) (hash : bytes) : bool :=
  match D !! index_id db hash with
  | Some op => bool_decide (del_db op = db /\ del_hash op = hash)
  | None => false
  end.

Lemma legacy_writer F op i doc K e : legacy_mem F -> lookup2 F i doc = Some op ->
  match K with
  | KRev db hash doc' => i = index_id db hash /\ doc = doc' /\ legacy_write F db hash doc = Some (op_orderKey op)
  | KIndex db hash x => i = index_id db hash /\ legacy_write F db hash doc = Some (op_orderKey op)
  | _ => True
  end \/ e_legacy e op K = None.
Proof.
  intros HF Hop. destruct (HF _ _ _ Hop) as (-> & <- & _). destruct K as [| | | | | | |db hash x|db hash doc| | | |]; try by left.
  - cbn [e_legacy]. destruct (decide _) as [[<- <-]|]; [left|by right]. split; [done|]. unfold legacy_write. rewrite Hop. by rewrite decide_True.
  - cbn [e_legacy]. destruct (decide _) as [(<- & <- & <-)|]; [left|by right]. do 2 (split; [done|]). unfold legacy_write. rewrite Hop. by rewrite decide_True.
Qed.

Lemma elem_of_option_list {A} (x : A) o : x ∈ option_list o <-> o = Some x.
Proof. destruct o; cbn; [rewrite list_elem_of_singleton|rewrite elem_of_nil]; naive_solver. Qed.

Section LegacyFlush.
Context (T : table) (F : gmap string (gmap string pendingOp)).
Context (Hl : legacy_ok T) (HF : legacy_mem F).
Let U : table := after (e_nested (e_legacy T) F) T.

Lemma legacy_flush_rev db hash doc : U (KRev db hash doc) = default (T (KRev db hash doc)) (legacy_write F db hash doc).
Proof.
  unfold U, after. rewrite (e_nested_at _ F _ (index_id db hash) doc).
  - unfold legacy_write. destruct (lookup2 F (index_id db hash) doc) as [op|] eqn:E; [|done].
    destruct (HF _ _ _ E) as (_ & Hdoc & _). cbn. destruct (decide (op_db op = db /\ op_hash op = hash)) as [[<- <-]|Hn].
    + rewrite decide_True by done. destruct (op_orderKey op); [done|]. cbn. by destruct (T (KRev _ _ _)).
    + rewrite decide_False by naive_solver. done.
  - intros i doc' op w Hop Hw. destruct (legacy_writer F op i doc' (KRev db hash doc) T HF Hop) as [(-> & -> & _)|]; [done|congruence].
Qed.

Lemma legacy_write_key db hash doc x : legacy_write F db hash doc = Some (Some x) -> key_of doc x.
Proof.
  unfold legacy_write. destruct (lookup2 _ _ _) as [op|] eqn:E; [|done]. destruct (decide _); [|done]. intros [= Hx].
  destruct (HF _ _ _ E) as (_ & _ & H). by apply H.
Qed.

Lemma legacy_flush_ok : legacy_ok U.
Proof.
  split.
  - intros db hash doc v Hh. rewrite legacy_flush_rev. destruct (legacy_write F db hash doc) as [w|] eqn:E; cbn; [|by apply Hl].
    intros ->. by eapply legacy_write_key.
  - intros db hash x v Hh Hx.
    rewrite (posting_row (fun x => T (KIndex db hash x)) (fun x => U (KIndex db hash x)) (fun doc => option_list (T (KRev db hash doc)))
      (fun doc => option_list <$> legacy_write F db hash doc) x (e_nested (e_legacy T) F (KIndex db hash x))).
    + split; intros (doc & -> & Hin); exists doc; (split; [done|]); rewrite legacy_flush_rev in *.
      * destruct (legacy_write F db hash doc) as [[y|]|]; cbn in *; [..|destruct (T (KRev _ _ _)); cbn in Hin]; set_solver.
      * destruct (legacy_write F db hash doc) as [w|]; cbn in *; rewrite Hin; by left.
    + intros v'. rewrite (lk_index _ Hl) by done. setoid_rewrite elem_of_option_list. done.
    + intros doc Hin%elem_of_option_list. by eapply lk_rev.
    + intros doc l (w & Hw & ->)%fmap_Some Hin%elem_of_option_list. subst w. by eapply legacy_write_key.
    + done.
    + intros e E. apply e_nested_inv in E as (i & doc & op & Hop & Ew).
      destruct (legacy_writer F op i doc (KIndex db hash x) T HF Hop) as [(-> & Hw)|]; [|congruence].
      destruct (HF _ _ _ Hop) as (_ & Hdoc & Hk). cbn in Ew. destruct (decide _) as [[<- <-]|]; [|done]. rewrite Hdoc in Ew.
      exists doc, (option_list (op_orderKey op)). rewrite Hw, !elem_of_option_list.
      destruct (decide (op_orderKey op = Some x)) as [Ex|Nx]; simplify_eq.
      * split_and!; [by apply Hk|done|by left].
      * destruct (decide _) as [Et|]; [|done]. simplify_eq. split_and!; [by eapply lk_rev|done|by right].
    + intros E doc l (w & Hw & ->)%fmap_Some Hkey. rewrite !elem_of_option_list. unfold legacy_write in Hw.
      destruct (lookup2 F (index_id db hash) doc) as [op|] eqn:Hop; [|done].
      destruct (decide (op_db op = db /\ op_hash op = hash)) as [[Edb Eh]|]; [|done]. injection Hw as <-.
      destruct (HF _ _ _ Hop) as (_ & Hdoc & _).
      assert (En : e_legacy T op (KIndex db hash x) = None).
      { destruct (e_legacy T op (KIndex db hash x)) as [w|] eqn:Ew; [|done]. exfalso.
        rewrite (e_nested_at _ F _ (index_id db hash) doc), Hop in E; [change (e_legacy T op (KIndex db hash x) = None) in E; congruence|].
        intros i' doc' op' w' Hop' Ew'. destruct (legacy_writer F op' i' doc' (KIndex db hash x) T HF Hop') as [(-> & _)|]; [|congruence].
        split; [done|]. destruct (HF _ _ _ Hop') as (_ & Hdoc' & Hk'). cbn in Ew'. destruct (decide _); [|done]. rewrite Hdoc' in Ew'.
        eapply key_of_agree, Hkey. destruct (decide (op_orderKey op' = Some x)); [by apply Hk'|]. destruct (decide _) as [Et|]; [|done].
        by eapply lk_rev. }
      cbn in En. rewrite decide_True in En by done. rewrite Hdoc in En. destruct (decide (op_orderKey op = Some x)); [done|].
      by destruct (decide (T _ = Some x)).
Qed.

Lemma legacy_flush_other K : legacy K = false -> U K = T K.
Proof.
  intros HK. unfold U, after. destruct (e_nested _ F K) as [w|] eqn:E; [|done]. apply e_nested_inv in E as (i & doc & op & _ & E).
  by destruct K.
Qed.
End LegacyFlush.
End PersistFacts.
