(* ===== verification/PersistRefine.v ===== *)
(** * What the batches of the persistent store mean

    The effect of a whole batch (populateBatch): legacy writes, projections, index
    deletions and the publication or checkpoint that goes with them. Then the effect
    of each publication or deletion on the rows, read through [disk_spec], is the
    abstract operation; metadata rows keep decoding and posting rows stay in step with
    reverse rows. *)
From stdpp Require Import base list sorting gmap strings.
From Stdlib Require Import ZArith.
From S2P Require Import Prelude PostingSet OrderKey IndexStore Intervals Keys Pebble PersistStore PersistSpec PersistFacts.
Local Open Scope Z_scope.
#[local] Arguments op_hash : simpl never.
#[local] Arguments del_hash : simpl never.
#[local] Arguments index_id : simpl never.

Section PersistBatch.
Context `{PB : Pebble} `{XX : XXHash} `{MJ : MetadataJSON} `{SS : SliceSort} `{RO : RangeOrder}.

(** ** Index deletions *)
Definition e_index_delete (m : gmap bytes bytes) (op : indexDeleteOp) : effect :=
  e_seq (e_prefix (indexKeyPrefix (del_db op) (del_pattern op) (del_tmplID op)) m)
  (e_seq (e_prefix (reverseKeyPrefix (del_db op) (del_pattern op) (del_tmplID op)) m)
  (e_seq (e_one (KMap (del_db op) (del_hash op)) None) (e_one (KState (del_db op) (del_hash op)) None))).

Lemma writes_index_delete d op : typed (content d) -> writes (delete_index_rows d op) (e_index_delete (content d) op).
Proof.
  intros Ht. destruct (indexHash_spec (del_pattern op) (del_tmplID op)) as [Hb Hs]. unfold delete_index_rows, e_index_delete.
  repeat apply writes_seq.
  - apply writes_deletePrefix; [apply indexKeyPrefix_bytes|done].
  - apply writes_deletePrefix; [apply reverseKeyPrefix_bytes|done].
  - by apply (writes_add d (KMap (del_db op) (del_hash op))).
  - by apply (writes_add d (KState (del_db op) (del_hash op))).
Qed.

Lemma e_index_delete_at m op K : wf_key K ->
  e_index_delete m op K =
  match K with
  | KIndex db hash _ | KRev db hash _ =>
      if bool_decide (del_db op = db /\ del_hash op = hash) && bool_decide (is_Some (rows m K)) then Some None else None
  | KMap db hash | KState db hash => if decide (del_db op = db /\ del_hash op = hash) then Some None else None
  | _ => None
  end.
Proof.
  intros HK. destruct (indexHash_spec (del_pattern op) (del_tmplID op)) as [Hb Hs].
  unfold e_index_delete, e_seq, e_prefix, indexKeyPrefix, reverseKeyPrefix. fold (del_hash op).
  rewrite prefixb_index, prefixb_reverse by done.
  destruct K as [| | | | | | |db hash x|db hash doc|db hash|db hash| |]; rewrite ?(e_one_ne (KState _ _)), ?(e_one_ne (KMap _ _)) by done; try done.
  - unfold rows. by destruct (_ && _).
  - destruct (decide (del_db op = db /\ del_hash op = hash)) as [[-> ->]|Hn]; [ by rewrite e_one_eq|]. by rewrite e_one_ne by naive_solver.
  - destruct (decide (del_db op = db /\ del_hash op = hash)) as [[-> ->]|Hn]; [by rewrite e_one_eq|]. by rewrite e_one_ne by naive_solver.
Qed.

Definition e_index_deletes (m : gmap bytes bytes) (D : gmap string indexDeleteOp) : effect :=
  e_each (fun x => e_index_delete m x.2) (range D).

Lemma writes_index_deletes d D : typed (content d) ->
  writes (b_each (fun x => delete_index_rows d x.2) (range D)) (e_index_deletes (content d) D).
Proof. intros Ht. apply writes_each. intros x _. by apply writes_index_delete. Qed.

Lemma e_index_deletes_other m D K : wf_key K -> legacy K = false -> e_index_deletes m D K = None.
Proof. intros HK Hl. apply e_each_none. intros x _. rewrite e_index_delete_at by done. by destruct K. Qed.

(** A row of one index: gone when the index is deleted. *)
Lemma e_index_deletes_at m D K db hash : wf_key K -> deletes_mem D ->
  (match K with KIndex db' hash' _ | KRev db' hash' _ => db' = db /\ hash' = hash | _ => False end) ->
  e_index_deletes m D K = if index_deleted D db hash && bool_decide (is_Some (rows m K)) then Some None else None.
Proof.
  intros HK HD Hk. assert (E : forall op, e_index_delete m op K =
    if bool_decide (del_db op = db /\ del_hash op = hash) && bool_decide (is_Some (rows m K)) then Some None else None).
  { intros op. rewrite e_index_delete_at by done. by destruct K; try done; destruct Hk as [-> ->]. }
  destruct (index_deleted D db hash && bool_decide (is_Some (rows m K))) eqn:Ed.
  - apply andb_true_iff in Ed as [Ed Es]. unfold index_deleted in Ed. destruct (D !! index_id db hash) as [op|] eqn:Eop; [|done].
    apply e_each_some.
    + intros [i op'] w _. cbn. rewrite E. destruct (_ && _); congruence.
    + exists (index_id db hash, op). split; [by apply elem_of_range|]. cbn. by rewrite E, Ed, Es.
  - apply e_each_none. intros [i op] Hop%elem_of_range. cbn [snd]. rewrite E.
    destruct (bool_decide (_ /\ _) && _) eqn:E2; [|done].
    apply andb_true_iff in E2 as [E2 Es]. rewrite Es, andb_true_r in Ed. pose proof (HD _ _ Hop) as ->.
    apply bool_decide_eq_true in E2 as [<- <-]. unfold index_deleted in Ed. rewrite Hop in Ed.
    apply bool_decide_eq_false in Ed. by destruct Ed.
Qed.

(** ** Legacy rows after a batch *)
Definition legacy_get (F : gmap string (gmap string pendingOp)) (D : gmap string indexDeleteOp)
    (T : db_key -> option bytes) (db : string) (hash : bytes) (doc : string) : option bytes :=
  if index_deleted D db hash then None else default (T (KRev db hash doc)) (legacy_write F db hash doc).

Section Legacy.
Context (m : gmap bytes bytes) (F : gmap string (gmap string pendingOp)) (D : gmap string indexDeleteOp).
Context (Hl : legacy_ok (rows m)) (HF : legacy_mem F) (HD : deletes_mem D).
Context (Hdisj : forall i, is_Some (F !! i) -> D !! i = None).
Context (V W : db_key -> option bytes).
Context (HV : forall K, wf_key K -> legacy K = true -> V K = after (e_nested (e_legacy (rows m)) F) (rows m) K).
Context (HW : forall K, wf_key K -> legacy K = true -> W K = after (e_index_deletes m D) V K).

Lemma deleted_unwritten db hash doc : index_deleted D db hash = true -> legacy_write F db hash doc = None.
Proof.
  unfold index_deleted, legacy_write. destruct (D !! index_id db hash) eqn:E; [|done]. intros _.
  destruct (lookup2 F (index_id db hash) doc) eqn:E2; [|done]. apply lookup2_Some in E2 as (inner & Hi & _).
  rewrite Hdisj in E by eauto. done.
Qed.

Lemma batch_rev db hash doc : wf_hash hash -> W (KRev db hash doc) = legacy_get F D (rows m) db hash doc.
Proof.
  intros [Hb Hs]. assert (Hwf : wf_key (KRev db hash doc)) by done. rewrite HW by done. unfold after, legacy_get.
  rewrite (e_index_deletes_at m D _ db hash), HV, legacy_flush_rev by done.
  destruct (index_deleted D db hash) eqn:Ed; cbn; [|done]. rewrite (deleted_unwritten db hash doc Ed). cbn.
  case_bool_decide as E; [done|]. cbn. by apply eq_None_not_Some.
Qed.

Lemma batch_index db hash x : wf_hash hash -> is_bytes x ->
  W (KIndex db hash x) = if index_deleted D db hash then None else after (e_nested (e_legacy (rows m)) F) (rows m) (KIndex db hash x).
Proof.
  intros [Hb Hs] Hx. assert (Hwf : wf_key (KIndex db hash x)) by done. rewrite HW by done. unfold after at 1.
  rewrite (e_index_deletes_at m D _ db hash), HV by done.
  destruct (index_deleted D db hash) eqn:Ed; cbn; [|done]. case_bool_decide as E; [done|]. cbn. unfold after.
  assert (En : e_nested (e_legacy (rows m)) F (KIndex db hash x) = None); [|rewrite En; by apply eq_None_not_Some].
  destruct (e_nested _ F _) as [w|] eqn:Ew; [|done]. apply e_nested_inv in Ew as (i & doc & op & Hop & Ew).
  destruct (legacy_writer F op i doc (KIndex db hash x) (rows m) HF Hop) as [[_ Hw]|]; [|congruence].
  by rewrite (deleted_unwritten db hash doc Ed) in Hw.
Qed.

Lemma batch_legacy_ok : legacy_ok W.
Proof.
  pose proof (legacy_flush_ok (rows m) F Hl HF) as Hu. split.
  - intros db hash doc v Hh. rewrite batch_rev by done. unfold legacy_get. destruct (index_deleted D db hash); [done|].
    rewrite <- legacy_flush_rev by done. by apply (lk_rev _ Hu).
  - intros db hash x v Hh Hx. rewrite batch_index by done. setoid_rewrite batch_rev; [|done]. unfold legacy_get.
    destruct (index_deleted D db hash).
    + split; [done|]. by intros (doc & _ & ?).
    + setoid_rewrite <- legacy_flush_rev; [|done]. by apply (lk_index _ Hu).
Qed.
End Legacy.

(** ** Publications *)
Definition e_save (progress : string) : effect :=
  if String.eqb progress "" then e_none else e_one KProgress (Some (bytes_of_string progress)).
Definition e_generation (r : QueryIndexRef) (g : Generation) : effect :=
  e_seq (e_one (KPartition r) (Some (marshal_ref r)))
        (e_one (KGeneration (ref_Database r) (ref_Collection r) (ref_TemplateFingerprint r)) (Some (marshal_generation g))).
Definition e_catalog (c : BootstrapCatalog) : effect := e_one (KCatalog (cat_Database c)) (Some (marshal_catalog c)).
Definition e_inventory (m : gmap bytes bytes) (owned : list BootstrapCatalog) (i : catalogInventory) (progress : string) : effect :=
  e_seq (e_prefix (bytes_of_string "v2/catalog/") m)
  (e_seq (e_each (fun c => e_seq (e_catalog c) (e_one (KRetired (cat_Database c)) None)) owned)
  (e_seq (e_one KInventory (Some (marshal_inventory i))) (e_one KProgress (Some (bytes_of_string progress))))).

Lemma writes_save d progress :
  writes (if String.eqb progress "" then b_done else b_add d (BatchSet keyProgress (bytes_of_string progress))) (e_save progress).
Proof. unfold e_save. destruct (String.eqb progress ""); [apply writes_done|]. by apply (writes_add d KProgress). Qed.

Lemma writes_generation d r progress value g saved : value = marshal_generation g ->
  writes (applyMetadata d (Some {|
      mw_key := generationKey (ref_Database r) (ref_Collection r) (ref_TemplateFingerprint r); mw_value := value;
      mw_progress := progress; mw_partition := Some r;
      mw_catalogs := []; mw_replaceCatalogs := false; mw_singleCatalog := false; mw_inventory := [] |}) saved)
    (e_seq (e_generation r g) (e_save (note progress saved))).
Proof.
  intros ->. unfold applyMetadata. cbn. unfold e_generation, note.
  eapply writes_ext, writes_seq, writes_seq, writes_save;
    [|by apply (writes_add d (KPartition r))|by apply (writes_add d (KGeneration (ref_Database r) (ref_Collection r) (ref_TemplateFingerprint r)))].
  intros K _. unfold e_seq. by repeat case_match.
Qed.
Lemma writes_catalog d c saved :
  writes (applyMetadata d (Some {|
        mw_key := catalogKey (cat_Database c); mw_value := marshal_catalog c;
        mw_progress := cat_BootstrapProgress c; mw_partition := None;
        mw_catalogs := []; mw_replaceCatalogs := false; mw_singleCatalog := true; mw_inventory := [] |}) saved)
    (e_seq (e_catalog c) (e_save (note (cat_BootstrapProgress c) saved))).
Proof.
  unfold applyMetadata. cbn. unfold e_catalog, note.
  eapply writes_ext, (writes_seq _ _ _ _ writes_done (writes_seq _ _ _ _ (writes_add d (KCatalog (cat_Database c)) _ I) (writes_save d _))).
  intros K _. unfold e_seq, e_none. by repeat case_match.
Qed.
Lemma writes_inventory d owned i progress saved : typed (content d) ->
  writes (applyMetadata d (Some {|
        mw_key := []; mw_value := []; mw_progress := progress; mw_partition := None;
        mw_catalogs := map catalog_record owned; mw_replaceCatalogs := true; mw_singleCatalog := false;
        mw_inventory := marshal_inventory i |}) saved)
    (e_inventory (content d) owned i progress).
Proof.
  intros Ht. unfold applyMetadata. cbn. apply writes_seq; [apply writes_deletePrefix; [apply bytes_of_string_bytes|done]|].
  apply writes_seq; [|apply writes_seq; [by apply (writes_add d KInventory)|by apply (writes_add d KProgress)]].
  unfold b_each. rewrite map_map. apply writes_each. intros c _.
  apply writes_seq; [by apply (writes_add d (KCatalog (cat_Database c)))|by apply (writes_add d (KRetired (cat_Database c)))].
Qed.

(** An effect outside the legacy indexes. *)
Definition modern (e : effect) : Prop := forall K, legacy K = true -> e K = None.

Lemma modern_seq e f : modern e -> modern f -> modern (e_seq e f).
Proof. intros He Hf K HK. unfold e_seq. by rewrite Hf, He. Qed.
Lemma modern_one K v : legacy K = false -> modern (e_one K v).
Proof. intros H K' H'. apply e_one_ne. congruence. Qed.
Lemma modern_save p : modern (e_save p).
Proof. unfold e_save. destruct (String.eqb p ""); [done|]. by apply modern_one. Qed.
Lemma modern_each {A} (f : A -> effect) l : (forall x, modern (f x)) -> modern (e_each f l).
Proof. intros Hf K HK. apply e_each_none. intros x _. by apply Hf. Qed.
Lemma modern_catalogs m : modern (e_prefix (bytes_of_string "v2/catalog/") m).
Proof. intros K HK. unfold e_prefix. rewrite prefixb_catalogs. by destruct K. Qed.

(** ** The whole batch *)
Record batch_ready (s : PebbleStore) : Prop := {
  br_typed : typed (content (ps_db s));
  br_disk : disk_ok (rows (content (ps_db s)));
  br_legacy : legacy_ok (rows (content (ps_db s)));
  br_mem : mem_ok (ps_projectionFlushing s);
  br_ops : legacy_mem (ps_flushing s);
  br_deletes : deletes_mem (ps_flushingIndexDeletes s);
  br_disjoint : forall i, is_Some (ps_flushing s !! i) -> ps_flushingIndexDeletes s !! i = None;
}.

(** The rows once a batch with effect [e] after the projections is on disk. *)
Record batch_done (s : PebbleStore) (e : effect) (T : db_key -> option bytes) : Prop := {
  bd_legacy : legacy_ok T;
  bd_rev : forall db hash doc, wf_hash hash ->
    T (KRev db hash doc) = legacy_get (ps_flushing s) (ps_flushingIndexDeletes s) (rows (content (ps_db s))) db hash doc;
  bd_rows : same_rows T (after e (after (e_projections (rows (content (ps_db s))) (ps_projectionFlushing s)) (rows (content (ps_db s)))));
}.

Lemma commit_populate s w e d' err :
  batch_ready s -> writes (applyMetadata (ps_db s) w (ps_flushingProgress s)) e -> modern e ->
  commit_batch (ps_db s) (populateBatch s w) = (d', err) ->
  typed (content d') /\ (batch_done s e (rows (content d')) \/ (content d' = content (ps_db s) /\ is_Some err)).
Proof.
  intros [Ht Hd Hl Hm Ho HD Hdisj] He Hmod H. set (d := ps_db s) in *. set (T := rows (content d)) in *.
  assert (Hw : writes (populateBatch s w) (e_seq (e_nested (e_legacy T) (ps_flushing s))
     (e_seq (e_projections T (ps_projectionFlushing s)) (e_seq (e_index_deletes (content d) (ps_flushingIndexDeletes s)) e)))).
  { unfold populateBatch. fold d. apply writes_seq; [|apply writes_seq; [by apply writes_projections|apply writes_seq; [by apply writes_index_deletes|done]]].
    apply writes_nested. intros i doc op Hop. apply writes_applyOp; [done|]. intros x Hx. destruct (Ho _ _ _ Hop) as (_ & _ & Hk). by apply Hk. }
  destruct (commit_batch_spec d _ _ d' err Ht Hw H) as [Ht' [Hrows|?]]; [|by split; [|right]]. split; [done|left].
  fold T in Hrows.
  assert (Hproj : forall K, legacy K = true -> e_projections T (ps_projectionFlushing s) K = None).
  { intros K HK. destruct (e_projections _ _ K) as [x|] eqn:E; [|done]. apply e_projections_inv in E as (? & ? & ? & _ & E). by destruct K. }
  set (V := after (e_nested (e_legacy T) (ps_flushing s)) T).
  assert (HW : forall K, wf_key K -> legacy K = true -> rows (content d') K = after (e_index_deletes (content d) (ps_flushingIndexDeletes s)) V K).
  { intros K HK HL. rewrite Hrows by done. unfold V, after, e_seq. rewrite Hmod by done. rewrite Hproj by done. by destruct (e_index_deletes _ _ K). }
  split.
  - by apply (batch_legacy_ok (content d) (ps_flushing s) (ps_flushingIndexDeletes s) Hl Ho HD Hdisj V).
  - intros db hash doc Hh. by apply (batch_rev (content d) (ps_flushing s) (ps_flushingIndexDeletes s) Ho HD Hdisj V).
  - intros K HK HL. rewrite Hrows by done. unfold after, e_seq. rewrite e_index_deletes_other by done.
    fold d T. destruct (e K); [done|]. destruct (e_projections T (ps_projectionFlushing s) K); [done|].
    pose proof (legacy_flush_other T (ps_flushing s) K HL) as E. exact E.
Qed.
End PersistBatch.

(** ** Catalogs, generations and deletions *)
Lemma note_note p q old : note p (note q old) = note (note p q) old.
Proof.
  unfold note. destruct (String.eqb p "") eqn:Ep; [done|]. by rewrite Ep.
Qed.

Section Rows.
Context `{PB : Pebble} `{XX : XXHash} `{MJ : MetadataJSON} `{SS : SliceSort} `{RO : RangeOrder}.
Abbreviation table := (db_key -> option bytes).

(** ** Metadata rows that decode *)
Definition row_ok (K : db_key) (v : option bytes) : Prop :=
  match K, v with
  | KPosting _ _, _ | KReverse _ _, _ => False
  | KPartition r, Some b => unmarshal_ref b = Some r
  | KGeneration _ _ _, Some b => exists g, unmarshal_generation b = Some g /\ utf8_generation g = true
  | KCatalog db, Some b => exists c, unmarshal_catalog b = Some c /\ cat_Database c = db /\ utf8_catalog c = true
  | KInventory, Some b => exists i, unmarshal_inventory b = Some i /\ inv_Generation i <> ""
  | KRetired _, Some b => unmarshal_bool b = Some true
  | _, _ => True
  end.
Definition rows_ok (e : effect) : Prop := forall K v, e K = Some v -> row_ok K v.

Lemma rows_ok_seq e f : rows_ok e -> rows_ok f -> rows_ok (e_seq e f).
Proof. intros He Hf K v H. unfold e_seq in H. destruct (f K) eqn:E; simplify_eq; auto. Qed.
Lemma rows_ok_one K v : row_ok K v -> rows_ok (e_one K v).
Proof. intros H K' v' H'. unfold e_one in H'. destruct (decide _) as [->|]; by simplify_eq. Qed.
Lemma rows_ok_save p : rows_ok (e_save p).
Proof. unfold e_save. destruct (String.eqb p ""); [done|]. by apply rows_ok_one. Qed.
Lemma rows_ok_each {A} (f : A -> effect) l : (forall x, x ∈ l -> rows_ok (f x)) -> rows_ok (e_each f l).
Proof. intros H K v Hv. apply e_each_inv in Hv as (x & Hx & Hv). by eapply H. Qed.

Lemma disk_ok_after e T : disk_ok T -> rows_ok e -> disk_ok (after e T).
Proof.
  intros Hd He. assert (Hp : forall r x, after e T (KPosting r x) = T (KPosting r x)).
  { intros r x. unfold after. destruct (e _) as [v|] eqn:E; [by apply He in E|done]. }
  assert (Hr : forall r doc, after e T (KReverse r doc) = T (KReverse r doc)).
  { intros r doc. unfold after. destruct (e _) as [v|] eqn:E; [by apply He in E|done]. }
  assert (Hdp : forall r doc, disk_postings (after e T) r doc = disk_postings T r doc) by (intros; unfold disk_postings; by rewrite Hr).
  split.
  - intros *. rewrite Hr. apply Hd.
  - intros r x v Hx. rewrite Hp, (dk_posting _ Hd) by done. by setoid_rewrite Hdp.
  - intros r v. unfold after. destruct (e _) as [w|] eqn:E; [|apply Hd]. cbn. intros ->. by apply He in E.
  - intros db c f v. unfold after. destruct (e _) as [w|] eqn:E; [|apply Hd]. cbn. intros ->. by apply He in E.
  - intros db v. unfold after. destruct (e _) as [w|] eqn:E; [|apply Hd]. cbn. intros ->. by apply He in E.
  - intros v. unfold after. destruct (e _) as [w|] eqn:E; [|apply Hd]. cbn. intros ->. by apply He in E.
  - intros db v. unfold after. destruct (e _) as [w|] eqn:E; [|apply Hd]. cbn. intros ->. by apply He in E.
Qed.

(** Whole partitions removed: their posting and reverse rows go together. *)
Lemma disk_ok_drop (P : QueryIndexRef -> bool) T U :
  disk_ok T ->
  (forall r x, is_bytes x -> U (KPosting r x) = if P r then None else T (KPosting r x)) ->
  (forall r doc, U (KReverse r doc) = if P r then None else T (KReverse r doc)) ->
  (forall K, wf_key K -> match K with KPosting _ _ | KReverse _ _ => True | _ => U K = T K \/ row_ok K (U K) end) -> disk_ok U.
Proof.
  intros Hd Hp Hr Ho. split.
  - intros r doc v. rewrite Hr. destruct (P r); [done|]. apply Hd.
  - intros r x v Hx. rewrite Hp by done. unfold disk_postings. setoid_rewrite Hr. destruct (P r).
    + split; [done|]. by intros (? & _ & ?%elem_of_nil).
    + by apply (dk_posting _ Hd).
  - intros r v H. destruct (Ho (KPartition r) I) as [E|E]; rewrite H in E; [by apply (dk_partition _ Hd)|done].
  - intros db c f v H. destruct (Ho (KGeneration db c f) I) as [E|E]; rewrite H in E; [by eapply (dk_generation _ Hd)|done].
  - intros db v H. destruct (Ho (KCatalog db) I) as [E|E]; rewrite H in E; [by apply (dk_catalog _ Hd)|done].
  - intros v H. destruct (Ho KInventory I) as [E|E]; rewrite H in E; [by apply (dk_inventory _ Hd)|done].
  - intros db v H. destruct (Ho (KRetired db) I) as [E|E]; rewrite H in E; [by eapply (dk_retired _ Hd)|done].
Qed.

(** ** What the effects of publications mean *)
Lemma after_one K v T K' : after (e_one K v) T K' = if decide (K = K') then v else T K'.
Proof. unfold after, e_one. by destruct (decide _). Qed.

Lemma spec_save p T : disk_spec (after (e_save p) T) ≡ noted (disk_spec T) p.
Proof.
  unfold e_save, noted, note. destruct (String.eqb p ""); [by split_and!|].
  split_and!; cbn; intros; unfold disk_postings; rewrite ?after_one; try done. cbn. apply string_of_bytes_of_string.
Qed.

Lemma spec_generation r g T : utf8_generation g = true ->
  disk_spec (after (e_generation r g) T) ≡ with_meta (disk_spec T) (add_partition (disk_spec T) r) (set_generation_of (disk_spec T) r (Some g)).
Proof.
  intros Hg. unfold e_generation. split_and!; cbn; intros; unfold disk_postings; rewrite ?after_seq, ?after_one; try done.
  - unfold add_partition. cbn. rewrite (decide_False (P := KGeneration _ _ _ = _)) by done. destruct (decide _) as [[= ->]|Hn]; [by rewrite bool_decide_true|]. rewrite bool_decide_false by congruence. done.
  - unfold set_generation_of. cbn. destruct (decide (KGeneration _ _ _ = _)) as [[= <- <- <-]|Hn].
    + rewrite decide_True by done. cbn. by rewrite unmarshal_marshal_generation.
    + rewrite (decide_False (P := _ /\ _)); [|naive_solver]. by rewrite decide_False by done.
Qed.

Lemma rows_ok_generation r g : utf8_ref r = true -> utf8_generation g = true -> rows_ok (e_generation r g).
Proof.
  intros Hr Hg. apply rows_ok_seq; apply rows_ok_one; cbn; [by apply unmarshal_marshal_ref|].
  exists g. by rewrite unmarshal_marshal_generation.
Qed.
Lemma rows_ok_catalog c : utf8_catalog c = true -> rows_ok (e_catalog c).
Proof. intros Hc. apply rows_ok_one. cbn. exists c. by rewrite unmarshal_marshal_catalog. Qed.

Lemma spec_catalog c T : utf8_catalog c = true ->
  disk_spec (after (e_catalog c) T) ≡ {|
    sp_postings := sp_postings (disk_spec T); sp_partition := sp_partition (disk_spec T); sp_progress := sp_progress (disk_spec T);
    sp_generation := sp_generation (disk_spec T);
    sp_catalog db := if decide (cat_Database c = db) then Some c else sp_catalog (disk_spec T) db;
    sp_inventory := sp_inventory (disk_spec T); sp_retired := sp_retired (disk_spec T) |}.
Proof.
  intros Hc. unfold e_catalog. split_and!; cbn; intros; unfold disk_postings; rewrite ?after_one; try done.
  destruct (decide (KCatalog _ = _)) as [[= <-]|Hn].
  - rewrite decide_True by done. by apply unmarshal_marshal_catalog.
  - by rewrite (decide_False (P := _ = db)) by congruence.
Qed.

Definition e_record (c : BootstrapCatalog) : effect := e_seq (e_catalog c) (e_one (KRetired (cat_Database c)) None).

Lemma find_catalog_Some owned db c : find_catalog owned db = Some c -> c ∈ owned /\ cat_Database c = db.
Proof. intros [Hin E%String.eqb_eq]%find_some. split; [by apply list_elem_of_In|done]. Qed.
Lemma find_catalog_None owned db c : find_catalog owned db = None -> c ∈ owned -> cat_Database c <> db.
Proof. intros H Hc%list_elem_of_In E. pose proof (find_none _ _ H c Hc) as Hn. cbn in Hn. by apply String.eqb_neq in Hn. Qed.

Lemma records_catalog owned db : NoDup (map cat_Database owned) ->
  e_each e_record owned (KCatalog db) = (fun c => Some (marshal_catalog c)) <$> find_catalog owned db.
Proof.
  intros Hn. assert (E : forall c, e_record c (KCatalog db) = if decide (cat_Database c = db) then Some (Some (marshal_catalog c)) else None).
  { intros c. unfold e_record, e_seq, e_catalog. rewrite e_one_ne by done. unfold e_one.
    destruct (decide (cat_Database c = db)) as [->|]; [by rewrite decide_True|]. by rewrite decide_False by congruence. }
  destruct (find_catalog owned db) as [c|] eqn:Ef; cbn.
  - apply find_catalog_Some in Ef as [Hc Hdb]. apply e_each_some.
    + intros c' w Hc'. rewrite E. destruct (decide _) as [Hdb'|]; [|done]. intros [= <-].
      by rewrite (NoDup_map_inj_elem cat_Database owned c' c) by congruence.
    + exists c. split; [done|]. by rewrite E, decide_True.
  - apply e_each_none. intros c Hc. rewrite E, decide_False; [done|]. by eapply find_catalog_None.
Qed.
Lemma records_retired owned db :
  e_each e_record owned (KRetired db) = match find_catalog owned db with Some _ => Some None | None => None end.
Proof.
  assert (E : forall c, e_record c (KRetired db) = if decide (cat_Database c = db) then Some None else None).
  { intros c. unfold e_record, e_seq, e_catalog, e_one. destruct (decide (cat_Database c = db)) as [->|]; [by rewrite decide_True|].
    by rewrite !decide_False by congruence. }
  destruct (find_catalog owned db) as [c|] eqn:Ef.
  - apply find_catalog_Some in Ef as [Hc Hdb]. apply e_each_some; [|exists c; split; [done|]; by rewrite E, decide_True].
    intros c' w _. rewrite E. destruct (decide _); congruence.
  - apply e_each_none. intros c Hc. rewrite E, decide_False; [done|]. by eapply find_catalog_None.
Qed.
Lemma records_other owned K : match K with KCatalog _ | KRetired _ => False | _ => True end -> e_each e_record owned K = None.
Proof. intros H. apply e_each_none. intros c _. unfold e_record, e_seq, e_catalog. rewrite !e_one_ne; [done|by destruct K..]. Qed.

Lemma spec_inventory m owned i p (T : table) :
  NoDup (map cat_Database owned) -> forallb utf8_catalog owned = true -> utf8_inventory i = true ->
  (forall db, T (KCatalog db) = rows m (KCatalog db)) ->
  disk_spec (after (e_inventory m owned i p) T) ≡ {|
    sp_postings := sp_postings (disk_spec T); sp_partition := sp_partition (disk_spec T); sp_progress := p;
    sp_generation := sp_generation (disk_spec T); sp_catalog := find_catalog owned; sp_inventory := Some i;
    sp_retired db := match find_catalog owned db with Some _ => false | None => sp_retired (disk_spec T) db end |}.
Proof.
  intros Hn Hu Hi HT. fold e_record. unfold e_inventory. fold e_record.
  assert (Ho : forall K, match K with KCatalog _ | KRetired _ | KInventory | KProgress => False | _ => True end ->
    after (e_inventory m owned i p) T K = T K).
  { intros K HK. unfold after, e_inventory. fold e_record. unfold e_seq. rewrite !e_one_ne, records_other by (by destruct K).
    unfold e_prefix. rewrite prefixb_catalogs. by destruct K. }
  split_and!; cbn; intros; unfold disk_postings; rewrite ?Ho by done; try done.
  - unfold after, e_inventory, e_seq. rewrite e_one_eq. cbn. apply string_of_bytes_of_string.
  - unfold after, e_inventory. fold e_record. unfold e_seq. rewrite !e_one_ne, records_catalog by done. destruct (find_catalog owned db) as [c|] eqn:Ef.
    + cbn. apply find_catalog_Some in Ef as [Hc _]. apply unmarshal_marshal_catalog. rewrite forallb_forall in Hu. by apply Hu, list_elem_of_In.
    + cbn. unfold e_prefix. rewrite prefixb_catalogs. cbn. rewrite HT. unfold rows. case_bool_decide as E; [done|]. cbn.
      apply eq_None_not_Some in E. by rewrite E.
  - unfold after, e_inventory, e_seq. rewrite e_one_ne, e_one_eq by done. cbn. by apply unmarshal_marshal_inventory.
  - unfold after, e_inventory. fold e_record. unfold e_seq. rewrite !e_one_ne, records_retired by done. destruct (find_catalog owned db); [done|].
    unfold e_prefix. rewrite prefixb_catalogs. done.
Qed.

Lemma rows_ok_inventory m owned i p :
  forallb utf8_catalog owned = true -> utf8_inventory i = true -> inv_Generation i <> "" -> rows_ok (e_inventory m owned i p).
Proof.
  intros Hu Hi Hg. repeat apply rows_ok_seq.
  - intros K v H. unfold e_prefix in H. rewrite prefixb_catalogs in H. destruct K; try done. cbn in H.
    destruct (bool_decide _); by simplify_eq.
  - apply rows_ok_each. intros c Hc. apply rows_ok_seq; [|by apply rows_ok_one]. apply rows_ok_catalog.
    rewrite forallb_forall in Hu. by apply Hu, list_elem_of_In.
  - apply rows_ok_one. cbn. exists i. by rewrite unmarshal_marshal_inventory.
  - by apply rows_ok_one.
Qed.

(** ** Deletions *)
Lemma bool_decide_and_l {A B : Prop} `{Decision A, Decision B} : A -> bool_decide (A /\ B) = bool_decide B.
Proof. intros HA. apply bool_decide_ext. tauto. Qed.

Definition e_delete_index (m : gmap bytes bytes) (r : QueryIndexRef) (rest : effect) : effect :=
  e_seq (e_prefix (projectionPrefix "posting" r) m) (e_seq (e_prefix (projectionPrefix "reverse" r) m) rest).

Lemma delete_index_rows_at m r rest (T := rows m) :
  (forall r' x, rest (KPosting r' x) = None) -> (forall r' doc, rest (KReverse r' doc) = None) ->
  (forall r' x, after (e_delete_index m r rest) T (KPosting r' x) = if bool_decide (r = r') then None else T (KPosting r' x)) /\
  (forall r' doc, after (e_delete_index m r rest) T (KReverse r' doc) = if bool_decide (r = r') then None else T (KReverse r' doc)) /\
  (forall K, match K with KPosting _ _ | KReverse _ _ => False | _ => True end -> after (e_delete_index m r rest) T K = after rest T K).
Proof.
  intros Hp Hr. unfold e_delete_index. split_and!.
  - intros r' x. unfold after, e_seq, e_prefix. rewrite Hp, !projection_prefix by auto. rewrite (bool_decide_and_l eq_refl), (bool_decide_false (_ /\ _)) by (by intros []).
    cbn. case_bool_decide; [|done]. cbn. unfold T, rows. case_bool_decide as E; [done|]. cbn. by apply eq_None_not_Some.
  - intros r' doc. unfold after, e_seq, e_prefix. rewrite Hr, !projection_prefix by auto. rewrite (bool_decide_and_l eq_refl), (bool_decide_false (_ /\ _)) by (by intros []).
    cbn. case_bool_decide; [|done]. cbn. unfold T, rows. case_bool_decide as E; [done|]. cbn. by apply eq_None_not_Some.
  - intros K HK. unfold after, e_seq, e_prefix. rewrite !projection_prefix by auto. destruct (rest K); [done|]. by destruct K.
Qed.

Definition e_delete_database (m : gmap bytes bytes) (db : string) : effect :=
  e_seq (e_each (fun ns => e_prefix (bytes_of_string ns ++ encodePathComponent db ++ [47]) m) namespaces)
  (e_seq (e_one (KCatalog db) None) (e_one (KRetired db) (Some (bytes_of_string "true")))).

Lemma delete_database_at m db K (T := rows m) : wf_key K ->
  after (e_delete_database m db) T K =
  match K with
  | KCatalog db' => if decide (db = db') then None else T K
  | KRetired db' => if decide (db = db') then Some (bytes_of_string "true") else T K
  | _ => match key_namespace K with Some (_, db') => if decide (db' = db) then None else T K | None => T K end
  end.
Proof.
  intros HK. assert (He : e_each (fun ns => e_prefix (bytes_of_string ns ++ encodePathComponent db ++ [47]) m) namespaces K =
    match key_namespace K with
    | Some (_, db') => if decide (db' = db) then if bool_decide (is_Some (m !! encode_key K)) then Some None else None else None
    | None => None
    end).
  { assert (E : forall ns, ns ∈ namespaces -> e_prefix (bytes_of_string ns ++ encodePathComponent db ++ [47]) m K =
      if bool_decide (key_namespace K = Some (ns, db)) && bool_decide (is_Some (m !! encode_key K)) then Some None else None).
    { intros ns Hns. unfold e_prefix. fold (database_prefix ns db). by rewrite prefixb_database. }
    destruct (key_namespace K) as [[ns0 db0]|] eqn:En.
    - destruct (decide (db0 = db)) as [->|Hne].
      + case_bool_decide as Es.
        * apply e_each_some; [intros ns w Hns; rewrite E by done; destruct (_ && _); congruence|]. exists ns0. split.
          -- unfold namespaces. destruct K; cbn in En; simplify_eq; set_solver.
          -- rewrite E, bool_decide_true by (try done; unfold namespaces; destruct K; cbn in En; simplify_eq; set_solver). done.
        * apply e_each_none. intros ns Hns. rewrite E by done. rewrite ?(bool_decide_false (is_Some _)) by done. by rewrite andb_false_r.
      + apply e_each_none. intros ns Hns. rewrite E by done. rewrite (bool_decide_false (Some _ = Some _)) by congruence. done.
    - apply e_each_none. intros ns Hns. rewrite E by done. by rewrite bool_decide_false. }
  unfold e_delete_database, after, e_seq. rewrite He. clear He.
  assert (Hrow : default (T K) (if bool_decide (is_Some (m !! encode_key K)) then Some None else None) = None).
  { case_bool_decide as E; [done|]. cbn. by apply eq_None_not_Some. }
  destruct K as [r x|r doc|r|db1 c f|db1| |db1|db1 h x|db1 h doc|db1 h|db1 h| |];
    cbn [key_namespace]; rewrite ?(e_one_ne (KRetired _)), ?(e_one_ne (KCatalog _)) by done;
    try (destruct (decide (_ = db)); [exact Hrow|done]); try done.
  - unfold e_one. destruct (decide (db = db1)) as [->|Hn]; [by rewrite decide_True|]. by rewrite decide_False by congruence.
  - unfold e_one. destruct (decide (db = db1)) as [->|Hn]; [by rewrite decide_True|]. by rewrite decide_False by congruence.
Qed.
End Rows.
