(* ===== verification/PersistRun.v ===== *)
(** * The steps of the persistent store against its specification

    [abs] reads the abstract state off a store: what is on disk, under what is
    being flushed, under what is pending. Every method keeps the invariant
    [store_inv] and has one of the [outcome]s its meaning in [spec_exec] allows,
    a flush changes nothing that is read, and opening starts from the rows. *)
From stdpp Require Import base list sorting gmap strings.
From Stdlib Require Import ZArith.
From S2P Require Import Prelude PostingSet OrderKey IndexStore Intervals Keys Pebble PersistStore PersistSpec PersistFacts PersistRefine.
Local Open Scope Z_scope.
#[local] Arguments op_hash : simpl never.
#[local] Arguments del_hash : simpl never.
#[local] Arguments index_id : simpl never.

Section PersistRun.
Context `{PB : Pebble} `{XX : XXHash} `{MJ : MetadataJSON} `{SS : SliceSort} `{RO : RangeOrder}.
Abbreviation table := (db_key -> option bytes).

Definition table_of (s : PebbleStore) : table := rows (content (ps_db s)).
Definition disk (s : PebbleStore) : Spec := disk_spec (table_of s).
Definition mid (s : PebbleStore) : Spec := overlay (ps_projectionFlushing s) (ps_flushingProgress s) (disk s).
Definition abs (s : PebbleStore) : Spec := overlay (ps_projectionPending s) (ps_pendingProgress s) (mid s).

(** ** Operations and what they may be given: strings that JSON keeps, posting
    keys that name their document *)
Definition exec (op : store_op) (s : PebbleStore) : PebbleStore * option store_error :=
  match op with
  | OApply replacements progress => ApplyDocumentProjection s replacements progress
  | OPublishGeneration r progress => PublishGeneration s r progress
  | OPublishCatalog c => PublishBootstrapCatalog s c
  | OPublishCatalogs catalogs progress => PublishBootstrapCatalogs s catalogs progress
  | OSetFailure r failure => SetFailure s r failure
  | ODeleteQueryIndex r => DeleteQueryIndex s r
  | ODeleteDatabase db => DeleteDatabase s db
  | OUpsert db pattern tmplID docID orderKey progress => Upsert s db pattern tmplID docID orderKey progress
  | ODelete db pattern tmplID docID progress => Delete s db pattern tmplID docID progress
  | ODeleteIndex db pattern tmplID => DeleteIndex s db pattern tmplID
  end.

(** Methods that take the flush lock wait for a flush to end. *)
Definition takes_flush_lock (op : store_op) : bool :=
  match op with
  | OPublishGeneration _ _ | OPublishCatalog _ | OPublishCatalogs _ _ | ODeleteQueryIndex _ | ODeleteDatabase _ => true
  | _ => false
  end.

Definition projection_valid (p : Projection) : Prop :=
  utf8_ref (proj_Index p) = true /\ Forall (key_of (proj_DocumentID p)) (proj_PostingKeys p)
  /\ is_u64 (Z.of_nat (length (proj_PostingKeys p))).

Definition op_valid (op : store_op) : Prop :=
  match op with
  | OApply replacements _ => Forall projection_valid replacements
  | OPublishGeneration r progress => utf8_ref r = true /\ utf8_valid_string progress = true
  | OPublishCatalog c => utf8_catalog c = true
  | OPublishCatalogs catalogs progress => forallb utf8_catalog catalogs = true /\ utf8_valid_string progress = true
  | OSetFailure r failure => utf8_ref r = true /\ utf8_valid_string failure = true
  | ODeleteQueryIndex r => utf8_ref r = true
  | OUpsert _ _ _ docID orderKey _ => key_of docID orderKey
  | _ => True
  end.

(** ** The invariant *)
Record store_inv (s : PebbleStore) : Prop := {
  si_batch : batch_ready s;
  si_pending : mem_ok (ps_projectionPending s);
  si_ops : legacy_mem (ps_pending s);
  si_deletes : deletes_mem (ps_pendingIndexDeletes s);
  si_disjoint : forall i, is_Some (ps_pending s !! i) -> ps_pendingIndexDeletes s !! i = None;
  si_idle : ps_phase s = FlushIdle -> ps_flushErr s = None ->
    ps_projectionFlushing s = ∅ /\ ps_flushing s = ∅ /\ ps_flushingIndexDeletes s = ∅ /\ ps_flushingProgress s = "";
  si_committed : ps_phase s = FlushCommitted None -> mid s ≡ disk s;
}.

Lemma idle_abs s : store_inv s -> ps_phase s = FlushIdle -> ps_flushErr s = None ->
  mid s ≡ disk s /\ abs s ≡ overlay (ps_projectionPending s) (ps_pendingProgress s) (disk s).
Proof.
  intros Hi Hp He. destruct (si_idle _ Hi Hp He) as (E1 & _ & _ & E2). assert (Hm : mid s ≡ disk s).
  { unfold mid. rewrite E1, E2. apply overlay_none. }
  split; [done|]. unfold abs. by rewrite Hm.
Qed.

(** Reading one metadata row. *)
Lemma readMetadata_ok {A} d K (unmarshal : bytes -> option A) x :
  readMetadata d (encode_key K) unmarshal = Ok x -> x = rows (content d) K ≫= unmarshal.
Proof.
  unfold readMetadata. destruct (db_Get d (encode_key K)) as [[[v close]|]|] eqn:E; [..|done]; apply db_Get_law in E; unfold rows; rewrite <- E; cbn.
  - destruct (unmarshal v), close; by intros [= <-].
  - by intros [= <-].
Qed.

(** ** Admission *)
Lemma lookup2_add F op r doc :
  lookup2 (add_pending F op) r doc =
  if decide (proj_Index (pop_projection op) = r /\ proj_DocumentID (pop_projection op) = doc) then Some op else lookup2 F r doc.
Proof.
  unfold lookup2, add_pending. destruct (decide (proj_Index (pop_projection op) = r)) as [->|Hr].
  - rewrite lookup_insert_eq. cbn. destruct (decide (proj_DocumentID (pop_projection op) = doc)) as [->|Hd].
    + rewrite lookup_insert_eq. by rewrite decide_True.
    + rewrite lookup_insert_ne by done. rewrite (decide_False (P := _ /\ _)) by naive_solver. by destruct (F !! r).
  - rewrite lookup_insert_ne by done. by rewrite (decide_False (P := _ /\ _)) by naive_solver.
Qed.

Lemma add_pending_dom F op r :
  bool_decide (is_Some (add_pending F op !! r)) = bool_decide (proj_Index (pop_projection op) = r) || bool_decide (is_Some (F !! r)).
Proof.
  rewrite <- bool_decide_or. apply bool_decide_ext. unfold add_pending. rewrite lookup_insert_is_Some'. done.
Qed.

Definition owned_ok (p : Projection) : Prop := projection_valid p /\ NoDup (proj_PostingKeys p).

Lemma mem_ok_add F p : mem_ok F -> owned_ok p -> mem_ok (add_pending F (new_projectionOp p)).
Proof.
  intros HF [(Hu & Hk & Hc) Hn] r inner H. unfold add_pending in H. cbn in H.
  apply lookup_insert_Some in H as [[<- <-]|[Hne H]]; [|by apply HF]. split; [apply insert_non_empty|].
  intros doc op H. apply lookup_insert_Some in H as [[<- <-]|[Hd H]]; [by split|].
  destruct (F !! proj_Index p) as [inner|] eqn:E; cbn in H; [|done]. by apply (HF _ _ E).
Qed.

Lemma add_pending_all owned F p A :
  mem_ok F -> Forall owned_ok owned ->
  let F' := foldl add_pending F (map new_projectionOp owned) in
  mem_ok F' /\
  forall progress, overlay F' (note p progress) A ≡ {|
    sp_postings := foldl replace_postings (sp_postings (overlay F progress A)) owned;
    sp_partition r := existsb (fun p => bool_decide (proj_Index p = r)) owned || sp_partition (overlay F progress A) r;
    sp_progress := note p (sp_progress (overlay F progress A)); sp_generation := sp_generation A;
    sp_catalog := sp_catalog A; sp_inventory := sp_inventory A; sp_retired := sp_retired A |}.
Proof.
  intros HF Ho; revert F HF; induction Ho as [|q owned Hq Ho IH]; intros F HF; cbn [map foldl].
  - split; [done|]. intros progress. split_and!; cbn; intros; try done. by rewrite note_note.
  - destruct (IH _ (mem_ok_add F q HF Hq)) as [Hm Hs]. split; [done|]. intros progress. rewrite (Hs progress).
    split_and!; cbn; intros; try done.
    + apply foldl_replace. intros r' doc'. rewrite lookup2_add. unfold replace_postings. cbn. by destruct (decide _).
    + rewrite add_pending_dom. cbn. destruct (bool_decide (proj_Index q = r)), (existsb _ owned); by rewrite ?orb_true_r.
Qed.

Lemma own_projections_owned ps owned : OwnProjections ps = Ok owned -> Forall projection_valid ps -> Forall owned_ok owned.
Proof.
  intros H Hv. apply own_projections_spec in H as (H & _ & _). induction H as [|p q ps qs Hpq H IH]; [constructor|].
  apply Forall_cons in Hv as [(Hu & Hk & Hc) Hv]. constructor; [|by apply IH].
  destruct Hpq as (E1 & E2 & _ & _ & Hn & _ & Hin). split; [|done]. unfold projection_valid. rewrite E1, E2. split_and!; [done|..].
  - rewrite Forall_forall in *. intros k Hk'. by apply Hk, Hin.
  - assert (length (proj_PostingKeys q) <= length (proj_PostingKeys p))%nat; [|unfold is_u64 in *; lia].
    apply submseteq_length, NoDup_submseteq; [done|]. intros k. apply Hin.
Qed.

(** ** What an operation may do to the three layers *)
Inductive outcome (op : store_op) (s s' : PebbleStore) : option store_error -> Prop :=
| out_refused e : disk s' ≡ disk s -> (ps_phase s = FlushBegun -> mid s' ≡ mid s) -> (ps_flushErr s' = None -> ps_flushErr s = None /\ abs s' ≡ abs s) ->
    ps_phase s' = ps_phase s -> outcome op s s' (Some e)
| out_admitted : write_behind op = true -> disk s' ≡ disk s -> (ps_phase s = FlushBegun -> mid s' ≡ mid s) -> abs s' ≡ spec_exec op (abs s) ->
    ps_phase s' = ps_phase s -> ps_flushErr s' = ps_flushErr s -> outcome op s s' None
| out_committed err : write_behind op = false -> disk s' ≡ spec_exec op (disk s) ->
    (ps_phase s = FlushBegun -> mid s' ≡ spec_exec op (mid s)) -> ps_phase s' = ps_phase s ->
    (ps_flushErr s' = None -> ps_flushErr s = None /\ abs s' ≡ spec_exec op (abs s)) -> (is_Some err -> is_Some (ps_flushErr s')) ->
    outcome op s s' err
| out_flushed err : write_behind op = false -> ps_flushErr s = None -> disk s' ≡ spec_exec op (abs s) -> ps_phase s' = FlushIdle ->
    (ps_flushErr s' = None -> abs s' ≡ spec_exec op (abs s)) -> (is_Some err -> is_Some (ps_flushErr s')) ->
    outcome op s s' err.

(** A store that differs in its database, its error and its phase only. *)
Lemma store_inv_set_db s d fe phase :
  store_inv s -> typed (content d) -> disk_ok (rows (content d)) -> legacy_ok (rows (content d)) ->
  (phase = FlushIdle -> fe = None -> ps_phase s = FlushIdle /\ ps_flushErr s = None) ->
  (phase = FlushCommitted None -> overlay (ps_projectionFlushing s) (ps_flushingProgress s) (disk_spec (rows (content d))) ≡ disk_spec (rows (content d))) ->
  store_inv (set_db s d fe phase).
Proof.
  intros [[Ht Hd Hl Hm Ho HD Hj] Hp Hops Hdel Hdisj Hidle Hc] Ht' Hd' Hl' Hphase Hmid. split; try done; cbn.
  intros E1 E2. destruct (Hphase E1 E2). by apply Hidle.
Qed.
Lemma store_inv_error s e : store_inv s -> store_inv (set_db s (ps_db s) (Some e) (ps_phase s)).
Proof.
  intros Hi. apply store_inv_set_db; try apply (si_batch _ Hi); [done|done|]. apply (si_committed _ Hi).
Qed.

Lemma abs_set_db s d fe phase : content d = content (ps_db s) ->
  disk (set_db s d fe phase) = disk s /\ mid (set_db s d fe phase) = mid s /\ abs (set_db s d fe phase) = abs s.
Proof. intros E. unfold abs, mid, disk, table_of, set_db; cbn. by rewrite E. Qed.

Lemma legacy_ok_same T U : (forall K, wf_key K -> legacy K = true -> T K = U K) -> legacy_ok T -> legacy_ok U.
Proof.
  intros H Hl. assert (Hr : forall db hash doc, wf_hash hash -> U (KRev db hash doc) = T (KRev db hash doc)) by (intros; symmetry; by apply H).
  split.
  - intros db hash doc v Hh. rewrite Hr by done. by apply Hl.
  - intros db hash x v [Hb Hs] Hx. rewrite <- (H (KIndex db hash x)) by done. rewrite (lk_index _ Hl) by done. by setoid_rewrite Hr.
Qed.
Lemma legacy_ok_drop (P : string -> bool) T U :
  (forall db hash x, wf_hash hash -> is_bytes x -> U (KIndex db hash x) = if P db then None else T (KIndex db hash x)) ->
  (forall db hash doc, wf_hash hash -> U (KRev db hash doc) = if P db then None else T (KRev db hash doc)) ->
  legacy_ok T -> legacy_ok U.
Proof.
  intros Hx Hr Hl. split.
  - intros db hash doc v Hh. rewrite Hr by done. destruct (P db); [done|]. by apply Hl.
  - intros db hash x v Hh Hb. rewrite Hx by done. setoid_rewrite Hr; [|done]. destruct (P db); [|by apply Hl].
    split; [done|]. by intros (? & _ & ?).
Qed.

Lemma disk_rows d e T : (forall K, wf_key K -> rows (content d) K = after e T K) -> same_rows (after e T) (rows (content d)).
Proof. intros H K HK _. by rewrite H. Qed.

(** A metadata batch under the lock. *)
Lemma commitMetadataBatch_spec s m e s' err :
  typed (content (ps_db s)) -> writes m e -> commitMetadataBatch s m = (s', err) ->
  exists d' fe, s' = set_db s d' fe (ps_phase s) /\ typed (content d') /\ (err = None -> fe = ps_flushErr s) /\ (is_Some err -> is_Some fe) /\
    ((forall K, wf_key K -> rows (content d') K = after e (table_of s) K) \/ (content d' = content (ps_db s) /\ is_Some err)).
Proof.
  intros Ht Hw H. unfold commitMetadataBatch in H. destruct (commit_batch _ _) as [d' e'] eqn:Ec. injection H as <- <-.
  destruct (commit_batch_spec _ _ _ _ _ Ht Hw Ec) as [Ht' Hr]. eexists d', _. split; [done|]. split; [done|].
  split; [by intros ->|]. split; [intros [x ->]; eauto|done].
Qed.

(** ** Failures of a generation *)
Lemma overlay_SetFailure F p A r f : overlay F p (spec_exec (OSetFailure r f) A) ≡ spec_exec (OSetFailure r f) (overlay F p A).
Proof.
  unfold spec_exec, covering, generation_of. cbn. destruct (sp_catalog A (ref_Database r)) as [c|].
  - destruct (lists_template c (ref_TemplateFingerprint r)).
    + destruct (String.eqb (cat_Generation c) (ref_Generation r)); [|done].
      split_and!; cbn; intros; try done. unfold add_partition. cbn. rewrite !orb_assoc. f_equal. apply orb_comm.
    + split_and!; cbn; intros; try done. unfold add_partition. cbn. rewrite !orb_assoc. f_equal. apply orb_comm.
  - split_and!; cbn; intros; try done. unfold add_partition. cbn. rewrite !orb_assoc. f_equal. apply orb_comm.
Qed.

Lemma disk_catalog s db c : disk_ok (table_of s) -> table_of s (KCatalog db) ≫= unmarshal_catalog = Some c -> utf8_catalog c = true.
Proof.
  intros Hd H. destruct (table_of s (KCatalog db)) as [v|] eqn:E; [|done]. cbn in H. apply (dk_catalog _ Hd) in E as (c' & E & _ & Hu). congruence.
Qed.
Lemma disk_generation s db c f g : disk_ok (table_of s) -> table_of s (KGeneration db c f) ≫= unmarshal_generation = Some g -> utf8_generation g = true.
Proof.
  intros Hd H. destruct (table_of s (KGeneration db c f)) as [v|] eqn:E; [|done]. cbn in H. apply (dk_generation _ Hd) in E as (g' & E & Hu). congruence.
Qed.
Lemma utf8_catalog_progress c : utf8_catalog c = true -> utf8_valid_string (cat_BootstrapProgress c) = true.
Proof. unfold utf8_catalog. by intros [_ H]%andb_true_iff. Qed.

(** A generation row written outside a flush. *)
Lemma write_generation s r g op s' err m :
  store_inv s -> utf8_ref r = true -> utf8_generation g = true -> write_behind op = false -> writes m (e_generation r g) ->
  commitMetadataBatch s m = (s', err) ->
  (forall F p, overlay F p (spec_exec op (disk s)) ≡ spec_exec op (overlay F p (disk s))) ->
  (forall F p G q, overlay G q (spec_exec op (overlay F p (disk s))) ≡ spec_exec op (overlay G q (overlay F p (disk s)))) ->
  spec_exec op (disk s) ≡ with_meta (disk s) (add_partition (disk s) r) (set_generation_of (disk s) r (Some g)) ->
  store_inv s' /\ outcome op s s' err.
Proof.
  intros Hi Hr Hg Hwb Hw H Hov Hov2 Hspec. pose proof (si_batch _ Hi) as [Ht Hd Hl _ _ _ _].
  destruct (commitMetadataBatch_spec _ _ _ _ _ Ht Hw H) as (d' & fe & -> & Ht' & Hn & Hs & [Hrows|[Hc He]]).
  - assert (Hsame : same_rows (after (e_generation r g) (table_of s)) (rows (content d'))) by (by apply disk_rows).
    assert (Hdisk : disk_spec (rows (content d')) ≡ spec_exec op (disk s)).
    { rewrite <- (disk_spec_same _ _ Hsame), Hspec. by apply spec_generation. }
    split.
    + apply store_inv_set_db; [done|done| | | |].
      * eapply disk_ok_same; [exact Hsame|]. apply disk_ok_after; [done|]. by apply rows_ok_generation.
      * eapply legacy_ok_same; [|exact Hl]. intros K HK HL. rewrite Hrows by done. unfold after, e_generation, e_seq.
        rewrite !e_one_ne by (by destruct K). done.
      * intros Hp ->. split; [done|]. destruct err; [destruct Hs; eauto; done|]. by rewrite <- Hn.
      * intros Hp. rewrite Hdisk, Hov. unfold mid in *. pose proof (si_committed _ Hi Hp) as Hm. unfold mid in Hm. by rewrite Hm.
    + apply out_committed; [done|done| |done| |done].
      * intros _. unfold mid, disk, table_of. cbn. rewrite Hdisk. apply Hov.
      * intros Hfe. cbn in Hfe. subst fe. destruct err; [destruct Hs; eauto; done|]. split; [by rewrite <- Hn|].
        unfold abs, mid, disk, table_of. cbn. rewrite Hdisk, Hov. apply Hov2.
  - destruct He as [e ->]. pose proof (abs_set_db s d' fe (ps_phase s) Hc) as (E1 & E2 & E3). split.
    + apply store_inv_set_db; [done|done|by rewrite Hc|by rewrite Hc| |].
      * intros Hp ->. destruct Hs; eauto; done.
      * rewrite Hc. apply (si_committed _ Hi).
    + apply out_refused; [by rewrite E1|intros _; by rewrite E2| |done].
      cbn. intros E. destruct Hs as [? Hs]; [eauto|]. by rewrite E in Hs.
Qed.

Lemma refused op s s' e : s' = s -> store_inv s -> store_inv s' /\ outcome op s s' (Some e).
Proof. intros -> Hi. split; [done|]. by apply out_refused. Qed.
#[local] Hint Resolve refused : core.

Lemma SetFailure_outcome s r f s' err :
  store_inv s -> op_valid (OSetFailure r f) -> SetFailure s r f = (s', err) -> store_inv s' /\ outcome (OSetFailure r f) s s' err.
Proof.
  intros Hi [Hr Hf] H. pose proof (si_batch _ Hi) as [Ht Hd Hl _ _ _ _]. unfold SetFailure in H.
  destruct (_ || _); [injection H as <- <-; by apply refused|]. destruct (writeErrorLocked s) eqn:Ew; [injection H as <- <-; by apply refused|].
  destruct (readMetadata _ (catalogKey _) _) as [cat|] eqn:Ec; [|injection H as <- <-; by apply refused].
  apply (readMetadata_ok _ (KCatalog _)) in Ec. fold (table_of s) in Ec.
  assert (Hcov : covering (disk s) r = match cat with Some c => if lists_template c (ref_TemplateFingerprint r) then Some c else None | None => None end)
    by (unfold covering; change (sp_catalog (disk s) (ref_Database r)) with (table_of s (KCatalog (ref_Database r)) ≫= unmarshal_catalog); by rewrite <- Ec).
  rewrite <- Hcov in H. destruct (match covering (disk s) r with Some c => negb _ | None => false end) eqn:Estale.
  - injection H as <- <-. destruct (covering (disk s) r) as [c|] eqn:Ecov; [|done]. apply negb_true_iff in Estale.
    assert (E : forall A, sp_catalog A (ref_Database r) = sp_catalog (disk s) (ref_Database r) -> spec_exec (OSetFailure r f) A = A).
    { intros A EA. unfold spec_exec, covering in *. rewrite EA, Ecov, Estale. done. }
    split; [done|]. apply out_committed; try done; [by rewrite E|intros _; by rewrite E|]. intros He. split; [done|]. by rewrite E.
  - destruct (readMetadata _ (generationKey _ _ _) _) as [loc|] eqn:Eg; [|injection H as <- <-; by apply refused].
    apply (readMetadata_ok _ (KGeneration _ _ _)) in Eg. fold (table_of s) in Eg.
    match type of H with context [marshal_generation ?g0] => eapply (write_generation s r g0); [done|exact Hr| |done| |exact H| | |] end.
    + unfold utf8_generation. cbn [gen_ID gen_Failure gen_BootstrapProgress]. rewrite Hf, andb_true_r. apply andb_true_iff. split.
      * unfold utf8_ref in Hr. by apply andb_true_iff in Hr as [_ ?].
      * rewrite Hcov. destruct cat as [c|].
        -- symmetry in Ec. apply disk_catalog in Ec; [|done]. destruct (lists_template _ _); [by apply utf8_catalog_progress|].
           destruct loc as [g|]; [|done]. symmetry in Eg. apply disk_generation in Eg; [|done]. destruct (String.eqb _ _); [|done].
           unfold utf8_generation in Eg. apply andb_true_iff in Eg as [Eg _]. by apply andb_true_iff in Eg as [_ ?].
        -- destruct loc as [g|]; [|done]. symmetry in Eg. apply disk_generation in Eg; [|done]. destruct (String.eqb _ _); [|done].
           unfold utf8_generation in Eg. apply andb_true_iff in Eg as [Eg _]. by apply andb_true_iff in Eg as [_ ?].
    + unfold e_generation. apply writes_seq; [by apply (writes_add _ (KPartition r))|by apply (writes_add _ (KGeneration _ _ _))].
    + intros. apply overlay_SetFailure.
    + intros. apply overlay_SetFailure.
    + unfold spec_exec. destruct (covering (disk s) r) as [c|].
      * apply negb_false_iff in Estale. by rewrite Estale.
      * unfold generation_of.
        change (sp_generation (disk s)) with (fun db c f => table_of s (KGeneration db c f) ≫= unmarshal_generation). cbv beta. by rewrite <- Eg.
Qed.

(** ** Admission of projections *)
Lemma Apply_outcome s ps p s' err :
  store_inv s -> op_valid (OApply ps p) -> ApplyDocumentProjection s ps p = (s', err) -> store_inv s' /\ outcome (OApply ps p) s s' err.
Proof.
  intros Hi Hv H. unfold ApplyDocumentProjection in H. destruct (OwnProjections ps) as [owned|] eqn:Eo; [|injection H as <- <-; by apply refused].
  destruct (writeErrorLocked s); [injection H as <- <-; by apply refused|]. injection H as <- <-.
  pose proof (own_projections_owned _ _ Eo Hv) as Ho.
  destruct (add_pending_all owned (ps_projectionPending s) p (mid s) (si_pending _ Hi) Ho) as [Hm Hs].
  destruct Hi as [[Ht Hd Hl HF Hops HD Hj] Hp Hops' Hdel Hdisj Hidle Hc]. split.
  - split; try done.
  - apply out_admitted; try done. unfold abs at 1. cbn. fold (note p (ps_pendingProgress s)). rewrite (Hs (ps_pendingProgress s)).
    rewrite Eo. done.
Qed.

(** ** Legacy writes *)
Lemma idxMapKey_id db pattern tmplID : idxMapKey db pattern tmplID = index_id db (indexHash pattern tmplID).
Proof. done. Qed.

Lemma legacy_admitted s op' p s' pending deletes notify :
  store_inv s -> s' = set_legacy s pending deletes p notify -> legacy_mem pending -> deletes_mem deletes ->
  (forall i, is_Some (pending !! i) -> deletes !! i = None) -> write_behind op' = true ->
  (forall A, spec_exec op' A ≡ noted A p) -> store_inv s' /\ outcome op' s s' None.
Proof.
  intros [[Ht Hd Hl HF Hops HD Hj] Hp Hops' Hdel Hdisj Hidle Hc] -> Hpend Hdels Hdj Hwb Hspec. split.
  - split; try done.
  - apply out_admitted; try done. rewrite Hspec. split_and!; try done.
    change (note (note p (ps_pendingProgress s)) (sp_progress (mid s)) = note p (note (ps_pendingProgress s) (sp_progress (mid s)))).
    by rewrite note_note.
Qed.

Lemma lookup2_insert {A} (F : gmap string (gmap string A)) i doc op j doc' :
  lookup2 (<[i := <[doc := op]> (default ∅ (F !! i))]> F) j doc' = if decide (i = j /\ doc = doc') then Some op else lookup2 F j doc'.
Proof.
  unfold lookup2. destruct (decide (i = j)) as [->|Hi].
  - rewrite lookup_insert_eq. cbn. destruct (decide (doc = doc')) as [->|Hd].
    + rewrite lookup_insert_eq. by rewrite decide_True.
    + rewrite lookup_insert_ne by done. rewrite (decide_False (P := _ /\ _)) by naive_solver. by destruct (F !! j).
  - rewrite lookup_insert_ne by done. by rewrite (decide_False (P := _ /\ _)) by naive_solver.
Qed.

Lemma enqueue_op_outcome s o p op' s' err :
  store_inv s -> (forall x, op_orderKey o = Some x -> key_of (op_docID o) x) -> write_behind op' = true ->
  (forall A, spec_exec op' A ≡ noted A p) -> enqueue_op s o p = (s', err) -> store_inv s' /\ outcome op' s s' err.
Proof.
  intros Hi Hk Hwb Hspec H. unfold enqueue_op in H. destruct (writeErrorLocked s); [injection H as <- <-; by apply refused|].
  pose proof Hi as [_ _ Hops Hdel Hdisj _ _]. destruct (indexDeletingLocked _ _) eqn:Ed.
  - injection H as <- <-. by apply (legacy_admitted s op' p _ _ _ _ Hi eq_refl).
  - injection H as <- <-. apply (legacy_admitted s op' p _ _ _ _ Hi eq_refl); try done.
    + intros i doc op. rewrite lookup2_insert. destruct (decide _) as [[<- <-]|]; [|by apply Hops]. intros [= <-]. done.
    + intros i. unfold indexDeletingLocked in Ed. apply orb_false_iff in Ed as [Ed _]. apply bool_decide_eq_false in Ed.
      destruct (decide (idxMapKey (op_db o) (op_pattern o) (op_tmplID o) = i)) as [<-|Hne].
      * intros _. by apply eq_None_not_Some.
      * rewrite lookup_insert_ne by done. apply Hdisj.
Qed.

Lemma DeleteIndex_outcome s db pattern tmplID s' err :
  store_inv s -> DeleteIndex s db pattern tmplID = (s', err) -> store_inv s' /\ outcome (ODeleteIndex db pattern tmplID) s s' err.
Proof.
  intros Hi H. unfold DeleteIndex in H. destruct (writeErrorLocked s); [injection H as <- <-; by apply refused|].
  injection H as <- <-. pose proof Hi as [_ _ Hops Hdel Hdisj _ _]. apply (legacy_admitted s _ "" _ _ _ _ Hi eq_refl); try done.
  - intros i doc op (inner & Hin & Hop)%lookup2_Some. apply lookup_delete_Some in Hin as [_ Hin]. apply (Hops i), lookup2_Some. eauto.
  - intros i op. rewrite lookup_insert_Some. intros [[<- <-]|[_ Hin]]; [done|by apply Hdel].
  - intros i. destruct (decide (idxMapKey db pattern tmplID = i)) as [<-|Hne].
    + rewrite lookup_delete_eq. by intros [].
    + rewrite lookup_delete_ne, lookup_insert_ne by done. apply Hdisj.
Qed.

(** ** Publications: the whole overlay goes to disk with them *)
Lemma note_empty p : note "" p = p.
Proof. done. Qed.
Lemma overlay_noted F p A : overlay F p A ≡ noted (overlay F "" A) p.
Proof. by split_and!. Qed.

Lemma writeErrorLocked_None s : writeErrorLocked s = None -> ps_flushErr s = None.
Proof. unfold writeErrorLocked. by destruct (ps_flushErr s). Qed.

Lemma take_ready s phase : store_inv s -> batch_ready (take_pending s phase).
Proof. intros [[Ht Hd Hl HF Hops HD Hj] Hp Hops' Hdel Hdisj _ _]. by split. Qed.

Lemma mem_ok_empty : mem_ok ∅.
Proof. intros r inner H. by rewrite lookup_empty in H. Qed.
Lemma legacy_mem_empty : legacy_mem ∅.
Proof. intros i doc op (inner & H & _)%lookup2_Some. by rewrite lookup_empty in H. Qed.
Lemma deletes_mem_empty : deletes_mem ∅.
Proof. intros i op H. by rewrite lookup_empty in H. Qed.
#[local] Hint Resolve mem_ok_empty legacy_mem_empty deletes_mem_empty : core.

(** A store with nothing pending, whatever is left of a failed batch. *)
Lemma store_inv_taken s d fe :
  store_inv s -> typed (content d) -> disk_ok (rows (content d)) -> legacy_ok (rows (content d)) -> is_Some fe ->
  store_inv (set_db (take_pending s FlushIdle) d fe FlushIdle).
Proof.
  intros [[Ht Hd Hl HF Hops HD Hj] Hp Hops' Hdel Hdisj Hidle Hc] Ht' Hd' Hl' [e ->]. by split.
Qed.
Lemma store_inv_clean s d :
  typed (content d) -> disk_ok (rows (content d)) -> legacy_ok (rows (content d)) -> ps_flushErr s = None ->
  ps_projectionPending s = ∅ -> ps_pending s = ∅ -> ps_pendingIndexDeletes s = ∅ -> ps_db s = d -> store_inv (drop_flushing s).
Proof.
  intros Ht Hd Hl He E1 E2 E3 Edb. split; cbn; rewrite ?E1, ?E2, ?E3; try done.
  split; cbn; rewrite ?Edb; done.
Qed.

Section Publish.
Context (s : PebbleStore) (op : store_op) (w : metadataWrite) (e : effect).
Context (Hi : store_inv s) (Hidle : ps_phase s = FlushIdle) (Hfe : ps_flushErr s = None) (Hwb : write_behind op = false).
Context (Hw : writes (applyMetadata (ps_db s) (Some w) (ps_pendingProgress s)) e) (Hmod : modern e) (Hok : rows_ok e).
Context (Hspec : forall T, (forall db, T (KCatalog db) = table_of s (KCatalog db)) ->
  disk_spec (after e T) ≡ spec_exec op (noted (disk_spec T) (ps_pendingProgress s))).

Lemma publish_outcome d err :
  commit_batch (ps_db s) (populateBatch (take_pending s FlushIdle) (Some w)) = (d, err) ->
  let s' := flush_end (set_db (take_pending s FlushIdle) d (ps_flushErr s) FlushIdle) err in
  store_inv s' /\ outcome op s s' err.
Proof using All.
  intros H. set (F := ps_projectionPending s).
  destruct (commit_populate (take_pending s FlushIdle) (Some w) e d err (take_ready s FlushIdle Hi) Hw Hmod H) as [Ht Hcase].
  pose proof (si_batch _ Hi) as [_ Hd Hl _ _ _ _]. destruct (idle_abs s Hi Hidle Hfe) as [_ Habs].
  destruct Hcase as [[Hl' _ Hrows]|[Hc [x ->]]].
  - set (U := after (e_projections (table_of s) F) (table_of s)). change (same_rows (rows (content d)) (after e U)) in Hrows.
    assert (Hdu : disk_ok U) by (apply flush_disk_ok; [done|apply (si_pending _ Hi)]).
    assert (Hd' : disk_ok (rows (content d))).
    { eapply disk_ok_same; [intros K HK HL; symmetry; by apply Hrows|]. by apply disk_ok_after. }
    assert (Hs : disk_spec (rows (content d)) ≡ spec_exec op (abs s)).
    { rewrite (disk_spec_same _ _ Hrows). rewrite Hspec.
      - f_equiv. rewrite Habs, overlay_noted. f_equiv. by apply flush_spec, (si_pending _ Hi).
      - intros db. unfold U. by rewrite flush_other. }
    destruct err as [err|]; cbn [flush_end].
    + split; [by apply (store_inv_taken s d (Some err))|]. by apply out_flushed.
    + split; [eapply (store_inv_clean _ d); done|]. by apply out_flushed.
  - change (content d = content (ps_db s)) in Hc. rewrite Hfe. cbn [flush_end]. split; [apply (store_inv_taken s d (Some x)); rewrite ?Hc; try done; apply (si_batch _ Hi)|].
    apply out_refused; try done; [|intros E; by rewrite Hidle in E]. unfold disk, table_of. cbn. by rewrite Hc.
Qed.
End Publish.

Lemma compact_sub l x : x ∈ compact l -> x ∈ l.
Proof.
  induction l as [|y l IH]; [done|]. destruct l as [|z l]; [done|]. cbn. destruct (String.eqb y z).
  - intros H. right. by apply IH.
  - intros [->|H]%elem_of_cons; [by left|right; by apply IH].
Qed.
Lemma OwnBootstrapCatalog_spec c owned : OwnBootstrapCatalog c = Ok owned ->
  cat_Database owned = cat_Database c /\ cat_Generation owned <> "" /\ (utf8_catalog c = true -> utf8_catalog owned = true).
Proof.
  unfold OwnBootstrapCatalog. destruct (_ || _) eqn:E; [done|]. destruct (existsb _ _); [done|]. intros [= <-]. cbn [cat_Database cat_Generation].
  apply orb_false_iff in E as [_ E%String.eqb_neq]. split_and!; [done|done|]. unfold utf8_catalog.
  cbn [cat_Database cat_Generation cat_TemplateFingerprints cat_BootstrapProgress]. rewrite !andb_true_iff, !forallb_forall.
  intros [[[H1 H2] H3] H4]. split_and!; try done. intros f Hf%list_elem_of_In%compact_sub. apply H3, list_elem_of_In.
  unfold sort_strings in Hf. by rewrite insertion_sort_perm in Hf.
Qed.
Lemma own_catalogs_spec g p dbs h cs out : own_catalogs g p dbs h cs = Ok out ->
  NoDup (map cat_Database out.1) /\ (forall c, c ∈ out.1 -> (cat_Database c ∉ dbs) /\ cat_Generation c <> "") /\
  (forallb utf8_catalog cs = true -> forallb utf8_catalog out.1 = true).
Proof.
  revert dbs h out; induction cs as [|c cs IH]; intros dbs h out H; cbn [own_catalogs] in H.
  { apply Ok_inj in H as <-. split_and!; [constructor|by intros ? ?%elem_of_nil|done]. }
  apply bind_ok in H as (owned & Ho & H). destruct (_ || _); [done|]. case_bool_decide as Hin; [done|].
  apply bind_ok in H as (r & Hr & H). apply Ok_inj in H as <-. cbn [fst]. apply OwnBootstrapCatalog_spec in Ho as (Hdb & Hg & Hu).
  destruct (IH _ _ _ Hr) as (Hn & Hc & Huc). split_and!.
  - cbn. constructor; [|done]. intros (c' & E & Hc')%list_elem_of_fmap. destruct (Hc _ Hc') as [Hnot _]. rewrite <- E, Hdb in Hnot. set_solver.
  - intros c' [->|Hc']%elem_of_cons; [by rewrite Hdb|]. destruct (Hc _ Hc'). split; [set_solver|done].
  - cbn. rewrite !andb_true_iff. intros [H1 H2]. split; auto.
Qed.
Lemma OwnBootstrapCatalogs_spec cs p owned : OwnBootstrapCatalogs cs p = Ok owned ->
  NoDup (map cat_Database owned) /\ (forall c, c ∈ owned -> cat_Generation c <> "") /\
  (forallb utf8_catalog cs = true -> forallb utf8_catalog owned = true).
Proof.
  unfold OwnBootstrapCatalogs. destruct cs as [|c0 cs]; [done|]. intros H. apply bind_ok in H as (r & Hr & H).
  destruct (negb _); [done|]. apply Ok_inj in H as <-. apply own_catalogs_spec in Hr as (H1 & H2 & H3). split_and!; [done| |done].
  intros c Hc. by apply H2.
Qed.

Lemma OwnBootstrapCatalogs_some cs p : OwnBootstrapCatalogs cs p <> Ok [].
Proof.
  unfold OwnBootstrapCatalogs. destruct cs as [|c0 cs]; [done|]. cbn [own_catalogs]. destruct (OwnBootstrapCatalog c0); [|done].
  cbn [mbind res_bind]. destruct (_ || _); [done|]. case_bool_decide; [done|].
  destruct (own_catalogs _ _ _ _ cs); [|done]. cbn [mbind res_bind fst snd]. by destruct (negb _).
Qed.

(** A validation passes, refuses or stops the store. *)
Definition checked (s : PebbleStore) (r : PebbleStore * option store_error) : Prop :=
  r = (s, None) \/ exists e, r = (s, Some e) \/ r = fail_with s e.
Lemma checked_generation s r : checked s (validatePublishedGenerationLocked s r).
Proof. unfold checked, validatePublishedGenerationLocked. destruct (readMetadata _ _ _) as [[c|]|e]; [destruct (_ && _)|..]; eauto. Qed.
Lemma checked_single s : checked s (validateSingleCatalogPublicationLocked s).
Proof. unfold checked, validateSingleCatalogPublicationLocked. destruct (readMetadata _ _ _) as [[c|]|e]; eauto. Qed.

Lemma checked_outcome s op s1 e : store_inv s -> checked s (s1, Some e) -> store_inv s1 /\ outcome op s s1 (Some e).
Proof.
  intros Hi [|(e' & [[= -> ->]|[= -> ->]])]; [done|by apply refused|]. split; [by apply store_inv_error|by apply out_refused].
Qed.

Lemma publishMetadata_outcome s op w e s' err :
  store_inv s -> ps_phase s = FlushIdle -> write_behind op = false ->
  writes (applyMetadata (ps_db s) (Some w) (ps_pendingProgress s)) e -> modern e -> rows_ok e ->
  (forall T, (forall db, T (KCatalog db) = table_of s (KCatalog db)) ->
     disk_spec (after e T) ≡ spec_exec op (noted (disk_spec T) (ps_pendingProgress s))) ->
  publishMetadata s w = (s', err) -> store_inv s' /\ outcome op s s' err.
Proof.
  intros Hi Hidle Hwb Hw Hmod Hok Hspec H. unfold publishMetadata in H.
  destruct (writeErrorLocked s) eqn:Ew; [injection H as <- <-; by apply refused|]. apply writeErrorLocked_None in Ew.
  unfold flush_publish in H. rewrite Ew in H.
  assert (Hg : checked s (match mw_partition w with Some r => validatePublishedGenerationLocked s r | None => (s, None) end))
    by (destruct (mw_partition w); [apply checked_generation|by left]).
  destruct (match mw_partition w with Some r => _ | None => _ end) as [s1 [e1|]]; [injection H as <- <-; by apply checked_outcome|].
  assert (s1 = s) as -> by (destruct Hg as [[= ->]|(? & [|])]; done).
  assert (Hsg : checked s (if mw_singleCatalog w then validateSingleCatalogPublicationLocked s else (s, None)))
    by (destruct (mw_singleCatalog w); [apply checked_single|by left]).
  destruct (if mw_singleCatalog w then _ else _) as [s1 [e1|]]; [injection H as <- <-; by apply checked_outcome|].
  assert (s1 = s) as -> by (destruct Hsg as [[= ->]|(? & [|])]; done).
  destruct (commit_batch _ _) as [d e'] eqn:Ec. injection H as <- <-. by apply (publish_outcome s op w e).
Qed.

Lemma PublishGeneration_outcome s r p s' err :
  store_inv s -> ps_phase s = FlushIdle -> op_valid (OPublishGeneration r p) -> PublishGeneration s r p = (s', err) ->
  store_inv s' /\ outcome (OPublishGeneration r p) s s' err.
Proof.
  intros Hi Hidle [Hr Hp] H. unfold PublishGeneration in H. destruct (incomplete_ref r); [injection H as <- <-; by apply refused|].
  match type of H with context [marshal_generation ?g0] => set (g := g0) in H end.
  assert (Hg : utf8_generation g = true).
  { unfold utf8_generation, g. cbn [gen_ID gen_Failure gen_BootstrapProgress]. rewrite Hp. unfold utf8_ref in Hr.
    apply andb_true_iff in Hr as [_ ->]. done. }
  refine (publishMetadata_outcome s (OPublishGeneration r p) _ _ s' err Hi Hidle eq_refl (writes_generation _ r p _ g _ eq_refl) _ _ _ H).
  - apply modern_seq; [apply modern_seq; by apply modern_one|apply modern_save].
  - apply rows_ok_seq; [by apply rows_ok_generation|apply rows_ok_save].
  - intros T _.
    assert (E : disk_spec (after (e_seq (e_generation r g) (e_save (note p (ps_pendingProgress s)))) T)
       ≡ disk_spec (after (e_save (note p (ps_pendingProgress s))) (after (e_generation r g) T)))
      by (apply disk_spec_same; intros K _ _; by rewrite after_seq).
    rewrite E, spec_save, spec_generation by done. split_and!; try done. cbn. by rewrite note_note.
Qed.

Lemma PublishCatalog_outcome s c s' err :
  store_inv s -> ps_phase s = FlushIdle -> op_valid (OPublishCatalog c) -> PublishBootstrapCatalog s c = (s', err) ->
  store_inv s' /\ outcome (OPublishCatalog c) s s' err.
Proof.
  intros Hi Hidle Hc H. unfold PublishBootstrapCatalog in H. destruct (OwnBootstrapCatalog c) as [owned|] eqn:Eo; [|injection H as <- <-; by apply refused].
  pose proof (OwnBootstrapCatalog_spec _ _ Eo) as (_ & _ & Hu). specialize (Hu Hc).
  refine (publishMetadata_outcome s (OPublishCatalog c) _ _ s' err Hi Hidle eq_refl (writes_catalog _ owned _) _ _ _ H).
  - apply modern_seq; [by apply modern_one|apply modern_save].
  - apply rows_ok_seq; [by apply rows_ok_catalog|apply rows_ok_save].
  - intros T _. set (q := note (cat_BootstrapProgress owned) (ps_pendingProgress s)).
    assert (E : disk_spec (after (e_seq (e_catalog owned) (e_save q)) T) ≡ disk_spec (after (e_save q) (after (e_catalog owned) T)))
      by (apply disk_spec_same; intros K _ _; by rewrite after_seq).
    rewrite E, spec_save, spec_catalog by done. unfold spec_exec. rewrite Eo. split_and!; try done. cbn. unfold q. by rewrite note_note.
Qed.

Lemma PublishCatalogs_outcome s cs p s' err :
  store_inv s -> ps_phase s = FlushIdle -> op_valid (OPublishCatalogs cs p) -> PublishBootstrapCatalogs s cs p = (s', err) ->
  store_inv s' /\ outcome (OPublishCatalogs cs p) s s' err.
Proof.
  intros Hi Hidle [Hc Hp] H. unfold PublishBootstrapCatalogs in H.
  destruct (OwnBootstrapCatalogs cs p) as [[|c0 rest]|] eqn:Eo; [..|injection H as <- <-; by apply refused].
  { exfalso. unfold OwnBootstrapCatalogs in Eo. destruct cs as [|c0 cs]; [done|]. apply bind_ok in Eo as ([out h] & Eo & E2).
    destruct h; cbn in E2; [|done]. apply Ok_inj in E2. cbn in E2. subst out. cbn [own_catalogs] in Eo.
    apply bind_ok in Eo as (? & _ & Eo). destruct (_ || _); [done|]. case_bool_decide; [done|]. by apply bind_ok in Eo as (? & _ & [=]). }
  set (owned := c0 :: rest) in *. pose proof (OwnBootstrapCatalogs_spec _ _ _ Eo) as (Hn & Hgen & Hu). specialize (Hu Hc).
  match type of H with context [marshal_inventory ?i0] => set (i := i0) in H end.
  assert (Hg0 : utf8_inventory i = true /\ inv_Generation i <> "").
  { split; [|apply Hgen; by left]. unfold utf8_inventory, i. cbn [inv_Generation inv_BootstrapProgress]. rewrite Hp, andb_true_r.
    unfold owned in Hu. cbn [forallb] in Hu. apply andb_true_iff in Hu as [Hu _]. unfold utf8_catalog in Hu.
    apply andb_true_iff in Hu as [Hu _]. apply andb_true_iff in Hu as [Hu _]. by apply andb_true_iff in Hu as [_ Hu]. }
  destruct Hg0 as [Hiu Hg0]. pose proof (si_batch _ Hi) as [Ht _ _ _ _ _ _].
  refine (publishMetadata_outcome s (OPublishCatalogs cs p) _ _ s' err Hi Hidle eq_refl (writes_inventory _ owned i p _ Ht) _ _ _ H).
  - apply modern_seq; [apply modern_catalogs|]. apply modern_seq; [|apply modern_seq; by apply modern_one].
    apply modern_each. intros c. apply modern_seq; by apply modern_one.
  - by apply rows_ok_inventory.
  - intros T HT. rewrite (spec_inventory (content (ps_db s)) owned i p T) by done. unfold spec_exec. rewrite Eo. by split_and!.
Qed.

(** ** Deletions *)
Lemma lookup2_delete {A} (F : gmap QueryIndexRef (gmap string A)) r r' doc :
  lookup2 (delete r F) r' doc = if decide (r = r') then None else lookup2 F r' doc.
Proof. unfold lookup2. destruct (decide (r = r')) as [->|]; [by rewrite lookup_delete_eq|by rewrite lookup_delete_ne]. Qed.
Lemma mem_ok_delete F r : mem_ok F -> mem_ok (delete r F).
Proof. intros HF r' inner [_ H]%lookup_delete_Some. by apply HF. Qed.

Lemma overlay_DeleteQueryIndex F p A r :
  overlay (delete r F) p (spec_exec (ODeleteQueryIndex r) A) ≡ spec_exec (ODeleteQueryIndex r) (overlay F p A).
Proof.
  assert (Hd : forall r', bool_decide (is_Some (delete r F !! r')) = negb (bool_decide (r = r')) && bool_decide (is_Some (F !! r'))).
  { intros r'. rewrite <- bool_decide_not, <- bool_decide_and. apply bool_decide_ext.
    destruct (decide (r = r')) as [->|Hn]; [rewrite lookup_delete_eq|rewrite lookup_delete_ne by done]; naive_solver. }
  assert (Hp : forall r' doc, match lookup2 (delete r F) r' doc with Some op => op_keys op | None => if decide (r = r') then [] else sp_postings A r' doc end
     = if decide (r = r') then [] else match lookup2 F r' doc with Some op => op_keys op | None => sp_postings A r' doc end).
  { intros r' doc. rewrite lookup2_delete. by destruct (decide (r = r')). }
  assert (Ha : forall r', negb (bool_decide (r = r')) && bool_decide (is_Some (F !! r')) || (bool_decide (r = r') || sp_partition A r') =
     bool_decide (r = r') || (bool_decide (is_Some (F !! r')) || sp_partition A r')).
  { intros r'. by destruct (bool_decide (r = r')), (bool_decide (is_Some (F !! r'))). }
  assert (Hr : forall r', negb (bool_decide (r = r')) && bool_decide (is_Some (F !! r')) || negb (bool_decide (r = r')) && sp_partition A r' =
     negb (bool_decide (r = r')) && (bool_decide (is_Some (F !! r')) || sp_partition A r')) by (intros r'; by rewrite andb_orb_distrib_r).
  unfold spec_exec, covering, generation_of. cbn.
  destruct (match sp_catalog A (ref_Database r) with Some c => if lists_template c _ then Some c else None | None => None end) as [c|].
  - destruct (String.eqb (cat_Generation c) (ref_Generation r)); split_and!; cbn; intros; rewrite ?Hd; auto; unfold add_partition; cbn; auto.
    all: destruct (sp_generation A _ _ _) as [g|]; [|done]; by destruct (String.eqb (gen_ID g) _).
  - split_and!; cbn; intros; rewrite ?Hd; auto.
Qed.

Lemma lookup2_filter (F : gmap QueryIndexRef (gmap string projectionOp)) db r doc :
  lookup2 (filter (fun x => ref_Database x.1 <> db) F) r doc = if decide (ref_Database r = db) then None else lookup2 F r doc.
Proof.
  unfold lookup2. rewrite map_lookup_filter. destruct (F !! r) as [inner|]; cbn; [|by destruct (decide _)].
  destruct (decide (ref_Database r = db)) as [E|E]; cbn; [by rewrite option_guard_False by naive_solver|by rewrite option_guard_True].
Qed.
Lemma overlay_DeleteDatabase F p A db :
  overlay (filter (fun x => ref_Database x.1 <> db) F) p (spec_exec (ODeleteDatabase db) A) ≡ spec_exec (ODeleteDatabase db) (overlay F p A).
Proof.
  split_and!; cbn; intros; try done.
  - rewrite lookup2_filter. by destruct (decide _).
  - assert (E : bool_decide (is_Some (filter (fun x => ref_Database x.1 <> db) F !! r)) = negb (bool_decide (ref_Database r = db)) && bool_decide (is_Some (F !! r))).
    { rewrite <- bool_decide_not, <- bool_decide_and. apply bool_decide_ext. rewrite map_lookup_filter. destruct (F !! r) as [inner|]; cbn.
      - destruct (decide (ref_Database r = db)) as [E|E]; cbn; [rewrite option_guard_False by naive_solver|rewrite option_guard_True by done]; naive_solver.
      - naive_solver. }
    rewrite E. by rewrite andb_orb_distrib_r.
Qed.

(** A deletion committed under both locks, with the pending writes it drops. *)
Lemma deletion_outcome s op m e s1 err s' pending legacy_pending deletes :
  store_inv s -> ps_phase s = FlushIdle -> ps_flushErr s = None -> write_behind op = false -> writes m e ->
  commitMetadataBatch s m = (s1, err) ->
  disk_ok (after e (table_of s)) -> legacy_ok (after e (table_of s)) -> disk_spec (after e (table_of s)) ≡ spec_exec op (disk s) ->
  mem_ok pending -> legacy_mem legacy_pending -> deletes_mem deletes ->
  (forall i, is_Some (legacy_pending !! i) -> deletes !! i = None) ->
  overlay pending (ps_pendingProgress s) (spec_exec op (disk s)) ≡ spec_exec op (overlay (ps_projectionPending s) (ps_pendingProgress s) (disk s)) ->
  (is_Some err -> s' = s1) ->
  (err = None -> exists d n, s' = {|
    ps_db := d; ps_flushErr := None; ps_projectionPending := pending; ps_projectionFlushing := ps_projectionFlushing s;
    ps_pending := legacy_pending; ps_flushing := ps_flushing s; ps_pendingIndexDeletes := deletes;
    ps_flushingIndexDeletes := ps_flushingIndexDeletes s; ps_pendingProgress := ps_pendingProgress s;
    ps_flushingProgress := ps_flushingProgress s; ps_closed := ps_closed s; ps_batchSize := ps_batchSize s;
    ps_notified := n; ps_phase := FlushIdle |} /\ ps_db s1 = d) ->
  store_inv s' /\ outcome op s s' err.
Proof.
  intros Hi Hidle Hfe Hwb Hw H Hdk Hlk Hspec Hm Hl Hdel Hdisj Hov Herr Hok.
  pose proof (si_batch _ Hi) as [Ht Hd Hlg HF Hops HD Hj]. destruct (idle_abs s Hi Hidle Hfe) as [_ Habs].
  destruct (si_idle _ Hi Hidle Hfe) as (F1 & F2 & F3 & F4).
  destruct (commitMetadataBatch_spec _ _ _ _ _ Ht Hw H) as (d' & fe & -> & Ht' & Hn & Hs & Hcase).
  assert (Hrows : (forall K, wf_key K -> rows (content d') K = after e (table_of s) K) ->
    disk_ok (rows (content d')) /\ legacy_ok (rows (content d')) /\ disk_spec (rows (content d')) ≡ spec_exec op (disk s)).
  { intros Hr. pose proof (disk_rows _ _ _ Hr) as Hsame. split_and!.
    - by eapply disk_ok_same.
    - eapply legacy_ok_same; [|exact Hlk]. intros K HK _. by rewrite Hr.
    - by rewrite <- (disk_spec_same _ _ Hsame). }
  destruct err as [err|].
  - rewrite (Herr ltac:(eauto)). destruct Hcase as [Hr|[Hc _]].
    + destruct (Hrows Hr) as (Hd' & Hl' & Hsp). split.
      * apply store_inv_set_db; try done. by rewrite Hidle.
      * apply out_committed; try done; [by rewrite Hidle|]. cbn. intros ->. by destruct Hs; eauto.
    + split.
      * apply store_inv_set_db; rewrite ?Hc; try done. by rewrite Hidle.
      * pose proof (abs_set_db s d' fe (ps_phase s) Hc) as (E1 & E2 & E3). apply out_refused; try done; [by rewrite E1|by rewrite E2|].
        cbn. intros ->. by destruct Hs; eauto.
  - destruct (Hok eq_refl) as (d & n & -> & Hdb). cbn in Hdb. subst d. destruct Hcase as [Hr|[_ []]]; [|done].
    destruct (Hrows Hr) as (Hd' & Hl' & Hsp). split.
    + split; cbn; try done.
    + apply out_committed; [done|done|by rewrite Hidle|by rewrite Hidle| |by intros []]. intros _. split; [done|]. rewrite Habs. unfold abs, mid, disk, table_of. cbn.
      rewrite F1, F4, overlay_none, Hsp. done.
Qed.

(** The metadata rows a deleted partition leaves. *)
Definition e_left (active : option BootstrapCatalog) (local : option Generation) (r : QueryIndexRef) : effect :=
  match active with
  | Some c => e_generation r {| gen_ID := ref_Generation r; gen_Ready := false;
      gen_BootstrapProgress := cat_BootstrapProgress c; gen_Failure := "index partition deleted" |}
  | None => e_seq (e_one (KPartition r) None)
      match local with
      | Some g => if String.eqb (gen_ID g) (ref_Generation r)
                  then e_one (KGeneration (ref_Database r) (ref_Collection r) (ref_TemplateFingerprint r)) None else e_none
      | None => e_none
      end
  end.

Lemma after_none T K : after e_none T K = T K.
Proof. done. Qed.

Lemma e_left_rows active local r : utf8_ref r = true -> (forall c, active = Some c -> utf8_catalog c = true) -> rows_ok (e_left active local r).
Proof.
  intros Hr Hc. unfold e_left. destruct active as [c|].
  - apply rows_ok_generation; [done|]. unfold utf8_generation. cbn [gen_ID gen_Failure gen_BootstrapProgress].
    rewrite (utf8_catalog_progress c) by auto. unfold utf8_ref in Hr. apply andb_true_iff in Hr as [_ ->]. done.
  - apply rows_ok_seq; [by apply rows_ok_one|]. destruct local as [g|]; [|done]. destruct (String.eqb _ _); [|done]. by apply rows_ok_one.
Qed.
Lemma e_left_none active local r K :
  match K with KPartition _ | KGeneration _ _ _ => False | _ => True end -> e_left active local r K = None.
Proof.
  intros HK. unfold e_left, e_generation. destruct active as [c|]; unfold e_seq; rewrite !e_one_ne by (by destruct K); [done|].
  destruct local as [g|]; [|done]. destruct (String.eqb _ _); [|done]. by rewrite e_one_ne by (by destruct K).
Qed.

Lemma spec_delete_index s r active local :
  disk_ok (table_of s) -> utf8_ref r = true ->
  active = (match covering (disk s) r with Some c => if String.eqb (cat_Generation c) (ref_Generation r) then Some c else None | None => None end) ->
  local = generation_of (disk s) r ->
  disk_ok (after (e_delete_index (content (ps_db s)) r (e_left active local r)) (table_of s)) /\
  disk_spec (after (e_delete_index (content (ps_db s)) r (e_left active local r)) (table_of s)) ≡ spec_exec (ODeleteQueryIndex r) (disk s).
Proof.
  intros Hd Hr Ha Hlocal. set (e := e_left active local r).
  assert (Hac : forall c, active = Some c -> utf8_catalog c = true).
  { intros c ->. unfold covering in Ha. destruct (sp_catalog (disk s) (ref_Database r)) as [c'|] eqn:Ec; [|done].
    destruct (lists_template _ _); [|done]. destruct (String.eqb _ _); [|done]. injection Ha as ->. by apply disk_catalog in Ec. }
  destruct (delete_index_rows_at (content (ps_db s)) r e) as (Hp & Hv & Ho); [intros; by apply e_left_none..|].
  fold (table_of s) in Hp, Hv, Ho. set (U := after (e_delete_index (content (ps_db s)) r e) (table_of s)) in *.
  pose proof (e_left_rows active local r Hr Hac) as Hok. split.
  - apply (disk_ok_drop (fun r' => bool_decide (r = r')) (table_of s)); [done|by intros; apply Hp|done|].
    intros K HK. destruct K; try done; rewrite Ho by done; unfold after; (destruct (e _) as [v|] eqn:E; [right; by apply Hok in E|by left]).
  - assert (Hpost : forall r' doc, disk_postings U r' doc = if decide (r = r') then [] else disk_postings (table_of s) r' doc).
    { intros r' doc. unfold disk_postings. rewrite Hv. case_bool_decide; [by rewrite decide_True|by rewrite decide_False]. }
    assert (Hrest : forall K, match K with KPosting _ _ | KReverse _ _ | KPartition _ | KGeneration _ _ _ => False | _ => True end -> U K = table_of s K).
    { intros K HK. rewrite Ho by (by destruct K). unfold after, e. by rewrite e_left_none by (by destruct K). }
    unfold spec_exec. cbv zeta. unfold generation_of in Hlocal.
    change (covering _ r) with (covering (disk s) r). rewrite <- Ha. unfold e in *. destruct active as [c|]; cbn [e_left] in *.
    + split_and!; cbn [with_meta disk_spec sp_postings sp_partition sp_progress sp_generation sp_catalog sp_inventory sp_retired]; intros;
        rewrite ?Hrest by done; try done.
      * rewrite Ho by done. unfold e_generation. rewrite after_seq, !after_one, decide_False by done. unfold add_partition. cbn.
        destruct (decide _) as [[= ->]|Hn]; [by rewrite bool_decide_true|]. by rewrite bool_decide_false by congruence.
      * rewrite Ho by done. unfold e_generation. rewrite after_seq, !after_one. unfold set_generation_of.
        destruct (decide (KGeneration _ _ _ = _)) as [[= <- <- <-]|Hn].
        -- rewrite decide_True by done. cbn. rewrite unmarshal_marshal_generation; [done|]. unfold utf8_generation. cbn [gen_ID gen_Failure gen_BootstrapProgress].
           rewrite (utf8_catalog_progress c) by auto. unfold utf8_ref in Hr. apply andb_true_iff in Hr as [_ ->]. done.
        -- rewrite decide_False by done. rewrite (decide_False (P := _ /\ _)); [done|]. naive_solver.
    + rewrite Hlocal in *. unfold disk in *.
      change (generation_of _ r) with (sp_generation (disk_spec (table_of s)) (ref_Database r) (ref_Collection r) (ref_TemplateFingerprint r)).
      split_and!; cbn [with_meta disk_spec sp_postings sp_partition sp_progress sp_generation sp_catalog sp_inventory sp_retired]; intros;
        rewrite ?Hrest by done; try done.
      * rewrite Ho by done. rewrite after_seq. assert (E : forall T, after (match sp_generation (disk_spec (table_of s)) (ref_Database r) (ref_Collection r) (ref_TemplateFingerprint r) with
            | Some g => if String.eqb (gen_ID g) (ref_Generation r) then e_one (KGeneration (ref_Database r) (ref_Collection r) (ref_TemplateFingerprint r)) None else e_none
            | None => e_none end) T (KPartition r0) = T (KPartition r0)).
        { intros T. destruct (sp_generation _ _ _ _) as [g|]; [|done]. destruct (String.eqb _ _); [|done]. by rewrite after_one. }
        rewrite E, after_one. destruct (decide _) as [[= ->]|Hn]; [by rewrite bool_decide_true|]. by rewrite bool_decide_false by congruence.
      * rewrite Ho by done. rewrite after_seq.
        cbn [disk_spec sp_generation]. destruct (table_of s (KGeneration (ref_Database r) (ref_Collection r) (ref_TemplateFingerprint r)) ≫= unmarshal_generation) as [g|] eqn:Eg.
        -- destruct (String.eqb (gen_ID g) (ref_Generation r)); [|by rewrite after_none, after_one].
           rewrite !after_one. unfold set_generation_of. destruct (decide (KGeneration _ _ _ = _)) as [[= <- <- <-]|Hn]; [by rewrite decide_True|].
           rewrite decide_False by done. rewrite (decide_False (P := _ /\ _)); [done|]. naive_solver.
        -- by rewrite after_none, after_one.
Qed.

Lemma modern_delete_index m r rest : modern rest -> modern (e_delete_index m r rest).
Proof.
  intros Hr. repeat apply modern_seq; [..|done]; intros K HK; unfold e_prefix; rewrite projection_prefix by auto; by destruct K.
Qed.

Lemma writes_left d active local r : writes
  match active with
  | Some c => setPartition d r >>> b_add d (BatchSet (generationKey (ref_Database r) (ref_Collection r) (ref_TemplateFingerprint r))
      (marshal_generation {| gen_ID := ref_Generation r; gen_Ready := false;
         gen_BootstrapProgress := cat_BootstrapProgress c; gen_Failure := "index partition deleted" |}))
  | None => b_add d (BatchDelete (projectionPrefix "partition" r)) >>>
      match local with
      | Some g => if String.eqb (gen_ID g) (ref_Generation r)
                  then b_add d (BatchDelete (generationKey (ref_Database r) (ref_Collection r) (ref_TemplateFingerprint r))) else b_done
      | None => b_done
      end
  end (e_left active local r).
Proof.
  unfold e_left. destruct active as [c|].
  - apply writes_seq; [by apply (writes_add d (KPartition r))|by apply (writes_add d (KGeneration _ _ _))].
  - apply writes_seq; [by apply (writes_add d (KPartition r))|]. destruct local as [g|]; [|apply writes_done].
    destruct (String.eqb _ _); [by apply (writes_add d (KGeneration _ _ _))|apply writes_done].
Qed.

Lemma DeleteQueryIndex_outcome s r s' err :
  store_inv s -> ps_phase s = FlushIdle -> op_valid (ODeleteQueryIndex r) -> DeleteQueryIndex s r = (s', err) ->
  store_inv s' /\ outcome (ODeleteQueryIndex r) s s' err.
Proof.
  intros Hi Hidle Hr H. pose proof (si_batch _ Hi) as [Ht Hd Hl _ _ _ _]. unfold DeleteQueryIndex in H.
  destruct (incomplete_ref r); [injection H as <- <-; by apply refused|]. destruct (writeErrorLocked s) eqn:Ew; [injection H as <- <-; by apply refused|].
  apply writeErrorLocked_None in Ew.
  destruct (readMetadata _ (catalogKey _) _) as [cat|] eqn:Ec; [|injection H as <- <-; by apply refused].
  destruct (readMetadata _ (generationKey _ _ _) _) as [loc|] eqn:Eg; [|injection H as <- <-; by apply refused].
  apply (readMetadata_ok _ (KCatalog _)) in Ec. apply (readMetadata_ok _ (KGeneration _ _ _)) in Eg. fold (table_of s) in Ec, Eg.
  set (active := match cat with Some c => _ | None => None end) in H.
  assert (Ha : active = match covering (disk s) r with Some c => if String.eqb (cat_Generation c) (ref_Generation r) then Some c else None | None => None end).
  { unfold active, covering. change (sp_catalog (disk s) (ref_Database r)) with (table_of s (KCatalog (ref_Database r)) ≫= unmarshal_catalog).
    rewrite <- Ec. destruct cat as [c|]; [|done]. destruct (lists_template _ _); by rewrite ?andb_true_r, ?andb_false_r. }
  destruct (spec_delete_index s r active loc Hd Hr Ha Eg) as [Hdk Hsp].
  match type of H with context [commitMetadataBatch s ?m] =>
    assert (Hw : writes m (e_delete_index (content (ps_db s)) r (e_left active loc r))) end.
  { apply writes_seq; [apply writes_deletePrefix; [apply projectionPrefix_bytes|done]|].
    apply writes_seq; [apply writes_deletePrefix; [apply projectionPrefix_bytes|done]|]. apply (writes_left _ active loc). }
  destruct (commitMetadataBatch s _) as [s1 err1] eqn:Ecm. assert (err = err1) as -> by (destruct err1; by injection H).
  apply (deletion_outcome s (ODeleteQueryIndex r) _ _ s1 err1 s' (delete r (ps_projectionPending s)) (ps_pending s) (ps_pendingIndexDeletes s)
    Hi Hidle Ew eq_refl Hw Ecm Hdk); try apply Hi.
  - eapply legacy_ok_same; [|exact Hl]. intros K HK HL. unfold after. rewrite modern_delete_index; [done| |done].
    intros K' HK'. apply e_left_none. by destruct K'.
  - exact Hsp.
  - apply mem_ok_delete, (si_pending _ Hi).
  - apply overlay_DeleteQueryIndex.
  - intros [e ->]. by injection H.
  - intros ->. injection H as <-. destruct (commitMetadataBatch_spec s _ _ s1 None Ht Hw Ecm) as (d' & fe & -> & _ & Hn & _).
    specialize (Hn eq_refl). subst fe. eexists d', _. split; [|done]. unfold set_projections, set_db. cbn. by rewrite Hidle, Ew.
Qed.

Lemma filter_legacy_mem F (P : string * gmap string pendingOp -> Prop) `{!forall x, Decision (P x)} : legacy_mem F -> legacy_mem (filter P F).
Proof. intros HF i doc op (inner & [Hin _]%map_lookup_filter_Some & Hop)%lookup2_Some. apply (HF i), lookup2_Some. eauto. Qed.

Lemma DeleteDatabase_outcome s db s' err :
  store_inv s -> ps_phase s = FlushIdle -> DeleteDatabase s db = (s', err) -> store_inv s' /\ outcome (ODeleteDatabase db) s s' err.
Proof.
  intros Hi Hidle H. pose proof (si_batch _ Hi) as [Ht Hd Hl _ _ _ _]. unfold DeleteDatabase in H.
  destruct (writeErrorLocked s) eqn:Ew; [injection H as <- <-; by apply refused|]. apply writeErrorLocked_None in Ew.
  match type of H with context [commitMetadataBatch s ?m] => assert (Hw : writes m (e_delete_database (content (ps_db s)) db)) end.
  { apply writes_seq; [|apply writes_seq; [by apply (writes_add _ (KCatalog db))|by apply (writes_add _ (KRetired db))]].
    apply writes_each. intros ns _. apply writes_deletePrefix; [|done]. repeat apply is_bytes_app; eauto with syntrix. }
  assert (Hat : forall K, wf_key K -> _) by (intros K HK; exact (delete_database_at (content (ps_db s)) db K HK)). fold (table_of s) in Hat.
  destruct (commitMetadataBatch s _) as [s1 err1] eqn:Ecm. assert (err = err1) as -> by (destruct err1; by injection H).
  apply (deletion_outcome s (ODeleteDatabase db) _ _ s1 err1 s' (filter (fun x => ref_Database x.1 <> db) (ps_projectionPending s))
    (filter (fun x => first_db x.2 <> Some db) (ps_pending s)) (filter (fun x => del_db x.2 <> db) (ps_pendingIndexDeletes s))
    Hi Hidle Ew eq_refl Hw Ecm).
  - apply (disk_ok_drop (fun r => bool_decide (ref_Database r = db)) (table_of s)); [done|..].
    + intros r x Hx. rewrite Hat by done. cbn [key_namespace]. case_bool_decide; [by rewrite decide_True by done|by rewrite decide_False by done].
    + intros r doc. rewrite Hat by done. cbn [key_namespace]. case_bool_decide; [by rewrite decide_True by done|by rewrite decide_False by done].
    + intros K HK. destruct K; try done; rewrite Hat by done; cbn [key_namespace]; try (by left);
        (destruct (decide _); [right|by left]); try done. apply unmarshal_true.
  - apply (legacy_ok_drop (fun db' => bool_decide (db' = db)) (table_of s)); [..|done].
    + intros db' hash x [Hb Hs] Hx. rewrite Hat by done. cbn [key_namespace]. case_bool_decide; [by rewrite decide_True by done|by rewrite decide_False by done].
    + intros db' hash doc [Hb Hs]. rewrite Hat by done. cbn [key_namespace]. case_bool_decide; [by rewrite decide_True by done|by rewrite decide_False by done].
  - split_and!; cbn [spec_exec disk_spec sp_postings sp_partition sp_progress sp_generation sp_catalog sp_inventory sp_retired disk]; intros.
    + unfold disk_postings. rewrite Hat by done. cbn [key_namespace]. by destruct (decide _).
    + rewrite Hat by done. cbn [key_namespace]. destruct (decide _); [by rewrite bool_decide_true|by rewrite bool_decide_false].
    + by rewrite Hat.
    + rewrite Hat by done. cbn [key_namespace]. by destruct (decide _).
    + rewrite Hat by done. destruct (decide (db = db0)) as [->|]; [by rewrite decide_True|by rewrite decide_False].
    + by rewrite Hat.
    + rewrite Hat by done. destruct (decide (db = db0)) as [->|]; [|by rewrite bool_decide_false].
      rewrite bool_decide_true by done. cbn [mbind option_bind]. by rewrite unmarshal_true.
  - intros r inner [Hin _]%map_lookup_filter_Some. by apply (si_pending _ Hi).
  - apply filter_legacy_mem, (si_ops _ Hi).
  - intros i op [Hin _]%map_lookup_filter_Some. by apply (si_deletes _ Hi).
  - intros i [x [Hin _]%map_lookup_filter_Some]. apply map_lookup_filter_None. left. apply (si_disjoint _ Hi). eauto.
  - apply overlay_DeleteDatabase.
  - intros [e ->]. by injection H.
  - intros ->. injection H as <-. destruct (commitMetadataBatch_spec s _ _ s1 None Ht Hw Ecm) as (d' & fe & -> & _ & Hn & _).
    specialize (Hn eq_refl). subst fe. eexists d', _. split; [|done]. unfold drop_database, set_db. cbn. by rewrite Hidle, Ew.
Qed.

(** ** The background flush *)
Lemma overlay_idem F p A : overlay F p (overlay F p A) ≡ overlay F p A.
Proof.
  split_and!; cbn; intros; try done; [by destruct (lookup2 F r doc)|by rewrite orb_assoc, orb_diag|].
  rewrite note_note. unfold note. by destruct (String.eqb p "") eqn:E; rewrite ?E.
Qed.

Lemma flush_begin_spec s : store_inv s -> ps_phase s = FlushIdle ->
  store_inv (flush_begin s) /\ disk (flush_begin s) ≡ disk s /\ ps_flushErr (flush_begin s) = ps_flushErr s /\
  (ps_flushErr s = None -> abs (flush_begin s) ≡ abs s) /\ (ps_phase (flush_begin s) = FlushBegun -> ps_flushErr s = None /\ mid (flush_begin s) ≡ abs s).
Proof.
  intros Hi Hidle. unfold flush_begin. destruct (ps_flushErr s) as [e|] eqn:He.
  { split_and!; try done. by rewrite Hidle. }
  destruct (idle_abs s Hi Hidle He) as [Hm Ha].
  destruct (nothing_pending s); [split_and!; try done; by rewrite Hidle|].
  assert (Hmid : mid (take_pending s FlushBegun) ≡ abs s) by (by rewrite Ha). split_and!; try done.
  split; try done; [by apply take_ready|..]; cbn; try done.
Qed.

Lemma writes_checkpoint d p : writes (applyMetadata d None p) (e_save p).
Proof. apply writes_save. Qed.

Lemma flush_commit_spec s : store_inv s -> ps_phase s = FlushBegun ->
  let s' := flush_commit s in
  store_inv s' /\ (disk s' ≡ disk s \/ disk s' ≡ mid s) /\ abs s' ≡ abs s /\ ps_flushErr s' = ps_flushErr s /\ ps_phase s' <> FlushBegun.
Proof.
  intros Hi Hp. unfold flush_commit. destruct (commit_batch _ _) as [d e] eqn:Ec. cbv zeta.
  destruct (commit_populate s None _ d e (si_batch _ Hi) (writes_checkpoint _ _) (modern_save _) Ec) as [Ht Hcase].
  pose proof (si_batch _ Hi) as [Ht0 Hd Hl HF _ _ _]. destruct Hcase as [[Hl' _ Hrows]|[Hc [x ->]]].
  - set (U := after (e_projections (table_of s) (ps_projectionFlushing s)) (table_of s)).
    change (same_rows (rows (content d)) (after (e_save (ps_flushingProgress s)) U)) in Hrows.
    assert (Hs : disk_spec (rows (content d)) ≡ mid s).
    { rewrite (disk_spec_same _ _ Hrows), spec_save. unfold mid. rewrite overlay_noted. f_equiv. by apply flush_spec. }
    assert (Hm : mid (set_db s d (ps_flushErr s) (FlushCommitted e)) ≡ mid s).
    { unfold mid at 1, disk, table_of. cbn. rewrite Hs. apply overlay_idem. }
    split_and!; try done; [|by right|unfold abs; by rewrite Hm].
    apply store_inv_set_db; try done.
    + eapply disk_ok_same; [intros K HK HL; symmetry; by apply Hrows|]. apply disk_ok_after; [by apply flush_disk_ok|apply rows_ok_save].
    + intros _. unfold mid, disk, table_of in Hm. cbn in Hm. by rewrite Hm, Hs.
  - destruct (abs_set_db s d (ps_flushErr s) (FlushCommitted (Some x)) Hc) as (E1 & E2 & E3). split_and!; try done.
    + apply store_inv_set_db; rewrite ?Hc; done.
    + left. by rewrite E1.
    + by rewrite E3.
Qed.

Lemma flush_finish_spec s e : store_inv s -> ps_phase s = FlushCommitted e ->
  let s' := flush_finish s in
  store_inv s' /\ disk s' ≡ disk s /\ abs s' ≡ abs s /\ (ps_flushErr s' = None -> ps_flushErr s = None) /\ ps_phase s' = FlushIdle.
Proof.
  intros Hi Hp. unfold flush_finish. rewrite Hp. destruct e as [e|]; cbn [flush_end].
  - split_and!; try done.
    apply store_inv_set_db; try done; apply (si_batch _ Hi).
  - pose proof (si_committed _ Hi Hp) as Hm. destruct Hi as [[Ht Hd Hl HF Hops HD Hj] Hp' Hops' Hdel Hdisj _ _]. split_and!; try done.
    + unfold abs at 1. cbn. assert (E : mid (drop_flushing s) ≡ disk s) by done. rewrite E, <- Hm. done.
Qed.

(** ** Opening *)
Lemma NewPebbleStore_spec path n d s :
  typed (content d) -> disk_ok (rows (content d)) -> legacy_ok (rows (content d)) -> NewPebbleStore path n d = Ok s ->
  store_inv s /\ abs s ≡ disk_spec (rows (content d)) /\ ps_phase s = FlushIdle /\ ps_flushErr s = None /\ disk s ≡ abs s.
Proof.
  intros Ht Hd Hl H. unfold NewPebbleStore in H. destruct (String.eqb path ""); [done|].
  destruct (ensureManifest d) as [d' [e|]] eqn:Em; [done|]. injection H as <-.
  assert (Hc : content d' = content d \/ content d' = <[encode_key KFormat := manifestV2]> (content d)).
  { unfold ensureManifest in Em. destruct (db_Get d manifestKey) as [[[v c]|]|]; [injection Em as <- _; by left| |done].
    destruct (db_Iter d [] None) as [[[rs err] c]|]; [|done]. destruct (errors_Join _ _); [done|]. destruct rs; [|done].
    pose proof (db_Set_law d manifestKey manifestV2) as Hs. destruct (db_Set _ _ _) as [d1 [e1|]]; [done|]. injection Em as <-. cbn in Hs.
    destruct Hs as [->|[_ []]]; [by right|done]. }
  assert (Hr : forall K, wf_key K -> K <> KFormat -> rows (content d') K = rows (content d) K).
  { intros K HK HF. unfold rows. destruct Hc as [->| ->]; [done|]. rewrite lookup_insert_ne; [done|]. intros E%encode_key_inj; done. }
  assert (Ht' : typed (content d')).
  { destruct Hc as [->| ->]; [done|]. intros k v [[<- _]|[_ Hk]]%lookup_insert_Some; [by exists KFormat|by eapply Ht]. }
  assert (Hpost : forall r doc, disk_postings (rows (content d')) r doc = disk_postings (rows (content d)) r doc) by (intros; unfold disk_postings; by rewrite Hr by done).
  assert (Hspec : disk_spec (rows (content d')) ≡ disk_spec (rows (content d))).
  { split_and!; cbn [disk_spec sp_postings sp_partition sp_progress sp_generation sp_catalog sp_inventory sp_retired]; intros; rewrite ?Hr by done; done. }
  split_and!; try done.
  split; cbn; try done. split; cbn; try done.
  - apply (disk_ok_drop (fun _ => false) (rows (content d))); [done|intros; by apply Hr|intros; by apply Hr|].
    intros K HK. destruct K; try done; try (left; by apply Hr). by right.
  - eapply legacy_ok_same; [|exact Hl]. intros K HK HL. symmetry. apply Hr; [done|by intros ->].
Qed.
End PersistRun.
