(* ===== verification/PersistReads.v ===== *)
(** * What the persistent store answers

    Every query of progress, generations, catalogs, retired databases and
    partitions, when it returns, gives what the abstract state says
    ([store_answers]). *)
From stdpp Require Import base list sorting gmap strings.
From Stdlib Require Import ZArith.
From S2P Require Import Prelude PostingSet OrderKey IndexStore Intervals Keys Pebble PersistStore PersistSpec PersistFacts PersistRefine PersistRun.
Local Open Scope Z_scope.

Section PersistReads.
Context `{PB : Pebble} `{XX : XXHash} `{MJ : MetadataJSON} `{SS : SliceSort} `{RO : RangeOrder}.

Record answers (s : PebbleStore) (A : Spec) : Prop := {
  an_progress : forall p, LoadProgress s = Ok p -> p = sp_progress A;
  an_retired : forall db b, IsDatabaseRetired s db = Ok b -> b = sp_retired A db;
  an_generation : forall db c f g, ReadGeneration s db c f = Ok g -> g = spec_ReadGeneration A db c f;
  an_catalog : forall db c, ReadBootstrapCatalog s db = Ok c -> c = sp_catalog A db;
  an_catalogs : forall cs, ListBootstrapCatalogs s = Ok cs ->
    sorted_by (fun a b => string_ltb (cat_Database a) (cat_Database b)) cs /\
    forall c, c ∈ cs <-> sp_catalog A (cat_Database c) = Some c;
  an_partitions : forall rs, ListQueryIndexes s = Ok rs -> NoDup rs /\ forall r, r ∈ rs <-> sp_partition A r = true;
}.

#[export] Instance answers_proper s : Proper ((≡) ==> impl) (answers s).
Proof.
  intros A B H. pose proof H as (H1 & H2 & H3 & H4 & H5 & H6 & H7). intros [P1 P2 P3 P4 P5 P6]. split.
  - intros p Hp. rewrite <- H3. by apply P1.
  - intros db b Hb. rewrite <- H7. by apply P2.
  - intros db c f g Hg. rewrite <- (spec_ReadGeneration_equiv A B) by done. by apply P3.
  - intros db c Hc. rewrite <- H5. by apply P4.
  - intros cs Hc. destruct (P5 cs Hc) as [Hs Hi]. split; [done|]. intros c. by rewrite Hi, H5.
  - intros rs Hr. destruct (P6 rs Hr) as [Hn Hi]. split; [done|]. intros r. by rewrite Hi, H2.
Qed.

Lemma LoadProgress_answer s p : LoadProgress s = Ok p -> p = sp_progress (abs s).
Proof.
  unfold LoadProgress, abs, mid, overlay, note, disk, disk_spec, table_of, rows. cbn [sp_progress encode_key].
  destruct (ps_flushErr s); [done|]. destruct (String.eqb (ps_pendingProgress s) ""); cbn [negb]; [|by intros [= <-]].
  destruct (String.eqb (ps_flushingProgress s) ""); cbn [negb]; [|by intros [= <-]].
  destruct (db_Get (ps_db s) keyProgress) as [[[v c]|]|] eqn:E; [..|done]; apply db_Get_law in E; rewrite <- E; by intros [= <-].
Qed.

Lemma retired_answer s db b : isDatabaseRetiredLocked s db = Ok b -> b = sp_retired (abs s) db.
Proof.
  unfold isDatabaseRetiredLocked. change (retiredDatabaseKey db) with (encode_key (KRetired db)).
  destruct (readMetadata _ _ unmarshal_bool) as [x|] eqn:E; [|done]. apply readMetadata_ok in E.
  change (sp_retired (abs s) db) with (default false (rows (content (ps_db s)) (KRetired db) ≫= unmarshal_bool)).
  rewrite <- E. destruct x as [[]|]; by intros [= <-].
Qed.

Lemma ReadGeneration_answer s db c f g : ReadGeneration s db c f = Ok g -> g = spec_ReadGeneration (abs s) db c f.
Proof.
  unfold ReadGeneration, spec_ReadGeneration. destruct (writeErrorLocked s); [done|].
  destruct (isDatabaseRetiredLocked s db) as [b|] eqn:Er; [|done]. apply retired_answer in Er. rewrite <- Er. cbn [mbind res_bind].
  destruct b; [by intros [= <-]|]. change (catalogKey db) with (encode_key (KCatalog db)).
  change catalogInventoryKey with (encode_key KInventory). change (generationKey db c f) with (encode_key (KGeneration db c f)).
  destruct (readMetadata _ _ unmarshal_catalog) as [cat|] eqn:Ec; [|done]. apply readMetadata_ok in Ec.
  change (sp_catalog (abs s) db) with (rows (content (ps_db s)) (KCatalog db) ≫= unmarshal_catalog). rewrite <- Ec.
  change (sp_inventory (abs s)) with (rows (content (ps_db s)) KInventory ≫= unmarshal_inventory).
  change (sp_generation (abs s) db c f) with (rows (content (ps_db s)) (KGeneration db c f) ≫= unmarshal_generation).
  destruct cat as [cat|]; cbn [mbind res_bind].
  - destruct (readMetadata _ _ unmarshal_generation) as [l|] eqn:El; [|done]. apply readMetadata_ok in El. rewrite <- El. by intros [= <-].
  - destruct (readMetadata _ _ unmarshal_inventory) as [i|] eqn:Ei; [|done]. apply readMetadata_ok in Ei. rewrite <- Ei.
    cbn [mbind res_bind]. destruct i as [i|]; [destruct (String.eqb _ _); [done|by intros [= <-]]|]. cbn [mbind res_bind].
    destruct (readMetadata _ _ unmarshal_generation) as [l|] eqn:El; [|done]. apply readMetadata_ok in El. rewrite <- El. by intros [= <-].
Qed.

Lemma ReadBootstrapCatalog_answer s db c : ReadBootstrapCatalog s db = Ok c -> c = sp_catalog (abs s) db.
Proof.
  unfold ReadBootstrapCatalog. destruct (writeErrorLocked s); [done|]. change (catalogKey db) with (encode_key (KCatalog db)).
  intros H. by apply readMetadata_ok in H.
Qed.

(** The decoded rows under a prefix are those of the keys it holds. *)
Lemma read_rows_spec {A} d p (decode : bytes -> option A) l :
  is_bytes p -> typed (content d) -> read_rows d p decode = Ok l ->
  forall a, a ∈ l <-> exists K v, wf_key K /\ prefixb p (encode_key K) = true /\ rows (content d) K = Some v /\ decode v = Some a.
Proof.
  intros Hp Ht H. unfold read_rows in H. destruct (db_Iter d p (prefixEnd p)) as [[[rs err] close]|] eqn:E; [|done].
  apply db_Iter_law in E as (_ & Hin & Hall & _). cbv zeta in H.
  destruct (@mapM_res store_error (bytes * bytes) A _ rs) as [vs|] eqn:Em; [|by destruct close]. destruct err; [by destruct close|]. destruct close; [done|].
  injection H as <-. specialize (Hall eq_refl). apply mapM_res_ok in Em. intros a. split.
  - intros [i Hi]%list_elem_of_lookup. destruct (Forall2_lookup_r _ _ _ _ _ Em Hi) as (x & Hx & Ex).
    apply list_elem_of_lookup_2 in Hx. destruct (Hin x Hx) as [Hm Hr]. destruct (Ht _ _ Hm) as (K & HK & EK).
    exists K, x.2. unfold rows. rewrite <- EK. split_and!; [done| |done|by destruct (decode x.2); [injection Ex as ->|done]].
    unfold Pebble.in_range in Hr. rewrite range_prefix in Hr; [done|done|]. rewrite EK. by apply encode_key_bytes.
  - intros (K & v & HK & Hpre & Hv & Ha).
    assert (Hx : (encode_key K, v) ∈ rs).
    { apply Hall; [done|]. unfold Pebble.in_range. rewrite range_prefix; [done|done|by apply encode_key_bytes]. }
    apply list_elem_of_lookup in Hx as [i Hi]. destruct (Forall2_lookup_l _ _ _ _ _ Em Hi) as (y & Hy & Ey).
    cbn in Ey. rewrite Ha in Ey. injection Ey as ->. by eapply list_elem_of_lookup_2.
Qed.

Lemma string_ltb_strict_weak {A} (key : A -> string) : strict_weak (fun x y => string_ltb (key x) (key y)).
Proof. exact (bytes_ltb_strict_weak (fun x => bytes_of_string (key x))). Qed.

Lemma ListBootstrapCatalogs_answer s cs : store_inv s -> ListBootstrapCatalogs s = Ok cs ->
  sorted_by (fun a b => string_ltb (cat_Database a) (cat_Database b)) cs /\
  forall c, c ∈ cs <-> sp_catalog (abs s) (cat_Database c) = Some c.
Proof.
  intros Hi. unfold ListBootstrapCatalogs. destruct (writeErrorLocked s); [done|].
  destruct (read_rows _ _ unmarshal_catalog) as [l|] eqn:E; [|done]. intros [= <-].
  split; [apply sort_slice_sorted, string_ltb_strict_weak|]. intros c. rewrite sort_slice_perm.
  pose proof (si_batch _ Hi) as Hb. pose proof (br_disk _ Hb) as Hd.
  rewrite (read_rows_spec _ _ _ _ (bytes_of_string_bytes _) (br_typed _ Hb) E). split.
  - intros (K & v & HK & Hp & Hv & Hc). rewrite prefixb_catalogs in Hp. destruct K as [| | | |db| | | | | | | |]; try done.
    destruct (dk_catalog _ Hd db v Hv) as (c' & Ec & Edb & _). rewrite Hc in Ec. injection Ec as <-. rewrite Edb.
    change (rows (content (ps_db s)) (KCatalog db) ≫= unmarshal_catalog = Some c). by rewrite Hv.
  - change (sp_catalog (abs s) (cat_Database c)) with (rows (content (ps_db s)) (KCatalog (cat_Database c)) ≫= unmarshal_catalog).
    intros (v & Hv & Hc)%bind_Some. exists (KCatalog (cat_Database c)), v. split_and!; [done|by rewrite prefixb_catalogs|done|done].
Qed.

Lemma ListQueryIndexes_answer s rs : store_inv s -> ListQueryIndexes s = Ok rs ->
  NoDup rs /\ forall r, r ∈ rs <-> sp_partition (abs s) r = true.
Proof.
  intros Hi. unfold ListQueryIndexes. destruct (writeErrorLocked s); [done|].
  destruct (read_rows _ _ unmarshal_ref) as [l|] eqn:E; [|done]. intros [= <-]. cbv zeta.
  set (seen := _ ∪ _ ∪ _). split.
  - rewrite sort_slice_perm, range_perm. apply NoDup_fst_map_to_list.
  - intros r. rewrite sort_slice_perm, range_perm. pose proof (si_batch _ Hi) as Hb. pose proof (br_disk _ Hb) as Hd.
    assert (Hl : r ∈ l <-> sp_partition (disk s) r = true).
    { rewrite (read_rows_spec _ _ _ _ (bytes_of_string_bytes _) (br_typed _ Hb) E).
      change (sp_partition (disk s) r) with (match rows (content (ps_db s)) (KPartition r) with Some _ => true | None => false end). split.
      - intros (K & v & HK & Hp & Hv & Hc). rewrite prefixb_partitions in Hp. destruct K as [| |r'| | | | | | | | | |]; try done.
        pose proof (dk_partition _ Hd r' v Hv) as Er. rewrite Hc in Er. injection Er as <-. by rewrite Hv.
      - destruct (rows _ (KPartition r)) as [v|] eqn:Ev; [|done]. intros _. exists (KPartition r), v.
        split_and!; [done|by rewrite prefixb_partitions|done|by apply (dk_partition _ Hd)]. }
    assert (Hs : r ∈ map fst (map_to_list (gset_to_gmap tt seen)) <-> r ∈ seen).
    { rewrite list_elem_of_fmap. split.
      - intros ([r' x] & -> & Hx%elem_of_map_to_list). by apply lookup_gset_to_gmap_Some in Hx as [? _].
      - intros Hr. exists (r, tt). split; [done|]. by apply elem_of_map_to_list, lookup_gset_to_gmap_Some. }
    rewrite Hs. unfold seen, abs, mid, overlay. cbn [sp_partition].
    rewrite !elem_of_union, !elem_of_dom, elem_of_list_to_set, Hl, !orb_true_iff, !bool_decide_eq_true. tauto.
Qed.

Lemma store_answers s : store_inv s -> answers s (abs s).
Proof.
  intros Hi. split.
  - apply LoadProgress_answer.
  - intros db b. unfold IsDatabaseRetired. destruct (writeErrorLocked s); [done|]. apply retired_answer.
  - apply ReadGeneration_answer.
  - apply ReadBootstrapCatalog_answer.
  - intros cs. by apply ListBootstrapCatalogs_answer.
  - intros rs. by apply ListQueryIndexes_answer.
Qed.
End PersistReads.
