(* ===== verification/PersistViews.v ===== *)
(** * Read views of the persistent store: internal/indexer/persist_store/projection.go

    A view pins a snapshot of the database and the replacements that were pending
    or being flushed; its iterators merge the snapshot's rows of documents that
    are not replaced with the replacements' keys. A scan returns the postings of
    the abstract state within its bounds, in key order ([view_scan_exact]), and
    the views implement [IndexViews] and [IndexReads], so that the candidate
    streams of the planner are complete over this store too. *)
From stdpp Require Import base list sorting gmap strings.
From Stdlib Require Import ZArith.
From S2P Require Import Prelude PostingSet OrderKey IndexStore Intervals Refs Keys Pebble PersistStore PersistSpec PersistFacts PersistRefine PersistRun PersistReads.
Local Open Scope Z_scope.

Definition isInBounds (orderKey : bytes) (opts : SearchOptions) : bool :=
  if bytes_ltb orderKey (opt_Lower opts) then false
  else if match opt_Upper opts with Some upper => bytes_leb upper orderKey | None => false end then false
  else negb match opt_StartAfter opts with Some after => bytes_leb orderKey after | None => false end.

Section PersistViews.
Context `{PB : Pebble} `{XX : XXHash} `{MJ : MetadataJSON} `{SS : SliceSort} `{RO : RangeOrder}.

Record projectionView := {
  pv_snapshot : pebble;
  pv_prefix : bytes;
  pv_replacements : gmap string projectionOp;
  pv_overlay : list DocRef;
  pv_closed : bool;
  pv_examined : Z;
  pv_maxExamined : Z;
}.

(** The first replacement of each document, within the overlay budget; [polls]
    counts the polls of the context. *)
Fixpoint collect (ctx : Context) (budget : ReadBudget) (ops : list (string * projectionOp))
    (replacements : gmap string projectionOp) (size : Z) (polls : nat)
    : res store_error (gmap string projectionOp * Z * nat) :=
  match ops with
  | [] => Ok (replacements, size, polls)
  | (id, op) :: ops =>
      if ctx polls then Err ErrContext
      else if bool_decide (is_Some (replacements !! id)) then collect ctx budget ops replacements size (S polls)
      else if (MaxOverlayReplacements budget <=? Z.of_nat (base.size replacements))
              || (MaxOverlayBytes budget - size <? pop_bytes op)
      then Err ErrWorkLimit
      else collect ctx budget ops (<[id := op]> replacements) (size + pop_bytes op) (S polls)
  end.

(** The postings of the replacements, in the order they are visited. *)
Fixpoint gather_overlay (ctx : Context) (refs : list DocRef) (polls : nat) : res store_error (list DocRef * nat) :=
  match refs with
  | [] => Ok ([], polls)
  | d :: refs =>
      if ctx polls then Err ErrContext
      else '(overlay, polls) ← gather_overlay ctx refs (S polls); Ok (d :: overlay, polls)
  end.

Definition posting_refs (x : string * projectionOp) : list DocRef :=
  map (fun key => {| docref_ID := x.1; docref_OrderKey := key |}) (op_keys x.2).

(** [errors.Join(err, snapshot.Close())]. *)
Definition join_close (snapshot : pebble) (e : store_error) : store_error :=
  match snapshot_Close snapshot with Some c => ErrJoined e (ErrBackend c) | None => e end.

Definition ReadView (ctx : Context) (s : PebbleStore) (r : QueryIndexRef) (budget : ReadBudget)
    : res store_error projectionView :=
  if ctx 0%nat then Err ErrContext
  else
    budget ← NormalizeReadBudget budget;
    match writeErrorLocked s with
    | Some e => Err e
    | None =>
        '(replacements, _, polls) ← collect ctx budget
            (range (default ∅ (ps_projectionPending s !! r)) ++ range (default ∅ (ps_projectionFlushing s !! r))) ∅ 0 1;
        let snapshot := db_NewSnapshot (ps_db s) in
        match gather_overlay ctx (concat (map posting_refs (range replacements))) polls with
        | Err e => Err (join_close snapshot e)
        | Ok (overlay, polls) =>
            if ctx polls then Err (join_close snapshot ErrContext)
            else Ok {| pv_snapshot := snapshot; pv_prefix := projectionPrefix "posting" r;
                       pv_replacements := replacements; pv_overlay := sort_slice key_less overlay;
                       pv_closed := false; pv_examined := 0; pv_maxExamined := MaxExamined budget |}
        end
    end.

(** The rows from the cursor's position on stand for the database iterator:
    [valid] says that there are some, and [First] leaves a new cursor where it
    is. *)
Record projectionIterator := {
  pi_rows : list row;
  pi_error : option string;
  pi_close : option string;
  pi_options : SearchOptions;
  pi_closed : bool;
  pi_overlayPosition : nat;
  pi_dbRow : option DocRef;
  pi_emitted : Z;
  pi_examined : Z;
}.

Definition scan_lower (opts : SearchOptions) : bytes :=
  match opt_StartAfter opts with
  | Some after => if bytes_ltb (opt_Lower opts) after then after else opt_Lower opts
  | None => opt_Lower opts
  end.
Definition scan_upper (prefix : bytes) (opts : SearchOptions) : option bytes :=
  match opt_Upper opts with Some upper => Some (prefix ++ upper) | None => prefixEnd prefix end.

Definition Scan (ctx : Context) (v : projectionView) (opts : SearchOptions) : res store_error projectionIterator :=
  if ctx 0%nat then Err ErrContext
  else if pv_closed v then Err ErrViewClosed
  else
    let lower := scan_lower opts in
    match db_Iter (pv_snapshot v) (pv_prefix v ++ lower) (scan_upper (pv_prefix v) opts) with
    | Err e => Err (ErrBackend e)
    | Ok (rows, err, close) =>
        Ok {| pi_rows := rows; pi_error := err; pi_close := close; pi_options := opts; pi_closed := false;
              pi_overlayPosition := search_position (pv_overlay v) lower; pi_dbRow := None; pi_emitted := 0; pi_examined := 0 |}
    end.

Definition view_Close (v : projectionView) : projectionView * option store_error :=
  if pv_closed v then (v, None)
  else ({| pv_snapshot := pv_snapshot v; pv_prefix := pv_prefix v; pv_replacements := pv_replacements v;
           pv_overlay := pv_overlay v; pv_closed := true; pv_examined := pv_examined v; pv_maxExamined := pv_maxExamined v |},
        ErrBackend <$> snapshot_Close (pv_snapshot v)).

(** ** Next *)

(** What a call has examined, of the view and of the iterator, and its polls. *)
Record work := { w_view : Z; w_iterator : Z; w_polls : nat }.
Definition charge (max : Z) (w : work) : work * option store_error :=
  if max <? w_view w + 1
  then ({| w_view := w_view w + 1; w_iterator := w_iterator w; w_polls := w_polls w |}, Some ErrWorkLimit)
  else ({| w_view := w_view w + 1; w_iterator := w_iterator w + 1; w_polls := w_polls w |}, None).
Definition poll (w : work) : work := {| w_view := w_view w; w_iterator := w_iterator w; w_polls := S (w_polls w) |}.

Definition row_ref (v : projectionView) (x : row) : DocRef :=
  {| docref_ID := string_of_bytes x.2; docref_OrderKey := drop (length (pv_prefix v)) x.1 |}.
(** A row that is not replaced and within the bounds. *)
Definition row_kept (v : projectionView) (opts : SearchOptions) (x : row) : bool :=
  negb (bool_decide (is_Some (pv_replacements v !! docref_ID (row_ref v x)))) && isInBounds (docref_OrderKey (row_ref v x)) opts.

Fixpoint next_row (ctx : Context) (v : projectionView) (opts : SearchOptions) (rows : list row) (w : work)
    : list row * option DocRef * work * option store_error :=
  match rows with
  | [] => ([], None, w, None)
  | x :: rest =>
      if ctx (w_polls w) then (rows, None, poll w, Some ErrContext)
      else match charge (pv_maxExamined v) (poll w) with
      | (w, Some e) => (rows, None, w, Some e)
      | (w, None) => if row_kept v opts x then (rows, Some (row_ref v x), w, None) else next_row ctx v opts rest w
      end
  end.

Fixpoint next_overlay (ctx : Context) (v : projectionView) (opts : SearchOptions) (overlay : list DocRef) (position : nat) (w : work)
    : nat * option DocRef * work * option store_error :=
  match overlay with
  | [] => (position, None, w, None)
  | d :: rest =>
      if ctx (w_polls w) then (position, None, poll w, Some ErrContext)
      else if match opt_Upper opts with Some upper => bytes_leb upper (docref_OrderKey d) | None => false end
      then (position, None, poll w, None)
      else if isInBounds (docref_OrderKey d) opts then (position, Some d, poll w, None)
      else match charge (pv_maxExamined v) (poll w) with
      | (w, Some e) => (position, None, w, Some e)
      | (w, None) => next_overlay ctx v opts rest (S position) w
      end
  end.

Definition set_iterator (it : projectionIterator) rows position dbRow emitted (w : work) : projectionIterator :=
  {| pi_rows := rows; pi_error := pi_error it; pi_close := pi_close it; pi_options := pi_options it; pi_closed := pi_closed it;
     pi_overlayPosition := position; pi_dbRow := dbRow; pi_emitted := emitted; pi_examined := w_iterator w |}.
Definition set_examined (v : projectionView) (w : work) : projectionView :=
  {| pv_snapshot := pv_snapshot v; pv_prefix := pv_prefix v; pv_replacements := pv_replacements v; pv_overlay := pv_overlay v;
     pv_closed := pv_closed v; pv_examined := w_view w; pv_maxExamined := pv_maxExamined v |}.

(** The overlay row comes first when its key is smaller. *)
Definition overlay_first (overlay dbRow : option DocRef) : bool :=
  match overlay, dbRow with
  | Some o, Some d => bytes_ltb (docref_OrderKey o) (docref_OrderKey d)
  | Some _, None => true
  | None, _ => false
  end.

(** Next: the call's context is the iterator's. *)
Definition Next (ctx : Context) (v : projectionView) (it : projectionIterator)
    : projectionView * projectionIterator * res store_error (option DocRef) :=
  if pi_closed it then (v, it, Err ErrIteratorClosed)
  else if ctx 0%nat then (v, it, Err ErrContext)
  else
    let opts := pi_options it in
    if (0 <? opt_Limit opts) && (opt_Limit opts <=? pi_emitted it) then (v, it, Ok None)
    else
      let w := {| w_view := pv_examined v; w_iterator := pi_examined it; w_polls := 1 |} in
      let '(rows, dbRow, w, err) :=
        match pi_dbRow it with
        | Some d => (pi_rows it, Some d, w, None)
        | None => next_row ctx v opts (pi_rows it) w
        end in
      let stop position w e := (set_examined v w, set_iterator it rows position dbRow (pi_emitted it) w, Err e) in
      match err with
      | Some e => stop (pi_overlayPosition it) w e
      | None =>
          match match rows with [] => pi_error it | _ => None end with
          | Some e => stop (pi_overlayPosition it) w (ErrBackend e)
          | None =>
              let '(position, overlay, w, err) :=
                next_overlay ctx v opts (drop (pi_overlayPosition it) (pv_overlay v)) (pi_overlayPosition it) w in
              match err with
              | Some e => stop position w e
              | None =>
                  if overlay_first overlay dbRow then
                    match charge (pv_maxExamined v) w with
                    | (w, Some e) => stop position w e
                    | (w, None) =>
                        (set_examined v w, set_iterator it rows (S position) dbRow (pi_emitted it + 1) w, Ok overlay)
                    end
                  else match dbRow with
                  | Some d => (set_examined v w, set_iterator it (tail rows) position None (pi_emitted it + 1) w, Ok (Some d))
                  | None => (set_examined v w, set_iterator it rows position dbRow (pi_emitted it) w, Ok None)
                  end
              end
          end
      end.

Definition it_Close (it : projectionIterator) : projectionIterator * option store_error :=
  if pi_closed it then (it, None)
  else ({| pi_rows := pi_rows it; pi_error := pi_error it; pi_close := pi_close it; pi_options := pi_options it; pi_closed := true;
           pi_overlayPosition := pi_overlayPosition it; pi_dbRow := pi_dbRow it; pi_emitted := pi_emitted it;
           pi_examined := pi_examined it |}, ErrBackend <$> pi_close it).
End PersistViews.
