(* ===== verification/PersistScan.v ===== *)
(** * What scans of the persistent store return

    The iterator of a view returns the postings of the abstract state within the
    bounds, in key order ([view_scan_exact]), and views and store implement the
    read interfaces of the planner. *)
From stdpp Require Import base list sorting gmap strings.
From Stdlib Require Import ZArith.
From S2P Require Import Prelude PostingSet OrderKey IndexStore Intervals Refs Keys Pebble PersistStore PersistSpec PersistFacts PersistRefine PersistRun PersistReads PersistViews.
Local Open Scope Z_scope.

Lemma isInBounds_in_bounds opts key : isInBounds key opts = in_bounds opts key.
Proof.
  unfold isInBounds, in_bounds. rewrite bytes_leb_ltb. destruct (bytes_ltb key (opt_Lower opts)); cbn; [done|].
  destruct (opt_Upper opts) as [u|]; [rewrite (bytes_leb_ltb u key); destruct (bytes_ltb key u); cbn; [|by rewrite andb_false_r]|];
    (destruct (opt_StartAfter opts); [rewrite bytes_leb_ltb, negb_involutive|]; by rewrite ?andb_true_r).
Qed.
Lemma in_bounds_below opts key : in_bounds opts key = true -> below_upper opts key = true.
Proof. unfold in_bounds. by intros [_ ?]%andb_true_iff. Qed.
Lemma scan_lower_reach opts key : in_reach opts key = bytes_leb (scan_lower opts) key && below_upper opts key.
Proof.
  unfold in_reach, scan_lower. fold (below_upper opts key). f_equal. destruct (opt_StartAfter opts) as [after|]; [|by rewrite andb_true_r].
  symmetry. apply max_lower_spec.
Qed.

Lemma prefix_between p a u k : bytes_leb (p ++ a) k = true -> bytes_ltb k (p ++ u) = true -> prefixb p k = true.
Proof.
  revert k; induction p as [|b p IH]; intros k Hlo Hup; [by destruct k|]. destruct k as [|c k]; [done|].
  unfold bytes_leb, bytes_ltb in *. cbn in *. rewrite (Z.compare_antisym b c) in Hup.
  destruct (Z.compare_spec b c) as [->|Hlt|Hgt]; cbn in *; [|done|done]. rewrite Z.eqb_refl. cbn. by apply IH.
Qed.

Section PersistScan.
Context `{PB : Pebble} `{XX : XXHash} `{MJ : MetadataJSON} `{SS : SliceSort} `{RO : RangeOrder}.

(** ** The contents of a view *)
Definition replaced (v : projectionView) (d : DocRef) : bool := bool_decide (is_Some (pv_replacements v !! docref_ID d)).
Definition db_refs (v : projectionView) : list DocRef :=
  map (row_ref v) (sorted_rows (content (pv_snapshot v)) (pv_prefix v) (prefixEnd (pv_prefix v))).
Definition live_refs (v : projectionView) : list DocRef := List.filter (fun d => negb (replaced v d)) (db_refs v).
Definition view_refs (v : projectionView) : list DocRef := merge_refs (live_refs v) (pv_overlay v).

Record view_ok (v : projectionView) : Prop := {
  vk_prefix : is_bytes (pv_prefix v);
  vk_bytes : forall k x, content (pv_snapshot v) !! k = Some x -> is_bytes k;
  vk_overlay : key_sorted (pv_overlay v);
  vk_apart : keys_apart (live_refs v) (pv_overlay v);
}.

Lemma sorted_refs v rs : StronglySorted row_lt rs -> (forall x, x ∈ rs -> prefixb (pv_prefix v) x.1 = true) ->
  key_sorted (map (row_ref v) rs).
Proof.
  intros Hs Hp. induction Hs as [|x rs Hs IH Hx]; cbn; constructor.
  - apply IH. intros y Hy. apply Hp. by right.
  - rewrite Forall_forall in Hx. apply Forall_forall. intros d (y & -> & Hy)%list_elem_of_fmap. specialize (Hx y Hy). unfold key_lt, row_lt in *. cbn.
    destruct (prefixb_split _ _ (Hp x ltac:(by left))) as [a Ea]. destruct (prefixb_split _ _ (Hp y ltac:(by right))) as [b Eb].
    rewrite Ea, Eb in Hx |- *. by rewrite !drop_app_length, bytes_compare_app_r in *.
Qed.

Lemma view_prefix v k x : view_ok v -> content (pv_snapshot v) !! k = Some x ->
  Pebble.in_range (pv_prefix v) (prefixEnd (pv_prefix v)) k = prefixb (pv_prefix v) k.
Proof. intros Hv Hk. apply range_prefix; [apply Hv|by eapply Hv]. Qed.

Lemma elem_of_db_refs v d : view_ok v ->
  d ∈ db_refs v <-> exists k x, content (pv_snapshot v) !! k = Some x /\ prefixb (pv_prefix v) k = true /\ d = row_ref v (k, x).
Proof.
  intros Hv. unfold db_refs. rewrite list_elem_of_fmap. split.
  - intros ([k x] & -> & [Hk Hr]%elem_of_sorted_rows). rewrite (view_prefix v k x Hv Hk) in Hr. eauto.
  - intros (k & x & Hk & Hp & ->). exists (k, x). split; [done|]. apply elem_of_sorted_rows. split; [done|]. by rewrite (view_prefix v k x Hv Hk).
Qed.
Lemma db_refs_sorted v : view_ok v -> key_sorted (db_refs v).
Proof.
  intros Hv. apply sorted_refs; [apply sorted_rows_law|]. intros [k x] [Hk Hr]%elem_of_sorted_rows. cbn [fst]. by rewrite <- (view_prefix v k x Hv Hk).
Qed.
Lemma live_refs_sorted v : view_ok v -> key_sorted (live_refs v).
Proof. intros Hv. by apply key_sorted_filter, db_refs_sorted. Qed.
Lemma view_refs_sorted v : view_ok v -> key_sorted (view_refs v).
Proof. intros Hv. apply merge_sorted; [by apply live_refs_sorted|apply Hv|apply Hv]. Qed.

(** Rows between the bounds of a scan are the view's references within reach. *)
Lemma scan_range v opts k : is_bytes (pv_prefix v) -> is_bytes k ->
  Pebble.in_range (pv_prefix v ++ scan_lower opts) (scan_upper (pv_prefix v) opts) k
  = prefixb (pv_prefix v) k && in_reach opts (drop (length (pv_prefix v)) k).
Proof.
  intros Hp Hk. unfold Pebble.in_range. destruct (prefixb (pv_prefix v) k) eqn:E; cbn [andb].
  - destruct (prefixb_split _ _ E) as [x ->]. rewrite drop_app_length, scan_lower_reach. f_equal.
    + unfold bytes_leb. by rewrite bytes_compare_app_r.
    + unfold scan_upper, below_upper. destruct (opt_Upper opts) as [u|]; cbn; [unfold bytes_ltb; by rewrite bytes_compare_app_r|].
      pose proof (range_prefix (pv_prefix v) (pv_prefix v ++ x) Hp Hk) as H. rewrite E in H. by apply andb_true_iff in H as [_ H].
  - destruct (_ && _) eqn:H; [|done]. apply andb_true_iff in H as [Hlo Hup]. rewrite <- E. symmetry.
    unfold scan_upper in Hup. destruct (opt_Upper opts) as [u|]; [by rewrite (prefix_between _ _ _ _ Hlo Hup)|].
    assert (Hle : bytes_leb (pv_prefix v) k = true).
    { rewrite bytes_leb_le in *. eapply bytes_le_trans; [|exact Hlo]. rewrite <- (app_nil_r (pv_prefix v)) at 1.
      rewrite bytes_compare_app_r. by destruct (scan_lower opts). }
    by rewrite <- (range_prefix (pv_prefix v) k Hp Hk), Hle, Hup.
Qed.

(** ** The state of an iterator *)
Definition kept (v : projectionView) (opts : SearchOptions) (d : DocRef) : bool :=
  negb (replaced v d) && in_bounds opts (docref_OrderKey d).
Lemma row_kept_ref v opts x : row_kept v opts x = kept v opts (row_ref v x).
Proof. unfold row_kept, kept, replaced. by rewrite isInBounds_in_bounds. Qed.

(** The rows left, and those an error will hide. *)
Definition it_refs (v : projectionView) (it : projectionIterator) (lost : list DocRef) : list DocRef :=
  map (row_ref v) (pi_rows it) ++ lost.
Definition it_overlay (v : projectionView) (it : projectionIterator) : list DocRef := drop (pi_overlayPosition it) (pv_overlay v).
Definition rest_refs (v : projectionView) (it : projectionIterator) (lost : list DocRef) : list DocRef :=
  merge_refs (List.filter (kept v (pi_options it)) (it_refs v it lost))
    (List.filter (fun d => in_bounds (pi_options it) (docref_OrderKey d)) (it_overlay v it)).
Definition reach_count (opts : SearchOptions) (l : list DocRef) : Z :=
  Z.of_nat (length (List.filter (fun d => below_upper opts (docref_OrderKey d)) l)).
Lemma reach_count_nonneg opts l : 0 <= reach_count opts l.
Proof. unfold reach_count. lia. Qed.
(** The rows left to examine, less the one already taken. *)
Definition rest_cost (v : projectionView) (it : projectionIterator) : Z :=
  Z.of_nat (length (pi_rows it)) - (match pi_dbRow it with Some _ => 1 | None => 0 end)
  + reach_count (pi_options it) (it_overlay v it).

Record it_ok (v : projectionView) (it : projectionIterator) : Prop := {
  ik_open : pi_closed it = false;
  ik_overlay : key_sorted (pv_overlay v);
  ik_row : forall d, pi_dbRow it = Some d -> exists x rest, pi_rows it = x :: rest /\ d = row_ref v x /\ kept v (pi_options it) d = true;
}.

Lemma rest_cost_nonneg v it : it_ok v it -> 0 <= rest_cost v it.
Proof.
  intros Hi. unfold rest_cost, reach_count. destruct (pi_dbRow it) as [d|] eqn:E; [|lia].
  destruct (ik_row _ _ Hi d E) as (x & rest & -> & _). cbn [length]. lia.
Qed.

(** Enough budget, or the limit. *)
Definition advanced (w w' : work) (n : Z) : Prop := w_view w' = w_view w + n /\ w_iterator w' = w_iterator w + n.

Lemma next_row_cases v opts rs w : w_view w <= pv_maxExamined v ->
  (exists rows w', next_row Background v opts rs w = (rows, None, w', Some ErrWorkLimit) /\
     pv_maxExamined v < w_view w + Z.of_nat (length rs)) \/
  (exists w', next_row Background v opts rs w = ([], None, w', None) /\ advanced w w' (Z.of_nat (length rs)) /\
     w_view w' <= pv_maxExamined v /\ List.filter (kept v opts) (map (row_ref v) rs) = []) \/
  (exists sk x rest w', rs = sk ++ x :: rest /\ next_row Background v opts rs w = (x :: rest, Some (row_ref v x), w', None) /\
     advanced w w' (Z.of_nat (length sk) + 1) /\ w_view w' <= pv_maxExamined v /\ kept v opts (row_ref v x) = true /\
     List.filter (kept v opts) (map (row_ref v) rs) = List.filter (kept v opts) (map (row_ref v) (x :: rest))).
Proof.
  revert w; induction rs as [|x rs IH]; intros w Hw; cbn [next_row map].
  { right; left. exists w. split_and!; [done|split; cbn; lia|done|done]. }
  cbn [Background]. unfold charge, poll. cbn [w_view w_iterator w_polls]. destruct (Z.ltb_spec (pv_maxExamined v) (w_view w + 1)).
  { left. do 2 eexists. split; [done|]. cbn [length]. lia. }
  rewrite row_kept_ref. cbn [List.filter]. destruct (kept v opts (row_ref v x)) eqn:E.
  { right; right. exists [], x, rs. eexists. split; [done|]. split; [done|]. cbn [List.filter map]. rewrite E. split_and!; [split|..]; cbn; try done; lia. }
  destruct (IH {| w_view := w_view w + 1; w_iterator := w_iterator w + 1; w_polls := S (w_polls w) |})
    as [(rows & w' & -> & H1)|[(w' & -> & [H1 H2] & H3 & H4)|(sk & y & rest & w' & -> & -> & [H1 H2] & H3 & H4 & H5)]]; cbn [w_view w_iterator] in *; [lia|..].
  - left. do 2 eexists. split; [done|]. cbn [length]. lia.
  - right; left. exists w'. split_and!; [done|split; cbn [length]; lia|done|done].
  - right; right. exists (x :: sk), y, rest, w'. split_and!; [done|done|split; cbn [length]; lia|done|done|done].
Qed.

Lemma next_overlay_cases v opts l p w : key_sorted l -> w_view w <= pv_maxExamined v ->
  (exists p' w', next_overlay Background v opts l p w = (p', None, w', Some ErrWorkLimit) /\
     pv_maxExamined v < w_view w + reach_count opts l) \/
  (exists k w', next_overlay Background v opts l p w = (p + k, None, w', None)%nat /\ advanced w w' (reach_count opts l) /\
     w_view w' <= pv_maxExamined v /\ List.filter (fun d => in_bounds opts (docref_OrderKey d)) l = [] /\
     List.filter (fun d => in_bounds opts (docref_OrderKey d)) (drop k l) = [] /\ reach_count opts (drop k l) = 0) \/
  (exists sk d rest w', l = sk ++ d :: rest /\ next_overlay Background v opts l p w = (p + length sk, Some d, w', None)%nat /\
     advanced w w' (Z.of_nat (length sk)) /\ w_view w' <= pv_maxExamined v /\ in_bounds opts (docref_OrderKey d) = true /\
     List.filter (fun d => in_bounds opts (docref_OrderKey d)) l = d :: List.filter (fun d => in_bounds opts (docref_OrderKey d)) rest /\
     reach_count opts l = Z.of_nat (length sk) + 1 + reach_count opts rest).
Proof.
  intros Hs; revert p w; induction Hs as [|d l Hl IH Hd]; intros p w Hw; cbn [next_overlay].
  { right; left. exists 0%nat, w. rewrite Nat.add_0_r. split_and!; try done. unfold advanced, reach_count. cbn. lia. }
  cbn [Background].
  assert (Eu : match opt_Upper opts with Some upper => bytes_leb upper (docref_OrderKey d) | None => false end
               = negb (below_upper opts (docref_OrderKey d))).
  { unfold below_upper. destruct (opt_Upper opts); [apply bytes_leb_ltb|done]. }
  rewrite Eu, isInBounds_in_bounds. destruct (below_upper opts (docref_OrderKey d)) eqn:Ed; cbn [negb].
  2:{ right; left. exists 0%nat. eexists. rewrite Nat.add_0_r. split; [done|].
      pose proof (below_upper_sorted opts d l ltac:(by constructor) Ed) as E.
      assert (Hz : reach_count opts (d :: l) = 0) by (unfold reach_count; by rewrite E).
      assert (Hn : List.filter (fun d => in_bounds opts (docref_OrderKey d)) (d :: l) = []).
      { apply filter_none. intros e He. destruct (in_bounds opts (docref_OrderKey e)) eqn:Eb; [|done]. apply in_bounds_below in Eb.
        assert (e ∈ List.filter (fun e => below_upper opts (docref_OrderKey e)) (d :: l)) as Hin by (by apply elem_of_filterb).
        rewrite E in Hin. by apply elem_of_nil in Hin. }
      rewrite Hz. split_and!; try done. split; cbn; lia. }
  assert (Hcount : forall l', reach_count opts (d :: l') = 1 + reach_count opts l') by (intros l'; unfold reach_count; cbn [List.filter]; rewrite Ed; cbn [length]; lia).
  destruct (in_bounds opts (docref_OrderKey d)) eqn:Eb.
  { right; right. exists [], d, l. eexists. rewrite Nat.add_0_r. split; [done|]. split; [done|]. cbn [List.filter length]. rewrite Eb, Hcount.
    split_and!; try done; unfold advanced; cbn; lia. }
  unfold charge, poll. cbn [w_view w_iterator w_polls]. rewrite Hcount. pose proof (Nat2Z.is_nonneg (length (List.filter (fun d => below_upper opts (docref_OrderKey d)) l))).
  fold (reach_count opts l) in *. destruct (Z.ltb_spec (pv_maxExamined v) (w_view w + 1)).
  { left. do 2 eexists. split; [done|]. lia. }
  destruct (IH (S p) {| w_view := w_view w + 1; w_iterator := w_iterator w + 1; w_polls := S (w_polls w) |})
    as [(p' & w' & -> & H1)|[(k & w' & -> & [H1 H2] & H3 & H4 & H5 & H6)|(sk & y & rest & w' & -> & -> & [H1 H2] & H3 & H4 & H5 & H6)]];
    cbn [w_view w_iterator] in *; [lia|..].
  - left. do 2 eexists. split; [done|]. lia.
  - right; left. exists (S k), w'. cbn [List.filter drop]. rewrite Eb. split_and!; try done; [by rewrite <- Nat.add_succ_comm|split; lia].
  - right; right. exists (d :: sk), y, rest, w'. cbn [List.filter length]. rewrite Eb.
    split_and!; try done; [by rewrite <- Nat.add_succ_comm|split; lia|lia].
Qed.

(** The first half of Next: the row of the database to offer, if there is one. *)
Definition taken (dbRow : option DocRef) : Z := match dbRow with Some _ => 1 | None => 0 end.
Definition offers (v : projectionView) (opts : SearchOptions) (rs : list row) (dbRow : option DocRef) : Prop :=
  match rs with
  | [] => dbRow = None
  | x :: _ => dbRow = Some (row_ref v x) /\ kept v opts (row_ref v x) = true
  end.
Definition first_half (v : projectionView) (it : projectionIterator) (w : work) :=
  match pi_dbRow it with
  | Some d => (pi_rows it, Some d, w, None)
  | None => next_row Background v (pi_options it) (pi_rows it) w
  end.

Lemma first_half_cases v it w : it_ok v it -> w_view w <= pv_maxExamined v ->
  (exists rows w', first_half v it w = (rows, None, w', Some ErrWorkLimit) /\
     pv_maxExamined v < w_view w + Z.of_nat (length (pi_rows it))  - taken (pi_dbRow it)) \/
  (exists rows dbRow w' n, first_half v it w = (rows, dbRow, w', None) /\ offers v (pi_options it) rows dbRow /\
     advanced w w' n /\ 0 <= n /\ w_view w' <= pv_maxExamined v /\
     List.filter (kept v (pi_options it)) (map (row_ref v) (pi_rows it)) = List.filter (kept v (pi_options it)) (map (row_ref v) rows) /\
     Z.of_nat (length (pi_rows it)) - taken (pi_dbRow it) = n + Z.of_nat (length rows) - taken dbRow).
Proof.
  intros Hi Hw. unfold first_half. destruct (pi_dbRow it) as [d|] eqn:E.
  - right. destruct (ik_row _ _ Hi d E) as (x & rest & Er & -> & Hk). exists (pi_rows it), (Some (row_ref v x)), w, 0.
    rewrite Er. unfold advanced. cbn. split_and!; try done; lia.
  - cbn [taken]. destruct (next_row_cases v (pi_options it) (pi_rows it) w Hw)
      as [(rows & w' & -> & H)|[(w' & -> & H1 & H2 & H3)|(sk & x & rest & w' & Er & -> & H1 & H2 & H3 & H4)]].
    + left. do 2 eexists. split; [done|lia].
    + right. exists [], None, w', (Z.of_nat (length (pi_rows it))). split_and!; try done; cbn; lia.
    + right. exists (x :: rest), (Some (row_ref v x)), w', (Z.of_nat (length sk) + 1). rewrite <- H4.
      split_and!; try done; [lia|]. rewrite Er, length_app. cbn [length taken]. lia.
Qed.

(** The merge of what is offered. *)
Lemma offered_merge v opts rows dbRow overlay lost : offers v opts rows dbRow -> (rows = [] -> lost = []) ->
  merge_refs (List.filter (kept v opts) (map (row_ref v) rows ++ lost)) overlay =
  match overlay with
  | o :: overlay' =>
      if overlay_first (Some o) dbRow then o :: merge_refs (List.filter (kept v opts) (map (row_ref v) rows ++ lost)) overlay'
      else match dbRow with Some d => d :: merge_refs (List.filter (kept v opts) (map (row_ref v) (tail rows) ++ lost)) overlay | None => [] end
  | [] => match dbRow with Some d => d :: List.filter (kept v opts) (map (row_ref v) (tail rows) ++ lost) | None => [] end
  end.
Proof.
  unfold offers. destruct rows as [|x rows]; [intros -> H; rewrite (H eq_refl); by destruct overlay|].
  intros [-> Hk] _. cbn [map List.filter tail app].
  rewrite Hk. destruct overlay as [|o overlay]; [done|]. rewrite merge_cons. done.
Qed.

Definition next_outcome (v : projectionView) (it : projectionIterator) (lost : list DocRef) (w : work) (it' : projectionIterator)
    (r : res store_error (option DocRef)) : Prop :=
  (r = Err ErrWorkLimit /\ pv_maxExamined v - pv_examined v < rest_cost v it) \/
  (exists e, pi_error it = Some e /\ r = Err (ErrBackend e)) \/
  (exists n, 0 <= n /\ w_view w = pv_examined v + n /\ w_view w <= pv_maxExamined v /\ pi_examined it' = pi_examined it + n /\
     it_ok v it' /\ pi_options it' = pi_options it /\ pi_error it' = pi_error it /\ rest_cost v it' = rest_cost v it - n /\
     match rest_refs v it lost with
     | [] => r = Ok None /\ rest_refs v it' lost = [] /\ rest_cost v it' = 0 /\ pi_emitted it' = pi_emitted it /\ pi_error it = None
     | d :: ds => r = Ok (Some d) /\ rest_refs v it' lost = ds /\ pi_emitted it' = pi_emitted it + 1
     end).

Lemma drop_add {A} (l : list A) n m : drop (n + m) l = drop m (drop n l).
Proof. by rewrite drop_drop. Qed.

(** The second half: the database offers its row, the overlay is searched and the
    smaller of the two is returned. *)
Lemma second_half v it rows dbRow lost w n :
  it_ok v it -> advanced {| w_view := pv_examined v; w_iterator := pi_examined it; w_polls := 1 |} w n -> 0 <= n ->
  w_view w <= pv_maxExamined v -> offers v (pi_options it) rows dbRow -> (rows = [] -> pi_error it = None /\ lost = []) ->
  List.filter (kept v (pi_options it)) (map (row_ref v) (pi_rows it)) = List.filter (kept v (pi_options it)) (map (row_ref v) rows) ->
  Z.of_nat (length (pi_rows it)) - taken (pi_dbRow it) = n + Z.of_nat (length rows) - taken dbRow ->
  exists w' it' r,
    (let '(position, overlay, w, err) :=
       next_overlay Background v (pi_options it) (it_overlay v it) (pi_overlayPosition it) w in
     let stop w e := (set_examined v w, set_iterator it rows position dbRow (pi_emitted it) w, Err e) in
     match err with
     | Some e => stop w e
     | None =>
         if overlay_first overlay dbRow then
           match charge (pv_maxExamined v) w with
           | (w, Some e) => stop w e
           | (w, None) => (set_examined v w, set_iterator it rows (S position) dbRow (pi_emitted it + 1) w, Ok overlay)
           end
         else match dbRow with
         | Some d => (set_examined v w, set_iterator it (tail rows) position None (pi_emitted it + 1) w, Ok (Some d))
         | None => (set_examined v w, set_iterator it rows position dbRow (pi_emitted it) w, Ok None)
         end
     end) = (set_examined v w', it', r) /\ next_outcome v it lost w' it' r.
Proof.
  intros Hi [Hw1 Hw2] Hn Hw Ho Herr Hf Hc. cbn [w_view w_iterator] in *.
  assert (Hrow : forall d, dbRow = Some d -> exists x rest, rows = x :: rest /\ d = row_ref v x /\ kept v (pi_options it) d = true).
  { intros d ->. destruct rows as [|x rest]; [done|]. destruct Ho as [[= ->] Hk]. eauto. }
  assert (Hcost : rest_cost v it = n + Z.of_nat (length rows) - taken dbRow + reach_count (pi_options it) (it_overlay v it))
    by (unfold rest_cost; fold (taken (pi_dbRow it)); lia).
  assert (Hnn : 0 <= Z.of_nat (length rows) - taken dbRow) by (destruct rows; cbn in *; [by rewrite Ho|destruct Ho as [-> _]; cbn; lia]).
  assert (Hov : key_sorted (it_overlay v it)) by (apply key_sorted_drop, Hi).
  pose proof (reach_count_nonneg (pi_options it) (it_overlay v it)) as Hrc.
  unfold next_outcome, rest_refs, it_refs. rewrite List.filter_app, Hf, <- List.filter_app, (offered_merge _ _ _ _ _ _ Ho) by (intros E; by apply Herr).
  destruct (next_overlay_cases v (pi_options it) (it_overlay v it) (pi_overlayPosition it) w Hov Hw)
    as [(p' & w' & -> & H1)|[(k & w' & -> & [H1 H2] & H3 & H4 & H5 & H6)|(sk & o & rest & w' & El & -> & [H1 H2] & H3 & H4 & H5 & H6)]].
  - eexists _, _, _. split; [done|]. left. split; [done|]. rewrite Hcost. lia.
  - rewrite H4. cbn [overlay_first]. destruct dbRow as [d|].
    + eexists _, _, _. split; [done|]. right; right. exists (n + reach_count (pi_options it) (it_overlay v it)).
      unfold rest_cost, it_overlay in *. cbn [set_iterator pi_rows pi_error pi_options pi_dbRow pi_examined pi_emitted pi_overlayPosition].
      rewrite drop_add, H5, H6, merge_nil_r. destruct rows as [|x rows]; [done|]. cbn [length tail taken] in *.
      split_and!; try done; try lia. split; [apply Hi|apply Hi|done].
    + eexists _, _, _. split; [done|]. right; right. exists (n + reach_count (pi_options it) (it_overlay v it)).
      assert (rows = []) as -> by (destruct rows; [done|by destruct Ho]).
      unfold rest_cost, it_overlay in *. cbn [set_iterator pi_rows pi_error pi_options pi_dbRow pi_examined pi_emitted pi_overlayPosition].
      rewrite drop_add, H5, H6. cbn [length taken] in *.
      split_and!; try done; try lia; [split; [apply Hi|apply Hi|done]|destruct (Herr eq_refl) as [_ ->]; done|by apply Herr].
  - rewrite H5. assert (Edrop : drop (length sk) (it_overlay v it) = o :: rest) by (by rewrite El, drop_app_length).
    destruct (overlay_first (Some o) dbRow) eqn:Eo.
    + unfold charge. rewrite H6 in Hcost. destruct (Z.ltb_spec (pv_maxExamined v) (w_view w' + 1)).
      { eexists _, _, _. split; [done|]. left. split; [done|]. pose proof (reach_count_nonneg (pi_options it) rest). lia. }
      eexists _, _, _. split; [done|]. right; right. exists (n + Z.of_nat (length sk) + 1).
      assert (E1 : drop (S (pi_overlayPosition it + length sk)) (pv_overlay v) = rest).
      { rewrite <- Nat.add_1_r, !drop_add. fold (it_overlay v it). by rewrite Edrop. }
      unfold rest_cost, it_overlay.
      cbn [set_iterator pi_rows pi_error pi_options pi_dbRow pi_examined pi_emitted pi_overlayPosition w_view w_iterator].
      rewrite E1. fold (taken dbRow). fold (taken (pi_dbRow it)). fold (it_overlay v it). rewrite H6.
      split_and!; try done; try lia. split; [apply Hi|apply Hi|exact Hrow].
    + destruct dbRow as [d|]; [|done].
      eexists _, _, _. split; [done|]. right; right. exists (n + Z.of_nat (length sk)).
      destruct rows as [|x rows]; [done|].
      unfold rest_cost, it_overlay.
      cbn [set_iterator pi_rows pi_error pi_options pi_dbRow pi_examined pi_emitted pi_overlayPosition w_view w_iterator tail length taken] in *.
      fold (taken (pi_dbRow it)). rewrite drop_add. fold (it_overlay v it). rewrite Edrop, H6.
      assert (Eo1 : reach_count (pi_options it) (o :: rest) = 1 + reach_count (pi_options it) rest).
      { unfold reach_count. cbn [List.filter]. rewrite (in_bounds_below _ _ H4). cbn [length]. lia. }
      rewrite Eo1. cbn [List.filter]. rewrite H4. split_and!; try done; try lia. split; [apply Hi|apply Hi|done].
Qed.

Definition limit_reached (it : projectionIterator) : bool :=
  (0 <? opt_Limit (pi_options it)) && (opt_Limit (pi_options it) <=? pi_emitted it).

Lemma Next_cases v it lost : it_ok v it -> (pi_error it = None -> lost = []) -> limit_reached it = false -> pv_examined v <= pv_maxExamined v ->
  exists w it' r, Next Background v it = (set_examined v w, it', r) /\ next_outcome v it lost w it' r.
Proof.
  intros Hi Hlost Hl He. unfold Next. rewrite (ik_open _ _ Hi). cbn [Background]. fold (limit_reached it). rewrite Hl.
  fold (first_half v it {| w_view := pv_examined v; w_iterator := pi_examined it; w_polls := 1 |}). fold (it_overlay v it).
  destruct (first_half_cases v it {| w_view := pv_examined v; w_iterator := pi_examined it; w_polls := 1 |} Hi He)
    as [(rows & w & -> & H)|(rows & dbRow & w & n & -> & Ho & Ha & Hn & Hw & Hf & Hc)].
  - eexists _, _, _. split; [done|]. left. split; [done|]. cbn [w_view] in H. unfold rest_cost. fold (taken (pi_dbRow it)).
    pose proof (reach_count_nonneg (pi_options it) (it_overlay v it)). lia.
  - destruct (match rows with [] => pi_error it | _ => None end) as [e|] eqn:Ee.
    + eexists _, _, _. split; [done|]. right; left. exists e. by destruct rows.
    + apply (second_half v it rows dbRow lost w n); try done. intros ->. auto.
Qed.

(** ** Reading a scan to its end *)
Inductive scan_end := ScanDone | ScanFailed (e : store_error).
Fixpoint drain (fuel : nat) (v : projectionView) (it : projectionIterator) : option (list DocRef * scan_end) :=
  match fuel with
  | O => None
  | S fuel =>
      match Next Background v it with
      | (_, _, Err e) => Some ([], ScanFailed e)
      | (_, _, Ok None) => Some ([], ScanDone)
      | (v, it, Ok (Some d)) => match drain fuel v it with Some (ds, e) => Some (d :: ds, e) | None => None end
      end
  end.

(** How many references a limit leaves. *)
Definition room (it : projectionIterator) (l : list DocRef) : list DocRef :=
  if 0 <? opt_Limit (pi_options it) then take (Z.to_nat (opt_Limit (pi_options it) - pi_emitted it)) l else l.

Lemma room_none it l : limit_reached it = true -> room it l = [].
Proof.
  unfold limit_reached, room. intros [-> H%Z.leb_le]%andb_true_iff.
  replace (Z.to_nat (opt_Limit (pi_options it) - pi_emitted it)) with 0%nat by lia. apply take_0.
Qed.
Lemma room_some it it' d ds : limit_reached it = false -> pi_options it' = pi_options it -> pi_emitted it' = pi_emitted it + 1 ->
  room it (d :: ds) = d :: room it' ds.
Proof.
  unfold limit_reached, room. intros H -> ->. destruct (0 <? opt_Limit (pi_options it)); [|done]. cbn in H. apply Z.leb_gt in H.
  replace (Z.to_nat (opt_Limit (pi_options it) - pi_emitted it)) with (S (Z.to_nat (opt_Limit (pi_options it) - (pi_emitted it + 1)))) by lia.
  done.
Qed.

Lemma set_examined_frame v w it lost : rest_refs (set_examined v w) it lost = rest_refs v it lost /\ rest_cost (set_examined v w) it = rest_cost v it
  /\ (it_ok v it -> it_ok (set_examined v w) it).
Proof. split_and!; [done|done|]. intros [H1 H2 H3]. by split. Qed.

Lemma drain_spec fuel v it lost : it_ok v it -> (pi_error it = None -> lost = []) -> pv_examined v <= pv_maxExamined v -> (length (rest_refs v it lost) < fuel)%nat ->
  exists out e, drain fuel v it = Some (out, e) /\ out `prefix_of` room it (rest_refs v it lost) /\
    match e with
    | ScanDone => out = room it (rest_refs v it lost)
    | ScanFailed e => (e = ErrWorkLimit /\ pv_maxExamined v - pv_examined v < rest_cost v it) \/ (exists m, pi_error it = Some m /\ e = ErrBackend m)
    end.
Proof.
  revert v it; induction fuel as [|fuel IH]; intros v it Hi Hlost He Hf; [lia|]. cbn [drain].
  destruct (limit_reached it) eqn:Hl.
  { unfold Next. rewrite (ik_open _ _ Hi). cbn [Background]. fold (limit_reached it). rewrite Hl, (room_none _ _ Hl).
    exists [], ScanDone. done. }
  destruct (Next_cases v it lost Hi Hlost Hl He) as (w & it' & r & -> & H).
  destruct H as [[-> Hlt]|[(m & Em & ->)|(n & Hn & Hw & Hmax & Hex & Hi' & Hopt & Herr & Hcost & H)]].
  - exists [], (ScanFailed ErrWorkLimit). split_and!; [done|apply prefix_nil|by left].
  - exists [], (ScanFailed (ErrBackend m)). split_and!; [done|apply prefix_nil|right; eauto].
  - destruct (rest_refs v it lost) as [|d ds].
    + destruct H as (-> & _). exists [], ScanDone. unfold room. rewrite take_nil. by destruct (0 <? _).
    + destruct H as (-> & Hr & Hem). destruct (set_examined_frame v w it' lost) as (F1 & F2 & F3).
      destruct (IH (set_examined v w) it' (F3 Hi')) as (out & e & -> & Hp & Hend); [by rewrite Herr|done|rewrite F1, Hr; cbn in Hf; lia|].
      rewrite F1, Hr in *. rewrite F2 in Hend. rewrite (room_some it it' d ds Hl Hopt Hem). exists (d :: out), e.
      split; [done|]. split; [by apply prefix_cons|]. destruct e as [|e]; [by rewrite Hend|].
      destruct Hend as [[-> Hlt]|(m & Em & ->)]; [left; split; [done|cbn in Hlt; lia]|right; exists m; by rewrite <- Herr].
Qed.

(** ** Opening a scan *)
Definition scan_count (v : projectionView) (opts : SearchOptions) : Z :=
  Z.of_nat (length (List.filter (fun d => in_reach opts (docref_OrderKey d)) (db_refs v)))
  + Z.of_nat (length (List.filter (fun d => in_reach opts (docref_OrderKey d)) (pv_overlay v))).

Lemma filter_filter_ext {A} (P Q R : A -> bool) l : (forall x, P x = Q x && R x) -> List.filter P l = List.filter Q (List.filter R l).
Proof.
  intros H. induction l as [|x l IH]; cbn; [done|]. rewrite H, IH. destruct (R x); cbn; [by rewrite andb_true_r|by rewrite andb_false_r].
Qed.
Lemma in_bounds_reach opts key : in_bounds opts key = in_bounds opts key && in_reach opts key.
Proof.
  unfold in_bounds, in_reach. destruct (bytes_leb _ _); cbn; [|done]. destruct (opt_StartAfter opts) as [a|]; cbn.
  - rewrite bytes_leb_ltb. destruct (bytes_ltb a key) eqn:E; cbn; [|done]. assert (bytes_ltb key a = false) as ->.
    { destruct (bytes_ltb key a) eqn:E'; [|done]. apply bytes_ltb_lt in E, E'. pose proof (bytes_compare_trans _ _ _ E E') as H.
      by rewrite bytes_compare_refl in H. }
    cbn. by destruct (match opt_Upper opts with Some _ => _ | None => _ end).
  - by destruct (match opt_Upper opts with Some _ => _ | None => _ end).
Qed.

(** The rows met are the first of the range, all without an error. *)
Lemma sorted_initial (l rs : list row) : StronglySorted row_lt l -> StronglySorted row_lt rs -> (forall x, x ∈ rs -> x ∈ l) ->
  (forall x y, x ∈ rs -> y ∈ l -> row_lt y x -> y ∈ rs) -> exists lost, l = rs ++ lost.
Proof.
  assert (Hirr : forall x, ~ row_lt x x) by (intros x; unfold row_lt; by rewrite bytes_compare_refl).
  intros Hl Hrs; revert l Hl; induction Hrs as [|x rs Hrs IH Hx]; intros l Hl Hsub Hdown; [by exists l|].
  destruct Hl as [|y l Hl Hy]; [by specialize (Hsub x ltac:(by left)); apply elem_of_nil in Hsub|].
  rewrite Forall_forall in Hx, Hy. assert (x = y) as ->.
  { assert (Hin : x ∈ y :: l) by (apply Hsub; by left). apply elem_of_cons in Hin as [->|Hin]; [done|]. specialize (Hy x Hin).
    assert (Hyx : y ∈ x :: rs) by (eapply Hdown; [by left|by left|done]). apply elem_of_cons in Hyx as [->|Hyx]; [done|].
    specialize (Hx y Hyx). unfold row_lt in *. pose proof (bytes_compare_trans _ _ _ Hx Hy) as H. by rewrite bytes_compare_refl in H. }
  destruct (IH l Hl) as [lost ->].
  - intros z Hz. assert (Hin : z ∈ y :: l) by (apply Hsub; by right). apply elem_of_cons in Hin as [->|Hin]; [|done].
    destruct (Hirr y). by apply Hx.
  - intros z u Hz Hu Hlt. assert (Hin : u ∈ y :: rs) by (eapply Hdown; [right; exact Hz|by right|done]).
    apply elem_of_cons in Hin as [->|Hin]; [|done]. destruct (Hirr y). by apply Hy.
  - by exists lost.
Qed.
Lemma iter_rows d lower upper rs e c : db_Iter d lower upper = Ok (rs, e, c) ->
  exists lost, sorted_rows (content d) lower upper = rs ++ lost /\ (e = None -> lost = []).
Proof.
  intros (Hs & Hin & Hall & Hdown)%db_Iter_law. destruct (sorted_rows_law (content d) lower upper) as (Ls & Lin & Lall).
  destruct (sorted_initial _ rs Ls Hs) as [lost El].
  - intros [k v] Hx. destruct (Hin _ Hx). by apply Lall.
  - intros x [k v] Hx Hy Hlt. destruct (Lin _ Hy). by eapply Hdown.
  - exists lost. split; [done|]. intros He. destruct lost as [|[k v] lost]; [done|]. exfalso.
    assert (Hk : (k, v) ∈ sorted_rows (content d) lower upper) by (rewrite El; set_solver). destruct (Lin _ Hk) as [Hc Hr].
    specialize (Hall He k v Hc Hr). rewrite El in Ls. clear -Ls Hall. induction rs as [|x rs IH]; [by apply elem_of_nil in Hall|].
    cbn in Ls. apply StronglySorted_inv in Ls as [Ls Hx]. apply elem_of_cons in Hall as [<-|Hin]; [|by apply IH].
    rewrite Forall_forall in Hx. assert ((k, v) ∈ rs ++ (k, v) :: lost) as Hk by set_solver. specialize (Hx _ Hk). unfold row_lt in Hx.
    by rewrite bytes_compare_refl in Hx.
Qed.

Lemma scan_refs v opts : view_ok v ->
  map (row_ref v) (sorted_rows (content (pv_snapshot v)) (pv_prefix v ++ scan_lower opts) (scan_upper (pv_prefix v) opts))
  = List.filter (fun d => in_reach opts (docref_OrderKey d)) (db_refs v).
Proof.
  intros Hv. assert (Hr : forall k x, content (pv_snapshot v) !! k = Some x ->
    Pebble.in_range (pv_prefix v ++ scan_lower opts) (scan_upper (pv_prefix v) opts) k
    = prefixb (pv_prefix v) k && in_reach opts (drop (length (pv_prefix v)) k)).
  { intros k x Hk. apply scan_range; [apply Hv|by eapply Hv]. }
  apply key_sorted_unique.
  - apply sorted_refs; [apply sorted_rows_law|]. intros [k x] [Hk H]%elem_of_sorted_rows. rewrite (Hr k x Hk) in H.
    by apply andb_true_iff in H as [H _].
  - by apply key_sorted_filter, db_refs_sorted.
  - intros d. rewrite elem_of_filterb, (elem_of_db_refs v d Hv), list_elem_of_fmap. split.
    + intros ([k x] & -> & [Hk H]%elem_of_sorted_rows). rewrite (Hr k x Hk) in H. apply andb_true_iff in H as [Hp Hreach].
      split; [eauto 6|done].
    + intros [(k & x & Hk & Hp & ->) Hreach]. exists (k, x). split; [done|]. apply elem_of_sorted_rows. split; [done|].
      rewrite (Hr k x Hk), Hp. exact Hreach.
Qed.

Lemma kept_reach v opts l :
  List.filter (kept v opts) (List.filter (fun d => in_reach opts (docref_OrderKey d)) l)
  = List.filter (fun d => in_bounds opts (docref_OrderKey d)) (List.filter (fun d => negb (replaced v d)) l).
Proof.
  rewrite <- (filter_filter_ext (kept v opts)).
  - apply filter_filter_ext. intros d. apply andb_comm.
  - intros d. unfold kept. rewrite <- andb_assoc. f_equal. apply in_bounds_reach.
Qed.

Lemma Scan_spec v opts it : view_ok v -> Scan Background v opts = Ok it ->
  it_ok v it /\ pi_options it = opts /\ pi_emitted it = 0 /\ pi_examined it = 0 /\
  exists lost, (pi_error it = None -> lost = []) /\
    rest_refs v it lost = List.filter (fun d => in_bounds opts (docref_OrderKey d)) (view_refs v) /\
    rest_cost v it <= scan_count v opts /\ (pi_error it = None -> rest_cost v it = scan_count v opts).
Proof.
  intros Hv H. unfold Scan in H. cbn [Background] in H. destruct (pv_closed v); [done|].
  destruct (db_Iter _ _ _) as [[[rs err] close]|] eqn:E; [|done]. apply Ok_inj in H as <-.
  destruct (iter_rows _ _ _ _ _ _ E) as (lost & El & Hlost). pose proof (scan_refs v opts Hv) as Hrefs. rewrite El, map_app in Hrefs.
  split_and!; [split; [done|apply Hv|done]|done..|]. exists (map (row_ref v) lost). unfold rest_refs, rest_cost, it_refs, it_overlay, reach_count.
  cbn [pi_error pi_rows pi_options pi_overlayPosition pi_dbRow]. rewrite Hrefs, kept_reach, (search_position_spec _ _ (vk_overlay _ Hv)).
  assert (Eo : forall l, List.filter (fun d => below_upper opts (docref_OrderKey d)) (List.filter (fun d => bytes_leb (scan_lower opts) (docref_OrderKey d)) l)
    = List.filter (fun d => in_reach opts (docref_OrderKey d)) l).
  { intros l. symmetry. apply filter_filter_ext. intros d. by rewrite scan_lower_reach, andb_comm. }
  assert (Hlen : Z.of_nat (length rs) + Z.of_nat (length lost)
    = Z.of_nat (length (List.filter (fun d => in_reach opts (docref_OrderKey d)) (db_refs v)))).
  { rewrite <- Hrefs, length_app, !length_map. lia. }
  rewrite Eo. unfold scan_count. split_and!.
  - intros He. by rewrite (Hlost He).
  - unfold view_refs. rewrite filter_merge; [|by apply live_refs_sorted|apply Hv|apply Hv]. f_equal. symmetry. apply filter_filter_ext.
    intros d. pose proof (in_bounds_reach opts (docref_OrderKey d)) as Hb. rewrite scan_lower_reach in Hb.
    destruct (in_bounds _ _), (bytes_leb _ _); cbn in *; congruence.
  - lia.
  - intros He. rewrite (Hlost He) in Hlen. cbn in Hlen. lia.
Qed.

(** ** Opening a view *)
Definition pending_of (s : PebbleStore) (r : QueryIndexRef) : gmap string projectionOp :=
  default ∅ (ps_projectionPending s !! r) ∪ default ∅ (ps_projectionFlushing s !! r).
Definition overlay_refs (ops : list (string * projectionOp)) : list DocRef := concat (map posting_refs ops).

(** The view of what the store holds, whatever the order of its maps. *)
Definition base_view (s : PebbleStore) (r : QueryIndexRef) : projectionView := {|
  pv_snapshot := ps_db s; pv_prefix := projectionPrefix "posting" r; pv_replacements := pending_of s r;
  pv_overlay := insertion_sort key_less (overlay_refs (map_to_list (pending_of s r))); pv_closed := false;
  pv_examined := 0; pv_maxExamined := 0 |}.
Definition store_refs (s : PebbleStore) (r : QueryIndexRef) : list DocRef := view_refs (base_view s r).

Lemma collect_lookup budget ops m size polls m' size' polls' :
  collect Background budget ops m size polls = Ok (m', size', polls') -> m' = m ∪ list_to_map ops.
Proof.
  revert m size polls; induction ops as [|[id op] ops IH]; intros m size polls H; cbn [collect] in H.
  - injection H as <- <- <-. cbn. by rewrite (right_id_L ∅ (∪)).
  - cbn [Background] in H. cbn [list_to_map foldr fst snd]. case_bool_decide as Hin.
    + rewrite (IH _ _ _ H). apply map_eq. intros i. rewrite !lookup_union. destruct (m !! i) eqn:E; [by rewrite !union_Some_l|].
      rewrite lookup_insert_ne; [done|]. intros <-. destruct Hin. congruence.
    + destruct (_ || _); [done|]. rewrite (IH _ _ _ H). apply eq_None_not_Some in Hin.
      rewrite <- insert_union_l, insert_union_r by done. done.
Qed.
Lemma list_to_map_range (m : gmap string projectionOp) : list_to_map (range m) = m.
Proof.
  rewrite <- (list_to_map_to_list m) at 2. symmetry. apply list_to_map_proper; [apply NoDup_fst_map_to_list|]. by rewrite range_perm.
Qed.

Lemma elem_of_overlay ops d : d ∈ overlay_refs ops <-> exists op, (docref_ID d, op) ∈ ops /\ docref_OrderKey d ∈ op_keys op.
Proof.
  unfold overlay_refs. rewrite list_elem_of_In, in_concat. setoid_rewrite <- list_elem_of_In. split.
  - intros (l & ([id op] & -> & Hop)%list_elem_of_fmap & Hd). unfold posting_refs in Hd.
    apply list_elem_of_fmap in Hd as (key & -> & Hk). by exists op.
  - intros (op & Hop & Hk). exists (posting_refs (docref_ID d, op)). split; [by apply list_elem_of_fmap_2|].
    unfold posting_refs. cbn. apply list_elem_of_fmap. exists (docref_OrderKey d). by destruct d.
Qed.

Section Opened.
Context (s : PebbleStore) (r : QueryIndexRef) (Hinv : store_inv s).

Lemma pending_of_lookup doc : pending_of s r !! doc =
  match lookup2 (ps_projectionPending s) r doc with Some op => Some op | None => lookup2 (ps_projectionFlushing s) r doc end.
Proof.
  unfold pending_of, lookup2. rewrite lookup_union. assert (E : forall o : option (gmap string projectionOp), default ∅ o !! doc = o ≫= lookup doc) by (by intros []).
  rewrite !E. destruct (_ ≫= _); [by rewrite union_Some_l|apply (left_id_L None (∪))].
Qed.
Lemma pending_of_ok doc op : pending_of s r !! doc = Some op -> op_ok r doc op.
Proof.
  rewrite pending_of_lookup. destruct (lookup2 (ps_projectionPending s) r doc) eqn:E.
  - intros [= ->]. by eapply mem_ok_lookup2, E; apply Hinv.
  - apply mem_ok_lookup2, Hinv.
Qed.
Lemma overlay_key_of ops d : ops ≡ₚ map_to_list (pending_of s r) -> d ∈ overlay_refs ops -> key_of (docref_ID d) (docref_OrderKey d).
Proof.
  intros Hp (op & Hop & Hk)%elem_of_overlay. rewrite Hp, elem_of_map_to_list in Hop. pose proof (ok_keys _ _ _ (pending_of_ok _ _ Hop)) as H.
  rewrite Forall_forall in H. by apply H.
Qed.
Lemma overlay_NoDup ops : ops ≡ₚ map_to_list (pending_of s r) -> NoDup (overlay_refs ops).
Proof.
  intros Hp. assert (Hn : NoDup ops.*1) by (rewrite Hp; apply NoDup_fst_map_to_list).
  assert (Hk : forall id op, (id, op) ∈ ops -> NoDup (op_keys op)).
  { intros id op Hop. rewrite Hp, elem_of_map_to_list in Hop. apply (ok_nodup _ _ _ (pending_of_ok _ _ Hop)). }
  clear Hp. induction ops as [|[id op] ops IH]; [constructor|]. cbn in Hn. apply NoDup_cons in Hn as [Hid Hn].
  unfold overlay_refs. cbn [map concat]. fold (overlay_refs ops). apply NoDup_app. split_and!.
  - unfold posting_refs. apply NoDup_fmap; [by intros ? ? [= ->]|]. apply (Hk id). by left.
  - intros d (key & -> & _)%list_elem_of_fmap (op' & Hop & _)%elem_of_overlay. apply Hid. cbn in Hop. apply list_elem_of_fmap. by exists (id, op').
  - apply IH; [done|]. intros id' op' Hop. apply (Hk id'). by right.
Qed.

(** However the overlay was gathered and sorted. *)
Lemma overlay_sorted ops l : ops ≡ₚ map_to_list (pending_of s r) -> l ≡ₚ overlay_refs ops -> sorted_by key_less l -> key_sorted l.
Proof.
  intros Hp Hl Hs. apply key_sorted_sort; [rewrite Hl; by apply overlay_NoDup| |done].
  intros a b Ha Hb E. rewrite Hl in Ha, Hb. apply (overlay_key_of ops) in Ha, Hb; [|done|done]. rewrite E in Ha.
  pose proof (key_of_agree _ _ _ Ha Hb) as Ei. destruct a, b; cbn in *. congruence.
Qed.
Lemma overlay_unique ops l : ops ≡ₚ map_to_list (pending_of s r) -> l ≡ₚ overlay_refs ops -> sorted_by key_less l ->
  l = pv_overlay (base_view s r).
Proof.
  intros Hp Hl Hs. apply key_sorted_unique; [by eapply overlay_sorted| |].
  - apply (overlay_sorted (map_to_list (pending_of s r))); [done|apply insertion_sort_perm|]. apply insertion_sort_sorted, (bytes_ltb_strict_weak docref_OrderKey).
  - intros d. cbn [base_view pv_overlay]. rewrite Hl, insertion_sort_perm, !elem_of_overlay. by setoid_rewrite Hp.
Qed.

Lemma elem_of_base_overlay d : d ∈ pv_overlay (base_view s r) <->
  exists op, pending_of s r !! docref_ID d = Some op /\ docref_OrderKey d ∈ op_keys op.
Proof. cbn [base_view pv_overlay]. rewrite insertion_sort_perm, elem_of_overlay. by setoid_rewrite elem_of_map_to_list. Qed.

(** The posting rows of the partition. *)
Lemma elem_of_base_db d : (exists k x, content (ps_db s) !! k = Some x /\ prefixb (projectionPrefix "posting" r) k = true /\ d = row_ref (base_view s r) (k, x))
  <-> docref_OrderKey d ∈ disk_postings (table_of s) r (docref_ID d).
Proof.
  pose proof (si_batch _ Hinv) as Hb. split.
  - intros (k & x & Hk & Hp & ->). destruct (br_typed _ Hb _ _ Hk) as (K & HK & ->). rewrite projection_prefix in Hp by auto.
    destruct K as [r' key|r' doc| | | | | | | | | | |]; try done; apply bool_decide_eq_true in Hp as [? <-]; try done.
    apply (dk_posting _ (br_disk _ Hb)) in Hk as (doc & -> & Hx); [|exact HK]. unfold row_ref.
    cbn [base_view pv_prefix fst snd docref_ID docref_OrderKey encode_key]. by rewrite drop_app_length, string_of_bytes_of_string.
  - intros Hx. pose proof (disk_postings_key _ _ _ _ (br_disk _ Hb) Hx) as (Hbytes & _).
    assert (Hrow : table_of s (KPosting r (docref_OrderKey d)) = Some (bytes_of_string (docref_ID d)))
      by (apply (dk_posting _ (br_disk _ Hb)); [done|eauto]).
    exists (encode_key (KPosting r (docref_OrderKey d))), (bytes_of_string (docref_ID d)). split; [exact Hrow|].
    rewrite projection_prefix by auto. rewrite bool_decide_true by done. split; [done|]. unfold row_ref.
    cbn [base_view pv_prefix fst snd encode_key]. rewrite drop_app_length, string_of_bytes_of_string. by destruct d.
Qed.

Lemma base_bytes : is_bytes (projectionPrefix "posting" r) /\ forall k x, content (ps_db s) !! k = Some x -> is_bytes k.
Proof.
  split; [apply projectionPrefix_bytes|]. intros k x Hk. destruct (br_typed _ (si_batch _ Hinv) _ _ Hk) as (K & HK & ->). by apply encode_key_bytes.
Qed.
Lemma elem_of_base_refs d : d ∈ db_refs (base_view s r) <-> docref_OrderKey d ∈ disk_postings (table_of s) r (docref_ID d).
Proof.
  rewrite <- elem_of_base_db. unfold db_refs. rewrite list_elem_of_fmap. destruct base_bytes as [Hp Hb]. split.
  - intros ([k x] & -> & [Hk Hr]%elem_of_sorted_rows). cbn [base_view pv_prefix pv_snapshot] in *. unfold Pebble.in_range in Hr.
    rewrite range_prefix in Hr; [eauto 6|done|by eapply Hb].
  - intros (k & x & Hk & Hpre & ->). exists (k, x). split; [done|]. apply elem_of_sorted_rows. split; [done|].
    unfold Pebble.in_range. cbn [base_view pv_prefix]. rewrite range_prefix; [done|done|by eapply Hb].
Qed.

Lemma base_view_ok : view_ok (base_view s r).
Proof.
  destruct base_bytes as [Hp Hb]. split; [done|done| |].
  - apply (overlay_sorted (map_to_list (pending_of s r))); [done|apply insertion_sort_perm|]. apply insertion_sort_sorted, (bytes_ltb_strict_weak docref_OrderKey).
  - intros d o [Hd Hl]%elem_of_filterb (op & Hop & Hk)%elem_of_base_overlay E. apply elem_of_base_refs in Hd.
    pose proof (disk_postings_key _ _ _ _ (br_disk _ (si_batch _ Hinv)) Hd) as Kd.
    pose proof (ok_keys _ _ _ (pending_of_ok _ _ Hop)) as Ko. rewrite Forall_forall in Ko. specialize (Ko _ Hk). rewrite E in Kd.
    pose proof (key_of_agree _ _ _ Kd Ko) as Ei. apply negb_true_iff, bool_decide_eq_false in Hl. apply Hl. cbn. rewrite Ei. by exists op.
Qed.

(** The references of the store are the postings of its abstract state. *)
Lemma store_refs_postings d : d ∈ store_refs s r <-> docref_OrderKey d ∈ sp_postings (abs s) r (docref_ID d).
Proof.
  unfold store_refs, view_refs. rewrite elem_of_merge. unfold live_refs. rewrite elem_of_filterb, elem_of_base_refs, elem_of_base_overlay.
  unfold replaced. cbn [base_view pv_replacements]. rewrite negb_true_iff, bool_decide_eq_false, pending_of_lookup.
  unfold abs, mid, overlay, disk. cbn [sp_postings disk_spec].
  destruct (lookup2 (ps_projectionPending s) r (docref_ID d)) as [op|];
    [|destruct (lookup2 (ps_projectionFlushing s) r (docref_ID d)) as [op|]]; (split; [intros [[H1 H2]|H]|intros H]).
  all: try (destruct H as (op' & E & H)); simplify_eq; auto.
  - destruct H2. by eexists.
  - right. by exists op.
  - destruct H2. by eexists.
  - right. by exists op.
Qed.
End Opened.

Lemma gather_overlay_all refs polls out polls' : gather_overlay Background refs polls = Ok (out, polls') -> out = refs.
Proof.
  revert polls out; induction refs as [|d refs IH]; intros polls out H; cbn [gather_overlay] in H; [by injection H as <- _|].
  cbn [Background] in H. destruct (gather_overlay _ _ _) as [[o p]|] eqn:E; [|done]. injection H as <- <-. by rewrite (IH _ _ E).
Qed.

Lemma ReadView_spec s r budget v : store_inv s -> ReadView Background s r budget = Ok v ->
  view_ok v /\ view_refs v = store_refs s r /\ pv_examined v = 0 /\ pv_snapshot v = db_NewSnapshot (ps_db s) /\ ps_flushErr s = None /\
  (exists b, NormalizeReadBudget budget = Ok b /\ pv_maxExamined v = MaxExamined b) /\
  forall opts, scan_count v opts = scan_count (base_view s r) opts.
Proof.
  intros Hi H. unfold ReadView in H. cbn [Background] in H. destruct (NormalizeReadBudget budget) as [b|]; [|done]. cbn [mbind res_bind] in H.
  destruct (writeErrorLocked s) eqn:Hw; [done|]. apply writeErrorLocked_None in Hw.
  destruct (collect _ _ _ _ _ _) as [[[m size] polls]|] eqn:Ec; [|done]. cbn [mbind res_bind] in H.
  apply collect_lookup in Ec. rewrite (left_id_L ∅ (∪)), list_to_map_app, !list_to_map_range in Ec. fold (pending_of s r) in Ec. subst m.
  destruct (gather_overlay _ _ _) as [[ov polls']|] eqn:Eg; [|done]. apply gather_overlay_all in Eg. subst ov. apply Ok_inj in H as <-.
  set (ov := sort_slice _ _). assert (Eo : ov = pv_overlay (base_view s r)).
  { apply (overlay_unique s r Hi (range (pending_of s r))); [apply range_perm|apply sort_slice_perm|].
    apply sort_slice_sorted, (bytes_ltb_strict_weak docref_OrderKey). }
  rewrite Eo. pose proof (base_view_ok s r Hi) as [H1 H2 H3 H4]. pose proof (db_NewSnapshot_law (ps_db s)) as Hs.
  set (v := {| pv_snapshot := _ |}). assert (Ed : db_refs v = db_refs (base_view s r)) by (unfold db_refs, v; cbn [pv_snapshot pv_prefix]; by rewrite Hs).
  assert (El : live_refs v = live_refs (base_view s r)) by (unfold live_refs; by rewrite Ed).
  split_and!; try done.
  - split; [done| |done|by rewrite El]. cbn [v pv_snapshot]. rewrite Hs. exact H2.
  - unfold view_refs. by rewrite El.
  - eauto.
  - intros opts. unfold scan_count. by rewrite Ed.
Qed.

(** ** The read interfaces *)

(** A snapshot whose iterations, once open, do not fail. *)
Definition healthy (d : pebble) : Prop :=
  forall lower upper rs e c, db_Iter d lower upper = Ok (rs, e, c) -> e = None.

Definition pv_open (v : projectionView) (it : projectionIterator) : Prop :=
  it_ok v it /\ opt_Limit (pi_options it) = 0 /\ pi_error it = None.
Definition pv_left (v : projectionView) : Z := pv_maxExamined v - pv_examined v.
Definition pv_cost (v : projectionView) (it : projectionIterator) : Z := Z.max 0 (rest_cost v it).
Definition pv_ready (v : projectionView) : Prop := view_ok v /\ healthy (pv_snapshot v).

Lemma persist_Scan_law v opts it : pv_ready v -> opt_Limit opts = 0 -> Scan Background v opts = Ok it ->
  pv_open v it /\ pi_examined it = 0 /\
  rest_refs v it [] = List.filter (fun d => in_bounds opts (docref_OrderKey d)) (view_refs v) /\ pv_cost v it = scan_count v opts.
Proof.
  intros [Hv Hh] Hl H. destruct (Scan_spec v opts it Hv H) as (Hi & Ho & _ & He & lost & Hlost & Hr & _ & Hc).
  assert (Herr : pi_error it = None).
  { unfold Scan in H. cbn [Background] in H. destruct (pv_closed v); [done|]. destruct (db_Iter _ _ _) as [[[rs err] close]|] eqn:E; [|done].
    apply Ok_inj in H as <-. by eapply Hh. }
  rewrite (Hlost Herr) in Hr. split; [split_and!; [done|by rewrite Ho|done]|]. split; [done|]. split; [done|]. unfold pv_cost. rewrite (Hc Herr). unfold scan_count. lia.
Qed.

Lemma persist_Next_law v it : pv_open v it -> 0 <= pv_left v ->
  exists v' it' r, Next Background v it = (v', it', r) /\
    (forall other, pv_open v other ->
       pv_open v' other /\ rest_refs v' other [] = rest_refs v other [] /\ pv_cost v' other = pv_cost v other) /\
    ((r = Err ErrWorkLimit /\ pv_left v < pv_cost v it) \/
     (exists n, 0 <= pv_left v' /\ pv_left v' = pv_left v - n /\ pi_examined it' = pi_examined it + n /\
        pv_cost v' it' = pv_cost v it - n /\ pv_open v' it' /\
        match rest_refs v it [] with
        | [] => r = Ok None /\ rest_refs v' it' [] = [] /\ pv_cost v' it' = 0
        | d :: ds => r = Ok (Some d) /\ rest_refs v' it' [] = ds
        end)).
Proof.
  intros (Hi & Hl & Herr) Hleft. unfold pv_left, pv_open in *.
  destruct (Next_cases v it [] Hi) as (w & it' & r & En & H); [done|unfold limit_reached; by rewrite Hl|lia|].
  exists (set_examined v w), it', r. split; [done|]. split.
  { intros other (Hoi & Hol & Hoe). destruct (set_examined_frame v w other []) as (F1 & F2 & F3). split_and!; [by apply F3|done|done|done|].
    unfold pv_cost. by rewrite F2. }
  destruct (set_examined_frame v w it' []) as (F1 & F2 & F3). unfold pv_cost. rewrite F1, F2.
  destruct H as [[-> Hlt]|[(m & Em & _)|(n & Hn & Hw & Hmax & Hex & Hi' & Hopt & Herr' & Hcost & H)]]; [left; split; [done|lia]|congruence|].
  right. exists n. cbn [set_examined pv_maxExamined pv_examined]. pose proof (rest_cost_nonneg v it' Hi').
  split_and!; try lia; [by apply F3|by rewrite Hopt|by rewrite Herr'|].
  destruct (rest_refs v it []); destruct_and! H; split_and!; try done. lia.
Qed.

#[export] Instance persist_views : IndexViews := {|
  view := projectionView; iterator := projectionIterator;
  v_Scan := Scan; v_Next := Next; v_Examined := pi_examined; v_CloseIterator := it_Close; v_Close := view_Close;
  v_postings := view_refs; v_ready := pv_ready; v_open := pv_open; v_pending v it := rest_refs v it [];
  v_cost := pv_cost; v_left := pv_left; v_scan_cost := scan_count;
  v_Scan_law := persist_Scan_law; v_Next_law := persist_Next_law;
  v_cost_nonneg v it := Z.le_max_l 0 (rest_cost v it);
|}.

Definition store_ready (s : PebbleStore) : Prop := store_inv s /\ healthy (db_NewSnapshot (ps_db s)).

Lemma persist_postings_sorted s r : store_ready s -> StronglySorted docref_lt (store_refs s r).
Proof.
  intros [Hi _]. pose proof (view_refs_sorted _ (base_view_ok s r Hi)) as H. fold (store_refs s r) in H.
  induction H as [|d l Hl IH Hd]; constructor; [done|]. eapply Forall_impl; [exact Hd|]. intros; by apply key_lt_docref.
Qed.

Lemma persist_ReadView_law s r n v : store_ready s -> 0 < n ->
  ReadView Background s r {| MaxOverlayReplacements := 0; MaxOverlayBytes := 0; MaxExamined := n |} = Ok v ->
  pv_ready v /\ view_refs v = store_refs s r /\ pv_left v = n /\ forall opts, scan_count v opts = scan_count (base_view s r) opts.
Proof.
  intros [Hi Hh] Hn H. destruct (ReadView_spec s r _ v Hi H) as (Hv & Hr & Hex & Hs & _ & (b & Hb & Hm) & Hc).
  split; [split; [done|by rewrite Hs]|]. split; [done|]. split; [|done]. unfold pv_left. rewrite Hm, Hex.
  unfold NormalizeReadBudget in Hb. cbn [MaxOverlayReplacements MaxOverlayBytes MaxExamined] in Hb.
  rewrite (proj2 (Z.ltb_ge n 0)) in Hb by lia. cbn in Hb. injection Hb as <-. cbn. rewrite (proj2 (Z.eqb_neq n 0)) by lia. lia.
Qed.

#[export] Instance persist_reads : IndexReads (IV := persist_views) := {|
  index_store := PebbleStore;
  r_ReadGeneration := ReadGeneration; r_ReadView := ReadView; r_ok := store_ready; r_postings := store_refs;
  r_postings_sorted := persist_postings_sorted; r_scan_cost s r := scan_count (base_view s r); r_ReadView_law := persist_ReadView_law;
|}.
End PersistScan.
