(* ===== verification/PersistLegacy.v ===== *)
(** * Legacy indexes of the persistent store: the reads of
      internal/indexer/persist_store/pebble.go

    Get, Search and the listings of the indexes that predate projections. Each
    runs in one step here; the code takes its snapshot of the pending writes
    under the lock and reads the database after it. Search builds its bounds by
    appending to the prefix: where the prefix has spare capacity the bounds share
    their bytes, which the model keeps ([append_prefix]). *)
From stdpp Require Import base list sorting gmap strings.
From Stdlib Require Import ZArith.
From S2P Require Import Prelude PostingSet OrderKey IndexStore Intervals Refs Keys Pebble PersistStore PersistSpec PersistFacts PersistRefine PersistRun PersistReads PersistViews PersistScan.
Local Open Scope Z_scope.

(** [append]: the capacity it allocates when an array of capacity [c] cannot hold
    [n] elements. *)
Class GoAppend := {
  grown : nat -> nat -> nat;
  grown_enough : forall c n, (n <= grown c n)%nat;
}.

(** The capacity of a slice after appending parts of the given lengths. *)
Fixpoint capacity_after `{GoAppend} (capacity len : nat) (parts : list nat) : nat :=
  match parts with
  | [] => capacity
  | n :: parts => capacity_after (if (len + n <=? capacity)%nat then capacity else grown capacity (len + n)) (len + n) parts
  end.

(** A slice of the array that starts with the prefix, or one of its own. *)
Inductive bound := Shared (n : nat) | Own (b : bytes).
Definition resolve (prefix spare : bytes) (b : bound) : bytes :=
  match b with Shared n => prefix ++ take n spare | Own b => b end.
(** [append(prefix, x...)]: in place when the spare capacity holds it. *)
Definition append_prefix (prefix spare x : bytes) : bound * bytes :=
  if (length x <=? length spare)%nat then (Shared (length x), x ++ drop (length x) spare) else (Own (prefix ++ x), spare).

Definition bump_last (prefix : bytes) : bytes :=
  match rev prefix with b :: r => rev r ++ [u8 (b + 1)] | [] => [] end.

Definition search_bounds (prefix spare : bytes) (opts : SearchOptions) : bytes * bytes :=
  let '(lower, spare) := append_prefix prefix spare (opt_Lower opts) in
  let '(upper, spare) := match opt_Upper opts with
                         | Some upper => append_prefix prefix spare upper
                         | None => (Own (bump_last prefix), spare)
                         end in
  let '(lower, spare) := match opt_StartAfter opts with
                         | Some after =>
                             let '(start, spare) := append_prefix prefix spare after in
                             (if bytes_ltb (resolve prefix spare lower) (resolve prefix spare start) then start else lower, spare)
                         | None => (lower, spare)
                         end in
  (resolve prefix spare lower, resolve prefix spare upper).

Definition index_ref (prefix : bytes) (x : row) : DocRef :=
  {| docref_ID := string_of_bytes x.2; docref_OrderKey := parseIndexKey x.1 prefix |}.
Definition is_start (opts : SearchOptions) (key : bytes) : bool :=
  match opt_StartAfter opts with Some after => bool_decide (key = after) | None => false end.

(** The loop of searchFastPath, with the rows the iterator has left. *)
Fixpoint fast_loop (prefix : bytes) (opts : SearchOptions) (limit : nat) (rows : list row) : list DocRef * list row :=
  match rows with
  | [] => ([], [])
  | x :: rest =>
      match limit with
      | O => ([], rows)
      | S n =>
          let d := index_ref prefix x in
          if negb (bool_decide (docref_OrderKey d = [])) && is_start opts (docref_OrderKey d) then fast_loop prefix opts limit rest
          else let '(out, unread) := fast_loop prefix opts n rest in (d :: out, unread)
      end
  end.

(** searchWithPending: the next row that is not pending or seen, then the loop. *)
Fixpoint next_db (prefix : bytes) (opts : SearchOptions) (memOps : gmap string pendingOp) (seen : gset string) (rows : list row)
    : list row * option DocRef :=
  match rows with
  | [] => ([], None)
  | x :: rest =>
      let d := index_ref prefix x in
      if is_start opts (docref_OrderKey d) || bool_decide (is_Some (memOps !! docref_ID d)) || bool_decide (docref_ID d ∈ seen)
      then next_db prefix opts memOps seen rest
      else (rows, Some d)
  end.
Fixpoint skip_seen (seen : gset string) (docs : list DocRef) : list DocRef :=
  match docs with
  | [] => []
  | d :: rest => if bool_decide (docref_ID d ∈ seen) then skip_seen seen rest else docs
  end.
Fixpoint merge_loop (prefix : bytes) (opts : SearchOptions) (memOps : gmap string pendingOp) (n : nat)
    (rows : list row) (docs : list DocRef) (seen : gset string) : list DocRef * list row :=
  match n with
  | O => ([], rows)
  | S n =>
      let '(rows, dbDoc) := next_db prefix opts memOps seen rows in
      let docs := skip_seen seen docs in
      let take_db d := let '(out, unread) := merge_loop prefix opts memOps n (tail rows) docs ({[docref_ID d]} ∪ seen) in (d :: out, unread) in
      let take_doc p := let '(out, unread) := merge_loop prefix opts memOps n rows (tail docs) ({[docref_ID p]} ∪ seen) in (p :: out, unread) in
      match dbDoc, docs with
      | None, [] => ([], rows)
      | None, p :: _ => take_doc p
      | Some d, [] => take_db d
      | Some d, p :: _ => if bytes_leb (docref_OrderKey d) (docref_OrderKey p) then take_db d else take_doc p
      end
  end.

Definition is_upsert (op : pendingOp) : bool := match op_orderKey op with Some _ => true | None => false end.

(** The states are strings. *)
Definition index_state (s : string) : IndexState :=
  if String.eqb s "healthy" then IndexStateHealthy
  else if String.eqb s "rebuilding" then IndexStateRebuilding
  else if String.eqb s "failed" then IndexStateFailed
  else IndexStateOther s.

Section PersistLegacy.
Context `{PB : Pebble} `{XX : XXHash} `{MJ : MetadataJSON} `{SS : SliceSort} `{RO : RangeOrder} `{GA : GoAppend}.

Definition Get (s : PebbleStore) (db pattern tmplID docID : string) : option bytes :=
  let key := idxMapKey db pattern tmplID in
  if indexDeletingLocked s key then None
  else match lookup2 (ps_pending s) key docID with
  | Some op => op_orderKey op
  | None =>
      match lookup2 (ps_flushing s) key docID with
      | Some op => op_orderKey op
      | None => match db_Get (ps_db s) (reverseKey db pattern tmplID docID) with
                | Ok (Some (orderKey, _)) => Some orderKey
                | _ => None
                end
      end
  end.

Definition mem_ops (s : PebbleStore) (key : string) : gmap string pendingOp :=
  default ∅ (ps_pending s !! key) ∪ default ∅ (ps_flushing s !! key).

(** The upserts within the bounds, in the order of the map. *)
Definition pending_docs (opts : SearchOptions) (ops : list (string * pendingOp)) : list DocRef :=
  omap (fun x => match op_orderKey x.2 with
                 | Some key => if isInBounds key opts then Some {| docref_ID := x.1; docref_OrderKey := key |} else None
                 | None => None
                 end) ops.

(** The spare bytes behind the prefix. *)
Definition prefix_spare (db pattern tmplID : string) : bytes :=
  let parts := [4; length (encodePathComponent db); 1; length (indexHash pattern tmplID); 1]%nat in
  repeat 0 (capacity_after (4 + String.length db + 1 + 16 + 1) 0 parts - length (indexKeyPrefix db pattern tmplID)).

Definition Search (s : PebbleStore) (db pattern tmplID : string) (opts : SearchOptions) : res store_error (list DocRef) :=
  let key := idxMapKey db pattern tmplID in
  if indexDeletingLocked s key then Ok []
  else
    let memOps := mem_ops s key in
    let prefix := indexKeyPrefix db pattern tmplID in
    let '(lower, upper) := search_bounds prefix (prefix_spare db pattern tmplID) opts in
    match db_Iter (ps_db s) lower (Some upper) with
    | Err e => Err (ErrBackend e)
    | Ok (rows, err, _) =>
        let limit := Z.to_nat (if opt_Limit opts <=? 0 then 1000 else opt_Limit opts) in
        let '(out, unread) :=
          if bool_decide (memOps = ∅) then fast_loop prefix opts limit rows
          else merge_loop prefix opts memOps limit rows (sort_slice key_less (pending_docs opts (range memOps))) ∅ in
        match match unread with [] => err | _ => None end with
        | Some e => Err (ErrBackend e)
        | None => Ok out
        end
    end.

Definition GetState (s : PebbleStore) (db pattern tmplID : string) : res store_error IndexState :=
  match db_Get (ps_db s) (stateKey db pattern tmplID) with
  | Ok None => Ok IndexStateHealthy
  | Err e => Err (ErrBackend e)
  | Ok (Some (value, _)) => Ok (index_state (string_of_bytes value))
  end.

(** The rows under a prefix, without the error after the last. *)
Definition list_rows (d : pebble) (prefix : bytes) : res store_error (list row) :=
  match db_Iter d prefix (Some (bump_last prefix)) with
  | Err e => Err (ErrBackend e)
  | Ok (rows, _, _) => Ok rows
  end.

Definition upserted (F : gmap string (gmap string pendingOp)) : list pendingOp :=
  List.filter (fun op => is_upsert op) (concat (map (fun x => map snd (range x.2)) (range F))).

Definition ListDatabases (s : PebbleStore) : res store_error (list string) :=
  rows ← list_rows (ps_db s) prefixMap;
  let stored := omap (fun x : row => '(name, _) ← cut (drop (length prefixMap) x.1); decodePathComponent name) rows in
  let dbs : gset string := list_to_set (map op_db (upserted (ps_flushing s)) ++ map op_db (upserted (ps_pending s)) ++ stored) in
  Ok (map fst (range (gset_to_gmap tt dbs))).

Definition countDocs (s : PebbleStore) (db pattern tmplID : string) : Z :=
  let key := idxMapKey db pattern tmplID in
  let docSet := (fun op => is_upsert op) <$> mem_ops s key in
  let prefix := reverseKeyPrefix db pattern tmplID in
  let docSet := match list_rows (ps_db s) prefix with
                | Err _ => docSet
                | Ok rows =>
                    foldl (fun m (x : row) =>
                      let docID := string_of_bytes (drop (length prefix) x.1) in
                      if bool_decide (is_Some (m !! docID)) then m else <[docID := true]> m) docSet rows
                end in
  Z.of_nat (length (List.filter snd (range docSet))).

(** [bytes.SplitN(value, "|", 2)]. *)
Fixpoint split_bar (l : bytes) : option (bytes * bytes) :=
  match l with
  | [] => None
  | b :: l => if b =? 124 then Some ([], l) else prod_map (cons b) id <$> split_bar l
  end.

Definition ListIndexes (s : PebbleStore) (db : string) : res store_error (list IndexInfo) :=
  rows ← list_rows (ps_db s) (prefixMap ++ encodePathComponent db ++ [47]);
  let named (x : string * string) := (String.append x.1 (String.append "|" x.2), x) in
  let pending F := map (fun op => named (op_pattern op, op_tmplID op)) (List.filter (fun op => String.eqb (op_db op) db) (upserted F)) in
  let stored := omap (fun x : row => '(a, b) ← split_bar x.2; Some (named (string_of_bytes a, string_of_bytes b))) rows in
  let indexSet : gmap string (string * string) :=
    foldl (fun m x => <[x.1 := x.2]> m) ∅ (pending (ps_flushing s) ++ pending (ps_pending s) ++ stored) in
  Ok (omap (fun x : string * (string * string) =>
        let '(pattern, tmplID) := x.2 in
        if indexDeletingLocked s (idxMapKey db pattern tmplID) then None
        else Some {| info_Pattern := pattern; info_TemplateID := tmplID; info_RawPattern := pattern;
                     info_State := match GetState s db pattern tmplID with
                                   | Ok st => st
                                   | Err _ => index_state ""
                                   end;
                     info_DocCount := Z.to_nat (countDocs s db pattern tmplID) |}) (range indexSet)).

(** What Flush waits for. *)
Definition has_pending (s : PebbleStore) : bool :=
  negb (nothing_pending s && bool_decide (ps_flushing s = ∅) && bool_decide (ps_projectionFlushing s = ∅)
        && String.eqb (ps_flushingProgress s) "" && bool_decide (ps_flushingIndexDeletes s = ∅)).
End PersistLegacy.
