(* ===== verification/PersistHistory.v ===== *)
(** * The persistent store implements its specification

    A run is a sequence of calls with the results they returned, background
    flushes and database faults between them. While no write has failed, what is
    read is the result of the accepted calls ([store_refines]); what is on disk,
    at any moment and after any failure, is the result of the calls without some
    of the last write-behind ones ([durable_history]): a restart finds a state of
    the store with the checkpoint that belongs to it. *)
From stdpp Require Import base list sorting gmap strings.
From Stdlib Require Import ZArith.
From S2P Require Import Prelude PostingSet Value OrderKey IndexStore Intervals Keys Pebble PersistStore PersistSpec PersistFacts PersistRefine PersistRun PersistReads PersistViews.
Local Open Scope Z_scope.

(** ** Histories *)
Definition replay (h : list store_op) : Spec := foldl (fun A op => spec_exec op A) spec_new h.
Lemma replay_snoc h op : replay (h ++ [op]) = spec_exec op (replay h).
Proof. unfold replay. by rewrite foldl_app. Qed.

(** A history without some of its last write-behind operations. *)
Definition trimmed (h' h : list store_op) : Prop :=
  exists h1 h2, h = h1 ++ h2 /\ h' = h1 ++ List.filter (fun op => negb (write_behind op)) h2.

Lemma trimmed_refl h : trimmed h h.
Proof. exists h, []. by rewrite !app_nil_r. Qed.
Lemma trimmed_through h' h op : trimmed h' h -> write_behind op = false -> trimmed (h' ++ [op]) (h ++ [op]).
Proof.
  intros (h1 & h2 & -> & ->) Hop. exists h1, (h2 ++ [op]). rewrite List.filter_app. cbn. rewrite Hop. cbn. by rewrite !app_assoc.
Qed.
Lemma trimmed_behind h' h op : trimmed h' h -> write_behind op = true -> trimmed h' (h ++ [op]).
Proof.
  intros (h1 & h2 & -> & ->) Hop. exists h1, (h2 ++ [op]). rewrite List.filter_app. cbn. rewrite Hop. cbn. by rewrite app_nil_r, !app_assoc.
Qed.

(** Calls and their results. *)
Definition call : Type := store_op * option store_error.
Definition accepted (calls : list call) : list store_op :=
  omap (fun c : call => match c.2 with None => Some c.1 | Some _ => None end) calls.
(** A history with every accepted call, where a failed one may have taken effect. *)
Inductive explains : list call -> list store_op -> Prop :=
| ex_nil : explains [] []
| ex_done calls h op r : explains calls h -> explains (calls ++ [(op, r)]) (h ++ [op])
| ex_failed calls h op e : explains calls h -> explains (calls ++ [(op, Some e)]) h.

Lemma accepted_snoc calls op r : accepted (calls ++ [(op, r)]) = accepted calls ++ match r with None => [op] | Some _ => [] end.
Proof. unfold accepted. rewrite omap_app. by destruct r. Qed.

Section PersistHistory.
Context `{PB : Pebble} `{XX : XXHash} `{MJ : MetadataJSON} `{SS : SliceSort} `{RO : RangeOrder}.

Inductive run : list call -> PebbleStore -> Prop :=
| run_open path n d s : content d = ∅ -> NewPebbleStore path n d = Ok s -> run [] s
| run_call calls s op s' r : run calls s -> op_valid op -> (takes_flush_lock op = true -> ps_phase s = FlushIdle) ->
    exec op s = (s', r) -> run (calls ++ [(op, r)]) s'
| run_state calls s db pattern tmplID st s' r : run calls s -> SetState s db pattern tmplID st = (s', r) -> run calls s'
| run_close calls s : run calls s -> run calls (Close s)
| run_begin calls s : run calls s -> ps_phase s = FlushIdle -> run calls (flush_begin s)
| run_commit calls s : run calls s -> ps_phase s = FlushBegun -> run calls (flush_commit s)
| run_finish calls s e : run calls s -> ps_phase s = FlushCommitted e -> run calls (flush_finish s)
(** The database moves on by itself (compactions, faults to come). *)
| run_database calls s d : run calls s -> content d = content (ps_db s) -> run calls (set_db s d (ps_flushErr s) (ps_phase s)).

Lemma exec_outcome op s s' r :
  store_inv s -> op_valid op -> (takes_flush_lock op = true -> ps_phase s = FlushIdle) -> exec op s = (s', r) ->
  store_inv s' /\ outcome op s s' r.
Proof.
  intros Hi Hv Hl H. destruct op; cbn [exec takes_flush_lock] in *.
  - by apply Apply_outcome.
  - by apply PublishGeneration_outcome; auto.
  - by apply PublishCatalog_outcome; auto.
  - by apply PublishCatalogs_outcome; auto.
  - by apply SetFailure_outcome.
  - by apply DeleteQueryIndex_outcome; auto.
  - by apply DeleteDatabase_outcome; auto.
  - eapply enqueue_op_outcome; [done| |done| |exact H]; [by intros x [= <-]|done].
  - eapply enqueue_op_outcome; [done| |done| |exact H]; done.
  - by apply DeleteIndex_outcome.
Qed.

(** What a run keeps: the history behind each layer. *)
Record tracked (calls : list call) (s : PebbleStore) (h : list store_op) : Prop := {
  tk_inv : store_inv s;
  tk_explains : explains calls h;
  tk_abs : ps_flushErr s = None -> h = accepted calls /\ abs s ≡ replay h;
  tk_mid : ps_phase s = FlushBegun -> exists hm, trimmed hm h /\ mid s ≡ replay hm;
  tk_disk : exists hd, trimmed hd h /\ disk s ≡ replay hd;
}.

Lemma tracked_call calls s h op s' r :
  tracked calls s h -> store_inv s' -> outcome op s s' r ->
  exists h', tracked (calls ++ [(op, r)]) s' h'.
Proof.
  intros [Hi Hx Ha Hm (hd & Htd & Hd)] Hi' Ho. destruct Ho as [e D M A P|Wb D M A P E|err Wb D M P A E|err Wb F D P A E].
  - exists h. split; [done|by constructor| | |].
    + intros He. destruct (A He) as [He0 Heq]. destruct (Ha He0) as [-> Hr]. rewrite accepted_snoc, app_nil_r. split; [done|]. by rewrite Heq.
    + rewrite P. intros Hp. destruct (Hm Hp) as (hm & Ht & Hr). exists hm. split; [done|]. by rewrite M.
    + exists hd. split; [done|]. by rewrite D.
  - exists (h ++ [op]). split; [done|by constructor| | |].
    + rewrite E. intros He. destruct (Ha He) as [-> Hr]. rewrite accepted_snoc. split; [done|]. by rewrite A, replay_snoc, Hr.
    + rewrite P. intros Hp. destruct (Hm Hp) as (hm & Ht & Hr). exists hm. split; [by apply trimmed_behind|]. by rewrite M.
    + exists hd. split; [by apply trimmed_behind|]. by rewrite D.
  - exists (h ++ [op]). split; [done|by constructor| | |].
    + intros He. destruct err as [err|]; [destruct E as [? E]; [eauto|congruence]|].
      destruct (A He) as [He0 Heq]. destruct (Ha He0) as [-> Hr]. rewrite accepted_snoc. split; [done|]. by rewrite Heq, replay_snoc, Hr.
    + rewrite P. intros Hp. destruct (Hm Hp) as (hm & Ht & Hr). exists (hm ++ [op]). split; [by apply trimmed_through|].
      by rewrite M, replay_snoc, Hr.
    + exists (hd ++ [op]). split; [by apply trimmed_through|]. by rewrite D, replay_snoc, Hd.
  - destruct (Ha F) as [-> Hr]. exists (accepted calls ++ [op]). split; [done|by constructor| | |].
    + intros He. destruct err as [err|]; [destruct E as [? E]; [eauto|congruence]|].
      rewrite accepted_snoc. split; [done|]. by rewrite A, replay_snoc, Hr.
    + by rewrite P.
    + exists (accepted calls ++ [op]). split; [apply trimmed_refl|]. by rewrite D, replay_snoc, Hr.
Qed.

(** A step that no call sees. *)
Lemma tracked_silent calls s h s' :
  tracked calls s h -> store_inv s' -> (ps_flushErr s' = None -> ps_flushErr s = None /\ abs s' ≡ abs s) ->
  (ps_phase s' = FlushBegun -> (ps_phase s = FlushBegun /\ mid s' ≡ mid s) \/ (ps_flushErr s = None /\ mid s' ≡ abs s)) ->
  (disk s' ≡ disk s \/ (ps_phase s = FlushBegun /\ disk s' ≡ mid s)) -> tracked calls s' h.
Proof.
  intros [Hi Hx Ha Hm (hd & Htd & Hd)] Hi' A M D. split; [done|done| | |].
  - intros He. destruct (A He) as [He0 Heq]. destruct (Ha He0) as [-> Hr]. split; [done|]. by rewrite Heq.
  - intros Hp. destruct (M Hp) as [[Hp0 Heq]|[He0 Heq]].
    + destruct (Hm Hp0) as (hm & Ht & Hr). exists hm. split; [done|]. by rewrite Heq.
    + destruct (Ha He0) as [-> Hr]. exists (accepted calls). split; [apply trimmed_refl|]. by rewrite Heq.
  - destruct D as [D|[Hp D]]; [exists hd; split; [done|]; by rewrite D|]. destruct (Hm Hp) as (hm & Ht & Hr). exists hm. split; [done|]. by rewrite D.
Qed.

Lemma SetState_disk s db pattern tmplID st : disk (SetState s db pattern tmplID st).1 ≡ disk s.
Proof.
  unfold SetState. pose proof (db_Set_law (ps_db s) (stateKey db pattern tmplID) (bytes_of_string (state_string st))) as Hl.
  destruct (db_Set _ _ _) as [d e]. cbn [fst snd] in Hl. destruct (indexHash_spec pattern tmplID) as [Hb Hs].
  change (stateKey db pattern tmplID) with (encode_key (KState db (indexHash pattern tmplID))) in Hl.
  symmetry. apply disk_spec_same. intros K HK HL. unfold table_of, rows. cbn. destruct Hl as [->|[-> _]]; [|done].
  rewrite lookup_insert_ne; [done|]. intros E. apply encode_key_inj in E; [by subst K|done|done].
Qed.

Lemma SetState_spec s db pattern tmplID st s' r : store_inv s -> SetState s db pattern tmplID st = (s', r) ->
  store_inv s' /\ disk s' ≡ disk s /\ mid s' ≡ mid s /\ abs s' ≡ abs s /\ ps_flushErr s' = ps_flushErr s /\ ps_phase s' = ps_phase s.
Proof.
  intros Hi H. unfold SetState in H. pose proof (db_Set_law (ps_db s) (stateKey db pattern tmplID) (bytes_of_string (state_string st))) as Hl.
  destruct (db_Set _ _ _) as [d e]. injection H as <- <-. cbn [fst snd] in Hl. pose proof (si_batch _ Hi) as [Ht Hd Hlg _ _ _ _].
  destruct (indexHash_spec pattern tmplID) as [Hb Hs]. change (stateKey db pattern tmplID) with (encode_key (KState db (indexHash pattern tmplID))) in Hl.
  assert (Hr : forall K, wf_key K -> match K with KState _ _ => False | _ => True end -> rows (content (ps_db s)) K = rows (content d) K).
  { intros K HK HF. unfold rows. destruct Hl as [->|[-> _]]; [|done]. rewrite lookup_insert_ne; [done|].
    intros E. apply encode_key_inj in E; [by subst K|done|done]. }
  assert (Hsame : same_rows (rows (content (ps_db s))) (rows (content d))) by (intros K HK HL; apply Hr; [done|by destruct K]).
  assert (Hsp : disk_spec (rows (content d)) ≡ disk s) by (symmetry; by apply disk_spec_same).
  assert (Hm : mid (set_db s d (ps_flushErr s) (ps_phase s)) ≡ mid s) by (unfold mid, disk at 1, table_of; cbn; by rewrite Hsp).
  assert (Ha : abs (set_db s d (ps_flushErr s) (ps_phase s)) ≡ abs s).
  { unfold abs. change (ps_projectionPending (set_db _ _ _ _)) with (ps_projectionPending s). f_equiv. exact Hm. }
  split_and!; try done.
  apply store_inv_set_db; [done| |by eapply disk_ok_same| |done|].
  - destruct Hl as [->|[-> _]]; [|done]. intros k v [[<- _]|[_ Hk]]%lookup_insert_Some; [by exists (KState db (indexHash pattern tmplID))|by eapply Ht].
  - destruct Hlg as [L1 L2]. split.
    + intros db' h doc v Hh. rewrite <- Hr by done. by apply L1.
    + intros db' h x v Hh Hx. destruct Hh as [? ?]. rewrite <- Hr by done. rewrite L2 by done.
      assert (E : forall doc, rows (content d) (KRev db' h doc) = rows (content (ps_db s)) (KRev db' h doc)) by (intros; symmetry; by apply Hr).
      by setoid_rewrite E.
  - intros Hp. unfold mid at 1, disk, table_of in Hm. cbn in Hm. rewrite Hm, (si_committed _ Hi Hp). by rewrite Hsp.
Qed.

Lemma run_tracked calls s : run calls s -> exists h, tracked calls s h.
Proof.
  induction 1 as [path n d s Hc H|calls s op s' r Hrun [h IH] Hv Hl H|calls s db pattern tmplID st s' r Hrun [h IH] H|calls s Hrun [h IH]
    |calls s Hrun [h IH] Hp|calls s Hrun [h IH] Hp|calls s e Hrun [h IH] Hp|calls s d Hrun [h IH] Hc].
  - assert (Hrows : forall K, rows (content d) K = None) by (intros K; unfold rows; by rewrite Hc, lookup_empty).
    destruct (NewPebbleStore_spec path n d s) as (Hi & Ha & Hp & He & Hd).
    + intros k v Hk. by rewrite Hc, lookup_empty in Hk.
    + split; intros *; rewrite ?Hrows; try done. intros _. split; [done|]. intros (doc & _ & Hx). unfold disk_postings in Hx.
      rewrite Hrows in Hx. by apply elem_of_nil in Hx.
    + split; intros *; rewrite ?Hrows; try done. intros _ _. split; [done|]. intros (doc & _ & Hx). by rewrite Hrows in Hx.
    + done.
    + assert (E : abs s ≡ spec_new).
      { rewrite Ha. split_and!; cbn [disk_spec spec_new sp_postings sp_partition sp_progress sp_generation sp_catalog sp_inventory sp_retired];
          intros; unfold disk_postings; by rewrite ?Hrows. }
      exists []. split; [done|constructor|done|by rewrite Hp|]. exists []. split; [apply trimmed_refl|]. by rewrite Hd.
  - destruct (exec_outcome op s s' r (tk_inv _ _ _ IH) Hv Hl H) as [Hi Ho]. by eapply tracked_call.
  - destruct (SetState_spec _ _ _ _ _ _ _ (tk_inv _ _ _ IH) H) as (Hi & D & M & A & E & P). exists h.
    apply (tracked_silent calls s); [done|done| | |by left]; [by rewrite E|]. rewrite P. intros Hp. by left.
  - exists h. apply (tracked_silent calls s); [done| |done| |by left].
    + destruct (tk_inv _ _ _ IH) as [[Ht Hd Hl HF Hops HD Hj] Hp Hops' Hdel Hdisj Hidle Hc]. split; try done.
    + intros Hp. by left.
  - destruct (flush_begin_spec s (tk_inv _ _ _ IH) Hp) as (Hi & D & E & A & M). exists h.
    apply (tracked_silent calls s); [done|done| | |by left]; [rewrite E; auto|]. intros Hb. right. by apply M.
  - destruct (flush_commit_spec s (tk_inv _ _ _ IH) Hp) as (Hi & D & A & E & P). exists h.
    apply (tracked_silent calls s); [done|done|by rewrite E|done|]. destruct D; auto.
  - destruct (flush_finish_spec s e (tk_inv _ _ _ IH) Hp) as (Hi & D & A & E & P). exists h.
    apply (tracked_silent calls s); [done|done|auto|by rewrite P|by left].
  - destruct (abs_set_db s d (ps_flushErr s) (ps_phase s) Hc) as (E1 & E2 & E3). exists h.
    apply (tracked_silent calls s); [done| |cbn; by rewrite E3|cbn; intros Hp; left; by rewrite E2|left; by rewrite E1].
    pose proof (tk_inv _ _ _ IH) as Hi. apply store_inv_set_db; rewrite ?Hc; try apply (si_batch _ Hi); [done|done|].
    apply (si_committed _ Hi).
Qed.
(** C15: Refinement. Whatever the order of writes, publications, deletions and
    background flushes, as long as no write to the database failed, every query
    that returns answers from the state the accepted calls make of an empty store:
    progress, generations, catalogs, retired databases and partitions, whether
    still pending, being flushed or on disk. *)
Theorem store_refines calls s :
  run calls s -> ps_flushErr s = None -> answers s (replay (accepted calls)).
Proof.
  intros Hr He. destruct (run_tracked calls s Hr) as [h Ht]. destruct (tk_abs _ _ _ Ht He) as [<- Ha].
  rewrite <- Ha. apply store_answers, (tk_inv _ _ _ Ht).
Qed.

(** C16: Durability. Stop the process at any moment of any run, a failed flush
    included, and open the database again: the store then answers from the result
    of a history that has every accepted call, and may have failed ones, less some
    of the last writes that are acknowledged before they are on disk. No document
    is torn, and the checkpoint read is the one that belongs to the postings. *)
Theorem durable_history calls s path n s' :
  run calls s -> NewPebbleStore path n (ps_db s) = Ok s' ->
  exists h hd, explains calls h /\ trimmed hd h /\ abs s' ≡ replay hd /\ answers s' (replay hd).
Proof.
  intros Hr Ho. destruct (run_tracked calls s Hr) as [h Ht]. destruct (tk_disk _ _ _ Ht) as (hd & Htr & Hd).
  destruct (si_batch _ (tk_inv _ _ _ Ht)) as [T D L _ _ _ _].
  destruct (NewPebbleStore_spec path n (ps_db s) s' T D L Ho) as (Hi & Ha & _). exists h, hd.
  assert (E : abs s' ≡ replay hd) by (by rewrite Ha). split_and!; [apply (tk_explains _ _ _ Ht)|done|done|].
  rewrite <- E. by apply store_answers.
Qed.

(** ** After a failed batch *)

(** A batch that is not committed: of a background flush, of a publication whose
    checks passed, or of a metadata change. *)
Inductive failed_write : PebbleStore -> PebbleStore -> store_error -> Prop :=
| failed_flush s e : ps_phase s = FlushCommitted (Some e) -> failed_write s (flush_finish s) e
| failed_publication s w d e :
    ps_flushErr s = None -> ps_closed s = false ->
    (forall r, mw_partition w = Some r -> validatePublishedGenerationLocked s r = (s, None)) ->
    (mw_singleCatalog w = true -> validateSingleCatalogPublicationLocked s = (s, None)) ->
    commit_batch (ps_db s) (populateBatch (take_pending s FlushIdle) (Some w)) = (d, Some e) ->
    failed_write s (publishMetadata s w).1 e
| failed_metadata s m d e : commit_batch (ps_db s) m = (d, Some e) -> failed_write s (commitMetadataBatch s m).1 e.

(** What may happen to a store from some moment on. *)
Inductive later (s : PebbleStore) : PebbleStore -> Prop :=
| later_here : later s s
| later_call s1 op : later s s1 -> later s (exec op s1).1
| later_state s1 db pattern tmplID st : later s s1 -> later s (SetState s1 db pattern tmplID st).1
| later_close s1 : later s s1 -> later s (Close s1)
| later_begin s1 : later s s1 -> later s (flush_begin s1)
| later_commit s1 : later s s1 -> ps_phase s1 = FlushBegun -> later s (flush_commit s1)
| later_finish s1 : later s s1 -> later s (flush_finish s1)
| later_database s1 d : later s s1 -> content d = content (ps_db s1) -> later s (set_db s1 d (ps_flushErr s1) (ps_phase s1)).

Definition queries_refused (s : PebbleStore) (e : store_error) : Prop :=
  LoadProgress s = Err e /\ ListQueryIndexes s = Err e /\
  (forall db c f, ReadGeneration s db c f = Err e) /\ (forall db, ReadBootstrapCatalog s db = Err e) /\
  ListBootstrapCatalogs s = Err e /\ (forall db, IsDatabaseRetired s db = Err e) /\
  (forall ctx r budget, is_ok (ReadView ctx s r budget) = false).

Lemma failed_refuses s e :
  ps_flushErr s = Some e -> (forall op, exists e', exec op s = (s, Some e')) /\ queries_refused s e /\ flush_begin s = s.
Proof.
  intros He. assert (Hw : writeErrorLocked s = Some e) by (unfold writeErrorLocked; by rewrite He).
  unfold queries_refused, LoadProgress, ListQueryIndexes, ReadGeneration, ReadBootstrapCatalog, ListBootstrapCatalogs, IsDatabaseRetired, ReadView, flush_begin.
  rewrite He, Hw. split_and!; try done.
  - intros op. destruct op; cbn [exec]; unfold ApplyDocumentProjection, PublishGeneration, PublishBootstrapCatalog, PublishBootstrapCatalogs,
      publishMetadata, SetFailure, DeleteQueryIndex, DeleteDatabase, Upsert, Delete, enqueue_op, DeleteIndex; rewrite ?Hw; try (by eexists);
      repeat case_match; try (by eexists).
    match goal with H : OwnBootstrapCatalogs _ _ = Ok [] |- _ => by apply OwnBootstrapCatalogs_some in H end.
  - intros ctx r budget. destruct (ctx 0%nat); [done|]. by destruct (NormalizeReadBudget budget).
Qed.

Lemma failed_write_sets s s' e : failed_write s s' e -> ps_flushErr s' = Some e.
Proof.
  intros [s0 e0 Hp|s0 w d e0 He Hc Hpart Hsingle Hb|s0 m d e0 Hb].
  - unfold flush_finish. by rewrite Hp.
  - unfold publishMetadata, writeErrorLocked, flush_publish. rewrite !He, Hc.
    assert (H1 : match mw_partition w with Some r => validatePublishedGenerationLocked s0 r | None => (s0, None) end = (s0, None))
      by (destruct (mw_partition w); auto).
    assert (H2 : (if mw_singleCatalog w then validateSingleCatalogPublicationLocked s0 else (s0, None)) = (s0, None))
      by (destruct (mw_singleCatalog w); auto).
    rewrite H1, H2. change (ps_db (take_pending s0 FlushIdle)) with (ps_db s0). by rewrite Hb.
  - unfold commitMetadataBatch. by rewrite Hb.
Qed.

(** Nothing of the indexes reaches the disk any more: the store stays failed. *)
Lemma later_failed s s' : is_Some (ps_flushErr s) -> later s s' ->
  is_Some (ps_flushErr s') /\ (ps_phase s <> FlushBegun -> ps_phase s' <> FlushBegun /\ disk s' ≡ disk s).
Proof.
  intros He. induction 1 as [|s1 op _ [[e1 He1] IH]|s1 db pattern tmplID st _ [He1 IH]|s1 _ [He1 IH]|s1 _ [[e1 He1] IH]
    |s1 _ [He1 IH] Hp|s1 _ [He1 IH]|s1 d _ [He1 IH] Hc].
  - done.
  - destruct (failed_refuses s1 e1 He1) as [Hx _]. destruct (Hx op) as [e' ->]. split; [by exists e1|done].
  - pose proof (SetState_disk s1 db pattern tmplID st) as Hd. unfold SetState in *. destruct (db_Set _ _ _) as [d r].
    split; [done|]. intros Hs. destruct (IH Hs) as [Hph Hdk]. split; [done|]. by rewrite <- Hdk.
  - done.
  - destruct (failed_refuses s1 e1 He1) as (_ & _ & ->). split; [by exists e1|done].
  - unfold flush_commit. destruct (commit_batch _ _) as [d r]. split; [done|]. intros Hs. by destruct (IH Hs).
  - unfold flush_finish. destruct (ps_phase s1) as [| |[x|]] eqn:Hp; rewrite ?Hp; try done; cbn; (split; [done|]).
    + intros Hs. by destruct (IH Hs).
    + intros Hs. by destruct (IH Hs).
  - split; [done|]. intros Hs. destruct (IH Hs) as [Hph Hdk]. split; [done|]. by destruct (abs_set_db s1 d (ps_flushErr s1) (ps_phase s1) Hc) as [-> _].
Qed.

(** C17: Fail-stop. When a batch fails to reach the database - of a background flush,
    of a publication or of a metadata change - the store is marked with the error, and
    from then on, whatever calls, flushes and shutdown follow: every projection,
    publication, failure mark, deletion and legacy upsert or delete is refused and
    changes nothing, no flush starts again, and LoadProgress, ListQueryIndexes,
    ReadGeneration, ReadBootstrapCatalog, ListBootstrapCatalogs, IsDatabaseRetired and
    ReadView return an error. Unless a background batch was on its way to the
    database at that moment, the postings, generations, catalogs and checkpoint on disk
    never change again. SetState and the legacy reads Get, Search, GetState,
    ListDatabases and ListIndexes do not look at the error: they are not among the
    refused operations. *)
Theorem fail_stop s0 s1 e s :
  failed_write s0 s1 e -> later s1 s ->
  ps_flushErr s1 = Some e /\
  exists e', ps_flushErr s = Some e' /\ (forall op, exists e'', exec op s = (s, Some e'')) /\ queries_refused s e' /\
    flush_begin s = s /\ (ps_phase s1 <> FlushBegun -> disk s ≡ disk s1).
Proof.
  intros Hf Hl. apply failed_write_sets in Hf. split; [done|].
  destruct (later_failed s1 s) as [[e' He'] Hd]; [by exists e|done|]. exists e'.
  destruct (failed_refuses s e' He') as (Hx & Hq & Hb). split_and!; try done. intros Hp. by apply Hd.
Qed.
End PersistHistory.

(** ** A run: two documents, the second applied while the first is flushed *)
Definition sample_ref : QueryIndexRef := IndexRef "db" "users" "f1" "g1".
Definition sample_keys (id : string) : list bytes :=
  match Encode [Field (VString "x") Desc false] id with Ok key => [key] | Err _ => [] end.
Definition sample_projection (id : string) : Projection :=
  {| proj_Index := sample_ref; proj_DocumentID := id; proj_PostingKeys := sample_keys id |}.
Definition sample_catalog : BootstrapCatalog :=
  {| cat_Database := "db"; cat_Generation := "g1"; cat_TemplateFingerprints := ["f1"]; cat_BootstrapProgress := "p0" |}.

Abbreviation sample_store := (PebbleStore (PB := map_pebble)).
Abbreviation sample_exec := (exec (PB := map_pebble) (XX := sum_hash) (MJ := component_json) (RO := any_range_order)).
Abbreviation sample_open := (NewPebbleStore (PB := map_pebble) "index" 10).
Abbreviation sample_run := (run (PB := map_pebble) (XX := sum_hash) (MJ := component_json) (RO := any_range_order)).

Definition apply_sample (id progress : string) : store_op := OApply [sample_projection id] progress.
Definition blank_store : sample_store := {|
  ps_db := (∅ : @pebble map_pebble); ps_flushErr := None; ps_projectionPending := ∅; ps_projectionFlushing := ∅;
  ps_pending := ∅; ps_flushing := ∅; ps_pendingIndexDeletes := ∅; ps_flushingIndexDeletes := ∅;
  ps_pendingProgress := ""; ps_flushingProgress := ""; ps_closed := false; ps_batchSize := 10; ps_notified := false;
  ps_phase := FlushIdle |}.
Definition sample_opened (d : @pebble map_pebble) : sample_store := match sample_open d with Ok s => s | Err _ => blank_store end.
Definition sample_published := (sample_exec (OPublishCatalog sample_catalog) (sample_opened ∅)).1.
Definition sample_flushing := flush_begin (sample_exec (apply_sample "u1" "p1") sample_published).1.
Definition sample_end : sample_store :=
  flush_finish (flush_commit (XX := sum_hash) (MJ := component_json) (RO := any_range_order)
    (sample_exec (apply_sample "u2" "p2") sample_flushing).1).
Definition sample_calls : list call :=
  [(OPublishCatalog sample_catalog, None); (apply_sample "u1" "p1", None); (apply_sample "u2" "p2", None)].

Lemma exec_sample op s : (sample_exec op s).2 = None -> sample_exec op s = ((sample_exec op s).1, None).
Proof. by destruct (sample_exec op s) as [s' r]; intros [= ->]. Qed.

Lemma sample_open_ok d : is_ok (sample_open d) = true -> sample_open d = Ok (sample_opened d).
Proof. unfold sample_opened. by destruct (sample_open d). Qed.

Definition key_ofb (doc : string) (key : bytes) : bool :=
  forallb (fun b => (0 <=? b) && (b <? 256)) key && negb (Nat.eqb (length key) 0) && (Z.of_nat (length key) <? 2 ^ 64) &&
  match ExtractDocID key with Ok d => String.eqb d doc | Err _ => false end.
Definition projection_validb (p : Projection) : bool :=
  utf8_ref (proj_Index p) && (Z.of_nat (length (proj_PostingKeys p)) <? 2 ^ 64) && forallb (key_ofb (proj_DocumentID p)) (proj_PostingKeys p).

Lemma key_ofb_ok doc key : key_ofb doc key = true -> key_of doc key.
Proof.
  unfold key_ofb. rewrite !andb_true_iff, forallb_forall. intros [[[B N%negb_true_iff%Nat.eqb_neq] L%Z.ltb_lt] E]. split_and!.
  - apply Forall_forall. intros b Hb%list_elem_of_In. specialize (B b Hb). unfold is_byte. lia.
  - split; [by intros ->|unfold is_u64; lia].
  - destruct (ExtractDocID key); [|done]. by apply String.eqb_eq in E as ->.
Qed.
Lemma projection_validb_ok p : projection_validb p = true -> projection_valid p.
Proof.
  unfold projection_validb. rewrite !andb_true_iff, forallb_forall. intros [[H1 H2%Z.ltb_lt] H3]. split_and!; [done| |unfold is_u64; lia].
  apply Forall_forall. intros k Hk%list_elem_of_In. apply key_ofb_ok. by apply H3.
Qed.
Lemma apply_valid ps progress : forallb projection_validb ps = true -> op_valid (OApply ps progress).
Proof. rewrite forallb_forall. intros H. apply Forall_forall. intros p Hp%list_elem_of_In. by apply projection_validb_ok, H. Qed.

Lemma sample_runs : sample_run sample_calls sample_end.
Proof.
  change sample_calls with ((([] ++ [(OPublishCatalog sample_catalog, None)]) ++ [(apply_sample "u1" "p1", @None store_error)])
    ++ [(apply_sample "u2" "p2", @None store_error)]).
  eapply run_finish with (e := None); [|vm_compute; reflexivity]. apply run_commit; [|vm_compute; reflexivity].
  eapply run_call with (s := sample_flushing); [|apply apply_valid; vm_compute; reflexivity|done|apply exec_sample; vm_compute; reflexivity].
  apply run_begin; [|vm_compute; reflexivity].
  eapply run_call with (s := sample_published); [|apply apply_valid; vm_compute; reflexivity|done|apply exec_sample; vm_compute; reflexivity].
  eapply run_call with (s := sample_opened ∅); [|vm_compute; reflexivity|vm_compute; reflexivity|apply exec_sample; vm_compute; reflexivity].
  apply (run_open "index" 10 (∅ : @pebble map_pebble)); [reflexivity|apply sample_open_ok; vm_compute; reflexivity].
Qed.

Lemma store_refines_witness :
  LoadProgress sample_end = Ok "p2"%string /\ answers (MJ := component_json) (SS := insertion_slice_sort) (RO := any_range_order) sample_end (replay (accepted sample_calls)).
Proof.
  split; [vm_compute; reflexivity|].
  apply (store_refines (XX := sum_hash) (SS := insertion_slice_sort)); [exact sample_runs|vm_compute; reflexivity].
Defined.

Lemma durable_history_witness :
  LoadProgress (sample_opened (ps_db sample_end)) = Ok "p1"%string /\
  exists h hd, explains sample_calls h /\ trimmed hd h /\ abs (MJ := component_json) (sample_opened (ps_db sample_end)) ≡ replay hd /\
    answers (MJ := component_json) (SS := insertion_slice_sort) (RO := any_range_order) (sample_opened (ps_db sample_end)) (replay hd).
Proof.
  split; [vm_compute; reflexivity|].
  apply (durable_history (XX := sum_hash) (SS := insertion_slice_sort) sample_calls sample_end "index" 10); [exact sample_runs|apply sample_open_ok; vm_compute; reflexivity].
Defined.

(** A disk that is full: batches fail. *)
Definition full_pebble : Pebble.
Proof.
  refine {|
    pebble := gmap bytes bytes; content m := m;
    db_Get m k := Ok ((fun v => (v, None)) <$> m !! k);
    db_Iter m lower upper := Ok (sorted_rows m lower upper, None, None);
    batch_Add _ _ _ := None; batch_Commit m _ := (m, Some "disk full"%string); batch_Close _ _ := None;
    db_Set m k v := (<[k := v]> m, None);
    db_NewSnapshot m := m; snapshot_Close _ := None; db_Close _ := None |}.
  - intros d k r [= <-]. by destruct (d !! k).
  - intros d lower upper rs e c [= <- <- <-]. destruct (sorted_rows_law d lower upper) as (H1 & H2 & H3). split_and!; auto.
  - intros d ops. right. by eexists.
  - intros d k v. by left.
  - done.
Defined.

Abbreviation full_exec := (exec (PB := full_pebble) (XX := sum_hash) (MJ := component_json) (RO := any_range_order)).
Definition full_store : PebbleStore (PB := full_pebble) := {|
  ps_db := (∅ : @pebble full_pebble); ps_flushErr := None; ps_projectionPending := ∅; ps_projectionFlushing := ∅;
  ps_pending := ∅; ps_flushing := ∅; ps_pendingIndexDeletes := ∅; ps_flushingIndexDeletes := ∅;
  ps_pendingProgress := ""; ps_flushingProgress := ""; ps_closed := false; ps_batchSize := 10; ps_notified := false;
  ps_phase := FlushIdle |}.
(** A document is applied and flushed to the full disk. *)
Definition full_committed : PebbleStore (PB := full_pebble) :=
  flush_commit (XX := sum_hash) (MJ := component_json) (RO := any_range_order)
    (flush_begin (full_exec (apply_sample "u1" "p1") full_store).1).

Lemma fail_stop_witness :
  exists e e', LoadProgress (full_exec (apply_sample "u2" "p2") (flush_finish full_committed)).1 = Err e /\
    full_exec (apply_sample "u3" "p3") (full_exec (apply_sample "u2" "p2") (flush_finish full_committed)).1
    = ((full_exec (apply_sample "u2" "p2") (flush_finish full_committed)).1, Some e').
Proof.
  destruct (fail_stop (PB := full_pebble) (XX := sum_hash) (MJ := component_json) (SS := insertion_slice_sort) (RO := any_range_order)
    full_committed (flush_finish full_committed) (ErrBackend "disk full")
    (full_exec (apply_sample "u2" "p2") (flush_finish full_committed)).1) as (_ & e & _ & Hx & Hq & _).
  - apply failed_flush. vm_compute. reflexivity.
  - apply later_call, later_here.
  - destruct (Hx (apply_sample "u3" "p3")) as [e' He']. exists e, e'. split; [exact (proj1 Hq)|exact He'].
Defined.
