(* ===== verification/PersistSearch.v ===== *)
(** * Searches of the legacy indexes

    Search returns the documents Get knows, in key order, within the bounds and up
    to the limit ([Search_exact]), when the database's name needs no escaping; the
    bounds of other databases share their bytes ([shared_bounds]). *)
From stdpp Require Import base list sorting gmap strings.
From Stdlib Require Import ZArith.
From S2P Require Import Prelude PostingSet OrderKey IndexStore Intervals Refs Keys Pebble PersistStore PersistSpec PersistFacts PersistRefine PersistRun PersistReads PersistViews PersistScan PersistLegacy PersistHistory.
Local Open Scope Z_scope.

(** ** Bounds *)
Lemma append_exact prefix x : exists b, append_prefix prefix [] x = (b, []) /\ forall spare, resolve prefix spare b = prefix ++ x.
Proof.
  unfold append_prefix. destruct x as [|c x]; cbn; [by exists (Shared 0)|]. by exists (Own (prefix ++ c :: x)).
Qed.
Lemma search_bounds_exact prefix opts :
  search_bounds prefix [] opts = (prefix ++ scan_lower opts, match opt_Upper opts with Some u => prefix ++ u | None => bump_last prefix end).
Proof.
  unfold search_bounds, scan_lower. destruct (append_exact prefix (opt_Lower opts)) as (lo & -> & Hlo).
  assert (Hu : exists b, match opt_Upper opts with Some upper => append_prefix prefix [] upper | None => (Own (bump_last prefix), []) end = (b, [])
    /\ forall spare, resolve prefix spare b = match opt_Upper opts with Some u => prefix ++ u | None => bump_last prefix end).
  { destruct (opt_Upper opts) as [u|]; [apply append_exact|by eexists]. }
  destruct Hu as (up & -> & Hup). destruct (opt_StartAfter opts) as [after|]; [|by rewrite Hlo, Hup].
  destruct (append_exact prefix after) as (st & -> & Hst). cbn [fst snd]. rewrite Hlo, Hst, Hup. unfold bytes_ltb at 1. rewrite bytes_compare_app_r.
  fold (bytes_ltb (opt_Lower opts) after). destruct (bytes_ltb _ _); by rewrite ?Hlo, ?Hst.
Qed.
Lemma bump_last_end p b : b <> 255 -> prefixEnd (p ++ [b]) = Some (bump_last (p ++ [b])).
Proof.
  intros Hb. unfold prefixEnd, bump_last. rewrite rev_app_distr. cbn. by rewrite (proj2 (Z.eqb_neq b 255) Hb).
Qed.

(** ** The loops *)
Section Loops.
Context (prefix : bytes) (opts : SearchOptions).
Implicit Types (rows : list row) (docs : list DocRef) (seen : gset string).

Lemma fast_loop_spec n rows : (forall x, x ∈ rows -> docref_OrderKey (index_ref prefix x) <> []) ->
  (fast_loop prefix opts n rows).1 = take n (List.filter (fun d => negb (is_start opts (docref_OrderKey d))) (map (index_ref prefix) rows)).
Proof.
  revert n; induction rows as [|x rows IH]; intros n Hne; cbn [fast_loop map List.filter]; [by rewrite take_nil|]. destruct n as [|n]; [done|].
  rewrite bool_decide_false by (apply Hne; by left). cbn [negb andb]. destruct (is_start opts _); cbn [negb].
  - apply IH. intros y Hy. apply Hne. by right.
  - specialize (IH n). destruct (fast_loop prefix opts n rows) as [out unread]. cbn in *. f_equal. apply IH. intros y Hy. apply Hne. by right.
Qed.
(** Rows that were not read do not matter. *)
Lemma fast_loop_more n rows more : (fast_loop prefix opts n rows).2 <> [] ->
  (fast_loop prefix opts n (rows ++ more)).1 = (fast_loop prefix opts n rows).1.
Proof.
  revert n; induction rows as [|x rows IH]; intros n; cbn [fast_loop app]; [done|]. destruct n as [|n]; [done|].
  destruct (_ && _); [apply IH|]. specialize (IH n). destruct (fast_loop prefix opts n rows), (fast_loop prefix opts n (rows ++ more)).
  cbn in *. intros H. by rewrite IH.
Qed.

Context (memOps : gmap string pendingOp).
Definition shown (d : DocRef) : bool := negb (is_start opts (docref_OrderKey d)) && negb (bool_decide (is_Some (memOps !! docref_ID d))).
Definition shown_rows rows : list DocRef := List.filter shown (map (index_ref prefix) rows).

Lemma next_db_spec seen rows : (forall d, d ∈ shown_rows rows -> docref_ID d ∉ seen) ->
  match shown_rows rows with
  | [] => next_db prefix opts memOps seen rows = ([], None)
  | d :: ds => exists x rest, next_db prefix opts memOps seen rows = (x :: rest, Some d) /\ shown_rows (x :: rest) = d :: ds /\ shown_rows rest = ds
  end.
Proof.
  unfold shown_rows. induction rows as [|x rows IH]; intros Hs; cbn [map List.filter next_db]; [done|].
  cbn [map List.filter] in Hs. destruct (shown (index_ref prefix x)) eqn:E.
  - exists x, rows. unfold shown in E. apply andb_true_iff in E as [E1%negb_true_iff E2%negb_true_iff]. rewrite E1, E2.
    rewrite bool_decide_false by (apply Hs; by left). cbn. unfold shown. rewrite E1, E2. done.
  - assert (Hskip : is_start opts (docref_OrderKey (index_ref prefix x)) || bool_decide (is_Some (memOps !! docref_ID (index_ref prefix x))) = true).
    { unfold shown in E. destruct (is_start _ _), (bool_decide _); done. }
    rewrite Hskip. cbn [orb]. by apply IH.
Qed.
Lemma skip_seen_id seen docs : (forall d, d ∈ docs -> docref_ID d ∉ seen) -> skip_seen seen docs = docs.
Proof. destruct docs as [|d docs]; [done|]. intros H. cbn. rewrite bool_decide_false; [done|]. apply H. by left. Qed.

Lemma merge_loop_spec n rows docs seen :
  NoDup (map docref_ID (shown_rows rows ++ docs)) -> (forall d, d ∈ shown_rows rows ++ docs -> docref_ID d ∉ seen) ->
  (merge_loop prefix opts memOps n rows docs seen).1 = take n (merge_refs (shown_rows rows) docs).
Proof.
  revert rows docs seen; induction n as [|n IH]; intros rows docs seen Hn Hs; [done|]. cbn [merge_loop].
  pose proof (next_db_spec seen rows ltac:(intros; apply Hs; set_solver)) as Hdb. rewrite skip_seen_id by (intros; apply Hs; set_solver).
  destruct (shown_rows rows) as [|d ds] eqn:Er.
  - rewrite Hdb. cbn [merge_refs app] in *. destruct docs as [|p docs]; [done|]. cbn in Hn. apply NoDup_cons in Hn as [Hp Hn].
    specialize (IH [] docs ({[docref_ID p]} ∪ seen)). destruct (merge_loop _ _ _ n [] _ _) as [out unread]. cbn in *. rewrite IH; [done|done|].
    intros q Hq. specialize (Hs q ltac:(by right)). assert (docref_ID q <> docref_ID p) by (intros E; apply Hp; rewrite <- E; by apply list_elem_of_fmap_2). set_solver.
  - destruct Hdb as (x & rest & -> & Ex & Erest). cbn [map app] in Hn. pose proof Hn as Hn0. apply NoDup_cons in Hn as [Hd Hn].
    assert (Hdb : (merge_loop prefix opts memOps n rest docs ({[docref_ID d]} ∪ seen)).1 = take n (merge_refs ds docs)).
    { rewrite <- Erest. apply IH; rewrite Erest; [done|]. intros q Hq. specialize (Hs q ltac:(by right)).
      assert (docref_ID q <> docref_ID d) by (intros E; apply Hd; rewrite <- E; by apply list_elem_of_fmap_2). set_solver. }
    cbn [tail]. destruct docs as [|p docs].
    { rewrite merge_nil_r in *. cbn [take]. destruct (merge_loop _ _ _ n rest [] _) as [out unread]. cbn in *. by rewrite Hdb. }
    rewrite merge_cons. rewrite bytes_leb_ltb. unfold key_less. destruct (bytes_ltb (docref_OrderKey p) (docref_OrderKey d)) eqn:Ep; cbn [negb take].
    + specialize (IH (x :: rest) docs ({[docref_ID p]} ∪ seen)). cbn [tail]. destruct (merge_loop _ _ _ n (x :: rest) docs _) as [out unread].
      cbn [fst] in *. rewrite IH; rewrite Ex; [done| |].
      * rewrite map_app in *. cbn [map app] in *. revert Hn0. clear. rewrite !NoDup_cons, !NoDup_app, NoDup_cons. set_solver.
      * intros q Hq. assert (docref_ID q <> docref_ID p).
        { intros E. rewrite map_app in Hn0. cbn [map] in Hn0. change (docref_ID d :: map docref_ID ds ++ docref_ID p :: map docref_ID docs)
            with ((docref_ID d :: map docref_ID ds) ++ docref_ID p :: map docref_ID docs) in Hn0.
          apply NoDup_app in Hn0 as (_ & H1 & H2). apply NoDup_cons in H2 as [H2 _]. apply elem_of_app in Hq as [Hq|Hq].
          - apply (H1 (docref_ID p)); [|by left]. rewrite <- E. change (docref_ID d :: map docref_ID ds) with (map docref_ID (d :: ds)).
            by apply list_elem_of_fmap_2.
          - apply H2. rewrite <- E. by apply list_elem_of_fmap_2. }
        assert (docref_ID q ∉ seen) by (apply Hs; set_solver). set_solver.
    + destruct (merge_loop _ _ _ n rest (p :: docs) _) as [out unread]. cbn in *. by rewrite Hdb.
Qed.

Lemma next_db_more seen rows more :
  match next_db prefix opts memOps seen rows with
  | ([], _) => True
  | (unread, d) => next_db prefix opts memOps seen (rows ++ more) = (unread ++ more, d)
  end.
Proof.
  induction rows as [|x rows IH]; cbn [next_db app]; [done|]. destruct (_ || _); [exact IH|]. done.
Qed.
Lemma next_db_none seen rows d : next_db prefix opts memOps seen rows = ([], d) -> d = None.
Proof. induction rows as [|x rows IH]; cbn [next_db]; [by intros [= <-]|]. destruct (_ || _); [exact IH|done]. Qed.
Lemma merge_loop_nil n docs seen : (merge_loop prefix opts memOps n [] docs seen).2 = [].
Proof.
  revert docs seen; induction n as [|n IH]; intros docs seen; cbn [merge_loop]; [done|]. cbn [next_db].
  destruct (skip_seen seen docs) as [|p ps]; [done|]. cbn [tail]. specialize (IH ps ({[docref_ID p]} ∪ seen)).
  by destruct (merge_loop _ _ _ n [] ps _).
Qed.
Lemma merge_loop_more n rows docs seen more : (merge_loop prefix opts memOps n rows docs seen).2 <> [] ->
  (merge_loop prefix opts memOps n (rows ++ more) docs seen).1 = (merge_loop prefix opts memOps n rows docs seen).1.
Proof.
  revert rows docs seen; induction n as [|n IH]; intros rows docs seen; cbn [merge_loop]; [done|].
  pose proof (next_db_more seen rows more) as Hm. pose proof (next_db_none seen rows) as Hnone.
  destruct (next_db prefix opts memOps seen rows) as [[|x rest] dbDoc] eqn:E.
  { rewrite (Hnone _ eq_refl). intros H. exfalso. destruct (skip_seen seen docs) as [|p ps]; [done|]. cbn [tail] in H.
    pose proof (merge_loop_nil n ps ({[docref_ID p]} ∪ seen)) as Hz. destruct (merge_loop _ _ _ n [] ps _). by cbn in *. }
  rewrite Hm. change ((x :: rest) ++ more) with (x :: (rest ++ more)) in *. cbn [tail].
  assert (Hd : forall d ps sn, (let '(out, unread) := merge_loop prefix opts memOps n rest ps sn in (d :: out, unread)).2 <> [] ->
    (let '(out, unread) := merge_loop prefix opts memOps n (rest ++ more) ps sn in (d :: out, unread)).1
    = (let '(out, unread) := merge_loop prefix opts memOps n rest ps sn in (d :: out, unread)).1).
  { intros d ps sn. specialize (IH rest ps sn). destruct (merge_loop _ _ _ n rest ps sn), (merge_loop _ _ _ n (rest ++ more) ps sn). cbn in *. intros H. by rewrite IH. }
  assert (Hp : forall d ps sn, (let '(out, unread) := merge_loop prefix opts memOps n (x :: rest) ps sn in (d :: out, unread)).2 <> [] ->
    (let '(out, unread) := merge_loop prefix opts memOps n (x :: (rest ++ more)) ps sn in (d :: out, unread)).1
    = (let '(out, unread) := merge_loop prefix opts memOps n (x :: rest) ps sn in (d :: out, unread)).1).
  { intros d ps sn. specialize (IH (x :: rest) ps sn). cbn [app] in IH.
    destruct (merge_loop _ _ _ n (x :: rest) ps sn), (merge_loop _ _ _ n (x :: (rest ++ more)) ps sn). cbn in *. intros H. by rewrite IH. }
  destruct dbDoc as [d|], (skip_seen seen docs) as [|p ps]; [apply Hd| |done|apply Hp]. destruct (bytes_leb _ _); [apply Hd|apply Hp].
Qed.
End Loops.

(** A search that returns read all the rows it needed. *)
Lemma unread_result (f : list row -> list DocRef * list row) rs lost err out :
  ((f rs).2 <> [] -> (f (rs ++ lost)).1 = (f rs).1) -> (err = None -> lost = []) ->
  (let '(o, unread) := f rs in match match unread with [] => err | _ :: _ => None end with Some e => Err (ErrBackend e) | None => Ok o end) = Ok out ->
  out = (f (rs ++ lost)).1.
Proof.
  intros Hmore Hlost. destruct (f rs) as [o [|x unread]] eqn:E; cbn [fst snd] in *; [|intros [= <-]; by rewrite Hmore].
  destruct err; [done|]. rewrite (Hlost eq_refl), app_nil_r, E. by intros [= <-].
Qed.

Lemma in_bounds_reached opts key : in_bounds opts key = negb (is_start opts key) && in_reach opts key.
Proof.
  unfold in_bounds, in_reach, is_start. destruct (opt_StartAfter opts) as [after|]; [|done]. rewrite (bytes_leb_ltb after key). unfold bytes_ltb at 1 3.
  rewrite (bytes_compare_antisym after key). case_bool_decide as E.
  - subst. rewrite bytes_compare_refl. cbn. by rewrite andb_false_r.
  - destruct (bytes_compare after key) eqn:Ec; [|done|done]. apply bytes_compare_eq in Ec. congruence.
Qed.

Lemma NoDup_ids l : NoDup l -> (forall a b, a ∈ l -> b ∈ l -> docref_ID a = docref_ID b -> a = b) -> NoDup (map docref_ID l).
Proof.
  induction 1 as [|x l Hx Hl IH]; intros Hf; cbn; constructor.
  - intros (y & E & Hy)%list_elem_of_fmap. apply Hx. rewrite (Hf x y); [done|by left|by right|done].
  - apply IH. intros a b Ha Hb. apply Hf; by right.
Qed.

Section PersistSearch.
Context `{PB : Pebble} `{XX : XXHash} `{MJ : MetadataJSON} `{SS : SliceSort} `{RO : RangeOrder} `{GA : GoAppend}.

(** A name without escapes leaves no spare capacity behind the prefix. *)
Lemma indexHash_length pattern tmplID : length (indexHash pattern tmplID) = 16%nat.
Proof.
  unfold indexHash. generalize (Sum64 (bytes_of_string pattern ++ bytes_of_string "|" ++ bytes_of_string tmplID)). intros z. done.
Qed.
Lemma capacity_fits parts c len : (len + list_sum parts <= c)%nat -> capacity_after c len parts = c.
Proof.
  revert len; induction parts as [|n parts IH]; intros len H; cbn [capacity_after]; [done|].
  change (list_sum (n :: parts)) with (n + list_sum parts)%nat in H. rewrite (proj2 (Nat.leb_le _ _)) by lia. apply IH. lia.
Qed.
Lemma prefix_spare_none db pattern tmplID : length (encodePathComponent db) = String.length db -> prefix_spare db pattern tmplID = [].
Proof.
  intros He. unfold prefix_spare, indexKeyPrefix. rewrite !length_app, indexHash_length, He. change (length prefixIdx) with 4%nat.
  rewrite capacity_fits by (cbn; lia). cbn [length]. by rewrite (proj2 (Nat.sub_0_le _ _)) by lia.
Qed.

Section Index.
Context (s : PebbleStore) (db pattern tmplID : string) (Hinv : store_inv s).
Let hash := indexHash pattern tmplID.
Let memOps := mem_ops s (idxMapKey db pattern tmplID).

Definition index_view : projectionView := {|
  pv_snapshot := ps_db s; pv_prefix := indexKeyPrefix db pattern tmplID; pv_replacements := ∅; pv_overlay := []; pv_closed := false;
  pv_examined := 0; pv_maxExamined := 0 |}.

Lemma index_view_ok : view_ok index_view.
Proof.
  split; [apply indexKeyPrefix_bytes| |constructor|intros d o _ Ho; by apply elem_of_nil in Ho].
  intros k x Hk. destruct (br_typed _ (si_batch _ Hinv) _ _ Hk) as (K & HK & ->). by apply encode_key_bytes.
Qed.
Lemma index_ref_row x : index_ref (indexKeyPrefix db pattern tmplID) x = row_ref index_view x.
Proof.
  unfold index_ref, row_ref, parseIndexKey. cbn [index_view pv_prefix]. f_equal. destruct (Nat.leb_spec (length x.1) (length (indexKeyPrefix db pattern tmplID))); [|done].
  by rewrite drop_ge.
Qed.

Lemma elem_of_index d : d ∈ db_refs index_view <-> table_of s (KRev db hash (docref_ID d)) = Some (docref_OrderKey d).
Proof.
  rewrite (elem_of_db_refs _ _ index_view_ok). destruct (indexHash_spec pattern tmplID) as [Hb Hs]. fold hash in Hb, Hs.
  pose proof (si_batch _ Hinv) as Hbr. pose proof (br_legacy _ Hbr) as Hl. cbn [index_view pv_snapshot pv_prefix].
  change (indexKeyPrefix db pattern tmplID) with (prefixIdx ++ encodePathComponent db ++ [47] ++ hash ++ [47]). split.
  - intros (k & x & Hk & Hp & ->). destruct (br_typed _ Hbr _ _ Hk) as (K & HK & ->). rewrite prefixb_index in Hp by done.
    destruct K as [| | | | | | |db' hash' key| | | | |]; try done. apply bool_decide_eq_true in Hp as [<- <-].
    apply (lk_index _ Hl db hash key x) in Hk as (doc & -> & Hrev); [|done|apply HK]. unfold row_ref.
    cbn [index_view pv_prefix fst snd docref_ID docref_OrderKey encode_key]. rewrite string_of_bytes_of_string.
    change (indexKeyPrefix db pattern tmplID) with (prefixIdx ++ encodePathComponent db ++ [47] ++ hash ++ [47]).
    replace (prefixIdx ++ encodePathComponent db ++ [47] ++ hash ++ [47] ++ key) with
      ((prefixIdx ++ encodePathComponent db ++ [47] ++ hash ++ [47]) ++ key) by (by rewrite <- !app_assoc). rewrite drop_app_length. exact Hrev.
  - intros Hrev. pose proof (lk_rev _ Hl _ _ _ _ (conj Hb Hs) Hrev) as (Hkb & _).
    assert (Hrow : table_of s (KIndex db hash (docref_OrderKey d)) = Some (bytes_of_string (docref_ID d))) by (apply (lk_index _ Hl); [done|done|eauto]).
    exists (encode_key (KIndex db hash (docref_OrderKey d))), (bytes_of_string (docref_ID d)). split; [exact Hrow|].
    rewrite prefixb_index by done. rewrite bool_decide_true by done. split; [done|]. unfold row_ref. cbn [index_view pv_prefix fst snd encode_key].
    change (indexKeyPrefix db pattern tmplID) with (prefixIdx ++ encodePathComponent db ++ [47] ++ hash ++ [47]).
    replace (prefixIdx ++ encodePathComponent db ++ [47] ++ hash ++ [47] ++ docref_OrderKey d) with
      ((prefixIdx ++ encodePathComponent db ++ [47] ++ hash ++ [47]) ++ docref_OrderKey d) by (by rewrite <- !app_assoc).
    rewrite drop_app_length, string_of_bytes_of_string. by destruct d.
Qed.
Lemma index_key_of d : d ∈ db_refs index_view -> key_of (docref_ID d) (docref_OrderKey d).
Proof.
  rewrite elem_of_index. apply (lk_rev _ (br_legacy _ (si_batch _ Hinv))). apply indexHash_spec.
Qed.

(** Pending writes. *)
Lemma mem_ops_lookup doc : memOps !! doc =
  match lookup2 (ps_pending s) (idxMapKey db pattern tmplID) doc with
  | Some op => Some op
  | None => lookup2 (ps_flushing s) (idxMapKey db pattern tmplID) doc
  end.
Proof.
  unfold memOps, mem_ops, lookup2. rewrite lookup_union.
  assert (E : forall o : option (gmap string pendingOp), default ∅ o !! doc = o ≫= lookup doc) by (by intros []).
  rewrite !E. destruct (_ ≫= _); [by rewrite union_Some_l|apply (left_id_L None (∪))].
Qed.
Lemma mem_ops_key doc op x : memOps !! doc = Some op -> op_orderKey op = Some x -> key_of doc x.
Proof.
  rewrite mem_ops_lookup. destruct (lookup2 (ps_pending s) _ doc) as [op'|] eqn:E.
  - intros [= ->]. by apply (si_ops _ Hinv _ _ _ E).
  - intros E'. by apply (br_ops _ (si_batch _ Hinv) _ _ _ E').
Qed.

Definition no_bounds : SearchOptions := {| opt_Lower := []; opt_Upper := None; opt_StartAfter := None; opt_Limit := 0 |}.
Lemma elem_of_pending o ops d : ops ≡ₚ map_to_list memOps -> d ∈ pending_docs o ops <->
  exists op, memOps !! docref_ID d = Some op /\ op_orderKey op = Some (docref_OrderKey d) /\ in_bounds o (docref_OrderKey d) = true.
Proof.
  intros Hp. unfold pending_docs. rewrite list_elem_of_omap. split.
  - intros ([id op] & Hop & H). rewrite Hp, elem_of_map_to_list in Hop. cbn in H. destruct (op_orderKey op) as [key|] eqn:Ek; [|done].
    rewrite isInBounds_in_bounds in H. destruct (in_bounds o key) eqn:Eb; [|done]. injection H as <-. eauto.
  - intros (op & Hop & Ek & Eb). exists (docref_ID d, op). rewrite Hp, elem_of_map_to_list. split; [done|]. cbn. rewrite Ek, isInBounds_in_bounds, Eb.
    by destruct d.
Qed.
Lemma pending_NoDup o ops : ops ≡ₚ map_to_list memOps -> NoDup (map docref_ID (pending_docs o ops)).
Proof.
  intros Hp. assert (Hn : NoDup ops.*1) by (rewrite Hp; apply NoDup_fst_map_to_list). clear Hp. unfold pending_docs.
  induction ops as [|[id op] ops IH]; cbn; [constructor|]. cbn in Hn. apply NoDup_cons in Hn as [Hid Hn].
  destruct (op_orderKey op) as [key|]; [|by apply IH]. destruct (isInBounds key o); [|by apply IH]. cbn. constructor; [|by apply IH].
  intros (d & -> & Hd)%list_elem_of_fmap. apply Hid. apply list_elem_of_omap in Hd as ([id' op'] & Hop & H). cbn in H.
  destruct (op_orderKey op'); [|done]. destruct (isInBounds _ o); [|done]. injection H as <-. cbn. apply list_elem_of_fmap. by exists (id', op').
Qed.
Lemma pending_key_of o ops d : ops ≡ₚ map_to_list memOps -> d ∈ pending_docs o ops -> key_of (docref_ID d) (docref_OrderKey d).
Proof. intros Hp (op & Hop & Ek & _)%(elem_of_pending o ops d Hp). by eapply mem_ops_key. Qed.
Lemma pending_sorted o ops l : ops ≡ₚ map_to_list memOps -> l ≡ₚ pending_docs o ops -> sorted_by key_less l -> key_sorted l.
Proof.
  intros Hp Hl Hs. apply key_sorted_sort; [|intros a b Ha Hb E|done].
  - rewrite Hl. eapply NoDup_fmap_1. by apply pending_NoDup.
  - rewrite Hl in Ha, Hb. apply (pending_key_of o ops) in Ha, Hb; [|done|done]. rewrite E in Ha. pose proof (key_of_agree _ _ _ Ha Hb). destruct a, b; cbn in *; congruence.
Qed.
Definition index_overlay : list DocRef := insertion_sort key_less (pending_docs no_bounds (map_to_list memOps)).
Lemma index_overlay_sorted : key_sorted index_overlay.
Proof.
  apply (pending_sorted no_bounds (map_to_list memOps)); [done|apply insertion_sort_perm|]. apply insertion_sort_sorted, (bytes_ltb_strict_weak docref_OrderKey).
Qed.
Lemma elem_of_index_overlay d : d ∈ index_overlay <-> exists op, memOps !! docref_ID d = Some op /\ op_orderKey op = Some (docref_OrderKey d).
Proof.
  unfold index_overlay. rewrite insertion_sort_perm, elem_of_pending by done. split.
  - intros (op & ? & ? & _). eauto.
  - intros (op & ? & ?). exists op. split_and!; [done|done|]. unfold in_bounds. cbn. by destruct (docref_OrderKey d).
Qed.

Definition unwritten (d : DocRef) : bool := negb (bool_decide (is_Some (memOps !! docref_ID d))).
Definition index_refs : list DocRef := merge_refs (List.filter unwritten (db_refs index_view)) index_overlay.

Lemma index_apart : keys_apart (List.filter unwritten (db_refs index_view)) index_overlay.
Proof.
  intros d o [Hd Hu]%elem_of_filterb (op & Hop & Ek)%elem_of_index_overlay E. apply index_key_of in Hd. pose proof (mem_ops_key _ _ _ Hop Ek) as Ho.
  rewrite E in Hd. pose proof (key_of_agree _ _ _ Hd Ho) as Ei. unfold unwritten in Hu. apply negb_true_iff, bool_decide_eq_false in Hu.
  apply Hu. rewrite Ei. by eexists.
Qed.
Lemma index_db_sorted : key_sorted (List.filter unwritten (db_refs index_view)).
Proof. apply key_sorted_filter, db_refs_sorted, index_view_ok. Qed.
Lemma index_refs_sorted : key_sorted index_refs.
Proof. apply merge_sorted; [apply index_db_sorted|apply index_overlay_sorted|apply index_apart]. Qed.

Lemma index_refs_Get d : indexDeletingLocked s (idxMapKey db pattern tmplID) = false -> (forall k, is_ok (db_Get (ps_db s) k) = true) ->
  d ∈ index_refs <-> Get s db pattern tmplID (docref_ID d) = Some (docref_OrderKey d).
Proof.
  intros Hdel Hok. unfold index_refs. rewrite elem_of_merge, elem_of_filterb, elem_of_index, elem_of_index_overlay. unfold unwritten.
  rewrite negb_true_iff, bool_decide_eq_false, mem_ops_lookup. unfold Get. rewrite Hdel.
  change (reverseKey db pattern tmplID (docref_ID d)) with (encode_key (KRev db hash (docref_ID d))).
  assert (Eg : match db_Get (ps_db s) (encode_key (KRev db hash (docref_ID d))) with Ok (Some (orderKey, _)) => Some orderKey | _ => None end
    = table_of s (KRev db hash (docref_ID d))).
  { specialize (Hok (encode_key (KRev db hash (docref_ID d)))). destruct (db_Get _ _) as [[[v c]|]|] eqn:E; [..|done]; apply db_Get_law in E;
      unfold table_of, rows; by rewrite <- E. }
  rewrite Eg. destruct (lookup2 (ps_pending s) _ _) as [op|]; [|destruct (lookup2 (ps_flushing s) _ _) as [op|]];
    (split; [intros [[H1 H2]|(op' & E & H)]|intros H]); simplify_eq; try done; try (destruct H2; by eexists); eauto.
Qed.

(** The rows of a search within its bounds. *)
Lemma search_rows opts rs err c : length (encodePathComponent db) = String.length db ->
  db_Iter (ps_db s) (search_bounds (indexKeyPrefix db pattern tmplID) (prefix_spare db pattern tmplID) opts).1
    (Some (search_bounds (indexKeyPrefix db pattern tmplID) (prefix_spare db pattern tmplID) opts).2) = Ok (rs, err, c) ->
  exists lost, (err = None -> lost = []) /\
    map (index_ref (indexKeyPrefix db pattern tmplID)) (rs ++ lost) = List.filter (fun d => in_reach opts (docref_OrderKey d)) (db_refs index_view).
Proof.
  intros He H. rewrite (prefix_spare_none _ _ _ He), search_bounds_exact in H. cbn [fst snd] in H.
  assert (Eu : Some (match opt_Upper opts with Some u => indexKeyPrefix db pattern tmplID ++ u | None => bump_last (indexKeyPrefix db pattern tmplID) end)
    = scan_upper (indexKeyPrefix db pattern tmplID) opts).
  { unfold scan_upper. destruct (opt_Upper opts); [done|]. unfold indexKeyPrefix. rewrite !app_assoc. by rewrite bump_last_end. }
  rewrite Eu in H. destruct (iter_rows _ _ _ _ _ _ H) as (lost & El & Hlost). exists lost. split; [done|].
  rewrite <- El, <- (scan_refs index_view opts index_view_ok). apply map_ext. apply index_ref_row.
Qed.

Lemma shown_refs opts l : List.filter (shown opts memOps) (List.filter (fun d => in_reach opts (docref_OrderKey d)) l)
  = List.filter (fun d => in_bounds opts (docref_OrderKey d)) (List.filter unwritten l).
Proof.
  rewrite <- (filter_filter_ext (fun d => in_bounds opts (docref_OrderKey d) && unwritten d)).
  - apply filter_filter_ext. done.
  - intros d. unfold shown. rewrite in_bounds_reached. fold (unwritten d). destruct (is_start _ _), (unwritten d), (in_reach _ _); done.
Qed.

Lemma search_documents opts n rs lost :
  map (index_ref (indexKeyPrefix db pattern tmplID)) (rs ++ lost) = List.filter (fun d => in_reach opts (docref_OrderKey d)) (db_refs index_view) ->
  let docs := sort_slice key_less (pending_docs opts (range memOps)) in
  (if bool_decide (memOps = ∅) then (fast_loop (indexKeyPrefix db pattern tmplID) opts n (rs ++ lost)).1
   else (merge_loop (indexKeyPrefix db pattern tmplID) opts memOps n (rs ++ lost) docs ∅).1)
  = take n (List.filter (fun d => in_bounds opts (docref_OrderKey d)) index_refs).
Proof.
  intros Hrows docs. unfold index_refs. rewrite filter_merge; [|apply index_db_sorted|apply index_overlay_sorted|apply index_apart].
  assert (Hdocs : docs = List.filter (fun d => in_bounds opts (docref_OrderKey d)) index_overlay).
  { apply key_sorted_unique; [|apply key_sorted_filter, index_overlay_sorted|].
    - apply (pending_sorted opts (range memOps)); [apply range_perm|apply sort_slice_perm|apply sort_slice_sorted, (bytes_ltb_strict_weak docref_OrderKey)].
    - intros d. unfold docs. rewrite sort_slice_perm, elem_of_pending by apply range_perm. rewrite elem_of_filterb, elem_of_index_overlay. naive_solver. }
  assert (Hshown : shown_rows (indexKeyPrefix db pattern tmplID) opts memOps (rs ++ lost)
    = List.filter (fun d => in_bounds opts (docref_OrderKey d)) (List.filter unwritten (db_refs index_view))).
  { unfold shown_rows. by rewrite Hrows, shown_refs. }
  case_bool_decide as Em.
  - assert (Eo : index_overlay = []) by (unfold index_overlay; rewrite Em, map_to_list_empty; done).
    rewrite Eo, merge_nil_r. rewrite fast_loop_spec.
    + rewrite Hrows, <- (filter_filter_ext (fun d => in_bounds opts (docref_OrderKey d))) by (intros d; apply in_bounds_reached).
      do 2 f_equal. symmetry. apply forallb_filter_id. apply forallb_forall. intros d _. unfold unwritten. by rewrite Em, lookup_empty.
    + intros x Hx. assert (Hd : index_ref (indexKeyPrefix db pattern tmplID) x ∈ db_refs index_view).
      { assert (Hin : index_ref (indexKeyPrefix db pattern tmplID) x ∈ map (index_ref (indexKeyPrefix db pattern tmplID)) (rs ++ lost)) by (by apply list_elem_of_fmap_2).
        rewrite Hrows in Hin. by apply elem_of_filterb in Hin as [? _]. }
      apply index_key_of in Hd as (_ & [Hne _] & _). exact Hne.
  - rewrite merge_loop_spec, Hshown, Hdocs; [done| |by intros ? _ ?%elem_of_empty].
    rewrite Hshown, map_app. apply NoDup_app. split_and!.
    + apply NoDup_ids; [apply key_sorted_NoDup, key_sorted_filter, index_db_sorted|].
      intros a b [[Ha _]%elem_of_filterb _]%elem_of_filterb [[Hb _]%elem_of_filterb _]%elem_of_filterb E. apply elem_of_index in Ha, Hb.
      rewrite E in Ha. destruct a, b; cbn in *; congruence.
    + intros id (a & -> & [[_ Hu]%elem_of_filterb _]%elem_of_filterb)%list_elem_of_fmap (o & E & Ho)%list_elem_of_fmap.
      unfold docs in Ho. rewrite sort_slice_perm in Ho. apply elem_of_pending in Ho as (op & Hop & _); [|apply range_perm].
      unfold unwritten in Hu. apply negb_true_iff, bool_decide_eq_false in Hu. apply Hu. rewrite E. by eexists.
    + unfold docs. rewrite sort_slice_perm. apply pending_NoDup, range_perm.
Qed.
End Index.

(** The documents of an index as Get knows them, in key order. *)
Definition lists_documents (s : PebbleStore) (db pattern tmplID : string) (refs : list DocRef) : Prop :=
  key_sorted refs /\ forall d, d ∈ refs <-> Get s db pattern tmplID (docref_ID d) = Some (docref_OrderKey d).

End PersistSearch.

(** ** Samples *)
Definition doubling : GoAppend.
Proof. refine {| grown c n := Nat.max n (2 * c) |}. intros; lia. Defined.

(** One document on disk, then written again. *)
Definition upsert (db id progress : string) : store_op := OUpsert db "users/*" "by-name" id (default [] (head (sample_keys id))) progress.
Definition upserted_once (db id : string) : sample_store :=
  flush_finish (flush_commit (XX := sum_hash) (MJ := component_json) (RO := any_range_order)
    (flush_begin (sample_exec (upsert db id "p1") (sample_opened ∅)).1)).
Definition upserted_twice (db id id' : string) : sample_store := (sample_exec (upsert db id' "p2") (upserted_once db id)).1.
Definition upsert_calls (db id id' : string) : list call := [(upsert db id "p1", None); (upsert db id' "p2", None)].

Definition sample_upserts (db id id' : string) : bool :=
  key_ofb id (default [] (head (sample_keys id))) && key_ofb id' (default [] (head (sample_keys id'))) &&
  match (sample_exec (upsert db id "p1") (sample_opened ∅)).2 with None => true | Some _ => false end &&
  match ps_phase (flush_begin (sample_exec (upsert db id "p1") (sample_opened ∅)).1) with FlushBegun => true | _ => false end &&
  match (sample_exec (upsert db id' "p2") (upserted_once db id)).2 with None => true | Some _ => false end.

Lemma is_none (r : option store_error) : (match r with None => true | Some _ => false end) = true -> r = None.
Proof. by destruct r. Qed.

Lemma flush_commit_phase (s : sample_store) :
  exists e, ps_phase (flush_commit (XX := sum_hash) (MJ := component_json) (RO := any_range_order) s) = FlushCommitted e.
Proof. unfold flush_commit. destruct (commit_batch _ _). by eexists. Qed.

Lemma upserts_run db id id' : sample_upserts db id id' = true -> sample_run (upsert_calls db id id') (upserted_twice db id id').
Proof.
  unfold sample_upserts. rewrite !andb_true_iff. intros [[[[H1%key_ofb_ok H2%key_ofb_ok] H3%is_none] H4] H5%is_none].
  change (upsert_calls db id id') with (([] ++ [(upsert db id "p1", @None store_error)]) ++ [(upsert db id' "p2", @None store_error)]).
  eapply run_call with (s := upserted_once db id); [|exact H2|done|apply exec_sample, H5].
  assert (Hp : ps_phase (flush_begin (sample_exec (upsert db id "p1") (sample_opened ∅)).1) = FlushBegun) by (revert H4; by destruct (ps_phase _)).
  destruct (flush_commit_phase (flush_begin (sample_exec (upsert db id "p1") (sample_opened ∅)).1)) as [e He].
  apply (run_finish _ _ e); [|exact He]. apply run_commit; [|exact Hp].
  apply run_begin; [|vm_compute; reflexivity].
  eapply run_call with (s := sample_opened ∅); [|exact H1|done|apply exec_sample, H3].
  apply (run_open "index" 10 (∅ : @pebble map_pebble)); [reflexivity|apply sample_open_ok; vm_compute; reflexivity].
Qed.

Abbreviation sample_Search := (Search (PB := map_pebble) (XX := sum_hash) (SS := insertion_slice_sort) (RO := any_range_order) (GA := doubling)).
Definition narrow : SearchOptions := {| opt_Lower := [0]; opt_Upper := Some [255]; opt_StartAfter := None; opt_Limit := 0 |}.
Definition found (r : res store_error (list DocRef)) : list DocRef := match r with Ok l => l | Err _ => [] end.


(** ** Where the code departs from that *)

(** Bounds of equal length that fit the spare capacity behind the prefix share
    their bytes, and the range between them is empty. *)
Theorem shared_bounds prefix spare opts upper :
  opt_StartAfter opts = None -> opt_Upper opts = Some upper -> length (opt_Lower opts) = length upper -> (length upper <= length spare)%nat ->
  search_bounds prefix spare opts = (prefix ++ upper, prefix ++ upper).
Proof.
  intros Ha Hu Hl Hs. unfold search_bounds, append_prefix. rewrite Ha, Hu, Hl, (proj2 (Nat.leb_le _ _)) by done.
  rewrite length_app, length_drop. rewrite (proj2 (Nat.leb_le (length upper) _)) by lia. cbn [resolve].
  by rewrite take_app_length.
Qed.

(** A document of a database whose name needs escaping: Get returns it, its key
    is within the bounds, and the search for it comes back empty. *)
Theorem Search_misses_escaped :
  exists key, Get (PB := map_pebble) (XX := sum_hash) (upserted_once "a b" "u1") "a b" "users/*" "by-name" "u1" = Some key /\
    in_bounds narrow key = true /\ sample_Search (upserted_once "a b" "u1") "a b" "users/*" "by-name" narrow = Ok [].
Proof. eexists. split; [vm_compute; reflexivity|]. split; vm_compute; reflexivity. Qed.

(** One document whose identifier needs escaping, on disk and pending: it counts
    twice. *)
Theorem countDocs_counts_twice :
  countDocs (PB := map_pebble) (XX := sum_hash) (RO := any_range_order) (upserted_twice "db" "a b" "a b") "db" "users/*" "by-name" = 2 /\
  map docref_ID (found (sample_Search (upserted_twice "db" "a b" "a b") "db" "users/*" "by-name" narrow)) = ["a b"]%string.
Proof. split; vm_compute; reflexivity. Qed.
