(* ===== verification/MemViews.v ===== *)
(** * The in-memory store as an implementation of the read interfaces

    Views and iterators of internal/indexer/mem_store/projection.go satisfy what
    [IndexViews] asks of them. *)
From stdpp Require Import base list sorting gmap strings.
From Stdlib Require Import ZArith.
From S2P Require Import Prelude IndexStore BTree MemIndex MemStore Intervals.
Local Open Scope Z_scope.

Section MemViews.
Context `{BT : BTree}.

Definition mv_ready (v : projectionView) : Prop := items_sorted (tree_items (view_tree v)) /\ view_closed v = false.
Definition mv_open (v : projectionView) (it : projectionIterator) : Prop := mv_ready v /\ opt_Limit (it_opts it) = 0.
Definition mv_left (v : projectionView) : Z := view_maxExamined v - view_examined v.
Definition mv_rest (it : projectionIterator) (l : list btreeItem) : list DocRef :=
  map to_docref (List.filter (fun x => negb (skipped it x)) l).
Definition mv_pending (v : projectionView) (it : projectionIterator) : list DocRef :=
  if it_closed it then [] else mv_rest it (pending_items v it).
Definition mv_cost (v : projectionView) (it : projectionIterator) : Z :=
  if it_closed it then 0 else Z.of_nat (length (pending_items v it)).

Lemma walk_cases it max e l :
  e <= max ->
  (exists e', walk it max e l = (e', WalkLimit) /\ max < e + Z.of_nat (length l)) \/
  (walk it max e l = (e + Z.of_nat (length l), WalkEnd) /\ e + Z.of_nat (length l) <= max /\ mv_rest it l = []) \/
  (exists sk x l', l = sk ++ x :: l' /\ walk it max e l = (e + Z.of_nat (length sk) + 1, WalkFound x) /\
     e + Z.of_nat (length sk) + 1 <= max /\ mv_rest it l = to_docref x :: mv_rest it l').
Proof.
  revert e; induction l as [|y l IH]; intros e He; cbn [walk].
  { right; left. cbn. rewrite Z.add_0_r. done. }
  destruct (Z.ltb_spec max (e + 1)); [left; eexists; split; [done|cbn; lia]|].
  unfold mv_rest. cbn [List.filter]. destruct (skipped it y) eqn:E; cbn [negb].
  - fold (mv_rest it l). destruct (IH (e + 1)) as [(e' & -> & ?)|[(-> & ? & ?)|(sk & x & l' & -> & -> & ? & ?)]]; [lia|..].
    + left. eexists. split; [done|]. cbn. lia.
    + right; left. split; [f_equal; cbn; lia|]. split; [cbn; lia|done].
    + right; right. exists (y :: sk), x, l'. split; [done|]. split; [f_equal; cbn; lia|]. split; [cbn; lia|done].
  - right; right. exists [], y, l. cbn. split; [done|]. split; [f_equal; lia|]. split; [lia|done].
Qed.

Lemma pending_reach opts x : pending (fresh opts) x = in_reach opts (item_key x).
Proof.
  unfold pending, in_reach. cbn [it_last fresh it_opts next_start]. rewrite lessFunc_pivot, <- bytes_leb_ltb. f_equal.
  cbn [item_key]. destruct (opt_StartAfter opts) as [after|]; [|by rewrite andb_true_r].
  fold (max_lower (opt_Lower opts) after). apply max_lower_spec.
Qed.

Lemma filter_postings (P : bytes -> bool) (l : list btreeItem) :
  List.filter (fun d => P (docref_OrderKey d)) (map to_docref l) = map to_docref (List.filter (fun x => P (item_key x)) l).
Proof. induction l as [|x l IH]; cbn; [done|]. rewrite IH. by destruct (P (item_key x)). Qed.

Definition mv_scan_cost (refs : list DocRef) (opts : SearchOptions) : Z :=
  Z.of_nat (length (List.filter (fun d => in_reach opts (docref_OrderKey d)) refs)).

Lemma mem_Scan_law v opts it : mv_ready v -> opt_Limit opts = 0 -> Scan Background v opts = Ok it ->
  mv_open v it /\ it_examined it = 0 /\
  mv_pending v it = List.filter (fun d => in_bounds opts (docref_OrderKey d)) (map to_docref (tree_items (view_tree v))) /\
  mv_cost v it = mv_scan_cost (map to_docref (tree_items (view_tree v))) opts.
Proof.
  intros [Hs Hc] Hl H. unfold Scan in H. cbn [Background] in H. rewrite Hc in H. apply Ok_inj in H as <-.
  change (mv_open v (fresh opts) /\ 0 = 0 /\
    mv_pending v (fresh opts) = List.filter (fun d => in_bounds opts (docref_OrderKey d)) (map to_docref (tree_items (view_tree v))) /\
    mv_cost v (fresh opts) = mv_scan_cost (map to_docref (tree_items (view_tree v))) opts).
  split; [done|]. split; [done|]. destruct (pending_fresh v opts Hs) as (Hp & Hsk & Hw). split.
  - unfold mv_pending, mv_rest. cbn [it_closed fresh]. rewrite filter_postings, Hp, List.filter_app. f_equal.
    rewrite filter_none; [|intros x Hx; rewrite Forall_forall in Hsk; by rewrite (Hsk x Hx)].
    apply forallb_filter_id, forallb_forall. intros x Hx%list_elem_of_In. rewrite Forall_forall in Hw. by rewrite (Hw x Hx).
  - unfold mv_cost, mv_scan_cost. cbn [it_closed fresh]. rewrite (filter_postings (in_reach opts)), length_map. do 2 f_equal.
    unfold pending_items. apply filter_ext_bool. intros x. apply pending_reach.
Qed.

Lemma mem_Next_law v it : mv_open v it -> 0 <= mv_left v ->
  exists v' it' r, Next Background v it = (v', it', r) /\
    (forall other, mv_open v other ->
       mv_open v' other /\ mv_pending v' other = mv_pending v other /\ mv_cost v' other = mv_cost v other) /\
    ((r = Err ErrWorkLimit /\ mv_left v < mv_cost v it) \/
     (exists n, 0 <= mv_left v' /\ mv_left v' = mv_left v - n /\ it_examined it' = it_examined it + n /\
        mv_cost v' it' = mv_cost v it - n /\ mv_open v' it' /\
        match mv_pending v it with
        | [] => r = Ok None /\ mv_pending v' it' = [] /\ mv_cost v' it' = 0
        | d :: ds => r = Ok (Some d) /\ mv_pending v' it' = ds
        end)).
Proof.
  intros [[Hs Hv] Hl] Hleft. unfold mv_left in *. destruct (it_closed it) eqn:Hc.
  { exists v, it, (Ok None). unfold Next. cbn [Background]. rewrite Hc. cbn [orb]. split; [done|]. split; [done|].
    right. exists 0. unfold mv_pending, mv_cost. rewrite Hc. split_and!; try done; lia. }
  assert (Hlim : at_limit it = false) by (unfold at_limit; by rewrite Hl).
  destruct (Next_walk v it Hs Hv Hc Hlim) as (it' & En & Hfound & Hend & Hex). rewrite En. clear En.
  eexists _, it', _. split; [done|]. split; [done|].
  destruct (walk_cases it (view_maxExamined v) (view_examined v) (pending_items v it)) as
    [(e' & E & Hlt)|[(E & Hle & Hr)|(sk & x & l' & El & E & Hle & Hr)]]; [lia|..]; rewrite E in *; cbn [fst snd] in *.
  - left. split; [done|]. unfold mv_cost. rewrite Hc. lia.
  - right. exists (Z.of_nat (length (pending_items v it))). specialize (Hex ltac:(done)). destruct (Hend eq_refl) as [Ho Hcl].
    unfold mv_pending, mv_cost, mv_open. rewrite Hc, Hcl, Hr, Ho. cbn. split_and!; try done; lia.
  - right. exists (Z.of_nat (length sk) + 1). specialize (Hex ltac:(done)). destruct (Hfound x eq_refl) as (Ho & Hlast & Hcl & _).
    pose proof (pending_next v (view_examined v + Z.of_nat (length sk) + 1) it it' sk x l' Hs El Ho Hlast) as Hp.
    unfold mv_pending, mv_cost, mv_open. rewrite Hc, Hcl, Hr, Hp, Ho. cbn [view_maxExamined view_examined view_at].
    split_and!; try done; try lia.
    + rewrite El, length_app. cbn. lia.
    + unfold mv_rest, skipped. by rewrite Ho.
Qed.

#[export] Instance mem_views : IndexViews := {|
  view := projectionView; iterator := projectionIterator;
  v_Scan := Scan; v_Next := Next; v_Examined := it_examined;
  v_CloseIterator it := (it_Close it, None); v_Close v := (view_Close v, None);
  v_postings v := map to_docref (tree_items (view_tree v));
  v_ready := mv_ready; v_open := mv_open; v_pending := mv_pending; v_cost := mv_cost; v_left := mv_left;
  v_scan_cost v opts := mv_scan_cost (map to_docref (tree_items (view_tree v))) opts;
  v_Scan_law := mem_Scan_law; v_Next_law := mem_Next_law;
  v_cost_nonneg v it := ltac:(unfold mv_cost; destruct (it_closed it); lia);
|}.

Context `{SS : SliceSort}.

Lemma mem_postings_sorted (s : Store) r : partitions_inv s -> StronglySorted docref_lt (map to_docref (postings s r)).
Proof.
  intros Hs. pose proof (postings_sorted s r Hs) as H. unfold items_sorted in H.
  induction H as [|x l Hl IH Hx]; cbn; constructor; [done|]. apply Forall_map.
  eapply Forall_impl; [exact Hx|]. cbn. intros y Hxy. rewrite lessFunc_compare in Hxy.
  unfold docref_lt. cbn. unfold item_compare in Hxy. by destruct (then_compare _ _).
Qed.

Lemma mem_ReadView_law (s : Store) r n v : partitions_inv s -> 0 < n ->
  ReadView Background s r {| MaxOverlayReplacements := 0; MaxOverlayBytes := 0; MaxExamined := n |} = Ok v ->
  mv_ready v /\ map to_docref (tree_items (view_tree v)) = map to_docref (postings s r) /\ mv_left v = n /\
  forall opts, mv_scan_cost (map to_docref (tree_items (view_tree v))) opts = mv_scan_cost (map to_docref (postings s r)) opts.
Proof.
  intros Hs Hn. unfold ReadView, NormalizeReadBudget. cbn [MaxOverlayReplacements MaxOverlayBytes MaxExamined].
  rewrite (proj2 (Z.ltb_ge n 0)) by lia. cbn. rewrite (proj2 (Z.eqb_neq n 0)) by lia. intros [= <-].
  unfold mv_ready, mv_left, postings, partition_or_new. cbn. rewrite Z.sub_0_r.
  pose proof (postings_sorted s r Hs) as H. unfold postings, partition_or_new in H.
  destruct (st_partitions s !! r); cbn in *; done.
Qed.

#[export] Instance mem_reads : IndexReads (IV := mem_views) := {|
  index_store := Store;
  r_ReadGeneration s db collection fingerprint := Ok (ReadGeneration s db collection fingerprint);
  r_ReadView := ReadView; r_ok := partitions_inv; r_postings s r := map to_docref (postings s r);
  r_scan_cost s r opts := mv_scan_cost (map to_docref (postings s r)) opts;
  r_postings_sorted := mem_postings_sorted; r_ReadView_law := mem_ReadView_law;
|}.
End MemViews.
