(* ===== verification/Candidates.v ===== *)
(** * Candidate planning: internal/indexer/manager/candidates.go

    Splitting keys into components, moving between postings and common order
    positions, and the compilation of a query plan into index branches. *)
From stdpp Require Import base list sorting gmap strings.
From Stdlib Require Import ZArith.
From S2P Require Import Prelude Value OrderKey Filter IndexStore Codec Template Projection Intervals.
Local Open Scope Z_scope.

Definition MaxCandidateBranches : Z := 128.
Definition MaxCandidatePositionBytes : Z := 4096.

Record OrderField := OrderBy { of_Field : string; of_Direction : direction }.
#[export] Instance OrderField_eq_dec : EqDecision OrderField. Proof. solve_decision. Defined.

Record CandidateGroup := { cg_ID : string; cg_Position : bytes; cg_Branches : list Z }.
Record CandidateBranch := {
  cb_Prefix : bytes; cb_FixedFields : nat; cb_Lower : bytes; cb_Upper : option bytes;
}.
Record PredicateAssignment := { pa_Predicate : nat; pa_Access : bool; pa_Residual : bool }.
Record CandidateMetadata := {
  md_Template : Template; md_TemplateFingerprint : string; md_Generation : string; md_BranchHash : string;
  md_EffectiveOrder : list OrderField; md_Branches : list CandidateBranch;
  md_Assignments : list PredicateAssignment;
}.

(** ** Components of a key *)

(** One component with its terminator, and what follows. *)
Fixpoint scan_part (desc : bool) (part key : bytes) : option (bytes * bytes) :=
  match key with
  | [] => None
  | b0 :: key1 =>
      if negb ((if desc then bnot b0 else b0) =? 0) then scan_part desc (part ++ [b0]) key1
      else match key1 with
           | [] => None
           | n0 :: key2 =>
               let next := if desc then bnot n0 else n0 in
               if next =? 0 then Some (part ++ [b0; n0], key2)
               else if negb (next =? 1) then None
               else scan_part desc (part ++ [b0; n0]) key2
           end
  end.

(** Every part takes at least two bytes, so the length of the key is enough fuel. *)
Fixpoint scan_parts (fuel : nat) (key : bytes) : option (list bytes) :=
  match fuel with
  | O => None
  | S fuel =>
      match key with
      | [] => Some []
      | b :: _ =>
          match scan_part (0x80 <? b) [] key with
          | Some (part, rest) => cons part <$> scan_parts fuel rest
          | None => None
          end
      end
  end.

Definition tupleParts (key : bytes) : res plan_error (list bytes) :=
  match key with
  | b :: rest =>
      if negb (b =? Version) then Err (ErrPlanEncoding ErrInvalidOrderKey)
      else match scan_parts (length key) rest with
           | Some parts => Ok parts
           | None => Err (ErrPlanEncoding ErrInvalidOrderKey)
           end
  | [] => Err (ErrPlanEncoding ErrInvalidOrderKey)
  end.

Definition is_id_asc (f : OrderField) : bool :=
  String.eqb (of_Field f) "id" && bool_decide (of_Direction f = Asc).

Definition orderComponents (order : list OrderField) : list OrderField :=
  match last order with
  | Some f => if is_id_asc f then take (length order - 1) order else order
  | None => order
  end.

Definition insert_parts (names : list string) (parts : list bytes) (m : gmap string bytes) : gmap string bytes :=
  foldl (fun m np => <[np.1 := np.2]> m) m (zip names parts).

(** The values of named fields, in order; a name without a value is a plan error. *)
Fixpoint append_parts (values : gmap string bytes) (names : list string) : option bytes :=
  match names with
  | [] => Some []
  | n :: names =>
      match values !! n with
      | Some part => app part <$> append_parts values names
      | None => None
      end
  end.

Definition PostingKey (m : CandidateMetadata) (position : bytes) (branchID : Z) : res plan_error bytes :=
  match (if branchID <? 0 then None else md_Branches m !! Z.to_nat branchID) with
  | None => Err ErrInvalidPlan
  | Some branch =>
      parts ← tupleParts position;
      let order := orderComponents (md_EffectiveOrder m) in
      if negb (length parts =? length order + 1)%nat then Err (ErrPlanEncoding ErrInvalidOrderKey)
      else
        let values := insert_parts (map of_Field order) parts ∅ in
        let logicalID := default [] (last parts) in
        let values := match values !! "id" with Some _ => values | None => <["id" := logicalID]> values end in
        match append_parts values (map tf_Field (drop (cb_FixedFields branch) (tmpl_Fields (md_Template m)))) with
        | None => Err ErrInvalidPlan
        | Some key => Ok (cb_Prefix branch ++ key ++ logicalID)
        end
  end.

(** The walk over the order in scanOptions: [Some] is the early return with the
    bound found (nil when the branch is exhausted), [None] falls through to the
    exact posting. *)
Fixpoint seek_order (fixed : gmap string bytes) (seek : bytes) (order : list OrderField) (parts : list bytes)
    : option (option bytes) :=
  match order, parts with
  | f :: order, part :: parts =>
      match fixed !! of_Field f with
      | Some v =>
          match bytes_compare v part with
          | Eq => seek_order fixed seek order parts
          | Lt => Some (PrefixSuccessor seek)
          | Gt => Some (Some seek)
          end
      | None => seek_order fixed (seek ++ part) order parts
      end
  | _, _ => None
  end.

Definition scanOptions (m : CandidateMetadata) (branchID : Z) (after : bytes) : res plan_error SearchOptions :=
  match (if branchID <? 0 then None else md_Branches m !! Z.to_nat branchID) with
  | None => Err ErrPlanIndexRange   (* an index out of range panics *)
  | Some branch =>
      let opts lower startAfter :=
        {| opt_Lower := lower; opt_Upper := cb_Upper branch; opt_StartAfter := startAfter; opt_Limit := 0 |} in
      if (length after =? 0)%nat then Ok (opts (cb_Lower branch) None)
      else
        parts ← tupleParts after;
        let order := orderComponents (md_EffectiveOrder m) in
        if negb (length parts =? length order + 1)%nat then Err (ErrPlanEncoding ErrInvalidOrderKey)
        else
          fixedParts ← tupleParts (cb_Prefix branch);
          let fixed := insert_parts (map tf_Field (tmpl_Fields (md_Template m))) fixedParts ∅ in
          match seek_order fixed (cb_Prefix branch) order parts with
          | Some None => Ok (opts (default [] (cb_Upper branch)) None)
          | Some (Some seek) =>
              Ok (opts (if bytes_ltb (cb_Lower branch) seek then seek else cb_Lower branch) None)
          | None =>
              seek ← PostingKey m after branchID;
              Ok (opts (cb_Lower branch) (Some seek))
          end
  end.

(** The component of an explicitly descending id, when the template indexes it. *)
Definition id_dimension (t : Template) (parts : list bytes) (part : bytes) : bytes :=
  foldl (fun part fp => if String.eqb (tf_Field fp.1) "id" then fp.2 else part) part (zip (tmpl_Fields t) parts).

Fixpoint position_parts (t : Template) (parts : list bytes) (values : gmap string bytes)
    (order : list OrderField) : option bytes :=
  match order with
  | [] => Some []
  | f :: order =>
      match values !! of_Field f with
      | None => None
      | Some part =>
          let part := if String.eqb (of_Field f) "id" && bool_decide (of_Direction f = Desc)
                      then id_dimension t parts part else part in
          app part <$> position_parts t parts values order
      end
  end.

Definition position (m : CandidateMetadata) (posting : bytes) : res plan_error bytes :=
  parts ← tupleParts posting;
  let t := md_Template m in
  if negb (length parts =? length (tmpl_Fields t) + 1)%nat then Err (ErrPlanEncoding ErrInvalidOrderKey)
  else
    let logicalID := default [] (last parts) in
    let values := <["id" := logicalID]> (insert_parts (map tf_Field (tmpl_Fields t)) parts ∅) in
    match position_parts t parts values (orderComponents (md_EffectiveOrder m)) with
    | None => Err ErrInvalidPlan
    | Some out =>
        let out := Version :: out ++ logicalID in
        if MaxCandidatePositionBytes <? Z.of_nat (length out) then Err ErrPlanWorkLimit else Ok out
    end.

(** ** Compilation *)

(** [plan.Filters] after the operator table, whose keys are the model's names. *)
Definition candidateFilters (filters : list filter) : res plan_error (list filter) :=
  if existsb (fun f => negb (IsValid (filter_op f))) filters then Err ErrInvalidPlan
  else
    out ← map_err (fun _ => ErrInvalidPlan) (NormalizeFilters filters);
    if existsb (fun f => match filter_op f, filter_value f with
                         | OpIn, VSlice items => 256 <? Z.of_nat (length items)
                         | _, _ => false
                         end) out then Err ErrInvalidPlan
    else Ok out.

Definition is_op (op : FilterOp) (f : filter) : bool := bool_decide (filter_op f = op).
Definition on_field (name : string) (f : filter) : bool := String.eqb (filter_field f) name.

(** Marks the predicates a test selects as accessed; the test sees their position. *)
Definition mark_access (p : nat -> bool) (l : list PredicateAssignment) : list PredicateAssignment :=
  imap (fun i a => if p i then {| pa_Predicate := pa_Predicate a; pa_Access := true; pa_Residual := pa_Residual a |}
                   else a) l.

Fixpoint find_index {A} (p : A -> bool) (l : list A) : option (nat * A) :=
  match l with
  | [] => None
  | x :: l => if p x then Some (O, x) else prod_map S id <$> find_index p l
  end.

(** The points of an [eq] or [in] operand. *)
Definition operand_points (f : filter) : res plan_error (list value) :=
  match filter_op f with
  | OpIn => match filter_value f with VSlice items => Ok items | _ => Err ErrPlanTypeAssertion end
  | _ => Ok [filter_value f]
  end.

(** Whether a point satisfies every filter on its field; each one is evaluated. *)
Fixpoint point_matches (name : string) (filters : list filter) (v : value) (matches : bool) : res plan_error bool :=
  match filters with
  | [] => Ok matches
  | f :: filters =>
      if on_field name f then
        ok ← map_err ErrPlanFilter (EvaluateFilter f v true);
        point_matches name filters v (matches && ok)
      else point_matches name filters v matches
  end.

Fixpoint admitted_points (name : string) (filters : list filter) (points : list value) : res plan_error (list value) :=
  match points with
  | [] => Ok []
  | v :: points =>
      ok ← point_matches name filters v true;
      rest ← admitted_points name filters points;
      Ok (if (ok : bool) then v :: rest else rest)
  end.

Definition count_on (name : string) (filters : list filter) : Z :=
  Z.of_nat (length (List.filter (on_field name) filters)).

(** The point constraint of one template field: the points with the updated
    assignments and access count, or [None] when the field is not constrained. *)
Definition field_points (field : tfield) (filters : list filter) (assignments : list PredicateAssignment) (access : Z)
    : res plan_error (option (list value) * list PredicateAssignment * Z) :=
  match tf_Mode field with
  | Membership =>
      match find_index (fun f => on_field (tf_Field field) f && is_op OpContains f) filters with
      | Some (i, f) => Ok (Some [filter_value f], mark_access (Nat.eqb i) assignments, access + 1)
      | None => Err ErrNoMatchingIndex
      end
  | _ =>
      match find_index (fun f => on_field (tf_Field field) f && (is_op OpEq f || is_op OpIn f)) filters with
      | None => Ok (None, assignments, access)
      | Some (_, f) =>
          points ← operand_points f;
          admitted ← admitted_points (tf_Field field) filters points;
          Ok (Some admitted,
              mark_access (fun i => match filters !! i with Some f => on_field (tf_Field field) f | None => false end)
                assignments,
              access + count_on (tf_Field field) filters)
      end
  end.

Definition scalar_key_or_nil (v : value) : bytes := match ScalarKey v with Ok k => k | Err _ => [] end.

Fixpoint extend_branch (prefix : bytes) (fixed : nat) (dir : direction) (points : list value)
    : res plan_error (list CandidateBranch) :=
  match points with
  | [] => Ok []
  | v :: points =>
      part ← fieldBytes v dir;
      rest ← extend_branch prefix fixed dir points;
      Ok ({| cb_Prefix := prefix ++ part; cb_FixedFields := fixed; cb_Lower := []; cb_Upper := None |} :: rest)
  end.

Fixpoint extend_branches (branches : list CandidateBranch) (fixed : nat) (dir : direction) (points : list value)
    : res plan_error (list CandidateBranch) :=
  match branches with
  | [] => Ok []
  | b :: branches =>
      out ← extend_branch (cb_Prefix b) fixed dir points;
      rest ← extend_branches branches fixed dir points;
      Ok (out ++ rest)
  end.

(** The state of the loop over the template's fields. *)
Record compile_state := {
  cs_branches : list CandidateBranch; cs_fixed : nat; cs_access : Z;
  cs_empty : bool; cs_exceeded : bool; cs_assignments : list PredicateAssignment;
}.

Section Compile.
Context `{SS : SliceSort}.

Fixpoint fix_fields (filters : list filter) (index : nat) (fields : list tfield) (st : compile_state)
    : res plan_error compile_state :=
  match fields with
  | [] => Ok st
  | field :: fields =>
      r ← field_points field filters (cs_assignments st) (cs_access st);
      match r.1.1 with
      | None => Ok st
      | Some points =>
          let empty := match points with [] => true | _ => cs_empty st end in
          let points := match points with [] => [VNil] | _ => points end in
          let points := sort_slice (fun a b => bytes_ltb (scalar_key_or_nil a) (scalar_key_or_nil b)) points in
          let exceeded := MaxCandidateBranches <? Z.of_nat (length (cs_branches st) * length points) in
          let branches := if exceeded then take 1 (cs_branches st) else cs_branches st in
          let points := if exceeded then take 1 points else points in
          next ← extend_branches branches (index + 1) (fieldDirection field) points;
          fix_fields filters (S index) fields
            {| cs_branches := next; cs_fixed := (index + 1)%nat; cs_access := r.2; cs_empty := empty;
               cs_exceeded := cs_exceeded st || exceeded; cs_assignments := r.1.2 |}
      end
  end.

Definition initial_state (filters : list filter) : compile_state := {|
  cs_branches := [{| cb_Prefix := [Version]; cb_FixedFields := 0; cb_Lower := []; cb_Upper := None |}];
  cs_fixed := 0; cs_access := 0; cs_empty := false; cs_exceeded := false;
  cs_assignments := imap (fun i _ => {| pa_Predicate := i; pa_Access := false; pa_Residual := true |}) filters;
|}.

Definition is_membership (f : tfield) : bool := match tf_Mode f with Membership => true | _ => false end.

Definition effective_order (t : Template) (orderBy : list OrderField) : list OrderField :=
  let order := match orderBy with
               | [] => map (fun f => OrderBy (tf_Field f) (fieldDirection f))
                         (List.filter (fun f => negb (is_membership f)) (tmpl_Fields t))
               | _ => orderBy
               end in
  if existsb (fun f => String.eqb (of_Field f) "id") order then order else order ++ [OrderBy "id" Asc].

(** The index serves this order field. *)
Definition order_served (t : Template) (f : OrderField) : bool :=
  match List.find (fun tf => String.eqb (tf_Field tf) (of_Field f)) (tmpl_Fields t) with
  | Some tf => negb (is_membership tf) && bool_decide (fieldDirection tf = of_Direction f)
  | None => is_id_asc f
  end.

Definition remaining_fields (t : Template) (fixed : nat) : list tfield :=
  let remaining := drop fixed (tmpl_Fields t) in
  match last remaining with
  | Some f => if String.eqb (tf_Field f) "id" && bool_decide (fieldDirection f = Asc)
              then take (length remaining - 1) remaining else remaining
  | None => remaining
  end.

(** The intervals of one branch on the first field that is not fixed. *)
Fixpoint constrain (prefix : bytes) (field : tfield) (filters : list filter) (i : nat)
    (intervals : list keyInterval) (assignments : list PredicateAssignment) (access : Z)
    : res plan_error (list keyInterval * list PredicateAssignment * Z) :=
  match filters with
  | [] => Ok (intervals, assignments, access)
  | f :: filters =>
      if negb (on_field (tf_Field field) f) || is_op OpContains f
      then constrain prefix field filters (S i) intervals assignments access
      else
        constraint ← filterIntervals prefix (fieldDirection field) f;
        constrain prefix field filters (S i) (intersectIntervals intervals constraint)
          (mark_access (Nat.eqb i) assignments) (access + 1)
  end.

Definition with_interval (b : CandidateBranch) (i : keyInterval) : CandidateBranch :=
  {| cb_Prefix := cb_Prefix b; cb_FixedFields := cb_FixedFields b; cb_Lower := iv_lower i; cb_Upper := iv_upper i |}.

Fixpoint bound_branches (next : option tfield) (filters : list filter) (branches : list CandidateBranch)
    (assignments : list PredicateAssignment) (access : Z)
    : res plan_error (list CandidateBranch * list PredicateAssignment * Z) :=
  match branches with
  | [] => Ok ([], assignments, access)
  | b :: branches =>
      let whole := [Interval (cb_Prefix b) (PrefixSuccessor (cb_Prefix b))] in
      r ← match next with
          | Some field => constrain (cb_Prefix b) field filters 0 whole assignments access
          | None => Ok (whole, assignments, access)
          end;
      rest ← bound_branches next filters branches r.1.2 r.2;
      Ok (map (with_interval b) r.1.1 ++ rest.1.1, rest.1.2, rest.2)
  end.

Definition branch_bytes (b : CandidateBranch) : Z :=
  Z.of_nat (length (cb_Prefix b) + length (cb_Lower b) + length (default [] (cb_Upper b))).

Definition direction_int (d : direction) : Z := match d with Asc => 0 | Desc => 1 | OtherDirection n => n end.

Definition branch_payload (empty : bool) (branches : list CandidateBranch) (order : list OrderField) : bytes :=
  json_object
    [("Branches", if empty then bytes_of_string "null"
                  else 91 :: json_elements (map (fun b => json_object
                    [("Prefix", json_bytes (Some (cb_Prefix b))); ("FixedFields", json_int (Z.of_nat (cb_FixedFields b)));
                     ("Lower", json_bytes (Some (cb_Lower b))); ("Upper", json_bytes (cb_Upper b))]) branches) ++ [93]);
     ("Order", json_slice (map (fun f => json_object
        [("Field", json_string (of_Field f)); ("Direction", json_int (direction_int (of_Direction f)))]) order))].

Definition branch_hash (empty : bool) (branches : list CandidateBranch) (order : list OrderField) : string :=
  string_of_bytes (hex_encode (Sha256.Sum256 (branch_payload empty branches order))).

Definition compileCandidate (t : Template) (filters : list filter) (orderBy : list OrderField)
    : res plan_error (CandidateMetadata * Z) :=
  st ← fix_fields filters 0 (tmpl_Fields t) (initial_state filters);
  let fixed := cs_fixed st in
  if cs_exceeded st && negb (cs_empty st) then Err ErrTooManyBranches
  else if existsb is_membership (drop fixed (tmpl_Fields t)) then Err ErrNoMatchingIndex
  else
    let order := effective_order t orderBy in
    if existsb (fun f => negb (order_served t f)) (orderComponents order) then Err ErrNoMatchingIndex
    else
      let fixedNames := map tf_Field (take fixed (tmpl_Fields t)) in
      let variableOrder := List.filter (fun f => negb (bool_decide (of_Field f ∈ fixedNames))) (orderComponents order) in
      let remaining := map (fun f => OrderBy (tf_Field f) (fieldDirection f)) (remaining_fields t fixed) in
      if negb (bool_decide (variableOrder = remaining)) then Err ErrNoMatchingIndex
      else
        r ← bound_branches (tmpl_Fields t !! fixed) filters (cs_branches st) (cs_assignments st) (cs_access st);
        let '(bounded, assignments, access) := r in
        if (access =? 0) && (length orderBy =? 0)%nat then Err ErrNoMatchingIndex
        else if MaxCandidateBranches <? Z.of_nat (length bounded) then Err ErrTooManyBranches
        else
          let bounded := if cs_empty st then [] else bounded in
          if Z.shiftl 1 20 <? foldl (fun n b => n + branch_bytes b) 0 bounded then Err ErrManifestBytes
          else
            Ok ({| md_Template := t; md_TemplateFingerprint := Fingerprint t; md_Generation := "";
                   md_BranchHash := branch_hash (cs_empty st) bounded order; md_EffectiveOrder := order;
                   md_Branches := bounded; md_Assignments := assignments |}, access).
End Compile.
