(* ===== verification/Completeness.v ===== *)
(** * Completeness of candidate plans

    A document whose projection was built and which satisfies the query's filters
    has a posting inside one of the branches the planner compiled: together,
    service.go (BuildDocumentProjection) and candidates.go (compileCandidate)
    never lose a match. *)
From stdpp Require Import base list sorting gmap strings.
From Stdlib Require Import ZArith.
From S2P Require Import Prelude Value OrderKey Filter IndexStore Codec Template Projection Intervals Candidates.
Local Open Scope Z_scope.

Definition wf_doc (doc : StoredDoc) : Prop :=
  is_i64 (doc_Version doc) /\ is_i64 (doc_CreatedAt doc) /\ is_i64 (doc_UpdatedAt doc) /\
  forall f v, doc_Data doc !! f = Some v -> wf_value v.

Lemma DocumentField_wf doc id f : wf_doc doc -> wf_value (DocumentField doc id f).1.
Proof.
  intros (H1 & H2 & H3 & H4). unfold DocumentField, is_i64 in *.
  repeat (destruct (String.eqb _ _); [cbn; lia || done|]).
  destruct (doc_Deleted doc); [done|]. destruct (doc_Data doc !! f) eqn:E; cbn; [by eapply H4|done].
Qed.

(** ** What a projection contains *)
Definition doc_field (doc : StoredDoc) (id : string) (f : tfield) : field :=
  let '(v, present) := DocumentField doc id (tf_Field f) in Field v (fieldDirection f) (negb present).

(** Each scalar element of an array is among the members, up to its key. *)
Definition members_cover (v : value) (members : list value) : Prop :=
  forall e k, e ∈ elements_of v -> ScalarKey e = Ok k ->
  exists m, m ∈ members /\ ScalarKey m = Ok k /\ wf_value m.

Lemma ScalarKey_normalized v n k : NormalizeValue v = Ok n -> ScalarKey v = Ok k -> ScalarKey n = Ok k.
Proof.
  intros Hn. unfold ScalarKey. rewrite Hn. cbn.
  by rewrite (NormalizeValue_of_normal n (NormalizeValue_normal _ _ Hn)).
Qed.

Lemma ScalarKey_not_container v : match v with VSlice _ | VMap _ => True | _ => False end -> forall k, ScalarKey v <> Ok k.
Proof.
  intros H k. unfold ScalarKey. destruct v; try done;
    destruct (NormalizeValue _) as [n|] eqn:E; cbn; try done; intros Hk; cbn [NormalizeValue] in E;
    apply fmap_ok in E as (ys & _ & ->); done.
Qed.

Lemma collect_members_cover limits name seen members elements out :
  Forall wf_value elements ->
  collect_members limits name seen members elements = Ok out ->
  (forall m, m ∈ members -> m ∈ out) /\
  (forall e k, e ∈ elements -> ScalarKey e = Ok k ->
     k ∈ seen \/ exists m, m ∈ out /\ ScalarKey m = Ok k /\ wf_value m).
Proof.
  intros Hwf. revert seen members; induction Hwf as [|e0 elements Hw0 Hwf IH]; intros seen members; cbn [collect_members].
  { intros [= <-]. split; [done|]. intros e k He. by apply elem_of_nil in He. }
  intros H. apply bind_ok in H as (n & Hn & H). apply map_err_ok in Hn.
  assert ((exists k0, ScalarKey e0 = Ok k0) ->
          (key ← map_err (ErrProjectionValue name) (ScalarKey n);
           if bool_decide (key ∈ seen) then collect_members limits name seen members elements
           else if Z.of_nat (length members) =? MaxPostings limits then Err ErrMembershipPostings
           else collect_members limits name ({[key]} ∪ seen) (members ++ [n]) elements) = Ok out) as Hscalar.
  { intros [k0 Hk0]. pose proof (ScalarKey_normalized _ _ _ Hn Hk0) as Hk.
    destruct n; try done; by apply ScalarKey_not_container in Hk. }
  destruct (ScalarKey e0) as [k0|err] eqn:Ek0.
  - specialize (Hscalar (ex_intro _ k0 eq_refl)). clear H. rewrite (ScalarKey_normalized _ _ _ Hn Ek0) in Hscalar.
    cbn [map_err mbind res_bind] in Hscalar. case_bool_decide as Hin.
    + destruct (IH _ _ Hscalar) as [H1 H2]. split; [done|].
      intros e k [->|He]%elem_of_cons Hk; [left; congruence|by apply (H2 e k)].
    + destruct (_ =? _); [done|]. destruct (IH _ _ Hscalar) as [H1 H2].
      split; [intros m Hm; apply H1; set_solver|].
      intros e k [->|He]%elem_of_cons Hk.
      * right. exists n. split; [apply H1; set_solver|]. rewrite Ek0 in Hk. injection Hk as <-.
        split; [by eapply ScalarKey_normalized|by eapply NormalizeValue_wf].
      * destruct (H2 e k He Hk) as [[->%elem_of_singleton|]%elem_of_union|]; [|by left|by right].
        right. exists n. split; [apply H1; set_solver|].
        split; [by eapply ScalarKey_normalized|by eapply NormalizeValue_wf].
  - assert (exists seen' members', collect_members limits name seen' members' elements = Ok out /\
      (forall m, m ∈ members -> m ∈ members') /\ seen' = seen) as (seen' & members' & H' & Hm & ->).
    { destruct n; try (by exists seen, members);
        apply bind_ok in H as (key & Hk & _); apply map_err_ok in Hk; exfalso;
        unfold ScalarKey in Ek0, Hk; rewrite Hn in Ek0; cbn [mbind res_bind] in Ek0;
        rewrite (NormalizeValue_of_normal _ (NormalizeValue_normal _ _ Hn)) in Hk; cbn [mbind res_bind] in Hk; congruence. }
    destruct (IH _ _ H') as [H1 H2]. split; [auto|].
    intros e k [->|He]%elem_of_cons Hk; [congruence|by apply (H2 e k)].
Qed.

Lemma project_fields_spec doc id limits i m0 ms0 fs flds m ms :
  wf_doc doc -> (memberships fs <= 1)%nat ->
  project_fields doc id limits i m0 ms0 fs = Ok (flds, m, ms) ->
  flds = map (doc_field doc id) fs /\
  (memberships fs = 0%nat -> m = m0 /\ ms = ms0) /\
  (forall j f, fs !! j = Some f -> is_membership f = true ->
     m = Some (i + j)%nat /\
     ((DocumentField doc id (tf_Field f)).2 = true -> members_cover (DocumentField doc id (tf_Field f)).1 ms)).
Proof.
  intros Hdoc. revert i m0 ms0 flds m ms; induction fs as [|f fs IH]; intros i m0 ms0 flds m ms Hm; cbn [project_fields].
  { intros [= <- <- <-]. split; [done|]. split; [done|]. intros j f. by rewrite lookup_nil. }
  pose proof (DocumentField_wf doc id (tf_Field f) Hdoc) as Hwf.
  unfold doc_field. cbn [map]. destruct (DocumentField doc id (tf_Field f)) as [v present] eqn:Ed. cbn [fst] in Hwf.
  intros H. apply bind_ok in H as ([m1 ms1] & Hr & H). apply bind_ok in H as ([[flds' m'] ms'] & H & [= <- <- <-]).
  cbn [fst snd] in *. assert (memberships fs <= 1)%nat as Hm'.
  { revert Hm. unfold memberships; cbn. destruct (tf_Mode f); cbn; lia. }
  destruct (IH _ _ _ _ _ _ Hm' H) as (-> & Hnone & Hsome). split; [done|].
  destruct (is_membership f) eqn:Ef; unfold is_membership in Ef; destruct (tf_Mode f) eqn:Emode; try done.
  { assert (memberships fs = 0%nat) as H0 by (revert Hm; unfold memberships; cbn; rewrite Emode; cbn; lia).
    destruct (Hnone H0) as [-> ->]. split; [unfold memberships; cbn; rewrite Emode; done|].
    assert (m1 = Some i /\ (present = true -> members_cover v ms1)) as [-> Hcov].
    { destruct present; cbn [negb] in Hr; [|injection Hr as <- <-; done].
      destruct v; try (apply bind_ok in Hr as (? & _ & Hr); injection Hr as <- <-; split; [done|]; intros _ elt key He; by apply elem_of_nil in He).
      - injection Hr as <- <-. split; [done|]. intros _ e k He. by apply elem_of_nil in He.
      - destruct (_ <? _); [done|]. apply bind_ok in Hr as (ms2 & Hc & Hr). injection Hr as <- <-. split; [done|].
        intros _ e k He Hk. cbn in He. apply wf_slice in Hwf.
        destruct (proj2 (collect_members_cover _ _ _ _ _ _ Hwf Hc) e k He Hk) as [Hin|]; [set_solver|done]. }
    intros [|j] g; cbn [lookup list_lookup].
    + intros [= <-] _. rewrite Ed. cbn. split; [f_equal; lia|done].
    + intros Hg Hgm. exfalso. unfold memberships in H0. apply nil_length_inv in H0.
      assert (g ∈ List.filter (fun f => match tf_Mode f with Membership => true | _ => false end) fs) as Hin.
      { apply list_elem_of_In, filter_In. split; [|done]. apply list_elem_of_In. by eapply list_elem_of_lookup_2. }
      rewrite H0 in Hin. by apply elem_of_nil in Hin. }
  all: assert (m1 = m0 /\ ms1 = ms0) as [-> ->] by
    (destruct present; [apply bind_ok in Hr as (? & _ & Hr)|]; by injection Hr as <- <-).
  all: split; [unfold memberships; cbn; rewrite Emode; exact Hnone|].
  all: intros [|j] g; cbn [lookup list_lookup];
    [intros [= <-]; unfold is_membership; by rewrite Emode|].
  all: intros Hg Hgm; destruct (Hsome j g Hg Hgm) as [-> Hc]; split; [f_equal; lia|done].
Qed.

Definition with_member (fields : list field) (membership : option nat) (member : value) : list field :=
  match membership with Some m => <[m := Field member Asc false]> fields | None => fields end.

Lemma encode_postings_elem id limits fields membership n members keys member :
  encode_postings id limits fields membership n members = Ok keys -> member ∈ members ->
  exists key, key ∈ keys /\ Encode (with_member fields membership member) id = Ok key.
Proof.
  intros H Hm. revert fields n keys H. induction members as [|x members IH]; intros fields n keys H; [by apply elem_of_nil in Hm|].
  cbn [encode_postings] in H. fold (with_member fields membership x) in H.
  apply bind_ok in H as (key & Hk & H). apply map_err_ok in Hk.
  destruct (_ <? _); [done|]. apply bind_ok in H as (keys' & H & [= <-]).
  apply elem_of_cons in Hm as [->|Hm]; [exists key; split; [left|done]|].
  destruct (IH Hm _ _ _ H) as (key' & Hin & He). exists key'. split; [by right|]. rewrite <- He.
  unfold with_member. destruct membership as [m|]; [|done]. by rewrite list_insert_insert_eq.
Qed.

(** ** Operands and points *)
Lemma plan_filter_wf g : plan_filter g -> wf_filter g.
Proof.
  unfold plan_filter, wf_filter. destruct (filter_op g); try tauto.
  intros (items & -> & H). by apply wf_slice.
Qed.

Lemma denote_slice l s : denote (VSlice l) <> Some s.
Proof.
  unfold denote. destruct (NormalizeValue (VSlice l)) as [n|] eqn:E; [|done].
  apply normalize_slice in E as (l' & -> & _). done.
Qed.

Lemma holds_denote op operand v w :
  op <> OpContains -> denote v = denote w -> holds op operand v = holds op operand w.
Proof.
  intros Hop E. unfold holds, range_holds, denote_eqb. rewrite E. by destruct op.
Qed.

Lemma EvaluateFilter_holds g p s r :
  wf_filter g -> wf_value p -> denote p = Some s -> EvaluateFilter g p true = Ok r ->
  r = holds (filter_op g) (filter_value g) p.
Proof.
  intros Hg Hp Hs H. unfold EvaluateFilter in H. apply bind_ok in H as (gs & Hn & H).
  apply NormalizeFilters_from_ok in Hn. inversion Hn as [|? g' ? ? Hg' Hnil]; subst. inversion Hnil; subst.
  unfold denote in Hs. destruct (NormalizeValue p) as [n|] eqn:En; [|done].
  rewrite (evaluate_normalized g g' p n) in H by done. by injection H.
Qed.

Lemma find_index_some {A} (P : A -> bool) l i x : find_index P l = Some (i, x) -> x ∈ l /\ P x = true.
Proof.
  revert i; induction l as [|y l IH]; intros i; cbn; [done|]. destruct (P y) eqn:E.
  - intros [= _ <-]. split; [left|done].
  - destruct (find_index P l) as [[j z]|]; [|done]. cbn. intros [= _ <-].
    destruct (IH j eq_refl). split; [by right|done].
Qed.

Lemma denote_eqb_true a b : denote_eqb a b = true -> exists s, denote a = Some s /\ denote b = Some s.
Proof.
  unfold denote_eqb. destruct (denote a) as [s|], (denote b) as [u|]; try done.
  destruct (scalar_compare s u) eqn:E; try done. intros _. apply scalar_compare_eq in E as ->. eauto.
Qed.

(** An [eq] or [in] filter that holds has a point equal to the value. *)
Lemma operand_point g w ps :
  plan_filter g -> is_op OpEq g || is_op OpIn g = true -> operand_points g = Ok ps ->
  holds (filter_op g) (filter_value g) w = true ->
  exists p s, p ∈ ps /\ wf_value p /\ denote p = Some s /\ denote w = Some s.
Proof.
  intros Hg Hop Hps Hh. unfold is_op in Hop. unfold operand_points in Hps. unfold plan_filter in Hg.
  destruct (filter_op g); try done.
  - injection Hps as <-. cbn in Hh. apply denote_eqb_true in Hh as (s & Hw & Hv).
    exists (filter_value g), s. split; [by left|done].
  - destruct Hg as (items & Ev & Hw). rewrite Ev in *. injection Hps as <-. cbn in Hh.
    apply existsb_exists in Hh as (p & Hp & He). apply list_elem_of_In in Hp.
    apply denote_eqb_true in He as (s & Hdw & Hdp). exists p, s. split; [done|].
    split; [by apply (proj1 (Forall_forall _ _) Hw)|done].
Qed.

Section Complete.
Context `{SS : SliceSort}.
Context (doc : StoredDoc) (t : Template) (generation : string) (limits : ProjectionLimits) (proj : Projection) (id : string).
Hypothesis (Hdoc : wf_doc doc) (Hid : LogicalDocumentID doc = Ok id).
Hypothesis (Hproj : BuildDocumentProjection doc t generation limits = Ok proj).
Hypothesis (Hlive : doc_Deleted doc && negb (tmpl_IncludeDeleted t) = false).

Lemma projection_postings :
  exists membership members,
    valid_template t /\
    (memberships (tmpl_Fields t) = 0%nat -> membership = None /\ members = [VNil]) /\
    (forall j f, tmpl_Fields t !! j = Some f -> is_membership f = true ->
       membership = Some j /\
       ((DocumentField doc id (tf_Field f)).2 = true -> members_cover (DocumentField doc id (tf_Field f)).1 members)) /\
    (forall member, member ∈ members -> exists key, key ∈ proj_PostingKeys proj /\
       Encode (with_member (map (doc_field doc id) (tmpl_Fields t)) membership member) id = Ok key).
Proof.
  pose proof Hproj as H. unfold BuildDocumentProjection in H. destruct (_ || _ || _ || _); [done|].
  apply bind_ok in H as (u & Hv & H). apply map_err_ok in Hv.
  assert (valid_template t) as Hvalid by (apply ValidateTemplate_iff; by rewrite Hv).
  pose proof Hvalid as (_ & _ & _ & _ & _ & Hm).
  apply bind_ok in H as (id' & Hid' & H). rewrite Hid in Hid'. injection Hid' as <-.
  destruct (String.eqb generation ""); [done|]. rewrite Hlive in H. cbv zeta in H.
  apply bind_ok in H as ([[flds m] ms] & Hp & H). apply bind_ok in H as (pos & _ & H).
  destruct (_ <? _); [done|]. apply bind_ok in H as (keys & Hk & [= <-]). cbn [proj_PostingKeys].
  destruct (project_fields_spec _ _ _ _ _ _ _ _ _ _ Hdoc Hm Hp) as (-> & Hnone & Hsome).
  exists m, (match m with None => [VNil] | Some _ => ms end). split; [done|]. split_and!.
  - intros H0. by destruct (Hnone H0) as [-> ->].
  - intros j f Hj Hf. destruct (Hsome j f Hj Hf) as [-> Hc]. split; [f_equal; lia|exact Hc].
  - intros member Hin. destruct (encode_postings_elem _ _ _ _ _ _ _ _ Hk Hin) as (key & Hin' & He).
    exists key. split; [by rewrite sort_slice_perm|exact He].
Qed.

(** ** Points *)
Context (filters : list filter).
Definition satisfied (g : filter) : Prop := plan_filter g /\ filter_holds g (DocumentField doc id) = true.
Hypothesis (Hfilters : Forall satisfied filters).

Lemma satisfied_point name v p s acc b :
  DocumentField doc id name = (v, true) -> denote v = Some s -> wf_value p -> denote p = Some s ->
  point_matches name filters p acc = Ok b -> b = acc.
Proof.
  intros Hv Hs Hwp Hp. revert acc. induction Hfilters as [|g gs [Hg Hh] Hgs IH]; intros acc; cbn [point_matches].
  { by intros [= <-]. }
  unfold on_field. destruct (String.eqb_spec (filter_field g) name) as [En|]; [|by apply IH].
  intros H. apply bind_ok in H as (r & Hr & H). apply map_err_ok in Hr.
  assert (r = true) as ->; [|rewrite andb_true_r in H; by apply IH].
  unfold filter_holds in Hh. rewrite En, Hv in Hh. cbn [andb] in Hh.
  rewrite (EvaluateFilter_holds g p s r (plan_filter_wf _ Hg) Hwp Hp Hr).
  rewrite <- Hh. apply holds_denote; [|congruence]. intros Hc. rewrite Hc in Hh. cbn in Hh.
  destruct v; cbn in Hh; try done. by apply denote_slice in Hs.
Qed.

Lemma satisfied_admitted name v p s points out :
  DocumentField doc id name = (v, true) -> denote v = Some s -> wf_value p -> denote p = Some s ->
  p ∈ points -> admitted_points name filters points = Ok out -> p ∈ out.
Proof.
  intros Hv Hs Hwp Hp. revert out. induction points as [|x points IH]; intros out Hin; [by apply elem_of_nil in Hin|].
  cbn [admitted_points]. intros H. apply bind_ok in H as (ok & Hok & H). apply bind_ok in H as (rest & Hrest & [= <-]).
  apply elem_of_cons in Hin as [<-|Hin].
  - rewrite (satisfied_point name v p s true ok Hv Hs Hwp Hp Hok). left.
  - destruct ok; [right|]; by apply IH.
Qed.

(** The value an encoded component of a template field stands for. *)
Definition stands_for (f : tfield) (comp : bytes) : Prop :=
  exists v raw, raw_of v raw /\ comp = component (fieldDirection f) raw /\
  if is_membership f
  then forall i g, find_index (fun g => on_field (tf_Field f) g && is_op OpContains g) filters = Some (i, g) ->
       exists s, v = FScalar s /\ denote (filter_value g) = Some s
  else denote_field (doc_field doc id f) = Some v.

Lemma field_points_complete f comp assignments access points rest :
  stands_for f comp -> field_points f filters assignments access = Ok (Some points, rest.1, rest.2) ->
  exists p s raw, p ∈ points /\ wf_value p /\ denote p = Some s /\ key_of s raw /\ comp = component (fieldDirection f) raw.
Proof.
  intros (v & raw & Hraw & -> & Hst) H. unfold field_points in H.
  destruct (is_membership f) eqn:Em; unfold is_membership in Em.
  - destruct (tf_Mode f); try done.
    destruct (find_index _ filters) as [[i g]|] eqn:Ef; [|done]. injection H as <- _ _.
    destruct (Hst i g eq_refl) as (s & -> & Hs). exists (filter_value g), s, raw.
    destruct (find_index_some _ _ _ _ Ef) as [Hin Hg]. apply andb_true_iff in Hg as [_ Hg].
    destruct (proj1 (Forall_forall _ _) Hfilters g Hin) as [Hpg _].
    split; [by left|]. split; [by apply plan_filter_wf|]. done.
  - assert (match find_index (fun g => on_field (tf_Field f) g && (is_op OpEq g || is_op OpIn g)) filters with
            | Some (_, g) => points0 ← operand_points g; admitted_points (tf_Field f) filters points0
            | None => Err ErrInvalidPlan end = Ok points) as H'.
    { destruct (tf_Mode f); try done; destruct (find_index _ filters) as [[i g]|]; try done;
        apply bind_ok in H as (ps & -> & H); apply bind_ok in H as (ad & Ha & [= <- _ _]); exact Ha. }
    clear H. destruct (find_index _ filters) as [[i g]|] eqn:Ef; [|done]. apply bind_ok in H' as (ps & Hps & H').
    destruct (find_index_some _ _ _ _ Ef) as [Hin Hg]. apply andb_true_iff in Hg as [Hn Hg].
    destruct (proj1 (Forall_forall _ _) Hfilters g Hin) as [Hpg Hh]. unfold filter_holds in Hh.
    unfold on_field in Hn. apply String.eqb_eq in Hn. rewrite Hn in Hh.
    unfold doc_field in Hst. destruct (DocumentField doc id (tf_Field f)) as [w present] eqn:Ed.
    apply andb_true_iff in Hh as [-> Hh]. unfold denote_field in Hst. cbn in Hst.
    destruct (operand_point g w ps Hpg Hg Hps Hh) as (p & s & Hp & Hwp & Hdp & Hdw).
    rewrite Hdw in Hst. injection Hst as <-. exists p, s, raw. split; [|done].
    eapply satisfied_admitted; eauto.
Qed.

(** ** Branches *)
Lemma fieldBytes_same p dir s raw part :
  wf_value p -> fieldBytes p dir = Ok part -> denote p = Some s -> key_of s raw -> part = component dir raw.
Proof.
  intros Hw Hf Hd Hk. destruct (fieldBytes_component _ _ _ Hw Hf) as (s' & raw' & Hd' & Hk' & ->).
  assert (s' = s) as -> by congruence. by rewrite (key_of_unique_key _ _ _ Hk Hk').
Qed.

Lemma extend_branch_elem prefix fixed dir points out p :
  extend_branch prefix fixed dir points = Ok out -> p ∈ points ->
  exists part b, fieldBytes p dir = Ok part /\ b ∈ out /\ cb_Prefix b = prefix ++ part.
Proof.
  revert out; induction points as [|x points IH]; intros out H Hp; [by apply elem_of_nil in Hp|].
  cbn [extend_branch] in H. apply bind_ok in H as (part & Hpart & H). apply bind_ok in H as (rest & Hrest & [= <-]).
  apply elem_of_cons in Hp as [->|Hp].
  - eexists part, _. split; [done|]. split; [left|done].
  - destruct (IH _ Hrest Hp) as (part' & b & H1 & H2 & H3). exists part', b. split; [done|]. split; [by right|done].
Qed.

Lemma extend_branches_elem branches fixed dir points out b p :
  extend_branches branches fixed dir points = Ok out -> b ∈ branches -> p ∈ points ->
  exists part b', fieldBytes p dir = Ok part /\ b' ∈ out /\ cb_Prefix b' = cb_Prefix b ++ part.
Proof.
  revert out; induction branches as [|x branches IH]; intros out H Hb Hp; [by apply elem_of_nil in Hb|].
  cbn [extend_branches] in H. apply bind_ok in H as (o1 & H1 & H). apply bind_ok in H as (o2 & H2 & [= <-]).
  apply elem_of_cons in Hb as [->|Hb].
  - destruct (extend_branch_elem _ _ _ _ _ _ H1 Hp) as (part & b' & ? & ? & ?). exists part, b'.
    split; [done|]. split; [|done]. apply elem_of_app. by left.
  - destruct (IH _ H2 Hb Hp) as (part & b' & ? & ? & ?). exists part, b'.
    split; [done|]. split; [|done]. apply elem_of_app. by right.
Qed.

(** A branch of the state carries the prefix, unless the expansion was cut. *)
Definition carries (st : compile_state) (prefix : bytes) : Prop :=
  cs_empty st = false /\ (cs_exceeded st = true \/ exists b, b ∈ cs_branches st /\ cb_Prefix b = prefix).

Lemma fix_fields_complete index fields comps st st' prefix :
  Forall2 stands_for fields comps -> carries st prefix -> cs_fixed st = index ->
  fix_fields filters index fields st = Ok st' ->
  exists n, (n <= length fields)%nat /\ cs_fixed st' = (index + n)%nat /\
            carries st' (prefix ++ concat (take n comps)).
Proof.
  intros H; revert index st prefix; induction H as [|f comp fields comps Hf H IH]; intros index st prefix Hc Hi Hok;
    cbn [fix_fields] in Hok.
  { injection Hok as <-. exists 0%nat. cbn. rewrite app_nil_r. split; [done|]. split; [lia|done]. }
  apply bind_ok in Hok as (r & Hr & Hok). destruct (r.1.1) as [points|] eqn:Er.
  2: { injection Hok as <-. exists 0%nat. cbn. rewrite app_nil_r. split; [lia|]. split; [lia|done]. }
  assert (field_points f filters (cs_assignments st) (cs_access st) = Ok (Some points, r.1.2, r.2)) as Hr'.
  { rewrite Hr. f_equal. destruct r as [[o a] c]; cbn in *. by subst. }
  destruct (field_points_complete f comp _ _ points (r.1.2, r.2) Hf Hr') as (p & s & raw & Hp & Hwp & Hdp & Hk & ->).
  assert (exists x points', points = x :: points') as (x & points' & Epoints).
  { destruct points; [by apply elem_of_nil in Hp|eauto]. }
  rewrite Epoints in Hok. rewrite <- Epoints in Hok. cbv zeta in Hok.
  set (sorted := sort_slice _ points) in Hok. set (exceeded := _ <? _) in Hok.
  apply bind_ok in Hok as (next & Hnext & Hok). destruct Hc as [Hempty Hc].
  match type of Hok with fix_fields _ _ _ ?s = _ => set (st1 := s) in Hok end.
  assert (carries st1 (prefix ++ component (fieldDirection f) raw)) as Hc1.
  2: destruct (IH (S index) st1 _ Hc1 ltac:(cbn; lia) Hok) as (n & Hn & Hfix & Hcar).
  - split; [exact Hempty|]. cbn. destruct exceeded; [left; by rewrite orb_true_r|]. rewrite orb_false_r.
    destruct Hc as [->|(b & Hb & <-)]; [by left|right].
    assert (p ∈ sorted) as Hps by (subst sorted; by rewrite sort_slice_perm).
    destruct (extend_branches_elem _ _ _ _ _ _ _ Hnext Hb Hps) as (part & b' & Hpart & Hb' & Eb').
    exists b'. split; [done|]. by rewrite Eb', (fieldBytes_same p (fieldDirection f) s raw part).
  - exists (S n). cbn [length take concat]. split; [lia|]. split; [lia|]. by rewrite app_assoc.
Qed.

(** ** Intervals of the chosen branch *)
Lemma whole_contains prefix rest :
  is_bytes prefix -> is_bytes rest ->
  in_intervals (prefix ++ rest) [Interval prefix (PrefixSuccessor prefix)] = true.
Proof.
  intros Hp Hr. unfold in_intervals. cbn [existsb]. rewrite orb_false_r. unfold in_interval. cbn [iv_lower iv_upper].
  fold (below (prefix ++ rest) (PrefixSuccessor prefix)).
  rewrite PrefixSuccessor_below by auto with syntrix. rewrite prefixb_app, orb_true_r, andb_true_r.
  unfold bytes_leb. rewrite <- (app_nil_r prefix) at 1. rewrite bytes_compare_app_r. by destruct rest.
Qed.

Lemma constrain_complete prefix field fs i ivs assignments access out v raw rest :
  is_bytes prefix -> hd 0xff prefix <> 0xff -> is_bytes rest -> raw_of v raw ->
  denote_field (doc_field doc id field) = Some v -> Forall satisfied fs ->
  let key := prefix ++ component (fieldDirection field) raw ++ rest in
  in_intervals key ivs = true ->
  constrain prefix field fs i ivs assignments access = Ok out ->
  in_intervals key out.1.1 = true.
Proof.
  intros Hp Hv Hrest Hraw Hden Hfs. cbv zeta. revert i ivs assignments access.
  induction Hfs as [|f fs [Hf Hh] Hfs IH]; intros i ivs assignments access Hin H; cbn [constrain] in H.
  { by injection H as <-. }
  destruct (negb (on_field (tf_Field field) f) || is_op OpContains f) eqn:E; [by eapply IH|].
  apply orb_false_iff in E as [Hon%negb_false_iff%String.eqb_eq Hop%bool_decide_eq_false].
  apply bind_ok in H as (c & Hc & H). eapply IH; [|exact H].
  rewrite intersectIntervals_spec, Hin. cbn [andb].
  rewrite (filterIntervals_accepts prefix _ v raw rest Hp Hv) with (3 := Hrest) (6 := Hc) by
    (done || apply fieldDirection_valid).
  unfold filter_holds in Hh. rewrite Hon in Hh. unfold doc_field in Hden.
  destruct (DocumentField doc id (tf_Field field)) as [w present]. apply andb_true_iff in Hh as [-> Hh].
  unfold denote_field in Hden. cbn in Hden. destruct (denote w) as [s|] eqn:Ew; [|done]. injection Hden as <-.
  by rewrite (accepts_field_holds f w s).
Qed.

Lemma bound_branches_elem next fs branches assignments access out b key :
  bound_branches next fs branches assignments access = Ok out -> b ∈ branches ->
  (forall a c o, match next with
     | Some field => constrain (cb_Prefix b) field fs 0 [Interval (cb_Prefix b) (PrefixSuccessor (cb_Prefix b))] a c
     | None => Ok ([Interval (cb_Prefix b) (PrefixSuccessor (cb_Prefix b))], a, c)
     end = Ok o -> in_intervals key o.1.1 = true) ->
  exists b', b' ∈ out.1.1 /\ in_interval key (Interval (cb_Lower b') (cb_Upper b')) = true.
Proof.
  revert assignments access out; induction branches as [|x branches IH]; intros assignments access out H Hb Hkey;
    [by apply elem_of_nil in Hb|].
  cbn [bound_branches] in H. apply bind_ok in H as (o & Ho & H). apply bind_ok in H as (rest & Hrest & H).
  apply Ok_inj in H. subst out. cbn [fst].
  apply elem_of_cons in Hb as [<-|Hb].
  - specialize (Hkey _ _ _ Ho). apply existsb_exists in Hkey as (i & Hi & Hin). exists (with_interval b i).
    split; [|by destruct i]. apply elem_of_app. left. by apply list_elem_of_In, in_map.
  - destruct (IH _ _ _ Hrest Hb Hkey) as (b' & Hb' & Hin). exists b'. split; [|done]. apply elem_of_app. by right.
Qed.

Lemma fix_fields_fixed index fields st st' :
  cs_fixed st = index -> fix_fields filters index fields st = Ok st' -> (index <= cs_fixed st')%nat.
Proof.
  revert index st; induction fields as [|f fields IH]; intros index st Hi H; cbn [fix_fields] in H.
  { injection H as <-. lia. }
  apply bind_ok in H as (r & _ & H). destruct r.1.1; [|injection H as <-; lia].
  cbv zeta in H. apply bind_ok in H as (next & _ & H). apply IH in H; [lia|cbn; lia].
Qed.

(** A compiled plan constrains the membership field of its template. *)
Lemma fix_fields_membership index fields st st' f :
  cs_fixed st = index -> fix_fields filters index fields st = Ok st' ->
  existsb is_membership (drop (cs_fixed st' - index) fields) = false ->
  f ∈ fields -> is_membership f = true ->
  exists i g, find_index (fun g => on_field (tf_Field f) g && is_op OpContains g) filters = Some (i, g).
Proof.
  intros Hi H Hd Hin Hm. revert index st Hi H Hd; induction fields as [|x fields IH]; intros index st Hi H Hd;
    [by apply elem_of_nil in Hin|].
  cbn [fix_fields] in H. apply bind_ok in H as (r & Hr & H). destruct (r.1.1) as [points|] eqn:Er.
  - cbv zeta in H. apply bind_ok in H as (next & _ & H).
    assert (S index <= cs_fixed st')%nat as Hge by (eapply fix_fields_fixed; [|exact H]; cbn; lia).
    apply elem_of_cons in Hin as [->|Hin].
    + unfold field_points, is_membership in *. destruct (tf_Mode x); try done.
      destruct (find_index _ filters) as [[i g]|]; [eauto|done].
    + eapply (IH Hin (S index)); [|exact H|]; [cbn; lia|].
      replace (cs_fixed st' - index)%nat with (S (cs_fixed st' - S index)) in Hd by lia. exact Hd.
  - injection H as <-. rewrite Hi, Nat.sub_diag in Hd. cbn [drop] in Hd.
    assert (existsb is_membership (x :: fields) = true) as He
      by (apply existsb_exists; exists f; split; [by apply list_elem_of_In|done]).
    congruence.
Qed.

(** A field of the encoded row says what its template field asks. *)
Definition row_field (f : tfield) (fld : field) : Prop :=
  wf_field fld /\ field_direction fld = fieldDirection f /\
  forall v, denote_field fld = Some v ->
    if is_membership f
    then forall i g, find_index (fun g => on_field (tf_Field f) g && is_op OpContains g) filters = Some (i, g) ->
         exists s, v = FScalar s /\ denote (filter_value g) = Some s
    else denote_field (doc_field doc id f) = Some v.

Lemma row_stands_for fs row ef :
  Forall2 row_field fs row -> mapM_res encodeField row = Ok ef -> Forall2 stands_for fs ef.
Proof.
  intros H He. apply mapM_res_ok in He. revert ef He; induction H as [|f fld fs row (Hw & Hd & Hv) H IH]; intros ef He;
    inversion He as [|? comp ? ef' Hc He']; subst; constructor; [|by apply IH].
  destruct (encodeField_component _ _ Hw Hc) as (_ & v & raw & Hden & Hraw & ->). exists v, raw.
  split; [done|]. split; [by rewrite Hd|]. by apply Hv.
Qed.

Lemma doc_field_wf f : wf_field (doc_field doc id f).
Proof.
  pose proof (DocumentField_wf doc id (tf_Field f) Hdoc). unfold doc_field.
  by destruct (DocumentField doc id (tf_Field f)).
Qed.

Lemma doc_field_row f : is_membership f = false -> row_field f (doc_field doc id f).
Proof.
  intros Hm. split; [apply doc_field_wf|]. split; [unfold doc_field; by destruct (DocumentField _ _ _)|].
  intros v Hv. by rewrite Hm.
Qed.

Lemma memberships_zero fs f : memberships fs = 0%nat -> f ∈ fs -> is_membership f = false.
Proof.
  intros H0 Hin. destruct (is_membership f) eqn:E; [|done]. apply nil_length_inv in H0. exfalso.
  assert (f ∈ List.filter is_membership fs) as Hf by (apply list_elem_of_In, filter_In; split; [by apply list_elem_of_In|done]).
  change (List.filter is_membership fs) with (List.filter (fun f => match tf_Mode f with Membership => true | _ => false end) fs) in Hf.
  rewrite H0 in Hf. by apply elem_of_nil in Hf.
Qed.

Lemma doc_fields_row fs :
  memberships fs = 0%nat -> Forall2 row_field fs (map (doc_field doc id) fs).
Proof.
  intros H0. assert (forall f, f ∈ fs -> is_membership f = false) as Hm by (intros; by eapply memberships_zero).
  clear H0. induction fs as [|f fs IH]; cbn; constructor; [apply doc_field_row, Hm; left|].
  apply IH. intros g Hg. apply Hm. by right.
Qed.

Lemma member_row fs j f fld :
  (memberships fs <= 1)%nat -> fs !! j = Some f -> is_membership f = true -> row_field f fld ->
  Forall2 row_field fs (<[j := fld]> (map (doc_field doc id) fs)).
Proof.
  revert j; induction fs as [|g fs IH]; intros j Hm Hj Hf Hrow; [by rewrite lookup_nil in Hj|].
  unfold memberships in Hm; cbn in Hm. destruct j as [|j]; cbn in Hj |- *.
  - injection Hj as ->. constructor; [done|]. apply doc_fields_row. unfold is_membership in Hf.
    destruct (tf_Mode f); try done. cbn in Hm. unfold memberships. lia.
  - assert (is_membership g = false /\ (memberships fs <= 1)%nat) as [Hg Hm'].
    { unfold is_membership, memberships. destruct (tf_Mode g); cbn in Hm; try (split; [done|exact Hm]). exfalso.
      assert (memberships fs = 0%nat) as H0 by (unfold memberships; lia).
      rewrite (memberships_zero fs f H0) in Hf; [done|]. by eapply list_elem_of_lookup_2. }
    constructor; [by apply doc_field_row|by apply IH].
Qed.

Lemma memberships_find fs :
  memberships fs = 0%nat \/ exists j f, fs !! j = Some f /\ is_membership f = true.
Proof.
  induction fs as [|f fs IH]; [by left|]. destruct (is_membership f) eqn:E.
  - right. by exists 0%nat, f.
  - destruct IH as [H|(j & g & Hj & Hg)]; [left|right; by exists (S j), g].
    unfold memberships, is_membership in *; cbn. by destruct (tf_Mode f).
Qed.

(** The posting the plan reaches: each of its components stands for what the
    filters ask of its field. *)
Lemma chosen_posting :
  (forall f, f ∈ tmpl_Fields t -> is_membership f = true ->
     exists i g, find_index (fun g => on_field (tf_Field f) g && is_op OpContains g) filters = Some (i, g)) ->
  exists key ef, key ∈ proj_PostingKeys proj /\ Forall2 stands_for (tmpl_Fields t) ef /\
    key = Version :: concat ef ++ component Asc (TypeString :: bytes_of_string id).
Proof.
  intros Hcontains. destruct projection_postings as (membership & members & Hvalid & Hnone & Hsome & Hpost).
  destruct Hvalid as (_ & _ & _ & Hfields & _ & Hm).
  assert (exists member row, member ∈ members /\
    row = with_member (map (doc_field doc id) (tmpl_Fields t)) membership member /\
    Forall2 row_field (tmpl_Fields t) row) as (member & row & Hin & -> & Hrow).
  { destruct (memberships_find (tmpl_Fields t)) as [H0|(j & f & Hj & Hf)].
    { destruct (Hnone H0) as [-> ->]. eexists VNil, _. split; [by left|]. split; [done|]. by apply doc_fields_row. }
    destruct (Hsome j f Hj Hf) as [-> Hcover].
    assert (f ∈ tmpl_Fields t) as Hft by (by eapply list_elem_of_lookup_2).
    destruct (Hcontains f Hft Hf) as (i & g & Hg).
    destruct (find_index_some _ _ _ _ Hg) as [Hgin Hgp]. apply andb_true_iff in Hgp as [Hon%String.eqb_eq Hop].
    destruct (proj1 (Forall_forall _ _) Hfilters g Hgin) as [Hpg Hh]. unfold filter_holds in Hh. rewrite Hon in Hh.
    pose proof (DocumentField_wf doc id (tf_Field f) Hdoc) as Hwf.
    destruct (DocumentField doc id (tf_Field f)) as [v present]. cbn [fst snd] in *.
    apply andb_true_iff in Hh as [-> Hh]. unfold is_op in Hop. apply bool_decide_eq_true in Hop.
    rewrite Hop in Hh. cbn in Hh. apply existsb_exists in Hh as (e & He & Heq). apply list_elem_of_In in He.
    apply denote_eqb_true in Heq as (s & Hde & Hdg). destruct (ScalarKey_of_denote _ _ Hde) as [k Hk].
    destruct (Hcover eq_refl e k He Hk) as (m & Hmin & Hmk & Hwm).
    assert (wf_value e) as Hwe.
    { destruct v; try (by apply elem_of_nil in He). apply wf_slice in Hwf. by apply (proj1 (Forall_forall _ _) Hwf). }
    eexists m, _. split; [done|]. split; [done|]. cbn [with_member]. apply member_row with f; try done.
    split; [exact Hwm|]. split.
    - destruct (proj1 (Forall_forall _ _) Hfields f Hft) as [_ Hvf]. unfold is_membership in Hf.
      destruct (tf_Mode f); try done. unfold fieldDirection. by destruct Hvf as [[-> | ->] _].
    - intros v' Hv'. rewrite Hf. intros i' g' Hg'. rewrite Hg in Hg'. injection Hg' as <- <-.
      unfold denote_field in Hv'. cbn in Hv'. rewrite (same_key_same_denote m e k), Hde in Hv' by done.
      injection Hv' as <-. eauto. }
  destruct (Hpost member Hin) as (key & Hkey & Henc). apply Encode_inv in Henc as (ef & Hef & _ & ->).
  exists (Version :: concat ef ++ component Asc (TypeString :: bytes_of_string id)), ef.
  split; [done|]. split; [|done]. by eapply row_stands_for.
Qed.

Lemma stands_for_bytes fs ef : Forall2 stands_for fs ef -> is_bytes (concat ef).
Proof.
  induction 1 as [|f comp fs ef (v & raw & Hraw & -> & _) H IH]; cbn; [constructor|].
  apply is_bytes_app; [|done]. apply component_bytes. by eapply raw_of_bytes.
Qed.

Lemma plan_reaches orderBy md score :
  compileCandidate t filters orderBy = Ok (md, score) ->
  exists key b, key ∈ proj_PostingKeys proj /\ b ∈ md_Branches md /\
    in_interval key (Interval (cb_Lower b) (cb_Upper b)) = true.
Proof.
  unfold compileCandidate. intros H. apply bind_ok in H as (st & Hst & H). cbv zeta in H.
  destruct (cs_exceeded st && negb (cs_empty st)) eqn:Ex; [done|].
  destruct (existsb is_membership (drop (cs_fixed st) (tmpl_Fields t))) eqn:Em; [done|].
  destruct (existsb _ (orderComponents _)); [done|]. destruct (negb (bool_decide _)); [done|].
  apply bind_ok in H as ([[bounded asg] acc] & Hb & H). cbv beta iota in H.
  destruct ((acc =? 0) && _); [done|]. destruct (_ <? _); [done|].
  destruct (_ <? _); [done|]. apply Ok_inj, (f_equal (fun r => md_Branches r.1)) in H.
  cbn [fst md_Branches] in H. rewrite <- H. clear H.
  destruct chosen_posting as (key & ef & Hkey & Hsf & Ekey).
  { intros f Hf Hfm. eapply fix_fields_membership; [|exact Hst| |done|done]; [done|]. by rewrite Nat.sub_0_r. }
  assert (carries (initial_state filters) [Version]) as Hinit
    by (split; [done|right; eexists; split; [by left|done]]).
  destruct (fix_fields_complete 0 _ ef _ st [Version] Hsf Hinit eq_refl Hst) as (n & Hn & Hfix & Hempty & Hcar).
  rewrite Hempty in *. destruct Hcar as [He|(b & Hbin & Epre)]; [by rewrite He in Ex|].
  cbn [Nat.add] in Hfix. rewrite Hfix in *. clear Hst Hinit Ex.
  assert (key = cb_Prefix b ++ concat (drop n ef) ++ component Asc (TypeString :: bytes_of_string id)) as Ekey'.
  { rewrite Ekey, Epre. cbn [app]. f_equal. by rewrite app_assoc, <- concat_app, take_drop. }
  exists key. enough (exists b', b' ∈ bounded /\ in_interval key (Interval (cb_Lower b') (cb_Upper b')) = true)
    as (b' & Hb' & Hi) by (exists b'; done).
  eapply (bound_branches_elem _ _ _ _ _ _ b key Hb Hbin). intros a c o Ho.
  assert (is_bytes (cb_Prefix b)) as Hpb.
  { rewrite Epre. apply is_bytes_app; [repeat constructor; unfold Version; lia|].
    eapply stands_for_bytes, Forall2_take, Hsf. }
  assert (is_bytes (component Asc (TypeString :: bytes_of_string id))) as Hidc
    by (apply component_bytes; constructor; [unfold is_byte, TypeString; lia|apply bytes_of_string_bytes]).
  assert (forall rest, is_bytes rest -> in_intervals (cb_Prefix b ++ rest)
            [Interval (cb_Prefix b) (PrefixSuccessor (cb_Prefix b))] = true) as Hwhole
    by (intros; by apply whole_contains).
  pose proof (Forall2_drop _ _ _ n Hsf) as Hdrop.
  destruct (tmpl_Fields t !! n) as [field|] eqn:Enext.
  - rewrite (drop_S _ _ _ Enext) in Hdrop, Em. cbn [existsb] in Em. apply orb_false_iff in Em as [Em _].
    inversion Hdrop as [|? comp ? ef' (v & raw & Hraw & Ecomp & Hden) Hrest Ef Ee]; subst comp.
    rewrite Em in Hden. rewrite <- Ee in Ekey'. cbn [concat] in Ekey'. rewrite <- app_assoc in Ekey'.
    rewrite Ekey' in *. eapply constrain_complete; [exact Hpb| | |exact Hraw|exact Hden|exact Hfilters| |exact Ho].
    + by rewrite Epre.
    + apply is_bytes_app; [by eapply stands_for_bytes|done].
    + apply Hwhole. apply is_bytes_app; [apply component_bytes; by eapply raw_of_bytes|].
      apply is_bytes_app; [by eapply stands_for_bytes|done].
  - injection Ho as <-. cbn [fst]. rewrite Ekey'. apply Hwhole.
    apply is_bytes_app; [|done]. eapply stands_for_bytes, Hdrop.
Qed.
End Complete.

(** The filters the planner works with hold of a document whenever the query's do. *)
Lemma candidateFilters_satisfied doc id fs filters :
  Forall wf_filter fs -> candidateFilters fs = Ok filters ->
  forallb (fun f => filter_holds f (DocumentField doc id)) fs = true -> Forall (satisfied doc id) filters.
Proof.
  intros Hwf Hcf Hall. unfold candidateFilters in Hcf. destruct (existsb _ fs); [done|]. apply bind_ok in Hcf as (gs & Hn & Hcf).
  apply map_err_ok, NormalizeFilters_from_ok in Hn. destruct (existsb _ gs); [done|]. injection Hcf as <-.
  revert Hwf Hall. induction Hn as [|f g fs gs Hfg Hn IH]; intros Hwf Hall; [constructor|].
  apply Forall_cons in Hwf as [Hw Hwf]. cbn in Hall. apply andb_true_iff in Hall as [Hf Hall].
  constructor; [|by apply IH]. split; [by eapply normalize_plan_filter|].
  unfold filter_holds in *. destruct (normalize_filter_inv _ _ Hfg) as (-> & _).
  destruct (DocumentField doc id (filter_field f)) as [v present]. by rewrite (holds_normalized f g).
Qed.

(** C3: no match is lost. Let a document's projection under a template be built,
    the document be live or the template include deleted documents (a tombstone under
    a template that excludes them has no posting), and a query's filters be accepted
    and all hold of the document. Whatever order is asked, if the planner compiles a plan for the template, some
    posting of the document lies inside one of the plan's branches (at or above
    its lower bound and below its upper bound), so scanning the branches reaches
    the document. *)
Theorem candidate_plan_complete `{SliceSort} doc t generation limits proj id fs filters orderBy md score :
  wf_doc doc -> LogicalDocumentID doc = Ok id ->
  BuildDocumentProjection doc t generation limits = Ok proj ->
  doc_Deleted doc && negb (tmpl_IncludeDeleted t) = false ->
  Forall wf_filter fs -> candidateFilters fs = Ok filters ->
  forallb (fun f => filter_holds f (DocumentField doc id)) fs = true ->
  compileCandidate t filters orderBy = Ok (md, score) ->
  exists key b, key ∈ proj_PostingKeys proj /\ b ∈ md_Branches md /\
    in_interval key (Interval (cb_Lower b) (cb_Upper b)) = true.
Proof.
  intros Hdoc Hid Hproj Hlive Hwf Hcf Hall Hc.
  pose proof (candidateFilters_satisfied doc id fs filters Hwf Hcf Hall) as HF.
  exact (plan_reaches doc t generation limits proj id Hdoc Hid Hproj Hlive filters HF orderBy md score Hc).
Qed.

(** A document with an array of tags, reached through one of them. *)
Definition tagged_doc : StoredDoc :=
  {| doc_Id := "db:h"; doc_Database := "db"; doc_Fullpath := "users/u1"; doc_Collection := "users";
     doc_CollectionHash := ""; doc_Parent := ""; doc_UpdatedAt := 2; doc_CreatedAt := 1; doc_Version := 3;
     doc_Data := {[ "tags" := VSlice [VString "a"; VString "b"; VSlice []]; "age" := VInt KInt64 7 ]};
     doc_Deleted := false |}.
Definition tagged_template : Template :=
  {| tmpl_Name := "by-tag"; tmpl_CollectionPattern := "users";
     tmpl_Fields := [TField "tags" OrderUnset Membership; TField "age" OrderDesc ModeUnset]; tmpl_IncludeDeleted := false |}.
Definition tagged_query : list filter :=
  [Filter "tags" OpContains (VString "b"); Filter "age" OpGte (VInt KInt64 5)].

Definition tagged_projection : res projection_error Projection :=
  @BuildDocumentProjection insertion_slice_sort tagged_doc tagged_template "g1" DefaultProjectionLimits.
Definition tagged_plan : res plan_error (CandidateMetadata * Z) :=
  filters ← candidateFilters tagged_query; @compileCandidate insertion_slice_sort tagged_template filters [].

Lemma tagged_wf : wf_doc tagged_doc.
Proof.
  unfold wf_doc, is_i64. cbn [doc_Version doc_CreatedAt doc_UpdatedAt doc_Data tagged_doc].
  split_and!; try lia. intros f v Hf. apply lookup_insert_Some in Hf as [[_ <-]|[_ Hf]]; [cbn; auto|].
  apply lookup_singleton_Some in Hf as [_ <-]. cbn. lia.
Qed.

Lemma candidate_plan_complete_witness :
  match tagged_projection, tagged_plan with
  | Ok proj, Ok (md, _) => exists key b, key ∈ proj_PostingKeys proj /\ b ∈ md_Branches md /\
      in_interval key (Interval (cb_Lower b) (cb_Upper b)) = true
  | _, _ => False
  end.
Proof.
  assert (is_ok tagged_projection = true) as Hp by (vm_compute; reflexivity).
  assert (is_ok tagged_plan = true) as Hq by (vm_compute; reflexivity).
  destruct tagged_projection as [proj|] eqn:Ep; [|discriminate Hp].
  destruct tagged_plan as [[md score]|] eqn:Eq; [|discriminate Hq].
  unfold tagged_plan in Eq. apply bind_ok in Eq as (filters & Hf & Hc).
  apply (@candidate_plan_complete insertion_slice_sort tagged_doc tagged_template "g1" DefaultProjectionLimits proj "u1"
           tagged_query filters [] md score).
  - exact tagged_wf.
  - vm_compute. reflexivity.
  - exact Ep.
  - reflexivity.
  - repeat constructor; unfold wf_filter; cbn; lia.
  - exact Hf.
  - vm_compute. reflexivity.
  - exact Hc.
Defined.
