(* ===== verification/Positions.v ===== *)
(** * Order positions: internal/indexer/manager/candidates.go

    The branches of a compiled plan read postings in key order; clients see
    positions in the order the query asks for. Theorems: within a branch the two
    orders agree, a posting is recovered from its position, and a scan resumed
    after a position returns exactly what follows it. *)
From stdpp Require Import base list sorting gmap strings.
From Stdlib Require Import ZArith.
From S2P Require Import Prelude Value OrderKey Filter IndexStore BTree MemIndex Codec Template Projection Intervals Candidates Completeness.
Local Open Scope Z_scope.

(** ** Parts of a key *)
Definition key_part (d : direction) (x : bytes) : Prop :=
  valid_direction d /\ exists v raw, raw_of v raw /\ x = component d raw.

Lemma part_compare d x y r s :
  key_part d x -> key_part d y ->
  bytes_compare (x ++ r) (y ++ s) = then_compare (bytes_compare x y) (bytes_compare r s).
Proof.
  intros (_ & v & a & Ha & ->) (_ & w & b & Hb & ->). apply raw_of_bytes in Ha, Hb.
  rewrite component_compare by done. f_equal.
  rewrite <- (app_nil_r (component d a)), <- (app_nil_r (component d b)), component_compare by done.
  cbn. by destruct (flip d _).
Qed.

Lemma part_inj d x y r s : key_part d x -> key_part d y -> x ++ r = y ++ s -> x = y /\ r = s.
Proof.
  intros Hx Hy E. apply bytes_compare_eq in E. rewrite (part_compare d) in E by done.
  destruct (bytes_compare x y) eqn:C; try done. apply bytes_compare_eq in C, E. done.
Qed.

Lemma part_bytes d x : key_part d x -> is_bytes x.
Proof. intros (_ & v & raw & Hr & ->). apply component_bytes. by eapply raw_of_bytes. Qed.

Lemma scan_part_asc acc raw rest :
  scan_part false acc (escape raw ++ 0 :: 0 :: rest) = Some (acc ++ escape raw ++ [0; 0], rest).
Proof.
  revert acc; induction raw as [|b raw IH]; intros acc; [done|].
  rewrite escape_cons. destruct (Z.eqb_spec b 0) as [->|Hb]; cbn [app scan_part Z.eqb negb].
  - rewrite IH. by rewrite <- app_assoc.
  - apply Z.eqb_neq in Hb. rewrite Hb. cbn [negb]. rewrite IH. by rewrite <- app_assoc.
Qed.

Lemma scan_part_desc acc key :
  scan_part true acc key = prod_map (map bnot) (map bnot) <$> scan_part false (map bnot acc) (map bnot key).
Proof.
  cut (forall n acc key, (length key <= n)%nat ->
    scan_part true acc key = prod_map (map bnot) (map bnot) <$> scan_part false (map bnot acc) (map bnot key)); [eauto|].
  clear acc key; intros n; induction n as [|n IH]; intros acc [|b [|c key]] Hl; try done; cbn in Hl; try lia.
  - cbn [map scan_part]. by case_match.
  - cbn [map scan_part]. case_match.
    + etransitivity; [apply (IH (acc ++ [b]) (c :: key)); cbn; lia|]. by rewrite map_app.
    + case_match; [cbn; by rewrite !map_app, !map_bnot_involutive; cbn; rewrite !bnot_involutive|].
      case_match; [done|]. etransitivity; [apply IH; lia|]. by rewrite map_app.
Qed.

Lemma scan_part_key d acc x rest : key_part d x -> scan_part (is_desc d) acc (x ++ rest) = Some (acc ++ x, rest).
Proof.
  intros (_ & v & raw & Hr & ->). destruct d; cbn [is_desc component].
  - rewrite <- app_assoc. apply scan_part_asc.
  - rewrite scan_part_desc, map_app, map_bnot_involutive, <- app_assoc. cbn [app].
    rewrite scan_part_asc. cbn. by rewrite map_app, !map_bnot_involutive.
  - rewrite <- app_assoc. apply scan_part_asc.
Qed.

Lemma part_head d x rest : key_part d x -> exists tag key, x ++ rest = tag :: key /\ (0x80 <? tag) = is_desc d.
Proof. intros (Hd & v & raw & Hr & ->). by eapply component_head. Qed.

Lemma scan_parts_key fuel ds xs : Forall2 key_part ds xs -> (length xs < fuel)%nat -> scan_parts fuel (concat xs) = Some xs.
Proof.
  intros H; revert fuel; induction H as [|d x ds xs Hx H IH]; intros [|fuel] Hf; cbn in Hf; try lia; [done|].
  cbn [concat scan_parts]. destruct (part_head d x (concat xs) Hx) as (tag & key & E & Ht).
  rewrite E, Ht, <- E, (scan_part_key d) by done. cbn [app]. by rewrite IH by lia.
Qed.

Lemma parts_length ds xs : Forall2 key_part ds xs -> (length xs <= length (concat xs))%nat.
Proof.
  induction 1 as [|d x ds xs Hx H IH]; [done|]. cbn. rewrite length_app.
  destruct (part_head d x [] Hx) as (tag & key & E & _). rewrite app_nil_r in E. rewrite E. cbn. lia.
Qed.

Lemma tupleParts_key ds xs : Forall2 key_part ds xs -> tupleParts (Version :: concat xs) = Ok xs.
Proof.
  intros H. unfold tupleParts. rewrite Z.eqb_refl. cbn [negb].
  rewrite (scan_parts_key _ ds xs H); [done|]. pose proof (parts_length _ _ H). cbn. lia.
Qed.

(** Rows of parts of the same directions compare part by part. *)
Lemma parts_compare ds xs ys r s :
  Forall2 key_part ds xs -> Forall2 key_part ds ys ->
  bytes_compare (concat xs ++ r) (concat ys ++ s) = then_compare (bytes_compare (concat xs) (concat ys)) (bytes_compare r s).
Proof.
  intros Hx; revert ys; induction Hx as [|d x ds xs Hd Hx IH]; intros ys Hy; inversion Hy as [|? y ? ys' Hd' Hy']; subst; [done|].
  cbn [concat]. rewrite <- !app_assoc, (part_compare d) by done.
  rewrite IH, (part_compare d) by done. by destruct (bytes_compare x y).
Qed.

Lemma parts_inj ds xs ys r s :
  Forall2 key_part ds xs -> Forall2 key_part ds ys -> concat xs ++ r = concat ys ++ s -> xs = ys /\ r = s.
Proof.
  intros Hx; revert ys; induction Hx as [|d x ds xs Hd Hx IH]; intros ys Hy E; inversion Hy as [|? y ? ys' Hd' Hy']; subst; [done|].
  cbn [concat] in E. rewrite <- !app_assoc in E. apply (part_inj d) in E as [-> E]; [|done..].
  by destruct (IH ys' Hy' E) as [-> ->].
Qed.

Lemma parts_bytes ds xs : Forall2 key_part ds xs -> is_bytes (concat xs).
Proof. induction 1; cbn; [constructor|]. apply is_bytes_app; [by eapply part_bytes|done]. Qed.

(** ** Branches of a compiled plan *)
Lemma fieldBytes_part v f part : wf_value v -> fieldBytes v (fieldDirection f) = Ok part -> key_part (fieldDirection f) part.
Proof.
  intros Hw H. destruct (fieldBytes_component _ _ _ Hw H) as (s & raw & _ & Hk & ->).
  split; [apply fieldDirection_valid|]. by exists (FScalar s), raw.
Qed.

(** A branch that fixes the leading fields of the template to its prefix. *)
Definition fixes (fields : list tfield) (n : nat) (b : CandidateBranch) : Prop :=
  cb_FixedFields b = n /\ (n <= length fields)%nat /\
  exists fx, cb_Prefix b = Version :: concat fx /\ Forall2 key_part (map fieldDirection (take n fields)) fx.

Lemma extend_branch_fixes prefix n f points out :
  Forall wf_value points -> extend_branch prefix n (fieldDirection f) points = Ok out ->
  Forall (fun b => cb_FixedFields b = n /\ exists part, key_part (fieldDirection f) part /\ cb_Prefix b = prefix ++ part) out.
Proof.
  intros Hp; revert out; induction Hp as [|v points Hv Hp IH]; intros out H; cbn in H; [by injection H as <-|].
  apply bind_ok in H as (part & Hpart & H). apply bind_ok in H as (rest & Hrest & H). injection H as <-.
  constructor; [|by apply IH]. cbn. split; [done|]. exists part. split; [by eapply fieldBytes_part|done].
Qed.

Lemma extend_branches_fixes fields f branches n points out :
  fields !! n = Some f -> Forall wf_value points -> Forall (fixes fields n) branches ->
  extend_branches branches (n + 1) (fieldDirection f) points = Ok out -> Forall (fixes fields (n + 1)) out.
Proof.
  intros Hf Hp Hb; revert out; induction Hb as [|b branches (Hn & Hlen & fx & Epre & Hfx) Hb IH]; intros out H;
    cbn [extend_branches] in H; [by injection H as <-|].
  apply bind_ok in H as (o & Ho & H). apply bind_ok in H as (rest & Hrest & H). injection H as <-.
  apply Forall_app. split; [|by apply IH].
  eapply Forall_impl; [by eapply extend_branch_fixes|]. intros b' (Hn' & part & Hpart & Epre'). cbv beta in *.
  split; [done|]. apply lookup_lt_Some in Hf as Hlt. split; [lia|].
  exists (fx ++ [part]). rewrite Epre', Epre, concat_app. cbn. rewrite app_nil_r. split; [done|].
  rewrite Nat.add_1_r, (take_S_r _ _ _ Hf), map_app. apply Forall2_app; [done|]. constructor; [done|constructor].
Qed.

Lemma admitted_points_sub name filters points out v :
  admitted_points name filters points = Ok out -> v ∈ out -> v ∈ points.
Proof.
  revert out; induction points as [|x points IH]; intros out H Hv; cbn in H; [by injection H as <-|].
  apply bind_ok in H as (ok & _ & H). apply bind_ok in H as (rest & Hrest & H). injection H as <-.
  destruct ok; [apply elem_of_cons in Hv as [->|Hv]; [left|]|]; right; by eapply IH.
Qed.

Lemma operand_points_wf f points : wf_filter f -> operand_points f = Ok points -> Forall wf_value points.
Proof.
  unfold operand_points, wf_filter. intros Hw H.
  destruct (filter_op f); try (injection H as <-; by constructor).
  destruct (filter_value f); try done. injection H as <-. by apply wf_slice in Hw.
Qed.

Lemma field_points_wf f filters asg acc points rest :
  Forall wf_filter filters -> field_points f filters asg acc = Ok (Some points, rest.1, rest.2) -> Forall wf_value points.
Proof.
  intros Hf H. unfold field_points in H.
  assert (Hg : forall P i g, find_index P filters = Some (i, g) -> wf_filter g).
  { intros P i g E. destruct (find_index_some _ _ _ _ E) as [Hin _]. by apply (proj1 (Forall_forall _ _) Hf). }
  destruct (tf_Mode f); destruct (find_index _ filters) as [[i g]|] eqn:E; try done;
    try (apply bind_ok in H as (ps & Hps & H); apply bind_ok in H as (ad & Ha & H);
         apply Ok_inj in H; assert (ad = points) as <- by congruence;
         pose proof (operand_points_wf _ _ (Hg _ _ _ E) Hps) as Hw; rewrite Forall_forall in *;
         intros v Hv; by eapply Hw, admitted_points_sub).
  apply Ok_inj in H. assert ([filter_value g] = points) as <- by congruence.
  constructor; [|constructor]. exact (Hg _ _ _ E).
Qed.

Section Plans.
Context `{SS : SliceSort}.

Lemma fix_fields_fixes all filters index fields st st' :
  Forall wf_filter filters -> fields = drop index all -> cs_fixed st = index -> (index <= length all)%nat ->
  Forall (fixes all index) (cs_branches st) ->
  fix_fields filters index fields st = Ok st' -> Forall (fixes all (cs_fixed st')) (cs_branches st').
Proof.
  intros Hw. revert index st; induction fields as [|f fields IH]; intros index st Hd Hi Hl Hb H; cbn [fix_fields] in H.
  { apply Ok_inj in H. by subst st' index. }
  apply bind_ok in H as (r & Hr & H). destruct r.1.1 as [points|] eqn:Er; [|apply Ok_inj in H; by subst st' index].
  cbv zeta in H. apply bind_ok in H as (next & Hn & H).
  assert (Hf : all !! index = Some f) by (rewrite <- (Nat.add_0_r index), <- lookup_drop, <- Hd; done).
  assert (Hpw : Forall wf_value points).
  { eapply (field_points_wf f filters _ _ points (r.1.2, r.2)); [done|]. rewrite Hr. cbn. destruct r as [[? ?] ?].
    cbn in *. by subst. }
  apply lookup_lt_Some in Hf as Hlt. apply IH in H; [done| |cbn; lia|lia|].
  { by rewrite (drop_S _ _ _ Hf) in Hd; injection Hd. }
  cbn [cs_branches]. replace (S index) with (index + 1)%nat by lia.
  assert (Hpts : Forall wf_value (sort_slice (fun a b => bytes_ltb (scalar_key_or_nil a) (scalar_key_or_nil b))
      (match points with [] => [VNil] | _ => points end))).
  { rewrite sort_slice_perm. destruct points; [by repeat constructor|done]. }
  destruct (MaxCandidateBranches <? _); (eapply extend_branches_fixes; [exact Hf| | |exact Hn]);
    try apply Forall_take; done.
Qed.

Lemma constrain_sub prefix field filters i ivs asg acc out key :
  constrain prefix field filters i ivs asg acc = Ok out -> in_intervals key out.1.1 = true -> in_intervals key ivs = true.
Proof.
  revert i ivs asg acc; induction filters as [|f filters IH]; intros i ivs asg acc H Hin; cbn [constrain] in H.
  { apply Ok_inj in H. by subst out. }
  destruct (_ || _); [by eapply IH|]. apply bind_ok in H as (c & _ & H).
  specialize (IH _ _ _ _ H Hin). rewrite intersectIntervals_spec in IH. by apply andb_true_iff in IH as [? _].
Qed.

Lemma whole_prefix prefix key :
  is_bytes prefix -> is_bytes key -> in_intervals key [Interval prefix (PrefixSuccessor prefix)] = true -> prefixb prefix key = true.
Proof.
  intros Hp Hk H. unfold in_intervals, in_interval in H. cbn [existsb iv_lower iv_upper] in H.
  rewrite orb_false_r in H. apply andb_true_iff in H as [Hle Hlt].
  fold (below key (PrefixSuccessor prefix)) in Hlt. rewrite PrefixSuccessor_below in Hlt by done.
  rewrite bytes_leb_ltb in Hle. by destruct (bytes_ltb key prefix).
Qed.

(** A branch whose bounds hold only keys with its prefix. *)
Definition confined (b : CandidateBranch) : Prop :=
  forall key, is_bytes key -> in_interval key (Interval (cb_Lower b) (cb_Upper b)) = true -> prefixb (cb_Prefix b) key = true.

Lemma fixes_bytes fields n b : fixes fields n b -> is_bytes (cb_Prefix b).
Proof. intros (_ & _ & fx & -> & Hfx). constructor; [unfold is_byte, Version; lia|by eapply parts_bytes]. Qed.

Definition bounded (ivs : list keyInterval) : Prop := Forall (fun iv => is_Some (iv_upper iv)) ivs.

Lemma intersect_bounded left right : bounded left -> bounded (intersectIntervals left right).
Proof.
  intros Hl. apply Forall_forall. intros iv Hiv. unfold intersectIntervals in Hiv.
  apply list_elem_of_In, in_flat_map in Hiv as (a & Ha & Hiv). apply list_elem_of_In, list_elem_of_omap in Hiv as (b & _ & Hiv).
  apply list_elem_of_In in Ha. unfold bounded in Hl. rewrite Forall_forall in Hl. destruct (Hl a Ha) as [u Hu].
  unfold intersect_one in Hiv. rewrite Hu in Hiv. cbn in Hiv.
  destruct (iv_upper b); [destruct (bytes_ltb _ u)|]; destruct (bytes_ltb _ _); simplify_eq; by eexists.
Qed.

Lemma constrain_bounded prefix field filters i ivs asg acc out :
  bounded ivs -> constrain prefix field filters i ivs asg acc = Ok out -> bounded out.1.1.
Proof.
  revert i ivs asg acc; induction filters as [|f filters IH]; intros i ivs asg acc Hb H; cbn [constrain] in H.
  { apply Ok_inj in H. by subst out. }
  destruct (_ || _); [by eapply IH|]. apply bind_ok in H as (c & _ & H). eapply IH; [|exact H]. by apply intersect_bounded.
Qed.

Lemma bound_branches_fixes fields n next filters branches asg acc out :
  Forall (fixes fields n) branches -> bound_branches next filters branches asg acc = Ok out ->
  Forall (fun b => fixes fields n b /\ confined b /\ is_Some (cb_Upper b)) out.1.1.
Proof.
  intros Hb; revert asg acc out; induction Hb as [|b branches Hf Hb IH]; intros asg acc out H; cbn [bound_branches] in H.
  { apply Ok_inj in H. by subst out. }
  apply bind_ok in H as (r & Hr & H). apply bind_ok in H as (rest & Hrest & H). apply Ok_inj in H. subst out. cbn [fst].
  apply Forall_app. split; [|by eapply IH]. apply Forall_map, Forall_forall. intros iv Hiv. split; [exact Hf|]. split; cycle 1.
  { assert (bounded r.1.1) as Hbd; [|unfold bounded in Hbd; rewrite Forall_forall in Hbd; exact (Hbd iv Hiv)].
    assert (bounded [Interval (cb_Prefix b) (PrefixSuccessor (cb_Prefix b))]) as Hw.
    { constructor; [|constructor]. destruct Hf as (_ & _ & fx & -> & _). by apply PrefixSuccessor_some. }
    destruct next; [by eapply constrain_bounded|]. apply Ok_inj in Hr. by subst r. }
  intros key Hk Hin. apply whole_prefix; [by eapply fixes_bytes|done|].
  assert (Hany : in_intervals key r.1.1 = true).
  { apply existsb_exists. exists iv. split; [by apply list_elem_of_In|]. by destruct iv. }
  destruct next; [by eapply constrain_sub|]. apply Ok_inj in Hr. by subst r.
Qed.

(** What a compiled plan guarantees of its order and its branches. *)
Record compiled (t : Template) (orderBy : list OrderField) (md : CandidateMetadata) (fixed : nat) : Prop := {
  cp_template : md_Template md = t;
  cp_order : md_EffectiveOrder md = effective_order t orderBy;
  cp_served : Forall (fun f => order_served t f = true) (orderComponents (md_EffectiveOrder md));
  cp_variable : List.filter (fun f => negb (bool_decide (of_Field f ∈ map tf_Field (take fixed (tmpl_Fields t)))))
                  (orderComponents (md_EffectiveOrder md))
                = map (fun f => OrderBy (tf_Field f) (fieldDirection f)) (remaining_fields t fixed);
  cp_branches : Forall (fun b => fixes (tmpl_Fields t) fixed b /\ confined b /\ is_Some (cb_Upper b)) (md_Branches md);
}.

Lemma compileCandidate_inv t filters orderBy md score :
  Forall wf_filter filters -> compileCandidate t filters orderBy = Ok (md, score) -> exists fixed, compiled t orderBy md fixed.
Proof.
  intros Hw H. unfold compileCandidate in H. apply bind_ok in H as (st & Hst & H). cbv zeta in H.
  destruct (cs_exceeded st && negb (cs_empty st)); [done|].
  destruct (existsb is_membership _); [done|].
  destruct (existsb _ (orderComponents _)) eqn:Es; [done|].
  destruct (bool_decide _) eqn:Ev; cbn [negb] in H; [|done]. apply bool_decide_eq_true in Ev.
  apply bind_ok in H as ([[bounded asg] acc] & Hb & H). cbv beta iota in H.
  destruct ((acc =? 0) && _); [done|]. destruct (_ <? _); [done|]. destruct (_ <? _); [done|].
  apply Ok_inj in H. exists (cs_fixed st).
  apply (f_equal fst) in H. cbn [fst] in H. subst md. split; cbn [md_Template md_EffectiveOrder md_Branches]; try done.
  - apply Forall_forall. intros f Hf. destruct (order_served t f) eqn:E; [done|].
    assert (existsb (fun f => negb (order_served t f)) (orderComponents (effective_order t orderBy)) = true); [|congruence].
    apply existsb_exists. exists f. split; [by apply list_elem_of_In|by rewrite E].
  - destruct (cs_empty st); [constructor|].
    eapply (bound_branches_fixes _ _ _ _ _ _ _ (bounded, asg, acc)); [|exact Hb].
    eapply (fix_fields_fixes _ filters 0 _ (initial_state filters)); [exact Hw|by rewrite drop_0|done|lia| |exact Hst].
    cbn. constructor; [|constructor]. split; [done|]. split; [lia|]. exists []. split; [done|]. rewrite take_0. constructor.
Qed.
End Plans.

(** ** Postings and their positions *)
Definition id_raw (id : string) : bytes := TypeString :: bytes_of_string id.
Definition id_part (id : string) : bytes := component Asc (id_raw id).

Lemma id_part_key id d : valid_direction d -> key_part d (component d (id_raw id)).
Proof. intros Hd. split; [done|]. by exists (FScalar (SStr id)), (id_raw id). Qed.

Lemma id_part_inj id id' : id_part id = id_part id' -> id = id'.
Proof.
  unfold id_part. intros E.
  rewrite <- (app_nil_r (component Asc (id_raw id))), <- (app_nil_r (component Asc (id_raw id'))) in E.
  apply component_inj in E as [[= E] _]; [|constructor; [unfold is_byte, TypeString; lia|apply bytes_of_string_bytes]..].
  by rewrite <- (string_of_bytes_of_string id), <- (string_of_bytes_of_string id'), E.
Qed.

(** A posting key of a template: a part per field, then the document's identifier;
    an indexed [id] field holds that identifier. *)
Record posting (t : Template) (xs : list bytes) (id : string) : Prop := {
  po_parts : Forall2 (fun f x => key_part (fieldDirection f) x) (tmpl_Fields t) xs;
  po_id i f : tmpl_Fields t !! i = Some f -> tf_Field f = "id" -> xs !! i = Some (component (fieldDirection f) (id_raw id));
}.
Definition posting_key (xs : list bytes) (id : string) : bytes := Version :: concat xs ++ id_part id.

(** The part of a field by name; the identifier when the template has no such field. *)
Definition named {A} (g : A -> string) (name : string) (p : A * bytes) : bool := String.eqb (g p.1) name.
Definition field_part (fields : list tfield) (xs : list bytes) (id : string) (name : string) : bytes :=
  match List.find (named tf_Field name) (zip fields xs) with Some p => p.2 | None => id_part id end.

Lemma zip_snoc {A B} (l : list A) (xs : list B) y : length l = length xs -> zip l (xs ++ [y]) = zip l xs.
Proof. revert xs; induction l as [|a l IH]; intros [|x xs] H; cbn in *; try done. rewrite IH by lia. done. Qed.

Lemma find_none_elem {A} (P : A -> bool) l : (forall x, x ∈ l -> P x = false) -> List.find P l = None.
Proof.
  induction l as [|x l IH]; intros H; cbn; [done|]. rewrite H by left. apply IH. intros y Hy. apply H. by right.
Qed.

Lemma zip_names_absent {A} (g : A -> string) (l : list A) (xs : list bytes) name :
  ~ name ∈ map g l -> List.find (named g name) (zip l xs) = None.
Proof.
  intros Hn. apply find_none_elem. intros [f x] Hin. unfold named. cbn. apply String.eqb_neq. intros <-. apply Hn.
  apply elem_of_zip_l in Hin. by apply (list_elem_of_fmap_2 g).
Qed.

Lemma insert_parts_lookup {A} (g : A -> string) (l : list A) xs m name :
  NoDup (map g l) ->
  insert_parts (map g l) xs m !! name =
  match List.find (named g name) (zip l xs) with Some p => Some p.2 | None => m !! name end.
Proof.
  unfold insert_parts. revert xs m; induction l as [|f l IH]; intros [|x xs] m Hn; try done.
  cbn in Hn. apply NoDup_cons in Hn as [Hnot Hn]. cbn [map zip zip_with foldl fst snd].
  rewrite IH by done. cbn [List.find]. unfold named at 2. cbn [fst snd].
  destruct (String.eqb_spec (g f) name) as [<-|Hne].
  - by rewrite zip_names_absent, lookup_insert_eq.
  - destruct (List.find _ _); [done|]. by rewrite lookup_insert_ne.
Qed.

Lemma id_dimension_find t xs part :
  NoDup (map tf_Field (tmpl_Fields t)) ->
  id_dimension t xs part = match List.find (named tf_Field "id") (zip (tmpl_Fields t) xs) with Some p => p.2 | None => part end.
Proof.
  unfold id_dimension. generalize (tmpl_Fields t). intros fields. revert xs part; induction fields as [|f fields IH];
    intros [|x xs] part Hn; try done.
  cbn in Hn. apply NoDup_cons in Hn as [Hnot Hn]. cbn [zip zip_with foldl List.find fst snd].
  rewrite IH by done. unfold named at 2. cbn [fst snd].
  destruct (String.eqb_spec (tf_Field f) "id") as [Hid|Hne]; [|done].
  by rewrite zip_names_absent by (by rewrite <- Hid).
Qed.

Lemma find_zip (fields : list tfield) (xs : list bytes) name :
  length fields = length xs ->
  List.find (fun f => String.eqb (tf_Field f) name) fields = option_map fst (List.find (named tf_Field name) (zip fields xs)).
Proof.
  revert xs; induction fields as [|f fields IH]; intros [|x xs] H; cbn in H; try lia; [done|].
  cbn [zip zip_with List.find]. unfold named at 1. cbn [fst]. destruct (String.eqb _ name); [done|]. apply IH. lia.
Qed.

Section Posting.
Context (t : Template) (Hnd : NoDup (map tf_Field (tmpl_Fields t))).
Abbreviation fields := (tmpl_Fields t).

Lemma posting_length xs id : posting t xs id -> length fields = length xs.
Proof. intros P. apply (Forall2_length _ _ _ (po_parts _ _ _ P)). Qed.

Lemma posting_dirs xs id : posting t xs id -> Forall2 key_part (map fieldDirection fields) xs.
Proof. intros P. apply Forall2_fmap_l, (po_parts _ _ _ P). Qed.

Lemma posting_all xs id : posting t xs id -> Forall2 key_part (map fieldDirection fields ++ [Asc]) (xs ++ [id_part id]).
Proof.
  intros P. apply Forall2_app; [by eapply posting_dirs|]. constructor; [|constructor]. apply id_part_key. by left.
Qed.

Lemma posting_key_parts xs id : posting t xs id -> tupleParts (posting_key xs id) = Ok (xs ++ [id_part id]).
Proof.
  intros P. unfold posting_key. rewrite <- (tupleParts_key _ _ (posting_all xs id P)), concat_app. cbn.
  by rewrite app_nil_r.
Qed.

Lemma posting_bytes xs id : posting t xs id -> is_bytes (posting_key xs id).
Proof.
  intros P. constructor; [unfold is_byte, Version; lia|].
  apply is_bytes_app; [by eapply parts_bytes, posting_dirs|]. eapply (part_bytes Asc), id_part_key. by left.
Qed.

Lemma posting_key_id xs ys id id' : posting t xs id -> posting t ys id' -> posting_key xs id = posting_key ys id' -> id = id'.
Proof.
  intros P Q [= E]. eapply parts_inj in E as [_ E]; [by apply id_part_inj|by eapply posting_dirs..].
Qed.

(** A named pair is a field of the template with its part. *)
Lemma found_part xs id name f x :
  posting t xs id -> List.find (named tf_Field name) (zip fields xs) = Some (f, x) ->
  tf_Field f = name /\ exists i, fields !! i = Some f /\ xs !! i = Some x.
Proof.
  intros P H. apply List.find_some in H as [Hin Hn]. split; [by apply String.eqb_eq|].
  apply list_elem_of_In, list_elem_of_lookup in Hin as [i Hi]. exists i. by apply lookup_zip_Some in Hi.
Qed.

Lemma served_part xs id f :
  posting t xs id -> order_served t f = true -> key_part (of_Direction f) (field_part fields xs id (of_Field f)).
Proof.
  intros P Hs. unfold order_served in Hs. rewrite (find_zip _ xs) in Hs by (by eapply posting_length).
  unfold field_part. destruct (List.find _ (zip fields xs)) as [[tf x]|] eqn:E; cbn [option_map fst snd] in *.
  - apply andb_true_iff in Hs as [_ Hd%bool_decide_eq_true]. destruct (found_part _ _ _ _ _ P E) as (_ & i & Hf & Hx).
    rewrite <- Hd. by eapply Forall2_lookup_lr in Hx; [|apply (po_parts _ _ _ P)|exact Hf].
  - apply andb_true_iff in Hs as [_ ->%bool_decide_eq_true]. apply id_part_key. by left.
Qed.

Lemma position_value xs id f :
  posting t xs id -> order_served t f = true ->
  exists part, (<["id" := id_part id]> (insert_parts (map tf_Field fields) (xs ++ [id_part id]) ∅)) !! of_Field f = Some part /\
    (if String.eqb (of_Field f) "id" && bool_decide (of_Direction f = Desc)
     then id_dimension t (xs ++ [id_part id]) part else part) = field_part fields xs id (of_Field f).
Proof.
  intros P Hs. pose proof (posting_length _ _ P) as Hl. unfold order_served in Hs. rewrite (find_zip _ xs) in Hs by done.
  unfold field_part. destruct (String.eqb_spec (of_Field f) "id") as [Hid|Hne].
  - rewrite Hid in *. exists (id_part id). split; [apply lookup_insert_eq|]. cbn [andb].
    rewrite id_dimension_find, zip_snoc by done.
    destruct (List.find (named tf_Field "id") (zip fields xs)) as [[tf x]|] eqn:E; cbn [option_map fst snd] in *.
    + apply andb_true_iff in Hs as [_ Hd%bool_decide_eq_true]. destruct (found_part _ _ _ _ _ P E) as (Hn & i & Hf & Hx).
      pose proof (po_id _ _ _ P i tf Hf Hn) as Hx'. assert (x = component (fieldDirection tf) (id_raw id)) as -> by congruence.
      rewrite <- Hd. by destruct (fieldDirection_valid tf) as [-> | ->]; [destruct (bool_decide _)|rewrite bool_decide_true].
    + by destruct (bool_decide (of_Direction f = Desc)).
  - rewrite lookup_insert_ne by done. rewrite insert_parts_lookup, zip_snoc by done. cbn [andb].
    destruct (List.find (named tf_Field (of_Field f)) (zip fields xs)) as [[tf x]|] eqn:E; [by exists x|]. cbn in Hs.
    apply andb_true_iff in Hs as [Hid _]. by apply String.eqb_eq in Hid.
Qed.

Definition order_parts (xs : list bytes) (id : string) (order : list OrderField) : list bytes :=
  map (fun f => field_part fields xs id (of_Field f)) order.

Lemma position_parts_eq xs id order :
  posting t xs id -> Forall (fun f => order_served t f = true) order ->
  position_parts t (xs ++ [id_part id]) (<["id" := id_part id]> (insert_parts (map tf_Field fields) (xs ++ [id_part id]) ∅)) order
  = Some (concat (order_parts xs id order)).
Proof.
  intros P. induction 1 as [|f order Hf Ho IH]; [done|]. cbn [position_parts order_parts map concat].
  destruct (position_value xs id f P Hf) as (part & -> & ->). cbv zeta. by rewrite IH.
Qed.

Lemma position_posting md xs id p :
  md_Template md = t -> Forall (fun f => order_served t f = true) (orderComponents (md_EffectiveOrder md)) ->
  posting t xs id -> position md (posting_key xs id) = Ok p ->
  p = Version :: concat (order_parts xs id (orderComponents (md_EffectiveOrder md))) ++ id_part id.
Proof.
  intros Et Hs P H. unfold position in H. rewrite (posting_key_parts xs id P), Et in H.
  apply bind_ok in H as (parts & Ep & H). apply Ok_inj in Ep. subst parts.
  destruct (negb _); [done|]. cbv zeta in H. rewrite last_snoc in H. cbn [default] in H.
  rewrite position_parts_eq in H by done. destruct (_ <? _); [done|]. by apply Ok_inj in H.
Qed.

Lemma served_parts xs id order :
  posting t xs id -> Forall (fun f => order_served t f = true) order ->
  Forall2 key_part (map of_Direction order) (order_parts xs id order).
Proof.
  intros P H. unfold order_parts. induction H as [|f order Hf H IH]; cbn; constructor; [by apply served_part|done].
Qed.

(** Postings that agree on the fixed fields. *)
Lemma zip_take_drop {A B} n (l : list A) (xs : list B) : zip l xs = zip (take n l) (take n xs) ++ zip (drop n l) (drop n xs).
Proof. revert l xs; induction n as [|n IH]; intros [|a l] [|x xs]; cbn; try done; [by destruct (drop n l)|]. by rewrite <- IH. Qed.

Lemma find_app_l {A} (P : A -> bool) l1 l2 : is_Some (List.find P l1) -> List.find P (l1 ++ l2) = List.find P l1.
Proof. induction l1 as [|x l1 IH]; cbn; [by intros [? ?]|]. destruct (P x); [done|exact IH]. Qed.

Lemma fixed_part xs n name :
  length fields = length xs -> name ∈ map tf_Field (take n fields) ->
  is_Some (List.find (named tf_Field name) (zip (take n fields) (take n xs))).
Proof.
  intros Hl Hn. destruct (List.find _ _) eqn:E; [by eexists|]. exfalso.
  apply list_elem_of_fmap in Hn as (f & -> & [i Hi]%list_elem_of_lookup).
  destruct (lookup_lt_is_Some_2 (take n xs) i) as [x Hx].
  { apply lookup_lt_Some in Hi. rewrite length_take in Hi. rewrite length_take. lia. }
  assert (Hz : (f, x) ∈ zip (take n fields) (take n xs)).
  { apply list_elem_of_lookup. exists i. by rewrite lookup_zip_with, Hi, Hx. }
  apply list_elem_of_In, (List.find_none _ _ E) in Hz. unfold named in Hz. cbn in Hz. by rewrite String.eqb_refl in Hz.
Qed.

Lemma fixed_part_same xs ys id id' n name :
  posting t xs id -> posting t ys id' -> take n xs = take n ys -> name ∈ map tf_Field (take n fields) ->
  field_part fields xs id name = field_part fields ys id' name.
Proof.
  intros P Q E Hn. unfold field_part. rewrite (zip_take_drop n fields xs), (zip_take_drop n fields ys).
  rewrite !find_app_l by (apply fixed_part; [by eapply posting_length|done]).
  rewrite E. destruct (fixed_part ys n name (posting_length _ _ Q) Hn) as [p ->]. done.
Qed.

Definition variable (n : nat) (f : OrderField) : bool := negb (bool_decide (of_Field f ∈ map tf_Field (take n fields))).

Lemma variable_compare xs ys id id' n order r s :
  posting t xs id -> posting t ys id' ->
  (forall f, f ∈ order -> variable n f = false -> field_part fields xs id (of_Field f) = field_part fields ys id' (of_Field f)) ->
  Forall (fun f => order_served t f = true) order ->
  bytes_compare (concat (order_parts xs id order) ++ r) (concat (order_parts ys id' order) ++ s) =
  bytes_compare (concat (order_parts xs id (List.filter (variable n) order)) ++ r)
                (concat (order_parts ys id' (List.filter (variable n) order)) ++ s).
Proof.
  intros P Q E Hs. induction Hs as [|f order Hf Ho IH]; [done|]. cbn [order_parts map concat List.filter].
  fold (order_parts xs id order) (order_parts ys id' order).
  rewrite <- !app_assoc, (part_compare (of_Direction f)) by (by apply served_part).
  rewrite IH by (intros g Hg; apply E; by right).
  destruct (variable n f) eqn:B.
  - cbn [order_parts map concat]. rewrite <- !app_assoc.
    by rewrite (part_compare (of_Direction f) (field_part fields xs id (of_Field f)) (field_part fields ys id' (of_Field f)))
      by (by apply served_part).
  - by rewrite (E f ltac:(left) B), bytes_compare_refl.
Qed.

Lemma field_part_lookup xs id i f x :
  posting t xs id -> fields !! i = Some f -> xs !! i = Some x -> field_part fields xs id (tf_Field f) = x.
Proof.
  intros P Hf Hx. unfold field_part.
  destruct (fixed_part xs (length fields) (tf_Field f) (posting_length _ _ P)) as [[g y] E].
  { rewrite firstn_all. apply (list_elem_of_fmap_2 tf_Field). by eapply list_elem_of_lookup_2. }
  rewrite (posting_length _ _ P) in E at 2. rewrite !firstn_all in E. rewrite E.
  destruct (found_part _ _ _ _ _ P E) as (Hn & j & Hg & Hy). cbn.
  assert (j = i) as ->; [|congruence].
  apply (NoDup_lookup (map tf_Field fields) j i (tf_Field f) Hnd); rewrite list_lookup_fmap, ?Hg, ?Hf; cbn; congruence.
Qed.

Lemma field_parts_all xs id : posting t xs id -> map (fun f => field_part fields xs id (tf_Field f)) fields = xs.
Proof.
  intros P. apply list_eq. intros i. rewrite list_lookup_fmap. destruct (fields !! i) as [f|] eqn:Hf; cbn.
  - destruct (lookup_lt_is_Some_2 xs i) as [x Hx]; [rewrite <- (posting_length _ _ P); by eapply lookup_lt_Some|].
    by rewrite Hx, (field_part_lookup xs id i f x).
  - symmetry. apply lookup_ge_None. rewrite <- (posting_length _ _ P). by apply lookup_ge_None.
Qed.

(** The parts behind the fixed ones are those of the remaining fields, then the
    identifier when the last of them is an ascending [id]. *)
Lemma remaining_parts xs id n :
  posting t xs id ->
  let rem := order_parts xs id (map (fun f => OrderBy (tf_Field f) (fieldDirection f)) (remaining_fields t n)) in
  drop n xs = rem \/ drop n xs = rem ++ [id_part id].
Proof.
  intros P. cbv zeta. unfold order_parts. rewrite map_map. cbn [of_Field].
  assert (Hd : drop n xs = map (fun f => field_part fields xs id (tf_Field f)) (drop n fields)).
  { rewrite <- (field_parts_all xs id P) at 1. apply skipn_map. }
  rewrite Hd. unfold remaining_fields. destruct (last (drop n fields)) as [f|] eqn:L; [|by left].
  destruct (String.eqb (tf_Field f) "id" && bool_decide (fieldDirection f = Asc)) eqn:C; [right|by left].
  apply andb_true_iff in C as [Hid%String.eqb_eq Ha%bool_decide_eq_true].
  apply last_Some in L as [l El]. rewrite El, length_app. cbn [length]. rewrite Nat.add_sub, take_app_length, map_app.
  cbn. do 2 f_equal.
  assert (fields !! (n + length l)%nat = Some f) as Hf.
  { rewrite <- lookup_drop, El. by apply list_lookup_middle. }
  pose proof (po_id _ _ _ P _ _ Hf Hid) as Hx. by rewrite (field_part_lookup xs id _ f _ P Hf Hx), Ha.
Qed.

(** ** From a position back to a posting *)
Lemma order_find xs id order name :
  List.find (named of_Field name) (zip order (order_parts xs id order)) =
  option_map (fun f => (f, field_part fields xs id name)) (List.find (fun f => String.eqb (of_Field f) name) order).
Proof.
  induction order as [|f order IH]; [done|]. cbn [order_parts map zip zip_with List.find]. unfold named at 1. cbn [fst].
  destruct (String.eqb_spec (of_Field f) name) as [<-|]; [done|exact IH].
Qed.

Lemma order_values xs id order name :
  NoDup (map of_Field order) ->
  insert_parts (map of_Field order) (order_parts xs id order ++ [id_part id]) ∅ !! name =
  if bool_decide (name ∈ map of_Field order) then Some (field_part fields xs id name) else None.
Proof.
  intros Hn. rewrite insert_parts_lookup by done. rewrite (zip_snoc order) by (unfold order_parts; by rewrite length_map).
  rewrite order_find. destruct (List.find (fun f => String.eqb (of_Field f) name) order) as [f|] eqn:E; cbn.
  - apply List.find_some in E as [Hin Hf%String.eqb_eq]. rewrite bool_decide_true; [done|].
    subst name. apply (list_elem_of_fmap_2 of_Field). by apply list_elem_of_In.
  - rewrite bool_decide_false; [done|]. intros (f & -> & Hin)%list_elem_of_fmap.
    apply list_elem_of_In, (List.find_none _ _ E) in Hin. by rewrite String.eqb_refl in Hin.
Qed.

Lemma append_parts_all values (names : list string) (g : string -> bytes) :
  (forall n, n ∈ names -> values !! n = Some (g n)) -> append_parts values names = Some (concat (map g names)).
Proof.
  induction names as [|n names IH]; intros H; cbn; [done|]. rewrite H by left. rewrite IH; [done|].
  intros m Hm. apply H. by right.
Qed.

(** Every field behind the fixed ones is in the order, or is the identifier. *)
Lemma remaining_named n order f :
  List.filter (variable n) order = map (fun f => OrderBy (tf_Field f) (fieldDirection f)) (remaining_fields t n) ->
  f ∈ drop n fields -> tf_Field f ∈ map of_Field order \/ (tf_Field f = "id" /\ fieldDirection f = Asc).
Proof.
  intros Hv Hf. assert (f ∈ remaining_fields t n \/ (tf_Field f = "id" /\ fieldDirection f = Asc)) as [Hr|]; [|left|by right].
  { unfold remaining_fields. destruct (last (drop n fields)) as [g|] eqn:L; [|by left].
    destruct (String.eqb (tf_Field g) "id" && _) eqn:C; [|by left].
    apply andb_true_iff in C as [Hid%String.eqb_eq Ha%bool_decide_eq_true]. apply last_Some in L as [l El]. rewrite El in Hf |- *.
    rewrite length_app. cbn [length]. rewrite Nat.add_sub, take_app_length.
    apply elem_of_app in Hf as [?| ->%list_elem_of_singleton]; [by left|by right]. }
  assert (OrderBy (tf_Field f) (fieldDirection f) ∈ List.filter (variable n) order) as Hin.
  { rewrite Hv. by apply (list_elem_of_fmap_2 (fun f => OrderBy (tf_Field f) (fieldDirection f))). }
  apply list_elem_of_In, filter_In in Hin as [Hin _]. apply list_elem_of_In in Hin.
  by apply (list_elem_of_fmap_2 of_Field) in Hin.
Qed.

Lemma field_part_id xs id f : posting t xs id -> f ∈ fields -> tf_Field f = "id" -> fieldDirection f = Asc ->
  field_part fields xs id "id" = id_part id.
Proof.
  intros P [i Hi]%list_elem_of_lookup Hid Ha. pose proof (po_id _ _ _ P i f Hi Hid) as Hx.
  rewrite <- Hid, (field_part_lookup xs id i f _ P Hi Hx), Ha. done.
Qed.

Lemma PostingKey_position md xs id branchID b n :
  md_Template md = t -> (if branchID <? 0 then None else md_Branches md !! Z.to_nat branchID) = Some b ->
  cb_FixedFields b = n -> posting t xs id -> NoDup (map of_Field (orderComponents (md_EffectiveOrder md))) ->
  Forall (fun f => order_served t f = true) (orderComponents (md_EffectiveOrder md)) ->
  List.filter (variable n) (orderComponents (md_EffectiveOrder md))
    = map (fun f => OrderBy (tf_Field f) (fieldDirection f)) (remaining_fields t n) ->
  PostingKey md (Version :: concat (order_parts xs id (orderComponents (md_EffectiveOrder md))) ++ id_part id) branchID
  = Ok (cb_Prefix b ++ concat (drop n xs) ++ id_part id).
Proof.
  intros Et Eb En P Ho Hs Hv. unfold PostingKey. rewrite Eb, Et, En. set (order := orderComponents _) in *.
  assert (tupleParts (Version :: concat (order_parts xs id order) ++ id_part id) = Ok (order_parts xs id order ++ [id_part id])) as ->.
  { rewrite <- (tupleParts_key (map of_Direction order ++ [Asc])); [by rewrite concat_app; cbn; rewrite app_nil_r|].
    apply Forall2_app; [by apply served_parts|]. constructor; [apply id_part_key; by left|constructor]. }
  cbn [mbind res_bind]. rewrite length_app. unfold order_parts at 1. rewrite length_map, Nat.eqb_refl. cbn [negb].
  cbv zeta. rewrite last_snoc. cbn [default].
  rewrite (append_parts_all _ _ (field_part fields xs id)).
  - f_equal. do 2 f_equal. f_equal. rewrite map_map, <- skipn_map. by rewrite field_parts_all.
  - intros name (f & -> & Hf)%list_elem_of_fmap. rewrite !order_values by done.
    pose proof (subseteq_drop n fields f Hf) as Hin.
    destruct (remaining_named n order f Hv Hf) as [Hn|[Hid Ha]].
    + destruct (bool_decide ("id" ∈ map of_Field order)) eqn:B; [by rewrite order_values, bool_decide_true|].
      rewrite lookup_insert_ne; [by rewrite order_values, bool_decide_true|].
      intros E. rewrite <- E in Hn. apply bool_decide_eq_false in B. done.
    + rewrite Hid. destruct (bool_decide ("id" ∈ map of_Field order)) eqn:B; [by rewrite order_values, B|].
      rewrite lookup_insert_eq. f_equal. symmetry. by eapply field_part_id.
Qed.
End Posting.

(** ** The order of a plan names each field once *)
Lemma orderComponents_take order : exists k, orderComponents order = take k order.
Proof.
  unfold orderComponents. destruct (last order); [destruct (is_id_asc _)|]; eauto; exists (length order); by rewrite firstn_all.
Qed.

Lemma effective_order_NoDup t orderBy :
  NoDup (map tf_Field (tmpl_Fields t)) -> NoDup (map of_Field orderBy) ->
  NoDup (map of_Field (orderComponents (effective_order t orderBy))).
Proof.
  intros Ht Ho. assert (NoDup (map of_Field (effective_order t orderBy))) as H.
  { unfold effective_order. set (order := match orderBy with [] => _ | _ => orderBy end).
    assert (NoDup (map of_Field order)) as Hn.
    { subst order. destruct orderBy; [|done]. rewrite map_map. cbn [of_Field].
      clear Ho. induction (tmpl_Fields t) as [|f l IH]; cbn; [constructor|].
      cbn in Ht. apply NoDup_cons in Ht as [Hf Ht]. destruct (negb _); [|by apply IH]. cbn. constructor; [|by apply IH].
      intros (g & E & Hg)%list_elem_of_fmap. apply Hf. rewrite E. apply (list_elem_of_fmap_2 tf_Field).
      apply list_elem_of_In, filter_In in Hg as [Hg _]. by apply list_elem_of_In. }
    destruct (existsb _ order) eqn:E; [done|]. rewrite map_app. apply NoDup_app. split; [done|].
    split; [|apply NoDup_singleton]. cbn. intros name (f & -> & Hf)%list_elem_of_fmap Hid%list_elem_of_singleton.
    assert (existsb (fun f => String.eqb (of_Field f) "id") order = true); [|congruence].
    apply existsb_exists. exists f. split; [by apply list_elem_of_In|by apply String.eqb_eq]. }
  destruct (orderComponents_take (effective_order t orderBy)) as [k ->].
  rewrite <- firstn_map. eapply sublist_NoDup; [exact H|]. apply sublist_take.
Qed.

(** ** Order within a branch *)
Section Branch.
Context (t : Template) (orderBy : list OrderField) (md : CandidateMetadata) (fixed : nat).
Context (Hnd : NoDup (map tf_Field (tmpl_Fields t))) (Hc : compiled t orderBy md fixed).
Abbreviation order := (orderComponents (md_EffectiveOrder md)).

(** A posting within the bounds of a branch starts with the branch's prefix. *)
Lemma branch_prefix b xs id :
  b ∈ md_Branches md -> posting t xs id ->
  in_interval (posting_key xs id) (Interval (cb_Lower b) (cb_Upper b)) = true ->
  cb_FixedFields b = fixed /\ cb_Prefix b = Version :: concat (take fixed xs).
Proof.
  intros Hb P Hin. destruct (proj1 (Forall_forall _ _) (cp_branches _ _ _ _ Hc) b Hb) as [(Hn & Hl & fx & Ep & Hfx) [Hconf _]].
  split; [done|]. apply (Hconf _ (posting_bytes _ xs id P)) in Hin. apply prefixb_split in Hin as [rest E].
  rewrite Ep in E |- *. unfold posting_key in E. injection E as E.
  rewrite <- (take_drop fixed xs), concat_app, <- app_assoc in E. f_equal. f_equal.
  symmetry in E. eapply (parts_inj _ _ _ _ _ Hfx) in E as [-> _]; [done|].
  rewrite <- firstn_map. apply Forall2_take, posting_dirs with id. done.
Qed.

Lemma branch_same b xs ys id id' :
  b ∈ md_Branches md -> posting t xs id -> posting t ys id' ->
  in_interval (posting_key xs id) (Interval (cb_Lower b) (cb_Upper b)) = true ->
  in_interval (posting_key ys id') (Interval (cb_Lower b) (cb_Upper b)) = true -> take fixed xs = take fixed ys.
Proof.
  intros Hb P Q Hx Hy. destruct (branch_prefix b xs id Hb P Hx) as [_ Ex], (branch_prefix b ys id' Hb Q Hy) as [_ Ey].
  rewrite Ex in Ey. injection Ey as E. rewrite <- (app_nil_r (concat (take _ xs))), <- (app_nil_r (concat (take _ ys))) in E.
  apply (parts_inj (take fixed (map fieldDirection (tmpl_Fields t)))) in E as [? _]; [done|..];
    apply Forall2_take; by eapply posting_dirs.
Qed.

(** The parts behind the fixed ones compare like the parts of the order. *)
Lemma tails_compare xs ys id id' :
  posting t xs id -> posting t ys id' ->
  (forall f, f ∈ order -> variable t fixed f = false ->
     field_part (tmpl_Fields t) xs id (of_Field f) = field_part (tmpl_Fields t) ys id' (of_Field f)) ->
  bytes_compare (concat (drop fixed xs) ++ id_part id) (concat (drop fixed ys) ++ id_part id') =
  bytes_compare (concat (order_parts t xs id order) ++ id_part id) (concat (order_parts t ys id' order) ++ id_part id').
Proof.
  intros P Q E. rewrite (variable_compare t xs ys id id' fixed order) by (done || apply (cp_served _ _ _ _ Hc)).
  assert (Forall (fun f => order_served t f = true) (List.filter (variable t fixed) order)) as Hs.
  { apply Forall_forall. intros f [Hf _]%list_elem_of_In%filter_In.
    apply (proj1 (Forall_forall _ _) (cp_served _ _ _ _ Hc)). by apply list_elem_of_In. }
  assert (Hv : List.filter (variable t fixed) order = map (fun f => OrderBy (tf_Field f) (fieldDirection f)) (remaining_fields t fixed))
    by exact (cp_variable _ _ _ _ Hc).
  pose proof (served_parts t xs id _ P Hs) as Hx. pose proof (served_parts t ys id' _ Q Hs) as Hy.
  pose proof (remaining_parts t Hnd xs id fixed P) as Rx. pose proof (remaining_parts t Hnd ys id' fixed Q) as Ry.
  cbv zeta in Rx, Ry. rewrite <- Hv in Rx, Ry. set (vo := List.filter (variable t fixed) order) in *.
  assert (length (drop fixed xs) = length (drop fixed ys)) as Hl.
  { rewrite !length_drop, <- (posting_length _ _ _ P), <- (posting_length _ _ _ Q). done. }
  destruct Rx as [Rx|Rx], Ry as [Ry|Ry]; rewrite Rx, Ry in Hl |- *; unfold order_parts in Hl;
    rewrite ?length_app, ?length_map in Hl; cbn in Hl; try lia; [done|].
  rewrite !concat_app. cbn [concat]. rewrite !app_nil_r, <- !app_assoc.
  rewrite !(parts_compare _ _ _ _ _ Hx Hy), (part_compare Asc) by (apply id_part_key; by left).
  by destruct (bytes_compare (id_part id) (id_part id')).
Qed.

Lemma positions_compare xs ys id id' p q :
  posting t xs id -> posting t ys id' -> take fixed xs = take fixed ys ->
  position md (posting_key xs id) = Ok p -> position md (posting_key ys id') = Ok q ->
  bytes_compare p q = bytes_compare (posting_key xs id) (posting_key ys id').
Proof.
  intros P Q E Hp Hq.
  apply (position_posting t Hnd) in Hp; [|apply (cp_template _ _ _ _ Hc)|apply (cp_served _ _ _ _ Hc)|done].
  apply (position_posting t Hnd) in Hq; [|apply (cp_template _ _ _ _ Hc)|apply (cp_served _ _ _ _ Hc)|done].
  subst p q. unfold posting_key. cbn [bytes_compare]. rewrite Z.compare_refl, <- tails_compare;
    [|done..|intros f _ [=B%negb_false_iff%bool_decide_eq_true]; by eapply fixed_part_same].
  assert (Ex : concat xs ++ id_part id = concat (take fixed xs) ++ concat (drop fixed xs) ++ id_part id)
    by (rewrite app_assoc, <- concat_app, take_drop; done).
  assert (Ey : concat ys ++ id_part id' = concat (take fixed ys) ++ concat (drop fixed ys) ++ id_part id')
    by (rewrite app_assoc, <- concat_app, take_drop; done).
  by rewrite Ex, Ey, E, bytes_compare_app_r.
Qed.

(** ** Resuming after a position *)
Lemma seek_leb P ds V V' T :
  Forall2 key_part ds V -> Forall2 key_part ds V' ->
  bytes_leb (P ++ concat V') (P ++ concat V ++ T) = negb (is_Lt (bytes_compare (concat V) (concat V'))).
Proof.
  intros HV HV'. rewrite bytes_leb_ltb. unfold bytes_ltb. rewrite bytes_compare_app_r.
  rewrite <- (app_nil_r (concat V')) at 1. rewrite (parts_compare ds) by done.
  destruct (bytes_compare (concat V) (concat V')); cbn; try done. by destruct T.
Qed.

Lemma parts_prefixb ds V V' T :
  Forall2 key_part ds V -> Forall2 key_part ds V' ->
  prefixb (concat V') (concat V ++ T) = is_Eq (bytes_compare (concat V) (concat V')).
Proof.
  intros HV HV'. destruct (prefixb _ _) eqn:E.
  - apply prefixb_split in E as [rest E]. apply (parts_inj ds) in E as [-> _]; [|done..]. by rewrite bytes_compare_refl.
  - destruct (bytes_compare (concat V) (concat V')) eqn:C; try done. apply bytes_compare_eq in C.
    by rewrite C, prefixb_app in E.
Qed.

Lemma successor_leb P ds V V' T q :
  is_bytes P -> is_bytes T -> Forall2 key_part ds V -> Forall2 key_part ds V' ->
  PrefixSuccessor (P ++ concat V') = Some q ->
  bytes_leb q (P ++ concat V ++ T) = is_Gt (bytes_compare (concat V) (concat V')).
Proof.
  intros HP HT HV HV' Eq. pose proof (parts_bytes _ _ HV) as BV. pose proof (parts_bytes _ _ HV') as BV'.
  assert (below (P ++ concat V ++ T) (Some q) = bytes_ltb (P ++ concat V ++ T) (P ++ concat V') || prefixb (P ++ concat V') (P ++ concat V ++ T)) as B.
  { rewrite <- Eq. apply PrefixSuccessor_below; auto with syntrix. }
  rewrite bytes_leb_ltb. cbn [below] in B. rewrite B, prefixb_app_r, (parts_prefixb ds) by done.
  pose proof (seek_leb P ds V V' T HV HV') as L. rewrite bytes_leb_ltb in L. apply (f_equal negb) in L.
  rewrite !negb_involutive in L. rewrite L. by destruct (bytes_compare (concat V) (concat V')).
Qed.

Section Seek.
Context (xs ys : list bytes) (id id' : string) (P : posting t xs id) (Q : posting t ys id').
Context (pre : bytes) (fm : gmap string bytes).
Hypothesis (Hpre : is_bytes pre) (Hhd : exists b p, pre = b :: p /\ b <> 0xff).
Hypothesis (Hfm : forall f, order_served t f = true ->
  fm !! of_Field f = if variable t fixed f then None else Some (field_part (tmpl_Fields t) xs id (of_Field f))).

Abbreviation px o := (order_parts t xs id o).
Abbreviation py o := (order_parts t ys id' o).

Lemma seek_order_spec ds V V' o last r r' R :
  Forall (fun f => order_served t f = true) o -> Forall2 key_part ds V -> Forall2 key_part ds V' -> is_bytes R ->
  match seek_order fm (pre ++ concat V') o (py o ++ last) with
  | Some s => exists q, s = Some q /\
      bytes_leb q (pre ++ concat V ++ concat (px (List.filter (variable t fixed) o)) ++ R) =
      is_Gt (bytes_compare (concat V ++ concat (px o) ++ r) (concat V' ++ concat (py o) ++ r'))
  | None => forall f, f ∈ o -> variable t fixed f = false ->
      field_part (tmpl_Fields t) xs id (of_Field f) = field_part (tmpl_Fields t) ys id' (of_Field f)
  end.
Proof.
  intros Ho; revert ds V V'; induction Ho as [|f o Hf Ho IH]; intros ds V V' HV HV' HR.
  { cbn. intros f Hin. by apply elem_of_nil in Hin. }
  pose proof (served_part t xs id f P Hf) as Kx. pose proof (served_part t ys id' f Q Hf) as Ky.
  cbn [order_parts map app seek_order List.filter concat]. rewrite Hfm by done.
  fold (order_parts t xs id o) (order_parts t ys id' o).
  set (x := field_part _ xs id (of_Field f)) in *. set (y := field_part _ ys id' (of_Field f)) in *.
  destruct (variable t fixed f) eqn:B.
  - specialize (IH (ds ++ [of_Direction f]) (V ++ [x]) (V' ++ [y])).
    rewrite !concat_app in IH. cbn [concat] in IH. rewrite !app_nil_r in IH.
    rewrite <- (app_assoc pre (concat V') y). cbn [order_parts map concat]. fold x.
    assert (Forall2 key_part (ds ++ [of_Direction f]) (V ++ [x])) as KV by (apply Forall2_app; [done|constructor; [done|constructor]]).
    assert (Forall2 key_part (ds ++ [of_Direction f]) (V' ++ [y])) as KV' by (apply Forall2_app; [done|constructor; [done|constructor]]).
    specialize (IH KV KV' HR). destruct (seek_order fm _ o _) as [s|].
    + destruct IH as (q & -> & IH). exists q. split; [done|]. rewrite <- !app_assoc in *. exact IH.
    + intros g [->|Hg]%elem_of_cons Bg; [congruence|]. by apply IH.
  - assert (BR : is_bytes (concat (px (List.filter (variable t fixed) o)) ++ R)).
    { apply is_bytes_app; [|done]. eapply parts_bytes, (served_parts t); [exact P|].
      apply Forall_forall. intros g [Hg _]%list_elem_of_In%filter_In. apply (proj1 (Forall_forall _ _) Ho). by apply list_elem_of_In. }
    assert (Hcmp : bytes_compare (concat V ++ (x ++ concat (px o)) ++ r) (concat V' ++ (y ++ concat (py o)) ++ r') =
      then_compare (bytes_compare (concat V) (concat V')) (then_compare (bytes_compare x y)
        (bytes_compare (concat (px o) ++ r) (concat (py o) ++ r')))).
    { rewrite <- !app_assoc, (parts_compare ds), (part_compare (of_Direction f)) by done. done. }
    rewrite Hcmp. destruct (bytes_compare x y) eqn:C; cbn [then_compare].
    + specialize (IH ds V V' HV HV' HR). destruct (seek_order fm _ o _) as [s|].
      * destruct IH as (q & -> & IH). exists q. split; [done|]. etransitivity; [exact IH|]. by rewrite (parts_compare ds).
      * intros g [->|Hg]%elem_of_cons Bg; [|by apply IH]. by apply bytes_compare_eq.
    + destruct Hhd as (b0 & p0 & Epre & Hb0). destruct (PrefixSuccessor (pre ++ concat V')) as [q|] eqn:Es.
      * exists q. split; [done|].
        etransitivity; [exact (successor_leb pre ds V V' _ q Hpre BR HV HV' Es)|]. by destruct (bytes_compare (concat V) _).
      * exfalso. rewrite Epre in Es. cbn [app] in Es.
        destruct (PrefixSuccessor_some b0 (p0 ++ concat V') Hb0) as [? E']. congruence.
    + exists (pre ++ concat V'). split; [done|].
      etransitivity; [exact (seek_leb pre ds V V' _ HV HV')|]. by destruct (bytes_compare (concat V) _).
Qed.
End Seek.

Lemma fixed_values xs id f :
  posting t xs id -> (fixed <= length (tmpl_Fields t))%nat ->
  insert_parts (map tf_Field (tmpl_Fields t)) (take fixed xs) ∅ !! of_Field f =
  if variable t fixed f then None else Some (field_part (tmpl_Fields t) xs id (of_Field f)).
Proof.
  intros P Hl. rewrite insert_parts_lookup, lookup_empty by done.
  assert (zip (tmpl_Fields t) (take fixed xs) = zip (take fixed (tmpl_Fields t)) (take fixed xs)) as ->.
  { rewrite (zip_take_drop fixed (tmpl_Fields t) (take fixed xs)), take_take, Nat.min_id.
    rewrite (drop_ge (take fixed xs)) by (rewrite length_take; lia). destruct (drop fixed (tmpl_Fields t)); apply app_nil_r. }
  unfold variable. destruct (bool_decide (of_Field f ∈ _)) eqn:B; cbn [negb].
  - apply bool_decide_eq_true in B. unfold field_part. rewrite (zip_take_drop fixed (tmpl_Fields t) xs).
    destruct (fixed_part t xs fixed (of_Field f) (posting_length _ _ _ P) B) as [p E].
    rewrite find_app_l by (by eexists). by rewrite E.
  - apply bool_decide_eq_false in B. by rewrite zip_names_absent.
Qed.

Lemma order_parts_after ys id' after :
  posting t ys id' -> position md (posting_key ys id') = Ok after ->
  after = Version :: concat (order_parts t ys id' order) ++ id_part id' /\
  tupleParts after = Ok (order_parts t ys id' order ++ [id_part id']).
Proof.
  intros Q Hq. apply (position_posting t Hnd) in Hq; [|apply (cp_template _ _ _ _ Hc)|apply (cp_served _ _ _ _ Hc)|done].
  split; [done|]. subst after. rewrite <- (tupleParts_key (map of_Direction order ++ [Asc])).
  { by rewrite concat_app; cbn; rewrite app_nil_r. }
  apply Forall2_app; [apply served_parts; [done|apply (cp_served _ _ _ _ Hc)]|].
  constructor; [apply id_part_key; by left|constructor].
Qed.

Hypothesis (Hord : NoDup (map of_Field orderBy)).

Lemma order_NoDup : NoDup (map of_Field order).
Proof. rewrite (cp_order _ _ _ _ Hc). by apply effective_order_NoDup. Qed.

Lemma PostingKey_any ys id' after branchID b :
  (if branchID <? 0 then None else md_Branches md !! Z.to_nat branchID) = Some b ->
  posting t ys id' -> position md (posting_key ys id') = Ok after ->
  PostingKey md after branchID = Ok (cb_Prefix b ++ concat (drop fixed ys) ++ id_part id').
Proof.
  intros Eb Q Hq. destruct (order_parts_after ys id' after Q Hq) as [-> _].
  assert (b ∈ md_Branches md) as Hb by (destruct (branchID <? 0); [done|by eapply list_elem_of_lookup_2]).
  destruct (proj1 (Forall_forall _ _) (cp_branches _ _ _ _ Hc) b Hb) as [(Hn & _) _].
  apply PostingKey_position; auto using order_NoDup; [apply (cp_template _ _ _ _ Hc)|apply (cp_served _ _ _ _ Hc)|].
  exact (cp_variable _ _ _ _ Hc).
Qed.

(** The parts of a posting behind the fixed ones start with those of the order. *)
Lemma posting_tail xs id :
  posting t xs id -> exists R, is_bytes R /\
    concat (drop fixed xs) ++ id_part id = concat (order_parts t xs id (List.filter (variable t fixed) order)) ++ R.
Proof.
  intros P. assert (is_bytes (id_part id)) as Hb by (eapply (part_bytes Asc), id_part_key; by left).
  assert (Hv : List.filter (variable t fixed) order = map (fun f => OrderBy (tf_Field f) (fieldDirection f)) (remaining_fields t fixed))
    by exact (cp_variable _ _ _ _ Hc).
  destruct (remaining_parts t Hnd xs id fixed P) as [E|E]; rewrite <- Hv in E; rewrite E.
  - by exists (id_part id).
  - exists (id_part id ++ id_part id). split; [by apply is_bytes_app|]. rewrite concat_app. cbn. by rewrite app_nil_r, <- app_assoc.
Qed.

(** A key between the bounds of its branch stays so under other bounds. *)
(** A resumed scan stays inside the branch. *)
Lemma scanOptions_within branchID after b opts k :
  (if branchID <? 0 then None else md_Branches md !! Z.to_nat branchID) = Some b ->
  scanOptions md branchID after = Ok opts ->
  opt_Limit opts = 0 /\ (in_bounds opts k = true -> in_interval k (Interval (cb_Lower b) (cb_Upper b)) = true).
Proof.
  intros Eb H. assert (b ∈ md_Branches md) as Hb by (destruct (branchID <? 0); [done|by eapply list_elem_of_lookup_2]).
  destruct (proj1 (Forall_forall _ _) (cp_branches _ _ _ _ Hc) b Hb) as (_ & _ & [u Hu]).
  assert (Hin : forall lower start, (lower = cb_Lower b \/ lower = u \/ bytes_ltb (cb_Lower b) lower = true) ->
    in_bounds {| opt_Lower := lower; opt_Upper := cb_Upper b; opt_StartAfter := start; opt_Limit := 0 |} k = true ->
    in_interval k (Interval (cb_Lower b) (cb_Upper b)) = true).
  { intros lower start Hlow Hk. unfold in_bounds, in_interval in *. cbn in *. apply andb_true_iff in Hk as [[Hk _]%andb_true_iff Hup].
    rewrite Hup, andb_true_r. destruct Hlow as [->|[->|Hlt]]; [done| |].
    - rewrite Hu in Hup. by rewrite bytes_leb_ltb, Hup in Hk.
    - apply bytes_ltb_lt in Hlt. apply bytes_leb_le in Hk. apply bytes_leb_le. eapply bytes_le_trans; [|exact Hk]. by rewrite Hlt. }
  unfold scanOptions in H. rewrite Eb in H. destruct (length after =? 0)%nat; [apply Ok_inj in H; subst opts; eauto|].
  apply bind_ok in H as (parts & _ & H). cbv zeta in H. destruct (negb _); [done|]. apply bind_ok in H as (fp & _ & H).
  destruct (seek_order _ _ _ _) as [[q|]|].
  - apply Ok_inj in H. subst opts. split; [done|]. apply Hin. destruct (bytes_ltb (cb_Lower b) q) eqn:E; auto.
  - apply Ok_inj in H. subst opts. split; [done|]. apply Hin. rewrite Hu. auto.
  - apply bind_ok in H as (q & _ & H). apply Ok_inj in H. subst opts. split; [done|]. apply Hin. auto.
Qed.

(** Equal positions name the same document. *)
Lemma position_id xs ys id id' p :
  posting t xs id -> posting t ys id' ->
  position md (posting_key xs id) = Ok p -> position md (posting_key ys id') = Ok p -> id = id'.
Proof.
  intros P Q Hp Hq. destruct (order_parts_after xs id p P Hp) as [E _], (order_parts_after ys id' p Q Hq) as [E' _].
  rewrite E in E'. injection E' as E'.
  eapply (parts_inj (map of_Direction order)) in E' as [_ E'];
    [|apply served_parts; [done|apply (cp_served _ _ _ _ Hc)]..].
  by apply id_part_inj.
Qed.

Lemma in_bounds_raised b k lower after :
  in_interval k (Interval (cb_Lower b) (cb_Upper b)) = true ->
  in_bounds {| opt_Lower := lower; opt_Upper := cb_Upper b; opt_StartAfter := after; opt_Limit := 0 |} k =
  bytes_leb lower k && match after with Some a => bytes_ltb a k | None => true end.
Proof.
  unfold in_interval, in_bounds. cbn. intros [_ Hu]%andb_true_iff. destruct (cb_Upper b); rewrite ?Hu; apply andb_true_r.
Qed.

Lemma scanOptions_exact xs ys id id' p after branchID b :
  (if branchID <? 0 then None else md_Branches md !! Z.to_nat branchID) = Some b ->
  posting t xs id -> posting t ys id' ->
  in_interval (posting_key xs id) (Interval (cb_Lower b) (cb_Upper b)) = true ->
  position md (posting_key xs id) = Ok p -> position md (posting_key ys id') = Ok after ->
  exists opts, scanOptions md branchID after = Ok opts /\ in_bounds opts (posting_key xs id) = bytes_ltb after p.
Proof.
  intros Eb P Q Hin Hp Hq. destruct (order_parts_after ys id' after Q Hq) as [Ea Ta].
  destruct (order_parts_after xs id p P Hp) as [Ep _].
  assert (b ∈ md_Branches md) as Hb by (destruct (branchID <? 0); [done|by eapply list_elem_of_lookup_2]).
  destruct (branch_prefix b xs id Hb P Hin) as [_ Epre].
  destruct (proj1 (Forall_forall _ _) (cp_branches _ _ _ _ Hc) b Hb) as [(_ & Hl & _) _].
  assert (bytes_ltb after p = is_Gt (bytes_compare (concat (order_parts t xs id order) ++ id_part id)
            (concat (order_parts t ys id' order) ++ id_part id'))) as ->.
  { subst p after. unfold bytes_ltb. rewrite bytes_compare_antisym. cbn [bytes_compare]. rewrite Z.compare_refl.
    by destruct (bytes_compare _ _). }
  unfold scanOptions. rewrite Eb, Ta, (cp_template _ _ _ _ Hc).
  replace (length after =? 0)%nat with false by (by rewrite Ea). cbn [mbind res_bind].
  cbv zeta. rewrite length_app. unfold order_parts at 1. rewrite length_map, Nat.eqb_refl. cbn [negb].
  assert (Tp : tupleParts (cb_Prefix b) = Ok (take fixed xs)).
  { rewrite Epre. apply (tupleParts_key (take fixed (map fieldDirection (tmpl_Fields t)))). by apply Forall2_take, posting_dirs with id. }
  rewrite Tp. cbn [mbind res_bind]. cbv zeta.
  destruct (posting_tail xs id P) as (R & BR & ER).
  assert (Ek : posting_key xs id = cb_Prefix b ++ concat (order_parts t xs id (List.filter (variable t fixed) order)) ++ R)
    by (rewrite <- ER, Epre; unfold posting_key; cbn; by rewrite app_assoc, <- concat_app, take_drop).
  pose proof (seek_order_spec xs ys id id' P Q (cb_Prefix b) (insert_parts (map tf_Field (tmpl_Fields t)) (take fixed xs) ∅)) as S.
  specialize (S ltac:(rewrite Epre; constructor; [unfold is_byte, Version; lia|];
    eapply parts_bytes, (Forall2_take _ _ _ fixed), posting_dirs; exact P)).
  specialize (S ltac:(rewrite Epre; eexists _, _; done)).
  specialize (S ltac:(intros f _; by apply fixed_values)).
  specialize (S [] [] [] order [id_part id'] (id_part id) (id_part id') R (cp_served _ _ _ _ Hc)
    ltac:(constructor) ltac:(constructor) BR).
  cbn [concat app] in S. rewrite app_nil_r in S. destruct (seek_order _ _ order _) as [s|].
  - destruct S as (q & -> & S). eexists. split; [done|]. rewrite (in_bounds_raised b) by done.
    rewrite andb_true_r. fold (max_lower (cb_Lower b) q). rewrite max_lower_spec, Ek, S.
    unfold in_interval in Hin. apply andb_true_iff in Hin as [Hlo _]. cbn in Hlo. by rewrite Ek in Hlo; rewrite Hlo.
  - rewrite (PostingKey_any ys id' after branchID b Eb Q Hq). cbn [mbind res_bind]. eexists. split; [done|].
    rewrite (in_bounds_raised b) by done. unfold in_interval in Hin. apply andb_true_iff in Hin as [Hlo _]. cbn in Hlo.
    rewrite Hlo. cbn [andb]. rewrite <- tails_compare by done. unfold bytes_ltb.
    assert (Ek' : posting_key xs id = cb_Prefix b ++ concat (drop fixed xs) ++ id_part id)
      by (rewrite Epre; unfold posting_key; cbn; by rewrite app_assoc, <- concat_app, take_drop).
    rewrite Ek', bytes_compare_app_r, bytes_compare_antisym. by destruct (bytes_compare _ _).
Qed.
End Branch.

(** ** The postings of documents *)
Section Indexed.
Context `{SS : SliceSort}.

(** A key the projection of some document puts into the index of a template. *)
Definition indexed (t : Template) (key : bytes) (id : string) : Prop :=
  exists doc generation limits proj, wf_doc doc /\ LogicalDocumentID doc = Ok id /\
    BuildDocumentProjection doc t generation limits = Ok proj /\ key ∈ proj_PostingKeys proj.

Lemma collect_members_wf limits name seen members elements out :
  Forall wf_value members -> Forall wf_value elements ->
  collect_members limits name seen members elements = Ok out -> Forall wf_value out.
Proof.
  intros Hm He; revert seen members Hm; induction He as [|e elements Hwe He IH]; intros seen members Hm H; cbn [collect_members] in H.
  { apply Ok_inj in H. by subst out. }
  apply bind_ok in H as (n & Hn & H). apply map_err_ok in Hn. pose proof (NormalizeValue_wf _ _ Hwe Hn) as Hwn.
  assert (Hstep : forall k, (if bool_decide (k ∈ seen) then collect_members limits name seen members elements
            else if Z.of_nat (length members) =? MaxPostings limits then Err ErrMembershipPostings
            else collect_members limits name ({[k]} ∪ seen) (members ++ [n]) elements) = Ok out -> Forall wf_value out).
  { intros k H'. destruct (bool_decide _); [exact (IH _ _ Hm H')|]. destruct (_ =? _); [done|].
    eapply IH; [|exact H']. apply Forall_app. split; [done|]. constructor; [done|constructor]. }
  destruct n; try (exact (IH _ _ Hm H)); apply bind_ok in H as (key & _ & H); by eapply Hstep.
Qed.

Lemma project_fields_wf doc id limits i m0 ms0 fs flds m ms :
  wf_doc doc -> Forall wf_value ms0 ->
  project_fields doc id limits i m0 ms0 fs = Ok (flds, m, ms) -> Forall wf_value ms.
Proof.
  intros Hdoc; revert i m0 ms0 flds m ms; induction fs as [|f fs IH]; intros i m0 ms0 flds m ms Hm H; cbn [project_fields] in H.
  { apply Ok_inj in H. congruence. }
  pose proof (DocumentField_wf doc id (tf_Field f) Hdoc) as Hwf.
  destruct (DocumentField doc id (tf_Field f)) as [v present]. cbn [fst] in Hwf.
  apply bind_ok in H as ([m1 ms1] & Hr & H). apply bind_ok in H as ([[flds' m'] ms'] & H & E).
  assert (ms' = ms) as -> by (apply Ok_inj in E; cbn in E; congruence).
  eapply IH; [|exact H]. cbn [fst snd].
  assert (Hsame : forall x, Ok (E := projection_error) (x, ms0) = Ok (m1, ms1) -> Forall wf_value ms1).
  { intros x E'. assert (ms0 = ms1) as <- by (apply Ok_inj in E'; congruence). exact Hm. }
  destruct (tf_Mode f); destruct present; cbn [negb] in Hr; try exact (Hsame _ Hr);
    try (apply bind_ok in Hr as (? & _ & Hr); exact (Hsame _ Hr)).
  destruct v as [| | | | | | |l| |]; try exact (Hsame _ Hr);
    try (apply bind_ok in Hr as (? & _ & Hr); exact (Hsame _ Hr)).
  destruct (_ <? _); [done|]. apply bind_ok in Hr as (ms2 & Hc & E'). assert (ms2 = ms1) as -> by (apply Ok_inj in E'; congruence).
  eapply collect_members_wf; [exact Hm|by apply wf_slice|exact Hc].
Qed.

Lemma encode_postings_inv id limits fields membership n members keys key :
  encode_postings id limits fields membership n members = Ok keys -> key ∈ keys ->
  exists member, member ∈ members /\ Encode (with_member fields membership member) id = Ok key.
Proof.
  revert fields n keys. induction members as [|x members IH]; intros fields n keys H Hk; cbn [encode_postings] in H.
  { apply Ok_inj in H. subst keys. by apply elem_of_nil in Hk. }
  fold (with_member fields membership x) in H. apply bind_ok in H as (k0 & Hk0 & H). apply map_err_ok in Hk0.
  destruct (_ <? _); [done|]. apply bind_ok in H as (keys' & H & E). apply Ok_inj in E. subst keys.
  apply elem_of_cons in Hk as [->|Hk]; [exists x; split; [left|done]|].
  destruct (IH _ _ _ H Hk) as (member & Hin & He). exists member. split; [by right|]. rewrite <- He.
  unfold with_member. destruct membership as [m|]; [|done]. by rewrite list_insert_insert_eq.
Qed.

(** What each field of an encoded row is. *)
Definition row_of (id : string) (f : tfield) (fld : field) : Prop :=
  wf_field fld /\ field_direction fld = fieldDirection f /\
  (tf_Field f = "id" -> field_value fld = VString id /\ field_missing fld = false).

Lemma doc_field_of doc id f : wf_doc doc -> row_of id f (doc_field doc id f).
Proof.
  intros Hdoc. pose proof (DocumentField_wf doc id (tf_Field f) Hdoc) as Hw. unfold row_of, wf_field, doc_field.
  destruct (DocumentField doc id (tf_Field f)) as [v present] eqn:E. cbn. split; [done|]. split; [done|].
  intros Hid. rewrite Hid in E. cbn in E. by simplify_eq.
Qed.

Lemma with_member_rows doc id t m member :
  wf_doc doc -> valid_template t -> wf_value member ->
  (memberships (tmpl_Fields t) = 0%nat -> m = None) ->
  (forall j f, tmpl_Fields t !! j = Some f -> is_membership f = true -> m = Some (0 + j)%nat) ->
  Forall2 (row_of id) (tmpl_Fields t) (with_member (map (doc_field doc id) (tmpl_Fields t)) m member).
Proof.
  intros Hdoc (_ & _ & _ & Hf & _ & _) Hw Hnone Hsome.
  assert (Hall : Forall2 (row_of id) (tmpl_Fields t) (map (doc_field doc id) (tmpl_Fields t))).
  { apply Forall2_fmap_r, Forall_Forall2_diag, Forall_forall. intros f _. by apply doc_field_of. }
  destruct (memberships_find (tmpl_Fields t)) as [H0|(j & f & Hj & Hmf)]; [by rewrite (Hnone H0)|].
  rewrite (Hsome j f Hj Hmf). cbn [with_member Nat.add].
  rewrite <- (list_insert_id (tmpl_Fields t) j f Hj) at 1. apply Forall2_insert; [done|].
  destruct (proj1 (Forall_forall _ _) Hf f ltac:(by eapply list_elem_of_lookup_2)) as [_ Hv].
  unfold is_membership in Hmf. destruct (tf_Mode f); try done. destruct Hv as [Ho Hmeta].
  split; [done|]. split; [unfold fieldDirection; by destruct Ho as [-> | ->]|].
  intros Hid. exfalso. apply Hmeta. rewrite Hid. left.
Qed.

Lemma id_field_part id d x : wf_value (VString id) -> encodeField (Field (VString id) d false) = Ok x -> x = component d (id_raw id).
Proof.
  intros Hw H. destruct (encodeField_component (Field (VString id) d false) x Hw H) as (_ & v & raw & Hd & Hr & ->).
  cbn [field_direction denote_field field_missing field_value] in *. unfold denote in Hd. cbn in Hd.
  destruct (utf8_valid_string id); [|done]. cbn in Hd. injection Hd as <-. cbn in Hr. by rewrite Hr.
Qed.

Lemma row_posting t id row ef :
  Forall2 (row_of id) (tmpl_Fields t) row -> mapM_res encodeField row = Ok ef -> posting t ef id.
Proof.
  intros H He. apply mapM_res_ok in He. split.
  - revert ef He; induction H as [|f fld fs row (Hw & Hd & _) H IH]; intros ef He; inversion He as [|? x ? ef' Hx He']; subst;
      constructor; [|by apply IH].
    destruct (encodeField_component _ _ Hw Hx) as (Hv & v & raw & _ & Hr & ->). rewrite Hd in *. split; [done|]. eauto.
  - intros i f Hi Hid. destruct (Forall2_lookup_l _ _ _ _ _ H Hi) as (fld & Hfld & Hw & Hd & Hval).
    destruct (Forall2_lookup_l _ _ _ _ _ He Hfld) as (x & Hx & Henc). rewrite Hx. f_equal.
    destruct (Hval Hid) as [Ev Em], fld as [v d mi]. cbn in *. subst v mi d. by apply id_field_part.
Qed.

Lemma indexed_posting t key id :
  indexed t key id -> NoDup (map tf_Field (tmpl_Fields t)) /\ exists xs, posting t xs id /\ key = posting_key xs id.
Proof.
  intros (doc & g & limits & proj & Hdoc & Hid & H & Hk). unfold BuildDocumentProjection in H.
  destruct (_ || _ || _ || _); [done|]. apply bind_ok in H as (u & Hv & H). apply map_err_ok in Hv.
  assert (valid_template t) as Hvalid by (apply ValidateTemplate_iff; by rewrite Hv).
  split; [apply Hvalid|]. pose proof Hvalid as (_ & _ & _ & _ & _ & Hm).
  apply bind_ok in H as (id' & Hid' & H). rewrite Hid in Hid'. apply Ok_inj in Hid'. subst id'.
  destruct (String.eqb g ""); [done|]. cbv zeta in H. destruct (doc_Deleted doc && _).
  { apply Ok_inj in H. subst proj. by apply elem_of_nil in Hk. }
  apply bind_ok in H as ([[flds m] ms] & Hp & H). apply bind_ok in H as (pos & _ & H).
  destruct (_ <? _); [done|]. apply bind_ok in H as (keys & He & H). apply Ok_inj in H. subst proj.
  cbn [proj_PostingKeys] in Hk. rewrite sort_slice_perm in Hk.
  destruct (project_fields_spec _ _ _ _ _ _ _ _ _ _ Hdoc Hm Hp) as (-> & Hnone & Hsome).
  pose proof (project_fields_wf _ _ _ _ _ _ _ _ _ _ Hdoc ltac:(constructor) Hp) as Hms.
  destruct (encode_postings_inv _ _ _ _ _ _ _ _ He Hk) as (member & Hin & Henc).
  assert (wf_value member) as Hwm.
  { destruct m; [by apply (proj1 (Forall_forall _ _) Hms)|]. by apply list_elem_of_singleton in Hin as ->. }
  apply Encode_inv in Henc as (ef & Hef & _ & ->). exists ef. split; [|done].
  eapply row_posting; [|exact Hef]. eapply with_member_rows; try done.
  - intros H0. by apply Hnone.
  - intros j f Hj Hf. by apply (Hsome j f).
Qed.

(** Normalizing the filters of a query keeps their operands well formed. *)
Lemma candidateFilters_wf fs filters : Forall wf_filter fs -> candidateFilters fs = Ok filters -> Forall wf_filter filters.
Proof.
  intros Hw H. unfold candidateFilters in H. destruct (existsb _ fs); [done|]. apply bind_ok in H as (gs & Hn & H).
  apply map_err_ok, NormalizeFilters_from_ok in Hn. destruct (existsb _ gs); [done|]. apply Ok_inj in H. subst gs.
  induction Hn as [|f g fs gs Hfg Hn IH]; [constructor|]. apply Forall_cons in Hw as [Hf Hw].
  constructor; [|by apply IH]. by eapply plan_filter_wf, normalize_plan_filter.
Qed.
End Indexed.

(** ** Plans the compiler accepts *)
Section Served.
Context `{SS : SliceSort}.
Context (t : Template) (fs filters : list filter) (orderBy : list OrderField) (md : CandidateMetadata) (score : Z).
Hypothesis Hwf : Forall wf_filter fs.
Hypothesis Hfilters : candidateFilters fs = Ok filters.
Hypothesis Hplan : compileCandidate t filters orderBy = Ok (md, score).

(** The branch of an index the plan has, as the scanner looks it up. *)
Lemma branch_found i b : md_Branches md !! i = Some b ->
  (if Z.of_nat i <? 0 then None else md_Branches md !! Z.to_nat (Z.of_nat i)) = Some b.
Proof. intros H. rewrite Nat2Z.id. by destruct (Z.ltb_spec (Z.of_nat i) 0); [lia|]. Qed.

Lemma plan_compiled : exists fixed, compiled t orderBy md fixed.
Proof. eapply compileCandidate_inv; [by eapply candidateFilters_wf|exact Hplan]. Qed.

(** Key order is query order. Two postings inside the bounds of the same
    branch of a compiled plan compare byte for byte as their order positions do,
    so a branch scanned in key order yields documents in the order the query
    asked for. *)
Theorem branch_position_order b key key' id id' p p' :
  b ∈ md_Branches md -> indexed t key id -> indexed t key' id' ->
  in_interval key (Interval (cb_Lower b) (cb_Upper b)) = true ->
  in_interval key' (Interval (cb_Lower b) (cb_Upper b)) = true ->
  position md key = Ok p -> position md key' = Ok p' ->
  bytes_compare p p' = bytes_compare key key'.
Proof.
  intros Hb [Hnd (xs & P & ->)]%indexed_posting [_ (ys & Q & ->)]%indexed_posting Hx Hy Hp Hq.
  destruct plan_compiled as [fixed Hc].
  eapply (positions_compare t orderBy md fixed); try done. by eapply (branch_same t orderBy md fixed).
Qed.

(** Positions lose nothing. The posting inside the bounds of a branch is
    recovered, byte for byte, from its order position and the branch, when the
    query orders by each field at most once. *)
Theorem PostingKey_roundtrip i b key id p :
  NoDup (map of_Field orderBy) -> md_Branches md !! i = Some b -> indexed t key id ->
  in_interval key (Interval (cb_Lower b) (cb_Upper b)) = true -> position md key = Ok p ->
  PostingKey md p (Z.of_nat i) = Ok key.
Proof.
  intros Ho Hi [Hnd (xs & P & ->)]%indexed_posting Hin Hp. destruct plan_compiled as [fixed Hc].
  rewrite (PostingKey_any t orderBy md fixed Hnd Hc Ho xs id p _ b (branch_found i b Hi) P Hp).
  destruct (branch_prefix t orderBy md fixed Hc b xs id) as [_ ->]; [by eapply list_elem_of_lookup_2|done..|].
  unfold posting_key. f_equal. cbn. by rewrite app_assoc, <- concat_app, take_drop.
Qed.

(** C7: resuming is exact. A scan of a branch can be resumed after the position
    of any posting of the index, also one read through another branch; its bounds
    hold exactly the postings of the branch whose position is greater: none is repeated and
    none is skipped. *)
Theorem scanOptions_resumes i b key key' id id' p after :
  NoDup (map of_Field orderBy) -> md_Branches md !! i = Some b -> indexed t key id -> indexed t key' id' ->
  in_interval key (Interval (cb_Lower b) (cb_Upper b)) = true ->
  position md key = Ok p -> position md key' = Ok after ->
  exists opts, scanOptions md (Z.of_nat i) after = Ok opts /\ in_bounds opts key = bytes_ltb after p.
Proof.
  intros Ho Hi [Hnd (xs & P & ->)]%indexed_posting [_ (ys & Q & ->)]%indexed_posting Hin Hp Hq.
  destruct plan_compiled as [fixed Hc].
  by eapply (scanOptions_exact t orderBy md fixed Hnd Hc Ho xs ys); [apply branch_found| ..].
Qed.
End Served.

(** Two tagged documents, read through the branch of their common tag. *)
Definition older_doc : StoredDoc :=
  {| doc_Id := "db:h2"; doc_Database := "db"; doc_Fullpath := "users/u2"; doc_Collection := "users";
     doc_CollectionHash := ""; doc_Parent := ""; doc_UpdatedAt := 2; doc_CreatedAt := 1; doc_Version := 1;
     doc_Data := {[ "tags" := VSlice [VString "b"]; "age" := VInt KInt64 40 ]}; doc_Deleted := false |}.

Lemma older_wf : wf_doc older_doc.
Proof.
  unfold wf_doc, is_i64. cbn [doc_Version doc_CreatedAt doc_UpdatedAt doc_Data older_doc].
  split_and!; try lia. intros f v Hf. apply lookup_insert_Some in Hf as [[_ <-]|[_ Hf]]; [cbn; auto|].
  apply lookup_singleton_Some in Hf as [_ <-]. cbn. lia.
Qed.

Definition postings_of (doc : StoredDoc) : list bytes :=
  match @BuildDocumentProjection insertion_slice_sort doc tagged_template "g1" DefaultProjectionLimits with
  | Ok proj => proj_PostingKeys proj
  | Err _ => []
  end.
Definition younger_key : bytes := Eval vm_compute in default [] (postings_of tagged_doc !! 1%nat).
Definition older_key : bytes := Eval vm_compute in default [] (postings_of older_doc !! 0%nat).
Definition no_metadata : CandidateMetadata :=
  {| md_Template := tagged_template; md_TemplateFingerprint := ""; md_Generation := ""; md_BranchHash := "";
     md_EffectiveOrder := []; md_Branches := []; md_Assignments := [] |}.
Definition tagged_metadata : CandidateMetadata :=
  match tagged_plan with Ok (md, _) => md | Err _ => no_metadata end.
Definition tagged_branch : CandidateBranch :=
  default {| cb_Prefix := []; cb_Lower := []; cb_Upper := None; cb_FixedFields := 0 |} (md_Branches tagged_metadata !! 0%nat).
Definition tagged_place (key : bytes) : bytes := match position tagged_metadata key with Ok p => p | Err _ => [] end.

Lemma postings_indexed doc key id :
  wf_doc doc -> LogicalDocumentID doc = Ok id -> key ∈ postings_of doc -> @indexed insertion_slice_sort tagged_template key id.
Proof.
  unfold postings_of. intros Hw Hid H. destruct BuildDocumentProjection eqn:E; [|by apply elem_of_nil in H].
  by eexists doc, _, _, _.
Qed.

Lemma younger_indexed : @indexed insertion_slice_sort tagged_template younger_key "u1".
Proof.
  apply (postings_indexed tagged_doc); [apply tagged_wf|by vm_compute|].
  apply list_elem_of_lookup_2 with 1%nat. by vm_compute.
Qed.

Lemma older_indexed : @indexed insertion_slice_sort tagged_template older_key "u2".
Proof.
  apply (postings_indexed older_doc); [apply older_wf|by vm_compute|].
  apply list_elem_of_lookup_2 with 0%nat. by vm_compute.
Qed.

Lemma tagged_query_wf : Forall wf_filter tagged_query.
Proof. repeat constructor; unfold wf_filter; cbn; lia. Qed.

Definition tagged_filters : list filter := match candidateFilters tagged_query with Ok fs => fs | Err _ => [] end.
Definition tagged_score : Z := match tagged_plan with Ok (_, score) => score | Err _ => 0 end.

Lemma tagged_filters_ok : candidateFilters tagged_query = Ok tagged_filters.
Proof. by vm_compute. Qed.

Lemma tagged_compiled :
  @compileCandidate insertion_slice_sort tagged_template tagged_filters [] = Ok (tagged_metadata, tagged_score).
Proof. by vm_compute. Qed.

Lemma branch_position_order_witness :
  bytes_compare (tagged_place older_key) (tagged_place younger_key) = bytes_compare older_key younger_key /\
  bytes_compare older_key younger_key = Lt.
Proof.
  split; [|by vm_compute].
  apply (@branch_position_order insertion_slice_sort tagged_template tagged_query tagged_filters [] tagged_metadata tagged_score
           tagged_query_wf tagged_filters_ok tagged_compiled tagged_branch _ _ "u2" "u1");
    [|exact older_indexed|exact younger_indexed|by vm_compute..].
  apply list_elem_of_lookup_2 with 0%nat. by vm_compute.
Defined.

Lemma PostingKey_roundtrip_witness : PostingKey tagged_metadata (tagged_place younger_key) 0 = Ok younger_key.
Proof.
  apply (@PostingKey_roundtrip insertion_slice_sort tagged_template tagged_query tagged_filters [] tagged_metadata tagged_score
           tagged_query_wf tagged_filters_ok tagged_compiled 0%nat tagged_branch _ "u1");
    [constructor|by vm_compute|exact younger_indexed|by vm_compute..].
Defined.

Lemma scanOptions_resumes_witness :
  exists opts, scanOptions tagged_metadata 0 (tagged_place older_key) = Ok opts /\
    in_bounds opts younger_key = bytes_ltb (tagged_place older_key) (tagged_place younger_key).
Proof.
  apply (@scanOptions_resumes insertion_slice_sort tagged_template tagged_query tagged_filters [] tagged_metadata tagged_score
           tagged_query_wf tagged_filters_ok tagged_compiled 0%nat tagged_branch _ older_key "u1" "u2");
    [constructor|by vm_compute|exact younger_indexed|exact older_indexed|by vm_compute..].
Defined.
