(* ===== verification/Planner.v ===== *)
(** * Index manager: internal/indexer/manager/manager.go

    Choice of the best template for a plan, and the search bounds the filters of
    a plan give on a template. *)
From stdpp Require Import base list sorting gmap strings.
From Stdlib Require Import ZArith.
From S2P Require Import Prelude Value OrderKey Filter IndexStore BTree MemIndex Codec Template Projection Intervals Candidates.
Local Open Scope Z_scope.

Record Plan := {
  plan_Collection : string; plan_Filters : list filter; plan_OrderBy : list OrderField; plan_Limit : Z;
  plan_StartAfter : string; plan_ShowDeleted : bool; plan_AfterPosition : bytes;
  plan_TemplateFingerprint : string; plan_Generation : string; plan_BranchHash : string; plan_MaxExamined : Z;
}.

(** ** Query-to-index matching *)
Definition has_eq (plan : Plan) (name : string) : bool :=
  existsb (fun f => on_field name f && is_op OpEq f) (plan_Filters plan).

(** The leading template fields with an equality filter. *)
Fixpoint eq_prefix (plan : Plan) (fs : list tfield) : list string :=
  match fs with
  | f :: fs => if has_eq plan (tf_Field f) then tf_Field f :: eq_prefix plan fs else []
  | [] => []
  end.

Definition is_range_op (op : FilterOp) : bool :=
  match op with OpGt | OpLt | OpGte | OpLte => true | _ => false end.

Definition range_fields (plan : Plan) (eqFields : gset string) : gset string :=
  list_to_set (map filter_field (List.filter
    (fun f => negb (bool_decide (filter_field f ∈ eqFields)) && is_range_op (filter_op f)) (plan_Filters plan))).

Definition expected_order (d : direction) : Order := match d with Asc => OrderAsc | _ => OrderDesc end.

(** Step 4: each order field is the next index field, or the range field first. *)
Fixpoint order_fits (fields : list tfield) (rangeField : option string) (rangeIdx orderStart : nat)
    (firstIsRange : bool) (i : nat) (order : list OrderField) : option nat :=
  match order with
  | [] => Some orderStart
  | o :: order =>
      if (i =? 0)%nat && firstIsRange then
        match fields !! rangeIdx with
        | Some f => if bool_decide (tf_Order f = expected_order (of_Direction o))
                    then order_fits fields rangeField rangeIdx (rangeIdx + 1) firstIsRange (S i) order
                    else None
        | None => None
        end
      else
        let templateIdx := if (0 <? i)%nat && firstIsRange then (orderStart + i - 1)%nat else (orderStart + i)%nat in
        match fields !! templateIdx with
        | None => None
        | Some f =>
            if String.eqb (tf_Field f) (of_Field o) && bool_decide (tf_Order f = expected_order (of_Direction o))
            then order_fits fields rangeField rangeIdx orderStart firstIsRange (S i) order
            else None
        end
  end.

Definition computeQueryScore (plan : Plan) (tmpl : Template) : Z :=
  let fields := tmpl_Fields tmpl in
  let eqFields : gset string := list_to_set (eq_prefix plan fields) in
  let neq := size eqFields in
  let ranges := range_fields plan eqFields in
  if (1 <? size ranges)%nat then 0
  else
    (* a range on the empty field name counts as none *)
    let rangeField := match elements ranges with
                      | r :: _ => if String.eqb r "" then None else Some r
                      | [] => None
                      end in
    let usable := match rangeField with
                  | None => Some neq
                  | Some r => match fields !! neq with
                              | Some f => if String.eqb (tf_Field f) r then Some (S neq) else None
                              | None => None
                              end
                  end in
    match usable with
    | None => 0
    | Some usablePrefixLen =>
        let firstIsRange := match rangeField, head (plan_OrderBy plan) with
                            | Some r, Some o => String.eqb (of_Field o) r
                            | _, _ => false
                            end in
        match order_fits fields rangeField neq usablePrefixLen firstIsRange 0 (plan_OrderBy plan) with
        | None => 0
        | Some orderStart =>
            let norder := length (plan_OrderBy plan) in
            1 + Z.of_nat neq * 10 + Z.of_nat norder * 5
            + (match rangeField with Some _ => 3 | None => 0 end)
            + (if (orderStart + norder =? length fields)%nat then 1 else 0)
            + (if (norder =? 0)%nat
                  && negb (existsb (fun f => bool_decide (tf_Order f = OrderDesc)) (take usablePrefixLen fields))
               then 2 else 0)
        end
    end.

Record matchCandidate := { mc_template : Template; mc_queryScore : Z; mc_patternScore : PatternScore }.

(** Whether the loop of SelectBestTemplate replaces [best] by [c]. *)
Definition better (best c : matchCandidate) : bool :=
  if Score_Less (mc_patternScore best) (mc_patternScore c) then true
  else if Score_Less (mc_patternScore c) (mc_patternScore best) then false
  else if mc_queryScore best <? mc_queryScore c then true
  else (mc_queryScore c =? mc_queryScore best) && string_ltb (tmpl_Name (mc_template c)) (tmpl_Name (mc_template best)).

Section Select.
Context `{SS : SliceSort}.

Definition compatible (plan : Plan) (m : MatchResult) : option matchCandidate :=
  if plan_ShowDeleted plan && negb (tmpl_IncludeDeleted (match_Template m)) then None
  else
    let score := computeQueryScore plan (match_Template m) in
    if 0 <? score
    then Some {| mc_template := match_Template m; mc_queryScore := score; mc_patternScore := match_Score m |}
    else None.

Definition SelectBestTemplate (templates : list Template) (plan : Plan) : res plan_error Template :=
  match omap (compatible plan) (MatchTemplates (plan_Collection plan) templates) with
  | [] => Err ErrNoMatchingIndex
  | first :: rest => Ok (mc_template (foldl (fun best c => if better best c then c else best) first rest))
  end.
End Select.

(** ** Search bounds *)
Record fieldBound := { fb_value : value; fb_key : bytes; fb_inclusive : bool }.
Record fieldInterval := { fi_lower : option fieldBound; fi_upper : option fieldBound; fi_equality : bool }.

Definition interval_empty (i : fieldInterval) : bool :=
  match fi_lower i, fi_upper i with
  | Some l, Some u =>
      match bytes_compare (fb_key l) (fb_key u) with
      | Gt => true
      | Eq => negb (fb_inclusive l) || negb (fb_inclusive u)
      | Lt => false
      end
  | _, _ => false
  end.

Definition tighterBound (current : option fieldBound) (candidate : fieldBound) (lower : bool) : fieldBound :=
  match current with
  | None => candidate
  | Some cur =>
      let c := bytes_compare (fb_key candidate) (fb_key cur) in
      let c := if lower then c else CompOpp c in
      match c with
      | Gt => candidate
      | Eq => if negb (fb_inclusive candidate) then candidate else cur
      | Lt => cur
      end
  end.

(** The sides an operator bounds, and whether it includes its operand. *)
Definition op_bounds (op : FilterOp) : option (bool * bool * bool) :=
  match op with
  | OpEq => Some (true, true, true)
  | OpGt => Some (true, false, false)
  | OpGte => Some (true, false, true)
  | OpLt => Some (false, true, false)
  | OpLte => Some (false, true, true)
  | _ => None
  end.

Fixpoint intersectFieldFilters (filters : list filter) (interval : fieldInterval) : res plan_error fieldInterval :=
  match filters with
  | [] => Ok interval
  | f :: filters =>
      match op_bounds (filter_op f) with
      | None => intersectFieldFilters filters interval
      | Some (lower, upper, inclusive) =>
          key ← map_err ErrPlanEncoding (EncodePrefix [Field (filter_value f) Asc false]);
          let bound := {| fb_value := filter_value f; fb_key := key; fb_inclusive := inclusive |} in
          intersectFieldFilters filters {|
            fi_lower := if lower : bool then Some (tighterBound (fi_lower interval) bound true) else fi_lower interval;
            fi_upper := if upper : bool then Some (tighterBound (fi_upper interval) bound false) else fi_upper interval;
            fi_equality := fi_equality interval || is_op OpEq f |}
      end
  end.

Definition no_interval : fieldInterval := {| fi_lower := None; fi_upper := None; fi_equality := false |}.

(** What the loop over the template's fields builds. *)
Record bounds := {
  bd_lower : list field; bd_upper : list field;
  bd_rangeLower : option bool;   (** the range has a lower bound, inclusive or not *)
  bd_rangeUpper : option bool;
  bd_empty : bool;
}.

Fixpoint build_bounds (filters : list filter) (fields : list tfield) : res plan_error bounds :=
  let stop := {| bd_lower := []; bd_upper := []; bd_rangeLower := None; bd_rangeUpper := None; bd_empty := false |} in
  match fields with
  | [] => Ok stop
  | tf :: fields =>
      match List.filter (on_field (tf_Field tf)) filters with
      | [] => Ok stop
      | own =>
          let dir := fieldDirection tf in
          interval ← intersectFieldFilters own no_interval;
          let empty := interval_empty interval in
          if fi_equality interval then
            let v := match fi_lower interval with Some b => fb_value b | None => VNil end in
            rest ← build_bounds filters fields;
            Ok {| bd_lower := Field v dir false :: bd_lower rest; bd_upper := Field v dir false :: bd_upper rest;
                  bd_rangeLower := bd_rangeLower rest; bd_rangeUpper := bd_rangeUpper rest;
                  bd_empty := empty || bd_empty rest |}
          else
            let '(lower, upper) := match dir with
                                   | Desc => (fi_upper interval, fi_lower interval)
                                   | _ => (fi_lower interval, fi_upper interval)
                                   end in
            match lower, upper with
            | None, None =>
                rest ← build_bounds filters fields;
                Ok {| bd_lower := bd_lower rest; bd_upper := bd_upper rest; bd_rangeLower := bd_rangeLower rest;
                      bd_rangeUpper := bd_rangeUpper rest; bd_empty := empty || bd_empty rest |}
            | _, _ =>
                Ok {| bd_lower := match lower with Some b => [Field (fb_value b) dir false] | None => [] end;
                      bd_upper := match upper with Some b => [Field (fb_value b) dir false] | None => [] end;
                      bd_rangeLower := fb_inclusive <$> lower; bd_rangeUpper := fb_inclusive <$> upper;
                      bd_empty := empty |}
            end
      end
  end.

Definition appendMaxSuffix (b : bytes) : option bytes :=
  match b with [] => None | _ => Some (b ++ repeat 0xFF 64) end.

Definition bd_Lower (b : bounds) : res plan_error bytes :=
  match bd_lower b with
  | [] => Ok []
  | fs =>
      lower ← map_err ErrPlanEncoding (EncodePrefix fs);
      Ok (match bd_rangeLower b with
          | Some false => default [] (appendMaxSuffix lower)
          | _ => lower
          end)
  end.

Definition bd_Upper (b : bounds) : res plan_error (option bytes) :=
  match bd_upper b with
  | [] => Ok None
  | fs =>
      upper ← map_err ErrPlanEncoding (EncodePrefix fs);
      Ok (match bd_rangeUpper b with
          | Some false => Some upper
          | _ => appendMaxSuffix upper
          end)
  end.

(** [base64.RawURLEncoding.DecodeString]: line breaks are skipped. *)
Definition b64url_digit (b : Z) : option Z :=
  if in_range 65 90 b then Some (b - 65)
  else if in_range 97 122 b then Some (b - 71)
  else if in_range 48 57 b then Some (b + 4)
  else if b =? 45 then Some 62
  else if b =? 95 then Some 63
  else None.

Fixpoint b64url_groups (ds : list Z) : option bytes :=
  match ds with
  | a :: b :: c :: d :: ds =>
      app [a * 4 + b / 16; (b mod 16) * 16 + c / 4; (c mod 4) * 64 + d] <$> b64url_groups ds
  | [a; b; c] => Some [a * 4 + b / 16; (b mod 16) * 16 + c / 4]
  | [a; b] => Some [a * 4 + b / 16]
  | [_] => None
  | [] => Some []
  end.

Definition DecodeBase64 (s : string) : option bytes :=
  ds ← mapM b64url_digit (List.filter (fun b => negb ((b =? 10) || (b =? 13))) (bytes_of_string s));
  b64url_groups ds.

Definition buildSearchOptions (plan : Plan) (tmpl : Template) : res plan_error (SearchOptions * bool) :=
  let limit := if plan_Limit plan <=? 0 then 100 else plan_Limit plan in
  startAfter ← if String.eqb (plan_StartAfter plan) "" then Ok None
               else match DecodeBase64 (plan_StartAfter plan) with
                    | Some k => Ok (Some k)
                    | None => Err (ErrPlanEncoding ErrInvalidOrderKey)
                    end;
  b ← build_bounds (plan_Filters plan) (tmpl_Fields tmpl);
  lower ← bd_Lower b;
  upper ← bd_Upper b;
  Ok ({| opt_Lower := lower; opt_Upper := upper; opt_StartAfter := startAfter; opt_Limit := limit |}, bd_empty b).

(** ** The bounds of a conjunction contain every match *)
Definition bounding (f : filter) : Prop := is_Some (op_bounds (filter_op f)).

(** A bound that the value with key [raw] respects. *)
Definition respects (lower : bool) (raw : bytes) (b : fieldBound) : Prop :=
  exists t rt, wf_value (fb_value b) /\ denote (fb_value b) = Some t /\ key_of t rt /\
    fb_key b = Version :: component Asc rt /\
    (bytes_compare rt raw = (if lower then Lt else Gt) \/ bytes_compare rt raw = Eq /\ fb_inclusive b = true).

Lemma prefix_key v key :
  wf_value v -> EncodePrefix [Field v Asc false] = Ok key ->
  exists t rt, denote v = Some t /\ key_of t rt /\ key = Version :: component Asc rt.
Proof.
  intros Hw H. destruct (fieldBytes_component v Asc (drop 1 key) Hw) as (t & rt & Hd & Hk & E).
  { unfold fieldBytes. by rewrite H. }
  exists t, rt. split; [done|]. split; [done|]. unfold EncodePrefix in H. apply bind_ok in H as (enc & _ & [= <-]).
  change (drop 1 (Version :: concat enc)) with (concat enc) in E. by rewrite E.
Qed.

Lemma key_compare r1 r2 : is_bytes r1 -> is_bytes r2 ->
  bytes_compare (Version :: component Asc r1) (Version :: component Asc r2) = bytes_compare r1 r2.
Proof.
  intros H1 H2. cbn [bytes_compare]. rewrite Z.compare_refl.
  rewrite <- (app_nil_r (component Asc r1)), <- (app_nil_r (component Asc r2)), component_compare by done.
  cbn. by destruct (bytes_compare r1 r2).
Qed.

(** The sides of the operand a satisfied filter puts its value on. *)
Lemma holds_side f s t raw rt lower upper inclusive :
  op_bounds (filter_op f) = Some (lower, upper, inclusive) -> denote (filter_value f) = Some t ->
  key_of s raw -> key_of t rt ->
  (exists v, denote v = Some s /\ holds (filter_op f) (filter_value f) v = true) ->
  (lower = true -> bytes_compare rt raw = Lt \/ bytes_compare rt raw = Eq /\ inclusive = true) /\
  (upper = true -> bytes_compare rt raw = Gt \/ bytes_compare rt raw = Eq /\ inclusive = true) /\
  (is_op OpEq f = true -> bytes_compare rt raw = Eq).
Proof.
  intros Hop Ht Hs Hr (v & Hv & Hh). rewrite (bytes_compare_antisym raw rt), (key_of_compare _ _ _ _ Hs Hr).
  unfold is_op. unfold holds, range_holds, denote_eqb in Hh.
  destruct (filter_op f); cbn in Hop; try done; injection Hop as <- <- <-; rewrite Hv, Ht in Hh;
    try (apply andb_true_iff in Hh as [_ Hh]); destruct (scalar_compare s t); try done;
    split_and!; cbn; intros; try done; auto.
Qed.

Definition interval_ok (raw : bytes) (i : fieldInterval) : Prop :=
  (forall b, fi_lower i = Some b -> respects true raw b) /\
  (forall b, fi_upper i = Some b -> respects false raw b) /\
  (fi_equality i = true -> exists b t, fi_lower i = Some b /\ denote (fb_value b) = Some t /\ key_of t raw).

Lemma tighter_respects (lower : bool) raw cur cand :
  (forall b, cur = Some b -> respects lower raw b) -> respects lower raw cand ->
  respects lower raw (tighterBound cur cand lower).
Proof.
  intros Hcur Hc. unfold tighterBound. destruct cur as [b|]; [|done]. specialize (Hcur b eq_refl).
  destruct (if lower then _ else _); [destruct (negb _)|..]; done.
Qed.

(** The tightest lower bound under an equality is the value itself. *)
Lemma tighter_exact raw cur cand :
  is_bytes raw -> (forall b, cur = Some b -> respects true raw b) -> respects true raw cand ->
  ((exists t, denote (fb_value cand) = Some t /\ key_of t raw) \/
   (exists b t, cur = Some b /\ denote (fb_value b) = Some t /\ key_of t raw)) ->
  exists t, denote (fb_value (tighterBound cur cand true)) = Some t /\ key_of t raw.
Proof.
  intros Hraw Hcur Hcand Hex. unfold tighterBound. destruct cur as [b|].
  2: { destruct Hex as [H|(b & t & [=] & _)]. exact H. }
  specialize (Hcur b eq_refl). destruct Hcur as (tb & rb & _ & Hdb & Hkb & -> & Hcb).
  destruct Hcand as (tc & rc & _ & Hdc & Hkc & -> & Hcc).
  rewrite key_compare by (by eapply key_of_bytes). destruct (bytes_compare rc rb) eqn:C.
  - apply bytes_compare_eq in C as ->.
    assert (bytes_compare rb raw = Eq) as E%bytes_compare_eq.
    { destruct Hex as [(t & Ht & Hk)|(b' & t & [= <-] & Ht & Hk)].
      - rewrite Hdc in Ht. injection Ht as <-. by rewrite (key_of_unique_key _ _ _ Hkc Hk), bytes_compare_refl.
      - rewrite Hdb in Ht. injection Ht as <-. by rewrite (key_of_unique_key _ _ _ Hkb Hk), bytes_compare_refl. }
    subst rb. destruct (negb _); eauto.
  - exists tb. split; [done|]. destruct Hex as [(t & Ht & Hk)|(b' & t & [= <-] & Ht & Hk)].
    + exfalso. rewrite Hdc in Ht. injection Ht as <-. rewrite (key_of_unique_key _ _ _ Hkc Hk) in C.
      rewrite (bytes_compare_antisym raw rb) in Hcb. rewrite C in Hcb. naive_solver.
    + rewrite Hdb in Ht. by injection Ht as <-.
  - exists tc. split; [done|]. destruct Hex as [(t & Ht & Hk)|(b' & t & [= <-] & Ht & Hk)].
    + rewrite Hdc in Ht. by injection Ht as <-.
    + exfalso. rewrite Hdb in Ht. injection Ht as <-. rewrite (key_of_unique_key _ _ _ Hkb Hk) in C.
      rewrite C in Hcc. naive_solver.
Qed.

Definition field_filter_ok (s : scalar) (f : filter) : Prop :=
  bounding f /\ wf_filter f /\ exists v, denote v = Some s /\ holds (filter_op f) (filter_value f) v = true.

Lemma intersect_ok s raw filters i out :
  key_of s raw -> Forall (field_filter_ok s) filters -> interval_ok raw i ->
  intersectFieldFilters filters i = Ok out ->
  interval_ok raw out /\
  (filters <> [] \/ is_Some (fi_lower i) \/ is_Some (fi_upper i) ->
   is_Some (fi_lower out) \/ is_Some (fi_upper out)).
Proof.
  intros Hs Hf; revert i; induction Hf as [|f filters (Hb & Hw & Hh) Hf IH]; intros i Hi H; cbn [intersectFieldFilters] in H.
  { injection H as <-. split; [done|]. by intros [|]. }
  destruct Hb as [[[lower upper] inclusive] Hop]. rewrite Hop in H. apply bind_ok in H as (key & Hkey & H).
  apply map_err_ok in Hkey. destruct (prefix_key _ _ Hw Hkey) as (t & rt & Ht & Hk & ->).
  destruct (holds_side f s t raw rt lower upper inclusive Hop Ht Hs Hk Hh) as (Hlo & Hup & Heq).
  destruct Hi as (Il & Iu & Ie). match type of H with intersectFieldFilters _ ?j = _ => set (i' := j) in H end.
  set (cand := {| fb_value := filter_value f; fb_key := Version :: component Asc rt; fb_inclusive := inclusive |}) in *.
  assert (lower = true -> respects true raw cand) as Cl by (intros; exists t, rt; split_and!; auto).
  assert (upper = true -> respects false raw cand) as Cu by (intros; exists t, rt; split_and!; auto).
  assert (is_bytes raw) as Hraw by (by eapply key_of_bytes).
  assert (interval_ok raw i') as Hi'.
  { subst i'. split_and!; cbn.
    - intros b Hb. destruct lower; [|auto]. injection Hb as <-. apply tighter_respects; auto.
    - intros b Hb. destruct upper; [|auto]. injection Hb as <-. apply tighter_respects; auto.
    - intros Hq. destruct lower eqn:El.
      + destruct (tighter_exact raw (fi_lower i) cand Hraw Il (Cl eq_refl)) as (t' & Ht' & Hk').
        * apply orb_true_iff in Hq as [Hq|Hq]; [right; by apply Ie|left]. exists t. split; [done|].
          specialize (Heq Hq). apply bytes_compare_eq in Heq as ->. done.
        * eexists _, t'. split; [reflexivity|done].
      + apply orb_true_iff in Hq as [Hq|Hq]; [by apply Ie|]. unfold is_op in Hq. apply bool_decide_eq_true in Hq.
        rewrite Hq in Hop. by injection Hop. }
  destruct (IH i' Hi' H) as [H1 H2]. split; [done|]. intros _. apply H2. right. subst i'; cbn.
  destruct (filter_op f); cbn in Hop; try done; injection Hop as <- <- <-; eauto.
Qed.

Lemma interval_ok_nonempty raw i : is_bytes raw -> interval_ok raw i -> interval_empty i = false.
Proof.
  intros Hraw (Il & Iu & _). unfold interval_empty. destruct (fi_lower i) as [l|]; [|done].
  destruct (fi_upper i) as [u|]; [|done].
  destruct (Il l eq_refl) as (tl & rl & _ & _ & Hkl & -> & Hl), (Iu u eq_refl) as (tu & ru & _ & _ & Hku & -> & Hu).
  rewrite key_compare by (by eapply key_of_bytes).
  destruct Hl as [Hl|[->%bytes_compare_eq ->]], Hu as [Hu|[->%bytes_compare_eq ->]].
  - apply bytes_compare_lt_gt in Hu. by rewrite (bytes_compare_trans _ _ _ Hl Hu).
  - by rewrite Hl.
  - apply bytes_compare_lt_gt in Hu. by rewrite Hu.
  - by rewrite bytes_compare_refl.
Qed.

(** ** Bounds on encoded rows *)

(** What follows a prefix of a key: it starts below 0xff. *)
Definition below_ff (k : bytes) : Prop := hd 0xff k < 0xff.

Lemma below_ff_max k : below_ff k -> bytes_compare k (repeat 0xff 64) = Lt.
Proof.
  unfold below_ff. destruct k as [|b k]; cbn [hd]; [lia|]. intros H.
  change (repeat 255 64) with (255 :: repeat 255 63). cbn [bytes_compare].
  destruct (Z.compare_spec b 255); lia || done.
Qed.

Lemma component_below_ff d v raw rest : valid_direction d -> raw_of v raw -> below_ff (component d raw ++ rest).
Proof.
  intros Hd Hr. destruct (raw_of_head _ _ Hr) as (t & r & -> & Ht). unfold below_ff.
  destruct Hd as [-> | ->]; cbn [component]; rewrite escape_cons; (destruct (Z.eqb_spec t 0); [lia|]); cbn;
    unfold bnot; lia.
Qed.

(** The lower and the upper half of what the bounds promise of a key's tail. *)
Definition lower_holds (range : option bool) (encoded : bytes) (k : bytes) : Prop :=
  match range with
  | Some false => bytes_compare (encoded ++ repeat 0xff 64) k = Lt
  | _ => bytes_compare encoded k <> Gt
  end.
Definition upper_holds (range : option bool) (encoded : bytes) (k : bytes) : Prop :=
  match range with
  | Some false => bytes_compare k encoded = Lt
  | _ => bytes_compare k (encoded ++ repeat 0xff 64) = Lt
  end.

Lemma lower_holds_app range c enc k : lower_holds range enc k -> lower_holds range (c ++ enc) (c ++ k).
Proof. unfold lower_holds. destruct range as [[]|]; rewrite <- ?app_assoc, bytes_compare_app_r; done. Qed.
Lemma upper_holds_app range c enc k : upper_holds range enc k -> upper_holds range (c ++ enc) (c ++ k).
Proof. unfold upper_holds. destruct range as [[]|]; rewrite <- ?app_assoc, bytes_compare_app_r; done. Qed.

(** A range bound on a component, read in the field's direction. *)
Lemma range_lower_holds dir raw rest b part :
  valid_direction dir -> is_bytes raw -> respects (negb (is_desc dir)) raw b ->
  encodeField (Field (fb_value b) dir false) = Ok part ->
  lower_holds (Some (fb_inclusive b)) part (component dir raw ++ rest).
Proof.
  intros Hd Hraw (t & rt & Hw & Ht & Hk & _ & Hc) He.
  destruct (encodeField_component _ _ (Hw : wf_field (Field (fb_value b) dir false)) He) as (_ & v & r & Hv & Hr & ->).
  unfold denote_field in Hv; cbn in Hv. rewrite Ht in Hv. injection Hv as <-. cbn in Hr.
  rewrite (key_of_unique_key _ _ _ Hr Hk) in *. cbn [field_direction].
  assert (is_bytes rt) as Hb by (by eapply key_of_bytes). unfold lower_holds.
  destruct (fb_inclusive b) eqn:Ei.
  - rewrite <- (app_nil_r (component dir rt)), component_compare by done.
    destruct Hd as [-> | ->]; cbn in *; destruct Hc as [->|[-> _]]; cbn; try done; by destruct rest.
  - rewrite component_compare by done. destruct Hd as [-> | ->]; cbn in *; by destruct Hc as [->|[_ ?]].
Qed.

Lemma range_upper_holds dir raw rest b part :
  valid_direction dir -> is_bytes raw -> below_ff rest -> respects (is_desc dir) raw b ->
  encodeField (Field (fb_value b) dir false) = Ok part ->
  upper_holds (Some (fb_inclusive b)) part (component dir raw ++ rest).
Proof.
  intros Hd Hraw Hff (t & rt & Hw & Ht & Hk & _ & Hc) He.
  destruct (encodeField_component _ _ (Hw : wf_field (Field (fb_value b) dir false)) He) as (_ & v & r & Hv & Hr & ->).
  unfold denote_field in Hv; cbn in Hv. rewrite Ht in Hv. injection Hv as <-. cbn in Hr.
  rewrite (key_of_unique_key _ _ _ Hr Hk) in *. cbn [field_direction].
  assert (is_bytes rt) as Hb by (by eapply key_of_bytes). unfold upper_holds.
  destruct (fb_inclusive b) eqn:Ei.
  - rewrite component_compare, (bytes_compare_antisym rt raw) by done.
    destruct Hd as [-> | ->]; cbn in *; destruct Hc as [->|[-> _]]; cbn; try done; by apply below_ff_max.
  - rewrite <- (app_nil_r (component dir rt)), component_compare, (bytes_compare_antisym rt raw) by done.
    destruct Hd as [-> | ->]; cbn in *; by destruct Hc as [->|[_ ?]].
Qed.

Definition range_bounds (dir : direction) (lower upper : option fieldBound) : bounds :=
  {| bd_lower := match lower with Some b => [Field (fb_value b) dir false] | None => [] end;
     bd_upper := match upper with Some b => [Field (fb_value b) dir false] | None => [] end;
     bd_rangeLower := fb_inclusive <$> lower; bd_rangeUpper := fb_inclusive <$> upper; bd_empty := false |}.

Lemma range_bounds_ok dir s raw rest lower upper :
  valid_direction dir -> key_of s raw -> below_ff rest ->
  (forall b, lower = Some b -> respects (negb (is_desc dir)) raw b) ->
  (forall b, upper = Some b -> respects (is_desc dir) raw b) ->
  let b := range_bounds dir lower upper in
  (forall el, mapM_res encodeField (bd_lower b) = Ok el -> lower_holds (bd_rangeLower b) (concat el) (component dir raw ++ rest)) /\
  (forall eu, mapM_res encodeField (bd_upper b) = Ok eu -> upper_holds (bd_rangeUpper b) (concat eu) (component dir raw ++ rest)).
Proof.
  intros Hdir Hk Hff Pl Pu. cbv zeta. assert (is_bytes raw) as Hraw by (by eapply key_of_bytes).
  cbn [range_bounds bd_lower bd_upper bd_rangeLower bd_rangeUpper]. split; intros e He.
  - destruct lower as [bl|]; cbn [mapM_res] in He.
    + apply bind_ok in He as (part & Hp & [= <-]). cbn [concat fmap option_fmap option_map]. rewrite app_nil_r.
      apply range_lower_holds; auto.
    + injection He as <-. apply bytes_nil_le.
  - destruct upper as [bu|]; cbn [mapM_res] in He.
    + apply bind_ok in He as (part & Hp & [= <-]). cbn [concat fmap option_fmap option_map]. rewrite app_nil_r.
      apply range_upper_holds; auto.
    + injection He as <-. apply below_ff_max. by apply (component_below_ff _ (FScalar s)).
Qed.

Section Rows.
Context (acc : string -> value * bool) (filters : list filter).
Hypothesis (Hfilters : Forall (fun f => bounding f /\ wf_filter f /\ filter_holds f acc = true) filters).

Definition acc_field (tf : tfield) : field :=
  let '(v, present) := acc (tf_Field tf) in Field v (fieldDirection tf) (negb present).

Definition row_component (tf : tfield) (comp : bytes) : Prop :=
  exists v raw, raw_of v raw /\ comp = component (fieldDirection tf) raw /\ denote_field (acc_field tf) = Some v.

Lemma row_below_ff fields comps tail :
  Forall2 row_component fields comps -> below_ff tail -> below_ff (concat comps ++ tail).
Proof.
  intros H Ht. destruct H as [|tf comp fields comps (v & raw & Hr & -> & _) H]; [done|]. cbn [concat].
  rewrite <- app_assoc. eapply component_below_ff; [apply fieldDirection_valid|exact Hr].
Qed.

(** The filters on one field constrain the scalar the field has. *)
Lemma own_filters tf v raw :
  raw_of v raw -> denote_field (acc_field tf) = Some v ->
  List.filter (on_field (tf_Field tf)) filters <> [] ->
  exists s, v = FScalar s /\ key_of s raw /\
    Forall (field_filter_ok s) (List.filter (on_field (tf_Field tf)) filters).
Proof.
  intros Hr Hd Hne. unfold acc_field in Hd. destruct (acc (tf_Field tf)) as [w present] eqn:Ea.
  assert (forall f, f ∈ List.filter (on_field (tf_Field tf)) filters ->
    bounding f /\ wf_filter f /\ present = true /\ holds (filter_op f) (filter_value f) w = true) as Hall.
  { intros f Hf%list_elem_of_In. apply filter_In in Hf as [Hf Hon]. apply list_elem_of_In in Hf.
    destruct (proj1 (Forall_forall _ _) Hfilters f Hf) as (Hb & Hw & Hh). unfold filter_holds, on_field in *.
    apply String.eqb_eq in Hon. rewrite Hon, Ea in Hh. by apply andb_true_iff in Hh as [-> ->]. }
  assert (present = true) as ->.
  { destruct (List.filter _ filters) as [|f fs]; [done|]. by apply (Hall f); left. }
  unfold denote_field in Hd. cbn in Hd. destruct (denote w) as [s|] eqn:Ew; [|done]. injection Hd as <-.
  exists s. split; [done|]. split; [done|]. apply Forall_forall. intros f Hf. destruct (Hall f Hf) as (? & ? & _ & ?).
  split; [done|]. split; [done|]. by exists w.
Qed.

Lemma build_bounds_ok fields comps tail b :
  Forall2 row_component fields comps -> below_ff tail -> build_bounds filters fields = Ok b ->
  bd_empty b = false /\
  (forall el, mapM_res encodeField (bd_lower b) = Ok el -> lower_holds (bd_rangeLower b) (concat el) (concat comps ++ tail)) /\
  (forall eu, mapM_res encodeField (bd_upper b) = Ok eu -> upper_holds (bd_rangeUpper b) (concat eu) (concat comps ++ tail)).
Proof.
  intros H Ht. revert b. induction H as [|tf comp fields comps Hrow H IH]; intros b Hb; cbn [build_bounds] in Hb.
  { injection Hb as <-. split; [done|]. split; intros ? [= <-]; [apply bytes_nil_le|by apply below_ff_max]. }
  assert (below_ff (concat (comp :: comps) ++ tail)) as Hff by (by apply (row_below_ff (tf :: fields)); [constructor|]).
  destruct (List.filter (on_field (tf_Field tf)) filters) as [|f0 own] eqn:Eown.
  { injection Hb as <-. split; [done|]. split; intros ? [= <-]; [|by apply below_ff_max].
    apply bytes_nil_le. }
  destruct Hrow as (v & raw & Hr & -> & Hd).
  destruct (own_filters tf v raw Hr Hd) as (s & -> & Hk & Hown); [by rewrite Eown|]. rewrite Eown in Hown.
  assert (is_bytes raw) as Hraw by (by eapply key_of_bytes).
  apply bind_ok in Hb as (iv & Hiv & Hb). cbv zeta in Hb.
  assert (interval_ok raw no_interval) as H0 by (split_and!; cbn; done).
  destruct (intersect_ok s raw _ _ _ Hk Hown H0 Hiv) as [Hok Hsome].
  rewrite (interval_ok_nonempty raw iv Hraw Hok) in Hb. cbn [orb] in Hb.
  pose proof (fieldDirection_valid tf) as Hdir. pose proof (row_below_ff _ _ _ H Ht) as Hff'.
  cbn [concat]. rewrite <- app_assoc. destruct Hok as (Il & Iu & Ie).
  destruct (fi_equality iv) eqn:Eeq.
  - destruct (Ie eq_refl) as (bl & t & El & Htl & Hkl). rewrite El in Hb.
    apply bind_ok in Hb as (rest & Hrest & [= <-]). destruct (IH rest Hrest) as (E1 & E2 & E3).
    assert (forall part, encodeField (Field (fb_value bl) (fieldDirection tf) false) = Ok part ->
      part = component (fieldDirection tf) raw) as Hpart.
    { intros part Hp. destruct (Il bl El) as (_ & _ & Hw & _).
      destruct (encodeField_component _ _ (Hw : wf_field (Field (fb_value bl) (fieldDirection tf) false)) Hp)
        as (_ & v' & r & Hv & Hr' & ->).
      unfold denote_field in Hv; cbn in Hv. rewrite Htl in Hv. injection Hv as <-. cbn in Hr'.
      by rewrite (key_of_unique_key _ _ _ Hr' Hkl). }
    split; [done|]. cbn [bd_lower bd_upper bd_rangeLower bd_rangeUpper mapM_res].
    split; intros e He; apply bind_ok in He as (part & Hp & He); apply bind_ok in He as (es & Hes & [= <-]);
      cbn [concat]; rewrite (Hpart part Hp).
    + apply lower_holds_app. by apply E2.
    + apply upper_holds_app. by apply E3.
  - set (pair := match fieldDirection tf with Desc => (fi_upper iv, fi_lower iv) | _ => (fi_lower iv, fi_upper iv) end) in Hb.
    assert ((forall b, pair.1 = Some b -> respects (negb (is_desc (fieldDirection tf))) raw b) /\
            (forall b, pair.2 = Some b -> respects (is_desc (fieldDirection tf)) raw b) /\
            (is_Some pair.1 \/ is_Some pair.2)) as (Pl & Pu & Psome).
    { assert (is_Some (fi_lower iv) \/ is_Some (fi_upper iv)) as Hs by (apply Hsome; by left).
      subst pair. destruct Hdir as [-> | ->]; cbn; tauto. }
    destruct pair as [lower upper]. cbn [fst snd] in *.
    assert (b = range_bounds (fieldDirection tf) lower upper) as ->.
    { destruct lower, upper; try (apply Ok_inj in Hb; by subst b). by destruct Psome as [[? [=]]|[? [=]]]. }
    split; [done|]. by apply (range_bounds_ok _ s).
Qed.
End Rows.

(** Legacy search bounds lose no match. For a plan whose filters are
    equalities and ranges that all hold of a document, the bounds built on any
    template contain the document's index key (the conjunction is not reported
    empty), whatever the directions of the template's fields and however the
    filters on one field overlap. *)
Theorem buildSearchOptions_complete acc plan tmpl docID key opts empty :
  Forall (fun f => bounding f /\ wf_filter f /\ filter_holds f acc = true) (plan_Filters plan) ->
  Forall (fun tf => wf_value (acc (tf_Field tf)).1) (tmpl_Fields tmpl) ->
  Encode (map (acc_field acc) (tmpl_Fields tmpl)) docID = Ok key ->
  plan_StartAfter plan = "" ->
  buildSearchOptions plan tmpl = Ok (opts, empty) ->
  empty = false /\ in_bounds opts key = true.
Proof.
  intros Hf Hw Hk Hsa H. apply Encode_inv in Hk as (ef & Hef & _ & ->).
  set (tail := component Asc (TypeString :: bytes_of_string docID)).
  assert (below_ff tail) as Ht
    by (rewrite <- (app_nil_r tail); apply (component_below_ff _ (FScalar (SStr docID))); [by left|done]).
  assert (Forall2 (row_component acc) (tmpl_Fields tmpl) ef) as Hrow.
  { apply mapM_res_ok in Hef. revert ef Hef. induction Hw as [|tf fields Hwf Hw IH]; intros ef Hef;
      inversion Hef as [|? comp ? ef' Hc He']; subst; constructor; [|by apply IH].
    assert (wf_field (acc_field acc tf)) as Hwa by (unfold acc_field; destruct (acc (tf_Field tf)); done).
    destruct (encodeField_component _ _ Hwa Hc) as (_ & v & raw & Hden & Hraw & ->). exists v, raw.
    split; [done|]. split; [|done]. unfold acc_field. by destruct (acc (tf_Field tf)). }
  unfold buildSearchOptions in H. rewrite Hsa in H. cbn [String.eqb mbind res_bind] in H.
  apply bind_ok in H as (b & Hb & H). apply bind_ok in H as (lower & Hlo & H). apply bind_ok in H as (upper & Hup & [= <- <-]).
  destruct (build_bounds_ok acc (plan_Filters plan) Hf _ _ tail b Hrow Ht Hb) as (Hempty & HL & HU).
  split; [done|]. unfold in_bounds; cbn [opt_Lower opt_Upper opt_StartAfter]. rewrite andb_true_r. apply andb_true_iff. split.
  - apply bytes_leb_le. unfold bd_Lower in Hlo. destruct (bd_lower b) as [|f fs] eqn:Eb;
      [injection Hlo as <-; apply bytes_nil_le|].
    apply bind_ok in Hlo as (l & Hl & Hlo). apply map_err_ok in Hl. unfold EncodePrefix in Hl.
    apply bind_ok in Hl as (el & Hel & [= <-]). specialize (HL el Hel). apply Ok_inj in Hlo as <-. unfold lower_holds in HL.
    destruct (bd_rangeLower b) as [[]|]; cbn [appendMaxSuffix default]; unfold id; cbn [bytes_compare app];
      rewrite Z.compare_refl; try done. by rewrite HL.
  - unfold bd_Upper in Hup. destruct (bd_upper b) as [|f fs] eqn:Eb; [by injection Hup as <-|].
    apply bind_ok in Hup as (u & Hu & Hup). apply map_err_ok in Hu. unfold EncodePrefix in Hu.
    apply bind_ok in Hu as (eu & Heu & [= <-]). specialize (HU eu Heu). apply Ok_inj in Hup as <-. unfold upper_holds in HU.
    destruct (bd_rangeUpper b) as [[]|]; cbn [appendMaxSuffix]; apply bytes_ltb_lt; cbn [bytes_compare app];
      rewrite Z.compare_refl; done.
Qed.

Definition range_plan (fs : list filter) : Plan :=
  {| plan_Collection := "users"; plan_Filters := fs; plan_OrderBy := []; plan_Limit := 0; plan_StartAfter := "";
     plan_ShowDeleted := false; plan_AfterPosition := []; plan_TemplateFingerprint := ""; plan_Generation := "";
     plan_BranchHash := ""; plan_MaxExamined := 0 |}.
Definition two_fields : Template :=
  {| tmpl_Name := "ab"; tmpl_CollectionPattern := "users";
     tmpl_Fields := [TField "a" OrderAsc ModeUnset; TField "b" OrderDesc ModeUnset]; tmpl_IncludeDeleted := false |}.
Definition ab_fields (name : string) : value * bool :=
  if String.eqb name "a" then (VInt KInt64 5, true) else if String.eqb name "b" then (VInt KInt64 2, true) else (VNil, false).
Definition ab_query : list filter :=
  [Filter "a" OpEq (VInt KInt64 5); Filter "b" OpGt (VInt KInt64 1); Filter "b" OpLte (VInt KInt64 2)].

Lemma buildSearchOptions_complete_witness :
  exists key opts, Encode (map (acc_field ab_fields) (tmpl_Fields two_fields)) "u1" = Ok key /\
    buildSearchOptions (range_plan ab_query) two_fields = Ok (opts, false) /\ in_bounds opts key = true.
Proof.
  eexists _, _. split; [vm_compute; reflexivity|]. split; [vm_compute; reflexivity|].
  eapply (proj2 (buildSearchOptions_complete ab_fields (range_plan ab_query) two_fields "u1" _ _ false
    ltac:(idtac) ltac:(idtac) ltac:(vm_compute; reflexivity) eq_refl ltac:(vm_compute; reflexivity))).
  Unshelve.
  - repeat constructor; try (eexists; reflexivity); unfold wf_filter; cbn; lia.
  - repeat constructor; cbn; lia.
Defined.

(** a filter that bounds nothing misplaces the bounds of later fields. With
    [a != 1] and [b = 2] on an index over (a, b), the loop skips field a without
    encoding it and writes b's value in a's place: a document with a = 5, b = 2
    satisfies both filters, yet its key is outside the bounds. *)
Theorem buildSearchOptions_skips_unbounded :
  exists opts key,
    buildSearchOptions (range_plan [Filter "a" OpNe (VInt KInt64 1); Filter "b" OpEq (VInt KInt64 2)]) two_fields
      = Ok (opts, false) /\
    Encode (map (acc_field ab_fields) (tmpl_Fields two_fields)) "u1" = Ok key /\
    forallb (fun f => filter_holds f ab_fields)
      [Filter "a" OpNe (VInt KInt64 1); Filter "b" OpEq (VInt KInt64 2)] = true /\
    0 < computeQueryScore (range_plan [Filter "a" OpNe (VInt KInt64 1); Filter "b" OpEq (VInt KInt64 2)]) two_fields /\
    in_bounds opts key = false.
Proof.
  eexists _, _. split; [vm_compute; reflexivity|]. split; [vm_compute; reflexivity|].
  split; [vm_compute; reflexivity|]. split; vm_compute; reflexivity.
Qed.

(** ** The best template *)
Lemma better_iff x y :
  better x y = true <->
  Score_Less (mc_patternScore x) (mc_patternScore y) = true \/
  mc_patternScore x = mc_patternScore y /\
  (mc_queryScore x < mc_queryScore y \/
   mc_queryScore x = mc_queryScore y /\
   bytes_compare (bytes_of_string (tmpl_Name (mc_template y))) (bytes_of_string (tmpl_Name (mc_template x))) = Lt).
Proof.
  unfold better, string_ltb. destruct (Score_Less (mc_patternScore x) (mc_patternScore y)) eqn:E1; [tauto|].
  destruct (Score_Less (mc_patternScore y) (mc_patternScore x)) eqn:E2.
  - split; [done|]. intros [|[E _]]; [done|]. rewrite E in *. congruence.
  - assert (mc_patternScore x = mc_patternScore y) as Eq.
    { apply not_true_iff_false in E1, E2. rewrite Score_Less_lt in E1, E2.
      destruct (mc_patternScore x), (mc_patternScore y); cbn in *. f_equal; lia. }
    destruct (Z.ltb_spec (mc_queryScore x) (mc_queryScore y)); [tauto|].
    rewrite andb_true_iff, Z.eqb_eq, bytes_ltb_lt. split; [|intros [|[_ [|]]]; [done|lia|]]; intuition lia.
Qed.

Lemma better_irrefl x : better x x = false.
Proof. apply not_true_iff_false. rewrite better_iff, Score_Less_lt, bytes_compare_refl. intuition (lia || done). Qed.

Lemma better_trans x y z : better x y = true -> better y z = true -> better x z = true.
Proof.
  rewrite !better_iff, !Score_Less_lt.
  destruct (mc_patternScore x), (mc_patternScore y), (mc_patternScore z); cbn.
  intros [?|([= <- <-] & Hxy)] [?|([= <- <-] & Hyz)]; try (left; lia). right. split; [done|].
  destruct Hxy as [?|[? Hxy]], Hyz as [?|[? Hyz]]; try (left; lia). right. split; [lia|].
  by eapply bytes_compare_trans.
Qed.

Lemma fold_best first rest :
  let r := foldl (fun best c => if better best c then c else best) first rest in
  r ∈ first :: rest /\ forall c, c ∈ first :: rest -> better r c = false.
Proof.
  cbv zeta. enough (forall (seen : list matchCandidate) first,
    (forall c, c ∈ seen -> better first c = false) ->
    let r := foldl (fun best c => if better best c then c else best) first rest in
    (r = first \/ r ∈ rest) /\ forall c, c ∈ seen \/ c ∈ rest -> better r c = false) as H.
  { destruct (H [first] first) as [H1 H2].
    - intros c ->%list_elem_of_singleton. apply better_irrefl.
    - split; [rewrite elem_of_cons; tauto|]. intros c [->|Hc]%elem_of_cons; apply H2; [left; by left|by right]. }
  clear first. induction rest as [|x rest IH]; intros seen first Hseen; cbn.
  { split; [by left|]. intros c [Hc|Hc]; [auto|by apply elem_of_nil in Hc]. }
  destruct (better first x) eqn:E.
  - destruct (IH (x :: seen) x) as [H1 H2].
    { intros c [->|Hc]%elem_of_cons; [apply better_irrefl|]. apply not_true_iff_false. intros Hx.
      specialize (Hseen c Hc). rewrite (better_trans _ _ _ E Hx) in Hseen. done. }
    split; [rewrite elem_of_cons; tauto|]. intros c [Hc|[->|Hc]%elem_of_cons]; apply H2; set_solver.
  - destruct (IH (x :: seen) first) as [H1 H2].
    { intros c [->|Hc]%elem_of_cons; auto. }
    split; [rewrite elem_of_cons; tauto|]. intros c [Hc|[->|Hc]%elem_of_cons]; apply H2; set_solver.
Qed.

(** SelectBestTemplate returns a template that matches the collection, serves
    the plan and includes deleted documents when the plan shows them, and no
    serving template beats it on pattern specificity, then query score, then
    name; it fails exactly when no matching template serves the plan. *)
Theorem SelectBestTemplate_best `{SliceSort} templates plan :
  let serving c := exists t m, t ∈ templates /\ match_template (split slash (plan_Collection plan)) t = Some m /\
                               compatible plan m = Some c in
  match SelectBestTemplate templates plan with
  | Ok t => exists r, serving r /\ t = mc_template r /\ forall c, serving c -> better r c = false
  | Err e => e = ErrNoMatchingIndex /\ forall c, ~ serving c
  end.
Proof.
  cbv zeta. unfold SelectBestTemplate.
  assert (forall c, c ∈ omap (compatible plan) (MatchTemplates (plan_Collection plan) templates) <->
    exists t m, t ∈ templates /\ match_template (split slash (plan_Collection plan)) t = Some m /\
                compatible plan m = Some c) as He.
  { intros c. rewrite list_elem_of_omap. setoid_rewrite MatchTemplates_elem. naive_solver. }
  destruct (omap _ _) as [|first rest].
  - split; [done|]. intros c Hc. by apply He, elem_of_nil in Hc.
  - destruct (fold_best first rest) as [H1 H2]. eexists. split; [by apply He|]. split; [done|].
    intros c Hc. by apply H2, He.
Qed.
