(* ===== verification/Stream.v ===== *)
(** * Candidate streams: internal/indexer/manager/candidates.go

    The branches of a plan, each read in key order, are merged into one stream of
    documents in the order of the query; a document that several branches reach
    is returned once, with the branches that reached it. *)
From stdpp Require Import base list sorting gmap strings.
From Stdlib Require Import ZArith.
From S2P Require Import Prelude IndexStore Intervals Candidates.
Local Open Scope Z_scope.

Inductive stream_error :=
| StreamStore (e : store_error)
| StreamPlan (e : plan_error)
| StreamIdentity        (** "inconsistent index document identity" *)
| StreamIndexRange      (** an index out of range panics *)
| StreamOutOfFuel.

Definition group_less (a b : CandidateGroup) : bool := bytes_ltb (cg_Position a) (cg_Position b).

Section Stream.
Context `{IV : IndexViews} `{GH : GoHeap} `{SS : SliceSort}.

Record candidateStream := {
  cs_metadata : CandidateMetadata;
  cs_view : option view;
  cs_iterators : list iterator;
  cs_heads : list (option CandidateGroup);
  cs_queue : list CandidateGroup;
  cs_started : bool;
  cs_closed : bool;
  cs_maxExamined : Z;
}.

Definition set_read (s : candidateStream) (v : view) (branch : nat) (it : iterator) : candidateStream :=
  {| cs_metadata := cs_metadata s; cs_view := Some v; cs_iterators := <[branch := it]> (cs_iterators s);
     cs_heads := cs_heads s; cs_queue := cs_queue s; cs_started := cs_started s; cs_closed := cs_closed s;
     cs_maxExamined := cs_maxExamined s |}.
Definition set_head (s : candidateStream) (branch : nat) (h : option CandidateGroup) : candidateStream :=
  {| cs_metadata := cs_metadata s; cs_view := cs_view s; cs_iterators := cs_iterators s;
     cs_heads := <[branch := h]> (cs_heads s); cs_queue := cs_queue s; cs_started := cs_started s;
     cs_closed := cs_closed s; cs_maxExamined := cs_maxExamined s |}.
Definition set_queue (s : candidateStream) (queue : list CandidateGroup) : candidateStream :=
  {| cs_metadata := cs_metadata s; cs_view := cs_view s; cs_iterators := cs_iterators s;
     cs_heads := cs_heads s; cs_queue := queue; cs_started := cs_started s;
     cs_closed := cs_closed s; cs_maxExamined := cs_maxExamined s |}.
Definition set_started (s : candidateStream) : candidateStream :=
  {| cs_metadata := cs_metadata s; cs_view := cs_view s; cs_iterators := cs_iterators s;
     cs_heads := cs_heads s; cs_queue := cs_queue s; cs_started := true;
     cs_closed := cs_closed s; cs_maxExamined := cs_maxExamined s |}.

Definition sum (l : list Z) : Z := foldr Z.add 0 l.
Definition cs_Examined (s : candidateStream) : Z := sum (map v_Examined (cs_iterators s)).

(** During one call of Next the context is asked once per call it makes; [ctx k]
    is what it answers in the [k]th of them. *)
Definition advance (ctx : nat -> Context) (k : nat) (s : candidateStream) (branch : nat)
    : candidateStream * option stream_error :=
  if ctx k 0%nat then (s, Some (StreamStore ErrContext))
  else match cs_view s, cs_iterators s !! branch with
  | Some v, Some it =>
      let '(v, it, r) := v_Next (ctx (S k)) v it in
      let s := set_read s v branch it in
      match r with
      | Err e => (s, Some (StreamStore e))
      | Ok ref =>
          if cs_maxExamined s <? cs_Examined s then (s, Some (StreamStore ErrWorkLimit))
          else
            let s := set_head s branch None in
            match ref with
            | None => (s, None)
            | Some ref =>
                match position (cs_metadata s) (docref_OrderKey ref) with
                | Err e => (s, Some (StreamPlan e))
                | Ok p => (set_head s branch (Some {| cg_ID := docref_ID ref; cg_Position := p;
                                                      cg_Branches := [Z.of_nat branch] |}), None)
                end
            end
      end
  | _, _ => (s, Some StreamIndexRange)
  end.

(** Advance a branch and queue the head it now has. *)
Definition fetch (ctx : nat -> Context) (k : nat) (s : candidateStream) (branch : nat)
    : candidateStream * option stream_error :=
  let '(s, err) := advance ctx k s branch in
  match err with
  | Some e => (s, Some e)
  | None =>
      match cs_heads s !! branch with
      | Some (Some h) => (set_queue s (heap_push group_less (cs_queue s) h), None)
      | _ => (s, None)
      end
  end.

Fixpoint fetch_all (ctx : nat -> Context) (k : nat) (s : candidateStream) (branches : list nat)
    : candidateStream * option stream_error :=
  match branches with
  | [] => (s, None)
  | i :: branches =>
      let '(s, err) := fetch ctx k s i in
      match err with
      | Some e => (s, Some e)
      | None => fetch_all ctx (k + 2) s branches
      end
  end.

(** Gather the branches whose head has the group's position. *)
Fixpoint gather (ctx : nat -> Context) (k : nat) (fuel : nat) (s : candidateStream) (group : CandidateGroup)
    : candidateStream * res stream_error CandidateGroup :=
  match fuel with
  | O => (s, Err StreamOutOfFuel)
  | S fuel =>
      match cs_queue s with
      | [] => (s, Ok group)
      | head :: _ =>
          if negb (bytes_eqb (cg_Position head) (cg_Position group)) then (s, Ok group)
          else
            let s := set_queue s (heap_pop group_less (cs_queue s)) in
            if negb (String.eqb (cg_ID head) (cg_ID group)) then (s, Err StreamIdentity)
            else match cg_Branches head with
            | [] => (s, Err StreamIndexRange)
            | branch :: _ =>
                let group := {| cg_ID := cg_ID group; cg_Position := cg_Position group;
                                cg_Branches := cg_Branches group ++ [branch] |} in
                let '(s, err) := fetch ctx k s (Z.to_nat branch) in
                match err with
                | Some e => (s, Err e)
                | None => gather ctx (k + 2) fuel s group
                end
            end
      end
  end.

Definition cs_Next (ctx : nat -> Context) (fuel : nat) (s : candidateStream)
    : candidateStream * res stream_error (option CandidateGroup) :=
  if ctx 0%nat 0%nat then (s, Err (StreamStore ErrContext))
  else if cs_closed s then (s, Ok None)
  else
    let '(s, err) := if cs_started s then (s, None)
                     else fetch_all ctx 1 (set_started s) (seq 0 (length (cs_iterators s))) in
    match err with
    | Some e => (s, Err e)
    | None =>
        match cs_queue s with
        | [] => (s, Ok None)
        | top :: _ =>
            let group := {| cg_ID := cg_ID top; cg_Position := cg_Position top; cg_Branches := [] |} in
            let '(s, r) := gather ctx (1 + 2 * length (cs_iterators s)) fuel s group in
            (s, match r with
                | Err e => Err e
                | Ok group => Ok (Some {| cg_ID := cg_ID group; cg_Position := cg_Position group;
                                          cg_Branches := sort_slice Z.ltb (cg_Branches group) |})
                end)
        end
    end.

(** Close once: every iterator, then the view; the errors are joined. *)
Definition cs_Close (s : candidateStream) : candidateStream * list store_error :=
  if cs_closed s then (s, [])
  else
    let closed := map v_CloseIterator (cs_iterators s) in
    let view := v_Close <$> cs_view s in
    ({| cs_metadata := cs_metadata s; cs_view := fst <$> view; cs_iterators := map fst closed;
        cs_heads := cs_heads s; cs_queue := cs_queue s; cs_started := cs_started s; cs_closed := true;
        cs_maxExamined := cs_maxExamined s |},
     omap snd closed ++ match view with Some (_, Some e) => [e] | _ => [] end).

(** A client that reads the stream to its end. *)
Inductive stream_end := StreamDone | StreamFailed (e : stream_error) | StreamUnread.

Fixpoint cs_drain (calls fuel : nat) (s : candidateStream) : list CandidateGroup * stream_end :=
  match calls with
  | O => ([], StreamUnread)
  | S calls =>
      match cs_Next (fun _ => Background) fuel s with
      | (s, Ok (Some g)) => let '(gs, e) := cs_drain calls fuel s in (g :: gs, e)
      | (_, Ok None) => ([], StreamDone)
      | (_, Err e) => ([], StreamFailed e)
      end
  end.
End Stream.

(** ** Facts on sums and heads *)
Lemma sum_app l k : sum (l ++ k) = sum l + sum k.
Proof. induction l as [|x l IH]; cbn; [done|]. unfold sum in *. lia. Qed.

Lemma sum_insert l i x y : l !! i = Some x -> sum (<[i := y]> l) = sum l - x + y.
Proof.
  revert i; induction l as [|z l IH]; intros [|i] H; try done.
  - apply (inj Some) in H as ->. change (y + sum l = x + sum l - x + y). lia.
  - change (z + sum (<[i := y]> l) = z + sum l - x + y). rewrite (IH i) by done. lia.
Qed.

Lemma sum_map_insert {A} (f : A -> Z) l i x y :
  l !! i = Some x -> sum (map f (<[i := y]> l)) = sum (map f l) - f x + f y.
Proof.
  intros H. transitivity (sum (<[i := f y]> (map f l))); [f_equal; apply list_fmap_insert|].
  apply sum_insert. rewrite list_lookup_fmap. by rewrite H.
Qed.

Lemma sum_nonneg l : Forall (fun x => 0 <= x) l -> 0 <= sum l.
Proof. induction 1; cbn; [done|]. unfold sum in *. lia. Qed.

Lemma sum_lookup_le l i x : Forall (fun x => 0 <= x) l -> l !! i = Some x -> x <= sum l.
Proof.
  intros F Hi. pose proof (sum_insert l i x 0 Hi). pose proof (sum_nonneg (<[i := 0]> l)) as Hn.
  specialize (Hn ltac:(by apply Forall_insert)). lia.
Qed.

Lemma heads_insert {A} (hs : list (option A)) i h :
  (i < length hs)%nat -> omap id (<[i := h]> hs) ≡ₚ option_list h ++ omap id (<[i := None]> hs).
Proof.
  revert i; induction hs as [|x hs IH]; intros [|i] Hi; cbn in Hi; try lia; cbn.
  - by destruct h.
  - destruct x; cbn; rewrite IH by lia; [|done]. apply Permutation_middle.
Qed.

Lemma heads_elem {A} (hs : list (option A)) g : g ∈ omap id hs <-> exists i, hs !! i = Some (Some g).
Proof.
  rewrite list_elem_of_omap. split.
  - intros (h & [i Hi]%list_elem_of_lookup & E). cbn in E. subst h. eauto.
  - intros [i Hi]. exists (Some g). split; [by eapply list_elem_of_lookup_2|done].
Qed.

(** ** The state of a started stream *)
Definition entry := (string * bytes)%type.
Definition entry_of (g : CandidateGroup) : entry := (cg_ID g, cg_Position g).
Definition head_of (branch : nat) (e : entry) : CandidateGroup :=
  {| cg_ID := e.1; cg_Position := e.2; cg_Branches := [Z.of_nat branch] |}.
Definition entry_lt (a b : entry) : Prop := bytes_ltb a.2 b.2 = true.
Definition located (md : CandidateMetadata) (d : DocRef) (e : entry) : Prop :=
  docref_ID d = e.1 /\ position md (docref_OrderKey d) = Ok e.2.

(** What each branch has yet to contribute: its queued head, then what it reads. *)
Definition remaining (h : option CandidateGroup) (l : list entry) : list entry := option_list (entry_of <$> h) ++ l.
Definition content (hs : list (option CandidateGroup)) (ls : list (list entry)) : list (list entry) :=
  zip_with remaining hs ls.

Section StreamFacts.
Context `{IV : IndexViews} `{GH : GoHeap} `{SS : SliceSort}.

(** [todo] are the branches whose head is not read yet; [over] is by how much the
    branches exceed the budget, the same all along. *)
Record streaming (s : candidateStream) (v : view) (hs : list (option CandidateGroup)) (ls : list (list entry))
    (todo : list nat) (over : Z) : Prop := {
  sm_view : cs_view s = Some v;
  sm_started : cs_started s = true;
  sm_open : cs_closed s = false;
  sm_heads : length (cs_heads s) = length hs;
  sm_iterators : length (cs_iterators s) = length hs;
  sm_lists : length ls = length hs;
  sm_branch i it l : cs_iterators s !! i = Some it -> ls !! i = Some l ->
    v_open v it /\ Forall2 (located (cs_metadata s)) (v_pending v it) l;
  sm_head i g : hs !! i = Some (Some g) -> cg_Branches g = [Z.of_nat i];
  sm_sorted i l : content hs ls !! i = Some l -> StronglySorted entry_lt l;
  sm_queue : cs_queue s ≡ₚ omap id hs;
  sm_heap : heap_ok group_less (cs_queue s);
  sm_left : 0 <= v_left v;
  sm_budget : cs_Examined s + v_left v = cs_maxExamined s;
  sm_over : sum (map (v_cost v) (cs_iterators s)) - v_left v = over;
  sm_done i it : hs !! i = Some None -> i ∉ todo -> cs_iterators s !! i = Some it ->
    ls !! i = Some [] /\ v_cost v it = 0;
}.

Lemma group_less_strict_weak : strict_weak group_less.
Proof. apply (bytes_ltb_strict_weak cg_Position). Qed.

Lemma Forall2_head_tail {A B} (P : A -> B -> Prop) l k :
  Forall2 P l k -> match l with [] => k = [] | x :: l => exists y k', k = y :: k' /\ P x y /\ Forall2 P l k' end.
Proof. destruct 1; eauto. Qed.

Lemma content_lookup hs ls i h l : hs !! i = Some h -> ls !! i = Some l -> content hs ls !! i = Some (remaining h l).
Proof. intros H1 H2. unfold content. rewrite lookup_zip_with, H1, H2. done. Qed.

Lemma content_insert hs ls i h l :
  content (<[i := h]> hs) (<[i := l]> ls) = <[i := remaining h l]> (content hs ls).
Proof. unfold content. by rewrite insert_zip_with. Qed.

Lemma costs_nonneg v (its : list iterator) : Forall (fun x => 0 <= x) (map (v_cost v) its).
Proof. apply Forall_map, Forall_forall. intros. apply v_cost_nonneg. Qed.

(** The costs of the iterators once one of them has read. *)
Lemma costs_after v v' its i it it' :
  its !! i = Some it -> (forall j other, its !! j = Some other -> v_cost v' other = v_cost v other) ->
  sum (map (v_cost v') (<[i := it']> its)) = sum (map (v_cost v) its) - v_cost v it + v_cost v' it'.
Proof.
  intros Hi Hs. assert (E : map (v_cost v') its = map (v_cost v) its).
  { apply list_eq. intros j. rewrite !list_lookup_fmap. destruct (its !! j) as [o|] eqn:Ho; [|done]. cbn. by rewrite (Hs j). }
  rewrite (sum_map_insert (v_cost v') its i it it' Hi), E, (Hs i it Hi). done.
Qed.

(** A branch read with success: its head is the first of what it had, and the
    rest of the state follows. *)
Lemma streaming_read s v hs ls todo over i l it v' it' n heads queue :
  streaming s v hs ls (i :: todo) over -> i ∉ todo -> hs !! i = Some None -> ls !! i = Some l ->
  cs_iterators s !! i = Some it ->
  (forall other, v_open v other ->
     v_open v' other /\ v_pending v' other = v_pending v other /\ v_cost v' other = v_cost v other) ->
  0 <= v_left v' -> v_left v' = v_left v - n -> v_Examined it' = v_Examined it + n -> v_cost v' it' = v_cost v it - n ->
  v_open v' it' -> Forall2 (located (cs_metadata s)) (v_pending v' it') (tail l) -> (l = [] -> v_cost v' it' = 0) ->
  length heads = length hs -> queue ≡ₚ omap id (<[i := head_of i <$> head l]> hs) -> heap_ok group_less queue ->
  streaming {| cs_metadata := cs_metadata s; cs_view := Some v'; cs_iterators := <[i := it']> (cs_iterators s);
               cs_heads := heads; cs_queue := queue; cs_started := cs_started s; cs_closed := cs_closed s;
               cs_maxExamined := cs_maxExamined s |} v'
    (<[i := head_of i <$> head l]> hs) (<[i := tail l]> ls) todo over.
Proof.
  intros [C1 C0 C2 C3 C4 C5 C6 C7 C8 C9 C10 C11 C12 C13 C14] Hi Hh Hl Hit Hother Hl0 Hleft Hex Hc Ho' Hpend Hzero Hhd Hq Hok.
  apply lookup_lt_Some in Hh as Hlt.
  split; cbn [cs_view cs_started cs_closed cs_heads cs_iterators cs_queue cs_metadata cs_maxExamined]; rewrite ?length_insert; try done.
  - intros j jt lj Hj Hlj. destruct (decide (j = i)) as [->|Hne].
    + rewrite list_lookup_insert_eq in Hj by lia; rewrite list_lookup_insert_eq in Hlj by lia. by simplify_eq.
    + rewrite list_lookup_insert_ne in Hj by done; rewrite list_lookup_insert_ne in Hlj by done. destruct (C6 j jt lj Hj Hlj) as [Oj Pj].
      by destruct (Hother jt Oj) as (? & -> & _).
  - intros j g Hj. destruct (decide (j = i)) as [->|Hne].
    + rewrite list_lookup_insert_eq in Hj by done. apply (inj Some) in Hj. by apply fmap_Some in Hj as (e & _ & ->).
    + rewrite list_lookup_insert_ne in Hj by done. by apply C7.
  - intros j lj Hj. apply (C8 j lj). rewrite content_insert in Hj.
    replace (remaining (head_of i <$> head l) (tail l)) with (remaining None l) in Hj by (by destruct l as [|[]]).
    by rewrite list_insert_id in Hj by (by apply content_lookup).
  - unfold cs_Examined in *. cbn [cs_iterators]. rewrite (sum_map_insert v_Examined _ i it it' Hit). lia.
  - rewrite (costs_after v v' _ i it it' Hit); [lia|].
    intros j o Hj. destruct (lookup_lt_is_Some_2 ls j) as [lj Hlj]; [rewrite C5, <- C4; by eapply lookup_lt_Some|].
    destruct (C6 j o lj Hj Hlj) as [Oj _]. by destruct (Hother o Oj) as (_ & _ & ->).
  - intros j jt Hj Hnt Hjt. destruct (decide (j = i)) as [->|Hne].
    + rewrite list_lookup_insert_eq in Hj by lia; rewrite list_lookup_insert_eq in Hjt by lia. simplify_eq. rewrite list_lookup_insert_eq by lia.
      destruct l; [|done]. split; [done|by apply Hzero].
    + rewrite list_lookup_insert_ne in Hj by done; rewrite list_lookup_insert_ne in Hjt by done. rewrite list_lookup_insert_ne by done.
      destruct (C14 j jt Hj) as [Hnil Hz]; [set_solver|done|]. split; [done|].
      destruct (C6 j jt [] Hjt Hnil) as [Oj _]. by destruct (Hother jt Oj) as (_ & _ & ->).
Qed.

(** One read of an unread branch with a live context. *)
Lemma fetch_spec k s v hs ls todo over i l :
  streaming s v hs ls (i :: todo) over -> i ∉ todo -> hs !! i = Some None -> ls !! i = Some l ->
  (exists s' v', fetch (fun _ => Background) k s i = (s', None) /\ cs_metadata s' = cs_metadata s /\
     streaming s' v' (<[i := head_of i <$> head l]> hs) (<[i := tail l]> ls) todo over) \/
  (exists s', fetch (fun _ => Background) k s i = (s', Some (StreamStore ErrWorkLimit)) /\ 0 < over).
Proof.
  intros C Hi Hh Hl. apply lookup_lt_Some in Hh as Hlt.
  destruct (lookup_lt_is_Some_2 (cs_iterators s) i) as [it Hit]; [by rewrite (sm_iterators _ _ _ _ _ _ C)|].
  destruct (sm_branch _ _ _ _ _ _ C i it l Hit Hl) as [Ho Hp].
  destruct (v_Next_law v it Ho (sm_left _ _ _ _ _ _ C)) as (v' & it' & r & En & Hother & Hr).
  assert (Hcost : v_cost v it <= sum (map (v_cost v) (cs_iterators s))).
  { apply (sum_lookup_le _ i); [apply costs_nonneg|]. by rewrite list_lookup_fmap, Hit. }
  unfold fetch, advance. cbn [Background]. rewrite (sm_view _ _ _ _ _ _ C), Hit, En.
  destruct Hr as [[-> Hlim]|(n & Hl0 & Hleft & Hex & Hc & Ho' & Hr)].
  { right. eexists. split; [done|]. rewrite <- (sm_over _ _ _ _ _ _ C). lia. }
  left. assert (Eex : (cs_maxExamined s <? cs_Examined (set_read s v' i it')) = false).
  { apply Z.ltb_ge. rewrite <- (sm_budget _ _ _ _ _ _ C). unfold cs_Examined. cbn [cs_iterators set_read].
    rewrite (sum_map_insert v_Examined _ i it it' Hit). lia. }
  pose proof (sm_queue _ _ _ _ _ _ C) as Hq. pose proof (sm_heap _ _ _ _ _ _ C) as Hok.
  apply Forall2_head_tail in Hp. destruct (v_pending v it) as [|d ds] eqn:Ed.
  - destruct Hr as (-> & Hpend & Hz). subst l. cbn [cs_maxExamined set_read] in *. rewrite Eex. cbn [cs_heads set_head].
    rewrite list_lookup_insert_eq by (cbn; pose proof (sm_heads _ _ _ _ _ _ C); lia).
    eexists _, v'. do 2 (split; [done|]). eapply (streaming_read s v hs ls todo over i [] it v' it' n); try done.
    + rewrite Hpend. constructor.
    + cbn. rewrite length_insert. apply (sm_heads _ _ _ _ _ _ C).
    + cbn. by rewrite list_insert_id.
  - destruct Hp as (e & l' & -> & [Hid Hpos] & Hp). destruct Hr as [-> Hpend]. cbn [cs_maxExamined set_read] in *.
    rewrite Eex. cbn [cs_metadata set_head set_read cs_heads]. rewrite Hpos. cbn [set_head cs_heads].
    rewrite list_lookup_insert_eq by (cbn; rewrite length_insert; pose proof (sm_heads _ _ _ _ _ _ C); lia).
    rewrite Hid. eexists _, v'. do 2 (split; [done|]).
    eapply (streaming_read s v hs ls todo over i (e :: l') it v' it' n); try done.
    + by rewrite Hpend.
    + cbn. rewrite !length_insert. apply (sm_heads _ _ _ _ _ _ C).
    + cbn. rewrite heap_push_perm, Hq, (heads_insert hs i (Some _)) by done. cbn. by rewrite (list_insert_id hs i None).
    + apply heap_ok_push; [apply group_less_strict_weak|done].
Qed.

Lemma content_fetch hs ls i l :
  hs !! i = Some None -> ls !! i = Some l -> content (<[i := head_of i <$> head l]> hs) (<[i := tail l]> ls) = content hs ls.
Proof.
  intros Hh Hl. rewrite content_insert. apply list_insert_id. rewrite (content_lookup _ _ _ _ _ Hh Hl).
  by destruct l as [|[]].
Qed.

Lemma fetch_all_spec k s v hs ls todo over :
  streaming s v hs ls todo over -> NoDup todo -> Forall (fun i => hs !! i = Some None) todo ->
  (exists s' v' hs' ls', fetch_all (fun _ => Background) k s todo = (s', None) /\ cs_metadata s' = cs_metadata s /\
     streaming s' v' hs' ls' [] over /\ content hs' ls' = content hs ls) \/
  (exists s', fetch_all (fun _ => Background) k s todo = (s', Some (StreamStore ErrWorkLimit)) /\ 0 < over).
Proof.
  revert k s v hs ls; induction todo as [|i todo IH]; intros k s v hs ls C Hn Hf; cbn [fetch_all].
  { left. eauto 10. }
  apply NoDup_cons in Hn as [Hi Hn]. apply Forall_cons in Hf as [Hh Hf].
  destruct (lookup_lt_is_Some_2 ls i) as [l Hl]; [rewrite (sm_lists _ _ _ _ _ _ C); by eapply lookup_lt_Some|].
  destruct (fetch_spec k s v hs ls todo over i l C Hi Hh Hl) as [(s1 & v1 & -> & Hm & C1)|(s1 & -> & Ho)]; [|by right; eauto].
  destruct (IH (k + 2)%nat s1 v1 _ _ C1 Hn) as [(s' & v' & hs' & ls' & -> & Hm' & C' & E)|(s' & -> & Ho)]; [| |by right; eauto].
  - apply Forall_forall. intros j Hj. rewrite Forall_forall in Hf. rewrite list_lookup_insert_ne; [by apply Hf|].
    by intros ->.
  - left. exists s', v', hs', ls'. split; [done|]. split; [congruence|]. split; [done|]. by rewrite E, content_fetch.
Qed.

(** The first of the queue is the head of some branch. *)
Lemma streaming_pop s v hs ls over top queue :
  streaming s v hs ls [] over -> cs_queue s = top :: queue ->
  exists i l, hs !! i = Some (Some top) /\ ls !! i = Some l /\ cg_Branches top = [Z.of_nat i] /\
    content hs ls !! i = Some (entry_of top :: l) /\ content (<[i := None]> hs) ls = <[i := l]> (content hs ls) /\
    streaming (set_queue s (heap_pop group_less (cs_queue s))) v (<[i := None]> hs) ls [i] over.
Proof.
  intros C Hq. assert (exists i, hs !! i = Some (Some top)) as [i Hi].
  { apply heads_elem. rewrite <- (sm_queue _ _ _ _ _ _ C), Hq. left. }
  apply lookup_lt_Some in Hi as Hlt.
  destruct (lookup_lt_is_Some_2 ls i) as [l Hl]; [by rewrite (sm_lists _ _ _ _ _ _ C)|].
  pose proof (content_lookup hs ls i _ l Hi Hl) as Hcl. cbn in Hcl.
  assert (Ec : content (<[i := None]> hs) ls = <[i := l]> (content hs ls))
    by (rewrite <- (list_insert_id ls i l Hl) at 1; by rewrite content_insert).
  exists i, l. split_and!; try done; [by apply (sm_head _ _ _ _ _ _ C)|].
  destruct C as [C1 C0 C2 C3 C4 C5 C6 C7 C8 C9 C10 C11 C12 C13 C14]. rewrite Hq in *.
  split; cbn [set_queue cs_view cs_started cs_closed cs_heads cs_iterators cs_queue cs_metadata cs_maxExamined];
    rewrite ?length_insert; try done.
  - intros j g Hj. destruct (decide (j = i)) as [->|Hne]; [by rewrite list_lookup_insert_eq in Hj|].
    rewrite list_lookup_insert_ne in Hj by done. by apply C7.
  - intros j lj Hj. rewrite Ec in Hj. destruct (decide (j = i)) as [->|Hne].
    + rewrite list_lookup_insert_eq in Hj by (by eapply lookup_lt_Some). simplify_eq.
      by apply C8, StronglySorted_inv in Hcl as [? _].
    + rewrite list_lookup_insert_ne in Hj by done. by eapply C8.
  - rewrite heap_pop_perm. apply (Permutation_cons_inv (a := top)). rewrite C9.
    rewrite <- (list_insert_id hs i (Some top)) at 1 by done. by rewrite heads_insert.
  - apply heap_ok_pop; [apply group_less_strict_weak|done].
  - intros j jt Hj Hnt Hjt. rewrite list_lookup_insert_ne in Hj by set_solver. apply C14; set_solver.
Qed.

(** No branch has anything before the first of the queue. *)
Lemma streaming_least s v hs ls over top queue e :
  streaming s v hs ls [] over -> cs_queue s = top :: queue -> e ∈ concat (content hs ls) ->
  bytes_ltb e.2 (cg_Position top) = false.
Proof.
  intros C Hq (es & [i Hi]%list_elem_of_In%list_elem_of_lookup & He%list_elem_of_In)%list_elem_of_In%in_concat.
  pose proof (sm_sorted _ _ _ _ _ _ C i es Hi) as Hs. unfold content in Hi. rewrite lookup_zip_with in Hi.
  destruct (hs !! i) as [h|] eqn:Hh; [|done]. destruct (ls !! i) as [l|] eqn:Hl; [|done]. cbn in Hi. simplify_eq.
  destruct h as [g|]; cbn in *.
  - assert (Hg : group_less g top = false).
    { apply (heap_top_least group_less group_less_strict_weak top queue); [rewrite <- Hq; apply (sm_heap _ _ _ _ _ _ C)|].
      rewrite <- Hq, (sm_queue _ _ _ _ _ _ C). apply heads_elem. eauto. }
    apply elem_of_cons in He as [->|He]; [done|]. apply StronglySorted_inv in Hs as [_ Hs].
    rewrite Forall_forall in Hs. specialize (Hs e He). unfold entry_lt in Hs. cbn in Hs.
    unfold group_less, bytes_ltb in *. destruct (bytes_compare e.2 (cg_Position top)) eqn:E1; try done.
    destruct (bytes_compare (cg_Position g) e.2) eqn:E2; try done. by rewrite (bytes_compare_trans _ _ _ E2 E1) in Hg.
  - destruct (lookup_lt_is_Some_2 (cs_iterators s) i) as [it Hit];
      [rewrite (sm_iterators _ _ _ _ _ _ C); by eapply lookup_lt_Some|].
    destruct (sm_done _ _ _ _ _ _ C i it Hh ltac:(set_solver) Hit) as [Hn _]. simplify_eq. by apply elem_of_nil in He.
Qed.

Lemma streaming_empty s v hs ls over :
  streaming s v hs ls [] over -> cs_queue s = [] -> concat (content hs ls) = [] /\ over <= 0.
Proof.
  intros C Hq. assert (Hn : forall i h, hs !! i = Some h -> h = None).
  { intros i [g|] Hh; [|done]. exfalso. apply (not_elem_of_nil g). rewrite <- Hq, (sm_queue _ _ _ _ _ _ C).
    apply heads_elem. eauto. }
  assert (Hd : forall i it, cs_iterators s !! i = Some it -> ls !! i = Some [] /\ v_cost v it = 0).
  { intros i it Hit. destruct (lookup_lt_is_Some_2 hs i) as [h Hh];
      [rewrite <- (sm_iterators _ _ _ _ _ _ C); by eapply lookup_lt_Some|].
    apply (sm_done _ _ _ _ _ _ C); [by rewrite Hh, (Hn i h Hh)|set_solver|done]. }
  split.
  - apply elem_of_nil_inv. intros e He. apply list_elem_of_In, in_concat in He as (es & Hes & He).
    apply list_elem_of_In, list_elem_of_lookup in Hes as [i Hi]. unfold content in Hi. rewrite lookup_zip_with in Hi.
    destruct (hs !! i) as [h|] eqn:Hh; [|done]. destruct (ls !! i) as [l|] eqn:Hl; [|done]. cbn in Hi.
    destruct (lookup_lt_is_Some_2 (cs_iterators s) i) as [it Hit];
      [rewrite (sm_iterators _ _ _ _ _ _ C); by eapply lookup_lt_Some|].
    destruct (Hd i it Hit) as [? _]. rewrite (Hn i h Hh) in Hi. by simplify_eq.
  - rewrite <- (sm_over _ _ _ _ _ _ C). pose proof (sm_left _ _ _ _ _ _ C).
    assert (sum (map (v_cost v) (cs_iterators s)) = 0); [|lia].
    assert (Forall (fun it => v_cost v it = 0) (cs_iterators s)) as F
      by (apply Forall_lookup; intros i it Hit; by destruct (Hd i it Hit)).
    clear -F. induction F; cbn; [done|]. unfold sum in *. lia.
Qed.

(** ** Groups *)
Definition without (p : bytes) (es : list entry) : list entry := List.filter (fun e => negb (bytes_eqb e.2 p)) es.

Lemma without_elem p es e : e ∈ without p es <-> e ∈ es /\ e.2 <> p.
Proof.
  unfold without. by rewrite !list_elem_of_In, filter_In, negb_true_iff, <- not_true_iff_false, bytes_eqb_eq.
Qed.

Lemma without_none p (ess : list (list entry)) :
  (forall e, e ∈ concat ess -> e.2 <> p) -> map (without p) ess = ess.
Proof.
  induction ess as [|es ess IH]; intros H; [done|]. cbn. rewrite IH; [f_equal|].
  - apply forallb_filter_id, forallb_forall. intros e He%list_elem_of_In. apply negb_true_iff, not_true_iff_false.
    rewrite bytes_eqb_eq. apply H. cbn. set_solver.
  - intros e He. apply H. cbn. set_solver.
Qed.

(** Whether a branch holds an entry with the position. *)
Definition holds_position (ess : list (list entry)) (p : bytes) (j : Z) : Prop :=
  exists i es e, j = Z.of_nat i /\ ess !! i = Some es /\ e ∈ es /\ e.2 = p.

Lemma concat_elem {A} (ess : list (list A)) i es e : ess !! i = Some es -> e ∈ es -> e ∈ concat ess.
Proof. intros Hi He. apply list_elem_of_In, in_concat. exists es. split; apply list_elem_of_In; [by eapply list_elem_of_lookup_2|done]. Qed.

Lemma concat_tail {A} (ess : list (list A)) i e l :
  ess !! i = Some (e :: l) -> length (concat ess) = S (length (concat (<[i := l]> ess))) /\
  forall x, x ∈ concat (<[i := l]> ess) -> x ∈ concat ess.
Proof.
  revert i; induction ess as [|es ess IH]; intros [|i] Hi; try done.
  - apply (inj Some) in Hi as ->. change (<[0%nat := l]> ((e :: l) :: ess)) with (l :: ess). cbn. split; [done|]. set_solver.
  - destruct (IH i Hi) as [E Hs]. change (<[S i := l]> (es :: ess)) with (es :: <[i := l]> ess). cbn.
    rewrite !length_app, E. split; [lia|]. set_solver.
Qed.

Lemma holds_tail (ess : list (list entry)) i (e : entry) (l : list entry) p j :
  ess !! i = Some (e :: l) -> e.2 = p -> StronglySorted entry_lt (e :: l) ->
  holds_position ess p j <-> j = Z.of_nat i \/ holds_position (<[i := l]> ess) p j.
Proof.
  intros Hi Hp Hs. apply StronglySorted_inv in Hs as [_ Hs]. rewrite Forall_forall in Hs.
  apply lookup_lt_Some in Hi as Hlt. split.
  - intros (a & es & x & -> & Ha & Hx & Hxp). destruct (decide (a = i)) as [->|Hne]; [by left|]. right.
    exists a, es, x. by rewrite list_lookup_insert_ne by done.
  - intros [->|(a & es & x & -> & Ha & Hx & Hxp)]; [exists i, (e :: l), e; set_solver|].
    destruct (decide (a = i)) as [->|Hne].
    + exists i, (e :: l), e. set_solver.
    + rewrite list_lookup_insert_ne in Ha by done. by exists a, es, x.
Qed.

Lemma tail_not_holds (ess : list (list entry)) i (e : entry) (l : list entry) p :
  ess !! i = Some (e :: l) -> e.2 = p -> StronglySorted entry_lt (e :: l) -> ~ holds_position (<[i := l]> ess) p (Z.of_nat i).
Proof.
  intros Hi Hp Hs (a & es & x & E & Ha & Hx & Hxp). apply Nat2Z.inj in E as <-.
  rewrite list_lookup_insert_eq in Ha by (by eapply lookup_lt_Some). simplify_eq.
  apply StronglySorted_inv in Hs as [_ Hs]. rewrite Forall_forall in Hs. specialize (Hs x Hx).
  unfold entry_lt, bytes_ltb in Hs. by rewrite Hxp, bytes_compare_refl in Hs.
Qed.

Lemma map_without_tail (ess : list (list entry)) i (e : entry) (l : list entry) p :
  ess !! i = Some (e :: l) -> e.2 = p -> map (without p) (<[i := l]> ess) = map (without p) ess.
Proof.
  intros Hi Hp. transitivity (<[i := without p l]> (map (without p) ess)); [apply list_fmap_insert|].
  apply list_insert_id. etransitivity; [apply list_lookup_fmap|]. rewrite Hi. cbn. f_equal.
  by rewrite (proj2 (bytes_eqb_eq e.2 p) Hp).
Qed.

(** The outcome of gathering the entries at a position. *)
Definition gathered (s : candidateStream) (hs : list (option CandidateGroup)) (ls : list (list entry)) (over : Z)
    (group : CandidateGroup) (r : candidateStream * res stream_error CandidateGroup) : Prop :=
  (exists v' hs' ls' new,
     r.2 = Ok {| cg_ID := cg_ID group; cg_Position := cg_Position group; cg_Branches := cg_Branches group ++ new |} /\
     cs_metadata r.1 = cs_metadata s /\ streaming r.1 v' hs' ls' [] over /\
     content hs' ls' = map (without (cg_Position group)) (content hs ls) /\ NoDup new /\
     forall j, j ∈ new <-> holds_position (content hs ls) (cg_Position group) j) \/
  (r.2 = Err (StreamStore ErrWorkLimit) /\ 0 < over).

Lemma gather_stops s v hs ls over group :
  streaming s v hs ls [] over -> (forall e, e ∈ concat (content hs ls) -> e.2 <> cg_Position group) ->
  gathered s hs ls over group (s, Ok group).
Proof.
  intros C Hno. left. exists v, hs, ls, []. cbn [fst snd]. rewrite app_nil_r, without_none by done.
  split; [by destruct group|]. do 3 (split; [done|]). split; [constructor|].
  intros j. split; [by intros ?%elem_of_nil|]. intros (i & es & e & -> & Hi & He & Hp).
  exfalso. eapply Hno; [|exact Hp]. by eapply concat_elem.
Qed.

Lemma gather_spec k fuel s v hs ls over group :
  streaming s v hs ls [] over -> (length (concat (content hs ls)) < fuel)%nat ->
  (forall e, e ∈ concat (content hs ls) -> bytes_ltb e.2 (cg_Position group) = false) ->
  (forall e, e ∈ concat (content hs ls) -> e.2 = cg_Position group -> e.1 = cg_ID group) ->
  gathered s hs ls over group (gather (fun _ => Background) k fuel s group).
Proof.
  revert k s v hs ls group; induction fuel as [|fuel IH]; intros k s v hs ls [id p bs] C Hf Hle Hid; [lia|].
  cbn [cg_Position cg_ID] in *. cbn [gather]. destruct (cs_queue s) as [|top queue] eqn:Hq.
  { eapply gather_stops; [done|]. intros e He. destruct (streaming_empty _ _ _ _ _ C Hq) as [E _]. rewrite E in He. by apply elem_of_nil in He. }
  destruct (streaming_pop _ _ _ _ _ _ _ C Hq) as (i & l & Hi & Hl & Hb & Hc & Ec & C').
  pose proof (concat_elem _ _ _ _ Hc ltac:(left)) as Htop. cbn [cg_Position cg_ID cg_Branches].
  destruct (bytes_eqb (cg_Position top) p) eqn:Ep; cbn [negb]; cycle 1.
  { eapply gather_stops; [done|]. cbn. intros e He <-. pose proof (streaming_least _ _ _ _ _ _ _ e C Hq He) as H1.
    specialize (Hle _ Htop). cbn in Hle. apply not_true_iff_false in Ep. apply Ep, bytes_eqb_eq.
    unfold bytes_ltb in *. apply bytes_compare_eq. rewrite bytes_compare_antisym in H1.
    by destruct (bytes_compare (cg_Position top) e.2). }
  apply bytes_eqb_eq in Ep. pose proof (Hid _ Htop Ep) as Et. cbn in Et. rewrite Et, String.eqb_refl, Hb, Nat2Z.id, <- Hq.
  cbn [negb]. pose proof (sm_sorted _ _ _ _ _ _ C i _ Hc) as Hs. destruct (concat_tail _ _ _ _ Hc) as [Elen Hsub].
  apply lookup_lt_Some in Hi as Hlt.
  destruct (fetch_spec k _ v (<[i := None]> hs) ls [] over i l C') as [(s1 & v1 & -> & Hm & C1)|(s1 & -> & Ho)];
    [set_solver|by rewrite list_lookup_insert_eq|done| |by right].
  assert (Econt : content (<[i := head_of i <$> head l]> (<[i := None]> hs)) (<[i := tail l]> ls) = <[i := l]> (content hs ls))
    by (rewrite content_fetch, Ec; [done|by rewrite list_lookup_insert_eq|done]).
  destruct (IH (k + 2)%nat s1 v1 _ _ {| cg_ID := id; cg_Position := p; cg_Branches := bs ++ [Z.of_nat i] |} C1)
    as [(v' & hs' & ls' & new & Er & Hm' & C2 & E2 & Hn & Hnew)|[Er Ho]];
    rewrite ?Econt in *; cbn [cg_Position cg_ID cg_Branches] in *; [lia|eauto|eauto| |by right].
  left. exists v', hs', ls', (Z.of_nat i :: new). cbn [cg_Position cg_ID cg_Branches].
  split; [by rewrite Er, <- app_assoc|]. split; [by rewrite Hm', Hm|]. split; [done|].
  split; [by rewrite E2; eapply map_without_tail|]. split.
  - constructor; [|done]. rewrite Hnew. by eapply tail_not_holds.
  - intros j. rewrite elem_of_cons, Hnew, (holds_tail _ _ _ _ p j Hc) by done. done.
Qed.

(** ** Draining the stream *)

(** A stream that has branches and is started or about to be. *)
Inductive streamable (s : candidateStream) (ess : list (list entry)) (over : Z) : Prop :=
| streamable_started v hs ls : streaming s v hs ls [] over -> ess = content hs ls -> streamable s ess over
| streamable_fresh v : cs_started s = false ->
    streaming (set_started s) v (map (fun _ => None) ess) ess (seq 0 (length (cs_iterators s))) over -> streamable s ess over.

Lemma content_none (ess : list (list entry)) : content (map (fun _ => None) ess) ess = ess.
Proof. unfold content. induction ess as [|es ess IH]; cbn; [done|]. by rewrite IH. Qed.

Definition consistent (ess : list (list entry)) : Prop :=
  forall e e', e ∈ concat ess -> e' ∈ concat ess -> e.2 = e'.2 -> e.1 = e'.1.

(** The group of the least position and what is left once it is delivered. *)
Record leading (ess : list (list entry)) (g : CandidateGroup) : Prop := {
  ld_least e : e ∈ concat ess -> bytes_ltb e.2 (cg_Position g) = false;
  ld_entry : entry_of g ∈ concat ess;
  ld_sorted : sorted_by Z.ltb (cg_Branches g);
  ld_NoDup : NoDup (cg_Branches g);
  ld_branches j : j ∈ cg_Branches g <-> holds_position ess (cg_Position g) j;
}.

Lemma Zltb_strict_weak : strict_weak Z.ltb.
Proof. split; intros *; rewrite ?Z.ltb_lt, ?Z.ltb_irrefl; try done; lia. Qed.

Lemma cs_Next_started fuel s v hs ls over :
  streaming s v hs ls [] over -> consistent (content hs ls) -> (length (concat (content hs ls)) < fuel)%nat ->
  match cs_Next (fun _ => Background) fuel s with
  | (s', Ok (Some g)) => leading (content hs ls) g /\ streamable s' (map (without (cg_Position g)) (content hs ls)) over
  | (_, Ok None) => concat (content hs ls) = [] /\ over <= 0
  | (_, Err e) => e = StreamStore ErrWorkLimit /\ 0 < over
  end.
Proof.
  intros C Hc Hf. unfold cs_Next. cbn [Background]. rewrite (sm_open _ _ _ _ _ _ C), (sm_started _ _ _ _ _ _ C).
  destruct (cs_queue s) as [|top queue] eqn:Hq; [by eapply streaming_empty|].
  destruct (streaming_pop _ _ _ _ _ _ _ C Hq) as (i & l & _ & _ & _ & Hi & _).
  pose proof (concat_elem _ _ _ _ Hi ltac:(left)) as Htop.
  pose proof (fun e => streaming_least _ _ _ _ _ _ _ e C Hq) as Hle.
  destruct (gather_spec (1 + 2 * length (cs_iterators s)) fuel s v hs ls over
    {| cg_ID := cg_ID top; cg_Position := cg_Position top; cg_Branches := [] |} C Hf)
    as [(v' & hs' & ls' & new & Er & _ & C' & E & Hn & Hnew)|[Er Ho]]; cbn [cg_Position cg_ID cg_Branches] in *; try done.
  - intros e He Ep. exact (Hc e _ He Htop Ep).
  - destruct (gather _ _ _ _ _) as [s' r]. cbn [fst snd] in *. subst r. split.
    + split; cbn [cg_Position cg_ID cg_Branches]; try done.
      * apply sort_slice_sorted, Zltb_strict_weak.
      * by rewrite sort_slice_perm.
      * intros j. rewrite sort_slice_perm. apply Hnew.
    + by eapply streamable_started.
  - destruct (gather _ _ _ _ _) as [s' r]. cbn [fst snd] in *. by subst r.
Qed.

Lemma cs_Next_spec fuel s ess over :
  streamable s ess over -> consistent ess -> (length (concat ess) < fuel)%nat ->
  match cs_Next (fun _ => Background) fuel s with
  | (s', Ok (Some g)) => leading ess g /\ streamable s' (map (without (cg_Position g)) ess) over
  | (_, Ok None) => concat ess = [] /\ over <= 0
  | (_, Err e) => e = StreamStore ErrWorkLimit /\ 0 < over
  end.
Proof.
  intros [v hs ls C ->|v Hns C] Hc Hf; [by eapply cs_Next_started|].
  assert (Hno : Forall (fun i => map (fun _ => None (A := CandidateGroup)) ess !! i = Some None) (seq 0 (length (cs_iterators s)))).
  { apply Forall_forall. intros i Hi%list_elem_of_In%in_seq. pose proof (sm_iterators _ _ _ _ _ _ C) as Hl. cbn in Hl.
    rewrite length_map in Hl. destruct (lookup_lt_is_Some_2 ess i) as [es Hes]; [lia|].
    etransitivity; [apply list_lookup_fmap|]. by rewrite Hes. }
  pose proof (fetch_all_spec 1 _ _ _ _ _ _ C (NoDup_seq 0 _) Hno) as H.
  unfold cs_Next. pose proof (sm_open _ _ _ _ _ _ C) as Hcl. cbn in Hcl. cbn [Background]. rewrite Hcl, Hns.
  destruct H as [(s' & v' & hs' & ls' & -> & _ & C' & E)|(s' & -> & Ho)]; [|done].
  rewrite content_none in E. rewrite <- E in Hc, Hf |- *.
  pose proof (cs_Next_started fuel s' v' hs' ls' over C' Hc Hf) as H. unfold cs_Next in H. cbn [Background] in H.
  by rewrite (sm_open _ _ _ _ _ _ C'), (sm_started _ _ _ _ _ _ C') in H.
Qed.

Lemma without_concat (ess : list (list entry)) p e :
  e ∈ concat (map (without p) ess) <-> e ∈ concat ess /\ e.2 <> p.
Proof.
  induction ess as [|es ess IH]; cbn; [set_solver|]. rewrite !elem_of_app, without_elem, IH. tauto.
Qed.

Lemma without_length (ess : list (list entry)) p e :
  e ∈ concat ess -> e.2 = p -> (length (concat (map (without p) ess)) < length (concat ess))%nat.
Proof.
  intros He Hp. assert (concat (map (without p) ess) = without p (concat ess)) as ->.
  { clear He. unfold without. induction ess as [|es ess IH]; cbn; [done|]. by rewrite IH, List.filter_app. }
  clear -He Hp. generalize dependent (concat ess). intros l He. induction l as [|x l IH]; [by apply elem_of_nil in He|].
  assert (Hle : (length (without p l) <= length l)%nat) by (unfold without; apply List.filter_length_le).
  unfold without in *. cbn. apply elem_of_cons in He as [<-|He].
  - rewrite (proj2 (bytes_eqb_eq e.2 p) Hp). cbn. lia.
  - specialize (IH He). destruct (negb _); cbn; lia.
Qed.

Lemma holds_without (ess : list (list entry)) p q j :
  q <> p -> holds_position (map (without p) ess) q j <-> holds_position ess q j.
Proof.
  intros Hne. unfold holds_position. split.
  - intros (i & es & e & -> & Hi & He & Hq). change (map (without p) ess) with (without p <$> ess) in Hi.
    rewrite list_lookup_fmap in Hi. apply fmap_Some in Hi as (es' & Hi & ->). apply without_elem in He as [He _]. eauto 10.
  - intros (i & es & e & -> & Hi & He & Hq). exists i, (without p es), e. split; [done|]. split.
    + etransitivity; [apply list_lookup_fmap|]. by rewrite Hi.
    + split; [|done]. apply without_elem. split; [done|]. by rewrite Hq.
Qed.

(** The groups of branches that hold the same documents: in strictly increasing
    order, each with exactly the branches that hold it; [complete] when no entry is
    left out, else what is missing comes after them. *)
Record grouped (ess : list (list entry)) (gs : list CandidateGroup) (complete : bool) : Prop := {
  gr_sorted : StronglySorted (fun a b => bytes_ltb (cg_Position a) (cg_Position b) = true) gs;
  gr_entry g : g ∈ gs -> entry_of g ∈ concat ess;
  gr_branches g : g ∈ gs -> sorted_by Z.ltb (cg_Branches g) /\ NoDup (cg_Branches g) /\
    forall j, j ∈ cg_Branches g <-> holds_position ess (cg_Position g) j;
  gr_cover e : e ∈ concat ess ->
    (exists g, g ∈ gs /\ entry_of g = e) \/
    (complete = false /\ forall g, g ∈ gs -> bytes_ltb (cg_Position g) e.2 = true);
}.

Lemma bytes_ltb_ge_ne a b : bytes_ltb b a = false -> b <> a -> bytes_ltb a b = true.
Proof.
  unfold bytes_ltb. rewrite (bytes_compare_antisym a b). intros H Hne.
  destruct (bytes_compare a b) eqn:E; try done. by apply bytes_compare_eq in E.
Qed.

Lemma grouped_cons (ess : list (list entry)) g gs complete :
  consistent ess -> leading ess g -> grouped (map (without (cg_Position g)) ess) gs complete -> grouped ess (g :: gs) complete.
Proof.
  intros Hc [L1 L2 L3 L4 L5] [G1 G2 G3 G4].
  assert (Hafter : forall e, e ∈ concat ess -> e.2 <> cg_Position g -> bytes_ltb (cg_Position g) e.2 = true)
    by (intros e He Hne; apply bytes_ltb_ge_ne; [by apply L1|done]).
  assert (Hgs : forall g', g' ∈ gs -> entry_of g' ∈ concat ess /\ cg_Position g' <> cg_Position g)
    by (intros g' Hg'; by apply G2, without_concat in Hg').
  split.
  - constructor; [done|]. apply Forall_forall. intros g' Hg'. destruct (Hgs g' Hg') as [H1 H2]. exact (Hafter _ H1 H2).
  - intros g' [->|Hg']%elem_of_cons; [done|]. by apply Hgs.
  - intros g' [->|Hg']%elem_of_cons; [done|]. destruct (Hgs g' Hg') as [_ Hne]. destruct (G3 g' Hg') as (? & ? & Hj).
    split_and!; try done. intros j. by rewrite Hj, holds_without.
  - intros e He. destruct (decide (e.2 = cg_Position g)) as [Ep|Hne].
    + left. exists g. split; [left|]. unfold entry_of. rewrite <- Ep.
      assert (cg_ID g = e.1) as -> by (apply (Hc (entry_of g) e); done). by destruct e.
    + destruct (G4 e) as [(g' & Hg' & E)|[Ec Hall]]; [by apply without_concat|left; exists g'; split; [by right|done]|].
      right. split; [done|]. intros g' [->|Hg']%elem_of_cons; [by apply Hafter|by apply Hall].
Qed.

(** Candidates in query order, once each. A stream over branches whose postings
    have strictly increasing positions, equal positions naming the same document,
    returns when read to its end with a live context: the documents of all
    branches, each position once, in increasing order, with exactly the branches
    that reach it. When the budget covers the postings the branches examine, none
    is left out; otherwise the stream ends with ErrWorkLimit and what it returned
    has no gaps. *)
Lemma cs_drain_merges calls fuel s ess over :
  streamable s ess over -> consistent ess ->
  (length (concat ess) < calls)%nat -> (length (concat ess) < fuel)%nat ->
  exists gs, grouped ess gs (bool_decide (over <= 0)) /\
    cs_drain calls fuel s = (gs, if bool_decide (over <= 0) then StreamDone else StreamFailed (StreamStore ErrWorkLimit)).
Proof.
  revert s ess; induction calls as [|calls IH]; intros s ess Hs Hc Hl Hf; [lia|]. cbn [cs_drain].
  pose proof (cs_Next_spec fuel s ess over Hs Hc Hf) as H.
  destruct (cs_Next _ fuel s) as [s' [[g|]|e]].
  - destruct H as [L Hs']. pose proof (without_length ess _ _ (ld_entry _ _ L) eq_refl) as Hlt. cbn in Hlt.
    destruct (IH s' _ Hs') as (gs & G & ->); [|lia..|].
    + intros e e' [He _]%without_concat [He' _]%without_concat. by apply Hc.
    + exists (g :: gs). split; [by apply grouped_cons|done].
  - destruct H as [E Ho]. exists []. rewrite bool_decide_true by done. split; [|done].
    split; try (intros ? H%elem_of_nil; done); [constructor|]. intros e. rewrite E. by intros ?%elem_of_nil.
  - destruct H as [-> Ho]. exists []. rewrite bool_decide_false by lia. split; [|done].
    split; try (intros ? H%elem_of_nil; done); [constructor|]. intros e He. right. split; [done|]. by intros g ?%elem_of_nil.
Qed.
End StreamFacts.
