(* ===== verification/Open.v ===== *)
(** * Opening candidates: internal/indexer/manager/candidates.go

    The manager validates a plan, chooses and compiles the best template, pins a
    ready generation and opens one scan per branch. *)
From stdpp Require Import base list sorting gmap strings.
From Stdlib Require Import ZArith.
From S2P Require Import Prelude Value OrderKey Filter IndexStore BTree MemIndex MemStore Codec Template Projection Intervals MemViews Candidates Completeness Positions Planner Stream.
Local Open Scope Z_scope.

Inductive open_error :=
| OpenPlan (e : plan_error)
| OpenStore (e : store_error)
| ErrStaleCursor
| ErrIndexNotReady.

Record candidateChoice := { ch_metadata : CandidateMetadata; ch_score : Z; ch_pattern : PatternScore }.

Definition choice_better (best choice : candidateChoice) : bool :=
  Score_Less (ch_pattern best) (ch_pattern choice) ||
  (Score_Equal (ch_pattern best) (ch_pattern choice) &&
   ((ch_score best <? ch_score choice) ||
    ((ch_score choice =? ch_score best) &&
     string_ltb (tmpl_Name (md_Template (ch_metadata choice))) (tmpl_Name (md_Template (ch_metadata best)))))).

Fixpoint valid_order (seen : gset string) (orderBy : list OrderField) : bool :=
  match orderBy with
  | [] => true
  | order :: orderBy =>
      is_ok (ValidateQueryField (of_Field order)) &&
      negb (bool_decide (of_Field order ∈ seen) ||
            negb (bool_decide (of_Direction order = Asc) || bool_decide (of_Direction order = Desc))) &&
      valid_order ({[of_Field order]} ∪ seen) orderBy
  end.

Definition set_generation (m : CandidateMetadata) (generation : string) : CandidateMetadata :=
  {| md_Template := md_Template m; md_TemplateFingerprint := md_TemplateFingerprint m; md_Generation := generation;
     md_BranchHash := md_BranchHash m; md_EffectiveOrder := md_EffectiveOrder m; md_Branches := md_Branches m;
     md_Assignments := md_Assignments m |}.

Section Open.
Context `{SS : SliceSort} `{IR : IndexReads}.

Record Manager := {
  mgr_store : index_store;
  mgr_templates : list Template;
  mgr_dbTemplates : gmap string (list Template);
}.

(** The best compiled template so far and the last error that is not a missing
    index. *)
Fixpoint choose (plan : Plan) (filters : list filter) (matches : list MatchResult)
    (best : option candidateChoice) (planningErr : option plan_error)
    : res plan_error (option candidateChoice * option plan_error) :=
  match matches with
  | [] => Ok (best, planningErr)
  | m :: matches =>
      let t := match_Template m in
      if plan_ShowDeleted plan && negb (tmpl_IncludeDeleted t) then choose plan filters matches best planningErr
      else if negb (String.eqb (plan_TemplateFingerprint plan) "")
              && negb (String.eqb (plan_TemplateFingerprint plan) (Fingerprint t))
      then choose plan filters matches best planningErr
      else match compileCandidate t filters (plan_OrderBy plan) with
      | Err ErrPlanTypeAssertion => Err ErrPlanTypeAssertion   (* a panic is not an error of the loop *)
      | Err ErrNoMatchingIndex => choose plan filters matches best planningErr
      | Err e => choose plan filters matches best (Some e)
      | Ok (metadata, score) =>
          let choice := {| ch_metadata := metadata; ch_score := score; ch_pattern := match_Score m |} in
          let best := match best with
                      | None => Some choice
                      | Some b => if choice_better b choice then Some choice else Some b
                      end in
          choose plan filters matches best planningErr
      end
  end.

Definition templates_of (m : Manager) (database : string) : list Template :=
  if bool_decide (mgr_dbTemplates m = ∅) then mgr_templates m else default [] (mgr_dbTemplates m !! database).

Fixpoint open_branches (ctx : nat -> Context) (k : nat) (metadata : CandidateMetadata) (v : view) (after : bytes)
    (branches : list nat) : res open_error (list iterator) :=
  match branches with
  | [] => Ok []
  | i :: branches =>
      opts ← map_err (fun _ => OpenPlan ErrInvalidPlan) (scanOptions metadata (Z.of_nat i) after);
      it ← map_err OpenStore (v_Scan (ctx k) v opts);
      rest ← open_branches ctx (S k) metadata v after branches;
      Ok (it :: rest)
  end.

(** [ctx k] are the answers of the context in the [k]th call that asks it. *)
Definition OpenCandidates (ctx : nat -> Context) (m : Manager) (database : string) (plan : Plan)
    : res open_error candidateStream :=
  if ctx 0%nat 0%nat then Err (OpenStore ErrContext)
  else if String.eqb database "" || String.eqb (plan_Collection plan) "" || (plan_MaxExamined plan <? 0)
  then Err (OpenPlan ErrInvalidPlan)
  else
    filters ← map_err OpenPlan (candidateFilters (plan_Filters plan));
    if negb (valid_order ∅ (plan_OrderBy plan)) then Err (OpenPlan ErrInvalidPlan)
    else if MaxCandidatePositionBytes <? Z.of_nat (length (plan_AfterPosition plan)) then Err (OpenPlan ErrInvalidPlan)
    else
      chosen ← map_err OpenPlan
        (choose plan filters (MatchTemplates (plan_Collection plan) (templates_of m database)) None None);
      match chosen with
      | (None, planningErr) =>
          if negb (String.eqb (plan_TemplateFingerprint plan) "") then Err ErrStaleCursor
          else Err (OpenPlan match planningErr with Some e => e | None => ErrNoMatchingIndex end)
      | (Some best, _) =>
          let metadata := ch_metadata best in
          if negb (length (plan_AfterPosition plan) =? 0)%nat &&
             (match tupleParts (plan_AfterPosition plan) with
              | Err _ => true
              | Ok parts => negb (length parts =? length (orderComponents (md_EffectiveOrder metadata)) + 1)%nat
              end || negb (is_ok (ExtractDocID (plan_AfterPosition plan))))
          then Err (OpenPlan ErrInvalidPlan)
          else
            found ← map_err OpenStore (r_ReadGeneration (mgr_store m) database (plan_Collection plan) (md_TemplateFingerprint metadata));
            match found with
            | None => Err ErrIndexNotReady
            | Some generation =>
                if negb (gen_Ready generation) || negb (String.eqb (gen_Failure generation) "") then Err ErrIndexNotReady
                else
                  let metadata := set_generation metadata (gen_ID generation) in
                  if (negb (String.eqb (plan_Generation plan) "") && negb (String.eqb (plan_Generation plan) (md_Generation metadata)))
                     || (negb (String.eqb (plan_BranchHash plan) "") && negb (String.eqb (plan_BranchHash plan) (md_BranchHash metadata)))
                  then Err ErrStaleCursor
                  else
                    let maxExamined := if plan_MaxExamined plan =? 0 then 100000 else plan_MaxExamined plan in
                    let stream view iterators :=
                      {| cs_metadata := metadata; cs_view := view; cs_iterators := iterators;
                         cs_heads := map (fun _ => None) iterators; cs_queue := []; cs_started := false;
                         cs_closed := false; cs_maxExamined := maxExamined |} in
                    match md_Branches metadata with
                    | [] => Ok (stream None [])
                    | _ =>
                        let r := {| ref_Database := database; ref_Collection := plan_Collection plan;
                                    ref_TemplateFingerprint := md_TemplateFingerprint metadata;
                                    ref_Generation := md_Generation metadata |} in
                        v ← map_err OpenStore (r_ReadView (ctx 1%nat) (mgr_store m) r
                              {| MaxOverlayReplacements := 0; MaxOverlayBytes := 0; MaxExamined := maxExamined |});
                        its ← open_branches ctx 2 metadata v (plan_AfterPosition plan)
                                (seq 0 (length (md_Branches metadata)));
                        Ok (stream (Some v) its)
                    end
            end
      end.
End Open.

(** ** What an open stream reads *)
Definition place (md : CandidateMetadata) (key : bytes) : bytes :=
  match position md key with Ok p => p | Err _ => [] end.
Definition locate (md : CandidateMetadata) (d : DocRef) : entry := (docref_ID d, place md (docref_OrderKey d)).

Definition branch_options (md : CandidateMetadata) (after : bytes) (i : nat) : SearchOptions :=
  match scanOptions md (Z.of_nat i) after with
  | Ok opts => opts
  | Err _ => {| opt_Lower := []; opt_Upper := None; opt_StartAfter := None; opt_Limit := 0 |}
  end.
Definition branch_ids (md : CandidateMetadata) : list nat := seq 0 (length (md_Branches md)).

(** The entries the branches have, and the postings they examine for them. *)
Definition branch_entries (md : CandidateMetadata) (after : bytes) (refs : list DocRef) : list (list entry) :=
  map (fun i => map (locate md)
         (List.filter (fun d => in_bounds (branch_options md after i) (docref_OrderKey d)) refs)) (branch_ids md).
Definition scan_cost (md : CandidateMetadata) (after : bytes) (cost : SearchOptions -> Z) : Z :=
  sum (map (fun i => cost (branch_options md after i)) (branch_ids md)).

Lemma valid_order_NoDup seen orderBy :
  valid_order seen orderBy = true -> NoDup (map of_Field orderBy) /\ forall f, f ∈ map of_Field orderBy -> f ∉ seen.
Proof.
  revert seen; induction orderBy as [|o orderBy IH]; intros seen; cbn; [split; [constructor|set_solver]|].
  intros [[_ Hn%negb_true_iff]%andb_true_iff H]%andb_true_iff. apply orb_false_iff in Hn as [Hn%bool_decide_eq_false _].
  destruct (IH _ H) as [Hd Hs]. split.
  - constructor; [|done]. intros Hin. specialize (Hs _ Hin). set_solver.
  - intros f [->|Hf]%elem_of_cons; [done|]. specialize (Hs f Hf). set_solver.
Qed.

(** Every position comes after the empty one. *)
Lemma position_after_none md key p : position md key = Ok p -> bytes_ltb [] p = true.
Proof.
  intros H. unfold position in H. apply bind_ok in H as (parts & _ & H). destruct (negb _); [done|]. cbv zeta in H.
  destruct (position_parts _ _ _ _); [|done]. destruct (_ <? _); [done|]. apply Ok_inj in H. by subst p.
Qed.

Section OpenFacts.
Context `{SS : SliceSort} `{GH : GoHeap} `{IR : IndexReads}.

(** A choice is a compiled template that serves deleted documents when asked to. *)
Definition chosen_by (plan : Plan) (filters : list filter) (c : candidateChoice) : Prop :=
  exists t, compileCandidate t filters (plan_OrderBy plan) = Ok (ch_metadata c, ch_score c).

Lemma choose_compiled plan filters matches best err out :
  (forall c, best = Some c -> chosen_by plan filters c) -> choose plan filters matches best err = Ok out ->
  forall c, out.1 = Some c -> chosen_by plan filters c.
Proof.
  revert best err; induction matches as [|m matches IH]; intros best err Hb H; cbn [choose] in H.
  { apply Ok_inj in H. by subst out. }
  destruct (_ && _); [by eapply IH|]. destruct (_ && _); [by eapply IH|].
  destruct (compileCandidate _ _ _) as [[md score]|[]] eqn:E; try done; try (by eapply IH).
  eapply IH; [|exact H]. intros c Hc. destruct best as [b|].
  - destruct (choice_better _ _); simplify_eq; [by eexists|by apply Hb].
  - simplify_eq. by eexists.
Qed.

(** What a successful call has established. *)
Lemma OpenCandidates_inv m database plan s :
  OpenCandidates (fun _ => Background) m database plan = Ok s ->
  let md := cs_metadata s in
  let after := plan_AfterPosition plan in
  NoDup (map of_Field (plan_OrderBy plan)) /\ 0 < cs_maxExamined s /\
  cs_heads s = map (fun _ => None) (cs_iterators s) /\ cs_queue s = [] /\ cs_started s = false /\ cs_closed s = false /\
  (exists filters t md0 score g, candidateFilters (plan_Filters plan) = Ok filters /\
     compileCandidate t filters (plan_OrderBy plan) = Ok (md0, score) /\ md = set_generation md0 g) /\
  ((md_Branches md = [] /\ cs_iterators s = []) \/
   (exists v, cs_view s = Some v /\
      r_ReadView Background (mgr_store m) (IndexRef database (plan_Collection plan) (md_TemplateFingerprint md) (md_Generation md))
        {| MaxOverlayReplacements := 0; MaxOverlayBytes := 0; MaxExamined := cs_maxExamined s |} = Ok v /\
      open_branches (fun _ => Background) 2 md v after (branch_ids md) = Ok (cs_iterators s))).
Proof.
  unfold OpenCandidates. cbn [Background]. destruct (_ || _) eqn:E0; [done|]. intros H.
  apply orb_false_iff in E0 as [_ E0%Z.ltb_ge].
  apply bind_ok in H as (filters & Hf & H). apply map_err_ok in Hf.
  destruct (valid_order _ _) eqn:Ho; cbn [negb] in H; [|done]. apply valid_order_NoDup in Ho as [Ho _].
  destruct (_ <? _) eqn:E1; [done|]. apply bind_ok in H as ([[best|] err] & Hch & H); [|by destruct (negb _)].
  apply map_err_ok in Hch. cbv zeta in H.
  assert (chosen_by plan filters best) as [t Hcomp] by (by eapply (choose_compiled _ _ _ None); [|exact Hch|]).
  destruct (_ && _); [done|]. apply bind_ok in H as (found & Hfound & H). apply map_err_ok in Hfound.
  destruct found as [g|]; [|done]. destruct (_ || _); [done|]. destruct (_ || _); [done|].
  assert (Hmax : 0 < (if plan_MaxExamined plan =? 0 then 100000 else plan_MaxExamined plan))
    by (destruct (Z.eqb_spec (plan_MaxExamined plan) 0); lia).
  remember (set_generation (ch_metadata best) (gen_ID g)) as md eqn:Emd.
  destruct (md_Branches md) as [|b bs] eqn:Eb.
  - apply Ok_inj in H. subst s. cbn. split_and!; try done; [by eexists _, _, _, _, _|by left].
  - rewrite <- Eb in H. apply bind_ok in H as (v & Hv & H). apply map_err_ok in Hv. apply bind_ok in H as (its & Hits & H).
    apply Ok_inj in H. subst s. cbn. split_and!; try done; [by eexists _, _, _, _, _|right; by exists v].
Qed.

Lemma open_branches_spec k md v after branches its :
  open_branches (fun _ => Background) k md v after branches = Ok its ->
  Forall2 (fun i it => exists opts, scanOptions md (Z.of_nat i) after = Ok opts /\ v_Scan Background v opts = Ok it) branches its.
Proof.
  revert k its; induction branches as [|i branches IH]; intros k its H; cbn [open_branches] in H.
  { apply Ok_inj in H. subst its. constructor. }
  apply bind_ok in H as (opts & Ho & H). apply map_err_ok in Ho. apply bind_ok in H as (it & Hi & H). apply map_err_ok in Hi.
  apply bind_ok in H as (rest & Hr & H). apply Ok_inj in H. subst its. constructor; [by exists opts|by eapply IH].
Qed.

Lemma compiled_generation t orderBy md fixed g : compiled t orderBy md fixed -> compiled t orderBy (set_generation md g) fixed.
Proof. intros []. by split. Qed.

(** A position to resume after: none, or that of a posting of the template. *)
Definition resumable (t : Template) (md : CandidateMetadata) (after : bytes) : Prop :=
  after = [] \/ exists key id, indexed t key id /\ position md key = Ok after.

Section Branches.
Context (t : Template) (orderBy : list OrderField) (md : CandidateMetadata) (fixed : nat) (after : bytes) (refs : list DocRef).
Context (Hc : compiled t orderBy md fixed) (Hord : NoDup (map of_Field orderBy)).
Context (Hindexed : forall d, d ∈ refs -> indexed t (docref_OrderKey d) (docref_ID d)).
Context (Hfit : forall d, d ∈ refs -> is_ok (position md (docref_OrderKey d)) = true).
Context (Hafter : resumable t md after).

Lemma place_ok d : d ∈ refs -> position md (docref_OrderKey d) = Ok (place md (docref_OrderKey d)).
Proof. intros Hd. unfold place. specialize (Hfit d Hd). by destruct (position _ _). Qed.

(** Inside a branch, a scan reads exactly what comes after the position. *)
Lemma branch_options_exact i b d opts :
  md_Branches md !! i = Some b -> d ∈ refs -> scanOptions md (Z.of_nat i) after = Ok opts ->
  opt_Limit opts = 0 /\
  in_bounds opts (docref_OrderKey d) =
    in_interval (docref_OrderKey d) (Interval (cb_Lower b) (cb_Upper b)) && bytes_ltb after (place md (docref_OrderKey d)).
Proof.
  intros Hb Hd Ho. apply branch_found in Hb.
  destruct (scanOptions_within t orderBy md fixed Hc _ after b opts (docref_OrderKey d) Hb Ho) as [Hl Hin].
  split; [done|]. pose proof (place_ok d Hd) as Hp.
  destruct (indexed_posting _ _ _ (Hindexed d Hd)) as [Hnd (xs & P & Ek)].
  destruct (in_interval (docref_OrderKey d) (Interval (cb_Lower b) (cb_Upper b))) eqn:E; cbn [andb];
    [|destruct (in_bounds opts _); [by specialize (Hin eq_refl)|done]].
  rewrite Ek in *. destruct Hafter as [->|(key' & id' & [_ (ys & Q & ->)]%indexed_posting & Hq)].
  - unfold scanOptions in Ho. rewrite Hb in Ho. cbn in Ho. apply Ok_inj in Ho. subst opts.
    destruct (order_parts_after t orderBy md fixed Hnd Hc xs _ _ P Hp) as [-> _].
    unfold in_bounds, in_interval in *. cbn in *. by rewrite andb_true_r.
  - destruct (scanOptions_exact t orderBy md fixed Hnd Hc Hord xs ys _ id' _ after _ b Hb P Q E Hp Hq) as (opts' & Ho' & Hx).
    rewrite Ho in Ho'. apply Ok_inj in Ho' as <-. done.
Qed.

Lemma place_lt i b d d' opts :
  md_Branches md !! i = Some b -> scanOptions md (Z.of_nat i) after = Ok opts -> d ∈ refs -> d' ∈ refs ->
  in_bounds opts (docref_OrderKey d) = true -> in_bounds opts (docref_OrderKey d') = true -> docref_lt d d' ->
  entry_lt (locate md d) (locate md d').
Proof.
  intros Hb Ho Hd Hd' Hin Hin' Hlt. pose proof (place_ok d Hd) as Hp. pose proof (place_ok d' Hd') as Hp'.
  rewrite (proj2 (branch_options_exact i b d opts Hb Hd Ho)) in Hin. rewrite (proj2 (branch_options_exact i b d' opts Hb Hd' Ho)) in Hin'.
  apply andb_true_iff in Hin as [Hin _], Hin' as [Hin' _].
  destruct (indexed_posting _ _ _ (Hindexed d Hd)) as [Hnd (xs & P & Ek)].
  destruct (indexed_posting _ _ _ (Hindexed d' Hd')) as [_ (ys & Q & Ek')].
  apply list_elem_of_lookup_2 in Hb. unfold docref_lt in Hlt. unfold entry_lt, locate, bytes_ltb. cbn.
  rewrite Ek, Ek' in *.
  pose proof (branch_same t orderBy md fixed Hc b xs ys _ _ Hb P Q Hin Hin') as Hsame.
  rewrite (positions_compare t orderBy md fixed Hnd Hc xs ys _ _ _ _ P Q Hsame Hp Hp').
  destruct (bytes_compare _ _) eqn:E; try done. cbn in Hlt. apply bytes_compare_eq in E.
  rewrite (posting_key_id t xs ys _ _ P Q E) in Hlt. by rewrite (proj2 (string_compare_eq _ _) eq_refl) in Hlt.
Qed.

Lemma entries_sorted i b opts :
  md_Branches md !! i = Some b -> scanOptions md (Z.of_nat i) after = Ok opts -> StronglySorted docref_lt refs ->
  StronglySorted entry_lt (map (locate md) (List.filter (fun d => in_bounds opts (docref_OrderKey d)) refs)).
Proof.
  intros Hb Ho Hs. assert (Hsub : forall l, StronglySorted docref_lt l -> (forall d, d ∈ l -> d ∈ refs) ->
    StronglySorted entry_lt (map (locate md) (List.filter (fun d => in_bounds opts (docref_OrderKey d)) l))); [|by apply Hsub].
  induction 1 as [|d l Hl IH Hd]; intros Hin; cbn; [constructor|].
  destruct (in_bounds opts (docref_OrderKey d)) eqn:E; [|apply IH; intros x Hx; apply Hin; by right].
  cbn. constructor; [apply IH; intros x Hx; apply Hin; by right|].
  apply Forall_map, Forall_forall. intros d' Hd'%list_elem_of_In. apply filter_In in Hd' as [Hd' E'].
  apply list_elem_of_In in Hd'. rewrite Forall_forall in Hd.
  eapply (place_lt i b d d' opts); try done; [apply Hin; left|apply Hin; by right|by apply Hd].
Qed.

Lemma entries_elem e :
  (forall i, i ∈ branch_ids md -> is_ok (scanOptions md (Z.of_nat i) after) = true) ->
  e ∈ concat (branch_entries md after refs) <->
  exists d b, d ∈ refs /\ e = locate md d /\ b ∈ md_Branches md /\
    in_interval (docref_OrderKey d) (Interval (cb_Lower b) (cb_Upper b)) = true /\
    bytes_ltb after (place md (docref_OrderKey d)) = true.
Proof.
  intros Hok. unfold branch_entries. rewrite list_elem_of_In, in_concat. split.
  - intros (es & Hes & He). apply in_map_iff in Hes as (i & <- & Hi). apply in_map_iff in He as (d & <- & Hd).
    apply filter_In in Hd as [Hd Hin]. apply list_elem_of_In in Hi, Hd. specialize (Hok i Hi).
    unfold branch_options in Hin. destruct (scanOptions md (Z.of_nat i) after) as [opts|] eqn:Ho; [|done].
    apply list_elem_of_In, in_seq in Hi. destruct (lookup_lt_is_Some_2 (md_Branches md) i) as [b Hb]; [lia|].
    rewrite (proj2 (branch_options_exact i b d opts Hb Hd Ho)) in Hin. apply andb_true_iff in Hin as [H1 H2].
    exists d, b. split_and!; try done. by eapply list_elem_of_lookup_2.
  - intros (d & b & Hd & -> & [i Hb]%list_elem_of_lookup & Hin & Hlt).
    assert (i ∈ branch_ids md) as Hi by (apply list_elem_of_In, in_seq; apply lookup_lt_Some in Hb; lia).
    eexists. split; [apply in_map_iff; exists i; split; [done|by apply list_elem_of_In]|].
    apply in_map, filter_In. split; [by apply list_elem_of_In|]. specialize (Hok i Hi). unfold branch_options.
    destruct (scanOptions md (Z.of_nat i) after) as [opts|] eqn:Ho; [|done].
    rewrite (proj2 (branch_options_exact i b d opts Hb Hd Ho)). by rewrite Hin, Hlt.
Qed.

Lemma entries_consistent :
  (forall i, i ∈ branch_ids md -> is_ok (scanOptions md (Z.of_nat i) after) = true) ->
  consistent (branch_entries md after refs).
Proof.
  intros Hok e e' (d & _ & Hd & -> & _)%(entries_elem _ Hok) (d' & _ & Hd' & -> & _)%(entries_elem _ Hok) E. cbn in *.
  pose proof (place_ok d Hd) as Hp. pose proof (place_ok d' Hd') as Hp'. rewrite <- E in Hp'.
  destruct (indexed_posting _ _ _ (Hindexed d Hd)) as [Hnd (xs & P & Ek)].
  destruct (indexed_posting _ _ _ (Hindexed d' Hd')) as [_ (ys & Q & Ek')]. rewrite Ek in Hp at 1. rewrite Ek' in Hp' at 1.
  by eapply (position_id t orderBy md fixed Hnd Hc xs ys).
Qed.

Definition branch_docs (i : nat) : list DocRef :=
  List.filter (fun d => in_bounds (branch_options md after i) (docref_OrderKey d)) refs.

Lemma entries_lookup i : (i < length (md_Branches md))%nat ->
  branch_entries md after refs !! i = Some (map (locate md) (branch_docs i)).
Proof.
  intros Hi. etransitivity; [apply list_lookup_fmap|]. unfold branch_ids. by rewrite lookup_seq_lt by done.
Qed.

(** The iterator opened for a branch. *)
Record scans (v : view) (i : nat) (it : iterator) : Prop := {
  sc_open : v_open v it;
  sc_examined : v_Examined it = 0;
  sc_pending : v_pending v it = branch_docs i;
  sc_cost : v_cost v it = v_scan_cost v (branch_options md after i);
  sc_sorted : StronglySorted entry_lt (map (locate md) (branch_docs i));
}.

Lemma opened_scans v its :
  StronglySorted docref_lt refs -> v_ready v -> v_postings v = refs ->
  Forall2 (fun i it => exists opts, scanOptions md (Z.of_nat i) after = Ok opts /\ v_Scan Background v opts = Ok it)
    (branch_ids md) its ->
  Forall2 (scans v) (branch_ids md) its.
Proof.
  intros Hs Hr Hp Hits. apply Forall2_same_length_lookup. split; [by apply Forall2_length in Hits|]. intros j i it Hi Hit.
  destruct (Forall2_lookup_lr _ _ _ _ _ _ Hits Hi Hit) as (opts & Ho & Hscan).
  apply list_elem_of_lookup_2, list_elem_of_In, in_seq in Hi. destruct (lookup_lt_is_Some_2 (md_Branches md) i) as [b Hb]; [lia|].
  destruct (scanOptions_within t orderBy md fixed Hc _ after b opts [] (branch_found _ _ _ Hb) Ho) as [Hl _].
  destruct (v_Scan_law v opts it Hr Hl Hscan) as (? & ? & Hpend & ?). rewrite Hp in Hpend.
  split; unfold branch_docs, branch_options; rewrite ?Ho; try done. by eapply entries_sorted.
Qed.

Lemma scans_total v ids its : Forall2 (scans v) ids its ->
  sum (map v_Examined its) = 0 /\
  sum (map (v_cost v) its) = sum (map (fun i => v_scan_cost v (branch_options md after i)) ids).
Proof.
  induction 1 as [|i it ids its H _ [IH1 IH2]]; [done|]. destruct H as [_ He _ Hcost _].
  unfold sum in *. cbn [map foldr]. by rewrite He, Hcost, IH1, IH2.
Qed.

(** A stream with an iterator per branch is ready to be merged. *)
Lemma opened_streamable s v :
  cs_metadata s = md -> cs_view s = Some v -> v_left v = cs_maxExamined s -> 0 <= cs_maxExamined s ->
  cs_heads s = map (fun _ => None) (cs_iterators s) -> cs_queue s = [] -> cs_started s = false -> cs_closed s = false ->
  Forall2 (scans v) (branch_ids md) (cs_iterators s) ->
  streamable s (branch_entries md after refs) (scan_cost md after (v_scan_cost v) - cs_maxExamined s).
Proof.
  intros Em Ev Hleft Hmax Hh Hq Hst Hcl Hsp. destruct (scans_total _ _ _ Hsp) as [Hzero Hcost].
  assert (Hlen : length (md_Branches md) = length (cs_iterators s))
    by (apply Forall2_length in Hsp; unfold branch_ids in Hsp; by rewrite length_seq in Hsp).
  assert (El : length (branch_entries md after refs) = length (cs_iterators s))
    by (unfold branch_entries, branch_ids; by rewrite length_map, length_seq).
  assert (Hrow : forall i it, cs_iterators s !! i = Some it -> scans v i it /\ (i < length (md_Branches md))%nat).
  { intros i it Hit. pose proof (lookup_lt_Some _ _ _ Hit) as Hlt. split; [|lia].
    eapply (Forall2_lookup_lr _ _ _ _ _ _ Hsp); [|done]. apply lookup_seq_lt. lia. }
  apply (streamable_fresh _ _ _ v Hst). split;
    cbn [set_started cs_view cs_started cs_closed cs_heads cs_iterators cs_queue cs_metadata cs_maxExamined]; rewrite ?length_map; try done.
  - by rewrite Hh, length_map.
  - intros i it l Hit Hl. destruct (Hrow i it Hit) as [[Ho _ Hpend _ _] Hi].
    split; [done|]. rewrite (entries_lookup i Hi) in Hl. injection Hl as <-. rewrite Hpend, Em.
    apply Forall2_fmap_r, Forall_Forall2_diag, Forall_forall. intros d Hd%list_elem_of_In.
    apply filter_In in Hd as [Hd%list_elem_of_In _]. split; [done|]. by apply place_ok.
  - intros i g Hi. change (map ?f ?x !! i) with ((f <$> x) !! i) in Hi. rewrite list_lookup_fmap in Hi.
    by destruct (branch_entries md after refs !! i).
  - intros i l. rewrite content_none. intros Hl. pose proof (lookup_lt_Some _ _ _ Hl) as Hlt.
    destruct (lookup_lt_is_Some_2 (cs_iterators s) i) as [it Hit]; [by rewrite <- El|].
    destruct (Hrow i it Hit) as [[_ _ _ _ Hsort] Hi]. rewrite (entries_lookup i Hi) in Hl. by injection Hl as <-.
  - rewrite Hq. clear. induction (branch_entries md after refs); cbn; done.
  - rewrite Hq. apply heap_ok_nil.
  - by rewrite Hleft.
  - change (cs_Examined (set_started s)) with (cs_Examined s). unfold cs_Examined. lia.
  - by rewrite Hcost, Hleft.
  - intros i it _ Hn Hit. exfalso. apply Hn, list_elem_of_In, in_seq. apply lookup_lt_Some in Hit. lia.
Qed.
End Branches.

Lemma entries_length md after refs :
  (length (concat (branch_entries md after refs)) <= length (md_Branches md) * length refs)%nat.
Proof.
  unfold branch_entries, branch_ids. rewrite <- (length_seq (length (md_Branches md)) 0) at 2. induction (seq _ _) as [|i l IH]; cbn; [lia|].
  rewrite length_app, length_map. pose proof (List.filter_length_le (fun d => in_bounds (branch_options md after i) (docref_OrderKey d)) refs). lia.
Qed.

(** An index partition that holds the projections of a collection's documents
    under a template, and nothing that is not such a projection. *)
Record reflects (t : Template) (generation : string) (refs : list DocRef) (docs : list StoredDoc) : Prop := {
  rf_indexed d : d ∈ refs -> indexed t (docref_OrderKey d) (docref_ID d);
  rf_projected doc : doc ∈ docs -> wf_doc doc /\ exists id limits proj,
    LogicalDocumentID doc = Ok id /\ BuildDocumentProjection doc t generation limits = Ok proj /\
    forall key, key ∈ proj_PostingKeys proj -> {| docref_ID := id; docref_OrderKey := key |} ∈ refs;
}.

(** Reading an open stream to its end, in terms of the entries of its branches. *)
Lemma opened_drain m database plan s calls fuel :
  r_ok (mgr_store m) -> Forall wf_filter (plan_Filters plan) ->
  OpenCandidates (fun _ => Background) m database plan = Ok s ->
  let md := cs_metadata s in
  let after := plan_AfterPosition plan in
  let ref := IndexRef database (plan_Collection plan) (md_TemplateFingerprint md) (md_Generation md) in
  let refs := r_postings (mgr_store m) ref in
  let cost := scan_cost md after (r_scan_cost (mgr_store m) ref) in
  (forall d, d ∈ refs -> indexed (md_Template md) (docref_OrderKey d) (docref_ID d)) ->
  (forall d, d ∈ refs -> is_ok (position md (docref_OrderKey d)) = true) ->
  resumable (md_Template md) md after ->
  (length (md_Branches md) * length refs < calls)%nat -> (length (md_Branches md) * length refs < fuel)%nat ->
  let fits := bool_decide (cost <= cs_maxExamined s) in
  exists gs, grouped (branch_entries md after refs) gs fits /\
    cs_drain calls fuel s = (gs, if fits then StreamDone else StreamFailed (StreamStore ErrWorkLimit)) /\
    forall e, e ∈ concat (branch_entries md after refs) <->
      exists d b, d ∈ refs /\ e = locate md d /\ b ∈ md_Branches md /\
        in_interval (docref_OrderKey d) (Interval (cb_Lower b) (cb_Upper b)) = true /\
        bytes_ltb after (place md (docref_OrderKey d)) = true.
Proof.
  intros Hok Hwf Hopen md after ref refs cost Hidx Hfit Hres Hcalls Hfuel fits.
  destruct (OpenCandidates_inv _ _ _ _ Hopen) as (Hord & Hmax & Hh & Hq & Hst & Hcl & (fs & t & md0 & score & g & Hf & Hcomp & Emd) & Hbr).
  fold md in Emd, Hbr. fold after in Hbr.
  destruct (compileCandidate_inv t fs (plan_OrderBy plan) md0 score (candidateFilters_wf _ _ Hwf Hf) Hcomp) as [fixed Hc0].
  pose proof (compiled_generation _ _ _ _ g Hc0) as Hc. rewrite <- Emd in Hc.
  assert (Et : md_Template md = t) by exact (cp_template _ _ _ _ Hc). rewrite Et in *.
  destruct Hbr as [[Hnil Hits]|(v & Ev & Hv & Hits)].
  { assert (Ee : branch_entries md after refs = []) by (unfold branch_entries, branch_ids; by rewrite Hnil).
    assert (Ef : fits = true) by (apply bool_decide_true; unfold cost, scan_cost, branch_ids; rewrite Hnil; cbn; lia).
    exists []. rewrite Ee, Ef. split; [|split].
    - split; try (intros ? H%elem_of_nil; done); constructor.
    - destruct calls as [|calls]; [lia|]. cbn [cs_drain]. unfold cs_Next. cbn [Background].
      rewrite Hcl, Hst, Hits. cbn. by rewrite Hq.
    - intros e. split; [by intros ?%elem_of_nil|]. intros (d & b & _ & _ & Hb & _). rewrite Hnil in Hb. by apply elem_of_nil in Hb. }
  apply open_branches_spec in Hits.
  destruct (r_ReadView_law (mgr_store m) ref (cs_maxExamined s) v Hok Hmax Hv) as (Hready & Hpost & Hleft & Hvcost).
  fold refs in Hpost. pose proof (r_postings_sorted (mgr_store m) ref Hok) as Hsorted. fold refs in Hsorted.
  assert (Ecost : scan_cost md after (v_scan_cost v) = cost)
    by (unfold cost, scan_cost; f_equal; apply map_ext; intros i; apply Hvcost). assert (Hscan : forall i, i ∈ branch_ids md -> is_ok (scanOptions md (Z.of_nat i) after) = true).
  { intros i [j Hj]%list_elem_of_lookup. destruct (Forall2_lookup_l _ _ _ _ _ Hits Hj) as (it & _ & opts & -> & _). done. }
  pose proof (opened_scans t (plan_OrderBy plan) md fixed after refs Hc Hord Hidx Hfit Hres v _ Hsorted Hready Hpost Hits) as Hsc.
  pose proof (opened_streamable md after refs Hfit s v eq_refl Ev Hleft ltac:(lia) Hh Hq Hst Hcl Hsc) as Hstr. rewrite Ecost in Hstr.
  pose proof (entries_length md after refs) as Hlen.
  destruct (cs_drain_merges calls fuel s _ _ Hstr) as (gs & G & E); [|lia..|].
  { by eapply entries_consistent. }
  assert (Ef : bool_decide (cost - cs_maxExamined s <= 0) = fits) by (apply bool_decide_ext; lia).
  rewrite Ef in *. exists gs. split; [done|]. split; [done|]. intros e. by eapply entries_elem.
Qed.

Lemma stream_complete m database plan s docs calls fuel :
  r_ok (mgr_store m) -> Forall wf_filter (plan_Filters plan) ->
  OpenCandidates (fun _ => Background) m database plan = Ok s ->
  let md := cs_metadata s in
  let t := md_Template md in
  let after := plan_AfterPosition plan in
  let ref := IndexRef database (plan_Collection plan) (md_TemplateFingerprint md) (md_Generation md) in
  let refs := r_postings (mgr_store m) ref in
  let cost := scan_cost md after (r_scan_cost (mgr_store m) ref) in
  reflects t (md_Generation md) refs docs ->
  (forall d, d ∈ refs -> is_ok (position md (docref_OrderKey d)) = true) ->
  resumable t md after ->
  (length (md_Branches md) * length refs < calls)%nat -> (length (md_Branches md) * length refs < fuel)%nat ->
  exists gs, cs_drain calls fuel s
      = (gs, if bool_decide (cost <= cs_maxExamined s) then StreamDone
             else StreamFailed (StreamStore ErrWorkLimit)) /\
    StronglySorted (fun a b => bytes_ltb (cg_Position a) (cg_Position b) = true) gs /\
    (forall g, g ∈ gs -> bytes_ltb after (cg_Position g) = true /\
       exists d, d ∈ refs /\ docref_ID d = cg_ID g /\ position md (docref_OrderKey d) = Ok (cg_Position g)) /\
    (forall doc, doc ∈ docs -> doc_Deleted doc && negb (tmpl_IncludeDeleted t) = false ->
       exists id, LogicalDocumentID doc = Ok id /\
         (forallb (fun f => filter_holds f (DocumentField doc id)) (plan_Filters plan) = true ->
          exists p, (exists key, {| docref_ID := id; docref_OrderKey := key |} ∈ refs /\ position md key = Ok p) /\
            (bytes_ltb after p = true ->
             (exists g, g ∈ gs /\ cg_ID g = id /\ cg_Position g = p) \/
             (cs_maxExamined s < cost /\ forall g, g ∈ gs -> bytes_ltb (cg_Position g) p = true)))).
Proof.
  intros Hok Hwf Hopen md t after ref refs cost Hrefl Hfit Hres Hcalls Hfuel.
  destruct (opened_drain m database plan s calls fuel Hok Hwf Hopen (rf_indexed _ _ _ _ Hrefl) Hfit Hres Hcalls Hfuel)
    as (gs & [G1 G2 _ G4] & Hd & He). fold md after refs in Hd, He, G2, G4.
  assert (Hplace : forall d, d ∈ refs -> position md (docref_OrderKey d) = Ok (place md (docref_OrderKey d)))
    by (intros d Hin; unfold place; specialize (Hfit d Hin); by destruct (position md (docref_OrderKey d))).
  exists gs. split; [done|]. split; [done|]. split.
  - intros g Hg. apply G2, He in Hg as (d & b & Hin & E & _ & _ & Hlt). injection E as Eid Ep. rewrite Ep.
    split; [done|]. exists d. split; [done|]. split; [done|]. by apply Hplace.
  - intros doc Hdoc Hlive. destruct (rf_projected _ _ _ _ Hrefl doc Hdoc) as (Hwd & id & limits & proj & Hid & Hproj & Hkeys).
    exists id. split; [done|]. intros Hall.
    destruct (OpenCandidates_inv _ _ _ _ Hopen) as (_ & _ & _ & _ & _ & _ & (fs & t0 & md0 & score & g & Hf & Hcomp & Emd) & _).
    fold md in Emd.
    destruct (compileCandidate_inv t0 fs (plan_OrderBy plan) md0 score (candidateFilters_wf _ _ Hwf Hf) Hcomp) as [fixed Hc0].
    assert (t = t0) as Et by (unfold t; rewrite Emd; exact (cp_template _ _ _ _ Hc0)). rewrite Et in *.
    pose proof (candidateFilters_satisfied doc id _ fs Hwf Hf Hall) as HF.
    destruct (plan_reaches doc t0 (md_Generation md) limits proj id Hwd Hid Hproj Hlive fs HF (plan_OrderBy plan) md0 score Hcomp)
      as (key & b & Hkey & Hb & Hin).
    pose proof (Hkeys key Hkey) as Hd'. exists (place md key). split; [exists key; split; [done|exact (Hplace _ Hd')]|].
    intros Hlt. destruct (G4 (id, place md key)) as [(g' & Hg' & [= E1 E2])|[Hc Hgs]].
    + apply He. exists {| docref_ID := id; docref_OrderKey := key |}, b. split_and!; try done. by rewrite Emd.
    + left. by exists g'.
    + right. apply bool_decide_eq_false in Hc. unfold cost, ref. split; [lia|done].
Qed.
(** C2: candidate streams are complete and in order. Let the index partition a
    plan is opened on hold the projections of some documents under the template
    the plan chose. The stream, read to its end with a live context, returns
    documents of the index in strictly increasing position, all after the
    position the plan resumes from. When the work budget covers the postings its
    branches examine, every document the plan's filters accept and whose position
    follows is returned; otherwise the stream ends with ErrWorkLimit, and a
    document it did not return comes after all it did. *)
Theorem OpenCandidates_complete m database plan s docs calls fuel :
  r_ok (mgr_store m) -> Forall wf_filter (plan_Filters plan) ->
  OpenCandidates (fun _ => Background) m database plan = Ok s ->
  let md := cs_metadata s in
  let t := md_Template md in
  let after := plan_AfterPosition plan in
  let ref := IndexRef database (plan_Collection plan) (md_TemplateFingerprint md) (md_Generation md) in
  let refs := r_postings (mgr_store m) ref in
  let cost := scan_cost md after (r_scan_cost (mgr_store m) ref) in
  reflects t (md_Generation md) refs docs ->
  (forall d, d ∈ refs -> is_ok (position md (docref_OrderKey d)) = true) ->
  resumable t md after ->
  (length (md_Branches md) * length refs < calls)%nat -> (length (md_Branches md) * length refs < fuel)%nat ->
  exists gs, cs_drain calls fuel s
      = (gs, if bool_decide (cost <= cs_maxExamined s) then StreamDone
             else StreamFailed (StreamStore ErrWorkLimit)) /\
    StronglySorted (fun a b => bytes_ltb (cg_Position a) (cg_Position b) = true) gs /\
    (forall g, g ∈ gs -> bytes_ltb after (cg_Position g) = true /\
       exists d, d ∈ refs /\ docref_ID d = cg_ID g /\ position md (docref_OrderKey d) = Ok (cg_Position g)) /\
    (forall doc, doc ∈ docs -> doc_Deleted doc && negb (tmpl_IncludeDeleted t) = false ->
       exists id, LogicalDocumentID doc = Ok id /\
         (forallb (fun f => filter_holds f (DocumentField doc id)) (plan_Filters plan) = true ->
          exists p, (exists key, {| docref_ID := id; docref_OrderKey := key |} ∈ refs /\ position md key = Ok p) /\
            (bytes_ltb after p = true ->
             (exists g, g ∈ gs /\ cg_ID g = id /\ cg_Position g = p) \/
             (cs_maxExamined s < cost /\ forall g, g ∈ gs -> bytes_ltb (cg_Position g) p = true)))).
Proof. apply stream_complete. Qed.
End OpenFacts.

(** ** Two tagged documents in the in-memory store *)
Definition tagged_projections : list Projection :=
  omap (fun doc => match @BuildDocumentProjection insertion_slice_sort doc tagged_template "g1" DefaultProjectionLimits with
                   | Ok p => Some p
                   | Err _ => None
                   end) [tagged_doc; older_doc].
Definition tagged_ref : QueryIndexRef := IndexRef "db" "users" (Fingerprint tagged_template) "g1".
Definition tagged_store : Store (BT := list_btree) :=
  run_store (BT := list_btree) [OpApply tagged_projections "p1"; OpPublishGeneration tagged_ref "p2"].
Definition tagged_manager : Manager (IR := mem_reads (BT := list_btree)) :=
  {| mgr_store := (tagged_store : index_store (IndexReads := mem_reads (BT := list_btree))); mgr_templates := [tagged_template]; mgr_dbTemplates := ∅ |}.
Definition tagged_query_plan : Plan := range_plan tagged_query.
Definition open_tagged : res open_error (candidateStream (IV := mem_views (BT := list_btree))) :=
  OpenCandidates (SS := insertion_slice_sort) (fun _ => Background) tagged_manager "db" tagged_query_plan.

Definition tagged_refs : list DocRef := map to_docref (postings tagged_store tagged_ref).
Definition no_stream : candidateStream (IV := mem_views (BT := list_btree)) :=
  {| cs_metadata := no_metadata; cs_view := None; cs_iterators := []; cs_heads := []; cs_queue := [];
     cs_started := false; cs_closed := true; cs_maxExamined := 0 |}.
Definition ok_or {E A} (d : A) (r : res E A) : A := match r with Ok a => a | Err _ => d end.
Definition tagged_stream : candidateStream (IV := mem_views (BT := list_btree)) :=
  ok_or no_stream open_tagged.

Lemma open_tagged_ok : open_tagged = Ok tagged_stream.
Proof.
  assert (is_ok open_tagged = true) as H by (vm_compute; reflexivity). unfold tagged_stream.
  destruct open_tagged; [reflexivity|discriminate H].
Qed.

Lemma tagged_partition :
  r_postings (IndexReads := mem_reads (BT := list_btree)) (mgr_store tagged_manager)
    (IndexRef "db" (plan_Collection tagged_query_plan) (md_TemplateFingerprint (cs_metadata tagged_stream))
       (md_Generation (cs_metadata tagged_stream))) = tagged_refs.
Proof. (vm_compute; reflexivity). Qed.

(** Whether a partition holds what the documents project to. *)
Definition holds_postings (refs : list DocRef) (doc : StoredDoc) (id : string) : bool :=
  forallb (fun key => bool_decide ({| docref_ID := id; docref_OrderKey := key |} ∈ refs)) (postings_of doc).

Lemma holds_postings_projected refs doc id :
  is_ok (@BuildDocumentProjection insertion_slice_sort doc tagged_template "g1" DefaultProjectionLimits) = true ->
  LogicalDocumentID doc = Ok id -> holds_postings refs doc id = true ->
  exists id limits proj, LogicalDocumentID doc = Ok id /\
    @BuildDocumentProjection insertion_slice_sort doc tagged_template "g1" limits = Ok proj /\
    forall key, key ∈ proj_PostingKeys proj -> {| docref_ID := id; docref_OrderKey := key |} ∈ refs.
Proof.
  intros Hok Hid Hp. exists id, DefaultProjectionLimits. unfold holds_postings, postings_of in Hp.
  destruct BuildDocumentProjection as [proj|]; [|done]. exists proj. split; [done|]. split; [done|].
  intros key Hkey. rewrite forallb_forall in Hp. specialize (Hp key). apply list_elem_of_In in Hkey.
  by eapply bool_decide_eq_true_1, Hp.
Qed.

Lemma tagged_reflected : @reflects insertion_slice_sort tagged_template "g1" tagged_refs [tagged_doc; older_doc].
Proof.
  split.
  - intros d Hd. assert (E : tagged_refs = [{| docref_ID := "u1"; docref_OrderKey := default [] (postings_of tagged_doc !! 0%nat) |};
      {| docref_ID := "u2"; docref_OrderKey := older_key |}; {| docref_ID := "u1"; docref_OrderKey := younger_key |}]) by (vm_compute; reflexivity).
    rewrite E in Hd. rewrite !elem_of_cons, elem_of_nil in Hd.
    destruct Hd as [->|[->|[->|[]]]]; [|exact older_indexed|exact younger_indexed].
    apply (postings_indexed tagged_doc); [apply tagged_wf|(vm_compute; reflexivity)|]. apply list_elem_of_lookup_2 with 0%nat. (vm_compute; reflexivity).
  - intros doc Hdoc. rewrite !elem_of_cons, elem_of_nil in Hdoc. destruct Hdoc as [->|[->|[]]].
    + split; [exact tagged_wf|]. apply (holds_postings_projected _ _ "u1"); (vm_compute; reflexivity).
    + split; [exact older_wf|]. apply (holds_postings_projected _ _ "u2"); (vm_compute; reflexivity).
Qed.

Lemma OpenCandidates_complete_witness :
  exists gs, cs_drain (GH := sorted_heap) (SS := insertion_slice_sort) 9 9 tagged_stream = (gs, StreamDone) /\
    exists g, g ∈ gs /\ cg_ID g = "u1".
Proof.
  destruct (@OpenCandidates_complete insertion_slice_sort sorted_heap _ (mem_reads (BT := list_btree)) tagged_manager "db"
    tagged_query_plan tagged_stream [tagged_doc; older_doc] 9 9) as (gs & Hd & _ & _ & Hdoc).
  - exact (run_store_inv (BT := list_btree) _).
  - exact tagged_query_wf.
  - exact open_tagged_ok.
  - rewrite tagged_partition. assert (E : md_Template (cs_metadata tagged_stream) = tagged_template) by (vm_compute; reflexivity).
    assert (Eg : md_Generation (cs_metadata tagged_stream) = "g1") by (vm_compute; reflexivity). rewrite E, Eg. exact tagged_reflected.
  - rewrite tagged_partition. intros d Hd.
    assert (F : forallb (fun d => is_ok (position (cs_metadata tagged_stream) (docref_OrderKey d))) tagged_refs = true)
      by (vm_compute; reflexivity).
    rewrite forallb_forall in F. exact (F d (proj1 (list_elem_of_In _ _) Hd)).
  - left. reflexivity.
  - rewrite tagged_partition. vm_compute. lia.
  - rewrite tagged_partition. vm_compute. lia.
  - rewrite tagged_partition in Hdoc. rewrite bool_decide_true in Hd by (vm_compute; discriminate).
    exists gs. split; [exact Hd|].
    destruct (Hdoc tagged_doc) as (id & Hid & Hm); [left|(vm_compute; reflexivity)|].
    assert (id = "u1") as -> by (vm_compute in Hid; congruence).
    destruct Hm as (p & (key & Hin & Hp) & Hc); [(vm_compute; reflexivity)|].
    destruct Hc as [(g & Hg & E & _)|[Hlt _]]; [|eauto|vm_compute in Hlt; discriminate Hlt].
    exact (position_after_none _ _ _ Hp).
Defined.
