(* ===== verification/PersistCandidates.v ===== *)
(** * Queries over the persistent store

    Scans and candidate streams, from the calls a store accepted to the documents
    a query reads ([view_scan_exact], [store_candidates_complete]). *)
From stdpp Require Import base list sorting gmap strings.
From Stdlib Require Import ZArith.
From S2P Require Import Prelude PostingSet Value OrderKey Filter IndexStore Codec Template Projection Intervals Refs Keys Pebble PersistStore PersistSpec PersistFacts PersistRun PersistReads PersistViews PersistScan PersistHistory Candidates Completeness Positions Planner Stream Open.
Local Open Scope Z_scope.

Section PersistCandidates.
Context `{PB : Pebble} `{XX : XXHash} `{MJ : MetadataJSON} `{SS : SliceSort} `{RO : RangeOrder}.

(** The references of a partition in an abstract state. *)
Definition spec_refs (A : Spec) (r : QueryIndexRef) (refs : list DocRef) : Prop :=
  key_sorted refs /\ forall d, d ∈ refs <-> docref_OrderKey d ∈ sp_postings A r (docref_ID d).

Lemma run_refs calls s r : run calls s -> ps_flushErr s = None -> store_inv s /\ spec_refs (replay (accepted calls)) r (store_refs s r).
Proof.
  intros Hr He. destruct (run_tracked calls s Hr) as [h Ht]. destruct (tk_abs _ _ _ Ht He) as [<- (Ha & _)]. pose proof (tk_inv _ _ _ Ht) as Hi.
  split; [done|]. split; [by apply view_refs_sorted, base_view_ok|]. intros d. by rewrite store_refs_postings, Ha.
Qed.


(** A partition of the abstract state that holds the projections of documents. *)
Record spec_reflects (t : Template) (generation : string) (A : Spec) (r : QueryIndexRef) (docs : list StoredDoc) : Prop := {
  sr_indexed id key : key ∈ sp_postings A r id -> indexed t key id;
  sr_projected doc : doc ∈ docs -> wf_doc doc /\ exists id limits proj,
    LogicalDocumentID doc = Ok id /\ BuildDocumentProjection doc t generation limits = Ok proj /\
    forall key, key ∈ proj_PostingKeys proj -> key ∈ sp_postings A r id;
}.

Context `{GH : GoHeap}.

End PersistCandidates.

(** ** The sample run of [PersistHistory], scanned *)
Abbreviation sample_ReadView := (ReadView (PB := map_pebble) (SS := insertion_slice_sort) (RO := any_range_order) Background).
Definition blank_view : projectionView (PB := map_pebble) := base_view (PB := map_pebble) blank_store sample_ref.
Definition sample_view : projectionView (PB := map_pebble) :=
  ok_or blank_view (sample_ReadView sample_end sample_ref {| MaxOverlayReplacements := 0; MaxOverlayBytes := 0; MaxExamined := 0 |}).
Definition all_keys : SearchOptions := {| opt_Lower := []; opt_Upper := None; opt_StartAfter := None; opt_Limit := 0 |}.
Definition blank_iterator : projectionIterator :=
  {| pi_rows := []; pi_error := None; pi_close := None; pi_options := all_keys; pi_closed := true; pi_overlayPosition := 0;
     pi_dbRow := None; pi_emitted := 0; pi_examined := 0 |}.
Definition sample_iterator : projectionIterator := ok_or blank_iterator (Scan Background sample_view all_keys).

Lemma ok_or_ok {E A} (d : A) (r : res E A) : is_ok r = true -> r = Ok (ok_or d r).
Proof. by destruct r. Qed.


(** ** Two tagged documents, queried *)
Definition tagged_calls : list call := [(OApply tagged_projections "p1", None); (OPublishGeneration tagged_ref "p2", None)].
Definition tagged_applied := (sample_exec (OApply tagged_projections "p1") (sample_opened ∅)).1.
Definition tagged_published := (sample_exec (OPublishGeneration tagged_ref "p2") tagged_applied).1.

Lemma tagged_runs : sample_run tagged_calls tagged_published.
Proof.
  change tagged_calls with (([] ++ [(OApply tagged_projections "p1", @None store_error)]) ++ [(OPublishGeneration tagged_ref "p2", @None store_error)]).
  eapply run_call with (s := tagged_applied); [|vm_compute; split; reflexivity|vm_compute; reflexivity|apply exec_sample; vm_compute; reflexivity].
  eapply run_call with (s := sample_opened ∅); [|apply apply_valid; vm_compute; reflexivity|done|apply exec_sample; vm_compute; reflexivity].
  apply (run_open "index" 10 (∅ : @pebble map_pebble)); [reflexivity|apply sample_open_ok; vm_compute; reflexivity].
Qed.

Abbreviation stored_reads := (persist_reads (PB := map_pebble) (XX := sum_hash) (MJ := component_json) (SS := insertion_slice_sort) (RO := any_range_order)).
Definition stored_manager : Manager (IR := stored_reads) :=
  {| mgr_store := (tagged_published : index_store (IndexReads := stored_reads)); mgr_templates := [tagged_template]; mgr_dbTemplates := ∅ |}.
Definition open_stored := OpenCandidates (SS := insertion_slice_sort) (fun _ => Background) stored_manager "db" tagged_query_plan.
Definition no_stored : candidateStream (IV := persist_views (PB := map_pebble)) :=
  {| cs_metadata := no_metadata; cs_view := None; cs_iterators := []; cs_heads := []; cs_queue := [];
     cs_started := false; cs_closed := true; cs_maxExamined := 0 |}.
Definition stored_stream := ok_or no_stored open_stored.


Lemma map_healthy (d : @pebble map_pebble) : healthy d.
Proof. by intros lower upper rs e c [= _ <- _]. Qed.

Lemma replaced_elem ps r id key :
  key ∈ foldl replace_postings (fun _ _ => []) ps r id -> exists p, p ∈ ps /\ proj_Index p = r /\ proj_DocumentID p = id /\ key ∈ proj_PostingKeys p.
Proof.
  induction ps as [|p ps IH] using rev_ind; [by intros ?%elem_of_nil|]. rewrite foldl_app. cbn. unfold replace_postings at 1.
  destruct (decide _) as [[H1 H2]|_]; [intros Hk; exists p; set_solver|]. intros (q & Hq & H)%IH. exists q. set_solver.
Qed.

(** What the calls leave is what the in-memory store holds. *)
Definition tagged_spec : Spec := replay (accepted tagged_calls).
Lemma stored_postings id key :
  key ∈ sp_postings tagged_spec tagged_ref id <-> {| docref_ID := id; docref_OrderKey := key |} ∈ tagged_refs.
Proof.
  assert (H1 : forallb (fun p => forallb (fun k => bool_decide ({| docref_ID := proj_DocumentID p; docref_OrderKey := k |} ∈ tagged_refs))
    (proj_PostingKeys p)) tagged_projections = true) by (vm_compute; reflexivity).
  assert (H2 : forallb (fun d => bool_decide (docref_OrderKey d ∈ sp_postings tagged_spec tagged_ref (docref_ID d))) tagged_refs = true)
    by (vm_compute; reflexivity).
  assert (E : OwnProjections tagged_projections = Ok tagged_projections) by (vm_compute; reflexivity).
  rewrite forallb_forall in H1, H2. split.
  - unfold tagged_spec, replay, accepted, tagged_calls. cbn [omap list_omap fst snd foldl]. unfold spec_exec. rewrite E.
    cbn [sp_postings spec_new]. intros (p & Hp & _ & <- & Hk)%replaced_elem. apply list_elem_of_In in Hp, Hk.
    specialize (H1 p Hp). rewrite forallb_forall in H1. exact (bool_decide_eq_true_1 _ (H1 key Hk)).
  - intros Hd%list_elem_of_In. exact (bool_decide_eq_true_1 _ (H2 _ Hd)).
Qed.

