(* ===== verification/Events.v ===== *)
(** * Change events: internal/puller/events/types.go

    Cluster times, change events and the buffer keys that order them. *)
From stdpp Require Import base list sorting gmap strings.
From Stdlib Require Import ZArith Ascii.
From S2P Require Import Prelude Value IndexStore Projection.
Local Open Scope Z_scope.

Inductive StoreOperationType :=
| StoreOperationInsert | StoreOperationUpdate | StoreOperationReplace | StoreOperationDelete
| StoreOperationOther (s : string).
#[export] Instance StoreOperationType_eq_dec : EqDecision StoreOperationType.
Proof. solve_decision. Defined.

Definition op_IsValid (o : StoreOperationType) : bool :=
  match o with StoreOperationOther _ => false | _ => true end.

(** Two [uint32] fields. *)
Record ClusterTime := ClusterAt { ct_T : Z; ct_I : Z }.
#[export] Instance ClusterTime_eq_dec : EqDecision ClusterTime.
Proof. solve_decision. Defined.

Definition ct_Compare (c other : ClusterTime) : comparison :=
  if ct_T c <? ct_T other then Lt
  else if ct_T other <? ct_T c then Gt
  else if ct_I c <? ct_I other then Lt
  else if ct_I other <? ct_I c then Gt
  else Eq.

Definition ct_IsZero (c : ClusterTime) : bool := (ct_T c =? 0) && (ct_I c =? 0).

Record TruncatedArray := Truncated { ta_Field : string; ta_NewSize : Z }.
Record UpdateDescription := {
  ud_UpdatedFields : gmap string value; ud_RemovedFields : list string; ud_TruncatedArrays : list TruncatedArray;
}.

Record StoreChangeEvent := {
  evt_EventID : string; evt_Database : string; evt_MgoColl : string; evt_MgoDocID : string;
  evt_OpType : StoreOperationType; evt_FullDocument : option StoredDoc;
  evt_UpdateDesc : option UpdateDescription;
  evt_ClusterTime : ClusterTime; evt_TxnNumber : option Z; evt_Timestamp : Z; evt_Backend : string;
}.

(** ** Buffer keys *)

(** The digits written into the buffer from its end; ten are enough for a uint32. *)
Fixpoint uint_digits (fuel : nat) (v : Z) (acc : bytes) : bytes :=
  match fuel with
  | O => acc
  | S fuel => if 0 <? v then uint_digits fuel (v / 10) (48 + v mod 10 :: acc) else acc
  end.

Definition uintToString (v : Z) : bytes := if v =? 0 then [48] else uint_digits 10 v [].

Definition formatUint32 (v : Z) : bytes :=
  let n := repeat 48 10 ++ uintToString v in
  drop (length n - 10) n.

Definition FormatBufferKey (ct : ClusterTime) (eventID : string) : bytes :=
  formatUint32 (ct_T ct) ++ [45] ++ formatUint32 (ct_I ct) ++ [45] ++ bytes_of_string eventID.

Definition BufferKey (e : StoreChangeEvent) : bytes := FormatBufferKey (evt_ClusterTime e) (evt_EventID e).

(** ** Iterators

    [iter_next] advances the iterator; after it answered true [iter_event] is the
    current event. An iterator that has ended stays ended. *)
Class EventIterator (S : Type) := {
  iter_next : S -> bool * S;
  iter_event : S -> option StoreChangeEvent;
  iter_err : S -> option string;
  iter_ended : forall s s', iter_next s = (false, s') -> iter_next s' = (false, s');
}.

(** The iterator yields the events and ends with the error, if any. *)
Inductive yields {S} `{EventIterator S} : S -> list StoreChangeEvent -> option string -> Prop :=
| yields_end s s' : iter_next s = (false, s') -> yields s [] (iter_err s')
| yields_step s s' e l err :
    iter_next s = (true, s') -> iter_event s' = Some e -> iter_err s' = None -> yields s' l err ->
    yields s (e :: l) err.

(** A slice of events with the error reported behind them. *)
Record slice_iter := SliceIter { si_current : option StoreChangeEvent; si_rest : list StoreChangeEvent; si_err : option string }.
Definition slice_next (it : slice_iter) : bool * slice_iter :=
  match si_rest it with
  | e :: rest => (true, SliceIter (Some e) rest (si_err it))
  | [] => (false, SliceIter None [] (si_err it))
  end.
#[export] Instance slice_iterator : EventIterator slice_iter.
Proof.
  refine {| iter_next := slice_next; iter_event := si_current;
            iter_err it := match si_current it, si_rest it with None, [] => si_err it | _, _ => None end |}.
  intros [c [|e l] err] s' E; cbn in *; by simplify_eq.
Defined.

Lemma slice_yields c l err : yields (SliceIter c l err) l err.
Proof.
  revert c; induction l as [|e l IH]; intros c.
  - change err with (iter_err (SliceIter None [] err)) at 2. by apply (yields_end (H := slice_iterator)).
  - by eapply (yields_step (H := slice_iterator)).
Qed.

Lemma yields_ended {S} `{EventIterator S} s s' l err :
  yields s l err -> iter_next s = (false, s') -> l = [] /\ err = iter_err s'.
Proof. intros Hy E. destruct Hy; rewrite E in *; by simplify_eq. Qed.

(** ** Order *)
Lemma ct_Compare_lex c d : ct_Compare c d = then_compare (ct_T c ?= ct_T d) (ct_I c ?= ct_I d).
Proof.
  unfold ct_Compare. destruct (Z.compare_spec (ct_T c) (ct_T d)), (Z.compare_spec (ct_I c) (ct_I d)); cbn;
    repeat match goal with |- context [?a <? ?b] => destruct (Z.ltb_spec a b); try lia end; done.
Qed.

Lemma ct_Compare_eq c d : ct_Compare c d = Eq <-> c = d.
Proof.
  rewrite ct_Compare_lex. destruct c as [t i], d as [t' i']; cbn.
  destruct (Z.compare_spec t t'), (Z.compare_spec i i'); cbn; split; intros E; try done; try (by subst);
    injection E; lia.
Qed.

(** Ten digits with leading zeros: the decimal expansion of [v]. *)
Fixpoint fixed_digits (n : nat) (v : Z) : bytes :=
  match n with O => [] | S n => fixed_digits n (v / 10) ++ [48 + v mod 10] end.

Lemma length_fixed_digits n v : length (fixed_digits n v) = n.
Proof. revert v; induction n; intros; cbn; [done|]. rewrite length_app, IHn. cbn; lia. Qed.

Lemma fixed_digits_zero n : fixed_digits n 0 = repeat 48 n.
Proof.
  induction n; [done|]. cbn [fixed_digits]. change (0 / 10) with 0. rewrite IHn. change (48 + 0 mod 10) with 48.
  clear. induction n; cbn; [done|]. by rewrite IHn.
Qed.

Lemma fixed_digits_compare n x y :
  0 <= x < 10 ^ Z.of_nat n -> 0 <= y < 10 ^ Z.of_nat n ->
  bytes_compare (fixed_digits n x) (fixed_digits n y) = (x ?= y).
Proof.
  revert x y; induction n as [|n IH]; intros x y Hx Hy.
  { cbn in *. destruct (Z.compare_spec x y); lia || done. }
  rewrite Nat2Z.inj_succ, Z.pow_succ_r in Hx, Hy by lia.
  cbn [fixed_digits]. rewrite bytes_compare_app by (rewrite !length_fixed_digits; done).
  rewrite IH by (split; [apply Z.div_pos; lia | apply Z.div_lt_upper_bound; lia]).
  pose proof (Z.div_mod x 10 ltac:(lia)). pose proof (Z.div_mod y 10 ltac:(lia)).
  pose proof (Z.mod_pos_bound x 10 ltac:(lia)). pose proof (Z.mod_pos_bound y 10 ltac:(lia)).
  cbn [bytes_compare].
  destruct (Z.compare_spec (x / 10) (y / 10)); cbn;
    [destruct (Z.compare_spec (48 + x mod 10) (48 + y mod 10))|..];
    destruct (Z.compare_spec x y); lia || done.
Qed.

(** The loop writes the digits without leading zeros. *)
Lemma uint_digits_fixed fuel v acc :
  0 <= v < 10 ^ Z.of_nat fuel ->
  exists k, repeat 48 k ++ uint_digits fuel v acc = fixed_digits fuel v ++ acc.
Proof.
  revert v acc; induction fuel as [|fuel IH]; intros v acc Hv; [by exists O|].
  rewrite Nat2Z.inj_succ, Z.pow_succ_r in Hv by lia. cbn [uint_digits fixed_digits].
  destruct (Z.ltb_spec 0 v).
  - destruct (IH (v / 10) (48 + v mod 10 :: acc)) as [k Hk].
    { split; [apply Z.div_pos; lia | apply Z.div_lt_upper_bound; lia]. }
    exists k. rewrite Hk, <- app_assoc. done.
  - assert (v = 0) as -> by lia. exists (S fuel). change (0 / 10) with 0. rewrite fixed_digits_zero.
    change (48 + 0 mod 10) with 48. by rewrite <- repeat_cons.
Qed.

Lemma drop_suffix (a b : bytes) n : length b = n -> drop (length (a ++ b) - n) (a ++ b) = b.
Proof. intros <-. rewrite length_app. replace (_ - _)%nat with (length a) by lia. by rewrite drop_app_length. Qed.

Lemma formatUint32_fixed v : is_u32 v -> formatUint32 v = fixed_digits 10 v.
Proof.
  unfold is_u32, formatUint32. intros Hv. cbv zeta.
  assert (exists a, repeat 48 10 ++ uintToString v = a ++ fixed_digits 10 v) as [a ->];
    [|apply drop_suffix, length_fixed_digits].
  unfold uintToString. destruct (Z.eqb_spec v 0) as [->|].
  { exists [48]. done. }
  destruct (uint_digits_fixed 10 v []) as [k Hk]; [cbn; lia|]. rewrite app_nil_r in Hk.
  assert (length (uint_digits 10 v []) <= 10)%nat as Hlen.
  { apply (f_equal length) in Hk. rewrite length_app, repeat_length, length_fixed_digits in Hk. lia. }
  exists (repeat 48 (10 - k)). rewrite <- Hk, app_assoc, <- repeat_app. do 2 f_equal.
  apply (f_equal length) in Hk. rewrite length_app, repeat_length, length_fixed_digits in Hk. lia.
Qed.

Definition is_cluster_time (c : ClusterTime) : Prop := is_u32 (ct_T c) /\ is_u32 (ct_I c).

Lemma BufferKey_compare c d i j :
  is_cluster_time c -> is_cluster_time d ->
  bytes_compare (FormatBufferKey c i) (FormatBufferKey d j)
  = then_compare (ct_Compare c d) (string_compare i j).
Proof.
  intros [HcT HcI] [HdT HdI]. unfold FormatBufferKey. rewrite !formatUint32_fixed by done.
  unfold is_u32 in *.
  rewrite bytes_compare_app by (rewrite !length_fixed_digits; done).
  rewrite fixed_digits_compare by (cbn; lia). cbn [app bytes_compare]. rewrite Z.compare_refl.
  rewrite bytes_compare_app by (rewrite !length_fixed_digits; done).
  rewrite fixed_digits_compare by (cbn; lia). cbn [app bytes_compare]. rewrite Z.compare_refl.
  rewrite ct_Compare_lex. unfold string_compare. by destruct (_ ?= _), (_ ?= _).
Qed.

(** Buffer keys order events. For [uint32] cluster times, the byte order of
    the formatted keys is the order of the cluster times, with ties broken by
    the event ID; equal keys belong to equal times and IDs. *)
Theorem FormatBufferKey_order c d i j :
  is_cluster_time c -> is_cluster_time d ->
  bytes_compare (FormatBufferKey c i) (FormatBufferKey d j)
  = then_compare (ct_Compare c d) (string_compare i j) /\
  (FormatBufferKey c i = FormatBufferKey d j -> c = d /\ i = j).
Proof.
  intros Hc Hd. split; [by apply BufferKey_compare|]. intros E.
  apply bytes_compare_eq in E. rewrite BufferKey_compare in E by done.
  destruct (ct_Compare c d) eqn:C; try done. apply ct_Compare_eq in C.
  cbn in E. by apply string_compare_eq in E.
Qed.

Lemma FormatBufferKey_order_witness :
  bytes_compare (FormatBufferKey (ClusterAt 9 4294967295) "z") (FormatBufferKey (ClusterAt 10 0) "a") = Lt.
Proof.
  rewrite (proj1 (FormatBufferKey_order (ClusterAt 9 4294967295) (ClusterAt 10 0) "z" "a"
    ltac:(split; cbv; split; congruence) ltac:(split; cbv; split; congruence))).
  reflexivity.
Defined.
