(* ===== verification/Coalescer.v ===== *)
(** * Catch-up coalescing: internal/puller/buffer/coalescer.go and
    internal/puller/core/coalescing_iterator.go

    The events of one document merged during catch-up, in batches. *)
From stdpp Require Import base list sorting gmap strings.
From Stdlib Require Import ZArith Ascii.
From S2P Require Import Prelude Value IndexStore Projection Events.
Local Open Scope Z_scope.

Record Coalescer := { co_pending : gmap string StoreChangeEvent }.
Definition NewCoalescer : Coalescer := {| co_pending := ∅ |}.

Definition docKey (collection documentID : string) : string :=
  String.append collection (String.append "/" documentID).

Definition is_delete (e : StoreChangeEvent) : bool := bool_decide (evt_OpType e = StoreOperationDelete).
Definition is_insert (e : StoreChangeEvent) : bool := bool_decide (evt_OpType e = StoreOperationInsert).
Definition is_update (e : StoreChangeEvent) : bool :=
  bool_decide (evt_OpType e = StoreOperationUpdate \/ evt_OpType e = StoreOperationReplace).

(** [None] is the cancelled pair. *)
Definition merge (existing incoming : StoreChangeEvent) : option StoreChangeEvent :=
  if is_delete incoming then (if is_insert existing then None else Some incoming)
  else if is_delete existing then Some incoming
  else if is_insert existing then
    if is_update incoming then
      Some {| evt_EventID := evt_EventID incoming; evt_Database := evt_Database incoming;
              evt_MgoColl := evt_MgoColl incoming; evt_MgoDocID := evt_MgoDocID incoming;
              evt_OpType := StoreOperationInsert; evt_FullDocument := evt_FullDocument incoming;
              evt_UpdateDesc := None; evt_ClusterTime := evt_ClusterTime incoming;
              evt_TxnNumber := evt_TxnNumber incoming; evt_Timestamp := evt_Timestamp incoming;
              evt_Backend := "" |}
    else Some incoming
  else if is_update existing && is_update incoming then Some incoming
  else Some incoming.

Definition evt_key (e : StoreChangeEvent) : string := docKey (evt_MgoColl e) (evt_MgoDocID e).

(** Every path returns nil: an event always stays pending. *)
Definition co_Add (c : Coalescer) (evt : StoreChangeEvent) : Coalescer * option StoreChangeEvent :=
  let key := evt_key evt in
  match co_pending c !! key with
  | None => ({| co_pending := <[key := evt]> (co_pending c) |}, None)
  | Some existing =>
      match merge existing evt with
      | None => ({| co_pending := delete key (co_pending c) |}, None)
      | Some merged => ({| co_pending := <[key := merged]> (co_pending c) |}, None)
      end
  end.

Definition co_FlushOne (c : Coalescer) (collection documentID : string) : Coalescer * option StoreChangeEvent :=
  let key := docKey collection documentID in
  match co_pending c !! key with
  | None => (c, None)
  | Some evt => ({| co_pending := delete key (co_pending c) |}, Some evt)
  end.

Definition co_Count (c : Coalescer) : nat := size (co_pending c).
Definition co_Clear (c : Coalescer) : Coalescer := {| co_pending := ∅ |}.

Definition key_less (a b : StoreChangeEvent) : bool := bytes_ltb (BufferKey a) (BufferKey b).

Section Flush.
Context `{SS : SliceSort}.

(** The map is ranged over in some order and the result sorted; a nil result and
    an empty one are the same slice. *)
Definition co_Flush (c : Coalescer) : Coalescer * list StoreChangeEvent :=
  if decide (co_pending c = ∅) then (c, [])
  else ({| co_pending := ∅ |}, sort_slice key_less (map snd (map_to_list (co_pending c)))).

Definition add_all (c : Coalescer) (evts : list StoreChangeEvent) : Coalescer :=
  foldl (fun c e => (co_Add c e).1) c evts.

Definition CoalesceEvents (evts : list StoreChangeEvent) : list StoreChangeEvent :=
  match evts with
  | [] => []
  | _ => (co_Flush (add_all NewCoalescer evts)).2
  end.
End Flush.

(** ** The batching iterator

    [Next] calls itself when a batch cancels out; the fuel bounds those calls. *)
Record CoalescingIterator (S : Type) := {
  ci_source : S; ci_coalescer : Coalescer; ci_buffer : option (list StoreChangeEvent);
  ci_index : Z; ci_err : option string; ci_batchSize : Z;
}.
Arguments ci_source {S}. Arguments ci_coalescer {S}. Arguments ci_buffer {S}.
Arguments ci_index {S}. Arguments ci_err {S}. Arguments ci_batchSize {S}.

Section Iterator.
Context `{SS : SliceSort} {S : Type} `{EI : EventIterator S}.

Definition NewCoalescingIterator (source : S) (batchSize : Z) : CoalescingIterator S :=
  {| ci_source := source; ci_coalescer := NewCoalescer; ci_buffer := None; ci_index := -1;
     ci_err := None; ci_batchSize := batchSize |}.

(** The loop that fills the coalescer: the source, the coalescer and the count. *)
Fixpoint read_batch (n : nat) (source : S) (c : Coalescer) (count : nat) : S * Coalescer * nat :=
  match n with
  | O => (source, c, count)
  | Datatypes.S n =>
      match iter_next source with
      | (true, source) =>
          match iter_event source with
          | Some evt => read_batch n source (co_Add c evt).1 (Datatypes.S count)
          | None => (source, c, count)   (* a nil event is dereferenced *)
          end
      | (false, source) => (source, c, count)
      end
  end.

Fixpoint ci_Next (fuel : nat) (it : CoalescingIterator S) : option (bool * CoalescingIterator S) :=
  match fuel with
  | O => None
  | Datatypes.S fuel =>
      if ci_err it is Some _ then Some (false, it)
      else
        let advanced := match ci_buffer it with
                        | Some b => if ci_index it + 1 <? Z.of_nat (length b) then Some (ci_index it + 1) else None
                        | None => None
                        end in
        match advanced with
        | Some index =>
            Some (true, {| ci_source := ci_source it; ci_coalescer := ci_coalescer it; ci_buffer := ci_buffer it;
                           ci_index := index; ci_err := ci_err it; ci_batchSize := ci_batchSize it |})
        | None =>
            let index := if ci_buffer it is Some _ then -1 else ci_index it in
            let '(source, c, count) := read_batch (Z.to_nat (ci_batchSize it)) (ci_source it) (ci_coalescer it) 0 in
            let set c buffer index err := {| ci_source := source; ci_coalescer := c; ci_buffer := buffer;
                                             ci_index := index; ci_err := err; ci_batchSize := ci_batchSize it |} in
            match iter_err source with
            | Some err => Some (false, set c None index (Some err))
            | None =>
                if (count =? 0)%nat then Some (false, set c None index None)
                else
                  let '(c, buffer) := co_Flush c in
                  match buffer with
                  | [] => ci_Next fuel (set c None index None)
                  | _ => Some (true, set c (Some buffer) 0 None)
                  end
            end
        end
  end.

Definition ci_Event (it : CoalescingIterator S) : option StoreChangeEvent :=
  match ci_buffer it with
  | Some b => if (0 <=? ci_index it) && (ci_index it <? Z.of_nat (length b)) then b !! Z.to_nat (ci_index it) else None
  | None => None
  end.
End Iterator.

(** ** What a batch leaves pending *)

(** The documents a consumer holds after an event, and after a run of events. *)
Definition effect (e : StoreChangeEvent) : option StoredDoc :=
  if is_delete e then None else evt_FullDocument e.
Definition settle (st : gmap string StoredDoc) (e : StoreChangeEvent) : gmap string StoredDoc :=
  match effect e with
  | Some d => <[evt_key e := d]> st
  | None => delete (evt_key e) st
  end.
Definition replay (st : gmap string StoredDoc) (evts : list StoreChangeEvent) : gmap string StoredDoc :=
  foldl settle st evts.

(** The events of one document, and its latest one. *)
Definition events_of (k : string) (evts : list StoreChangeEvent) : list StoreChangeEvent :=
  List.filter (fun e => String.eqb (evt_key e) k) evts.
Definition latest (k : string) (evts : list StoreChangeEvent) : option StoreChangeEvent := last (events_of k evts).

(** [p] reports the same change as [e]: all but the operation, the update
    description and the backend. *)
Definition reports (p e : StoreChangeEvent) : Prop :=
  evt_EventID p = evt_EventID e /\ evt_Database p = evt_Database e /\ evt_MgoColl p = evt_MgoColl e /\
  evt_MgoDocID p = evt_MgoDocID e /\ evt_FullDocument p = evt_FullDocument e /\
  evt_ClusterTime p = evt_ClusterTime e /\ evt_TxnNumber p = evt_TxnNumber e /\
  evt_Timestamp p = evt_Timestamp e /\ is_delete p = is_delete e.

Lemma reports_refl e : reports e e.
Proof. by repeat split. Qed.
Lemma reports_key p e : reports p e -> evt_key p = evt_key e.
Proof. intros (_ & _ & E1 & E2 & _). unfold evt_key. congruence. Qed.
Lemma reports_effect p e : reports p e -> effect p = effect e.
Proof. intros (_ & _ & _ & _ & E & _ & _ & _ & D). unfold effect. by rewrite D, E. Qed.

Lemma is_delete_insert e : is_insert e = true -> is_delete e = false.
Proof. unfold is_insert, is_delete. rewrite bool_decide_eq_true, bool_decide_eq_false. congruence. Qed.

Lemma merge_reports existing incoming p : merge existing incoming = Some p -> reports p incoming.
Proof.
  unfold merge. intros E. repeat case_match; simplify_eq; try apply reports_refl.
  repeat split. cbn. destruct (is_delete incoming); done.
Qed.

Lemma merge_insert existing incoming p :
  merge existing incoming = Some p -> is_insert p = true -> is_insert existing = true \/ is_insert incoming = true.
Proof. unfold merge. intros E Hp. repeat case_match; simplify_eq; auto. Qed.

Lemma merge_cancels existing incoming :
  merge existing incoming = None <-> is_insert existing = true /\ is_delete incoming = true.
Proof. unfold merge. repeat case_match; naive_solver. Qed.

(** What is pending for one document, from its own events. *)
Definition pend (p : option StoreChangeEvent) (e : StoreChangeEvent) : option StoreChangeEvent :=
  match p with None => Some e | Some x => merge x e end.

Lemma co_Add_lookup c e k :
  co_pending (co_Add c e).1 !! k = if String.eqb (evt_key e) k then pend (co_pending c !! k) e else co_pending c !! k.
Proof.
  unfold co_Add, pend. destruct (String.eqb_spec (evt_key e) k) as [<-|Hk];
    destruct (co_pending c !! evt_key e) as [x|] eqn:E; cbn; try destruct (merge x e) eqn:M; cbn;
    by rewrite ?lookup_insert_eq, ?lookup_delete_eq, ?lookup_insert_ne, ?lookup_delete_ne, ?E by done.
Qed.

Lemma add_all_lookup evts c k :
  co_pending (add_all c evts) !! k = foldl pend (co_pending c !! k) (events_of k evts).
Proof.
  unfold add_all, events_of. revert c; induction evts as [|e evts IH]; intros c; cbn; [done|].
  rewrite IH, co_Add_lookup. by destruct (String.eqb _ _).
Qed.

Lemma pend_spec es e :
  last es = Some e ->
  match foldl pend None es with
  | Some p => reports p e /\ (is_insert p = true -> exists i, i ∈ es /\ is_insert i = true)
  | None => is_delete e = true /\ exists i, i ∈ es /\ is_insert i = true
  end.
Proof.
  revert e; induction es as [|x es IH] using rev_ind; intros e He; [done|].
  rewrite last_snoc in He; simplify_eq. rewrite foldl_snoc.
  assert (Hin : forall i, i ∈ es -> i ∈ es ++ [e]) by set_solver.
  destruct (last es) as [e0|] eqn:L.
  2:{ apply last_None in L as ->. cbn. split; [apply reports_refl|]. intros Hi. exists e. set_solver. }
  specialize (IH e0 eq_refl). destruct (foldl pend None es) as [p|]; cbn.
  - destruct (merge p e) as [q|] eqn:M.
    + split; [by eapply merge_reports|]. intros Hq.
      destruct (merge_insert _ _ _ M Hq) as [Hp|Hi]; [|exists e; set_solver].
      destruct (proj2 IH Hp) as (i & Hi & ?). exists i; auto.
    + apply merge_cancels in M as [Hp Hd]. split; [done|]. destruct (proj2 IH Hp) as (i & Hi & ?). exists i; auto.
  - split; [apply reports_refl|]. intros Hi. exists e. set_solver.
Qed.

Lemma events_of_elem k evts e : e ∈ events_of k evts <-> e ∈ evts /\ evt_key e = k.
Proof.
  unfold events_of. rewrite !list_elem_of_In, filter_In, String.eqb_eq. done.
Qed.

Lemma latest_elem k evts e : latest k evts = Some e -> e ∈ evts /\ evt_key e = k.
Proof. intros H. apply events_of_elem. by apply last_Some_elem_of. Qed.

Lemma add_all_pending evts k :
  match co_pending (add_all NewCoalescer evts) !! k, latest k evts with
  | Some p, Some e => reports p e /\ evt_key p = k
  | None, None => True
  | None, Some e => is_delete e = true /\ exists i, i ∈ evts /\ evt_key i = k /\ is_insert i = true
  | Some _, None => False
  end.
Proof.
  rewrite add_all_lookup. cbn [NewCoalescer co_pending]. rewrite lookup_empty. unfold latest.
  destruct (last (events_of k evts)) as [e|] eqn:L.
  2:{ apply last_None in L. by rewrite L. }
  pose proof (pend_spec _ _ L) as P. destruct (foldl pend None _) as [p|].
  - destruct P as [R _]. split; [done|]. rewrite (reports_key _ _ R). by apply latest_elem in L as [_ ?].
  - destruct P as (D & i & Hi & ?). apply events_of_elem in Hi as [??]. split; eauto.
Qed.

Lemma replay_lookup evts st k :
  replay st evts !! k = match latest k evts with Some e => effect e | None => st !! k end.
Proof.
  unfold replay, latest. induction evts as [|e evts IH] using rev_ind; [done|].
  rewrite foldl_snoc. unfold events_of in *. rewrite List.filter_app. cbn. unfold settle at 1.
  destruct (String.eqb_spec (evt_key e) k) as [<-|Hk].
  - rewrite last_snoc. destruct (effect e); by rewrite ?lookup_insert_eq, ?lookup_delete_eq.
  - rewrite app_nil_r, <- IH. destruct (effect e); by rewrite ?lookup_insert_ne, ?lookup_delete_ne.
Qed.

(** ** What a batch emits *)
Section FlushFacts.
Context `{SS : SliceSort}.

Lemma co_Flush_perm c : (co_Flush c).2 ≡ₚ map snd (map_to_list (co_pending c)).
Proof.
  unfold co_Flush. destruct (decide _) as [E|]; cbn; [by rewrite E, map_to_list_empty|]. apply sort_slice_perm.
Qed.

Lemma co_Flush_sorted c : sorted_by key_less (co_Flush c).2.
Proof.
  unfold co_Flush. destruct (decide _); cbn; [constructor|]. apply sort_slice_sorted, bytes_ltb_strict_weak.
Qed.

Lemma co_Flush_empties c : (co_Flush c).1 = NewCoalescer.
Proof. unfold co_Flush, NewCoalescer. destruct c as [p]; cbn. destruct (decide _); cbn; by subst. Qed.

Lemma CoalesceEvents_flush evts : CoalesceEvents evts = (co_Flush (add_all NewCoalescer evts)).2.
Proof. destruct evts; [|done]. cbn. unfold co_Flush. by destruct (decide _). Qed.

Lemma CoalesceEvents_elem evts p :
  p ∈ CoalesceEvents evts <-> co_pending (add_all NewCoalescer evts) !! evt_key p = Some p.
Proof.
  rewrite CoalesceEvents_flush, co_Flush_perm. rewrite list_elem_of_fmap. split.
  - intros ([k q] & -> & Hq%elem_of_map_to_list). cbn. pose proof (add_all_pending evts k) as P. rewrite Hq in P.
    destruct (latest k evts); [|done]. destruct P as [_ <-]. done.
  - intros H. exists (evt_key p, p). split; [done|]. by apply elem_of_map_to_list.
Qed.

Lemma CoalesceEvents_NoDup evts : NoDup (map evt_key (CoalesceEvents evts)).
Proof.
  rewrite CoalesceEvents_flush, co_Flush_perm, map_map.
  rewrite (map_ext_in _ fst); [apply NoDup_fst_map_to_list|].
  intros [k p] Hp%list_elem_of_In%elem_of_map_to_list. cbn. pose proof (add_all_pending evts k) as P.
  rewrite Hp in P. by destruct (latest k evts); [destruct P|].
Qed.

(** With one event per document, the latest one is the only one. *)
Lemma latest_unique out p : NoDup (map evt_key out) -> p ∈ out -> latest (evt_key p) out = Some p.
Proof.
  intros Hn Hp. destruct (latest (evt_key p) out) as [q|] eqn:L.
  - apply latest_elem in L as [??]. f_equal. by eapply NoDup_map_inj_elem.
  - unfold latest in L. apply last_None in L. by pose proof (proj2 (events_of_elem (evt_key p) out p) (conj Hp eq_refl)) as E; rewrite L in E; apply elem_of_nil in E.
Qed.

Lemma latest_coalesced evts k : latest k (CoalesceEvents evts) = co_pending (add_all NewCoalescer evts) !! k.
Proof.
  destruct (co_pending _ !! k) as [p|] eqn:E.
  - pose proof (add_all_pending evts k) as P. rewrite E in P. destruct (latest k evts); [|done]. destruct P as [_ <-].
    apply latest_unique; [apply CoalesceEvents_NoDup|]. by apply CoalesceEvents_elem.
  - destruct (latest k (CoalesceEvents evts)) as [p|] eqn:L; [|done]. exfalso.
    apply latest_elem in L as [Hp <-]. apply CoalesceEvents_elem in Hp. congruence.
Qed.

(** C37: coalescing does not change what a consumer ends up with. When every
    document a batch inserts is absent before the batch, replaying the coalesced
    batch leaves the same documents as replaying the batch itself. *)
Theorem CoalesceEvents_replay st evts :
  (forall e, e ∈ evts -> is_insert e = true -> st !! evt_key e = None) ->
  replay st (CoalesceEvents evts) = replay st evts.
Proof.
  intros Hins. apply map_eq; intros k. rewrite !replay_lookup, latest_coalesced.
  pose proof (add_all_pending evts k) as P.
  destruct (co_pending _ !! k) as [p|], (latest k evts) as [e|]; try done.
  - destruct P as [R _]. by apply reports_effect.
  - destruct P as (D & i & Hi & <- & Hii). rewrite Hins by done. unfold effect. by rewrite D.
Qed.

(** What a coalesced batch holds. It is sorted by buffer key and has at most
    one event per document; each event carries the identity, time and content of
    the latest event of its document in the batch; and a document of the batch is
    missing only when its latest event is a delete and the batch inserted it. *)
Theorem CoalesceEvents_latest evts :
  sorted_by key_less (CoalesceEvents evts) /\ NoDup (map evt_key (CoalesceEvents evts)) /\
  (forall p, p ∈ CoalesceEvents evts -> exists e, latest (evt_key p) evts = Some e /\ reports p e) /\
  (forall k e, latest k evts = Some e -> (forall p, p ∈ CoalesceEvents evts -> evt_key p <> k) ->
     is_delete e = true /\ exists i, i ∈ evts /\ evt_key i = k /\ is_insert i = true).
Proof.
  split; [rewrite CoalesceEvents_flush; apply co_Flush_sorted|]. split; [apply CoalesceEvents_NoDup|]. split.
  - intros p Hp%CoalesceEvents_elem. pose proof (add_all_pending evts (evt_key p)) as P. rewrite Hp in P.
    destruct (latest _ evts) as [e|]; [|done]. exists e. by destruct P.
  - intros k e L Hno. pose proof (add_all_pending evts k) as P. rewrite L in P.
    destruct (co_pending _ !! k) as [p|] eqn:E; [|done]. destruct P as [_ <-].
    by destruct (Hno p (proj2 (CoalesceEvents_elem evts p) E)).
Qed.

(** an insert coalesced with a later update of the same document comes out
    with an empty backend name, whatever backend the two events came from. *)
Theorem coalesced_insert_loses_backend i u :
  is_insert i = true -> is_update u = true -> evt_key i = evt_key u ->
  exists p, CoalesceEvents [i; u] = [p] /\ reports p u /\ is_insert p = true /\ evt_Backend p = "".
Proof.
  intros Hi Hu Hk. assert (Hd : is_delete u = false).
  { unfold is_update, is_delete in *. rewrite bool_decide_eq_true in Hu. rewrite bool_decide_eq_false.
    by destruct Hu as [->| ->]. }
  assert (exists p, merge i u = Some p /\ is_insert p = true /\ evt_Backend p = "") as (p & M & Hp & Hb).
  { unfold merge. rewrite Hd, (is_delete_insert i Hi), Hi, Hu. eexists. split; [done|]. split; done. }
  exists p. split; [|split; [by eapply merge_reports|done]].
  apply Permutation_singleton_r. rewrite CoalesceEvents_flush, co_Flush_perm.
  assert (co_pending (add_all NewCoalescer [i; u]) = {[evt_key u := p]}) as ->; [|by rewrite map_to_list_singleton].
  apply map_eq; intros k. rewrite add_all_lookup. unfold events_of. cbn. rewrite lookup_empty, Hk.
  destruct (String.eqb_spec (evt_key u) k) as [<-|]; cbn.
  - by rewrite lookup_singleton_eq, M.
  - by rewrite lookup_singleton_ne.
Qed.
End FlushFacts.

(** ** The batched stream *)

(** The batches the iterator reads: when the source fails, the events of an
    incomplete batch are not delivered. *)
Fixpoint chunks (fuel : nat) (n : nat) (l : list StoreChangeEvent) : list (list StoreChangeEvent) :=
  match fuel, l with
  | Datatypes.S fuel, _ :: _ => take n l :: chunks fuel n (drop n l)
  | _, _ => []
  end.
Definition batches (n : nat) (l : list StoreChangeEvent) (err : option string) : list (list StoreChangeEvent) :=
  chunks (length l) n (match err with None => l | Some _ => take (length l / n * n) l end).

Section Stream.
Context `{SS : SliceSort} {S : Type} `{EI : EventIterator S}.
Implicit Types s : S.

(** A consumer that reads to the end. *)
Fixpoint ci_drain (fuel calls : nat) (it : CoalescingIterator S) : option (list StoreChangeEvent * option string) :=
  match calls with
  | O => None
  | Datatypes.S calls =>
      match ci_Next fuel it with
      | Some (true, it) =>
          match ci_Event it, ci_drain fuel calls it with
          | Some e, Some (es, err) => Some (e :: es, err)
          | _, _ => None
          end
      | Some (false, it) => Some ([], ci_err it)
      | None => None
      end
  end.

Lemma read_batch_yields n s c count l err :
  (0 < n)%nat -> yields s l err ->
  exists s', read_batch n s c count = (s', add_all c (take n l), (count + Nat.min n (length l))%nat) /\
    yields s' (drop n l) err /\ iter_err s' = if (length l <? n)%nat then err else None.
Proof.
  intros Hn Hy. revert n c count Hn. induction Hy as [s s' E|s s' e l err E Ev Hr Hy IH]; intros [|n] c count Hn; try lia;
    cbn [read_batch]; rewrite E.
  - exists s'. split; [by rewrite Nat.min_0_r, Nat.add_0_r|]. split; [|done]. by apply yields_end, (iter_ended s).
  - rewrite Ev. destruct n as [|n].
    + exists s'. cbn. split; [|done]. do 2 f_equal; lia.
    + destruct (IH (Datatypes.S n) (co_Add c e).1 (Datatypes.S count)) as (s2 & R & Y & Er); [lia|].
      exists s2. rewrite R. split; [|split; [done|exact Er]]. cbn. do 2 f_equal; lia.
Qed.

Definition idle s (n : Z) : CoalescingIterator S := NewCoalescingIterator s n.

(** One batch read from an idle iterator. *)
Lemma ci_Next_idle fuel s (n : Z) l err :
  0 < n -> yields s l err ->
  exists s', yields s' (drop (Z.to_nat n) l) err /\
    (iter_err s' = if (length l <? Z.to_nat n)%nat then err else None) /\
    ci_Next (Datatypes.S fuel) (idle s n) =
      match iter_err s' with
      | Some e => Some (false, {| ci_source := s'; ci_coalescer := add_all NewCoalescer (take (Z.to_nat n) l);
                                  ci_buffer := None; ci_index := -1; ci_err := Some e; ci_batchSize := n |})
      | None =>
          match l with
          | [] => Some (false, idle s' n)
          | _ => match CoalesceEvents (take (Z.to_nat n) l) with
                 | [] => ci_Next fuel (idle s' n)
                 | b => Some (true, {| ci_source := s'; ci_coalescer := NewCoalescer; ci_buffer := Some b;
                                       ci_index := 0; ci_err := None; ci_batchSize := n |})
                 end
          end
      end.
Proof.
  intros Hn Hy. destruct (read_batch_yields (Z.to_nat n) s NewCoalescer 0 l err) as (s' & R & Y & Er); [lia|done|].
  exists s'. split; [done|]. split; [done|].
  cbn [ci_Next idle NewCoalescingIterator ci_err ci_buffer ci_batchSize ci_source ci_coalescer ci_index].
  rewrite R. cbn. destruct (iter_err s'); [done|].
  destruct l as [|e l]; cbn [length]; [by rewrite Nat.min_0_r; destruct (Z.to_nat n)|].
  replace (Nat.min _ _ =? 0)%nat with false by (symmetry; apply Nat.eqb_neq; lia).
  rewrite CoalesceEvents_flush. pose proof (co_Flush_empties (add_all NewCoalescer (take (Z.to_nat n) (e :: l)))) as Ec.
  destruct (co_Flush _) as [c b]; cbn in *; subst c. by destruct b.
Qed.

Lemma drop_shorter (n : Z) (e : StoreChangeEvent) l : 0 < n -> (length (drop (Z.to_nat n) (e :: l)) < length (e :: l))%nat.
Proof. intros. rewrite length_drop. cbn. lia. Qed.

Lemma ci_Next_total fuel s (n : Z) l err :
  0 < n -> yields s l err -> (length l < fuel)%nat -> is_Some (ci_Next fuel (idle s n)).
Proof.
  intros Hn. revert s l; induction fuel as [|fuel IH]; intros s l Hy Hl; [lia|].
  destruct (ci_Next_idle fuel s n l err Hn Hy) as (s' & Y & _ & ->).
  destruct (iter_err s'); [by eexists|]. destruct l as [|e l]; [by eexists|].
  destruct (CoalesceEvents _); [|by eexists]. eapply IH; [done|]. pose proof (drop_shorter n e l Hn). cbn in *; lia.
Qed.

Lemma ci_Next_mono fuel fuel' it r : (fuel <= fuel')%nat -> ci_Next fuel it = Some r -> ci_Next fuel' it = Some r.
Proof.
  revert fuel' it; induction fuel as [|fuel IH]; intros [|fuel'] it Hle E; try done; [lia|].
  cbn [ci_Next] in *. repeat case_match; try done; (eapply IH; [lia|done]).
Qed.


(** An exhausted buffer is an idle iterator; a live one emits its tail first. *)
Lemma ci_drain_buffer fuel s (n : Z) b j rest err k :
  (forall calls, (k < calls)%nat -> ci_drain fuel calls (idle s n) = Some (rest, err)) ->
  (0 < fuel)%nat -> (j < length b)%nat ->
  forall calls, (length b - Datatypes.S j + k < calls)%nat ->
  ci_drain fuel calls {| ci_source := s; ci_coalescer := NewCoalescer; ci_buffer := Some b;
                         ci_index := Z.of_nat j; ci_err := None; ci_batchSize := n |}
  = Some (drop (Datatypes.S j) b ++ rest, err).
Proof.
  intros Hrest Hf. remember (length b - j)%nat as m eqn:Hm. revert j Hm.
  induction m as [|m IH]; intros j Hm Hj [|calls] Hc; try lia.
  destruct fuel as [|fuel]; [lia|]. destruct (decide (Datatypes.S j < length b)%nat) as [Hlt|Hge].
  - cbn [ci_drain ci_Next ci_err ci_buffer ci_index].
    replace (Z.of_nat j + 1) with (Z.of_nat (Datatypes.S j)) by lia.
    replace (Z.of_nat (Datatypes.S j) <? Z.of_nat (length b)) with true by (symmetry; apply Z.ltb_lt; lia).
    unfold ci_Event; cbn [ci_buffer ci_index ci_source ci_coalescer ci_err ci_batchSize].
    replace (0 <=? Z.of_nat (Datatypes.S j)) with true by (symmetry; apply Z.leb_le; lia).
    replace (Z.of_nat (Datatypes.S j) <? Z.of_nat (length b)) with true by (symmetry; apply Z.ltb_lt; lia).
    cbn [andb]. rewrite Nat2Z.id. destruct (lookup_lt_is_Some_2 b _ Hlt) as [e He]. rewrite He.
    rewrite IH by lia. by rewrite (drop_S b e (Datatypes.S j)) by done.
  - rewrite drop_ge by lia. cbn [app]. rewrite <- (Hrest (Datatypes.S calls)) by lia.
    cbn [ci_drain ci_Next ci_err ci_buffer ci_index idle NewCoalescingIterator ci_source ci_coalescer ci_batchSize].
    replace (Z.of_nat j + 1 <? Z.of_nat (length b)) with false by (symmetry; apply Z.ltb_ge; lia). done.
Qed.

Lemma length_CoalesceEvents evts : (length (CoalesceEvents evts) <= length evts)%nat.
Proof.
  rewrite <- (length_map evt_key (CoalesceEvents evts)), <- (length_map evt_key evts).
  apply NoDup_incl_length; [apply NoDup_ListNoDup, CoalesceEvents_NoDup|].
  intros k (p & <- & Hp)%in_map_iff. apply list_elem_of_In, CoalesceEvents_elem in Hp.
  pose proof (add_all_pending evts (evt_key p)) as P. rewrite Hp in P.
  destruct (latest _ evts) as [e|] eqn:L; [|done]. apply latest_elem in L as [He <-].
  apply in_map. by apply list_elem_of_In.
Qed.

Lemma chunks_fuel f f' n l : (0 < n)%nat -> (length l <= f)%nat -> (length l <= f')%nat -> chunks f n l = chunks f' n l.
Proof.
  intros Hn. revert f' l; induction f as [|f IH]; intros f' [|e l] H H';
    [by destruct f'|cbn in H; lia|by destruct f'|].
  destruct f' as [|f']; [cbn in H'; lia|]. cbn [chunks]. f_equal.
  apply IH; rewrite length_drop; cbn in *; lia.
Qed.

Lemma batches_nil n err : (0 < n)%nat -> batches n [] err = [].
Proof. intros. unfold batches. by destruct err. Qed.

Lemma batches_short n l e : (0 < n)%nat -> (length l < n)%nat -> batches n l (Some e) = [].
Proof. intros. unfold batches. rewrite Nat.div_small by done. cbn. by destruct (length l). Qed.

Lemma chunks_cons n l : (0 < n)%nat -> l <> [] -> chunks (length l) n l = take n l :: chunks (length (drop n l)) n (drop n l).
Proof.
  intros Hn. destruct l as [|e l]; [done|]. intros _. cbn [length chunks]. f_equal.
  apply chunks_fuel; rewrite ?length_drop; cbn; lia.
Qed.

Lemma batches_step n l err :
  (0 < n)%nat -> l <> [] -> err = None \/ (n <= length l)%nat ->
  batches n l err = take n l :: batches n (drop n l) err.
Proof.
  intros Hn Hl Hc. unfold batches. destruct err as [err|]; [|by apply chunks_cons].
  destruct Hc as [|Hle]; [done|]. set (m := (length l / n * n)%nat).
  assert (n <= m <= length l)%nat as Hm.
  { unfold m. pose proof (Nat.div_le_lower_bound (length l) n 1 ltac:(lia) ltac:(lia)).
    pose proof (Nat.Div0.mul_div_le (length l) n). nia. }
  rewrite (chunks_fuel _ (length (take m l))) by (rewrite ?length_take; lia).
  rewrite chunks_cons; [|done|intros E; apply (f_equal length) in E; rewrite length_take in E; cbn in E; lia].
  rewrite take_take, Nat.min_l by lia. f_equal.
  assert (drop n (take m l) = take (length (drop n l) / n * n) (drop n l)) as ->.
  { rewrite take_drop_commute. do 2 f_equal. unfold m. rewrite length_drop.
    assert (length l / n = Datatypes.S ((length l - n) / n))%nat as ->; [|lia].
    replace (length l) with (length l - n + 1 * n)%nat at 1 by lia. rewrite Nat.div_add by lia. lia. }
  apply chunks_fuel; rewrite ?length_take; lia.
Qed.

Lemma ci_drain_spec fuel s (n : Z) l err :
  0 < n -> yields s l err -> (length l < fuel)%nat ->
  forall calls, (length l < calls)%nat ->
  ci_drain fuel calls (idle s n) = Some (concat (map CoalesceEvents (batches (Z.to_nat n) l err)), err).
Proof.
  intros Hn. remember (length l) as m eqn:Hm. revert s l Hm.
  induction m as [m IH] using lt_wf_ind; intros s l -> Hy Hf [|calls] Hc; [lia|].
  destruct fuel as [|fuel]; [lia|]. destruct (ci_Next_idle fuel s n l err Hn Hy) as (s' & Y & Er & En).
  destruct (iter_err s') as [e|] eqn:E'.
  { cbn [ci_drain]. rewrite En. destruct (Nat.ltb_spec (length l) (Z.to_nat n)); [subst err|done].
    rewrite batches_short by lia. done. }
  destruct l as [|x l].
  { cbn [ci_drain]. rewrite En, batches_nil by lia.
    rewrite (proj2 (Nat.ltb_lt _ _)) in Er by (cbn; lia). by subst err. }
  pose proof (drop_shorter n x l Hn) as Hd.
  rewrite batches_step; [|lia|done|destruct (Nat.ltb_spec (length (x :: l)) (Z.to_nat n)); [by left|by right]].
  assert (Hrest : forall calls, (length (drop (Z.to_nat n) (x :: l)) < calls)%nat ->
    ci_drain (Datatypes.S fuel) calls (idle s' n)
    = Some (concat (map CoalesceEvents (batches (Z.to_nat n) (drop (Z.to_nat n) (x :: l)) err)), err)).
  { intros. eapply IH; [done|done|done|lia|done]. }
  cbn [map concat]. destruct (CoalesceEvents (take (Z.to_nat n) (x :: l))) as [|b bs] eqn:B.
  - cbn [app]. rewrite <- (Hrest (Datatypes.S calls)) by lia.
    destruct (ci_Next_total fuel s' n _ err Hn Y) as [r Hr]; [lia|].
    cbn [ci_drain]. rewrite En, Hr. by rewrite (ci_Next_mono fuel (Datatypes.S fuel) _ _ ltac:(lia) Hr).
  - pose proof (length_CoalesceEvents (take (Z.to_nat n) (x :: l))) as Hb. rewrite B, length_take in Hb.
    cbn [ci_drain]. rewrite En. unfold ci_Event at 1. cbn [ci_buffer ci_index].
    replace (0 <? Z.of_nat (length (b :: bs))) with true by (symmetry; apply Z.ltb_lt; cbn; lia).
    rewrite length_drop in Hd, Hrest.
    pose proof (ci_drain_buffer (Datatypes.S fuel) s' n (b :: bs) 0 _ err _ Hrest ltac:(lia) ltac:(cbn; lia) calls) as D.
    change (Z.of_nat 0) with 0 in D. rewrite D by (cbn [length] in *; lia). done.
Qed.

(** The batching iterator delivers the coalesced batches. Reading it to the
    end, over a source that yields [l] and ends with [err], gives the events of
    each batch of [n] coalesced on its own, in order, and the source's error; it
    ends after at most one call per source event and one more. The events of a
    batch cut short by an error are not delivered. *)
Theorem coalescing_stream s (n : Z) l err :
  0 < n -> yields s l err ->
  ci_drain (Datatypes.S (length l)) (Datatypes.S (length l)) (NewCoalescingIterator s n)
  = Some (concat (map CoalesceEvents (batches (Z.to_nat n) l err)), err).
Proof. intros Hn Hy. apply (ci_drain_spec _ s n l err Hn Hy); lia. Qed.
End Stream.

(** ** Samples *)
Definition sample_event (op : StoreOperationType) (id : string) (t : Z) (doc : option StoredDoc) : StoreChangeEvent := {|
  evt_EventID := id; evt_Database := "db"; evt_MgoColl := "documents"; evt_MgoDocID := "d1"; evt_OpType := op;
  evt_FullDocument := doc; evt_UpdateDesc := None; evt_ClusterTime := ClusterAt t 0; evt_TxnNumber := None;
  evt_Timestamp := t; evt_Backend := "main" |}.
Definition sample_doc : StoredDoc := {|
  doc_Id := "d1"; doc_Database := "db"; doc_Fullpath := "users/d1"; doc_Collection := "users";
  doc_CollectionHash := ""; doc_Parent := ""; doc_UpdatedAt := 0;
  doc_CreatedAt := 0; doc_Version := 1; doc_Data := ∅; doc_Deleted := false |}.

Definition sample_inserted : list StoreChangeEvent :=
  [sample_event StoreOperationInsert "e1" 1 (Some sample_doc); sample_event StoreOperationUpdate "e2" 2 (Some sample_doc);
   sample_event StoreOperationDelete "e3" 3 None].
(** A document that exists is deleted, created again and deleted again. *)
Definition sample_recreated : list StoreChangeEvent :=
  [sample_event StoreOperationDelete "e1" 1 None; sample_event StoreOperationInsert "e2" 2 (Some sample_doc);
   sample_event StoreOperationDelete "e3" 3 None].

(** An insert arrives only for a document that does not exist. *)
Fixpoint inserts_absent (st : gmap string StoredDoc) (evts : list StoreChangeEvent) : bool :=
  match evts with
  | [] => true
  | e :: evts => negb (is_insert e && bool_decide (is_Some (st !! evt_key e))) && inserts_absent (settle st e) evts
  end.

Lemma sample_recreated_coalesced `{SS : SliceSort} : CoalesceEvents sample_recreated = [].
Proof.
  apply elem_of_nil_inv. intros p Hp%CoalesceEvents_elem. rewrite add_all_lookup in Hp. revert Hp.
  unfold sample_recreated, events_of. cbn. rewrite lookup_empty. by destruct (String.eqb _ _).
Qed.

(** coalescing can lose a delete. A document present before the batch is
    deleted, inserted again and deleted again (a history in which every insert
    creates an absent document); the insert and the last delete cancel out, the
    coalesced batch is empty, and the consumer keeps the document. *)
Theorem coalescing_loses_delete `{SS : SliceSort} :
  let st : gmap string StoredDoc := ({[ "documents/d1" := sample_doc ]}) in
  inserts_absent st sample_recreated = true /\ CoalesceEvents sample_recreated = [] /\
  (replay st sample_recreated) !! "documents/d1" = None /\
  (replay st (CoalesceEvents sample_recreated)) !! "documents/d1" = Some sample_doc.
Proof.
  cbv zeta. rewrite sample_recreated_coalesced. split; [|split; [done|split]]; vm_compute; done.
Qed.

Lemma CoalesceEvents_replay_witness :
  replay ∅ (CoalesceEvents (SS := insertion_slice_sort) sample_inserted) = replay ∅ sample_inserted.
Proof. apply CoalesceEvents_replay. intros e _ _. apply lookup_empty. Defined.

Lemma coalesced_insert_loses_backend_witness :
  exists p, CoalesceEvents (SS := insertion_slice_sort) (take 2 sample_inserted) = [p] /\ evt_Backend p = "".
Proof.
  destruct (coalesced_insert_loses_backend (SS := insertion_slice_sort)
    (sample_event StoreOperationInsert "e1" 1 (Some sample_doc)) (sample_event StoreOperationUpdate "e2" 2 (Some sample_doc)))
    as (p & E & _ & _ & B); [reflexivity..|]. exists p. exact (conj E B).
Defined.

Lemma coalescing_stream_witness :
  ci_drain (SS := insertion_slice_sort) 4 4 (NewCoalescingIterator (SliceIter None sample_inserted (Some "closed")) 2)
  = Some (CoalesceEvents (SS := insertion_slice_sort) (take 2 sample_inserted), Some "closed").
Proof.
  exact (coalescing_stream (SS := insertion_slice_sort) (SliceIter None sample_inserted (Some "closed")) 2 sample_inserted
    (Some "closed") ltac:(reflexivity) (slice_yields _ _ _)).
Defined.
