(* ===== verification/Merge.v ===== *)
(** * Merging the backends: internal/puller/core/merge_iterator.go

    One ordered stream from the iterators of several backends. *)
From stdpp Require Import base list sorting gmap strings.
From Stdlib Require Import ZArith Ascii.
From S2P Require Import Prelude Value IndexStore Projection Events Coalescer.
Local Open Scope Z_scope.

Record item := Item { item_event : StoreChangeEvent; item_iterID : nat }.

(** The order of the stream: cluster time, then backend name. *)
Definition evt_less (a b : StoreChangeEvent) : bool :=
  match ct_Compare (evt_ClusterTime a) (evt_ClusterTime b) with
  | Lt => true
  | Gt => false
  | Eq => string_ltb (evt_Backend a) (evt_Backend b)
  end.
Definition item_less (a b : item) : bool := evt_less (item_event a) (item_event b).

Record MergeIterator (S : Type) := {
  mi_iterators : list S; mi_pq : list item; mi_err : option string; mi_current : option StoreChangeEvent;
}.
Arguments mi_iterators {S}. Arguments mi_pq {S}. Arguments mi_err {S}. Arguments mi_current {S}.

Section Merge.
Context `{GH : GoHeap} {S : Type} `{EI : EventIterator S}.

(** The first event of each iterator; an iterator that fails at once leaves its
    error, the last one found. *)
Fixpoint init_queue (i : nat) (iters : list S) (pq : list item) (err : option string)
    : list S * list item * option string :=
  match iters with
  | [] => ([], pq, err)
  | iter :: iters =>
      let '(more, iter) := iter_next iter in
      let '(pq, err) :=
        if (more : bool) then
          match iter_event iter with
          | Some e => (heap_push item_less pq (Item e i), err)
          | None => (pq, err)   (* the queue never compares a nil event *)
          end
        else (pq, match iter_err iter with Some e => Some e | None => err end) in
      let '(iters, pq, err) := init_queue (Datatypes.S i) iters pq err in
      (iter :: iters, pq, err)
  end.

Definition NewMergeIterator (iters : list S) : MergeIterator S :=
  let '(iters, pq, err) := init_queue 0 iters [] None in
  {| mi_iterators := iters; mi_pq := pq; mi_err := err; mi_current := None |}.

Definition mi_Next (mi : MergeIterator S) : bool * MergeIterator S :=
  match mi_err mi, mi_pq mi with
  | Some _, _ | None, [] => (false, mi)
  | None, (top :: _) as pq =>
      let pq := heap_pop item_less pq in
      let current := Some (item_event top) in
      match mi_iterators mi !! item_iterID top with
      | None => (false, mi)   (* an index out of range; iterIDs are positions of the slice *)
      | Some iter =>
          let '(more, iter) := iter_next iter in
          let set pq err := {| mi_iterators := <[item_iterID top := iter]> (mi_iterators mi); mi_pq := pq;
                               mi_err := err; mi_current := current |} in
          if (more : bool) then
            match iter_event iter with
            | Some e => (true, set (heap_push item_less pq (Item e (item_iterID top))) (mi_err mi))
            | None => (true, set pq (mi_err mi))
            end
          else match iter_err iter with
               | Some err => (false, set pq (Some err))
               | None => (true, set pq (mi_err mi))
               end
      end
  end.

#[export] Instance merge_iterator : EventIterator (MergeIterator S).
Proof.
  refine {| iter_next := mi_Next; iter_event := mi_current; iter_err := mi_err |}.
  intros mi mi' E. unfold mi_Next in E. repeat case_match; simplify_eq/=;
    try (unfold mi_Next; repeat case_match; simplify_eq/=; done).
Defined.
End Merge.

(** ** Order of the stream *)
Definition evt_rank (e : StoreChangeEvent) : bytes :=
  ct_T (evt_ClusterTime e) :: ct_I (evt_ClusterTime e) :: bytes_of_string (evt_Backend e).

Lemma evt_less_rank a b : evt_less a b = bytes_ltb (evt_rank a) (evt_rank b).
Proof.
  unfold evt_less, bytes_ltb, evt_rank, string_ltb. cbn [bytes_compare]. rewrite ct_Compare_lex.
  by destruct (_ ?= _), (_ ?= _).
Qed.

Lemma evt_less_strict_weak {A} (f : A -> StoreChangeEvent) : strict_weak (fun a b => evt_less (f a) (f b)).
Proof.
  pose proof (bytes_ltb_strict_weak (fun a => evt_rank (f a))) as [I T C].
  split; intros *; rewrite !evt_less_rank; [apply I|apply T|apply C].
Qed.
Lemma item_less_strict_weak : strict_weak item_less.
Proof. apply (evt_less_strict_weak item_event). Qed.

(** ** Queued heads

    [heads] has the queued event of each iterator, if it has one. *)
Definition head_item (i : nat) (h : option StoreChangeEvent) : list item :=
  match h with Some e => [Item e i] | None => [] end.
Definition head_items (off : nat) (hs : list (option StoreChangeEvent)) : list item :=
  concat (imap (fun i h => head_item (off + i) h) hs).

Lemma head_items_cons off h hs : head_items off (h :: hs) = head_item off h ++ head_items (Datatypes.S off) hs.
Proof.
  unfold head_items. cbn. rewrite Nat.add_0_r. do 2 f_equal. apply imap_ext. intros. cbn. f_equal. lia.
Qed.

Lemma head_items_insert off hs i h :
  (i < length hs)%nat ->
  head_items off (<[i := h]> hs) ≡ₚ head_item (off + i) h ++ head_items off (<[i := None]> hs).
Proof.
  revert off i; induction hs as [|x hs IH]; intros off [|i] Hi; cbn in Hi; try lia; cbn [insert list_insert];
    rewrite !head_items_cons.
  - by rewrite Nat.add_0_r.
  - rewrite IH by lia. replace (Datatypes.S off + i)%nat with (off + Datatypes.S i)%nat by lia.
    apply Permutation_app_swap_app.
Qed.

Lemma head_items_elem off hs e i :
  Item e i ∈ head_items off hs -> exists j, i = (off + j)%nat /\ hs !! j = Some (Some e).
Proof.
  revert off; induction hs as [|h hs IH]; intros off; [by intros ?%elem_of_nil|].
  rewrite head_items_cons, elem_of_app. intros [H|H].
  - exists O. rewrite Nat.add_0_r. destruct h; cbn in H; [|by apply elem_of_nil in H].
    apply list_elem_of_singleton in H. by simplify_eq.
  - apply IH in H as (j & -> & ?). exists (Datatypes.S j). split; [lia|done].
Qed.

Lemma concat_insert {A} (rs : list (list A)) i r :
  (i < length rs)%nat -> concat (<[i := r]> rs) ≡ₚ r ++ concat (<[i := []]> rs).
Proof.
  revert i; induction rs as [|x rs IH]; intros [|i] Hi; cbn in *; try lia; [done|].
  rewrite IH by lia. apply Permutation_app_swap_app.
Qed.

Section MergeFacts.
Context `{GH : GoHeap} {S : Type} `{EI : EventIterator S}.

(** What an iterator still has to deliver: its queued head and what it yields. *)
Definition tracks (s : S) (h : option StoreChangeEvent) (r : list StoreChangeEvent) (err : option string) : Prop :=
  match h with
  | Some e => exists l, r = e :: l /\ yields s l err /\ sorted_by evt_less r
  | None => r = [] /\ err = None
  end.

Record merging (mi : MergeIterator S) (rs : list (list StoreChangeEvent)) (errs : list (option string))
    (hs : list (option StoreChangeEvent)) : Prop := {
  mg_err : mi_err mi = None;
  mg_ok : heap_ok item_less (mi_pq mi);
  mg_pq : mi_pq mi ≡ₚ head_items 0 hs;
  mg_rs : length rs = length hs;
  mg_tracks i h : hs !! i = Some h -> exists s r err,
    mi_iterators mi !! i = Some s /\ rs !! i = Some r /\ errs !! i = Some err /\ tracks s h r err;
}.

(** No remaining event comes before the first queued one. *)
Lemma merging_least mi rs errs hs top pq e :
  merging mi rs errs hs -> mi_pq mi = top :: pq -> e ∈ concat rs -> evt_less e (item_event top) = false.
Proof.
  intros M Hpq (r & [i Hi]%list_elem_of_In%list_elem_of_lookup & He%list_elem_of_In)%list_elem_of_In%in_concat.
  destruct (lookup_lt_is_Some_2 hs i) as [h Hh]; [rewrite <- (mg_rs _ _ _ _ M); by eapply lookup_lt_Some|].
  destruct (mg_tracks _ _ _ _ M i h Hh) as (s & r' & err & _ & Hr & _ & T). simplify_eq.
  destruct h as [e0|]; cbn in T; [|destruct T as [-> _]; by apply elem_of_nil in He].
  destruct T as (l & -> & _ & Hs).
  assert (Ht : evt_less e0 (item_event top) = false).
  { assert (Item e0 i ∈ top :: pq) as Hin.
    { rewrite <- Hpq, (mg_pq _ _ _ _ M), <- (list_insert_id hs i (Some e0)) by done.
      rewrite head_items_insert by (by eapply lookup_lt_Some). cbn. set_solver. }
    pose proof (mg_ok _ _ _ _ M) as Hok. rewrite Hpq in Hok.
    exact (heap_top_least item_less item_less_strict_weak _ _ _ Hok Hin). }
  apply elem_of_cons in He as [->|He]; [done|].
  apply StronglySorted_inv in Hs as [_ Hs]. rewrite Forall_forall in Hs. specialize (Hs e He).
  destruct (evt_less e (item_event top)) eqn:E; [|done].
  destruct (sw_incomparable _ (evt_less_strict_weak id) e (item_event top) e0 E); cbn in *; congruence.
Qed.

Lemma merging_top mi rs errs hs e i pq :
  merging mi rs errs hs -> mi_pq mi = Item e i :: pq ->
  hs !! i = Some (Some e) /\ heap_pop item_less (mi_pq mi) ≡ₚ head_items 0 (<[i := None]> hs) /\
  heap_ok item_less (heap_pop item_less (mi_pq mi)).
Proof.
  intros M Hpq. assert (Hh : hs !! i = Some (Some e)).
  { destruct (head_items_elem 0 hs e i) as (j & -> & ?); [|done]. rewrite <- (mg_pq _ _ _ _ M), Hpq. set_solver. }
  split; [done|]. rewrite Hpq. split.
  - rewrite heap_pop_perm. apply (Permutation_cons_inv (a := Item e i)).
    rewrite <- Hpq, (mg_pq _ _ _ _ M), <- (list_insert_id hs i (Some e)) at 1 by done.
    rewrite head_items_insert by (by eapply lookup_lt_Some). done.
  - apply heap_ok_pop; [apply item_less_strict_weak|]. rewrite <- Hpq. apply (mg_ok _ _ _ _ M).
Qed.

(** The queue once the next head of iterator [i] is pushed, if there is one. *)
Lemma merging_pushed hs i h pq :
  (i < length hs)%nat -> pq ≡ₚ head_items 0 (<[i := None]> hs) -> heap_ok item_less pq ->
  let pq := match h with Some e => heap_push item_less pq (Item e i) | None => pq end in
  pq ≡ₚ head_items 0 (<[i := h]> hs) /\ heap_ok item_less pq.
Proof.
  intros Hi P Ok. destruct h as [e|]; cbn; [|done].
  split; [by rewrite heap_push_perm, head_items_insert, P|].
  by apply heap_ok_push; [apply item_less_strict_weak|].
Qed.

Lemma merging_advance mi rs errs hs i s s' e l err pq cur :
  merging mi rs errs hs -> mi_iterators mi !! i = Some s -> hs !! i = Some (Some e) ->
  errs !! i = Some err -> tracks s' (head l) l err ->
  pq ≡ₚ head_items 0 (<[i := head l]> hs) -> heap_ok item_less pq ->
  merging {| mi_iterators := <[i := s']> (mi_iterators mi); mi_pq := pq; mi_err := mi_err mi; mi_current := cur |}
    (<[i := l]> rs) errs (<[i := head l]> hs).
Proof.
  intros [Me Mo Mp Mr Mt] Hs Hh He T P Ok. split; cbn; try done; [by rewrite !length_insert|].
  intros j h Hj. destruct (decide (i = j)) as [<-|Hne].
  - apply lookup_lt_Some in Hh as Hlt. rewrite list_lookup_insert_eq in Hj by done. simplify_eq.
    exists s', l, err. rewrite !list_lookup_insert_eq by (rewrite ?Mr; eauto using lookup_lt_Some). done.
  - rewrite list_lookup_insert_ne in Hj by done. destruct (Mt j h Hj) as (t & r & er & ? & ? & ? & ?).
    exists t, r, er. by rewrite !list_lookup_insert_ne by done.
Qed.

(** One call: the first queued event is delivered and its iterator advanced, or
    the iterator's failure ends the stream. *)
Lemma merging_next mi rs errs hs top pq :
  merging mi rs errs hs -> mi_pq mi = top :: pq ->
  exists i l err mi', rs !! i = Some (item_event top :: l) /\ errs !! i = Some err /\
    ((is_Some err /\ mi_Next mi = (false, mi') /\ mi_err mi' = err) \/
     (mi_Next mi = (true, mi') /\ mi_current mi' = Some (item_event top) /\
      exists hs', merging mi' (<[i := l]> rs) errs hs')).
Proof.
  intros M Hpq. destruct top as [e i]. destruct (merging_top _ _ _ _ _ _ _ M Hpq) as (Hh & P & Ok).
  destruct (mg_tracks _ _ _ _ M i _ Hh) as (s & r & err & Hs & Hr & He & (l & -> & Hy & Hsort)).
  apply lookup_lt_Some in Hh as Hlt. exists i, l, err.
  assert (Hnext : forall h, let pq := match h with Some e => heap_push item_less (heap_pop item_less (mi_pq mi)) (Item e i)
                                               | None => heap_pop item_less (mi_pq mi) end in _) by
    (intros h; exact (merging_pushed hs i h _ Hlt P Ok)).
  apply StronglySorted_inv in Hsort as [Hsort _].
  unfold mi_Next. rewrite (mg_err _ _ _ _ M), Hpq. cbn [item_iterID item_event]. rewrite Hs, <- Hpq.
  inversion Hy as [? s' E|? s' e' l' ? E Ev Er Hy']; subst; rewrite E.
  - destruct (iter_err s') as [er|] eqn:Ee; eexists; (split; [done|]); (split; [done|]); [left|right].
    + split; [by eexists|]. done.
    + split; [done|]. split; [done|]. eexists.
      rewrite <- (mg_err _ _ _ _ M). by eapply (merging_advance _ _ _ _ i s s' e [] None); try apply (Hnext None).
  - rewrite Ev. eexists. split; [done|]. split; [done|]. right. split; [done|]. split; [done|]. eexists.
    rewrite <- (mg_err _ _ _ _ M).
    eapply (merging_advance _ _ _ _ i s s' e (e' :: l') err); try apply (Hnext (Some e')); try done.
    exists l'. done.
Qed.

Lemma merging_empty mi rs errs hs :
  merging mi rs errs hs -> length errs = length hs -> mi_pq mi = [] -> concat rs = [] /\ Forall (fun e => e = None) errs.
Proof.
  intros M Hl Hpq. pose proof (mg_pq _ _ _ _ M) as P. rewrite Hpq in P. apply Permutation_nil in P.
  assert (Hn : forall i h, hs !! i = Some h -> rs !! i = Some [] /\ errs !! i = Some None).
  { intros i h Hh. destruct (mg_tracks _ _ _ _ M i h Hh) as (s & r & err & _ & -> & -> & T).
    destruct h as [e|]; [|by destruct T as [-> ->]]. exfalso.
    apply (not_elem_of_nil (Item e i)). rewrite <- P, <- (list_insert_id hs i (Some e)) by done.
    rewrite head_items_insert by (by eapply lookup_lt_Some). cbn. set_solver. }
  split.
  - apply elem_of_nil_inv. intros e (r & [i Hi]%list_elem_of_In%list_elem_of_lookup & He%list_elem_of_In)%list_elem_of_In%in_concat.
    destruct (lookup_lt_is_Some_2 hs i) as [h Hh]; [rewrite <- (mg_rs _ _ _ _ M); by eapply lookup_lt_Some|].
    destruct (Hn i h Hh) as [? _]. simplify_eq. by apply elem_of_nil in He.
  - apply Forall_lookup. intros i er Hi.
    destruct (lookup_lt_is_Some_2 hs i) as [h Hh]; [rewrite <- Hl; by eapply lookup_lt_Some|].
    destruct (Hn i h Hh) as [_ ?]. by simplify_eq.
Qed.

Definition merged (errs : list (option string)) (rs out rest : list StoreChangeEvent) (err : option string) : Prop :=
  sorted_by evt_less out /\ out ++ rest ≡ₚ rs /\
  (err = None -> rest = []) /\ (err = None <-> Forall (fun e => e = None) errs).

Lemma failed_not_all (errs : list (option string)) i err : errs !! i = Some err -> is_Some err -> Forall (fun e => e = None) errs -> False.
Proof. intros Hi [x ->] F. rewrite Forall_lookup in F. by specialize (F i _ Hi). Qed.

Lemma mi_yields_end (mi mi' : MergeIterator S) : mi_Next mi = (false, mi') -> yields mi [] (mi_err mi').
Proof. intros E. exact (yields_end (H := merge_iterator) mi mi' E). Qed.

Lemma merging_yields m mi rs errs hs :
  length (concat rs) = m -> merging mi rs errs hs -> length errs = length rs ->
  exists out rest err, yields mi out err /\ merged errs (concat rs) out rest err.
Proof.
  revert mi rs hs; induction m as [m IH] using lt_wf_ind; intros mi rs hs Hm M Hl.
  destruct (mi_pq mi) as [|top pq] eqn:Hpq.
  { destruct (merging_empty _ _ _ _ M) as [Er Fe]; [by rewrite Hl, (mg_rs _ _ _ _ M)|done|].
    exists [], [], None. split.
    - rewrite <- (mg_err _ _ _ _ M). apply mi_yields_end. unfold mi_Next. by rewrite (mg_err _ _ _ _ M), Hpq.
    - rewrite Er. split; [constructor|]. split; [done|]. split; [done|]. done. }
  destruct (merging_next _ _ _ _ _ _ M Hpq) as (i & l & err & mi' & Hr & He & [(Hf & En & Ee)|(En & Ec & hs' & M')]).
  { exists [], (concat rs), err. split; [rewrite <- Ee; by apply mi_yields_end|].
    split; [constructor|]. split; [done|]. destruct Hf as [x ->].
    split; [done|]. split; [done|]. intros F. exfalso. exact (failed_not_all errs i (Some x) He ltac:(by eexists) F). }
  assert (P : concat rs ≡ₚ item_event top :: concat (<[i := l]> rs)).
  { rewrite <- (list_insert_id rs i (item_event top :: l)) at 1 by done.
    pose proof (lookup_lt_Some _ _ _ Hr) as Hi. by rewrite (concat_insert rs i (_ :: l) Hi), (concat_insert rs i l Hi). }
  assert (Hlt : (length (concat (<[i := l]> rs)) < m)%nat) by (rewrite <- Hm, P; cbn; lia).
  destruct (IH _ Hlt mi' _ hs' eq_refl M') as (out & rest & err' & Hy & Hs & Hp & Hn & Ha);
    [by rewrite length_insert|].
  exists (item_event top :: out), rest, err'. split.
  - eapply (yields_step (H := merge_iterator)); [exact En|exact Ec|exact (mg_err _ _ _ _ M')|done].
  - split; [|split; [cbn; by rewrite P, Hp|done]].
    constructor; [done|]. apply Forall_forall. intros e Hin.
    eapply (merging_least _ _ _ _ _ _ e M Hpq). rewrite P, <- Hp. set_solver.
Qed.

(** ** The first heads *)
Lemma init_queue_spec off iters ls errs pq err0 :
  Forall3 (fun s l err => yields s l err /\ sorted_by evt_less l) iters ls errs ->
  heap_ok item_less pq ->
  exists iters' pq' err' hs, init_queue off iters pq err0 = (iters', pq', err') /\
    pq' ≡ₚ head_items off hs ++ pq /\ heap_ok item_less pq' /\ length hs = length ls /\
    (err' = None -> err0 = None /\ forall i h, hs !! i = Some h -> exists s r err,
       iters' !! i = Some s /\ ls !! i = Some r /\ errs !! i = Some err /\ tracks s h r err) /\
    (is_Some err' -> is_Some err0 \/ ~ Forall (fun e => e = None) errs).
Proof.
  intros F. revert off pq err0; induction F as [|s l err iters ls errs [Hy Hs] F IH]; intros off pq err0 Hok.
  { exists [], pq, err0, []. do 4 (split; [done|]). split; [|by left]. intros ->. split; [done|]. by intros i h Hh. }
  inversion Hy as [? s' E|? s' e l' ? E Ev Er Hy']; subst; cbn [init_queue]; rewrite E.
  - destruct (IH (Datatypes.S off) pq (match iter_err s' with Some e => Some e | None => err0 end) Hok)
      as (iters' & pq' & err' & hs & -> & P & Ok & Hl & Hn & Hf).
    exists (s' :: iters'), pq', err', (None :: hs). split; [done|]. split; [by rewrite head_items_cons|].
    split; [done|]. split; [cbn; lia|]. split.
    + intros He. destruct (Hn He) as [Hz Ht]. destruct (iter_err s') eqn:Es; [done|]. split; [done|].
      intros [|i] h Hh; cbn in *; [|by apply Ht]. simplify_eq. by exists s', [], None.
    + intros He. destruct (Hf He) as [Hz|Hz]; [|right; intros [? ?]%Forall_cons; done].
      destruct (iter_err s'); [right; intros [? ?]%Forall_cons; done|by left].
  - rewrite Ev.
    destruct (IH (Datatypes.S off) (heap_push item_less pq (Item e off)) err0)
      as (iters' & pq' & err' & hs & -> & P & Ok & Hl & Hn & Hf);
      [by apply heap_ok_push; [apply item_less_strict_weak|]|].
    exists (s' :: iters'), pq', err', (Some e :: hs). split; [done|].
    split. { rewrite P, heap_push_perm, head_items_cons. cbn. by rewrite Permutation_middle. }
    split; [done|]. split; [cbn; lia|]. split.
    + intros He. destruct (Hn He) as [Hz Ht]. split; [done|].
      intros [|i] h Hh; cbn in *; [|by apply Ht]. simplify_eq. exists s', (e :: l'), err. do 3 (split; [done|]). by exists l'.
    + intros He. destruct (Hf He) as [Hz|Hz]; [by left|right; intros [? ?]%Forall_cons; done].
Qed.

(** C35: the merge of the backends. Over iterators that yield sorted streams, the
    merged iterator ends, and its stream is sorted by cluster time and backend.
    It ends without an error exactly when every iterator does, and then delivers
    every event of every iterator exactly once; when one fails it delivers part of
    them and ends with an error. *)
Theorem merge_stream iters ls errs :
  Forall3 (fun s l err => yields s l err /\ sorted_by evt_less l) iters ls errs ->
  exists out rest err, yields (NewMergeIterator iters) out err /\
    sorted_by evt_less out /\ out ++ rest ≡ₚ concat ls /\
    (err = None -> rest = []) /\ (err = None <-> Forall (fun e => e = None) errs).
Proof.
  intros F. unfold NewMergeIterator.
  destruct (init_queue_spec 0 iters ls errs [] None F (heap_ok_nil item_less))
    as (iters' & pq & err & hs & -> & P & Ok & Hl & Hn & Hf). rewrite app_nil_r in P.
  destruct err as [er|].
  - exists [], (concat ls), (Some er). set (mi := {| mi_iterators := iters'; mi_pq := pq; mi_err := Some er; mi_current := None |}). split; [exact (mi_yields_end mi mi eq_refl)|].
    split; [constructor|]. split; [done|]. split; [done|]. split; [done|]. intros Fe.
    destruct (Hf ltac:(by eexists)) as [[? ?]|]; done.
  - destruct (Hn eq_refl) as [_ Ht]. apply (merging_yields _ _ ls errs hs eq_refl).
    + split; cbn; auto.
    + by rewrite <- (Forall3_length_lm _ _ _ _ F), (Forall3_length_lr _ _ _ _ F).
Qed.
End MergeFacts.

(** Two backends, the second one ahead in time. *)
Definition backend_event (backend id : string) (t : Z) : StoreChangeEvent := {|
  evt_EventID := id; evt_Database := "db"; evt_MgoColl := "documents"; evt_MgoDocID := id;
  evt_OpType := StoreOperationUpdate; evt_FullDocument := None; evt_UpdateDesc := None;
  evt_ClusterTime := ClusterAt t 0; evt_TxnNumber := None; evt_Timestamp := t; evt_Backend := backend |}.
Definition backend_a := [backend_event "a" "a1" 1; backend_event "a" "a2" 5].
Definition backend_b := [backend_event "b" "b1" 2].

Lemma merge_stream_witness :
  exists out, yields (H := merge_iterator (GH := sorted_heap))
    (NewMergeIterator (GH := sorted_heap) [SliceIter None backend_a None; SliceIter None backend_b None]) out None /\
    sorted_by evt_less out /\ out ≡ₚ backend_a ++ backend_b.
Proof.
  destruct (merge_stream (GH := sorted_heap) [SliceIter None backend_a None; SliceIter None backend_b None]
    [backend_a; backend_b] [None; None]) as (out & rest & err & Hy & Hs & Hp & Hn & He).
  - repeat constructor; try apply slice_yields; cbn; repeat constructor.
  - assert (err = None) as -> by (apply He; repeat constructor). rewrite Hn in Hp by reflexivity.
    rewrite app_nil_r in Hp. exists out. exact (conj Hy (conj Hs Hp)).
Defined.
