(* ===== verification/Progress.v ===== *)
(** * Progress markers and event identifiers: internal/puller/cursor/progress.go
    and internal/puller/normalizer/normalizer.go (generateEventID, ParseEventID)

    The position of a consumer on each backend, and the cluster time an event
    identifier carries. *)
From stdpp Require Import base list sorting gmap strings.
From Stdlib Require Import ZArith Ascii.
From S2P Require Import Prelude Value IndexStore Codec Projection Events.
Local Open Scope Z_scope.

(** A nil map of positions reads as the empty one. *)
Record ProgressMarker := { pm_Positions : gmap string string; pm_Lineages : option (gmap string string) }.
Definition NewProgressMarker : ProgressMarker := {| pm_Positions := ∅; pm_Lineages := None |}.

Definition SetPosition (pm : ProgressMarker) (backend eventID : string) : ProgressMarker :=
  {| pm_Positions := <[backend := eventID]> (pm_Positions pm); pm_Lineages := pm_Lineages pm |}.
Definition GetPosition (pm : ProgressMarker) (backend : string) : string := default "" (pm_Positions pm !! backend).
(** A copy of every entry; a nil marker is an empty one. *)
Definition pm_Clone (pm : option ProgressMarker) : ProgressMarker :=
  match pm with
  | None => NewProgressMarker
  | Some pm => {| pm_Positions := pm_Positions pm; pm_Lineages := pm_Lineages pm |}
  end.

(** A map of strings: [json.Marshal] writes its keys in byte order. *)
Definition json_string_map (m : gmap string string) : bytes :=
  json_object (map (fun k => (k, json_string (default "" (m !! k)))) (sort_strings (map fst (map_to_list m)))).

(** [base64.RawURLEncoding.EncodeToString]. *)
Definition b64url_encode (l : bytes) : bytes :=
  map (fun b => if b =? 43 then 45 else if b =? 47 then 95 else b) (List.filter (fun b => negb (b =? 61)) (b64_encode l)).

Definition pm_Encode (pm : option ProgressMarker) : string :=
  match pm with
  | None => ""
  | Some pm =>
      if decide (pm_Positions pm = ∅) then ""
      else
        let lineages := default ∅ (pm_Lineages pm) in
        string_of_bytes (b64url_encode (json_object
          (("p", json_string_map (pm_Positions pm))
           :: if decide (lineages = ∅) then [] else [("l", json_string_map lineages)])))
  end.

Example pm_Encode_sample :
  pm_Encode (Some (SetPosition NewProgressMarker "main" "1-2-ab")) = "eyJwIjp7Im1haW4iOiIxLTItYWIifX0".
Proof. vm_compute. reflexivity. Qed.

(** ** Event identifiers *)
Definition generateEventID (ct : ClusterTime) (collection docID : string) : string :=
  let data := bytes_of_string collection ++ 47 :: bytes_of_string docID in
  let hashStr := hex_encode (take 8 (Sha256.Sum256 data)) in
  string_of_bytes (uintToString (ct_T ct) ++ 45 :: uintToString (ct_I ct) ++ 45 :: hashStr).

(** [fmt.Sscanf]: white space before an operand is skipped, a newline is an error. *)
Fixpoint skip_space (l : bytes) : option bytes :=
  match l with
  | [] => Some []
  | b :: r =>
      if b =? 10 then None
      else if (b =? 13) && match r with c :: _ => c =? 10 | [] => false end then None
      else if (b =? 32) || in_range 9 13 b then skip_space r
      else match r with
      | c :: r2 =>
          if (b =? 0xC2) && ((c =? 0x85) || (c =? 0xA0)) then skip_space r2
          else match r2 with
          | d :: r3 =>
              if ((b =? 0xE1) && (c =? 0x9A) && (d =? 0x80))
                 || ((b =? 0xE2) && (c =? 0x80)
                     && (in_range 0x80 0x8A d || (d =? 0xA8) || (d =? 0xA9) || (d =? 0xAF)))
                 || ((b =? 0xE2) && (c =? 0x81) && (d =? 0x9F))
                 || ((b =? 0xE3) && (c =? 0x80) && (d =? 0x80))
              then skip_space r3 else Some l
          | [] => Some l
          end
      | [] => Some l
      end
  end.

(** [%d] into a [uint32]: at least one digit and no overflow. *)
Definition scan_uint32 (l : bytes) : option (Z * bytes) :=
  l ← skip_space l;
  match span_digits l with
  | ([], _) => None
  | (ds, r) => v ← digits_value 0 ds; if v <? 2 ^ 32 then Some (v, r) else None
  end.

Definition scan_dash (l : bytes) : option bytes :=
  match l with b :: r => if b =? 45 then Some r else None | [] => None end.

(** [%d-%d-%s]; what follows the third operand is not read. *)
Definition ParseEventID (id : string) : option ClusterTime :=
  '(t, r) ← scan_uint32 (bytes_of_string id);
  r ← scan_dash r;
  '(i, r) ← scan_uint32 r;
  r ← scan_dash r;
  r ← skip_space r;
  match r with [] => None | _ => Some (ClusterAt t i) end.

(** ** Round trip *)
Lemma digits_value_app acc a b : digits_value acc (a ++ b) = (v ← digits_value acc a; digits_value v b).
Proof. revert acc; induction a as [|x a IH]; intros acc; cbn; [done|]. by destruct (is_digit x). Qed.

Lemma is_digit_char d : 0 <= d < 10 -> is_digit (48 + d) = true.
Proof. unfold is_digit, in_range. rewrite andb_true_iff, !Z.leb_le. lia. Qed.

Definition digits (l : bytes) : Prop := forallb is_digit l = true.

Lemma uint_digits_value fuel v acc :
  0 <= v < 10 ^ Z.of_nat fuel ->
  exists d, uint_digits fuel v acc = d ++ acc /\ digits d /\ digits_value 0 d = Some v /\ (0 < v -> d <> []).
Proof.
  revert v acc; induction fuel as [|fuel IH]; intros v acc Hv.
  { cbn in Hv. assert (v = 0) as -> by lia. by exists []. }
  rewrite Nat2Z.inj_succ, Z.pow_succ_r in Hv by lia. cbn [uint_digits].
  destruct (Z.ltb_spec 0 v); [|assert (v = 0) as -> by lia; by exists []].
  pose proof (Z.div_mod v 10 ltac:(lia)). pose proof (Z.mod_pos_bound v 10 ltac:(lia)).
  destruct (IH (v / 10) (48 + v mod 10 :: acc)) as (d & E & Hd & Hval & _); [lia|].
  exists (d ++ [48 + v mod 10]). rewrite E, <- app_assoc. split; [done|]. split; [|split].
  - unfold digits. rewrite forallb_app, Hd. cbn [forallb]. by rewrite is_digit_char.
  - rewrite digits_value_app, Hval. cbn. rewrite is_digit_char by lia. f_equal; lia.
  - intros _ E'. by apply app_nil in E' as [_ ?].
Qed.

Lemma uintToString_value v :
  is_u32 v -> exists d, uintToString v = d /\ digits d /\ digits_value 0 d = Some v /\ d <> [].
Proof.
  intros Hv. eexists. split; [done|]. unfold is_u32, uintToString in *. destruct (Z.eqb_spec v 0) as [->|]; [done|].
  destruct (uint_digits_value 10 v []) as (d & -> & Hd & Hval & Hne); [cbn; lia|]. rewrite app_nil_r.
  split; [done|]. split; [done|]. apply Hne. lia.
Qed.

Lemma span_digits_dash d r : digits d -> span_digits (d ++ 45 :: r) = (d, 45 :: r).
Proof.
  unfold digits. induction d as [|b d IH]; cbn; [done|]. intros [-> Hd]%andb_prop. by rewrite IH.
Qed.

(** A printable ASCII character that is not a blank starts an operand. *)
Lemma skip_space_visible b l : 32 < b < 128 -> skip_space (b :: l) = Some (b :: l).
Proof.
  intros Hb. cbn. unfold in_range.
  repeat match goal with |- context [?x =? ?y] => destruct (Z.eqb_spec x y); try lia end.
  replace (9 <=? b) with true by (symmetry; apply Z.leb_le; lia).
  replace (b <=? 13) with false by (symmetry; apply Z.leb_gt; lia). cbn. by destruct l as [|? [|? ?]].
Qed.

Lemma scan_uint32_dash v r : is_u32 v -> scan_uint32 (uintToString v ++ 45 :: r) = Some (v, 45 :: r).
Proof.
  intros Hv. destruct (uintToString_value v Hv) as (d & -> & Hd & Hval & Hne). unfold scan_uint32.
  assert (skip_space (d ++ 45 :: r) = Some (d ++ 45 :: r)) as ->.
  { destruct d as [|b d]; [done|]. apply skip_space_visible.
    unfold digits in Hd. cbn in Hd. apply andb_prop in Hd as [Hb _]. unfold is_digit, in_range in Hb.
    rewrite andb_true_iff, !Z.leb_le in Hb. lia. }
  cbn [mbind option_bind]. rewrite span_digits_dash by done. rewrite Hval. destruct d; [done|].
  cbn. unfold is_u32 in Hv. by rewrite (proj2 (Z.ltb_lt _ _)) by lia.
Qed.

Lemma hex_chars_visible l : is_bytes l -> Forall (fun c => 32 < c < 128) (hex_encode l).
Proof.
  unfold is_bytes, is_byte, hex_encode, hex_char. induction 1 as [|b l Hb _ IH]; cbn; [constructor|].
  pose proof (Z.div_mod b 16 ltac:(lia)). pose proof (Z.mod_pos_bound b 16 ltac:(lia)).
  repeat constructor; try done; repeat match goal with |- context [?x <? ?y] => destruct (Z.ltb_spec x y) end; lia.
Qed.

Lemma Sum256_bytes m : is_bytes (Sha256.Sum256 m).
Proof.
  unfold Sha256.Sum256, is_bytes. apply List.Forall_forall. intros b (x & _ & Hb)%in_flat_map.
  pose proof (be_bytes_bytes 4 x) as H. unfold is_bytes in H. rewrite List.Forall_forall in H. by apply H.
Qed.

Lemma event_hash_visible m :
  is_bytes (hex_encode (take 8 (Sha256.Sum256 m))) /\
  match hex_encode (take 8 (Sha256.Sum256 m)) with [] => True | b :: _ => 32 < b < 128 end.
Proof.
  assert (is_bytes (take 8 (Sha256.Sum256 m))) as Hb by (apply Forall_take, Sum256_bytes).
  pose proof (hex_chars_visible _ Hb) as Hv. split.
  - unfold is_bytes, is_byte. eapply Forall_impl; [exact Hv|]. cbn; lia.
  - destruct Hv; cbn in *; auto.
Qed.

(** A digest has 32 bytes. *)
Lemma length_round s kw : length s = 8%nat -> length (Sha256.round s kw) = 8%nat.
Proof. intros H. do 9 (destruct s as [|? s]; try done). Qed.
Lemma length_compress h block : length h = 8%nat -> length (Sha256.compress h block) = 8%nat.
Proof.
  intros H. unfold Sha256.compress. rewrite length_zip_with, H. generalize (zip Sha256.K (rev (Sha256.schedule 48 (rev (Sha256.words 16 block))))).
  intros kws. enough (length (foldl Sha256.round h kws) = 8%nat) by lia.
  revert h H; induction kws as [|kw kws IH]; intros h H; cbn; [done|]. by apply IH, length_round.
Qed.
Lemma length_blocks n h l : length h = 8%nat -> length (Sha256.blocks n h l) = 8%nat.
Proof. revert h l; induction n; intros; cbn; [done|]. by apply IHn, length_compress. Qed.
Lemma length_Sum256 m : length (Sha256.Sum256 m) = 32%nat.
Proof.
  unfold Sha256.Sum256. pose proof (length_blocks (length (Sha256.pad m) / 64) Sha256.H0 (Sha256.pad m) eq_refl) as H.
  revert H. generalize (Sha256.blocks (length (Sha256.pad m) / 64) Sha256.H0 (Sha256.pad m)). intros w H.
  rewrite (flat_map_constant_length (c := 4%nat)); [lia|]. intros. apply length_be_bytes.
Qed.

Lemma event_hash_starts m : exists b l, hex_encode (take 8 (Sha256.Sum256 m)) = b :: l /\ 32 < b < 128.
Proof.
  destruct (event_hash_visible m) as [_ H]. pose proof (length_Sum256 m) as L.
  destruct (Sha256.Sum256 m) as [|x s]; [done|]. cbn in *. eauto.
Qed.

Lemma digits_bytes d : digits d -> is_bytes d.
Proof.
  unfold digits, is_bytes, is_byte. rewrite forallb_forall. intros H. apply List.Forall_forall. intros b Hb%H.
  unfold is_digit, in_range in Hb. rewrite andb_true_iff, !Z.leb_le in Hb. lia.
Qed.

Lemma scan_dash_hit r : scan_dash (45 :: r) = Some r.
Proof. done. Qed.

(** Event identifiers carry the cluster time. Parsing the identifier generated
    for a change gives back its cluster time, for every [uint32] time and every
    collection and document. *)
Theorem ParseEventID_generateEventID ct collection docID :
  is_cluster_time ct -> ParseEventID (generateEventID ct collection docID) = Some ct.
Proof.
  intros [HT HI]. unfold ParseEventID, generateEventID.
  destruct (event_hash_starts (bytes_of_string collection ++ 47 :: bytes_of_string docID)) as (b & l & E & Hb).
  destruct (event_hash_visible (bytes_of_string collection ++ 47 :: bytes_of_string docID)) as [Hh _].
  rewrite E in *.
  rewrite bytes_of_string_of_bytes.
  2:{ destruct (uintToString_value _ HT) as (d & -> & Hd & _), (uintToString_value _ HI) as (d' & -> & Hd' & _).
      apply digits_bytes in Hd, Hd'. unfold is_bytes in *.
      rewrite Forall_app, Forall_cons, Forall_app, Forall_cons. done. }
  rewrite scan_uint32_dash by done. unfold mbind, option_bind. cbv beta iota. rewrite scan_dash_hit.
  rewrite scan_uint32_dash by done. cbv beta iota. rewrite scan_dash_hit.
  rewrite skip_space_visible by done. by destruct ct.
Qed.

Lemma ParseEventID_generateEventID_witness :
  ParseEventID (generateEventID (ClusterAt 1700000000 7) "documents" "abc") = Some (ClusterAt 1700000000 7).
Proof. apply ParseEventID_generateEventID. split; cbv; split; congruence. Defined.
