(* ===== verification/Subscriber.v ===== *)
(** * Subscribers: internal/puller/core/subscriber.go and the delivery step of
    internal/puller/core/subscription.go

    The live queue of a subscriber with its overflow fence, and the positions
    that decide which events are sent. *)
From stdpp Require Import base list sorting gmap strings.
From Stdlib Require Import ZArith Ascii.
From S2P Require Import Prelude Value IndexStore Projection Events Progress.
Local Open Scope Z_scope.

Record admissionGroup := { ag_clusterTime : ClusterTime; ag_eventIDs : gset string }.

(** A channel of capacity one is a flag; [sub_cap] is the capacity of the queue. *)
Record Subscriber := {
  sub_ID : string; sub_After : ProgressMarker; sub_CoalesceOnCatchUp : bool; sub_currentPos : ProgressMarker;
  sub_lastClusterTime : gmap string ClusterTime; sub_deliveredIDs : gmap string (gset string);
  sub_done : bool; sub_ch : list (option StoreChangeEvent); sub_cap : Z;
  sub_recoveryPending : bool; sub_recovery : bool; sub_startFromNow : bool;
  sub_admissionGroups : gmap string admissionGroup;
}.

(** The floors of a progress marker; the first position that does not parse is an
    error naming its backend. *)
Definition floor_of (p : string * string) : res string (string * ClusterTime) :=
  match ParseEventID p.2 with Some t => Ok (p.1, t) | None => Err p.1 end.
Definition floors_of (after : ProgressMarker) : res string (gmap string ClusterTime) :=
  l ← mapM_res floor_of (List.filter (fun p => negb (String.eqb p.2 "")) (map_to_list (pm_Positions after)));
  Ok (list_to_map l).

Definition NewSubscriber (id : string) (after : option ProgressMarker) (startFromNow coalesceOnCatchUp : bool)
    (channelSize : Z) : res string Subscriber :=
  let after := default NewProgressMarker after in
  let channelSize := if channelSize <=? 0 then 10000 else channelSize in
  floors ← floors_of after;
  Ok {| sub_ID := id; sub_After := after; sub_CoalesceOnCatchUp := coalesceOnCatchUp;
        sub_currentPos := pm_Clone (Some after); sub_lastClusterTime := floors; sub_deliveredIDs := ∅;
        sub_done := false; sub_ch := []; sub_cap := channelSize; sub_recoveryPending := false;
        sub_recovery := false; sub_startFromNow := startFromNow; sub_admissionGroups := ∅ |}.

(** ** Live queue *)
Definition set_queue (s : Subscriber) (ch : list (option StoreChangeEvent)) (pending recovery : bool)
    (groups : gmap string admissionGroup) : Subscriber :=
  {| sub_ID := sub_ID s; sub_After := sub_After s; sub_CoalesceOnCatchUp := sub_CoalesceOnCatchUp s;
     sub_currentPos := sub_currentPos s; sub_lastClusterTime := sub_lastClusterTime s;
     sub_deliveredIDs := sub_deliveredIDs s; sub_done := sub_done s; sub_ch := ch; sub_cap := sub_cap s;
     sub_recoveryPending := pending; sub_recovery := recovery; sub_startFromNow := sub_startFromNow s;
     sub_admissionGroups := groups |}.

(** The timestamp group of the first broadcast of a backend. *)
Definition note_admission (groups : gmap string admissionGroup) (e : StoreChangeEvent) : gmap string admissionGroup :=
  let group := default {| ag_clusterTime := evt_ClusterTime e; ag_eventIDs := ∅ |} (groups !! evt_Backend e) in
  let group := match ct_Compare (evt_ClusterTime e) (ag_clusterTime group) with
               | Eq => {| ag_clusterTime := ag_clusterTime group; ag_eventIDs := {[evt_EventID e]} ∪ ag_eventIDs group |}
               | _ => group
               end in
  <[evt_Backend e := group]> groups.

(** The subscriber, whether the event was admitted and whether recovery started. *)
Definition enqueue (s : Subscriber) (event : option StoreChangeEvent) : Subscriber * (bool * bool) :=
  let groups := match event with
                | Some e => if sub_startFromNow s then note_admission (sub_admissionGroups s) e else sub_admissionGroups s
                | None => sub_admissionGroups s
                end in
  if sub_recoveryPending s then (set_queue s (sub_ch s) true (sub_recovery s) groups, (false, false))
  else if Z.of_nat (length (sub_ch s)) <? sub_cap s
  then (set_queue s (sub_ch s ++ [event]) false (sub_recovery s) groups, (true, false))
  else (set_queue s (sub_ch s) true true groups, (false, true)).

Definition replayAdmitted (s : Subscriber) (event : option StoreChangeEvent) : bool :=
  match event with
  | None => true
  | Some e =>
      if negb (sub_startFromNow s) then true
      else match sub_admissionGroups s !! evt_Backend e with
      | None => false
      | Some group =>
          match ct_Compare (evt_ClusterTime e) (ag_clusterTime group) with
          | Lt => false
          | Gt => true
          | Eq => bool_decide (evt_EventID e ∈ ag_eventIDs group)
          end
      end
  end.

Definition AdmissionFloors (s : Subscriber) : gmap string ClusterTime := ag_clusterTime <$> sub_admissionGroups s.

(** Taking the first event of the queue, and discarding all of them. *)
Definition receive (s : Subscriber) : Subscriber * option (option StoreChangeEvent) :=
  match sub_ch s with
  | [] => (s, None)
  | e :: ch => (set_queue s ch (sub_recoveryPending s) (sub_recovery s) (sub_admissionGroups s), Some e)
  end.
Definition drainEvents (s : Subscriber) : Subscriber :=
  set_queue s [] (sub_recoveryPending s) (sub_recovery s) (sub_admissionGroups s).
Definition BeginRecovery (s : Subscriber) : Subscriber :=
  set_queue s (sub_ch s) false false (sub_admissionGroups s).

Definition sub_Close (s : Subscriber) : Subscriber :=
  {| sub_ID := sub_ID s; sub_After := sub_After s; sub_CoalesceOnCatchUp := sub_CoalesceOnCatchUp s;
     sub_currentPos := sub_currentPos s; sub_lastClusterTime := sub_lastClusterTime s;
     sub_deliveredIDs := sub_deliveredIDs s; sub_done := true; sub_ch := sub_ch s; sub_cap := sub_cap s;
     sub_recoveryPending := sub_recoveryPending s; sub_recovery := sub_recovery s;
     sub_startFromNow := sub_startFromNow s; sub_admissionGroups := sub_admissionGroups s |}.

(** ** Positions *)
Definition UpdatePosition (s : Subscriber) (backend eventID : string) (clusterTime : ClusterTime) : Subscriber :=
  let known := match sub_lastClusterTime s !! backend, sub_deliveredIDs s !! backend with
               | Some previous, Some ids =>
                   match ct_Compare clusterTime previous with Eq => ids | _ => ∅ end
               | _, _ => ∅
               end in
  {| sub_ID := sub_ID s; sub_After := sub_After s; sub_CoalesceOnCatchUp := sub_CoalesceOnCatchUp s;
     sub_currentPos := SetPosition (sub_currentPos s) backend eventID;
     sub_lastClusterTime := <[backend := clusterTime]> (sub_lastClusterTime s);
     sub_deliveredIDs := <[backend := {[eventID]} ∪ known]> (sub_deliveredIDs s);
     sub_done := sub_done s; sub_ch := sub_ch s; sub_cap := sub_cap s;
     sub_recoveryPending := sub_recoveryPending s; sub_recovery := sub_recovery s;
     sub_startFromNow := sub_startFromNow s; sub_admissionGroups := sub_admissionGroups s |}.

Definition ShouldSend (s : Subscriber) (backend eventID : string) (clusterTime : ClusterTime) : bool :=
  match sub_lastClusterTime s !! backend with
  | None => true
  | Some last =>
      match ct_Compare clusterTime last with
      | Lt => false
      | Gt => true
      | Eq => negb (bool_decide (eventID ∈ default ∅ (sub_deliveredIDs s !! backend)))
      end
  end.

Definition CurrentProgress (s : Subscriber) : ProgressMarker := pm_Clone (Some (sub_currentPos s)).

(** ** The subscriber manager: the set of subscribers, in the order they were
    added; pointers are positions. *)
Definition Broadcast (subs : list Subscriber) (be : option StoreChangeEvent) : list Subscriber * list string :=
  (map (fun s => (enqueue s be).1) subs,
   map sub_ID (List.filter (fun s => (enqueue s be).2.2) subs)).

(** ** Delivery *)
Inductive SubscriptionExitKind :=
| SubscriptionExitContextCanceled | SubscriptionExitSubscriberClosed | SubscriptionExitReplayFailed
| SubscriptionExitDeliveryFailed | SubscriptionExitReadyFailed | SubscriptionExitMaintenanceFailed.
Inductive SubscriptionPhase :=
| SubscriptionPhaseReplay | SubscriptionPhaseReady | SubscriptionPhaseLive | SubscriptionPhaseMaintenance.
Inductive exit_error := ExitContext (e : string) | ErrNilSubscriptionEvent | ExitDeliver (e : string) | ExitCall (e : string).
(** The exits of a delivery have no iterator to clean up. *)
Record SubscriptionExit := SubExit { ex_Kind : SubscriptionExitKind; ex_Phase : SubscriptionPhase; ex_Err : option exit_error }.

(** The answers of the context's [Err], the nth poll of a call first. *)
Definition SubContext := nat -> option string.

Definition canceledSubscriptionExit (phase : SubscriptionPhase) (err : string) : SubscriptionExit :=
  SubExit SubscriptionExitContextCanceled phase (Some (ExitContext err)).

Definition subscriptionStopped (ctx : SubContext) (s : Subscriber) (phase : SubscriptionPhase) : option SubscriptionExit :=
  match ctx 0%nat with
  | Some err => Some (canceledSubscriptionExit phase err)
  | None =>
      if sub_done s then
        match ctx 1%nat with
        | Some err => Some (canceledSubscriptionExit phase err)
        | None => Some (SubExit SubscriptionExitSubscriberClosed phase None)
        end
      else None
  end.

Section Deliver.
(** The driver's callback: the event and the encoded progress, an error if any. *)
Variable Deliver : StoreChangeEvent -> string -> option string.

(** The subscriber, the exit if the subscription stops, and the event
    acknowledged by the driver. *)
Definition deliverSubscriptionEvent (ctx : SubContext) (s : Subscriber) (evt : option StoreChangeEvent)
    (phase : SubscriptionPhase) : Subscriber * option SubscriptionExit * option StoreChangeEvent :=
  match subscriptionStopped ctx s phase with
  | Some exit => (s, Some exit, None)
  | None =>
      match evt with
      | None => (s, Some (SubExit SubscriptionExitDeliveryFailed phase (Some ErrNilSubscriptionEvent)), None)
      | Some e =>
          if negb (ShouldSend s (evt_Backend e) (evt_EventID e) (evt_ClusterTime e)) then (s, None, None)
          else
            let progress := SetPosition (CurrentProgress s) (evt_Backend e) (evt_EventID e) in
            match Deliver e (pm_Encode (Some progress)) with
            | Some err =>
                match ctx 1%nat with
                | Some cerr => (s, Some (canceledSubscriptionExit phase cerr), None)
                | None => (s, Some (SubExit SubscriptionExitDeliveryFailed phase (Some (ExitDeliver err))), None)
                end
            | None => (UpdatePosition s (evt_Backend e) (evt_EventID e) (evt_ClusterTime e), None, Some e)
            end
      end
  end.
End Deliver.

(** ** Runs of a subscriber

    Every operation on a subscriber, with the event it acknowledges. *)
Inductive sub_step : Subscriber -> option StoreChangeEvent -> Subscriber -> Prop :=
| step_deliver Deliver ctx s evt phase s' ex ack :
    deliverSubscriptionEvent Deliver ctx s evt phase = (s', ex, ack) -> sub_step s ack s'
| step_enqueue s evt : sub_step s None (enqueue s evt).1
| step_receive s : sub_step s None (receive s).1
| step_wake s : sub_step s None (set_queue s (sub_ch s) (sub_recoveryPending s) false (sub_admissionGroups s))
| step_drain s : sub_step s None (drainEvents s)
| step_recover s : sub_step s None (BeginRecovery s)
| step_close s : sub_step s None (sub_Close s).

Inductive reaches (s0 : Subscriber) : list StoreChangeEvent -> Subscriber -> Prop :=
| reaches_start : reaches s0 [] s0
| reaches_step acked s ack s' :
    reaches s0 acked s -> sub_step s ack s' -> reaches s0 (acked ++ option_list ack) s'.

(** The acknowledged events of a backend. *)
Definition of_backend (b : string) (l : list StoreChangeEvent) : list StoreChangeEvent :=
  List.filter (fun e => String.eqb (evt_Backend e) b) l.

Lemma of_backend_elem b l e : e ∈ of_backend b l <-> e ∈ l /\ evt_Backend e = b.
Proof. unfold of_backend. by rewrite !list_elem_of_In, filter_In, String.eqb_eq. Qed.

Lemma of_backend_snoc b l e :
  of_backend b (l ++ [e]) = if String.eqb (evt_Backend e) b then of_backend b l ++ [e] else of_backend b l.
Proof. unfold of_backend. rewrite List.filter_app. cbn. destruct (String.eqb _ _); [done|]. by rewrite app_nil_r. Qed.

(** Cluster times in the order of their two words. *)
Definition ct_rank (c : ClusterTime) : bytes := [ct_T c; ct_I c].
Lemma ct_Compare_rank c d : ct_Compare c d = bytes_compare (ct_rank c) (ct_rank d).
Proof. rewrite ct_Compare_lex. unfold ct_rank. cbn. by destruct (_ ?= _), (_ ?= _). Qed.

Definition not_before (c d : ClusterTime) : Prop := ct_Compare c d <> Lt.

Lemma not_before_refl c : not_before c c.
Proof. unfold not_before. by rewrite ct_Compare_rank, bytes_compare_refl. Qed.
Lemma not_before_le c d : not_before c d <-> bytes_compare (ct_rank d) (ct_rank c) <> Gt.
Proof. unfold not_before. rewrite ct_Compare_rank. by rewrite <- bytes_compare_lt_gt. Qed.
Lemma not_before_trans a b c : not_before a b -> not_before b c -> not_before a c.
Proof. rewrite !not_before_le. eauto using bytes_le_trans. Qed.
Lemma not_before_gt a b c : not_before b c -> ct_Compare a b = Gt -> ct_Compare a c = Gt.
Proof.
  rewrite not_before_le, !ct_Compare_rank. intros Hbc Hab%bytes_compare_lt_gt. apply bytes_compare_lt_gt.
  by eapply bytes_le_lt_trans.
Qed.

Definition in_time_order (l : list StoreChangeEvent) : Prop :=
  StronglySorted (fun x y => not_before (evt_ClusterTime y) (evt_ClusterTime x)) l.
Definition identity (e : StoreChangeEvent) : ClusterTime * string := (evt_ClusterTime e, evt_EventID e).

Lemma in_time_order_last l x e : in_time_order l -> last l = Some e -> x ∈ l -> not_before (evt_ClusterTime e) (evt_ClusterTime x).
Proof.
  induction 1 as [|y l Hs IH Hy]; intros HL Hx; [done|]. apply elem_of_cons in Hx.
  destruct l as [|z l]; [cbn in HL; simplify_eq; destruct Hx as [->|[]%elem_of_nil]; apply not_before_refl|].
  rewrite last_cons_cons in HL. destruct Hx as [->|Hx]; [|by apply IH].
  rewrite Forall_forall in Hy. apply Hy. by apply last_Some_elem_of.
Qed.

Lemma in_time_order_snoc l e :
  in_time_order l -> (forall x, x ∈ l -> not_before (evt_ClusterTime e) (evt_ClusterTime x)) -> in_time_order (l ++ [e]).
Proof.
  intros Hs Hx. unfold in_time_order in *. induction Hs as [|y l Hs IH Hy]; cbn; [repeat constructor|].
  constructor; [apply IH; set_solver|]. apply Forall_app. split; [done|]. constructor; [|constructor]. set_solver.
Qed.

(** What the positions of a subscriber record of one backend. *)
Definition backend_inv (s0 s : Subscriber) (b : string) (l : list StoreChangeEvent) : Prop :=
  match last l with
  | None => sub_lastClusterTime s !! b = sub_lastClusterTime s0 !! b /\ sub_deliveredIDs s !! b = None /\
            pm_Positions (sub_currentPos s) !! b = pm_Positions (sub_currentPos s0) !! b
  | Some e => sub_lastClusterTime s !! b = Some (evt_ClusterTime e) /\
              pm_Positions (sub_currentPos s) !! b = Some (evt_EventID e) /\
              exists ids, sub_deliveredIDs s !! b = Some ids /\
                forall id, id ∈ ids <-> (evt_ClusterTime e, id) ∈ map identity l
  end /\
  in_time_order l /\ NoDup (map identity l) /\
  forall x f, x ∈ l -> sub_lastClusterTime s0 !! b = Some f -> not_before (evt_ClusterTime x) f.

Lemma ShouldSend_inv s0 s b l id ct :
  backend_inv s0 s b l -> ShouldSend s b id ct = true ->
  (forall x, x ∈ l -> not_before ct (evt_ClusterTime x)) /\ ~ (ct, id) ∈ map identity l /\
  (forall f, sub_lastClusterTime s0 !! b = Some f -> not_before ct f).
Proof.
  unfold ShouldSend, backend_inv. destruct (last l) as [e|] eqn:L.
  - intros ((-> & _ & ids & -> & Hids) & Ho & _ & Hf) Hsend. cbn [default] in Hsend.
    assert (Hnb : not_before ct (evt_ClusterTime e)).
    { unfold not_before. by destruct (ct_Compare ct (evt_ClusterTime e)). }
    split; [|split].
    + intros x Hx. eapply not_before_trans; [exact Hnb|by eapply in_time_order_last].
    + intros (x & E & Hx)%list_elem_of_fmap. unfold identity in E. simplify_eq.
      pose proof (in_time_order_last l x e Ho L Hx) as Hle.
      destruct (ct_Compare (evt_ClusterTime x) (evt_ClusterTime e)) eqn:C; [|done|].
      * apply ct_Compare_eq in C. apply negb_true_iff, bool_decide_eq_false in Hsend. apply Hsend, Hids.
        rewrite <- C. by apply (list_elem_of_fmap_2 identity).
      * pose proof (not_before_gt _ _ _ Hle C) as G. by rewrite ct_Compare_rank, bytes_compare_refl in G.
    + intros f Hb. eapply not_before_trans; [exact Hnb|]. apply (Hf e f); [by apply last_Some_elem_of|done].
  - apply last_None in L as ->. intros ((-> & -> & _) & _) Hsend. cbn [default] in Hsend.
    split; [set_solver|]. split; [set_solver|]. intros f Hf. rewrite Hf in Hsend. unfold not_before.
    by destruct (ct_Compare ct f).
Qed.

Lemma UpdatePosition_inv s0 s e l :
  backend_inv s0 s (evt_Backend e) l -> ShouldSend s (evt_Backend e) (evt_EventID e) (evt_ClusterTime e) = true ->
  backend_inv s0 (UpdatePosition s (evt_Backend e) (evt_EventID e) (evt_ClusterTime e)) (evt_Backend e) (l ++ [e]).
Proof.
  intros I Hsend. destruct (ShouldSend_inv _ _ _ _ _ _ I Hsend) as (Hx & Hnew & Hfl).
  destruct I as (Hl & Ho & Hn & Hf). unfold backend_inv. rewrite last_snoc. cbn. rewrite !lookup_insert_eq. split; [|split; [|split]].
  - split; [done|]. split; [done|]. eexists. split; [done|]. intros id. rewrite map_app, elem_of_app.
    rewrite elem_of_union, elem_of_singleton. cbn [map]. rewrite list_elem_of_singleton. unfold identity at 2.
    assert (forall id, id ∈ match sub_lastClusterTime s !! evt_Backend e, sub_deliveredIDs s !! evt_Backend e with
        | Some previous, Some ids => match ct_Compare (evt_ClusterTime e) previous with Eq => ids | _ => ∅ end
        | _, _ => ∅ end <-> (evt_ClusterTime e, id) ∈ map identity l) as ->; [|naive_solver].
    clear id; intros id. destruct (last l) as [p|] eqn:L.
    + destruct Hl as (-> & _ & ids & -> & Hids). destruct (ct_Compare _ _) eqn:C; [apply ct_Compare_eq in C as ->; apply Hids|..];
        (split; [set_solver|]); intros (x & E & Hin)%list_elem_of_fmap; unfold identity in E; simplify_eq;
        pose proof (in_time_order_last l x p Ho L Hin) as Hle.
      * by destruct (Hx p ltac:(by apply last_Some_elem_of)).
      * pose proof (not_before_gt _ _ _ Hle C) as G. match goal with H : evt_ClusterTime e = _ |- _ => rewrite H in G end.
        by rewrite ct_Compare_rank, bytes_compare_refl in G.
    + apply last_None in L as ->. destruct Hl as (_ & -> & _). destruct (sub_lastClusterTime s !! _); set_solver.
  - by apply in_time_order_snoc.
  - rewrite map_app. cbn. apply NoDup_app. split; [done|]. split; [|apply NoDup_singleton].
    intros p Hp ->%list_elem_of_singleton. by apply Hnew.
  - intros x f [Hin| ->%list_elem_of_singleton]%elem_of_app Hb; eauto.
Qed.

(** Only an acknowledged event moves the positions. *)
Definition same_positions (s s' : Subscriber) : Prop :=
  sub_lastClusterTime s' = sub_lastClusterTime s /\ sub_deliveredIDs s' = sub_deliveredIDs s /\
  sub_currentPos s' = sub_currentPos s.

Lemma deliver_positions Deliver ctx s evt phase s' ex ack :
  deliverSubscriptionEvent Deliver ctx s evt phase = (s', ex, ack) ->
  match ack with
  | None => s' = s
  | Some e => ShouldSend s (evt_Backend e) (evt_EventID e) (evt_ClusterTime e) = true /\
              s' = UpdatePosition s (evt_Backend e) (evt_EventID e) (evt_ClusterTime e)
  end.
Proof.
  unfold deliverSubscriptionEvent. intros E. repeat case_match; simplify_eq; try done.
  split; [|done]. by apply negb_false_iff.
Qed.

Lemma sub_step_positions s ack s' :
  sub_step s ack s' ->
  match ack with
  | None => same_positions s s'
  | Some e => ShouldSend s (evt_Backend e) (evt_EventID e) (evt_ClusterTime e) = true /\
              s' = UpdatePosition s (evt_Backend e) (evt_EventID e) (evt_ClusterTime e)
  end.
Proof.
  destruct 1 as [? ? ? ? ? ? ? ? E| | | | | |];
    try (unfold enqueue, receive; repeat case_match; by split).
  apply deliver_positions in E. destruct ack; [done|]. subst. by split.
Qed.

Lemma backend_inv_other s0 s e b l :
  evt_Backend e <> b -> backend_inv s0 s b l ->
  backend_inv s0 (UpdatePosition s (evt_Backend e) (evt_EventID e) (evt_ClusterTime e)) b l.
Proof. unfold backend_inv. intros Hne. cbn. by rewrite !lookup_insert_ne by done. Qed.

Lemma reaches_inv s0 acked s :
  sub_deliveredIDs s0 = ∅ -> reaches s0 acked s -> forall b, backend_inv s0 s b (of_backend b acked).
Proof.
  intros H0. induction 1 as [|acked s ack s' _ IH St]; intros b.
  - unfold backend_inv. cbn. rewrite H0, lookup_empty. repeat split; [constructor|constructor|set_solver].
  - apply sub_step_positions in St. destruct ack as [e|].
    + change (option_list (Some e)) with [e]. destruct St as [Hs ->]. rewrite of_backend_snoc. destruct (String.eqb_spec (evt_Backend e) b) as [<-|Hne].
      * by apply UpdatePosition_inv.
      * by apply backend_inv_other.
    + change (option_list (@None StoreChangeEvent)) with (@nil StoreChangeEvent). rewrite app_nil_r. destruct St as (E1 & E2 & E3). specialize (IH b). unfold backend_inv in *.
      by rewrite E1, E2, E3.
Qed.

Lemma NewSubscriber_fresh id after now coalesce size s0 :
  NewSubscriber id after now coalesce size = Ok s0 ->
  sub_deliveredIDs s0 = ∅ /\ pm_Positions (sub_currentPos s0) = pm_Positions (default NewProgressMarker after) /\
  floors_of (default NewProgressMarker after) = Ok (sub_lastClusterTime s0).
Proof.
  unfold NewSubscriber. intros (floors & F & E)%bind_ok. apply Ok_inj in E. subst s0. cbn. by rewrite F.
Qed.

(** C34: acknowledged delivery. Whatever a subscriber does (live and replay
    deliveries that succeed or fail, cancellations, overflows, recoveries), the
    events its driver acknowledged are, for each backend, in cluster-time order,
    all distinct, and none before the floor of the progress it resumed from; the
    progress it reports is the last one acknowledged. *)
Theorem acknowledged_in_order id after now coalesce size s0 acked s b :
  NewSubscriber id after now coalesce size = Ok s0 -> reaches s0 acked s ->
  in_time_order (of_backend b acked) /\ NoDup (map identity (of_backend b acked)) /\
  (forall e f, e ∈ of_backend b acked -> sub_lastClusterTime s0 !! b = Some f -> not_before (evt_ClusterTime e) f) /\
  GetPosition (CurrentProgress s) b =
    match last (of_backend b acked) with
    | Some e => evt_EventID e
    | None => GetPosition (default NewProgressMarker after) b
    end.
Proof.
  intros (H0 & Hp & _)%NewSubscriber_fresh R.
  destruct (reaches_inv s0 acked s H0 R b) as (Hl & Ho & Hn & Hf). split; [done|]. split; [done|]. split; [done|].
  unfold GetPosition, CurrentProgress, pm_Clone. cbn.
  destruct (last (of_backend b acked)); [destruct Hl as (_ & -> & _)|destruct Hl as (_ & _ & ->)]; [done|]. by rewrite Hp.
Qed.

(** An event the positions have reached is before the floor, before an acknowledged
    event of its backend, or acknowledged itself. *)
Definition known (s0 : Subscriber) (acked : list StoreChangeEvent) (e : StoreChangeEvent) : Prop :=
  (exists f, sub_lastClusterTime s0 !! evt_Backend e = Some f /\ ct_Compare (evt_ClusterTime e) f = Lt) \/
  (exists x, x ∈ acked /\ evt_Backend x = evt_Backend e /\ ct_Compare (evt_ClusterTime e) (evt_ClusterTime x) = Lt) \/
  (exists x, x ∈ acked /\ evt_Backend x = evt_Backend e /\ identity x = identity e).

Lemma settled_known s0 acked s e :
  sub_deliveredIDs s0 = ∅ -> reaches s0 acked s ->
  ShouldSend s (evt_Backend e) (evt_EventID e) (evt_ClusterTime e) = false -> known s0 acked e.
Proof.
  intros H0 R Hs. destruct (reaches_inv s0 acked s H0 R (evt_Backend e)) as (Hl & _).
  unfold ShouldSend in Hs. destruct (last (of_backend _ acked)) as [p|] eqn:L.
  - apply last_Some_elem_of, of_backend_elem in L as [Hp Hb]. destruct Hl as (Hlast & _ & ids & Hids & Hin).
    rewrite Hlast, Hids in Hs. destruct (ct_Compare _ _) eqn:C; [|right; left; eauto|done].
    right; right. apply negb_false_iff, bool_decide_eq_true, Hin in Hs.
    apply list_elem_of_fmap in Hs as (x & Hx & [??]%of_backend_elem). exists x. apply ct_Compare_eq in C.
    split; [done|]. split; [done|]. rewrite <- Hx. unfold identity. by rewrite C.
  - destruct Hl as (Hlast & Hids & _). rewrite Hlast, Hids in Hs. left.
    destruct (sub_lastClusterTime s0 !! evt_Backend e) as [f|]; [|done]. exists f. split; [done|].
    by destruct (ct_Compare _ f).
Qed.

(** nothing is skipped without cause. When a delivery returns without stopping
    the subscription and without an acknowledgement, the event is before the floor
    the subscriber resumed from, before an event of its backend acknowledged
    already, or acknowledged already itself. *)
Theorem unsent_events_known id after now coalesce size s0 acked s Deliver ctx e phase s' :
  NewSubscriber id after now coalesce size = Ok s0 -> reaches s0 acked s ->
  deliverSubscriptionEvent Deliver ctx s (Some e) phase = (s', None, None) ->
  (exists f, sub_lastClusterTime s0 !! evt_Backend e = Some f /\ ct_Compare (evt_ClusterTime e) f = Lt) \/
  (exists x, x ∈ acked /\ evt_Backend x = evt_Backend e /\ ct_Compare (evt_ClusterTime e) (evt_ClusterTime x) = Lt) \/
  (exists x, x ∈ acked /\ evt_Backend x = evt_Backend e /\ identity x = identity e).
Proof.
  intros (H0 & _)%NewSubscriber_fresh R E. apply (settled_known _ _ _ _ H0 R).
  unfold deliverSubscriptionEvent in E. destruct (subscriptionStopped _ _ _); [done|].
  destruct (ShouldSend _ _ _ _); [|done]. cbn [negb] in E. repeat case_match; done.
Qed.

(** ** The overflow fence

    A run of the queue with what it was offered and what it admitted since the
    last recovery began, and everything it admitted or gave up so far. *)
Inductive queue_op := QBroadcast (e : option StoreChangeEvent) | QReceive | QDrain | QBeginRecovery | QWake.

Record queue_run := {
  qr_sub : Subscriber;
  qr_offered : list (option StoreChangeEvent);    (** broadcast since recovery began *)
  qr_admitted : list (option StoreChangeEvent);   (** admitted since recovery began *)
  qr_entered : list (option StoreChangeEvent);    (** every event that entered the queue *)
  qr_left : list (option StoreChangeEvent);       (** received or drained, in order *)
}.

Definition queue_step (r : queue_run) (op : queue_op) : queue_run :=
  let s := qr_sub r in
  match op with
  | QBroadcast e =>
      let '(s', (admitted, _)) := enqueue s e in
      let added := if (admitted : bool) then [e] else [] in
      {| qr_sub := s'; qr_offered := qr_offered r ++ [e]; qr_admitted := qr_admitted r ++ added;
         qr_entered := qr_entered r ++ added; qr_left := qr_left r |}
  | QReceive =>
      let '(s', got) := receive s in
      {| qr_sub := s'; qr_offered := qr_offered r; qr_admitted := qr_admitted r; qr_entered := qr_entered r;
         qr_left := qr_left r ++ option_list got |}
  | QDrain =>
      {| qr_sub := drainEvents s; qr_offered := qr_offered r; qr_admitted := qr_admitted r;
         qr_entered := qr_entered r; qr_left := qr_left r ++ sub_ch s |}
  | QBeginRecovery =>
      {| qr_sub := BeginRecovery s; qr_offered := []; qr_admitted := []; qr_entered := qr_entered r; qr_left := qr_left r |}
  | QWake =>
      {| qr_sub := set_queue s (sub_ch s) (sub_recoveryPending s) false (sub_admissionGroups s);
         qr_offered := qr_offered r; qr_admitted := qr_admitted r; qr_entered := qr_entered r; qr_left := qr_left r |}
  end.

Definition queue_start (s : Subscriber) : queue_run :=
  {| qr_sub := s; qr_offered := []; qr_admitted := []; qr_entered := []; qr_left := [] |}.
Definition run_queue (s : Subscriber) (ops : list queue_op) : queue_run := foldl queue_step (queue_start s) ops.

Record fence_inv (r : queue_run) : Prop := {
  fi_prefix : exists missed, qr_offered r = qr_admitted r ++ missed /\
    (sub_recoveryPending (qr_sub r) = false -> missed = []);
  fi_order : qr_entered r = qr_left r ++ sub_ch (qr_sub r);
  fi_cap : Z.of_nat (length (sub_ch (qr_sub r))) <= sub_cap (qr_sub r);
}.

Lemma queue_step_inv r op : 0 <= sub_cap (qr_sub r) -> fence_inv r ->
  fence_inv (queue_step r op) /\ sub_cap (qr_sub (queue_step r op)) = sub_cap (qr_sub r).
Proof.
  intros Hcap [(missed & Hp & Hm) Ho Hc]. destruct op as [e| | | |]; cbn.
  - unfold enqueue. destruct (sub_recoveryPending (qr_sub r)) eqn:P; [|destruct (Z.ltb_spec (Z.of_nat (length (sub_ch (qr_sub r)))) (sub_cap (qr_sub r)))];
      cbn; (split; [|done]); split; cbn; rewrite ?app_nil_r; try done.
    + exists (missed ++ [e]). split; [by rewrite Hp, app_assoc|done].
    + exists []. split; [by rewrite Hp, (Hm eq_refl), !app_nil_r|done].
    + by rewrite Ho, app_assoc.
    + rewrite length_app. cbn. lia.
    + exists (missed ++ [e]). split; [by rewrite Hp, app_assoc|done].
  - unfold receive. destruct (sub_ch (qr_sub r)) as [|x ch] eqn:C; cbn.
    + split; [|done]. split; cbn; rewrite ?app_nil_r, ?C; eauto.
    + split; [|done]. split; cbn; eauto; [by rewrite Ho, <- app_assoc|cbn in Hc; lia].
  - split; [|done]. split; cbn; eauto; by rewrite app_nil_r.
  - split; [|done]. split; cbn; eauto.
  - split; [|done]. split; cbn; eauto.
Qed.

Lemma run_queue_inv s ops : 0 <= sub_cap s -> sub_ch s = [] -> sub_recoveryPending s = false ->
  fence_inv (run_queue s ops) /\ sub_cap (qr_sub (run_queue s ops)) = sub_cap s.
Proof.
  intros Hcap Hch Hp. unfold run_queue. induction ops as [|op ops IH] using rev_ind.
  - split; [|done]. split; cbn; rewrite ?Hch; [by exists []|done|done].
  - rewrite foldl_snoc. destruct IH as [I C]. destruct (queue_step_inv _ op ltac:(rewrite C; lia) I) as [I' C'].
    split; [done|]. by rewrite C'.
Qed.

(** The overflow fence. In any run of broadcasts, receives, drains and
    recoveries on a new subscriber, the events admitted since the last recovery
    began are a prefix of those broadcast since then, and all of them while no
    recovery is pending: once one is refused, every later one is refused too. The
    queue stays within its capacity, and what leaves it leaves in the order in
    which it entered. *)
Theorem overflow_fence id after now coalesce size s0 ops :
  NewSubscriber id after now coalesce size = Ok s0 ->
  let r := run_queue s0 ops in
  (exists missed, qr_offered r = qr_admitted r ++ missed /\
     (sub_recoveryPending (qr_sub r) = false -> missed = [])) /\
  qr_entered r = qr_left r ++ sub_ch (qr_sub r) /\
  Z.of_nat (length (sub_ch (qr_sub r))) <= sub_cap s0.
Proof.
  intros E. cbv zeta. assert (0 <= sub_cap s0 /\ sub_ch s0 = [] /\ sub_recoveryPending s0 = false) as (Hc & Hch & Hp).
  { unfold NewSubscriber in E. apply bind_ok in E as (floors & _ & E). apply Ok_inj in E. subst s0. cbn.
    split; [|done]. destruct (Z.leb_spec size 0); lia. }
  destruct (run_queue_inv s0 ops Hc Hch Hp) as [[F1 F2 F3] C]. rewrite C in F3. done.
Qed.

(** ** Replay admission *)
Definition enqueue_all (s : Subscriber) (es : list StoreChangeEvent) : Subscriber :=
  foldl (fun s e => (enqueue s (Some e)).1) s es.

Lemma enqueue_groups s e : sub_startFromNow s = true ->
  sub_admissionGroups (enqueue s (Some e)).1 = note_admission (sub_admissionGroups s) e /\
  sub_startFromNow (enqueue s (Some e)).1 = true.
Proof. intros H. unfold enqueue. rewrite H. by repeat case_match. Qed.

Lemma note_admission_other groups e b : evt_Backend e <> b -> note_admission groups e !! b = groups !! b.
Proof. intros H. unfold note_admission. by rewrite lookup_insert_ne. Qed.

(** The group of a backend: the time of its first broadcast, and the identities
    broadcast at that time. *)
Definition group_inv (g : option admissionGroup) (l : list StoreChangeEvent) : Prop :=
  match l, g with
  | [], None => True
  | f :: _, Some g => ag_clusterTime g = evt_ClusterTime f /\
      forall id, id ∈ ag_eventIDs g <-> (evt_ClusterTime f, id) ∈ map identity l
  | _, _ => False
  end.

Lemma note_admission_inv groups e l :
  group_inv (groups !! evt_Backend e) l -> group_inv (note_admission groups e !! evt_Backend e) (l ++ [e]).
Proof.
  unfold note_admission. rewrite lookup_insert_eq.
  destruct l as [|f l]; destruct (groups !! evt_Backend e) as [g|]; cbn; try done.
  - intros _. rewrite (proj2 (ct_Compare_eq _ _)) by done. cbn. split; [done|]. intros id. unfold identity. set_solver.
  - intros [Ht Hids]. rewrite Ht, map_app.
    assert (forall id, (evt_ClusterTime f, id) ∈ identity f :: map identity l ++ map identity [e] <->
              (evt_ClusterTime f, id) ∈ map identity (f :: l) \/ (evt_ClusterTime f = evt_ClusterTime e /\ id = evt_EventID e)) as Hmem.
    { intros id. rewrite app_comm_cons, elem_of_app. cbn [map]. rewrite list_elem_of_singleton. split.
      - intros [?|H]; [by left|right]. unfold identity in H. by injection H.
      - intros [?|[H ->]]; [by left|right]. unfold identity. by rewrite H. }
    destruct (ct_Compare (evt_ClusterTime e) (evt_ClusterTime f)) eqn:C; cbn; (split; [done|]); intros id; rewrite Hmem.
    + apply ct_Compare_eq in C. rewrite elem_of_union, elem_of_singleton, Hids. naive_solver.
    + rewrite Hids. split; [by left|]. intros [?|[E _]]; [done|].
      rewrite E, ct_Compare_rank, bytes_compare_refl in C. done.
    + rewrite Hids. split; [by left|]. intros [?|[E _]]; [done|].
      rewrite E, ct_Compare_rank, bytes_compare_refl in C. done.
Qed.

Lemma enqueue_all_groups s es :
  sub_startFromNow s = true -> sub_admissionGroups s = ∅ ->
  sub_startFromNow (enqueue_all s es) = true /\
  forall b, group_inv (sub_admissionGroups (enqueue_all s es) !! b) (of_backend b es).
Proof.
  intros Hn Hg. unfold enqueue_all. induction es as [|e es [IHn IH]] using rev_ind.
  { split; [done|]. intros b. cbn. by rewrite Hg, lookup_empty. }
  rewrite foldl_snoc. destruct (enqueue_groups _ e IHn) as [-> ->]. split; [done|]. intros b.
  rewrite of_backend_snoc. destruct (String.eqb_spec (evt_Backend e) b) as [<-|Hne].
  - by apply note_admission_inv.
  - by rewrite note_admission_other.
Qed.

Lemma replayAdmitted_iff s e es :
  sub_startFromNow s = true -> group_inv (sub_admissionGroups s !! evt_Backend e) (of_backend (evt_Backend e) es) ->
  replayAdmitted s (Some e) = true <->
   exists f, head (of_backend (evt_Backend e) es) = Some f /\
     (ct_Compare (evt_ClusterTime e) (evt_ClusterTime f) = Gt \/
      (evt_ClusterTime e = evt_ClusterTime f /\ exists x, x ∈ of_backend (evt_Backend e) es /\ identity x = identity e)).
Proof.
  intros Hn' I.
  unfold replayAdmitted. rewrite Hn'. cbn [negb]. unfold group_inv in I.
  destruct (of_backend (evt_Backend e) es) as [|f l], (sub_admissionGroups s !! evt_Backend e) as [g|]; try done.
  { split; [done|]. intros (? & ? & _). done. }
  destruct I as [-> Hids]. cbn [head]. destruct (ct_Compare (evt_ClusterTime e) (evt_ClusterTime f)) eqn:C.
  - apply ct_Compare_eq in C. rewrite bool_decide_eq_true, Hids, <- C. rewrite list_elem_of_fmap. split.
    + intros (x & Hx & Hin). exists f. split; [done|]. right. split; [done|]. by exists x.
    + intros (f' & Hf' & [G|(_ & x & Hin & Hx)]).
      * simplify_eq. by rewrite C, ct_Compare_rank, bytes_compare_refl in G.
      * by exists x.
  - split; [done|]. intros (f' & Hf' & [G|(Eq & _)]); simplify_eq; [congruence|].
    by rewrite Eq, ct_Compare_rank, bytes_compare_refl in C.
  - split; [|done]. intros _. exists f. auto.
Qed.

(** When the backend broadcasts in time order, what it broadcast is admitted. *)
Lemma broadcast_admitted s e es :
  sub_startFromNow s = true -> group_inv (sub_admissionGroups s !! evt_Backend e) (of_backend (evt_Backend e) es) ->
  in_time_order (of_backend (evt_Backend e) es) -> e ∈ es -> replayAdmitted s (Some e) = true.
Proof.
  intros Hn I Ho He. apply (replayAdmitted_iff _ e es Hn I).
  assert (e ∈ of_backend (evt_Backend e) es) as Hin by (by apply of_backend_elem).
  destruct (of_backend (evt_Backend e) es) as [|f l] eqn:L; [by apply elem_of_nil in Hin|].
  exists f. split; [done|]. apply StronglySorted_inv in Ho as [_ Ho]. rewrite Forall_forall in Ho.
  destruct (ct_Compare (evt_ClusterTime e) (evt_ClusterTime f)) eqn:C; [|exfalso|by left].
  - right. apply ct_Compare_eq in C. split; [done|]. by exists e.
  - apply elem_of_cons in Hin as [->|Hin]; [by rewrite ct_Compare_rank, bytes_compare_refl in C|]. by apply (Ho e).
Qed.

(** Replay admission. For a subscriber that starts from now, after the
    broadcasts [es]: an event of retained history is admitted to replay exactly
    when its backend has broadcast, and it is later than the first broadcast of
    the backend or was itself broadcast at that first time. When each backend
    broadcasts in time order, every broadcast event is admitted. *)
Theorem replayAdmitted_exact id after coalesce size s0 es e :
  NewSubscriber id after true coalesce size = Ok s0 ->
  let s := enqueue_all s0 es in
  (replayAdmitted s (Some e) = true <->
   exists f, head (of_backend (evt_Backend e) es) = Some f /\
     (ct_Compare (evt_ClusterTime e) (evt_ClusterTime f) = Gt \/
      (evt_ClusterTime e = evt_ClusterTime f /\ exists x, x ∈ of_backend (evt_Backend e) es /\ identity x = identity e))) /\
  ((forall b, in_time_order (of_backend b es)) -> e ∈ es -> replayAdmitted s (Some e) = true).
Proof.
  intros E. cbv zeta. assert (sub_startFromNow s0 = true /\ sub_admissionGroups s0 = ∅) as [Hn Hg].
  { unfold NewSubscriber in E. apply bind_ok in E as (floors & _ & E). apply Ok_inj in E. by subst s0. }
  destruct (enqueue_all_groups s0 es Hn Hg) as [Hn' I].
  pose proof (replayAdmitted_iff _ e es Hn' (I (evt_Backend e))) as Hiff.
  split; [exact Hiff|]. intros Ho He. by apply (broadcast_admitted _ e es).
Qed.

(** ** Samples: a subscriber that resumes after time 5 of backend "main" *)
Definition resumed : ProgressMarker := SetPosition NewProgressMarker "main" "5-0-ab".
Definition live_event (id : string) (t : Z) : StoreChangeEvent := {|
  evt_EventID := id; evt_Database := "db"; evt_MgoColl := "documents"; evt_MgoDocID := id;
  evt_OpType := StoreOperationUpdate; evt_FullDocument := None; evt_UpdateDesc := None;
  evt_ClusterTime := ClusterAt t 0; evt_TxnNumber := None; evt_Timestamp := t; evt_Backend := "main" |}.
Definition sample_sub (now : bool) (size : Z) : Subscriber :=
  match NewSubscriber "c1" (Some resumed) now false size with
  | Ok s => s
  | Err _ => sub_Close {| sub_ID := ""; sub_After := resumed; sub_CoalesceOnCatchUp := false; sub_currentPos := resumed;
       sub_lastClusterTime := ∅; sub_deliveredIDs := ∅; sub_done := true; sub_ch := []; sub_cap := 0;
       sub_recoveryPending := false; sub_recovery := false; sub_startFromNow := false; sub_admissionGroups := ∅ |}
  end.
Definition accept : StoreChangeEvent -> string -> option string := fun _ _ => None.
Definition no_cancel : SubContext := fun _ => None.
Definition delivered_sub (s : Subscriber) (e : StoreChangeEvent) : Subscriber :=
  UpdatePosition s (evt_Backend e) (evt_EventID e) (evt_ClusterTime e).

Lemma sample_sub_new now size : NewSubscriber "c1" (Some resumed) now false size = Ok (sample_sub now size).
Proof. reflexivity. Qed.

Lemma sample_reaches :
  reaches (sample_sub false 10) [live_event "5-0-cd" 5; live_event "7-0-ef" 7]
    (delivered_sub (delivered_sub (sample_sub false 10) (live_event "5-0-cd" 5)) (live_event "7-0-ef" 7)).
Proof.
  set (s1 := delivered_sub (sample_sub false 10) (live_event "5-0-cd" 5)).
  assert (step : forall s e, ShouldSend s (evt_Backend e) (evt_EventID e) (evt_ClusterTime e) = true -> sub_done s = false ->
            sub_step s (Some e) (delivered_sub s e)).
  { intros s e Hs Hd. apply (step_deliver accept no_cancel s (Some e) SubscriptionPhaseLive _ None).
    unfold deliverSubscriptionEvent, subscriptionStopped. cbn. by rewrite Hd, Hs. }
  apply (reaches_step _ [live_event "5-0-cd" 5] s1 (Some (live_event "7-0-ef" 7))); [|by apply step].
  apply (reaches_step _ [] (sample_sub false 10) (Some (live_event "5-0-cd" 5))); [constructor|by apply step].
Qed.

Lemma acknowledged_in_order_witness :
  GetPosition (CurrentProgress (delivered_sub (delivered_sub (sample_sub false 10) (live_event "5-0-cd" 5))
    (live_event "7-0-ef" 7))) "main" = "7-0-ef".
Proof.
  exact (proj2 (proj2 (proj2 (acknowledged_in_order "c1" (Some resumed) false false 10 (sample_sub false 10)
    [live_event "5-0-cd" 5; live_event "7-0-ef" 7] _ "main" (sample_sub_new false 10) sample_reaches)))).
Defined.

Lemma unsent_events_known_witness :
  (exists f, sub_lastClusterTime (sample_sub false 10) !! "main" = Some f /\ ct_Compare (ClusterAt 6 0) f = Lt) \/
  (exists x, x ∈ [live_event "5-0-cd" 5; live_event "7-0-ef" 7] /\ evt_Backend x = "main" /\
     ct_Compare (ClusterAt 6 0) (evt_ClusterTime x) = Lt) \/
  (exists x, x ∈ [live_event "5-0-cd" 5; live_event "7-0-ef" 7] /\ evt_Backend x = "main" /\
     identity x = (ClusterAt 6 0, "6-0-aa")).
Proof.
  exact (unsent_events_known "c1" (Some resumed) false false 10 (sample_sub false 10) _ _ accept no_cancel
    (live_event "6-0-aa" 6) SubscriptionPhaseReplay
    (delivered_sub (delivered_sub (sample_sub false 10) (live_event "5-0-cd" 5)) (live_event "7-0-ef" 7))
    (sample_sub_new false 10) sample_reaches eq_refl).
Defined.

Lemma overflow_fence_witness :
  let r := run_queue (sample_sub false 1) [QBroadcast (Some (live_event "8-0-aa" 8)); QBroadcast (Some (live_event "9-0-aa" 9));
             QReceive; QBroadcast (Some (live_event "9-1-aa" 9))] in
  exists missed, qr_offered r = qr_admitted r ++ missed.
Proof.
  cbv zeta. destruct (overflow_fence "c1" (Some resumed) false false 1 (sample_sub false 1)
    [QBroadcast (Some (live_event "8-0-aa" 8)); QBroadcast (Some (live_event "9-0-aa" 9)); QReceive;
     QBroadcast (Some (live_event "9-1-aa" 9))] (sample_sub_new false 1)) as ((missed & H & _) & _).
  exists missed. exact H.
Defined.

Lemma replayAdmitted_exact_witness :
  replayAdmitted (enqueue_all (sample_sub true 10) [live_event "8-0-aa" 8]) (Some (live_event "8-0-aa" 8)) = true.
Proof.
  apply (replayAdmitted_exact "c1" (Some resumed) false 10 (sample_sub true 10) [live_event "8-0-aa" 8] (live_event "8-0-aa" 8)
    (sample_sub_new true 10)).
  - intros b. unfold of_backend. cbn [List.filter]. destruct (String.eqb (evt_Backend (live_event "8-0-aa" 8)) b); repeat constructor.
  - left.
Defined.

(** * The registry of subscribers: SubscriberManager of internal/puller/core/subscriber.go

    Subscribers are shared objects: the registry holds pointers, and the goroutine of
    a subscription keeps its object after it left the registry. *)
Record SubscriberManager := { sm_objects : gmap nat Subscriber; sm_subscribers : gset nat }.

Definition NewSubscriberManager (objects : gmap nat Subscriber) : SubscriberManager :=
  {| sm_objects := objects; sm_subscribers := ∅ |}.

Definition sm_Add (m : SubscriberManager) (p : nat) : SubscriberManager :=
  {| sm_objects := sm_objects m; sm_subscribers := {[p]} ∪ sm_subscribers m |}.
Definition sm_Remove (m : SubscriberManager) (p : nat) : SubscriberManager :=
  if decide (p ∈ sm_subscribers m)
  then {| sm_objects := alter sub_Close p (sm_objects m); sm_subscribers := sm_subscribers m ∖ {[p]} |}
  else m.
Definition sm_Count (m : SubscriberManager) : nat := size (sm_subscribers m).

(** Applying a method to every registered object; each has its own lock, so the order
    of the range over the set does not matter. *)
Definition on_registered (m : SubscriberManager) (f : Subscriber -> Subscriber) : gmap nat Subscriber :=
  map_imap (fun p s => Some (if decide (p ∈ sm_subscribers m) then f s else s)) (sm_objects m).

Definition sm_CloseAll (m : SubscriberManager) : SubscriberManager :=
  {| sm_objects := on_registered m sub_Close; sm_subscribers := ∅ |}.
Definition sm_Broadcast (m : SubscriberManager) (e : option StoreChangeEvent) : SubscriberManager :=
  {| sm_objects := on_registered m (fun s => (enqueue s e).1); sm_subscribers := sm_subscribers m |}.
(** Whom the broadcast sends into recovery. *)
Definition sm_recovering (m : SubscriberManager) (e : option StoreChangeEvent) : gset nat :=
  filter (fun p => match sm_objects m !! p with Some s => (enqueue s e).2.2 | None => false end = true) (sm_subscribers m).

Lemma on_registered_lookup m f p :
  on_registered m f !! p = (fun s => if decide (p ∈ sm_subscribers m) then f s else s) <$> sm_objects m !! p.
Proof. unfold on_registered. rewrite map_lookup_imap. by destruct (sm_objects m !! p). Qed.

Inductive sm_op := SmAdd (p : nat) | SmRemove (p : nat) | SmCloseAll | SmBroadcast (e : option StoreChangeEvent).
Definition sm_step (m : SubscriberManager) (o : sm_op) : SubscriberManager :=
  match o with
  | SmAdd p => sm_Add m p | SmRemove p => sm_Remove m p | SmCloseAll => sm_CloseAll m | SmBroadcast e => sm_Broadcast m e
  end.

(** A subscriber that has left the registry is closed for good, and no later broadcast
    reaches it unless it is added again. *)
Theorem left_registry_closed m p s ops :
  sm_objects m !! p = Some s -> p ∈ sm_subscribers m -> (forall o, o ∈ ops -> o <> SmAdd p) ->
  (sm_objects (fold_left sm_step ops (sm_Remove m p)) !! p = Some (sub_Close s)) /\
  (sm_objects (fold_left sm_step ops (sm_CloseAll m)) !! p = Some (sub_Close s)).
Proof.
  intros Hs Hp Hno.
  assert (Hkeep : forall m, sm_objects m !! p = Some (sub_Close s) -> p ∉ sm_subscribers m ->
                  sm_objects (fold_left sm_step ops m) !! p = Some (sub_Close s)).
  { revert Hno. clear. intros Hno. induction ops as [|o ops IH]; intros m Hs Hp; cbn; [done|].
    apply IH; [set_solver|..]; destruct o as [q|q| |e]; cbn.
    - done.
    - unfold sm_Remove. case_decide; [|done]. cbn. rewrite lookup_alter_ne; [done|]. by intros ->.
    - rewrite on_registered_lookup, Hs. cbn. by rewrite decide_False.
    - rewrite on_registered_lookup, Hs. cbn. by rewrite decide_False.
    - specialize (Hno (SmAdd q) ltac:(left)). assert (q <> p) by congruence. set_solver.
    - unfold sm_Remove. case_decide; cbn; set_solver.
    - set_solver.
    - done. }
  split; apply Hkeep.
  - unfold sm_Remove. rewrite decide_True by done. cbn. by rewrite lookup_alter_eq, Hs.
  - unfold sm_Remove. rewrite decide_True by done. cbn. set_solver.
  - cbn. rewrite on_registered_lookup, Hs. cbn. by rewrite decide_True.
  - cbn. set_solver.
Qed.
