(* ===== verification/Admission.v ===== *)
(** * Subscription admission: internal/puller/events/admission.go

    The status of a monitored subscription. A control frame is stamped when it is
    received and acknowledged when the consumer reaches it in the event channel;
    the subscription serves only while an acknowledged admission is fresh. The
    mutex makes each method one step; time is the reading of the clock. *)
From stdpp Require Import base list sorting gmap strings.
From Stdlib Require Import ZArith.
From S2P Require Import Prelude Value IndexStore Projection Events.
Local Open Scope Z_scope.

Definition AdmissionStarting : string := "starting".
Definition AdmissionReplaying : string := "replaying".
Definition AdmissionAdmitted : string := "admitted".
Definition AdmissionRecovering : string := "recovering".
(** Three seconds, in nanoseconds. *)
Definition AdmissionFreshness : Z := 3000000000.
Definition ErrAdmissionUnavailable : string := "subscription admission unavailable".

Record PullerEvent := {
  pe_Change : option StoreChangeEvent; pe_Progress : string; pe_Ready : bool; pe_Error : option string;
  pe_Retryable : bool; pe_AdmissionState : string; pe_AdmissionGeneration : Z; pe_AdmissionReason : string;
  pe_TransportGeneration : Z; pe_admissionReceived : option Z;
}.

(** A time is [None] before it is set. A signal closes the channel [changed] and
    makes a new one: the channel is the number of signals. *)
Record SubscriptionStatus := {
  ss_state : string; ss_reason : string; ss_transport : Z; ss_generation : Z; ss_consumed : bool;
  ss_refreshed : option Z; ss_observed : option Z; ss_terminal : bool; ss_err : option string;
  ss_changed : nat; ss_done : bool;
}.

Definition NewSubscriptionStatus : SubscriptionStatus :=
  {| ss_state := AdmissionStarting; ss_reason := ""; ss_transport := 0; ss_generation := 0; ss_consumed := false;
     ss_refreshed := None; ss_observed := None; ss_terminal := false; ss_err := None; ss_changed := 0;
     ss_done := false |}.

(** [time.Since(t) >= AdmissionFreshness]; the zero time is long ago. *)
Definition stale (now : Z) (t : option Z) : bool :=
  match t with None => true | Some t => AdmissionFreshness <=? now - t end.

Definition status_expire (s : SubscriptionStatus) (now : Z) : SubscriptionStatus :=
  if ss_consumed s && stale now (ss_observed s) then
    {| ss_state := ss_state s; ss_reason := ss_reason s; ss_transport := ss_transport s;
       ss_generation := ss_generation s; ss_consumed := false; ss_refreshed := ss_refreshed s;
       ss_observed := ss_observed s; ss_terminal := ss_terminal s; ss_err := Some ErrAdmissionUnavailable;
       ss_changed := S (ss_changed s); ss_done := ss_done s |}
  else s.

Definition BeginAttempt (s : SubscriptionStatus) : SubscriptionStatus * Z :=
  if ss_terminal s then (s, ss_transport s)
  else
    let transport := u64 (ss_transport s + 1) in
    ({| ss_state := AdmissionStarting; ss_reason := ""; ss_transport := transport; ss_generation := 0;
        ss_consumed := false; ss_refreshed := None; ss_observed := None; ss_terminal := ss_terminal s;
        ss_err := None; ss_changed := S (ss_changed s); ss_done := ss_done s |}, transport).

Definition admission_state_known (state : string) : bool :=
  bool_decide (state ∈ [AdmissionStarting; AdmissionReplaying; AdmissionAdmitted; AdmissionRecovering]).
Definition admission_reason_known (reason : string) : bool :=
  bool_decide (reason ∈ [""; "source_unavailable"; "overflow"]%string).

Definition stamp (e : PullerEvent) (now : Z) : PullerEvent :=
  {| pe_Change := pe_Change e; pe_Progress := pe_Progress e; pe_Ready := pe_Ready e; pe_Error := pe_Error e;
     pe_Retryable := pe_Retryable e; pe_AdmissionState := pe_AdmissionState e;
     pe_AdmissionGeneration := pe_AdmissionGeneration e; pe_AdmissionReason := pe_AdmissionReason e;
     pe_TransportGeneration := pe_TransportGeneration e; pe_admissionReceived := Some now |}.

(** The guards of Receive, in the order of the code. *)
Definition receivable (s : SubscriptionStatus) (e : PullerEvent) : bool :=
  negb (ss_terminal s || negb (pe_TransportGeneration e =? ss_transport s) || (pe_AdmissionGeneration e =? 0)
        || (pe_AdmissionGeneration e <? ss_generation s))
  && admission_state_known (pe_AdmissionState e)
  && Bool.eqb (pe_Ready e) (String.eqb (pe_AdmissionState e) AdmissionAdmitted)
  && admission_reason_known (pe_AdmissionReason e).

(** The status, the event with its stamp, and whether the control was accepted. *)
Definition Receive (s : SubscriptionStatus) (e : PullerEvent) (now : Z) : SubscriptionStatus * PullerEvent * bool :=
  if receivable s e then
    let changed := negb (ss_generation s =? pe_AdmissionGeneration e)
                   || negb (String.eqb (ss_state s) (pe_AdmissionState e)) in
    ({| ss_state := pe_AdmissionState e; ss_reason := pe_AdmissionReason e; ss_transport := ss_transport s;
        ss_generation := pe_AdmissionGeneration e;
        ss_consumed := if changed || negb (String.eqb (pe_AdmissionState e) AdmissionAdmitted)
                       then false else ss_consumed s;
        ss_refreshed := Some now; ss_observed := ss_observed s; ss_terminal := ss_terminal s; ss_err := None;
        ss_changed := if changed then S (ss_changed s) else ss_changed s; ss_done := ss_done s |},
     stamp e now, true)
  else (s, e, false).

(** [a.After(b)] for a time that is set. *)
Definition t_After (a : Z) (b : option Z) : bool := match b with None => true | Some b => b <? a end.

(** Acknowledgment of a control; [None] is a nil event. *)
Definition Observe (s : SubscriptionStatus) (e : option PullerEvent) (now : Z) : SubscriptionStatus :=
  match e with
  | None => s
  | Some e =>
      if String.eqb (pe_AdmissionState e) "" then s
      else
        let s := status_expire s now in
        match pe_admissionReceived e with
        | None => s
        | Some received =>
            if ss_terminal s || negb (pe_TransportGeneration e =? ss_transport s)
               || negb (pe_AdmissionGeneration e =? ss_generation s)
               || negb (String.eqb (pe_AdmissionState e) (ss_state s))
               || stale now (Some received) || stale now (ss_refreshed s) then s
            else if String.eqb (pe_AdmissionState e) AdmissionAdmitted && pe_Ready e then
              {| ss_state := ss_state s; ss_reason := ss_reason s; ss_transport := ss_transport s;
                 ss_generation := ss_generation s; ss_consumed := true; ss_refreshed := ss_refreshed s;
                 ss_observed := if t_After received (ss_observed s) then Some received else ss_observed s;
                 ss_terminal := ss_terminal s; ss_err := None;
                 ss_changed := if ss_consumed s then ss_changed s else S (ss_changed s); ss_done := ss_done s |}
            else s
        end
  end.

Definition status_Fail (s : SubscriptionStatus) (err : option string) (terminal : bool) : SubscriptionStatus :=
  if ss_terminal s then s
  else {| ss_state := AdmissionRecovering; ss_reason := if terminal then "terminal" else "transport_unavailable";
          ss_transport := u64 (ss_transport s + 1); ss_generation := ss_generation s; ss_consumed := false;
          ss_refreshed := ss_refreshed s; ss_observed := ss_observed s; ss_terminal := terminal; ss_err := err;
          ss_changed := S (ss_changed s); ss_done := ss_done s || terminal |}.

Record AdmissionSnapshot := {
  as_State : string; as_Reason : string; as_TransportGeneration : Z; as_AdmissionGeneration : Z;
  as_Ready : bool; as_Terminal : bool; as_Err : option string; as_Changed : nat;
}.

Definition status_Snapshot (s : SubscriptionStatus) (now : Z) : SubscriptionStatus * AdmissionSnapshot :=
  let s := status_expire s now in
  (s, {| as_State := ss_state s; as_Reason := ss_reason s; as_TransportGeneration := ss_transport s;
         as_AdmissionGeneration := ss_generation s; as_Ready := ss_consumed s && negb (ss_terminal s);
         as_Terminal := ss_terminal s; as_Err := ss_err s; as_Changed := ss_changed s |}).

(** No error while the subscription serves. *)
Definition status_Err (s : SubscriptionStatus) (ctxErr : option string) (now : Z) : SubscriptionStatus * option string :=
  match ctxErr with
  | Some err => (s, Some err)
  | None =>
      let '(s, snap) := status_Snapshot s now in
      (s, if as_Ready snap then None
          else match as_Err snap with Some err => Some err | None => Some ErrAdmissionUnavailable end)
  end.

(** ** The status and the event channel

    The producer stamps a control and sends it down the channel behind the events
    it has sent before; the consumer takes events in that order and acknowledges
    the controls among them. [mon_sent] is everything sent, [mon_queue] what the
    consumer has not taken. *)
Record monitored := { mon_status : SubscriptionStatus; mon_sent : list PullerEvent; mon_queue : list PullerEvent }.

Definition new_monitored : monitored :=
  {| mon_status := NewSubscriptionStatus; mon_sent := []; mon_queue := [] |}.

Inductive mon_op :=
| MonBegin
| MonControl (e : PullerEvent) (now : Z)
| MonEvent (e : PullerEvent)
| MonConsume (now : Z)
| MonFail (err : option string) (terminal : bool)
| MonTick (now : Z).

Definition is_control (e : PullerEvent) : bool := negb (String.eqb (pe_AdmissionState e) "").

Definition mon_with (m : monitored) (s : SubscriptionStatus) : monitored :=
  {| mon_status := s; mon_sent := mon_sent m; mon_queue := mon_queue m |}.
Definition mon_send (m : monitored) (s : SubscriptionStatus) (e : PullerEvent) : monitored :=
  {| mon_status := s; mon_sent := mon_sent m ++ [e]; mon_queue := mon_queue m ++ [e] |}.

(** A control that is not accepted is not sent; an event with business content is
    no control. *)
Definition mon_step (m : monitored) (o : mon_op) : monitored :=
  let s := mon_status m in
  match o with
  | MonBegin => mon_with m (BeginAttempt s).1
  | MonControl e now =>
      let '(s, e, ok) := Receive s e now in if (ok : bool) then mon_send m s e else m
  | MonEvent e => if is_control e then m else mon_send m s e
  | MonConsume now =>
      match mon_queue m with
      | [] => m
      | e :: queue => {| mon_status := Observe s (Some e) now; mon_sent := mon_sent m; mon_queue := queue |}
      end
  | MonFail err terminal => mon_with m (status_Fail s err terminal)
  | MonTick now => mon_with m (status_expire s now)
  end.

Definition mon_run (m : monitored) (ops : list mon_op) : monitored := fold_left mon_step ops m.

(** Clock readings do not go back. *)
Definition op_time (o : mon_op) : option Z :=
  match o with MonControl _ now | MonConsume now | MonTick now => Some now | _ => None end.
Definition op_times (ops : list mon_op) : list Z := omap op_time ops.

(** ** Frames and their order *)

(** Transport generations come first, admission generations within one transport
    second. *)
Definition tg_le (a b : Z * Z) : Prop := a.1 < b.1 \/ (a.1 = b.1 /\ a.2 <= b.2).
Definition tg (e : PullerEvent) : Z * Z := (pe_TransportGeneration e, pe_AdmissionGeneration e).
Definition status_tg (s : SubscriptionStatus) : Z * Z := (ss_transport s, ss_generation s).

(** Of two controls, the first was accepted before the second. *)
Definition sent_before (a b : PullerEvent) : Prop :=
  is_control a -> is_control b ->
  tg_le (tg a) (tg b) /\ default 0 (pe_admissionReceived a) <= default 0 (pe_admissionReceived b).

(** A control is stamped, and bounded by a clock reading and by the generations. *)
Definition stamped_by (clock : Z) (bound : Z * Z) (e : PullerEvent) : Prop :=
  is_control e -> exists t, pe_admissionReceived e = Some t /\ t <= clock /\ tg_le (tg e) bound.

(** An admission of the current generations that the consumer has taken. *)
Definition admission_taken (m : monitored) (e : PullerEvent) (t : Z) : Prop :=
  exists l1 l2 l3, mon_sent m = l1 ++ e :: l2 ++ l3 /\ mon_queue m = l3 /\
    pe_AdmissionState e = AdmissionAdmitted /\ tg e = status_tg (mon_status m) /\ pe_admissionReceived e = Some t.

Record mon_inv (m : monitored) (n : nat) (clock : Z) : Prop := {
  mi_transport : 0 <= ss_transport (mon_status m) <= Z.of_nat n;
  mi_suffix : exists taken, mon_sent m = taken ++ mon_queue m;
  mi_sorted : StronglySorted sent_before (mon_sent m);
  mi_stamped : Forall (stamped_by clock (status_tg (mon_status m))) (mon_sent m);
  mi_observed : forall t e, ss_observed (mon_status m) = Some t -> e ∈ mon_queue m -> is_control e ->
                t <= default 0 (pe_admissionReceived e);
  mi_observed_clock : forall t, ss_observed (mon_status m) = Some t -> t <= clock;
  mi_consumed : ss_consumed (mon_status m) = true ->
    ss_terminal (mon_status m) = false /\ ss_state (mon_status m) = AdmissionAdmitted /\
    exists e t, ss_observed (mon_status m) = Some t /\ admission_taken m e t;
}.

Lemma tg_le_trans a b c : tg_le a b -> tg_le b c -> tg_le a c.
Proof. unfold tg_le. lia. Qed.

Lemma stamped_by_mono clock clock' b b' e :
  clock <= clock' -> tg_le b b' -> stamped_by clock b e -> stamped_by clock' b' e.
Proof. intros Hc Hb H Hi. destruct (H Hi) as (t & E & Ht & Hle). exists t. split_and!; [done| lia| by eapply tg_le_trans]. Qed.

Lemma mon_inv_clock m n clock clock' : clock <= clock' -> mon_inv m n clock -> mon_inv m n clock'.
Proof.
  intros Hc [H1 H2 H3 H4 H5 H6 H7]. split; try done.
  - eapply Forall_impl; [exact H4|]. intros e. apply stamped_by_mono; [done|]. unfold tg_le. lia.
  - intros t Ht. specialize (H6 _ Ht). lia.
Qed.

(** A new status that serves nothing, or still serves what it served. *)
Lemma mon_inv_status m n n' clock s :
  mon_inv m n clock -> (n <= n')%nat -> 0 <= ss_transport s <= Z.of_nat n' ->
  tg_le (status_tg (mon_status m)) (status_tg s) ->
  (ss_observed s = ss_observed (mon_status m) \/ ss_observed s = None) -> ss_consumed s = false ->
  mon_inv (mon_with m s) n' clock.
Proof.
  intros [H1 H2 H3 H4 H5 H6 H7] Hn Ht Htg Hobs Hc. split; cbn; try done.
  - eapply Forall_impl; [exact H4|]. intros e. apply stamped_by_mono; [lia| done].
  - intros t e. destruct Hobs as [-> | ->]; [apply H5| done].
  - intros t. destruct Hobs as [-> | ->]; [apply H6| done].
  - by rewrite Hc.
Qed.

Lemma expire_same s now :
  status_tg (status_expire s now) = status_tg s /\ ss_observed (status_expire s now) = ss_observed s /\
  ss_terminal (status_expire s now) = ss_terminal s /\ ss_state (status_expire s now) = ss_state s /\
  ss_refreshed (status_expire s now) = ss_refreshed s /\
  (ss_consumed (status_expire s now) = true -> ss_consumed s = true /\ stale now (ss_observed s) = false).
Proof.
  unfold status_expire. destruct (ss_consumed s) eqn:E, (stale now (ss_observed s)) eqn:F; cbn; try done; by rewrite E.
Qed.

Lemma expire_inv m n clock now : mon_inv m n clock -> mon_inv (mon_with m (status_expire (mon_status m) now)) n clock.
Proof.
  intros H. unfold status_expire. destruct (_ && _) eqn:G; [|by destruct m].
  destruct H as [H1 H2 H3 H4 H5 H6 H7]. by split.
Qed.

Lemma sorted_snoc {A} (R : A -> A -> Prop) l x :
  StronglySorted R l -> Forall (fun y => R y x) l -> StronglySorted R (l ++ [x]).
Proof.
  induction 1 as [|y l Hl IH Hy]; cbn; intros Hx; [repeat constructor|].
  inversion_clear Hx. constructor; [by apply IH|]. apply Forall_app. by repeat constructor.
Qed.

Lemma receivable_spec s e :
  receivable s e = true ->
  ss_terminal s = false /\ pe_TransportGeneration e = ss_transport s /\ ss_generation s <= pe_AdmissionGeneration e /\
  is_control e = true.
Proof.
  unfold receivable, admission_state_known. rewrite !andb_true_iff, negb_true_iff, !orb_false_iff, negb_false_iff, bool_decide_eq_true.
  intros (((H1 & H2) & _) & _). destruct H1 as [[[H1 H3] _] H4]. split_and!; [done| lia| lia|].
  unfold is_control. rewrite !elem_of_cons in H2. by destruct H2 as [->|[->|[->|[->|[]%elem_of_nil]]]].
Qed.

(** Sending a frame: a control that was just accepted, or an event that is none. *)
Lemma send_inv m n clock s e :
  mon_inv m n clock -> ss_observed s = ss_observed (mon_status m) -> ss_transport s = ss_transport (mon_status m) ->
  tg_le (status_tg (mon_status m)) (status_tg s) ->
  (is_control e -> pe_admissionReceived e = Some clock /\ tg e = status_tg s) ->
  (ss_consumed s = true -> ss_consumed (mon_status m) = true /\ status_tg s = status_tg (mon_status m) /\
     ss_state s = ss_state (mon_status m) /\ ss_terminal s = ss_terminal (mon_status m)) ->
  mon_inv (mon_send m s e) n clock.
Proof.
  intros [H1 [taken H2] H3 H4 H5 H6 H7] Hobs Htr Htg He Hc. split; cbn.
  - by rewrite Htr.
  - exists taken. by rewrite H2, app_assoc.
  - apply sorted_snoc; [done|]. eapply Forall_impl; [exact H4|]. intros a Ha Hia Hie.
    destruct (Ha Hia) as (t & E & Ht & Hle), (He Hie) as [Ee Etg]. rewrite E, Ee, Etg. cbn.
    split; [by eapply tg_le_trans| done].
  - apply Forall_app. split.
    + eapply Forall_impl; [exact H4|]. intros a. by apply stamped_by_mono.
    + repeat constructor. intros Hi. destruct (He Hi) as [Ee ->]. exists clock. split_and!; [done| done|].
      unfold tg_le. lia.
  - intros t a. rewrite Hobs, elem_of_app, list_elem_of_singleton. intros Ht [Ha| ->] Hi; [by eapply H5|].
    destruct (He Hi) as [-> _]. by apply H6.
  - rewrite Hobs. apply H6.
  - intros Hcs. destruct (Hc Hcs) as (Hc0 & Etg & Est & Eterm). rewrite Eterm, Est, Hobs.
    destruct (H7 Hc0) as (? & ? & a & t & Ho & l1 & l2 & l3 & Es & Eq & Ha).
    split_and!; [done| done|]. exists a, t. split; [done|]. exists l1, l2, (l3 ++ [e]). cbn.
    rewrite Es, Eq, Etg. split_and!; try apply Ha; [|done]. by rewrite <- !app_assoc, <- app_comm_cons, <- app_assoc.
Qed.

Lemma pop_inv m n clock e queue :
  mon_queue m = e :: queue -> mon_inv m n clock ->
  mon_inv {| mon_status := mon_status m; mon_sent := mon_sent m; mon_queue := queue |} n clock.
Proof.
  intros Eq [H1 [taken H2] H3 H4 H5 H6 H7]. split; cbn; try done.
  - exists (taken ++ [e]). by rewrite H2, Eq, <- app_assoc.
  - intros t a Ht Ha. apply H5; [done|]. rewrite Eq. set_solver.
  - intros Hc. destruct (H7 Hc) as (? & ? & a & t & Ho & l1 & l2 & l3 & Es & Eq' & Ha).
    split_and!; [done| done|]. exists a, t. split; [done|]. exists l1, (l2 ++ [e]), queue. cbn. split_and!; try apply Ha; [|done].
    rewrite Es. do 2 f_equal. rewrite <- app_assoc. cbn. f_equal. congruence.
Qed.

Lemma sorted_mid {A} (R : A -> A -> Prop) l x k : StronglySorted R (l ++ x :: k) -> forall y, y ∈ k -> R x y.
Proof.
  induction l as [|z l IH]; cbn; intros [Hl H]%StronglySorted_inv; [|by apply IH].
  rewrite Forall_forall in H. apply H.
Qed.

(** The acknowledgment of an admission: the consumer has taken it and everything
    sent before it. *)
Lemma acknowledge_inv m n clock e queue received s :
  mon_queue m = e :: queue -> mon_inv m n clock -> is_control e -> pe_admissionReceived e = Some received ->
  pe_AdmissionState e = AdmissionAdmitted -> tg e = status_tg (mon_status m) ->
  status_tg s = status_tg (mon_status m) -> ss_state s = AdmissionAdmitted -> ss_terminal s = false ->
  ss_observed s = (if t_After received (ss_observed (mon_status m)) then Some received else ss_observed (mon_status m)) ->
  mon_inv {| mon_status := s; mon_sent := mon_sent m; mon_queue := queue |} n clock.
Proof.
  intros Eq [H1 [taken H2] H3 H4 H5 H6 H7] Hi Er Ea Etg Es Est Hterm Hobs.
  assert (Hin : e ∈ mon_sent m) by (rewrite H2, Eq; set_solver).
  assert (ss_observed s = Some received) as Ho.
  { rewrite Hobs. unfold t_After. destruct (ss_observed (mon_status m)) as [t|] eqn:E; [|done].
    destruct (t <? received) eqn:L; [done|]. f_equal. rewrite Z.ltb_ge in L.
    specialize (H5 t e eq_refl ltac:(rewrite Eq; set_solver) Hi). rewrite Er in H5. cbn in H5. lia. }
  assert (received <= clock) as Hle.
  { rewrite Forall_forall in H4. destruct (H4 _ Hin Hi) as (t & E & Ht & _). assert (t = received) by congruence. lia. }
  split; cbn.
  - change (ss_transport s) with (status_tg s).1. by rewrite Es.
  - exists (taken ++ [e]). by rewrite H2, Eq, <- app_assoc.
  - done.
  - by rewrite Es.
  - intros t a Ht Ha Hia. rewrite Ho in Ht. injection Ht as <-. rewrite H2, Eq in H3.
    destruct (sorted_mid _ _ _ _ H3 a Ha Hi Hia) as [_ Hr]. by rewrite Er in Hr.
  - intros t. rewrite Ho. by intros [= <-].
  - intros _. split_and!; [done| done|]. exists e, received. split; [done|]. exists taken, [], queue. cbn.
    rewrite Es. split_and!; try done. by rewrite H2, Eq.
Qed.

Lemma consume_inv m n clock e queue :
  mon_queue m = e :: queue -> mon_inv m n clock ->
  mon_inv {| mon_status := Observe (mon_status m) (Some e) clock; mon_sent := mon_sent m; mon_queue := queue |} n clock.
Proof.
  intros Eq H. pose proof (pop_inv _ _ _ _ _ Eq H) as Hpop. unfold Observe.
  destruct (String.eqb_spec (pe_AdmissionState e) "") as [|Hctl]; [done|].
  assert (is_control e) as Hi by (unfold is_control; by apply Is_true_true, negb_true_iff, String.eqb_neq).
  pose proof (expire_inv _ _ _ clock Hpop) as Hexp. unfold mon_with in Hexp. cbn in Hexp.
  pose proof (expire_inv _ _ _ clock H) as Hexp0.
  destruct (expire_same (mon_status m) clock) as (Etg & Eobs & Eterm & Est & _).
  destruct (pe_admissionReceived e) as [received|] eqn:Er; [|done].
  destruct (_ || stale clock (ss_refreshed _)) eqn:G; [done|].
  destruct (_ && pe_Ready e) eqn:A; [|done].
  rewrite !orb_false_iff, !negb_false_iff in G. destruct G as [[[[[G1 G2] G3] G4] _] _].
  apply andb_true_iff in A as [A _]. apply String.eqb_eq in A, G4. apply Z.eqb_eq in G2, G3.
  eapply (acknowledge_inv (mon_with m (status_expire (mon_status m) clock)));
    [exact Eq| exact Hexp0| done| exact Er| done| | done| by rewrite A in G4| done| done].
  unfold tg, status_tg. cbn. by rewrite G2, G3.
Qed.

Lemma u64_succ z n : 0 <= z <= Z.of_nat n -> Z.of_nat (S n) < 2 ^ 64 -> u64 (z + 1) = z + 1.
Proof. intros. apply u64_id. unfold is_u64. lia. Qed.

Lemma mon_step_inv m n clock o :
  mon_inv m n clock -> Z.of_nat (S n) < 2 ^ 64 -> clock <= default clock (op_time o) ->
  mon_inv (mon_step m o) (S n) (default clock (op_time o)).
Proof.
  intros H0 Hn Hc. assert (H : mon_inv m (S n) (default clock (op_time o))).
  { apply (mon_inv_clock _ _ clock); [done|]. destruct H0. split; try done. lia. }
  pose proof (mi_transport _ _ _ H0) as Ht. clear H0. set (now := default clock (op_time o)) in *.
  destruct o; cbn [mon_step].
  - unfold BeginAttempt. destruct (ss_terminal _); [by destruct m|].
    rewrite (u64_succ _ n) by done. eapply mon_inv_status; [exact H| done| cbn; lia| |by right| done].
    unfold tg_le. cbn. lia.
  - unfold Receive. destruct (receivable _ _) eqn:R; [|done].
    apply receivable_spec in R as (R1 & R2 & R3 & R4). apply send_inv; cbn; try done.
    + unfold tg_le. cbn. lia.
    + intros _. unfold tg, status_tg. cbn. by rewrite R2.
    + destruct (negb _ || negb _ || negb _) eqn:C; [done|]. rewrite !orb_false_iff, !negb_false_iff in C.
      destruct C as [[C1 C2] _]. apply Z.eqb_eq in C1. apply String.eqb_eq in C2. intros Hcons.
      unfold status_tg. cbn. by rewrite C1, C2.
  - destruct (is_control e) eqn:E; [done|]. apply send_inv; try done; [unfold tg_le; lia|].
    intros Hi. by rewrite E in Hi.
  - destruct (mon_queue m) as [|e queue] eqn:Q; [done|]. by apply consume_inv.
  - unfold status_Fail. destruct (ss_terminal _); [by destruct m|].
    rewrite (u64_succ _ n) by done. eapply mon_inv_status; [exact H| done| cbn; lia| |by left| done].
    unfold tg_le. cbn. lia.
  - by apply expire_inv.
Qed.

(** The last reading of a run that starts at [clock]. *)
Definition clock_after (clock : Z) (ops : list mon_op) : Z := default clock (last (op_times ops)).

Lemma mon_run_inv m n clock ops :
  mon_inv m n clock -> Z.of_nat (n + length ops) < 2 ^ 64 -> Sorted Z.le (clock :: op_times ops) ->
  mon_inv (mon_run m ops) (n + length ops) (clock_after clock ops).
Proof.
  revert m n clock. induction ops as [|o ops IH]; intros m n clock H Hn Hs; cbn.
  { unfold clock_after. cbn. by rewrite Nat.add_0_r. }
  assert (Hc : clock <= default clock (op_time o) /\ Sorted Z.le (default clock (op_time o) :: op_times ops) /\
               clock_after clock (o :: ops) = clock_after (default clock (op_time o)) ops).
  { unfold clock_after, op_times in *. cbn in *. destruct (op_time o) as [t|]; cbn; [|split_and!; [lia| done| done]].
    apply Sorted_inv in Hs as [Hs Hh]. inversion_clear Hh. split_and!; [done| done|].
    destruct (omap op_time ops) as [|y l]; [done|]. rewrite last_cons_cons.
    destruct (last (y :: l)) eqn:E; [done|]. by apply last_None in E. }
  destruct Hc as (Hc & Hs' & ->). cbn in Hn. replace (n + S (length ops))%nat with (S n + length ops)%nat by lia.
  apply IH; [|lia| done]. apply mon_step_inv; [done| lia| done].
Qed.

Lemma new_monitored_inv clock : mon_inv new_monitored 0 clock.
Proof. split; cbn; [lia| by exists []| constructor| constructor| intros ? ? [=]| intros ? [=]| intros [=]]. Qed.

Lemma sorted_clock l now :
  Sorted Z.le (l ++ [now]) ->
  Sorted Z.le (default now (head l) :: l) /\ default (default now (head l)) (last l) <= now.
Proof.
  intros H. apply Sorted_StronglySorted in H; [|exact Z.le_trans]. split.
  - apply StronglySorted_app_1_l, StronglySorted_Sorted in H. destruct l as [|x l]; cbn; [repeat constructor|].
    constructor; [done|]. constructor. lia.
  - destruct (last l) as [y|] eqn:E; cbn; [|apply last_None in E as ->; cbn; lia].
    apply last_Some in E as [l' ->]. rewrite <- app_assoc in H. apply (sorted_mid _ _ _ _ H). set_solver.
Qed.

(** ** Readiness *)

(** The frames of a producer: once a generation of a transport is admitted it only
    repeats the admission. *)
Definition admitted_final (sent : list PullerEvent) : Prop :=
  forall l1 a l2 b, sent = l1 ++ a :: l2 -> b ∈ l2 -> is_control b -> tg b = tg a ->
    pe_AdmissionState a = AdmissionAdmitted -> pe_AdmissionState b = AdmissionAdmitted.

(** C23: A subscription serves only behind an admission its consumer has reached. In
    every run whose clock does not go back, when a snapshot says Ready, the channel
    carried an admission [e] of the current transport and generation, accepted less
    than three seconds ago; the consumer has taken [e] and everything sent before
    it; every control sent after [e] is of the same transport and generation, so
    that from a producer that never withdraws an admitted generation nothing was
    received since that invalidates [e]; and the subscription has not ended. *)
Theorem ready_sound ops now :
  Z.of_nat (length ops) < 2 ^ 64 -> Sorted Z.le (op_times ops ++ [now]) ->
  let m := mon_run new_monitored ops in
  as_Ready (status_Snapshot (mon_status m) now).2 = true ->
  exists taken e since t,
    mon_sent m = taken ++ e :: since ++ mon_queue m /\
    pe_AdmissionState e = AdmissionAdmitted /\ tg e = status_tg (mon_status m) /\
    pe_admissionReceived e = Some t /\ t <= now < t + AdmissionFreshness /\
    (forall c, c ∈ since ++ mon_queue m -> is_control c -> tg c = tg e) /\
    (admitted_final (mon_sent m) ->
     forall c, c ∈ since ++ mon_queue m -> is_control c -> pe_AdmissionState c = AdmissionAdmitted) /\
    ss_terminal (mon_status m) = false.
Proof.
  intros Hlen Hs m Hready. set (clock := default now (head (op_times ops))).
  pose proof (sorted_clock _ _ Hs) as Hs'. fold clock in Hs'. fold (clock_after clock ops) in Hs'.
  destruct Hs' as [Hs' Hnow].
  pose proof (mon_run_inv _ _ _ ops (new_monitored_inv clock) Hlen Hs') as H. fold m in H.
  cbn in Hready. apply andb_true_iff in Hready as [Hready _].
  destruct (expire_same (mon_status m) now) as (_ & _ & _ & _ & _ & He).
  destruct (He Hready) as [Hcons Hfresh].
  destruct (mi_consumed _ _ _ H Hcons) as (Hterm & _ & e & t & Ho & l1 & l2 & l3 & Es & Eq & Ea & Etg & Er).
  rewrite Ho in Hfresh. cbn in Hfresh. apply Z.leb_gt in Hfresh.
  pose proof (mi_observed_clock _ _ _ H _ Ho) as Hle.
  assert (Hsince : forall c, c ∈ l2 ++ l3 -> is_control c -> tg c = tg e).
  { intros c Hc Hi. pose proof (mi_sorted _ _ _ H) as Hsort. rewrite Es in Hsort.
    assert (is_control e) as Hie by (unfold is_control; by rewrite Ea).
    destruct (sorted_mid _ _ _ _ Hsort c Hc Hie Hi) as [H1 _].
    pose proof (mi_stamped _ _ _ H) as Hst. rewrite Forall_forall in Hst.
    destruct (Hst c ltac:(rewrite Es; set_solver) Hi) as (_ & _ & _ & H2). rewrite <- Etg in H2.
    unfold tg_le in *. destruct (tg c), (tg e). cbn in *. f_equal; lia. }
  exists l1, e, l2, t. rewrite Eq. split_and!; try done; try lia.
  intros Hfin c Hc Hi. apply (Hfin l1 e (l2 ++ l3) c); [done| done| done| by apply Hsince| done].
Qed.

(** A control frame of transport 1 and generation 1. *)
Definition control (state : string) : PullerEvent :=
  {| pe_Change := None; pe_Progress := ""; pe_Ready := String.eqb state AdmissionAdmitted; pe_Error := None;
     pe_Retryable := false; pe_AdmissionState := state; pe_AdmissionGeneration := 1; pe_AdmissionReason := "";
     pe_TransportGeneration := 1; pe_admissionReceived := None |}.
Definition ready_run : list mon_op :=
  [MonBegin; MonControl (control AdmissionStarting) 10; MonControl (control AdmissionAdmitted) 20;
   MonConsume 30; MonConsume 40; MonControl (control AdmissionAdmitted) 50].

Lemma ready_sound_witness :
  let m := mon_run new_monitored ready_run in
  as_Ready (status_Snapshot (mon_status m) 60).2 = true /\
  as_Ready (status_Snapshot (mon_status m) 3000000020).2 = false /\
  exists taken e since t,
    mon_sent m = taken ++ e :: since ++ mon_queue m /\
    pe_AdmissionState e = AdmissionAdmitted /\ tg e = status_tg (mon_status m) /\
    pe_admissionReceived e = Some t /\ t <= 60 < t + AdmissionFreshness.
Proof.
  intros m. split; [vm_compute; reflexivity|]. split; [vm_compute; reflexivity|].
  destruct (ready_sound ready_run 60) as (l1 & e & l2 & t & H1 & H2 & H3 & H4 & H5 & _);
    [vm_compute; reflexivity| repeat constructor; vm_compute; discriminate| vm_compute; reflexivity|].
  exists l1, e, l2, t. exact (conj H1 (conj H2 (conj H3 (conj H4 H5)))).
Defined.
