(* ===== verification/Subscription.v ===== *)
(** * The subscription loop: internal/puller/core/subscription.go

    RunSubscription as a machine. Its position in the code is a [pc]; the local
    variables are [loop_vars]; a step runs from one position to the next and makes
    at most one call that reads or changes state shared with other goroutines.
    Between steps other goroutines broadcast to the subscriber, close it or cancel
    the context. What the driver's callbacks answer is the input of a step. *)
From stdpp Require Import base list sorting gmap strings.
From Stdlib Require Import ZArith Ascii.
From S2P Require Import Prelude Value IndexStore Projection Events Coalescer Progress Subscriber Admission.
Local Open Scope Z_scope.

(** Which optional callbacks the driver has. *)
Record SubscriptionDriver := {
  d_Ready : bool; d_Maintain : bool; d_EnterLive : bool; d_Admission : bool;
  d_CheckAdmission : bool; d_FenceAdmission : bool;
}.

(** ** Replay iterators *)
Section ReplayIterator.
Context {S : Type} `{EI : EventIterator S}.

(** The iterator of a replay without coalescing: the source, behind the admission
    filter when [ai_filters]. The filter reads the subscriber as it is when Next is
    called; [ai_polls] bounds the candidates it examines, after which it has not
    returned or finds the context cancelled. *)
Record admittedReplayIterator := {
  ai_filters : bool; ai_source : S; ai_sub : Subscriber; ai_polls : nat; ai_current : option StoreChangeEvent;
}.

Definition ai_set (i : admittedReplayIterator) (source : S) (polls : nat) (current : option StoreChangeEvent) :=
  {| ai_filters := ai_filters i; ai_source := source; ai_sub := ai_sub i; ai_polls := polls; ai_current := current |}.

Fixpoint ai_loop (polls : nat) (i : admittedReplayIterator) (source : S) : bool * admittedReplayIterator :=
  match polls with
  | O => (false, ai_set i source O (ai_current i))
  | Datatypes.S fewer =>
      if sub_done (ai_sub i) then (false, ai_set i source polls (ai_current i))
      else match iter_next source with
           | (false, source) => (false, ai_set i source polls (ai_current i))
           | (true, source) =>
               let candidate := iter_event source in
               if replayAdmitted (ai_sub i) candidate then (true, ai_set i source fewer candidate)
               else ai_loop fewer i source
           end
  end.

Definition ai_Next (i : admittedReplayIterator) : bool * admittedReplayIterator :=
  if ai_filters i then ai_loop (ai_polls i) i (ai_source i)
  else let '(more, source) := iter_next (ai_source i) in (more, ai_set i source (ai_polls i) (ai_current i)).

Definition ai_Event (i : admittedReplayIterator) : option StoreChangeEvent :=
  if ai_filters i then ai_current i else iter_event (ai_source i).

Lemma ai_loop_ended polls i source i' :
  ai_filters i = true -> ai_loop polls i source = (false, i') -> ai_Next i' = (false, i').
Proof.
  intros Hf. revert source. induction polls as [|polls IH]; intros source; cbn.
  - intros [= <-]. unfold ai_Next. cbn. by rewrite Hf.
  - destruct (sub_done (ai_sub i)) eqn:D.
    { intros [= <-]. unfold ai_Next. cbn. by rewrite Hf, D. }
    destruct (iter_next source) as [[] src] eqn:N.
    + destruct (replayAdmitted _ _); [done|]. apply IH.
    + intros [= <-]. unfold ai_Next. cbn. by rewrite Hf, D, (iter_ended _ _ N).
Qed.

#[export] Program Instance admitted_iterator : EventIterator admittedReplayIterator := {|
  iter_next := ai_Next; iter_event := ai_Event; iter_err i := iter_err (ai_source i) |}.
Next Obligation.
  intros i i'. unfold ai_Next at 1. destruct (ai_filters i) eqn:F; [by apply ai_loop_ended|].
  destruct (iter_next (ai_source i)) as [more src] eqn:N. intros [= -> <-]. unfold ai_Next. cbn.
  by rewrite F, (iter_ended _ _ N).
Qed.

Inductive replay_iter := RPlain (i : admittedReplayIterator) | RCoalesced (i : CoalescingIterator admittedReplayIterator).

Definition ri_inner (it : replay_iter) : admittedReplayIterator :=
  match it with RPlain i => i | RCoalesced c => ci_source c end.
(** The call starts: the filter sees the subscriber as it is now. *)
Definition ai_refresh (s : Subscriber) (polls : nat) (i : admittedReplayIterator) : admittedReplayIterator :=
  {| ai_filters := ai_filters i; ai_source := ai_source i; ai_sub := s; ai_polls := polls; ai_current := ai_current i |}.
Definition ri_refresh (s : Subscriber) (polls : nat) (it : replay_iter) : replay_iter :=
  match it with
  | RPlain i => RPlain (ai_refresh s polls i)
  | RCoalesced c =>
      RCoalesced {| ci_source := ai_refresh s polls (ci_source c); ci_coalescer := ci_coalescer c;
                    ci_buffer := ci_buffer c; ci_index := ci_index c; ci_err := ci_err c; ci_batchSize := ci_batchSize c |}
  end.

Context `{SS : SliceSort}.

(** The iterator a replay runs over, from the one the driver opened. *)
Definition wrap_replay (s : Subscriber) (source : S) : replay_iter :=
  let inner := {| ai_filters := sub_startFromNow s; ai_source := source; ai_sub := s; ai_polls := O; ai_current := None |} in
  if sub_CoalesceOnCatchUp s then RCoalesced (NewCoalescingIterator inner 100) else RPlain inner.

Definition ri_Next (fuel : nat) (it : replay_iter) : option (bool * replay_iter) :=
  match it with
  | RPlain i => let '(more, i) := ai_Next i in Some (more, RPlain i)
  | RCoalesced c =>
      match ci_Next fuel c with Some (more, c) => Some (more, RCoalesced c) | None => None end
  end.
Definition ri_Event (it : replay_iter) : option StoreChangeEvent :=
  match it with RPlain i => ai_Event i | RCoalesced c => ci_Event c end.
Definition ri_Err (it : replay_iter) : option string :=
  match it with RPlain i => iter_err (ai_source i) | RCoalesced c => ci_err c end.
End ReplayIterator.
Arguments replay_iter S : clear implicits.

(** ** The machine *)

(** The exit of the loop with the error of closing the iterator. *)
Record loop_exit := LoopExit { le_exit : SubscriptionExit; le_cleanup : option string }.

Record loop_vars := {
  v_recovering : bool; v_catchUp : bool; v_enteredLive : bool; v_ready : bool;
  v_generation : Z; v_admissionState : string;
}.

Section Machine.
Context {S : Type} `{EI : EventIterator S} `{SS : SliceSort}.

Inductive pc :=
| PStart
| PTop | PUnavailable
| PReplaying | PDrainQueue | PBeginRecovery | POpen
| PNext (it : replay_iter S) | PGot (it : replay_iter S) | PEnded (it : replay_iter S) | PReplayed
| PEnterLive | PReadyGate | PFence | PDraining | PDrainReceive | PDrained
| PReadyCheck | PReadyCall | PAdmit
| PSelect | PMaintained | PLivePending
| PExited (exit : loop_exit).

(** What the driver was called for, oldest first. *)
Inductive loop_output :=
| OAdmission (state : string) (generation : Z) (reason : string)
| ODeliver (e : StoreChangeEvent) (progress : string)
| OReady (progress : string)
| OEnterLive
| OMaintain (progress : string).

Record loop := {
  lp_sub : Subscriber; lp_ctx : option string; lp_pc : pc; lp_vars : loop_vars; lp_out : list loop_output;
  lp_broadcast : list (option StoreChangeEvent);   (** broadcast to the subscriber so far *)
  lp_fence : nat;                                  (** how many of them at the last live barrier *)
}.

(** CheckAdmission answers nil, an unavailable capture, or another error. *)
Inductive check_answer := CheckOk | CheckUnavailable (e : string) | CheckError (e : string).
Inductive select_choice := ChCtx | ChDone | ChRecovery | ChMaintenance | ChEvent.

(** The answers to the calls of a step: a context error that the call sees appear,
    the callback's error, CheckAdmission's answer, the opened iterator, the error of
    its Close, the case a select takes, and the bounds of the iterator's loops. *)
Record answers := {
  a_cancel : option string; a_err : option string; a_check : check_answer; a_open : res string S;
  a_close : option string; a_choice : select_choice; a_polls : nat; a_fuel : nat;
}.

Definition set_pc (l : loop) (p : pc) : loop :=
  {| lp_sub := lp_sub l; lp_ctx := lp_ctx l; lp_pc := p; lp_vars := lp_vars l; lp_out := lp_out l;
     lp_broadcast := lp_broadcast l; lp_fence := lp_fence l |}.
Definition set_vars (l : loop) (v : loop_vars) : loop :=
  {| lp_sub := lp_sub l; lp_ctx := lp_ctx l; lp_pc := lp_pc l; lp_vars := v; lp_out := lp_out l;
     lp_broadcast := lp_broadcast l; lp_fence := lp_fence l |}.
Definition set_sub (l : loop) (s : Subscriber) : loop :=
  {| lp_sub := s; lp_ctx := lp_ctx l; lp_pc := lp_pc l; lp_vars := lp_vars l; lp_out := lp_out l;
     lp_broadcast := lp_broadcast l; lp_fence := lp_fence l |}.
Definition set_ctx (l : loop) (ctx : option string) : loop :=
  {| lp_sub := lp_sub l; lp_ctx := ctx; lp_pc := lp_pc l; lp_vars := lp_vars l; lp_out := lp_out l;
     lp_broadcast := lp_broadcast l; lp_fence := lp_fence l |}.
Definition emit (l : loop) (o : loop_output) : loop :=
  {| lp_sub := lp_sub l; lp_ctx := lp_ctx l; lp_pc := lp_pc l; lp_vars := lp_vars l; lp_out := lp_out l ++ [o];
     lp_broadcast := lp_broadcast l; lp_fence := lp_fence l |}.
Definition set_fence (l : loop) : loop :=
  {| lp_sub := lp_sub l; lp_ctx := lp_ctx l; lp_pc := lp_pc l; lp_vars := lp_vars l; lp_out := lp_out l;
     lp_broadcast := lp_broadcast l; lp_fence := length (lp_broadcast l) |}.

Definition quit (l : loop) (e : SubscriptionExit) : loop := set_pc l (PExited (LoopExit e None)).
Definition quit_closing (l : loop) (e : SubscriptionExit) (a : answers) : loop := set_pc l (PExited (LoopExit e (a_close a))).

(** A context that is cancelled stays cancelled. *)
Definition ctx_now (l : loop) (a : answers) : option string :=
  match lp_ctx l with Some e => Some e | None => a_cancel a end.

Definition stopped (l : loop) (phase : SubscriptionPhase) : option SubscriptionExit :=
  subscriptionStopped (fun _ => lp_ctx l) (lp_sub l) phase.

(** The exit of a failed callback: cancelled if the context is by now. *)
Definition failed (l : loop) (kind : SubscriptionExitKind) (phase : SubscriptionPhase) (err : string) : SubscriptionExit :=
  match lp_ctx l with
  | Some cerr => canceledSubscriptionExit phase cerr
  | None => SubExit kind phase (Some (ExitCall err))
  end.

Definition with_state (v : loop_vars) (state : string) : loop_vars :=
  {| v_recovering := v_recovering v; v_catchUp := v_catchUp v; v_enteredLive := v_enteredLive v; v_ready := v_ready v;
     v_generation := v_generation v; v_admissionState := state |}.

Section Driver.
Variable d : SubscriptionDriver.

(** emitAdmission, then [next]; it is called only where the driver has Admission,
    except for an unavailable source. *)
Definition emitAdmission (l : loop) (a : answers) (state reason : string) (next : loop -> loop) : loop :=
  let l := set_vars l (with_state (lp_vars l) state) in
  if d_Admission d then
    let l := set_ctx (emit l (OAdmission state (v_generation (lp_vars l)) reason)) (ctx_now l a) in
    match a_err a with
    | Some err => quit l (SubExit SubscriptionExitReadyFailed SubscriptionPhaseReady (Some (ExitCall err)))
    | None => next l
    end
  else next l.
Definition emitIfAdmission (l : loop) (a : answers) (state reason : string) (next : loop -> loop) : loop :=
  if d_Admission d then emitAdmission l a state reason next else next l.

(** Delivery of one event, within a step. *)
Definition deliver (l : loop) (a : answers) (evt : option StoreChangeEvent) (phase : SubscriptionPhase) :
    loop * option SubscriptionExit :=
  let ctx n := match n with O => lp_ctx l | _ => ctx_now l a end in
  let '(s, exit, acked) := deliverSubscriptionEvent (fun _ _ => a_err a) ctx (lp_sub l) evt phase in
  let progress e := pm_Encode (Some (SetPosition (CurrentProgress (lp_sub l)) (evt_Backend e) (evt_EventID e))) in
  (match acked with
   | Some e => emit (set_ctx (set_sub l s) (ctx_now l a)) (ODeliver e (progress e))
   | None => set_ctx (set_sub l s) (ctx_now l a)
   end, exit).

(** The live queue overflowed: the next turn replays. *)
Definition overflow_vars (v : loop_vars) : loop_vars :=
  {| v_recovering := true; v_catchUp := true; v_enteredLive := false;
     v_ready := if d_Admission d then false else v_ready v;
     v_generation := u64 (v_generation v + 1); v_admissionState := v_admissionState v |}.
Definition overflowed (l : loop) (a : answers) : loop :=
  emitIfAdmission (set_vars l (overflow_vars (lp_vars l))) a AdmissionRecovering "overflow" (fun l => set_pc l PTop).

(** runReplay. *)
Definition replay_step (l : loop) (a : answers) : loop :=
  let s := lp_sub l in
  match lp_pc l with
  | POpen =>
      match stopped l SubscriptionPhaseReplay with
      | Some exit => quit l exit
      | None =>
          let l := set_ctx l (ctx_now l a) in
          match a_open a with
          | Err err => quit l (failed l SubscriptionExitReplayFailed SubscriptionPhaseReplay err)
          | Ok source => set_pc l (PNext (wrap_replay s source))
          end
      end
  | PNext it =>
      match stopped l SubscriptionPhaseReplay with
      | Some exit => quit_closing l exit a
      | None =>
          match ri_Next (a_fuel a) (ri_refresh s (a_polls a) it) with
          | None => l
          | Some (more, it) =>
              let l' := set_ctx l (ctx_now l a) in
              (* a filter that has used its bound has not returned, unless it found the context cancelled *)
              if (ai_polls (ri_inner it) =? 0)%nat && negb (bool_decide (is_Some (lp_ctx l'))) then l
              else set_pc l' (if more then PGot it else PEnded it)
          end
      end
  | PGot it =>
      match stopped l SubscriptionPhaseReplay with
      | Some exit => quit_closing l exit a
      | None =>
          match ri_Event it with
          | None => quit_closing l (SubExit SubscriptionExitReplayFailed SubscriptionPhaseReplay (Some ErrNilSubscriptionEvent)) a
          | Some e =>
              match deliver l a (Some e) SubscriptionPhaseReplay with
              | (l, Some exit) => quit_closing l exit a
              | (l, None) => set_pc l (PNext it)
              end
          end
      end
  | PEnded it =>
      match stopped l SubscriptionPhaseReplay with
      | Some exit => quit_closing l exit a
      | None =>
          let l := set_ctx l (ctx_now l a) in
          match ri_Err it, a_close a with
          | None, None => set_pc l PReplayed
          | replayErr, _ =>
              match lp_ctx l with
              | Some cerr => quit_closing l (canceledSubscriptionExit SubscriptionPhaseReplay cerr) a
              | None => quit_closing l (SubExit SubscriptionExitReplayFailed SubscriptionPhaseReplay (ExitCall <$> replayErr)) a
              end
          end
      end
  | _ => l
  end.

(** The turn that is not ready yet: the barrier, the queue before it and the announcement. *)
Definition ready_step (l : loop) (a : answers) : loop :=
  let v := lp_vars l in
  let s := lp_sub l in
  match lp_pc l with
  | PReadyGate =>
      if v_ready v then set_pc l PSelect
      else if d_Admission d then
        if d_CheckAdmission d then
          match a_check a with
          | CheckOk => set_pc (set_ctx l (ctx_now l a)) PFence
          | _ => set_pc (set_ctx l (ctx_now l a)) PTop
          end
        else set_pc l PFence
      else set_pc l PReadyCheck
  | PFence =>
      if d_FenceAdmission d then
        let l := set_ctx l (ctx_now l a) in
        match a_err a with
        | Some err => quit l (failed l SubscriptionExitReadyFailed SubscriptionPhaseReady err)
        | None => set_pc (set_fence l) PDraining
        end
      else set_pc (set_fence l) PDraining
  | PDraining => set_pc l (if sub_recoveryPending s then PDrained else PDrainReceive)
  | PDrainReceive =>
      match receive s with
      | (_, None) => set_pc l PDrained
      | (s, Some evt) =>
          match deliver (set_sub l s) a evt SubscriptionPhaseLive with
          | (l, Some exit) => quit l exit
          | (l, None) => set_pc l PDraining
          end
      end
  | PDrained =>
      if sub_recoveryPending s then
        emitAdmission (set_vars l {| v_recovering := true; v_catchUp := true; v_enteredLive := false; v_ready := v_ready v;
                                     v_generation := u64 (v_generation v + 1); v_admissionState := v_admissionState v |})
          a AdmissionRecovering "overflow" (fun l => set_pc l PTop)
      else set_pc l PReadyCheck
  | PReadyCheck =>
      if d_CheckAdmission d then
        match a_check a with
        | CheckOk => set_pc (set_ctx l (ctx_now l a)) PReadyCall
        | _ => set_pc (set_ctx l (ctx_now l a)) PTop
        end
      else set_pc l PReadyCall
  | PReadyCall =>
      match stopped l SubscriptionPhaseReady with
      | Some exit => quit l exit
      | None =>
          let done l := set_pc (set_vars l {| v_recovering := v_recovering v; v_catchUp := v_catchUp v;
                                              v_enteredLive := v_enteredLive v; v_ready := true;
                                              v_generation := v_generation v;
                                              v_admissionState := v_admissionState v |}) PAdmit in
          if d_Ready d then
            let l := set_ctx (emit l (OReady (pm_Encode (Some (CurrentProgress s))))) (ctx_now l a) in
            match a_err a with
            | Some err => quit l (failed l SubscriptionExitReadyFailed SubscriptionPhaseReady err)
            | None => done l
            end
          else done l
      end
  | PAdmit => emitIfAdmission l a AdmissionAdmitted "" (fun l => set_pc l PSelect)
  | _ => l
  end.

(** The select of a turn, and what follows it. *)
Definition select_step (l : loop) (a : answers) : loop :=
  let v := lp_vars l in
  let s := lp_sub l in
  match lp_pc l with
  | PSelect =>
      match a_choice a with
      | ChCtx => match lp_ctx l with
                 | Some cerr => quit l (canceledSubscriptionExit SubscriptionPhaseLive cerr)
                 | None => l
                 end
      | ChDone =>
          if sub_done s then
            match lp_ctx l with
            | Some cerr => quit l (canceledSubscriptionExit SubscriptionPhaseLive cerr)
            | None => quit l (SubExit SubscriptionExitSubscriberClosed SubscriptionPhaseLive None)
            end
          else l
      | ChRecovery =>
          if sub_recovery s
          then overflowed (set_sub l (set_queue s (sub_ch s) (sub_recoveryPending s) false (sub_admissionGroups s))) a
          else l
      | ChMaintenance =>
          if d_Maintain d then
            let l := set_ctx (emit l (OMaintain (pm_Encode (Some (CurrentProgress s))))) (ctx_now l a) in
            match a_err a with
            | Some err => quit l (failed l SubscriptionExitMaintenanceFailed SubscriptionPhaseMaintenance err)
            | None => set_pc l PMaintained
            end
          else set_pc l PMaintained
      | ChEvent =>
          match receive s with
          | (_, None) => l
          | (s, Some evt) =>
              match deliver (set_sub l s) a evt SubscriptionPhaseLive with
              | (l, Some exit) => quit l exit
              | (l, None) => set_pc l PLivePending
              end
          end
      end
  | PMaintained =>
      let healthy := negb (d_CheckAdmission d) || match a_check a with CheckOk => true | _ => false end in
      let l := if d_Admission d && d_CheckAdmission d then set_ctx l (ctx_now l a) else l in
      set_pc (if d_Admission d && healthy then
                set_vars l {| v_recovering := v_recovering v; v_catchUp := v_catchUp v; v_enteredLive := v_enteredLive v;
                              v_ready := false; v_generation := v_generation v; v_admissionState := v_admissionState v |}
              else l) PTop
  | PLivePending => if sub_recoveryPending s then overflowed l a else set_pc l PTop
  | _ => l
  end.

Definition loop_step (l : loop) (a : answers) : loop :=
  let v := lp_vars l in
  let s := lp_sub l in
  match lp_pc l with
  | PStart => emitIfAdmission l a AdmissionStarting "" (fun l => set_pc l PTop)
  | PTop =>
      let proceed l := set_pc l (if v_catchUp (lp_vars l) then PReplaying else PEnterLive) in
      if d_CheckAdmission d then
        match stopped l SubscriptionPhaseReady with
        | Some exit => quit l exit
        | None =>
            let l := set_ctx l (ctx_now l a) in
            match a_check a with
            | CheckOk => proceed l
            | CheckUnavailable err | CheckError err =>
                match lp_ctx l with
                | Some cerr => quit l (canceledSubscriptionExit SubscriptionPhaseReady cerr)
                | None =>
                    match a_check a with
                    | CheckUnavailable _ =>
                        if String.eqb (v_admissionState v) AdmissionRecovering then set_pc l PUnavailable
                        else
                          let v := {| v_recovering := v_recovering v; v_catchUp := v_catchUp v; v_enteredLive := false;
                                      v_ready := false; v_generation := u64 (v_generation v + 1);
                                      v_admissionState := v_admissionState v |} in
                          emitAdmission (set_vars l v) a AdmissionRecovering "source_unavailable" (fun l => set_pc l PUnavailable)
                    | _ => quit l (SubExit SubscriptionExitMaintenanceFailed SubscriptionPhaseMaintenance (Some (ExitCall err)))
                    end
                end
            end
        end
      else proceed l
  | PUnavailable =>
      match a_choice a, lp_ctx l with
      | ChCtx, Some cerr => quit l (canceledSubscriptionExit SubscriptionPhaseReady cerr)
      | ChDone, _ => if sub_done s then quit l (SubExit SubscriptionExitSubscriberClosed SubscriptionPhaseReady None) else l
      | ChMaintenance, _ => set_pc l PTop
      | _, _ => l
      end
  | PReplaying =>
      emitIfAdmission l a AdmissionReplaying "" (fun l =>
        match stopped l SubscriptionPhaseReplay with
        | Some exit => quit l exit
        | None => set_pc l (if v_recovering v then PDrainQueue else POpen)
        end)
  | PDrainQueue =>
      let l := set_sub l (drainEvents s) in
      match stopped l SubscriptionPhaseReplay with
      | Some exit => quit l exit
      | None => set_pc l PBeginRecovery
      end
  | PBeginRecovery => set_pc (set_sub l (BeginRecovery s)) POpen
  | POpen | PNext _ | PGot _ | PEnded _ => replay_step l a
  | PReplayed =>
      if sub_recoveryPending s then
        set_pc (set_vars l {| v_recovering := true; v_catchUp := v_catchUp v; v_enteredLive := v_enteredLive v;
                              v_ready := v_ready v; v_generation := v_generation v;
                              v_admissionState := v_admissionState v |}) PTop
      else
        set_pc (set_vars l {| v_recovering := false; v_catchUp := false; v_enteredLive := v_enteredLive v;
                              v_ready := v_ready v; v_generation := v_generation v;
                              v_admissionState := v_admissionState v |}) PEnterLive
  | PEnterLive =>
      if v_enteredLive v then set_pc l PReadyGate
      else match stopped l SubscriptionPhaseLive with
           | Some exit => quit l exit
           | None =>
               let l := if d_EnterLive d then emit l OEnterLive else l in
               set_pc (set_vars l {| v_recovering := v_recovering v; v_catchUp := v_catchUp v; v_enteredLive := true;
                                     v_ready := v_ready v; v_generation := v_generation v;
                                     v_admissionState := v_admissionState v |}) PReadyGate
           end
  | PReadyGate | PFence | PDraining | PDrainReceive | PDrained | PReadyCheck | PReadyCall | PAdmit => ready_step l a
  | PSelect | PMaintained | PLivePending => select_step l a
  | PExited _ => l
  end.

(** ** Runs *)
Inductive loop_op := LStep (a : answers) | LBroadcast (e : option StoreChangeEvent) | LClose | LCancel (err : string).

Definition sys_step (l : loop) (o : loop_op) : loop :=
  match o with
  | LStep a => loop_step l a
  | LBroadcast e =>
      {| lp_sub := (enqueue (lp_sub l) e).1; lp_ctx := lp_ctx l; lp_pc := lp_pc l; lp_vars := lp_vars l;
         lp_out := lp_out l; lp_broadcast := lp_broadcast l ++ [e]; lp_fence := lp_fence l |}
  | LClose => set_sub l (sub_Close (lp_sub l))
  | LCancel err => set_ctx l (match lp_ctx l with Some e => Some e | None => Some err end)
  end.

(** The entry of RunSubscription with a subscriber that was broadcast [b]. *)
Definition start_loop (s : Subscriber) (initialCatchUp : bool) (ctx : option string) (b : list (option StoreChangeEvent)) : loop :=
  let recovering := sub_recoveryPending s in
  {| lp_sub := s; lp_ctx := ctx; lp_pc := PStart;
     lp_vars := {| v_recovering := recovering; v_catchUp := initialCatchUp || recovering; v_enteredLive := false;
                   v_ready := false; v_generation := 1; v_admissionState := AdmissionStarting |};
     lp_out := []; lp_broadcast := b; lp_fence := 0 |}.

Definition sys_run (l : loop) (ops : list loop_op) : loop := fold_left sys_step ops l.
End Driver.
End Machine.
Arguments pc S : clear implicits.
Arguments loop S : clear implicits.
Arguments answers S : clear implicits.
Arguments loop_op S : clear implicits.

(** ** Samples: a driver that takes admissions over slices of events *)
Definition sample_driver : SubscriptionDriver :=
  {| d_Ready := false; d_Maintain := false; d_EnterLive := true; d_Admission := true; d_CheckAdmission := true;
     d_FenceAdmission := true |}.
Definition sample_answers (retained : list StoreChangeEvent) (choice : select_choice) : answers slice_iter :=
  {| a_cancel := None; a_err := None; a_check := CheckOk; a_open := Ok (SliceIter None retained None); a_close := None;
     a_choice := choice; a_polls := 10; a_fuel := 10 |}.
