(* ===== verification/SubscriptionStops.v ===== *)
(** * The subscription loop stops

    A cancelled subscription exits within a bounded number of its own steps, however
    other goroutines interleave. Only a maintenance tick that wins the select against
    the cancelled context can delay it, by one turn each. *)
From stdpp Require Import base list sorting gmap strings.
From Stdlib Require Import ZArith.
From S2P Require Import Prelude Value IndexStore Projection Events Coalescer Progress Subscriber Admission Subscription.
Local Open Scope Z_scope.

Section Stops.
Context {S : Type} `{EI : EventIterator S} `{SS : SliceSort}.
Variable d : SubscriptionDriver.
Implicit Types (l : loop S) (a : answers S).

Definition exited l : bool := match lp_pc l with PExited _ => true | _ => false end.

(** A select takes a case that is ready. *)
Definition can_take l a : bool :=
  match lp_pc l, a_choice a with
  | (PSelect | PUnavailable), ChCtx => bool_decide (is_Some (lp_ctx l))
  | (PSelect | PUnavailable), ChDone => sub_done (lp_sub l)
  | PSelect, ChRecovery => sub_recovery (lp_sub l)
  | PSelect, ChEvent => negb (Nat.eqb (length (sub_ch (lp_sub l))) 0)
  | PUnavailable, (ChRecovery | ChEvent) => false
  | _, _ => true
  end.
Definition takes_tick l a : bool :=
  match lp_pc l, a_choice a with (PSelect | PUnavailable), ChMaintenance => true | _, _ => false end.

(** The steps left after a cancellation, without ticks. *)
Definition rank l : nat :=
  match lp_pc l with
  | PExited _ => 0
  | PReplaying | PDrainQueue | POpen | PNext _ | PGot _ | PEnded _ | PReadyCall => 1
  | PBeginRecovery => 2
  | PUnavailable => 1
  | PTop => if d_CheckAdmission d then 1 else if v_catchUp (lp_vars l) then 2 else 20
  | PEnterLive => 19
  | PReadyGate => 18
  | PFence => 17
  | PDraining => 16
  | PDrainReceive => 15
  | PDrained => 14
  | PReadyCheck | PAdmit => 13
  | PSelect => 12
  | PStart | PReplayed | PMaintained | PLivePending => 21
  end.

Lemma rank_bound l : (rank l <= 21)%nat.
Proof. unfold rank. repeat case_match; lia. Qed.
Lemma rank_exited l : rank l = 0%nat -> exited l = true.
Proof. unfold rank, exited. repeat case_match; done. Qed.

Lemma stopped_cancelled l err phase :
  lp_ctx l = Some err -> stopped l phase = Some (canceledSubscriptionExit phase err).
Proof. intros H. unfold stopped, subscriptionStopped. by rewrite H. Qed.
Lemma deliver_cancelled l err a evt phase :
  lp_ctx l = Some err -> exists l' exit, deliver l a evt phase = (l', Some exit) /\ lp_ctx l' = Some err.
Proof.
  intros H. unfold deliver, deliverSubscriptionEvent, subscriptionStopped. rewrite H. cbn.
  unfold ctx_now. rewrite H. eauto.
Qed.

(** An announcement either ends the loop or goes on. *)
Lemma emit_rank l a err state reason next n :
  lp_ctx l = Some err ->
  (forall l', lp_ctx l' = Some err -> lp_sub l' = lp_sub l -> v_catchUp (lp_vars l') = v_catchUp (lp_vars l) ->
              (rank (next l') < n)%nat /\ lp_ctx (next l') = Some err) ->
  (rank (emitAdmission d l a state reason next) < n)%nat /\
  lp_ctx (emitAdmission d l a state reason next) = Some err.
Proof.
  intros Hc H. unfold emitAdmission. destruct (d_Admission d); [|by apply H].
  destruct (a_err a).
  - cbn. unfold ctx_now. cbn. rewrite Hc. split; [|done]. destruct (H l Hc eq_refl eq_refl) as [H' _]. lia.
  - apply H; [|done|done]. cbn. unfold ctx_now. cbn. by rewrite Hc.
Qed.
Lemma emit_if_rank l a err state reason next n :
  lp_ctx l = Some err ->
  (forall l', lp_ctx l' = Some err -> lp_sub l' = lp_sub l -> v_catchUp (lp_vars l') = v_catchUp (lp_vars l) ->
              (rank (next l') < n)%nat /\ lp_ctx (next l') = Some err) ->
  (rank (emitIfAdmission d l a state reason next) < n)%nat /\
  lp_ctx (emitIfAdmission d l a state reason next) = Some err.
Proof. intros Hc H. unfold emitIfAdmission. destruct (d_Admission d); [by apply emit_rank| by apply H]. Qed.

Lemma overflow_rank l a err n :
  lp_ctx l = Some err -> (2 < n)%nat ->
  (rank (overflowed d l a) < n)%nat /\ lp_ctx (overflowed d l a) = Some err.
Proof.
  intros Hc Hn. unfold overflowed. apply emit_if_rank; [done|]. intros l' Hc' _ Hv. cbn in Hv. split; [|done].
  unfold rank. cbn. rewrite Hv. destruct (d_CheckAdmission d); lia.
Qed.

Lemma step_rank l a err :
  lp_ctx l = Some err -> can_take l a = true -> takes_tick l a = false -> exited l = false ->
  (rank (loop_step d l a) < rank l)%nat /\ lp_ctx (loop_step d l a) = Some err.
Proof.
  intros Hc Ht Htick Hx.
  assert (Hnow : forall a', ctx_now l a' = Some err) by (intros a'; unfold ctx_now; by rewrite Hc).
  unfold rank at 2. unfold loop_step, replay_step, ready_step, select_step, can_take, takes_tick, exited in *.
  destruct (lp_pc l) eqn:P; try done; rewrite ?(stopped_cancelled _ err _ Hc).
  - apply emit_if_rank; [done|]. intros l' Hc' _ _. split; [|done]. unfold rank. cbn. repeat case_match; lia.
  - destruct (d_CheckAdmission d) eqn:Hd; [by cbn; split; [lia|]|]. split; [|done].
    unfold rank. cbn. destruct (v_catchUp (lp_vars l)); lia.
  - rewrite Hc. rewrite Hc in Ht. destruct (a_choice a); try done; cbn; [split; [lia|done]|].
    rewrite Ht. cbn. split; [lia|done].
  - apply emit_if_rank; [done|]. intros l' Hc' _ _. rewrite (stopped_cancelled _ err _ Hc'). cbn. split; [lia|done].
  - rewrite (stopped_cancelled _ err) by done. cbn. split; [lia|done].
  - cbn. split; [lia|done].
  - cbn. split; [lia|done].
  - cbn. split; [lia|done].
  - cbn. split; [lia|done].
  - cbn. split; [lia|done].
  - destruct (sub_recoveryPending _); cbn; (split; [|done]); unfold rank; cbn; repeat case_match; lia.
  - destruct (v_enteredLive _); cbn; (split; [lia|done]).
  - destruct (v_ready _); [cbn; split; [lia|done]|]. destruct (d_Admission d); [|cbn; split; [lia|done]].
    destruct (d_CheckAdmission d) eqn:Hd; [|cbn; split; [lia|done]].
    destruct (a_check a); cbn; rewrite Hnow; (split; [|done]); unfold rank; cbn; rewrite ?Hd; lia.
  - destruct (d_FenceAdmission d); [|cbn; split; [lia|done]].
    destruct (a_err a); cbn; rewrite Hnow; split; lia || done.
  - destruct (sub_recoveryPending _); cbn; (split; [lia|done]).
  - destruct (receive (lp_sub l)) as [s' [evt|]]; [|cbn; split; [lia|done]].
    destruct (deliver_cancelled (set_sub l s') err a evt SubscriptionPhaseLive Hc) as (l' & exit & -> & Hc').
    cbn. split; [lia|done].
  - destruct (sub_recoveryPending _); [|cbn; split; [lia|done]].
    apply emit_rank; [done|]. intros l' Hc' _ Hv. cbn in Hv. split; [|done].
    unfold rank. cbn. rewrite Hv. destruct (d_CheckAdmission d); lia.
  - destruct (d_CheckAdmission d) eqn:Hd; [|cbn; split; [lia|done]].
    destruct (a_check a); cbn; rewrite Hnow; (split; [|done]); unfold rank; cbn; rewrite ?Hd; lia.
  - cbn. split; [lia|done].
  - apply emit_if_rank; [done|]. intros l' Hc' _ _. cbn. split; [lia|done].
  - destruct (a_choice a); try done.
    + rewrite Hc. cbn. split; [lia|done].
    + rewrite Ht, Hc. cbn. split; [lia|done].
    + rewrite Ht. apply overflow_rank; [done|lia].
    + destruct (receive (lp_sub l)) as [s' [evt|]] eqn:R.
      * destruct (deliver_cancelled (set_sub l s') err a evt SubscriptionPhaseLive Hc) as (l' & exit & -> & Hc').
        cbn. split; [lia|done].
      * unfold receive in R. by destruct (sub_ch (lp_sub l)).
  - split.
    + unfold rank. destruct (_ && _), (_ && _); cbn; repeat case_match; lia.
    + destruct (_ && _), (_ && _); cbn; by rewrite ?Hnow.
  - destruct (sub_recoveryPending _); [apply overflow_rank; [done|lia]|]. split; [|done].
    unfold rank. cbn. repeat case_match; lia.
Qed.

Lemma exited_stays l a : exited l = true -> loop_step d l a = l.
Proof. unfold exited, loop_step. by destruct (lp_pc l). Qed.

(** A tick keeps the context. *)
Lemma tick_ctx l a err : lp_ctx l = Some err -> takes_tick l a = true -> lp_ctx (loop_step d l a) = Some err.
Proof.
  intros Hc. unfold takes_tick, loop_step, select_step.
  assert (Hnow : ctx_now l a = Some err) by (unfold ctx_now; by rewrite Hc).
  destruct (lp_pc l), (a_choice a); try done; intros _.
  destruct (d_Maintain d); [|done]. destruct (a_err a); cbn; unfold ctx_now; cbn; by rewrite Hc.
Qed.

(** The loop's own steps in a run, the ticks among them, and that every select takes
    a ready case. *)
Fixpoint own_steps (ops : list (loop_op S)) : nat :=
  match ops with [] => 0 | LStep _ :: ops => Datatypes.S (own_steps ops) | _ :: ops => own_steps ops end.
Fixpoint ticks l (ops : list (loop_op S)) : nat :=
  match ops with
  | [] => 0
  | o :: ops => (match o with LStep a => if takes_tick l a then 1 else 0 | _ => 0 end + ticks (sys_step d l o) ops)%nat
  end.
Fixpoint takes_ready l (ops : list (loop_op S)) : bool :=
  match ops with
  | [] => true
  | o :: ops => match o with LStep a => can_take l a | _ => true end && takes_ready (sys_step d l o) ops
  end.

Lemma sys_step_other l o err :
  lp_ctx l = Some err -> match o with LStep _ => False | _ => True end ->
  rank (sys_step d l o) = rank l /\ lp_ctx (sys_step d l o) = Some err /\ exited (sys_step d l o) = exited l.
Proof. intros Hc. destruct o; cbn; [done| done| done|]. rewrite Hc. done. Qed.

Lemma run_stops l ops err :
  lp_ctx l = Some err -> takes_ready l ops = true -> (rank l + 21 * ticks l ops <= own_steps ops)%nat ->
  exited (sys_run d l ops) = true.
Proof.
  revert l. induction ops as [|o ops IH]; intros l Hc Ht Hn.
  { cbn in *. apply rank_exited. lia. }
  destruct (exited l) eqn:Hx.
  { clear -Hx. cbn. assert (H : exited (sys_step d l o) = true).
    { destruct o; cbn; [by rewrite exited_stays| done..]. }
    clear Hx. revert H. generalize (sys_step d l o). clear l o.
    induction ops as [|o ops IH]; intros l Hx; [done|]. apply IH.
    destruct o; cbn; [by rewrite exited_stays| done..]. }
  cbn in Ht. apply andb_true_iff in Ht as [Ht Hts]. cbn [sys_run fold_left]. cbn [ticks own_steps] in Hn.
  destruct o as [a| | |].
  - cbn [sys_step] in *. destruct (takes_tick l a) eqn:Tk.
    + apply IH; [by apply tick_ctx| done|]. pose proof (rank_bound (loop_step d l a)).
      assert (0 < rank l)%nat; [|lia]. destruct (rank l) eqn:R; [|lia]. apply rank_exited in R. congruence.
    + destruct (step_rank l a err Hc Ht Tk Hx) as [Hr Hc']. apply IH; [done| done| lia].
  - destruct (sys_step_other l (LBroadcast e) err Hc I) as (Hr & Hc' & _). apply IH; [done| done| cbn in *; lia].
  - destruct (sys_step_other l LClose err Hc I) as (Hr & Hc' & _). apply IH; [done| done| cbn in *; lia].
  - destruct (sys_step_other l (LCancel err0) err Hc I) as (Hr & Hc' & _). apply IH; [done| done| cbn in *; lia].
Qed.

(** C24: A cancelled subscription terminates. From any state of the loop whose context is
    cancelled (replaying, live, waiting for its source, draining towards admission),
    in any run in which selects take ready cases and other goroutines broadcast,
    close and cancel as they like, the loop has returned after 21 of its own steps,
    plus 21 for each maintenance tick that a select took instead of the cancellation. *)
Theorem cancelled_loop_stops l ops err :
  lp_ctx l = Some err -> takes_ready l ops = true -> (21 * (1 + ticks l ops) <= own_steps ops)%nat ->
  exists exit, lp_pc (sys_run d l ops) = PExited exit.
Proof.
  intros Hc Ht Hn. assert (Hx : exited (sys_run d l ops) = true).
  { eapply run_stops; [done| done|]. pose proof (rank_bound l). lia. }
  unfold exited in Hx. destruct (lp_pc _); try done. eauto.
Qed.
End Stops.

(** A loop cancelled while it replays, with a tick ready at every select. *)
Definition cancelled_loop : loop slice_iter :=
  sys_run (SS := insertion_slice_sort) sample_driver
    (start_loop (sample_sub false 10) true None [])
    (repeat (LStep (sample_answers [live_event "8-0-aa" 8] ChEvent)) 5 ++ [LCancel "context canceled"]).

Lemma cancelled_loop_stops_witness :
  exists exit, lp_pc (sys_run (SS := insertion_slice_sort) sample_driver cancelled_loop
    (LBroadcast None :: repeat (LStep (sample_answers [] ChEvent)) 21)) = PExited exit.
Proof.
  apply (cancelled_loop_stops (SS := insertion_slice_sort) sample_driver cancelled_loop
    (LBroadcast None :: repeat (LStep (sample_answers [] ChEvent)) 21) "context canceled").
  - vm_compute. reflexivity.
  - vm_compute. reflexivity.
  - vm_compute. repeat constructor.
Defined.
