(* ===== verification/SubscriptionProtocol.v ===== *)
(** * The admission protocol of the subscription loop

    The controls a run announces, one after the other, and what a consumer of the
    frames can conclude from them. *)
From stdpp Require Import base list sorting gmap strings.
From Stdlib Require Import ZArith.
From S2P Require Import Prelude Value IndexStore Projection Events Coalescer Progress Subscriber Admission Subscription.
Local Open Scope Z_scope.

Section Protocol.
Context {S : Type} `{EI : EventIterator S} `{SS : SliceSort}.
Variable d : SubscriptionDriver.
Implicit Types (l : loop S) (a : answers S).

(** Where the loop is, and whether it still has to catch up. *)
Definition phase_ok l : Prop :=
  match lp_pc l with
  | PStart | PTop | PUnavailable | PExited _ => True
  | PReplaying | PDrainQueue | PBeginRecovery | POpen | PNext _ | PGot _ | PEnded _ | PReplayed => v_catchUp (lp_vars l) = true
  | _ => v_catchUp (lp_vars l) = false
  end.

(** The controls among the outputs: state and generation. *)
Definition control_of (o : loop_output) : option (string * Z) :=
  match o with OAdmission state generation _ => Some (state, generation) | _ => None end.
Definition controls (out : list loop_output) : list (string * Z) := omap control_of out.

(** A control stays in its generation, which keeps an admission, or opens the next
    generation by recovering. *)
Definition next_control (a b : string * Z) : Prop :=
  (b.2 = a.2 /\ (a.1 = AdmissionAdmitted -> b.1 = AdmissionAdmitted)) \/
  (b.2 = a.2 + 1 /\ b.1 = AdmissionRecovering).

Definition announced (v : loop_vars) : string * Z := (v_admissionState v, v_generation v).

Record proto_inv l (n : nat) : Prop := {
  pi_generation : 1 <= v_generation (lp_vars l) <= Z.of_nat n + 1;
  pi_chain : Sorted next_control (controls (lp_out l));
  pi_last : match last (controls (lp_out l)) with
            | Some c => c = announced (lp_vars l) /\ lp_pc l <> PStart
            | None => lp_pc l = PStart /\ v_generation (lp_vars l) = 1
            end;
  pi_head : forall c, head (controls (lp_out l)) = Some c -> c = (AdmissionStarting, 1);
  pi_catchUp : v_catchUp (lp_vars l) = true -> v_admissionState (lp_vars l) <> AdmissionAdmitted;
  pi_phase : phase_ok l;
}.

Lemma controls_snoc out o : controls (out ++ [o]) = controls out ++ option_list (control_of o).
Proof. unfold controls. rewrite omap_app. cbn. by destruct (control_of o). Qed.

(** A step without an announcement. *)
Lemma proto_keep l l' n n' :
  proto_inv l n -> (n <= n')%nat -> lp_pc l <> PStart -> lp_pc l' <> PStart ->
  controls (lp_out l') = controls (lp_out l) ->
  announced (lp_vars l') = announced (lp_vars l) ->
  (v_catchUp (lp_vars l') = true -> v_catchUp (lp_vars l) = true) -> phase_ok l' -> proto_inv l' n'.
Proof.
  intros [H1 H2 H3 H4 H5 H6] Hn Hp Hp1 Ec Ea Hc Hph. injection Ea as Es Eg.
  split; rewrite ?Ec, ?Es, ?Eg; try done; [lia| |intros H; by apply H5, Hc].
  destruct (last _); [|by destruct H3]. destruct H3 as [-> _]. split; [|done]. unfold announced. by rewrite Es, Eg.
Qed.

(** The first control. *)
Lemma proto_first l n :
  controls (lp_out l) = [(AdmissionStarting, 1)] -> announced (lp_vars l) = (AdmissionStarting, 1) ->
  lp_pc l <> PStart -> phase_ok l -> proto_inv l n.
Proof.
  intros Ec Ea Hp Hph. pose proof Ea as [= Es Eg]. split; rewrite ?Ec, ?Es, ?Eg; cbn; try done.
  - lia.
  - repeat constructor.
  - by intros c [= <-].
Qed.

(** A step that announces one control. *)
Lemma proto_emit l l' n c :
  proto_inv l n -> lp_pc l <> PStart -> lp_pc l' <> PStart ->
  controls (lp_out l') = controls (lp_out l) ++ [c] -> announced (lp_vars l') = c -> next_control (announced (lp_vars l)) c ->
  (v_catchUp (lp_vars l') = true -> c.1 <> AdmissionAdmitted) -> phase_ok l' -> proto_inv l' (Datatypes.S n).
Proof.
  intros [H1 H2 H3 H4 H5 H6] Hp Hp' Ec Ea Hnext Hc Hph.
  destruct (last (controls (lp_out l))) as [c0|] eqn:L; [destruct H3 as [-> _]|by destruct H3].
  subst c. unfold next_control, announced in Hnext. cbn in Hnext. split; rewrite ?Ec.
  - lia.
  - apply Sorted_snoc; [done|]. apply last_Some in L as [k ->]. by constructor.
  - by rewrite last_snoc.
  - intros c Hh. apply H4. apply last_Some in L as [k E]. rewrite E in Hh |- *. by destruct k.
  - intros H. by apply Hc.
  - done.
Qed.

(** The control that emitAdmission announces when the driver takes one. *)
Lemma emit_proto l a n state reason next :
  d_Admission d = true -> proto_inv l n -> lp_pc l <> PStart ->
  forall v, v_admissionState v = v_admissionState (lp_vars l) ->
  next_control (announced (lp_vars l)) (state, v_generation v) ->
  (v_catchUp v = true -> state <> AdmissionAdmitted) ->
  (forall l1, lp_pc (next l1) <> PStart /\ lp_vars (next l1) = lp_vars l1 /\ lp_out (next l1) = lp_out l1 /\
              (v_catchUp (lp_vars l1) = v_catchUp v -> phase_ok (next l1))) ->
  proto_inv (emitAdmission d (set_vars l v) a state reason next) (Datatypes.S n).
Proof.
  intros HA H Hp v Hs Hnext Hc Hn. unfold emitAdmission. rewrite HA. destruct (a_err a).
  - eapply proto_emit; [exact H| done| done| | |exact Hnext| done| done]; [|done].
    cbn. by rewrite controls_snoc.
  - match goal with |- proto_inv (next ?x) _ => destruct (Hn x) as (N1 & N2 & N3 & N4) end.
    eapply proto_emit; [exact H| done| done| | |exact Hnext| |]; rewrite ?N2, ?N3; try done; [|by apply N4].
    cbn. by rewrite controls_snoc.
Qed.

(** Deliveries announce nothing. *)
Lemma deliver_controls l a evt phase l' exit :
  deliver l a evt phase = (l', exit) ->
  controls (lp_out l') = controls (lp_out l) /\ lp_vars l' = lp_vars l /\ lp_pc l' = lp_pc l.
Proof.
  unfold deliver. destruct (deliverSubscriptionEvent _ _ _ _ _) as [[s e] [acked|]]; intros [= <- <-]; [|done].
  cbn. rewrite controls_snoc. cbn. by rewrite app_nil_r.
Qed.

Lemma u64_next g n : 1 <= g <= Z.of_nat n + 1 -> Z.of_nat n + 2 < 2 ^ 64 -> u64 (g + 1) = g + 1.
Proof. intros. apply u64_id. unfold is_u64. lia. Qed.

Lemma overflow_proto l a n :
  d_Admission d = true -> proto_inv l n -> lp_pc l <> PStart -> Z.of_nat n + 2 < 2 ^ 64 ->
  proto_inv (overflowed d l a) (Datatypes.S n).
Proof.
  intros HA H Hp Hn. unfold overflowed, emitIfAdmission. rewrite HA.
  apply emit_proto; try done.
  right. cbn. split; [|done]. eapply u64_next; [apply H| done].
Qed.

Lemma set_vars_id l : l = set_vars l (lp_vars l).
Proof. by destruct l. Qed.

(** Closes the goals of a step that only moves on. *)
Ltac keep H :=
  (eapply proto_keep; [exact H| lia| congruence| done| |reflexivity| |]); cbn;
  rewrite ?controls_snoc, ?app_nil_r; try done; try (intros; congruence).

Lemma loop_step_proto l a n :
  d_Admission d = true -> proto_inv l n -> Z.of_nat n + 2 < 2 ^ 64 -> proto_inv (loop_step d l a) (Datatypes.S n).
Proof.
  intros HA H Hn. pose proof (pi_phase _ _ H) as Hph. unfold phase_ok in Hph.
  assert (Hsame : forall l', l' = l -> proto_inv l' (Datatypes.S n)).
  { intros l' ->. destruct H. split; try done. lia. }
  unfold loop_step, replay_step, ready_step, select_step. destruct (lp_pc l) eqn:P.
  - (* the first control *)
    destruct H as [H1 H2 H3 H4 H5 H6].
    destruct (last (controls (lp_out l))) eqn:L; [by destruct H3|]. apply last_None in L. destruct H3 as [_ Hg].
    unfold emitIfAdmission, emitAdmission. rewrite HA.
    assert (Hout : controls (lp_out l ++ [OAdmission AdmissionStarting (v_generation (lp_vars l)) ""]) = [(AdmissionStarting, 1)]).
    { rewrite controls_snoc, L, Hg. done. }
    destruct (a_err a); (apply proto_first; [exact Hout| unfold announced; cbn; by rewrite Hg| done| done]).
  - assert (Hgo : forall ctx, proto_inv (set_pc (set_ctx l ctx) (if v_catchUp (lp_vars l) then PReplaying else PEnterLive)) (Datatypes.S n)).
    { intros ctx. destruct (v_catchUp (lp_vars l)) eqn:C; keep H. }
    destruct (d_CheckAdmission d); [|].
    2: { specialize (Hgo (lp_ctx l)). by destruct l. }
    destruct (stopped l _); [keep H|]. cbn -[Z.pow]. destruct (a_check a); cbn -[Z.pow].
    + apply Hgo.
    + destruct (ctx_now l a); [keep H|]. destruct (String.eqb _ _); [keep H|].
      apply (emit_proto (set_ctx l None)); [done| by destruct H; split| cbn; congruence| done| |done|by intros l1].
      by right; split; [eapply u64_next; [apply H| done]|].
    + destruct (ctx_now l a); keep H.
  - destruct (a_choice a), (lp_ctx l); try (by apply Hsame); try keep H; destruct (sub_done _); try (by apply Hsame); keep H.
  - unfold emitIfAdmission. rewrite HA. rewrite (set_vars_id l) at 1.
    apply emit_proto; [done| done| congruence| done| |done|].
    + left. split; [done|]. intros E. by destruct (pi_catchUp _ _ H Hph).
    + intros l1. destruct (stopped l1 _); [done|]. split_and!; [by destruct (v_recovering _)| done| done|].
      intros E. unfold phase_ok. cbn. rewrite E, Hph. by destruct (v_recovering _).
  - destruct (stopped _ _); keep H.
  - keep H.
  - destruct (stopped _ _); [keep H|]. cbn. destruct (a_open a); keep H.
  - destruct (stopped _ _); [keep H|]. destruct (ri_Next _ _) as [[more it']|]; [|by apply Hsame].
    destruct (_ && _); [by apply Hsame|]. destruct more; keep H.
  - destruct (stopped _ _); [keep H|]. destruct (ri_Event it) as [e|]; [|keep H].
    destruct (deliver l a (Some e) _) as [l' [exit|]] eqn:D; apply deliver_controls in D as (D1 & D2 & D3);
      (eapply proto_keep; [exact H| lia| congruence| done| done|..]); unfold phase_ok; cbn; rewrite ?D2; done.
  - destruct (stopped _ _); [keep H|]. cbn. destruct (ri_Err it), (a_close a), (ctx_now l a); keep H.
  - destruct (sub_recoveryPending _); keep H.
  - destruct (v_enteredLive _); [keep H|]. destruct (stopped _ _); [keep H|].
    destruct (d_EnterLive d); keep H.
  - destruct (v_ready _); [keep H|]. rewrite HA. destruct (d_CheckAdmission d); [|keep H].
    destruct (a_check a); keep H.
  - destruct (d_FenceAdmission d); [|keep H]. destruct (a_err a); keep H.
  - destruct (sub_recoveryPending _); keep H.
  - destruct (receive _) as [s' [evt|]]; [|keep H].
    destruct (deliver _ a evt _) as [l' [exit|]] eqn:D; apply deliver_controls in D as (D1 & D2 & D3);
      (eapply proto_keep; [exact H| lia| congruence| done| done|..]); unfold phase_ok; cbn; rewrite ?D2; done.
  - destruct (sub_recoveryPending _); [|keep H].
    apply emit_proto; [done| done| congruence| done| |done|by intros l1].
    by right; split; [eapply u64_next; [apply H| done]|].
  - destruct (d_CheckAdmission d); [|keep H]. destruct (a_check a); keep H.
  - destruct (stopped _ _); [keep H|]. destruct (d_Ready d); [|keep H]. destruct (a_err a); keep H.
  - unfold emitIfAdmission. rewrite HA. rewrite (set_vars_id l) at 1.
    apply emit_proto; [done| done| congruence| done| by left| by rewrite Hph|]. intros l1. split_and!; [done..|].
    intros E. unfold phase_ok. cbn. by rewrite E, Hph.
  - destruct (a_choice a).
    + destruct (lp_ctx l); [keep H| by apply Hsame].
    + destruct (sub_done _); [|by apply Hsame]. destruct (lp_ctx l); keep H.
    + destruct (sub_recovery _); [|by apply Hsame]. apply overflow_proto; [done| by destruct H; split| cbn; congruence| done].
    + destruct (d_Maintain d); [|keep H]. destruct (a_err a); keep H.
    + destruct (receive _) as [s' [evt|]]; [|by apply Hsame].
      destruct (deliver _ a evt _) as [l' [exit|]] eqn:D; apply deliver_controls in D as (D1 & D2 & D3);
        (eapply proto_keep; [exact H| lia| congruence| done| done|..]); unfold phase_ok; cbn; rewrite ?D2; done.
  - destruct (d_Admission d && _), (d_Admission d && _); keep H.
  - destruct (sub_recoveryPending _); [apply overflow_proto; [done| done| congruence| done]|keep H].
  - by apply Hsame.
Qed.

Lemma sys_step_proto l o n :
  d_Admission d = true -> proto_inv l n -> Z.of_nat n + 2 < 2 ^ 64 -> proto_inv (sys_step d l o) (Datatypes.S n).
Proof.
  intros HA H Hn. destruct o; cbn [sys_step]; [by apply loop_step_proto|..]; destruct H; split; try done; cbn; lia.
Qed.

Lemma sys_run_proto l ops n :
  d_Admission d = true -> proto_inv l n -> Z.of_nat (n + length ops) + 1 < 2 ^ 64 ->
  proto_inv (sys_run d l ops) (n + length ops).
Proof.
  intros HA. revert l n. induction ops as [|o ops IH]; intros l n H Hn; cbn; [by rewrite Nat.add_0_r|].
  cbn in Hn. replace (n + Datatypes.S (length ops))%nat with (Datatypes.S n + length ops)%nat by lia.
  apply IH; [|lia]. apply sys_step_proto; [done| done| lia].
Qed.

Lemma start_proto s initial ctx b : proto_inv (start_loop s initial ctx b) 0.
Proof. by split. Qed.
End Protocol.

(** ** Frames

    What the in-process puller sends for an output (puller.go, subscribe): a control
    with the transport it began, an event with its progress. *)
Definition frame (transport : Z) (o : loop_output) : option PullerEvent :=
  match o with
  | OAdmission state generation reason =>
      Some {| pe_Change := None; pe_Progress := ""; pe_Ready := String.eqb state AdmissionAdmitted; pe_Error := None;
              pe_Retryable := false; pe_AdmissionState := state; pe_AdmissionGeneration := generation;
              pe_AdmissionReason := reason; pe_TransportGeneration := transport; pe_admissionReceived := None |}
  | ODeliver e progress =>
      Some {| pe_Change := Some e; pe_Progress := progress; pe_Ready := false; pe_Error := None;
              pe_Retryable := false; pe_AdmissionState := ""; pe_AdmissionGeneration := 0;
              pe_AdmissionReason := ""; pe_TransportGeneration := 0; pe_admissionReceived := None |}
  | OReady progress =>
      Some {| pe_Change := None; pe_Progress := progress; pe_Ready := true; pe_Error := None;
              pe_Retryable := false; pe_AdmissionState := ""; pe_AdmissionGeneration := 0;
              pe_AdmissionReason := ""; pe_TransportGeneration := 0; pe_admissionReceived := None |}
  | OEnterLive | OMaintain _ => None
  end.

(** The frame as it was made, or stamped on receipt. *)
Definition received_as (e r : PullerEvent) : Prop := r = e \/ exists now, r = stamp e now.

(** Later controls have a later generation, or the same one, which keeps an
    admission. *)
Definition control_le (a b : string * Z) : Prop :=
  a.2 < b.2 \/ (a.2 = b.2 /\ (a.1 = AdmissionAdmitted -> b.1 = AdmissionAdmitted)).

Lemma chain_strong cs : Sorted next_control cs -> StronglySorted control_le cs.
Proof.
  intros H. apply Sorted_StronglySorted.
  - intros a b c. unfold control_le. intuition lia || auto.
  - eapply Sorted_ind with (P := Sorted control_le) in H; [done| constructor|].
    intros a l _ IH Hd. constructor; [done|]. destruct Hd as [|b l Hn]; constructor.
    unfold next_control, control_le in *. intuition lia || auto.
Qed.

Definition output_le (o o' : loop_output) : Prop :=
  forall c c', control_of o = Some c -> control_of o' = Some c' -> control_le c c'.
Lemma controls_strong out : StronglySorted control_le (controls out) -> StronglySorted output_le out.
Proof.
  unfold controls. induction out as [|o out IH]; cbn; [constructor|].
  destruct (control_of o) as [c|] eqn:E.
  - intros [H Hc]%StronglySorted_inv. constructor; [by apply IH|]. apply Forall_forall. intros o' Ho' c1 c2 E1 E2.
    rewrite E in E1. injection E1 as <-. rewrite Forall_forall in Hc. apply Hc, list_elem_of_omap. eauto.
  - intros H. constructor; [by apply IH|]. apply Forall_forall. intros o' Ho' c1 c2 E1. by rewrite E in E1.
Qed.

Lemma frame_control transport o e r :
  frame transport o = Some e -> received_as e r -> is_control r ->
  control_of o = Some (pe_AdmissionState r, pe_AdmissionGeneration r).
Proof. destruct o; intros [= <-] [->|[now ->]]; unfold is_control; cbn; done. Qed.

Definition frame_le (a b : PullerEvent) : Prop :=
  is_control a -> is_control b ->
  control_le (pe_AdmissionState a, pe_AdmissionGeneration a) (pe_AdmissionState b, pe_AdmissionGeneration b).
Lemma frames_strong transport out sent :
  StronglySorted output_le out -> Forall2 received_as (omap (frame transport) out) sent -> StronglySorted frame_le sent.
Proof.
  intros H. revert sent. induction H as [|o out Ho IH Hle]; intros sent; cbn.
  { intros Hs. inversion_clear Hs. constructor. }
  destruct (frame transport o) as [e|] eqn:E; [|apply IH].
  intros Hs. inversion_clear Hs as [|? r ? sent' Hr Hs']. constructor; [by apply IH|].
  apply Forall_forall. intros r' Hr' Hi Hi'. apply list_elem_of_lookup in Hr' as [i Hi0].
  destruct (Forall2_lookup_r _ _ _ _ _ Hs' Hi0) as (e' & He' & Hre'). apply list_elem_of_lookup_2, list_elem_of_omap in He' as (o' & Ho' & Eo').
  rewrite Forall_forall in Hle. apply (Hle o' Ho'); by eapply frame_control.
Qed.

(** C22: The admission protocol. In every run of the subscription loop for a driver that
    takes admissions, with whatever answers, overflows, outages and cancellations, the
    controls begin with "starting" of generation 1; each next one stays in the
    generation, or opens the following one by "recovering"; and an admitted generation
    announces nothing but "admitted". So the frames sent for a run never withdraw an
    admission within its generation, which is what the consumer's status relies on. *)
Theorem admission_protocol {S} `{EventIterator S} `{SliceSort} d s initial ctx b (ops : list (loop_op S)) :
  d_Admission d = true -> Z.of_nat (length ops) + 1 < 2 ^ 64 ->
  let out := lp_out (sys_run d (start_loop s initial ctx b) ops) in
  (forall c, head (controls out) = Some c -> c = (AdmissionStarting, 1)) /\
  Sorted next_control (controls out) /\
  (forall transport sent, Forall2 received_as (omap (frame transport) out) sent -> admitted_final sent).
Proof.
  intros HA Hn out. pose proof (sys_run_proto d (start_loop s initial ctx b) ops 0 HA (start_proto _ _ _ _) Hn) as P.
  split; [apply P|]. split; [apply P|]. intros transport sent Hs l1 x l2 y -> Hy Hiy Htg Hx.
  pose proof (frames_strong _ _ _ (controls_strong _ (chain_strong _ (pi_chain _ _ P))) Hs) as Hf.
  assert (is_control x) as Hix by (unfold is_control; by rewrite Hx).
  pose proof (sorted_mid _ _ _ _ Hf y Hy Hix Hiy) as Hle. unfold control_le in Hle. cbn in Hle.
  injection Htg as _ Hg. destruct Hle as [|[_ Hle]]; [lia|by apply Hle].
Qed.

(** A subscriber with room for one event catches up, is admitted and overflows. *)
Definition protocol_run : list (loop_op slice_iter) :=
  repeat (LStep (sample_answers [live_event "8-0-aa" 8] ChRecovery)) 18 ++
  [LBroadcast (Some (live_event "9-0-aa" 9)); LBroadcast (Some (live_event "9-1-aa" 9));
   LStep (sample_answers [] ChRecovery)].

Lemma admission_protocol_witness :
  let out := lp_out (sys_run (SS := insertion_slice_sort) sample_driver
                       (start_loop (sample_sub false 1) true None []) protocol_run) in
  controls out = [(AdmissionStarting, 1); (AdmissionReplaying, 1); (AdmissionAdmitted, 1); (AdmissionRecovering, 2)] /\
  admitted_final (omap (frame 1) out).
Proof.
  intros out. split; [vm_compute; reflexivity|].
  apply (proj2 (proj2 (admission_protocol (H0 := insertion_slice_sort) sample_driver (sample_sub false 1) true None []
    protocol_run eq_refl eq_refl)) 1).
  fold out. generalize (omap (frame 1) out).
  intros l. induction l; constructor; [by left|done].
Defined.
