(* ===== verification/SubscriptionLossless.v ===== *)
(** * The subscription loop loses nothing

    Over replays that contain what was broadcast before they were opened: outside of
    a catch-up every broadcast event has been reached by the subscriber's positions or
    waits in its queue, and an admission is announced only when everything broadcast
    before the live barrier has been reached. *)
From stdpp Require Import base list sorting gmap strings.
From Stdlib Require Import ZArith.
From S2P Require Import Prelude Value IndexStore Projection Events Coalescer Progress Subscriber Admission Subscription SubscriptionProtocol.
Local Open Scope Z_scope.

(** ** Positions *)

(** The positions have reached the event. *)
Definition settled (s : Subscriber) (e : StoreChangeEvent) : Prop :=
  ShouldSend s (evt_Backend e) (evt_EventID e) (evt_ClusterTime e) = false.

Lemma UpdatePosition_settles s e : settled (UpdatePosition s (evt_Backend e) (evt_EventID e) (evt_ClusterTime e)) e.
Proof.
  unfold settled, ShouldSend. cbn. rewrite !lookup_insert_eq. rewrite (proj2 (ct_Compare_eq _ _)) by done. cbn.
  apply negb_false_iff, bool_decide_eq_true. set_solver.
Qed.

Lemma ct_Lt_trans_le a b c : ct_Compare a b <> Gt -> ct_Compare c b = Gt -> ct_Compare a c = Lt.
Proof.
  rewrite !ct_Compare_rank. intros H1 H2%bytes_compare_lt_gt. by eapply bytes_le_lt_trans.
Qed.

Lemma UpdatePosition_keeps s x e :
  ShouldSend s (evt_Backend x) (evt_EventID x) (evt_ClusterTime x) = true -> settled s e ->
  settled (UpdatePosition s (evt_Backend x) (evt_EventID x) (evt_ClusterTime x)) e.
Proof.
  unfold settled, ShouldSend. cbn. destruct (decide (evt_Backend x = evt_Backend e)) as [->|Hne].
  2: { by rewrite !lookup_insert_ne. }
  rewrite !lookup_insert_eq. destruct (sub_lastClusterTime s !! evt_Backend e) as [t|]; [|done].
  destruct (ct_Compare (evt_ClusterTime x) t) eqn:Cx; [| done|].
  - apply ct_Compare_eq in Cx. rewrite Cx. destruct (ct_Compare (evt_ClusterTime e) t); [|done|done]. cbn.
    rewrite !negb_false_iff, !bool_decide_eq_true. destruct (sub_deliveredIDs s !! evt_Backend e); cbn; set_solver.
  - intros _ He. rewrite (ct_Lt_trans_le _ t); [done| |done]. by destruct (ct_Compare (evt_ClusterTime e) t).
Qed.

Lemma same_positions_settled s s' e : same_positions s s' -> settled s e -> settled s' e.
Proof. intros (E1 & E2 & E3). unfold settled, ShouldSend. by rewrite E1, E2. Qed.

(** ** Coverage *)
Definition somes (B : list (option StoreChangeEvent)) : list StoreChangeEvent := omap id B.
Lemma elem_of_somes B e : e ∈ somes B <-> Some e ∈ B.
Proof. unfold somes. rewrite list_elem_of_omap. split; [by intros (x & Hx & [= ->])|]. intros H. by exists (Some e). Qed.

(** Every broadcast event is reached, queued, or among [extra]. *)
Definition covered (s : Subscriber) (B : list (option StoreChangeEvent)) (extra : list StoreChangeEvent) : Prop :=
  forall e, Some e ∈ B -> settled s e \/ Some e ∈ sub_ch s \/ e ∈ extra.

(** What holds of the subscriber throughout. *)
Record registered (s : Subscriber) (B : list (option StoreChangeEvent)) : Prop := {
  rg_cap : 0 < sub_cap s;
  rg_plain : sub_CoalesceOnCatchUp s = false;
  rg_groups : sub_startFromNow s = true -> forall b, group_inv (sub_admissionGroups s !! b) (of_backend b (somes B));
  rg_order : forall b, in_time_order (of_backend b (somes B));
}.

Lemma somes_snoc B e : somes (B ++ [e]) = somes B ++ option_list e.
Proof. unfold somes. rewrite omap_app. cbn. by destruct e. Qed.

Lemma enqueue_registered s B e :
  registered s B -> (forall b, in_time_order (of_backend b (somes (B ++ [e])))) -> registered (enqueue s e).1 (B ++ [e]).
Proof.
  intros [H1 H2 H3 H4] Ho. split; [..|done].
  - unfold enqueue. by repeat case_match.
  - unfold enqueue. by repeat case_match.
  - assert (sub_startFromNow (enqueue s e).1 = sub_startFromNow s) as -> by (unfold enqueue; by repeat case_match).
    intros Hn b. rewrite somes_snoc. destruct e as [e|].
    + change (option_list (Some e)) with [e]. destruct (enqueue_groups s e Hn) as [-> _]. rewrite of_backend_snoc.
      destruct (String.eqb_spec (evt_Backend e) b) as [<-|Hne].
      * by apply note_admission_inv, H3.
      * rewrite note_admission_other by done. by apply H3.
    + change (option_list (@None StoreChangeEvent)) with (@nil StoreChangeEvent). rewrite app_nil_r. unfold enqueue. repeat case_match; by apply H3.
Qed.

Lemma enqueue_positions s e : same_positions s (enqueue s e).1.
Proof. unfold enqueue. by repeat case_match. Qed.

Lemma enqueue_covered s B extra e :
  (sub_recoveryPending s = false -> covered s B extra) ->
  sub_recoveryPending (enqueue s e).1 = false -> covered (enqueue s e).1 (B ++ [e]) extra.
Proof.
  intros H. unfold enqueue. destruct (sub_recoveryPending s) eqn:P; [done|]. destruct (_ <? _); [|done].
  intros _ x [Hx|Hx%list_elem_of_singleton]%elem_of_app; cbn.
  - destruct (H eq_refl x Hx) as [Hs|[Hq|Hr]]; [by left| right; left; set_solver| by right; right].
  - subst e. right; left. set_solver.
Qed.

Lemma covered_step s s' B extra :
  (forall e, settled s e -> settled s' e) -> sub_ch s' = sub_ch s -> covered s B extra -> covered s' B extra.
Proof. intros Hs Hq H e He. rewrite Hq. destruct (H e He) as [|[|]]; auto. Qed.

(** Taking the first event of the queue and reaching it. *)
Lemma receive_covered s s' s'' B x :
  receive s = (s', Some (Some x)) -> (forall e, settled s' e -> settled s'' e) -> settled s'' x ->
  sub_ch s'' = sub_ch s' -> covered s B [] -> covered s'' B [].
Proof.
  unfold receive. destruct (sub_ch s) as [|y ch] eqn:E; [done|]. intros [= <- ->] Hs Hx Hq H e He.
  rewrite Hq. cbn. destruct (H e He) as [Hse|[Hin|Hin]]; [left; by apply Hs| |by apply elem_of_nil in Hin].
  rewrite E in Hin. apply elem_of_cons in Hin as [[= ->]|Hin]; [by left| by right; left].
Qed.

(** ** The iterator of a replay *)
Section Lossless.
Context {S : Type} `{EI : EventIterator S} `{SS : SliceSort}.
Variable d : SubscriptionDriver.
Implicit Types (l : loop S) (a : answers S) (i : @admittedReplayIterator S).

(** The events Next passes over are those the filter refuses; when it answers false it
    has used its polls, found the subscriber closed, or reached the end. *)
Definition next_spec (s : Subscriber) i (rem : list StoreChangeEvent) (err : option string) (more : bool) i' : Prop :=
  ai_filters i' = ai_filters i /\
  if more then exists skipped e rem', rem = skipped ++ e :: rem' /\
    Forall (fun x => ai_filters i = true /\ replayAdmitted s (Some x) = false) skipped /\
    ai_Event i' = Some e /\ yields (ai_source i') rem' err
  else ai_polls i' = 0%nat \/ sub_done s = true \/
    (Forall (fun x => ai_filters i = true /\ replayAdmitted s (Some x) = false) rem /\ iter_err (ai_source i') = err).

Lemma ai_loop_spec polls i src rem err more i' :
  ai_filters i = true -> yields src rem err -> ai_loop polls i src = (more, i') -> next_spec (ai_sub i) i rem err more i'.
Proof.
  intros Hf. revert src rem. induction polls as [|polls IH]; intros src rem Hy; cbn.
  { intros [= <- <-]. split; [done|]. by left. }
  destruct (sub_done (ai_sub i)) eqn:D; [intros [= <- <-]; split; [done|]; by right; left|].
  inversion Hy as [s s' E|s s' e rem' err' E Ev Er Hy']; subst; rewrite E.
  - intros [= <- <-]. split; [done|]. right; right. by split.
  - rewrite Ev. destruct (replayAdmitted (ai_sub i) (Some e)) eqn:A.
    + intros [= <- <-]. split; [done|]. exists [], e, rem'. split_and!; try done. unfold ai_Event. cbn. by rewrite Hf.
    + intros H. destruct (IH _ _ Hy' H) as [F H']. split; [done|]. destruct more.
      * destruct H' as (sk & x & r & -> & Hsk & Hx & Hr). exists (e :: sk), x, r. split_and!; try done. by constructor.
      * destruct H' as [|[|[Hall He]]]; [by left| by right; left|]. right; right. split; [by constructor|done].
Qed.

Lemma ai_Next_spec i rem err more i' :
  yields (ai_source i) rem err -> ai_Next i = (more, i') -> next_spec (ai_sub i) i rem err more i'.
Proof.
  intros Hy. unfold ai_Next. destruct (ai_filters i) eqn:F; [by apply ai_loop_spec|].
  inversion Hy as [s s' E|s s' e rem' err' E Ev Er Hy']; subst; rewrite E; intros [= <- <-]; (split; [by cbn|]).
  - right; right. by split.
  - exists [], e, rem'. split_and!; try done. unfold ai_Event. cbn. by rewrite F.
Qed.

(** ** The invariant *)
Definition fence_settled l : Prop := forall e, Some e ∈ take (lp_fence l) (lp_broadcast l) -> settled (lp_sub l) e.

Definition pc_inv l : Prop :=
  let s := lp_sub l in
  let caught_up := sub_recoveryPending s = false -> covered s (lp_broadcast l) [] in
  match lp_pc l with
  | PStart | PTop | PUnavailable => v_catchUp (lp_vars l) = false -> caught_up
  | PReplaying | PDrainQueue | PBeginRecovery | POpen | PExited _ => True
  | PNext it => exists i rem err, it = RPlain i /\ ai_filters i = sub_startFromNow s /\ yields (ai_source i) rem err /\
      (err = None -> sub_recoveryPending s = false -> covered s (lp_broadcast l) rem)
  | PGot it => exists i e rem err, it = RPlain i /\ ai_filters i = sub_startFromNow s /\ ai_Event i = Some e /\
      yields (ai_source i) rem err /\
      (err = None -> sub_recoveryPending s = false -> covered s (lp_broadcast l) (e :: rem))
  | PEnded it => lp_ctx l = None -> sub_done s = false -> ri_Err it = None -> caught_up
  | PDrainReceive => caught_up /\ (sub_recoveryPending s = true -> sub_ch s <> [])
  | PDrained => caught_up /\ (sub_recoveryPending s = false -> d_Admission d = true -> fence_settled l)
  | PReadyCheck | PReadyCall | PAdmit => caught_up /\ (d_Admission d = true -> fence_settled l)
  | _ => caught_up
  end.

Record lossless_inv l : Prop := {
  lo_registered : registered (lp_sub l) (lp_broadcast l);
  lo_fence : (lp_fence l <= length (lp_broadcast l))%nat;
  lo_phase : phase_ok l;
  lo_pc : pc_inv l;
}.

(** A step that leaves the queue and the admission groups. *)
Definition same_queue (s s' : Subscriber) : Prop :=
  sub_ch s' = sub_ch s /\ sub_recoveryPending s' = sub_recoveryPending s /\ sub_cap s' = sub_cap s /\
  sub_CoalesceOnCatchUp s' = sub_CoalesceOnCatchUp s /\ sub_startFromNow s' = sub_startFromNow s /\
  sub_admissionGroups s' = sub_admissionGroups s /\ sub_done s' = sub_done s.
Lemma same_queue_registered s s' B :
  sub_cap s' = sub_cap s -> sub_CoalesceOnCatchUp s' = sub_CoalesceOnCatchUp s ->
  sub_startFromNow s' = sub_startFromNow s -> sub_admissionGroups s' = sub_admissionGroups s ->
  registered s B -> registered s' B.
Proof. intros E1 E2 E3 E4 [H1 H2 H3 H4]. split; rewrite ?E1, ?E2, ?E3, ?E4; done. Qed.

Lemma deliver_reaches l a evt phase l' exit :
  deliver l a evt phase = (l', exit) ->
  (forall e, settled (lp_sub l) e -> settled (lp_sub l') e) /\ same_queue (lp_sub l) (lp_sub l') /\
  lp_vars l' = lp_vars l /\ lp_broadcast l' = lp_broadcast l /\ lp_fence l' = lp_fence l /\ lp_pc l' = lp_pc l /\
  (exit = None -> exists e, evt = Some e /\ settled (lp_sub l') e).
Proof.
  unfold deliver. set (ctx := fun n : nat => _). destruct (deliverSubscriptionEvent _ ctx _ evt phase) as [[s ex] ack] eqn:D.
  intros [= <- <-]. assert (Hsub : forall o, lp_sub match ack with Some e => emit (set_ctx (set_sub l s) (ctx_now l a)) (o e)
    | None => set_ctx (set_sub l s) (ctx_now l a) end = s) by (intros; by destruct ack).
  rewrite Hsub. split; [|split; [|split; [by destruct ack|split; [by destruct ack|split; [by destruct ack|split; [by destruct ack|]]]]]].
  - intros e. apply deliver_positions in D. destruct ack as [x|]; [|by subst].
    destruct D as [Hx ->]. by apply UpdatePosition_keeps.
  - apply deliver_positions in D. destruct ack as [x|]; [destruct D as [_ ->]|subst]; by split_and!.
  - intros ->. unfold deliverSubscriptionEvent in D. destruct (subscriptionStopped _ _ _); [done|].
    destruct evt as [e|]; [|done]. exists e. split; [done|].
    destruct (ShouldSend (lp_sub l) _ _ _) eqn:Hs; cbn in D; [|by injection D as <- _].
    destruct (a_err a); [by repeat case_match|]. injection D as <- _. apply UpdatePosition_settles.
Qed.

(** The same subscriber and broadcasts. *)
Definition alike l l' : Prop :=
  lp_sub l' = lp_sub l /\ lp_broadcast l' = lp_broadcast l /\ lp_fence l' = lp_fence l /\
  v_catchUp (lp_vars l') = v_catchUp (lp_vars l).

Lemma lossless_alike l l' : lossless_inv l -> alike l l' -> phase_ok l' -> pc_inv l' -> lossless_inv l'.
Proof. intros [H1 H2 _ _] (E1 & E2 & E3 & _) Hph Hpc. split; rewrite ?E1, ?E2, ?E3; done. Qed.
Lemma lossless_exit l l' :
  lossless_inv l -> registered (lp_sub l') (lp_broadcast l') -> lp_broadcast l' = lp_broadcast l -> lp_fence l' = lp_fence l ->
  forall exit, lp_pc l' = PExited exit -> lossless_inv l'.
Proof. intros [_ H2 _ _] H1 E2 E3 exit E. split; [done| by rewrite E2, E3| |]; unfold phase_ok, pc_inv; by rewrite E. Qed.

Lemma emit_lossless l a state reason next :
  registered (lp_sub l) (lp_broadcast l) -> (lp_fence l <= length (lp_broadcast l))%nat ->
  (forall l', alike l l' -> lossless_inv (next l')) -> lossless_inv (emitAdmission d l a state reason next).
Proof.
  intros Hr Hf Hn. unfold emitAdmission. destruct (d_Admission d); [|by apply Hn].
  destruct (a_err a); [|by apply Hn]. by split.
Qed.
Lemma emit_if_lossless l a state reason next :
  registered (lp_sub l) (lp_broadcast l) -> (lp_fence l <= length (lp_broadcast l))%nat ->
  (forall l', alike l l' -> lossless_inv (next l')) -> lossless_inv (emitIfAdmission d l a state reason next).
Proof. intros Hr Hf Hn. unfold emitIfAdmission. destruct (d_Admission d); [by apply emit_lossless|by apply Hn]. Qed.

(** With catch-up due, nothing is owed at the top of the loop. *)
Lemma top_lossless l :
  registered (lp_sub l) (lp_broadcast l) -> (lp_fence l <= length (lp_broadcast l))%nat ->
  v_catchUp (lp_vars l) = true -> lossless_inv (set_pc l PTop).
Proof. intros Hr Hf Hc. split; try done. unfold pc_inv. cbn. by rewrite Hc. Qed.

Definition replay_complete l (r : res string S) : Prop :=
  match r with
  | Ok source => exists rem err, yields source rem err /\
      forall e, Some e ∈ lp_broadcast l -> settled (lp_sub l) e \/ e ∈ rem
  | Err _ => True
  end.

(** An event the filter refuses was not broadcast. *)
Lemma refused_not_broadcast s B x :
  registered s B -> sub_startFromNow s = true /\ replayAdmitted s (Some x) = false -> ~ Some x ∈ B.
Proof.
  intros [_ _ Hg Ho] [Hn Hx] Hin%elem_of_somes.
  by rewrite (broadcast_admitted s x (somes B) Hn (Hg Hn _) (Ho _) Hin) in Hx.
Qed.

Lemma overflow_lossless l a :
  registered (lp_sub l) (lp_broadcast l) -> (lp_fence l <= length (lp_broadcast l))%nat -> lossless_inv (overflowed d l a).
Proof.
  intros Hr Hf. unfold overflowed. apply emit_if_lossless; [done| done|].
  intros l' (E1 & E2 & E3 & E4). apply top_lossless; rewrite ?E1, ?E2, ?E3, ?E4; done.
Qed.

(** Steps that keep the subscriber and stay where nothing new is owed. *)
Ltac stay H := eapply lossless_alike; [exact H| by split_and!| try done| try done].
Ltac leave H := eapply lossless_exit; [exact H| try apply H| try done| try done| done].

Lemma next_lossless l a it :
  lossless_inv l -> lp_pc l = PNext it -> lossless_inv (loop_step d l a).
Proof.
  intros H P. pose proof (lo_pc _ H) as Hpc. pose proof (lo_phase _ H) as Hph. unfold pc_inv in Hpc. unfold phase_ok in Hph.
  unfold loop_step, replay_step. rewrite P in *. destruct (stopped l _) eqn:St; [leave H|].
  destruct Hpc as (i & rem & err & -> & Hf & Hy & Hcov). cbn [ri_Next ri_refresh].
  destruct (ai_Next (ai_refresh (lp_sub l) (a_polls a) i)) as [more i'] eqn:N.
  apply (ai_Next_spec _ rem err) in N as [Hf' N]; [|exact Hy]. cbn in Hf', N.
  cbn [ri_inner]. destruct (_ && _) eqn:G; [done|].
  assert (Hskip : forall sk, Forall (fun x => ai_filters i = true /\ replayAdmitted (lp_sub l) (Some x) = false) sk ->
                  forall x, Some x ∈ lp_broadcast l -> ~ x ∈ sk).
  { intros sk Hsk x Hx Hin. rewrite Forall_forall in Hsk. rewrite Hf in Hsk.
    by apply (refused_not_broadcast _ _ x (lo_registered _ H) (Hsk x Hin)). }
  destruct more.
  - destruct N as (sk & e & rem' & -> & Hsk & Hev & Hy'). stay H. unfold pc_inv. cbn.
    exists i', e, rem', err. split_and!; try done; [by rewrite Hf', Hf|].
    intros He Hp x Hx. destruct (Hcov He Hp x Hx) as [|[|Hin]]; [by left| by right; left|].
    apply elem_of_app in Hin as [Hin|Hin]; [by destruct (Hskip sk Hsk x Hx)| by right; right].
  - stay H. unfold pc_inv. cbn. intros Hc Hd He Hp. rewrite Hc in G. cbn in G. rewrite andb_true_r in G.
    apply Nat.eqb_neq in G. destruct N as [|[|[Hall Herr]]]; [done| congruence|].
    intros x Hx. destruct (Hcov ltac:(congruence) Hp x Hx) as [|[|Hin]]; [by left| by right; left|].
    by destruct (Hskip rem Hall x Hx).
Qed.

Lemma got_lossless l a it :
  lossless_inv l -> lp_pc l = PGot it -> lossless_inv (loop_step d l a).
Proof.
  intros H P. pose proof (lo_pc _ H) as Hpc. pose proof (lo_phase _ H) as Hph. unfold pc_inv in Hpc. unfold phase_ok in Hph.
  unfold loop_step, replay_step. rewrite P in *. destruct (stopped l _) eqn:St; [leave H|].
  destruct Hpc as (i & e & rem & err & -> & Hf & Hev & Hy & Hcov). cbn [ri_Event]. rewrite Hev.
  destruct (deliver l a (Some e) _) as [l' exit] eqn:D. apply deliver_reaches in D as (Hs & Hq & Ev & Eb & Ef & _ & Hx).
  pose proof Hq as (Q1 & Q2 & Q3 & Q4 & Q5 & Q6 & Q7).
  assert (registered (lp_sub l') (lp_broadcast l)) by (eapply same_queue_registered; [..|apply H]; done).
  destruct exit as [exit|]; [leave H; cbn; rewrite ?Eb, ?Ef; done|].
  destruct (Hx eq_refl) as (x & [= <-] & Hset). destruct H as [_ H2 _ _].
  split; cbn; rewrite ?Eb, ?Ef; try done; [unfold phase_ok; cbn; by rewrite Ev|].
  unfold pc_inv. cbn. rewrite ?Eb, Q2, Q5. exists i, rem, err. split_and!; try done. intros He Hp x Hin. rewrite Q1.
  destruct (Hcov He Hp x Hin) as [|[|[->|]%elem_of_cons]]; auto.
Qed.

(** Receiving the first event of the queue and delivering it. *)
Lemma receive_lossless l a next s evt l' exit :
  lossless_inv l -> (sub_recoveryPending (lp_sub l) = false -> covered (lp_sub l) (lp_broadcast l) []) ->
  receive (lp_sub l) = (s, Some evt) -> deliver (set_sub l s) a evt SubscriptionPhaseLive = (l', exit) ->
  v_catchUp (lp_vars l) = false -> (next = PDraining \/ next = PLivePending) ->
  lossless_inv (match exit with Some e => quit l' e | None => set_pc l' next end).
Proof.
  intros H Hcov R D Hc Hnext. apply deliver_reaches in D as (Hs & Hq & Ev & Eb & Ef & _ & Hx). cbn in *.
  pose proof Hq as (Q1 & Q2 & Q3 & Q4 & Q5 & Q6 & Q7).
  assert (Hreg : registered s (lp_broadcast l)).
  { unfold receive in R. destruct (sub_ch (lp_sub l)); [done|]. injection R as <- _.
    eapply same_queue_registered; [..|apply H]; done. }
  assert (registered (lp_sub l') (lp_broadcast l)) by (eapply same_queue_registered; [..|exact Hreg]; done).
  assert (sub_recoveryPending s = sub_recoveryPending (lp_sub l)) as Ep.
  { unfold receive in R. destruct (sub_ch (lp_sub l)); [done|]. by injection R as <- _. }
  destruct exit as [exit|]; [leave H; cbn; rewrite ?Eb, ?Ef; done|].
  destruct (Hx eq_refl) as (x & -> & Hset). pose proof (lo_fence _ H).
  assert (Hcov' : sub_recoveryPending (lp_sub l') = false -> covered (lp_sub l') (lp_broadcast l) []).
  { intros Hp. eapply receive_covered; [exact R| done| done| done|]. apply Hcov. congruence. }
  split; cbn; rewrite ?Eb, ?Ef; try done.
  - unfold phase_ok. cbn. rewrite Ev. by destruct Hnext as [-> | ->].
  - unfold pc_inv. cbn. rewrite Eb. by destruct Hnext as [-> | ->].
Qed.

Lemma loop_step_lossless l a :
  lossless_inv l -> (lp_pc l = POpen -> replay_complete l (a_open a)) -> lossless_inv (loop_step d l a).
Proof.
  intros H Ho. pose proof (lo_pc _ H) as Hpc. pose proof (lo_phase _ H) as Hph.
  destruct (lp_pc l) eqn:P; unfold pc_inv, phase_ok in Hpc, Hph; rewrite ?P in Hpc, Hph;
    try (by eapply next_lossless; [|exact P]); try (by eapply got_lossless; [|exact P]);
    unfold loop_step, replay_step, ready_step, select_step; rewrite P.
  - apply emit_if_lossless; [apply H| apply H|]. intros l' E. pose proof E as (E1 & E2 & E3 & E4). stay H.
    unfold pc_inv. cbn. by rewrite E1, E2, E4.
  - assert (Hgo : forall ctx, lossless_inv (set_pc (set_ctx l ctx) (if v_catchUp (lp_vars l) then PReplaying else PEnterLive))).
    { intros ctx. destruct (v_catchUp (lp_vars l)) eqn:C; stay H. unfold pc_inv. cbn. by apply Hpc. }
    destruct (d_CheckAdmission d); [|specialize (Hgo (lp_ctx l)); by destruct l].
    destruct (stopped l _); [leave H|]. cbn -[Z.pow]. destruct (a_check a); cbn -[Z.pow]; [apply Hgo|..].
    + destruct (ctx_now l a); [leave H|]. destruct (String.eqb _ _); [stay H|].
      apply emit_lossless; [apply H| apply H|].
      intros l' E. pose proof E as (E1 & E2 & E3 & E4). cbn in *. stay H. unfold pc_inv. cbn. by rewrite E1, E2, E4.
    + destruct (ctx_now l a); leave H.
  - destruct (a_choice a), (lp_ctx l); try done; try (leave H); try (stay H); destruct (sub_done _); try done; leave H.
  - apply emit_if_lossless; [apply H| apply H|]. intros l' E. pose proof E as (E1 & E2 & E3 & E4).
    destruct (stopped l' _); [leave H; cbn; rewrite ?E1, ?E2; try done; apply H|].
    destruct (v_recovering _); stay H; unfold phase_ok; cbn; by rewrite E4.
  - destruct (stopped _ _); [leave H; eapply same_queue_registered; [..|apply H]; done|].
    destruct H as [H1 H2 H3 H4]. split; [eapply same_queue_registered; [..|exact H1]; done| exact H2| exact Hph| exact I].
  - destruct H as [H1 H2 H3 H4]. split; [eapply same_queue_registered; [..|exact H1]; done| exact H2| exact Hph| exact I].
  - destruct (stopped l _); [leave H|]. specialize (Ho eq_refl). cbn. destruct (a_open a) as [source|err]; [|leave H].
    destruct Ho as (rem & err & Hy & Hall). stay H. unfold pc_inv. cbn.
    unfold wrap_replay. rewrite (rg_plain _ _ (lo_registered _ H)).
    eexists _, rem, err. split_and!; [done| done| done|]. intros _ _ e He. destruct (Hall e He); auto.
  - destruct (stopped l _) eqn:St; [leave H|]. cbn. unfold stopped, subscriptionStopped in St.
    destruct (lp_ctx l) eqn:C; [done|]. destruct (sub_done (lp_sub l)) eqn:Dn; [done|].
    destruct (ri_Err it) eqn:E; [destruct (ctx_now l a); leave H|].
    destruct (a_close a); [destruct (ctx_now l a); leave H|]. stay H. unfold pc_inv. cbn. by apply Hpc.
  - destruct (sub_recoveryPending (lp_sub l)) eqn:Pd.
    + apply top_lossless; [apply H| apply H| done].
    + destruct H as [H1 H2 H3 H4]. split; [done| done| done|]. unfold pc_inv. cbn. intros _. by apply Hpc.
  - destruct (v_enteredLive _); [stay H|]. destruct (stopped _ _); [leave H|]. destruct (d_EnterLive d); stay H.
  - destruct (v_ready _); [stay H|]. destruct (d_Admission d) eqn:HA.
    + destruct (d_CheckAdmission d); [|stay H]. destruct (a_check a); stay H; unfold pc_inv; cbn; by intros _.
    + stay H. unfold pc_inv. cbn. split; [done|]. by rewrite HA.
  - destruct H as [H1 H2 H3 H4].
    assert (forall ctx, lossless_inv (set_pc (set_fence (set_ctx l ctx)) PDraining)) as Hf by (intros ctx; by split).
    destruct (d_FenceAdmission d); [|specialize (Hf (lp_ctx l)); by destruct l].
    destruct (a_err a); [by split|apply Hf].
  - destruct (sub_recoveryPending (lp_sub l)) eqn:Pd; stay H; unfold pc_inv; cbn; rewrite Pd; done.
  - destruct Hpc as [Hcov Hne]. destruct (receive (lp_sub l)) as [s' [evt|]] eqn:R.
    + destruct (deliver _ a evt _) as [l' exit] eqn:D.
      pose proof (receive_lossless l a PDraining _ _ _ _ H Hcov R D Hph (or_introl eq_refl)) as Hr. by destruct exit.
    + assert (sub_ch (lp_sub l) = []) as E by (unfold receive in R; by destruct (sub_ch (lp_sub l))).
      stay H. unfold pc_inv. cbn. split; [done|]. intros Hp _ e He. cbn in He.
      destruct (Hcov Hp e (subseteq_take _ _ _ He)) as [|[Hin|Hin]]; [done| |]; rewrite ?E in Hin; by apply elem_of_nil in Hin.
  - destruct Hpc as [Hcov Hf]. destruct (sub_recoveryPending (lp_sub l)) eqn:Pd.
    + apply emit_lossless; [apply H| apply H|]. intros l' (E1 & E2 & E3 & E4).
      apply top_lossless; rewrite ?E1, ?E2, ?E3, ?E4; try done; apply H.
    + stay H. unfold pc_inv. cbn. rewrite Pd. split; [exact Hcov| exact (Hf eq_refl)].
  - destruct (d_CheckAdmission d); [|stay H]. destruct (a_check a); stay H; unfold pc_inv; cbn; intros; by apply Hpc.
  - destruct (stopped _ _); [leave H|]. destruct (d_Ready d); [|stay H]. destruct (a_err a); [leave H| stay H].
  - apply emit_if_lossless; [apply H| apply H|]. intros l' E. pose proof E as (E1 & E2 & E3 & E4). stay H.
    + unfold phase_ok. cbn. by rewrite E4.
    + unfold pc_inv. cbn. rewrite E1, E2. apply Hpc.
  - destruct (a_choice a).
    + destruct (lp_ctx l); [leave H| done].
    + destruct (sub_done _); [|done]. destruct (lp_ctx l); leave H.
    + destruct (sub_recovery _); [|done]. apply overflow_lossless; [|apply H].
      eapply same_queue_registered; [..|apply H]; done.
    + destruct (d_Maintain d); [|stay H]. destruct (a_err a); [leave H| stay H].
    + destruct (receive (lp_sub l)) as [s' [evt|]] eqn:R; [|done]. destruct (deliver _ a evt _) as [l' exit] eqn:D.
      pose proof (receive_lossless l a PLivePending _ _ _ _ H Hpc R D Hph (or_intror eq_refl)) as Hr. by destruct exit.
  - destruct (d_Admission d && _), (d_Admission d && _); stay H; unfold pc_inv; cbn; by intros _.
  - destruct (sub_recoveryPending (lp_sub l)) eqn:Pd; [apply overflow_lossless; apply H|]. stay H.
    unfold pc_inv. cbn. intros _ _. by apply Hpc.
  - done.
Qed.
(** ** Acknowledged deliveries *)
Definition delivery_of (o : loop_output) : option StoreChangeEvent :=
  match o with ODeliver e _ => Some e | _ => None end.
Definition delivered (out : list loop_output) : list StoreChangeEvent := omap delivery_of out.

Lemma delivered_snoc out o : delivered (out ++ [o]) = delivered out ++ option_list (delivery_of o).
Proof. unfold delivered. rewrite omap_app. cbn. by destruct (delivery_of o). Qed.

(** The subscriber is where its acknowledged deliveries have brought it. *)
Definition tracks (s0 : Subscriber) l : Prop := reaches s0 (delivered (lp_out l)) (lp_sub l).

Lemma tracks_same s0 l l' :
  tracks s0 l -> lp_sub l' = lp_sub l -> delivered (lp_out l') = delivered (lp_out l) -> tracks s0 l'.
Proof. unfold tracks. by intros H -> ->. Qed.
Lemma tracks_sub s0 l s : tracks s0 l -> sub_step (lp_sub l) None s -> tracks s0 (set_sub l s).
Proof.
  intros H St. unfold tracks. cbn. rewrite <- (app_nil_r (delivered _)). by apply (reaches_step _ _ (lp_sub l) None).
Qed.
Lemma tracks_emit s0 l a state reason next :
  tracks s0 l -> (forall l', tracks s0 l' -> tracks s0 (next l')) -> tracks s0 (emitAdmission d l a state reason next).
Proof.
  intros H Hn. unfold emitAdmission. destruct (d_Admission d); [|by apply Hn].
  assert (tracks s0 (set_ctx (emit l (OAdmission state (v_generation (lp_vars l)) reason)) (ctx_now l a))).
  { eapply tracks_same; [exact H| done|]. cbn. by rewrite delivered_snoc, app_nil_r. }
  destruct (a_err a); [|apply Hn]; (eapply tracks_same; [exact H0| done| done]).
Qed.
Lemma tracks_emit_if s0 l a state reason next :
  tracks s0 l -> (forall l', tracks s0 l' -> tracks s0 (next l')) -> tracks s0 (emitIfAdmission d l a state reason next).
Proof. intros H Hn. unfold emitIfAdmission. destruct (d_Admission d); [by apply tracks_emit| by apply Hn]. Qed.
Lemma tracks_deliver s0 l a evt phase l' exit : tracks s0 l -> deliver l a evt phase = (l', exit) -> tracks s0 l'.
Proof.
  intros H. unfold deliver. destruct (deliverSubscriptionEvent _ _ _ _ _) as [[s ex] ack] eqn:D. intros [= <- <-].
  pose proof (reaches_step _ _ _ _ _ H (step_deliver _ _ _ _ _ _ _ _ D)) as R.
  unfold tracks. destruct ack; cbn; [by rewrite delivered_snoc| by rewrite app_nil_r in R].
Qed.

Ltac track H := eapply tracks_same; [exact H| done| cbn; rewrite ?delivered_snoc, ?app_nil_r; done].

Lemma loop_step_tracks s0 l a : tracks s0 l -> tracks s0 (loop_step d l a).
Proof.
  intros H. unfold loop_step, replay_step, ready_step, select_step. destruct (lp_pc l) eqn:P.
  - apply tracks_emit_if; [done|]. intros l' H'. track H'.
  - destruct (d_CheckAdmission d); [|track H]. destruct (stopped l _); [track H|]. cbn -[Z.pow].
    destruct (a_check a); cbn -[Z.pow]; [track H|destruct (ctx_now l a); [track H|]..].
    + destruct (String.eqb _ _); [track H|]. apply tracks_emit; [track H|]. intros l' H'. track H'.
    + track H.
  - destruct (a_choice a), (lp_ctx l); try done; try track H; destruct (sub_done _); try done; track H.
  - apply tracks_emit_if; [done|]. intros l' H'. destruct (stopped l' _); track H'.
  - pose proof (tracks_sub s0 l _ H (step_drain _)) as H'. destruct (stopped _ _); track H'.
  - pose proof (tracks_sub s0 l _ H (step_recover _)) as H'. track H'.
  - destruct (stopped _ _); [track H|]. cbn. destruct (a_open a); track H.
  - destruct (stopped _ _); [track H|]. destruct (ri_Next _ _) as [[more it']|]; [|done].
    destruct (_ && _); [done|]. track H.
  - destruct (stopped _ _); [track H|]. destruct (ri_Event it) as [e|]; [|track H].
    destruct (deliver l a (Some e) _) as [l' exit] eqn:D. apply (tracks_deliver s0) in D; [|done]. destruct exit; track D.
  - destruct (stopped _ _); [track H|]. cbn. destruct (ri_Err it), (a_close a), (ctx_now l a); track H.
  - destruct (sub_recoveryPending _); track H.
  - destruct (v_enteredLive _); [track H|]. destruct (stopped _ _); [track H|]. destruct (d_EnterLive d); track H.
  - destruct (v_ready _); [track H|]. destruct (d_Admission d); [|track H]. destruct (d_CheckAdmission d); [|track H].
    destruct (a_check a); track H.
  - destruct (d_FenceAdmission d); [|track H]. destruct (a_err a); track H.
  - track H.
  - pose proof (tracks_sub s0 l _ H (step_receive _)) as H'. destruct (receive _) as [s' [evt|]]; [|track H].
    destruct (deliver _ a evt _) as [l' exit] eqn:D. apply (tracks_deliver s0) in D; [|done]. destruct exit; track D.
  - destruct (sub_recoveryPending _); [|track H]. apply tracks_emit; [track H|]. intros l' H'. track H'.
  - destruct (d_CheckAdmission d); [|track H]. destruct (a_check a); track H.
  - destruct (stopped _ _); [track H|]. destruct (d_Ready d); [|track H]. destruct (a_err a); track H.
  - apply tracks_emit_if; [done|]. intros l' H'. track H'.
  - destruct (a_choice a).
    + destruct (lp_ctx l); [track H| done].
    + destruct (sub_done _); [|done]. destruct (lp_ctx l); track H.
    + destruct (sub_recovery _); [|done]. pose proof (tracks_sub s0 l _ H (step_wake _)) as H'.
      apply tracks_emit_if; [track H'|]. intros l' H1. track H1.
    + destruct (d_Maintain d); [|track H]. destruct (a_err a); track H.
    + pose proof (tracks_sub s0 l _ H (step_receive _)) as H'. destruct (receive _) as [s' [evt|]]; [|done].
      destruct (deliver _ a evt _) as [l' exit] eqn:D. apply (tracks_deliver s0) in D; [|done]. destruct exit; track D.
  - destruct (d_Admission d && _), (d_Admission d && _); track H.
  - destruct (sub_recoveryPending _); [|track H]. apply tracks_emit_if; [track H|]. intros l' H'. track H'.
  - done.
Qed.

(** ** Runs

    Each backend broadcasts in time order, and the events of a replay that ends well
    contain what was broadcast before it was opened, but for what the positions had
    reached. *)
Definition register (s : Subscriber) (B : list (option StoreChangeEvent)) : Subscriber :=
  foldl (fun s e => (enqueue s e).1) s B.

Inductive complete_run (s0 : Subscriber) : loop S -> Prop :=
| run_start initial ctx B :
    (forall b, in_time_order (of_backend b (somes B))) -> complete_run s0 (start_loop (register s0 B) initial ctx B)
| run_step l a :
    complete_run s0 l -> (lp_pc l = POpen -> replay_complete l (a_open a)) -> complete_run s0 (loop_step d l a)
| run_broadcast l e :
    complete_run s0 l -> (forall b, in_time_order (of_backend b (somes (lp_broadcast l ++ [e])))) ->
    complete_run s0 (sys_step d l (LBroadcast e))
| run_close l : complete_run s0 l -> complete_run s0 (sys_step d l LClose)
| run_cancel l err : complete_run s0 l -> complete_run s0 (sys_step d l (LCancel err)).

Lemma order_prefix b B e :
  in_time_order (of_backend b (somes (B ++ [e]))) -> in_time_order (of_backend b (somes B)).
Proof.
  rewrite somes_snoc. unfold of_backend, in_time_order. rewrite List.filter_app. apply StronglySorted_app_1_l.
Qed.

Lemma register_lossless s0 B :
  registered s0 [] -> sub_recoveryPending s0 = false -> (forall b, in_time_order (of_backend b (somes B))) ->
  registered (register s0 B) B /\ (sub_recoveryPending (register s0 B) = false -> covered (register s0 B) B []) /\
  reaches s0 [] (register s0 B).
Proof.
  intros H0 Hp. induction B as [|e B IH] using rev_ind; intros Ho.
  { split_and!; [done| intros _ e He; by apply elem_of_nil in He| constructor]. }
  destruct IH as (H1 & H2 & H3); [intros b; by eapply order_prefix|]. unfold register in *. rewrite foldl_snoc. split_and!.
  - by apply enqueue_registered.
  - by apply enqueue_covered.
  - change (@nil StoreChangeEvent) with (@nil StoreChangeEvent ++ option_list None).
    eapply reaches_step; [exact H3| apply step_enqueue].
Qed.

Lemma broadcast_lossless l e :
  lossless_inv l -> (forall b, in_time_order (of_backend b (somes (lp_broadcast l ++ [e])))) ->
  lossless_inv (sys_step d l (LBroadcast e)).
Proof.
  intros [H1 H2 H3 H4] Ho.
  assert (Hset : forall x, settled (lp_sub l) x -> settled (enqueue (lp_sub l) e).1 x).
  { intros x. apply same_positions_settled, enqueue_positions. }
  assert (Hfence : fence_settled l -> fence_settled (sys_step d l (LBroadcast e))).
  { intros Hf x. cbn. rewrite take_app_le by done. intros Hx. by apply Hset, Hf. }
  assert (Hp : sub_recoveryPending (enqueue (lp_sub l) e).1 = false -> sub_recoveryPending (lp_sub l) = false).
  { unfold enqueue. by destruct (sub_recoveryPending (lp_sub l)). }
  assert (Hs : sub_startFromNow (enqueue (lp_sub l) e).1 = sub_startFromNow (lp_sub l)).
  { unfold enqueue. by repeat case_match. }
  assert (Hd : sub_done (enqueue (lp_sub l) e).1 = sub_done (lp_sub l)).
  { unfold enqueue. by repeat case_match. }
  split.
  - by apply enqueue_registered.
  - cbn. rewrite length_app. lia.
  - exact H3.
  - unfold pc_inv in *. cbn [sys_step lp_pc lp_sub lp_broadcast lp_vars lp_ctx].
    destruct (lp_pc l); try done; try (by intros ?; apply enqueue_covered, H4); try (by apply enqueue_covered).
    + destruct H4 as (i & rem & err & -> & Hf & Hy & Hc). exists i, rem, err. rewrite Hs. split_and!; try done.
      intros He. by apply enqueue_covered, Hc.
    + destruct H4 as (i & x & rem & err & -> & Hf & Hev & Hy & Hc). exists i, x, rem, err. rewrite Hs. split_and!; try done.
      intros He. by apply enqueue_covered, Hc.
    + rewrite Hd. intros Hc Hdn He. by apply enqueue_covered, H4.
    + destruct H4 as [Hc Hne]. split; [by apply enqueue_covered|]. unfold enqueue.
      destruct (sub_recoveryPending (lp_sub l)); [cbn; auto|].
      destruct (Z.ltb_spec (Z.of_nat (length (sub_ch (lp_sub l)))) (sub_cap (lp_sub l))) as [|Hle]; cbn; [done|].
      intros _ E. rewrite E in Hle. cbn in Hle. pose proof (rg_cap _ _ H1). lia.
    + destruct H4 as [Hc Hf]. split; [by apply enqueue_covered|]. intros Hpe HA. apply Hfence, Hf; auto.
    + destruct H4 as [Hc Hf]. split; [by apply enqueue_covered|]. auto.
    + destruct H4 as [Hc Hf]. split; [by apply enqueue_covered|]. auto.
    + destruct H4 as [Hc Hf]. split; [by apply enqueue_covered|]. auto.
Qed.
Lemma close_lossless l : lossless_inv l -> lossless_inv (sys_step d l LClose).
Proof.
  intros [H1 H2 H3 H4]. split; [eapply same_queue_registered; [..|exact H1]; done| exact H2| exact H3|].
  unfold pc_inv in *. cbn in *. by destruct (lp_pc l).
Qed.
Lemma cancel_lossless l err : lossless_inv l -> lossless_inv (sys_step d l (LCancel err)).
Proof.
  intros [H1 H2 H3 H4]. split; [done..|]. unfold pc_inv in *. cbn in *. destruct (lp_pc l); try done. by destruct (lp_ctx l).
Qed.

Lemma complete_run_inv s0 l :
  registered s0 [] -> sub_recoveryPending s0 = false -> complete_run s0 l -> lossless_inv l /\ tracks s0 l.
Proof.
  intros H0 Hp. induction 1 as [initial ctx B Ho|l a _ [IH IHt] Hr|l e _ [IH IHt] Ho|l _ [IH IHt]|l err _ [IH IHt]].
  - destruct (register_lossless s0 B H0 Hp Ho) as (H1 & H2 & H3). split; [|done].
    split; [done| cbn; lia| done|]. unfold pc_inv. cbn. done.
  - split; [by apply loop_step_lossless| by apply loop_step_tracks].
  - split; [by apply broadcast_lossless|]. unfold tracks. cbn. rewrite <- (app_nil_r (delivered _)).
    apply (reaches_step _ _ (lp_sub l) None); [exact IHt| apply step_enqueue].
  - split; [by apply close_lossless|]. by apply tracks_sub, step_close.
  - split; [by apply cancel_lossless|]. eapply tracks_same; [exact IHt| done| done].
Qed.
End Lossless.

Lemma NewSubscriber_registered id after now size s0 :
  NewSubscriber id after now false size = Ok s0 -> registered s0 [] /\ sub_recoveryPending s0 = false.
Proof.
  unfold NewSubscriber. intros (floors & _ & E)%bind_ok. apply Ok_inj in E. subst s0. split; [|done]. split; cbn; try done.
  - destruct (Z.leb_spec size 0); lia.
  - intros b. constructor.
Qed.

(** C21: A subscription loses nothing. Take any run of the loop for a new subscriber
    without catch-up coalescing, with any interleaving of broadcasts, overflows,
    recoveries, outages, failures and cancellations, in which each backend broadcasts
    in time order and a replay contains what was broadcast before it was opened (but
    for what the positions had reached). When an admission is about to be announced,
    every event broadcast before the live barrier is acknowledged by the consumer, or
    is older than the progress it resumed from or than an acknowledged event of its
    backend. While the loop waits for live events and no recovery is due, every event
    broadcast at all is so, or is still queued. *)
Theorem admitted_lossless {S} `{EventIterator S} `{SliceSort} d id after now size s0 (l : loop S) :
  NewSubscriber id after now false size = Ok s0 -> complete_run d s0 l ->
  (d_Admission d = true -> lp_pc l = PAdmit ->
   forall e, Some e ∈ take (lp_fence l) (lp_broadcast l) -> known s0 (delivered (lp_out l)) e) /\
  (lp_pc l = PSelect -> sub_recoveryPending (lp_sub l) = false ->
   forall e, Some e ∈ lp_broadcast l -> known s0 (delivered (lp_out l)) e \/ Some e ∈ sub_ch (lp_sub l)).
Proof.
  intros E R. destruct (NewSubscriber_registered _ _ _ _ _ E) as [Hr Hp].
  destruct (NewSubscriber_fresh _ _ _ _ _ _ E) as (Hf & _ & _).
  destruct (complete_run_inv d s0 l Hr Hp R) as [I T]. pose proof (lo_pc _ _ I) as Hpc. unfold pc_inv in Hpc. split.
  - intros HA P e He. rewrite P in Hpc. apply (settled_known _ _ _ _ Hf T). by apply (proj2 Hpc HA).
  - intros P Hn e He. rewrite P in Hpc. destruct (Hpc Hn e He) as [Hs|[Hq|Hq]]; [|by right|by apply elem_of_nil in Hq].
    left. by apply (settled_known _ _ _ _ Hf T).
Qed.

(** ** A run: one event broadcast before the loop starts, replayed and acknowledged *)
Lemma run_iter {S} `{EventIterator S} `{SliceSort} d s0 (l : loop S) a k :
  complete_run d s0 l ->
  (forall j, (j < k)%nat -> lp_pc (Nat.iter j (fun l => loop_step d l a) l) = POpen ->
             replay_complete (Nat.iter j (fun l => loop_step d l a) l) (a_open a)) ->
  complete_run d s0 (Nat.iter k (fun l => loop_step d l a) l).
Proof.
  intros R Hr. induction k as [|k IH]; cbn; [done|]. apply run_step; [|apply Hr; lia]. apply IH. intros j Hj. apply Hr. lia.
Qed.

Definition admitting_loop (n : nat) : loop slice_iter :=
  Nat.iter n (fun l => loop_step (SS := insertion_slice_sort) sample_driver l
                         (sample_answers [live_event "8-0-aa" 8; live_event "8-1-aa" 8] ChCtx))
    (start_loop (register (sample_sub false 10) [Some (live_event "8-0-aa" 8)]) true None [Some (live_event "8-0-aa" 8)]).

Lemma admitting_run n : (n <= 21)%nat ->
  complete_run (SS := insertion_slice_sort) sample_driver (sample_sub false 10) (admitting_loop n).
Proof.
  intros Hn. apply (run_iter (H0 := insertion_slice_sort)).
  - apply (run_start (SS := insertion_slice_sort)). intros b. unfold of_backend. cbn [somes omap list_omap id List.filter].
    destruct (String.eqb _ b); repeat constructor.
  - intros j Hj E. exists [live_event "8-0-aa" 8; live_event "8-1-aa" 8], None. split; [apply slice_yields|].
    fold (admitting_loop j) in *. assert (j = 3%nat) as ->.
    { do 21 (destruct j as [|j]; [vm_compute in E; first [discriminate E| reflexivity]|]). lia. }
    intros e He. right. replace (lp_broadcast _) with [Some (live_event "8-0-aa" 8)] in He by (vm_compute; reflexivity).
    apply list_elem_of_singleton in He. injection He as ->. left.
Qed.

Lemma admitted_lossless_witness :
  lp_pc (admitting_loop 21) = PAdmit /\
  known (sample_sub false 10) (delivered (lp_out (admitting_loop 21))) (live_event "8-0-aa" 8).
Proof.
  split; [vm_compute; reflexivity|].
  refine (proj1 (admitted_lossless (H0 := insertion_slice_sort) sample_driver "c1" (Some resumed) false 10
    (sample_sub false 10) (admitting_loop 21) (sample_sub_new false 10) (admitting_run 21 _)) eq_refl _ _ _).
  - lia.
  - vm_compute. reflexivity.
  - replace (take _ _) with [Some (live_event "8-0-aa" 8)] by (vm_compute; reflexivity). left.
Defined.
