(* ===== verification/FlowControl.v ===== *)
(** * Flow control: internal/puller/flowcontrol

    The circuit breaker as a state machine over its history, and the backpressure
    monitor. Durations and clock readings are nanoseconds; the metrics the monitor
    feeds are not modelled. *)
From stdpp Require Import base list.
From Stdlib Require Import ZArith.
From S2P Require Import Prelude.
Local Open Scope Z_scope.

(** ** Circuit breaker *)
Inductive State := StateClosed | StateOpen | StateHalfOpen.
#[export] Instance State_eq_dec : EqDecision State.
Proof. solve_decision. Defined.

(** The time of the last failure is [None] before there is one. *)
Record CircuitBreaker := {
  cb_state : State; cb_failureCount : Z; cb_threshold : Z; cb_timeout : Z; cb_lastFailTime : option Z;
}.
Record CircuitBreakerOptions := { cbo_Threshold : Z; cbo_Timeout : Z }.

Definition NewCircuitBreaker (opts : CircuitBreakerOptions) : CircuitBreaker :=
  {| cb_state := StateClosed; cb_failureCount := 0;
     cb_threshold := if cbo_Threshold opts =? 0 then 5 else cbo_Threshold opts;
     cb_timeout := if cbo_Timeout opts =? 0 then 30 * 1000000000 else cbo_Timeout opts; cb_lastFailTime := None |}.

Definition cb_set (cb : CircuitBreaker) (st : State) (count : Z) (last : option Z) : CircuitBreaker :=
  {| cb_state := st; cb_failureCount := count; cb_threshold := cb_threshold cb; cb_timeout := cb_timeout cb;
     cb_lastFailTime := last |}.

(** [time.Since(lastFailTime) > timeout]; the zero time is long ago. *)
Definition timed_out (cb : CircuitBreaker) (now : Z) : bool :=
  match cb_lastFailTime cb with None => true | Some t => cb_timeout cb <? now - t end.

Definition Allow (cb : CircuitBreaker) (now : Z) : CircuitBreaker * bool :=
  match cb_state cb with
  | StateClosed | StateHalfOpen => (cb, true)
  | StateOpen =>
      if timed_out cb now then (cb_set cb StateHalfOpen (cb_failureCount cb) (cb_lastFailTime cb), true)
      else (cb, false)
  end.

Definition RecordSuccess (cb : CircuitBreaker) : CircuitBreaker :=
  match cb_state cb with
  | StateHalfOpen | StateClosed => cb_set cb StateClosed 0 (cb_lastFailTime cb)
  | StateOpen => cb
  end.

Definition RecordFailure (cb : CircuitBreaker) (now : Z) : CircuitBreaker :=
  let count := i64 (cb_failureCount cb + 1) in
  let st := match cb_state cb with
            | StateClosed => if cb_threshold cb <=? count then StateOpen else StateClosed
            | StateHalfOpen | StateOpen => StateOpen
            end in
  cb_set cb st count (Some now).

(** ** Histories *)
Inductive breaker_op := BAllow (now : Z) | BSuccess | BFailure (now : Z).
Definition breaker_step (cb : CircuitBreaker) (o : breaker_op) : CircuitBreaker :=
  match o with BAllow now => (Allow cb now).1 | BSuccess => RecordSuccess cb | BFailure now => RecordFailure cb now end.
Definition breaker_run (cb : CircuitBreaker) (ops : list breaker_op) : CircuitBreaker := fold_left breaker_step ops cb.

(** The failures since the last success, and the reading of the last failure. *)
Definition streak (ops : list breaker_op) : Z :=
  fold_left (fun n o => match o with BFailure _ => n + 1 | BSuccess => 0 | BAllow _ => n end) ops 0.
Definition last_failure (ops : list breaker_op) : option Z :=
  fold_left (fun t o => match o with BFailure now => Some now | _ => t end) ops None.
Definition failures (ops : list breaker_op) : Z :=
  fold_left (fun n o => match o with BFailure _ => n + 1 | _ => n end) ops 0.

Lemma streak_bounds ops : 0 <= streak ops <= failures ops.
Proof.
  unfold streak, failures. induction ops as [|o ops IH] using rev_ind; [cbn; lia|].
  rewrite !fold_left_app. cbn. destruct o; lia.
Qed.

(** In every history the breaker is closed only while fewer failures than the
    threshold have followed the last success, it remembers the last failure, and
    when it is open that failure is what Allow measures from: it refuses requests up
    to the timeout after it and then lets one probe through. *)
Theorem breaker_history opts ops :
  failures ops < 2 ^ 63 -> 0 < cbo_Threshold opts ->
  let cb := breaker_run (NewCircuitBreaker opts) ops in
  cb_lastFailTime cb = last_failure ops /\
  (cb_state cb = StateClosed -> cb_failureCount cb = streak ops /\ streak ops < cbo_Threshold opts) /\
  (cb_state cb <> StateClosed -> exists t, last_failure ops = Some t /\
     forall now, (Allow cb now).2 = (bool_decide (cb_state cb = StateHalfOpen) || (cb_timeout cb <? now - t))).
Proof.
  intros Hf Ht. cbn zeta. set (thr := cbo_Threshold opts) in *.
  enough (let cb := breaker_run (NewCircuitBreaker opts) ops in
    cb_threshold cb = thr /\ 0 <= cb_failureCount cb <= failures ops /\ cb_lastFailTime cb = last_failure ops /\
    (cb_state cb = StateClosed -> cb_failureCount cb = streak ops /\ streak ops < thr) /\
    (cb_state cb <> StateClosed -> is_Some (last_failure ops))) as (_ & _ & H1 & H2 & H3).
  { split; [done|]. split; [done|]. intros Hs. destruct (H3 Hs) as [t E]. exists t. split; [done|]. intros now.
    unfold Allow, timed_out. rewrite H1, E. destruct (cb_state _); [done| |done]. cbn. by destruct (_ <? _). }
  induction ops as [|o ops IH] using rev_ind.
  { cbn. assert ((thr =? 0) = false) as E by lia. fold thr. rewrite E. split_and!; try done; lia. }
  assert (Hf' : failures ops < 2 ^ 63) by (revert Hf; unfold failures; rewrite fold_left_app; cbn; destruct o; lia).
  destruct (IH Hf') as (I1 & I2 & I3 & I4 & I5). revert Hf.
  unfold breaker_run, last_failure, streak, failures in *. rewrite !fold_left_app. cbn.
  set (cb := fold_left breaker_step ops _) in *. intros Hf. destruct o as [now| |now]; cbn.
  - unfold Allow. destruct (cb_state cb) eqn:E; cbn; rewrite ?E; [done| |done].
    destruct (timed_out cb now); cbn; rewrite ?E; [|done]. split_and!; try done; try lia. auto.
  - unfold RecordSuccess. destruct (cb_state cb) eqn:E; cbn; split_and!; rewrite ?E; try done; try lia; try (by intros []); auto with lia.
  - unfold RecordFailure. cbn. rewrite I1, i64_id by (unfold is_i64; lia).
    split_and!; [done| lia| lia| done| |eauto].
    destruct (cb_state cb); [|done|done]. destruct (I4 eq_refl) as [-> I6].
    destruct (Z.leb_spec thr (fold_left (fun n o => match o with BFailure _ => n + 1 | BSuccess => 0 | BAllow _ => n end) ops 0 + 1)); [done|].
    intros _. lia.
Qed.

(** ** Backpressure *)
Inductive Action := ActionNone | ActionSlowDown | ActionPause.
Record BackpressureMonitor := { bp_slowThreshold : Z; bp_criticalThreshold : Z }.

Definition NewBackpressureMonitor (slow critical : Z) : BackpressureMonitor :=
  {| bp_slowThreshold := if slow =? 0 then 100 * 1000000 else slow;
     bp_criticalThreshold := if critical =? 0 then 500 * 1000000 else critical |}.

Definition HandleBackpressure (b : BackpressureMonitor) (latency : Z) : Action :=
  if latency <? bp_slowThreshold b then ActionNone
  else if latency <? bp_criticalThreshold b then ActionSlowDown
  else ActionPause.

Definition severity (a : Action) : Z := match a with ActionNone => 0 | ActionSlowDown => 1 | ActionPause => 2 end.

(** A longer latency never asks for less, whatever the thresholds. *)
Theorem backpressure_monotone b x y :
  x <= y -> severity (HandleBackpressure b x) <= severity (HandleBackpressure b y).
Proof. unfold HandleBackpressure. intros H. repeat case_match; cbn; lia. Qed.
