(* ===== verification/ReplicaBudget.v ===== *)
(** * The replication budget: internal/gateway/realtime/replica_budget.go and the
    replica part of internal/gateway/config/config.go

    One ledger per server bounds the connections, subscriptions, pending
    registrations, reads and buffered bytes of all replication streams, and admits
    source authorizations through a bounded queue with a token bucket. A release
    closure runs once; the callers of [acquireAuth] wait outside the lock, so each
    of their critical sections is one step and steps of callers interleave freely. *)
From stdpp Require Import base list sorting gmap strings.
From Stdlib Require Import ZArith SpecFloat.
From S2P Require Import Prelude.
Local Open Scope Z_scope.

(** ** Configuration *)
Record ReplicaConfig := {
  rc_Connections : Z; rc_Subscriptions : Z; rc_SubscriptionsPerConnection : Z; rc_PendingRegistrations : Z;
  rc_SourceBytes : Z; rc_SourceBytesPerConnection : Z; rc_ReadConcurrency : Z; rc_PageBytes : Z;
  rc_PageCreditsPerConnection : Z; rc_AuthConcurrency : Z; rc_AuthRate : Z; rc_AuthBurst : Z;
}.

Definition DefaultReplicaConfig : ReplicaConfig := {|
  rc_Connections := 1024; rc_Subscriptions := 4096; rc_SubscriptionsPerConnection := 256;
  rc_PendingRegistrations := 256; rc_SourceBytes := Z.shiftl 64 20; rc_SourceBytesPerConnection := Z.shiftl 4 20;
  rc_ReadConcurrency := 8; rc_PageBytes := Z.shiftl 256 20; rc_PageCreditsPerConnection := 4;
  rc_AuthConcurrency := 8; rc_AuthRate := 100; rc_AuthBurst := 100;
|}.

Definition or_default (value fallback : Z) : Z := if value =? 0 then fallback else value.

Definition rc_ApplyDefaults (r : ReplicaConfig) : ReplicaConfig :=
  let d := DefaultReplicaConfig in {|
  rc_Connections := or_default (rc_Connections r) (rc_Connections d);
  rc_Subscriptions := or_default (rc_Subscriptions r) (rc_Subscriptions d);
  rc_SubscriptionsPerConnection := or_default (rc_SubscriptionsPerConnection r) (rc_SubscriptionsPerConnection d);
  rc_PendingRegistrations := or_default (rc_PendingRegistrations r) (rc_PendingRegistrations d);
  rc_SourceBytes := or_default (rc_SourceBytes r) (rc_SourceBytes d);
  rc_SourceBytesPerConnection := or_default (rc_SourceBytesPerConnection r) (rc_SourceBytesPerConnection d);
  rc_ReadConcurrency := or_default (rc_ReadConcurrency r) (rc_ReadConcurrency d);
  rc_PageBytes := or_default (rc_PageBytes r) (rc_PageBytes d);
  rc_PageCreditsPerConnection := or_default (rc_PageCreditsPerConnection r) (rc_PageCreditsPerConnection d);
  rc_AuthConcurrency := or_default (rc_AuthConcurrency r) (rc_AuthConcurrency d);
  rc_AuthRate := or_default (rc_AuthRate r) (rc_AuthRate d);
  rc_AuthBurst := or_default (rc_AuthBurst r) (rc_AuthBurst d);
|}.

Definition rc_fields (r : ReplicaConfig) : list (string * Z) := [
  ("connections", rc_Connections r); ("subscriptions", rc_Subscriptions r);
  ("subscriptions_per_connection", rc_SubscriptionsPerConnection r);
  ("pending_registrations", rc_PendingRegistrations r);
  ("source_bytes", rc_SourceBytes r); ("source_bytes_per_connection", rc_SourceBytesPerConnection r);
  ("read_concurrency", rc_ReadConcurrency r); ("page_bytes", rc_PageBytes r);
  ("page_credits_per_connection", rc_PageCreditsPerConnection r); ("auth_concurrency", rc_AuthConcurrency r);
  ("auth_rate", rc_AuthRate r); ("auth_burst", rc_AuthBurst r)]%string.

(** The error names the first negative field. *)
Definition rc_Validate (r : ReplicaConfig) : res string unit :=
  match List.filter (fun f => f.2 <? 0) (rc_fields r) with
  | [] => Ok tt
  | f :: _ => Err (f.1)
  end.

(** ** Floating point: binary64 and the functions of package math used here *)
Definition f64_add : spec_float -> spec_float -> spec_float := SFadd 53 1024.
Definition f64_sub : spec_float -> spec_float -> spec_float := SFsub 53 1024.
Definition f64_mul : spec_float -> spec_float -> spec_float := SFmul 53 1024.
Definition f64_div : spec_float -> spec_float -> spec_float := SFdiv 53 1024.
Definition f64_of_Z (z : Z) : spec_float := binary_normalize 53 1024 z 0 false.

(** [math.Min]. *)
Definition math_Min (x y : spec_float) : spec_float :=
  match x, y with
  | S754_infinity true, _ | _, S754_infinity true => S754_infinity true
  | S754_nan, _ | _, S754_nan => S754_nan
  | S754_zero s, S754_zero _ => if s then x else y
  | _, _ => if SFltb x y then x else y
  end.

(** [math.Ceil]. *)
Definition math_Ceil (x : spec_float) : spec_float :=
  match x with
  | S754_finite s m e =>
      if 0 <=? e then x
      else let v := if s then Z.neg m else Z.pos m in
           binary_normalize 53 1024 (- ((- v) / 2 ^ (- e))) 0 s
  | _ => x
  end.

(** Conversion to an int64; a value out of range gives the smallest one, as on
    amd64. *)
Definition int_of_f64 (x : spec_float) : Z :=
  match x with
  | S754_zero _ => 0
  | S754_finite s m e =>
      let v := if s then Z.neg m else Z.pos m in
      let t := if 0 <=? e then v * 2 ^ e else Z.quot v (2 ^ (- e)) in
      if (- 2 ^ 63 <=? t) && (t <? 2 ^ 63) then t else - 2 ^ 63
  | _ => - 2 ^ 63
  end.

Definition time_Second : Z := 1000000000.
(** [Duration.Seconds]. *)
Definition d_Seconds (d : Z) : spec_float :=
  f64_add (f64_of_Z (Z.quot d time_Second)) (f64_div (f64_of_Z (Z.rem d time_Second)) (f64_of_Z 1000000000)).
(** [Time.Sub] on monotonic readings; the difference saturates. *)
Definition t_Sub (t u : Z) : Z := Z.max (- 2 ^ 63) (Z.min (2 ^ 63 - 1) (t - u)).

(** ** The ledger *)
Record replicaBudgetSnapshot := {
  bs_Connections : Z; bs_Subscriptions : Z; bs_Pending : Z; bs_Reads : Z; bs_SourceBytes : Z; bs_PageBytes : Z;
  bs_AuthRunning : Z; bs_AuthWaiting : Z;
}.

(** A pointer to one of the six counters. *)
Inductive counter := CConnections | CSubscriptions | CPending | CReads | CSourceBytes | CPageBytes.
#[export] Instance counter_eq_dec : EqDecision counter.
Proof. solve_decision. Defined.

Definition get_counter (u : replicaBudgetSnapshot) (c : counter) : Z :=
  match c with
  | CConnections => bs_Connections u | CSubscriptions => bs_Subscriptions u | CPending => bs_Pending u
  | CReads => bs_Reads u | CSourceBytes => bs_SourceBytes u | CPageBytes => bs_PageBytes u
  end.

Definition set_counter (u : replicaBudgetSnapshot) (c : counter) (v : Z) : replicaBudgetSnapshot :=
  let pick c' := if decide (c = c') then v else get_counter u c' in
  {| bs_Connections := pick CConnections; bs_Subscriptions := pick CSubscriptions; bs_Pending := pick CPending;
     bs_Reads := pick CReads; bs_SourceBytes := pick CSourceBytes; bs_PageBytes := pick CPageBytes;
     bs_AuthRunning := bs_AuthRunning u; bs_AuthWaiting := bs_AuthWaiting u |}.

Definition set_AuthRunning (u : replicaBudgetSnapshot) (v : Z) : replicaBudgetSnapshot :=
  {| bs_Connections := bs_Connections u; bs_Subscriptions := bs_Subscriptions u; bs_Pending := bs_Pending u;
     bs_Reads := bs_Reads u; bs_SourceBytes := bs_SourceBytes u; bs_PageBytes := bs_PageBytes u;
     bs_AuthRunning := v; bs_AuthWaiting := bs_AuthWaiting u |}.

(** A waiter is its allocation number; [rb_granted] holds the waiters whose
    [granted] is set, which is when [ready] is closed. The timer is the reading at
    which it is due. *)
Record replicaBudget := {
  rb_cfg : ReplicaConfig; rb_used : replicaBudgetSnapshot; rb_authWaiters : list nat; rb_granted : gset nat;
  rb_authTokens : spec_float; rb_authUpdated : Z; rb_authTimer : option Z;
}.

Definition newReplicaBudget (cfg : ReplicaConfig) (now : Z) : replicaBudget :=
  let cfg := rc_ApplyDefaults cfg in
  {| rb_cfg := cfg; rb_used := {| bs_Connections := 0; bs_Subscriptions := 0; bs_Pending := 0; bs_Reads := 0;
                                  bs_SourceBytes := 0; bs_PageBytes := 0; bs_AuthRunning := 0; bs_AuthWaiting := 0 |};
     rb_authWaiters := []; rb_granted := ∅; rb_authTokens := f64_of_Z (rc_AuthBurst cfg); rb_authUpdated := now;
     rb_authTimer := None |}.

Definition set_used (b : replicaBudget) (u : replicaBudgetSnapshot) : replicaBudget :=
  {| rb_cfg := rb_cfg b; rb_used := u; rb_authWaiters := rb_authWaiters b; rb_granted := rb_granted b;
     rb_authTokens := rb_authTokens b; rb_authUpdated := rb_authUpdated b; rb_authTimer := rb_authTimer b |}.

(** The body of a release closure: the amounts it subtracts. *)
Definition release := list (counter * Z).
Definition run_release (b : replicaBudget) (r : release) : replicaBudget :=
  set_used b (fold_left (fun u '(c, amount) => set_counter u c (i64 (get_counter u c - amount))) r (rb_used b)).

Definition reserve (b : replicaBudget) (c : counter) (amount maximum : Z) : option (replicaBudget * release) :=
  let u := rb_used b in
  if (amount <=? 0) || (i64 (maximum - get_counter u c) <? amount) then None
  else Some (set_used b (set_counter u c (i64 (get_counter u c + amount))), [(c, amount)]).

Definition tryConnection (b : replicaBudget) := reserve b CConnections 1 (rc_Connections (rb_cfg b)).

Definition trySubscription (b : replicaBudget) (sourceBytes : Z) : option (replicaBudget * release) :=
  let u := rb_used b in
  if (sourceBytes <=? 0) || (rc_Subscriptions (rb_cfg b) <=? bs_Subscriptions u)
     || (i64 (rc_SourceBytes (rb_cfg b) - bs_SourceBytes u) <? sourceBytes) then None
  else let u := set_counter u CSubscriptions (i64 (bs_Subscriptions u + 1)) in
       let u := set_counter u CSourceBytes (i64 (bs_SourceBytes u + sourceBytes)) in
       Some (set_used b u, [(CSubscriptions, 1); (CSourceBytes, sourceBytes)]).

Definition tryPending (b : replicaBudget) := reserve b CPending 1 (rc_PendingRegistrations (rb_cfg b)).
Definition tryRead (b : replicaBudget) := reserve b CReads 1 (rc_ReadConcurrency (rb_cfg b)).
Definition tryPage (b : replicaBudget) (bytes : Z) := reserve b CPageBytes bytes (rc_PageBytes (rb_cfg b)).

Definition budget_snapshot (b : replicaBudget) : replicaBudgetSnapshot :=
  let u := rb_used b in
  {| bs_Connections := bs_Connections u; bs_Subscriptions := bs_Subscriptions u; bs_Pending := bs_Pending u;
     bs_Reads := bs_Reads u; bs_SourceBytes := bs_SourceBytes u; bs_PageBytes := bs_PageBytes u;
     bs_AuthRunning := bs_AuthRunning u; bs_AuthWaiting := Z.of_nat (length (rb_authWaiters b)) |}.

(** ** Authorization queue *)

(** The grant loop: it takes waiters from the front while a slot and a token are
    left. *)
Fixpoint grant_loop (conc : Z) (waiters : list nat) (granted : gset nat) (running : Z) (tokens : spec_float) :
    list nat * gset nat * Z * spec_float :=
  match waiters with
  | [] => ([], granted, running, tokens)
  | w :: rest =>
      if (running <? conc) && SFleb (f64_of_Z 1) tokens
      then grant_loop conc rest ({[w]} ∪ granted) (i64 (running + 1)) (f64_sub tokens (f64_of_Z 1))
      else (waiters, granted, running, tokens)
  end.

Definition refill (b : replicaBudget) (now : Z) : spec_float :=
  math_Min (f64_of_Z (rc_AuthBurst (rb_cfg b)))
    (f64_add (rb_authTokens b)
       (f64_mul (d_Seconds (t_Sub now (rb_authUpdated b))) (f64_of_Z (rc_AuthRate (rb_cfg b))))).

Definition refill_delay (b : replicaBudget) (tokens : spec_float) : Z :=
  Z.max 1 (int_of_f64 (math_Ceil
    (f64_mul (f64_div (f64_sub (f64_of_Z 1) tokens) (f64_of_Z (rc_AuthRate (rb_cfg b)))) (f64_of_Z time_Second)))).

Definition dispatchAuthLocked (b : replicaBudget) (now : Z) : replicaBudget :=
  let conc := rc_AuthConcurrency (rb_cfg b) in
  let '(waiters, granted, running, tokens) :=
    grant_loop conc (rb_authWaiters b) (rb_granted b) (bs_AuthRunning (rb_used b)) (refill b now) in
  {| rb_cfg := rb_cfg b; rb_used := set_AuthRunning (rb_used b) running; rb_authWaiters := waiters;
     rb_granted := granted; rb_authTokens := tokens; rb_authUpdated := now;
     rb_authTimer := if negb (Nat.eqb (length waiters) 0) && (running <? conc)
                     then Some (now + refill_delay b tokens) else None |}.

Definition set_waiters (b : replicaBudget) (waiters : list nat) : replicaBudget :=
  {| rb_cfg := rb_cfg b; rb_used := rb_used b; rb_authWaiters := waiters; rb_granted := rb_granted b;
     rb_authTokens := rb_authTokens b; rb_authUpdated := rb_authUpdated b; rb_authTimer := rb_authTimer b |}.
Definition end_running (b : replicaBudget) : replicaBudget :=
  set_used b (set_AuthRunning (rb_used b) (i64 (bs_AuthRunning (rb_used b) - 1))).

Definition releaseAuth (b : replicaBudget) (now : Z) : replicaBudget := dispatchAuthLocked (end_running b) now.

Inductive auth_error := AuthContext | AuthBusy (RetryAfter : Z).

Definition retry_after (b : replicaBudget) : Z :=
  Z.max 1 (int_of_f64 (math_Ceil (f64_div (f64_of_Z (Z.of_nat (length (rb_authWaiters b)) + 1))
                                          (f64_of_Z (rc_AuthRate (rb_cfg b)))))).

(** [acquireAuth] up to its select, with the new waiter [w]. *)
Definition auth_enter (b : replicaBudget) (w : nat) (ctxErr : bool) (now : Z) : res auth_error replicaBudget :=
  if ctxErr then Err AuthContext
  else if rc_PendingRegistrations (rb_cfg b) <=? Z.of_nat (length (rb_authWaiters b))
  then Err (AuthBusy (retry_after b))
  else Ok (dispatchAuthLocked (set_waiters b (rb_authWaiters b ++ [w])) now).

(** Removal of a queued waiter by its first occurrence. *)
Fixpoint remove_waiter (w : nat) (l : list nat) : list nat :=
  match l with
  | [] => []
  | q :: l => if Nat.eqb q w then l else q :: remove_waiter w l
  end.

(** The branch of the select taken when the context is done. *)
Definition auth_cancel (b : replicaBudget) (w : nat) (now : Z) : replicaBudget :=
  let b := if decide (w ∈ rb_granted b) then end_running b
           else set_waiters b (remove_waiter w (rb_authWaiters b)) in
  dispatchAuthLocked b now.

(** ** The server: open reservations and the callers of acquireAuth

    [lg_releases] are the release closures handed out, each with the flag of its
    [sync.Once]. [lg_waiting] are the callers in the select of acquireAuth,
    [lg_running] those that hold an authorization they have not released. *)
Record ledger := {
  lg_budget : replicaBudget; lg_releases : list (release * bool);
  lg_next : nat; lg_waiting : gset nat; lg_running : gset nat;
}.

Definition new_ledger (cfg : ReplicaConfig) (now : Z) : ledger :=
  {| lg_budget := newReplicaBudget cfg now; lg_releases := []; lg_next := 0; lg_waiting := ∅; lg_running := ∅ |}.

Inductive budget_op :=
| OpConnection | OpSubscription (sourceBytes : Z) | OpPending | OpRead | OpPage (bytes : Z)
| OpRelease (i : nat)
| OpAuth (ctxErr : bool) (now : Z)
| OpReady (w : nat) (ctxErr : bool) (now : Z)
| OpCancel (w : nat) (now : Z)
| OpAuthRelease (w : nat) (now : Z)
| OpTimer (now : Z).

Definition took (l : ledger) (r : option (replicaBudget * release)) : ledger :=
  match r with
  | None => l
  | Some (b, rel) => {| lg_budget := b; lg_releases := lg_releases l ++ [(rel, false)]; lg_next := lg_next l;
                        lg_waiting := lg_waiting l; lg_running := lg_running l |}
  end.
Definition with_auth (l : ledger) (b : replicaBudget) (waiting running : gset nat) : ledger :=
  {| lg_budget := b; lg_releases := lg_releases l; lg_next := lg_next l; lg_waiting := waiting; lg_running := running |}.

(** One critical section. A call that its caller cannot make leaves the ledger; a
    timer callback can run late, so it is possible in every state. *)
Definition budget_step (l : ledger) (o : budget_op) : ledger :=
  let b := lg_budget l in
  match o with
  | OpConnection => took l (tryConnection b)
  | OpSubscription n => took l (trySubscription b n)
  | OpPending => took l (tryPending b)
  | OpRead => took l (tryRead b)
  | OpPage n => took l (tryPage b n)
  | OpRelease i =>
      match lg_releases l !! i with
      | Some (r, false) => {| lg_budget := run_release b r; lg_releases := <[i := (r, true)]> (lg_releases l);
                              lg_next := lg_next l; lg_waiting := lg_waiting l; lg_running := lg_running l |}
      | _ => l
      end
  | OpAuth ctxErr now =>
      match auth_enter b (lg_next l) ctxErr now with
      | Err _ => l
      | Ok b => {| lg_budget := b; lg_releases := lg_releases l; lg_next := S (lg_next l);
                   lg_waiting := {[lg_next l]} ∪ lg_waiting l; lg_running := lg_running l |}
      end
  | OpReady w ctxErr now =>
      if decide (w ∈ lg_waiting l /\ w ∈ rb_granted b) then
        if ctxErr then with_auth l (releaseAuth b now) (lg_waiting l ∖ {[w]}) (lg_running l)
        else with_auth l b (lg_waiting l ∖ {[w]}) ({[w]} ∪ lg_running l)
      else l
  | OpCancel w now =>
      if decide (w ∈ lg_waiting l)
      then with_auth l (auth_cancel b w now) (lg_waiting l ∖ {[w]}) (lg_running l) else l
  | OpAuthRelease w now =>
      if decide (w ∈ lg_running l)
      then with_auth l (releaseAuth b now) (lg_waiting l) (lg_running l ∖ {[w]}) else l
  | OpTimer now => with_auth l (dispatchAuthLocked b now) (lg_waiting l) (lg_running l)
  end.

Definition budget_run (l : ledger) (ops : list budget_op) : ledger := fold_left budget_step ops l.

(** The configured maximum of a counter. *)
Definition limit (cfg : ReplicaConfig) (c : counter) : Z :=
  match c with
  | CConnections => rc_Connections cfg | CSubscriptions => rc_Subscriptions cfg
  | CPending => rc_PendingRegistrations cfg | CReads => rc_ReadConcurrency cfg
  | CSourceBytes => rc_SourceBytes cfg | CPageBytes => rc_PageBytes cfg
  end.

(** What the reservations that are still open hold of a counter. *)
Definition amount_of (c : counter) (r : release) : Z :=
  foldr (fun (p : counter * Z) s => (if decide (p.1 = c) then p.2 else 0) + s) 0 r.
Definition outstanding (c : counter) (rels : list (release * bool)) : Z :=
  foldr (fun (p : release * bool) s => (if p.2 then 0 else amount_of c p.1) + s) 0 rels.

(** The callers that hold an authorization. *)
Definition holders (l : ledger) : gset nat := lg_running l ∪ (lg_waiting l ∩ rb_granted (lg_budget l)).

(** ** Counters *)
Lemma get_set_counter u c c' v : get_counter (set_counter u c v) c' = if decide (c = c') then v else get_counter u c'.
Proof. destruct c, c'; reflexivity. Qed.
Lemma set_counter_running u c v : bs_AuthRunning (set_counter u c v) = bs_AuthRunning u.
Proof. reflexivity. Qed.

(** The counters are what the open reservations hold and within their maxima. *)
Definition amounts_pos (r : release) : Prop := Forall (fun p => 0 < p.2) r.
Definition counted (cfg : ReplicaConfig) (b : replicaBudget) (rels : list (release * bool)) : Prop :=
  Forall (fun p => amounts_pos p.1) rels /\
  forall c, get_counter (rb_used b) c = outstanding c rels /\ get_counter (rb_used b) c <= Z.max 0 (limit cfg c).

Lemma amount_cons c p r : amount_of c (p :: r) = (if decide (p.1 = c) then p.2 else 0) + amount_of c r.
Proof. reflexivity. Qed.
Lemma outstanding_cons c p rels :
  outstanding c (p :: rels) = (if p.2 then 0 else amount_of c p.1) + outstanding c rels.
Proof. reflexivity. Qed.
Arguments amount_of : simpl never.
Arguments outstanding : simpl never.

Lemma amount_of_nonneg c r : amounts_pos r -> 0 <= amount_of c r.
Proof. induction 1 as [|p r Hp Hr IH]; [done|]. rewrite amount_cons. case_decide; lia. Qed.
Lemma outstanding_nonneg c rels : Forall (fun p => amounts_pos p.1) rels -> 0 <= outstanding c rels.
Proof.
  induction 1 as [|[r d] rels Hr _ IH]; [done|]. rewrite outstanding_cons.
  pose proof (amount_of_nonneg c _ Hr). destruct d; cbn in *; lia.
Qed.
Lemma outstanding_snoc c rels r : outstanding c (rels ++ [(r, false)]) = outstanding c rels + amount_of c r.
Proof.
  induction rels as [|p rels IH]; cbn [app]; rewrite !outstanding_cons; [unfold outstanding; cbn; lia|]. lia.
Qed.

(** A closure that runs gives back what it held, which is part of what is held. *)
Lemma outstanding_release c rels i r :
  rels !! i = Some (r, false) -> outstanding c (<[i := (r, true)]> rels) = outstanding c rels - amount_of c r.
Proof.
  revert i. induction rels as [|p rels IH]; intros [|i] H; [done| done| |].
  - injection H as ->. cbn. rewrite !outstanding_cons. cbn. lia.
  - change (<[S i := (r, true)]> (p :: rels)) with (p :: <[i := (r, true)]> rels).
    rewrite !outstanding_cons, (IH _ H). lia.
Qed.
Lemma outstanding_covers c rels i r :
  Forall (fun p => amounts_pos p.1) rels -> rels !! i = Some (r, false) -> amount_of c r <= outstanding c rels.
Proof.
  intros Hp H. pose proof (outstanding_release c _ _ _ H).
  assert (0 <= outstanding c (<[i := (r, true)]> rels)); [|lia].
  apply outstanding_nonneg, Forall_insert; [done|]. by apply (Forall_lookup_1 _ _ _ _ Hp H).
Qed.

(** Subtracting the amounts of a closure from counters that cover them. *)
Lemma run_release_counters b r c :
  amounts_pos r ->
  (forall c, amount_of c r <= get_counter (rb_used b) c < 2 ^ 63) ->
  get_counter (rb_used (run_release b r)) c = get_counter (rb_used b) c - amount_of c r.
Proof.
  unfold run_release. cbn [rb_used set_used]. generalize (rb_used b). clear b.
  induction r as [|[c' a] r IH]; intros u Hp Hb; cbn [fold_left]; [unfold amount_of; cbn; lia|].
  inversion_clear Hp as [|? ? Ha Hr]. cbn in Ha.
  assert (Hc : forall c, get_counter (set_counter u c' (i64 (get_counter u c' - a))) c
                         = get_counter u c - (if decide (c' = c) then a else 0)).
  { intros d. rewrite get_set_counter. case_decide; subst; [|lia]. apply i64_id. specialize (Hb d). rewrite amount_cons in Hb. cbn in Hb.
    rewrite decide_True in Hb by done. pose proof (amount_of_nonneg d _ Hr) as H0. unfold is_i64. lia. }
  rewrite IH; [rewrite Hc, amount_cons; cbn; lia| done|].
  intros d. rewrite Hc. specialize (Hb d). rewrite amount_cons in Hb. cbn in Hb.
  case_decide; lia.
Qed.

Definition cfg_ok (cfg : ReplicaConfig) : Prop := Forall (fun f => is_i64 f.2) (rc_fields cfg).
Lemma cfg_ok_limit cfg c : cfg_ok cfg -> is_i64 (limit cfg c).
Proof. unfold cfg_ok, rc_fields. rewrite !Forall_cons. cbn. destruct c; tauto. Qed.

Lemma ApplyDefaults_ok cfg : cfg_ok cfg -> cfg_ok (rc_ApplyDefaults cfg).
Proof.
  assert (H : forall v d, is_i64 v -> is_i64 d -> is_i64 (or_default v d)) by (intros v d; unfold or_default; case_match; auto).
  unfold cfg_ok, rc_fields. rewrite !Forall_cons. cbn. intuition auto; (apply H; [assumption|]); split; by vm_compute.
Qed.

Lemma counted_release cfg b rels i r :
  cfg_ok cfg -> counted cfg b rels -> rels !! i = Some (r, false) ->
  counted cfg (run_release b r) (<[i := (r, true)]> rels).
Proof.
  intros Hcfg [Hp Hc] H. split.
  { apply Forall_insert; [done|]. by apply (Forall_lookup_1 _ _ _ _ Hp H). }
  pose proof (Forall_lookup_1 _ _ _ _ Hp H) as Hr. cbn in Hr.
  intros c. rewrite run_release_counters, (outstanding_release _ _ _ _ H).
  - destruct (Hc c) as [-> Hm]. pose proof (amount_of_nonneg c _ Hr). lia.
  - done.
  - intros d. destruct (Hc d) as [E Hm]. pose proof (outstanding_covers d _ _ _ Hp H).
    pose proof (cfg_ok_limit _ d Hcfg) as Hl. unfold is_i64 in Hl. lia.
Qed.

Lemma counted_grow cfg b rels b' r :
  counted cfg b rels -> amounts_pos r ->
  (forall c, get_counter (rb_used b') c = get_counter (rb_used b) c + amount_of c r /\
             get_counter (rb_used b') c <= Z.max 0 (limit cfg c)) ->
  counted cfg b' (rels ++ [(r, false)]).
Proof.
  intros [Hp Hc] Hr H. split; [by apply Forall_app; repeat constructor|].
  intros c. rewrite outstanding_snoc. destruct (H c) as [-> Hm]. destruct (Hc c) as [E _]. split; [lia| done].
Qed.

Lemma counter_room cfg b rels c amount :
  cfg_ok cfg -> counted cfg b rels -> 0 < amount ->
  amount <= i64 (limit cfg c - get_counter (rb_used b) c) ->
  0 <= get_counter (rb_used b) c /\ get_counter (rb_used b) c + amount <= limit cfg c /\ limit cfg c < 2 ^ 63.
Proof.
  intros Hcfg [Hp Hc] Ha. destruct (Hc c) as [E Hm]. pose proof (outstanding_nonneg c _ Hp).
  pose proof (cfg_ok_limit _ c Hcfg) as Hl. unfold is_i64 in Hl. rewrite i64_id; [lia|]. unfold is_i64. lia.
Qed.

Lemma reserve_counted cfg b rels c amount b' r :
  cfg_ok cfg -> counted cfg b rels -> reserve b c amount (limit cfg c) = Some (b', r) ->
  counted cfg b' (rels ++ [(r, false)]).
Proof.
  intros Hcfg Hc. unfold reserve. destruct (_ || _) eqn:G; [done|]. intros [= <- <-].
  apply orb_false_iff in G as [G1 G2]. rewrite Z.leb_gt in G1. rewrite Z.ltb_ge in G2.
  pose proof (counter_room _ _ _ _ _ Hcfg Hc G1 G2) as (H0 & H1 & H2).
  apply (counted_grow _ b); [done| by repeat constructor|]. destruct Hc as [_ Hc].
  intros d. cbn [rb_used set_used]. rewrite get_set_counter, amount_cons. change (amount_of d []) with 0. cbn. case_decide; subst.
  - rewrite i64_id by (unfold is_i64; lia). lia.
  - destruct (Hc d). lia.
Qed.

Lemma trySubscription_counted b rels n b' r :
  cfg_ok (rb_cfg b) -> counted (rb_cfg b) b rels -> trySubscription b n = Some (b', r) ->
  counted (rb_cfg b) b' (rels ++ [(r, false)]).
Proof.
  intros Hcfg Hc. unfold trySubscription. destruct (_ || _) eqn:G; [done|]. intros [= <- <-].
  rewrite !orb_false_iff in G. destruct G as [[G1 G2] G3]. rewrite Z.leb_gt in G1, G2. rewrite Z.ltb_ge in G3.
  pose proof (counter_room _ _ _ CSourceBytes _ Hcfg Hc G1 G3) as (H0 & H1 & H2).
  pose proof (cfg_ok_limit _ CSubscriptions Hcfg) as Hl. unfold is_i64 in Hl.
  apply (counted_grow _ b); [done| repeat constructor; done|]. destruct Hc as [Hp Hc].
  pose proof (outstanding_nonneg CSubscriptions _ Hp) as H3. destruct (Hc CSubscriptions) as [E _].
  intros d. cbn [rb_used set_used]. rewrite !get_set_counter, !amount_cons. change (amount_of d []) with 0. cbn in *.
  destruct (Hc d) as [_ Hd].
  destruct d; cbn in *; repeat case_decide; try done; try lia; rewrite i64_id by (unfold is_i64; lia); lia.
Qed.

(** ** Authorizations *)

(** The callers [W] that wait and [R] that hold an authorization, numbered below
    [next], against the queue. *)
Record auth_core (b : replicaBudget) (next : nat) (W R : gset nat) : Prop := {
  ac_running : bs_AuthRunning (rb_used b) = Z.of_nat (size (R ∪ (W ∩ rb_granted b)));
  ac_bound : bs_AuthRunning (rb_used b) <= Z.max 0 (rc_AuthConcurrency (rb_cfg b));
  ac_granted : R ⊆ rb_granted b;
  ac_disjoint : R ## W;
  ac_queue : forall w, w ∈ rb_authWaiters b <-> w ∈ W /\ w ∉ rb_granted b;
  ac_sorted : StronglySorted lt (rb_authWaiters b);
  ac_fifo : forall w v, w ∈ rb_granted b -> v ∈ rb_authWaiters b -> (w < v)%nat;
  ac_fresh : forall w, w ∈ W ∪ rb_granted b -> (w < next)%nat;
  ac_length : Z.of_nat (length (rb_authWaiters b)) <= Z.max 0 (rc_PendingRegistrations (rb_cfg b));
}.

(** No lost wake-up: when a waiter could be served, the refill timer is set. *)
Definition wakeup (b : replicaBudget) : Prop :=
  rb_authWaiters b <> [] -> bs_AuthRunning (rb_used b) < rc_AuthConcurrency (rb_cfg b) ->
  is_Some (rb_authTimer b).

Lemma grant_loop_takes conc ws g r t ws' g' r' t' :
  is_i64 conc -> 0 <= r <= Z.max 0 conc -> grant_loop conc ws g r t = (ws', g', r', t') ->
  exists taken, ws = taken ++ ws' /\ g' = list_to_set taken ∪ g /\ r' = r + Z.of_nat (length taken) /\
                r' <= Z.max 0 conc.
Proof.
  intros Hconc. revert g r t. induction ws as [|w ws IH]; intros g r t Hr; cbn.
  { intros [= <- <- <- <-]. exists []. cbn. split_and!; [done| set_solver| lia| lia]. }
  destruct (_ && _) eqn:G.
  - apply andb_true_iff in G as [G _]. apply Z.ltb_lt in G. unfold is_i64 in Hconc.
    rewrite i64_id by (unfold is_i64; lia). intros H.
    apply IH in H as (taken & -> & -> & -> & Hb); [|lia].
    exists (w :: taken). cbn. split_and!; [done| set_solver| lia| lia].
  - intros [= <- <- <- <-]. exists []. cbn. split_and!; [done| set_solver| lia| lia].
Qed.

Lemma sorted_app_inv (l k : list nat) :
  StronglySorted lt (l ++ k) -> StronglySorted lt k /\ forall x y, x ∈ l -> y ∈ k -> (x < y)%nat.
Proof.
  induction l as [|z l IH]; cbn; [split; [done| set_solver]|].
  intros H. apply StronglySorted_inv in H as [H Hz]. destruct (IH H) as [Hk Hlt]. split; [done|].
  intros x y [->|Hx]%elem_of_cons Hy; [|by apply Hlt].
  by apply (proj1 (Forall_forall _ _) Hz), elem_of_app; right.
Qed.
Lemma sorted_NoDup (l : list nat) : StronglySorted lt l -> NoDup l.
Proof.
  induction 1 as [|x l _ IH Hx]; constructor; [|done]. intros Hin.
  by apply (Nat.lt_irrefl x), (proj1 (Forall_forall _ _) Hx).
Qed.

(** Taking waiters from the front of the queue keeps the core. *)
Lemma auth_take b next W R taken rest :
  auth_core b next W R -> rb_authWaiters b = taken ++ rest ->
  size (R ∪ (W ∩ (list_to_set taken ∪ rb_granted b))) =
    (size (R ∪ (W ∩ rb_granted b)) + length taken)%nat.
Proof.
  intros H E. rewrite <- (size_list_to_set (C := gset nat) taken).
  - rewrite <- size_union.
    + f_equal. apply set_eq. intros w. pose proof (ac_queue _ _ _ _ H w) as Hq. rewrite E in Hq. set_solver.
    + intros w. pose proof (ac_queue _ _ _ _ H w) as Hq. rewrite E in Hq.
      pose proof (ac_granted _ _ _ _ H). set_solver.
  - pose proof (sorted_NoDup _ (ac_sorted _ _ _ _ H)) as Hn. rewrite E in Hn. by apply NoDup_app in Hn as [? _].
Qed.

Lemma dispatch_core b next W R now :
  is_i64 (rc_AuthConcurrency (rb_cfg b)) -> auth_core b next W R ->
  auth_core (dispatchAuthLocked b now) next W R /\ wakeup (dispatchAuthLocked b now).
Proof.
  intros Hconc H. unfold dispatchAuthLocked. pose proof (ac_running _ _ _ _ H) as Hr.
  pose proof (ac_bound _ _ _ _ H) as Hb. destruct (grant_loop _ _ _ _ _) as [[[ws g] r] t] eqn:G.
  apply grant_loop_takes in G as (taken & E & -> & -> & Hm); [|done|lia]. split.
  - pose proof (auth_take _ _ _ _ _ _ H E) as Hs.
    pose proof (ac_sorted _ _ _ _ H) as Hsort. rewrite E in Hsort. apply sorted_app_inv in Hsort as [Hsort Hlt].
    pose proof (ac_queue _ _ _ _ H) as Hq. rewrite E in Hq.
    destruct H as [_ _ Hg Hd _ _ Hf Hn Hl]. rewrite E in Hf, Hl. rewrite length_app in Hl.
    split; cbn; try done.
    + rewrite Hs. lia.
    + set_solver.
    + intros w. specialize (Hq w). pose proof (fun x => Nat.lt_irrefl w x) as Hw. specialize (Hlt w w).
      destruct (decide (w ∈ ws)); set_solver.
    + set_solver.
    + set_solver.
    + lia.
  - unfold wakeup. cbn. intros Hne Hlt. apply Z.ltb_lt in Hlt. rewrite Hlt.
    destruct ws; [done|]. cbn. eauto.
Qed.

(** The core depends on the counters only through [AuthRunning]. *)
Lemma auth_core_used b next W R u :
  bs_AuthRunning u = bs_AuthRunning (rb_used b) -> auth_core b next W R -> auth_core (set_used b u) next W R.
Proof. intros E [H1 H2 H3 H4 H5 H6 H7 H8 H9]. split; cbn; try done; by rewrite E. Qed.
Lemma run_release_running b r : bs_AuthRunning (rb_used (run_release b r)) = bs_AuthRunning (rb_used b).
Proof.
  unfold run_release. cbn. generalize (rb_used b). induction r as [|[c a] r IH]; intros u; cbn; [done|]. by rewrite IH.
Qed.

Lemma auth_queue_new b next W R :
  auth_core b next W R ->
  Z.of_nat (length (rb_authWaiters b)) < rc_PendingRegistrations (rb_cfg b) ->
  auth_core (set_waiters b (rb_authWaiters b ++ [next])) (S next) ({[next]} ∪ W) R.
Proof.
  intros [Hr Hb Hg Hd Hq Hs Hf Hn Hl] Hroom.
  assert (Hfresh : next ∉ W ∪ rb_granted b) by (intros Hin; specialize (Hn _ Hin); lia).
  split; cbn; try done.
  - rewrite Hr. do 2 f_equal. set_solver.
  - set_solver.
  - intros w. rewrite elem_of_app, list_elem_of_singleton, Hq. set_solver.
  - assert (Hlt : forall w, w ∈ rb_authWaiters b -> (w < next)%nat) by (intros w Hw; apply Hn; set_solver).
    revert Hs Hlt. generalize (rb_authWaiters b). clear. induction l as [|x l IH]; cbn; intros H Hlt.
    { repeat constructor. }
    apply StronglySorted_inv in H as [H Hx]. constructor; [apply IH; [done|]; set_solver|].
    apply Forall_app. split; [done|]. repeat constructor. apply Hlt. set_solver.
  - intros w v Hw. rewrite elem_of_app, list_elem_of_singleton. intros [Hv| ->]; [by apply Hf|]. apply Hn. set_solver.
  - intros w Hw. destruct (decide (w = next)); [lia|]. assert (w < next)%nat; [|lia]. apply Hn. set_solver.
  - rewrite length_app. cbn. lia.
Qed.

(** A holder that returns frees its slot. *)
Lemma auth_end b next W R w :
  auth_core b next W R -> is_i64 (rc_AuthConcurrency (rb_cfg b)) -> w ∈ R ∪ (W ∩ rb_granted b) ->
  auth_core (end_running b) next (W ∖ {[w]}) (R ∖ {[w]}).
Proof.
  intros [Hr Hb Hg Hd Hq Hs Hf Hn Hl] Hconc Hw.
  assert (E : R ∖ {[w]} ∪ (W ∖ {[w]} ∩ rb_granted b) = (R ∪ (W ∩ rb_granted b)) ∖ {[w]}) by set_solver.
  assert (Hsz : size ((R ∪ (W ∩ rb_granted b)) ∖ {[w]}) = (size (R ∪ (W ∩ rb_granted b)) - 1)%nat).
  { rewrite size_difference, size_singleton by set_solver. done. }
  assert (Hpos : (size ({[w]} : gset nat) <= size (R ∪ (W ∩ rb_granted b)))%nat) by (apply subseteq_size; set_solver).
  rewrite size_singleton in Hpos.
  unfold is_i64 in Hconc.
  split; cbn; try done.
  - rewrite E, Hsz, i64_id by (unfold is_i64; lia). lia.
  - rewrite i64_id by (unfold is_i64; lia). lia.
  - set_solver.
  - set_solver.
  - intros v. rewrite Hq. set_solver.
  - set_solver.
Qed.

Lemma remove_waiter_elem w l v : NoDup l -> v ∈ remove_waiter w l <-> v ∈ l /\ v <> w.
Proof.
  induction 1 as [|q l Hq Hl IH]; cbn; [set_solver|].
  destruct (Nat.eqb_spec q w) as [->|Hne]; [set_solver|]. rewrite !elem_of_cons, IH. set_solver.
Qed.
Lemma remove_waiter_sorted w l : StronglySorted lt l -> StronglySorted lt (remove_waiter w l).
Proof.
  induction 1 as [|q l Hl IH Hq]; cbn; [constructor|]. destruct (Nat.eqb q w); [done|]. constructor; [done|].
  clear - Hq. induction Hq as [|x l Hx Hl IH]; cbn; [constructor|]. destruct (Nat.eqb x w); [done|]. by constructor.
Qed.
Lemma remove_waiter_length w l : (length (remove_waiter w l) <= length l)%nat.
Proof. induction l as [|q l IH]; cbn; [lia|]. destruct (Nat.eqb q w); cbn; lia. Qed.

(** A queued waiter that gives up leaves the queue. *)
Lemma auth_leave b next W R w :
  auth_core b next W R -> w ∉ rb_granted b ->
  auth_core (set_waiters b (remove_waiter w (rb_authWaiters b))) next (W ∖ {[w]}) R.
Proof.
  intros [Hr Hb Hg Hd Hq Hs Hf Hn Hl] Hw. pose proof (sorted_NoDup _ Hs) as Hnd.
  split; cbn; try done.
  - rewrite Hr. do 2 f_equal. set_solver.
  - set_solver.
  - intros v. rewrite remove_waiter_elem by done. rewrite Hq. set_solver.
  - by apply remove_waiter_sorted.
  - intros u v Hu. rewrite remove_waiter_elem by done. intros [Hv _]. by apply Hf.
  - set_solver.
  - pose proof (remove_waiter_length w (rb_authWaiters b)). lia.
Qed.

(** A granted waiter that wakes becomes a holder of its own. *)
Lemma auth_hold b next W R w :
  auth_core b next W R -> w ∈ W -> w ∈ rb_granted b -> auth_core b next (W ∖ {[w]}) ({[w]} ∪ R).
Proof.
  intros [Hr Hb Hg Hd Hq Hs Hf Hn Hl] Hw Hwg. split; try done.
  - rewrite Hr. do 2 f_equal. apply set_eq. intros v. destruct (decide (v = w)); set_solver.
  - set_solver.
  - set_solver.
  - intros v. rewrite Hq. destruct (decide (v = w)); set_solver.
  - set_solver.
Qed.

(** ** The invariant of the server *)
Record ledger_inv (cfg : ReplicaConfig) (l : ledger) : Prop := {
  li_cfg : rb_cfg (lg_budget l) = cfg;
  li_counted : counted cfg (lg_budget l) (lg_releases l);
  li_core : auth_core (lg_budget l) (lg_next l) (lg_waiting l) (lg_running l);
  li_wakeup : wakeup (lg_budget l);
}.

Lemma set_AuthRunning_counters u v c : get_counter (set_AuthRunning u v) c = get_counter u c.
Proof. by destruct c. Qed.
Lemma dispatch_cfg b now : rb_cfg (dispatchAuthLocked b now) = rb_cfg b.
Proof. unfold dispatchAuthLocked. by destruct (grant_loop _ _ _ _ _) as [[[? ?] ?] ?]. Qed.
Lemma dispatch_counters b now c : get_counter (rb_used (dispatchAuthLocked b now)) c = get_counter (rb_used b) c.
Proof.
  unfold dispatchAuthLocked. destruct (grant_loop _ _ _ _ _) as [[[? ?] ?] ?]. apply set_AuthRunning_counters.
Qed.
Lemma counted_ext cfg b b' rels :
  (forall c, get_counter (rb_used b') c = get_counter (rb_used b) c) -> counted cfg b rels -> counted cfg b' rels.
Proof. intros E [Hp Hc]. split; [done|]. intros c. rewrite E. apply Hc. Qed.

(** A critical section that ends by dispatching. *)
Lemma dispatch_inv cfg b' now rels next W R :
  cfg_ok cfg -> rb_cfg b' = cfg -> counted cfg b' rels -> auth_core b' next W R ->
  ledger_inv cfg {| lg_budget := dispatchAuthLocked b' now; lg_releases := rels; lg_next := next;
                    lg_waiting := W; lg_running := R |}.
Proof.
  intros Hok <- Hc Hcore.
  assert (Hi : is_i64 (rc_AuthConcurrency (rb_cfg b'))).
  { revert Hok. unfold cfg_ok, rc_fields. rewrite !Forall_cons. cbn. tauto. }
  destruct (dispatch_core _ _ _ _ now Hi Hcore) as [H1 H2].
  split; cbn; [apply dispatch_cfg| |done|done].
  by apply (counted_ext _ b'); [apply dispatch_counters|].
Qed.

Lemma reserve_keeps b c amount m b' r :
  reserve b c amount m = Some (b', r) ->
  exists u, b' = set_used b u /\ bs_AuthRunning u = bs_AuthRunning (rb_used b).
Proof. unfold reserve. destruct (_ || _); [done|]. intros [= <- <-]. eauto. Qed.
Lemma trySubscription_keeps b n b' r :
  trySubscription b n = Some (b', r) ->
  exists u, b' = set_used b u /\ bs_AuthRunning u = bs_AuthRunning (rb_used b).
Proof. unfold trySubscription. destruct (_ || _); [done|]. intros [= <- <-]. eauto. Qed.

Lemma took_inv cfg l r :
  ledger_inv cfg l ->
  (forall b' rel, r = Some (b', rel) ->
     counted cfg b' (lg_releases l ++ [(rel, false)]) /\
     exists u, b' = set_used (lg_budget l) u /\ bs_AuthRunning u = bs_AuthRunning (rb_used (lg_budget l))) ->
  ledger_inv cfg (took l r).
Proof.
  intros [Hcfg Hc Hcore Hw] H. destruct r as [[b' rel]|]; [|done].
  destruct (H _ _ eq_refl) as (Hc' & u & -> & Hu). split; cbn; [done| done| by apply auth_core_used|].
  unfold wakeup in *. cbn. by rewrite Hu.
Qed.

Lemma reserve_inv cfg l c amount :
  cfg_ok cfg -> ledger_inv cfg l -> ledger_inv cfg (took l (reserve (lg_budget l) c amount (limit cfg c))).
Proof.
  intros Hok H. apply took_inv; [done|]. intros b' rel E. split; [|by eapply reserve_keeps].
  eapply reserve_counted; [done| apply H| done].
Qed.

Lemma step_inv cfg l o : cfg_ok cfg -> ledger_inv cfg l -> ledger_inv cfg (budget_step l o).
Proof.
  intros Hok H. pose proof H as [Hcfg Hc Hcore Hw].
  assert (Hi : is_i64 (rc_AuthConcurrency (rb_cfg (lg_budget l)))).
  { rewrite Hcfg. revert Hok. unfold cfg_ok, rc_fields. rewrite !Forall_cons. cbn. tauto. }
  assert (Hend : forall w now, w ∈ holders l ->
    ledger_inv cfg (with_auth l (releaseAuth (lg_budget l) now) (lg_waiting l ∖ {[w]}) (lg_running l ∖ {[w]}))).
  { intros w now Hh. apply dispatch_inv; [done| done| |by apply auth_end].
    by apply (counted_ext _ (lg_budget l)); [apply set_AuthRunning_counters|]. }
  destruct o; cbn [budget_step].
  - unfold tryConnection. rewrite Hcfg. by apply (reserve_inv cfg l CConnections).
  - apply took_inv; [done|]. intros b' rel E. split; [|by eapply trySubscription_keeps].
    rewrite <- Hcfg in *. by eapply trySubscription_counted.
  - unfold tryPending. rewrite Hcfg. by apply (reserve_inv cfg l CPending).
  - unfold tryRead. rewrite Hcfg. by apply (reserve_inv cfg l CReads).
  - unfold tryPage. rewrite Hcfg. by apply (reserve_inv cfg l CPageBytes).
  - destruct (lg_releases l !! i) as [[r []]|] eqn:E; [done| |done].
    split; cbn; [done| by apply counted_release| |].
    + apply auth_core_used; [apply (run_release_running (lg_budget l))|done].
    + unfold wakeup in *. by rewrite run_release_running.
  - unfold auth_enter. destruct ctxErr; [done|]. destruct (_ <=? _) eqn:G; [done|].
    apply Z.leb_gt in G. apply dispatch_inv; [done| done| |by apply auth_queue_new].
    by apply (counted_ext _ (lg_budget l)).
  - case_decide as Hd; [|done]. destruct Hd as [Hin Hg]. destruct ctxErr.
    + replace (lg_running l) with (lg_running l ∖ {[w]}); [apply Hend; unfold holders; set_solver|].
      pose proof (ac_disjoint _ _ _ _ Hcore). set_solver.
    + split; cbn; [done| done| by apply auth_hold| done].
  - case_decide as Hin; [|done]. unfold auth_cancel. case_decide as Hg.
    + replace (lg_running l) with (lg_running l ∖ {[w]}); [apply Hend; unfold holders; set_solver|].
      pose proof (ac_disjoint _ _ _ _ Hcore). set_solver.
    + apply dispatch_inv; [done| done| |by apply auth_leave]. by apply (counted_ext _ (lg_budget l)).
  - case_decide as Hin; [|done].
    replace (lg_waiting l) with (lg_waiting l ∖ {[w]}); [apply Hend; unfold holders; set_solver|].
    pose proof (ac_disjoint _ _ _ _ Hcore). set_solver.
  - by apply dispatch_inv.
Qed.

Lemma new_ledger_inv cfg now : ledger_inv (rc_ApplyDefaults cfg) (new_ledger cfg now).
Proof.
  split; cbn; [done| split; [constructor|]; intros c; split; [by destruct c|]; destruct c; cbn; lia| |by intros ?].
  split; cbn; try done; try lia; [set_solver| constructor].
Qed.

Lemma run_inv cfg now ops :
  cfg_ok cfg -> ledger_inv (rc_ApplyDefaults cfg) (budget_run (new_ledger cfg now) ops).
Proof.
  intros Hok%ApplyDefaults_ok. unfold budget_run. generalize (new_ledger_inv cfg now).
  generalize (new_ledger cfg now). induction ops as [|o ops IH]; intros l H; cbn; [done|].
  by apply IH, step_inv.
Qed.

(** C25: The ledger bounds the server's resources. Whatever sequence of reservations,
    releases (a closure may be called again), authorization requests, wake-ups,
    cancellations and timer callbacks runs, each counter is exactly the sum of what
    the reservations that are still open hold, so it is never negative, and it is at
    most its configured maximum; the running authorizations are exactly the callers
    that hold one and the queue is at most its configured length; the 64-bit
    arithmetic of the code never wraps on the way. *)
Theorem budget_bounds cfg now ops :
  cfg_ok cfg ->
  let l := budget_run (new_ledger cfg now) ops in
  let limits := rc_ApplyDefaults cfg in
  let snapshot := budget_snapshot (lg_budget l) in
  (forall c, get_counter snapshot c = outstanding c (lg_releases l) /\
             0 <= get_counter snapshot c <= Z.max 0 (limit limits c)) /\
  bs_AuthRunning snapshot = Z.of_nat (size (holders l)) /\
  bs_AuthRunning snapshot <= Z.max 0 (rc_AuthConcurrency limits) /\
  bs_AuthWaiting snapshot <= Z.max 0 (rc_PendingRegistrations limits).
Proof.
  intros Hok l limits snapshot. destruct (run_inv cfg now ops Hok) as [Hcfg [Hp Hc] Hcore _].
  fold l in Hcfg, Hp, Hc, Hcore. fold limits in Hcfg, Hc. split.
  - intros c. replace (get_counter snapshot c) with (get_counter (rb_used (lg_budget l)) c) by by destruct c.
    destruct (Hc c) as [E Hm]. pose proof (outstanding_nonneg c _ Hp). lia.
  - rewrite <- Hcfg. split_and!; apply Hcore.
Qed.

(** C26: Authorizations are first come, first served, and no wake-up is lost. In every
    reachable state the queue holds exactly the callers that wait without a grant, in
    their order of arrival; every granted caller arrived before every queued one; and
    when a caller is queued while a slot is free, the refill timer is set. *)
Theorem auth_queue_fair cfg now ops :
  cfg_ok cfg ->
  let l := budget_run (new_ledger cfg now) ops in
  let b := lg_budget l in
  StronglySorted lt (rb_authWaiters b) /\
  (forall w, w ∈ rb_authWaiters b <-> w ∈ lg_waiting l /\ w ∉ rb_granted b) /\
  (forall w v, w ∈ rb_granted b -> v ∈ rb_authWaiters b -> (w < v)%nat) /\
  (rb_authWaiters b <> [] -> bs_AuthRunning (rb_used b) < rc_AuthConcurrency (rc_ApplyDefaults cfg) ->
   is_Some (rb_authTimer b)).
Proof.
  intros Hok l b. destruct (run_inv cfg now ops Hok) as [Hcfg _ Hcore Hw]. fold l b in Hcfg, Hcore, Hw.
  split_and!; [apply Hcore..|]. rewrite <- Hcfg. exact Hw.
Qed.

(** Two slots, one token: the first caller is served, three wait, the fifth is told to
    retry; a refill serves the second; two connections fit and one release is called
    twice. *)
Definition small_config : ReplicaConfig := {|
  rc_Connections := 2; rc_Subscriptions := 0; rc_SubscriptionsPerConnection := 0; rc_PendingRegistrations := 3;
  rc_SourceBytes := 100; rc_SourceBytesPerConnection := 0; rc_ReadConcurrency := 0; rc_PageBytes := 0;
  rc_PageCreditsPerConnection := 0; rc_AuthConcurrency := 2; rc_AuthRate := 3; rc_AuthBurst := 1 |}.
Definition small_run : list budget_op := [
  OpConnection; OpConnection; OpConnection; OpRelease 0; OpRelease 0; OpSubscription 60; OpSubscription 41;
  OpAuth false 1; OpAuth false 2; OpAuth false 3; OpAuth false 4; OpAuth false 5;
  OpTimer 333333334; OpCancel 2 333333335; OpReady 0 false 333333335].

Lemma small_config_ok : cfg_ok small_config.
Proof. unfold cfg_ok, rc_fields. rewrite !Forall_cons. cbn. unfold is_i64. split_and!; try lia. constructor. Qed.

Lemma budget_bounds_witness :
  let l := budget_run (new_ledger small_config 0) small_run in
  get_counter (budget_snapshot (lg_budget l)) CConnections = 1 /\
  get_counter (budget_snapshot (lg_budget l)) CSourceBytes = 60 /\
  bs_AuthRunning (budget_snapshot (lg_budget l)) = 2 /\ bs_AuthWaiting (budget_snapshot (lg_budget l)) = 1 /\
  outstanding CConnections (lg_releases l) = 1.
Proof.
  intros l. do 4 (split; [vm_compute; reflexivity|]).
  unfold l. rewrite <- (proj1 (proj1 (budget_bounds small_config 0 small_run small_config_ok) CConnections)).
  vm_compute. reflexivity.
Defined.

Lemma auth_queue_fair_witness :
  let b := lg_budget (budget_run (new_ledger small_config 0) (take 12 small_run)) in
  rb_authWaiters b = [1; 2; 3]%nat /\ is_Some (rb_authTimer b).
Proof.
  intros b. split; [vm_compute; reflexivity|].
  apply (proj2 (proj2 (proj2 (auth_queue_fair small_config 0 (take 12 small_run) small_config_ok))));
    vm_compute; [intros H; discriminate H| reflexivity].
Defined.
