(* ===== verification/Documents.v ===== *)
(** * Documents: internal/helper/validation.go, internal/helper/convert.go,
    pkg/model/document.go and internal/core/storage/types/helpers.go

    Path validation, user documents and the records the storage layer keeps of
    them. The BLAKE3 hash is a parameter; the clock and the random identifiers
    are arguments. *)
From stdpp Require Import base list gmap strings.
From Stdlib Require Import ZArith Ascii.
From S2P Require Import Prelude Value Filter Codec Template Projection.
Local Open Scope Z_scope.

(** ** Strings *)

(** [strings.LastIndex]: what is before and after the last separator. *)
Fixpoint cut_last (sep : ascii) (s : string) : option (string * string) :=
  match s with
  | String.EmptyString => None
  | String.String c s =>
      match cut_last sep s with
      | Some (a, b) => Some (String.String c a, b)
      | None => if Ascii.eqb c sep then Some (String.EmptyString, s) else None
      end
  end.

Definition has_prefix (prefix s : string) : bool :=
  match strip_prefix prefix s with Some _ => true | None => false end.
(** [strings.TrimPrefix]. *)
Definition trim_prefix (prefix s : string) : string := default s (strip_prefix prefix s).

(** [strings.HasSuffix(s, "/")] and [strings.Contains(s, "//")]. *)
Fixpoint ends_with_slash (s : string) : bool :=
  match s with
  | String.EmptyString => false
  | String.String c String.EmptyString => Ascii.eqb c slash
  | String.String _ s => ends_with_slash s
  end.
Fixpoint double_slash (s : string) : bool :=
  match s with
  | String.String c ((String.String d _) as s') => (Ascii.eqb c slash && Ascii.eqb d slash) || double_slash s'
  | _ => false
  end.

(** ** Paths: internal/helper/validation.go *)
Module Paths.

Record ValidationConfig := { MaxPathLength : Z; MaxIDLength : Z }.
Definition DefaultValidationConfig : ValidationConfig := {| MaxPathLength := 1024; MaxIDLength := 128 |}.

(** The package-level configuration after a call with [cfg]. *)
Definition SetValidationConfig (cfg : ValidationConfig) : ValidationConfig :=
  {| MaxPathLength := if MaxPathLength cfg <=? 0 then MaxPathLength DefaultValidationConfig else MaxPathLength cfg;
     MaxIDLength := if MaxIDLength cfg <=? 0 then MaxIDLength DefaultValidationConfig else MaxIDLength cfg |}.

Inductive path_error :=
| ErrPathEmpty | ErrPathLength | ErrPathCharacters | ErrPathSlash | ErrPathSegment
| ErrDocumentSegments | ErrDocumentIDLength (id : string) | ErrCollectionSegments.

(** [a-zA-Z0-9_\-\.]. *)
Definition id_char (c : Z) : bool :=
  in_range 97 122 c || in_range 65 90 c || in_range 48 57 c || (c =? 95) || (c =? 45) || (c =? 46).
(** [pathRegex] matches a nonempty string of these bytes. *)
Definition path_char (c : Z) : bool := id_char c || (c =? 47).

Section Checks.
Context (cfg : ValidationConfig).

Definition CheckPath (path : string) : res path_error unit :=
  if String.eqb path "" then Err ErrPathEmpty
  else if MaxPathLength cfg <? slen path then Err ErrPathLength
  else if negb (forallb path_char (bytes_of_string path)) then Err ErrPathCharacters
  else if has_prefix "/" path || ends_with_slash path then Err ErrPathSlash
  else if double_slash path then Err ErrPathSegment
  else Ok tt.

(** Every second part, from index 1, is a document identifier. *)
Fixpoint check_ids (parts : list string) : res path_error unit :=
  match parts with
  | _ :: id :: parts => if MaxIDLength cfg <? slen id then Err (ErrDocumentIDLength id) else check_ids parts
  | _ => Ok tt
  end.

Definition CheckDocumentPath (path : string) : res path_error unit :=
  _ ← CheckPath path;
  let parts := split slash path in
  if negb (Nat.even (length parts)) || (length parts <? 2)%nat then Err ErrDocumentSegments
  else check_ids parts.

Definition CheckCollectionPath (collection : string) : res path_error unit :=
  _ ← CheckPath collection;
  if negb (Nat.even (length (split slash collection))) then Ok tt else Err ErrCollectionSegments.

Definition ExplodeFullpath (path : string) : res path_error (string * string) :=
  _ ← CheckPath path;
  let parts := split slash path in
  _ ← check_ids parts;
  if negb (Nat.even (length parts)) then Ok (path, "")
  else Ok (join "/" (removelast parts), List.last parts "").
End Checks.
End Paths.

(** ** User documents: pkg/model/document.go *)
Definition Document := gmap string value.

Definition CheckDocumentID (id : string) : bool :=
  forallb Paths.id_char (bytes_of_string id) && (1 <=? slen id) && (slen id <=? 64).

Definition StripProtectedFields (doc : Document) : Document :=
  delete "deleted" (delete "collection" (delete "createdAt" (delete "updatedAt" (delete "version" doc)))).

Definition string_field (key : string) (doc : Document) : string :=
  match doc !! key with Some (VString s) => s | _ => "" end.
Definition GetID : Document -> string := string_field "id".
Definition SetID (newID : string) (doc : Document) : Document := <["id" := VString newID]> doc.
Definition GetCollection : Document -> string := string_field "collection".
Definition SetCollection (collection : string) (doc : Document) : Document :=
  <["collection" := VString collection]> doc.
(** [uuid] is the identifier the call draws. *)
Definition GenerateIDIfEmpty (uuid : string) (doc : Document) : Document :=
  match doc !! "id" with Some _ => doc | None => SetID uuid doc end.
Definition HasKey (key : string) (doc : Document) : bool := bool_decide (is_Some (doc !! key)).
Definition HasVersion : Document -> bool := HasKey "version".
Definition IsEmpty (doc : Document) : bool := (size doc =? 1)%nat && HasKey "id" doc.
Definition IsDeleted (doc : Document) : bool :=
  match doc !! "deleted" with Some (VBool b) => b | _ => false end.

Inductive document_error := ErrNilData | ErrIDEmpty | ErrIDFormat | ErrIDType.

(** [None] is the nil document; an integer identifier is rewritten in place. *)
Definition ValidateDocument (doc : option Document) : res document_error Document :=
  match doc with
  | None => Err ErrNilData
  | Some doc =>
      match doc !! "id" with
      | None => Ok doc
      | Some (VString s) =>
          if String.eqb s "" then Err ErrIDEmpty
          else if negb (CheckDocumentID s) then Err ErrIDFormat
          else Ok doc
      | Some (VInt (KInt | KInt32 | KInt64) i) => Ok (SetID (string_of_bytes (json_int i)) doc)
      | Some _ => Err ErrIDType
      end
  end.

(** ** Presentation: internal/helper/convert.go *)
Definition extractIDFromFullpath (fullpath : string) : string :=
  let parts := split slash fullpath in
  if negb (Nat.even (length parts)) then "" else List.last parts "".

Definition FlattenStorageDocument (doc : option StoredDoc) : option Document :=
  doc ← doc;
  let id := GetID (doc_Data doc) in
  let out := SetID (if String.eqb id "" then extractIDFromFullpath (doc_Fullpath doc) else id) (doc_Data doc) in
  let out := SetCollection (doc_Collection doc) out in
  let out := <["version" := VInt KInt64 (doc_Version doc)]> out in
  let out := <["updatedAt" := VInt KInt64 (doc_UpdatedAt doc)]> out in
  let out := <["createdAt" := VInt KInt64 (doc_CreatedAt doc)]> out in
  Some (if doc_Deleted doc then <["deleted" := VBool true]> out else out).

(** ** Stored documents: internal/core/storage/types/helpers.go *)
Inductive ReadConsistency := ReadDefault | ReadAuthoritative | OtherConsistency (n : Z).
#[export] Instance ReadConsistency_eq_dec : EqDecision ReadConsistency.
Proof. solve_decision. Defined.

Record ReadOptions := { ro_Consistency : ReadConsistency; ro_ShowDeleted : bool; ro_MaxBytes : Z }.
Definition zeroReadOptions : ReadOptions :=
  {| ro_Consistency := ReadDefault; ro_ShowDeleted := false; ro_MaxBytes := 0 |}.

Inductive options_error :=
| ErrManyOptions | ErrNegativeBudget | ErrConsistency (n : Z)
| ErrScanDatabase | ErrScanCollection (e : projection_error) | ErrScanBudget
| ErrEnumeration.

Definition ResolveReadOptions (opts : list ReadOptions) : res options_error ReadOptions :=
  match opts with
  | _ :: _ :: _ => Err ErrManyOptions
  | _ =>
      let resolved := default zeroReadOptions (head opts) in
      if ro_MaxBytes resolved <? 0 then Err ErrNegativeBudget
      else match ro_Consistency resolved with
           | ReadDefault | ReadAuthoritative => Ok resolved
           | OtherConsistency n => Err (ErrConsistency n)
           end
  end.

Record SourceScanRequest := {
  ssr_Collection : string; ssr_AfterID : string; ssr_Limit : Z; ssr_MaxBytes : Z;
  ssr_Consistency : ReadConsistency; ssr_AtLeast : string;
}.

Definition ValidateScanRequest (request : SourceScanRequest) (database : string) : res options_error unit :=
  if String.eqb database "" then Err ErrScanDatabase
  else
    _ ← map_err ErrScanCollection (ValidateConcreteCollection (ssr_Collection request));
    if contains_any [47; 0] (ssr_AfterID request) || (ssr_Limit request <=? 0)
       || (2147483647 <? ssr_Limit request) || (ssr_MaxBytes request <? 0) then Err ErrScanBudget
    else
      _ ← ResolveReadOptions [{| ro_Consistency := ssr_Consistency request; ro_ShowDeleted := false; ro_MaxBytes := 0 |}];
      Ok tt.

Record CollectionEnumerationOptions := { IncludeSystem : bool }.

Definition ResolveCollectionEnumerationOptions (database afterCollection : string) (limit : Z)
    (opts : list CollectionEnumerationOptions) : res options_error CollectionEnumerationOptions :=
  if String.eqb database "" || (limit <=? 0) || (2147483647 <? limit) || (1 <? length opts)%nat
  then Err ErrEnumeration
  else
    _ ← if String.eqb afterCollection "" then Ok tt
        else map_err ErrScanCollection (ValidateConcreteCollection afterCollection);
    Ok (default {| IncludeSystem := false |} (head opts)).

Section Hash.
(** [blake3.Sum256]. *)
Context (blake3 : bytes -> bytes).

Definition hash16 (l : bytes) : string := string_of_bytes (hex_encode (take 16 (blake3 l))).

Definition CalculateDatabase (database fullpath : string) : string :=
  String.append database (String.append ":" (hash16 (bytes_of_string fullpath))).

Definition CalculateCollectionHash (collection : string) : string :=
  hash16 (bytes_of_string (String.append "collection:" collection)).

(** [data] is [None] for a nil map; [now] is the clock in milliseconds. *)
Definition NewStoredDoc (now : Z) (database collection docid : string) (data : option Document) : StoredDoc :=
  let parent := match cut_last slash collection with Some (p, _) => p | None => "" end in
  let data := default ∅ data in
  let data := match data !! "id" with
              | Some (VString id) => if String.eqb id docid then data else SetID docid data
              | _ => SetID docid data
              end in
  let data := StripProtectedFields data in
  let fullpath := String.append collection (String.append "/" docid) in
  {| doc_Id := CalculateDatabase database fullpath; doc_Database := database; doc_Fullpath := fullpath;
     doc_Collection := collection; doc_CollectionHash := CalculateCollectionHash collection; doc_Parent := parent;
     doc_Data := data; doc_UpdatedAt := now; doc_CreatedAt := now; doc_Version := 1; doc_Deleted := false |}.
End Hash.
