(* ===== verification/Prog.v ===== *)
(** * Programs

    Code that calls its environment, as a free monad: a program is a tree of
    calls, each with a continuation for its answer. The calls are the
    constructors of an event type [E : Type -> Type]. *)
From stdpp Require Import base list relations.
From S2P Require Import Prelude.

Inductive prog (E : Type -> Type) (A : Type) : Type :=
| Ret (a : A)
| Call {X : Type} (e : E X) (k : X -> prog E A).
Arguments Ret {E A} a.
Arguments Call {E A X} e k.

Fixpoint prog_bind {E A B} (k : A -> prog E B) (p : prog E A) : prog E B :=
  match p with
  | Ret a => k a
  | Call e q => Call e (fun x => prog_bind k (q x))
  end.
#[export] Instance prog_mret {E} : MRet (prog E) := fun _ => Ret.
#[export] Instance prog_mbind {E} : MBind (prog E) := fun _ _ => prog_bind.

Definition call {E X} (e : E X) : prog E X := Call e Ret.

(** Error propagation: [x, err := p; if err != nil { return err }]. *)
Definition try {E F A B} (p : prog E (res F A)) (k : A -> prog E (res F B)) : prog E (res F B) :=
  r ← p; match r with Ok a => k a | Err e => Ret (Err e) end.
Notation "x <-! p ; k" := (try p (fun x => k))
  (at level 20, p at level 100, k at level 200, right associativity, only parsing).

(** A program over the calls of a component as one over the calls of its client. *)
Fixpoint lift {E F : Type -> Type} (f : forall X, E X -> F X) {A} (p : prog E A) : prog F A :=
  match p with
  | Ret a => Ret a
  | Call e k => Call (f _ e) (fun x => lift f (k x))
  end.

(** Every answer a program may return satisfies [P], whatever the calls answer. *)
Fixpoint leaves {E A} (P : A -> Prop) (p : prog E A) : Prop :=
  match p with
  | Ret a => P a
  | Call e k => forall x, leaves P (k x)
  end.

Section Leaves.
Context {E : Type -> Type}.

Lemma leaves_True {A} (p : prog E A) : leaves (fun _ => True) p.
Proof. induction p as [a|X e k IH]; cbn; auto. Qed.

Lemma leaves_impl {A} (P Q : A -> Prop) (p : prog E A) : leaves P p -> (forall a, P a -> Q a) -> leaves Q p.
Proof. intros Hp HQ. induction p as [a|X e k IH]; cbn in *; auto. Qed.

Lemma leaves_bind {A B} (P : A -> Prop) (Q : B -> Prop) (p : prog E A) (k : A -> prog E B) :
  leaves P p -> (forall a, P a -> leaves Q (k a)) -> leaves Q (p ≫= k).
Proof. intros Hp Hk. induction p as [a|X e q IH]; cbn in *; [by apply Hk|]. intros x. by apply IH. Qed.

Lemma leaves_try {F A B} (P : res F A -> Prop) (Q : res F B -> Prop) (p : prog E (res F A)) (k : A -> prog E (res F B)) :
  leaves P p -> (forall e, P (Err e) -> Q (Err e)) -> (forall a, P (Ok a) -> leaves Q (k a)) -> leaves Q (try p k).
Proof. intros Hp HE HK. eapply leaves_bind; [exact Hp|]. intros [a|e] Ha; [by apply HK|by apply HE]. Qed.
End Leaves.

(** The answer of a program whose calls are answered by a function. *)
Fixpoint answered {E A} (h : forall X, E X -> X) (p : prog E A) : A :=
  match p with
  | Ret a => a
  | Call e k => answered h (k (h _ e))
  end.

(** ** Executions *)
Section Runs.
Context {E : Type -> Type} {S O : Type}.
(** [step e s x s' o]: in state [s] the call [e] answers [x], leads to [s'] and
    shows [o]. *)
Context (step : forall X, E X -> S -> X -> S -> list O -> Prop).

Fixpoint runs {A} (p : prog E A) (s s' : S) (os : list O) (a : A) : Prop :=
  match p with
  | Ret b => s' = s /\ os = [] /\ a = b
  | Call e k => exists x s1 o os', step _ e s x s1 o /\ runs (k x) s1 s' os' a /\ os = o ++ os'
  end.

Lemma runs_bind_inv {A B} (p : prog E A) (k : A -> prog E B) s s' os b :
  runs (p ≫= k) s s' os b ->
  exists a s1 o1 o2, runs p s s1 o1 a /\ runs (k a) s1 s' o2 b /\ os = o1 ++ o2.
Proof.
  revert s os. induction p as [a|X e q IH]; intros s os Hx; cbn in Hx |- *.
  - exists a, s, [], os. auto.
  - destruct Hx as (x & s1 & o & os' & He & Hx & ->).
    destruct (IH x _ _ Hx) as (a & s2 & o1 & o2 & H1 & H2 & ->).
    exists a, s2, (o ++ o1), o2. rewrite app_assoc. split; [|done]. exists x, s1, o, o1. auto.
Qed.

Lemma runs_try_inv {F A B} (p : prog E (res F A)) (k : A -> prog E (res F B)) s s' os r :
  runs (try p k) s s' os r ->
  (exists e, runs p s s' os (Err e) /\ r = Err e) \/
  (exists a s1 o1 o2, runs p s s1 o1 (Ok a) /\ runs (k a) s1 s' o2 r /\ os = o1 ++ o2).
Proof.
  intros Hx. apply runs_bind_inv in Hx as ([a|e] & s1 & o1 & o2 & H1 & H2 & ->).
  - right. exists a, s1, o1, o2. auto.
  - left. destruct H2 as (-> & -> & ->). exists e. by rewrite app_nil_r.
Qed.

Lemma runs_call_inv {X} (e : E X) s s' os x : runs (call e) s s' os x -> step _ e s x s' os.
Proof. intros (y & s1 & o & os' & He & (-> & -> & ->) & ->). by rewrite app_nil_r. Qed.

(** Answers that depend on the call and never change the state. *)
Lemma answered_runs {A} (h : forall X, E X -> X) (o : forall X, E X -> list O) s (p : prog E A) :
  (forall X (e : E X), step X e s (h X e) s (o X e)) -> exists os, runs p s s os (answered h p).
Proof.
  intros Hh. induction p as [a|X e k IH]; cbn; [by exists []|]. destruct (IH (h X e)) as [os Hos].
  exists (o X e ++ os), (h X e), s, (o X e), os. auto.
Qed.

Lemma runs_leaves {A} (P : A -> Prop) (p : prog E A) s s' os a : leaves P p -> runs p s s' os a -> P a.
Proof.
  revert s os. induction p as [b|X e k IH]; intros s os Hl; cbn.
  - by intros (_ & _ & ->).
  - intros (x & s1 & o & os' & _ & Hx & _). by eapply IH.
Qed.
End Runs.

(** * A program among other threads

    The executions of a program ([prog]) whose calls act on a state that other
    threads change between any two of them, and a weakest precondition for the
    invariants of that state. *)
Section Threads.
Context {E : Type -> Type} {W : Type}.
(** [call_step e w x w']: the call [e] answers [x] and leads from [w] to [w']. *)
Context (call_step : forall X, E X -> W -> X -> W -> Prop) (other : W -> W -> Prop).

Inductive thread_step {A} : W * prog E A -> W * prog E A -> Prop :=
| thread_call X (e : E X) k w x w' : call_step X e w x w' -> thread_step (w, Call e k) (w', k x)
| thread_other w w' p : other w w' -> thread_step (w, p) (w', p).

Definition stable (P : W -> Prop) : Prop := forall w w', P w -> other w w' -> P w'.

Lemma stable_rtc P w w' : stable P -> P w -> rtc other w w' -> P w'.
Proof. intros Hs Hw Hr. induction Hr; eauto. Qed.

(** [inv] holds after every call. *)
Context (inv : W -> Prop) (inv_stable : stable inv).

Fixpoint wp {A} (p : prog E A) (Q : A -> W -> Prop) (w : W) : Prop :=
  match p with
  | Ret a => Q a w
  | Call e k => forall w1, rtc other w w1 -> forall x w2, call_step _ e w1 x w2 -> inv w2 /\ wp (k x) Q w2
  end.

Lemma wp_mono {A} (p : prog E A) (Q Q' : A -> W -> Prop) w :
  wp p Q w -> (forall a w, inv w -> Q a w -> Q' a w) -> inv w -> wp p Q' w.
Proof.
  intros Hp HQ. revert w Hp. induction p as [a|X e k IH]; intros w Hp Hw; cbn in *; [by apply HQ|].
  intros w1 H1 x w2 H2. destruct (Hp w1 H1 x w2 H2). split; [done|]. by apply IH.
Qed.

Lemma wp_bind {A B} (p : prog E A) (k : A -> prog E B) (Q : B -> W -> Prop) w :
  wp p (fun a => wp (k a) Q) w -> wp (p ≫= k) Q w.
Proof.
  revert w. induction p as [a|X e q IH]; intros w Hp; cbn in *; [done|].
  intros w1 H1 x w2 H2. destruct (Hp w1 H1 x w2 H2). split; [done|]. by apply IH.
Qed.

(** A call under an assertion that the other threads keep. *)
Lemma wp_call {A X} (P : W -> Prop) (e : E X) (k : X -> prog E A) (Q : A -> W -> Prop) w :
  stable P -> inv w -> P w ->
  (forall w1 x w2, inv w1 -> P w1 -> call_step X e w1 x w2 -> inv w2 /\ wp (k x) Q w2) -> wp (Call e k) Q w.
Proof.
  intros HP Hi Hw H w1 Hr x w2 Hc. apply (H w1 x w2); [by eapply stable_rtc|by eapply stable_rtc|done].
Qed.

Lemma wp_stable {A} (p : prog E A) (Q : A -> W -> Prop) w w' :
  (forall a, stable (Q a)) -> wp p Q w -> other w w' -> wp p Q w'.
Proof.
  intros HQ Hp Ho. destruct p as [a|X e k]; cbn in *; [by eapply HQ|]. intros w1 Hr. apply Hp. by eapply rtc_l.
Qed.

(** The invariant holds in every configuration the program reaches. *)
Lemma wp_adequate {A} (p p' : prog E A) w w' :
  inv w -> wp p (fun _ _ => True) w -> rtc thread_step (w, p) (w', p') -> inv w' /\ wp p' (fun _ _ => True) w'.
Proof.
  intros Hi Hp Hr. remember (w, p) as c eqn:Ec. remember (w', p') as c' eqn:Ec'. revert w p Ec Hi Hp.
  induction Hr as [c|c c1 c2 Hs Hr IH]; intros w p -> Hi Hp; [by simplify_eq|].
  inversion Hs as [X e k ? x w1 Hc|? w1 ? Ho]; subst.
  - destruct (Hp w (rtc_refl _ _) x w1 Hc). by eapply IH.
  - eapply IH; [done|done|by eapply inv_stable|]. by eapply wp_stable.
Qed.
End Threads.
Arguments wp {E W} call_step other inv {A} p Q w.
Arguments thread_step {E W} call_step other {A}.
