(* ===== verification/Mongo.v ===== *)
(** * The document database behind the storage layer

    Programs over the MongoDB driver calls that
    internal/core/storage/mongo/document_store.go makes. The class [MongoDB] states what the driver documents about the calls; between two
    calls of a program other clients change the database freely. *)
From stdpp Require Import base list gmap strings relations.
From Stdlib Require Import ZArith.
From S2P Require Import Prelude Value Filter Projection Prog.
Local Open Scope Z_scope.

(** ** Rows, conditions, updates *)

(** A stored document with the expiry time a tombstone carries. *)
Record row := Row { row_doc : StoredDoc; row_expires : option Z }.

(** One entry of a [bson.M] filter: a value, or an operator with its operand. *)
Inductive cond := Is (v : value) | Op (op : string) (v : value).
Abbreviation mfilter := (gmap string cond).

(** The entries of [$set] the code writes; [$inc] always adds one to the version. *)
Inductive set_item :=
| SetData (data : gmap string value)
| SetDataField (key : string) (v : value)
| SetUpdatedAt (now : Z)
| SetDeleted (deleted : bool)
| SetExpires (at_ : Z).
Record update := { upd_Set : list set_item; upd_IncVersion : Z }.

Inductive mongo_error := DuplicateKey | OtherFailure (what : string).

(** ** Calls *)
Inductive mongoE : Type -> Type :=
(** [collection.Clone] with the primary read preference. *)
| ClonePrimary (coll : string) : mongoE (res mongo_error unit)
(** [FindOne]; no document is [Ok None]. [primary] is the read preference. *)
| FindOne (primary : bool) (coll : string) (f : mfilter) : mongoE (res mongo_error (option row))
| InsertOne (coll : string) (r : row) : mongoE (res mongo_error unit)
(** These answer the number of matched documents. *)
| ReplaceOne (coll : string) (f : mfilter) (r : row) : mongoE (res mongo_error Z)
| UpdateOne (coll : string) (f : mfilter) (u : update) : mongoE (res mongo_error Z)
| CountDocuments (coll : string) (f : mfilter) : mongoE (res mongo_error Z)
(** [time.Now], in milliseconds. *)
| Now : mongoE Z.

Abbreviation mprog := (prog mongoE).

(** ** Effects *)

(** The rows of each collection under their [_id]. *)
Abbreviation db := (gmap string (gmap string row)).
Definition rows (m : db) (c : string) : gmap string row := default ∅ (m !! c).

(** A row written: what it replaced and what it became. *)
Record effect := { eff_coll : string; eff_key : string; eff_before : option row; eff_after : row }.
Definition perform (m : db) (e : effect) : db :=
  <[eff_coll e := <[eff_key e := eff_after e]> (rows m (eff_coll e))]> m.

Lemma rows_perform m e c :
  rows (perform m e) c =
    if decide (c = eff_coll e) then <[eff_key e := eff_after e]> (rows m c) else rows m c.
Proof.
  unfold perform, rows. case_decide; subst.
  - by rewrite lookup_insert_eq.
  - by rewrite lookup_insert_ne by done.
Qed.

(** A document with its mutable fields replaced. *)
Definition set_doc (updatedAt version : Z) (data : gmap string value) (deleted : bool) (d : StoredDoc) : StoredDoc :=
  {| doc_Id := doc_Id d; doc_Database := doc_Database d; doc_Fullpath := doc_Fullpath d;
     doc_Collection := doc_Collection d; doc_CollectionHash := doc_CollectionHash d; doc_Parent := doc_Parent d;
     doc_UpdatedAt := updatedAt; doc_CreatedAt := doc_CreatedAt d; doc_Version := version;
     doc_Data := data; doc_Deleted := deleted |}.

(** The effect of storing [r] in [m], in place of what its key held. *)
Definition stores (m : db) (c : string) (before : option row) (r : row) (w : option effect) : Prop :=
  rows m c !! doc_Id (row_doc r) = before /\
  w = Some {| eff_coll := c; eff_key := doc_Id (row_doc r); eff_before := before; eff_after := r |}.

(** The row after the [$inc] and the [$set] of an update. *)
Definition bump_with (apply : set_item -> row -> row) (u : update) (old : row) : row :=
  let d := row_doc old in
  fold_left (flip apply) (upd_Set u)
    (Row (set_doc (doc_UpdatedAt d) (doc_Version d + upd_IncVersion u) (doc_Data d) (doc_Deleted d) d) (row_expires old)).

(** ** What the driver documents *)
Class MongoDB := {
  (** One condition on one field of a row. *)
  cond_holds : string -> cond -> row -> bool;
  apply_set : set_item -> row -> row;
  decode : row -> res mongo_error StoredDoc;
  (** The size of a row on the wire, and of a document from [bson.Marshal]. *)
  raw_size : row -> Z;
  marshal_size : StoredDoc -> res mongo_error Z;
  (** [answers e m w x]: in database [m] the call [e] may write [w] and answer [x].
      A write that reports an error may have happened. *)
  answers : forall {X}, mongoE X -> db -> option effect -> X -> Prop;

  cond_id s r : cond_holds "_id" (Is (VString s)) r = String.eqb (doc_Id (row_doc r)) s;
  cond_database s r : cond_holds "database" (Is (VString s)) r = String.eqb (doc_Database (row_doc r)) s;
  cond_deleted r : cond_holds "deleted" (Is (VBool true)) r = doc_Deleted (row_doc r);
  cond_live r : cond_holds "deleted" (Op "$ne" (VBool true)) r = negb (doc_Deleted (row_doc r));
  cond_version n r : cond_holds "version" (Op "$eq" (VInt KInt64 n)) r = (doc_Version (row_doc r) =? n);

  apply_data data r : apply_set (SetData data) r =
    let d := row_doc r in Row (set_doc (doc_UpdatedAt d) (doc_Version d) data (doc_Deleted d) d) (row_expires r);
  apply_updated now r : apply_set (SetUpdatedAt now) r =
    let d := row_doc r in Row (set_doc now (doc_Version d) (doc_Data d) (doc_Deleted d) d) (row_expires r);
  apply_deleted b r : apply_set (SetDeleted b) r =
    let d := row_doc r in Row (set_doc (doc_UpdatedAt d) (doc_Version d) (doc_Data d) b d) (row_expires r);
  apply_expires t r : apply_set (SetExpires t) r = Row (row_doc r) (Some t);
  (** A path into the data leaves the other fields of the row alone. *)
  apply_field k v r : exists data, apply_set (SetDataField k v) r =
    let d := row_doc r in Row (set_doc (doc_UpdatedAt d) (doc_Version d) data (doc_Deleted d) d) (row_expires r);

  decode_doc r d : decode r = Ok d -> d = row_doc r;

  answers_clone c m w x : answers (ClonePrimary c) m w x -> w = None;
  answers_find p c f m w x : answers (FindOne p c f) m w x -> w = None;
  answers_count c f m w x : answers (CountDocuments c f) m w x -> w = None;
  answers_now m w x : answers Now m w x -> w = None;
  answers_found c f m w r : answers (FindOne true c f) m w (Ok (Some r)) ->
    rows m c !! doc_Id (row_doc r) = Some r /\ map_Forall (fun k cd => cond_holds k cd r = true) f;
  (** The primary has no document that matches. *)
  answers_absent c f m w : answers (FindOne true c f) m w (Ok None) ->
    forall r, rows m c !! doc_Id (row_doc r) = Some r -> ~ map_Forall (fun k cd => cond_holds k cd r = true) f;
  answers_insert c r m w x : answers (InsertOne c r) m w x ->
    match x with
    | Ok _ => stores m c None r w
    | Err DuplicateKey => w = None
    | Err _ => w = None \/ stores m c None r w
    end;
  answers_replace c f r m w x : answers (ReplaceOne c f r) m w x ->
    let replaced := exists old, stores m c (Some old) r w /\ map_Forall (fun k cd => cond_holds k cd old = true) f in
    match x with
    | Ok n => (n = 0 /\ w = None) \/ (n = 1 /\ replaced)
    | Err _ => w = None \/ replaced
    end;
  answers_update c f u m w x : answers (UpdateOne c f u) m w x ->
    let changed := exists old, stores m c (Some old) (bump_with apply_set u old) w
      /\ map_Forall (fun k cd => cond_holds k cd old = true) f in
    match x with
    | Ok n => (n = 0 /\ w = None) \/ (n = 1 /\ changed)
    | Err _ => w = None \/ changed
    end;
}.

(** ** Executions *)
Section Exec.
Context `{MongoDB}.

(** [exec env p m ws m' a]: the program runs from database [m] to [m'] and returns
    [a]; [ws] are its own writes in order. Before each of its calls and at the end
    other clients take any number of steps of [env]. *)
Fixpoint exec (env : db -> db -> Prop) {A} (p : mprog A) (m : db) (ws : list effect) (m' : db) (a : A) : Prop :=
  match p with
  | Ret b => rtc env m m' /\ ws = [] /\ a = b
  | Call e k => exists m1 w x ws', rtc env m m1 /\ answers e m1 w x /\
      exec env (k x) (from_option (perform m1) m1 w) ws' m' a /\ ws = option_list w ++ ws'
  end.

(** [yields env I p Q]: from a database with the invariant [I] every execution of
    [p] keeps it, and its writes and its answer satisfy [Q]. *)
Definition yields (env : db -> db -> Prop) (I : db -> Prop) {A} (p : mprog A) (Q : list effect -> A -> Prop) : Prop :=
  forall m ws m' a, I m -> exec env p m ws m' a -> I m' /\ Q ws a.

(** The same with the states [vs] in which the calls were answered, in order. *)
Fixpoint exec_seen (env : db -> db -> Prop) {A} (p : mprog A) (m : db) (vs : list db) (ws : list effect) (m' : db) (a : A) : Prop :=
  match p with
  | Ret b => rtc env m m' /\ vs = [] /\ ws = [] /\ a = b
  | Call e k => exists m1 w x vs' ws', rtc env m m1 /\ answers e m1 w x /\
      exec_seen env (k x) (from_option (perform m1) m1 w) vs' ws' m' a /\ vs = m1 :: vs' /\ ws = option_list w ++ ws'
  end.

(** A state in which some call was answered. *)
Definition answering (m : db) : Prop := exists X (e : mongoE X) w x, answers e m w x.

Lemma exec_has_seen env {A} (p : mprog A) m ws m' a : exec env p m ws m' a -> exists vs, exec_seen env p m vs ws m' a.
Proof.
  revert m ws. induction p as [b|X e k IH]; intros m ws; cbn; [naive_solver|].
  intros (m1 & w & x & ws' & Hr & Ha & [vs Hx]%IH & ->). exists (m1 :: vs), m1, w, x, vs, ws'. auto.
Qed.

Lemma exec_seen_bind_inv env {A B} (p : mprog A) (k : A -> mprog B) m vs ws m' b :
  exec_seen env (prog_bind k p) m vs ws m' b ->
  exists v1 w1 m1 a v2 w2, exec_seen env p m v1 w1 m1 a /\ exec_seen env (k a) m1 v2 w2 m' b /\ vs = v1 ++ v2 /\ ws = w1 ++ w2.
Proof.
  revert m vs ws. induction p as [a|X e q IH]; intros m vs ws Hx; cbn in Hx |- *.
  - exists [], [], m, a, vs, ws. repeat split; [constructor|exact Hx].
  - destruct Hx as (m1 & w & x & vs' & ws' & Hr & Ha & Hx & -> & ->).
    destruct (IH x _ _ _ Hx) as (v1 & w1 & m2 & a & v2 & w2 & H1 & H2 & -> & ->).
    exists (m1 :: v1), (option_list w ++ w1), m2, a, v2, w2. rewrite app_assoc. repeat split; [|exact H2].
    exists m1, w, x, v1, w1. auto.
Qed.

Section Rules.
Context (env : db -> db -> Prop) (I : db -> Prop) (Henv : forall m m1, I m -> env m m1 -> I m1).
Local Abbreviation yields := (yields env I).

Lemma env_keeps m m1 : I m -> rtc env m m1 -> I m1.
Proof. intros Hm Hr. induction Hr; eauto. Qed.

Lemma yields_ret {A} (a : A) (Q : list effect -> A -> Prop) : Q [] a -> yields (Ret a) Q.
Proof. intros HQ m ws m' b Hm (Hr & -> & ->). eauto using env_keeps. Qed.

Lemma yields_weaken {A} (p : mprog A) (Q R : list effect -> A -> Prop) :
  yields p Q -> (forall ws a, Q ws a -> R ws a) -> yields p R.
Proof. intros Hp HQR m ws m' a Hm Hx. destruct (Hp m ws m' a Hm Hx); auto. Qed.

Lemma exec_leaves {A} (P : A -> Prop) (p : mprog A) m ws m' a : leaves P p -> exec env p m ws m' a -> P a.
Proof.
  revert m ws. induction p as [b|X e k IH]; intros m ws Hl; cbn.
  - by intros (_ & _ & ->).
  - intros (m1 & w & x & ws' & _ & _ & Hx & _). by eapply IH.
Qed.

Lemma exec_env_l {A} (p : mprog A) m m1 ws m' a : rtc env m m1 -> exec env p m1 ws m' a -> exec env p m ws m' a.
Proof.
  intros Hr. destruct p as [b|X e k]; cbn.
  - intros (Hr' & -> & ->). split; [by etrans|done].
  - intros (m2 & w & x & ws' & Hr' & Hx). exists m2, w, x, ws'. split; [by etrans|done].
Qed.

Lemma exec_bind_inv {A B} (p : mprog A) (k : A -> mprog B) m ws m' b :
  exec env (prog_bind k p) m ws m' b ->
  exists w1 m1 a w2, exec env p m w1 m1 a /\ exec env (k a) m1 w2 m' b /\ ws = w1 ++ w2.
Proof.
  revert m ws. induction p as [a|X e q IH]; intros m ws Hx; cbn in Hx |- *.
  - exists [], m, a, ws. repeat split; [constructor|exact Hx].
  - destruct Hx as (m1 & w & x & ws' & Hr & Ha & Hx & ->).
    destruct (IH x _ _ Hx) as (w1 & m2 & a & w2 & H1 & H2 & ->).
    exists (option_list w ++ w1), m2, a, w2. rewrite app_assoc. repeat split; [|exact H2].
    exists m1, w, x, w1. auto.
Qed.

Lemma yields_bind {A B} (p : mprog A) (k : A -> mprog B) (Q : list effect -> A -> Prop) (R : list effect -> B -> Prop) :
  yields p Q ->
  (forall w1 a, Q w1 a -> yields (k a) (fun w2 => R (w1 ++ w2))) ->
  yields (p ≫= k) R.
Proof.
  intros Hp Hk m ws m' b Hm Hx.
  apply exec_bind_inv in Hx as (w1 & m1 & a & w2 & H1 & H2 & ->).
  destruct (Hp _ _ _ _ Hm H1) as [Hm1 HQ]. exact (Hk w1 a HQ _ _ _ _ Hm1 H2).
Qed.

Lemma yields_call {X} (e : mongoE X) (Q : list effect -> X -> Prop) :
  (forall m w x, I m -> answers e m w x -> I (from_option (perform m) m w) /\ Q (option_list w) x) ->
  yields (call e) Q.
Proof.
  intros He m ws m' x Hm (m1 & w & y & ws' & Hr & Ha & (Hr' & -> & ->) & ->).
  rewrite app_nil_r. destruct (He m1 w y (env_keeps _ _ Hm Hr) Ha). eauto using env_keeps.
Qed.

Lemma yields_try {E A B} (p : mprog (res E A)) (k : A -> mprog (res E B))
    (Q : list effect -> res E A -> Prop) (R : list effect -> res E B -> Prop) :
  yields p Q ->
  (forall w e, Q w (Err e) -> R w (Err e)) ->
  (forall w1 a, Q w1 (Ok a) -> yields (k a) (fun w2 => R (w1 ++ w2))) ->
  yields (try p k) R.
Proof.
  intros Hp HE HK. eapply yields_bind; [exact Hp|]. intros w1 [a|e] Hq; [by apply HK|].
  apply yields_ret. rewrite app_nil_r. auto.
Qed.
End Rules.
End Exec.

(** ** The database seen only in some states

    Its calls are answered in the states of [S] alone; so what holds of every database
    holds of an execution with [S] the states it went through. *)
Definition watched `{MongoDB} (S : db -> Prop) : MongoDB.
Proof.
  refine {| cond_holds := cond_holds; apply_set := apply_set; decode := decode; raw_size := raw_size; marshal_size := marshal_size;
            answers := fun X e m w x => answers e m w x /\ S m |}.
  - exact cond_id. - exact cond_database. - exact cond_deleted. - exact cond_live. - exact cond_version.
  - exact apply_data. - exact apply_updated. - exact apply_deleted. - exact apply_expires. - exact apply_field. - exact decode_doc.
  - intros c m w x [Ha _]. by eapply answers_clone.
  - intros p c f m w x [Ha _]. by eapply answers_find.
  - intros c f m w x [Ha _]. by eapply answers_count.
  - intros m w x [Ha _]. by eapply answers_now.
  - intros c f m w r [Ha _]. by eapply answers_found.
  - intros c f m w [Ha _]. by eapply answers_absent.
  - intros c r m w x [Ha _]. by apply answers_insert.
  - intros c f r m w x [Ha _]. by apply answers_replace.
  - intros c f u m w x [Ha _]. by apply answers_update.
Defined.

Section Watched.
Context `{MongoDB} (env : db -> db -> Prop).

Lemma answering_watched S m : answering (H := watched S) m -> S m.
Proof. by intros (X & e & w & x & _ & HS). Qed.

Lemma exec_seen_watched (S : db -> Prop) {A} (p : mprog A) m vs ws m' a :
  exec_seen env p m vs ws m' a -> Forall S vs -> exec (H := watched S) env p m ws m' a.
Proof.
  revert m vs ws. induction p as [b|X e k IH]; intros m vs ws; cbn; [by intros (? & _ & -> & ->)|].
  intros (m1 & w & x & vs' & ws' & Hr & Ha & Hx & -> & ->) [HS Hall]%Forall_cons. exists m1, w, x, ws'.
  split; [done|]. split; [by split|]. split; [by eapply IH|done].
Qed.

(** [yields] with the states of the execution. *)
Definition yields_seen (I : db -> Prop) {A} (p : mprog A) (Q : list db -> list effect -> A -> Prop) : Prop :=
  forall m vs ws m' a, I m -> exec_seen env p m vs ws m' a -> I m' /\ Q vs ws a.

Lemma yields_watched (I : db -> Prop) {A} (p : mprog A) (Q : (db -> Prop) -> list effect -> A -> Prop) :
  (forall S, yields (H := watched S) env I p (Q S)) -> yields_seen I p (fun vs => Q (fun m => m ∈ vs)).
Proof. intros Hp m vs ws m' a Hm Hx. apply (Hp (fun m => m ∈ vs) m ws m' a Hm). eapply exec_seen_watched; [exact Hx|]. by apply Forall_forall. Qed.

Lemma yields_seen_ret (I : db -> Prop) {A} (a : A) (Q : list db -> list effect -> A -> Prop) :
  (forall m m1, I m -> env m m1 -> I m1) -> Q [] [] a -> yields_seen I (Ret a) Q.
Proof. intros Henv HQ m vs ws m' b Hm (Hr & -> & -> & ->). split; [by eapply env_keeps|done]. Qed.

Lemma yields_seen_try (I : db -> Prop) {E A B} (p : mprog (res E A)) (k : A -> mprog (res E B))
    (Q : list db -> list effect -> res E A -> Prop) (R : list db -> list effect -> res E B -> Prop) :
  (forall m m1, I m -> env m m1 -> I m1) -> yields_seen I p Q ->
  (forall v w e, Q v w (Err e) -> R v w (Err e)) ->
  (forall v1 w1 a, Q v1 w1 (Ok a) -> yields_seen I (k a) (fun v2 w2 => R (v1 ++ v2) (w1 ++ w2))) ->
  yields_seen I (try p k) R.
Proof.
  intros Henv Hp HE HK m vs ws m' b Hm Hx. apply exec_seen_bind_inv in Hx as (v1 & w1 & m1 & [a|e] & v2 & w2 & H1 & H2 & -> & ->);
    destruct (Hp _ _ _ _ _ Hm H1) as [Hm1 HQ]; [exact (HK v1 w1 a HQ _ _ _ _ _ Hm1 H2)|].
  destruct H2 as (Hr & -> & -> & ->). rewrite !app_nil_r. split; [by eapply env_keeps|by apply HE].
Qed.
End Watched.

(** * A database for the Mongo interface

    A deterministic database without faults that satisfies [MongoDB]: it answers
    each call from the rows, and [run] executes programs on it. *)
Definition field_value (k : string) (r : row) : option value :=
  let d := row_doc r in
  if String.eqb k "_id" then Some (VString (doc_Id d))
  else if String.eqb k "database" then Some (VString (doc_Database d))
  else if String.eqb k "version" then Some (VInt KInt64 (doc_Version d))
  else if String.eqb k "deleted" then if doc_Deleted d then Some (VBool true) else None
  else None.

Definition model_cond (k : string) (c : cond) (r : row) : bool :=
  match c, field_value k r with
  | (Is (VString s) | Op "$eq" (VString s)), Some (VString t) => String.eqb t s
  | (Is (VBool b) | Op "$eq" (VBool b)), Some (VBool c) => Bool.eqb c b
  | (Is (VInt _ i) | Op "$eq" (VInt _ i)), Some (VInt _ j) => j =? i
  | Op "$ne" (VBool b), Some (VBool c) => negb (Bool.eqb c b)
  | Op "$ne" _, None => true
  | _, _ => false
  end.

Definition model_set (i : set_item) (r : row) : row :=
  let d := row_doc r in
  match i with
  | SetData data => Row (set_doc (doc_UpdatedAt d) (doc_Version d) data (doc_Deleted d) d) (row_expires r)
  | SetDataField k v => Row (set_doc (doc_UpdatedAt d) (doc_Version d) (<[k := v]> (doc_Data d)) (doc_Deleted d) d) (row_expires r)
  | SetUpdatedAt now => Row (set_doc now (doc_Version d) (doc_Data d) (doc_Deleted d) d) (row_expires r)
  | SetDeleted b => Row (set_doc (doc_UpdatedAt d) (doc_Version d) (doc_Data d) b d) (row_expires r)
  | SetExpires t => Row d (Some t)
  end.

(** Rows are stored under their identifier. *)
Definition model_matches (f : mfilter) (r : row) : bool := forallb (fun kc => model_cond kc.1 kc.2 r) (map_to_list f).
Definition model_find (m : db) (c : string) (f : mfilter) : option row :=
  snd <$> (snd <$> list_find (fun kr => bool_decide (kr.1 = doc_Id (row_doc kr.2)) && model_matches f kr.2)
                     (map_to_list (rows m c))).

Definition model_store (c : string) (before : option row) (r : row) : option effect :=
  Some {| eff_coll := c; eff_key := doc_Id (row_doc r); eff_before := before; eff_after := r |}.

(** The effect and the answer of a call. A replacement under another identifier
    is refused. *)
Definition handle {X} (e : mongoE X) (m : db) : option effect * X :=
  match e with
  | ClonePrimary _ => (None, Ok tt)
  | FindOne _ c f => (None, Ok (model_find m c f))
  | InsertOne c r =>
      match rows m c !! doc_Id (row_doc r) with
      | Some _ => (None, Err DuplicateKey)
      | None => (model_store c None r, Ok tt)
      end
  | ReplaceOne c f r =>
      match model_find m c f with
      | None => (None, Ok 0)
      | Some old => if bool_decide (doc_Id (row_doc old) = doc_Id (row_doc r)) then (model_store c (Some old) r, Ok 1)
                    else (None, Err (OtherFailure "immutable field"))
      end
  | UpdateOne c f u =>
      match model_find m c f with
      | None => (None, Ok 0)
      | Some old => (model_store c (Some old) (bump_with model_set u old), Ok 1)
      end
  | CountDocuments c f => (None, Ok (match model_find m c f with Some _ => 1 | None => 0 end))
  | Now => (None, 1000)
  end.

Lemma model_find_Some m c f r :
  model_find m c f = Some r ->
  rows m c !! doc_Id (row_doc r) = Some r /\ map_Forall (fun k cd => model_cond k cd r = true) f.
Proof.
  unfold model_find. destruct (list_find _ _) as [[i [k r']]|] eqn:E; [|done]. cbn. intros [= ->].
  apply list_find_Some in E as (Hl & Hp%Is_true_true & _). cbn in Hp.
  apply andb_true_iff in Hp as [Hk%bool_decide_eq_true Hm]. split.
  - rewrite <- Hk. apply elem_of_map_to_list. by eapply list_elem_of_lookup_2.
  - intros k' cd Hcd. unfold model_matches in Hm. rewrite forallb_forall in Hm.
    apply (Hm (k', cd)). apply list_elem_of_In. by apply elem_of_map_to_list.
Qed.

Lemma model_find_None m c f r :
  model_find m c f = None -> rows m c !! doc_Id (row_doc r) = Some r -> ~ map_Forall (fun k cd => model_cond k cd r = true) f.
Proof.
  unfold model_find. destruct (list_find _ _) as [[i [k r']]|] eqn:E; [done|]. intros _ Hl Hf.
  apply list_find_None in E. rewrite Forall_forall in E. apply (E (doc_Id (row_doc r), r)); [by apply elem_of_map_to_list|].
  apply Is_true_true. cbn. rewrite bool_decide_true by done. apply forallb_forall. intros [k cd] Hin.
  apply (Hf k cd), elem_of_map_to_list. by apply list_elem_of_In.
Qed.

Lemma model_set_id i r : doc_Id (row_doc (model_set i r)) = doc_Id (row_doc r).
Proof. by destruct i. Qed.
Lemma model_bump_id u r : doc_Id (row_doc (bump_with model_set u r)) = doc_Id (row_doc r).
Proof.
  unfold bump_with. set (r0 := Row _ _). change (doc_Id (row_doc r)) with (doc_Id (row_doc r0)). clearbody r0.
  revert r0. induction (upd_Set u) as [|i l IH]; intros r0; [done|]. cbn [fold_left]. rewrite IH. apply model_set_id.
Qed.

Definition model_mongo : MongoDB.
Proof.
  refine {| cond_holds := model_cond; apply_set := model_set; decode := fun r => Ok (row_doc r);
            raw_size := fun _ => 100; marshal_size := fun _ => Ok 100;
            answers := fun X e m w x => handle e m = (w, x) |}; try done.
  - intros r. unfold model_cond, field_value. cbn. by destruct (doc_Deleted (row_doc r)).
  - intros r. unfold model_cond, field_value. cbn. by destruct (doc_Deleted (row_doc r)).
  - intros k v r. eexists. reflexivity.
  - intros r d [= <-]. done.
  - by intros c m w x [= <- <-].
  - by intros p c f m w x [= <- <-].
  - by intros c f m w x [= <- <-].
  - by intros m w x [= <- <-].
  - intros c f m w r [= <- Hf]. by apply model_find_Some.
  - intros c f m w [= <- Hf] r. by apply model_find_None.
  - intros c r m w x. cbn. destruct (rows m c !! _) eqn:E; intros [= <- <-]; [done|]. by split.
  - intros c f r m w x. cbn. destruct (model_find m c f) as [old|] eqn:E; [|intros [= <- <-]; by left].
    apply model_find_Some in E as [Hl Hf]. case_bool_decide as Hid; intros [= <- <-]; [|by left].
    right. split; [done|]. exists old. split; [|done]. rewrite Hid in Hl. by split.
  - intros c f u m w x. cbn. destruct (model_find m c f) as [old|] eqn:E; [|intros [= <- <-]; by left].
    apply model_find_Some in E as [Hl Hf]. intros [= <- <-]. right. split; [done|]. exists old. split; [|done].
    split; [|done]. by rewrite model_bump_id.
Defined.

#[local] Existing Instance model_mongo.

(** ** Running a program without interference *)
Fixpoint run {A} (p : mprog A) (m : db) : db * list effect * A :=
  match p with
  | Ret a => (m, [], a)
  | Call e k =>
      let '(w, x) := handle e m in
      let '(m', ws, a) := run (k x) (from_option (perform m) m w) in
      (m', option_list w ++ ws, a)
  end.

Lemma run_exec {A} (p : mprog A) env m m' ws a : run p m = (m', ws, a) -> exec env p m ws m' a.
Proof.
  revert m m' ws a. induction p as [b|X e k IH]; intros m m' ws a; cbn.
  - intros [= <- <- <-]. repeat split. constructor.
  - destruct (handle e m) as [w x] eqn:Eh. destruct (run (k x) _) as [[m1 ws1] b] eqn:Er. intros [= <- <- <-].
    exists m, w, x, ws1. split; [constructor|]. split; [exact Eh|]. split; [by apply IH|done].
Qed.
