(* ===== verification/DocumentStore.v ===== *)
(** * The document store: internal/core/storage/mongo/document_store.go, utils.go

    Reads and conditional writes of one document as programs over the database,
    and what each of them did when it returns, whatever other clients do in
    between. *)
From stdpp Require Import base list gmap strings.
From Stdlib Require Import ZArith.
From S2P Require Import Prelude Value Filter Projection Documents Prog Mongo.
Local Open Scope Z_scope.

Inductive storage_error :=
| ErrNotFound | ErrExists | ErrPreconditionFailed | ErrReadBudget
| ErrReadOptions (e : options_error) | ErrMongo (e : mongo_error)
| ErrDatabaseNotFound | ErrDatabaseRequired | ErrSourceScanBudget | ErrSourceScan (what : string).

(** ** Filters: utils.go *)
Definition mapField (field : string) : string :=
  if String.eqb field "_id" then "_id"
  else if String.eqb field "collection" then "collection"
  else if String.eqb field "collectionHash" then "collection_hash"
  else if String.eqb field "updatedAt" then "updated_at"
  else if String.eqb field "createdAt" then "created_at"
  else if String.eqb field "version" then "version"
  else String.append "data." field.

(** No operator is the empty string. *)
Definition mapOp (op : FilterOp) : option string :=
  match op with
  | OpEq => Some "$eq" | OpNe => Some "$ne" | OpGt => Some "$gt" | OpGte => Some "$gte"
  | OpLt => Some "$lt" | OpLte => Some "$lte" | OpIn => Some "$in"
  | _ => None
  end.

Definition add_condition (f : filter) (bsonFilter : mfilter) : mfilter :=
  match mapOp (filter_op f) with
  | None => bsonFilter
  | Some op => <[mapField (filter_field f) := Op op (filter_value f)]> bsonFilter
  end.
Definition makeFilterBSON (filters : list filter) : mfilter := fold_left (flip add_condition) filters ∅.

(** ** Operations *)
Record documentStore := { ds_data : string; ds_sys : string; ds_retention : Z }.

Section Operations.
Context `{MongoDB} (blake3 : bytes -> bytes) (s : documentStore).

Definition getCollection (nameOrPath : string) : string :=
  if String.eqb nameOrPath "sys" || has_prefix "sys/" nameOrPath then ds_sys s else ds_data s.

Definition mongo {A} (r : res mongo_error A) : res storage_error A := map_err ErrMongo r.
Definition mcall {A} (e : mongoE (res mongo_error A)) : mprog (res storage_error A) :=
  r ← call e; Ret (mongo r).

Definition id_filter (database id : string) : mfilter :=
  <["database" := Is (VString database)]> (<["_id" := Is (VString id)]> ∅).

Definition Get (database fullpath : string) (opts : list ReadOptions) : mprog (res storage_error StoredDoc) :=
  match ResolveReadOptions opts with
  | Err e => Ret (Err (ErrReadOptions e))
  | Ok readOpts =>
      let coll := getCollection fullpath in
      let primary := bool_decide (ro_Consistency readOpts = ReadAuthoritative) in
      _ <-! (if primary then mcall (ClonePrimary coll) else Ret (Ok tt));
      let filter := id_filter database (CalculateDatabase blake3 database fullpath) in
      let filter := if ro_ShowDeleted readOpts then filter
                    else <["deleted" := Op "$ne" (VBool true)]> filter in
      found <-! mcall (FindOne primary coll filter);
      match found with
      | None => Ret (Err ErrNotFound)
      | Some r =>
          if (0 <? ro_MaxBytes readOpts) && (ro_MaxBytes readOpts <? raw_size r) then Ret (Err ErrReadBudget)
          else Ret (
            doc ← mongo (decode r);
            if 0 <? ro_MaxBytes readOpts then
              size ← mongo (marshal_size doc);
              if ro_MaxBytes readOpts <? size then Err ErrReadBudget else Ok doc
            else Ok doc)
      end
  end.

(** The document Create stores: derived fields filled, deletion reset. *)
Definition create_doc (database : string) (doc : StoredDoc) : StoredDoc :=
  {| doc_Id := doc_Id doc; doc_Database := database; doc_Fullpath := doc_Fullpath doc;
     doc_Collection := doc_Collection doc;
     doc_CollectionHash := if String.eqb (doc_CollectionHash doc) ""
                           then CalculateCollectionHash blake3 (doc_Collection doc)
                           else doc_CollectionHash doc;
     doc_Parent := doc_Parent doc; doc_UpdatedAt := doc_UpdatedAt doc; doc_CreatedAt := doc_CreatedAt doc;
     doc_Version := doc_Version doc; doc_Data := doc_Data doc; doc_Deleted := false |}.

Definition Create (database : string) (doc : StoredDoc) : mprog (res storage_error unit) :=
  let coll := getCollection (doc_Collection doc) in
  let doc := create_doc database doc in
  inserted ← call (InsertOne coll (Row doc None));
  match inserted with
  | Err DuplicateKey =>
      let id := CalculateDatabase blake3 database (doc_Fullpath doc) in
      existing <-! mcall (FindOne false coll (id_filter database id));
      match existing with
      | None => Ret (Err ErrExists)
      | Some r =>
          match mongo (decode r) with
          | Err e => Ret (Err e)
          | Ok existingDoc =>
              if negb (doc_Deleted existingDoc) then Ret (Err ErrExists)
              else
                matched <-! mcall (ReplaceOne coll (<["deleted" := Is (VBool true)]> (id_filter database id)) (Row doc None));
                Ret (if matched =? 0 then Err ErrExists else Ok tt)
          end
      end
  | r => Ret (mongo r)
  end.

(** The filter of a conditional write on a live document. *)
Definition write_filter (database id : string) (precond : list filter) : mfilter :=
  <["deleted" := Op "$ne" (VBool true)]> (<["database" := Is (VString database)]>
    (<["_id" := Is (VString id)]> (makeFilterBSON precond))).

(** A zero match is a missing document or a failed condition; an error of the
    count is ignored and leaves it at zero. *)
Definition unmatched (database id coll : string) : mprog storage_error :=
  count ← call (CountDocuments coll (id_filter database id));
  Ret (match count with Ok n => if n =? 0 then ErrNotFound else ErrPreconditionFailed | Err _ => ErrNotFound end).

Definition Update (database path : string) (data : Document) (precond : list filter) : mprog (res storage_error unit) :=
  let coll := getCollection path in
  let id := CalculateDatabase blake3 database path in
  now ← call Now;
  matched <-! mcall (UpdateOne coll (write_filter database id precond)
                       {| upd_Set := [SetData data; SetUpdatedAt now]; upd_IncVersion := 1 |});
  if matched =? 0 then e ← unmatched database id coll; Ret (Err e) else Ret (Ok tt).

Definition Patch (database path : string) (data : Document) (precond : list filter) : mprog (res storage_error unit) :=
  let coll := getCollection path in
  let id := CalculateDatabase blake3 database path in
  now ← call Now;
  let sets := SetUpdatedAt now :: ((fun '(k, v) => SetDataField k v) <$> map_to_list data) in
  matched <-! mcall (UpdateOne coll (write_filter database id precond) {| upd_Set := sets; upd_IncVersion := 1 |});
  if matched =? 0 then e ← unmatched database id coll; Ret (Err e) else Ret (Ok tt).

Definition Delete (database path : string) (precond : list filter) : mprog (res storage_error unit) :=
  let coll := getCollection path in
  let id := CalculateDatabase blake3 database path in
  updated ← call Now;
  now ← call Now;
  matched <-! mcall (UpdateOne coll (write_filter database id precond)
                       {| upd_Set := [SetDeleted true; SetData ∅; SetUpdatedAt updated; SetExpires (now + ds_retention s)];
                          upd_IncVersion := 1 |});
  if negb (matched =? 0) then Ret (Ok tt)
  else
    e ← unmatched database id coll;
    match e with
    | ErrNotFound => Ret (Err ErrNotFound)
    | _ =>
        found ← call (FindOne false coll (id_filter database id));
        Ret (Err (match found with
                  | Ok (Some r) => match decode r with
                                   | Ok doc => if doc_Deleted doc then ErrNotFound else ErrPreconditionFailed
                                   | Err _ => ErrPreconditionFailed
                                   end
                  | _ => ErrPreconditionFailed
                  end))
    end.
End Operations.

(** ** What the operations do *)

Definition bump `{MongoDB} : update -> row -> row := bump_with apply_set.

(** Two rows of the same document, one version apart. *)
Definition next_version (old new : row) : Prop :=
  exists t data deleted, row_doc new = set_doc t (doc_Version (row_doc old) + 1) data deleted (row_doc old).

Lemma apply_sets_keep `{MongoDB} l r :
  exists t data deleted e, fold_left (flip apply_set) l r
    = Row (set_doc t (doc_Version (row_doc r)) data deleted (row_doc r)) e.
Proof.
  revert r; induction l as [|i l IH]; intros r; cbn [fold_left].
  - exists (doc_UpdatedAt (row_doc r)), (doc_Data (row_doc r)), (doc_Deleted (row_doc r)), (row_expires r).
    by destruct r as [[] ?].
  - destruct (IH (flip apply_set r i)) as (t & data & deleted & e & ->). unfold flip.
    destruct i as [d|k v|now|b|x]; [rewrite apply_data|destruct (apply_field k v r) as [d ->]|rewrite apply_updated
      |rewrite apply_deleted|rewrite apply_expires]; cbn; eauto.
Qed.

Lemma bump_next `{MongoDB} l old : next_version old (bump {| upd_Set := l; upd_IncVersion := 1 |} old).
Proof.
  unfold bump, bump_with, next_version; cbn [upd_Set upd_IncVersion].
  edestruct (apply_sets_keep l) as (t & data & deleted & e & ->). cbn. by exists t, data, deleted.
Qed.

Section Contract.
Context `{MongoDB} (blake3 : bytes -> bytes) (s : documentStore).
Context (env : db -> db -> Prop) (J : string -> string -> row -> Prop).

(** Every row satisfies [J]. *)
Definition all_rows (m : db) : Prop := forall c k r, rows m c !! k = Some r -> J c k r.

Context (Henv : forall m m1, all_rows m -> env m m1 -> all_rows m1).
Context (Hnext : forall c k old new, J c k old -> next_version old new -> J c k new).

Lemma all_rows_perform m w : all_rows m -> J (eff_coll w) (eff_key w) (eff_after w) -> all_rows (perform m w).
Proof.
  intros Hm Hw c k r. rewrite rows_perform. case_decide as Hc; [|apply Hm]; subst.
  rewrite lookup_insert_Some. intros [[<- <-]|[_ Hr]]; [done|by apply Hm].
Qed.

Local Abbreviation yields := (yields env all_rows).

Lemma yields_read {A} (e : mongoE (res mongo_error A)) (Q : list effect -> res storage_error A -> Prop) :
  (forall m w x, all_rows m -> answers e m w x -> w = None /\ Q [] (mongo x)) -> yields (mcall e) Q.
Proof.
  intros He. eapply (yields_bind _ _ _ _ (fun ws x => ws = [] /\ Q [] (mongo x))).
  - apply yields_call; [done|]. intros m w x Hm Ha. destruct (He m w x Hm Ha) as [-> HQ]. auto.
  - cbn beta. intros w1 a [-> HQ]. by apply yields_ret.
Qed.

(** The document is stored and not deleted. *)
Definition live (m : db) (database path : string) : Prop :=
  let id := CalculateDatabase blake3 database path in
  exists r, rows m (getCollection s path) !! id = Some r /\ doc_Id (row_doc r) = id /\
    doc_Database (row_doc r) = database /\ doc_Deleted (row_doc r) = false.

(** An authoritative read writes nothing and answers a row of the document; it finds
    none, or a tombstone, only in a state where the document is not live. *)
Definition read_post (database path : string) (ws : list effect) (r : res storage_error StoredDoc) : Prop :=
  ws = [] /\ match r with
             | Ok d => exists row, row_doc row = d /\ doc_Database d = database /\
                 doc_Id d = CalculateDatabase blake3 database path /\ J (getCollection s path) (doc_Id d) row
             | Err _ => True
             end /\
  (r = Err ErrNotFound \/ (exists d, r = Ok d /\ doc_Deleted d = true) -> exists m, answering m /\ ~ live m database path).

Lemma live_filter m database path r (o : bool) : live m database path -> rows m (getCollection s path) !! CalculateDatabase blake3 database path = Some r ->
  let f := id_filter database (CalculateDatabase blake3 database path) in
  map_Forall (fun k cd => cond_holds k cd r = true) (if o then f else <["deleted" := Op "$ne" (VBool true)]> f).
Proof.
  intros (r' & Hr' & Hid & Hdb & Hl) Hr. rewrite Hr in Hr'. injection Hr' as <-. cbn zeta.
  assert (map_Forall (fun k cd => cond_holds k cd r = true) (id_filter database (CalculateDatabase blake3 database path))) as Hf.
  { unfold id_filter. apply map_Forall_insert_2; [by rewrite cond_database, Hdb, String.eqb_refl|].
    apply map_Forall_insert_2; [by rewrite cond_id, Hid, String.eqb_refl|apply map_Forall_empty]. }
  destruct o; [done|]. apply map_Forall_insert_2; [by rewrite cond_live, Hl|done].
Qed.

Lemma Get_reads database path opts :
  (forall o, ResolveReadOptions opts = Ok o -> ro_Consistency o = ReadAuthoritative) ->
  yields (Get blake3 s database path opts) (read_post database path).
Proof.
  intros Ho. unfold Get, read_post. destruct (ResolveReadOptions opts) as [o|e] eqn:Hr; [|apply yields_ret; [done|]; split_and!; [done|done|naive_solver]].
  rewrite bool_decide_eq_true_2 by auto. cbn [try].
  eapply (yields_try _ _ Henv _ _ (fun ws r => ws = [] /\ forall e, r = Err e -> exists e', e = ErrMongo e')).
  { apply yields_read. intros m w x _ Ha. split; [by eapply answers_clone|]. split; [done|]. destruct x; naive_solver. }
  { intros w e [-> He]. destruct (He e eq_refl) as [e' ->]. split_and!; [done|done|naive_solver]. }
  intros ? ? [-> _]. cbn [app].
  eapply (yields_try _ _ Henv _ _ (fun ws x => ws = [] /\ match x with
    | Ok (Some r) => (J (getCollection s path) (doc_Id (row_doc r)) r /\ doc_Database (row_doc r) = database
        /\ doc_Id (row_doc r) = CalculateDatabase blake3 database path) /\
        (doc_Deleted (row_doc r) = true -> exists m, answering m /\ ~ live m database path)
    | Ok None => exists m, answering m /\ ~ live m database path
    | Err e => exists e', e = ErrMongo e' end)); [|intros w e; cbn beta; intros [-> [e' ->]]; split_and!; [done|done|naive_solver]|].
  - apply yields_read. intros m w x Hm Ha. split; [by eapply answers_find|]. split; [done|].
    assert (answering m) as Hans by (unfold answering; eauto).
    destruct x as [[r|]|e]; cbn [mongo map_err]; [| |by eexists].
    + apply answers_found in Ha as [Hl Hf]. rewrite map_Forall_lookup in Hf.
      assert (doc_Database (row_doc r) = database) as Hdb.
      { apply String.eqb_eq. rewrite <- cond_database. apply Hf. unfold id_filter.
        case_match; [|rewrite lookup_insert_ne by done]; by rewrite lookup_insert_eq. }
      assert (doc_Id (row_doc r) = CalculateDatabase blake3 database path) as Hid.
      { apply String.eqb_eq. rewrite <- cond_id. apply Hf. unfold id_filter.
        case_match; [|rewrite lookup_insert_ne by done]; rewrite lookup_insert_ne by done; by rewrite lookup_insert_eq. }
      split; [split_and!; [by eapply Hm|done|done]|]. intros Hdel. exists m. split; [done|]. intros (r' & Hr' & _ & _ & Hlive).
      rewrite <- Hid, Hl in Hr'. injection Hr' as <-. congruence.
    + exists m. split; [done|]. intros Hlive. pose proof Hlive as (r & Hrow & Hid & _).
      eapply (answers_absent _ _ _ _ Ha r); [by rewrite Hid|by eapply live_filter].
  - intros w1 [r|]; cbn beta iota; intros [-> Hrow].
    2: { cbn [app]. apply yields_ret; [done|]. by split_and!. }
    destruct Hrow as [Hrow Hgone]. cbn [app].
    case_match; [apply yields_ret; [done|]; split_and!; [done|done|naive_solver]|]. apply (yields_ret _ _ Henv).
    destruct (decode r) as [d|e] eqn:Hd; [|cbn; split_and!; [done|done|naive_solver]]. apply decode_doc in Hd as ->. cbn.
    assert (exists row, row_doc row = row_doc r /\ doc_Database (row_doc r) = database /\
      doc_Id (row_doc r) = CalculateDatabase blake3 database path /\ J (getCollection s path) (doc_Id (row_doc r)) row)
      by (exists r; tauto).
    destruct (0 <? _); [|split_and!; [done|done|naive_solver]].
    destruct (marshal_size (row_doc r)) as [a0|]; cbn; [|split_and!; [done|done|naive_solver]].
    destruct (_ <? a0); split_and!; try done; naive_solver.
Qed.

(** Any read writes nothing. *)
Lemma Get_silent database path opts : yields (Get blake3 s database path opts) (fun ws _ => ws = []).
Proof.
  unfold Get. destruct (ResolveReadOptions opts) as [o|e]; [|by apply yields_ret].
  eapply (yields_try _ _ Henv _ _ (fun ws _ => ws = [])); [|by intros w e ->|].
  { case_bool_decide; [|by apply yields_ret]. apply yields_read. intros m w x _ Ha. split; [by eapply answers_clone|done]. }
  intros ? ? ->. eapply (yields_try _ _ Henv _ _ (fun ws _ => ws = [])); [|by intros w e ->|].
  { apply yields_read. intros m w x Hm Ha. split; [by eapply answers_find|done]. }
  intros ? [r|] ->; [|by apply yields_ret]. destruct (_ && _); by apply yields_ret.
Qed.

(** *** Conditional writes *)

(** What the precondition says of the row: the entries the fixed ones leave. *)
Definition admits (precond : list filter) (r : row) : Prop :=
  map_Forall (fun k cd => cond_holds k cd r = true)
    (delete "deleted" (delete "database" (delete "_id" (makeFilterBSON precond)))).

(** One write, to the row of the document, which was live and satisfied the
    precondition at the moment of the write. *)
Definition conditional (database path : string) (precond : list filter) (sets : list set_item) (ws : list effect) : Prop :=
  exists old, let id := CalculateDatabase blake3 database path in
    ws = [{| eff_coll := getCollection s path; eff_key := id; eff_before := Some old;
             eff_after := bump {| upd_Set := sets; upd_IncVersion := 1 |} old |}] /\
    doc_Id (row_doc old) = id /\ doc_Database (row_doc old) = database /\ doc_Deleted (row_doc old) = false /\
    admits precond old.

(** [written] holds of the writes of an acknowledged call and of nothing else but
    a call whose answer was lost. *)
Definition write_post (written : list effect -> Prop) (ws : list effect) (r : res storage_error unit) : Prop :=
  match r with
  | Ok _ => written ws
  | Err (ErrMongo _) => ws = [] \/ written ws
  | Err _ => ws = []
  end.

Lemma write_filter_holds database id precond r :
  map_Forall (fun k cd => cond_holds k cd r = true) (write_filter database id precond) ->
  doc_Id (row_doc r) = id /\ doc_Database (row_doc r) = database /\ doc_Deleted (row_doc r) = false /\ admits precond r.
Proof.
  unfold write_filter, admits. rewrite !map_Forall_lookup. intros Hf. repeat split.
  - apply String.eqb_eq. rewrite <- cond_id. apply Hf. by rewrite !lookup_insert_ne, lookup_insert_eq by done.
  - apply String.eqb_eq. rewrite <- cond_database. apply Hf. by rewrite lookup_insert_ne, lookup_insert_eq by done.
  - apply negb_true_iff. rewrite <- cond_live. apply Hf. by rewrite lookup_insert_eq.
  - intros k cd Hk. apply Hf. apply lookup_delete_Some in Hk as [? Hk].
    apply lookup_delete_Some in Hk as [? Hk]. apply lookup_delete_Some in Hk as [? Hk].
    by rewrite !lookup_insert_ne by done.
Qed.

Lemma bump_id u r : doc_Id (row_doc (bump u r)) = doc_Id (row_doc r).
Proof. unfold bump, bump_with. edestruct apply_sets_keep as (t & d & del & e & ->). done. Qed.

Lemma UpdateOne_conditional database path precond sets :
  yields (mcall (UpdateOne (getCollection s path) (write_filter database (CalculateDatabase blake3 database path) precond)
                   {| upd_Set := sets; upd_IncVersion := 1 |}))
    (fun ws r => match r with
     | Ok n => (n = 0 /\ ws = []) \/ (n = 1 /\ conditional database path precond sets ws)
     | Err e => exists e', e = ErrMongo e' /\ (ws = [] \/ conditional database path precond sets ws)
     end).
Proof.
  set (Q := conditional database path precond sets).
  eapply (yields_bind _ _ _ _ (fun ws (r : res mongo_error Z) => match r with
     | Ok n => (n = 0 /\ ws = []) \/ (n = 1 /\ Q ws) | Err e => ws = [] \/ Q ws end)).
  - apply yields_call; [done|]. intros m w x Hm Ha. apply answers_update in Ha. cbn zeta in Ha.
    set (changed := exists old, _) in Ha.
    assert (Hc : changed -> all_rows (from_option (perform m) m w) /\ Q (option_list w)).
    { intros (old & [Hl ->] & Hf%write_filter_holds).
      fold bump in Hl |- *. cbn [from_option option_list]. rewrite bump_id in *. split.
      - apply all_rows_perform; [done|]. cbn. eapply Hnext; [by eapply Hm|apply bump_next].
      - exists old. destruct Hf as (-> & Hf). cbn zeta. auto. }
    destruct x as [n|e].
    + destruct Ha as [[-> ->]|[-> Ha]]; [by cbn; auto|]. destruct (Hc Ha). auto.
    + destruct Ha as [->|Ha]; [by cbn; auto|]. destruct (Hc Ha). auto.
  - intros w1 [n|e] Hq; apply yields_ret; try done; rewrite app_nil_r; cbn; eauto.
Qed.

Lemma unmatched_reads database id coll :
  yields (unmatched database id coll) (fun ws e => ws = [] /\ (e = ErrNotFound \/ e = ErrPreconditionFailed)).
Proof.
  unfold unmatched. eapply (yields_bind _ _ _ _ (fun ws _ => ws = [])).
  - apply yields_call; [done|]. intros m w x Hm ->%answers_count. auto.
  - intros w1 [n|e] ->; apply yields_ret; [done| |done|]; cbn; [|by auto]. split; [done|]. case_match; auto.
Qed.

Lemma now_reads : yields (call Now) (fun ws _ => ws = []).
Proof. apply yields_call; [done|]. intros m w x Hm ->%answers_now. auto. Qed.

(** The common shape of Update and Patch. *)
Lemma conditional_write database path precond sets :
  yields (matched <-! mcall (UpdateOne (getCollection s path) (write_filter database (CalculateDatabase blake3 database path) precond)
                               {| upd_Set := sets; upd_IncVersion := 1 |});
          if matched =? 0
          then e ← unmatched database (CalculateDatabase blake3 database path) (getCollection s path); Ret (Err e)
          else Ret (Ok tt))
    (write_post (conditional database path precond sets)).
Proof.
  eapply yields_try; [done|apply UpdateOne_conditional| |]; cbn beta iota.
  - by intros w ? (e & -> & Hw).
  - intros w1 n [[-> ->]|[-> Hw]]; cbn [Z.eqb].
    + eapply yields_bind; [apply unmatched_reads|]; cbn beta. intros w2 e [-> [-> | ->]]; by apply yields_ret.
    + apply yields_ret; [done|]. by rewrite app_nil_r.
Qed.

Definition update_sets (data : Document) (now : Z) : list set_item := [SetData data; SetUpdatedAt now].
Definition delete_sets (updated now : Z) : list set_item :=
  [SetDeleted true; SetData ∅; SetUpdatedAt updated; SetExpires (now + ds_retention s)].

Lemma Update_writes database path data precond :
  yields (Update blake3 s database path data precond)
    (write_post (fun ws => exists now, conditional database path precond (update_sets data now) ws)).
Proof.
  unfold Update. eapply yields_bind; [apply now_reads|]. cbn beta. intros w1 now ->. cbn [app].
  eapply yields_weaken; [apply conditional_write|]. intros ws [a|[]]; cbn; naive_solver.
Qed.

Lemma Patch_writes database path data precond :
  yields (Patch blake3 s database path data precond)
    (write_post (fun ws => exists sets, conditional database path precond sets ws)).
Proof.
  unfold Patch. eapply yields_bind; [apply now_reads|]. cbn beta. intros w1 now ->. cbn [app].
  eapply yields_weaken; [apply conditional_write|]. intros ws [a|[]]; cbn; naive_solver.
Qed.

Lemma Delete_writes database path precond :
  yields (Delete blake3 s database path precond)
    (write_post (fun ws => exists updated now, conditional database path precond (delete_sets updated now) ws)).
Proof.
  unfold Delete. eapply yields_bind; [apply now_reads|]. cbn beta. intros w1 updated ->. cbn [app].
  eapply yields_bind; [apply now_reads|]. cbn beta. intros w1 now ->. cbn [app].
  eapply yields_try; [done|apply UpdateOne_conditional| |]; cbn beta iota.
  { intros w ? (e & -> & [Hw|Hw]); cbn; eauto. }
  intros w1 n [[-> ->]|[-> Hw]]; cbn [Z.eqb negb].
  - eapply yields_bind; [apply unmatched_reads|]; cbn beta. intros w2 e [-> [-> | ->]]; [by apply yields_ret|].
    eapply (yields_bind _ _ _ _ (fun ws _ => ws = [])).
    + apply yields_call; [done|]. intros m w x Hm ->%answers_find. auto.
    + intros w3 [[r|]|e] ->; apply yields_ret; try done. cbn. destruct (decode r) as [d|]; [by destruct (doc_Deleted d)|done].
  - apply yields_ret; [done|]. rewrite app_nil_r. cbn. eauto.
Qed.

(** Create wrote its document where there was none or a tombstone. *)
Definition creates (database : string) (doc : StoredDoc) (ws : list effect) : Prop :=
  exists before,
    ws = [{| eff_coll := getCollection s (doc_Collection doc); eff_key := doc_Id doc; eff_before := before;
             eff_after := Row (create_doc blake3 database doc) None |}] /\
    (forall old, before = Some old -> doc_Deleted (row_doc old) = true).

Section Creating.
Context (database : string) (doc : StoredDoc).
Context (HJ : J (getCollection s (doc_Collection doc)) (doc_Id doc) (Row (create_doc blake3 database doc) None)).

Lemma stores_creates m before w :
  all_rows m -> stores m (getCollection s (doc_Collection doc)) before (Row (create_doc blake3 database doc) None) w ->
  (forall old, before = Some old -> doc_Deleted (row_doc old) = true) ->
  all_rows (from_option (perform m) m w) /\ creates database doc (option_list w).
Proof.
  intros Hm [Hl ->] Hb. split; [by apply all_rows_perform|]. by exists before.
Qed.

Lemma ReplaceOne_creates f :
  f !! "deleted" = Some (Is (VBool true)) ->
  yields (mcall (ReplaceOne (getCollection s (doc_Collection doc)) f (Row (create_doc blake3 database doc) None)))
    (fun ws r => match r with
     | Ok n => (n = 0 /\ ws = []) \/ (n = 1 /\ creates database doc ws)
     | Err e => exists e', e = ErrMongo e' /\ (ws = [] \/ creates database doc ws)
     end).
Proof.
  intros Hf. eapply (yields_bind _ _ _ _ (fun ws (r : res mongo_error Z) => match r with
     | Ok n => (n = 0 /\ ws = []) \/ (n = 1 /\ creates database doc ws) | Err e => ws = [] \/ creates database doc ws end)).
  - apply yields_call; [done|]. intros m w x Hm Ha. apply answers_replace in Ha. cbn zeta in Ha.
    set (replaced := exists old, _) in Ha.
    assert (Hc : replaced -> all_rows (from_option (perform m) m w) /\ creates database doc (option_list w)).
    { intros (old & Hs & Ho). apply (stores_creates m (Some old)); [done|done|]. intros ? [= <-].
      rewrite <- cond_deleted. by apply (Ho "deleted"). }
    destruct x as [n|e].
    + destruct Ha as [[-> ->]|[-> Ha]]; [by cbn; auto|]. destruct (Hc Ha). auto.
    + destruct Ha as [->|Ha]; [by cbn; auto|]. destruct (Hc Ha). auto.
  - intros w1 [n|e] Hq; apply yields_ret; try done; rewrite app_nil_r; cbn; eauto.
Qed.

Lemma Create_writes : yields (Create blake3 s database doc) (write_post (creates database doc)).
Proof.
  unfold Create. eapply (yields_bind _ _ _ _ (fun ws (r : res mongo_error unit) => match r with
    | Ok _ => creates database doc ws | Err DuplicateKey => ws = [] | Err _ => ws = [] \/ creates database doc ws end)).
  { apply yields_call; [done|]. intros m w x Hm Ha. apply answers_insert in Ha.
    assert (Hc : stores m (getCollection s (doc_Collection doc)) None (Row (create_doc blake3 database doc) None) w ->
      all_rows (from_option (perform m) m w) /\ creates database doc (option_list w)) by (intros; by eapply stores_creates).
    destruct x as [[]|[|what]]; [by apply Hc|by subst|]. destruct Ha as [->|Ha]; [by cbn; auto|]. destruct (Hc Ha). auto. }
  intros w1 [[]|[|what]] Hw; [apply yields_ret; [done|]; by rewrite app_nil_r| |apply yields_ret; [done|]; by rewrite app_nil_r].
  subst w1. cbn [app].
  eapply (yields_try _ _ Henv _ _ (fun ws r => ws = [] /\ forall e, r = Err e -> exists e', e = ErrMongo e')).
  { apply yields_read. intros m w x Hm ->%answers_find. split; [done|]. split; [done|]. destruct x; naive_solver. }
  { intros w e [-> He]. destruct (He e eq_refl) as [e' ->]. by left. }
  cbn beta. intros w1 [r|] [-> _]; [|by apply yields_ret]. cbn [app].
  destruct (decode r) as [d|e]; cbn [mongo map_err]; [|by apply yields_ret; [|left]].
  destruct (doc_Deleted d); cbn [negb]; [|by apply yields_ret].
  eapply yields_try; [done|apply ReplaceOne_creates; by rewrite lookup_insert_eq| |]; cbn beta iota.
  - intros w ? (e & -> & Hw). done.
  - intros w n [[-> ->]|[-> Hw]]; apply yields_ret; try done. by rewrite app_nil_r.
Qed.
End Creating.
End Contract.

(** A precondition is a [bson.M], one entry per field: of two conditions on the same
    field only the last is part of the write, although filters are a conjunction. *)
Theorem precondition_keeps_last fs f g :
  mapField (filter_field f) = mapField (filter_field g) -> mapOp (filter_op g) <> None ->
  makeFilterBSON (fs ++ [f; g]) = makeFilterBSON (fs ++ [g]).
Proof.
  intros Hf Hg. unfold makeFilterBSON. rewrite !fold_left_app. cbn [fold_left]. unfold flip, add_condition.
  destruct (mapOp (filter_op g)) as [op|]; [|done]. destruct (mapOp (filter_op f)); [|done].
  by rewrite Hf, insert_insert_eq.
Qed.
