(* ===== verification/Router.v ===== *)
(** * Routing of document operations: internal/core/storage/router

    The operations of a document store as a record, the store that routes each
    call to the backend of its database, and the contract its clients rely on. *)
From stdpp Require Import base list gmap strings.
From Stdlib Require Import ZArith.
From S2P Require Import Prelude Value Filter Projection Documents Prog Mongo DocumentStore.
Local Open Scope Z_scope.

(** ** The DocumentStore interface: internal/core/storage/types/types.go *)
Record DocumentStoreOps := {
  st_Get : string -> string -> list ReadOptions -> mprog (res storage_error StoredDoc);
  st_Create : string -> StoredDoc -> mprog (res storage_error unit);
  st_Update : string -> string -> Document -> list filter -> mprog (res storage_error unit);
  st_Patch : string -> string -> Document -> list filter -> mprog (res storage_error unit);
  st_Delete : string -> string -> list filter -> mprog (res storage_error unit);
}.

(** The Mongo backend. *)
Definition document_ops `{MongoDB} (blake3 : bytes -> bytes) (s : documentStore) : DocumentStoreOps :=
  {| st_Get := Get blake3 s; st_Create := Create blake3 s; st_Update := Update blake3 s;
     st_Patch := Patch blake3 s; st_Delete := Delete blake3 s |}.

(** ** Routers: single.go, split.go, database.go *)
Inductive OpKind := OpRead | OpWrite | OpMigrate | OpWatch.

Inductive DocumentRouter :=
| SingleDocumentRouter (store : DocumentStoreOps)
| SplitDocumentRouter (primary replica : DocumentStoreOps).
(** [None] is a router that is not configured. *)
Record DatabaseDocumentRouter := { defaultRouter : option DocumentRouter; databases : gmap string DocumentRouter }.

Definition Select (r : DocumentRouter) (op : OpKind) : DocumentStoreOps :=
  match r, op with
  | SingleDocumentRouter store, _ => store
  | SplitDocumentRouter _ replica, OpRead => replica
  | SplitDocumentRouter primary _, _ => primary
  end.

Definition database_Select (r : DatabaseDocumentRouter) (database : string) (op : OpKind) : res storage_error DocumentStoreOps :=
  match (match databases r !! database with Some router => Some router | None => defaultRouter r end) with
  | None => Err (if String.eqb database "" then ErrDatabaseRequired else ErrDatabaseNotFound)
  | Some router => Ok (Select router op)
  end.

(** ** The routed store: routed_store.go *)
Section Routed.
Context (select : string -> OpKind -> res storage_error DocumentStoreOps).

Definition routed {A} (database : string) (op : OpKind) (run : DocumentStoreOps -> mprog (res storage_error A))
    : mprog (res storage_error A) :=
  match select database op with Err e => Ret (Err e) | Ok store => run store end.

Definition routed_Get (database path : string) (opts : list ReadOptions) : mprog (res storage_error StoredDoc) :=
  match ResolveReadOptions opts with
  | Err e => Ret (Err (ErrReadOptions e))
  | Ok readOpts =>
      routed database (if bool_decide (ro_Consistency readOpts = ReadAuthoritative) then OpWrite else OpRead)
        (fun store => st_Get store database path opts)
  end.

Definition RoutedDocumentStore : DocumentStoreOps :=
  {| st_Get := routed_Get;
     st_Create := fun database doc => routed database OpWrite (fun store => st_Create store database doc);
     st_Update := fun database path data pred => routed database OpWrite (fun store => st_Update store database path data pred);
     st_Patch := fun database path data pred => routed database OpWrite (fun store => st_Patch store database path data pred);
     st_Delete := fun database path pred => routed database OpWrite (fun store => st_Delete store database path pred) |}.
End Routed.

(** ** What a client relies on *)

(** Authoritative reads answer rows of the document; writes happen once if they
    succeed and not at all if they report a definite failure. *)
Class StoreContract `{MongoDB} (blake3 : bytes -> bytes) (s : documentStore) (env : db -> db -> Prop)
    (J : string -> string -> row -> Prop) (store : DocumentStoreOps) : Prop := {
  contract_get database path opts :
    (forall o, ResolveReadOptions opts = Ok o -> ro_Consistency o = ReadAuthoritative) ->
    yields env (all_rows J) (st_Get store database path opts) (read_post blake3 s J database path);
  contract_silent database path opts :
    yields env (all_rows J) (st_Get store database path opts) (fun ws _ => ws = []);
  contract_create database doc :
    J (getCollection s (doc_Collection doc)) (doc_Id doc) (Row (create_doc blake3 database doc) None) ->
    yields env (all_rows J) (st_Create store database doc) (write_post (creates blake3 s database doc));
  contract_update database path data precond :
    yields env (all_rows J) (st_Update store database path data precond)
      (write_post (fun ws => exists now, conditional blake3 s database path precond (update_sets data now) ws));
  contract_patch database path data precond :
    yields env (all_rows J) (st_Patch store database path data precond)
      (write_post (fun ws => exists sets, conditional blake3 s database path precond sets ws));
  contract_delete database path precond :
    yields env (all_rows J) (st_Delete store database path precond)
      (write_post (fun ws => exists updated now, conditional blake3 s database path precond (delete_sets s updated now) ws));
}.

Section Contract.
Context `{MongoDB} (blake3 : bytes -> bytes) (s : documentStore).
Context (env : db -> db -> Prop) (J : string -> string -> row -> Prop).
Context (Henv : forall m m1, all_rows J m -> env m m1 -> all_rows J m1).
Context (Hnext : forall c k old new, J c k old -> next_version old new -> J c k new).

Lemma document_contract : StoreContract blake3 s env J (document_ops blake3 s).
Proof.
  split; intros; cbn; [by apply Get_reads|by apply Get_silent|by apply Create_writes|by apply Update_writes|by apply Patch_writes
                      |by apply Delete_writes].
Qed.

(** The routed store keeps the contract of the backends it writes to: whatever
    serves plain reads, every write and every authoritative read uses those. *)
Lemma routed_contract select :
  (forall database store, select database OpWrite = Ok store -> StoreContract blake3 s env J store) ->
  (forall database store path opts, select database OpRead = Ok store ->
     yields env (all_rows J) (st_Get store database path opts) (fun ws _ => ws = [])) ->
  (forall database, select database OpWrite <> Err ErrNotFound) ->
  StoreContract blake3 s env J (RoutedDocumentStore select).
Proof.
  intros Hs Hread Hsel.
  assert (R : forall A database (run : DocumentStoreOps -> mprog (res storage_error A)) Q,
    (forall e, e <> ErrNotFound -> Q [] (Err e)) -> (forall store, StoreContract blake3 s env J store -> yields env (all_rows J) (run store) Q) ->
    yields env (all_rows J) (routed select database OpWrite run) Q).
  { intros A database run Q Hq Hrun. unfold routed. destruct (select database OpWrite) as [store|e] eqn:E.
    - eauto.
    - apply yields_ret; [exact Henv|apply Hq]. intros ->. by eapply Hsel. }
  assert (W : forall written e, write_post written [] (Err e)) by (intros written []; cbn; auto).
  assert (G : forall database path e, e <> ErrNotFound -> read_post blake3 s J database path [] (Err e)).
  { intros database path e He. split_and!; [done|done|naive_solver]. }
  split; intros; cbn; try (apply R; [intros; apply W|intros; by apply contract_create || apply contract_update
    || apply contract_patch || apply contract_delete]).
  - unfold routed_Get. destruct (ResolveReadOptions opts) as [o|e] eqn:E; [|apply yields_ret; [done|by apply G]].
    rewrite bool_decide_eq_true_2 by eauto. apply R; [by apply G|]. intros. apply contract_get. intros o' Ho.
    rewrite E in Ho. injection Ho as <-. auto.
  - unfold routed_Get. destruct (ResolveReadOptions opts) as [o|e] eqn:E; [|by apply yields_ret].
    case_bool_decide; [by apply R; [|intros; apply contract_silent]|]. unfold routed.
    destruct (select database OpRead) eqn:Es; [by apply Hread|by apply yields_ret].
Qed.
End Contract.

(** The routers by database refuse with errors of their own. *)
Lemma database_Select_found r database op : database_Select r database op <> Err ErrNotFound.
Proof. unfold database_Select. destruct (match databases r !! database with Some _ => _ | None => _ end); [done|]. by destruct (String.eqb database ""). Qed.
