(* ===== verification/Engine.v ===== *)
(** * Document operations of the query engine: internal/query/core/engine.go

    Reading, creating, replacing, patching and deleting one document over the
    store's contract. A nil document is [None]. *)
From stdpp Require Import base list gmap strings.
From Stdlib Require Import ZArith.
From S2P Require Import Prelude Value Filter Template Projection Documents Prog Mongo DocumentStore Router.
Local Open Scope Z_scope.

Inductive engine_error :=
| ErrNilDocument | ErrCollectionRequired | ErrDocumentIDRequired | ErrEngineStorage (e : storage_error).

Section Engine.
Context `{MongoDB} (blake3 : bytes -> bytes) (storage : DocumentStoreOps).

Definition stored {A} (p : mprog (res storage_error A)) : mprog (res engine_error A) :=
  r ← p; Ret (map_err ErrEngineStorage r).

Definition flattened (p : mprog (res storage_error StoredDoc)) : mprog (res engine_error Document) :=
  doc <-! stored p; Ret (Ok (default ∅ (FlattenStorageDocument (Some doc)))).

Definition GetDocument (database path : string) : mprog (res engine_error Document) :=
  flattened (st_Get storage database path []).

(** [uuid] is the identifier the call draws for a document without one. *)
Definition CreateDocument (uuid : string) (database : string) (doc : option Document) : mprog (res engine_error unit) :=
  match doc with
  | None => Ret (Err ErrNilDocument)
  | Some doc =>
      let doc := GenerateIDIfEmpty uuid doc in
      let collection := GetCollection doc in
      if String.eqb collection "" then Ret (Err ErrCollectionRequired)
      else
        let doc := StripProtectedFields doc in
        now ← call Now;
        stored (st_Create storage database (NewStoredDoc blake3 now database collection (GetID doc) (Some doc)))
  end.

Definition ReplaceDocument (database : string) (doc : option Document) (pred : list filter) : mprog (res engine_error Document) :=
  match doc with
  | None => Ret (Err ErrNilDocument)
  | Some doc =>
      let collection := GetCollection doc in
      let id := GetID doc in
      if String.eqb collection "" then Ret (Err ErrCollectionRequired)
      else if String.eqb id "" then Ret (Err ErrDocumentIDRequired)
      else
        let doc := StripProtectedFields doc in
        let fullpath := String.append collection (String.append "/" id) in
        got ← st_Get storage database fullpath [];
        match got with
        | Err ErrNotFound =>
            now ← call Now;
            let storedDoc := NewStoredDoc blake3 now database collection id (Some doc) in
            _ <-! stored (st_Create storage database storedDoc);
            Ret (Ok (default ∅ (FlattenStorageDocument (Some storedDoc))))
        | Err e => Ret (Err (ErrEngineStorage e))
        | Ok _ =>
            _ <-! stored (st_Update storage database fullpath doc pred);
            flattened (st_Get storage database fullpath [])
        end
  end.

Definition PatchDocument (database : string) (doc : option Document) (pred : list filter) : mprog (res engine_error Document) :=
  match doc with
  | None => Ret (Err ErrNilDocument)
  | Some doc =>
      let collection := GetCollection doc in
      let id := GetID doc in
      if String.eqb collection "" then Ret (Err ErrCollectionRequired)
      else if String.eqb id "" then Ret (Err ErrDocumentIDRequired)
      else
        let fullpath := String.append collection (String.append "/" id) in
        let doc := delete "id" (StripProtectedFields doc) in
        _ <-! stored (st_Patch storage database fullpath doc pred);
        flattened (st_Get storage database fullpath [])
  end.

Definition DeleteDocument (database path : string) (pred : list filter) : mprog (res engine_error unit) :=
  stored (st_Delete storage database path pred).
End Engine.

(** ** What the operations write *)
Section Writes.
Context `{MongoDB} (blake3 : bytes -> bytes) (s : documentStore) (env : db -> db -> Prop) (storage : DocumentStoreOps).
Local Abbreviation anything := (fun (_ _ : string) (_ : row) => True).
Context (HS : StoreContract blake3 s env anything storage).
Local Abbreviation yields := (yields env (all_rows anything)).

(** A success made the write; a failure made it or nothing, and nothing when the
    store answered that the document is missing, exists or fails the condition. *)
Definition once {A} (written : list effect -> Prop) (ws : list effect) (r : res engine_error A) : Prop :=
  match r with
  | Ok _ => written ws
  | Err (ErrEngineStorage (ErrExists | ErrPreconditionFailed)) => ws = []
  | Err _ => ws = [] \/ written ws
  end.

Lemma once_weaken {A} (P Q : list effect -> Prop) ws (r : res engine_error A) :
  (forall ws, P ws -> Q ws) -> once P ws r -> once Q ws r.
Proof. intros HPQ. destruct r as [a|[| | |[]]]; cbn; intuition. Qed.

Lemma any_env (m m1 : db) : all_rows anything m -> env m m1 -> all_rows anything m1.
Proof. done. Qed.

Lemma stored_once written p : yields p (write_post written) -> yields (stored p) (once written).
Proof.
  intros Hp. eapply yields_bind; [exact Hp|]. intros w1 [[]|e] Hw; (apply yields_ret; [exact any_env|]);
    rewrite app_nil_r; [exact Hw|]. destruct e; cbn in *; auto.
Qed.

(** The write followed by the read of the result. *)
Definition written_then_read {A} (written : list effect -> Prop) (ws : list effect) (r : res engine_error A) : Prop :=
  match r with Ok _ => written ws | Err _ => ws = [] \/ written ws end.

Lemma flattened_silent database path :
  yields (flattened (st_Get storage database path [])) (fun ws _ => ws = []).
Proof.
  unfold flattened, stored. eapply (yields_try _ _ any_env _ _ (fun ws _ => ws = [])); [|by intros w e ->|].
  - eapply yields_bind; [apply contract_silent|]. intros w1 r ->. by apply yields_ret.
  - intros w1 d ->. by apply yields_ret.
Qed.

Lemma then_read written p database path :
  yields p (@once unit written) ->
  yields (_ <-! p; flattened (st_Get storage database path [])) (@written_then_read Document written).
Proof.
  intros Hp. eapply (yields_try _ _ any_env); [exact Hp| |].
  - intros w e Hw. destruct e as [| | |[]]; cbn in *; auto.
  - intros w1 [] Hw. eapply yields_weaken; [apply flattened_silent|]. intros w2 r ->. rewrite app_nil_r.
    destruct r; cbn; auto.
Qed.

(** The write of a replacement: a creation when the document was not found, an
    update under the precondition otherwise. *)
Definition replaces (database collection id : string) (doc : Document) (pred : list filter) (ws : list effect) : Prop :=
  (exists now, creates blake3 s database (NewStoredDoc blake3 now database collection id (Some doc)) ws) \/
  (exists now, conditional blake3 s database (String.append collection (String.append "/" id)) pred (update_sets doc now) ws).

Lemma ReplaceDocument_writes database doc pred :
  yields (ReplaceDocument blake3 storage database (Some doc) pred)
    (written_then_read (replaces database (GetCollection doc) (GetID doc) (StripProtectedFields doc) pred)).
Proof.
  unfold ReplaceDocument. do 2 (match goal with |- context [if ?b then _ else _] => destruct b end;
    [apply yields_ret; [exact any_env|by left]|]).
  eapply yields_bind; [apply contract_silent|]. cbn beta. intros w1 got ->. cbn [app].
  assert (Hfail : forall e, yields (Ret (Err (ErrEngineStorage e)))
    (written_then_read (A := Document) (replaces database (GetCollection doc) (GetID doc) (StripProtectedFields doc) pred)))
    by (intros e; apply yields_ret; [exact any_env|by left]).
  destruct got as [d|[]]; try apply Hfail.
  - apply then_read, stored_once. eapply yields_weaken; [apply contract_update|].
    intros ws [[]|[]]; cbn; try done; [by right|intros [->|Hw]; [by left|right; by right]].
  - eapply yields_bind; [by apply now_reads|]. cbn beta. intros w1 now ->. cbn [app].
    eapply (yields_try _ _ any_env); [by apply stored_once, contract_create| |].
    + intros w e Hw. destruct e as [| | |[]]; cbn in *; try tauto; destruct Hw as [->|Hw]; auto; right; left; eauto.
    + intros w2 [] Hw. apply yields_ret; [exact any_env|]. rewrite app_nil_r. left. eauto.
Qed.
End Writes.

(** The engine's operations on one document, over the document store and with any
    other clients: an operation that succeeds has made exactly one write - a
    creation over nothing or a tombstone, or a change of the live document under the
    caller's precondition - and one that fails has made that write or none. *)
Theorem engine_writes `{MongoDB} blake3 s env uuid database path doc pred m ws m' :
  let storage := document_ops blake3 s in
  let named := GenerateIDIfEmpty uuid doc in
  (forall r, exec env (CreateDocument blake3 storage uuid database (Some doc)) m ws m' r ->
     once (fun ws => exists now, creates blake3 s database (NewStoredDoc blake3 now database (GetCollection named)
       (GetID (StripProtectedFields named)) (Some (StripProtectedFields named))) ws) ws r) /\
  (forall r, exec env (ReplaceDocument blake3 storage database (Some doc) pred) m ws m' r ->
     written_then_read (replaces blake3 s database (GetCollection doc) (GetID doc) (StripProtectedFields doc) pred) ws r) /\
  (forall r, exec env (PatchDocument storage database (Some doc) pred) m ws m' r ->
     written_then_read (fun ws => exists sets, conditional blake3 s database
       (String.append (GetCollection doc) (String.append "/" (GetID doc))) pred sets ws) ws r) /\
  (forall r, exec env (DeleteDocument storage database path pred) m ws m' r ->
     once (fun ws => exists updated now, conditional blake3 s database path pred (delete_sets s updated now) ws) ws r).
Proof.
  cbn zeta. set (J := fun (_ _ : string) (_ : row) => True).
  assert (HI : forall m, all_rows J m) by done.
  assert (HS : StoreContract blake3 s env J (document_ops blake3 s)) by by apply document_contract.
  assert (Y : forall A (p : mprog A) Q, yields env (all_rows J) p Q -> forall r, exec env p m ws m' r -> Q ws r)
    by (intros A p Q Hp r Hx; by eapply Hp).
  split; [|split; [|split]]; apply Y.
  - unfold CreateDocument. destruct (String.eqb _ ""); [apply yields_ret; [done|by left]|].
    eapply yields_bind; [by apply now_reads|]. cbn beta. intros w1 now ->. cbn [app].
    eapply yields_weaken; [by apply stored_once, contract_create|].
    intros w r. apply once_weaken. eauto.
  - by apply ReplaceDocument_writes.
  - unfold PatchDocument. do 2 (match goal with |- context [if ?b then _ else _] => destruct b end;
      [apply yields_ret; [done|by left]|]).
    by eapply then_read, stored_once, contract_patch.
  - by apply stored_once, contract_delete.
Qed.
