(* ===== verification/TypedValue.v ===== *)
(** * Typed values: EncodeTypedValue and DecodeTypedValue of pkg/model/value.go

    The codec that carries document data over the replication protocols. JSON
    texts are represented by the trees encoding/json writes and reads, after
    ValidateJSONUnicode accepted them: an object by its members in order, a number by
    the binary64 it denotes. *)
From stdpp Require Import base list gmap strings.
From Stdlib Require Import ZArith.
From S2P Require Import Prelude Value Codec.
Local Open Scope Z_scope.

Inductive json :=
| JNull
| JBool (b : bool)
| JString (s : string)
| JNumber (bits : option Z)  (** [None]: beyond the range of binary64 *)
| JArray (l : list json)
| JObject (members : list (string * json)).

Inductive typed_error :=
| ErrTypedValue (e : value_error)
| ErrTypedObject | ErrTypedField (key : string) | ErrTypedKind | ErrNullValue | ErrMissingValue (kind : string)
| ErrTypedSyntax | ErrNoncanonicalInt (s : string)
| ErrTypedElement (i : nat) (e : typed_error) | ErrTypedMember (key : string) (e : typed_error)
| ErrUnknownKind (kind : string).

(** [strconv.FormatInt(v, 10)]. *)
Definition FormatInt (i : Z) : string := string_of_bytes (json_int i).

Definition typed (kind : string) (v : json) : json := JObject [("type", JString kind); ("value", v)].

(** The tree of a normalised value; [None] is the panic on any other value. *)
Fixpoint typedValueTree (v : value) : option json :=
  match v with
  | VNil => Some (JObject [("type", JString "null")])
  | VBool b => Some (typed "bool" (JBool b))
  | VString s => Some (typed "string" (JString s))
  | VInt KInt64 i => Some (typed "int64" (JString (FormatInt i)))
  | VFloat64 b => Some (typed "float64" (JNumber (Some b)))
  | VSlice l =>
      items ← (fix items l := match l with
               | [] => Some []
               | x :: l => y ← typedValueTree x; ys ← items l; Some (y :: ys)
               end) l;
      Some (typed "array" (JArray items))
  | VMap m =>
      items ← (fix fields m := match m with
               | [] => Some []
               | (k, x) :: m => y ← typedValueTree x; ys ← fields m; Some ((k, y) :: ys)
               end) m;
      Some (typed "object" (JObject items))
  | _ => None
  end.

Definition EncodeTypedValue (v : value) : res value_error (option json) :=
  n ← NormalizeValue v; Ok (typedValueTree n).

(** Decoding into a Go map: the last member of a name wins. *)
Definition object_map {A} (members : list (string * A)) : gmap string A := list_to_map (reverse members).
(** The entries of that map, in the order of the text. *)
Fixpoint last_members {A} (members : list (string * A)) : list (string * A) :=
  match members with
  | [] => []
  | (k, x) :: ms => if bool_decide (k ∈ map fst ms) then last_members ms else (k, x) :: last_members ms
  end.

(** The text of [d] has at most as many nested values as [fuel]. *)
Fixpoint decode_tree (fuel : nat) (d : json) : res typed_error value :=
  match fuel with
  | O => Err ErrTypedSyntax
  | S fuel =>
      match d with
      | JObject members =>
          let fields := object_map members in
          match list_find (fun kv => negb (bool_decide (kv.1 = "type") || bool_decide (kv.1 = "value"))) members with
          | Some (_, kv) => Err (ErrTypedField kv.1)
          | None =>
              kind ← match fields !! "type" with
                     | Some (JString kind) => Ok kind
                     | Some JNull => Ok ""
                     | _ => Err ErrTypedKind
                     end;
              if String.eqb kind "null" then
                match fields !! "value" with Some _ => Err ErrNullValue | None => Ok VNil end
              else
                match fields !! "value" with
                | None | Some JNull => Err (ErrMissingValue kind)
                | Some raw =>
                    if String.eqb kind "bool" then
                      match raw with JBool b => Ok (VBool b) | _ => Err ErrTypedSyntax end
                    else if String.eqb kind "string" then
                      match raw with JString s => Ok (VString s) | _ => Err ErrTypedSyntax end
                    else if String.eqb kind "int64" then
                      match raw with
                      | JString s =>
                          match parse_int64 s with
                          | None => Err ErrTypedSyntax
                          | Some i => if String.eqb (FormatInt i) s then Ok (VInt KInt64 i) else Err (ErrNoncanonicalInt s)
                          end
                      | _ => Err ErrTypedSyntax
                      end
                    else if String.eqb kind "float64" then
                      match raw with
                      | JNumber (Some b) => map_err ErrTypedValue (NormalizeValue (VFloat64 b))
                      | _ => Err ErrTypedSyntax
                      end
                    else if String.eqb kind "array" then
                      match raw with
                      | JArray items =>
                          VSlice <$> (fix elements i l := match l with
                                      | [] => Ok []
                                      | x :: l => y ← map_err (ErrTypedElement i) (decode_tree fuel x);
                                                  ys ← elements (S i) l; Ok (y :: ys)
                                      end) O items
                      | _ => Err ErrTypedSyntax
                      end
                    else if String.eqb kind "object" then
                      match raw with
                      | JObject items =>
                          VMap <$> (fix fields m := match m with
                                    | [] => Ok []
                                    | (k, x) :: m => y ← map_err (ErrTypedMember k) (decode_tree fuel x);
                                                     ys ← fields m; Ok ((k, y) :: ys)
                                    end) (last_members items)
                      | _ => Err ErrTypedSyntax
                      end
                    else Err (ErrUnknownKind kind)
                end
          end
      | _ => Err ErrTypedObject
      end
  end.

(** The nesting of a tree, which bounds the recursion. *)
Fixpoint json_depth (d : json) : nat :=
  match d with
  | JArray l => S ((fix deepest l := match l with [] => O | x :: l => json_depth x `max` deepest l end) l)
  | JObject m => S ((fix deepest m := match m with [] => O | (_, x) :: m => json_depth x `max` deepest m end) m)
  | _ => 1
  end%nat.

Definition decodeTypedValue (d : json) : res typed_error value := decode_tree (json_depth d) d.

(** ** Decimal integers *)
Lemma decimal_value fuel n l :
  0 <= n < 10 ^ Z.of_nat fuel -> digits_value 0 (decimal fuel n l) = digits_value n l.
Proof.
  revert n l; induction fuel as [|fuel IH]; intros n l Hn.
  { cbn in *. assert (n = 0) as -> by lia. done. }
  cbn [decimal]. assert (Hd : is_digit (48 + n mod 10) = true).
  { unfold is_digit, in_range. pose proof (Z.mod_pos_bound n 10). lia. }
  destruct (Z.ltb_spec n 10) as [Hlt|Hge].
  - cbn [digits_value]. rewrite Hd. rewrite Z.mod_small by lia. f_equal; lia.
  - rewrite IH. 2: { rewrite Nat2Z.inj_succ, Z.pow_succ_r in Hn by lia. split; [apply Z.div_pos; lia|].
      apply Z.div_lt_upper_bound; lia. }
    cbn [digits_value]. rewrite Hd. f_equal. rewrite (Z.div_mod n 10) at 3 by lia. lia.
Qed.

Lemma decimal_head fuel n l : 0 <= n -> (0 < fuel)%nat ->
  exists b r, decimal fuel n l = b :: r /\ is_digit b = true.
Proof.
  revert n l; induction fuel as [|fuel IH]; intros n l Hn Hf; [lia|]. cbn [decimal].
  assert (Hd : is_digit (48 + n mod 10) = true).
  { unfold is_digit, in_range. pose proof (Z.mod_pos_bound n 10). lia. }
  case_match; [eauto|]. destruct fuel as [|fuel]; [cbn; eauto|].
  apply IH; [apply Z.div_pos; lia|lia].
Qed.

Lemma decimal_bytes fuel n l : is_bytes l -> is_bytes (decimal fuel n l).
Proof.
  revert n l; induction fuel as [|fuel IH]; intros n l Hl; [done|]. cbn [decimal].
  assert (Hd : is_bytes (48 + n mod 10 :: l)).
  { constructor; [|done]. unfold is_byte. pose proof (Z.mod_pos_bound n 10). lia. }
  case_match; [done|by apply IH].
Qed.

Lemma parse_digits (neg : bool) b r n :
  is_digit b = true -> is_bytes (b :: r) -> digits_value 0 (b :: r) = Some n ->
  is_i64 (if neg then - n else n) ->
  parse_int64 (string_of_bytes ((if neg then [45] else []) ++ b :: r)) = Some (if neg then - n else n).
Proof.
  intros Hb Hr Hv Hi. unfold parse_int64.
  rewrite bytes_of_string_of_bytes by (apply is_bytes_app; [destruct neg; repeat constructor; lia|done]).
  unfold is_digit, in_range in Hb.
  assert (split_sign ((if neg then [45] else []) ++ b :: r) = (neg, b :: r)) as ->.
  { destruct neg; cbn [app split_sign Z.eqb Pos.eqb]; [done|]. by rewrite !(proj2 (Z.eqb_neq b _)) by lia. }
  rewrite Hv. unfold is_i64 in Hi. cbn [mbind option_bind].
  rewrite (proj2 (andb_true_iff _ _)); [done|]. destruct neg; lia.
Qed.

Lemma parse_int64_FormatInt i : is_i64 i -> parse_int64 (FormatInt i) = Some i.
Proof.
  unfold FormatInt, json_int. intros Hi. unfold is_i64 in Hi.
  assert (H20 : 2 ^ 63 < 10 ^ Z.of_nat 20) by (vm_compute; reflexivity).
  assert (H0 : forall n, 0 <= n <= 2 ^ 63 -> exists b r, decimal 20 n [] = b :: r /\ is_digit b = true /\
    is_bytes (b :: r) /\ digits_value 0 (b :: r) = Some n).
  { intros n Hn. destruct (decimal_head 20 n []) as (b & r & Hd & Hb); [lia|lia|]. exists b, r.
    rewrite <- Hd. split; [done|]. split; [done|]. split; [apply decimal_bytes, Forall_nil_2|]. rewrite decimal_value; [reflexivity|lia]. }
  destruct (Z.ltb_spec i 0).
  - destruct (H0 (- i)) as (b & r & -> & Hb & Hr & Hv); [lia|].
    pose proof (parse_digits true b r (- i)) as E. cbn [app] in E.
    rewrite E; [f_equal; lia|done|done|done|unfold is_i64; lia].
  - destruct (H0 i) as (b & r & -> & Hb & Hr & Hv); [lia|].
    pose proof (parse_digits false b r i) as E. cbn [app] in E. by apply E.
Qed.

(** ** Round trip *)
Lemma typed_fields kind (v : json) :
  object_map [("type", JString kind); ("value", v)] !! "type" = Some (JString kind) /\
  object_map [("type", JString kind); ("value", v)] !! "value" = Some v.
Proof. split; reflexivity. Qed.

(** Decoding a tagged value looks at its kind only. *)
Lemma decode_typed fuel kind v :
  kind <> "null" -> v <> JNull ->
  decode_tree (S fuel) (typed kind v) =
    if String.eqb kind "bool" then match v with JBool b => Ok (VBool b) | _ => Err ErrTypedSyntax end
    else if String.eqb kind "string" then match v with JString s => Ok (VString s) | _ => Err ErrTypedSyntax end
    else if String.eqb kind "int64" then
      match v with
      | JString s => match parse_int64 s with
                     | None => Err ErrTypedSyntax
                     | Some i => if String.eqb (FormatInt i) s then Ok (VInt KInt64 i) else Err (ErrNoncanonicalInt s)
                     end
      | _ => Err ErrTypedSyntax
      end
    else if String.eqb kind "float64" then
      match v with JNumber (Some b) => map_err ErrTypedValue (NormalizeValue (VFloat64 b)) | _ => Err ErrTypedSyntax end
    else if String.eqb kind "array" then
      match v with
      | JArray items => VSlice <$> (fix elements i l := match l with
                                    | [] => Ok []
                                    | x :: l => y ← map_err (ErrTypedElement i) (decode_tree fuel x);
                                                ys ← elements (S i) l; Ok (y :: ys)
                                    end) O items
      | _ => Err ErrTypedSyntax
      end
    else if String.eqb kind "object" then
      match v with
      | JObject items => VMap <$> (fix fields m := match m with
                                   | [] => Ok []
                                   | (k, x) :: m => y ← map_err (ErrTypedMember k) (decode_tree fuel x);
                                                    ys ← fields m; Ok ((k, y) :: ys)
                                   end) (last_members items)
      | _ => Err ErrTypedSyntax
      end
    else Err (ErrUnknownKind kind).
Proof.
  intros Hk%String.eqb_neq Hv. unfold typed. cbn [decode_tree].
  destruct (typed_fields kind v) as [-> ->]. cbn -[String.eqb decode_tree last_members NormalizeValue].
  rewrite Hk. by destruct v.
Qed.

Lemma last_members_nodup {A} (m : list (string * A)) : NoDup (map fst m) -> last_members m = m.
Proof.
  induction m as [|[k x] m IH]; [done|]. cbn. intros [Hk Hm]%NoDup_cons.
  rewrite bool_decide_eq_false_2 by done. by rewrite IH.
Qed.

Lemma decode_typedValueTree v :
  normal v -> wf_value v -> exists t, typedValueTree v = Some t /\
    forall fuel, (json_depth t <= fuel)%nat -> decode_tree fuel t = Ok v.
Proof.
  induction v as [|b|s|k i|b|b|s|l IH|m IH|s] using value_nested_ind; intros Hn Hw; try done;
    cbn [typedValueTree].
  - eexists; split; [reflexivity|]. intros [|fuel] Hf; [cbn in Hf; lia|reflexivity].
  - eexists; split; [reflexivity|]. intros [|fuel] Hf; [cbn in Hf; lia|reflexivity].
  - eexists; split; [reflexivity|]. intros [|fuel] Hf; [cbn in Hf; lia|reflexivity].
  - cbn in Hn; subst k. eexists; split; [reflexivity|]. intros [|fuel] Hf; [cbn in Hf; lia|].
    rewrite decode_typed by done. cbn [String.eqb Ascii.eqb Bool.eqb]. rewrite parse_int64_FormatInt by exact Hw.
    by rewrite String.eqb_refl.
  - eexists; split; [reflexivity|]. intros [|fuel] Hf; [cbn in Hf; lia|].
    rewrite decode_typed by done. cbn [String.eqb Ascii.eqb Bool.eqb].
    by rewrite (NormalizeValue_of_normal (VFloat64 b) Hn).
  - cbn [normal wf_value] in Hn, Hw.
    enough (exists ts, (fix items l := match l with
               | [] => Some [] | x :: l => y ← typedValueTree x; ys ← items l; Some (y :: ys) end) l = Some ts /\
      forall fuel i, (json_depth (JArray ts) <= S fuel)%nat -> (fix elements i l := match l with
                                    | [] => Ok []
                                    | x :: l => y ← map_err (ErrTypedElement i) (decode_tree fuel x);
                                                ys ← elements (S i) l; Ok (y :: ys)
                                    end) i ts = Ok l) as (ts & -> & Hd).
    { eexists; split; [reflexivity|]. intros [|[|fuel]] Hf; [cbn in Hf; lia|cbn in Hf; lia|].
      rewrite decode_typed by done. cbn [String.eqb Ascii.eqb Bool.eqb]. rewrite Hd; [done|].
      cbn [json_depth typed] in Hf |- *. lia. }
    induction IH as [|x l Hx _ IH]; [by exists []|]. destruct Hn as [Hnx Hn], Hw as [Hwx Hw].
    destruct (Hx Hnx Hwx) as (t & -> & Ht), (IH Hn Hw) as (ts & Hts & Hd). cbn. rewrite Hts.
    exists (t :: ts); split; [done|]. intros fuel i Hf. cbn [json_depth] in Hf, Hd.
    rewrite Ht by lia. cbn. by rewrite Hd by lia.
  - cbn [normal wf_value] in Hn, Hw. destruct Hw as [Hnd Hw].
    enough (exists ts, (fix fields m := match m with
               | [] => Some [] | (k, x) :: m => y ← typedValueTree x; ys ← fields m; Some ((k, y) :: ys) end) m = Some ts /\
      map fst ts = map fst m /\
      forall fuel, (json_depth (JObject ts) <= S fuel)%nat -> (fix fields m := match m with
                                    | [] => Ok []
                                    | (k, x) :: m => y ← map_err (ErrTypedMember k) (decode_tree fuel x);
                                                     ys ← fields m; Ok ((k, y) :: ys)
                                    end) ts = Ok m) as (ts & -> & Hk & Hd).
    { eexists; split; [reflexivity|]. intros [|[|fuel]] Hf; [cbn in Hf; lia|cbn in Hf; lia|].
      rewrite decode_typed by done. cbn [String.eqb Ascii.eqb Bool.eqb].
      rewrite last_members_nodup by by rewrite Hk. rewrite Hd; [done|]. cbn [json_depth typed] in Hf |- *. lia. }
    clear Hnd. induction IH as [|[k x] m Hx _ IH]; [by exists []|]. destruct Hn as (_ & Hnx & Hn), Hw as [Hwx Hw].
    destruct (Hx Hnx Hwx) as (t & Hxt & Ht), (IH Hn Hw) as (ts & Hts & Hk & Hd). cbn [snd] in *. rewrite Hxt. cbn. rewrite Hts.
    exists ((k, t) :: ts); split; [done|]. split; [cbn; by rewrite Hk|]. intros fuel Hf. cbn [json_depth] in Hf, Hd.
    rewrite Ht by lia. cbn. by rewrite Hd by lia.
Qed.

(** Every normalised value has a tree. *)
Lemma typedValueTree_normal v : normal v -> exists t, typedValueTree v = Some t.
Proof.
  induction v as [|b|s|k i|b|b|s|l IH|m IH|s] using value_nested_ind; intros Hn; try done; try (by eexists);
    cbn [typedValueTree normal] in *.
  - subst. by eexists.
  - match goal with |- exists t, (?g ≫= _) = _ => enough (exists ts, g = Some ts) as [ts ->] by (by eexists) end.
    induction IH as [|x l Hx _ IH]; [by eexists|]. destruct Hn as [Hnx Hn].
    destruct (Hx Hnx) as [t ->], (IH Hn) as [ts Hts]. cbn. rewrite Hts. by eexists.
  - match goal with |- exists t, (?g ≫= _) = _ => enough (exists ts, g = Some ts) as [ts ->] by (by eexists) end.
    induction IH as [|[k x] m Hx _ IH]; [by eexists|]. destruct Hn as (_ & Hnx & Hn).
    destruct (Hx Hnx) as [t Ht], (IH Hn) as [ts Hts]. cbn [snd] in *. rewrite Ht. cbn. rewrite Hts. by eexists.
Qed.

(** C31: encoding a value with [EncodeTypedValue] and decoding the text gives back the
    normalised value exactly: int64 and binary64 numbers, nested arrays and objects,
    and objects whose members happen to be named like the codec's own. *)
Theorem typed_value_roundtrip v n :
  wf_value v -> NormalizeValue v = Ok n ->
  exists t, EncodeTypedValue v = Ok (Some t) /\ decodeTypedValue t = Ok n.
Proof.
  intros Hw Hn. unfold EncodeTypedValue, decodeTypedValue. rewrite Hn. cbn.
  destruct (decode_typedValueTree n) as (t & -> & Hd); [by eapply NormalizeValue_normal|by eapply NormalizeValue_wf|].
  exists t. split; [done|]. by apply Hd.
Qed.

(** A document that names its members like the codec. *)
Definition sample_typed : value :=
  VMap [("type", VString "float64"); ("value", VSlice [VInt KInt8 (-7); VNil; VFloat64 0x3FF0000000000000])].
Definition sample_normal : value :=
  VMap [("type", VString "float64"); ("value", VSlice [VInt KInt64 (-7); VNil; VFloat64 0x3FF0000000000000])].
Lemma typed_value_roundtrip_witness :
  exists t, EncodeTypedValue sample_typed = Ok (Some t) /\ decodeTypedValue t = Ok sample_normal.
Proof.
  apply (typed_value_roundtrip sample_typed sample_normal).
  - cbn. repeat split; try (unfold is_u64; lia). repeat constructor; set_solver.
  - vm_compute. reflexivity.
Defined.
