(* ===== verification/PushWire.v ===== *)
(** * Push messages: internal/query/wire/push.go

    The replication push request and response, their protobuf form and the
    validation of a response against its request. A nil data map is represented
    by the empty map; the encoded sizes protobuf computes are parameters. *)
From stdpp Require Import base list gmap strings.
From Stdlib Require Import ZArith.
From S2P Require Import Prelude Value Codec Projection Documents TypedValue.
Local Open Scope Z_scope.

(** ** Requests and responses: internal/core/storage/types/types.go *)
Inductive PushAction := PushCreate | PushUpdate | PushDelete | OtherAction (s : string).
#[export] Instance PushAction_eq_dec : EqDecision PushAction.
Proof. solve_decision. Defined.

Record ReplicationPushChange := { pc_Action : PushAction; pc_Doc : option StoredDoc; pc_BaseVersion : option Z }.
Record ReplicationPushRequest := { pr_Collection : string; pr_Changes : list ReplicationPushChange }.

Inductive PushConflictReason :=
| PushVersionMismatch | PushMissing | PushTombstoned | PushAlreadyExists | PushPreconditionFailed
| OtherReason (s : string).
#[export] Instance PushConflictReason_eq_dec : EqDecision PushConflictReason.
Proof. solve_decision. Defined.

Record ReplicationPushConflict := {
  cf_ChangeIndex : Z; cf_ID : string; cf_Reason : PushConflictReason; cf_Current : option StoredDoc;
}.

(** ** Protobuf messages *)
Inductive PbPushAction := PUSH_ACTION_CREATE | PUSH_ACTION_UPDATE | PUSH_ACTION_DELETE | PUSH_ACTION_OTHER (n : Z).
Record PbDocument := {
  pb_Id : string; pb_Database : string; pb_Fullpath : string; pb_Collection : string; pb_CollectionHash : string;
  pb_Parent : string; pb_UpdatedAt : Z; pb_CreatedAt : Z; pb_Version : Z; pb_Data : json; pb_Deleted : bool;
}.
Record PbPushChange := { pbc_Action : PbPushAction; pbc_Document : option PbDocument; pbc_BaseVersion : option Z }.
Record PbPushRequest := { pbr_Database : string; pbr_Collection : string; pbr_Changes : list (option PbPushChange) }.
Record PbPushConflict := {
  pbf_ChangeIndex : Z; pbf_Id : string; pbf_Reason : PushConflictReason; pbf_Current : option PbDocument;
}.

Inductive wire_error :=
| ErrMissingRequest | ErrInvalidChange (i : nat) | ErrInvalidAction (i : nat) | ErrChangeDocument (i : nat) (e : wire_error)
| ErrEncodeData (e : value_error) | ErrDecodeData (e : typed_error) | ErrDataObject | ErrTypedPanic
| ErrRequestSize | ErrQueryWorkLimit | ErrMissingResponse | ErrMissingConflict
| ErrConflictIndex | ErrConflictDocument | ErrConflictIdentity | ErrConflictCurrent | ErrConflictState.

Definition MaxGRPCBytes : Z := 20 * 2 ^ 20.

(** ** Documents *)
Definition encodePushDocument (doc : StoredDoc) : res wire_error PbDocument :=
  t ← map_err ErrEncodeData (EncodeTypedValue (VMap (map_to_list (doc_Data doc))));
  match t with
  | None => Err ErrTypedPanic
  | Some data =>
      Ok {| pb_Id := doc_Id doc; pb_Database := doc_Database doc; pb_Fullpath := doc_Fullpath doc;
            pb_Collection := doc_Collection doc; pb_CollectionHash := doc_CollectionHash doc; pb_Parent := doc_Parent doc;
            pb_UpdatedAt := doc_UpdatedAt doc; pb_CreatedAt := doc_CreatedAt doc; pb_Version := doc_Version doc;
            pb_Data := data; pb_Deleted := doc_Deleted doc |}
  end.

Definition decodePushDocument (doc : PbDocument) : res wire_error StoredDoc :=
  v ← map_err ErrDecodeData (decodeTypedValue (pb_Data doc));
  data ← match v with
         | VNil => Ok ∅
         | VMap m => Ok (list_to_map m)
         | _ => Err ErrDataObject
         end;
  Ok {| doc_Id := pb_Id doc; doc_Database := pb_Database doc; doc_Fullpath := pb_Fullpath doc;
        doc_Collection := pb_Collection doc; doc_CollectionHash := pb_CollectionHash doc; doc_Parent := pb_Parent doc;
        doc_UpdatedAt := pb_UpdatedAt doc; doc_CreatedAt := pb_CreatedAt doc; doc_Version := pb_Version doc;
        doc_Data := data; doc_Deleted := pb_Deleted doc |}.

(** A nil document stays nil. *)
Definition opt_document {A B E} (f : A -> res E B) (doc : option A) : res E (option B) :=
  match doc with None => Ok None | Some d => Some <$> f d end.

Definition pushActions (a : PushAction) : option PbPushAction :=
  match a with
  | PushCreate => Some PUSH_ACTION_CREATE
  | PushUpdate => Some PUSH_ACTION_UPDATE
  | PushDelete => Some PUSH_ACTION_DELETE
  | OtherAction _ => None
  end.
Definition push_action_of (a : PbPushAction) : option PushAction :=
  match a with
  | PUSH_ACTION_CREATE => Some PushCreate
  | PUSH_ACTION_UPDATE => Some PushUpdate
  | PUSH_ACTION_DELETE => Some PushDelete
  | PUSH_ACTION_OTHER _ => None
  end.
Definition negative_version (v : option Z) : bool := match v with Some n => n <? 0 | None => false end.

Section Wire.
(** [proto.Size]. *)
Context (request_size : PbPushRequest -> Z) (response_size : list (option PbPushConflict) -> Z).

Fixpoint encode_changes (i : nat) (changes : list ReplicationPushChange) : res wire_error (list (option PbPushChange)) :=
  match changes with
  | [] => Ok []
  | c :: changes =>
      match pushActions (pc_Action c), pc_Doc c with
      | Some action, Some d =>
          if negative_version (pc_BaseVersion c) then Err (ErrInvalidChange i)
          else
            doc ← map_err (ErrChangeDocument i) (encodePushDocument d);
            rest ← encode_changes (S i) changes;
            Ok (Some {| pbc_Action := action; pbc_Document := Some doc; pbc_BaseVersion := pc_BaseVersion c |} :: rest)
      | _, _ => Err (ErrInvalidChange i)
      end
  end.

Definition EncodePushRequest (database : string) (req : ReplicationPushRequest) : res wire_error PbPushRequest :=
  changes ← encode_changes 0 (pr_Changes req);
  let out := {| pbr_Database := database; pbr_Collection := pr_Collection req; pbr_Changes := changes |} in
  if MaxGRPCBytes <? request_size out then Err ErrRequestSize else Ok out.

Fixpoint decode_changes (i : nat) (changes : list (option PbPushChange)) : res wire_error (list ReplicationPushChange) :=
  match changes with
  | [] => Ok []
  | Some {| pbc_Action := a; pbc_Document := Some d; pbc_BaseVersion := v |} :: changes =>
      if negative_version v then Err (ErrInvalidChange i)
      else match push_action_of a with
           | None => Err (ErrInvalidAction i)
           | Some action =>
               doc ← map_err (ErrChangeDocument i) (decodePushDocument d);
               rest ← decode_changes (S i) changes;
               Ok ({| pc_Action := action; pc_Doc := Some doc; pc_BaseVersion := v |} :: rest)
           end
  | _ :: _ => Err (ErrInvalidChange i)
  end.

Definition DecodePushRequest (req : option PbPushRequest) : res wire_error ReplicationPushRequest :=
  match req with
  | None => Err ErrMissingRequest
  | Some req =>
      if MaxGRPCBytes <? request_size req then Err ErrRequestSize
      else
        changes ← decode_changes 0 (pbr_Changes req);
        Ok {| pr_Collection := pbr_Collection req; pr_Changes := changes |}
  end.

(** The path of a change's document, from its identifier when it carries none. *)
Definition pushDocumentPath (collection : string) (doc : StoredDoc) : string :=
  if negb (String.eqb (doc_Fullpath doc) "") then doc_Fullpath doc
  else String.append collection (String.append "/" (GetID (doc_Data doc))).

(** What [c.Reason] says against the observed state. *)
Definition reason_valid (change : ReplicationPushChange) (reason : PushConflictReason) (current : option StoredDoc) : bool :=
  match reason, current with
  | PushMissing, None => true
  | PushTombstoned, Some d => doc_Deleted d
  | PushVersionMismatch, Some d =>
      negb (doc_Deleted d) && match pc_BaseVersion change with Some v => negb (doc_Version d =? v) | None => false end
  | PushAlreadyExists, Some d =>
      negb (doc_Deleted d) && (bool_decide (pc_Action change = PushCreate)
        || (bool_decide (pc_Action change = PushUpdate) && bool_decide (pc_BaseVersion change = None)))
  | PushPreconditionFailed, Some d =>
      negb (doc_Deleted d) && match pc_BaseVersion change with Some v => doc_Version d =? v | None => true end
  | _, _ => false
  end.

Definition validate_conflict (database collection : string) (changes : list ReplicationPushChange) (previous : Z)
    (c : ReplicationPushConflict) : res wire_error unit :=
  if (cf_ChangeIndex c <=? previous) || (Z.of_nat (length changes) <=? cf_ChangeIndex c) then Err ErrConflictIndex
  else match changes !! Z.to_nat (cf_ChangeIndex c) with
  | None => Err ErrConflictIndex
  | Some change =>
      match pc_Doc change with
      | None => Err ErrConflictDocument
      | Some doc =>
          if String.eqb (cf_ID c) ""
             || negb (String.eqb (pushDocumentPath collection doc) (String.append collection (String.append "/" (cf_ID c))))
          then Err ErrConflictIdentity
          else
            _ ← match cf_Current c with
                | None => Ok tt
                | Some cur =>
                    match LogicalDocumentID cur with
                    | Err _ => Err ErrConflictCurrent
                    | Ok id =>
                        if negb (String.eqb (doc_Database cur) database) || negb (String.eqb (doc_Collection cur) collection)
                           || negb (String.eqb id (cf_ID c)) || (doc_Version cur <? 0)
                        then Err ErrConflictCurrent else Ok tt
                    end
                end;
            if negb (reason_valid change (cf_Reason c) (cf_Current c)) || contains_any [47; 0] (cf_ID c)
            then Err ErrConflictState else Ok tt
      end
  end.

Fixpoint validate_conflicts (database collection : string) (changes : list ReplicationPushChange) (previous : Z)
    (conflicts : list ReplicationPushConflict) : res wire_error unit :=
  match conflicts with
  | [] => Ok tt
  | c :: conflicts =>
      _ ← validate_conflict database collection changes previous c;
      validate_conflicts database collection changes (cf_ChangeIndex c) conflicts
  end.

(** [None] is the nil response. *)
Definition ValidatePushResponse (database : string) (req : ReplicationPushRequest)
    (resp : option (list ReplicationPushConflict)) : res wire_error unit :=
  match resp with
  | None => Err ErrMissingResponse
  | Some conflicts => validate_conflicts database (pr_Collection req) (pr_Changes req) (-1) conflicts
  end.

Definition i32 (z : Z) : Z := (z + 2 ^ 31) mod 2 ^ 32 - 2 ^ 31.

Definition EncodePushResponse (database : string) (req : ReplicationPushRequest)
    (conflicts : list ReplicationPushConflict) : res wire_error (list (option PbPushConflict)) :=
  _ ← ValidatePushResponse database req (Some conflicts);
  out ← mapM_res (fun c =>
    doc ← opt_document encodePushDocument (cf_Current c);
    Ok (Some {| pbf_ChangeIndex := i32 (cf_ChangeIndex c); pbf_Id := cf_ID c; pbf_Reason := cf_Reason c;
                pbf_Current := doc |})) conflicts;
  if MaxGRPCBytes <? response_size out then Err ErrQueryWorkLimit else Ok out.

(** A nil response or a nil conflict of it is [None]. *)
Definition DecodePushResponse (database : string) (req : ReplicationPushRequest)
    (resp : option (list (option PbPushConflict))) : res wire_error (list ReplicationPushConflict) :=
  match resp with
  | None => Err ErrMissingResponse
  | Some resp =>
      if MaxGRPCBytes <? response_size resp then Err ErrQueryWorkLimit
      else
        out ← mapM_res (fun c =>
          match c with
          | None => Err ErrMissingConflict
          | Some c =>
              doc ← opt_document decodePushDocument (pbf_Current c);
              Ok {| cf_ChangeIndex := pbf_ChangeIndex c; cf_ID := pbf_Id c; cf_Reason := pbf_Reason c; cf_Current := doc |}
          end) resp;
        _ ← ValidatePushResponse database req (Some out);
        Ok out
  end.
End Wire.

(** ** Round trip of a request *)

(** NormalizeValue on a data map. *)
Definition normalize_data (data : Document) : res value_error Document :=
  v ← NormalizeValue (VMap (map_to_list data));
  Ok (match v with VMap m => list_to_map m | _ => ∅ end).

Definition wf_data (data : Document) : Prop := map_Forall (fun _ v => wf_value v) data.

Lemma wf_data_value data : wf_data data -> wf_value (VMap (map_to_list data)).
Proof.
  intros Hd. cbn [wf_value]. split; [apply NoDup_fst_map_to_list|].
  assert (Hl : Forall (fun kv => wf_value kv.2) (map_to_list data)).
  { apply Forall_forall. intros [k v] Hk%elem_of_map_to_list. by apply (Hd k). }
  induction Hl as [|[k v] l Hv _ IH]; [done|]. auto.
Qed.

(** A document with its data replaced. *)
Definition with_data (data : Document) (d : StoredDoc) : StoredDoc :=
  {| doc_Id := doc_Id d; doc_Database := doc_Database d; doc_Fullpath := doc_Fullpath d;
     doc_Collection := doc_Collection d; doc_CollectionHash := doc_CollectionHash d; doc_Parent := doc_Parent d;
     doc_UpdatedAt := doc_UpdatedAt d; doc_CreatedAt := doc_CreatedAt d; doc_Version := doc_Version d;
     doc_Data := data; doc_Deleted := doc_Deleted d |}.

Lemma document_roundtrip doc pb :
  wf_data (doc_Data doc) -> encodePushDocument doc = Ok pb ->
  exists data, normalize_data (doc_Data doc) = Ok data /\ decodePushDocument pb = Ok (with_data data doc).
Proof.
  unfold encodePushDocument, EncodeTypedValue, normalize_data, decodePushDocument.
  intros Hw%wf_data_value He. destruct (NormalizeValue _) as [n|] eqn:Hn; [|discriminate].
  pose proof (NormalizeValue_normal _ _ Hn) as Hnn. pose proof (NormalizeValue_wf _ _ Hw Hn) as Hnw.
  destruct (decode_typedValueTree n Hnn Hnw) as (t & Ht & Hd). cbn in He. rewrite Ht in He. cbn in He.
  apply Ok_inj in He as <-. cbn [mbind res_bind]. eexists; split; [reflexivity|]. cbn [pb_Data].
  unfold decodeTypedValue. rewrite Hd by done. cbn [NormalizeValue] in Hn.
  apply fmap_ok in Hn as (m & _ & ->). done.
Qed.

(** The change a decoder sees: the same one with its data normalised. *)
Definition normalised_change (c c' : ReplicationPushChange) : Prop :=
  pc_Action c' = pc_Action c /\ pc_BaseVersion c' = pc_BaseVersion c /\
  exists d data, pc_Doc c = Some d /\ normalize_data (doc_Data d) = Ok data /\ pc_Doc c' = Some (with_data data d).

Lemma changes_roundtrip i j changes out :
  Forall (fun c => forall d, pc_Doc c = Some d -> wf_data (doc_Data d)) changes ->
  encode_changes i changes = Ok out ->
  exists changes', decode_changes j out = Ok changes' /\ Forall2 normalised_change changes changes'.
Proof.
  intros Hw. revert i j out. induction Hw as [|c changes Hc _ IH]; intros i j out; cbn [encode_changes].
  { intros [= <-]. by exists []. }
  destruct (pushActions (pc_Action c)) as [a|] eqn:Ha; [|discriminate].
  destruct (pc_Doc c) as [d|] eqn:Hd; [|discriminate].
  destruct (negative_version (pc_BaseVersion c)) eqn:Hv; [discriminate|].
  intros H. ok_inv. subst out.
  destruct (document_roundtrip d x) as (data & Hn & Hdec); [auto|done|].
  edestruct (IH (S i) (S j)) as (rest & Hr & Hf); [done|].
  assert (Hp : push_action_of a = Some (pc_Action c)) by (destruct (pc_Action c); simplify_eq/=; done).
  cbn [decode_changes]. rewrite Hv, Hp, Hdec, Hr. cbn. eexists; split; [reflexivity|].
  constructor; [|done]. repeat split. cbn. eauto.
Qed.

(** A push request that encodes within the message limit decodes to the same
    collection and, change by change in order, the same action, document identity and
    optional base version, with the data in its normal form. *)
Theorem push_request_roundtrip request_size database req out :
  Forall (fun c => forall d, pc_Doc c = Some d -> wf_data (doc_Data d)) (pr_Changes req) ->
  EncodePushRequest request_size database req = Ok out ->
  exists req', DecodePushRequest request_size (Some out) = Ok req' /\ pr_Collection req' = pr_Collection req /\
    Forall2 normalised_change (pr_Changes req) (pr_Changes req').
Proof.
  unfold EncodePushRequest, DecodePushRequest. intros Hw H. ok_inv.
  destruct (MaxGRPCBytes <? _) eqn:Hs; [discriminate|]. apply Ok_inj in H0 as <-.
  rewrite Hs. destruct (changes_roundtrip 0 0 _ _ Hw H) as (cs & Hd & Hf). cbn. rewrite Hd. cbn. eauto.
Qed.

Definition sample_pushed : StoredDoc :=
  {| doc_Id := ""; doc_Database := ""; doc_Fullpath := "users/u1"; doc_Collection := ""; doc_CollectionHash := "";
     doc_Parent := ""; doc_UpdatedAt := 0; doc_CreatedAt := 0; doc_Version := 0;
     doc_Data := {[ "id" := VString "u1"; "age" := VInt KInt32 7 ]}; doc_Deleted := false |}.
Definition sample_request : ReplicationPushRequest :=
  {| pr_Collection := "users";
     pr_Changes := [{| pc_Action := PushUpdate; pc_Doc := Some sample_pushed; pc_BaseVersion := Some 3 |}] |}.
Lemma push_request_roundtrip_witness :
  exists out req', EncodePushRequest (fun _ => 100) "db" sample_request = Ok out /\
    DecodePushRequest (fun _ => 100) (Some out) = Ok req' /\
    Forall2 normalised_change (pr_Changes sample_request) (pr_Changes req').
Proof.
  eexists. edestruct (push_request_roundtrip (fun _ => 100) "db" sample_request) as (req' & H1 & H2 & H3).
  - repeat constructor. intros d [= <-]. unfold wf_data, sample_pushed. cbn [doc_Data].
    apply map_Forall_insert_2; [|apply map_Forall_singleton]; cbn; [done|lia].
  - vm_compute. reflexivity.
  - exists req'. split; [vm_compute; reflexivity|]. split; [exact H1|exact H3].
Defined.
