(* ===== verification/PushFacts.v ===== *)
(** * What a push does

    Every write of a batch is the write of one of its changes, made while the
    condition of that change held; every change is written once, reported as a
    conflict, or an unversioned delete of a document that was not live in a state the
    push met while it handled the change. *)
From stdpp Require Import base list gmap strings.
From Stdlib Require Import ZArith Ascii.
From S2P Require Import Prelude Value Filter Codec Template Projection Documents Prog Mongo DocumentStore Router TypedValue PushWire Push.
Local Open Scope Z_scope.

(** ** Paths *)
Lemma append_cons c (a b : string) : String.append (String.String c a) b = String.String c (String.append a b).
Proof. reflexivity. Qed.
Lemma append_nil (b : string) : String.append "" b = b.
Proof. reflexivity. Qed.

Lemma strip_prefix_app p s : strip_prefix p (String.append p s) = Some s.
Proof. induction p as [|c p IH]; [done|]. rewrite append_cons. cbn [strip_prefix]. by rewrite Ascii.eqb_refl. Qed.

Lemma strip_prefix_Some p s r : strip_prefix p s = Some r -> s = String.append p r.
Proof.
  revert s; induction p as [|c p IH]; intros s; cbn [strip_prefix]; [by intros [= <-]|].
  destruct s as [|d s]; [done|]. destruct (Ascii.eqb_spec c d) as [->|]; [|done]. intros H. by rewrite (IH s H).
Qed.

Lemma string_append_assoc (a b c : string) : String.append (String.append a b) c = String.append a (String.append b c).
Proof. induction a as [|x a IH]; [done|]. by rewrite !append_cons, IH. Qed.

Lemma trim_prefix_path collection path :
  has_prefix (String.append collection "/") path = true ->
  path = String.append collection (String.append "/" (trim_prefix (String.append collection "/") path)).
Proof.
  unfold has_prefix, trim_prefix. destruct (strip_prefix _ path) as [r|] eqn:E; [|done]. intros _. cbn [default].
  apply strip_prefix_Some in E. by rewrite string_append_assoc in E.
Qed.

(** A document lives in the Mongo collection of its logical collection. *)
Lemma has_prefix_sys collection id :
  String.eqb (String.append collection (String.append "/" id)) "sys"
    || has_prefix "sys/" (String.append collection (String.append "/" id))
  = String.eqb collection "sys" || has_prefix "sys/" collection.
Proof.
  unfold has_prefix. do 4 (destruct collection as [|? collection];
    rewrite ?append_nil, ?append_cons; cbn [strip_prefix String.eqb]; [reflexivity|];
    match goal with |- context [Ascii.eqb ?x ?y] => rewrite (Ascii.eqb_sym x y); destruct (Ascii.eqb y x) eqn:?; [|done] end).
  done.
Qed.

Lemma getCollection_path s collection id :
  getCollection s (String.append collection (String.append "/" id)) = getCollection s collection.
Proof. unfold getCollection. by rewrite has_prefix_sys. Qed.

(** ** Rows after a write *)
Section Facts.
Context `{MongoDB} (blake3 : bytes -> bytes) (s : documentStore).

Lemma bump_update data now old :
  bump {| upd_Set := update_sets data now; upd_IncVersion := 1 |} old
  = Row (set_doc now (doc_Version (row_doc old) + 1) data (doc_Deleted (row_doc old)) (row_doc old)) (row_expires old).
Proof. unfold bump, bump_with, update_sets. cbn [upd_Set fold_left flip]. by rewrite apply_data, apply_updated. Qed.

Lemma bump_delete updated now old :
  bump {| upd_Set := delete_sets s updated now; upd_IncVersion := 1 |} old
  = Row (set_doc updated (doc_Version (row_doc old) + 1) ∅ true (row_doc old)) (Some (now + ds_retention s)).
Proof.
  unfold bump, bump_with, delete_sets. cbn [upd_Set fold_left flip].
  by rewrite apply_deleted, apply_data, apply_updated, apply_expires.
Qed.

Lemma admits_base change old v :
  admits (base_filters change) old -> pc_BaseVersion change = Some v -> doc_Version (row_doc old) = v.
Proof.
  unfold admits, base_filters. intros Ha Hv. rewrite Hv in Ha. apply Z.eqb_eq. rewrite <- cond_version.
  apply (Ha "version"). by rewrite !lookup_delete_ne by done.
Qed.

(** ** Accounting *)

(** [w] is the write of a change: a creation where there was nothing or a
    tombstone, or an update or deletion of a live document, at the base version if
    the change has one. *)
Inductive applied (database collection : string) (change : ReplicationPushChange) (doc : StoredDoc) : effect -> Prop :=
| applied_create now data before :
    (pc_Action change = PushCreate \/ (pc_Action change = PushUpdate /\ pc_BaseVersion change = None)) ->
    normalize_data (doc_Data doc) = Ok data ->
    (forall old, before = Some old -> doc_Deleted (row_doc old) = true) ->
    let path := pushDocumentPath collection doc in
    applied database collection change doc
      {| eff_coll := getCollection s path; eff_key := CalculateDatabase blake3 database path; eff_before := before;
         eff_after := Row (NewStoredDoc blake3 now database collection (trim_prefix (String.append collection "/") path)
                             (Some data)) None |}
| applied_update now data old :
    pc_Action change = PushUpdate -> normalize_data (doc_Data doc) = Ok data ->
    doc_Database (row_doc old) = database -> doc_Deleted (row_doc old) = false ->
    (forall v, pc_BaseVersion change = Some v -> doc_Version (row_doc old) = v) ->
    let path := pushDocumentPath collection doc in
    applied database collection change doc
      {| eff_coll := getCollection s path; eff_key := CalculateDatabase blake3 database path; eff_before := Some old;
         eff_after := Row (set_doc now (doc_Version (row_doc old) + 1) (StripProtectedFields data) false (row_doc old))
                        (row_expires old) |}
| applied_delete now expires old :
    pc_Action change = PushDelete ->
    doc_Database (row_doc old) = database -> doc_Deleted (row_doc old) = false ->
    (forall v, pc_BaseVersion change = Some v -> doc_Version (row_doc old) = v) ->
    let path := pushDocumentPath collection doc in
    applied database collection change doc
      {| eff_coll := getCollection s path; eff_key := CalculateDatabase blake3 database path; eff_before := Some old;
         eff_after := Row (set_doc now (doc_Version (row_doc old) + 1) ∅ true (row_doc old)) (Some expires) |}.

Context (env : db -> db -> Prop) (J : string -> string -> row -> Prop).

(** A document a client was shown was a row stored under its own key. *)
Definition observed (database path : string) (d : StoredDoc) : Prop :=
  doc_Database d = database /\ doc_Id d = CalculateDatabase blake3 database path /\
  exists row, row_doc row = d /\ J (getCollection s path) (doc_Id d) row.

(** The writes and the conflict of the change at position [i], handled while the
    database went through the states [seen]. *)
Definition accounted (seen : db -> Prop) (database collection : string) (i : nat) (change : ReplicationPushChange)
    (done : list effect * option ReplicationPushConflict) : Prop :=
  exists doc, pc_Doc change = Some doc /\ let path := pushDocumentPath collection doc in
  match done with
  | (ws, Some c) => ws = [] /\ cf_ChangeIndex c = Z.of_nat i /\
      reason_valid change (cf_Reason c) (cf_Current c) = true /\
      cf_ID c = match cut_last slash path with Some (_, id) => id | None => path end /\
      forall d, cf_Current c = Some d -> observed database path d
  | (ws, None) => (exists w, ws = [w] /\ applied database collection change doc w) \/
      (ws = [] /\ pc_Action change = PushDelete /\ pc_BaseVersion change = None /\
       exists m, seen m /\ ~ live blake3 s m database path)
  end.

(** The writes of a change whose execution failed: its own, or none. *)
Definition attempted (database collection : string) (change : ReplicationPushChange) (ws : list effect) : Prop :=
  ws = [] \/ exists doc w, pc_Doc change = Some doc /\ ws = [w] /\ applied database collection change doc w.

(** *** One change *)
Section Change.
Context (storage : DocumentStoreOps) (HS : StoreContract blake3 s env J storage).
Context (Henv : forall m m1, all_rows J m -> env m m1 -> all_rows J m1).
Context (seen : db -> Prop) (Hseen : forall m, answering m -> seen m).
Context (cfg : Paths.ValidationConfig) (database collection : string).
(** The paths of the batch. *)
Context (pushed : string -> Prop).
Context (Hnew : forall now id data, pushed (String.append collection (String.append "/" id)) ->
  let doc := NewStoredDoc blake3 now database collection id data in
  J (getCollection s collection) (doc_Id doc) (Row doc None)).
Local Abbreviation yields := (yields env (all_rows J)).

Lemma create_doc_new now id data :
  create_doc blake3 database (NewStoredDoc blake3 now database collection id data) = NewStoredDoc blake3 now database collection id data.
Proof. unfold create_doc, NewStoredDoc; cbn. by case_match. Qed.

Lemma pushCurrent_reads path :
  yields (pushCurrent storage database path)
    (fun ws r => ws = [] /\ (forall d, r = Ok (Some d) -> observed database path d) /\
       (forall c, r = Ok c -> is_missing c = true -> exists m, seen m /\ ~ live blake3 s m database path)).
Proof.
  unfold pushCurrent. eapply yields_bind.
  - apply contract_get. intros o [= <-]. done.
  - intros w1 r (-> & Hr & Hg). apply yields_ret; [done|]. split_and!; [done| |].
    + intros d Hd. destruct r as [d'|[]]; simplify_eq. destruct Hr as (row & <- & Hdb & Hid & HJ). unfold observed. eauto.
    + intros c Hc Hm. destruct Hg as (m & Hans & Hl); [|eauto]. destruct r as [d'|[]]; simplify_eq; cbn in Hm; eauto.
Qed.

Lemma reason_ok index path change current creating :
  (creating = true -> pc_Action change = PushCreate \/ (pc_Action change = PushUpdate /\ pc_BaseVersion change = None)) ->
  reason_valid change (cf_Reason (pushConflict index path change current creating)) current = true.
Proof.
  intros Hc. unfold pushConflict, reason_valid; cbn. destruct current as [d|]; [|done].
  destruct (doc_Deleted d) eqn:Hd; [done|]. destruct creating.
  - destruct Hc as [-> |[-> ->]]; cbn; rewrite ?Hd; done.
  - destruct (pc_BaseVersion change) as [v|] eqn:Hb; [|by rewrite ?Hd].
    destruct (doc_Version d =? v) eqn:Hv; cbn; by rewrite ?Hd, ?Hv.
Qed.

Lemma validated_path i change doc :
  validate_change cfg database collection i change = Ok tt -> pc_Doc change = Some doc ->
  let path := pushDocumentPath collection doc in
  (forall a, pc_Action change <> OtherAction a) /\
  is_ok (Paths.CheckDocumentPath cfg path) = true /\
  path = String.append collection (String.append "/" (trim_prefix (String.append collection "/") path)) /\
  contains_any [47] (trim_prefix (String.append collection "/") path) = false.
Proof.
  unfold validate_change. intros Hv Hd. rewrite Hd in Hv. cbn zeta.
  assert (Ha : forall a, pc_Action change <> OtherAction a) by (intros a Ha; by rewrite Ha in Hv).
  split; [done|]. destruct (pc_Action change); [| | |by exfalso; eapply Ha];
    destruct (negative_version _); try discriminate;
    (destruct (_ || _ || _) in Hv at 1; [discriminate|]);
    (destruct (negb (is_ok _) || _ || _) eqn:E in Hv; [discriminate|]);
    apply orb_false_iff in E as [[E1%negb_false_iff E2%negb_false_iff]%orb_false_iff E3];
    (split; [done|]; split; [by apply trim_prefix_path|done]).
Qed.

Lemma write_accounts i change doc creating :
  validate_change cfg database collection i change = Ok tt -> pc_Doc change = Some doc ->
  pushed (pushDocumentPath collection doc) ->
  (creating = true -> pc_Action change = PushCreate \/ (pc_Action change = PushUpdate /\ pc_BaseVersion change = None)) ->
  (creating = false -> pc_Action change <> PushCreate) ->
  yields (writePushChange blake3 storage database collection (pushDocumentPath collection doc) change doc creating)
    (fun ws r => match r with
     | Ok _ => exists w, ws = [w] /\ applied database collection change doc w
     | Err e => (conflict_error creating e = true -> ws = []) /\
                (ws = [] \/ exists w, ws = [w] /\ applied database collection change doc w)
     end).
Proof.
  intros Hv Hd Hpu Hc Hnc. destruct (validated_path i change doc Hv Hd) as (Ha & _ & Hp & _).
  set (path := pushDocumentPath collection doc) in *. unfold writePushChange.
  destruct (normalize_data (doc_Data doc)) as [data|e] eqn:Hn; [|by apply yields_ret; auto].
  set (P := fun ws => exists w, ws = [w] /\ applied database collection change doc w).
  eapply (yields_bind _ _ _ _ (write_post P)).
  2: { intros w1 [[]|e] Hw; apply yields_ret; try done; rewrite app_nil_r; cbn; [exact Hw|].
       destruct e; cbn in Hw; subst; cbn; try (split; [done|by left]). by split; [|exact Hw]. }
  assert (W : forall Q : list effect -> Prop, (forall ws, Q ws -> P ws) ->
    forall ws r, write_post Q ws r -> write_post P ws r) by (intros Q HQ ws [[]|[]]; cbn; naive_solver).
  destruct creating.
  - eapply yields_bind; [by apply now_reads|]. cbn beta. intros w1 now ->. cbn [app].
    eapply yields_weaken; [apply contract_create; rewrite create_doc_new; apply Hnew; by rewrite <- Hp|].
    apply W. intros ws (before & -> & Hb). rewrite create_doc_new. eexists; split; [reflexivity|].
    pose proof (applied_create database collection change doc now data before (Hc eq_refl) Hn Hb) as HA. cbn zeta in HA.
    fold path in HA. cbn [NewStoredDoc doc_Collection doc_Id]. rewrite Hp in HA at 1 2.
    rewrite getCollection_path in HA. exact HA.
  - specialize (Hnc eq_refl). case_bool_decide as Hdel.
    + eapply yields_weaken; [apply contract_delete|]. apply W. intros ws (updated & now & old & -> & Hid & Hdb & Hl & Hadm).
      eexists; split; [reflexivity|]. rewrite bump_delete. apply applied_delete; try done. by intros; eapply admits_base.
    + eapply yields_weaken; [apply contract_update|]. apply W. intros ws (now & old & -> & Hid & Hdb & Hl & Hadm).
      eexists; split; [reflexivity|]. rewrite bump_update, Hl. apply applied_update; try done.
      * destruct (pc_Action change); try done. by exfalso; eapply Ha.
      * by intros; eapply admits_base.
Qed.

Definition change_post (i : nat) (change : ReplicationPushChange) (ws : list effect)
    (r : res push_error (option ReplicationPushConflict)) : Prop :=
  match r with
  | Ok oc => accounted seen database collection i change (ws, oc)
  | Err _ => attempted database collection change ws
  end.

Lemma conflict_accounted i change doc current creating :
  pc_Doc change = Some doc ->
  (creating = true -> pc_Action change = PushCreate \/ (pc_Action change = PushUpdate /\ pc_BaseVersion change = None)) ->
  (forall d, current = Some d -> observed database (pushDocumentPath collection doc) d) ->
  accounted seen database collection i change
    ([], Some (pushConflict i (pushDocumentPath collection doc) change current creating)).
Proof. intros Hd Hc Ho. exists doc. split; [done|]. cbn zeta.
  split; [done|]. split; [done|]. split; [by apply reason_ok|]. split; [done|exact Ho].
Qed.

(** After a write that reported a conflict error and wrote nothing. *)
Lemma reread_accounts i change doc creating :
  pc_Doc change = Some doc ->
  (creating = true -> pc_Action change = PushCreate \/ (pc_Action change = PushUpdate /\ pc_BaseVersion change = None)) ->
  let path := pushDocumentPath collection doc in
  yields (latest <-! pushCurrent storage database path;
          if bool_decide (pc_Action change = PushDelete) && bool_decide (pc_BaseVersion change = None) && is_missing latest
          then Ret (Ok None) else Ret (Ok (Some (pushConflict i path change latest creating))))
    (change_post i change).
Proof.
  intros Hd Hc path. eapply yields_try; [done|apply pushCurrent_reads| |]; cbn beta.
  - intros w e [-> _]. by left.
  - intros w1 latest (-> & Ho & Hg). destruct (_ && _ && _) eqn:E; apply yields_ret; try done.
    + apply andb_true_iff in E as [[E1%bool_decide_eq_true E2%bool_decide_eq_true]%andb_true_iff Em].
      exists doc. split; [done|]. right. split_and!; [done|done|done|by eapply Hg].
    + apply conflict_accounted; [done|done|]. intros d ->. by apply Ho.
Qed.

Lemma push_change_accounts i change :
  validate_change cfg database collection i change = Ok tt ->
  (forall doc, pc_Doc change = Some doc -> pushed (pushDocumentPath collection doc)) ->
  yields (push_change blake3 storage database collection i change) (change_post i change).
Proof.
  intros Hv Hpu. unfold push_change. destruct (pc_Doc change) as [doc|] eqn:Hd; [|apply yields_ret; [done|by left]].
  set (path := pushDocumentPath collection doc).
  eapply yields_try; [done|apply pushCurrent_reads| |]; cbn beta.
  { intros w e [-> _]. by left. }
  intros w1 current (-> & Ho & Hg). cbn [app].
  assert (Ho' : forall d, current = Some d -> observed database path d) by (intros d ->; by apply Ho). clear Ho.
  destruct (bool_decide _ && negb (is_missing current)) eqn:E1.
  { apply andb_true_iff in E1 as [E1%bool_decide_eq_true _].
    apply yields_ret; [done|]. apply conflict_accounted; auto. }
  destruct (negb _ && negb _ && is_missing current) eqn:E2.
  { apply yields_ret; [done|]. by apply conflict_accounted. }
  destruct (bool_decide (pc_Action change = PushDelete) && _ && is_missing current) eqn:E3.
  { apply andb_true_iff in E3 as [[A%bool_decide_eq_true B%bool_decide_eq_true]%andb_true_iff Em].
    apply yields_ret; [done|]. exists doc. split; [done|]. right. split_and!; [done|done|done|by eapply Hg]. }
  destruct (negb (is_missing current) && _) eqn:E4.
  { apply yields_ret; [done|]. by apply conflict_accounted. }
  set (creating := is_missing current && negb (bool_decide (pc_Action change = PushDelete))).
  destruct (validated_path i change doc Hv Hd) as (Ha & _).
  assert (Hc : creating = true ->
    pc_Action change = PushCreate \/ (pc_Action change = PushUpdate /\ pc_BaseVersion change = None)).
  { subst creating. intros [Hm Hnd]%andb_true_iff. rewrite Hm in E2.
    destruct (pc_Action change) eqn:Hact; [by left| |done|by exfalso; eapply Ha]. right. split; [done|].
    destruct (pc_BaseVersion change); [discriminate E2|done]. }
  assert (Hnc : creating = false -> pc_Action change <> PushCreate).
  { subst creating. intros Hf Hact. rewrite Hact in E1, Hf. cbn in E1, Hf. by destruct (is_missing current). }
  eapply yields_bind; [by apply (write_accounts i change doc creating Hv Hd (Hpu doc eq_refl) Hc Hnc)|]. cbn beta.
  intros w1 [[]|e] Hw.
  - apply yields_ret; [done|]. rewrite app_nil_r. exists doc. split; [done|]. by left.
  - destruct Hw as [Hw1 Hw2]. destruct (conflict_error creating e) eqn:He; cbn [negb].
    + rewrite (Hw1 eq_refl). by apply reread_accounts.
    + apply yields_ret; [done|]. rewrite app_nil_r. destruct Hw2 as [->|(w & -> & Hw)]; [by left|right; eauto].
Qed.

End Change.
End Facts.

(** *** The loop *)
Section Batch.
Context `{MongoDB} (blake3 : bytes -> bytes) (s : documentStore) (env : db -> db -> Prop) (J : string -> string -> row -> Prop).
Local Abbreviation accounted := (accounted blake3 s J).
Local Abbreviation attempted := (attempted blake3 s).
Context (storage : DocumentStoreOps) (HS : forall S, StoreContract (H := watched S) blake3 s env J storage).
Context (Henv : forall m m1, all_rows J m -> env m m1 -> all_rows J m1).
Context (cfg : Paths.ValidationConfig) (database collection : string) (pushed : string -> Prop).
Context (Hnew : forall now id data, pushed (String.append collection (String.append "/" id)) ->
  let doc := NewStoredDoc blake3 now database collection id data in
  J (getCollection s collection) (doc_Id doc) (Row doc None)).

(** The changes from position [i] on with what became of them: the states the
    database was seen in while the change was handled, its writes and its conflict. *)
Inductive all_accounted : nat -> list ReplicationPushChange -> list (list db * list effect * option ReplicationPushConflict) -> Prop :=
| accounted_nil i : all_accounted i [] []
| accounted_cons i c cs vs ws oc ds :
    accounted (fun m => m ∈ vs) database collection i c (ws, oc) -> all_accounted (S i) cs ds -> all_accounted i (c :: cs) ((vs, ws, oc) :: ds).
Definition done_states (done : list (list db * list effect * option ReplicationPushConflict)) : list db := concat (map (fun d => d.1.1) done).
Definition done_writes (done : list (list db * list effect * option ReplicationPushConflict)) : list effect := concat (map (fun d => d.1.2) done).
Definition done_conflicts (done : list (list db * list effect * option ReplicationPushConflict)) : list ReplicationPushConflict :=
  concat (map (fun d => option_list d.2) done).

(** The writes of a batch that failed: those of the changes before the failure,
    and of the failing change its own or none. *)
Definition prefix_accounted (i : nat) (changes : list ReplicationPushChange) (vs : list db) (ws : list effect) : Prop :=
  exists past rest done vtail tail, changes = past ++ rest /\ all_accounted i past done /\
    vs = done_states done ++ vtail /\ ws = done_writes done ++ tail /\
    match rest with [] => tail = [] | c :: _ => attempted database collection c tail end.

Definition batch_post (i : nat) (changes : list ReplicationPushChange) (vs : list db) (ws : list effect)
    (r : res push_error (list ReplicationPushConflict)) : Prop :=
  match r with
  | Ok conflicts => exists done, all_accounted i changes done /\ vs = done_states done /\ ws = done_writes done /\
      conflicts = done_conflicts done
  | Err _ => prefix_accounted i changes vs ws
  end.

Lemma push_changes_accounts i changes :
  validate_changes cfg database collection i changes = Ok tt ->
  Forall (fun c => forall doc, pc_Doc c = Some doc -> pushed (pushDocumentPath collection doc)) changes ->
  yields_seen env (all_rows J) (push_changes blake3 storage database collection i changes) (batch_post i changes).
Proof.
  revert i; induction changes as [|c changes IH]; intros i Hv Hpu; cbn [push_changes validate_changes] in *.
  { apply yields_seen_ret; [done|]. exists []. repeat constructor. }
  apply bind_ok in Hv as ([] & Hc & Hv). apply Forall_cons in Hpu as [Hp Hpu].
  eapply yields_seen_try; [done| | |].
  { apply (yields_watched env (all_rows J) _ (fun S => change_post blake3 s J S database collection i c)). intros S.
    eapply (push_change_accounts (H := watched S)); [apply HS|done|apply answering_watched|exact Hnew|exact Hc|exact Hp]. }
  { cbn beta. intros v w e Hw. exists [], (c :: changes), [], v, w. split_and!; [done|constructor|done|done|exact Hw]. }
  cbn beta. intros v1 w1 oc Hw. eapply yields_seen_try; [done|by apply IH| |]; cbn beta.
  - intros v2 w2 e (past & rest & done' & vtail & tail & -> & Ha & -> & -> & Ht).
    exists (c :: past), rest, ((v1, w1, oc) :: done'), vtail, tail. split_and!; [done|by constructor| | |exact Ht];
      unfold done_states, done_writes; cbn; by rewrite app_assoc.
  - intros v2 w2 cs (done' & Ha & -> & -> & ->). apply yields_seen_ret; [done|].
    exists ((v1, w1, oc) :: done'). rewrite !app_nil_r. split_and!; [by constructor|done|done|done].
Qed.

(** *** The batch *)
Lemma Push_accounts request_size response_size req :
  pr_Collection req = collection ->
  Forall (fun c => forall doc, pc_Doc c = Some doc -> pushed (pushDocumentPath collection doc)) (pr_Changes req) ->
  yields_seen env (all_rows J) (Push blake3 cfg request_size response_size storage database req) (batch_post 0 (pr_Changes req)).
Proof.
  intros Hcol Hpu. unfold Push. destruct (ValidatePushRequest cfg request_size database req) as [[]|e] eqn:Hv.
  2: { apply yields_seen_ret; [done|]. exists [], (pr_Changes req), [], [], []. split_and!; [done|constructor|done|done|].
       destruct (pr_Changes req); [done|by left]. }
  assert (Hc : validate_changes cfg database collection 0 (pr_Changes req) = Ok tt).
  { unfold ValidatePushRequest in Hv. subst collection. destruct (_ || _); [discriminate|].
    destruct (pr_Changes req); [discriminate|]. apply bind_ok in Hv as ([] & Hv & _). exact Hv. }
  rewrite Hcol. eapply yields_seen_try; [done|by apply push_changes_accounts| |]; cbn beta.
  - done.
  - intros v1 w1 conflicts (done' & Ha & -> & -> & ->). apply yields_seen_ret; [done|]. rewrite !app_nil_r.
    destruct (EncodePushResponse _ _ _ _); cbn; [by exists done'|].
    exists (pr_Changes req), [], done', [], []. rewrite !app_nil_r. done.
Qed.
End Batch.

(** C27: whatever other clients do to the database between the calls of a push, a push
    that answers has made exactly the writes of its changes, in request order: each
    change was either written once - created where nothing or a tombstone was stored,
    or updated or deleted on a live document whose version was the base version of the
    change, leaving the next version - or reported as the conflict with its position
    and a reason that fits the state shown, or was an unversioned delete of a document
    that was missing or a tombstone in a state of the database at one of the calls made
    for this change. A push that fails has made the writes of the changes before the
    failing one and of that one its own or none; a rejected batch writes nothing. *)
Theorem push_accounts `{MongoDB} blake3 s cfg request_size response_size env database req m vs ws m' r :
  exec_seen env (Push blake3 cfg request_size response_size (document_ops blake3 s) database req) m vs ws m' r ->
  batch_post blake3 s (fun _ _ _ => True) database (pr_Collection req) 0 (pr_Changes req) vs ws r /\
  (forall e, ValidatePushRequest cfg request_size database req = Err e -> ws = [] /\ r = Err e).
Proof.
  intros Hx. split. 2: { intros e He. unfold Push in Hx. rewrite He in Hx. by destruct Hx as (_ & _ & -> & ->). }
  set (J := fun (_ _ : string) (_ : row) => True).
  assert (HI : forall m, all_rows J m) by done.
  assert (HS : forall S, StoreContract (H := watched S) blake3 s env J (document_ops blake3 s))
    by (intros S; by apply (document_contract (H := watched S))).
  eapply (Push_accounts blake3 s env J _ HS (fun m m1 _ _ => HI m1) cfg database (pr_Collection req) (fun _ => True));
    [done|done|by apply Forall_forall|apply (HI m)|exact Hx].
Qed.

#[local] Existing Instance model_mongo.

(** A batch with one change of each kind: a creation, an update at the stored
    version, a deletion at an old version and the deletion of a missing document. *)
Definition push_doc (id : string) : StoredDoc :=
  {| doc_Id := ""; doc_Database := ""; doc_Fullpath := String.append "users/" id; doc_Collection := "";
     doc_CollectionHash := ""; doc_Parent := ""; doc_UpdatedAt := 0; doc_CreatedAt := 0; doc_Version := 0;
     doc_Data := {[ "name" := VString id ]}; doc_Deleted := false |}.
Definition mixed_request : ReplicationPushRequest :=
  {| pr_Collection := "users";
     pr_Changes := [{| pc_Action := PushCreate; pc_Doc := Some (push_doc "a"); pc_BaseVersion := None |};
                    {| pc_Action := PushUpdate; pc_Doc := Some (push_doc "b"); pc_BaseVersion := Some 1 |};
                    {| pc_Action := PushDelete; pc_Doc := Some (push_doc "c"); pc_BaseVersion := Some 7 |};
                    {| pc_Action := PushDelete; pc_Doc := Some (push_doc "d"); pc_BaseVersion := None |}] |}.
Definition sample_store : documentStore := {| ds_data := "documents"; ds_sys := "sys"; ds_retention := 60 |}.
Definition sample_rows : db :=
  let row id := Row (NewStoredDoc (fun l => l) 5 "db" "users" id None) None in
  {[ "documents" := list_to_map (map (fun id => (doc_Id (row_doc (row id)), row id)) ["b"; "c"]) ]}.
Definition sample_push : mprog (res push_error (list ReplicationPushConflict)) :=
  Push (fun l => l) Paths.DefaultValidationConfig (fun _ => 100) (fun _ => 100) (document_ops (fun l => l) sample_store)
    "db" mixed_request.

Lemma push_accounts_witness :
  exists m' vs ws conflicts, exec_seen (fun _ _ => True) sample_push sample_rows vs ws m' (Ok conflicts) /\
    length ws = 2%nat /\ map cf_Reason conflicts = [PushVersionMismatch] /\
    batch_post (fun l => l) sample_store (fun _ _ _ => True) "db" "users" 0 (pr_Changes mixed_request) vs ws (Ok conflicts).
Proof.
  destruct (run sample_push sample_rows) as [[m' ws] r] eqn:Hr.
  assert (Hx : exec (fun _ _ => True) sample_push sample_rows ws m' r) by exact (run_exec _ _ _ _ _ _ Hr).
  apply exec_has_seen in Hx as [vs Hx]. pose proof (push_accounts _ _ _ _ _ _ _ _ _ _ _ _ _ Hx) as [Hb _].
  assert (Hv : match r with
               | Ok cs => length ws = 2%nat /\ map cf_Reason cs = [PushVersionMismatch]
               | Err _ => False
               end).
  { replace r with (run sample_push sample_rows).2 by (by rewrite Hr).
    replace ws with (run sample_push sample_rows).1.2 by (by rewrite Hr). vm_compute. split; reflexivity. }
  destruct r as [cs|e]; [|destruct Hv]. exists m', vs, ws, cs. destruct Hv. auto.
Defined.
