(* ===== verification/PushResponse.v ===== *)
(** * A push accepts its own response

    The conflicts a push builds pass the validation the response goes through, so
    the writes of a batch are not hidden behind an error of the report: what can
    still fail is the encoding of a stored document and the size of the message. *)
From stdpp Require Import base list gmap strings.
From Stdlib Require Import ZArith Ascii.
From S2P Require Import Prelude Value Filter Codec Template Projection Documents Prog Mongo DocumentStore Router TypedValue PushWire Push PushFacts.
Local Open Scope Z_scope.

(** ** Valid paths *)
Lemma CheckPath_ok cfg p :
  Paths.CheckPath cfg p = Ok tt ->
  p <> "" /\ forallb Paths.path_char (bytes_of_string p) = true /\ has_prefix "/" p = false /\
  ends_with_slash p = false /\ double_slash p = false.
Proof.
  unfold Paths.CheckPath. destruct (String.eqb_spec p ""); [done|]. destruct (_ <? _); [done|].
  destruct (forallb _ _) eqn:E; [|done]. cbn [negb].
  destruct (has_prefix "/" p) eqn:E1; [done|]. destruct (ends_with_slash p) eqn:E2; [done|]. cbn.
  by destruct (double_slash p) eqn:E3.
Qed.

Lemma split_cons sep s : exists seg segs, split sep s = seg :: segs.
Proof.
  destruct s as [|c s]; [by repeat eexists|]. cbn. destruct (Ascii.eqb c sep); [by repeat eexists|].
  destruct (split sep s); by repeat eexists.
Qed.

(** Segments after the first are empty only at a double or a final slash. *)
Lemma segments_nonempty p :
  ends_with_slash p = false -> double_slash p = false ->
  forall seg segs, split slash p = seg :: segs ->
  existsb (fun seg => String.eqb seg "") segs = false /\ (seg = "" -> p = "" \/ has_prefix "/" p = true).
Proof.
  induction p as [|c p IH]; intros He Hd seg segs Hs.
  { cbn in Hs. injection Hs as <- <-. auto. }
  assert (He' : ends_with_slash p = false) by (cbn in He; by destruct p).
  assert (Hd' : double_slash p = false).
  { destruct p; [done|]. cbn [double_slash] in Hd. by apply orb_false_iff in Hd as [_ Hd]. }
  destruct (split_cons slash p) as (seg' & segs' & E). destruct (IH He' Hd' seg' segs' E) as [Ht Hh].
  cbn [split] in Hs. destruct (Ascii.eqb_spec c slash) as [->|Hc]; rewrite E in Hs; injection Hs as <- <-.
  - split; [|by right]. cbn [existsb]. rewrite Ht, orb_false_r. apply String.eqb_neq. intros ->.
    destruct (Hh eq_refl) as [-> |Hp]; [done|]. destruct p as [|d p]; [done|].
    unfold has_prefix in Hp. cbn [strip_prefix] in Hp. cbn [double_slash] in Hd. change "/"%char with slash in Hp.
    rewrite Ascii.eqb_sym in Hp. by destruct (Ascii.eqb d slash).
  - split; [done|]. intros [=].
Qed.

Lemma bytes_no_byte (b : Z) (P : Z -> bool) p :
  P b = false -> forallb P (bytes_of_string p) = true -> contains_any [b] p = false.
Proof.
  unfold contains_any. intros Hb Hp. apply not_true_iff_false. intros Hex. apply existsb_exists in Hex as (x & Hx & Hc).
  rewrite forallb_forall in Hp. specialize (Hp x Hx). cbn in Hc. rewrite orb_false_r in Hc. apply Z.eqb_eq in Hc.
  congruence.
Qed.

Lemma contains_any_cons b bs p : contains_any (b :: bs) p = contains_any [b] p || contains_any bs p.
Proof.
  unfold contains_any. induction (bytes_of_string p) as [|x l IH]; [done|]. cbn [existsb] in *. rewrite IH.
  destruct (x =? b), (existsb (Z.eqb x) bs); cbn [orb]; rewrite ?orb_true_r; done.
Qed.

Lemma collection_concrete cfg collection :
  is_ok (Paths.CheckCollectionPath cfg collection) = true -> ValidateConcreteCollection collection = Ok tt.
Proof.
  unfold Paths.CheckCollectionPath, ValidateConcreteCollection.
  destruct (Paths.CheckPath cfg collection) as [[]|] eqn:E; [|done]. intros _.
  apply CheckPath_ok in E as (Hne & Hch & Hp & He & Hd).
  rewrite (proj2 (String.eqb_neq _ _) Hne), contains_any_cons.
  rewrite !(bytes_no_byte _ Paths.path_char) by done. cbn [orb].
  destruct (split_cons slash collection) as (seg & segs & Es). rewrite Es. cbn [existsb].
  destruct (segments_nonempty collection He Hd seg segs Es) as [-> Hs]. rewrite orb_false_r.
  destruct (String.eqb_spec seg ""); [|done]. by destruct (Hs e); [|congruence].
Qed.

(** The last segment of a path below a collection. *)
Lemma cut_last_none s : contains_any [47] s = false -> cut_last slash s = None.
Proof.
  induction s as [|c s IH]; [done|]. unfold contains_any. cbn [bytes_of_string existsb]. rewrite orb_false_r.
  intros [Hc Hs]%orb_false_iff. cbn [cut_last]. rewrite (IH Hs).
  destruct (Ascii.eqb_spec c slash) as [->|]; [discriminate Hc|done].
Qed.

Lemma cut_last_path collection id :
  contains_any [47] id = false ->
  cut_last slash (String.append collection (String.append "/" id)) = Some (collection, id).
Proof.
  intros Hid. induction collection as [|c collection IH].
  - rewrite append_nil. change (String.append "/" id) with (String.String slash id). cbn [cut_last].
    by rewrite (cut_last_none id Hid).
  - rewrite append_cons. cbn [cut_last]. by rewrite IH.
Qed.

Lemma ends_with_slash_app a : ends_with_slash (String.append a "/") = true.
Proof. induction a as [|c a IH]; [done|]. rewrite append_cons. cbn. by destruct (String.append a "/"). Qed.

Lemma bytes_forallb_app P a b :
  forallb P (bytes_of_string (String.append a b)) = forallb P (bytes_of_string a) && forallb P (bytes_of_string b).
Proof. by rewrite bytes_of_string_app, forallb_app. Qed.

(** ** Errors of the loop *)
Definition not_response {A} (r : res push_error A) : Prop :=
  match r with Err (ErrPushResponse _) => False | _ => True end.

Lemma pushCurrent_error storage database path : leaves not_response (pushCurrent storage database path).
Proof. eapply leaves_bind; [apply leaves_True|]. intros [d|[]] _; done. Qed.

Lemma push_change_error `{MongoDB} blake3 storage database collection i change :
  leaves not_response (push_change blake3 storage database collection i change).
Proof.
  unfold push_change. destruct (pc_Doc change) as [doc|]; [|done].
  eapply leaves_try; [apply pushCurrent_error|done|]. intros current _.
  do 4 match goal with |- leaves _ (if ?b then _ else _) => destruct b; [done|] end. eapply (leaves_bind not_response).
  - unfold writePushChange. destruct (normalize_data _) as [data|]; [|done].
    eapply leaves_bind; [apply leaves_True|]. intros [[]|e] _; done.
  - intros [[]|e] He; [done|]. destruct (negb _); [exact He|].
    eapply leaves_try; [apply pushCurrent_error|done|]. intros latest _. by destruct (_ && _ && _).
Qed.

Lemma push_changes_error `{MongoDB} blake3 storage database collection i changes :
  leaves not_response (push_changes blake3 storage database collection i changes).
Proof.
  revert i; induction changes as [|c changes IH]; intros i; [done|]. cbn [push_changes].
  eapply leaves_try; [apply push_change_error|by intros []|]. intros oc _.
  eapply leaves_try; [apply IH|by intros []|]. done.
Qed.

(** ** The response *)
Section Response.
Context `{MongoDB} (blake3 : bytes -> bytes) (s : documentStore) (cfg : Paths.ValidationConfig).
Context (request_size : PbPushRequest -> Z) (response_size : list (option PbPushConflict) -> Z).
Context (database : string) (req : ReplicationPushRequest).
Local Abbreviation collection := (pr_Collection req).

(** The paths of the batch. *)
Definition pushed (p : string) : Prop :=
  exists c doc, c ∈ pr_Changes req /\ pc_Doc c = Some doc /\ p = pushDocumentPath collection doc.

(** Rows under the key of a pushed path are that document. *)
Definition identified (_ k : string) (r : row) : Prop :=
  forall p, pushed p -> k = CalculateDatabase blake3 database p ->
    doc_Fullpath (row_doc r) = p /\ doc_Collection (row_doc r) = collection /\ 0 <= doc_Version (row_doc r).

Lemma identified_next c k old new : identified c k old -> next_version old new -> identified c k new.
Proof.
  intros Hi (t & data & deleted & Hn) p Hp Hk. destruct (Hi p Hp Hk) as (Hf & Hc & Hv).
  unfold identified. rewrite Hn. cbn. repeat split; [done|done|lia].
Qed.

Hypothesis Hdb : database <> "".
Hypothesis Hcol : ValidateConcreteCollection collection = Ok tt.

Lemma document_id path id d :
  doc_Database d = database -> doc_Collection d = collection -> doc_Fullpath d = path ->
  path = String.append collection (String.append "/" id) -> id <> "" -> contains_any [47; 0] id = false ->
  LogicalDocumentID d = Ok id.
Proof.
  intros Hd Hc Hf Hp Hne Hch. unfold LogicalDocumentID. rewrite Hd, Hc, (proj2 (String.eqb_neq _ _) Hdb), Hcol.
  cbn [mbind res_bind]. rewrite Hf, Hp, <- string_append_assoc, strip_prefix_app.
  by rewrite (proj2 (String.eqb_neq _ _) Hne), Hch.
Qed.

(** The identifier of a validated change. *)
Lemma validated_id i change doc :
  validate_change cfg database collection i change = Ok tt -> pc_Doc change = Some doc ->
  exists id, pushDocumentPath collection doc = String.append collection (String.append "/" id) /\
    cut_last slash (pushDocumentPath collection doc) = Some (collection, id) /\ id <> "" /\
    contains_any [47; 0] id = false.
Proof.
  intros Hv Hd. destruct (validated_path cfg database collection i change doc Hv Hd) as (_ & Hok & Hp & Hs).
  set (id := trim_prefix _ _) in *. exists id. split; [exact Hp|].
  split; [rewrite Hp; by apply cut_last_path|]. unfold Paths.CheckDocumentPath in Hok.
  destruct (Paths.CheckPath cfg _) as [[]|] eqn:E; [|done]. apply CheckPath_ok in E as (_ & Hch & _ & He & _).
  rewrite Hp in Hch, He. split.
  - intros Hid. rewrite Hid in He. change (String.append "/" "") with "/" in He. by rewrite ends_with_slash_app in He.
  - rewrite bytes_forallb_app in Hch. apply andb_true_iff in Hch as [_ Hch]. rewrite bytes_forallb_app in Hch.
    apply andb_true_iff in Hch as [_ Hch]. rewrite contains_any_cons, Hs. by apply (bytes_no_byte 0 Paths.path_char).
Qed.

Lemma conflict_valid seen i change previous ws c :
  validate_change cfg database collection i change = Ok tt ->
  pr_Changes req !! i = Some change -> previous < Z.of_nat i ->
  accounted blake3 s identified seen database collection i change (ws, Some c) ->
  cf_ChangeIndex c = Z.of_nat i /\ validate_conflict database collection (pr_Changes req) previous c = Ok tt.
Proof.
  intros Hv Hl Hprev (doc & Hd & _ & Hidx & Hr & HID & Ho). split; [done|].
  destruct (validated_id i change doc Hv Hd) as (id & Hp & Hcut & Hne & Hch).
  rewrite Hcut in HID. unfold validate_conflict. rewrite Hidx, Nat2Z.id, Hl, Hd, HID.
  assert (Hlen : (i < length (pr_Changes req))%nat) by by eapply lookup_lt_Some.
  rewrite (proj2 (Z.leb_gt _ _)), (proj2 (Z.leb_gt _ _)) by lia. cbn [orb].
  rewrite (proj2 (String.eqb_neq _ _) Hne), Hp, String.eqb_refl. cbn [negb orb]. rewrite Hr, Hch.
  destruct (cf_Current c) as [d|]; [|done]. destruct (Ho d eq_refl) as (Hdd & Hid & row & <- & HJ).
  destruct (HJ (pushDocumentPath collection doc)) as (Hf & Hc & Hver);
    [exists change, doc; split; [by eapply list_elem_of_lookup_2|done]|done|].
  rewrite (document_id _ id _ Hdd Hc Hf Hp Hne Hch), Hdd, Hc, !String.eqb_refl. cbn [negb orb].
  by rewrite (proj2 (Z.ltb_ge _ _)) by lia.
Qed.

Lemma conflicts_valid i changes done previous :
  all_accounted blake3 s identified database collection i changes done ->
  validate_changes cfg database collection i changes = Ok tt ->
  drop i (pr_Changes req) = changes -> previous < Z.of_nat i ->
  validate_conflicts database collection (pr_Changes req) previous (done_conflicts done) = Ok tt.
Proof.
  intros Ha. revert previous. induction Ha as [i|i c cs vs ws oc ds Hc Ha IH]; intros previous Hv Hdrop Hprev; [done|].
  cbn [validate_changes] in Hv. apply bind_ok in Hv as ([] & Hvc & Hv).
  assert (Hl : pr_Changes req !! i = Some c).
  { rewrite <- (Nat.add_0_r i), <- lookup_drop, Hdrop. done. }
  assert (Hd : drop (S i) (pr_Changes req) = cs).
  { rewrite <- Nat.add_1_r, <- drop_drop, Hdrop. done. }
  unfold done_conflicts in *. cbn [map concat snd]. destruct oc as [conflict|].
  - destruct (conflict_valid _ i c previous ws conflict Hvc Hl Hprev Hc) as [Hidx Hok].
    change (option_list (Some conflict)) with [conflict]. cbn [app validate_conflicts]. rewrite Hok. cbn [mbind res_bind]. apply IH; [done|done|]. rewrite Hidx. lia.
  - apply IH; [done|done|]. lia.
Qed.
End Response.

Lemma validate_changes_error cfg database collection i changes e :
  validate_changes cfg database collection i changes <> Err (ErrPushResponse e).
Proof.
  revert i; induction changes as [|c changes IH]; intros i; [done|]. cbn [validate_changes].
  destruct (validate_change cfg database collection i c) as [[]|e'] eqn:E; cbn; [apply IH|]. intros [= ->].
  unfold validate_change in E. repeat (case_match; try discriminate).
Qed.

Lemma validated_scope cfg request_size database req :
  ValidatePushRequest cfg request_size database req = Ok tt ->
  database <> "" /\ ValidateConcreteCollection (pr_Collection req) = Ok tt /\
  validate_changes cfg database (pr_Collection req) 0 (pr_Changes req) = Ok tt.
Proof.
  unfold ValidatePushRequest. destruct (_ || _) eqn:E; [done|].
  apply orb_false_iff in E as [E Hc%negb_false_iff]. apply orb_false_iff in E as [E _]. apply orb_false_iff in E as [Hd _].
  destruct (pr_Changes req) eqn:Hch; [done|]. rewrite <- Hch. intros H. apply bind_ok in H as ([] & Hv & _).
  split; [by apply String.eqb_neq|]. split; [by eapply collection_concrete|done].
Qed.

Lemma encode_conflicts_error conflicts e :
  mapM_res (fun c => doc ← opt_document encodePushDocument (cf_Current c);
    Ok (Some {| pbf_ChangeIndex := i32 (cf_ChangeIndex c); pbf_Id := cf_ID c; pbf_Reason := cf_Reason c;
                pbf_Current := doc |})) conflicts = Err e -> exists e', e = ErrEncodeData e'.
Proof.
  induction conflicts as [|c conflicts IH]; [done|]. cbn [mapM_res].
  destruct (cf_Current c) as [d|]; cbn.
  - unfold encodePushDocument, EncodeTypedValue. destruct (NormalizeValue _) as [n|e'] eqn:Hn; cbn; [|intros [= <-]; eauto].
    destruct (typedValueTree n) eqn:Ht; cbn.
    + destruct (mapM_res _ _); cbn; [done|]. intros [= ->]. auto.
    + apply NormalizeValue_normal, typedValueTree_normal in Hn as [t Hn]. congruence.
  - destruct (mapM_res _ _); cbn; [done|]. intros [= ->]. auto.
Qed.

(** C28: when rows stored under the keys of the pushed paths are those documents and
    other clients keep it so, a push never fails on the validation of its own
    response: after its writes the report can only be refused because a document
    shown in a conflict does not encode or the message is too large. *)
Theorem push_response_valid `{MongoDB} blake3 s cfg request_size response_size env database req m ws m' e :
  (forall p q, pushed req p -> pushed req q -> CalculateDatabase blake3 database p = CalculateDatabase blake3 database q -> p = q) ->
  (forall m m1, all_rows (identified blake3 database req) m -> env m m1 -> all_rows (identified blake3 database req) m1) ->
  all_rows (identified blake3 database req) m ->
  exec env (Push blake3 cfg request_size response_size (document_ops blake3 s) database req) m ws m' (Err (ErrPushResponse e)) ->
  e = ErrQueryWorkLimit \/ exists e', e = ErrEncodeData e'.
Proof.
  intros Hinj Henv Hm Hx. set (J := identified blake3 database req).
  assert (HS : forall S, StoreContract (H := watched S) blake3 s env J (document_ops blake3 s))
    by (intros S; apply (document_contract (H := watched S)); [exact Henv|apply identified_next]).
  unfold Push in Hx. destruct (ValidatePushRequest cfg request_size database req) as [[]|e'] eqn:Hv.
  2: { destruct Hx as (_ & _ & [= He]). subst e'. unfold ValidatePushRequest in Hv.
       exfalso. revert Hv. destruct (_ || _); [done|]. destruct (pr_Changes req) as [|c cs] eqn:Hc; [done|]. rewrite <- Hc.
       destruct (validate_changes _ _ _ _ _) as [[]|e'] eqn:Hvc; cbn.
       - by destruct (EncodePushRequest _ _ _).
       - intros [= ->]. by apply validate_changes_error in Hvc. }
  apply exec_bind_inv in Hx as (w1 & m1 & r & w2 & H1 & H2 & ->).
  destruct r as [conflicts|e']; [|destruct H2 as (_ & _ & [= He]); subst e';
    by eapply exec_leaves in H1; [|apply push_changes_error]].
  destruct H2 as (_ & _ & Hr). 
  apply validated_scope in Hv as (Hdb & Hcol & Hvc).
  apply exec_has_seen in H1 as [vs H1].
  eapply (push_changes_accounts blake3 s env J _ HS Henv cfg database (pr_Collection req) (pushed req)) in H1
    as [_ (done' & Ha & _ & _ & ->)]; [| |done| |done].
  - unfold EncodePushResponse, ValidatePushResponse in Hr.
    rewrite (conflicts_valid blake3 s cfg database req Hdb Hcol 0 _ done' (-1) Ha Hvc eq_refl) in Hr by lia.
    cbn [mbind res_bind] in Hr. destruct (mapM_res _ _) as [out|e'] eqn:Hmap; cbn in Hr.
    + destruct (_ <? _); simplify_eq. by left.
    + simplify_eq. right. by eapply encode_conflicts_error.
  - intros now id data Hp doc p Hq Hk. cbn. split; [by apply Hinj|done].
  - apply Forall_forall. intros c Hc doc Hd. exists c, doc. done.
Qed.

#[local] Existing Instance model_mongo.

(** An update at an old version whose report is larger than a message may be. *)
Definition stale_request : ReplicationPushRequest :=
  {| pr_Collection := "users";
     pr_Changes := [{| pc_Action := PushUpdate; pc_Doc := Some (push_doc "c"); pc_BaseVersion := Some 7 |}] |}.
Definition stored_c : row := Row (NewStoredDoc (fun l => l) 5 "db" "users" "c" None) None.
Definition one_row : db := {[ "documents" := {[ doc_Id (row_doc stored_c) := stored_c ]} ]}.
Definition stale_push : mprog (res push_error (list ReplicationPushConflict)) :=
  Push (fun l => l) Paths.DefaultValidationConfig (fun _ => 100) (fun _ => MaxGRPCBytes + 1)
    (document_ops (fun l => l) sample_store) "db" stale_request.

Lemma pushed_stale p : pushed stale_request p -> p = "users/c".
Proof. intros (c & doc & Hc%list_elem_of_singleton & Hd & ->). subst c. by injection Hd as <-. Qed.

Lemma push_response_valid_witness :
  exists ws m' e, exec eq stale_push one_row ws m' (Err (ErrPushResponse e)) /\
    (e = ErrQueryWorkLimit \/ exists e', e = ErrEncodeData e').
Proof.
  destruct (run stale_push one_row) as [[m' ws] r] eqn:Hr.
  assert (Hx : exec eq stale_push one_row ws m' r) by exact (run_exec _ _ _ _ _ _ Hr).
  assert (Hv : r = Err (ErrPushResponse ErrQueryWorkLimit)).
  { replace r with (run stale_push one_row).2 by (by rewrite Hr). vm_compute. reflexivity. }
  subst r. exists ws, m', ErrQueryWorkLimit. split; [exact Hx|].
  eapply (push_response_valid _ _ _ _ _ _ _ stale_request); [| | |exact Hx].
  - by intros p q ->%pushed_stale ->%pushed_stale.
  - by intros m m1 Hm <-.
  - intros c k r Hk p ->%pushed_stale _. unfold rows, one_row in Hk.
    destruct (decide (c = "documents")) as [->|Hc].
    + rewrite lookup_singleton_eq in Hk. cbn in Hk. apply lookup_singleton_Some in Hk as [_ <-]. cbn. repeat split; lia.
    + rewrite lookup_singleton_ne in Hk by done. cbn in Hk. by rewrite lookup_empty in Hk.
Defined.
