(* ===== verification/QueryPage.v ===== *)
(** * Query pages: internal/query/core/page.go

    One page of a query: its normalisation and cursor, the three routes that find
    candidates (an index stream, a list of identifiers, a scan of the collection)
    and the validation of every candidate against its source document. Cursor
    tokens are represented by the cursor they carry; the sizes of JSON texts are
    parameters. *)
From stdpp Require Import base list gmap strings.
From Stdlib Require Import ZArith.
From S2P Require Import Prelude Value OrderKey Filter IndexStore Codec Template Projection Intervals Candidates Planner Stream Open Documents Prog Mongo DocumentStore TypedValue.
Local Open Scope Z_scope.

(** ** Queries and pages: pkg/model *)
Record QOrder := QBy { qo_Field : string; qo_Direction : string }.
#[export] Instance QOrder_eq_dec : EqDecision QOrder.
Proof. solve_decision. Defined.

Record queryCursor := {
  qc_Version : Z; qc_Scope : string; qc_Route : string; qc_Order : list QOrder; qc_Template : string;
  qc_Generation : string; qc_Branches : string; qc_Position : bytes;
}.
(** A continuation token: a text of the given length that carries a cursor, or any
    other text. *)
Inductive token := Token (size : Z) (c : queryCursor) | Malformed.

Record Query := {
  q_Collection : string; q_Filters : list filter; q_OrderBy : list QOrder; q_Limit : Z;
  q_StartAfter : option token; q_ShowDeleted : bool;
}.
Record QueryPage := {
  pg_Documents : list Document; pg_NextCursor : option token; pg_EffectiveOrder : list QOrder;
}.

Inductive page_error :=
| PInvalidQuery | PStaleCursor | PWorkLimit | PContext | PIndexNotReady
| PSource (e : storage_error) | POpen (e : open_error) | PStream (e : stream_error) | PPlan (e : plan_error)
| PIdentity (e : projection_error) | PFilter (e : filter_error) | PValue (e : value_error)
| PNotAdvanced | PCandidateIdentity | PBatchContract | PEmptyBatch
| PFuel.  (** the model's loops ran out of fuel *)

Definition maxQueryCandidates : Z := 100000.
Definition maxMaterializationDocuments : Z := 128.
Definition maxMaterializationBytes : Z := 16 * 2 ^ 20.
Definition maxCursorBytes : Z := 16 * 2 ^ 10.
Definition maxPositionBytes : Z := 4096.
Definition MaxPageBytes : Z := 16 * 2 ^ 20.

(** ** Calls *)
Record SourceScanPage := { ssp_Documents : list StoredDoc; ssp_NextAfter : string; ssp_Exhausted : bool; ssp_Bytes : Z }.

Inductive pageE : Type -> Type :=
(** [ctx.Err() != nil]. *)
| Canceled : pageE bool
| GetMany (database : string) (paths : list string) : pageE (res storage_error (list (option StoredDoc)))
| ScanDocuments (database : string) (r : SourceScanRequest) : pageE (res storage_error SourceScanPage)
(** The candidate stream: opened once, then Next with the number of postings
    examined so far, and Close. *)
| OpenStream (database : string) (plan : Plan) : pageE (res open_error CandidateMetadata)
| NextGroup : pageE (res stream_error (option CandidateGroup) * Z)
| CloseStream : pageE (option stream_error).
Abbreviation pprog := (prog pageE).

Definition poll : pprog (res page_error unit) := c ← call Canceled; Ret (if c : bool then Err PContext else Ok tt).

Definition op_text (op : FilterOp) : string :=
  match op with
  | OpEq => "==" | OpNe => "!=" | OpGt => ">" | OpGte => ">=" | OpLt => "<" | OpLte => "<="
  | OpIn => "in" | OpContains => "contains" | OpUnknown s => s
  end.

Definition order_json (o : QOrder) : bytes :=
  json_object [("field", json_string (qo_Field o)); ("direction", json_string (qo_Direction o))].
(** A slice that is not nil. *)
Definition json_array (l : list bytes) : bytes := 91 :: json_elements l ++ [93].

(** ** Queries and cursors *)
Section Page.
Context `{SS : SliceSort} (cfg : Paths.ValidationConfig).
(** The sizes of a cursor's token and of the JSON text of a tree. *)
Context (token_size : queryCursor -> Z) (json_size : json -> Z).

Definition decodeCursor (t : token) : res page_error queryCursor :=
  match t with
  | Malformed => Err PInvalidQuery
  | Token size c =>
      if maxCursorBytes <? size then Err PInvalidQuery
      else if negb (qc_Version c =? 2) || String.eqb (qc_Scope c) "" || String.eqb (qc_Route c) ""
              || (length (qc_Position c) =? 0)%nat || (maxPositionBytes <? Z.of_nat (length (qc_Position c)))
      then Err PInvalidQuery
      else Ok c
  end.

Definition encodeCursor (c : queryCursor) : res page_error token :=
  if (length (qc_Position c) =? 0)%nat || (maxPositionBytes <? Z.of_nat (length (qc_Position c))) then Err PWorkLimit
  else if maxCursorBytes <? token_size c then Err PWorkLimit
  else Ok (Token (token_size c) c).

Definition predicate_text (f : filter) : res page_error string :=
  let values := match filter_op f, filter_value f with OpIn, VSlice l => l | _, v => [v] end in
  keys ← mapM_res (fun v => map_err PValue (ScalarKey v)) values;
  let keys := map (fun k => string_of_bytes (hex_encode k)) keys in
  let keys := match filter_op f with OpIn => sort_slice string_ltb keys | _ => keys end in
  Ok (string_of_bytes (json_array [json_string (filter_field f); json_string (op_text (filter_op f));
                                   json_array (map json_string keys)])).

Definition queryScope (database : string) (q : Query) : res page_error string :=
  predicates ← mapM_res predicate_text (q_Filters q);
  let predicates := sort_slice string_ltb predicates in
  let encoded := json_array [json_int 2; json_string database; json_string (q_Collection q);
                             json_array (map json_string predicates); json_slice (map order_json (q_OrderBy q));
                             json_bool (q_ShowDeleted q)] in
  Ok (string_of_bytes (hex_encode (Sha256.Sum256 encoded))).

Fixpoint valid_orders (seen : gset string) (orders : list QOrder) : bool :=
  match orders with
  | [] => true
  | o :: orders =>
      is_ok (ValidateQueryField (qo_Field o)) && negb (bool_decide (qo_Field o ∈ seen))
      && (String.eqb (qo_Direction o) "asc" || String.eqb (qo_Direction o) "desc")
      && valid_orders ({[qo_Field o]} ∪ seen) orders
  end.

Definition large_in (f : filter) : bool :=
  match filter_op f, filter_value f with OpIn, VSlice l => (256 <? length l)%nat | _, _ => false end.

Definition normalizeQuery (q : Query) : res page_error Query :=
  if negb (is_ok (Paths.CheckCollectionPath cfg (q_Collection q))) then Err PInvalidQuery
  else if (q_Limit q <? 0) || (1000 <? q_Limit q) then Err PInvalidQuery
  else match NormalizeFilters (q_Filters q) with
  | Err _ => Err PInvalidQuery
  | Ok filters =>
      if existsb large_in filters then Err PInvalidQuery
      else if negb (valid_orders ∅ (q_OrderBy q)) then Err PInvalidQuery
      else Ok {| q_Collection := q_Collection q; q_Filters := filters; q_OrderBy := q_OrderBy q;
                 q_Limit := if q_Limit q =? 0 then 100 else q_Limit q; q_StartAfter := q_StartAfter q;
                 q_ShowDeleted := q_ShowDeleted q |}
  end.

(** The classification of an error on the way out. *)
Definition queryError (e : page_error) : page_error :=
  match e with
  | POpen ErrStaleCursor => PStaleCursor
  | POpen (OpenStore ErrWorkLimit) | PStream (StreamStore ErrWorkLimit) => PWorkLimit
  | PSource (ErrSourceScanBudget | ErrReadBudget) => PWorkLimit
  | POpen (OpenPlan ErrInvalidPlan) | PStream (StreamPlan ErrInvalidPlan) | PPlan ErrInvalidPlan => PInvalidQuery
  | e => e
  end.

Definition isIDOnlyQuery (q : Query) : bool :=
  match q_OrderBy q, q_Filters q with
  | [], (_ :: _) as fs =>
      forallb (fun f => String.eqb (filter_field f) "id"
                        && match filter_op f with OpEq | OpIn => true | _ => false end) fs
  | _, _ => false
  end.

Definition queryToPlan (q : Query) : res page_error Plan :=
  if negb (forallb (fun f => IsValid (filter_op f)) (q_Filters q)) then Err PInvalidQuery
  else Ok {| plan_Collection := q_Collection q; plan_Filters := q_Filters q;
             plan_OrderBy := map (fun o => OrderBy (qo_Field o) (if String.eqb (qo_Direction o) "desc" then Desc else Asc)) (q_OrderBy q);
             plan_Limit := q_Limit q; plan_StartAfter := ""; plan_ShowDeleted := q_ShowDeleted q; plan_AfterPosition := [];
             plan_TemplateFingerprint := ""; plan_Generation := ""; plan_BranchHash := ""; plan_MaxExamined := 0 |}.

(** ** Candidates *)

(** The document of an accepted source record with its identifier; [None] when
    the candidate is skipped. *)
Definition validateSource (stored : option StoredDoc) (database : string) (q : Query) (expectedID : string)
    : res page_error (option (Document * string)) :=
  match stored with
  | None => Ok None
  | Some stored =>
      if negb (String.eqb (doc_Database stored) database) || negb (String.eqb (doc_Collection stored) (q_Collection q))
      then Ok None
      else
        id ← map_err PIdentity (LogicalDocumentID stored);
        if negb (String.eqb id expectedID) then Ok None
        else if doc_Deleted stored && negb (q_ShowDeleted q) then Ok None
        else
          accepted ← map_err PFilter (EvaluateFilters (q_Filters q) (DocumentField stored id));
          if negb accepted then Ok None
          else
            let doc := if doc_Deleted stored then ∅ else doc_Data stored in
            Ok (Some (foldl (fun doc field => <[field := (DocumentField stored id field).1]> doc) doc
                        ["id"; "collection"; "version"; "createdAt"; "updatedAt"; "deleted"], id))
  end.

(** What the closures of a page update: the position of the last candidate, the
    documents with the bytes of their encodings, and the identifiers seen. *)
Record page_state := { ps_position : bytes; ps_docs : list Document; ps_bytes : Z; ps_seen : gset string }.

Definition set_position (p : bytes) (st : page_state) : page_state :=
  {| ps_position := p; ps_docs := ps_docs st; ps_bytes := ps_bytes st; ps_seen := ps_seen st |}.

Definition appendPageDocument (doc : Document) (st : page_state) : res page_error page_state :=
  t ← map_err PValue (EncodeTypedValue (VMap (map_to_list doc)));
  let bytes := ps_bytes st + from_option json_size 0 t in
  if MaxPageBytes <? bytes then Err PWorkLimit
  else Ok {| ps_position := ps_position st; ps_docs := ps_docs st ++ [doc]; ps_bytes := bytes; ps_seen := ps_seen st |}.

(** The values of the effective order in a record. *)
Definition order_fields (metadata : CandidateMetadata) (stored : StoredDoc) (id : string) : list field :=
  map (fun o => let '(v, present) := DocumentField stored id (of_Field o) in Field v (of_Direction o) (negb present))
    (orderComponents (md_EffectiveOrder metadata)).

(** One candidate group of the index route with its source record. *)
Definition consume_group (database : string) (q : Query) (metadata : CandidateMetadata) (group : CandidateGroup)
    (stored : option StoredDoc) (st : page_state) : res page_error page_state :=
  let st := set_position (cg_Position group) st in
  accepted ← validateSource stored database q (cg_ID group);
  match accepted, stored with
  | Some (doc, id), Some stored =>
      if bool_decide (id ∈ ps_seen st) then Ok st
      else
        position ← map_err (fun _ => PIndexNotReady) (Encode (order_fields metadata stored id) id);
        if negb (bytes_eqb position (cg_Position group)) then Ok st
        else
          projection ← map_err (fun _ => PIndexNotReady)
            (BuildDocumentProjection stored (md_Template metadata) (md_Generation metadata) DefaultProjectionLimits);
          keys ← mapM_res (fun branch => map_err PPlan (PostingKey metadata (cg_Position group) branch)) (cg_Branches group);
          if negb (existsb (fun key => bool_decide (key ∈ proj_PostingKeys projection)) keys) then Ok st
          else
            st ← appendPageDocument doc st;
            Ok {| ps_position := ps_position st; ps_docs := ps_docs st; ps_bytes := ps_bytes st; ps_seen := {[id]} ∪ ps_seen st |}
  | _, _ => Ok st
  end.

(** One identifier of the list route. *)
Definition consume_id (database : string) (q : Query) (id : string) (stored : option StoredDoc) (st : page_state)
    : res page_error page_state :=
  let st := set_position (bytes_of_string id) st in
  accepted ← validateSource stored database q id;
  match accepted with
  | Some (doc, _) => appendPageDocument doc st
  | None => Ok st
  end.

(** *** Reading source records in batches *)
Fixpoint consume_all (consume : nat -> option StoredDoc -> page_state -> res page_error page_state) (i : nat)
    (docs : list (option StoredDoc)) (st : page_state) : pprog (res page_error page_state) :=
  match docs with
  | [] => Ret (Ok st)
  | doc :: docs =>
      _ <-! poll;
      match consume i doc st with
      | Err e => Ret (Err e)
      | Ok st => consume_all consume (S i) docs st
      end
  end.

(** The loop of materialize; every round reads a batch or halves its size. *)
Fixpoint materialize_loop (fuel : nat) (database : string) (paths : list string)
    (consume : nat -> option StoredDoc -> page_state -> res page_error page_state) (batchLimit offset : nat)
    (st : page_state) : pprog (res page_error page_state) :=
  match fuel with
  | O => Ret (Err PFuel)
  | S fuel =>
      if (length paths <=? offset)%nat then Ret (Ok st)
      else
        _ <-! poll;
        let finish := ((offset + batchLimit) `min` length paths)%nat in
        docs ← call (GetMany database (take (finish - offset) (drop offset paths)));
        match docs with
        | Err e =>
            if match e with ErrReadBudget => (1 <? finish - offset)%nat | _ => false end
            then materialize_loop fuel database paths consume ((finish - offset) / 2) offset st
            else Ret (Err (PSource e))
        | Ok docs =>
            if negb (length docs =? finish - offset)%nat then Ret (Err PBatchContract)
            else
              st <-! consume_all consume offset docs st;
              materialize_loop fuel database paths consume batchLimit finish st
        end
  end.

Definition materialize (database : string) (paths : list string)
    (consume : nat -> option StoredDoc -> page_state -> res page_error page_state) (st : page_state)
    : pprog (res page_error page_state) :=
  materialize_loop (S (2 * length paths)) database paths consume (length paths) 0 st.

(** ** The routes *)
Definition path_of (collection id : string) : string := String.append collection (String.append "/" id).

(** wire.CheckJSONPageSize; a token needs no escaping. *)
Definition CheckJSONPageSize (next : option token) (order : list QOrder) (count : nat) (documentBytes : Z) : res page_error unit :=
  let next := match next with
              | Some (Token size _) => size + 2
              | Some Malformed => 2
              | None => 4
              end in
  let envelope := json_object [("documents", json_array []); ("nextCursor", []); ("effectiveOrder", json_slice (map order_json order))] in
  let size := Z.of_nat (length envelope) + next + documentBytes + Z.max 0 (Z.of_nat count - 1) in
  if MaxPageBytes <? size then Err PWorkLimit else Ok tt.

Definition with_position (p : bytes) (c : queryCursor) : queryCursor :=
  {| qc_Version := qc_Version c; qc_Scope := qc_Scope c; qc_Route := qc_Route c; qc_Order := qc_Order c;
     qc_Template := qc_Template c; qc_Generation := qc_Generation c; qc_Branches := qc_Branches c; qc_Position := p |}.

Definition finish_page (cursor : queryCursor) (order : list QOrder) (st : page_state) (exhausted : bool) : res page_error QueryPage :=
  next ← if exhausted then Ok None else Some <$> encodeCursor (with_position (ps_position st) cursor);
  _ ← CheckJSONPageSize next order (length (ps_docs st)) (ps_bytes st);
  Ok {| pg_Documents := ps_docs st; pg_NextCursor := next; pg_EffectiveOrder := order |}.

(** *** The index route *)
Definition page_order (metadata : CandidateMetadata) : list QOrder :=
  map (fun o => QBy (of_Field o) (match of_Direction o with Desc => "desc" | _ => "asc" end)) (md_EffectiveOrder metadata).

Fixpoint collect_groups (n : nat) (previous : bytes) (groups : list CandidateGroup)
    : pprog (res page_error (list CandidateGroup * bool)) :=
  match n with
  | O => Ret (Ok (groups, false))
  | S n =>
      _ <-! poll;
      r ← call NextGroup;
      let '(next, examined) := r : res stream_error (option CandidateGroup) * Z in
      match next with
      | Err e => Ret (Err (PStream e))
      | Ok next =>
          if maxQueryCandidates <? examined then Ret (Err PWorkLimit)
          else match next with
          | None => Ret (Ok (groups, true))
          | Some group =>
              let p := cg_Position group in
              if (length p =? 0)%nat || (maxPositionBytes <? Z.of_nat (length p)) then Ret (Err PWorkLimit)
              else if negb (length previous =? 0)%nat && bytes_leb p previous then Ret (Err PNotAdvanced)
              else if String.eqb (cg_ID group) "" || contains_any [47; 0] (cg_ID group) then Ret (Err PCandidateIdentity)
              else collect_groups n p (groups ++ [group])
          end
      end
  end.

Fixpoint index_loop (fuel : nat) (database : string) (q : Query) (metadata : CandidateMetadata) (st : page_state)
    : pprog (res page_error (page_state * bool)) :=
  match fuel with
  | O => Ret (Err PFuel)
  | S fuel =>
      let free := q_Limit q - Z.of_nat (length (ps_docs st)) in
      if free <=? 0 then Ret (Ok (st, false))
      else
        r <-! collect_groups (Z.to_nat (Z.min maxMaterializationDocuments free)) (ps_position st) [];
        let '(groups, exhausted) := r in
        match groups with
        | [] => Ret (Ok (st, exhausted))
        | _ =>
            st <-! materialize database (map (fun g => path_of (q_Collection q) (cg_ID g)) groups)
                     (fun i stored st => match groups !! i with
                                         | Some group => consume_group database q metadata group stored st
                                         | None => Ok st
                                         end) st;
            if exhausted then Ret (Ok (st, true)) else index_loop fuel database q metadata st
        end
  end.

(** The cursors the index route refuses, before and after the stream is open. *)
Definition index_mismatch (cursor : queryCursor) : bool :=
  negb (String.eqb (qc_Route cursor) "index-v2") || String.eqb (qc_Template cursor) ""
  || String.eqb (qc_Generation cursor) "" || String.eqb (qc_Branches cursor) "" || (length (qc_Order cursor) =? 0)%nat.
Definition index_stale (metadata : CandidateMetadata) (cursor : queryCursor) : bool :=
  negb (String.eqb (qc_Template cursor) (md_TemplateFingerprint metadata))
  || negb (String.eqb (qc_Generation cursor) (md_Generation metadata))
  || negb (String.eqb (qc_Branches cursor) (md_BranchHash metadata))
  || negb (bytes_eqb (json_slice (map order_json (page_order metadata))) (json_slice (map order_json (qc_Order cursor)))).

Definition index_page (fuel : nat) (database : string) (q : Query) (resuming : bool) (cursor : queryCursor)
    : pprog (res page_error QueryPage) :=
  if resuming && index_mismatch cursor then Ret (Err PInvalidQuery)
  else match queryToPlan q with
  | Err e => Ret (Err e)
  | Ok plan =>
      let plan := {| plan_Collection := plan_Collection plan; plan_Filters := plan_Filters plan; plan_OrderBy := plan_OrderBy plan;
                     plan_Limit := plan_Limit plan; plan_StartAfter := ""; plan_ShowDeleted := plan_ShowDeleted plan;
                     plan_AfterPosition := if resuming then qc_Position cursor else [];
                     plan_TemplateFingerprint := if resuming then qc_Template cursor else "";
                     plan_Generation := if resuming then qc_Generation cursor else "";
                     plan_BranchHash := if resuming then qc_Branches cursor else ""; plan_MaxExamined := maxQueryCandidates |} in
      opened ← call (OpenStream database plan);
      match opened with
      | Err e => Ret (Err (POpen e))
      | Ok metadata =>
          let order := page_order metadata in
          r ← (if resuming && index_stale metadata cursor then Ret (Err PStaleCursor)
               else
                 let cursor := {| qc_Version := qc_Version cursor; qc_Scope := qc_Scope cursor; qc_Route := "index-v2";
                                  qc_Order := order; qc_Template := md_TemplateFingerprint metadata;
                                  qc_Generation := md_Generation metadata; qc_Branches := md_BranchHash metadata;
                                  qc_Position := qc_Position cursor |} in
                 done <-! index_loop fuel database q metadata
                            {| ps_position := qc_Position cursor; ps_docs := []; ps_bytes := 0; ps_seen := ∅ |};
                 Ret (finish_page cursor order done.1 done.2));
          closed ← call CloseStream;
          Ret (match r, closed with
               | Ok _, Some e => Err (PStream e)
               | r, _ => r
               end)
      end
  end.

(** *** The identifiers route *)

(** The identifiers of the first filter after the cursor, sorted. *)
Definition query_ids (q : Query) (after : string) : list string :=
  match q_Filters q with
  | [] => []
  | f :: _ =>
      let values := match filter_op f, filter_value f with OpIn, VSlice l => l | _, v => [v] end in
      sort_slice string_ltb (omap (fun v => match v with
        | VString id => if negb (String.eqb id "") && negb (contains_any [47; 0] id) && string_ltb after id then Some id else None
        | _ => None
        end) values)
  end.

(** [rest] are the identifiers that are left. *)
Fixpoint ids_loop (fuel : nat) (database : string) (q : Query) (rest : list string) (st : page_state)
    : pprog (res page_error (page_state * bool)) :=
  match fuel with
  | O => Ret (Err PFuel)
  | S fuel =>
      let free := q_Limit q - Z.of_nat (length (ps_docs st)) in
      if (length rest =? 0)%nat || (free <=? 0) then Ret (Ok (st, (length rest =? 0)%nat))
      else
        _ <-! poll;
        let count := (Z.to_nat (Z.min maxMaterializationDocuments free) `min` length rest)%nat in
        let batch := take count rest in
        st <-! materialize database (map (path_of (q_Collection q)) batch)
                 (fun i stored st => match batch !! i with Some id => consume_id database q id stored st | None => Ok st end) st;
        ids_loop fuel database q (drop count rest) st
  end.

(** *** The scan route *)
Fixpoint scan_batch (fuel : nat) (database collection after : string) (batchLimit : Z)
    : pprog (res page_error (SourceScanPage * Z)) :=
  match fuel with
  | O => Ret (Err PFuel)
  | S fuel =>
      _ <-! poll;
      r ← call (ScanDocuments database {| ssr_Collection := collection; ssr_AfterID := after; ssr_Limit := batchLimit;
                  ssr_MaxBytes := maxMaterializationBytes; ssr_Consistency := ReadAuthoritative; ssr_AtLeast := "" |});
      match r with
      | Err e =>
          if match e with ErrSourceScanBudget => 1 <? batchLimit | _ => false end
          then scan_batch fuel database collection after (batchLimit / 2)
          else Ret (Err (PSource e))
      | Ok batch => Ret (Ok (batch, batchLimit))
      end
  end.

Fixpoint scan_docs (database : string) (q : Query) (docs : list StoredDoc) (after : string) (st : page_state)
    : res page_error (page_state * string) :=
  match docs with
  | [] => Ok (st, after)
  | stored :: docs =>
      id ← map_err PIdentity (LogicalDocumentID stored);
      if negb (string_ltb after id) then Err PNotAdvanced
      else
        st ← consume_id database q id (Some stored) st;
        scan_docs database q docs id st
  end.

Fixpoint scan_loop (fuel : nat) (database : string) (q : Query) (after : string) (examined sourceBatchLimit : Z)
    (st : page_state) : pprog (res page_error (page_state * bool)) :=
  match fuel with
  | O => Ret (Err PFuel)
  | S fuel =>
      let free := q_Limit q - Z.of_nat (length (ps_docs st)) in
      if free <=? 0 then Ret (Ok (st, false))
      else
        _ <-! poll;
        if maxQueryCandidates <=? examined then Ret (Err PWorkLimit)
        else
          let batchLimit := Z.min sourceBatchLimit (Z.min free (maxQueryCandidates - examined)) in
          r <-! scan_batch (Z.to_nat batchLimit) database (q_Collection q) after batchLimit;
          let '(batch, reduced) := r in
          let sourceBatchLimit := if reduced =? batchLimit then sourceBatchLimit else reduced in
          if reduced <? Z.of_nat (length (ssp_Documents batch)) then Ret (Err PBatchContract)
          else match scan_docs database q (ssp_Documents batch) after st with
          | Err e => Ret (Err e)
          | Ok (st, after) =>
              if ssp_Exhausted batch then Ret (Ok (st, true))
              else if (length (ssp_Documents batch) =? 0)%nat then Ret (Err PEmptyBatch)
              else scan_loop fuel database q after (examined + Z.of_nat (length (ssp_Documents batch))) sourceBatchLimit st
          end
  end.

Definition source_order : list QOrder := [QBy "id" "asc"].

Definition source_route (q : Query) : string :=
  match q_Filters q with [] => "source-list-v2" | _ => "source-ids-v2" end.

(** The cursors the source routes refuse. *)
Definition source_mismatch (q : Query) (cursor : queryCursor) : bool :=
  negb (String.eqb (qc_Route cursor) (source_route q)) || negb (String.eqb (qc_Template cursor) "")
  || negb (String.eqb (qc_Generation cursor) "") || negb (String.eqb (qc_Branches cursor) "")
  || negb (bool_decide (qc_Order cursor = source_order)).
Definition invalid_position (cursor : queryCursor) : bool :=
  negb (utf8_valid (qc_Position cursor)) || contains_any [47; 0] (string_of_bytes (qc_Position cursor)).

Definition sourcePage (database : string) (q : Query) (resuming : bool) (cursor : queryCursor)
    : pprog (res page_error QueryPage) :=
  if resuming && source_mismatch q cursor then Ret (Err PInvalidQuery)
  else if resuming && invalid_position cursor then Ret (Err PInvalidQuery)
  else
    let cursor := {| qc_Version := qc_Version cursor; qc_Scope := qc_Scope cursor; qc_Route := source_route q;
                     qc_Order := source_order; qc_Template := qc_Template cursor; qc_Generation := qc_Generation cursor;
                     qc_Branches := qc_Branches cursor; qc_Position := qc_Position cursor |} in
    let after := string_of_bytes (qc_Position cursor) in
    let st := {| ps_position := qc_Position cursor; ps_docs := []; ps_bytes := 0; ps_seen := ∅ |} in
    done <-! match q_Filters q with
             | [] => scan_loop (S (Z.to_nat maxQueryCandidates)) database q after 0 maxMaterializationDocuments st
             | _ => let ids := query_ids q after in ids_loop (S (length ids)) database q ids st
             end;
    Ret (finish_page cursor source_order done.1 done.2).

(** ** The page *)
Definition new_cursor (scope : string) : queryCursor :=
  {| qc_Version := 2; qc_Scope := scope; qc_Route := ""; qc_Order := []; qc_Template := ""; qc_Generation := "";
     qc_Branches := ""; qc_Position := [] |}.

(** The normalised query with the cursor it starts from. *)
Definition start_page (database : string) (q : Query) : res page_error (Query * queryCursor) :=
  if String.eqb database "" then Err PInvalidQuery
  else
    q ← normalizeQuery q;
    scope ← queryScope database q;
    cursor ← match q_StartAfter q with
             | None => Ok (new_cursor scope)
             | Some t => c ← decodeCursor t;
                         if negb (String.eqb (qc_Scope c) scope) then Err PInvalidQuery else Ok c
             end;
    Ok (q, cursor).

(** The queries answered from the source. *)
Definition from_source (q : Query) : bool :=
  ((length (q_Filters q) =? 0)%nat && (length (q_OrderBy q) =? 0)%nat) || isIDOnlyQuery q.

(** The steps between the deferred functions. [fuel] bounds the batches of the
    index route. *)
Definition query_page (fuel : nat) (database : string) (q : Query) : pprog (res page_error QueryPage) :=
  _ <-! poll;
  match start_page database q with
  | Err e => Ret (Err e)
  | Ok (q, cursor) =>
      let resuming := match q_StartAfter q with None => false | Some _ => true end in
      if from_source q then sourcePage database q resuming cursor
      else index_page fuel database q resuming cursor
  end.

Definition ExecuteQueryPage (fuel : nat) (database : string) (q : Query) : pprog (res page_error QueryPage) :=
  r ← query_page fuel database q; Ret (map_err queryError r).
End Page.
