(* ===== verification/QueryFacts.v ===== *)
(** * What a query page contains

    Whatever the index and the source answer: every document of a page was shown
    by the source during the call and satisfies the query, the documents are in
    strictly increasing position after the cursor, and the loops of the source
    routes end. *)
From stdpp Require Import base list gmap strings sorting.
From Stdlib Require Import ZArith.
From S2P Require Import Prelude Value OrderKey Filter IndexStore Codec Template Projection Intervals Candidates Planner Stream Open Progress Documents Prog Mongo DocumentStore TypedValue QueryPage.
Local Open Scope Z_scope.

Lemma set_position_docs p st : ps_docs (set_position p st) = ps_docs st.
Proof. done. Qed.

(** *** Strings and members *)
Lemma utf8_valid_is_bytes l : utf8_valid l = true -> is_bytes l.
Proof.
  revert l. induction l as [l IH] using (induction_ltof1 _ length). unfold ltof in IH.
  assert (Hr : forall lo hi b, 0 <= lo -> hi < 256 -> in_range lo hi b = true -> is_byte b).
  { intros lo hi b Hlo Hhi Hb. apply andb_prop in Hb as [H1%Z.leb_le H2%Z.leb_le]. unfold is_byte. lia. }
  destruct l as [|b0 l1]; [constructor|]. cbn [utf8_valid].
  destruct (in_range 0 0x7F b0) eqn:E0; [intros H; constructor; [by eapply Hr, E0|apply IH; [cbn; lia|done]]|].
  destruct l1 as [|b1 l2]; [done|].
  destruct (in_range 0xC2 0xDF b0) eqn:E1.
  { intros [H1 H]%andb_prop. unfold is_bytes; rewrite !Forall_cons; split_and!; [by eapply Hr, E1|by eapply Hr, H1|apply IH; [cbn; lia|done]]. }
  destruct l2 as [|b2 l3]; [done|]. destruct (in_range 0xE0 0xEF b0) eqn:E2.
  { intros [[H1 H2]%andb_prop H]%andb_prop. unfold is_bytes; rewrite !Forall_cons; split_and!;
      [by eapply Hr, E2|eapply Hr, H1|by eapply Hr, H2|apply IH; [cbn; lia|done]]; match goal with |- context [if ?c then _ else _] => destruct c end; lia. }
  destruct l3 as [|b3 l4]; [done|]. destruct (in_range 0xF0 0xF4 b0) eqn:E3; [|done].
  intros [[[H1 H2]%andb_prop H3]%andb_prop H]%andb_prop. unfold is_bytes; rewrite !Forall_cons; split_and!;
    [by eapply Hr, E3|eapply Hr, H1|by eapply Hr, H2|by eapply Hr, H3|apply IH; [cbn; lia|done]]; match goal with |- context [if ?c then _ else _] => destruct c end; lia.
Qed.

Lemma unique_members_NoDup seen items us :
  unique_members seen items = Ok us -> NoDup us /\ forall u k, u ∈ us -> ScalarKey u = Ok k -> k ∉ seen.
Proof.
  revert seen us. induction items as [|x items IH]; intros seen us H; cbn [unique_members] in H.
  { injection H as <-. split; [constructor|]. intros u k Hu. by apply elem_of_nil in Hu. }
  apply bind_ok in H as (key & Hk%map_err_ok & H). case_bool_decide as Hin; [by apply IH|].
  apply fmap_ok in H as (us' & H & ->). destruct (IH _ _ H) as [Hn Hs]. split.
  - constructor; [|done]. intros Hx. by eapply (Hs _ _ Hx Hk), list_elem_of_here.
  - intros u k [->|Hu]%elem_of_cons Huk; [congruence|]. intros Hks. by eapply (Hs _ _ Hu Huk), list_elem_of_further.
Qed.

Lemma NoDup_omap {A B} (f : A -> option B) (l : list A) :
  (forall x y b, f x = Some b -> f y = Some b -> x = y) -> NoDup l -> NoDup (omap f l).
Proof.
  intros Hf. induction 1 as [|x l Hx Hl IH]; cbn; [constructor|]. destruct (f x) as [b|] eqn:E; [|done].
  constructor; [|done]. intros (y & Hy & Ey)%list_elem_of_omap. by rewrite (Hf x y b) in Hx.
Qed.

Section Facts.
Context `{SS : SliceSort} (cfg : Paths.ValidationConfig).
Context (token_size : queryCursor -> Z) (json_size : json -> Z).

(** What the calls show: source records, and the metadata of the stream. *)
Inductive page_obs := Shown (d : StoredDoc) | Opened (metadata : CandidateMetadata).
Definition shown {X} (e : pageE X) : X -> list page_obs :=
  match e with
  | GetMany _ _ => fun r => match r with Ok docs => map Shown (omap id docs) | Err _ => [] end
  | ScanDocuments _ _ => fun r => match r with Ok page => map Shown (ssp_Documents page) | Err _ => [] end
  | OpenStream _ _ => fun r => match r with Ok metadata => [Opened metadata] | Err _ => [] end
  | _ => fun _ => []
  end.

(** Any answers. *)
Definition any_step X (e : pageE X) (_ : unit) (x : X) (_ : unit) (o : list page_obs) : Prop := o = shown e x.
Local Abbreviation runs := (runs any_step).

Context (database : string) (q : Query).

(** *** Accepted documents *)

(** [doc] presents the source record [stored]: the record is in scope, visible and
    satisfies every filter. *)
Record presents (stored : StoredDoc) (id : string) (doc : Document) : Prop := {
  pr_database : doc_Database stored = database;
  pr_collection : doc_Collection stored = q_Collection q;
  pr_id : LogicalDocumentID stored = Ok id;
  pr_visible : doc_Deleted stored = true -> q_ShowDeleted q = true;
  pr_filters : EvaluateFilters (q_Filters q) (DocumentField stored id) = Ok true;
  pr_fields : forall field, field ∈ ["id"; "collection"; "version"; "createdAt"; "updatedAt"; "deleted"] ->
    doc !! field = Some (DocumentField stored id field).1;
  pr_data : forall field, field ∉ ["id"; "collection"; "version"; "createdAt"; "updatedAt"; "deleted"] ->
    doc !! field = if doc_Deleted stored then None else doc_Data stored !! field;
}.

Lemma foldl_insert_lookup {A} (f : string -> A) l (m : gmap string A) k :
  foldl (fun m x => <[x := f x]> m) m l !! k = if bool_decide (k ∈ l) then Some (f k) else m !! k.
Proof.
  revert m. induction l as [|x l IH]; intros m; cbn [foldl]; [done|]. rewrite IH.
  destruct (decide (k ∈ l)) as [Hk|Hk].
  - by rewrite !bool_decide_eq_true_2 by set_solver.
  - rewrite bool_decide_eq_false_2 by done. destruct (decide (k = x)) as [->|Hne].
    + rewrite lookup_insert_eq. by rewrite bool_decide_eq_true_2 by set_solver.
    + rewrite lookup_insert_ne by done. by rewrite bool_decide_eq_false_2 by set_solver.
Qed.

Lemma validateSource_presents stored expected doc id :
  validateSource stored database q expected = Ok (Some (doc, id)) ->
  id = expected /\ exists s, stored = Some s /\ presents s id doc.
Proof.
  unfold validateSource. destruct stored as [s|]; [|done].
  destruct (String.eqb_spec (doc_Database s) database) as [Hd|]; [|done].
  destruct (String.eqb_spec (doc_Collection s) (q_Collection q)) as [Hc|]; [|done]. cbn [negb orb].
  intros H. apply bind_ok in H as (id' & Hid%map_err_ok & H).
  destruct (String.eqb_spec id' expected) as [->|]; [|done]. cbn [negb] in H.
  destruct (doc_Deleted s && negb (q_ShowDeleted q)) eqn:Hv; [done|].
  apply bind_ok in H as (ok & Hf%map_err_ok & H). destruct ok; [|done]. cbn [negb] in H.
  match type of H with Ok (Some (?d, _)) = _ => remember d as d0 eqn:Hdoc end. injection H as -> <-. split; [done|]. exists s. split; [done|]. split; try done.
  - intros Hdel. rewrite Hdel in Hv. by destruct (q_ShowDeleted q).
  - intros field Hin. rewrite Hdoc. rewrite (foldl_insert_lookup (fun f => (DocumentField s expected f).1)).
    by rewrite bool_decide_eq_true_2.
  - intros field Hin. rewrite Hdoc. rewrite (foldl_insert_lookup (fun f => (DocumentField s expected f).1)).
    rewrite bool_decide_eq_false_2 by done. by destruct (doc_Deleted s).
Qed.

(** *** The documents of a page so far *)

(** The documents of [st], each at the position [key] gives its record: strictly
    increasing, after [p0] and not after the position reached. *)
Record page_so_far (key : StoredDoc -> string -> bytes -> Prop) (p0 : bytes) (os : list page_obs) (st : page_state)
    (ks : list bytes) : Prop := {
  so_sorted : StronglySorted (fun a b => bytes_ltb a b = true) ks;
  so_after : Forall (fun k => bytes_ltb p0 k = true) ks;
  so_reached : Forall (fun k => bytes_leb k (ps_position st) = true) ks;
  so_docs : Forall2 (fun doc k => exists s id, Shown s ∈ os /\ presents s id doc /\ key s id k) (ps_docs st) ks;
  so_start : bytes_leb p0 (ps_position st) = true;
  so_encoded : Forall (fun doc => is_ok (EncodeTypedValue (VMap (map_to_list doc))) = true) (ps_docs st);
}.

(** With [n] documents or more, the position reached is the last document's. *)
Definition settled (n : nat) (st : page_state) (ks : list bytes) : Prop :=
  (n <= length (ps_docs st))%nat -> last ks = Some (ps_position st).

Section Inv.
Context (key : StoredDoc -> string -> bytes -> Prop) (p0 : bytes).
Local Abbreviation page_so_far := (page_so_far key p0).

Lemma so_far_mono os os' st ks : (forall s, Shown s ∈ os -> Shown s ∈ os') -> page_so_far os st ks -> page_so_far os' st ks.
Proof.
  intros Ho []. split; [done|done|done| |done|done]. eapply Forall2_impl; [done|]. intros doc k (s & id & Hs & ?). eauto.
Qed.

Lemma so_far_skip os st ks p :
  page_so_far os st ks -> bytes_ltb (ps_position st) p = true -> page_so_far os (set_position p st) ks.
Proof.
  intros [] Hp. assert (Hle : forall k, bytes_leb k (ps_position st) = true -> bytes_leb k p = true).
  { intros k Hk. apply bytes_leb_le in Hk. apply bytes_ltb_lt in Hp. apply bytes_leb_le.
    pose proof (bytes_le_lt_trans _ _ _ Hk Hp). congruence. }
  split; try done; [|by apply Hle]. eapply Forall_impl; [done|]. auto.
Qed.

Lemma so_far_append os st st' ks p s id doc :
  page_so_far os st ks -> bytes_ltb (ps_position st) p = true ->
  Shown s ∈ os -> presents s id doc -> key s id p -> is_ok (EncodeTypedValue (VMap (map_to_list doc))) = true ->
  ps_position st' = p -> ps_docs st' = ps_docs st ++ [doc] -> page_so_far os st' (ks ++ [p]).
Proof.
  intros Hso Hp Hs Hpr Hk Henc Hpos Hdocs. pose proof (so_far_skip _ _ _ _ Hso Hp) as Hsk. destruct Hso, Hsk.
  assert (Hlt : forall k, bytes_leb k (ps_position st) = true -> bytes_ltb k p = true).
  { intros k Hkl. apply bytes_leb_le in Hkl. apply bytes_ltb_lt. eapply bytes_le_lt_trans; [done|]. by apply bytes_ltb_lt. }
  split.
  - apply StronglySorted_app_2; [|done|by repeat constructor].
    intros a b Ha ->%list_elem_of_singleton. apply Hlt. rewrite Forall_forall in so_reached0. auto.
  - apply Forall_app; split; [done|]. repeat constructor. by apply Hlt.
  - rewrite Hpos. apply Forall_app; split; [done|]. repeat constructor. apply bytes_leb_le. by rewrite bytes_compare_refl.
  - rewrite Hdocs. apply Forall2_app; [done|]. repeat constructor. eauto.
  - by rewrite Hpos.
  - rewrite Hdocs. apply Forall_app; split; [done|by repeat constructor].
Qed.
End Inv.

Lemma appendPageDocument_ok doc st st' :
  appendPageDocument json_size doc st = Ok st' ->
  ps_position st' = ps_position st /\ ps_docs st' = ps_docs st ++ [doc] /\
  is_ok (EncodeTypedValue (VMap (map_to_list doc))) = true.
Proof.
  unfold appendPageDocument. intros H. apply bind_ok in H as (t & Ht%map_err_ok & H). destruct (_ <? _); [done|].
  injection H as <-. by rewrite Ht.
Qed.

(** *** One candidate *)
Definition index_key (metadata : CandidateMetadata) (s : StoredDoc) (id : string) (k : bytes) : Prop :=
  Encode (order_fields metadata s id) id = Ok k.
Definition source_key (_ : StoredDoc) (id : string) (k : bytes) : Prop := k = bytes_of_string id.

(** A candidate at [p] was consumed: the page has at most one document more. *)
Definition consumed (key : StoredDoc -> string -> bytes -> Prop) (p0 : bytes) (os : list page_obs) (p : bytes)
    (st st' : page_state) : Prop :=
  ps_position st' = p /\ (length (ps_docs st) <= length (ps_docs st') <= S (length (ps_docs st)))%nat /\
  exists ks, page_so_far key p0 os st' ks /\ settled (S (length (ps_docs st))) st' ks.

Lemma consumed_skip key p0 os st ks p :
  page_so_far key p0 os st ks -> bytes_ltb (ps_position st) p = true -> consumed key p0 os p st (set_position p st).
Proof. intros Hso Hp. split; [done|]. split; [cbn; lia|]. exists ks. split; [by apply so_far_skip|unfold settled; cbn; lia]. Qed.

Lemma consumed_append key p0 os st st' ks p s id doc :
  page_so_far key p0 os st ks -> bytes_ltb (ps_position st) p = true -> Shown s ∈ os -> presents s id doc -> key s id p ->
  is_ok (EncodeTypedValue (VMap (map_to_list doc))) = true ->
  ps_position st' = p -> ps_docs st' = ps_docs st ++ [doc] -> consumed key p0 os p st st'.
Proof.
  intros Hso Hp Hs Hpr Hk Henc Hpos Hdocs. split; [done|]. split; [rewrite Hdocs, length_app; cbn; lia|].
  exists (ks ++ [p]). split; [by eapply so_far_append|]. intros _. by rewrite last_snoc, Hpos.
Qed.

Lemma consume_group_inv metadata p0 os group stored st st' ks :
  page_so_far (index_key metadata) p0 os st ks -> bytes_ltb (ps_position st) (cg_Position group) = true ->
  (forall s, stored = Some s -> Shown s ∈ os) ->
  consume_group json_size database q metadata group stored st = Ok st' ->
  consumed (index_key metadata) p0 os (cg_Position group) st st'.
Proof.
  intros Hso Hp Hs H. unfold consume_group in H. apply bind_ok in H as (acc & Hacc & H).
  pose proof (consumed_skip _ _ _ _ _ _ Hso Hp) as Hskip.
  destruct acc as [[doc id]|]; [|by injection H as <-].
  apply validateSource_presents in Hacc as (-> & s & -> & Hpr). case_bool_decide; [by injection H as <-|].
  apply bind_ok in H as (pos & Hpos & H). apply map_err_ok in Hpos as Hpos'.
  destruct (bytes_eqb pos (cg_Position group)) eqn:He; cbn [negb] in H; [|by injection H as <-].
  apply bytes_eqb_eq in He as ->. apply bind_ok in H as (proj & _ & H). apply bind_ok in H as (keys & _ & H).
  destruct (negb _); [by injection H as <-|]. apply bind_ok in H as (st1 & Happ & H). injection H as <-.
  apply appendPageDocument_ok in Happ as (Hp1 & Hd1 & He1).
  eapply consumed_append; [exact Hso|exact Hp|by apply Hs|exact Hpr|exact Hpos'|exact He1|exact Hp1|exact Hd1].
Qed.

Lemma consume_id_inv p0 os id stored st st' ks :
  page_so_far source_key p0 os st ks -> bytes_ltb (ps_position st) (bytes_of_string id) = true ->
  (forall s, stored = Some s -> Shown s ∈ os) ->
  consume_id json_size database q id stored st = Ok st' ->
  consumed source_key p0 os (bytes_of_string id) st st'.
Proof.
  intros Hso Hp Hs H. unfold consume_id in H. apply bind_ok in H as (acc & Hacc & H).
  pose proof (consumed_skip _ _ _ _ _ _ Hso Hp) as Hskip.
  destruct acc as [[doc id']|]; [|by injection H as <-].
  apply validateSource_presents in Hacc as (-> & s & -> & Hpr). apply appendPageDocument_ok in H as (Hp1 & Hd1 & He1).
  eapply consumed_append; [exact Hso|exact Hp|by apply Hs|exact Hpr|done|exact He1|exact Hp1|exact Hd1].
Qed.

(** *** Batches *)
Lemma poll_inv s s' os r : runs poll s s' os r -> os = [].
Proof. intros Hx. apply runs_bind_inv in Hx as (c & s1 & o1 & o2 & H1 & H2 & ->). apply runs_call_inv in H1.
  destruct H2 as (_ & -> & _). unfold any_step in H1. by subst. Qed.

Section Materialize.
Context (paths : list string) (consume : nat -> option StoredDoc -> page_state -> res page_error page_state).
Context (Inv : list page_obs -> nat -> page_state -> Prop).
Context (Hmono : forall os os' i st, (forall s, Shown s ∈ os -> Shown s ∈ os') -> Inv os i st -> Inv os' i st).
Context (Hstep : forall os i d st st', (i < length paths)%nat -> (forall s, d = Some s -> Shown s ∈ os) -> Inv os i st ->
  consume i d st = Ok st' -> Inv os (S i) st').

Lemma consume_all_inv os0 docs i st s s' os st' :
  (i + length docs <= length paths)%nat -> (forall d s, d ∈ docs -> d = Some s -> Shown s ∈ os0) -> Inv os0 i st ->
  runs (consume_all consume i docs st) s s' os (Ok st') -> os = [] /\ Inv os0 (i + length docs) st'.
Proof.
  revert i st s os. induction docs as [|d docs IH]; intros i st s os Hlen Hin HI Hx; cbn [consume_all] in Hx.
  - destruct Hx as (_ & -> & [= ->]). by rewrite Nat.add_0_r.
  - apply runs_try_inv in Hx as [(e & _ & [=])|(u & s1 & o1 & o2 & H1 & H2 & ->)].
    apply poll_inv in H1 as ->. destruct (consume i d st) as [st1|e] eqn:Hc; [|by destruct H2 as (_ & _ & [=])].
    assert (HI1 : Inv os0 (S i) st1).
    { eapply Hstep; [cbn in Hlen; lia|intros; eapply Hin; [apply list_elem_of_here|done]|done|done]. }
    destruct (IH (S i) st1 s1 o2) as [-> HI']; [cbn in Hlen; lia|intros; eapply Hin; [by apply list_elem_of_further|done]|done|exact H2|].
    split; [done|]. cbn. by rewrite Nat.add_succ_r.
Qed.

Lemma materialize_inv fuel bl off os0 st s s' os st' :
  (off <= length paths)%nat -> Inv os0 off st ->
  runs (materialize_loop fuel database paths consume bl off st) s s' os (Ok st') ->
  Inv (os0 ++ os) (length paths) st'.
Proof.
  revert bl off os0 st s os. induction fuel as [|fuel IH]; intros bl off os0 st s os Hoff HI Hx; cbn [materialize_loop] in Hx.
  { by destruct Hx as (_ & _ & [=]). }
  destruct (Nat.leb_spec (length paths) off).
  { destruct Hx as (_ & -> & [= ->]). rewrite app_nil_r. by replace (length paths) with off by lia. }
  apply runs_try_inv in Hx as [(e & _ & [=])|(u & s1 & o1 & o2 & H1 & H2 & ->)]. apply poll_inv in H1 as ->.
  set (fin := ((off + bl) `min` length paths)%nat) in *.
  apply runs_bind_inv in H2 as (docs & s2 & o3 & o4 & H1 & H2 & ->). apply runs_call_inv in H1.
  unfold any_step in H1. subst o3. destruct docs as [docs|e].
  - destruct (Nat.eqb_spec (length docs) (fin - off)) as [Hd|]; cbn [negb] in H2; [|by destruct H2 as (_ & _ & [=])].
    apply runs_try_inv in H2 as [(e & _ & [=])|(st1 & s3 & o5 & o6 & H1 & H2 & ->)].
    eapply consume_all_inv in H1 as [-> HI1]; [| |  |eapply (Hmono os0 (os0 ++ shown (GetMany database _) (Ok docs))); [set_solver|exact HI]].
    + rewrite Hd in HI1. replace (off + (fin - off))%nat with fin in HI1 by lia.
      cbn [app]. rewrite app_assoc. eapply IH; [|exact HI1|exact H2]. lia.
    + lia.
    + intros d s0 Hd0 ->. cbn. apply elem_of_app. right. apply list_elem_of_fmap_2, list_elem_of_omap. by exists (Some s0).
  - destruct (match e with ErrReadBudget => _ | _ => false end); [|by destruct H2 as (_ & _ & [=])].
    simpl. eapply IH; [exact Hoff|exact HI|exact H2].
Qed.
End Materialize.

(** *** Ascending candidates *)
Fixpoint ascending {A} (pos : A -> bytes) (p : bytes) (l : list A) : Prop :=
  match l with
  | [] => True
  | x :: l => bytes_ltb p (pos x) = true /\ ascending pos (pos x) l
  end.

(** The candidates of a batch from [i] on are after the position reached, and the
    page has at most [i] documents more than before the batch. *)
Definition batch_inv {A} (pos : A -> bytes) (key : StoredDoc -> string -> bytes -> Prop) (p0 : bytes) (batch : list A)
    (free : nat) (os : list page_obs) (i : nat) (st : page_state) : Prop :=
  (exists ks, page_so_far key p0 os st ks /\ settled (free + 1 `max` i) st ks) /\ ascending pos (ps_position st) (drop i batch) /\
  (length (ps_docs st) <= free + i)%nat.

Lemma batch_inv_mono {A} (pos : A -> bytes) key p0 batch free os os' i st :
  (forall s, Shown s ∈ os -> Shown s ∈ os') -> batch_inv pos key p0 batch free os i st -> batch_inv pos key p0 batch free os' i st.
Proof. intros Ho ((ks & Hk & Hs) & Ha & Hl). split; [exists ks; split; [by eapply so_far_mono|done]|done]. Qed.

Lemma batch_inv_step {A} (pos : A -> bytes) key p0 batch free os i x st st' :
  batch !! i = Some x -> batch_inv pos key p0 batch free os i st ->
  (forall ks, page_so_far key p0 os st ks -> bytes_ltb (ps_position st) (pos x) = true ->
     consumed key p0 os (pos x) st st') ->
  batch_inv pos key p0 batch free os (S i) st'.
Proof.
  intros Hx ((ks & Hk & _) & Ha & Hl) Hc. rewrite (drop_S _ _ _ Hx) in Ha. destruct Ha as [Hlt Ha].
  destruct (Hc ks Hk Hlt) as (Hp & Hd & ks' & Hk' & Hs').
  split; [exists ks'; split; [done|]; intros Hn; apply Hs'; lia|]. rewrite Hp. split; [done|lia].
Qed.

Lemma batch_start {A} (pos : A -> bytes) key p0 batch os st ks :
  page_so_far key p0 os st ks -> ascending pos (ps_position st) batch ->
  batch_inv pos key p0 batch (length (ps_docs st)) os 0 st.
Proof. intros Hk Ha. split; [exists ks; split; [done|unfold settled; lia]|]. rewrite drop_0. split; [done|lia]. Qed.

(** *** The index route *)
Local Abbreviation limit := (Z.to_nat (q_Limit q)).

Lemma collect_groups_inv n previous groups s s' os gs exhausted :
  runs (collect_groups n previous groups) s s' os (Ok (gs, exhausted)) ->
  os = [] /\ exists new, gs = groups ++ new /\ (length new <= n)%nat /\ ascending cg_Position previous new /\
    (exhausted = false -> length new = n).
Proof.
  revert previous groups s os. induction n as [|n IH]; intros previous groups s os Hx; cbn [collect_groups] in Hx.
  { destruct Hx as (_ & -> & [= -> _]). split; [done|]. exists []. by rewrite app_nil_r. }
  apply runs_try_inv in Hx as [(e & _ & [=])|(u & s1 & o1 & o2 & H1 & H2 & ->)]. apply poll_inv in H1 as ->.
  apply runs_bind_inv in H2 as ([next examined] & s2 & o3 & o4 & H1 & H2 & ->). apply runs_call_inv in H1.
  unfold any_step in H1. subst o3. destruct next as [next|e]; [|by destruct H2 as (_ & _ & [=])].
  destruct (_ <? examined); [by destruct H2 as (_ & _ & [=])|].
  destruct next as [g|]. 2: { destruct H2 as (_ & -> & [= -> ->]). split; [done|]. exists []. rewrite app_nil_r. split_and!; [done|cbn; lia|done|done]. }
  destruct (_ || _) eqn:E1 in H2; [by destruct H2 as (_ & _ & [=])|].
  destruct (_ && _) eqn:E2 in H2; [by destruct H2 as (_ & _ & [=])|].
  destruct (_ || _) in H2; [by destruct H2 as (_ & _ & [=])|].
  destruct (IH _ _ _ _ H2) as (-> & new & -> & Hlen & Ha & Hfull). split; [done|]. exists (g :: new).
  split; [by rewrite <- app_assoc|]. split; [cbn; lia|]. split; [|intros; cbn; by rewrite Hfull]. split; [|done].
  apply orb_false_iff in E1 as [E1 _]. apply andb_false_iff in E2 as [E2|E2].
  - apply negb_false_iff, Nat.eqb_eq, nil_length_inv in E2 as ->. destruct (cg_Position g); [discriminate E1|done].
  - rewrite bytes_leb_ltb in E2. by apply negb_false_iff in E2.
Qed.

Section Index.
Context (metadata : CandidateMetadata) (p0 : bytes).
Local Abbreviation so_far := (page_so_far (index_key metadata) p0).

Lemma index_loop_inv fuel os0 st ks s s' os st' exhausted :
  so_far os0 st ks -> settled limit st ks -> Z.of_nat (length (ps_docs st)) <= q_Limit q ->
  runs (index_loop json_size fuel database q metadata st) s s' os (Ok (st', exhausted)) ->
  Z.of_nat (length (ps_docs st')) <= q_Limit q /\ (exhausted = false -> q_Limit q <= Z.of_nat (length (ps_docs st'))) /\
  exists ks', so_far (os0 ++ os) st' ks' /\ settled limit st' ks'.
Proof.
  revert os0 st ks s os. induction fuel as [|fuel IH]; intros os0 st ks s os Hso Hset Hlim Hx; cbn [index_loop] in Hx.
  { by destruct Hx as (_ & _ & [=]). }
  assert (Hdone : forall os' : list page_obs, exists ks', so_far (os0 ++ os') st ks' /\ settled limit st ks')
    by (intros; exists ks; split; [eapply so_far_mono; [|exact Hso]; set_solver|done]).
  destruct (_ <=? 0) eqn:Efree; [destruct Hx as (_ & -> & [= -> _]); split; [done|]; split; [intros; lia|done]|].
  apply runs_try_inv in Hx as [(e & _ & [=])|([gs exh] & s1 & o1 & o2 & H1 & H2 & ->)].
  apply collect_groups_inv in H1 as (-> & new & Hgs & Hlen & Ha & Hfull). cbn [app] in Hgs. subst new.
  destruct gs as [|g gs].
  { destruct H2 as (_ & -> & [= -> ->]). split; [done|]. split; [|done]. intros Hf. specialize (Hfull Hf). cbn in Hfull.
    unfold maxMaterializationDocuments in Hfull. lia. } set (groups := g :: gs) in *.
  apply runs_try_inv in H2 as [(e & _ & [=])|(st1 & s2 & o3 & o4 & H1 & H2 & ->)].
  eapply (materialize_inv _ _ (batch_inv cg_Position (index_key metadata) p0 groups (length (ps_docs st)))) in H1
    as ((ks1 & Hk1 & Hs1) & _ & Hl1).
  - rewrite length_map in Hl1, Hs1.
    assert (Hset1 : settled limit st1 ks1)
      by (intros Hn; apply Hs1; unfold maxMaterializationDocuments in *; cbn [length groups] in *; lia).
    assert (Hlim1 : Z.of_nat (length (ps_docs st1)) <= q_Limit q) by (unfold maxMaterializationDocuments in *; lia).
    destruct exh.
    + destruct H2 as (_ & -> & [= -> ->]). split; [done|]. split; [done|]. rewrite app_nil_r. eauto.
    + rewrite app_nil_l, app_assoc. by eapply IH.
  - intros; by eapply batch_inv_mono.
  - intros os' i d st2 st3 Hi Hd Hinv Hc. destruct (groups !! i) as [x|] eqn:Hx.
    + eapply batch_inv_step; [exact Hx|exact Hinv|]. intros. by eapply consume_group_inv.
    + apply lookup_ge_None in Hx. rewrite length_map in Hi. lia.
  - lia.
  - by eapply batch_start.
Qed.
End Index.

(** *** The identifiers route *)
Lemma ids_loop_inv fuel p0 os0 rest st ks s s' os st' exhausted :
  page_so_far source_key p0 os0 st ks -> settled limit st ks -> ascending bytes_of_string (ps_position st) rest ->
  Z.of_nat (length (ps_docs st)) <= q_Limit q ->
  runs (ids_loop json_size fuel database q rest st) s s' os (Ok (st', exhausted)) ->
  Z.of_nat (length (ps_docs st')) <= q_Limit q /\ (exhausted = false -> q_Limit q <= Z.of_nat (length (ps_docs st'))) /\
  exists ks', page_so_far source_key p0 (os0 ++ os) st' ks' /\ settled limit st' ks'.
Proof.
  revert os0 rest st ks s os. induction fuel as [|fuel IH]; intros os0 rest st ks s os Hso Hset Ha Hlim Hx; cbn [ids_loop] in Hx.
  { by destruct Hx as (_ & _ & [=]). }
  destruct (_ || _) eqn:E.
  { destruct Hx as (_ & -> & [= -> ->]). split; [done|]. split; [|rewrite app_nil_r; eauto].
    intros Hr. rewrite Hr in E. cbn [orb] in E. lia. }
  apply orb_false_iff in E as [Erest Efree]. apply Nat.eqb_neq in Erest.
  apply runs_try_inv in Hx as [(e & _ & [=])|(u & s1 & o1 & o2 & H1 & H2 & ->)]. apply poll_inv in H1 as ->.
  set (count := (_ `min` length rest)%nat) in *.
  apply runs_try_inv in H2 as [(e & _ & [=])|(st1 & s2 & o3 & o4 & H1 & H2 & ->)].
  eapply (materialize_inv _ _ (batch_inv bytes_of_string source_key p0 rest (length (ps_docs st)))) in H1
    as ((ks1 & Hk1 & Hs1) & Ha1 & Hl1).
  - rewrite length_map, length_take in Hl1, Hs1, Ha1. replace (count `min` length rest)%nat with count in Hl1, Hs1, Ha1 by lia.
    rewrite app_nil_l, app_assoc. eapply IH; [exact Hk1| |exact Ha1| |exact H2]; unfold maxMaterializationDocuments in *; [|lia].
    intros Hn. apply Hs1. lia.
  - intros; by eapply batch_inv_mono.
  - intros os' i d st2 st3 Hi Hd Hinv Hc. rewrite length_map, length_take in Hi. rewrite lookup_take_lt in Hc by lia.
    destruct (rest !! i) as [x|] eqn:Hx; [|apply lookup_ge_None in Hx; lia].
    eapply batch_inv_step; [exact Hx|exact Hinv|]. intros. by eapply consume_id_inv.
  - lia.
  - by eapply batch_start.
Qed.

Lemma ascending_sorted p ids :
  sorted_by string_ltb ids -> NoDup ids -> Forall (fun id => bytes_ltb p (bytes_of_string id) = true) ids ->
  ascending bytes_of_string p ids.
Proof.
  unfold sorted_by. intros Hs. revert p. induction Hs as [|x l Hl IH Hx]; intros p Hn Hp; cbn; [done|].
  apply NoDup_cons in Hn as [Hnx Hn]. apply Forall_cons in Hp as [Hpx _]. split; [done|]. apply IH; [done|].
  rewrite Forall_forall in Hx |- *. intros y Hy. specialize (Hx y Hy). unfold string_ltb, bytes_ltb in *.
  rewrite bytes_compare_antisym in Hx. destruct (bytes_compare (bytes_of_string x) (bytes_of_string y)) eqn:E; try done.
  apply (string_compare_eq x y) in E. by subst.
Qed.

(** The members of a filter of a normalised query are distinct. *)
Definition distinct_members (f : filter) : Prop :=
  match filter_op f, filter_value f with OpIn, VSlice l => NoDup l | _, _ => True end.

Lemma normalizeQuery_ok q0 q1 : normalizeQuery cfg q0 = Ok q1 ->
  Forall distinct_members (q_Filters q1) /\ 1 <= q_Limit q1 <= 1000 /\ q_StartAfter q1 = q_StartAfter q0.
Proof.
  unfold normalizeQuery. destruct (negb _); [done|]. destruct (_ || _) eqn:El; [done|].
  destruct (NormalizeFilters (q_Filters q0)) as [gs|] eqn:Hn; [|done]. destruct (existsb _ _); [done|].
  destruct (negb _); [done|]. intros [= <-]. cbn. apply orb_false_iff in El as [El1 El2].
  split; [|split; [destruct (Z.eqb_spec (q_Limit q0) 0); lia|done]].
  apply NormalizeFilters_from_ok in Hn. rewrite Forall_forall. intros g (i & Hi)%list_elem_of_lookup.
  destruct (Forall2_lookup_r _ _ _ _ _ Hn Hi) as (f & _ & Hf).
  apply normalize_filter_inv in Hf as (_ & Hop & _ & w & _ & Hw). unfold distinct_members. rewrite Hop.
  destruct (filter_op f); try done. destruct Hw as (items & us & _ & Hu & ->). by eapply unique_members_NoDup.
Qed.

Lemma query_ids_ascending p after :
  Forall distinct_members (q_Filters q) -> p = bytes_of_string after -> ascending bytes_of_string p (query_ids q after).
Proof.
  intros Hd ->. unfold query_ids. destruct (q_Filters q) as [|f fs]; [done|]. apply Forall_cons in Hd as [Hd _].
  set (values := match filter_op f with OpIn => _ | _ => _ end). set (pick := fun v => _).
  assert (Hv : NoDup values).
  { subst values. unfold distinct_members in Hd. repeat case_match; try apply NoDup_singleton; done. }
  apply ascending_sorted.
  - apply sort_slice_sorted, (bytes_ltb_strict_weak bytes_of_string).
  - rewrite sort_slice_perm. apply NoDup_omap; [|done]. intros x y b Hx Hy. unfold pick in Hx, Hy.
    destruct x; try done; destruct y; try done. repeat case_match; congruence.
  - rewrite sort_slice_perm. rewrite Forall_forall. intros id (v & _ & Hx)%list_elem_of_omap.
    unfold pick in Hx. destruct v; try done. destruct (_ && _) eqn:E; [|done]. injection Hx as <-.
    by apply andb_prop in E as [_ E].
Qed.

(** *** The scan route *)
Lemma scan_docs_inv n p0 os docs after st ks st' after' :
  page_so_far source_key p0 os st ks -> settled n st ks -> (length (ps_docs st) + length docs <= n)%nat ->
  ps_position st = bytes_of_string after -> (forall s, s ∈ docs -> Shown s ∈ os) ->
  scan_docs json_size database q docs after st = Ok (st', after') ->
  (exists ks', page_so_far source_key p0 os st' ks' /\ settled n st' ks') /\ ps_position st' = bytes_of_string after' /\
  (length (ps_docs st') <= length (ps_docs st) + length docs)%nat.
Proof.
  revert after st ks. induction docs as [|d docs IH]; intros after st ks Hso Hset Hn Hpos Hin H; cbn [scan_docs] in H.
  { injection H as <- <-. split; [eauto|]. split; [done|lia]. }
  apply bind_ok in H as (id & _ & H). destruct (string_ltb after id) eqn:Hlt; [|done]. cbn [negb] in H.
  apply bind_ok in H as (st1 & Hc & H).
  cbn [length] in Hn. eapply consume_id_inv in Hc as (Hp1 & Hl1 & ks1 & Hk1 & Hs1); [|exact Hso|by rewrite Hpos|intros s [= <-]; apply Hin; left].
  destruct (IH id st1 ks1) as (Hk' & Hp' & Hl'); [done|intros Hle; apply Hs1; lia|lia|done|intros; apply Hin; by right|exact H|].
  split; [done|]. split; [done|]. cbn. lia.
Qed.

Lemma scan_batch_inv fuel after bl s s' os page bl' :
  runs (scan_batch fuel database (q_Collection q) after bl) s s' os (Ok (page, bl')) -> os = map Shown (ssp_Documents page) /\ bl' <= bl.
Proof.
  revert bl s os. induction fuel as [|fuel IH]; intros bl s os Hx; cbn [scan_batch] in Hx.
  { by destruct Hx as (_ & _ & [=]). }
  apply runs_try_inv in Hx as [(e & _ & [=])|(u & s1 & o1 & o2 & H1 & H2 & ->)]. apply poll_inv in H1 as ->.
  apply runs_bind_inv in H2 as (r & s2 & o3 & o4 & H1 & H2 & ->). apply runs_call_inv in H1.
  unfold any_step in H1. subst o3. destruct r as [batch|e].
  - destruct H2 as (_ & -> & [= -> ->]). rewrite app_nil_r. split; [done|lia].
  - destruct (match e with ErrSourceScanBudget => _ | _ => false end) eqn:Ee; [|by destruct H2 as (_ & _ & [=])].
    destruct e; try done. destruct (IH _ _ _ H2) as [-> Hle]. split; [done|]. apply Z.ltb_lt in Ee. Z.to_euclidean_division_equations. lia.
Qed.

Lemma scan_loop_inv fuel p0 os0 after examined sbl st ks s s' os st' exhausted :
  page_so_far source_key p0 os0 st ks -> settled limit st ks -> ps_position st = bytes_of_string after ->
  Z.of_nat (length (ps_docs st)) <= q_Limit q ->
  runs (scan_loop json_size fuel database q after examined sbl st) s s' os (Ok (st', exhausted)) ->
  Z.of_nat (length (ps_docs st')) <= q_Limit q /\ (exhausted = false -> q_Limit q <= Z.of_nat (length (ps_docs st'))) /\
  exists ks', page_so_far source_key p0 (os0 ++ os) st' ks' /\ settled limit st' ks'.
Proof.
  revert os0 after examined sbl st ks s os.
  induction fuel as [|fuel IH]; intros os0 after examined sbl st ks s os Hso Hset Hpos Hlim Hx; cbn [scan_loop] in Hx.
  { by destruct Hx as (_ & _ & [=]). }
  destruct (_ <=? 0) eqn:Efree.
  { destruct Hx as (_ & -> & [= -> _]). split; [done|]. split; [intros; lia|]. rewrite app_nil_r. eauto. }
  apply runs_try_inv in Hx as [(e & _ & [=])|(u & s1 & o1 & o2 & H1 & H2 & ->)]. apply poll_inv in H1 as ->.
  destruct (_ <=? examined); [by destruct H2 as (_ & _ & [=])|].
  apply runs_try_inv in H2 as [(e & _ & [=])|([batch reduced] & s2 & o3 & o4 & H1 & H2 & ->)].
  apply scan_batch_inv in H1 as [-> Hred].
  destruct (Z.ltb_spec reduced (Z.of_nat (length (ssp_Documents batch)))); [by destruct H2 as (_ & _ & [=])|].
  destruct (scan_docs _ _ _ _ _ _) as [[st1 after1]|e] eqn:Hd; [|by destruct H2 as (_ & _ & [=])].
  eapply (scan_docs_inv limit p0 (os0 ++ map Shown (ssp_Documents batch))) in Hd as ((ks1 & Hk1 & Hs1) & Hp1 & Hl1);
    [|eapply so_far_mono; [|exact Hso]; set_solver|done|lia|done|].
  2: { intros d Hdoc. apply elem_of_app. right. by apply list_elem_of_fmap_2. }
  assert (Hlim1 : Z.of_nat (length (ps_docs st1)) <= q_Limit q) by lia.
  destruct (ssp_Exhausted batch); [destruct H2 as (_ & -> & [= -> ->]); split; [done|]; split; [done|]; rewrite app_nil_r, app_nil_l; eauto|].
  destruct (_ =? 0)%nat; [by destruct H2 as (_ & _ & [=])|].
  rewrite app_nil_l, app_assoc. by eapply IH.
Qed.
End Facts.

(** ** The page *)
Section Pages.
Context `{SS : SliceSort} (cfg : Paths.ValidationConfig).
Context (token_size : queryCursor -> Z) (json_size : json -> Z).

(** The position a query resumes after. *)
Definition start_position (q : Query) : bytes :=
  match q_StartAfter q with Some (Token _ c) => qc_Position c | _ => [] end.

(** Where the candidates of a page come from: the source, or a stream with its
    metadata. *)
Definition key_of (served : option CandidateMetadata) : StoredDoc -> string -> bytes -> Prop :=
  match served with None => source_key | Some metadata => index_key metadata end.
Definition order_of (served : option CandidateMetadata) : list QOrder :=
  match served with None => source_order | Some metadata => page_order metadata end.

(** The query, continued after a cursor. *)
Definition resumed (q : Query) (t : token) : Query :=
  {| q_Collection := q_Collection q; q_Filters := q_Filters q; q_OrderBy := q_OrderBy q; q_Limit := q_Limit q;
     q_StartAfter := Some t; q_ShowDeleted := q_ShowDeleted q |}.

(** The parts of the metadata an index cursor must name. *)
Definition complete_metadata (metadata : CandidateMetadata) : Prop :=
  md_TemplateFingerprint metadata <> "" /\ md_Generation metadata <> "" /\ md_BranchHash metadata <> "" /\
  md_EffectiveOrder metadata <> [].

(** No guard of the query's route refuses the cursor; on the index route when the
    stream is opened with the same metadata. *)
Definition route_accepts (q : Query) (c : queryCursor) (served : option CandidateMetadata) : Prop :=
  match served with
  | None => source_mismatch q c = false /\ invalid_position c = false
  | Some metadata => index_stale metadata c = false /\ (complete_metadata metadata -> index_mismatch c = false)
  end.

(** A page of [q], normalised to [q'], after the position [p0], with what the calls
    showed in [os]: every document has a position. *)
Record sound_page (database : string) (q q' : Query) (p0 : bytes) (os : list page_obs) (page : QueryPage)
    (served : option CandidateMetadata) (ks : list bytes) : Prop := {
  sp_route : from_source q' = match served with None => true | Some _ => false end;
  sp_served : forall metadata, served = Some metadata -> Opened metadata ∈ os;
  sp_order : pg_EffectiveOrder page = order_of served;
  sp_docs : Forall2 (fun doc k => exists s id, Shown s ∈ os /\ presents database q' s id doc /\ key_of served s id k)
              (pg_Documents page) ks;
  sp_sorted : StronglySorted (fun a b => bytes_ltb a b = true) ks;
  sp_after : Forall (fun k => bytes_ltb p0 k = true) ks;
  sp_limit : Z.of_nat (length (pg_Documents page)) <= q_Limit q';
  sp_next : forall t, pg_NextCursor page = Some t -> exists c,
    start_page cfg database (resumed q t) = Ok (resumed q' t, c) /\ route_accepts (resumed q' t) c served /\
    Z.of_nat (length (pg_Documents page)) = q_Limit q' /\
    last ks = Some (qc_Position c) /\ bytes_ltb p0 (qc_Position c) = true;
}.

(** *** Starting a page *)
Lemma normalizeQuery_resumed q q' t : normalizeQuery cfg q = Ok q' -> normalizeQuery cfg (resumed q t) = Ok (resumed q' t).
Proof.
  unfold normalizeQuery. cbn [resumed q_Collection q_Filters q_OrderBy q_Limit q_StartAfter q_ShowDeleted].
  destruct (negb _); [done|]. destruct (_ || _); [done|]. destruct (NormalizeFilters _); [|done].
  destruct (existsb _ _); [done|]. destruct (negb _); [done|]. by intros [= <-].
Qed.

Lemma start_page_resumed database q q' t c :
  database <> "" -> normalizeQuery cfg q = Ok q' -> queryScope database q' = Ok (qc_Scope c) -> decodeCursor t = Ok c ->
  start_page cfg database (resumed q t) = Ok (resumed q' t, c).
Proof.
  intros Hdb Hn Hs Hd. unfold start_page. destruct (String.eqb_spec database ""); [done|].
  rewrite (normalizeQuery_resumed _ _ _ Hn). cbn [mbind res_bind]. change (queryScope database (resumed q' t)) with (queryScope database q').
  rewrite Hs. cbn. rewrite Hd. cbn. by rewrite String.eqb_refl.
Qed.

Lemma start_page_ok database q q' c :
  start_page cfg database q = Ok (q', c) ->
  database <> "" /\ normalizeQuery cfg q = Ok q' /\ queryScope database q' = Ok (qc_Scope c) /\ qc_Version c = 2 /\
  qc_Position c = start_position q /\
  (match q_StartAfter q' with None => false | Some _ => true end = false -> c = new_cursor (qc_Scope c)).
Proof.
  unfold start_page. destruct (String.eqb_spec database "") as [|Hdb]; [done|]. intros Hq.
  apply bind_ok in Hq as (q1 & Hn & Hq). apply bind_ok in Hq as (scope & Hscope & Hq).
  apply bind_ok in Hq as (c1 & Hc & Hq). injection Hq as <- <-.
  destruct (normalizeQuery_ok _ _ _ Hn) as (_ & _ & Hsa). unfold start_position. rewrite Hsa in *.
  destruct (q_StartAfter q) as [t|]; [|injection Hc as <-; by repeat split].
  apply bind_ok in Hc as (c & Hdec & Hc). destruct (String.eqb_spec (qc_Scope c) scope); [|done]. injection Hc as <-. subst scope.
  unfold decodeCursor in Hdec. destruct t; [|done]. destruct (_ <? _); [done|]. destruct (_ || _) eqn:E; [done|]. injection Hdec as <-.
  repeat apply orb_false_iff in E as [E _]. apply negb_false_iff, Z.eqb_eq in E. by repeat split.
Qed.

(** An identifier of a document that can be encoded is UTF-8. *)
Lemma normalized_field_utf8 l n k s : NormalizeValue (VMap l) = Ok n -> (k, VString s) ∈ l -> utf8_valid_string s = true.
Proof.
  cbn [NormalizeValue]. intros (m & Hm & _)%fmap_ok. revert m Hm.
  induction l as [|[k' x] l IH]; intros m Hm Hin; [by apply elem_of_nil in Hin|].
  destruct (utf8_valid_string k'); [|done]. apply bind_ok in Hm as (y & Hy%map_err_ok & Hm). apply bind_ok in Hm as (ys & Hm & _).
  apply elem_of_cons in Hin as [[= <- <-]|Hin]; [|by eapply IH]. cbn [NormalizeValue] in Hy. by destruct (utf8_valid_string s).
Qed.

Lemma encoded_id_utf8 (doc : Document) id :
  is_ok (EncodeTypedValue (VMap (map_to_list doc))) = true -> doc !! "id" = Some (VString id) ->
  utf8_valid_string id = true.
Proof.
  intros He Hid. apply elem_of_map_to_list in Hid. revert He. unfold EncodeTypedValue.
  destruct (NormalizeValue (VMap _)) as [n|] eqn:Hn; [intros _|done]. by eapply normalized_field_utf8.
Qed.

Lemma queryScope_nonempty database q scope : queryScope database q = Ok scope -> scope <> "".
Proof.
  unfold queryScope. intros H. apply bind_ok in H as (ps & _ & H). injection H as <-.
  match goal with |- context [Sha256.Sum256 ?m] => pose proof (length_Sum256 m); destruct (Sha256.Sum256 m) end; [done|].
  cbn. done.
Qed.

(** The cursor of a page before its position is set. *)
Record page_cursor (scope : string) (c : queryCursor) : Prop := {
  cu_version : qc_Version c = 2; cu_scope : qc_Scope c = scope; cu_nonempty : scope <> ""; cu_route : qc_Route c <> "";
}.

Lemma finish_page_ok scope cursor order st exhausted page :
  page_cursor scope cursor -> finish_page token_size cursor order st exhausted = Ok page ->
  pg_Documents page = ps_docs st /\ pg_EffectiveOrder page = order /\
  (forall t, pg_NextCursor page = Some t -> exhausted = false /\
    decodeCursor t = Ok (with_position (ps_position st) cursor)).
Proof.
  intros Hc. unfold finish_page. intros H. apply bind_ok in H as (next & Hn & H). apply bind_ok in H as (u & _ & H).
  injection H as <-. cbn. split; [done|]. split; [done|]. intros t ->. destruct exhausted; [discriminate Hn|]. split; [done|].
  apply fmap_ok in Hn as (t' & Ht & [= ->]). unfold encodeCursor in Ht. destruct (_ || _) eqn:Ep in Ht; [done|].
  destruct (_ <? _) eqn:Es in Ht; [done|]. injection Ht as <-. cbn [decodeCursor]. rewrite Es.
  apply orb_false_iff in Ep as [Ep1 Ep2]. cbn [with_position qc_Version qc_Scope qc_Route qc_Position] in *.
  rewrite Ep1, Ep2, !orb_false_r. destruct Hc as [-> -> Hs Hr]. cbn [negb Z.eqb orb].
  destruct (String.eqb_spec scope ""); [done|]. by destruct (String.eqb_spec (qc_Route cursor) "").
Qed.

(** What a finished loop leaves makes a page, when its cursor is accepted at the
    last document. *)
Section Finish.
Context (database : string) (q q' : Query) (p0 : bytes) (os : list page_obs) (served : option CandidateMetadata).
Context (Hdb : database <> "") (Hnorm : normalizeQuery cfg q = Ok q').
Context (Hroute : from_source q' = match served with None => true | Some _ => false end).
Context (Hserved : forall metadata, served = Some metadata -> Opened metadata ∈ os).

Lemma so_far_page scope st exhausted ks cursor page :
  queryScope database q' = Ok scope -> page_cursor scope cursor ->
  page_so_far database q' (key_of served) p0 os st ks -> settled (Z.to_nat (q_Limit q')) st ks ->
  Z.of_nat (length (ps_docs st)) <= q_Limit q' -> (exhausted = false -> q_Limit q' <= Z.of_nat (length (ps_docs st))) ->
  (forall t s id doc, presents database q' s id doc -> key_of served s id (ps_position st) ->
     is_ok (EncodeTypedValue (VMap (map_to_list doc))) = true ->
     route_accepts (resumed q' t) (with_position (ps_position st) cursor) served) ->
  finish_page token_size cursor (order_of served) st exhausted = Ok page -> sound_page database q q' p0 os page served ks.
Proof.
  intros Hscope Hcur [] Hset Hle Hfull Hacc H. apply (finish_page_ok scope) in H as (Hd & Ho & Hnext); [|done].
  split; rewrite ?Hd, ?Ho; try done. intros t (Hex & Hdec)%Hnext. exists (with_position (ps_position st) cursor).
  specialize (Hfull Hex). specialize (Hset ltac:(lia)). rewrite last_lookup in Hset.
  destruct (Forall2_lookup_r _ _ _ _ _ so_docs0 Hset) as (doc & Hdoc & s & id & _ & Hpr & Hkey).
  pose proof (Forall_lookup_1 _ _ _ _ so_encoded0 Hdoc) as Henc. pose proof (Forall_lookup_1 _ _ _ _ so_after0 Hset) as Hlt.
  split; [apply start_page_resumed; [done|done| |done]; rewrite Hscope; f_equal; symmetry; apply Hcur|].
  split; [by eapply Hacc|]. split; [lia|]. split; [by rewrite last_lookup|done].
Qed.
End Finish.

Lemma so_far_start database q key p os :
  page_so_far database q key p os {| ps_position := p; ps_docs := []; ps_bytes := 0; ps_seen := ∅ |} [].
Proof. split; try constructor. cbn. apply bytes_leb_le. by rewrite bytes_compare_refl. Qed.

Lemma settled_start n p : 1 <= n -> settled (Z.to_nat n) {| ps_position := p; ps_docs := []; ps_bytes := 0; ps_seen := ∅ |} [].
Proof. unfold settled. cbn. lia. Qed.

Lemma source_accepts database q q' s id doc cursor :
  presents database q s id doc -> is_ok (EncodeTypedValue (VMap (map_to_list doc))) = true ->
  source_mismatch q' cursor = false -> route_accepts q' (with_position (bytes_of_string id) cursor) None.
Proof.
  intros Hpr Henc Hm. split; [exact Hm|]. unfold invalid_position. cbn [with_position qc_Position].
  pose proof (pr_fields _ _ _ _ _ Hpr "id" ltac:(by left)) as Hid. apply (encoded_id_utf8 _ id) in Hid; [|done].
  unfold utf8_valid_string in Hid. rewrite Hid, string_of_bytes_of_string. cbn [negb orb].
  pose proof (pr_id _ _ _ _ _ Hpr) as Hl. unfold LogicalDocumentID in Hl. destruct (String.eqb _ _); [done|].
  apply bind_ok in Hl as (u & _ & Hl). destruct (strip_prefix _ _) as [i|]; [|done].
  destruct (_ || _) eqn:E in Hl; [done|]. injection Hl as ->. by apply orb_false_iff in E as [_ E].
Qed.

Lemma index_accepts q scope position old metadata version :
  route_accepts q (with_position position
    {| qc_Version := version; qc_Scope := scope; qc_Route := "index-v2"; qc_Order := page_order metadata;
       qc_Template := md_TemplateFingerprint metadata; qc_Generation := md_Generation metadata;
       qc_Branches := md_BranchHash metadata; qc_Position := old |}) (Some metadata).
Proof.
  split.
  - unfold index_stale. cbn [with_position qc_Template qc_Generation qc_Branches qc_Order]. rewrite !String.eqb_refl.
    rewrite (proj2 (bytes_eqb_eq _ _)) by done. done.
  - intros (Ht & Hg & Hb & Ho). unfold index_mismatch, page_order.
    cbn [with_position qc_Route qc_Template qc_Generation qc_Branches qc_Order]. rewrite length_map.
    apply String.eqb_neq in Ht, Hg, Hb. rewrite Ht, Hg, Hb. by destruct (md_EffectiveOrder metadata).
Qed.

(** *** The routes *)
Section Routes.
Context (database : string) (q q' : Query) (scope : string) (resuming : bool) (cursor : queryCursor).
Context (Hdb : database <> "") (Hnorm : normalizeQuery cfg q = Ok q') (Hlim : 1 <= q_Limit q').
Context (Hscope : queryScope database q' = Ok scope) (Hver : qc_Version cursor = 2) (Hsc : qc_Scope cursor = scope).
Context (Hne : scope <> "") (Hstart : resuming = false -> cursor = new_cursor scope).

Lemma sourcePage_sound s s' os page :
  from_source q' = true -> Forall distinct_members (q_Filters q') ->
  runs any_step (sourcePage token_size json_size database q' resuming cursor) s s' os (Ok page) ->
  exists served ks, sound_page database q q' (qc_Position cursor) os page served ks.
Proof.
  intros Hfs Hd Hx. unfold sourcePage in Hx. destruct (_ && _) eqn:Em in Hx; [by destruct Hx as (_ & _ & [=])|].
  destruct (_ && _) eqn:Eu in Hx; [by destruct Hx as (_ & _ & [=])|].
  assert (Hp : bytes_of_string (string_of_bytes (qc_Position cursor)) = qc_Position cursor).
  { apply bytes_of_string_of_bytes. destruct resuming; [|rewrite Hstart by done; constructor].
    cbn [andb] in Eu. apply orb_false_iff in Eu as [Eu _]. apply utf8_valid_is_bytes. by destruct (utf8_valid _). }
  apply runs_try_inv in Hx as [(e & _ & [=])|([st exh] & s1 & o1 & o2 & H1 & H2 & ->)].
  destruct H2 as (_ & -> & H2). rewrite app_nil_r. symmetry in H2. cbn [fst snd qc_Position] in *.
  assert (Hloop : Z.of_nat (length (ps_docs st)) <= q_Limit q' /\ (exh = false -> q_Limit q' <= Z.of_nat (length (ps_docs st))) /\
                  exists ks, page_so_far database q' source_key (qc_Position cursor) ([] ++ o1) st ks /\
                    settled (Z.to_nat (q_Limit q')) st ks).
  { destruct (q_Filters q') eqn:Ef.
    - eapply scan_loop_inv; [apply so_far_start|by apply settled_start|by cbn|cbn; lia|exact H1].
    - eapply ids_loop_inv; [apply so_far_start|by apply settled_start|apply query_ids_ascending; [by rewrite Ef|done]|cbn; lia|exact H1]. }
  destruct Hloop as (Hle & Hfull & ks & Hk & Hset). exists None, ks.
  eapply so_far_page; [done|done|done|done|exact Hscope| |exact Hk|exact Hset|done|done| |exact H2].
  - split; cbn; try done. unfold source_route. by destruct (q_Filters q').
  - intros t r id doc Hpr -> Henc. eapply source_accepts; [exact Hpr|exact Henc|].
    unfold source_mismatch. cbn [qc_Route qc_Template qc_Generation qc_Branches qc_Order].
    change (source_route (resumed q' t)) with (source_route q'). rewrite String.eqb_refl, bool_decide_eq_true_2 by done.
    destruct resuming; [|by rewrite Hstart]. cbn [andb] in Em. unfold source_mismatch in Em.
    apply orb_false_iff in Em as [[[[_ ->]%orb_false_iff ->]%orb_false_iff ->]%orb_false_iff _]. done.
Qed.

Lemma index_page_sound fuel s s' os page :
  from_source q' = false ->
  runs any_step (index_page token_size json_size fuel database q' resuming cursor) s s' os (Ok page) ->
  exists served ks, sound_page database q q' (qc_Position cursor) os page served ks.
Proof.
  intros Hfs Hx. unfold index_page in Hx. destruct (_ && _) in Hx; [by destruct Hx as (_ & _ & [=])|].
  destruct (queryToPlan q') as [plan|e]; [|by destruct Hx as (_ & _ & [=])].
  apply runs_bind_inv in Hx as (opened & s1 & o1 & o2 & H1 & H2 & ->). apply runs_call_inv in H1 as ->.
  destruct opened as [metadata|e]; [|by destruct H2 as (_ & _ & [=])].
  apply runs_bind_inv in H2 as (r & s2 & o3 & o4 & Hr & H2 & ->).
  apply runs_bind_inv in H2 as (closed & s3 & o5 & o6 & H1 & H2 & ->). apply runs_call_inv in H1 as ->.
  destruct H2 as (_ & -> & H2). cbn [shown app]. rewrite !app_nil_r.
  destruct r as [page'|e]; [|by destruct closed]. destruct closed; [done|]. injection H2 as ->.
  destruct (_ && _) in Hr; [by destruct Hr as (_ & _ & [=])|].
  apply runs_try_inv in Hr as [(e & _ & [=])|([st exh] & s4 & o7 & o8 & H1 & H2 & ->)].
  destruct H2 as (_ & -> & H2). rewrite app_nil_r. symmetry in H2. cbn [fst snd qc_Position] in *.
  eapply (index_loop_inv _ _ _ metadata (qc_Position cursor) fuel [Opened metadata]) in H1 as (Hle & Hfull & ks & Hk & Hset);
    [|apply so_far_start|by apply settled_start|cbn; lia].
  exists (Some metadata), ks.
  eapply so_far_page; [done|done|done| |exact Hscope| |exact Hk|exact Hset|done|done| |exact H2].
  - intros md [= <-]. left.
  - by split.
  - intros. apply index_accepts.
Qed.
End Routes.

(** C29: whatever the index, the stream of candidates and the source answer, a page
    that is returned has at most the limit of documents of the normalised query; each
    document presents a source record shown during the call - of the database and
    collection, visible, with every filter satisfied and the system fields
    of the record - and the positions of the documents in the effective order of the
    page strictly increase and lie strictly after the cursor the query resumed. A page
    with a cursor is full, and its cursor is the position of its last document. The
    same query continued with that cursor is accepted: it normalises alike, the cursor
    decodes and has the query's scope, and the guards of the query's route let it
    pass - on the source routes those on the route, order, template and position, on
    the index route that the cursor is not stale for the metadata of the stream this
    page was read from and, when that metadata has a fingerprint, a generation, a
    branch hash and an order, those on the cursor's shape. *)
Theorem page_sound fuel database q s s' os page :
  runs any_step (ExecuteQueryPage cfg token_size json_size fuel database q) s s' os (Ok page) ->
  exists q' served ks, normalizeQuery cfg q = Ok q' /\ 1 <= q_Limit q' <= 1000 /\
    sound_page database q q' (start_position q) os page served ks.
Proof.
  intros Hx. unfold ExecuteQueryPage in Hx. apply runs_bind_inv in Hx as (r & s1 & o1 & o2 & Hx & H2 & ->).
  destruct H2 as (_ & -> & H2). destruct r as [page'|e]; [|done]. injection H2 as <-. rewrite app_nil_r.
  apply runs_try_inv in Hx as [(e & _ & [=])|(u & s2 & o3 & o4 & H1 & H2 & ->)]. apply poll_inv in H1 as ->. rewrite app_nil_l.
  destruct (start_page cfg database q) as [[q' cursor]|e] eqn:Hq; [|by destruct H2 as (_ & _ & [=])].
  apply start_page_ok in Hq as (Hdb & Hn & Hscope & Hver & Hpos & Hstart).
  destruct (normalizeQuery_ok _ _ _ Hn) as (Hd & Hlim & Hsa). exists q'. rewrite <- Hpos.
  pose proof (queryScope_nonempty _ _ _ Hscope) as Hne. destruct (from_source q') eqn:Hfs.
  - eapply sourcePage_sound in H2 as (served & ks & Hs); try done; [by exists served, ks|lia].
  - eapply index_page_sound in H2 as (served & ks & Hs); try done; [by exists served, ks|lia].
Qed.
End Pages.

(** ** A page of a sample collection *)
Definition room (id : string) : StoredDoc :=
  {| doc_Id := id; doc_Database := "db"; doc_Fullpath := String.append "rooms/" id; doc_Collection := "rooms";
     doc_CollectionHash := ""; doc_Parent := ""; doc_UpdatedAt := 5; doc_CreatedAt := 5; doc_Version := 1;
     doc_Data := {[ "name" := VString id ]}; doc_Deleted := false |}.
Definition room_query : Query :=
  {| q_Collection := "rooms"; q_Filters := []; q_OrderBy := []; q_Limit := 2; q_StartAfter := None; q_ShowDeleted := false |}.
(** Every scan shows the same two rooms; no other call finds anything. *)
Definition room_answers X (e : pageE X) : X :=
  match e with
  | Canceled => false
  | GetMany _ _ => Ok []
  | ScanDocuments _ _ => Ok {| ssp_Documents := [room "a"; room "b"]; ssp_NextAfter := "b"; ssp_Exhausted := false; ssp_Bytes := 0 |}
  | OpenStream _ _ => Err ErrIndexNotReady
  | NextGroup => (Ok None, 0)
  | CloseStream => None
  end.
Definition room_page : res page_error QueryPage :=
  answered room_answers (ExecuteQueryPage (SS := insertion_slice_sort) Paths.DefaultValidationConfig (fun _ => 100) (fun _ => 100) 1 "db" room_query).

Lemma page_sound_witness :
  exists page os q' served ks, room_page = Ok page /\ length (pg_Documents page) = 2%nat /\
    is_Some (pg_NextCursor page) /\
    sound_page (SS := insertion_slice_sort) Paths.DefaultValidationConfig "db" room_query q' [] os page served ks.
Proof.
  assert (Hv : match room_page with Ok page => length (pg_Documents page) = 2%nat /\ is_Some (pg_NextCursor page) | Err _ => False end)
    by (vm_compute; split; [reflexivity|eexists; reflexivity]).
  destruct room_page as [page|e] eqn:Hp; [|destruct Hv]. exists page.
  destruct (answered_runs any_step room_answers (fun X e => shown e (room_answers X e)) tt
    (ExecuteQueryPage (SS := insertion_slice_sort) Paths.DefaultValidationConfig (fun _ => 100) (fun _ => 100) 1 "db" room_query)
    (fun _ _ => eq_refl)) as [os Hos].
  change (runs any_step (ExecuteQueryPage (SS := insertion_slice_sort) Paths.DefaultValidationConfig (fun _ => 100) (fun _ => 100) 1 "db" room_query)
            tt tt os room_page) in Hos.
  rewrite Hp in Hos. destruct (page_sound (SS := insertion_slice_sort) _ _ _ _ _ _ _ _ _ _ Hos) as (q' & served & ks & _ & _ & Hs).
  exists os, q', served, ks. split; [reflexivity|]. split; [exact (proj1 Hv)|]. split; [exact (proj2 Hv)|exact Hs].
Defined.
