(* ===== verification/QueryTermination.v ===== *)
(** * Query pages end

    The loops of a page end, whatever the source answers, and the loop over
    candidate groups ends because the stream counts what it examines. *)
From stdpp Require Import base list gmap strings.
From Stdlib Require Import ZArith.
From S2P Require Import Prelude Value OrderKey Filter IndexStore Codec Template Projection Intervals Candidates Planner Stream Open Documents Prog Mongo DocumentStore TypedValue QueryPage.
Local Open Scope Z_scope.

Section Ends.
Context `{SS : SliceSort} (cfg : Paths.ValidationConfig).
Context (token_size : queryCursor -> Z) (json_size : json -> Z).

(** A program that never reports exhausted fuel. *)
Definition ends {A} (p : pprog (res page_error A)) : Prop := leaves (fun r => r <> Err PFuel) p.

Lemma ends_try {A B} (p : pprog (res page_error A)) (k : A -> pprog (res page_error B)) :
  ends p -> (forall a, ends (k a)) -> ends (try p k).
Proof. intros Hp Hk. eapply leaves_try; [exact Hp|congruence|]. intros a _. apply Hk. Qed.

Lemma ends_call {X B} (e : pageE X) (k : X -> pprog (res page_error B)) : (forall x, ends (k x)) -> ends (call e ≫= k).
Proof. done. Qed.

Lemma ends_poll : ends poll.
Proof. intros []; cbn; congruence. Qed.

(** *** Errors other than exhausted fuel *)
Lemma bind_no_fuel {A B} (r : res page_error A) (k : A -> res page_error B) :
  r <> Err PFuel -> (forall a, r = Ok a -> k a <> Err PFuel) -> (r ≫= k) <> Err PFuel.
Proof. intros Hr Hk. destruct r as [a|e]; [by apply Hk|]. cbn. congruence. Qed.

Lemma map_err_no_fuel {E A} (f : E -> page_error) (r : res E A) : (forall e, f e <> PFuel) -> map_err f r <> Err PFuel.
Proof. intros Hf. destruct r as [a|e]; [done|]. intros [= H]. by eapply Hf. Qed.

Lemma mapM_no_fuel {A B} (f : A -> res page_error B) l : (forall x, f x <> Err PFuel) -> mapM_res f l <> Err PFuel.
Proof.
  intros Hf. induction l as [|x l IH]; [done|]. cbn. apply bind_no_fuel; [apply Hf|]. intros y _.
  apply bind_no_fuel; [exact IH|done].
Qed.

Create HintDb no_fuel.
Ltac no_fuel :=
  repeat first
    [ done
    | solve [auto with no_fuel nocore]
    | progress cbv zeta
    | apply map_err_no_fuel; done
    | apply mapM_no_fuel; intros
    | apply bind_no_fuel; [|intros ? _]
    | match goal with |- (match ?c with _ => _ end) <> _ => destruct c end ].

Lemma appendPageDocument_no_fuel doc st : appendPageDocument json_size doc st <> Err PFuel.
Proof. unfold appendPageDocument. no_fuel. Qed.
Lemma validateSource_no_fuel stored database q id : validateSource stored database q id <> Err PFuel.
Proof. unfold validateSource. no_fuel. Qed.
#[local] Hint Resolve appendPageDocument_no_fuel validateSource_no_fuel : no_fuel.
Lemma consume_id_no_fuel database q id stored st : consume_id json_size database q id stored st <> Err PFuel.
Proof. unfold consume_id. no_fuel. Qed.
Lemma consume_group_no_fuel database q metadata group stored st :
  consume_group json_size database q metadata group stored st <> Err PFuel.
Proof. unfold consume_group. no_fuel. Qed.
#[local] Hint Resolve consume_id_no_fuel : no_fuel.
Lemma finish_page_no_fuel cursor order st exhausted : finish_page token_size cursor order st exhausted <> Err PFuel.
Proof.
  unfold finish_page, encodeCursor, CheckJSONPageSize. no_fuel.
Qed.
Lemma scan_docs_no_fuel database q docs after st : scan_docs json_size database q docs after st <> Err PFuel.
Proof.
  revert after st. induction docs as [|d docs IH]; intros after st; cbn [scan_docs]; [done|].
  no_fuel.
Qed.

(** *** The loops of the source routes *)
Lemma consume_all_ends consume i docs st :
  (forall i d st, consume i d st <> Err PFuel) -> ends (consume_all consume i docs st).
Proof.
  intros Hc. revert i st. induction docs as [|d docs IH]; intros i st; cbn [consume_all]; [done|].
  apply ends_try; [apply ends_poll|]. intros _. specialize (Hc i d st). destruct (consume i d st) as [st'|e]; [apply IH|].
  cbn. congruence.
Qed.

(** A round moves on by a batch or halves the batch. *)
Lemma materialize_loop_ends database paths consume fuel bl off st :
  (forall i d st, consume i d st <> Err PFuel) -> (1 <= bl)%nat -> (length paths - off + bl < fuel)%nat ->
  ends (materialize_loop fuel database paths consume bl off st).
Proof.
  intros Hc. revert bl off st. induction fuel as [|fuel IH]; intros bl off st Hbl Hf; [lia|]. cbn [materialize_loop].
  destruct (Nat.leb_spec (length paths) off); [done|]. apply ends_try; [apply ends_poll|]. intros _.
  set (fin := ((off + bl) `min` length paths)%nat). apply ends_call. intros [docs|e].
  - destruct (negb _); [done|]. apply ends_try; [by apply consume_all_ends|]. intros st'. apply IH; lia.
  - destruct e; try done. destruct (Nat.ltb_spec 1 (fin - off)); [|done].
    pose proof (Nat.div_lt (fin - off) 2). pose proof (Nat.div_str_pos (fin - off) 2). apply IH; lia.
Qed.

Lemma materialize_ends database paths consume st :
  (forall i d st, consume i d st <> Err PFuel) -> ends (materialize database paths consume st).
Proof.
  intros Hc. unfold materialize. destruct paths as [|p paths]; [done|]. apply materialize_loop_ends; [done|cbn; lia|cbn; lia].
Qed.

Lemma ids_loop_ends database q fuel rest st :
  (length rest < fuel)%nat -> ends (ids_loop json_size fuel database q rest st).
Proof.
  revert rest st. induction fuel as [|fuel IH]; intros rest st Hf; [lia|]. cbn [ids_loop].
  destruct (_ || _) eqn:E; [done|]. apply orb_false_iff in E as [E1%Nat.eqb_neq E2%Z.leb_gt].
  apply ends_try; [apply ends_poll|]. intros _. apply ends_try.
  - apply materialize_ends. intros i d st'. destruct (_ !! i); [apply consume_id_no_fuel|done].
  - intros st'. apply IH. rewrite length_drop. unfold maxMaterializationDocuments. lia.
Qed.

Lemma scan_batch_ends fuel database collection after bl :
  1 <= bl <= Z.of_nat fuel ->
  leaves (fun r => match r with Ok (_, reduced) => 1 <= reduced <= bl | Err e => e <> PFuel end)
    (scan_batch fuel database collection after bl).
Proof.
  revert bl. induction fuel as [|fuel IH]; intros bl Hbl; [lia|]. cbn [scan_batch].
  eapply leaves_try; [apply ends_poll|intros e He ->; by apply He|]. intros _ _. intros [batch|e]; [cbn; lia|]. cbn [prog_bind].
  destruct e; try done. destruct (Z.ltb_spec 1 bl); [|done].
  assert (1 <= bl / 2 < bl) by (Z.to_euclidean_division_equations; lia).
  eapply leaves_impl; [apply IH; lia|]. intros [[b red]|e]; [lia|done].
Qed.

Lemma scan_loop_ends database q fuel after examined sbl st :
  0 <= examined -> 1 <= sbl -> maxQueryCandidates - examined < Z.of_nat fuel -> examined <= maxQueryCandidates ->
  ends (scan_loop json_size fuel database q after examined sbl st).
Proof.
  revert after examined sbl st. induction fuel as [|fuel IH]; intros after examined sbl st Hex Hsbl Hf Hmax; [lia|].
  cbn [scan_loop]. destruct (_ <=? 0) eqn:Efree; [done|]. apply Z.leb_gt in Efree.
  apply ends_try; [apply ends_poll|]. intros _.
  destruct (Z.leb_spec maxQueryCandidates examined); [done|]. set (bl := Z.min sbl _).
  assert (Hbl : 1 <= bl <= maxQueryCandidates - examined) by lia.
  eapply leaves_try; [apply scan_batch_ends; lia|intros e He [= ->]; by apply He|]. intros [batch reduced] Hred.
  destruct (Z.ltb_spec reduced (Z.of_nat (length (ssp_Documents batch)))) as [|Hlen]; [done|].
  destruct (scan_docs _ _ _ _ _ _) as [[st1 after1]|e] eqn:Hd.
  2: { cbn. intros [= ->]. by eapply scan_docs_no_fuel. }
  destruct (ssp_Exhausted batch); [done|]. destruct (Nat.eqb_spec (length (ssp_Documents batch)) 0); [done|].
  apply IH; [lia| |lia|lia]. destruct (_ =? _); lia.
Qed.

Lemma sourcePage_ends database q resuming cursor : ends (sourcePage token_size json_size database q resuming cursor).
Proof.
  unfold sourcePage. destruct (_ && _); [done|]. destruct (_ && _); [done|]. apply ends_try.
  - destruct (q_Filters q); [apply scan_loop_ends; unfold maxQueryCandidates, maxMaterializationDocuments; lia|].
    apply ids_loop_ends. lia.
  - intros [st exh]. apply finish_page_no_fuel.
Qed.

(** *** The loop of the index route *)

(** A stream that counts what it examines: after [n] groups the next one is at
    least the posting [n + 1]. Every other call answers anything. *)
Definition counted {X} (e : pageE X) (n : nat) : X -> nat -> Prop :=
  match e with
  | NextGroup => fun x n' => match x with
                             | (Ok (Some _), examined) => Z.of_nat (S n) <= examined /\ n' = S n
                             | _ => n' = n
                             end
  | _ => fun _ n' => n' = n
  end.
Definition counted_step X (e : pageE X) (n : nat) (x : X) (n' : nat) (_ : list unit) : Prop := counted e n x n'.
Local Abbreviation runs := (runs counted_step).

Lemma counted_mono {A} (p : pprog A) n n' os a : runs p n n' os a -> (n <= n')%nat.
Proof.
  revert n os. induction p as [b|X e k IH]; intros n os; cbn; [by intros (-> & _)|].
  intros (x & n1 & o & os' & He & Hx & _). apply IH in Hx. enough (n <= n1)%nat by lia.
  destruct e; cbn in He; try lia. destruct x as [[[g|]|e] z]; lia.
Qed.

Lemma collect_groups_counted m previous groups n n' os r :
  runs (collect_groups m previous groups) n n' os r ->
  match r with
  | Ok (gs, _) => (n + length gs = n' + length groups)%nat /\ (length gs = length groups \/ Z.of_nat n' <= maxQueryCandidates)
  | Err e => e <> PFuel
  end.
Proof.
  revert previous groups n os. induction m as [|m IH]; intros previous groups n os Hx; cbn [collect_groups] in Hx.
  { destruct Hx as (-> & _ & ->). auto. }
  apply runs_try_inv in Hx as [(e & Hp & ->)|(u & n1 & o1 & o2 & H1 & H2 & ->)].
  { apply (runs_leaves _ _ _ _ _ _ _ ends_poll) in Hp. congruence. }
  apply counted_mono in H1 as Hn1. destruct H1 as (c & n1' & o & o' & Hc & (Hn1' & _) & _). cbn in Hc. subst n1 n1'.
  apply runs_bind_inv in H2 as ([next examined] & n2 & o3 & o4 & H1 & H2 & ->). apply runs_call_inv in H1. cbn in H1.
  destruct next as [next|e]; [|by destruct H2 as (_ & _ & ->)].
  destruct (Z.ltb_spec maxQueryCandidates examined); [by destruct H2 as (_ & _ & ->)|].
  destruct next as [g|]; [destruct H1 as [H1 ->]|subst n2; destruct H2 as (-> & _ & ->); auto].
  destruct (_ || _) in H2; [by destruct H2 as (_ & _ & ->)|]. destruct (_ && _) in H2; [by destruct H2 as (_ & _ & ->)|].
  destruct (_ || _) in H2; [by destruct H2 as (_ & _ & ->)|].
  apply IH in H2. destruct r as [[gs exh]|e]; [|done]. rewrite length_app in H2. cbn [length] in H2.
  destruct H2 as [H2 [H3|H3]]; split; try lia. 
Qed.

Lemma index_loop_counted database q metadata fuel st n n' os :
  (1 <= fuel)%nat -> maxQueryCandidates < Z.of_nat n + Z.of_nat fuel ->
  ~ runs (index_loop json_size fuel database q metadata st) n n' os (Err PFuel).
Proof.
  revert st n os. induction fuel as [|fuel IH]; intros st n os Hf Hn Hx; [lia|]. cbn [index_loop] in Hx.
  destruct (_ <=? 0); [by destruct Hx as (_ & _ & [=])|].
  apply runs_try_inv in Hx as [(e & H1 & He)|([gs exh] & n1 & o1 & o2 & H1 & H2 & ->)];
    apply collect_groups_counted in H1; try done; [congruence|]. cbn [length] in H1.
  destruct gs as [|g gs]; [by destruct H2 as (_ & _ & [=])|].
  apply runs_try_inv in H2 as [(e & H2 & He)|(st1 & n2 & o3 & o4 & H2 & H3 & ->)].
  - eapply runs_leaves in H2; [|apply materialize_ends; intros i d st'; destruct (_ !! i); [apply consume_group_no_fuel|done]].
    congruence.
  - destruct exh; [by destruct H3 as (_ & _ & [=])|]. apply counted_mono in H2. cbn [length] in H1.
    destruct H1 as [H1 [|Hmax]]; [done|]. eapply IH; [| |exact H3]; lia.
Qed.

Lemma index_page_counted database q fuel resuming cursor n' os :
  maxQueryCandidates < Z.of_nat fuel ->
  ~ runs (index_page token_size json_size fuel database q resuming cursor) 0%nat n' os (Err PFuel).
Proof.
  intros Hfuel Hx. unfold index_page in Hx. destruct (_ && _) in Hx; [by destruct Hx as (_ & _ & [=])|].
  destruct (queryToPlan q) as [plan|e] eqn:Hq.
  2: { destruct Hx as (_ & _ & Hx). unfold queryToPlan in Hq. destruct (negb _); congruence. }
  apply runs_bind_inv in Hx as (opened & n1 & o1 & o2 & H1 & H2 & _). apply runs_call_inv in H1. cbn in H1. subst n1.
  destruct opened as [metadata|e]; [|by destruct H2 as (_ & _ & [=])].
  apply runs_bind_inv in H2 as (r & n2 & o3 & o4 & Hr & H2 & _).
  apply runs_bind_inv in H2 as (closed & n3 & o5 & o6 & _ & (_ & _ & H2) & _).
  assert (r = Err PFuel) as -> by (destruct r, closed; congruence). clear H2.
  destruct (_ && _) in Hr; [by destruct Hr as (_ & _ & [=])|].
  apply runs_try_inv in Hr as [(e & H1 & He)|([st exh] & n4 & o7 & o8 & _ & (_ & _ & H2) & _)].
  - injection He as <-. eapply index_loop_counted; [| |exact H1]; unfold maxQueryCandidates in *; lia.
  - by eapply finish_page_no_fuel.
Qed.

Lemma queryError_fuel e : queryError e = PFuel -> e = PFuel.
Proof. unfold queryError. intros H. repeat case_match; congruence. Qed.

Lemma queryScope_no_fuel database q : queryScope database q <> Err PFuel.
Proof. unfold queryScope, predicate_text. no_fuel. Qed.
Lemma normalizeQuery_no_fuel q : normalizeQuery cfg q <> Err PFuel.
Proof. unfold normalizeQuery. no_fuel. Qed.
Lemma decodeCursor_no_fuel t : decodeCursor t <> Err PFuel.
Proof. unfold decodeCursor. no_fuel. Qed.
#[local] Hint Resolve queryScope_no_fuel normalizeQuery_no_fuel decodeCursor_no_fuel : no_fuel.

Lemma start_page_no_fuel database q : start_page cfg database q <> Err PFuel.
Proof. unfold start_page. no_fuel. Qed.

(** C30: a page is produced: when the candidate stream counts at least one examined
    posting per group it returns, a hundred thousand and one rounds of the index
    route are enough, and the loops over identifiers, scanned batches, materialised
    batches and halved batches end within their own bounds whatever the source
    answers; the page operation always returns a page or one of its errors. *)
Theorem page_ends database q fuel n' os r :
  maxQueryCandidates < Z.of_nat fuel ->
  Prog.runs counted_step (ExecuteQueryPage cfg token_size json_size fuel database q) 0%nat n' os r -> r <> Err PFuel.
Proof.
  intros Hfuel Hx ->. apply runs_bind_inv in Hx as (r & n1 & o1 & o2 & Hx & (_ & _ & Hr) & _).
  assert (r = Err PFuel) as ->.
  { destruct r as [|e]; [done|]. injection Hr as Hr. by rewrite (queryError_fuel e). }
  clear Hr. apply runs_try_inv in Hx as [(e & H1 & He)|(u & n2 & o3 & o4 & H1 & H2 & _)].
  { apply (runs_leaves _ _ _ _ _ _ _ ends_poll) in H1. congruence. }
  destruct H1 as (c & n2' & o & o' & Hc & (Hn & _) & _). cbn in Hc. subst n2 n2'.
  destruct (start_page cfg database q) as [[q' cursor]|e] eqn:Hq.
  2: { destruct H2 as (_ & _ & [= <-]). by apply start_page_no_fuel in Hq. }
  destruct (from_source q') in H2.
  - eapply runs_leaves in H2; [|apply sourcePage_ends]. by apply H2.
  - by eapply index_page_counted.
Qed.
End Ends.

(** A query that needs an index, with a stream that has no group. *)
Definition named_query : Query :=
  {| q_Collection := "rooms"; q_Filters := [Filter "name" OpEq (VString "a")]; q_OrderBy := []; q_Limit := 2;
     q_StartAfter := None; q_ShowDeleted := false |}.
Definition empty_stream X (e : pageE X) : X :=
  match e with
  | Canceled => false
  | GetMany _ _ => Ok []
  | ScanDocuments _ _ => Ok {| ssp_Documents := []; ssp_NextAfter := ""; ssp_Exhausted := true; ssp_Bytes := 0 |}
  | OpenStream _ _ => Ok {| md_Template := {| tmpl_Name := "t"; tmpl_CollectionPattern := "rooms"; tmpl_Fields := []; tmpl_IncludeDeleted := false |};
                            md_TemplateFingerprint := "f"; md_Generation := "g"; md_BranchHash := "b";
                            md_EffectiveOrder := []; md_Branches := []; md_Assignments := [] |}
  | NextGroup => (Ok None, 0)
  | CloseStream => None
  end.
Definition named_page : pprog (res page_error QueryPage) :=
  ExecuteQueryPage (SS := insertion_slice_sort) Paths.DefaultValidationConfig (fun _ => 100) (fun _ => 100)
    (Z.to_nat 100001) "db" named_query.

Lemma page_ends_witness :
  maxQueryCandidates < Z.of_nat (Z.to_nat 100001) /\ is_ok (answered empty_stream named_page) = true /\
  answered empty_stream named_page <> Err PFuel.
Proof.
  assert (Hf : maxQueryCandidates < Z.of_nat (Z.to_nat 100001)) by (rewrite Z2Nat.id; [reflexivity|discriminate]).
  split; [exact Hf|]. split; [vm_compute; reflexivity|].
  destruct (answered_runs counted_step empty_stream (fun _ _ => []) 0%nat named_page) as [os Hos].
  { intros X e. destruct e; reflexivity. }
  exact (page_ends (SS := insertion_slice_sort) Paths.DefaultValidationConfig (fun _ => 100) (fun _ => 100) "db" named_query _ _ _ _ Hf Hos).
Defined.
