(* ===== verification/PullWire.v ===== *)
(** * Pull messages: internal/query/wire/pull.go, pull_source.go, pull_window.go

    The replication pull request and response, the checkpoints that continue a
    pull, the validation of responses in their three modes, their sizes and
    protobuf form, and the mapping of errors to statuses. Protobuf sizes are
    parameters, as is the form of UUIDs; a document's data is the tree of its JSON
    text. *)
From stdpp Require Import base list gmap strings.
From Stdlib Require Import ZArith.
From S2P Require Import Prelude Value OrderKey Filter Codec Projection Documents TypedValue PushWire QueryPage.
Local Open Scope Z_scope.

(** ** Errors: internal/core/storage/types/watch.go, replication.go *)
Inductive WatchErrorCode :=
| WatchInvalidScope | WatchInvalidCheckpoint | WatchSourceMismatch | WatchScopeMismatch | WatchHistoryUnavailable
| WatchPayloadUnavailable | WatchInvalidEvent | WatchUnsupported | WatchPermissionDenied | WatchSourceUnavailable
| OtherWatchCode (s : string).
#[export] Instance WatchErrorCode_eq_dec : EqDecision WatchErrorCode.
Proof. solve_decision. Defined.

Inductive pull_error :=
| PullCanceled | PullDeadline | PullInvalidSource | PullWorkLimit | PullWindowIncomplete
| PullNoMatchingIndex | PullIndexNotReady | PullIndexRebuilding
| PullWatch (code : WatchErrorCode)
| PullJoin (a b : pull_error)          (** [errors.Join] *)
| PullQuery (e : page_error)           (** a failure of the query without a class of its own *)
| PullOther.
#[export] Instance watch_code_inhabited : Inhabited WatchErrorCode := populate WatchInvalidScope.

(** ** Checkpoints *)
Record pullCursor := {
  pc_Version : Z; pc_Database : string; pc_DatabaseIdentity : string; pc_Collection : string; pc_Phase : string;
  pc_Position : string; pc_AfterID : string; pc_SourceHash : string; pc_GenerationID : string;
}.

(** The text of a cursor: its JSON object, empty optional members left out. *)
Definition cursor_json (c : pullCursor) : bytes :=
  let optional name s := if String.eqb s "" then [] else [(name, json_string s)] in
  json_object ([("version", json_int (pc_Version c)); ("database", json_string (pc_Database c));
                ("databaseIdentity", json_string (pc_DatabaseIdentity c)); ("collection", json_string (pc_Collection c));
                ("phase", json_string (pc_Phase c)); ("position", json_string (pc_Position c))]
               ++ optional "afterId" (pc_AfterID c) ++ optional "sourceHash" (pc_SourceHash c)
               ++ optional "generationId" (pc_GenerationID c)).
(** The length of [n] bytes in unpadded base64. *)
Definition b64_raw_len (n : Z) : Z := (n * 8 + 5) / 6.

(** A checkpoint that is not empty: the canonical text of a cursor whose strings are
    valid UTF-8, a decimal number, or any other text with its validity. *)
Inductive checkpoint := Cursor (c : pullCursor) | Numeric (size : Z) | OtherText (size : Z) (utf8 : bool).
Definition checkpoint_len (t : checkpoint) : Z :=
  match t with
  | Cursor c => b64_raw_len (Z.of_nat (length (cursor_json c)))
  | Numeric n | OtherText n _ => n
  end.
Definition checkpoint_utf8 (t : checkpoint) : bool := match t with OtherText _ b => b | _ => true end.
(** [len(req.Checkpoint)]. *)
Definition opt_len (t : option checkpoint) : Z := from_option checkpoint_len 0 t.

(** ** Requests and responses: internal/core/storage/types *)
Record ReplicationSource := {
  rs_Version : Z; rs_Filters : option (list filter); rs_OrderBy : list QOrder; rs_Limit : option Z;
}.
Inductive ReplicationEventType := ReplicationUpsert | ReplicationLeave | ReplicationDelete | OtherEventType (s : string).
Definition event_type_text (t : ReplicationEventType) : string :=
  match t with
  | ReplicationUpsert => "upsert" | ReplicationLeave => "leave" | ReplicationDelete => "delete" | OtherEventType s => s
  end.
Record ReplicationEvent := { re_Type : ReplicationEventType; re_Document : option Document; re_ID : string }.

Record ReplicationPullRequest := {
  rq_DatabaseIdentity : string; rq_Collection : string; rq_Checkpoint : option checkpoint; rq_Limit : Z;
  rq_Source : option ReplicationSource; rq_RequestID : option string; rq_CheckpointPresent : bool; rq_LimitPresent : bool;
}.
Record ReplicationPullResponse := {
  rp_Documents : list Document; rp_Checkpoint : option checkpoint; rp_CaughtUp : bool; rp_ProtocolVersion : Z;
  rp_Mode : string; rp_DatabaseIdentity : string; rp_SourceHash : string; rp_Events : list ReplicationEvent;
  rp_GenerationID : string; rp_Phase : string; rp_BootstrapComplete : bool; rp_RequestID : option string;
  rp_Complete : option bool; rp_EffectiveOrder : list QOrder;
}.

Definition MaxPullCursorBytes : Z := 256 * 2 ^ 10.
Definition MaxPullLimit : Z := 1000.

Definition pullFailure {A} (code : WatchErrorCode) : res pull_error A := Err (PullWatch code).
Definition invalid_event {A} : res pull_error A := pullFailure WatchInvalidEvent.

(** [strings.ContainsRune(s, 0)]. *)
Definition has_nul (s : string) : bool := contains_any [0] s.

Definition lower_hex (b : Z) : bool := in_range 48 57 b || in_range 97 102 b.
(** Hexadecimal text of 32 bytes that decodes and encodes to itself. *)
Definition hash_text (s : string) : bool :=
  let l := bytes_of_string s in (length l =? 64)%nat && forallb lower_hex l.

(** The boolean of a document's deletion field; [None] for any other value. *)
Definition deleted_field (doc : Document) : option bool :=
  match doc !! "deleted" with
  | None => Some false
  | Some (VBool b) => Some b
  | Some _ => None
  end.

Section Wire.
(** [proto.Size] of a response with one document, with one event, and of an
    envelope; the length of a tree's JSON text; a canonical UUID other than nil. *)
Context (document_size : json -> Z) (event_size : ReplicationEventType -> string -> option json -> Z)
        (envelope_size : ReplicationPullResponse -> Z) (json_size : json -> Z) (canonical_uuid : string -> bool).

Definition validatePullDocument (doc : Document) : res pull_error unit :=
  if String.eqb (GetID doc) "" || contains_any [47; 0] (GetID doc) || String.eqb (GetCollection doc) "" then invalid_event
  else match deleted_field doc with None => invalid_event | Some _ => Ok tt end.

(** *** Envelopes *)
Definition validateSourceEnvelope (page : ReplicationPullResponse) : res pull_error unit :=
  if negb (rp_ProtocolVersion page =? 1) || negb (String.eqb (rp_Mode page) "events")
     || negb (length (rp_Documents page) =? 0)%nat || bool_decide (is_Some (rp_RequestID page))
     || bool_decide (is_Some (rp_Complete page)) || negb (length (rp_EffectiveOrder page) =? 0)%nat
  then invalid_event
  else if existsb (fun s => String.eqb s "" || negb (utf8_valid_string s) || has_nul s)
            [rp_DatabaseIdentity page; rp_SourceHash page; rp_GenerationID page]
  then invalid_event
  else
    _ ← (if String.eqb (rp_Phase page) "scan" || String.eqb (rp_Phase page) "replay"
         then if rp_BootstrapComplete page || rp_CaughtUp page then invalid_event else Ok tt
         else if String.eqb (rp_Phase page) "live"
         then if negb (rp_BootstrapComplete page) then invalid_event else Ok tt
         else invalid_event);
    if MaxPullLimit <? Z.of_nat (length (rp_Events page)) then Err PullWorkLimit else Ok tt.

Fixpoint validate_orders (seen : gset string) (orders : list QOrder) : bool :=
  match orders with
  | [] => true
  | o :: orders =>
      negb (String.eqb (qo_Field o) "") && utf8_valid_string (qo_Field o) && negb (has_nul (qo_Field o))
      && negb (bool_decide (qo_Field o ∈ seen)) && (String.eqb (qo_Direction o) "asc" || String.eqb (qo_Direction o) "desc")
      && validate_orders ({[qo_Field o]} ∪ seen) orders
  end.

Fixpoint validate_window_documents (seen : gset string) (docs : list Document) : res pull_error unit :=
  match docs with
  | [] => Ok tt
  | doc :: docs =>
      _ ← validatePullDocument doc;
      if negb (utf8_valid_string (GetID doc)) || negb (utf8_valid_string (GetCollection doc)) then invalid_event
      else if default false (deleted_field doc) || bool_decide (GetID doc ∈ seen) then invalid_event
      else validate_window_documents ({[GetID doc]} ∪ seen) docs
  end.

Definition validateWindowEnvelope (page : ReplicationPullResponse) : res pull_error unit :=
  match rp_RequestID page, rp_Complete page with
  | Some request, Some true =>
      if negb (rp_ProtocolVersion page =? 1) || negb (String.eqb (rp_Mode page) "replace")
         || bool_decide (is_Some (rp_Checkpoint page)) || rp_CaughtUp page || rp_BootstrapComplete page
         || negb (String.eqb (rp_Phase page) "") || negb (length (rp_Events page) =? 0)%nat
      then invalid_event
      else if existsb (fun s => String.eqb s "" || negb (utf8_valid_string s) || has_nul s)
                [rp_DatabaseIdentity page; rp_SourceHash page; rp_GenerationID page; request]
      then invalid_event
      else if negb (hash_text (rp_SourceHash page)) then invalid_event
      else if negb (canonical_uuid (rp_GenerationID page)) then invalid_event
      else if MaxPullLimit <? Z.of_nat (length (rp_Documents page)) then Err PullWorkLimit
      else if (length (rp_EffectiveOrder page) =? 0)%nat then invalid_event
      else if negb (validate_orders ∅ (rp_EffectiveOrder page)) then invalid_event
      else validate_window_documents ∅ (rp_Documents page)
  | _, _ => invalid_event
  end.

(** [None] is the nil response. *)
Definition validatePullEnvelope (page : option ReplicationPullResponse) : res pull_error unit :=
  match page with
  | None => invalid_event
  | Some page =>
      if String.eqb (rp_Mode page) "replace" then validateWindowEnvelope page
      else match rp_Checkpoint page with
      | None => invalid_event
      | Some t =>
          if negb (checkpoint_utf8 t) then invalid_event
          else if (MaxPullCursorBytes <? checkpoint_len t) || (MaxPullLimit <? Z.of_nat (length (rp_Documents page)))
          then Err PullWorkLimit
          else if negb (rp_ProtocolVersion page =? 0) then validateSourceEnvelope page
          else if negb (String.eqb (rp_Mode page) "") || negb (String.eqb (rp_DatabaseIdentity page) "")
                  || negb (String.eqb (rp_SourceHash page) "") || negb (String.eqb (rp_GenerationID page) "")
                  || negb (String.eqb (rp_Phase page) "") || rp_BootstrapComplete page
                  || negb (length (rp_Events page) =? 0)%nat || bool_decide (is_Some (rp_RequestID page))
                  || bool_decide (is_Some (rp_Complete page)) || negb (length (rp_EffectiveOrder page) =? 0)%nat
          then invalid_event
          else Ok tt
      end
  end.

(** *** Sizes *)
Definition len_object (members : list (string * bytes)) : Z := Z.of_nat (length (json_object members)).
(** The quoted checkpoint, which needs no escaping. *)
Definition quoted_len (t : option checkpoint) : Z := opt_len t + 2.

Definition jsonPullEnvelope_len (page : ReplicationPullResponse) : Z :=
  len_object [("documents", json_array []); ("checkpoint", []); ("caughtUp", json_bool (rp_CaughtUp page))]
  + quoted_len (rp_Checkpoint page).
Definition sourceEnvelope_len (page : ReplicationPullResponse) : Z :=
  len_object [("protocolVersion", json_int (rp_ProtocolVersion page)); ("mode", json_string (rp_Mode page));
              ("databaseIdentity", json_string (rp_DatabaseIdentity page)); ("sourceHash", json_string (rp_SourceHash page));
              ("events", json_array []); ("checkpoint", []); ("generationId", json_string (rp_GenerationID page));
              ("phase", json_string (rp_Phase page)); ("caughtUp", json_bool (rp_CaughtUp page));
              ("bootstrapComplete", json_bool (rp_BootstrapComplete page))]
  + quoted_len (rp_Checkpoint page).
Definition windowEnvelope_len (page : ReplicationPullResponse) : Z :=
  len_object [("protocolVersion", json_int (rp_ProtocolVersion page)); ("mode", json_string (rp_Mode page));
              ("databaseIdentity", json_string (rp_DatabaseIdentity page)); ("sourceHash", json_string (rp_SourceHash page));
              ("requestId", json_string (default "" (rp_RequestID page))); ("generationId", json_string (rp_GenerationID page));
              ("complete", json_bool (default false (rp_Complete page)));
              ("effectiveOrder", json_slice (map order_json (rp_EffectiveOrder page))); ("documents", json_array [])].

Definition CheckPullPageSize (page : ReplicationPullResponse) (documentBytes protobufDocumentBytes : Z) : res pull_error unit :=
  _ ← validatePullEnvelope (Some page);
  if (documentBytes <? 0) || (protobufDocumentBytes <? 0) then invalid_event
  else
    let '(envelope, count) :=
      if String.eqb (rp_Mode page) "replace" then (windowEnvelope_len page, length (rp_Documents page))
      else if negb (rp_ProtocolVersion page =? 0) then (sourceEnvelope_len page, length (rp_Events page))
      else (jsonPullEnvelope_len page, length (rp_Documents page)) in
    let jsonOverhead := envelope + Z.max 0 (Z.of_nat count - 1) in
    if (MaxPageBytes - jsonOverhead <? documentBytes) || (MaxGRPCBytes - envelope_size page <? protobufDocumentBytes)
    then Err PullWorkLimit else Ok tt.

(** *** Events *)

(** The protobuf event's document and the length of the JSON event. *)
Definition encodePullEvent (event : ReplicationEvent) : res pull_error (option json * Z) :=
  let kind := json_string (event_type_text (re_Type event)) in
  match re_Type event with
  | ReplicationUpsert =>
      if negb (String.eqb (re_ID event) "") then invalid_event
      else match re_Document event with
      | None => invalid_event
      | Some doc =>
          _ ← validatePullDocument doc;
          if default false (deleted_field doc) then invalid_event
          else match EncodeTypedValue (VMap (map_to_list doc)) with
               | Ok (Some t) => Ok (Some t, len_object [("type", kind); ("document", [])] + json_size t)
               | _ => invalid_event
               end
      end
  | ReplicationLeave | ReplicationDelete =>
      if bool_decide (is_Some (re_Document event)) || String.eqb (re_ID event) "" || negb (utf8_valid_string (re_ID event))
         || contains_any [47; 0] (re_ID event)
      then invalid_event
      else Ok (None, len_object [("type", kind); ("id", json_string (re_ID event))])
  | OtherEventType _ => invalid_event
  end.

Definition MeasurePullEvent (event : ReplicationEvent) : res pull_error (Z * Z) :=
  r ← encodePullEvent event;
  let '(document, len) := r in Ok (len, event_size (re_Type event) (re_ID event) document).

(** *** Pages *)
Record PbEvent := { pe_Type : ReplicationEventType; pe_Id : string; pe_Document : option json }.
(** A response message; the documents of a page carry nothing but their data. *)
Record PbPullResponse := {
  pl_WireVersion : Z; pl_Checkpoint : option checkpoint; pl_CaughtUp : bool; pl_Documents : list (option json);
  pl_ProtocolVersion : Z; pl_Mode : string; pl_DatabaseIdentity : string; pl_SourceHash : string;
  pl_Events : list (option PbEvent); pl_GenerationId : string; pl_Phase : string; pl_BootstrapComplete : option bool;
  pl_RequestId : option string; pl_Complete : option bool; pl_EffectiveOrder : list (option QOrder);
}.
Definition Version : Z := 2.

(** The documents of a page, with the running totals of both transports. *)
Fixpoint encode_documents (check : Document -> res pull_error unit) (docs : list Document) (jsonBytes protoBytes : Z)
    : res pull_error (list json * Z * Z) :=
  match docs with
  | [] => Ok ([], jsonBytes, protoBytes)
  | doc :: docs =>
      _ ← check doc;
      match EncodeTypedValue (VMap (map_to_list doc)) with
      | Ok (Some t) =>
          let jsonBytes := jsonBytes + json_size t in
          let protoBytes := protoBytes + document_size t in
          if (MaxPageBytes <? jsonBytes) || (MaxGRPCBytes <? protoBytes) then Err PullWorkLimit
          else
            r ← encode_documents check docs jsonBytes protoBytes;
            let '(out, j, p) := r in Ok (t :: out, j, p)
      | _ => invalid_event
      end
  end.

Fixpoint encode_events (events : list ReplicationEvent) (jsonBytes protoBytes : Z) : res pull_error (list PbEvent * Z * Z) :=
  match events with
  | [] => Ok ([], jsonBytes, protoBytes)
  | event :: events =>
      e ← encodePullEvent event;
      let '(document, len) := e in
      let jsonBytes := jsonBytes + len in
      let protoBytes := protoBytes + event_size (re_Type event) (re_ID event) document in
      if (MaxPageBytes <? jsonBytes) || (MaxGRPCBytes <? protoBytes) then Err PullWorkLimit
      else
        r ← encode_events events jsonBytes protoBytes;
        let '(out, j, p) := r in
        Ok ({| pe_Type := re_Type event; pe_Id := re_ID event; pe_Document := document |} :: out, j, p)
  end.

Definition encodePullDocuments (page : ReplicationPullResponse) : res pull_error PbPullResponse :=
  _ ← validatePullEnvelope (Some page);
  r ← encode_documents validatePullDocument (rp_Documents page) 0 0;
  let '(docs, j, p) := r in
  _ ← CheckPullPageSize page j p;
  Ok {| pl_WireVersion := Version; pl_Checkpoint := rp_Checkpoint page; pl_CaughtUp := rp_CaughtUp page;
        pl_Documents := map Some docs; pl_ProtocolVersion := 0; pl_Mode := ""; pl_DatabaseIdentity := ""; pl_SourceHash := "";
        pl_Events := []; pl_GenerationId := ""; pl_Phase := ""; pl_BootstrapComplete := None; pl_RequestId := None;
        pl_Complete := None; pl_EffectiveOrder := [] |}.

Definition encodeSourcePullPage (page : ReplicationPullResponse) : res pull_error PbPullResponse :=
  _ ← validatePullEnvelope (Some page);
  r ← encode_events (rp_Events page) 0 0;
  let '(events, j, p) := r in
  _ ← CheckPullPageSize page j p;
  Ok {| pl_WireVersion := Version; pl_Checkpoint := rp_Checkpoint page; pl_CaughtUp := rp_CaughtUp page; pl_Documents := [];
        pl_ProtocolVersion := i32 (rp_ProtocolVersion page); pl_Mode := rp_Mode page;
        pl_DatabaseIdentity := rp_DatabaseIdentity page; pl_SourceHash := rp_SourceHash page; pl_Events := map Some events;
        pl_GenerationId := rp_GenerationID page; pl_Phase := rp_Phase page;
        pl_BootstrapComplete := Some (rp_BootstrapComplete page); pl_RequestId := None; pl_Complete := None;
        pl_EffectiveOrder := [] |}.

Definition encodeWindowPullPage (page : ReplicationPullResponse) : res pull_error PbPullResponse :=
  _ ← validateWindowEnvelope page;
  r ← encode_documents (fun _ => Ok tt) (rp_Documents page) 0 0;
  let '(docs, j, p) := r in
  _ ← CheckPullPageSize page j p;
  Ok {| pl_WireVersion := Version; pl_Checkpoint := None; pl_CaughtUp := false; pl_Documents := map Some docs;
        pl_ProtocolVersion := i32 (rp_ProtocolVersion page); pl_Mode := rp_Mode page;
        pl_DatabaseIdentity := rp_DatabaseIdentity page; pl_SourceHash := rp_SourceHash page; pl_Events := [];
        pl_GenerationId := rp_GenerationID page; pl_Phase := ""; pl_BootstrapComplete := None;
        pl_RequestId := rp_RequestID page; pl_Complete := rp_Complete page;
        pl_EffectiveOrder := map Some (rp_EffectiveOrder page) |}.

Definition EncodePullPage (page : option ReplicationPullResponse) : res pull_error PbPullResponse :=
  match page with
  | None => invalid_event
  | Some page =>
      if String.eqb (rp_Mode page) "replace" then encodeWindowPullPage page
      else if negb (rp_ProtocolVersion page =? 0) then encodeSourcePullPage page
      else encodePullDocuments page
  end.

(** *** The response of another node *)
Definition ValidatePullResponseScope (req : ReplicationPullRequest) (page : option ReplicationPullResponse) : res pull_error unit :=
  match page with
  | None => invalid_event
  | Some page =>
      match rq_Source req with
      | None => if negb (rp_ProtocolVersion page =? 0) then invalid_event else Ok tt
      | Some source =>
          let mode := match rs_Limit source with Some _ => "replace" | None => "events" end in
          if negb (rp_ProtocolVersion page =? 1) || negb (String.eqb (rp_Mode page) mode)
             || negb (String.eqb (rp_DatabaseIdentity page) (rq_DatabaseIdentity req))
          then invalid_event
          else
            _ ← match rs_Limit source with
                | None => Ok tt
                | Some limit =>
                    _ ← validateWindowEnvelope page;
                    if negb (bool_decide (is_Some (rq_RequestID req) /\ rq_RequestID req = rp_RequestID page))
                       || (limit <? Z.of_nat (length (rp_Documents page)))
                    then invalid_event
                    else if negb (forallb (fun doc => String.eqb (GetCollection doc) (rq_Collection req)) (rp_Documents page))
                    then invalid_event
                    else Ok tt
                end;
            if existsb (fun e => match re_Type e with
                                 | ReplicationUpsert => negb (String.eqb (from_option GetCollection "" (re_Document e)) (rq_Collection req))
                                 | _ => false
                                 end) (rp_Events page)
            then invalid_event else Ok tt
      end
  end.
End Wire.

(** ** Statuses *)
Inductive code :=
| CodeCanceled | CodeDeadlineExceeded | CodeInvalidArgument | CodeResourceExhausted | CodeUnavailable
| CodeFailedPrecondition | CodeUnimplemented | CodePermissionDenied | CodeInternal | OtherCode (n : Z).
#[export] Instance code_eq_dec : EqDecision code.
Proof. solve_decision. Defined.
(** A status with the reason of its replication detail. *)
Record status := { st_code : code; st_reason : option string }.

Definition watch_code_text (c : WatchErrorCode) : string :=
  match c with
  | WatchInvalidScope => "INVALID_SCOPE" | WatchInvalidCheckpoint => "INVALID_CHECKPOINT"
  | WatchSourceMismatch => "SOURCE_MISMATCH" | WatchScopeMismatch => "SCOPE_MISMATCH"
  | WatchHistoryUnavailable => "HISTORY_UNAVAILABLE" | WatchPayloadUnavailable => "PAYLOAD_UNAVAILABLE"
  | WatchInvalidEvent => "INVALID_EVENT" | WatchUnsupported => "UNSUPPORTED"
  | WatchPermissionDenied => "PERMISSION_DENIED" | WatchSourceUnavailable => "SOURCE_UNAVAILABLE"
  | OtherWatchCode s => s
  end.
Definition watch_codes : list WatchErrorCode :=
  [WatchInvalidScope; WatchInvalidCheckpoint; WatchSourceMismatch; WatchScopeMismatch; WatchHistoryUnavailable;
   WatchPayloadUnavailable; WatchInvalidEvent; WatchUnsupported; WatchPermissionDenied; WatchSourceUnavailable].
(** The code of a text: [types.WatchErrorCode(s)]. *)
Definition watch_code_of (s : string) : WatchErrorCode :=
  default (OtherWatchCode s) (List.find (fun c => String.eqb (watch_code_text c) s) watch_codes).

Definition replicationStatusCode (c : WatchErrorCode) : option code :=
  match c with
  | WatchInvalidScope | WatchInvalidCheckpoint | WatchScopeMismatch => Some CodeInvalidArgument
  | WatchSourceMismatch | WatchHistoryUnavailable | WatchPayloadUnavailable => Some CodeFailedPrecondition
  | WatchUnsupported => Some CodeUnimplemented
  | WatchSourceUnavailable => Some CodeUnavailable
  | WatchPermissionDenied => Some CodePermissionDenied
  | WatchInvalidEvent => Some CodeInternal
  | OtherWatchCode _ => None
  end.

Definition replicationDomainErrors : list (pull_error * code * string) :=
  [(PullWindowIncomplete, CodeUnavailable, "REPLICATION_WINDOW_INCOMPLETE");
   (PullNoMatchingIndex, CodeFailedPrecondition, "NO_MATCHING_INDEX");
   (PullIndexNotReady, CodeUnavailable, "INDEX_NOT_READY");
   (PullIndexRebuilding, CodeUnavailable, "INDEX_REBUILDING")].

Definition same_error (a b : pull_error) : bool :=
  match a, b with
  | PullCanceled, PullCanceled | PullDeadline, PullDeadline | PullInvalidSource, PullInvalidSource
  | PullWorkLimit, PullWorkLimit | PullWindowIncomplete, PullWindowIncomplete | PullNoMatchingIndex, PullNoMatchingIndex
  | PullIndexNotReady, PullIndexNotReady | PullIndexRebuilding, PullIndexRebuilding => true
  | _, _ => false
  end.
(** [errors.Is] for the errors without data. *)
Fixpoint err_is (target e : pull_error) : bool :=
  match e with
  | PullJoin a b => err_is target a || err_is target b
  | e => same_error target e
  end.
(** [errors.As] for a watch error: the first one. *)
Fixpoint err_as_watch (e : pull_error) : option WatchErrorCode :=
  match e with
  | PullWatch c => Some c
  | PullJoin a b => match err_as_watch a with Some c => Some c | None => err_as_watch b end
  | _ => None
  end.

Definition ReplicationErrorToStatus (e : pull_error) : status :=
  if err_is PullCanceled e then {| st_code := CodeCanceled; st_reason := None |}
  else if err_is PullDeadline e then {| st_code := CodeDeadlineExceeded; st_reason := None |}
  else if err_is PullInvalidSource e then {| st_code := CodeInvalidArgument; st_reason := Some "INVALID_REPLICATION_SOURCE" |}
  else if err_is PullWorkLimit e then {| st_code := CodeResourceExhausted; st_reason := Some "PAGE_BUDGET" |}
  else match List.find (fun item => err_is item.1.1 e) replicationDomainErrors with
  | Some (_, c, reason) => {| st_code := c; st_reason := Some reason |}
  | None =>
      match err_as_watch e with
      | Some w => match replicationStatusCode w with
                  | Some c => {| st_code := c; st_reason := Some (watch_code_text w) |}
                  | None => {| st_code := CodeInternal; st_reason := None |}
                  end
      | None => {| st_code := CodeInternal; st_reason := None |}
      end
  end.

Definition ReplicationStatusToError (st : status) : pull_error :=
  match st_code st with
  | CodeCanceled => PullCanceled
  | CodeDeadlineExceeded => PullDeadline
  | c =>
      let fallback := if bool_decide (c = CodeUnavailable) then PullWatch WatchSourceUnavailable else PullWatch WatchInvalidEvent in
      match st_reason st with
      | None => fallback
      | Some reason =>
          if String.eqb reason "INVALID_REPLICATION_SOURCE" && bool_decide (c = CodeInvalidArgument) then PullInvalidSource
          else if String.eqb reason "PAGE_BUDGET" && bool_decide (c = CodeResourceExhausted) then PullWorkLimit
          else match List.find (fun item => String.eqb reason item.2 && bool_decide (c = item.1.2)) replicationDomainErrors with
          | Some (e, _, _) => e
          | None =>
              let w := watch_code_of reason in
              if bool_decide (replicationStatusCode w = Some c) then PullWatch w else fallback
          end
      end
  end.

(** The class of an error that a remote caller can act on: cancellation and
    deadlines first, then an invalid source, a work limit, the state of the index and
    the first watch error; anything else is an invalid event. *)
Definition error_class (e : pull_error) : pull_error :=
  match List.find (fun t => err_is t e)
          [PullCanceled; PullDeadline; PullInvalidSource; PullWorkLimit; PullWindowIncomplete; PullNoMatchingIndex;
           PullIndexNotReady; PullIndexRebuilding] with
  | Some t => t
  | None => match err_as_watch e with
            | Some (OtherWatchCode _) | None => PullWatch WatchInvalidEvent
            | Some w => PullWatch w
            end
  end.

(** An error crosses the transport as its class. *)
Theorem replication_error_roundtrip e : ReplicationStatusToError (ReplicationErrorToStatus e) = error_class e.
Proof.
  unfold ReplicationErrorToStatus, error_class. cbn [List.find replicationDomainErrors fst snd].
  repeat match goal with |- context [err_is ?t e] => destruct (err_is t e) eqn:?; cbn; [reflexivity|] end.
  destruct (err_as_watch e) as [[]|]; reflexivity.
Qed.
