(* ===== verification/Pull.v ===== *)
(** * Replication pull: internal/query/core/pull.go, pull_source.go, pull_window.go

    A pull returns the next page of a collection, or of the documents that match a
    query, after a checkpoint: documents of a scan first, then the changes of the
    source since the boundary of that scan; a bounded query returns its whole window.
    The calls to the store are events; WatchStartForScan and the resumption of a
    stream are the two ways a watch is opened. *)
From stdpp Require Import base list gmap strings.
From Stdlib Require Import ZArith.
From S2P Require Import Prelude Value OrderKey Filter Codec Projection Candidates Documents Prog TypedValue PushWire QueryPage PullWire.
Local Open Scope Z_scope.

Definition MaxPullRequestBytes : Z := 2 ^ 20.
Definition DefaultPullLimit : Z := 100.
Definition maxPullFrames : nat := Z.to_nat 10000.
Definition maxPullSourceBytes : Z := 16 * 2 ^ 20.

(** ** Calls *)
Inductive EventType := EventCreate | EventUpdate | EventDelete | OtherEvent (s : string).
Record SourceEvent := {
  se_Database : string; se_Collection : string; se_DocumentID : string; se_Type : EventType; se_Document : option StoredDoc;
}.
Record WatchFrame := { wf_Event : option SourceEvent; wf_Checkpoint : string; wf_CaughtUp : bool; wf_SourceBytes : Z }.

Inductive scan_error := ScanBudget | ScanFailed (e : pull_error).

Inductive pullE : Type -> Type :=
(** [ctx.Err()]. *)
| ContextErr : pullE (option pull_error)
| Scan (database : string) (r : SourceScanRequest) : pullE (res scan_error SourceScanPage)
(** A watch for a scan, and the resumption of one; both answer the initial
    checkpoint. *)
| WatchForScan (database collection : string) : pullE (res pull_error string)
| WatchResume (database collection after : string) : pullE (res pull_error string)
| NextFrame : pullE (res pull_error WatchFrame)
| CloseWatch : pullE (option pull_error)
(** [time.Now().Before(softDeadline)]. *)
| BeforeDeadline : pullE bool
| NewUUID : pullE string
| Page {X} (e : pageE X) : pullE X.
Abbreviation qprog := (prog pullE).

Definition check_ctx : qprog (res pull_error unit) := e ← call ContextErr; Ret (match e with Some e => Err e | None => Ok tt end).
Definition close_watch : qprog (option pull_error) := call CloseWatch.

(** The class of an error of the query page. *)
Definition of_page_error (e : page_error) : pull_error :=
  match e with
  | PWorkLimit => PullWorkLimit
  | PContext => PullCanceled
  | PIndexNotReady | POpen Open.ErrIndexNotReady => PullIndexNotReady
  | POpen (Open.OpenPlan Intervals.ErrNoMatchingIndex) => PullNoMatchingIndex
  | e => PullQuery e
  end.

Record pullSource := { sr_filters : list filter; sr_hash : string; sr_query : Query }.

(** What a page has accepted. *)
Record pullPage := { pp_response : ReplicationPullResponse; pp_jsonBytes : Z; pp_protoBytes : Z; pp_accepted : Z }.

Section Pull.
Context `{SS : SliceSort} (cfg : Paths.ValidationConfig).
Context (document_size : json -> Z) (event_size : ReplicationEventType -> string -> option json -> Z)
        (envelope_size : ReplicationPullResponse -> Z) (json_size : json -> Z) (token_size : queryCursor -> Z)
        (canonical_uuid : string -> bool).

(** ** Cursors *)
Definition pullDatabaseIdentity (database : string) (req : ReplicationPullRequest) : string :=
  if String.eqb (rq_DatabaseIdentity req) "" then database else rq_DatabaseIdentity req.

Definition invalid_checkpoint {A} : res pull_error A := Err (PullWatch WatchInvalidCheckpoint).

(** [sourceHash] is the hash of the query source, if there is one. *)
Definition decodePullCursor (database identity collection : string) (encoded : checkpoint) (sourceHash : option string)
    : res pull_error pullCursor :=
  if MaxPullCursorBytes <? checkpoint_len encoded then invalid_checkpoint
  else match encoded with
  | Numeric _ => Err (PullWatch WatchHistoryUnavailable)
  | OtherText _ _ => invalid_checkpoint
  | Cursor c =>
      let '(version, phases) :=
        match sourceHash with
        | None => (3, String.eqb (pc_Phase c) "scan" || String.eqb (pc_Phase c) "changes")
        | Some _ => (4, String.eqb (pc_Phase c) "scan" || String.eqb (pc_Phase c) "replay" || String.eqb (pc_Phase c) "live")
        end in
      if negb (pc_Version c =? version) || String.eqb (pc_Position c) "" || negb phases || contains_any [47; 0] (pc_AfterID c)
         || (negb (String.eqb (pc_Phase c) "scan") && negb (String.eqb (pc_AfterID c) ""))
      then invalid_checkpoint
      else
        _ ← match sourceHash with
            | None => if negb (String.eqb (pc_SourceHash c) "") || negb (String.eqb (pc_GenerationID c) "") then invalid_checkpoint else Ok tt
            | Some hash =>
                if negb (hash_text (pc_SourceHash c)) || negb (canonical_uuid (pc_GenerationID c)) then invalid_checkpoint
                else if negb (String.eqb (pc_SourceHash c) hash) then Err (PullWatch WatchScopeMismatch)
                else Ok tt
            end;
        if negb (String.eqb (pc_Database c) database) || negb (String.eqb (pc_DatabaseIdentity c) identity)
           || negb (String.eqb (pc_Collection c) collection)
        then Err (PullWatch WatchScopeMismatch)
        else Ok c
  end.

Definition encodePullCursor (c : pullCursor) : res pull_error checkpoint :=
  if String.eqb (pc_Position c) "" || negb (utf8_valid_string (pc_Position c)) then Err (PullWatch WatchInvalidEvent)
  else if MaxPullCursorBytes <? checkpoint_len (Cursor c) then Err PullWorkLimit
  else Ok (Cursor c).

(** ** Query sources *)
Definition json_null : bytes := bytes_of_string "null".
Definition opt_int (n : option Z) : bytes := from_option json_int json_null n.

Definition window_fields_valid (req : ReplicationPullRequest) (limit : Z) : bool :=
  match rq_RequestID req with
  | None => false
  | Some id =>
      (1 <=? limit) && (limit <=? 1000) && negb (String.eqb id "") && utf8_valid_string id && negb (has_nul id)
      && (slen id <=? MaxPullRequestBytes) && (rq_Limit req =? 0) && negb (bool_decide (is_Some (rq_Checkpoint req)))
      && negb (rq_LimitPresent req) && negb (rq_CheckpointPresent req)
  end.

(** The size of the encoded filters. *)
Fixpoint filter_bytes (fs : list filter) : res pull_error Z :=
  match fs with
  | [] => Ok 0
  | f :: fs =>
      t ← map_err (fun _ => PullInvalidSource) (EncodeTypedValue (filter_value f));
      rest ← filter_bytes fs;
      Ok (from_option json_size 0 t + slen (filter_field f) + slen (op_text (filter_op f)) + rest)
  end.

Definition with_order (q : Query) (orders : list QOrder) (limit : Z) : Query :=
  {| q_Collection := q_Collection q; q_Filters := q_Filters q; q_OrderBy := orders; q_Limit := limit;
     q_StartAfter := q_StartAfter q; q_ShowDeleted := q_ShowDeleted q |}.

Definition normalizePullSource (req : ReplicationPullRequest) : res pull_error (option pullSource) :=
  match rq_Source req with
  | None => if bool_decide (is_Some (rq_RequestID req)) then Err PullInvalidSource else Ok None
  | Some source =>
      match rs_Filters source with
      | None => Err PullInvalidSource
      | Some filters =>
          if negb (rs_Version source =? 1) then Err PullInvalidSource
          else if String.eqb (rq_DatabaseIdentity req) "" then Err PullInvalidSource
          else if match rs_Limit source with
                  | Some limit => negb (window_fields_valid req limit)
                  | None => bool_decide (is_Some (rq_RequestID req))
                  end then Err PullInvalidSource
          else
            q ← map_err (fun _ => PullInvalidSource)
                  (normalizeQuery cfg {| q_Collection := rq_Collection req; q_Filters := filters; q_OrderBy := rs_OrderBy source;
                                         q_Limit := 0; q_StartAfter := None; q_ShowDeleted := false |});
            let orders := if existsb (fun o => String.eqb (qo_Field o) "id") (q_OrderBy q) then q_OrderBy q
                          else q_OrderBy q ++ [QBy "id" "asc"] in
            let q := with_order q orders (q_Limit q) in
            hash ← map_err (fun _ => PullInvalidSource) (queryScope (rq_DatabaseIdentity req) q);
            let encoded := json_array [json_int (rs_Version source); json_string (rq_DatabaseIdentity req);
                                       json_string (rq_Collection req); json_string hash;
                                       json_slice (map order_json orders); opt_int (rs_Limit source)] in
            bytes ← filter_bytes (q_Filters q);
            if MaxPullRequestBytes <? Z.of_nat (length encoded) + bytes + opt_len (rq_Checkpoint req) + slen (rq_Collection req)
                                      + slen (rq_DatabaseIdentity req) + from_option slen 0 (rq_RequestID req)
            then Err PullInvalidSource
            else Ok (Some {| sr_filters := q_Filters q; sr_hash := string_of_bytes (hex_encode (Sha256.Sum256 encoded));
                             sr_query := with_order q orders (default (q_Limit q) (rs_Limit source)) |})
      end
  end.

Definition ReplicationSourceHash (req : ReplicationPullRequest) : res pull_error string :=
  source ← normalizePullSource req;
  match source with None => Err PullInvalidSource | Some s => Ok (sr_hash s) end.

Definition ValidatePullRequest (database : string) (req : ReplicationPullRequest) : res pull_error unit :=
  let identity := pullDatabaseIdentity database req in
  if String.eqb database "" || has_nul database || has_nul identity || negb (utf8_valid_string database)
     || negb (utf8_valid_string identity) || negb (utf8_valid_string (rq_Collection req))
     || negb (is_ok (ValidateConcreteCollection (rq_Collection req)))
     || negb (is_ok (Paths.CheckCollectionPath cfg (rq_Collection req)))
  then Err (PullWatch WatchInvalidScope)
  else if bool_decide (is_Some (rq_Source req)) && ((rq_Limit req <? 0) || (MaxPullLimit <? rq_Limit req)) then Err PullInvalidSource
  else if (rq_Limit req <? 0) || (MaxPullLimit <? rq_Limit req)
          || (MaxPullRequestBytes <? slen database + slen (rq_DatabaseIdentity req) + slen (rq_Collection req)
                                     + opt_len (rq_Checkpoint req))
  then Err (PullWatch WatchInvalidCheckpoint)
  else
    source ← normalizePullSource req;
    match rq_Checkpoint req with
    | None => Ok tt
    | Some t => _ ← decodePullCursor database identity (rq_Collection req) t (sr_hash <$> source); Ok tt
    end.

(** ** Documents and events *)
Definition pullDocument (stored : StoredDoc) (database collection : string) : res pull_error Document :=
  match LogicalDocumentID stored with
  | Err _ => Err (PullWatch WatchInvalidEvent)
  | Ok id =>
      if negb (String.eqb (doc_Database stored) database) || negb (String.eqb (doc_Collection stored) collection)
      then Err (PullWatch WatchInvalidEvent)
      else
        let doc := if doc_Deleted stored then ∅ else doc_Data stored in
        let doc := <["collection" := VString collection]> (<["id" := VString id]> doc) in
        let doc := <["updatedAt" := VInt KInt64 (doc_UpdatedAt stored)]>
                     (<["createdAt" := VInt KInt64 (doc_CreatedAt stored)]>
                        (<["version" := VInt KInt64 (doc_Version stored)]> doc)) in
        let doc := delete "deleted" doc in
        Ok (if doc_Deleted stored then <["deleted" := VBool true]> doc else doc)
  end.

Definition pullEventDocument (event : SourceEvent) (database collection : string) : res pull_error Document :=
  if negb (String.eqb (se_Database event) database) || negb (String.eqb (se_Collection event) collection)
     || String.eqb (se_DocumentID event) "" || contains_any [47; 0] (se_DocumentID event)
     || negb (utf8_valid_string (se_DocumentID event))
  then Err (PullWatch WatchInvalidEvent)
  else match se_Type event with
  | EventDelete =>
      match se_Document event with
      | Some _ => Err (PullWatch WatchInvalidEvent)
      | None => Ok {[ "id" := VString (se_DocumentID event); "collection" := VString collection; "deleted" := VBool true ]}
      end
  | EventCreate | EventUpdate =>
      match se_Document event with
      | None => Err (PullWatch WatchPayloadUnavailable)
      | Some stored =>
          doc ← pullDocument stored database collection;
          if negb (String.eqb (GetID doc) (se_DocumentID event)) then Err (PullWatch WatchInvalidEvent) else Ok doc
      end
  | OtherEvent _ => Err (PullWatch WatchInvalidEvent)
  end.

Definition project (s : pullSource) (stored : option StoredDoc) (doc : Document) (scanning : bool)
    : res pull_error (option ReplicationEvent) :=
  let id := GetID doc in
  let id_only (t : ReplicationEventType) := if scanning then None else Some {| re_Type := t; re_Document := None; re_ID := id |} in
  match stored with
  | Some stored =>
      if doc_Deleted stored then Ok (id_only ReplicationDelete)
      else
        matched ← map_err (fun _ => PullWatch WatchInvalidEvent) (EvaluateFilters (sr_filters s) (DocumentField stored id));
        Ok (if matched : bool then Some {| re_Type := ReplicationUpsert; re_Document := Some doc; re_ID := "" |}
            else id_only ReplicationLeave)
  | None => Ok (id_only ReplicationDelete)
  end.

(** ** Pages *)
Definition with_progress (r : ReplicationPullResponse) (t : checkpoint) (caughtUp : bool) (phase : string) (bootstrap : bool)
    (docs : list Document) (events : list ReplicationEvent) : ReplicationPullResponse :=
  {| rp_Documents := docs; rp_Checkpoint := Some t; rp_CaughtUp := caughtUp; rp_ProtocolVersion := rp_ProtocolVersion r;
     rp_Mode := rp_Mode r; rp_DatabaseIdentity := rp_DatabaseIdentity r; rp_SourceHash := rp_SourceHash r;
     rp_Events := events; rp_GenerationID := rp_GenerationID r; rp_Phase := phase; rp_BootstrapComplete := bootstrap;
     rp_RequestID := rp_RequestID r; rp_Complete := rp_Complete r; rp_EffectiveOrder := rp_EffectiveOrder r |}.

(** [same] tells that the checkpoint is the one the page already has. *)
Definition same_checkpoint (a : checkpoint) (b : option checkpoint) : bool :=
  match a, b with Cursor c, Some (Cursor c') => bool_decide (cursor_json c = cursor_json c') | _, _ => false end.

(** The page with the cursor and its document or event, or [None] when it is full. *)
Definition admit_page (source : option pullSource) (p : pullPage) (cursor : pullCursor) (doc : option Document) (caughtUp : bool)
    (event : option ReplicationEvent) : res pull_error (option pullPage) :=
  t ← encodePullCursor cursor;
  let r := pp_response p in
  let '(phase, bootstrap) := match source with
                             | Some _ => (pc_Phase cursor, String.eqb (pc_Phase cursor) "live")
                             | None => (rp_Phase r, rp_BootstrapComplete r)
                             end in
  added ← match event with
          | Some e => MeasurePullEvent event_size json_size e
          | None => Ok (0, 0)
          end;
  added ← match doc with
          | None => Ok added
          | Some doc =>
              match EncodeTypedValue (VMap (map_to_list doc)) with
              | Ok (Some tree) => Ok (json_size tree, document_size tree)
              | _ => Err (PullWatch WatchInvalidEvent)
              end
          end;
  let candidate := with_progress r t caughtUp phase bootstrap (rp_Documents r ++ option_list doc) (rp_Events r ++ option_list event) in
  let '(addedJSON, addedProto) := added : Z * Z in
  match CheckPullPageSize envelope_size canonical_uuid candidate (pp_jsonBytes p + addedJSON) (pp_protoBytes p + addedProto) with
  | Err e => if (0 <? pp_accepted p) && err_is PullWorkLimit e then Ok None else Err e
  | Ok _ =>
      let moved := negb (same_checkpoint t (rp_Checkpoint r)) || bool_decide (is_Some doc) || bool_decide (is_Some event) || caughtUp in
      Ok (Some {| pp_response := candidate; pp_jsonBytes := pp_jsonBytes p + addedJSON; pp_protoBytes := pp_protoBytes p + addedProto;
                  pp_accepted := pp_accepted p + (if moved then 1 else 0) |})
  end.

Definition set_after (c : pullCursor) (phase after : string) : pullCursor :=
  {| pc_Version := pc_Version c; pc_Database := pc_Database c; pc_DatabaseIdentity := pc_DatabaseIdentity c;
     pc_Collection := pc_Collection c; pc_Phase := phase; pc_Position := pc_Position c; pc_AfterID := after;
     pc_SourceHash := pc_SourceHash c; pc_GenerationID := pc_GenerationID c |}.
Definition set_cursor (c : pullCursor) (phase position : string) : pullCursor :=
  {| pc_Version := pc_Version c; pc_Database := pc_Database c; pc_DatabaseIdentity := pc_DatabaseIdentity c;
     pc_Collection := pc_Collection c; pc_Phase := phase; pc_Position := position; pc_AfterID := pc_AfterID c;
     pc_SourceHash := pc_SourceHash c; pc_GenerationID := pc_GenerationID c |}.

(** *** The scan *)

(** The attempts of a scan from number [10 - fuel] on, each with half the limit. *)
Fixpoint scan_attempts (fuel : nat) (c : pullCursor) (limit : Z) : qprog (res pull_error (SourceScanPage * Z)) :=
  _ <-! check_ctx;
  r ← call (Scan (pc_Database c) {| ssr_Collection := pc_Collection c; ssr_AfterID := pc_AfterID c; ssr_Limit := limit;
              ssr_MaxBytes := maxPullSourceBytes; ssr_Consistency := ReadAuthoritative; ssr_AtLeast := pc_Position c |});
  match r, fuel with
  | Ok batch, _ => Ret (Ok (batch, limit))
  | Err (ScanFailed e), _ => Ret (Err e)
  | Err ScanBudget, O => Ret (Err PullWorkLimit)
  | Err ScanBudget, S fuel => if limit =? 1 then Ret (Err PullWorkLimit) else scan_attempts fuel c (Z.max 1 (limit / 2))
  end.

(** The documents of a batch; [inl] is the page of a prefix when the page is full. *)
Fixpoint scan_page_docs (source : option pullSource) (docs : list StoredDoc) (cursor : pullCursor) (page : pullPage)
    : qprog (res pull_error (pullPage + pullCursor * pullPage)) :=
  match docs with
  | [] => Ret (Ok (inr (cursor, page)))
  | stored :: docs =>
      _ <-! check_ctx;
      match (doc ← pullDocument stored (pc_Database cursor) (pc_Collection cursor);
             if negb (string_ltb (pc_AfterID cursor) (GetID doc)) then Err (PullWatch WatchInvalidEvent)
             else
               let cursor := set_after cursor (pc_Phase cursor) (GetID doc) in
               accepted ← match source with
                          | None => admit_page source page cursor (Some doc) false None
                          | Some s => event ← project s (Some stored) doc true; admit_page source page cursor None false event
                          end;
               Ok (cursor, accepted)) with
      | Err e => Ret (Err e)
      | Ok (_, None) => Ret (Ok (inl page))
      | Ok (cursor, Some page) => scan_page_docs source docs cursor page
      end
  end.

Definition pullScan (source : option pullSource) (cursor : pullCursor) (limit : Z) (page : pullPage) : qprog (res pull_error pullPage) :=
  r <-! scan_attempts 9 cursor limit;
  let '(batch, limit) := r in
  let docs := ssp_Documents batch in
  if (ssp_Bytes batch <? 0) || (maxPullSourceBytes <? ssp_Bytes batch) || (limit <? Z.of_nat (length docs))
     || ((length docs =? 0)%nat && negb (ssp_Exhausted batch))
  then Ret (Err (PullWatch WatchInvalidEvent))
  else
    r <-! scan_page_docs source docs cursor page;
    Ret (match r with
         | inl page => Ok page
         | inr (cursor, page) =>
             if negb (String.eqb (ssp_NextAfter batch) (pc_AfterID cursor))
                && (negb (length docs =? 0)%nat || negb (String.eqb (ssp_NextAfter batch) ""))
             then Err (PullWatch WatchInvalidEvent)
             else if ssp_Exhausted batch
             then
               let cursor := set_after cursor (match source with Some _ => "replay" | None => "changes" end) "" in
               next ← admit_page source page cursor None false None;
               Ok (default page next)
             else Ok page
         end).

(** *** The changes *)

(** One frame after the others: the cursor and page it leads to, [None] when the
    page is full. *)
Definition frame_page (source : option pullSource) (frame : WatchFrame) (cursor : pullCursor) (page : pullPage)
    : res pull_error (option (pullCursor * pullPage)) :=
  doc ← (match wf_Event frame with
         | None => Ok None
         | Some event => Some <$> pullEventDocument event (pc_Database cursor) (pc_Collection cursor)
         end : res pull_error (option Document));
  event ← (match source, wf_Event frame, doc with
           | Some s, Some event, Some doc => project s (se_Document event) doc false
           | _, _, _ => Ok None
           end : res pull_error (option ReplicationEvent));
  let doc := match source with Some _ => None | None => doc end in
  let phase := if bool_decide (is_Some source) && wf_CaughtUp frame then "live" else pc_Phase cursor in
  let cursor := set_cursor cursor phase (wf_Checkpoint frame) in
  next ← admit_page source page cursor doc (wf_CaughtUp frame) event;
  Ok (option_map (pair cursor) next).

Definition page_count (page : pullPage) : Z :=
  Z.of_nat (length (rp_Documents (pp_response page)) + length (rp_Events (pp_response page))).

(** The end of the loop. *)
Definition changes_end (progressed : bool) (page : pullPage) : qprog (res pull_error pullPage) :=
  _ <-! check_ctx;
  Ret (if negb progressed then Err (PullWatch WatchSourceUnavailable) else Ok page).

Fixpoint changes_loop (frames : nat) (source : option pullSource) (initial : string) (limit : Z) (cursor : pullCursor)
    (sourceBytes : Z) (progressed : bool) (page : pullPage) : qprog (res pull_error pullPage) :=
  match frames with
  | O => changes_end progressed page
  | S frames =>
      if limit <=? page_count page then changes_end progressed page
      else
        before ← (if negb progressed then Ret true else call BeforeDeadline);
        if negb before then changes_end progressed page
        else
          _ <-! check_ctx;
          frame <-! call NextFrame;
          if (wf_SourceBytes frame <? 0) || String.eqb (wf_Checkpoint frame) ""
             || (wf_CaughtUp frame && bool_decide (is_Some (wf_Event frame)))
          then Ret (Err (PullWatch WatchInvalidEvent))
          else if maxPullSourceBytes - sourceBytes <? wf_SourceBytes frame
          then Ret (if negb progressed then Err (if 0 <? sourceBytes then PullWatch WatchSourceUnavailable else PullWorkLimit) else Ok page)
          else
            let sourceBytes := sourceBytes + wf_SourceBytes frame in
            match frame_page source frame cursor page with
            | Err e => Ret (Err e)
            | Ok None => Ret (Ok page)
            | Ok (Some (cursor, page)) =>
                let progressed := negb (String.eqb (pc_Position cursor) initial) in
                if wf_CaughtUp frame then Ret (Ok page)
                else if sourceBytes =? maxPullSourceBytes then changes_end progressed page
                else changes_loop frames source initial limit cursor sourceBytes progressed page
            end
  end.

(** The deferred close of the stream joins its error. *)
Definition join_close (r : res pull_error pullPage) (closed : option pull_error) : res pull_error pullPage :=
  match r, closed with
  | r, None => r
  | Ok _, Some e => Err e
  | Err a, Some b => Err (PullJoin a b)
  end.

Definition pullChanges (source : option pullSource) (cursor : pullCursor) (limit : Z) (page : pullPage) : qprog (res pull_error pullPage) :=
  initial <-! call (WatchResume (pc_Database cursor) (pc_Collection cursor) (pc_Position cursor));
  r ← (if negb (String.eqb initial (pc_Position cursor)) then Ret (Err (PullWatch WatchInvalidEvent))
       else changes_loop maxPullFrames source (pc_Position cursor) limit cursor 0 false page);
  closed ← close_watch;
  Ret (join_close r closed).

(** ** Windows *)
Definition queryWindowComplete (page : QueryPage) (limit : Z) : res pull_error unit :=
  if (limit <? 1) || (limit <? Z.of_nat (length (pg_Documents page))) then Err (PullWatch WatchInvalidEvent)
  else if (Z.of_nat (length (pg_Documents page)) <? limit) && bool_decide (is_Some (pg_NextCursor page)) then Err PullWindowIncomplete
  else Ok tt.

(** [fuel] bounds the batches of the query page. *)
Definition pullWindow (fuel : nat) (database : string) (req : ReplicationPullRequest) (source : pullSource)
    : qprog (res pull_error ReplicationPullResponse) :=
  let q := sr_query source in
  page ← lift (fun X e => @Page X e) (ExecuteQueryPage cfg token_size json_size fuel database q);
  match page with
  | Err e => Ret (Err (of_page_error e))
  | Ok page =>
      match queryWindowComplete page (q_Limit q) with
      | Err e => Ret (Err e)
      | Ok _ =>
          if negb (bool_decide (pg_EffectiveOrder page = q_OrderBy q)) then Ret (Err (PullWatch WatchInvalidEvent))
          else
            generation ← call NewUUID;
            let response :=
              {| rp_Documents := pg_Documents page; rp_Checkpoint := None; rp_CaughtUp := false; rp_ProtocolVersion := 1;
                 rp_Mode := "replace"; rp_DatabaseIdentity := rq_DatabaseIdentity req; rp_SourceHash := sr_hash source;
                 rp_Events := []; rp_GenerationID := generation; rp_Phase := ""; rp_BootstrapComplete := false;
                 rp_RequestID := rq_RequestID req; rp_Complete := Some true; rp_EffectiveOrder := pg_EffectiveOrder page |} in
            match EncodePullPage document_size event_size envelope_size json_size canonical_uuid (Some response) with
            | Err e => Ret (Err e)
            | Ok _ => _ <-! check_ctx; Ret (Ok response)
            end
      end
  end.

(** The check of a window against the request it answers. *)
Definition ValidateWindowScope (req : ReplicationPullRequest) (page : option ReplicationPullResponse) : res pull_error unit :=
  _ ← ValidatePullResponseScope canonical_uuid req page;
  match rq_Source req, page with
  | Some source, Some page =>
      match rs_Limit source with
      | None => Ok tt
      | Some _ =>
          match normalizePullSource req with
          | Ok (Some s) =>
              if negb (String.eqb (rp_SourceHash page) (sr_hash s))
                 || negb (bool_decide (rp_EffectiveOrder page = q_OrderBy (sr_query s)))
                 || (q_Limit (sr_query s) <? Z.of_nat (length (rp_Documents page)))
                 || negb (bool_decide (is_Some (rp_RequestID page) /\ rp_RequestID page = rq_RequestID req))
              then Err (PullWatch WatchInvalidEvent) else Ok tt
          | _ => Err (PullWatch WatchInvalidEvent)
          end
      end
  | _, _ => Ok tt
  end.

(** ** Pull *)

(** The cursor a pull continues, or the start of a scan. *)
Definition start_cursor (database : string) (req : ReplicationPullRequest) (source : option pullSource)
    : qprog (res pull_error pullCursor) :=
  let identity := pullDatabaseIdentity database req in
  match rq_Checkpoint req with
  | None =>
      position <-! call (WatchForScan database (rq_Collection req));
      ids ← match source with
            | None => Ret (3, "", "")
            | Some s => generation ← call NewUUID; Ret (4, sr_hash s, generation)
            end;
      let '(version, hash, generation) := ids : Z * string * string in
      closed ← close_watch;
      Ret (match closed with
           | Some e => Err e
           | None => Ok {| pc_Version := version; pc_Database := database; pc_DatabaseIdentity := identity;
                           pc_Collection := rq_Collection req; pc_Phase := "scan"; pc_Position := position; pc_AfterID := "";
                           pc_SourceHash := hash; pc_GenerationID := generation |}
           end)
  | Some t => Ret (decodePullCursor database identity (rq_Collection req) t (sr_hash <$> source))
  end.

(** The empty response at a cursor. *)
Definition start_response (source : option pullSource) (cursor : pullCursor) (t : checkpoint) : ReplicationPullResponse :=
  let mode := bool_decide (is_Some source) in
  {| rp_Documents := []; rp_Checkpoint := Some t; rp_CaughtUp := false; rp_ProtocolVersion := if mode then 1 else 0;
     rp_Mode := if mode then "events" else ""; rp_DatabaseIdentity := if mode then pc_DatabaseIdentity cursor else "";
     rp_SourceHash := if mode then pc_SourceHash cursor else ""; rp_Events := [];
     rp_GenerationID := if mode then pc_GenerationID cursor else ""; rp_Phase := if mode then pc_Phase cursor else "";
     rp_BootstrapComplete := mode && String.eqb (pc_Phase cursor) "live"; rp_RequestID := None; rp_Complete := None;
     rp_EffectiveOrder := [] |}.

Definition Pull (fuel : nat) (database : string) (req : ReplicationPullRequest) : qprog (res pull_error ReplicationPullResponse) :=
  _ <-! check_ctx;
  match (_ ← ValidatePullRequest database req; normalizePullSource req) with
  | Err e => Ret (Err e)
  | Ok source =>
      let limit := if rq_Limit req =? 0 then DefaultPullLimit else rq_Limit req in
      match source, rq_Source req ≫= rs_Limit with
      | Some s, Some _ => pullWindow fuel database req s
      | _, _ =>
          cursor <-! start_cursor database req source;
          match encodePullCursor cursor with
          | Err e => Ret (Err e)
          | Ok t =>
              let page := {| pp_response := start_response source cursor t; pp_jsonBytes := 0; pp_protoBytes := 0; pp_accepted := 0 |} in
              page <-! (if String.eqb (pc_Phase cursor) "scan" then pullScan source cursor limit page
                        else pullChanges source cursor limit page);
              _ <-! check_ctx;
              Ret (Ok (pp_response page))
          end
      end
  end.
End Pull.
