(* ===== verification/PullFacts.v ===== *)
(** * A replica follows its source

    The source of a collection is a log of committed changes that other clients
    extend at any time. The contract of scans and watches is the documented one:
    pages of a scan read each document at some point after the boundary, a watch
    shows every change after its position once and in order with the document as
    it is then or later. A client that applies the pages of a pull in order and
    continues with the returned checkpoints, whatever fails in between, holds each
    document as it was at some point not before its checkpoint, and has every
    change before the watermark once it is caught up. *)
From stdpp Require Import base list gmap strings sorting.
From Stdlib Require Import ZArith.
From S2P Require Import Prelude Value OrderKey Filter Codec Projection Documents Prog TypedValue PushWire QueryPage PullWire Pull.
Local Open Scope Z_scope.

(** The branch of a program that goes on after a check. *)
Ltac passes H :=
  cbv zeta in H;
  match type of H with context [if ?b then Ret (Err _) else _] => destruct b; [by destruct H as (_ & _ & [=])|] end.

(** ** The order of identifiers *)
Lemma ltb_irrefl a : string_ltb a a = false.
Proof. exact (sw_irrefl _ (bytes_ltb_strict_weak bytes_of_string) a). Qed.
Lemma ltb_trans a b c : string_ltb a b = true -> string_ltb b c = true -> string_ltb a c = true.
Proof. exact (sw_trans _ (bytes_ltb_strict_weak bytes_of_string) a b c). Qed.
Lemma ltb_asym a b : string_ltb a b = true -> string_ltb b a = false.
Proof. intros H. destruct (string_ltb b a) eqn:E; [|done]. pose proof (ltb_trans _ _ _ H E) as Hx. by rewrite ltb_irrefl in Hx. Qed.
(** Not above [b]: at or below it. *)
Lemma ltb_le_trans a b c : string_ltb a c = true -> string_ltb b c = false -> string_ltb a b = true.
Proof.
  intros H Hn. destruct (sw_incomparable _ (bytes_ltb_strict_weak bytes_of_string) a c b H) as [?|Hb]; [done|].
  change (string_ltb b c = true) in Hb. congruence.
Qed.

(** ** Logs *)
(** The identifier of a change with the document it leaves, [None] when deleted. *)
Abbreviation change := (string * option StoredDoc)%type.

Definition state_after (id : string) (s : option StoredDoc) (c : change) : option StoredDoc :=
  if String.eqb c.1 id then c.2 else s.
(** The document after the first [n] changes. *)
Definition state_at (log : list change) (n : nat) (id : string) : option StoredDoc :=
  foldl (state_after id) None (take n log).

(** [s] was the document at a time from [from] on. *)
Definition seen (log : list change) (from : nat) (id : string) (s : option StoredDoc) : Prop :=
  exists t, (from <= t <= length log)%nat /\ state_at log t id = s.

Lemma state_at_prefix log log' n id :
  log `prefix_of` log' -> (n <= length log)%nat -> state_at log' n id = state_at log n id.
Proof. intros [l ->] Hn. unfold state_at. by rewrite take_app_le. Qed.

Lemma seen_prefix log log' from id s : log `prefix_of` log' -> seen log from id s -> seen log' from id s.
Proof.
  intros Hp (t & Ht & Hs). pose proof (prefix_length _ _ Hp). exists t. split; [lia|]. rewrite (state_at_prefix log); [done|done|lia].
Qed.

Lemma state_at_S log k c id : log !! k = Some c -> state_at log (S k) id = state_after id (state_at log k id) c.
Proof. intros Hc. unfold state_at. by rewrite (take_S_r _ _ _ Hc), foldl_app. Qed.

(** A change of another document moves a sighting along. *)
Lemma seen_other log k c id s : log !! k = Some c -> c.1 <> id -> seen log k id s -> seen log (S k) id s.
Proof.
  intros Hc Hne (t & Ht & Hs). apply lookup_lt_Some in Hc as Hlt. destruct (decide (t = k)) as [->|].
  - exists (S k). split; [lia|]. rewrite (state_at_S _ _ _ _ Hc). unfold state_after. by destruct (String.eqb_spec c.1 id).
  - exists t. split; [lia|done].
Qed.

Definition live (d : StoredDoc) : option StoredDoc := if doc_Deleted d then None else Some d.

(** ** The client *)
Abbreviation replica := (gmap string Document).
Definition apply_document (rep : replica) (doc : Document) : replica :=
  if IsDeleted doc then delete (GetID doc) rep else <[GetID doc := doc]> rep.
Definition apply_event (rep : replica) (e : ReplicationEvent) : replica :=
  match re_Type e, re_Document e with
  | ReplicationUpsert, Some doc => <[GetID doc := doc]> rep
  | ReplicationLeave, _ | ReplicationDelete, _ => delete (re_ID e) rep
  | _, _ => rep
  end.
Definition apply_response (r : ReplicationPullResponse) (rep : replica) : replica :=
  foldl apply_event (foldl apply_document rep (rp_Documents r)) (rp_Events r).

Section Source.
Context (database collection : string) (source : option pullSource).
(** What the opaque checkpoints of the source stand for: a position in the log and
    the watermark to reach, when one has been fixed. *)
Context (cp_pos : string -> nat) (cp_target : string -> option nat).

(** The document of a replica for a stored document. *)
Definition view (id : string) (s : option StoredDoc) : option Document :=
  match s with
  | None => None
  | Some d =>
      match pullDocument d database collection, source with
      | Ok doc, None => Some doc
      | Ok doc, Some src =>
          match EvaluateFilters (sr_filters src) (DocumentField d id) with Ok true => Some doc | _ => None end
      | Err _, _ => None
      end
  end.

(** ** The contract of the source *)
Record world := { w_log : list change; w_stream : option (nat * nat) }.

Definition scan_ok (log : list change) (r : SourceScanRequest) (page : SourceScanPage) : Prop :=
  let from := cp_pos (ssr_AtLeast r) in
  (forall d id, d ∈ ssp_Documents page -> LogicalDocumentID d = Ok id -> seen log from id (live d)) /\
  (forall i j d d' id id', (i < j)%nat -> ssp_Documents page !! i = Some d -> ssp_Documents page !! j = Some d' ->
     LogicalDocumentID d = Ok id -> LogicalDocumentID d' = Ok id' -> string_ltb id id' = true) /\
  (forall d, last (ssp_Documents page) = Some d -> LogicalDocumentID d = Ok (ssp_NextAfter page)) /\
  (forall id, string_ltb (ssr_AfterID r) id = true ->
     ssp_Exhausted page = true \/ string_ltb (ssp_NextAfter page) id = false ->
     (forall d, d ∈ ssp_Documents page -> LogicalDocumentID d <> Ok id) -> seen log from id None).

Definition frame_ok (log : list change) (k target : nat) (frame : WatchFrame) : Prop :=
  match wf_Event frame with
  | Some ev => exists s, log !! k = Some (se_DocumentID ev, s) /\ cp_pos (wf_Checkpoint frame) = S k /\
      (se_Type ev = EventDelete -> s = None) /\
      (forall d, se_Document ev = Some d -> LogicalDocumentID d = Ok (se_DocumentID ev) ->
         seen log (S k) (se_DocumentID ev) (live d))
  | None => cp_pos (wf_Checkpoint frame) = k
  end /\
  (wf_CaughtUp frame = true -> (target <= cp_pos (wf_Checkpoint frame))%nat) /\
  cp_target (wf_Checkpoint frame) = if wf_CaughtUp frame then None else Some target.

Definition answers {X} (e : pullE X) : world -> X -> world -> Prop :=
  match e with
  | Scan _ r => fun w x w' => w_stream w' = w_stream w /\ match x with Ok page => scan_ok (w_log w') r page | Err _ => True end
  | WatchForScan _ _ => fun w x w' =>
      match x with Ok cp => (cp_pos cp <= length (w_log w'))%nat /\ cp_target cp = None | Err _ => True end
  | WatchResume _ _ after => fun w x w' =>
      match x with
      | Ok _ => w_stream w' = Some (cp_pos after, default (length (w_log w')) (cp_target after))
      | Err _ => True
      end
  | NextFrame => fun w x w' =>
      match w_stream w, x with
      | Some (k, target), Ok frame =>
          frame_ok (w_log w') k target frame /\ w_stream w' = Some (cp_pos (wf_Checkpoint frame), target)
      | _, _ => True
      end
  | _ => fun w _ w' => w_stream w' = w_stream w
  end.

(** Other clients extend the log before every answer. *)
Definition log_ok (log : list change) : Prop :=
  Forall (fun c => forall d, c.2 = Some d -> LogicalDocumentID d = Ok c.1 /\ doc_Deleted d = false) log.
Definition step X (e : pullE X) (w : world) (x : X) (w' : world) (_ : list unit) : Prop :=
  w_log w `prefix_of` w_log w' /\ log_ok (w_log w') /\ answers e w x w'.
Local Abbreviation runs := (runs step).

Lemma runs_prefix {A} (p : qprog A) w w' os a : runs p w w' os a -> w_log w `prefix_of` w_log w'.
Proof.
  revert w os. induction p as [b|X e k IH]; intros w os; cbn; [by intros (-> & _)|].
  intros (x & w1 & o & os' & (Hp & _) & Hx & _). etrans; [exact Hp|]. by eapply IH.
Qed.
Lemma runs_log_ok {A} (p : qprog A) w w' os a : log_ok (w_log w) -> runs p w w' os a -> log_ok (w_log w').
Proof.
  revert w os. induction p as [b|X e k IH]; intros w os Hok; cbn; [by intros (-> & _)|].
  intros (x & w1 & o & os' & (_ & H1 & _) & Hx & _). by eapply IH.
Qed.
Lemma check_ctx_inv w w' os r : runs check_ctx w w' os r -> w_stream w' = w_stream w.
Proof.
  intros (x & w1 & o & os' & (_ & _ & Hs) & (-> & _) & _). exact Hs.
Qed.

(** *** What a replica holds *)
Definition fresh (log : list change) (from : nat) (rep : replica) (id : string) : Prop :=
  exists s, seen log from id s /\ rep !! id = view id s.

Lemma fresh_prefix log log' from rep id : log `prefix_of` log' -> fresh log from rep id -> fresh log' from rep id.
Proof. intros Hp (s & Hs & Hr). exists s. split; [by eapply seen_prefix|done]. Qed.

(** The replica [rep] at the cursor [c]: every document the cursor has passed is as
    it was at some point not before the position. *)
Record holds (log : list change) (mark : nat) (c : pullCursor) (rep : replica) : Prop := {
  h_pos : (cp_pos (pc_Position c) <= length log)%nat;
  h_mark : (mark <= length log)%nat;
  h_scan : pc_Phase c = "scan" -> cp_target (pc_Position c) = None /\
    (forall id, string_ltb (pc_AfterID c) id = true -> rep !! id = None);
  h_target : forall n, cp_target (pc_Position c) = Some n -> (mark <= n)%nat;
  h_fresh : forall id, pc_Phase c <> "scan" \/ string_ltb (pc_AfterID c) id = false ->
    fresh log (cp_pos (pc_Position c)) rep id;
}.

Lemma holds_prefix log log' mark c rep : log `prefix_of` log' -> holds log mark c rep -> holds log' mark c rep.
Proof.
  intros Hp []. pose proof (prefix_length _ _ Hp). split; try done; [lia|lia|]. intros id Hid. eapply fresh_prefix; eauto.
Qed.

(** *** Documents *)
Lemma pullDocument_ok d doc : pullDocument d database collection = Ok doc ->
  LogicalDocumentID d = Ok (GetID doc) /\ IsDeleted doc = doc_Deleted d.
Proof.
  unfold pullDocument. destruct (LogicalDocumentID d) as [id|]; [|done]. destruct (_ || _); [done|]. intros H%Ok_inj. subst doc.
  unfold GetID, IsDeleted, string_field, Document. destruct (doc_Deleted d).
  - split; [|by rewrite lookup_insert_eq].
    by rewrite lookup_insert_ne, lookup_delete_ne, !lookup_insert_ne, lookup_insert_eq by done.
  - split; [|by rewrite lookup_delete_eq].
    by rewrite lookup_delete_ne, !lookup_insert_ne, lookup_insert_eq by done.
Qed.

(** What one admitted document or event does to a replica. *)
Definition apply_one (doc : option Document) (event : option ReplicationEvent) (rep : replica) : replica :=
  from_option (apply_event (from_option (apply_document rep) rep doc)) (from_option (apply_document rep) rep doc) event.

(** A replica that differs at one document. *)
Definition set_to (rep rep' : replica) (id : string) (v : option Document) : Prop :=
  rep' !! id = v /\ forall i, i <> id -> rep' !! i = rep !! i.

Lemma set_to_delete (rep : replica) id : set_to rep (delete id rep) id None.
Proof. split; [apply lookup_delete_eq|]. intros. by apply lookup_delete_ne. Qed.
Lemma set_to_insert (rep : replica) id doc : set_to rep (<[id := doc]> rep) id (Some doc).
Proof. split; [apply lookup_insert_eq|]. intros. by apply lookup_insert_ne. Qed.
Lemma set_to_same (rep : replica) id v : rep !! id = v -> set_to rep rep id v.
Proof. by split. Qed.

(** The document and event a stored document gives. *)
Definition delivered (stored : option StoredDoc) (doc : Document) (scanning : bool) (event : option ReplicationEvent) : Prop :=
  match source with
  | None => event = None
  | Some s => project s stored doc scanning = Ok event
  end.
Definition kept (doc : Document) : option Document := match source with None => Some doc | Some _ => None end.

Lemma apply_stored rep d doc scanning event :
  pullDocument d database collection = Ok doc -> delivered (Some d) doc scanning event ->
  (scanning = true -> rep !! GetID doc = None) ->
  set_to rep (apply_one (kept doc) event rep) (GetID doc) (view (GetID doc) (live d)).
Proof.
  intros Hd Hdel Hnew. pose proof (pullDocument_ok _ _ Hd) as [Hid Hdeleted]. unfold delivered, kept, live, view in *.
  destruct source as [src|].
  - unfold project in Hdel. destruct (doc_Deleted d) eqn:Ed.
    + injection Hdel as <-. destruct scanning; cbn; [apply set_to_same; auto|apply set_to_delete].
    + rewrite Hd. apply bind_ok in Hdel as (m & Hm%map_err_ok & [= <-]). rewrite Hm.
      destruct m; [cbn; apply set_to_insert|]. destruct scanning; cbn; [apply set_to_same; auto|apply set_to_delete].
  - subst event. cbn. unfold apply_document. rewrite Hdeleted. destruct (doc_Deleted d); [apply set_to_delete|].
    rewrite Hd. apply set_to_insert.
Qed.

(** A change event sets its document to the state it carries. *)
Lemma apply_frame_event rep ev doc event :
  pullEventDocument ev database collection = Ok doc -> delivered (se_Document ev) doc false event ->
  exists s, set_to rep (apply_one (kept doc) event rep) (se_DocumentID ev) (view (se_DocumentID ev) s) /\
    (s = None /\ se_Type ev = EventDelete \/
     exists d, se_Document ev = Some d /\ LogicalDocumentID d = Ok (se_DocumentID ev) /\ s = live d).
Proof.
  unfold pullEventDocument. destruct (_ || _); [done|]. intros Hdoc Hdel.
  assert (Hstored : forall d, se_Document ev = Some d ->
    (doc' ← pullDocument d database collection;
     if negb (String.eqb (GetID doc') (se_DocumentID ev)) then Err (PullWatch WatchInvalidEvent) else Ok doc') = Ok doc ->
    exists s, set_to rep (apply_one (kept doc) event rep) (se_DocumentID ev) (view (se_DocumentID ev) s) /\
      (s = None /\ se_Type ev = EventDelete \/
       exists d, se_Document ev = Some d /\ LogicalDocumentID d = Ok (se_DocumentID ev) /\ s = live d)).
  { intros d Hd H. apply bind_ok in H as (doc' & Hp & H). destruct (String.eqb_spec (GetID doc') (se_DocumentID ev)) as [He|]; [|done].
    injection H as ->. exists (live d). rewrite <- He. pose proof (pullDocument_ok _ _ Hp) as [Hid _]. split; [|eauto].
    eapply apply_stored; [done|by rewrite <- Hd|done]. }
  destruct (se_Type ev) eqn:Et; [| | |done].
  - destruct (se_Document ev) as [d|] eqn:Ed; [|done]. by apply (Hstored d).
  - destruct (se_Document ev) as [d|] eqn:Ed; [|done]. by apply (Hstored d).
  - destruct (se_Document ev) as [d|] eqn:Ed; [done|]. injection Hdoc as <-. exists None. split; [|auto].
    unfold delivered, kept in *. destruct source as [src|].
    + injection Hdel as <-. cbn. apply set_to_delete.
    + subst event. cbn. unfold apply_document. cbn. apply set_to_delete.
Qed.

(** *** Steps of the cursor *)
Lemma holds_scan_doc log mark c rep rep' id s :
  pc_Phase c = "scan" -> holds log mark c rep -> string_ltb (pc_AfterID c) id = true ->
  seen log (cp_pos (pc_Position c)) id s -> set_to rep rep' id (view id s) ->
  (forall x, string_ltb (pc_AfterID c) x = true -> string_ltb id x = false -> x <> id -> seen log (cp_pos (pc_Position c)) x None) ->
  holds log mark (set_after c "scan" id) rep'.
Proof.
  intros Hp [] Hlt Hs [Hid Hother] Hgap. specialize (h_scan0 Hp) as [Ht Hnone]. split; cbn [set_after pc_Position pc_Phase pc_AfterID]; try done.
  - intros _. split; [done|]. intros x Hx. rewrite Hother; [apply Hnone; by eapply ltb_trans|].
    intros ->. by rewrite ltb_irrefl in Hx.
  - intros x [|Hx]; [done|]. destruct (decide (x = id)) as [->|Hne]; [by exists s|].
    destruct (string_ltb (pc_AfterID c) x) eqn:Ea.
    + exists None. split; [by apply Hgap|]. rewrite Hother by done. by apply Hnone.
    + destruct (h_fresh0 x) as (s' & Hs' & Hr); [by right|]. exists s'. split; [done|]. by rewrite Hother.
Qed.

Lemma holds_scan_end log mark mark' c rep phase :
  pc_Phase c = "scan" -> holds log mark c rep -> (mark' <= length log)%nat -> phase <> "scan" ->
  (forall x, string_ltb (pc_AfterID c) x = true -> seen log (cp_pos (pc_Position c)) x None) ->
  holds log mark' (set_after c phase "") rep.
Proof.
  intros Hp [] Hm Hph Hgap. specialize (h_scan0 Hp) as [Ht Hnone]. split; cbn [set_after pc_Position pc_Phase pc_AfterID]; try done.
  - by rewrite Ht.
  - intros x _. destruct (string_ltb (pc_AfterID c) x) eqn:Ea; [|apply h_fresh0; by right].
    exists None. split; [by apply Hgap|by apply Hnone].
Qed.

Lemma holds_frame log mark c rep rep' frame target phase :
  pc_Phase c <> "scan" -> phase <> "scan" -> holds log mark c rep -> (mark <= target)%nat ->
  frame_ok log (cp_pos (pc_Position c)) target frame ->
  match wf_Event frame with
  | None => rep' = rep
  | Some ev => exists s, set_to rep rep' (se_DocumentID ev) (view (se_DocumentID ev) s) /\
      (s = None /\ se_Type ev = EventDelete \/
       exists d, se_Document ev = Some d /\ LogicalDocumentID d = Ok (se_DocumentID ev) /\ s = live d)
  end ->
  holds log mark (set_cursor c phase (wf_Checkpoint frame)) rep'.
Proof.
  intros Hp Hph Hh Hmt (Hev & _ & Htg) Hrep. destruct Hh. destruct (wf_Event frame) as [ev|].
  - destruct Hev as (s0 & Hlog & Hpos & Hdel & Hlater). destruct Hrep as (s & [Hid Hother] & Hs).
    apply lookup_lt_Some in Hlog as Hlen.
    split; cbn [set_cursor pc_Position pc_Phase pc_AfterID]; rewrite ?Hpos, ?Htg; [lia|done|done|destruct (wf_CaughtUp frame); naive_solver|].
    intros x _. destruct (decide (x = se_DocumentID ev)) as [->|Hne].
    + exists s. split; [|done]. destruct Hs as [[-> Ht]|(d & Hd & Hl & ->)]; [|by apply Hlater].
      exists (S (cp_pos (pc_Position c))). split; [lia|]. rewrite (state_at_S _ _ _ _ Hlog). unfold state_after. cbn.
      rewrite String.eqb_refl. by apply Hdel.
    + destruct (h_fresh0 x) as (s' & Hs' & Hr); [by left|]. exists s'. split; [by eapply seen_other|]. by rewrite Hother.
  - subst rep'. split; cbn [set_cursor pc_Position pc_Phase pc_AfterID]; rewrite ?Hev, ?Htg; [done|done|done|destruct (wf_CaughtUp frame); naive_solver|].
    intros x _. apply h_fresh0. by left.
Qed.

(** *** Pages *)
Section Pages.
Context `{SS : SliceSort} (cfg : Paths.ValidationConfig).
Context (document_size : json -> Z) (event_size : ReplicationEventType -> string -> option json -> Z)
        (envelope_size : ReplicationPullResponse -> Z) (json_size : json -> Z) (token_size : queryCursor -> Z)
        (canonical_uuid : string -> bool).
Local Abbreviation admit_page := (admit_page document_size event_size envelope_size json_size canonical_uuid).

Definition in_scope (c : pullCursor) : Prop := pc_Database c = database /\ pc_Collection c = collection.
Definition one_mode (r : ReplicationPullResponse) : Prop :=
  match source with None => rp_Events r = [] | Some _ => rp_Documents r = [] end.

(** A page at the cursor [c] of a client that held [rep0] before it. *)
Record paged (log : list change) (mark : nat) (rep0 : replica) (c : pullCursor) (page : pullPage) : Prop := {
  pg_scope : in_scope c;
  pg_mode : one_mode (pp_response page);
  pg_cp : rp_Checkpoint (pp_response page) = Some (Cursor c);
  pg_holds : holds log mark c (apply_response (pp_response page) rep0);
}.

Lemma paged_prefix log log' mark rep0 c page : log `prefix_of` log' -> paged log mark rep0 c page -> paged log' mark rep0 c page.
Proof. intros Hp []. split; try done. by eapply holds_prefix. Qed.

Lemma encodePullCursor_ok c t : encodePullCursor c = Ok t -> t = Cursor c.
Proof. unfold encodePullCursor. destruct (_ || _); [done|]. destruct (_ <? _); [done|]. by intros [= <-]. Qed.

Lemma admit_page_ok p c doc caughtUp event p' :
  admit_page source p c doc caughtUp event = Ok (Some p') ->
  rp_Checkpoint (pp_response p') = Some (Cursor c) /\ rp_CaughtUp (pp_response p') = caughtUp /\
  rp_Documents (pp_response p') = rp_Documents (pp_response p) ++ option_list doc /\
  rp_Events (pp_response p') = rp_Events (pp_response p) ++ option_list event.
Proof.
  unfold Pull.admit_page. intros H. apply bind_ok in H as (t & Ht%encodePullCursor_ok & H). subst t.
  destruct (match source with Some _ => _ | None => _ end) as [phase boot]. apply bind_ok in H as (a1 & _ & H).
  apply bind_ok in H as ([aj ap] & _ & H). destruct (CheckPullPageSize _ _ _ _ _) as [u|e].
  - apply Ok_inj, (inj Some) in H. by subst p'.
  - destruct (_ && _); done.
Qed.

(** An admitted document or event of the mode. *)
Lemma apply_admitted p c doc caughtUp event p' rep0 :
  one_mode (pp_response p) -> admit_page source p c doc caughtUp event = Ok (Some p') ->
  match source with None => event = None | Some _ => doc = None end ->
  one_mode (pp_response p') /\
  apply_response (pp_response p') rep0 = apply_one doc event (apply_response (pp_response p) rep0).
Proof.
  intros Hm Ha Hde. destruct (admit_page_ok _ _ _ _ _ _ Ha) as (_ & _ & Hd & He).
  unfold one_mode, apply_response in *. rewrite Hd, He, !foldl_app. destruct source.
  - subst doc. rewrite Hm. cbn [option_list app foldl]. split; [done|]. by destruct event.
  - subst event. rewrite Hm. cbn [option_list app foldl]. split; [done|]. by destruct doc.
Qed.

(** *** The scan *)
Record scanned (D : list StoredDoc) (a0 : string) (i : nat) (a : string) : Prop := {
  sc_above : forall x, string_ltb a x = true -> string_ltb a0 x = true;
  sc_passed : forall j d id, (j < i)%nat -> D !! j = Some d -> LogicalDocumentID d = Ok id -> string_ltb a id = false;
}.

Lemma scanned_next D a0 i a d id :
  (forall i j d d' id id', (i < j)%nat -> D !! i = Some d -> D !! j = Some d' ->
     LogicalDocumentID d = Ok id -> LogicalDocumentID d' = Ok id' -> string_ltb id id' = true) ->
  scanned D a0 i a -> D !! i = Some d -> LogicalDocumentID d = Ok id -> string_ltb a id = true -> scanned D a0 (S i) id.
Proof.
  intros Hsorted [] Hd Hid Hlt. split.
  - intros x Hx. apply sc_above0. by eapply ltb_trans.
  - intros j d' id' Hj Hd' Hid'. destruct (decide (j = i)) as [->|]; [|by eapply ltb_asym, (Hsorted j i); eauto; lia].
    assert (id' = id) as -> by congruence. apply ltb_irrefl.
Qed.

Lemma scan_attempts_inv fuel c limit w w' os page limit' :
  runs (scan_attempts fuel c limit) w w' os (Ok (page, limit')) ->
  exists log r, log `prefix_of` w_log w' /\ scan_ok log r page /\ ssr_AtLeast r = pc_Position c /\ ssr_AfterID r = pc_AfterID c.
Proof.
  revert limit w os. induction fuel as [|fuel IH]; intros limit w os Hx; cbn [scan_attempts] in Hx;
    (apply runs_try_inv in Hx as [(e & _ & [=])|(u & w1 & o1 & o2 & _ & H2 & _)];
     apply runs_bind_inv in H2 as (r & w2 & o3 & o4 & H1 & H2 & _); apply runs_call_inv in H1 as (_ & _ & _ & Hok)).
  - destruct r as [batch|[|e]]; destruct H2 as (-> & _ & [=]). subst. eexists (w_log w2), _. by split.
  - destruct r as [batch|[|e]].
    + destruct H2 as (-> & _ & [=]). subst. eexists (w_log w2), _. by split.
    + destruct (_ =? 1); [by destruct H2 as (_ & _ & [=])|]. by eapply IH.
    + by destruct H2 as (_ & _ & [=]).
Qed.

Local Abbreviation scan_page_docs := (scan_page_docs document_size event_size envelope_size json_size canonical_uuid).
Local Abbreviation pullScan := (pullScan document_size event_size envelope_size json_size canonical_uuid).

Section Batch.
Context (log0 : list change) (r : SourceScanRequest) (batch : SourceScanPage) (mark : nat) (rep0 : replica).
Context (Hbatch : scan_ok log0 r batch).

(** One document of the batch. *)
Lemma scan_doc_inv log i c page d doc event page' :
  log0 `prefix_of` log -> ssr_AtLeast r = pc_Position c -> pc_Phase c = "scan" ->
  scanned (ssp_Documents batch) (ssr_AfterID r) i (pc_AfterID c) -> ssp_Documents batch !! i = Some d ->
  paged log mark rep0 c page -> pullDocument d database collection = Ok doc -> string_ltb (pc_AfterID c) (GetID doc) = true ->
  delivered (Some d) doc true event ->
  admit_page source page (set_after c "scan" (GetID doc)) (kept doc) false event = Ok (Some page') ->
  paged log mark rep0 (set_after c "scan" (GetID doc)) page' /\
  scanned (ssp_Documents batch) (ssr_AfterID r) (S i) (GetID doc).
Proof.
  intros Hpre Hat Hph Hsc Hd [Hscope Hmode Hcp Hh] Hdoc Hlt Hdel Hadm. destruct Hbatch as (Hseen & Hsorted & Hlast & Hgap).
  pose proof (pullDocument_ok _ _ Hdoc) as [Hid _]. apply list_elem_of_lookup_2 in Hd as Hin.
  split; [|by eapply scanned_next].
  destruct (apply_admitted _ _ _ _ _ _ rep0 Hmode Hadm) as [Hm' Happ].
  { unfold delivered, kept in *. by destruct source. }
  split; [done|done|by apply admit_page_ok in Hadm as (? & _)|]. rewrite Happ.
  eapply holds_scan_doc; [done|exact Hh|exact Hlt|rewrite <- Hat; eapply seen_prefix; [exact Hpre|by eapply Hseen]| |].
  - eapply apply_stored; [exact Hdoc|exact Hdel|]. intros _. by apply (h_scan _ _ _ _ Hh Hph).
  - intros x Hx Hle Hne. rewrite <- Hat. eapply seen_prefix; [exact Hpre|]. apply Hgap.
    + by apply Hsc.
    + right. destruct (string_ltb (ssp_NextAfter batch) x) eqn:E; [|done].
      pose proof (ltb_le_trans _ _ _ E Hle) as Hb. destruct (last (ssp_Documents batch)) as [dl|] eqn:El.
      * pose proof (Hlast _ eq_refl) as Hidl. rewrite last_lookup in El. apply lookup_lt_Some in Hd as Hlen.
        destruct (decide (i = pred (length (ssp_Documents batch)))) as [->|].
        -- assert (dl = d) as -> by congruence. assert (ssp_NextAfter batch = GetID doc) as Hn by congruence.
           by rewrite Hn, ltb_irrefl in Hb.
        -- pose proof (Hsorted i (pred (length (ssp_Documents batch))) d dl _ _ ltac:(lia) Hd El Hid Hidl) as Hb'. by rewrite (ltb_asym _ _ Hb') in Hb.
      * apply last_None in El. by rewrite El in Hin; apply elem_of_nil in Hin.
    + intros d' Hd' Hid'. apply list_elem_of_lookup_1 in Hd' as [j Hj]. destruct (decide (j < i)%nat).
      * pose proof (sc_passed _ _ _ _ Hsc j d' x ltac:(done) Hj Hid'). congruence.
      * destruct (decide (j = i)) as [->|]; [congruence|].
        pose proof (Hsorted i j d d' _ _ ltac:(lia) Hd Hj Hid Hid'). congruence.
Qed.

Lemma scan_page_docs_inv i docs c page w w' os res :
  docs = drop i (ssp_Documents batch) -> log0 `prefix_of` w_log w -> ssr_AtLeast r = pc_Position c -> pc_Phase c = "scan" ->
  scanned (ssp_Documents batch) (ssr_AfterID r) i (pc_AfterID c) -> paged (w_log w) mark rep0 c page ->
  rp_CaughtUp (pp_response page) = false ->
  runs (scan_page_docs source docs c page) w w' os (Ok res) ->
  let p := match res with inl p => p | inr (_, p) => p end in
  rp_CaughtUp (pp_response p) = false /\ exists c', paged (w_log w') mark rep0 c' p /\ pc_Phase c' = "scan" /\
    match res with
    | inl _ => True
    | inr (c1, _) => c1 = c' /\ ssr_AtLeast r = pc_Position c' /\
        scanned (ssp_Documents batch) (ssr_AfterID r) (length (ssp_Documents batch)) (pc_AfterID c')
    end.
Proof.
  revert i c page w os. induction docs as [|d docs IH]; intros i c page w os Hdocs Hpre Hat Hph Hsc Hpg Hcu Hx; cbn [Pull.scan_page_docs] in Hx.
  { destruct Hx as (-> & _ & [= ->]). split; [done|]. exists c. split; [done|]. split; [done|]. split; [done|]. split; [done|].
    destruct Hsc. split; [done|]. intros j d id Hj Hd. apply (sc_passed0 j d); [|done].
    assert (length (drop i (ssp_Documents batch)) = 0%nat) as Hl by by rewrite <- Hdocs. rewrite length_drop in Hl. lia. }
  apply runs_try_inv in Hx as [(e & _ & [=])|(u & w1 & o1 & o2 & H1 & H2 & _)]. apply runs_prefix in H1 as Hp1.
  destruct Hpg as [[Hdb Hcol] Hmode Hcp Hh]. assert (Hpg1 : paged (w_log w1) mark rep0 c page).
  { split; [done|done|done|by eapply holds_prefix]. }
  assert (Hd : ssp_Documents batch !! i = Some d /\ docs = drop (S i) (ssp_Documents batch)).
  { assert (ssp_Documents batch !! i = Some d) as Hd by (rewrite <- (Nat.add_0_r i), <- lookup_drop, <- Hdocs; done).
    split; [done|]. rewrite (drop_S _ _ _ Hd) in Hdocs. congruence. }
  destruct Hd as [Hd Hrest]. rewrite Hdb, Hcol in H2.
  destruct (doc ← pullDocument d database collection; _) as [[c1 acc]|e] eqn:Hdoc; [|by destruct H2 as (_ & _ & [=])].
  apply bind_ok in Hdoc as (doc & Hdoc & H). destruct (string_ltb (pc_AfterID c) (GetID doc)) eqn:Hlt; [|done]. cbn [negb] in H.
  apply bind_ok in H as (acc' & Hacc & [= <- <-]). rewrite Hph in *.
  assert (Hadm : exists event, delivered (Some d) doc true event /\
    admit_page source page (set_after c "scan" (GetID doc)) (kept doc) false event = Ok acc').
  { unfold delivered, kept. destruct source as [src|]; [|by exists None].
    apply bind_ok in Hacc as (event & Hev & Hacc). by exists event. }
  destruct Hadm as (event & Hdel & Hadm). destruct acc' as [page'|].
  2: { destruct H2 as (-> & _ & [= ->]). split; [done|]. by exists c. }
  destruct (scan_doc_inv (w_log w1) i c page d doc event page') as [Hpg' Hsc'];
    [by etrans|done|done|done|done|done|done|done|done|done|].
  apply (IH (S i) (set_after c "scan" (GetID doc)) page' w1 o2); try done; [by etrans|].
  by apply admit_page_ok in Hadm as (_ & -> & _).
Qed.
End Batch.

Lemma apply_nothing p c caughtUp p' rep0 :
  one_mode (pp_response p) -> admit_page source p c None caughtUp None = Ok (Some p') ->
  one_mode (pp_response p') /\ apply_response (pp_response p') rep0 = apply_response (pp_response p) rep0.
Proof. intros Hm Ha. by apply (apply_admitted _ _ _ _ _ _ rep0 Hm Ha); destruct source. Qed.

Lemma pullScan_inv c limit page mark rep0 w w' os page' :
  pc_Phase c = "scan" -> paged (w_log w) mark rep0 c page -> rp_CaughtUp (pp_response page) = false ->
  runs (pullScan source c limit page) w w' os (Ok page') ->
  rp_CaughtUp (pp_response page') = false /\ exists c', paged (w_log w') mark rep0 c' page' /\
    (pc_Phase c' <> "scan" -> cp_target (pc_Position c') = None).
Proof.
  intros Hph Hpg Hcu Hx. apply runs_try_inv in Hx as [(e & _ & [=])|([batch lim] & w1 & o1 & o2 & H1 & H2 & _)].
  apply runs_prefix in H1 as Hp1. apply scan_attempts_inv in H1 as (log0 & r & Hpre & Hok & Hat & Haf).
  passes H2.
  apply runs_try_inv in H2 as [(e & _ & [=])|(res & w2 & o3 & o4 & H1 & H2 & _)]. apply runs_prefix in H1 as Hp2.
  eapply (scan_page_docs_inv log0 r batch mark rep0 Hok 0) in H1 as (Hcu' & c' & Hpg' & Hph' & Hres);
    [|by rewrite drop_0|done|done|done|by split; [rewrite Haf|lia]|by eapply paged_prefix|done].
  destruct H2 as (-> & _ & H2). destruct res as [p|[c1 p]].
  { injection H2 as ->. split; [done|]. exists c'. split; [done|by intros]. }
  destruct Hres as (-> & Hat' & Hsc). destruct (_ && _) in H2; [done|].
  destruct (ssp_Exhausted batch) eqn:Eex; [|injection H2 as ->; split; [done|]; exists c'; split; [done|by intros]].
  symmetry in H2. apply bind_ok in H2 as (next & Hadm & [= <-]). destruct next as [p'|]; cbn [from_option]; unfold id.
  2: { split; [done|]. exists c'. split; [done|by intros]. }
  pose proof (admit_page_ok _ _ _ _ _ _ Hadm) as (Hcp & Hcu1 & _). split; [done|].
  destruct Hpg' as [Hscope Hmode Hcp' Hh]. destruct (apply_nothing _ _ _ _ rep0 Hmode Hadm) as [Hm' Happ].
  exists (set_after c' (match source with Some _ => "replay" | None => "changes" end) "").
  split; [split; [exact Hscope|done|exact Hcp|]|intros _; by apply (h_scan _ _ _ _ Hh Hph')].
  rewrite Happ. eapply holds_scan_end; [done|exact Hh|by apply (h_mark _ _ _ _ Hh)|by destruct source|].
  intros x Hx. rewrite <- Hat'. apply (seen_prefix log0); [by etrans|]. apply Hok; [by apply Hsc|by left|].
  intros d Hd Hid. apply list_elem_of_lookup_1 in Hd as [j Hj]. apply lookup_lt_Some in Hj as Hlen.
  pose proof (sc_passed _ _ _ _ Hsc j d x Hlen Hj Hid). congruence.
Qed.

(** *** The changes *)
Local Abbreviation frame_page := (frame_page document_size event_size envelope_size json_size canonical_uuid).
Local Abbreviation changes_loop := (changes_loop document_size event_size envelope_size json_size canonical_uuid).
Local Abbreviation pullChanges := (pullChanges document_size event_size envelope_size json_size canonical_uuid).

Lemma frame_page_inv log mark rep0 c page target frame c' page' :
  pc_Phase c <> "scan" -> paged log mark rep0 c page -> (mark <= target)%nat -> frame_ok log (cp_pos (pc_Position c)) target frame ->
  frame_page source frame c page = Ok (Some (c', page')) ->
  paged log mark rep0 c' page' /\ pc_Phase c' <> "scan" /\ pc_Position c' = wf_Checkpoint frame /\
  rp_CaughtUp (pp_response page') = wf_CaughtUp frame.
Proof.
  intros Hph [[Hdb Hcol] Hmode Hcp Hh] Hmt Hok H. unfold Pull.frame_page in H.
  apply bind_ok in H as (doc & Hdoc & H). apply bind_ok in H as (event & Hev & H).
  set (phase := if bool_decide (is_Some source) && wf_CaughtUp frame then "live" else pc_Phase c) in *.
  apply bind_ok in H as (next & Hadm & H). destruct next as [p|]; [|done]. injection H as <- <-.
  assert (Hphase : phase <> "scan") by (unfold phase; by destruct (_ && _)).
  pose proof (admit_page_ok _ _ _ _ _ _ Hadm) as (Hcp' & Hcu' & _). split; [|done].
  destruct (apply_admitted _ _ _ _ _ _ rep0 Hmode Hadm) as [Hm' Happ]; [destruct source; [done|]; by injection Hev as <-|].
  split; [done|done|done|]. rewrite Happ. eapply (holds_frame _ _ _ _ _ _ target); [done|done|exact Hh|done|exact Hok|].
  destruct (wf_Event frame) as [ev|].
  - apply fmap_ok in Hdoc as (doc' & Hdoc & ->). rewrite Hdb, Hcol in Hdoc.
    assert (Hdel : delivered (se_Document ev) doc' false event).
    { unfold delivered. destruct source; [done|]. by injection Hev as <-. }
    destruct (apply_frame_event (apply_response (pp_response page) rep0) ev doc' event Hdoc Hdel) as (s & Hset & Hs).
    exists s. split; [|done]. unfold kept in Hset. by destruct source.
  - injection Hdoc as <-. assert (event = None) as -> by (destruct source; by injection Hev). by destruct source.
Qed.

(** What a page in this phase has to keep until it is returned. *)
Record changed (log : list change) (mark : nat) (rep0 : replica) (page : pullPage) : Prop := {
  cd_paged : exists c, paged log mark rep0 c page /\ pc_Phase c <> "scan" /\
    (rp_CaughtUp (pp_response page) = true ->
       cp_target (pc_Position c) = None /\ (mark <= cp_pos (pc_Position c))%nat);
}.
Lemma changed_prefix log log' mark rep0 page : log `prefix_of` log' -> changed log mark rep0 page -> changed log' mark rep0 page.
Proof. intros Hp [(c & Hc & ?)]. split. exists c. split; [by eapply paged_prefix|done]. Qed.

Lemma changes_end_inv progressed log mark rep0 page w w' os page' :
  log `prefix_of` w_log w -> changed log mark rep0 page -> runs (changes_end progressed page) w w' os (Ok page') ->
  changed (w_log w') mark rep0 page'.
Proof.
  intros Hl Hc Hx. apply runs_prefix in Hx as Hp.
  apply runs_try_inv in Hx as [(e & _ & [=])|(u & w1 & o1 & o2 & H1 & (_ & _ & H2) & _)].
  destruct (negb progressed); [done|]. injection H2 as ->. apply (changed_prefix log); [by etrans|done].
Qed.

Lemma changes_loop_inv frames initial limit c sb progressed mark rep0 page target w w' os page' :
  pc_Phase c <> "scan" -> (mark <= target)%nat -> paged (w_log w) mark rep0 c page -> rp_CaughtUp (pp_response page) = false ->
  w_stream w = Some (cp_pos (pc_Position c), target) ->
  runs (changes_loop frames source initial limit c sb progressed page) w w' os (Ok page') ->
  changed (w_log w') mark rep0 page'.
Proof.
  revert c sb progressed page w os.
  induction frames as [|frames IH]; intros c sb progressed page w os Hph Hmt Hpg Hcu Hst Hx; cbn [Pull.changes_loop] in Hx.
  all: assert (Hch : changed (w_log w) mark rep0 page) by (split; exists c; split; [done|split; [done|by rewrite Hcu]]).
  { by eapply changes_end_inv. }
  destruct (_ <=? _) in Hx; [by eapply changes_end_inv|].
  apply runs_bind_inv in Hx as (before & w1 & o1 & o2 & H1 & H2 & _).
  assert (H1s : w_log w `prefix_of` w_log w1 /\ w_stream w1 = w_stream w).
  { split; [by eapply runs_prefix|]. destruct (negb progressed); [by destruct H1 as (-> & _)|]. by apply runs_call_inv in H1 as (_ & _ & ?). }
  destruct H1s as [Hp1 Hs1]. destruct (negb before); [by eapply changes_end_inv|].
  apply runs_try_inv in H2 as [(e & _ & [=])|(u & w2 & o3 & o4 & H3 & H2 & _)].
  apply runs_prefix in H3 as Hp2. apply check_ctx_inv in H3 as Hs2.
  apply runs_try_inv in H2 as [(e & _ & [=])|(frame & w3 & o5 & o6 & H3' & H2 & _)].
  apply runs_call_inv in H3' as (Hp3 & _ & Hans). cbn [answers] in Hans. rewrite Hs2, Hs1, Hst in Hans. destruct Hans as [Hok Hs3].
  assert (Hp : w_log w `prefix_of` w_log w3) by (by do 2 etrans).
  passes H2.
  destruct (_ <? _) in H2.
  { destruct H2 as (-> & _ & H2). destruct (negb progressed); [done|]. injection H2 as ->. by eapply changed_prefix. }
  destruct (frame_page _ _ _ _) as [[[c1 page1]|]|e] eqn:Hf; [|destruct H2 as (-> & _ & [= ->]); by eapply changed_prefix|by destruct H2 as (_ & _ & [=])].
  destruct (frame_page_inv (w_log w3) mark rep0 c page target frame c1 page1) as (Hpg1 & Hph1 & Hpos1 & Hcu1);
    [done|by eapply paged_prefix|done|done|done|].
  assert (Hch1 : changed (w_log w3) mark rep0 page1).
  { split. exists c1. split; [done|]. split; [done|]. rewrite Hcu1, Hpos1. intros Ec. destruct Hok as (_ & Ht & Htg).
    rewrite Htg, Ec. split; [done|]. specialize (Ht Ec). lia. }
  destruct (wf_CaughtUp frame) eqn:Ec; [by destruct H2 as (-> & _ & [= ->])|].
  destruct (_ =? _) in H2; [by eapply (changes_end_inv _ (w_log w3))|].
  eapply (IH c1); try done. by rewrite Hpos1.
Qed.

Lemma pullChanges_inv c limit mark rep0 page w w' os page' :
  pc_Phase c <> "scan" -> paged (w_log w) mark rep0 c page -> rp_CaughtUp (pp_response page) = false ->
  runs (pullChanges source c limit page) w w' os (Ok page') -> changed (w_log w') mark rep0 page'.
Proof.
  intros Hph Hpg Hcu Hx. apply runs_try_inv in Hx as [(e & _ & [=])|(initial & w1 & o1 & o2 & H1 & H2 & _)].
  apply runs_call_inv in H1 as (Hp1 & _ & Hst). cbn [answers] in Hst.
  apply runs_bind_inv in H2 as (r & w2 & o3 & o4 & H1 & H2 & _).
  apply runs_bind_inv in H2 as (closed & w3 & o5 & o6 & H3 & (-> & _ & H2) & _). apply runs_prefix in H3 as Hp3.
  destruct r as [p|e]; [|by destruct closed]. destruct closed; [done|]. injection H2 as ->. passes H1.
  apply (changed_prefix (w_log w2)); [done|]. destruct Hpg as [Hs Hm Hcp Hh].
  eapply (changes_loop_inv _ _ _ c _ _ mark rep0 page _ w1); [exact Hph| |split; [done|done|exact Hcp|by eapply holds_prefix]|done|exact Hst|exact H1].
  destruct (cp_target (pc_Position c)) eqn:Et; cbn [default]; [by eapply h_target|].
  pose proof (h_mark _ _ _ _ Hh). pose proof (prefix_length _ _ Hp1). cbn [from_option]. lia.
Qed.

(** *** A pull *)
Local Abbreviation Pull := (Pull cfg document_size event_size envelope_size json_size token_size canonical_uuid).

Definition scanning (cp : option checkpoint) : bool :=
  match cp with None => true | Some (Cursor c) => String.eqb (pc_Phase c) "scan" | Some _ => false end.

(** A client with the checkpoint [cp] that holds [rep]. *)
Definition client (log : list change) (mark : nat) (cp : option checkpoint) (rep : replica) : Prop :=
  (mark <= length log)%nat /\
  match cp with
  | None => rep = ∅
  | Some (Cursor c) => in_scope c /\ holds log mark c rep
  | Some _ => False
  end.

Lemma client_prefix log log' mark cp rep : log `prefix_of` log' -> client log mark cp rep -> client log' mark cp rep.
Proof.
  intros Hp [Hm Hc]. pose proof (prefix_length _ _ Hp). split; [lia|]. destruct cp as [[c| |]|]; try done.
  destruct Hc. split; [done|by eapply holds_prefix].
Qed.

(** The requests of this client. *)
Record pull_request (cp : option checkpoint) (req : ReplicationPullRequest) : Prop := {
  rqc_checkpoint : rq_Checkpoint req = cp;
  rqc_collection : rq_Collection req = collection;
  rqc_source : normalizePullSource cfg json_size req = Ok source;
  rqc_unbounded : rq_Source req ≫= rs_Limit = None;
}.

Lemma state_at_empty_id log t : log_ok log -> state_at log t "" = None.
Proof.
  intros Hok. unfold state_at. apply (Forall_take _ t) in Hok.
  assert (Hinv : forall l s, log_ok l -> s = None -> foldl (state_after "") s l = None); [|by apply Hinv].
  clear. induction l as [|c l IH]; intros s Hok Hs; cbn; [done|]. apply Forall_cons in Hok as [Hc Hok]. apply IH; [done|].
  unfold state_after. destruct (String.eqb_spec c.1 "") as [He|]; [|done]. destruct c.2 as [d|] eqn:E; [|done].
  destruct (Hc d eq_refl) as [Hid _]. rewrite He in Hid. unfold LogicalDocumentID in Hid. destruct (String.eqb _ _); [done|].
  apply bind_ok in Hid as (u & _ & Hid). destruct (strip_prefix _ _) as [id|]; [|done].
  destruct (String.eqb_spec id ""); [done|]. destruct (contains_any _ _); [done|]. cbn in Hid. congruence.
Qed.

Lemma start_cursor_inv req cp mark rep w w' os c :
  pull_request cp req -> log_ok (w_log w) -> client (w_log w) mark cp rep ->
  runs (start_cursor canonical_uuid database req source) w w' os (Ok c) ->
  in_scope c /\ holds (w_log w') mark c rep /\ (scanning cp = String.eqb (pc_Phase c) "scan").
Proof.
  intros [Hcp Hcol _ _] Hok Hcl Hx. apply runs_prefix in Hx as Hp. apply runs_log_ok in Hx as Hok'; [|done].
  unfold start_cursor in Hx. rewrite Hcp in Hx. destruct cp as [t|].
  - destruct Hx as (-> & _ & Hx). symmetry in Hx. destruct Hcl as [_ Hcl]. destruct t as [c0| |]; [|done..].
    assert (c = c0) as ->; [|destruct Hcl; by split].
    unfold decodePullCursor in Hx. destruct (_ <? _); [done|]. destruct (match _ with Some _ => _ | None => _ end) as [v ph].
    destruct (_ || _); [done|]. apply bind_ok in Hx as (u & _ & Hx). destruct (_ || _); [done|]. by injection Hx as <-.
  - destruct Hcl as [Hm ->]. apply runs_try_inv in Hx as [(e & _ & [=])|(position & w1 & o1 & o2 & H1 & H2 & _)].
    apply runs_call_inv in H1 as (Hp1 & _ & Hpos & Htg). apply runs_bind_inv in H2 as ([[v h] g] & w2 & o3 & o4 & H3 & H2 & _).
    apply runs_prefix in H3 as Hp2. apply runs_bind_inv in H2 as (closed & w3 & o5 & o6 & H4 & (-> & _ & H2) & _).
    apply runs_prefix in H4 as Hp3. destruct closed; [done|]. injection H2 as ->. split; [done|]. split; [|done].
    pose proof (prefix_length _ _ Hp). pose proof (prefix_length _ _ Hp2). pose proof (prefix_length _ _ Hp3).
    split; cbn [pc_Position pc_Phase pc_AfterID]; [lia|lia|by split|by rewrite Htg|].
    intros id [|Hid]; [done|]. assert (id = "") as ->.
    { destruct id; [done|]. by cbn in Hid. }
    exists None. split; [|done]. exists (cp_pos position). split; [lia|by apply state_at_empty_id].
Qed.

Lemma Pull_inv fuel req cp mark rep w w' os resp :
  pull_request cp req -> log_ok (w_log w) -> client (w_log w) mark cp rep -> runs (Pull fuel database req) w w' os (Ok resp) ->
  exists c, rp_Checkpoint resp = Some (Cursor c) /\ in_scope c /\ holds (w_log w') mark c (apply_response resp rep) /\
    (rp_CaughtUp resp = true -> pc_Phase c <> "scan" /\ (mark <= cp_pos (pc_Position c))%nat) /\
    (rp_CaughtUp resp || (scanning cp && negb (scanning (rp_Checkpoint resp))) = true -> cp_target (pc_Position c) = None).
Proof.
  intros Hreq Hok Hcl Hx. unfold Pull.Pull in Hx. pose proof Hreq as [_ _ Hsrc Hlim].
  apply runs_try_inv in Hx as [(e & _ & [=])|(u & w1 & o1 & o2 & H1 & H2 & _)]. apply runs_prefix in H1 as Hp1.
  apply runs_log_ok in H1 as Hok1; [|done].
  destruct (_ ← ValidatePullRequest _ _ _ _ _; _) as [src|e] eqn:Hv; [|by destruct H2 as (_ & _ & [=])].
  apply bind_ok in Hv as (u' & _ & Hv). rewrite Hsrc in Hv. injection Hv as <-. rewrite Hlim in H2.
  assert (H3 : runs (c <-! start_cursor canonical_uuid database req source;
    match encodePullCursor c with
    | Err e => Ret (Err e)
    | Ok t =>
        page <-! (if String.eqb (pc_Phase c) "scan"
                  then pullScan source c (if rq_Limit req =? 0 then DefaultPullLimit else rq_Limit req)
                         {| pp_response := start_response source c t; pp_jsonBytes := 0; pp_protoBytes := 0; pp_accepted := 0 |}
                  else pullChanges source c (if rq_Limit req =? 0 then DefaultPullLimit else rq_Limit req)
                         {| pp_response := start_response source c t; pp_jsonBytes := 0; pp_protoBytes := 0; pp_accepted := 0 |});
        _ <-! check_ctx; Ret (Ok (pp_response page))
    end) w1 w' o2 (Ok resp)) by (by destruct source). clear H2.
  apply runs_try_inv in H3 as [(e & _ & [=])|(c & w2 & o3 & o4 & H2 & H3 & _)].
  eapply start_cursor_inv in H2 as (Hscope & Hh & Hscan); [|done|done|by eapply client_prefix].
  destruct (encodePullCursor c) as [t|e] eqn:Ht; [|by destruct H3 as (_ & _ & [=])]. apply encodePullCursor_ok in Ht as ->.
  apply runs_try_inv in H3 as [(e & _ & [=])|(page & w3 & o5 & o6 & H2 & H3 & _)].
  apply runs_prefix in H3 as Hp3.
  apply runs_try_inv in H3 as [(e & _ & [=])|(u1 & w4 & o7 & o8 & _ & (_ & _ & [= ->]) & _)].
  assert (Hstart : paged (w_log w2) mark rep c
    {| pp_response := start_response source c (Cursor c); pp_jsonBytes := 0; pp_protoBytes := 0; pp_accepted := 0 |}).
  { split; [done|unfold one_mode; by destruct source|done|done]. }
  destruct (String.eqb_spec (pc_Phase c) "scan") as [Hph|Hph].
  - eapply pullScan_inv in H2 as (Hcu & c' & [Hsc' _ Hcp' Hh'] & Htg); [|done|done|done].
    exists c'. split; [done|]. split; [done|]. split; [by eapply holds_prefix|]. rewrite Hcu, Hcp'. split; [done|].
    cbn [orb scanning]. intros Hn%andb_prop. apply Htg. destruct Hn as [_ Hn]. intros Hs. by rewrite Hs in Hn.
  - eapply pullChanges_inv in H2 as [(c' & [Hsc' _ Hcp' Hh'] & Hph' & Hcu)]; [|done|done|done].
    exists c'. split; [done|]. split; [done|]. split; [by eapply holds_prefix|]. split; [intros Hc; by destruct (Hcu Hc)|].
    rewrite Hscan. cbn [andb]. rewrite orb_false_r. intros Hc. by apply Hcu.
Qed.

(** *** Sessions *)

(** Where the client knows the log has been: the end of the scan or the last time
    it was caught up. *)
Definition next_mark (mark : nat) (cp : option checkpoint) (resp : ReplicationPullResponse) (w' : world) : nat :=
  if rp_CaughtUp resp || (scanning cp && negb (scanning (rp_Checkpoint resp))) then length (w_log w') else mark.

(** A client that starts with nothing, applies every page it is given, tries again
    after failures with the checkpoint it has, and may start over. *)
Inductive session : world -> option checkpoint -> replica -> nat -> Prop :=
| session_new w : log_ok (w_log w) -> session w None ∅ 0
| session_page w cp rep mark fuel req w' os resp :
    session w cp rep mark -> pull_request cp req -> runs (Pull fuel database req) w w' os (Ok resp) ->
    session w' (rp_Checkpoint resp) (apply_response resp rep) (next_mark mark cp resp w')
| session_failed w cp rep mark fuel req w' os e :
    session w cp rep mark -> pull_request cp req -> runs (Pull fuel database req) w w' os (Err e) -> session w' cp rep mark
| session_resync w cp rep mark : session w cp rep mark -> session w None ∅ 0.

Lemma holds_mark log mark mark' c rep :
  holds log mark c rep -> cp_target (pc_Position c) = None -> (mark' <= length log)%nat -> holds log mark' c rep.
Proof. intros [] Ht Hm. split; try done. by rewrite Ht. Qed.

Lemma session_client w cp rep mark : session w cp rep mark -> log_ok (w_log w) /\ client (w_log w) mark cp rep.
Proof.
  induction 1 as [w Hok|w cp rep mark fuel req w' os resp _ [Hok IH] Hreq Hx|w cp rep mark fuel req w' os e _ [Hok IH] _ Hx|w cp rep mark _ [Hok _]].
  - split; [done|]. split; [lia|done].
  - split; [by eapply runs_log_ok|]. destruct (Pull_inv _ _ _ _ _ _ _ _ _ Hreq Hok IH Hx) as (c & Hcp & Hsc & Hh & _ & Htg).
    pose proof (h_mark _ _ _ _ Hh). rewrite Hcp. unfold next_mark, client.
    destruct (rp_CaughtUp resp || _); [|done]. split; [done|]. split; [done|]. eapply holds_mark; [done|by apply Htg|done].
  - split; [by eapply runs_log_ok|]. eapply client_prefix; [by eapply runs_prefix|done].
  - split; [done|]. split; [lia|done].
Qed.

(** C1: a client pulls a collection, or the documents that match the filters of a query,
    while other clients go on writing: it applies every page in order, repeats failed
    pulls with the checkpoint it has, and may start over. When a pull reports that it
    is caught up, the replica holds for every identifier exactly what the collection
    held at some moment that is not before the watermark - the document with its
    metadata, or nothing where it was absent, deleted or did not match - and the
    watermark is not before the end of the scan or the previous time the client was
    caught up. If nothing has been written since then, the replica is the collection. *)
Theorem pull_converges w cp rep mark fuel req w' os resp :
  session w cp rep mark -> pull_request cp req -> runs (Pull fuel database req) w w' os (Ok resp) ->
  rp_CaughtUp resp = true ->
  exists watermark, (mark <= watermark <= length (w_log w'))%nat /\
    (forall id, exists t, (watermark <= t <= length (w_log w'))%nat /\
       apply_response resp rep !! id = view id (state_at (w_log w') t id)) /\
    (length (w_log w') = mark ->
     forall id, apply_response resp rep !! id = view id (state_at (w_log w') (length (w_log w')) id)).
Proof.
  intros Hs Hreq Hx Hcu. destruct (session_client _ _ _ _ Hs) as [Hok Hcl].
  destruct (Pull_inv _ _ _ _ _ _ _ _ _ Hreq Hok Hcl Hx) as (c & Hcp & _ & [Hpos _ Hscan _ Hfresh] & Hcaught & Htg).
  specialize (Hcaught Hcu) as [Hph Hmark]. exists (cp_pos (pc_Position c)). split; [done|].
  assert (Hall : forall id, exists t, (cp_pos (pc_Position c) <= t <= length (w_log w'))%nat /\
       apply_response resp rep !! id = view id (state_at (w_log w') t id)).
  { intros id. destruct (Hfresh id) as (s & (t & Ht & <-) & Hr); [by left|]. by exists t. }
  split; [done|]. intros Hquiet id. destruct (Hall id) as (t & Ht & Hr). by replace (length (w_log w')) with t by lia.
Qed.
End Pages.
End Source.

(** ** A session with a small collection *)
Definition lobby : StoredDoc :=
  {| doc_Id := "1"; doc_Database := "db"; doc_Fullpath := "rooms/a"; doc_Collection := "rooms";
     doc_CollectionHash := ""; doc_Parent := ""; doc_UpdatedAt := 5; doc_CreatedAt := 5; doc_Version := 1;
     doc_Data := {[ "name" := VString "lobby" ]}; doc_Deleted := false |}.
Definition rooms_log : list change := [("a", Some lobby)].
Definition sample_pos (cp : string) : nat := if String.eqb cp "1" || String.eqb cp "end" then 1%nat else 0%nat.
Definition sample_target (cp : string) : option nat := if String.eqb cp "1" then Some 1%nat else None.

Definition lobby_frame : WatchFrame :=
  {| wf_Event := Some {| se_Database := "db"; se_Collection := "rooms"; se_DocumentID := "a"; se_Type := EventCreate;
                         se_Document := Some lobby |};
     wf_Checkpoint := "1"; wf_CaughtUp := false; wf_SourceBytes := 10 |}.
Definition end_frame : WatchFrame := {| wf_Event := None; wf_Checkpoint := "end"; wf_CaughtUp := true; wf_SourceBytes := 0 |}.
Definition room_scan (after : string) : SourceScanPage :=
  let found := string_ltb after "a" in
  {| ssp_Documents := if found then [lobby] else []; ssp_NextAfter := if found then "a" else ""; ssp_Exhausted := true; ssp_Bytes := 10 |}.

(** The source with nothing written after the room. *)
Definition quiet_page {X} (e : pageE X) : X :=
  match e with
  | Canceled => false
  | GetMany _ _ => Ok []
  | ScanDocuments _ _ => Err DocumentStore.ErrSourceScanBudget
  | OpenStream _ _ => Err Open.ErrIndexNotReady
  | NextGroup => (Ok None, 0)
  | CloseStream => None
  end.
Definition quiet {X} (e : pullE X) (w : world) : X * world :=
  match e with
  | ContextErr => (None, w)
  | Scan _ r => (Ok (room_scan (ssr_AfterID r)), w)
  | WatchForScan _ _ => (Ok "0", w)
  | WatchResume _ _ after =>
      (Ok after, {| w_log := w_log w; w_stream := Some (sample_pos after, default (length (w_log w)) (sample_target after)) |})
  | NextFrame =>
      match w_stream w with
      | Some (k, 1%nat) =>
          match [lobby_frame; end_frame] !! k with
          | Some frame => (Ok frame, {| w_log := w_log w; w_stream := Some (sample_pos (wf_Checkpoint frame), 1%nat) |})
          | None => (Err PullOther, w)
          end
      | _ => (Err PullOther, w)
      end
  | CloseWatch => (None, w)
  | BeforeDeadline => (true, w)
  | NewUUID => ("", w)
  | Page e => (quiet_page e, w)
  end.
Fixpoint sim {A} (p : qprog A) (w : world) : world * A :=
  match p with
  | Ret a => (w, a)
  | Call e k => let '(x, w') := quiet e w in sim (k x) w'
  end.

Lemma room_seen from : (from <= 1)%nat -> seen rooms_log from "a" (Some lobby).
Proof. intros H. exists 1%nat. split; [cbn; lia|reflexivity]. Qed.
Lemma sample_pos_le cp : (sample_pos cp <= 1)%nat.
Proof. unfold sample_pos. destruct (_ || _); lia. Qed.

Lemma room_scan_ok r : scan_ok sample_pos rooms_log r (room_scan (ssr_AfterID r)).
Proof.
  pose proof (sample_pos_le (ssr_AtLeast r)) as Hle. assert (Ha : LogicalDocumentID lobby = Ok "a") by reflexivity.
  unfold scan_ok, room_scan. cbn [ssp_Documents ssp_NextAfter ssp_Exhausted]. split_and!.
  - intros d id Hd Hid. destruct (string_ltb _ _); [|by apply elem_of_nil in Hd].
    apply list_elem_of_singleton in Hd as ->. assert (id = "a") as -> by congruence. by apply room_seen.
  - intros i j d d' id id' Hij Hi Hj. destruct (string_ltb _ _); [|done]. destruct j as [|j]; [lia|]. discriminate Hj.
  - intros d Hd. destruct (string_ltb _ _); [|done]. by injection Hd as <-.
  - intros id Hid _ Hnot. destruct (decide (id = "a")) as [->|Hne].
    + rewrite Hid in Hnot. exfalso. by apply (Hnot lobby); [left|].
    + exists 1%nat. split; [cbn; lia|]. unfold state_at, state_after, rooms_log.
      cbn [take foldl fst snd]. by destruct (String.eqb_spec "a" id); [congruence|].
Qed.

Lemma rooms_log_ok : log_ok rooms_log.
Proof. repeat constructor. all: cbn in *; simplify_eq; reflexivity. Qed.

Lemma quiet_step X (e : pullE X) w : w_log w = rooms_log ->
  step sample_pos sample_target X e w (quiet e w).1 (quiet e w).2 [] /\ w_log (quiet e w).2 = rooms_log.
Proof.
  intros Hl. split.
  - split; [destruct e; cbn; try done; repeat case_match; done|]. split.
    + replace (w_log (quiet e w).2) with rooms_log; [apply rooms_log_ok|]. destruct e; cbn; try done; repeat case_match; done.
    + destruct e; cbn [answers quiet fst snd]; try done.
      * split; [done|]. rewrite Hl. apply room_scan_ok.
      * cbn. split; [lia|done].
      * destruct (w_stream w) as [[k [|[|t]]]|]; try done. destruct k as [|[|k]]; try done.
        cbn [list_lookup lookup]. split; [|done]. cbn. rewrite Hl. split; [|done]. exists (Some lobby). split_and!; try done.
        intros d [= <-] _. by apply room_seen.
  - destruct e; cbn; try done; repeat case_match; done.
Qed.

Lemma sim_runs {A} (p : qprog A) w w' a : w_log w = rooms_log -> sim p w = (w', a) ->
  w_log w' = rooms_log /\ exists os, runs (step sample_pos sample_target) p w w' os a.
Proof.
  revert w. induction p as [b|X e k IH]; intros w Hl Hs; cbn in Hs.
  - injection Hs as <- <-. split; [done|]. exists []. done.
  - destruct (quiet_step X e w Hl) as [Hst Hl']. destruct (quiet e w) as [x w1]. destruct (IH x w1 Hl' Hs) as (Hlw & os & Hx).
    split; [done|]. exists ([] ++ os), x, w1, [], os. done.
Qed.

Definition rooms_request (cp : option checkpoint) : ReplicationPullRequest :=
  {| rq_DatabaseIdentity := ""; rq_Collection := "rooms"; rq_Checkpoint := cp; rq_Limit := 0; rq_Source := None;
     rq_RequestID := None; rq_CheckpointPresent := false; rq_LimitPresent := false |}.
Definition rooms_pull (cp : option checkpoint) : qprog (res pull_error ReplicationPullResponse) :=
  Pull (SS := insertion_slice_sort) Paths.DefaultValidationConfig (fun _ => 10) (fun _ _ _ => 10) (fun _ => 10) (fun _ => 10)
    (fun _ => 10) (fun _ => true) 1 "db" (rooms_request cp).
Definition sample_world : world := {| w_log := rooms_log; w_stream := None |}.
Definition first_pull := sim (rooms_pull None) sample_world.
Definition first_checkpoint : option checkpoint := match first_pull.2 with Ok r => rp_Checkpoint r | Err _ => None end.
Definition second_pull := sim (rooms_pull first_checkpoint) first_pull.1.

(** The second pull of the session is caught up and the replica is the collection. *)
Lemma pull_converges_witness :
  exists resp rep, second_pull.2 = Ok resp /\ rp_CaughtUp resp = true /\
    forall id, apply_response resp rep !! id = view "db" "rooms" None id (state_at rooms_log 1 id).
Proof.
  destruct first_pull as [w1 r1] eqn:H1. destruct (sim_runs _ _ _ _ (eq_refl : w_log sample_world = rooms_log) H1) as (Hl1 & os1 & Hx1).
  assert (Hv1 : match r1 with Ok r => rp_Checkpoint r = first_checkpoint /\ rp_CaughtUp r = false /\ scanning (rp_Checkpoint r) = false
                | Err _ => False end).
  { replace r1 with first_pull.2 by (by rewrite H1). clear. vm_compute. repeat split. }
  destruct r1 as [resp1|e]; [|destruct Hv1]. destruct Hv1 as (Hcp & Hcu & Hsc).
  destruct second_pull as [w2 r2] eqn:H2. unfold second_pull in H2. rewrite H1 in H2. cbn [fst] in H2.
  destruct (sim_runs _ _ _ _ Hl1 H2) as (Hl2 & os2 & Hx2).
  assert (Hv2 : match r2 with Ok r => rp_CaughtUp r = true | Err _ => False end).
  { replace r2 with second_pull.2 by (unfold second_pull; rewrite H1; cbn [fst]; by rewrite H2). clear. vm_compute. reflexivity. }
  destruct r2 as [resp2|e]; [|destruct Hv2]. exists resp2, (apply_response resp1 ∅). split; [done|]. split; [done|].
  assert (Hs : session (SS := insertion_slice_sort) "db" "rooms" None sample_pos sample_target Paths.DefaultValidationConfig
                 (fun _ => 10) (fun _ _ _ => 10) (fun _ => 10) (fun _ => 10) (fun _ => 10) (fun _ => true)
                 w1 first_checkpoint (apply_response resp1 ∅) 1).
  { rewrite <- Hcp. replace 1%nat with (next_mark 0 None resp1 w1) by (unfold next_mark; by rewrite Hcu, Hsc, Hl1).
    eapply (session_page _ _ _ _ _ _ _ _ _ _ _ _ sample_world None ∅ 0 1 (rooms_request None));
      [apply session_new, rooms_log_ok|by split|exact Hx1]. }
  destruct (pull_converges (SS := insertion_slice_sort) _ _ _ _ _ _ _ _ _ _ _ _ _ _ _ _ 1 (rooms_request first_checkpoint)
              _ _ _ Hs ltac:(by split) Hx2 Hv2) as (wm & _ & _ & Hquiet).
  rewrite Hl2 in Hquiet. exact (Hquiet eq_refl).
Defined.
