(* ===== verification/Buffer.v ===== *)
(** * The event buffer: internal/puller/buffer/buffer.go, writer.go, reader.go
      and iterator.go

    Captured events wait in a queue until a batch writes them with the resume
    token of the last one; readers see the database and the queue as one ordered
    stream; retention removes old events and records how far it went. The locks of
    the code are in the steps of the file BufferMachine; here each operation is a
    function of the buffer. *)
From stdpp Require Import base list sorting gmap strings.
From Stdlib Require Import ZArith.
From S2P Require Import Prelude Value IndexStore Codec Projection Intervals Pebble Events.
Local Open Scope Z_scope.

(** The iterator run from [Last] with [Prev], and the size of the database: the
    rest of the interface of github.com/cockroachdb/pebble that the buffer calls. *)
Class PebbleBack `{PB : Pebble} := {
  db_IterBack : pebble -> bytes -> option bytes -> res string (list row * option string * option string);
  db_DiskSpaceUsage : pebble -> Z;
  db_IterBack_law : forall d lower upper rows e c, db_IterBack d lower upper = Ok (rows, e, c) ->
    StronglySorted (fun a b => row_lt b a) rows /\
    (forall x, x ∈ rows -> content d !! x.1 = Some x.2 /\ in_range lower upper x.1 = true) /\
    (e = None -> forall k v, content d !! k = Some v -> in_range lower upper k = true -> (k, v) ∈ rows) /\
    (** none is skipped before an error *)
    (forall k v x, content d !! k = Some v -> in_range lower upper k = true -> x ∈ rows -> bytes_compare x.1 k = Lt -> (k, v) ∈ rows);
}.

(** What the buffer uses of internal/puller/events/codec.go: [stored e] is the
    event read back, which keeps the cluster time and the identifier. *)
Class EventCodec := {
  MarshalEvent : StoreChangeEvent -> res string bytes;
  UnmarshalEvent : bytes -> res string StoreChangeEvent;
  storable : StoreChangeEvent -> Prop;
  stored : StoreChangeEvent -> StoreChangeEvent;
  codec_law : forall e data, storable e -> MarshalEvent e = Ok data -> UnmarshalEvent data = Ok (stored e);
  stored_time : forall e, evt_ClusterTime (stored e) = evt_ClusterTime e;
  stored_id : forall e, evt_EventID (stored e) = evt_EventID e;
  stored_backend : forall e, evt_Backend (stored e) = evt_Backend e;
}.

Inductive buffer_error :=
| BufferClosed
| CheckpointTokenRequired      (** checkpoint token is required *)
| FlushBeforeBoundary          (** flush buffered events before saving a source boundary *)
| MetadataDelete               (** cannot delete buffer metadata as an event *)
| InvalidPosition              (** invalid event position; offline rebuild required *)
| UnknownPosition              (** unknown event position; offline rebuild required *)
| LineageChanged               (** buffer lineage changed; offline rebuild required *)
| HistoryExpired               (** event history expired; offline rebuild required *)
| InvalidLineage | LineageMissing | UnsupportedFormat (version : bytes) | UnversionedFormat
| DBFailure (e : string)       (** an error of the database, with its wrapping *)
| CodecFailure (e : string) | ContextDone (e : string) | RandFailure (e : string)
| ErrorsJoined (es : list buffer_error).

(** [errors.Join]: nil when every error is. *)
Definition errors_Join (es : list (option buffer_error)) : option buffer_error :=
  match omap id es with [] => None | es => Some (ErrorsJoined es) end.

(** ** Keys *)
Definition checkpointKey : bytes := bytes_of_string "!checkpoint/resume_token".
Definition formatKey : bytes := bytes_of_string "!format".
Definition lineageKey : bytes := bytes_of_string "!lineage".
Definition pruningFloorKey : bytes := bytes_of_string "!pruning_floor".
Definition formatVersion : bytes := bytes_of_string "typed-events-v2".
Arguments checkpointKey : simpl never.
Arguments formatKey : simpl never.
Arguments lineageKey : simpl never.
Arguments pruningFloorKey : simpl never.

Definition isMetadataKey (key : bytes) : bool :=
  bytes_eqb key checkpointKey || bytes_eqb key formatKey || bytes_eqb key lineageKey || bytes_eqb key pruningFloorKey.

(** What precedes the first dash, and what follows it. *)
Fixpoint cut_dash (l : bytes) : option (bytes * bytes) :=
  match l with
  | [] => None
  | b :: l => if b =? 45 then Some ([], l) else '(p, r) ← cut_dash l; Some (b :: p, r)
  end.

(** [strconv.ParseUint(s, 10, 32)]. *)
Definition ParseUint32 (s : bytes) : option Z :=
  match s with
  | [] => None
  | _ => v ← digits_value 0 s; if v <? 2 ^ 32 then Some v else None
  end.

Definition timestampGroupStart (key : bytes) : res buffer_error bytes :=
  match key with
  | [] => Ok []
  | _ =>
      match cut_dash key with
      | Some (p0, rest) =>
          match cut_dash rest with
          | Some (p1, p2) =>
              if (Z.of_nat (length p0) =? 10) && (Z.of_nat (length p1) =? 10) && negb (bytes_eqb p2 []) then
                match ParseUint32 p0, ParseUint32 p1 with
                | Some t, Some i =>
                    let prefix := FormatBufferKey (ClusterAt t i) "" in
                    if bytes_eqb prefix (take 22 key) then Ok prefix else Err InvalidPosition
                | _, _ => Err InvalidPosition
                end
              else Err InvalidPosition
          | None => Err InvalidPosition
          end
      | None => Err InvalidPosition
      end
  end.

(** One round of a loop that waits: it has to wait, or it returns. *)
Inductive attempt (A : Type) := Waits | Done (a : A).
Arguments Waits {A}.
Arguments Done {A} a.

Section Buffer.
Context `{PB : Pebble} {BK : PebbleBack} {EC : EventCodec}.

(** ** State *)
Record writeRequest := {
  req_key : bytes; req_value : bytes; req_token : option bytes; req_event : option StoreChangeEvent;
}.

(** [notified]: the channel of one wake-up for the batcher holds it. A batch that
    releases capacity closes the channel [capacity] and makes a new one: the
    channel is the number of such batches. *)
Record Buffer := {
  b_db : pebble; b_lineage : string;
  b_pending : list writeRequest; b_flushing : list writeRequest;
  b_notified : bool; b_capacity : nat; b_closeCh : bool;
  b_closed : bool; b_failure : option buffer_error;
  b_batchSize : Z; b_batchInterval : Z; b_queueSize : Z;
}.

Definition set_db (b : Buffer) (d : pebble) : Buffer :=
  {| b_db := d; b_lineage := b_lineage b; b_pending := b_pending b; b_flushing := b_flushing b;
     b_notified := b_notified b; b_capacity := b_capacity b; b_closeCh := b_closeCh b; b_closed := b_closed b;
     b_failure := b_failure b; b_batchSize := b_batchSize b; b_batchInterval := b_batchInterval b;
     b_queueSize := b_queueSize b |}.
Definition set_queues (b : Buffer) (pending flushing : list writeRequest) (notified : bool) : Buffer :=
  {| b_db := b_db b; b_lineage := b_lineage b; b_pending := pending; b_flushing := flushing;
     b_notified := notified; b_capacity := b_capacity b; b_closeCh := b_closeCh b; b_closed := b_closed b;
     b_failure := b_failure b; b_batchSize := b_batchSize b; b_batchInterval := b_batchInterval b;
     b_queueSize := b_queueSize b |}.

Definition queued (b : Buffer) : Z := Z.of_nat (length (b_pending b)) + Z.of_nat (length (b_flushing b)).

(** ** Opening *)
Record Options := { opt_BatchSize : Z; opt_BatchInterval : Z; opt_QueueSize : Z }.

Definition validateFormat (d : pebble) : pebble * option buffer_error :=
  match db_Get d formatKey with
  | Ok (Some (value, _)) => (d, if bytes_eqb value formatVersion then None else Some (UnsupportedFormat value))
  | Err e => (d, Some (DBFailure e))
  | Ok None =>
      match db_Iter d [] None with
      | Err e => (d, Some (DBFailure e))
      | Ok (rows, e, c) =>
          (** the error after [First]: there is none at a row *)
          let e := match rows with [] => e | _ => None end in
          match errors_Join [DBFailure <$> e; DBFailure <$> c] with
          | Some err => (d, Some err)
          | None =>
              match rows with
              | _ :: _ => (d, Some UnversionedFormat)
              | [] => let '(d, e) := db_Set d formatKey formatVersion in (d, DBFailure <$> e)
              end
          end
      end
  end.

(** [token]: the sixteen bytes of [rand.Read]. *)
Definition loadLineage (d : pebble) (token : res string bytes) : pebble * res buffer_error string :=
  match db_Get d lineageKey with
  | Ok (Some (value, _)) =>
      (d, if Z.of_nat (length value) =? 32 then Ok (string_of_bytes value) else Err InvalidLineage)
  | Err e => (d, Err (DBFailure e))
  | Ok None =>
      match db_Iter d [] None with
      | Err e => (d, Err (DBFailure e))
      | Ok (rows, e, c) =>
          if existsb (fun x => negb (bytes_eqb x.1 formatKey)) rows then (d, Err LineageMissing)
          else match errors_Join [DBFailure <$> e; DBFailure <$> c] with
          | Some err => (d, Err err)
          | None =>
              match token with
              | Err e => (d, Err (RandFailure e))
              | Ok token =>
                  let lineage := hex_encode token in
                  let '(d, e) := db_Set d lineageKey lineage in
                  (d, match e with Some e => Err (DBFailure e) | None => Ok (string_of_bytes lineage) end)
              end
          end
      end
  end.

(** [New] on the opened database. *)
Definition New (opts : Options) (d : pebble) (token : res string bytes) : pebble * res buffer_error Buffer :=
  let '(d, e) := validateFormat d in
  match e with
  | Some err => (d, Err err)
  | None =>
      let '(d, r) := loadLineage d token in
      (d, lineage ← r;
          Ok {| b_db := d; b_lineage := lineage; b_pending := []; b_flushing := []; b_notified := false;
                b_capacity := 0; b_closeCh := false; b_closed := false; b_failure := None;
                b_batchSize := if opt_BatchSize opts <=? 0 then 100 else opt_BatchSize opts;
                b_batchInterval := if opt_BatchInterval opts <=? 0 then 10000000000 else opt_BatchInterval opts;
                b_queueSize := if opt_QueueSize opts <=? 0 then 10000 else opt_QueueSize opts |})
  end.

(** ** Batches *)
Fixpoint batch_adds (d : pebble) (batch ops : list batch_op) : res buffer_error (list batch_op) :=
  match ops with
  | [] => Ok batch
  | op :: ops => match batch_Add d batch op with Some e => Err (DBFailure e) | None => batch_adds d (batch ++ [op]) ops end
  end.

(** The batch the function builds, committed; the error of closing it is dropped. *)
Definition applyBatch (d : pebble) (apply : res buffer_error (list batch_op)) : pebble * option buffer_error :=
  match apply with
  | Err e => (d, Some e)
  | Ok ops => let '(d, e) := batch_Commit d ops in (d, DBFailure <$> e)
  end.

(** ** Checkpoints *)
Definition LoadCheckpoint (b : Buffer) : res buffer_error (option bytes) :=
  if b_closed b then Err (default BufferClosed (b_failure b))
  else match db_Get (b_db b) checkpointKey with
       | Ok r => Ok (fst <$> r)
       | Err e => Err (DBFailure e)
       end.

(** The token is [None] when nil. *)
Definition SaveCheckpoint (b : Buffer) (token : option bytes) : Buffer * option buffer_error :=
  if b_closed b then (b, Some BufferClosed)
  else match token with
  | None => (b, None)
  | Some [] => (b, Some CheckpointTokenRequired)
  | Some token =>
      if negb (queued b =? 0) then (b, Some FlushBeforeBoundary)
      else
        let '(d, e) := applyBatch (b_db b) (batch_adds (b_db b) [] [BatchSet checkpointKey token]) in
        (set_db b d, e)
  end.

Definition DeleteCheckpoint (b : Buffer) : Buffer * option buffer_error :=
  if b_closed b then (b, Some BufferClosed)
  else
    let '(d, e) := applyBatch (b_db b) (batch_adds (b_db b) [] [BatchDelete checkpointKey]) in
    (set_db b d, e).

(** ** Retention *)
Definition pruningFloor (d : pebble) : res buffer_error bytes :=
  match db_Get d pruningFloorKey with
  | Ok None => Ok []
  | Ok (Some (value, _)) => Ok value
  | Err e => Err (DBFailure e)
  end.

(** The batch with the floor, when it advances. *)
Definition advancePruningFloor (d : pebble) (batch : list batch_op) (floor : bytes) : res buffer_error (list batch_op) :=
  previous ← pruningFloor d;
  if bytes_leb floor previous then Ok batch
  else batch_adds d batch [BatchSet pruningFloorKey floor].

(** The batch of [Delete]. *)
Definition delete_batch (d : pebble) (key : bytes) : res buffer_error (list batch_op) :=
  match db_Get d key with
  | Err e => Err (DBFailure e)
  | Ok (Some (_, Some e)) => Err (DBFailure e)
  | Ok r =>
      batch ← batch_adds d [] [BatchDelete key];
      match r with Some _ => advancePruningFloor d batch key | None => Ok batch end
  end.

Definition Delete (b : Buffer) (key : bytes) : Buffer * option buffer_error :=
  if b_closed b then (b, Some BufferClosed)
  else if isMetadataKey key then (b, Some MetadataDelete)
  else
    let '(d, e) := applyBatch (b_db b) (delete_batch (b_db b) key) in
    (set_db b d, e).

Definition event_keys (rows : list row) : list bytes := List.filter (fun k => negb (isMetadataKey k)) (map fst rows).

(** The deletions below a key with the floor they leave, and their number; no
    batch when there is nothing to delete. *)
Definition prune_batch (d : pebble) (beforeKey : bytes) : res buffer_error (option (list batch_op * Z)) :=
  match db_Iter d [] (Some beforeKey) with
  | Err e => Err (DBFailure e)
  | Ok (rows, e, _) =>
      let keys := event_keys rows in
      batch ← batch_adds d [] (map BatchDelete keys);
      match e with
      | Some e => Err (DBFailure e)
      | None =>
          match last keys with
          | None => Ok None
          | Some floor => batch ← advancePruningFloor d batch floor; Ok (Some (batch, Z.of_nat (length keys)))
          end
      end
  end.

(** The commit of such a batch: the database and the number of deletions. *)
Definition prune_commit (d : pebble) (batch : list batch_op) (count : Z) : pebble * res buffer_error Z :=
  let '(d, e) := batch_Commit d batch in
  (d, match e with Some e => Err (DBFailure e) | None => Ok count end).

Definition deleteBeforeLocked (b : Buffer) (beforeKey : bytes) : Buffer * res buffer_error Z :=
  if b_closed b then (b, Err BufferClosed)
  else match prune_batch (b_db b) beforeKey with
  | Err e => (b, Err e)
  | Ok None => (b, Ok 0)
  | Ok (Some (batch, count)) =>
      let '(d, r) := prune_commit (b_db b) batch count in
      (set_db b d, r)
  end.

Definition DeleteBefore (b : Buffer) (beforeKey : bytes) : Buffer * res buffer_error Z := deleteBeforeLocked b beforeKey.

(** The group of the newest event, below the cutoff when pruning by age; [[]] when
    there is no event. *)
Definition protected_group (d : pebble) (beforeKey : bytes) (age : bool) : res buffer_error bytes :=
  match db_IterBack d [] (if age then Some beforeKey else None) with
  | Err e => Err (DBFailure e)
  | Ok (rows, e, c) =>
      let '(r, e) := match event_keys rows with
                     | key :: _ => (timestampGroupStart key, None)
                     | [] => (Ok [], e)
                     end in
      match errors_Join [match r with Err err => Some err | Ok _ => None end; DBFailure <$> e; DBFailure <$> c] with
      | Some err => Err err
      | None => r
      end
  end.

Definition min_key (a b : bytes) : bytes := if bytes_ltb b a then b else a.

Definition pruneBefore (b : Buffer) (beforeKey : bytes) (age : bool) : Buffer * res buffer_error Z :=
  if b_closed b then (b, Err BufferClosed)
  else match protected_group (b_db b) beforeKey age with
  | Err e => (b, Err e)
  | Ok [] => (b, Ok 0)
  | Ok protectedGroup => deleteBeforeLocked b (min_key beforeKey protectedGroup)
  end.

Definition PruneBefore (b : Buffer) (beforeKey : bytes) : Buffer * res buffer_error Z := pruneBefore b beforeKey false.
Definition PruneExpired (b : Buffer) (beforeKey : bytes) : Buffer * res buffer_error Z := pruneBefore b beforeKey true.

(** ** Writing *)
(** One round of [Write]: it waits for a signal and tries again while the queue is
    full. [ctx1] and [ctx2] are the two readings of [ctx.Err()]. *)
Definition Write (b : Buffer) (evt : StoreChangeEvent) (token : option bytes) (ctx1 ctx2 : option string)
    : attempt (Buffer * option buffer_error) :=
  if b_closed b then Done (b, Some (default BufferClosed (b_failure b)))
  else match ctx1 with
  | Some e => Done (b, Some (ContextDone e))
  | None =>
      match default [] token with
      | [] => Done (b, Some CheckpointTokenRequired)
      | token =>
          if queued b <? b_queueSize b then
            match MarshalEvent evt with
            | Err e => Done (b, Some (CodecFailure e))
            | Ok value =>
                match ctx2 with
                | Some e => Done (b, Some (ContextDone e))
                | None =>
                    let req := {| req_key := BufferKey evt; req_value := value; req_token := Some token;
                                  req_event := Some evt |} in
                    let pending := b_pending b ++ [req] in
                    let full := (b_batchSize b <=? Z.of_nat (length pending))
                                || (b_queueSize b <=? Z.of_nat (length pending) + Z.of_nat (length (b_flushing b))) in
                    Done (set_queues b pending (b_flushing b) (b_notified b || full), None)
                end
            end
          else Waits
      end
  end.

(** The first part of [flush]: the oldest batch leaves the queue but stays visible.
    [None]: there is nothing to flush. *)
Definition flush_take (b : Buffer) : option Buffer :=
  match b_pending b with
  | [] => None
  | _ =>
      let count := Z.to_nat (Z.min (Z.of_nat (length (b_pending b))) (b_batchSize b)) in
      Some (set_queues b (drop count (b_pending b)) (take count (b_pending b)) (b_notified b))
  end.

(** The token of the last request that has one. *)
Definition checkpoint_token (reqs : list writeRequest) : option bytes :=
  foldl (fun t req => match req_token req with Some t' => Some t' | None => t end) None reqs.

Definition flush_batch (d : pebble) (reqs : list writeRequest) : res buffer_error (list batch_op) :=
  batch ← batch_adds d [] (map (fun req => BatchSet (req_key req) (req_value req)) reqs);
  match checkpoint_token reqs with
  | Some token => batch_adds d batch [BatchSet checkpointKey token]
  | None => Ok batch
  end.

(** The second part: the batch, without the lock. A batch that cannot be closed
    counts as a failure although it was committed. *)
Definition flush_commit (d : pebble) (reqs : list writeRequest) : pebble * option buffer_error :=
  match flush_batch d reqs with
  | Err e => (d, Some e)
  | Ok batch =>
      let '(d', e) := batch_Commit d batch in
      (d', match e with Some e => Some (DBFailure e) | None => DBFailure <$> batch_Close d batch end)
  end.

(** The last part: the queue is released, or the buffer fails for good. *)
Definition flush_finish (b : Buffer) (commitErr : option buffer_error) : Buffer :=
  {| b_db := b_db b; b_lineage := b_lineage b; b_pending := b_pending b; b_flushing := [];
     b_notified := b_notified b;
     b_capacity := match commitErr with Some _ => b_capacity b | None => S (b_capacity b) end;
     b_closeCh := match commitErr with Some _ => b_closeCh b || negb (b_closed b) | None => b_closeCh b end;
     b_closed := match commitErr with Some _ => true | None => b_closed b end;
     b_failure := match commitErr with Some _ => commitErr | None => b_failure b end;
     b_batchSize := b_batchSize b; b_batchInterval := b_batchInterval b; b_queueSize := b_queueSize b |}.

Definition flush (b : Buffer) : Buffer * option buffer_error :=
  match flush_take b with
  | None => (b, None)
  | Some b =>
      let '(d, commitErr) := flush_commit (b_db b) (b_flushing b) in
      (flush_finish (set_db b d) commitErr, commitErr)
  end.

(** The decisions of the loop of [runBatcher]: to return, and to wait before the
    next flush. *)
Definition batcher_returns (b : Buffer) : bool := b_closed b && bool_decide (b_pending b = []).
Definition batcher_waits (b : Buffer) : bool :=
  negb (b_closed b) && (Z.of_nat (length (b_pending b)) <? b_batchSize b)
  && (Z.of_nat (length (b_pending b)) <? b_queueSize b).

(** The loop after the buffer was closed: flushes until the queue is empty or one
    fails. [None]: out of fuel. *)
Fixpoint runBatcher (fuel : nat) (b : Buffer) : option Buffer :=
  if batcher_returns b then Some b
  else match fuel with
  | O => None
  | S fuel =>
      let '(b, err) := flush b in
      match err with Some _ => Some b | None => runBatcher fuel b end
  end.

(** One round of [Flush]: it wakes the batcher and waits for a signal while
    requests are queued. *)
Definition Flush (b : Buffer) : attempt (option buffer_error) :=
  match b_failure b with
  | Some e => Done (Some e)
  | None =>
      if b_closed b then Done (Some BufferClosed)
      else if queued b =? 0 then Done None
      else Waits
  end.
(** The wake-up it sends. *)
Definition Flush_notify (b : Buffer) : Buffer := set_queues b (b_pending b) (b_flushing b) true.

(** The first part of [Close]: new writes are refused and the batcher is told. *)
Definition Close_begin (b : Buffer) : Buffer :=
  {| b_db := b_db b; b_lineage := b_lineage b; b_pending := b_pending b; b_flushing := b_flushing b;
     b_notified := b_notified b; b_capacity := b_capacity b; b_closeCh := true;
     b_closed := true; b_failure := b_failure b;
     b_batchSize := b_batchSize b; b_batchInterval := b_batchInterval b; b_queueSize := b_queueSize b |}.

(** The second, after the batcher: what closing the database reports. *)
Definition Close_finish (b : Buffer) : option buffer_error :=
  match db_Close (b_db b) with
  | Some e => errors_Join [b_failure b; Some (DBFailure e)]
  | None => b_failure b
  end.

(** ** Reading *)
Definition Read (b : Buffer) (key : bytes) : res buffer_error (option StoreChangeEvent) :=
  if b_closed b then Err BufferClosed
  else match db_Get (b_db b) key with
  | Err e => Err (DBFailure e)
  | Ok None => Ok None
  | Ok (Some (value, _)) => map_err CodecFailure (Some <$> UnmarshalEvent value)
  end.

(** *** Iterators *)

(** The rows the database iterator has not met, and its error behind them. *)
Record bufferIterator := {
  bi_rows : list row; bi_iterErr : option string;
  bi_evt : option StoreChangeEvent; bi_key : bytes; bi_err : option buffer_error;
}.

Fixpoint bi_scan (it : bufferIterator) (rows : list row) : bool * bufferIterator :=
  match rows with
  | [] => (false, {| bi_rows := []; bi_iterErr := bi_iterErr it; bi_evt := bi_evt it; bi_key := bi_key it;
                     bi_err := DBFailure <$> bi_iterErr it |})
  | (key, value) :: rows =>
      if isMetadataKey key then bi_scan it rows
      else match UnmarshalEvent value with
      | Err e => (false, {| bi_rows := rows; bi_iterErr := bi_iterErr it; bi_evt := bi_evt it; bi_key := key;
                            bi_err := Some (CodecFailure e) |})
      | Ok evt => (true, {| bi_rows := rows; bi_iterErr := bi_iterErr it; bi_evt := Some evt; bi_key := key;
                            bi_err := None |})
      end
  end.
Definition bi_Next (it : bufferIterator) : bool * bufferIterator :=
  match bi_err it with Some _ => (false, it) | None => bi_scan it (bi_rows it) end.

(** The slices [events] and [keys] are filled together; [index] is -1 before the
    first [Next]. *)
Record sliceIterator := { sl_items : list (bytes * StoreChangeEvent); sl_index : Z }.
Definition sl_Next (it : sliceIterator) : bool * sliceIterator :=
  if sl_index it <? Z.of_nat (length (sl_items it)) - 1
  then (true, {| sl_items := sl_items it; sl_index := sl_index it + 1 |})
  else (false, it).
Definition sl_current (it : sliceIterator) : option (bytes * StoreChangeEvent) :=
  if 0 <=? sl_index it then sl_items it !! Z.to_nat (sl_index it) else None.

Inductive Iterator := DiskIterator (it : bufferIterator) | QueueIterator (it : sliceIterator).
Definition it_Next (it : Iterator) : bool * Iterator :=
  match it with
  | DiskIterator it => let '(more, it) := bi_Next it in (more, DiskIterator it)
  | QueueIterator it => let '(more, it) := sl_Next it in (more, QueueIterator it)
  end.
Definition it_Event (it : Iterator) : option StoreChangeEvent :=
  match it with DiskIterator it => bi_evt it | QueueIterator it => snd <$> sl_current it end.
Definition it_Key (it : Iterator) : bytes :=
  match it with DiskIterator it => bi_key it | QueueIterator it => default [] (fst <$> sl_current it) end.
Definition it_Err (it : Iterator) : option buffer_error :=
  match it with DiskIterator it => bi_err it | QueueIterator _ => None end.

(** How often [Next] can still answer true. *)
Definition it_left (it : Iterator) : nat :=
  match it with
  | DiskIterator it => length (bi_rows it)
  | QueueIterator it => Z.to_nat (Z.of_nat (length (sl_items it)) - 1 - sl_index it)
  end.

(** [iterators] and [ready], which have one length, as one list; [current] is the
    position of the iterator it points to. *)
Record deduplicatingIterator := {
  dd_sources : list (Iterator * bool); dd_initialized : bool;
  dd_current : option nat; dd_lastYield : bytes; dd_err : option buffer_error;
}.
Definition newDeduplicatingIterator (iters : list Iterator) : deduplicatingIterator :=
  {| dd_sources := map (fun it => (it, false)) iters; dd_initialized := false; dd_current := None;
     dd_lastYield := []; dd_err := None |}.

(** [for ready && iter.Key() == last]: each round takes one event. *)
Fixpoint skip_key (fuel : nat) (last : bytes) (it : Iterator) (ready : bool) : Iterator * bool :=
  if ready && bytes_eqb (it_Key it) last then
    match fuel with
    | O => (it, ready)
    | S fuel => let '(ready, it) := it_Next it in skip_key fuel last it ready
    end
  else (it, ready).

(** The loop over the sources from position [n]: the sources advanced, then the
    position and the key of the least one or the first error. [cur] is the least
    of the sources before. *)
Fixpoint dd_round (initialized : bool) (last : bytes) (n : nat) (sources : list (Iterator * bool))
    (cur : option (nat * bytes)) : list (Iterator * bool) * res buffer_error (option (nat * bytes)) :=
  match sources with
  | [] => ([], Ok cur)
  | (it, ready) :: sources =>
      let '(it, ready) :=
        if initialized then skip_key (S (it_left it)) last it ready
        else let '(more, it) := it_Next it in (it, more) in
      match it_Err it with
      | Some e => ((it, ready) :: sources, Err e)
      | None =>
          let better := match cur with None => true | Some (_, key) => bytes_ltb (it_Key it) key end in
          let cur := if ready && better then Some (n, it_Key it) else cur in
          let '(sources, r) := dd_round initialized last (S n) sources cur in
          ((it, ready) :: sources, r)
      end
  end.

Definition dd_Next (i : deduplicatingIterator) : bool * deduplicatingIterator :=
  let set sources initialized current last err :=
    {| dd_sources := sources; dd_initialized := initialized; dd_current := current; dd_lastYield := last; dd_err := err |} in
  match dd_err i with
  | Some _ => (false, set (dd_sources i) (dd_initialized i) None (dd_lastYield i) (dd_err i))
  | None =>
      let '(sources, r) := dd_round (dd_initialized i) (dd_lastYield i) 0 (dd_sources i) None in
      match r with
      | Err e => (false, set sources (dd_initialized i) None (dd_lastYield i) (Some e))
      | Ok None => (false, set sources true None (dd_lastYield i) None)
      | Ok (Some (n, key)) => (true, set sources true (Some n) key None)
      end
  end.
Definition dd_Event (i : deduplicatingIterator) : option StoreChangeEvent :=
  n ← dd_current i; s ← dd_sources i !! n; it_Event s.1.
Definition dd_Key (i : deduplicatingIterator) : bytes :=
  match dd_current i with
  | Some n => match dd_sources i !! n with Some s => it_Key s.1 | None => [] end
  | None => []
  end.

(** A stable sort has one result: that of insertion sort. *)
Definition newSnapshotIterator (b : Buffer) (afterKey : bytes) : sliceIterator :=
  let requests := List.filter (fun req => match req_event req with
                                          | Some _ => bytes_ltb afterKey (req_key req)
                                          | None => false
                                          end) (b_flushing b ++ b_pending b) in
  let requests := insertion_sort (fun x y => bytes_ltb (req_key x) (req_key y)) requests in
  {| sl_items := omap (fun req => (fun e => (req_key req, e)) <$> req_event req) requests; sl_index := -1 |}.

Definition after_bound (afterKey : bytes) : bytes := match afterKey with [] => [] | _ => afterKey ++ [0] end.

Definition ScanFrom (b : Buffer) (afterKey : bytes) : res buffer_error deduplicatingIterator :=
  if b_closed b then Err BufferClosed
  else match db_Iter (b_db b) (after_bound afterKey) None with
  | Err e => Err (DBFailure e)
  | Ok (rows, e, _) =>
      Ok (newDeduplicatingIterator
            [DiskIterator {| bi_rows := rows; bi_iterErr := e; bi_evt := None; bi_key := []; bi_err := None |};
             QueueIterator (newSnapshotIterator b afterKey)])
  end.

(** *** Positions *)

(** The first event key met; [[]] when there is none, also after an error of the
    iterator. *)
Definition Head (b : Buffer) : res buffer_error bytes :=
  if b_closed b then Err BufferClosed
  else match db_IterBack (b_db b) [] None with
  | Err e => Err (DBFailure e)
  | Ok (rows, _, _) => Ok (default [] (head (event_keys rows)))
  end.
Definition First (b : Buffer) : res buffer_error bytes :=
  if b_closed b then Err BufferClosed
  else match db_Iter (b_db b) [] None with
  | Err e => Err (DBFailure e)
  | Ok (rows, _, _) => Ok (default [] (head (event_keys rows)))
  end.
Definition CountAfter (b : Buffer) (afterKey : bytes) : res buffer_error Z :=
  if b_closed b then Err BufferClosed
  else match db_Iter (b_db b) (after_bound afterKey) None with
  | Err e => Err (DBFailure e)
  | Ok (rows, _, _) => Ok (Z.of_nat (length (event_keys rows)))
  end.
Definition Count (b : Buffer) : res buffer_error Z :=
  if b_closed b then Err BufferClosed
  else match db_Iter (b_db b) [] None with
  | Err e => Err (DBFailure e)
  | Ok (rows, _, _) => Ok (Z.of_nat (length (event_keys rows)))
  end.
Definition Size (b : Buffer) : res buffer_error Z :=
  if b_closed b then Err BufferClosed else Ok (i64 (db_DiskSpaceUsage (b_db b))).

Definition validateLineage (b : Buffer) (lineage : string) : res buffer_error unit :=
  if b_closed b then Err BufferClosed
  else if String.eqb lineage "" || negb (String.eqb lineage (b_lineage b)) then Err LineageChanged
  else Ok tt.

Definition validateHistoryFloor (b : Buffer) (group : bytes) : res buffer_error unit :=
  floor ← pruningFloor (b_db b);
  if negb (bytes_eqb floor []) && bytes_leb group floor then Err HistoryExpired else Ok tt.

Definition validatePosition (b : Buffer) (afterKey : bytes) (lineage : string) : res buffer_error bytes :=
  _ ← validateLineage b lineage;
  group ← timestampGroupStart afterKey;
  _ ← validateHistoryFloor b group;
  match afterKey with
  | [] => Ok []
  | _ =>
      match db_Get (b_db b) afterKey with
      | Err e => Err (DBFailure e)
      | Ok (Some (_, Some e)) => Err (DBFailure e)
      | Ok (Some (_, None)) => Ok group
      | Ok None =>
          if existsb (fun req => bytes_eqb (req_key req) afterKey) (b_pending b ++ b_flushing b)
          then Ok group else Err UnknownPosition
      end
  end.
Definition ValidatePosition (b : Buffer) (afterKey : bytes) (lineage : string) : res buffer_error unit :=
  _ ← validatePosition b afterKey lineage; Ok tt.

Definition ScanFromLineage (b : Buffer) (afterKey : bytes) (lineage : string) : res buffer_error deduplicatingIterator :=
  group ← validatePosition b afterKey lineage; ScanFrom b group.

Definition ScanFromGroup (b : Buffer) (floor : ClusterTime) (lineage : string) : res buffer_error deduplicatingIterator :=
  _ ← validateLineage b lineage;
  let group := FormatBufferKey floor "" in
  _ ← validateHistoryFloor b group;
  ScanFrom b group.
End Buffer.
