(* ===== verification/BufferScan.v ===== *)
(** * The stream of a scan of the event buffer

    What the iterators of iterator.go yield, and [ScanFrom] against the events of
    the database and the queue. *)
From stdpp Require Import base list sorting gmap strings.
From Stdlib Require Import ZArith.
From S2P Require Import Prelude Value IndexStore Codec Projection Intervals Pebble Events Buffer.
Local Open Scope Z_scope.

Abbreviation item := (bytes * StoreChangeEvent)%type.
Definition item_le (a b : item) : Prop := bytes_compare a.1 b.1 <> Gt.
Definition evt_lt (a b : StoreChangeEvent) : Prop := bytes_compare (BufferKey a) (BufferKey b) = Lt.

(** The messages, without the texts that wrap the errors of other packages. *)
Fixpoint error_text (e : buffer_error) : string :=
  match e with
  | BufferClosed => "buffer is closed"
  | CheckpointTokenRequired => "checkpoint token is required"
  | FlushBeforeBoundary => "flush buffered events before saving a source boundary"
  | MetadataDelete => "cannot delete buffer metadata as an event"
  | InvalidPosition => "invalid event position; offline rebuild required"
  | UnknownPosition => "unknown event position; offline rebuild required"
  | LineageChanged => "buffer lineage changed; offline rebuild required"
  | HistoryExpired => "event history expired; offline rebuild required"
  | InvalidLineage => "invalid buffer lineage; offline buffer rebuild required"
  | LineageMissing => "buffer lineage missing; offline buffer rebuild required"
  | UnsupportedFormat v => String.append "unsupported buffer format " (string_of_bytes v)
  | UnversionedFormat => "unversioned buffer format; offline buffer rebuild required"
  | DBFailure e | CodecFailure e | ContextDone e | RandFailure e => e
  | ErrorsJoined es => String.concat (string_of_bytes [10]) (map error_text es)
  end.

Section Scan.
Context `{PB : Pebble} {BK : PebbleBack} {EC : EventCodec}.

(** ** What one iterator still yields, and how it ends *)
Fixpoint disk_run (iterErr : option string) (rows : list row) : list item * option buffer_error :=
  match rows with
  | [] => ([], DBFailure <$> iterErr)
  | (key, value) :: rows =>
      if isMetadataKey key then disk_run iterErr rows
      else match UnmarshalEvent value with
      | Err e => ([], Some (CodecFailure e))
      | Ok evt => let '(l, e) := disk_run iterErr rows in ((key, evt) :: l, e)
      end
  end.
Definition it_run (it : Iterator) : list item * option buffer_error :=
  match it with
  | DiskIterator it => match bi_err it with Some e => ([], Some e) | None => disk_run (bi_iterErr it) (bi_rows it) end
  | QueueIterator it => (drop (Z.to_nat (sl_index it + 1)) (sl_items it), None)
  end.
Definition wf_it (it : Iterator) : Prop :=
  match it with DiskIterator _ => True | QueueIterator it => -1 <= sl_index it end.

Lemma bi_scan_run it rows :
  match disk_run (bi_iterErr it) rows with
  | ([], e) => exists it', bi_scan it rows = (false, it') /\ bi_err it' = e /\ it_run (DiskIterator it') = ([], e)
  | ((k, v) :: l, e) => exists it', bi_scan it rows = (true, it') /\ bi_key it' = k /\ bi_evt it' = Some v /\
      bi_err it' = None /\ it_run (DiskIterator it') = (l, e) /\ (length (bi_rows it') < length rows)%nat
  end.
Proof.
  induction rows as [|[key value] rows IH]; cbn.
  - eexists. split_and!; [done|done|]. unfold it_run; cbn. by destruct (bi_iterErr it).
  - destruct (isMetadataKey key).
    + destruct (disk_run _ rows) as [[|[k v] l] e]; [done|]. destruct IH as (it' & ? & ? & ? & ? & ? & ?).
      exists it'. split_and!; try done. lia.
    + destruct (UnmarshalEvent value) as [evt|e].
      * destruct (disk_run _ rows) as [l e] eqn:E. eexists. split_and!; try done. cbn. lia.
      * by eexists.
Qed.

Lemma it_Next_run it : wf_it it ->
  match it_run it with
  | ([], e) => exists it', it_Next it = (false, it') /\ wf_it it' /\ it_Err it' = e /\ it_run it' = ([], e)
  | ((k, v) :: l, e) => exists it', it_Next it = (true, it') /\ wf_it it' /\ it_Key it' = k /\ it_Event it' = Some v /\
      it_Err it' = None /\ it_run it' = (l, e) /\ (it_left it' < it_left it)%nat
  end.
Proof.
  destruct it as [it|[items i]]; intros Hw; cbn in Hw.
  - unfold it_run, it_Next, bi_Next. destruct (bi_err it) as [e|] eqn:E.
    + exists (DiskIterator it). split_and!; try done. cbn. by rewrite E.
    + pose proof (bi_scan_run it (bi_rows it)) as H. destruct (disk_run _ _) as [[|[k v] l] e].
      * destruct H as (it' & -> & H1 & H2). by exists (DiskIterator it').
      * destruct H as (it' & -> & H1 & H2 & H3 & H4 & H5). by exists (DiskIterator it').
  - unfold it_run, it_Next, sl_Next; cbn. destruct (Z.ltb_spec i (Z.of_nat (length items) - 1)) as [Hi|Hi].
    + destruct (lookup_lt_is_Some_2 items (Z.to_nat (i + 1)) ltac:(lia)) as [[k v] Hx].
      rewrite (drop_S _ _ _ Hx).
      exists (QueueIterator {| sl_items := items; sl_index := i + 1 |}).
      assert (sl_current {| sl_items := items; sl_index := i + 1 |} = Some (k, v)) as Hc.
      { unfold sl_current; cbn. by rewrite (proj2 (Z.leb_le 0 (i + 1)) ltac:(lia)). }
      cbn -[sl_current]. rewrite Hc. split_and!; try done; [lia| |lia].
      by replace (Z.to_nat (i + 1 + 1)) with (S (Z.to_nat (i + 1))) by lia.
    + rewrite drop_ge by lia. eexists. split_and!; try done. cbn. by rewrite drop_ge by lia.
Qed.

(** ** The sources of the merge *)

(** What a source has to offer: nothing was read yet, or its first item is the
    current one, or it ended without an error. *)
Definition src (initialized : bool) (s : Iterator * bool) (l : list item) (e : option buffer_error) : Prop :=
  wf_it s.1 /\
  if initialized then
    match l with
    | [] => s.2 = false /\ it_Err s.1 = None /\ e = None
    | (k, v) :: l => s.2 = true /\ it_Err s.1 = None /\ it_Key s.1 = k /\ it_Event s.1 = Some v /\ it_run s.1 = (l, e)
    end
  else it_run s.1 = (l, e).

Fixpoint drop_key (last : bytes) (l : list item) : list item :=
  match l with
  | [] => []
  | x :: l' => if bytes_eqb x.1 last then drop_key last l' else l
  end.
Definition advance (initialized : bool) (last : bytes) (l : list item) : list item :=
  if initialized then drop_key last l else l.

Lemma drop_key_suffix last l : exists p, l = p ++ drop_key last l /\ Forall (fun x => x.1 = last) p.
Proof.
  induction l as [|x l IH]; [by exists []|]. cbn. destruct (bytes_eqb x.1 last) eqn:E.
  - destruct IH as (p & E' & Hp). exists (x :: p). split; [cbn; by rewrite <- E'|]. constructor; [|done].
    by apply bytes_eqb_eq in E.
  - by exists [].
Qed.

Lemma skip_key_run last l e it ready fuel :
  src true (it, ready) l e -> (it_left it < fuel)%nat ->
  let '(it', ready') := skip_key fuel last it ready in
  match drop_key last l with
  | [] => wf_it it' /\ ready' = false /\ it_Err it' = e
  | l' => src true (it', ready') l' e
  end.
Proof.
  revert it ready fuel. induction l as [|[k v] l IH]; intros it ready fuel (Hw & Hs) Hf; cbn in Hs.
  - destruct Hs as (-> & He & ->), fuel; cbn; done.
  - destruct Hs as (-> & He & Hk & Hv & Hr). cbn [drop_key fst]. destruct fuel as [|fuel]; [lia|].
    cbn [skip_key andb]. rewrite Hk. destruct (bytes_eqb k last) eqn:E.
    + pose proof (it_Next_run it Hw) as Hn. rewrite Hr in Hn. destruct l as [|[k' v'] l].
      * destruct Hn as (it' & -> & Hw' & He' & _). cbn. destruct fuel; cbn; done.
      * destruct Hn as (it' & -> & Hw' & Hk' & Hv' & He' & Hr' & Hl').
        apply (IH it' true fuel); [|lia]. by split.
    + split; [done|]. by split_and!.
Qed.

(** One source, advanced: ready with its next item, ended, or failed. *)
Lemma src_advance (init : bool) last it ready l e :
  src init (it, ready) l e ->
  let '(it', ready') := if init then skip_key (S (it_left it)) last it ready
                        else let '(more, it) := it_Next it in (it, more) in
  match it_Err it' with
  | Some er => advance init last l = [] /\ e = Some er
  | None => src true (it', ready') (advance init last l) e
  end.
Proof.
  intros H. destruct init; cbn [advance].
  - pose proof (skip_key_run last l e it ready (S (it_left it)) H ltac:(lia)) as Hs.
    destruct (skip_key _ _ _ _) as [it' ready']. destruct (drop_key last l) as [|[k v] l'].
    + destruct Hs as (Hw & -> & <-). destruct (it_Err it') eqn:E; by repeat split.
    + pose proof Hs as (_ & _ & He & _). cbn [fst] in He. by rewrite He.
  - destruct H as [Hw Hr]. cbn [fst snd] in *. pose proof (it_Next_run it Hw) as Hn. rewrite Hr in Hn. destruct l as [|[k v] l].
    + destruct Hn as (it' & -> & Hw' & <- & _). destruct (it_Err it') eqn:E; by repeat split.
    + destruct Hn as (it' & -> & Hw' & Hk & Hv & He & Hr' & _). rewrite He. by repeat split.
Qed.

(** ** One round *)
Definition key_le (a b : bytes) : Prop := bytes_compare a b <> Gt.
Lemma key_le_refl a : key_le a a.
Proof. unfold key_le. by rewrite bytes_compare_refl. Qed.
Lemma key_le_trans a b c : key_le a b -> key_le b c -> key_le a c.
Proof.
  unfold key_le. intros H1 H2. destruct (bytes_compare a b) eqn:E1; [|destruct (bytes_compare b c) eqn:E2|done]; try done.
  - by apply bytes_compare_eq in E1 as ->.
  - apply bytes_compare_eq in E2 as ->. congruence.
  - by rewrite (bytes_compare_trans _ _ _ E1 E2).
Qed.
Lemma key_le_not_lt a b : key_le a b <-> bytes_ltb b a = false.
Proof. unfold key_le. rewrite <- bytes_leb_le, bytes_leb_ltb. by destruct (bytes_ltb b a). Qed.
Lemma key_lt_le a b : bytes_ltb a b = true -> key_le a b.
Proof. rewrite bytes_ltb_lt. unfold key_le. by intros ->. Qed.

(** [cur'] is the least of [cur] and the heads of the lists, from position [n]. *)
Definition least (n : nat) (ls : list (list item)) (cur cur' : option (nat * bytes)) : Prop :=
  match cur' with
  | None => cur = None /\ Forall (eq []) ls
  | Some (m, k) =>
      (cur = Some (m, k) \/ exists i v l, m = (n + i)%nat /\ ls !! i = Some ((k, v) :: l)) /\
      (forall x l, x :: l ∈ ls -> key_le k x.1) /\
      (match cur with Some (_, c) => key_le k c | None => True end)
  end.

Lemma least_cons n l ls cur cur' it (ready : bool) :
  (match l with [] => ready = false | x :: _ => ready = true /\ it_Key it = x.1 end) ->
  least (S n) ls (if ready && match cur with None => true | Some (_, key) => bytes_ltb (it_Key it) key end
                  then Some (n, it_Key it) else cur) cur' ->
  least n (l :: ls) cur cur'.
Proof.
  intros Hl H. destruct l as [|[k v] l].
  - subst ready. cbn [andb] in H. destruct cur' as [[m k']|]; cbn in *.
    + destruct H as (Hp & Hm & Hc). split_and!; [|set_solver|done].
      destruct Hp as [->|(i & v & l & -> & Hi)]; [by left|right]. exists (S i), v, l. split; [lia|done].
    + destruct H as [-> H]. by repeat constructor.
  - destruct Hl as [-> Hk]. cbn [fst] in Hk. rewrite Hk in H. cbn [andb] in H.
    destruct (match cur with None => true | Some (_, key) => bytes_ltb k key end) eqn:B.
    + destruct cur' as [[m k']|]; cbn in H |- *; [|by destruct H].
      destruct H as (Hp & Hm & Hc). split_and!.
      * right. destruct Hp as [[= <- <-]|(i & v' & l' & -> & Hi)]; [exists 0%nat, v, l; split; [lia|done]|].
        exists (S i), v', l'. split; [lia|done].
      * intros x l' [[= -> ->]|Hx]%elem_of_cons; [done|by eapply Hm].
      * destruct cur as [[c kc]|]; [|done]. eapply key_le_trans; [exact Hc|]. by apply key_lt_le.
    + destruct cur as [[c kc]|]; [|done]. destruct cur' as [[m k']|]; cbn in H |- *; [|by destruct H].
      destruct H as (Hp & Hm & Hc). split_and!; [|..|done].
      * destruct Hp as [Hp|(i & v' & l' & -> & Hi)]; [by left|right]. exists (S i), v', l'. split; [lia|done].
      * intros x l' [[= -> ->]|Hx]%elem_of_cons; [|by eapply Hm]. cbn. eapply key_le_trans; [exact Hc|]. by apply key_le_not_lt.
Qed.

Lemma dd_round_spec init last n sources cur ls es :
  Forall3 (src init) sources ls es ->
  let '(sources', r) := dd_round init last n sources cur in
  match r with
  | Err e => exists i, es !! i = Some (Some e)
  | Ok cur' => Forall3 (src true) sources' (map (advance init last) ls) es /\ least n (map (advance init last) ls) cur cur'
  end.
Proof.
  intros F. revert n cur. induction F as [|[it ready] l e sources ls es Hs F IH]; intros n cur; cbn [dd_round map].
  - split; [constructor|]. destruct cur as [[m k]|]; cbn; [|by split].
    split_and!; [by left|by intros ? ? ?%elem_of_nil|apply key_le_refl].
  - pose proof (src_advance init last it ready l e Hs) as Ha.
    destruct (if init then _ else _) as [it' ready'].
    destruct (it_Err it') as [er|] eqn:E.
    + destruct Ha as [_ ->]. by exists 0%nat.
    + specialize (IH (S n) (if ready' && match cur with None => true | Some (_, key) => bytes_ltb (it_Key it') key end
                            then Some (n, it_Key it') else cur)).
      destruct (dd_round _ _ (S n) sources _) as [sources' r]. destruct r as [cur'|e'].
      * destruct IH as [HF Hl]. split; [by constructor|]. eapply least_cons; [|exact Hl].
        destruct Ha as [_ Ha]. destruct (advance init last l) as [|[k v] l']; [by destruct Ha|].
        destruct Ha as (Hr & _ & Hk & _). by split.
      * destruct IH as [i Hi]. by exists (S i).
Qed.

(** ** The stream *)
#[export] Instance dd_iterator : EventIterator deduplicatingIterator.
Proof.
  refine {| iter_next := dd_Next; iter_event := dd_Event; iter_err i := error_text <$> dd_err i |}.
  intros i i' E. unfold dd_Next in E. destruct (dd_err i) as [er|] eqn:Ee.
  { injection E as <-. unfold dd_Next; cbn. done. }
  destruct (dd_round _ _ 0 (dd_sources i) None) as [sources r] eqn:Er. destruct r as [[[n key]|]|e]; [done| |].
  - injection E as <-. unfold dd_Next; cbn.
    assert (Hid : forall b last n srcs cur srcs' , dd_round b last n srcs cur = (srcs', Ok None) ->
      cur = None /\ forall last' n', dd_round true last' n' srcs' None = (srcs', Ok None)).
    { clear. intros b last n srcs. revert n. induction srcs as [|[it ready] srcs IH]; intros n cur srcs'; cbn [dd_round].
      - by intros [= <- ->].
      - destruct (if b then _ else _) as [it' ready']. destruct (it_Err it') as [er|] eqn:E; [done|].
        destruct (dd_round _ _ (S n) srcs _) as [srcs1 r] eqn:E1. intros [= <- ->]. apply IH in E1 as [Hc Hid].
        destruct (ready' && _) eqn:B; [done|]. subst cur. rewrite andb_true_r in B. subst ready'.
        split; [done|]. intros last' n'. cbn. rewrite E. by rewrite Hid. }
    apply Hid in Er as [_ Hid']. by rewrite Hid'.
  - by injection E as <-.
Defined.

(** An item is listed under the key of its event. *)
Definition keyed (x : item) : Prop := BufferKey x.2 = x.1.

Lemma sorted_suffix {A} (R : A -> A -> Prop) p l : StronglySorted R (p ++ l) -> StronglySorted R l.
Proof. induction p as [|x p IH]; cbn; [done|]. intros [H _]%StronglySorted_inv. by apply IH. Qed.

(** The items at or after [last], less those at [last], are after it. *)
Lemma drop_key_above last l :
  StronglySorted item_le l -> Forall (fun x => key_le last x.1) l ->
  Forall (fun x => bytes_compare last x.1 = Lt) (drop_key last l).
Proof.
  induction l as [|x l IH]; intros Hs Hl; [constructor|]. apply StronglySorted_inv in Hs as [Hs Hx].
  apply Forall_cons in Hl as [Hk Hl]. cbn. destruct (bytes_eqb x.1 last) eqn:E; [by apply IH|].
  assert (bytes_compare last x.1 = Lt) as Hlt.
  { destruct (bytes_compare last x.1) eqn:C; [|done|by destruct Hk].
    apply bytes_compare_eq in C. rewrite <- C in E. by rewrite (proj2 (bytes_eqb_eq last last)) in E. }
  constructor; [done|]. eapply Forall_impl; [exact Hx|]. intros y Hy. unfold item_le in Hy.
  destruct (bytes_compare x.1 y.1) eqn:C; [by apply bytes_compare_eq in C as <-|by eapply bytes_compare_trans|done].
Qed.

Definition total (ls : list (list item)) : nat := sum_list (map length ls).
Lemma total_insert ls i l l' : ls !! i = Some l -> (length l' < length l)%nat ->
  forall f, (forall x, length (f x) <= length x)%nat -> f l = l' -> (total (map f ls) < total ls)%nat.
Proof.
  intros Hi Hl f Hf E. unfold total. revert i Hi. induction ls as [|x ls IH]; intros [|i] Hi; cbn in *; [done|done| |].
  - injection Hi as ->. rewrite E. assert (sum_list (map length (map f ls)) <= sum_list (map length ls))%nat; [|lia].
    clear IH. induction ls as [|y ls IH]; cbn; [done|]. specialize (Hf y). lia.
  - specialize (IH i Hi). specialize (Hf x). lia.
Qed.

Lemma drop_key_length last l : (length (drop_key last l) <= length l)%nat.
Proof. destruct (drop_key_suffix last l) as (p & E & _). rewrite E at 2. rewrite length_app. lia. Qed.

(** Every source sorted and, once the merge runs, at or after the last key. *)
Definition dd_inv (i : deduplicatingIterator) (ls : list (list item)) (es : list (option buffer_error)) : Prop :=
  dd_err i = None /\ Forall3 (src (dd_initialized i)) (dd_sources i) ls es /\
  Forall (StronglySorted item_le) ls /\ Forall (Forall keyed) ls /\
  (dd_initialized i = true -> Forall (Forall (fun x => key_le (dd_lastYield i) x.1)) ls).

Definition offered (i : deduplicatingIterator) (ls : list (list item)) : list (list item) :=
  map (advance (dd_initialized i) (dd_lastYield i)) ls.

Lemma offered_inv i ls es : dd_inv i ls es ->
  Forall (StronglySorted item_le) (offered i ls) /\ Forall (Forall keyed) (offered i ls) /\
  (dd_initialized i = true -> Forall (Forall (fun x => bytes_compare (dd_lastYield i) x.1 = Lt)) (offered i ls)).
Proof.
  intros (_ & _ & Hs & Hk & Hl). unfold offered, advance. destruct (dd_initialized i); [|by rewrite map_id].
  specialize (Hl eq_refl). split_and!; [| |intros _]; apply Forall_map.
  - eapply Forall_impl; [exact Hs|]. intros l H. destruct (drop_key_suffix (dd_lastYield i) l) as (p & E & _). rewrite E in H. by apply sorted_suffix in H.
  - eapply Forall_impl; [exact Hk|]. intros l H. destruct (drop_key_suffix (dd_lastYield i) l) as (p & E & _). rewrite E in H. by apply Forall_app in H as [_ H].
  - apply Forall_forall. intros l H. rewrite Forall_forall in Hs, Hl. apply drop_key_above; auto.
Qed.

(** The keys of the lists, each once and in order, under events of the lists. *)
Definition listing (ls : list (list item)) (out : list StoreChangeEvent) : Prop :=
  StronglySorted evt_lt out /\
  (forall e, e ∈ out -> exists l, l ∈ ls /\ (BufferKey e, e) ∈ l).
Definition complete (ls : list (list item)) (out : list StoreChangeEvent) : Prop :=
  forall l x, l ∈ ls -> x ∈ l -> exists e, e ∈ out /\ BufferKey e = x.1.

Lemma dd_step i ls es : dd_inv i ls es ->
  (exists e i', dd_Next i = (false, i') /\ dd_err i' = Some e /\ Some e ∈ es) \/
  (exists i', dd_Next i = (false, i') /\ dd_err i' = None /\ Forall (eq []) (offered i ls) /\ Forall (eq None) es) \/
  (exists i' v l n, dd_Next i = (true, i') /\ dd_Event i' = Some v /\ offered i ls !! n = Some ((dd_lastYield i', v) :: l) /\
     dd_inv i' (offered i ls) es /\ dd_initialized i' = true).
Proof.
  intros Hi. pose proof (offered_inv i ls es Hi) as (Hs & Hk & _). destruct Hi as (He & F & _). unfold dd_Next. rewrite He.
  pose proof (dd_round_spec _ (dd_lastYield i) 0 _ None ls es F) as H.
  destruct (dd_round _ _ 0 (dd_sources i) None) as [sources [[[n key]|]|e]].
  - destruct H as [F' (Hp & Hm & _)]. destruct Hp as [?|(j & v & l & -> & Hj)]; [done|]. cbn [Nat.add] in *.
    fold (offered i ls) in F', Hm, Hj. right; right. eexists _, v, l, j. split; [done|]. cbn [dd_lastYield].
    destruct (Forall3_lookup_m _ _ _ _ _ _ F' Hj) as ([it ready] & e & Hit & Hes & Hsrc).
    split_and!; [|done| |done].
    + unfold dd_Event; cbn. rewrite Hit. cbn. by destruct Hsrc as (_ & _ & _ & _ & Hv & _).
    + repeat split; cbn; auto. intros _. apply Forall_forall. intros l' Hl'. destruct l' as [|x l']; [constructor|].
      specialize (Hm x l' Hl'). rewrite Forall_forall in Hs. specialize (Hs _ Hl'). apply StronglySorted_inv in Hs as [_ Hx].
      constructor; [done|]. eapply Forall_impl; [exact Hx|]. intros y Hy. by eapply key_le_trans.
  - destruct H as [F' [_ Hn]]. right; left. eexists. split_and!; [done|done|done|]. fold (offered i ls) in F', Hn.
    revert F' Hn. generalize (offered i ls). clear. intros ls F. induction F as [|s l e ss ls es Hs F IH]; [constructor|].
    intros [<- Hn]%Forall_cons. destruct Hs as (_ & _ & _ & ->). constructor; auto.
  - destruct H as [j Hj]. left. eexists e, _. split_and!; [done|done|]. by apply list_elem_of_lookup_2 in Hj.
Qed.

Lemma drop_key_split last l x : x ∈ l -> x.1 = last \/ x ∈ drop_key last l.
Proof.
  destruct (drop_key_suffix last l) as (p & E & Hp). rewrite E at 1. rewrite Forall_forall in Hp.
  intros [Hx|Hx]%elem_of_app; [left; by apply Hp|by right].
Qed.
Lemma drop_key_elem last l x : x ∈ drop_key last l -> x ∈ l.
Proof. destruct (drop_key_suffix last l) as (p & E & _). rewrite E at 2. set_solver. Qed.

(** The event just yielded, before what the iterator yields next. *)
Lemma listing_cons i ls es v out :
  dd_inv i ls es -> dd_initialized i = true -> (exists l, (dd_lastYield i, v) :: l ∈ ls) ->
  listing (offered i ls) out ->
  listing ls (v :: out) /\ (complete (offered i ls) out -> complete ls (v :: out)).
Proof.
  intros Hi Ei (l0 & Hl0) [Hs Ho]. pose proof (offered_inv i ls es Hi) as (_ & _ & Hlt). specialize (Hlt Ei).
  assert (BufferKey v = dd_lastYield i) as Ev.
  { destruct Hi as (_ & _ & _ & Hk & _). rewrite Forall_forall in Hk. specialize (Hk _ Hl0). by apply Forall_cons in Hk as [Hk _]. }
  unfold offered, advance in *. rewrite Ei in *. split; [split|].
  - constructor; [done|]. apply Forall_forall. intros e He. destruct (Ho e He) as (l & Hl & Hx).
    rewrite Forall_forall in Hlt. specialize (Hlt l Hl). rewrite Forall_forall in Hlt. specialize (Hlt _ Hx). unfold evt_lt. by rewrite Ev.
  - intros e [->|He]%elem_of_cons; [eexists; split; [exact Hl0|rewrite Ev; by left]|].
    destruct (Ho e He) as (l & (l' & -> & Hl)%list_elem_of_fmap & Hx). exists l'. split; [done|]. by eapply drop_key_elem.
  - intros Hc l x Hl Hx. destruct (drop_key_split (dd_lastYield i) l x Hx) as [E|Hd].
    + exists v. split; [by left|congruence].
    + destruct (Hc _ x (list_elem_of_fmap_2 (drop_key (dd_lastYield i)) _ _ Hl) Hd) as (e & He & Ee). exists e. split; [by right|done].
Qed.

Lemma dd_yields m i ls es : dd_inv i ls es -> (total (offered i ls) <= m)%nat ->
  exists out err, yields i out err /\ listing (offered i ls) out /\
    (err = None -> complete (offered i ls) out) /\ (err = None <-> Forall (eq None) es).
Proof.
  revert i ls. induction m as [|m IH]; intros i ls Hi Hm;
    destruct (dd_step i ls es Hi) as [(e & i' & En & Ee & Hes)|[(i' & En & Ee & Hn & Hes)|(i' & v & l & n & En & Ev & Hn & Hi' & Ei')]].
  1, 4: exists [], (iter_err i'); split_and!;
    [by apply (yields_end (H := dd_iterator))|split; [constructor|by intros ? ?%elem_of_nil]|cbn; by rewrite Ee|];
    cbn; rewrite Ee; split; [done|]; intros F; rewrite Forall_forall in F; by specialize (F _ Hes).
  1, 3: exists [], (iter_err i'); split_and!;
    [by apply (yields_end (H := dd_iterator))|split; [constructor|by intros ? ?%elem_of_nil]| |cbn; by rewrite Ee];
    intros _ l x Hl Hx; rewrite Forall_forall in Hn; rewrite <- (Hn l Hl) in Hx; by apply elem_of_nil in Hx.
  - exfalso. apply list_elem_of_lookup_2 in Hn. assert (forall ls, (dd_lastYield i', v) :: l ∈ ls -> (0 < total ls)%nat) as Ht.
    { intros ls'. unfold total. induction ls' as [|x ls' IHl]; [by intros ?%elem_of_nil|]. intros [<-|H]%elem_of_cons; cbn; [|specialize (IHl H)]; lia. }
    specialize (Ht _ Hn). lia.
  - assert (total (offered i' (offered i ls)) <= m)%nat as Hm'.
    { change (offered i' (offered i ls)) with (map (advance (dd_initialized i') (dd_lastYield i')) (offered i ls)).
      rewrite Ei'. change (total (map (drop_key (dd_lastYield i')) (offered i ls)) <= m)%nat.
      pose proof (total_insert (offered i ls) n _ (drop_key (dd_lastYield i') l) Hn) as Ht.
      specialize (Ht ltac:(pose proof (drop_key_length (dd_lastYield i') l); cbn [length]; lia) (drop_key (dd_lastYield i'))
        ltac:(apply drop_key_length) ltac:(cbn; by rewrite (proj2 (bytes_eqb_eq _ _) eq_refl))). lia. }
    destruct (IH i' _ Hi' Hm') as (out & err & Hy & Hl & Hc & He).
    destruct (listing_cons i' _ es v out Hi' Ei' (ex_intro _ l (list_elem_of_lookup_2 _ _ _ Hn)) Hl) as [Hl' Hc'].
    exists (v :: out), err. split_and!; [|done|auto|done].
    eapply (yields_step (H := dd_iterator)); [exact En|exact Ev| |exact Hy]. cbn. by destruct Hi' as (-> & _).
Qed.

(** ** [ScanFrom] *)
Lemma after_bound_spec after k : is_bytes k -> k <> [] -> bytes_leb (after_bound after) k = bytes_ltb after k.
Proof.
  destruct after as [|a after]; [by destruct k|]. intros Hk _. cbn [after_bound]. revert k Hk. generalize (a :: after). clear.
  intros l. induction l as [|x l IH]; intros [|y k] Hk; try done; apply Forall_cons in Hk as [Hy Hk].
  - unfold bytes_leb, bytes_ltb; cbn [app bytes_compare]. unfold is_byte in Hy. destruct (Z.compare_spec 0 y); [by destruct k|done|lia].
  - specialize (IH k Hk). unfold bytes_leb, bytes_ltb in *. cbn. by destruct (x ?= y).
Qed.

Lemma fixed_digits_bytes n v : is_bytes (fixed_digits n v).
Proof.
  revert v; induction n as [|n IH]; intros v; [constructor|]. cbn. apply Forall_app. split; [apply IH|].
  repeat constructor; unfold is_byte; pose proof (Z.mod_pos_bound v 10 ltac:(lia)); lia.
Qed.
(** Nonempty IDs and [uint32] times: what the normalizer captures. *)
Definition event_ok (e : StoreChangeEvent) : Prop := is_cluster_time (evt_ClusterTime e) /\ evt_EventID e <> "".

Lemma FormatBufferKey_bytes c i : is_cluster_time c -> is_bytes (FormatBufferKey c i).
Proof.
  intros [Ht Hi]. unfold FormatBufferKey. rewrite !formatUint32_fixed by done.
  repeat (apply is_bytes_app; [first [apply fixed_digits_bytes|repeat constructor; by unfold is_byte]|]). apply bytes_of_string_bytes.
Qed.
Lemma FormatBufferKey_head c i : is_cluster_time c -> exists b l, FormatBufferKey c i = b :: l /\ 48 <= b.
Proof.
  intros [Ht Hi]. unfold FormatBufferKey. rewrite !formatUint32_fixed by done.
  assert (forall n v, exists b l, fixed_digits (S n) v = b :: l /\ 48 <= b) as H.
  { induction n as [|n IH]; intros v.
    - cbn. exists (48 + v mod 10), []. pose proof (Z.mod_pos_bound v 10 ltac:(lia)). split; [done|lia].
    - destruct (IH (v / 10)) as (b & l & E & Hb). cbn in *. rewrite E. by eexists _, _. }
  destruct (H 9%nat (ct_T c)) as (b & l & -> & Hb). by eexists _, _.
Qed.

(** Event keys are not metadata: those start with [!]. *)
Lemma isMetadataKey_head k : isMetadataKey k = true -> exists l, k = 33 :: l.
Proof.
  unfold isMetadataKey. rewrite !orb_true_iff, !bytes_eqb_eq. intros [[[->| ->]| ->]| ->]; by eexists.
Qed.
Lemma event_key_not_metadata c i : is_cluster_time c -> isMetadataKey (FormatBufferKey c i) = false.
Proof.
  intros Hc. destruct (isMetadataKey _) eqn:E; [|done]. apply isMetadataKey_head in E as [l E].
  destruct (FormatBufferKey_head c i Hc) as (b & l' & E' & Hb). rewrite E' in E. injection E as -> ->. lia.
Qed.

(** The rows of the events are those of the metadata's complement; they decode to
    events with their keys. *)
Definition wf_content (m : gmap bytes bytes) : Prop :=
  forall k v, m !! k = Some v -> isMetadataKey k = false ->
  exists e, storable e /\ event_ok e /\ BufferKey e = k /\ MarshalEvent e = Ok v.
Definition wf_request (r : writeRequest) : Prop :=
  exists e t, req_event r = Some e /\ req_token r = Some t /\ t <> [] /\ storable e /\ event_ok e /\
    req_key r = BufferKey e /\ MarshalEvent e = Ok (req_value r).

Lemma stored_key e : BufferKey (stored e) = BufferKey e.
Proof. unfold BufferKey. by rewrite stored_time, stored_id. Qed.

Lemma BufferKey_nonempty e : event_ok e -> BufferKey e <> [].
Proof. intros [H _]. unfold BufferKey. destruct (FormatBufferKey_head _ (evt_EventID e) H) as (b & l & -> & _). done. Qed.
Lemma BufferKey_bytes e : event_ok e -> is_bytes (BufferKey e).
Proof. intros [H _]. by apply FormatBufferKey_bytes. Qed.

(** What the disk part of a scan yields. *)
Lemma disk_run_spec m err rows :
  wf_content m -> StronglySorted row_lt rows -> (forall x, x ∈ rows -> m !! x.1 = Some x.2) ->
  let '(l, e) := disk_run err rows in
  e = DBFailure <$> err /\ StronglySorted item_le l /\ Forall keyed l /\
  (forall k v, (k, v) ∈ l -> exists e, v = stored e /\ storable e /\ event_ok e /\ exists x, (k, x) ∈ rows /\ MarshalEvent e = Ok x) /\
  (forall x, x ∈ rows -> isMetadataKey x.1 = false -> exists v, (x.1, v) ∈ l) /\
  (forall x, x ∈ l -> exists y, y ∈ rows /\ y.1 = x.1).
Proof.
  intros Hm Hs Hr. induction Hs as [|[k v] rows Hs IH Hx]; cbn [disk_run].
  { split_and!; try constructor; intros; exfalso; by eapply not_elem_of_nil. }
  specialize (IH ltac:(intros; apply Hr; by right)). destruct (disk_run err rows) as [l e].
  destruct IH as (He & Hl & Hk & H1 & H2 & H3). destruct (isMetadataKey k) eqn:Ek.
  { split_and!; auto.
    - intros k' v' H. destruct (H1 k' v' H) as (e' & ? & ? & ? & x & ? & ?). exists e'. split_and!; try done. exists x. split; [by right|done].
    - intros x [->|Hi]%elem_of_cons Hm'; [cbn in Hm'; congruence|auto].
    - intros x Hi. destruct (H3 x Hi) as (y & ? & ?). exists y. split; [by right|done]. }
  destruct (Hm k v (Hr (k, v) ltac:(by left)) Ek) as (ev & Hst & Hok & HK & HM).
  rewrite (codec_law ev v Hst HM). split_and!; auto.
  - constructor; [done|]. apply Forall_forall. intros x Hi. destruct (H3 x Hi) as (y & Hy & E).
    rewrite Forall_forall in Hx. specialize (Hx y Hy). unfold row_lt in Hx. cbn in Hx. unfold item_le. cbn. by rewrite <- E, Hx.
  - constructor; [|done]. unfold keyed; cbn [fst snd]. by rewrite stored_key.
  - intros k' v' [[= -> ->]|H]%elem_of_cons.
    + exists ev. split_and!; try done. exists v. split; [by left|done].
    + destruct (H1 k' v' H) as (e' & ? & ? & ? & x & ? & ?). exists e'. split_and!; try done. exists x. split; [by right|done].
  - intros x [->|Hi]%elem_of_cons Hm'; [eexists; by left|]. destruct (H2 x Hi Hm') as [w Hw]. exists w. by right.
  - intros x [->|Hi]%elem_of_cons; [eexists; split; [by left|done]|]. destruct (H3 x Hi) as (y & ? & ?). exists y. split; [by right|done].
Qed.

(** What the queue part of a scan yields. *)
Lemma snapshot_spec b after :
  Forall wf_request (b_flushing b ++ b_pending b) ->
  let l := sl_items (newSnapshotIterator b after) in
  StronglySorted item_le l /\ Forall keyed l /\
  (forall k e, (k, e) ∈ l -> bytes_compare after k = Lt /\ exists r, r ∈ b_flushing b ++ b_pending b /\ req_event r = Some e) /\
  (forall r, r ∈ b_flushing b ++ b_pending b -> bytes_compare after (req_key r) = Lt -> exists e, (req_key r, e) ∈ l).
Proof.
  intros Hq. unfold newSnapshotIterator. cbn [sl_items].
  set (keep := fun req => match req_event req with Some _ => bytes_ltb after (req_key req) | None => false end).
  set (q := List.filter keep _). set (less := fun x y => bytes_ltb (req_key x) (req_key y)).
  pose proof (insertion_sort_perm less q) as Hp.
  pose proof (insertion_sort_sorted less q (bytes_ltb_strict_weak req_key)) as Hs.
  assert (Hin : forall r, r ∈ insertion_sort less q <-> r ∈ b_flushing b ++ b_pending b /\ keep r = true).
  { intros r. rewrite Hp. unfold q. by rewrite list_elem_of_In, filter_In, <- list_elem_of_In. }
  assert (Hw : forall r, r ∈ insertion_sort less q -> wf_request r).
  { intros r [Hr _]%Hin. rewrite Forall_forall in Hq. by apply Hq. }
  set (f := fun req => (fun e => (req_key req, e)) <$> req_event req).
  assert (Hitem : forall k e, (k, e) ∈ omap f (insertion_sort less q) <-> exists r, r ∈ insertion_sort less q /\ req_event r = Some e /\ k = req_key r).
  { intros k e. rewrite list_elem_of_omap. split.
    - intros (r & Hr & E). exists r. split; [done|]. unfold f in E. by apply fmap_Some in E as (e' & -> & [= -> ->]).
    - intros (r & Hr & E & ->). exists r. split; [done|]. unfold f. by rewrite E. }
  split_and!.
  - clear Hitem Hin Hp. induction Hs as [|r l Hs IH Hx]; cbn; [constructor|].
    specialize (IH ltac:(intros; apply Hw; by right)). destruct (f r) as [[k e]|] eqn:E; [|done]. constructor; [done|].
    unfold f in E. apply fmap_Some in E as (e' & _ & [= -> ->]).
    apply Forall_forall. intros [k' e''] H. apply list_elem_of_omap in H as (r' & Hr' & E').
    unfold f in E'. apply fmap_Some in E' as (e3 & _ & [= -> ->]).
    rewrite Forall_forall in Hx. specialize (Hx r' Hr'). by apply key_le_not_lt.
  - apply Forall_forall. intros [k e] (r & Hr & E & ->)%Hitem. destruct (Hw r Hr) as (e' & t & E' & _ & _ & _ & _ & Hk & _).
    unfold keyed; cbn [fst snd]. congruence.
  - intros k e (r & Hr & E & ->)%Hitem. apply Hin in Hr as [Hr Hkeep]. unfold keep in Hkeep. rewrite E in Hkeep.
    apply bytes_ltb_lt in Hkeep. split; [done|]. by exists r.
  - intros r Hr Hlt. rewrite Forall_forall in Hq. destruct (Hq r Hr) as (e & t & E & _).
    exists e. apply Hitem. exists r. split; [|done]. apply Hin. split; [done|]. unfold keep. rewrite E. by apply bytes_ltb_lt.
Qed.

(** The events a scan may show: those queued, and those of the database as they
    are read back. *)
Definition shown (b : Buffer) (e : StoreChangeEvent) : Prop :=
  (exists r, r ∈ b_flushing b ++ b_pending b /\ req_event r = Some e) \/
  (exists e0 v, e = stored e0 /\ storable e0 /\ event_ok e0 /\ content (b_db b) !! BufferKey e0 = Some v /\ MarshalEvent e0 = Ok v).
Definition present (b : Buffer) (k : bytes) : Prop :=
  (exists r, r ∈ b_flushing b ++ b_pending b /\ req_key r = k) \/ (is_Some (content (b_db b) !! k) /\ isMetadataKey k = false).

Lemma scan_stream b after it :
  wf_content (content (b_db b)) -> Forall wf_request (b_flushing b ++ b_pending b) -> ScanFrom b after = Ok it ->
  exists out err, yields it out err /\ StronglySorted evt_lt out /\
    (forall e, e ∈ out -> bytes_compare after (BufferKey e) = Lt /\ shown b e) /\
    (err = None -> forall k, bytes_compare after k = Lt -> present b k -> exists e, e ∈ out /\ BufferKey e = k).
Proof.
  intros Hc Hq. unfold ScanFrom. destruct (b_closed b); [done|].
  destruct (db_Iter _ _ _) as [[[rows e] c]|e] eqn:Ei; [|done]. intros [= <-].
  apply db_Iter_law in Ei as (Hs & Hr & Hall & _).
  pose proof (disk_run_spec _ e rows Hc Hs ltac:(intros x Hx; by apply Hr)) as Hd.
  pose proof (snapshot_spec b after Hq) as (Q1 & Q2 & Q3 & Q4).
  destruct (disk_run e rows) as [l le] eqn:El. destruct Hd as (-> & D1 & D2 & D3 & D4 & D5).
  assert (Hbound : forall k v, content (b_db b) !! k = Some v -> isMetadataKey k = false ->
    in_range (after_bound after) None k = true <-> bytes_compare after k = Lt).
  { intros k v Hk Hm. destruct (Hc k v Hk Hm) as (e0 & _ & Hok & <- & _). unfold in_range, below. rewrite andb_true_r.
    rewrite after_bound_spec by (by (apply BufferKey_bytes || apply BufferKey_nonempty)). by rewrite bytes_ltb_lt. }
  set (q := sl_items (newSnapshotIterator b after)) in *.
  match goal with |- context [newDeduplicatingIterator ?its] =>
    set (i := newDeduplicatingIterator its);
    assert (Hi : dd_inv i [l; q] [DBFailure <$> e; None]) end.
  { split_and!; cbn; try done; repeat (constructor; try done). }
  destruct (dd_yields _ i _ _ Hi (le_n _)) as (out & err & Hy & [Hso Hel] & Hco & Herr).
  unfold offered in Hel, Hco. cbn [dd_initialized i newDeduplicatingIterator advance map] in Hel, Hco.
  exists out, err. split_and!; [exact Hy|exact Hso| |].
  - intros ev He. destruct (Hel ev He) as (l' & Hl' & Hx). apply elem_of_cons in Hl' as [->|[->|[]%elem_of_nil]%elem_of_cons].
    + destruct (D3 _ _ Hx) as (e0 & E0 & Hst & Hok & v & Hv & HM). assert (BufferKey e0 = BufferKey ev) as EK by (subst ev; by rewrite stored_key).
      destruct (Hr _ Hv) as [Hv' Hrange]. cbn [fst snd] in Hv', Hrange. split.
      * apply (Hbound _ v Hv'); [|done]. rewrite <- EK. by apply event_key_not_metadata, Hok.
      * right. exists e0, v. by rewrite EK.
    + destruct (Q3 _ _ Hx) as [Hlt Hr']. split; [done|by left].
  - intros He k Hlt [(r & Hr' & <-)|[[v Hv] Hm]].
    + destruct (Q4 r Hr' Hlt) as [ev Hev]. destruct (Hco He q _ ltac:(set_solver) Hev) as (e' & ? & ?). by exists e'.
    + assert (e = None) as -> by (apply Herr in He as [He _]%Forall_cons; by destruct e).
      pose proof (Hall eq_refl k v Hv (proj2 (Hbound k v Hv Hm) Hlt)) as Hrow.
      destruct (D4 _ Hrow Hm) as [ev Hev]. destruct (Hco He l _ ltac:(set_solver) Hev) as (e' & ? & ?). by exists e'.
Qed.
End Scan.
