(* ===== verification/BufferMachine.v ===== *)
(** * The event buffer as a state machine

    The goroutines around the buffer and the points where they release its locks:
    capture ([Write], [SaveCheckpoint], [DeleteCheckpoint]), the batcher with the
    three parts of [flush], retention with the three parts of [pruneBefore], and the
    process, which may end at any step and open the database again. The invariant
    relates the database to the history of the writes. *)
From stdpp Require Import base list sorting gmap strings relations.
From Stdlib Require Import ZArith.
From S2P Require Import Prelude Value IndexStore Codec Projection Intervals Pebble Events Buffer BufferScan.
Local Open Scope Z_scope.

Section Machine.
Context `{PB : Pebble} {BK : PebbleBack} {EC : EventCodec}.

(** What became durable, in order. *)
Inductive entry := Written (r : writeRequest) | Saved (token : bytes) | Forgotten.

(** The batcher: between flushes, with a batch taken, after its commit, or
    returned after a failure. *)
Inductive flush_phase := FIdle | FTaken | FCommitted (applied : bool) (err : option buffer_error) | FStopped.
(** The holder of the retention lock: none, with its cutoff, or with its batch. *)
Inductive prune_phase := PIdle | PChosen (beforeKey : bytes) | PBatched (batch : list batch_op) (count : Z).

(** [log] and [history] are not in the program: the durable entries, and the
    writes accepted, those before a restart only if they were durable then. *)
Record sys := {
  s_buf : Buffer; s_flush : flush_phase; s_prune : prune_phase;
  s_log : list entry; s_history : list writeRequest;
}.
Implicit Types s : sys.

Definition s_content s : gmap bytes bytes := content (b_db (s_buf s)).
Definition set_buf s (b : Buffer) : sys :=
  {| s_buf := b; s_flush := s_flush s; s_prune := s_prune s; s_log := s_log s; s_history := s_history s |}.
Definition set_flush s (b : Buffer) (f : flush_phase) (log : list entry) : sys :=
  {| s_buf := b; s_flush := f; s_prune := s_prune s; s_log := log; s_history := s_history s |}.
Definition set_prune s (b : Buffer) (p : prune_phase) : sys :=
  {| s_buf := b; s_flush := s_flush s; s_prune := p; s_log := s_log s; s_history := s_history s |}.
Definition log_entry s (b : Buffer) (e : entry) : sys := set_flush s b (s_flush s) (s_log s ++ [e]).

Definition writes (log : list entry) : list writeRequest :=
  omap (fun e => match e with Written r => Some r | _ => None end) log.

(** ** Steps *)

(** Capture and the batcher, which do not take the retention lock. *)
Inductive capture_step s : sys -> Prop :=
| step_write evt token c1 c2 b :
    storable evt -> event_ok evt -> Write (s_buf s) evt token c1 c2 = Done (b, None) ->
    capture_step s {| s_buf := b; s_flush := s_flush s; s_prune := s_prune s; s_log := s_log s;
                      s_history := s_history s ++ drop (length (b_pending (s_buf s))) (b_pending b) |}
| step_wake notified :
    capture_step s (set_buf s (set_queues (s_buf s) (b_pending (s_buf s)) (b_flushing (s_buf s)) notified))
| step_take b :
    s_flush s = FIdle -> flush_take (s_buf s) = Some b -> capture_step s (set_flush s b FTaken (s_log s))
| step_commit d err batch :
    s_flush s = FTaken -> flush_commit (b_db (s_buf s)) (b_flushing (s_buf s)) = (d, err) ->
    flush_batch (b_db (s_buf s)) (b_flushing (s_buf s)) = Ok batch -> content d = apply_ops (s_content s) batch ->
    capture_step s (set_flush s (set_db (s_buf s) d) (FCommitted true err) (s_log s ++ map Written (b_flushing (s_buf s))))
| step_commit_lost d err :
    s_flush s = FTaken -> flush_commit (b_db (s_buf s)) (b_flushing (s_buf s)) = (d, Some err) -> content d = s_content s ->
    capture_step s (set_flush s (set_db (s_buf s) d) (FCommitted false (Some err)) (s_log s))
| step_finish applied err :
    s_flush s = FCommitted applied err ->
    capture_step s (set_flush s (flush_finish (s_buf s) err) (match err with Some _ => FStopped | None => FIdle end) (s_log s))
| step_save token b e :
    b_closed (s_buf s) = false -> token <> [] -> queued (s_buf s) = 0 ->
    SaveCheckpoint (s_buf s) (Some token) = (b, e) -> content (b_db b) = <[checkpointKey := token]> (s_content s) ->
    capture_step s (log_entry s b (Saved token))
| step_save_lost token b e :
    SaveCheckpoint (s_buf s) token = (b, e) -> content (b_db b) = s_content s -> capture_step s (set_buf s b)
| step_forget b e :
    DeleteCheckpoint (s_buf s) = (b, e) -> content (b_db b) = delete checkpointKey (s_content s) ->
    capture_step s (log_entry s b Forgotten)
| step_forget_lost b e :
    DeleteCheckpoint (s_buf s) = (b, e) -> content (b_db b) = s_content s -> capture_step s (set_buf s b)
| step_close : capture_step s (set_buf s (Close_begin (s_buf s))).

(** Retention. *)
Inductive retention_step s : sys -> Prop :=
| step_force beforeKey :
    s_prune s = PIdle -> b_closed (s_buf s) = false -> retention_step s (set_prune s (s_buf s) (PChosen beforeKey))
| step_protect beforeKey age group :
    s_prune s = PIdle -> b_closed (s_buf s) = false ->
    protected_group (b_db (s_buf s)) beforeKey age = Ok group -> group <> [] ->
    retention_step s (set_prune s (s_buf s) (PChosen (min_key beforeKey group)))
| step_batch beforeKey batch count :
    s_prune s = PChosen beforeKey -> b_closed (s_buf s) = false ->
    prune_batch (b_db (s_buf s)) beforeKey = Ok (Some (batch, count)) ->
    retention_step s (set_prune s (s_buf s) (PBatched batch count))
| step_prune batch count d r :
    s_prune s = PBatched batch count -> prune_commit (b_db (s_buf s)) batch count = (d, r) ->
    retention_step s (set_prune s (set_db (s_buf s) d) PIdle)
| step_release : retention_step s (set_prune s (s_buf s) PIdle).

(** The bytes of [rand.Read]. *)
Definition token_ok (token : res string bytes) : Prop := match token with Ok t => is_bytes t | Err _ => True end.
(** [New], tried until it succeeds, on a database with this content. *)
Inductive opens (m : gmap bytes bytes) (b : Buffer) : Prop :=
| opens_ok d opts token d' : content d = m -> token_ok token -> New opts d token = (d', Ok b) -> opens m b
| opens_retry d opts token d' e : content d = m -> token_ok token -> New opts d token = (d', Err e) -> opens (content d') b -> opens m b.

Definition opened (b : Buffer) (log : list entry) : sys :=
  {| s_buf := b; s_flush := FIdle; s_prune := PIdle; s_log := log; s_history := writes log |}.

Inductive step s : sys -> Prop :=
| step_capture s' : capture_step s s' -> step s s'
| step_retention s' : retention_step s s' -> step s s'
| step_restart b : opens (s_content s) b -> step s (opened b (s_log s)).

Definition reachable s : Prop := exists b, opens ∅ b /\ rtc step (opened b []) s.

(** ** The commits have no other outcomes *)
Lemma flush_commit_cases d reqs d' err : flush_commit d reqs = (d', err) ->
  (exists batch, flush_batch d reqs = Ok batch /\ content d' = apply_ops (content d) batch) \/
  (is_Some err /\ content d' = content d).
Proof.
  unfold flush_commit. destruct (flush_batch d reqs) as [batch|e]; [|intros [= <- <-]; right; by split].
  pose proof (batch_Commit_law d batch) as Hl. destruct (batch_Commit d batch) as [d1 e1]; cbn in Hl.
  intros [= <- <-]. destruct Hl as [Hl|[Hl [e ->]]]; [left; by exists batch|right; by split].
Qed.

Lemma batch_adds_ok d batch ops batch' : batch_adds d batch ops = Ok batch' -> batch' = batch ++ ops.
Proof.
  revert batch; induction ops as [|op ops IH]; intros batch; cbn; [intros [= <-]; by rewrite app_nil_r|].
  destruct (batch_Add d batch op); [done|]. intros H. rewrite (IH _ H), <- app_assoc. done.
Qed.

Lemma applyBatch_cases d ops d' e : applyBatch d (batch_adds d [] ops) = (d', e) ->
  content d' = apply_ops (content d) ops \/ (is_Some e /\ content d' = content d).
Proof.
  unfold applyBatch. destruct (batch_adds d [] ops) as [batch|er] eqn:E; [|intros [= <- <-]; right; by split].
  apply batch_adds_ok in E as ->. cbn [app]. pose proof (batch_Commit_law d ops) as Hl.
  destruct (batch_Commit d ops) as [d1 e1]; cbn in Hl. intros [= <- <-]. destruct Hl as [Hl|[Hl [er ->]]]; [by left|right; by split].
Qed.

(** Every outcome of the operations is a step. *)
Lemma flush_steps s d err : s_flush s = FTaken -> flush_commit (b_db (s_buf s)) (b_flushing (s_buf s)) = (d, err) ->
  exists applied log, capture_step s (set_flush s (set_db (s_buf s) d) (FCommitted applied err) log).
Proof.
  intros Hp Hc. destruct (flush_commit_cases _ _ _ _ Hc) as [(batch & Hb & Hd)|[[e ->] Hd]];
    eexists _, _; [by eapply step_commit|by eapply step_commit_lost].
Qed.
Lemma save_steps s token b e : SaveCheckpoint (s_buf s) token = (b, e) ->
  exists log, capture_step s (set_flush s b (s_flush s) log).
Proof.
  intros Hs. assert (content (b_db b) = s_content s -> exists log, capture_step s (set_flush s b (s_flush s) log)) as Hl.
  { intros Hc. exists (s_log s). exact (step_save_lost s token b e Hs Hc). }
  pose proof Hs as Hs'. unfold SaveCheckpoint in Hs'. destruct (b_closed (s_buf s)) eqn:Ec; [apply Hl; by injection Hs' as <- <-|].
  destruct token as [[|x token]|]; try (apply Hl; by injection Hs' as <- <-).
  destruct (Z.eqb_spec (queued (s_buf s)) 0) as [Hq|]; cbn [negb] in Hs'; [|apply Hl; by injection Hs' as <- <-].
  destruct (applyBatch _ _) as [d e'] eqn:Ea. injection Hs' as <- <-.
  apply applyBatch_cases in Ea as [Ha|[_ Ha]]; [|by apply Hl]. eexists. by eapply (step_save s (x :: token)).
Qed.
Lemma forget_steps s b e : DeleteCheckpoint (s_buf s) = (b, e) -> exists log, capture_step s (set_flush s b (s_flush s) log).
Proof.
  intros Hs. pose proof Hs as Hs'. unfold DeleteCheckpoint in Hs'. destruct (b_closed (s_buf s)).
  { injection Hs' as <- <-. exists (s_log s). exact (step_forget_lost s _ _ Hs eq_refl). }
  destruct (applyBatch _ _) as [d e'] eqn:Ea. injection Hs' as <- <-. apply applyBatch_cases in Ea as [Ha|[_ Ha]].
  - eexists. by eapply step_forget.
  - exists (s_log s). exact (step_forget_lost s _ _ Hs Ha).
Qed.
End Machine.
