(* ===== verification/BufferInv.v ===== *)
(** * The invariant of the event buffer

    Every reachable state of the machine: the database holds the durable writes
    that were not pruned, the checkpoint is the last durable token, and the queue
    holds the writes that follow. *)
From stdpp Require Import base list sorting gmap strings relations.
From Stdlib Require Import ZArith.
From S2P Require Import Prelude Value IndexStore Codec Projection Intervals Pebble Events Progress Buffer BufferScan BufferMachine.
Local Open Scope Z_scope.

Section Inv.
Context `{PB : Pebble} {BK : PebbleBack} {EC : EventCodec}.
Implicit Types (s : sys) (m : gmap bytes bytes).

Definition floor_of m : bytes := default [] (m !! pruningFloorKey).

(** The last token of the durable entries. *)
Definition checkpoint_of (log : list entry) : option bytes :=
  foldl (fun t e => match e with
                    | Written r => match req_token r with Some t' => Some t' | None => t end
                    | Saved t' => Some t'
                    | Forgotten => None
                    end) None log.

(** A batch of retention: it deletes events up to the floor it leaves, and the floor
    does not go back. *)
Definition prune_ok m (batch : list batch_op) : Prop :=
  (forall k w, written batch k = Some w ->
    k = pruningFloorKey \/ (w = None /\ isMetadataKey k = false /\ key_le k (floor_of (apply_ops m batch)))) /\
  key_le (floor_of m) (floor_of (apply_ops m batch)).

(** The accepted writes that are not durable. *)
Definition uncommitted s : list writeRequest :=
  match s_flush s with
  | FTaken | FCommitted false _ => b_flushing (s_buf s) ++ b_pending (s_buf s)
  | _ => b_pending (s_buf s)
  end.

(** The database against the durable entries. *)
Record durable m (log : list entry) : Prop := {
  d_log : Forall wf_request (writes log);
  d_source : forall k v, m !! k = Some v -> isMetadataKey k = false ->
    exists r, r ∈ writes log /\ req_key r = k /\ req_value r = v;
  d_kept : forall r, r ∈ writes log -> is_Some (m !! req_key r) \/ key_le (req_key r) (floor_of m);
  d_checkpoint : m !! checkpointKey = checkpoint_of log;
}.

Record inv s : Prop := {
  i_durable : durable (s_content s) (s_log s);
  i_queue : Forall wf_request (b_flushing (s_buf s) ++ b_pending (s_buf s));
  i_lineage : s_content s !! lineageKey = Some (bytes_of_string (b_lineage (s_buf s)));
  i_prune : match s_prune s with PBatched batch _ => prune_ok (s_content s) batch | _ => True end;
  i_history : match s_flush s with
              | FStopped => b_closed (s_buf s) = true /\ writes (s_log s) `prefix_of` s_history s
              | _ => s_history s = writes (s_log s) ++ uncommitted s
              end;
  i_phase : match s_flush s with
            | FIdle | FStopped => b_flushing (s_buf s) = []
            | FTaken => True
            | FCommitted true _ => b_flushing (s_buf s) ⊆ writes (s_log s)
            | FCommitted false err => is_Some err
            end;
  i_bound : queued (s_buf s) <= b_queueSize (s_buf s) /\ 0 < b_batchSize (s_buf s);
}.

(** ** Batches *)
Lemma written_requests reqs k w :
  written (map (fun req => BatchSet (req_key req) (req_value req)) reqs) k = Some w ->
  exists r, r ∈ reqs /\ req_key r = k /\ w = Some (req_value r).
Proof.
  induction reqs as [|r reqs IH]; [done|]. cbn [map]. rewrite written_cons.
  destruct (written (map _ reqs) k) as [w'|] eqn:E.
  - intros [= ->]. destruct (IH eq_refl) as (r' & Hr & H). exists r'. split; [by right|done].
  - cbn. case_bool_decide; [|done]. intros [= <-]. exists r. split_and!; [by left|done|done].
Qed.
Lemma written_requests_some reqs r :
  r ∈ reqs -> is_Some (written (map (fun req => BatchSet (req_key req) (req_value req)) reqs) (req_key r)).
Proof.
  induction reqs as [|r' reqs IH]; [by intros ?%elem_of_nil|]. cbn [map]. rewrite written_cons.
  destruct (written (map _ reqs) (req_key r)) eqn:E; [done|]. intros [->|Hr]%elem_of_cons; [cbn; by rewrite bool_decide_true|].
  destruct (IH Hr) as [? H]. done.
Qed.

Lemma wf_request_key r : wf_request r -> isMetadataKey (req_key r) = false.
Proof. intros (e & t & _ & _ & _ & _ & Hok & -> & _). by apply event_key_not_metadata, Hok. Qed.

Lemma flush_batch_written d reqs batch : Forall wf_request reqs -> flush_batch d reqs = Ok batch ->
  (forall k, isMetadataKey k = true -> written batch k = if decide (k = checkpointKey) then Some <$> checkpoint_token reqs else None) /\
  (forall k w, isMetadataKey k = false -> written batch k = Some w -> exists r, r ∈ reqs /\ req_key r = k /\ w = Some (req_value r)) /\
  (forall r, r ∈ reqs -> exists v, written batch (req_key r) = Some (Some v)).
Proof.
  intros Hw Hb. unfold flush_batch in Hb. apply bind_ok in Hb as (b1 & H1%batch_adds_ok & H2). cbn [app] in H1.
  set (sets := map _ reqs) in *. assert (batch = sets ++ match checkpoint_token reqs with Some t => [BatchSet checkpointKey t] | None => [] end) as ->.
  { destruct (checkpoint_token reqs); [apply batch_adds_ok in H2 as ->|injection H2 as <-]; by rewrite H1, ?app_nil_r. }
  assert (Hm : forall k, isMetadataKey k = true -> written sets k = None).
  { intros k Hk. destruct (written sets k) as [w|] eqn:E; [|done]. apply written_requests in E as (r & Hr & <- & _).
    rewrite Forall_forall in Hw. by rewrite (wf_request_key r (Hw r Hr)) in Hk. }
  assert (Hc : forall k, written (match checkpoint_token reqs with Some t => [BatchSet checkpointKey t] | None => [] end) k =
    if decide (k = checkpointKey) then Some <$> checkpoint_token reqs else None).
  { intros k. destruct (checkpoint_token reqs) as [t|]; cbn; [|by destruct (decide _)].
    case_bool_decide as Ek; [subst k; by rewrite decide_True|by rewrite decide_False]. }
  split_and!.
  - intros k Hk. rewrite written_app, Hc, Hm by done. by destruct (decide _), (checkpoint_token reqs).
  - intros k w Hk. rewrite written_app, Hc, decide_False by (by intros ->). apply written_requests.
  - intros r Hr. assert (isMetadataKey (req_key r) = false) as Hk by (rewrite Forall_forall in Hw; by apply wf_request_key, Hw).
    rewrite written_app, Hc, decide_False by (intros E; by rewrite E in Hk).
    destruct (written_requests_some reqs r Hr) as [w E]. pose proof E as E'.
    apply written_requests in E' as (r' & _ & _ & ->). by exists (req_value r').
Qed.

Lemma checkpoint_of_app log log' :
  checkpoint_of (log ++ log') = foldl (fun t e => match e with
    | Written r => match req_token r with Some t' => Some t' | None => t end | Saved t' => Some t' | Forgotten => None end) (checkpoint_of log) log'.
Proof. unfold checkpoint_of. by rewrite foldl_app. Qed.
Lemma checkpoint_token_from t reqs :
  foldl (fun t req => match req_token req with Some t' => Some t' | None => t end) t reqs =
  match checkpoint_token reqs with Some t' => Some t' | None => t end.
Proof.
  unfold checkpoint_token. revert t. induction reqs as [|r reqs IH]; intros t; cbn; [done|].
  rewrite (IH (match req_token r with Some t' => Some t' | None => t end)), (IH (match req_token r with Some t' => Some t' | None => None end)).
  by destruct (foldl _ None reqs), (req_token r).
Qed.
Lemma checkpoint_of_writes log reqs :
  checkpoint_of (log ++ map Written reqs) = match checkpoint_token reqs with Some t => Some t | None => checkpoint_of log end.
Proof.
  rewrite checkpoint_of_app, <- checkpoint_token_from. generalize (checkpoint_of log).
  induction reqs as [|r reqs IH]; intros t; cbn; [done|]. apply IH.
Qed.
Lemma writes_app log log' : writes (log ++ log') = writes log ++ writes log'.
Proof. apply omap_app. Qed.
Lemma writes_map reqs : writes (map Written reqs) = reqs.
Proof. induction reqs as [|r reqs IH]; cbn; [done|]. by f_equal. Qed.

(** Retention's batches. *)
Lemma prune_ok_floor m m' batch : m' !! pruningFloorKey = m !! pruningFloorKey -> prune_ok m batch -> prune_ok m' batch.
Proof.
  intros E [H1 H2]. assert (floor_of (apply_ops m' batch) = floor_of (apply_ops m batch)) as EF.
  { unfold floor_of. by rewrite !apply_ops_lookup, E. }
  split; rewrite EF; [done|]. unfold floor_of. by rewrite E.
Qed.

Lemma event_keys_elem rows k : k ∈ event_keys rows <-> (exists v, (k, v) ∈ rows) /\ isMetadataKey k = false.
Proof.
  unfold event_keys. rewrite list_elem_of_In, filter_In, <- list_elem_of_In, negb_true_iff. split.
  - intros [([k' v] & -> & Hr)%list_elem_of_fmap Hk]. split; [by exists v|done].
  - intros [[v Hr] Hk]. split; [|done]. by apply (list_elem_of_fmap_2 fst) in Hr.
Qed.
Lemma event_keys_sorted rows : StronglySorted row_lt rows -> StronglySorted (fun a b => bytes_compare a b = Lt) (event_keys rows).
Proof.
  induction 1 as [|[k v] rows Hs IH Hx]; [constructor|]. unfold event_keys in *. cbn. destruct (isMetadataKey k); [done|]. cbn.
  constructor; [done|]. apply Forall_forall. intros k' Hk'. fold (event_keys rows) in Hk'. apply event_keys_elem in Hk' as [[v' Hv] _].
  rewrite Forall_forall in Hx. exact (Hx _ Hv).
Qed.
Lemma sorted_last (l : list bytes) f k :
  StronglySorted (fun a b => bytes_compare a b = Lt) l -> last l = Some f -> k ∈ l -> key_le k f.
Proof.
  induction 1 as [|x l Hs IH Hx]; intros Hl; [done|]. destruct l as [|y l].
  - injection Hl as ->. intros ->%list_elem_of_singleton. apply key_le_refl.
  - intros [->|Hk]%elem_of_cons; [|by apply IH]. rewrite Forall_forall in Hx.
    assert (f ∈ y :: l) as Hf by (apply last_Some_elem_of; exact Hl). specialize (Hx f Hf). unfold key_le. by rewrite Hx.
Qed.

Lemma pruningFloor_ok d f : pruningFloor d = Ok f -> f = floor_of (content d).
Proof.
  unfold pruningFloor, floor_of. destruct (db_Get d pruningFloorKey) as [r|] eqn:E; [|done]. apply db_Get_law in E as <-.
  destruct r as [[v c]|]; by intros [= <-].
Qed.

Lemma advance_ok d keys floor batch :
  advancePruningFloor d (map BatchDelete keys) floor = Ok batch ->
  (forall k, k ∈ keys -> isMetadataKey k = false /\ key_le k floor) ->
  prune_ok (content d) batch /\
  (forall k, k <> pruningFloorKey -> written batch k = if bool_decide (k ∈ keys) then Some None else None) /\
  (exists f, floor_of (apply_ops (content d) batch) = f /\ key_le floor f).
Proof.
  intros Ha Hk. unfold advancePruningFloor in Ha. apply bind_ok in Ha as (f & Hf%pruningFloor_ok & Ha).
  assert (pruningFloorKey ∉ keys) as Hn by (intros H; destruct (Hk _ H); discriminate).
  assert (written (map BatchDelete keys) pruningFloorKey = None) as Hw by (rewrite written_deletes, bool_decide_false; done).
  destruct (bytes_leb floor f) eqn:E.
  - injection Ha as <-. apply bytes_leb_le in E.
    assert (floor_of (apply_ops (content d) (map BatchDelete keys)) = floor_of (content d)) as EF.
    { unfold floor_of. by rewrite apply_ops_lookup, Hw. }
    split_and!; [|intros; apply written_deletes|exists f; by rewrite EF]. split; rewrite EF; [|apply key_le_refl].
    intros k w Hk'. rewrite written_deletes in Hk'. case_bool_decide as Hi; [|done]. injection Hk' as <-. right.
    destruct (Hk k Hi). split_and!; [done|done|]. rewrite <- Hf. by eapply key_le_trans.
  - apply batch_adds_ok in Ha as ->.
    assert (floor_of (apply_ops (content d) (map BatchDelete keys ++ [BatchSet pruningFloorKey floor])) = floor) as EF.
    { unfold floor_of. rewrite apply_ops_lookup, written_app. done. }
    assert (Hwr : forall k, k <> pruningFloorKey -> written (map BatchDelete keys ++ [BatchSet pruningFloorKey floor]) k = if bool_decide (k ∈ keys) then Some None else None).
    { intros k Hne. rewrite written_app, written_deletes.
      change (written [BatchSet pruningFloorKey floor] k) with (if bool_decide (pruningFloorKey = k) then Some (Some floor) else None).
      by rewrite (bool_decide_false (pruningFloorKey = k)) by congruence. }
    split_and!; [|done|exists floor; split; [exact EF|apply key_le_refl]]. split; rewrite EF.
    + intros k w Hk'. destruct (decide (k = pruningFloorKey)) as [->|Hne]; [by left|right]. rewrite Hwr in Hk' by done.
      case_bool_decide as Hi; [|done]. injection Hk' as <-. by destruct (Hk k Hi).
    + rewrite <- Hf. apply key_lt_le. rewrite bytes_leb_ltb in E. by apply negb_false_iff in E.
Qed.

(** The batch of [deleteBeforeLocked]: the events below the cutoff. *)
Lemma prune_batch_ok d before batch count : prune_batch d before = Ok (Some (batch, count)) ->
  prune_ok (content d) batch /\
  exists keys, count = Z.of_nat (length keys) /\ NoDup keys /\
    (forall k, k ∈ keys <-> is_Some (content d !! k) /\ isMetadataKey k = false /\ bytes_compare k before = Lt) /\
    (forall k, k <> pruningFloorKey -> written batch k = if bool_decide (k ∈ keys) then Some None else None) /\
    (exists f, last keys = Some f /\ key_le f (floor_of (apply_ops (content d) batch))).
Proof.
  unfold prune_batch. destruct (db_Iter _ _ _) as [[[rows e] c]|] eqn:Ei; [|done]. intros (b1 & H1%batch_adds_ok & H)%bind_ok.
  cbn [app] in H1. subst b1. apply db_Iter_law in Ei as (Hs & Hr & Hall & _). destruct e; [done|].
  destruct (last (event_keys rows)) as [f|] eqn:El; [|done]. apply bind_ok in H as (b2 & H2 & [= -> <-]).
  pose proof (event_keys_sorted rows Hs) as Hks.
  destruct (advance_ok d (event_keys rows) f batch H2) as (Hok & Hw & f' & Hf' & Hle).
  { intros k Hk. split; [by apply event_keys_elem in Hk as [_ ?]|by eapply sorted_last]. }
  split; [done|]. exists (event_keys rows). split_and!; [done| | |done|].
  - clear -Hks. induction Hks as [|x l Hs IH Hx]; constructor; [|done]. intros Hin. rewrite Forall_forall in Hx.
    specialize (Hx x Hin). by rewrite bytes_compare_refl in Hx.
  - intros k. rewrite event_keys_elem. split.
    + intros [[v Hv] Hk]. destruct (Hr _ Hv) as [Hc Hi]. cbn in *. split_and!; [by eexists|done|].
      unfold in_range in Hi. apply andb_true_iff in Hi as [_ Hi]. by apply bytes_ltb_lt.
    + intros ([v Hv] & Hk & Hlt). split; [|done]. exists v. apply Hall; [done|done|]. unfold in_range.
      assert (bytes_leb [] k = true) as -> by (apply bytes_leb_le, bytes_nil_le). by apply bytes_ltb_lt.
  - exists f. split; [done|]. by rewrite Hf'.
Qed.

(** ** What the commits do to the database *)
Lemma durable_flush m log d reqs batch :
  Forall wf_request reqs -> flush_batch d reqs = Ok batch -> durable m log ->
  durable (apply_ops m batch) (log ++ map Written reqs) /\
  (forall k, isMetadataKey k = true -> k <> checkpointKey -> apply_ops m batch !! k = m !! k).
Proof.
  intros Hw Hb [D1 D2 D3 D4]. destruct (flush_batch_written d reqs batch Hw Hb) as (W1 & W2 & W3).
  assert (Hmeta : forall k, isMetadataKey k = true -> k <> checkpointKey -> apply_ops m batch !! k = m !! k).
  { intros k Hk Hne. by rewrite apply_ops_lookup, W1, decide_False. }
  split; [|done]. split; rewrite ?writes_app, ?writes_map.
  - by apply Forall_app.
  - intros k v Hv Hk. rewrite apply_ops_lookup in Hv. destruct (written batch k) as [w|] eqn:E.
    + destruct (W2 k w Hk E) as (r & Hr & E1 & ->). cbn in Hv. injection Hv as <-. exists r. split; [apply elem_of_app; by right|done].
    + destruct (D2 k v Hv Hk) as (r & Hr & ?). exists r. split; [apply elem_of_app; by left|done].
  - intros r [Hr|Hr]%elem_of_app.
    + unfold floor_of. rewrite (Hmeta pruningFloorKey) by done. destruct (D3 r Hr) as [Hs|Hf]; [left|by right].
      rewrite apply_ops_lookup. destruct (written batch (req_key r)) as [w|] eqn:E; [|done].
      rewrite Forall_forall in D1. destruct (W2 _ w (wf_request_key r (D1 r Hr)) E) as (r' & _ & _ & ->). done.
    + left. rewrite apply_ops_lookup. destruct (W3 r Hr) as [v ->]. done.
  - rewrite apply_ops_lookup, W1, checkpoint_of_writes by done. rewrite decide_True by done. by destruct (checkpoint_token reqs).
Qed.

Lemma durable_checkpoint m m' log e :
  durable m log -> writes [e] = [] -> m' !! checkpointKey = checkpoint_of (log ++ [e]) ->
  (forall k, k <> checkpointKey -> m' !! k = m !! k) -> durable m' (log ++ [e]).
Proof.
  intros [D1 D2 D3 D4] He Hc Hm. split; rewrite ?writes_app, ?He, ?app_nil_r; [done| | |done].
  - intros k v Hv Hk. rewrite Hm in Hv by (by intros ->). by apply D2.
  - intros r Hr. rewrite Forall_forall in D1. assert (req_key r <> checkpointKey) as Hne.
    { intros E. pose proof (wf_request_key r (D1 r Hr)) as H. by rewrite E in H. }
    unfold floor_of. rewrite !Hm by done. by apply D3.
Qed.

Lemma durable_meta m m' log :
  durable m log -> (forall k, k <> formatKey -> k <> lineageKey -> m' !! k = m !! k) -> durable m' log.
Proof.
  intros [D1 D2 D3 D4] Hm. split; [done| | |].
  - intros k v Hv Hk. rewrite Hm in Hv by (by intros ->). by apply D2.
  - intros r Hr. rewrite Forall_forall in D1. pose proof (wf_request_key r (D1 r Hr)) as Hk.
    unfold floor_of. rewrite !Hm by (done || (intros E; by rewrite E in Hk)). by apply D3.
  - by rewrite Hm.
Qed.

Lemma durable_prune m log batch : durable m log -> prune_ok m batch ->
  durable (apply_ops m batch) log /\
  (forall k, isMetadataKey k = true -> k <> pruningFloorKey -> apply_ops m batch !! k = m !! k).
Proof.
  intros [D1 D2 D3 D4] [P1 P2].
  assert (Hmeta : forall k, isMetadataKey k = true -> k <> pruningFloorKey -> apply_ops m batch !! k = m !! k).
  { intros k Hk Hne. rewrite apply_ops_lookup. destruct (written batch k) as [w|] eqn:E; [|done].
    destruct (P1 k w E) as [?|(_ & ? & _)]; [done|congruence]. }
  split; [|done]. split; [done| | |by rewrite Hmeta].
  - intros k v Hv Hk. rewrite apply_ops_lookup in Hv. destruct (written batch k) as [w|] eqn:E; [|by apply D2].
    destruct (P1 k w E) as [->|(-> & _)]; done.
  - intros r Hr. rewrite Forall_forall in D1. pose proof (wf_request_key r (D1 r Hr)) as Hk. rewrite apply_ops_lookup.
    destruct (written batch (req_key r)) as [w|] eqn:E.
    + destruct (P1 _ w E) as [E'|(_ & _ & Hle)]; [by rewrite E' in Hk|by right].
    + destruct (D3 r Hr) as [?|Hle]; [by left|right]. by eapply key_le_trans.
Qed.

(** ** Opening *)
Lemma db_Set_cases d k v d' e : db_Set d k v = (d', e) -> (content d' = <[k := v]> (content d)) \/ (content d' = content d /\ is_Some e).
Proof. intros E. pose proof (db_Set_law d k v) as H. rewrite E in H. done. Qed.

Lemma validateFormat_content d d' e : validateFormat d = (d', e) ->
  forall k, k <> formatKey -> content d' !! k = content d !! k.
Proof.
  unfold validateFormat. intros H k Hk. repeat case_match; simplify_eq/=; try done.
  destruct (db_Set_cases _ _ _ _ _ ltac:(eassumption)) as [->|[-> _]]; [by rewrite lookup_insert_ne|done].
Qed.

Definition lineage_ok m : Prop := forall v, m !! lineageKey = Some v -> is_bytes v.

Lemma hex_encode_bytes l : is_bytes l -> is_bytes (hex_encode l).
Proof. intros H. eapply Forall_impl; [by apply hex_chars_visible|]. unfold is_byte. lia. Qed.

Lemma loadLineage_content d token d' r : loadLineage d token = (d', r) -> token_ok token -> lineage_ok (content d) ->
  (forall k, k <> lineageKey -> content d' !! k = content d !! k) /\ lineage_ok (content d') /\
  (forall v, content d !! lineageKey = Some v -> content d' !! lineageKey = Some v) /\
  (forall lineage, r = Ok lineage -> content d' !! lineageKey = Some (bytes_of_string lineage)).
Proof.
  intros H Ht Hl. unfold loadLineage in H. destruct (db_Get d lineageKey) as [[[v c]|]|e] eqn:Eg.
  - apply db_Get_law in Eg as Eg'. injection H as <- <-. split_and!; [done|done|done|]. intros lineage. destruct (_ =? 32); [|done].
    intros [= <-]. rewrite bytes_of_string_of_bytes; [done|]. by apply Hl.
  - apply db_Get_law in Eg as Eg'. cbn in Eg'.
    assert (d' = d /\ (forall lineage, r <> Ok lineage) \/ exists t e, token = Ok t /\ db_Set d lineageKey (hex_encode t) = (d', e) /\
      r = match e with Some e => Err (DBFailure e) | None => Ok (string_of_bytes (hex_encode t)) end) as [[-> Hr]|(t & e & -> & Es & ->)].
    { repeat case_match; simplify_eq/=; try (left; by split). right. eexists _, _. by split_and!. right. eexists _, _. by split_and!. }
    { split_and!; [done|done|done|]. intros lineage E. by destruct (Hr lineage). }
    pose proof (hex_encode_bytes t Ht) as Hh. destruct (db_Set_cases _ _ _ _ _ Es) as [Ec|[Ec [e' ->]]]; rewrite Ec.
    + split_and!.
      * intros k Hk. by rewrite lookup_insert_ne.
      * intros v. rewrite lookup_insert_eq. by intros [= <-].
      * intros v Hv. by rewrite <- Eg' in Hv.
      * intros lineage. destruct e; [done|]. intros [= <-]. by rewrite lookup_insert_eq, bytes_of_string_of_bytes.
    + split_and!; [done|done|done|done].
  - injection H as <- <-. by split_and!.
Qed.

Lemma New_spec opts d token d' r : New opts d token = (d', r) -> token_ok token -> lineage_ok (content d) ->
  (forall k, k <> formatKey -> k <> lineageKey -> content d' !! k = content d !! k) /\ lineage_ok (content d') /\
  (forall v, content d !! lineageKey = Some v -> content d' !! lineageKey = Some v) /\
  (forall b, r = Ok b -> b_db b = d' /\ content d' !! lineageKey = Some (bytes_of_string (b_lineage b)) /\
     b_pending b = [] /\ b_flushing b = [] /\ b_closed b = false /\ 0 < b_batchSize b /\ 0 < b_queueSize b).
Proof.
  unfold New. destruct (validateFormat d) as [d1 e1] eqn:E1. pose proof (validateFormat_content _ _ _ E1) as H1. intros H Ht Hl.
  assert (lineage_ok (content d1)) as Hl1 by (intros v; rewrite H1 by done; apply Hl).
  destruct e1 as [e|].
  { injection H as <- <-. split_and!; [auto|done|intros v; by rewrite H1|done]. }
  destruct (loadLineage d1 token) as [d2 r2] eqn:E2. destruct (loadLineage_content _ _ _ _ E2 Ht Hl1) as (L1 & L2 & L3 & L4).
  injection H as <- <-. split_and!; [|done| |].
  - intros k Hf Hli. by rewrite L1, H1.
  - intros v Hv. apply L3. by rewrite H1.
  - intros b (lineage & -> & [= <-])%bind_ok. split_and!; cbn; try done; [by apply L4|destruct (Z.leb_spec (opt_BatchSize opts) 0); lia|destruct (Z.leb_spec (opt_QueueSize opts) 0); lia].
Qed.

Lemma opens_spec m b : opens m b -> lineage_ok m ->
  (forall k, k <> formatKey -> k <> lineageKey -> content (b_db b) !! k = m !! k) /\
  (forall v, m !! lineageKey = Some v -> content (b_db b) !! lineageKey = Some v) /\
  content (b_db b) !! lineageKey = Some (bytes_of_string (b_lineage b)) /\
  b_pending b = [] /\ b_flushing b = [] /\ b_closed b = false /\ 0 < b_batchSize b /\ 0 < b_queueSize b.
Proof.
  induction 1 as [m b d opts token d' <- Ht Hn|m b d opts token d' e <- Ht Hn Ho IH]; intros Hl;
    destruct (New_spec _ _ _ _ _ Hn Ht Hl) as (N1 & N2 & N3 & N4).
  - destruct (N4 b eq_refl) as (-> & N5 & N6 & N7 & N8 & N9 & N10). by split_and!.
  - destruct (IH N2) as (I1 & I2 & I3 & I4 & I5 & I6 & I7 & I8). split_and!; auto. intros k H1 H2. by rewrite I1, N1.
Qed.

Lemma opened_inv m b log : opens m b -> lineage_ok m -> durable m log -> inv (opened b log).
Proof.
  intros Ho Hl Hd. destruct (opens_spec m b Ho Hl) as (O1 & O2 & O3 & O4 & O5 & O6 & O7 & O8).
  split; cbn; rewrite ?O4, ?O5; try done.
  - by eapply durable_meta.
  - by rewrite app_nil_r.
  - unfold queued; cbn. rewrite ?O4, ?O5. cbn. lia.
Qed.

(** ** Every step preserves it *)
Lemma write_spec b evt token c1 c2 b' : Write b evt token c1 c2 = Done (b', None) ->
  exists t value notified, t <> [] /\ MarshalEvent evt = Ok value /\ b_closed b = false /\ queued b < b_queueSize b /\
    b' = set_queues b (b_pending b ++ [{| req_key := BufferKey evt; req_value := value; req_token := Some t; req_event := Some evt |}])
                    (b_flushing b) notified.
Proof.
  unfold Write. destruct (b_closed b); [by destruct (b_failure b)|]. destruct c1; [done|].
  destruct (default [] token) as [|x t] eqn:Et; [done|].
  destruct (Z.ltb_spec (queued b) (b_queueSize b)); [|done]. destruct (MarshalEvent evt) as [value|]; [|done]. destruct c2; [done|].
  intros [= <-]. by exists (x :: t), value, (b_notified b || ((b_batchSize b <=? Z.of_nat (length (b_pending b ++ [{| req_key := BufferKey evt; req_value := value; req_token := Some (x :: t); req_event := Some evt |}])))
      || (b_queueSize b <=? Z.of_nat (length (b_pending b ++ [{| req_key := BufferKey evt; req_value := value; req_token := Some (x :: t); req_event := Some evt |}])) + Z.of_nat (length (b_flushing b))))).
Qed.

Lemma inv_write s evt token c1 c2 b : inv s -> storable evt -> event_ok evt -> Write (s_buf s) evt token c1 c2 = Done (b, None) ->
  inv {| s_buf := b; s_flush := s_flush s; s_prune := s_prune s; s_log := s_log s;
         s_history := s_history s ++ drop (length (b_pending (s_buf s))) (b_pending b) |}.
Proof.
  intros [I1 I2 I3 I4 I5 I6 I7] Hst Hok Hw. apply write_spec in Hw as (t & value & n & Ht & HM & Hc & Hq & ->).
  split; cbn -[queued]; try done.
  - rewrite app_assoc. apply Forall_app. split; [done|]. repeat constructor. exists evt, t. by split_and!.
  - rewrite drop_app_length. unfold uncommitted in *; cbn. destruct (s_flush s) as [| |[] e|]; try (by rewrite I5, ?app_assoc).
    destruct I5 as [? _]. congruence.
  - unfold queued in *; cbn. rewrite length_app. cbn [length]. split; [lia|by destruct I7].
Qed.

Lemma inv_take s b : inv s -> s_flush s = FIdle -> flush_take (s_buf s) = Some b -> inv (set_flush s b FTaken (s_log s)).
Proof.
  intros [I1 I2 I3 I4 I5 I6 I7] Hp Ht. rewrite Hp in *. unfold flush_take in Ht.
  destruct (b_pending (s_buf s)) as [|r0 p0] eqn:Ep; [done|]. rewrite <- Ep in *. clear Ep. injection Ht as <-.
  set (n := Z.to_nat _). rewrite I6 in I2. cbn [app] in I2. split; cbn -[queued]; try done.
  - by rewrite take_drop.
  - rewrite I5. unfold uncommitted. rewrite Hp. cbn. by rewrite take_drop.
  - unfold queued in *; cbn. rewrite I6 in I7. cbn [length] in I7. rewrite length_drop, length_take. split; [lia|by destruct I7].
Qed.

Lemma flush_finish_queue b e : b_pending (flush_finish b e) = b_pending b /\ b_flushing (flush_finish b e) = [] /\ b_db (flush_finish b e) = b_db b.
Proof. done. Qed.

Lemma inv_finish s applied err : inv s -> s_flush s = FCommitted applied err ->
  inv (set_flush s (flush_finish (s_buf s) err) (match err with Some _ => FStopped | None => FIdle end) (s_log s)).
Proof.
  intros [I1 I2 I3 I4 I5 I6 I7] Hp. rewrite Hp in *. split; cbn -[queued]; try done.
  - by apply Forall_app in I2 as [_ ?].
  - destruct err as [e|]; cbn.
    + split; [done|]. rewrite I5. by apply prefix_app_r.
    + rewrite I5. unfold uncommitted. rewrite Hp. cbn. destruct applied; [done|]. by destruct I6.
  - by destruct err.
  - unfold queued in *; cbn. split; [lia|by destruct I7].
Qed.

(** A commit that changes neither the queue nor the floor nor the lineage. *)
Lemma inv_db s d log f :
  inv s -> durable (content d) log ->
  content d !! lineageKey = s_content s !! lineageKey -> content d !! pruningFloorKey = s_content s !! pruningFloorKey ->
  (let s' := set_flush s (set_db (s_buf s) d) f log in
   match f with
   | FStopped => b_closed (s_buf s) = true /\ writes log `prefix_of` s_history s
   | _ => s_history s = writes log ++ uncommitted s'
   end) ->
  match f with
  | FIdle | FStopped => b_flushing (s_buf s) = []
  | FTaken => True
  | FCommitted true _ => b_flushing (s_buf s) ⊆ writes log
  | FCommitted false err => is_Some err
  end ->
  inv (set_flush s (set_db (s_buf s) d) f log).
Proof.
  intros [I1 I2 I3 I4 I5 I6 I7] Hd Hl Hf Hh Hp. split; cbn -[queued uncommitted]; try done.
  - unfold s_content at 1; cbn. by rewrite Hl.
  - destruct (s_prune s); try done. by eapply prune_ok_floor.
Qed.

Lemma inv_commit s d batch err :
  inv s -> s_flush s = FTaken -> flush_batch (b_db (s_buf s)) (b_flushing (s_buf s)) = Ok batch ->
  content d = apply_ops (s_content s) batch ->
  inv (set_flush s (set_db (s_buf s) d) (FCommitted true err) (s_log s ++ map Written (b_flushing (s_buf s)))).
Proof.
  intros Hi Hp Hb Hc. pose proof Hi as [I1 I2 I3 I4 I5 I6 I7]. rewrite Hp in *.
  apply Forall_app in I2 as [I2 _]. destruct (durable_flush _ _ _ _ _ I2 Hb I1) as [Hd Hm].
  apply inv_db; rewrite ?Hc; try done; try (by apply Hm); cbn; rewrite writes_app, writes_map.
  - rewrite I5. unfold uncommitted; rewrite Hp; cbn. by rewrite app_assoc.
  - intros r Hr. apply elem_of_app. by right.
Qed.

Lemma inv_log s d log :
  inv s -> durable (content d) log -> writes log = writes (s_log s) ->
  (forall k, k <> checkpointKey -> content d !! k = s_content s !! k) ->
  inv (set_flush s (set_db (s_buf s) d) (s_flush s) log).
Proof.
  intros Hi Hd Hw Hm. pose proof Hi as [I1 I2 I3 I4 I5 I6 I7]. apply inv_db; try done; try (by apply Hm).
  - cbn. rewrite Hw. unfold uncommitted in *; cbn. destruct (s_flush s); try done.
  - by rewrite Hw.
Qed.

Lemma inv_same s d : inv s -> content d = s_content s -> inv (set_buf s (set_db (s_buf s) d)).
Proof.
  intros Hi Hc. change (inv (set_flush s (set_db (s_buf s) d) (s_flush s) (s_log s))).
  apply inv_log; rewrite ?Hc; try done. apply Hi.
Qed.

Lemma set_db_id b : b = set_db b (b_db b).
Proof. by destruct b. Qed.
Lemma SaveCheckpoint_db b token b' e : SaveCheckpoint b token = (b', e) -> b' = set_db b (b_db b').
Proof.
  unfold SaveCheckpoint. destruct (b_closed b), token as [[|x t]|]; try (intros [= <- _]; apply set_db_id).
  destruct (negb _); [intros [= <- _]; apply set_db_id|]. destruct (applyBatch _ _) as [d e']. by intros [= <- _].
Qed.
Lemma DeleteCheckpoint_db b b' e : DeleteCheckpoint b = (b', e) -> b' = set_db b (b_db b').
Proof.
  unfold DeleteCheckpoint. destruct (b_closed b); [intros [= <- _]; apply set_db_id|].
  destruct (applyBatch _ _) as [d e']. by intros [= <- _].
Qed.

Lemma inv_capture s s' : inv s -> capture_step s s' -> inv s'.
Proof.
  intros Hi. destruct 1 as [evt token c1 c2 b Hst Hok Hw|n|b Hp Ht|d err batch Hp Hf Hb Hc|d err Hp Hf Hc|applied err Hp
    |token b e Hcl Ht Hq Hs Hc|token b e Hs Hc|b e Hs Hc|b e Hs Hc|].
  - by eapply inv_write.
  - destruct Hi. by split.
  - by apply inv_take.
  - by eapply inv_commit.
  - apply inv_db; rewrite ?Hc; try done; [apply Hi|]. pose proof (i_history _ Hi) as H. rewrite Hp in H. cbn.
    unfold uncommitted in *. by rewrite Hp in H.
  - by eapply inv_finish.
  - rewrite (SaveCheckpoint_db _ _ _ _ Hs). apply inv_log; [done| |by rewrite writes_app, app_nil_r|].
    + eapply durable_checkpoint; [apply Hi|done| |]; rewrite Hc.
      * rewrite lookup_insert_eq, checkpoint_of_app. done.
      * intros k Hk. by rewrite lookup_insert_ne.
    + intros k Hk. by rewrite Hc, lookup_insert_ne.
  - rewrite (SaveCheckpoint_db _ _ _ _ Hs). by apply inv_same.
  - rewrite (DeleteCheckpoint_db _ _ _ Hs). apply inv_log; [done| |by rewrite writes_app, app_nil_r|].
    + eapply durable_checkpoint; [apply Hi|done| |]; rewrite Hc.
      * rewrite lookup_delete_eq, checkpoint_of_app. done.
      * intros k Hk. by rewrite lookup_delete_ne.
    + intros k Hk. by rewrite Hc, lookup_delete_ne.
  - rewrite (DeleteCheckpoint_db _ _ _ Hs). by apply inv_same.
  - destruct Hi as [I1 I2 I3 I4 I5 I6 I7]. split; cbn -[queued]; try done. unfold uncommitted in *; cbn. destruct (s_flush s); try done.
    by destruct I5.
Qed.

Lemma prune_commit_cases d batch count d' r : prune_commit d batch count = (d', r) ->
  content d' = apply_ops (content d) batch \/ (content d' = content d /\ is_ok r = false).
Proof.
  unfold prune_commit. pose proof (batch_Commit_law d batch) as Hl. destruct (batch_Commit d batch) as [d1 e1]; cbn in Hl.
  intros [= <- <-]. destruct Hl as [?|[? [e ->]]]; [by left|by right].
Qed.

Lemma inv_retention s s' : inv s -> retention_step s s' -> inv s'.
Proof.
  intros Hi. pose proof Hi as [I1 I2 I3 I4 I5 I6 I7].
  destruct 1 as [before Hp Hc|before age g Hp Hc Hg Hn|before batch count Hp Hc Hb|batch count d r Hp Hr|]; try (by split).
  - split; try done. by apply prune_batch_ok in Hb as [? _].
  - rewrite Hp in I4. destruct (durable_prune _ _ _ I1 I4) as [Hd Hm].
    destruct (prune_commit_cases _ _ _ _ _ Hr) as [Hc|[Hc _]]; split; cbn -[queued]; try done; unfold s_content; cbn; rewrite Hc; try done.
    by rewrite Hm.
Qed.

Lemma inv_step s s' : inv s -> step s s' -> inv s'.
Proof.
  intros Hi. destruct 1 as [s' H|s' H|b Ho]; [by eapply inv_capture|by eapply inv_retention|].
  eapply opened_inv; [exact Ho| |apply Hi]. intros v. rewrite (i_lineage _ Hi). intros [= <-]. apply bytes_of_string_bytes.
Qed.

Lemma reachable_inv s : reachable s -> inv s.
Proof.
  intros (b & Ho & Hr). assert (inv (opened b [])) as Hi.
  { eapply opened_inv; [exact Ho|intros v; by rewrite lookup_empty|]. split; try done. by intros ? ?%elem_of_nil. }
  revert Hi. induction Hr as [|s1 s2 s3 H1 Hr IH]; [done|]. intros Hi. apply IH. by eapply inv_step.
Qed.

(** A restart keeps the lineage. *)
Lemma lineage_step s s' : inv s -> step s s' -> b_lineage (s_buf s') = b_lineage (s_buf s).
Proof.
  intros Hi Hs. pose proof (inv_step _ _ Hi Hs) as Hi'. destruct Hs as [s' H|s' H|b Ho].
  - destruct H as [evt token c1 c2 b Hst Hok Hw|n|b Hp Ht|d err batch Hp Hf Hb Hc|d err Hp Hf Hc|applied err Hp
      |token b e Hcl Ht Hq Hs Hc|token b e Hs Hc|b e Hs Hc|b e Hs Hc|]; cbn; try done.
    + apply write_spec in Hw as (t & value & n & _ & _ & _ & _ & ->). done.
    + unfold flush_take in Ht. destruct (b_pending _); [done|]. by injection Ht as <-.
    + by rewrite (SaveCheckpoint_db _ _ _ _ Hs).
    + by rewrite (SaveCheckpoint_db _ _ _ _ Hs).
    + by rewrite (DeleteCheckpoint_db _ _ _ Hs).
    + by rewrite (DeleteCheckpoint_db _ _ _ Hs).
  - by destruct H.
  - assert (lineage_ok (s_content s)) as Hl by (intros v; rewrite (i_lineage _ Hi); intros [= <-]; apply bytes_of_string_bytes).
    destruct (opens_spec _ _ Ho Hl) as (_ & O2 & O3 & _). rewrite (O2 _ (i_lineage _ Hi)) in O3. injection O3 as E. cbn.
    apply (f_equal string_of_bytes) in E. by rewrite !string_of_bytes_of_string in E.
Qed.
End Inv.
