(* ===== verification/BufferModels.v ===== *)
(** * A database and a codec under the event buffer

    The in-memory map at the end of PersistStore, iterated backwards too, and events that are
    determined by their identifier: the assumptions of the buffer hold together, and
    its machine runs on concrete inputs. *)
From stdpp Require Import base list sorting gmap strings relations.
From Stdlib Require Import ZArith.
From S2P Require Import Prelude Value IndexStore Codec Projection Intervals Pebble PersistStore Events Buffer BufferScan BufferMachine.
Local Open Scope Z_scope.

Lemma sorted_reverse {A} (R : A -> A -> Prop) l : StronglySorted R l -> StronglySorted (fun a b => R b a) (reverse l).
Proof.
  induction 1 as [|x l Hs IH Hx]; [constructor|]. rewrite reverse_cons.
  assert (forall a, StronglySorted (fun a b => R b a) a -> Forall (R x) a -> StronglySorted (fun a b => R b a) (a ++ [x])) as H.
  { clear. induction 1 as [|y a Hs IH Hy]; intros Hf; cbn; [by repeat constructor|]. apply Forall_cons in Hf as [H1 H2].
    constructor; [by apply IH|]. apply Forall_app. by repeat constructor. }
  apply H; [done|]. by rewrite Forall_reverse.
Qed.

Definition map_back : PebbleBack (PB := map_pebble).
Proof.
  refine (Build_PebbleBack map_pebble (fun m lower upper => Ok (reverse (sorted_rows m lower upper), None, None)) (fun _ => 0) _).
  intros d lower upper rs e c [= <- <- <-]. destruct (sorted_rows_law d lower upper) as (H1 & H2 & H3).
  split_and!; [by apply sorted_reverse|intros x Hx; apply H2; by rewrite elem_of_reverse in Hx|intros; apply elem_of_reverse; auto..].
Defined.

(** The event of an identifier: its cluster time is the length. *)
Definition tick (id : string) : StoreChangeEvent := {|
  evt_EventID := id; evt_Database := "db"; evt_MgoColl := "documents"; evt_MgoDocID := id;
  evt_OpType := StoreOperationDelete; evt_FullDocument := None; evt_UpdateDesc := None;
  evt_ClusterTime := ClusterAt (Z.of_nat (String.length id)) 0; evt_TxnNumber := None; evt_Timestamp := 0; evt_Backend := "a" |}.

Definition tick_codec : EventCodec.
Proof.
  refine {| MarshalEvent e := Ok (bytes_of_string (evt_EventID e)); UnmarshalEvent l := Ok (tick (string_of_bytes l));
            storable e := e = tick (evt_EventID e); stored e := e |}; try done.
  intros e data -> [= <-]. by rewrite string_of_bytes_of_string.
Defined.

Definition tick_options : Options := {| opt_BatchSize := 2; opt_BatchInterval := 0; opt_QueueSize := 3 |}.
Definition tick_token : res string bytes := Ok (repeat 171 16).

(** ** Running the machine *)
Section Run.
#[local] Existing Instance map_pebble.
#[local] Existing Instance map_back.
#[local] Existing Instance tick_codec.

Inductive act := AWrite (id : string) (token : bytes) | AFlush | ASave (token : bytes) | APrune (before : bytes).

Definition do_write (s : sys) (id : string) (token : bytes) : option sys :=
  if bool_decide (id = ""%string) || negb (Z.of_nat (String.length id) <? 2 ^ 32) then None
  else match Write (s_buf s) (tick id) (Some token) None None with
  | Done (b, None) => Some {| s_buf := b; s_flush := s_flush s; s_prune := s_prune s; s_log := s_log s;
                              s_history := s_history s ++ drop (length (b_pending (s_buf s))) (b_pending b) |}
  | _ => None
  end.
Definition do_flush (s : sys) : option sys :=
  match s_flush s, flush_take (s_buf s) with
  | FIdle, Some b =>
      match flush_batch (b_db b) (b_flushing b) with
      | Ok batch =>
          let b' := set_db b (batch_Commit (b_db b) batch).1 in
          Some {| s_buf := flush_finish b' None; s_flush := FIdle; s_prune := s_prune s;
                  s_log := s_log s ++ map Written (b_flushing b); s_history := s_history s |}
      | Err _ => None
      end
  | _, _ => None
  end.
Definition do_save (s : sys) (token : bytes) : option sys :=
  if negb (b_closed (s_buf s)) && negb (bytes_eqb token []) && (queued (s_buf s) =? 0)
  then Some (log_entry s (SaveCheckpoint (s_buf s) (Some token)).1 (Saved token)) else None.
Definition do_prune (s : sys) (before : bytes) : option sys :=
  match s_prune s, b_closed (s_buf s), protected_group (b_db (s_buf s)) before false with
  | PIdle, false, Ok (x :: g) =>
      match prune_batch (b_db (s_buf s)) (min_key before (x :: g)) with
      | Ok (Some (batch, count)) => Some (set_prune s (set_db (s_buf s) (batch_Commit (b_db (s_buf s)) batch).1) PIdle)
      | _ => None
      end
  | _, _, _ => None
  end.
Definition do_act (s : sys) (a : act) : option sys :=
  match a with
  | AWrite id token => do_write s id token
  | AFlush => do_flush s
  | ASave token => do_save s token
  | APrune before => do_prune s before
  end.
Fixpoint do_acts (s : sys) (acts : list act) : option sys :=
  match acts with [] => Some s | a :: acts => s ← do_act s a; do_acts s acts end.

Lemma tick_ok id : bool_decide (id = ""%string) || negb (Z.of_nat (String.length id) <? 2 ^ 32) = false -> event_ok (tick id).
Proof.
  intros [E1 E2]%orb_false_iff. apply bool_decide_eq_false in E1. apply negb_false_iff, Z.ltb_lt in E2. split; [|done].
  split; unfold is_u32; cbn [ct_T ct_I evt_ClusterTime tick]; lia.
Qed.

Lemma do_act_steps s a s' : do_act s a = Some s' -> rtc step s s'.
Proof.
  destruct a as [id token| |token|before]; cbn [do_act].
  - unfold do_write. destruct (_ || _) eqn:E; [done|]. destruct (Write _ _ _ _ _) as [|[b [e|]]] eqn:Ew; [done|done|]. intros [= <-].
    apply rtc_once, step_capture. apply (step_write s (tick id) (Some token) None None b); [done|by apply tick_ok|done].
  - unfold do_flush. destruct (s_flush s) eqn:Ef; try done. destruct (flush_take (s_buf s)) as [b|] eqn:Et; [|done].
    destruct (flush_batch _ _) as [batch|] eqn:Eb; [|done]. intros [= <-].
    eapply rtc_l; [apply step_capture, (step_take s b Ef Et)|].
    eapply rtc_l; [apply step_capture, (step_commit _ (batch_Commit (b_db b) batch).1 None batch); [done| |exact Eb|done]|].
    + unfold flush_commit. cbn [s_buf set_flush]. rewrite Eb. done.
    + apply rtc_once, step_capture. exact (step_finish (set_flush s (set_db b (batch_Commit (b_db b) batch).1)
        (FCommitted true None) (s_log s ++ map Written (b_flushing b))) true None eq_refl).
  - unfold do_save. destruct (_ && _) eqn:E; [|done]. intros [= <-]. apply andb_true_iff in E as [[E1 E2]%andb_true_iff E3].
    apply negb_true_iff in E1, E2. apply Z.eqb_eq in E3. apply rtc_once, step_capture.
    destruct (SaveCheckpoint (s_buf s) (Some token)) as [b e] eqn:Es. apply (step_save s token b e); try done.
    { intros ->. done. }
    unfold SaveCheckpoint in Es. rewrite E1, E3 in Es. destruct token as [|x t]; [done|]. cbn in Es. injection Es as <- <-. done.
  - unfold do_prune. destruct (s_prune s) eqn:Ep; try done. destruct (b_closed (s_buf s)) eqn:Ec; [done|].
    destruct (protected_group _ _ _) as [[|x g]|] eqn:Eg; try done. destruct (prune_batch _ _) as [[[batch count]|]|] eqn:Eb; try done.
    intros [= <-]. eapply rtc_l; [apply step_retention, (step_protect s before false (x :: g)); done|].
    eapply rtc_l; [apply step_retention, (step_batch _ (min_key before (x :: g)) batch count); done|].
    apply rtc_once, step_retention.
    exact (step_prune (set_prune s (s_buf s) (PBatched batch count)) batch count (batch_Commit (b_db (s_buf s)) batch).1 (Ok count) eq_refl eq_refl).
Qed.
Lemma do_acts_steps acts s s' : do_acts s acts = Some s' -> rtc step s s'.
Proof.
  revert s; induction acts as [|a acts IH]; intros s; cbn [do_acts]; [by intros [= ->]|].
  destruct (do_act s a) as [s1|] eqn:E; [|done]. cbn. intros H. etrans; [by eapply do_act_steps|by apply IH].
Qed.

(** The buffer of a fresh directory, and the state after some acts. *)
Definition tick_buffer : Buffer :=
  match (New tick_options ∅ tick_token).2 with
  | Ok b => b
  | Err _ => {| b_db := ∅; b_lineage := ""; b_pending := []; b_flushing := []; b_notified := false; b_capacity := 0;
                b_closeCh := false; b_closed := true; b_failure := None; b_batchSize := 0; b_batchInterval := 0; b_queueSize := 0 |}
  end.
Definition tick_state (acts : list act) : sys := default (opened tick_buffer []) (do_acts (opened tick_buffer []) acts).

Lemma tick_reachable acts : reachable (tick_state acts).
Proof.
  exists tick_buffer. split.
  - apply (opens_ok ∅ tick_buffer ∅ tick_options tick_token (New tick_options ∅ tick_token).1); [done|repeat constructor; by unfold is_byte|].
    reflexivity.
  - unfold tick_state. destruct (do_acts _ acts) as [s|] eqn:E; [by eapply do_acts_steps|constructor].
Qed.
End Run.
