(* ===== verification/BufferFacts.v ===== *)
(** * What the event buffer guarantees

    Validated replay is complete, the checkpoint does not run ahead of the durable
    events, the queue is bounded and closing drains it, and retention keeps the
    newest group. *)
From stdpp Require Import base list sorting gmap strings relations.
From Stdlib Require Import ZArith.
From S2P Require Import Prelude Value IndexStore Codec Projection Intervals Pebble PersistStore Events Progress Buffer BufferScan BufferMachine BufferInv BufferModels.
Local Open Scope Z_scope.

(** ** Groups: the events of one cluster time *)
Lemma cut_dash_inv l p r : cut_dash l = Some (p, r) -> l = p ++ 45 :: r.
Proof.
  revert p; induction l as [|b l IH]; intros p; cbn; [done|]. destruct (Z.eqb_spec b 45) as [->|]; [by intros [= <- <-]|].
  destruct (cut_dash l) as [[p' r']|]; [|done]. cbn. intros [= <- <-]. cbn. by rewrite (IH p' eq_refl).
Qed.

Lemma ParseUint32_u32 s v : ParseUint32 s = Some v -> is_u32 v.
Proof.
  unfold ParseUint32. destruct s as [|b s]; [done|]. destruct (digits_value 0 (b :: s)) as [x|] eqn:E; [|done]. cbn [mbind option_bind].
  destruct (Z.ltb_spec x (2 ^ 32)); [|done]. intros [= <-]. pose proof (digits_value_nonneg 0 _ x ltac:(lia) E). unfold is_u32. lia.
Qed.

(** The group of a position is the prefix with its cluster time. *)
Lemma group_inv key g : timestampGroupStart key = Ok g ->
  (key = [] /\ g = []) \/
  exists c rest, is_cluster_time c /\ g = FormatBufferKey c "" /\ key = g ++ rest /\ rest <> [].
Proof.
  unfold timestampGroupStart. destruct key as [|b key]; [intros [= <-]; by left|]. set (k := b :: key).
  destruct (cut_dash k) as [[p0 r]|] eqn:E0; [|done]. destruct (cut_dash r) as [[p1 p2]|] eqn:E1; [|done].
  destruct (Z.eqb_spec (Z.of_nat (length p0)) 10) as [L0|]; [|done]. destruct (Z.eqb_spec (Z.of_nat (length p1)) 10) as [L1|]; [|done].
  destruct (bytes_eqb p2 []) eqn:E2; [done|]. cbn [andb negb].
  destruct (ParseUint32 p0) as [t|] eqn:Et; [|done]. destruct (ParseUint32 p1) as [i|] eqn:Eti; [|done].
  destruct (bytes_eqb _ (take 22 k)) eqn:E; [|done]. apply bytes_eqb_eq in E. intros [= <-]. right.
  apply ParseUint32_u32 in Et, Eti. exists (ClusterAt t i), p2. split_and!; [by split|done| |].
  - rewrite E. apply cut_dash_inv in E0 as ->. apply cut_dash_inv in E1 as ->.
    replace (p0 ++ 45 :: p1 ++ 45 :: p2) with ((p0 ++ [45] ++ p1 ++ [45]) ++ p2) by (rewrite <- !app_assoc; done).
    rewrite take_app_ge by (rewrite !length_app; cbn; lia).
    rewrite !length_app. cbn [length]. replace (22 - _)%nat with 0%nat by lia. cbn. by rewrite app_nil_r.
  - intros ->. done.
Qed.

Lemma group_compare c e : is_cluster_time c -> event_ok e ->
  bytes_compare (FormatBufferKey c "") (BufferKey e) = Lt <-> ct_Compare c (evt_ClusterTime e) <> Gt.
Proof.
  intros Hc [He Hid]. unfold BufferKey. rewrite BufferKey_compare by done. destruct (ct_Compare c (evt_ClusterTime e)); cbn; try done.
  split; [done|]. intros _. unfold string_compare. destruct (evt_EventID e); [done|]. done.
Qed.

(** The event is of the position's cluster time or a later one; every event is
    after the empty position. *)
Definition at_or_after (position : bytes) (e : StoreChangeEvent) : Prop :=
  position = [] \/
  exists c rest, is_cluster_time c /\ position = FormatBufferKey c "" ++ rest /\ ct_Compare c (evt_ClusterTime e) <> Gt.

Lemma FormatBufferKey_prefix c d r r' : is_cluster_time c -> is_cluster_time d ->
  FormatBufferKey c "" ++ r = FormatBufferKey d "" ++ r' -> c = d.
Proof.
  intros Hc Hd E. assert (FormatBufferKey c "" = FormatBufferKey d "") as E'.
  { apply (f_equal (take 22)) in E.
    assert (forall c, is_cluster_time c -> length (FormatBufferKey c "") = 22%nat) as L.
    { intros c0 [H1 H2]. unfold FormatBufferKey. rewrite !formatUint32_fixed by done. rewrite !length_app, !length_fixed_digits. done. }
    rewrite !take_app_le, !take_ge in E by (rewrite L by done; lia). done. }
  apply (proj2 (bytes_compare_eq _ _)) in E'. rewrite BufferKey_compare in E' by done.
  destruct (ct_Compare c d) eqn:C; [by apply ct_Compare_eq|done|done].
Qed.

Lemma FormatBufferKey_split c id : FormatBufferKey c id = FormatBufferKey c "" ++ bytes_of_string id.
Proof. unfold FormatBufferKey. by rewrite <- !app_assoc. Qed.

Lemma at_or_after_group after g e : timestampGroupStart after = Ok g -> event_ok e ->
  at_or_after after e <-> bytes_compare g (BufferKey e) = Lt.
Proof.
  intros [[-> ->]|(c & rest & Hc & -> & -> & Hr)]%group_inv Hok.
  - split; [intros _|by left]. pose proof (BufferKey_nonempty e Hok). by destruct (BufferKey e).
  - rewrite group_compare by done. split.
    + intros [E|(d & r & Hd & E & H)]; [by destruct (FormatBufferKey_head c "" Hc) as (? & ? & E' & _); rewrite E' in E|].
      by apply FormatBufferKey_prefix in E as ->.
    + intros H. right. by exists c, rest.
Qed.

Section Facts.
Context `{PB : Pebble} {BK : PebbleBack} {EC : EventCodec}.
Implicit Types s : sys.

(** ** Replay *)
Lemma capture_history s s' : inv s -> capture_step s s' ->
  s_history s `prefix_of` s_history s' /\ floor_of (s_content s') = floor_of (s_content s).
Proof.
  intros Hi. assert (forall m k v, k <> pruningFloorKey -> floor_of (<[k := v]> m) = floor_of m /\ floor_of (delete k m) = floor_of m) as Hf.
  { intros m k v Hk. unfold floor_of. by rewrite lookup_insert_ne, lookup_delete_ne. }
  destruct 1 as [evt token c1 c2 b Hst Hok Hw|n|b Hp Ht|d err batch Hp Hfl Hb Hc|d err Hp Hfl Hc|applied err Hp
    |token b e Hcl Ht Hq Hs Hc|token b e Hs Hc|b e Hs Hc|b e Hs Hc|]; unfold s_content; cbn; try done.
  - apply write_spec in Hw as (t & value & n & _ & _ & _ & _ & ->). split; [by apply prefix_app_r|done].
  - unfold flush_take in Ht. destruct (b_pending _); [done|]. by injection Ht as <-.
  - rewrite Hc. split; [done|]. pose proof (i_queue _ Hi) as Hq. apply Forall_app in Hq as [Hq _].
    destruct (durable_flush _ _ _ _ _ Hq Hb (i_durable _ Hi)) as [_ Hm]. unfold floor_of. by rewrite Hm.
  - by rewrite Hc.
  - rewrite Hc. by split; [|apply Hf].
  - by rewrite Hc.
  - rewrite Hc. by split; [|apply (Hf _ _ [])].
  - by rewrite Hc.
Qed.

Lemma captures_history s s' : inv s -> rtc capture_step s s' ->
  inv s' /\ s_history s `prefix_of` s_history s' /\ floor_of (s_content s') = floor_of (s_content s).
Proof.
  intros Hi Hr. revert Hi. induction Hr as [s|s1 s2 s3 H1 Hr IH]; intros Hi; [done|].
  destruct (capture_history _ _ Hi H1) as [Hh Hf]. destruct (IH (inv_capture _ _ Hi H1)) as (Hi' & Hh' & Hf').
  split_and!; [done|by etrans|congruence].
Qed.

(** Every accepted write of an open buffer is on disk, in the queue, or below the
    floor; and nothing else is. *)
Lemma history_present s : inv s -> b_closed (s_buf s) = false ->
  (forall r, r ∈ s_history s -> present (s_buf s) (req_key r) \/ key_le (req_key r) (floor_of (s_content s))) /\
  (forall e, shown (s_buf s) e -> exists r e0, r ∈ s_history s /\ req_event r = Some e0 /\ (e = e0 \/ e = stored e0)) /\
  (forall r, r ∈ s_history s -> wf_request r) /\
  (forall k, present (s_buf s) k -> exists r, r ∈ s_history s /\ req_key r = k).
Proof.
  intros Hi Hc. pose proof Hi as [[D1 D2 D3 D4] I2 I3 I4 I5 I6 I7].
  assert (s_history s = writes (s_log s) ++ uncommitted s) as Hh by (destruct (s_flush s); try done; by destruct I5 as [? _]; congruence).
  assert (forall r, r ∈ uncommitted s -> r ∈ b_flushing (s_buf s) ++ b_pending (s_buf s)) as Hu.
  { unfold uncommitted. intros r Hr. destruct (s_flush s) as [| |[] e|]; set_solver. }
  assert (forall r, r ∈ b_flushing (s_buf s) ++ b_pending (s_buf s) -> r ∈ s_history s) as Hq.
  { rewrite Hh. unfold uncommitted. intros r Hr. apply elem_of_app. apply elem_of_app in Hr as [Hr|Hr].
    - destruct (s_flush s) as [| |[] e|]; try (rewrite I6 in Hr; by apply elem_of_nil in Hr); [right; set_solver|left; by apply I6|right; set_solver].
    - right. destruct (s_flush s) as [| |[] e|]; set_solver. }
  rewrite Forall_forall in D1, I2. split_and!.
  - rewrite Hh. intros r [Hr|Hr]%elem_of_app.
    + destruct (D3 r Hr) as [Hs|Hl]; [left; right|by right]. split; [done|]. by apply wf_request_key, D1.
    + left; left. exists r. split; [by apply Hu|done].
  - intros e [(r & Hr & E)|(e0 & v & -> & Hst & Hok & Hv & HM)].
    + exists r, e. split_and!; [by apply Hq|done|by left].
    + destruct (D2 _ _ Hv (event_key_not_metadata _ _ (proj1 Hok))) as (r & Hr & Hk & Ev).
      destruct (D1 r Hr) as (e1 & t & E1 & _ & _ & Hst1 & _ & _ & HM1). exists r, e1. split_and!; [rewrite Hh; set_solver|done|right].
      rewrite Ev in HM1. pose proof (codec_law _ _ Hst HM) as H0. rewrite (codec_law _ _ Hst1 HM1) in H0. by injection H0.
  - rewrite Hh. intros r [Hr|Hr]%elem_of_app; [by apply D1|by apply I2, Hu].
  - intros k [(r & Hr & <-)|[[v Hv] Hm]]; [exists r; split; [by apply Hq|done]|].
    destruct (D2 _ _ Hv Hm) as (r & Hr & Hk & _). exists r. split; [rewrite Hh; set_solver|done].
Qed.

Lemma inv_wf_content s : inv s -> wf_content (s_content s).
Proof.
  intros Hi k v Hv Hk. destruct (d_source _ _ (i_durable _ Hi) k v Hv Hk) as (r & Hr & <- & <-).
  pose proof (d_log _ _ (i_durable _ Hi)) as Hl. rewrite Forall_forall in Hl.
  destruct (Hl r Hr) as (e & t & _ & _ & _ & Hst & Hok & -> & HM). by exists e.
Qed.

Lemma validateHistoryFloor_ok b g : validateHistoryFloor b g = Ok tt ->
  floor_of (content (b_db b)) = [] \/ bytes_compare (floor_of (content (b_db b))) g = Lt.
Proof.
  unfold validateHistoryFloor. intros (f & Hf%pruningFloor_ok & H)%bind_ok. rewrite <- Hf.
  destruct (bytes_eqb f []) eqn:E; [left; by apply bytes_eqb_eq|right]. cbn [negb andb] in H.
  destruct (bytes_leb g f) eqn:L; [done|]. rewrite bytes_leb_ltb in L. apply negb_false_iff in L. by apply bytes_ltb_lt.
Qed.

(** A scan above the floor shows the history. *)
Lemma scan_above s g it :
  inv s -> floor_of (s_content s) = [] \/ bytes_compare (floor_of (s_content s)) g = Lt -> ScanFrom (s_buf s) g = Ok it ->
  exists out err, yields it out err /\ StronglySorted evt_lt out /\
    (forall e, e ∈ out -> event_ok e /\ bytes_compare g (BufferKey e) = Lt /\
       exists r e0, r ∈ s_history s /\ req_event r = Some e0 /\ (e = e0 \/ e = stored e0)) /\
    (err = None -> forall r e0, r ∈ s_history s -> req_event r = Some e0 -> bytes_compare g (BufferKey e0) = Lt ->
       exists e, e ∈ out /\ BufferKey e = BufferKey e0).
Proof.
  intros Hi Hf Hs. assert (b_closed (s_buf s) = false) as Hc by (unfold ScanFrom in Hs; by destruct (b_closed _)).
  destruct (history_present s Hi Hc) as (P1 & P2 & P3 & P4).
  destruct (scan_stream _ _ _ (inv_wf_content s Hi) (i_queue _ Hi) Hs) as (out & err & Hy & Hso & Hsd & Hco).
  exists out, err. split_and!; [done|done| |].
  - intros e He. destruct (Hsd e He) as [Hlt Hsh]. destruct (P2 e Hsh) as (r & e0 & Hr & E0 & Hee). split_and!; [|done|by exists r, e0].
    destruct (P3 r Hr) as (e1 & t & E1 & _ & _ & _ & Hok & _). rewrite E1 in E0. injection E0 as ->.
    destruct Hee as [->| ->]; [done|]. unfold event_ok. by rewrite stored_time, stored_id.
  - intros He r e0 Hr E0 Ha. destruct (P3 r Hr) as (e1 & t & E1 & _ & _ & _ & Hok & Hk & _). rewrite E1 in E0. injection E0 as ->.
    rewrite <- Hk in Ha |- *.
    destruct (P1 r Hr) as [Hp|Hle]; [by apply (Hco He)|]. exfalso.
    destruct Hf as [Hf|Hf]; [rewrite Hf in Hle; rewrite Hk in Hle; pose proof (BufferKey_nonempty _ Hok); by destruct (BufferKey e0)|].
    apply Hle. apply bytes_compare_lt_gt. by eapply bytes_compare_trans.
Qed.

Lemma scan_complete s after g it :
  inv s -> timestampGroupStart after = Ok g ->
  floor_of (s_content s) = [] \/ bytes_compare (floor_of (s_content s)) g = Lt -> ScanFrom (s_buf s) g = Ok it ->
  exists out err, yields it out err /\ StronglySorted evt_lt out /\
    (forall e, e ∈ out -> at_or_after after e /\
       exists r e0, r ∈ s_history s /\ req_event r = Some e0 /\ (e = e0 \/ e = stored e0)) /\
    (err = None -> forall r e0, r ∈ s_history s -> req_event r = Some e0 -> at_or_after after e0 ->
       exists e, e ∈ out /\ BufferKey e = BufferKey e0).
Proof.
  intros Hi Hg Hf Hs. assert (b_closed (s_buf s) = false) as Hc by (unfold ScanFrom in Hs; by destruct (b_closed _)).
  destruct (history_present s Hi Hc) as (_ & _ & P3 & _). destruct (scan_above s g it Hi Hf Hs) as (out & err & Hy & Hso & Hsd & Hco).
  exists out, err. split_and!; [done|done| |].
  - intros e He. destruct (Hsd e He) as (Hok & Hlt & Hr). split; [by apply (at_or_after_group _ _ _ Hg)|done].
  - intros He r e0 Hr E0 Ha. destruct (P3 r Hr) as (e1 & t & E1 & _ & _ & _ & Hok & _). rewrite E1 in E0. injection E0 as ->.
    apply (Hco He r e0 Hr E1). by apply (at_or_after_group _ _ _ Hg Hok).
Qed.

(** What a successful validation says: the group, and nothing pruned in it or after. *)
Lemma validatePosition_ok b after lineage g : validatePosition b after lineage = Ok g ->
  b_closed b = false /\ lineage = b_lineage b /\ timestampGroupStart after = Ok g /\
  (floor_of (content (b_db b)) = [] \/ bytes_compare (floor_of (content (b_db b))) g = Lt) /\
  (after <> [] -> present b after).
Proof.
  unfold validatePosition. intros ([] & Hl & (g' & Hg & ([] & Hfl%validateHistoryFloor_ok & Hv)%bind_ok)%bind_ok)%bind_ok.
  unfold validateLineage in Hl. destruct (b_closed b); [done|]. destruct (String.eqb_spec lineage ""); [done|].
  destruct (String.eqb_spec lineage (b_lineage b)) as [->|]; [|done].
  assert (g' = g) as ->.
  { destruct after as [|x after]; [cbn in Hg; congruence|]. destruct (db_Get _ _) as [[[v [c|]]|]|]; try congruence.
    destruct (existsb _ _); congruence. }
  split_and!; [done..|]. intros Ha.
  destruct (group_inv _ _ Hg) as [[? _]|(c & rest & Hc & -> & Ek & _)]; [done|].
  destruct after as [|x after]; [done|]. destruct (db_Get _ _) as [[[v [c'|]]|]|] eqn:Eg; try done.
  - right. apply db_Get_law in Eg. cbn in Eg. split; [by eexists|]. destruct (isMetadataKey _) eqn:E; [|done].
    apply isMetadataKey_head in E as [l E]. destruct (FormatBufferKey_head c "" Hc) as (b' & l' & E' & Hb). rewrite E, E' in Ek. cbn in Ek.
    injection Ek as <- _. lia.
  - destruct (existsb _ _) eqn:E; [|done]. apply existsb_exists in E as (r & Hr'%list_elem_of_In & E). left. exists r.
    split; [set_solver|by apply bytes_eqb_eq].
Qed.

(** C10: validated replay loses nothing. The position of a consumer was accepted in
    a reachable state of the buffer, while capture and the batcher went on, and the
    scan was then opened at the group returned. The stream ends; its events are
    distinct and in key order, each one captured and of the position's cluster time
    or later; and unless the stream reports an error it has every captured event of
    that time or later, the position's own event among them. Restarts, failed
    commits and pruning may come before. *)
Theorem replay_complete s1 s2 after lineage g it :
  reachable s1 -> validatePosition (s_buf s1) after lineage = Ok g -> rtc capture_step s1 s2 ->
  ScanFrom (s_buf s2) g = Ok it ->
  exists out err, yields it out err /\ StronglySorted evt_lt out /\
    (forall e, e ∈ out -> at_or_after after e /\
       exists r e0, r ∈ s_history s2 /\ req_event r = Some e0 /\ (e = e0 \/ e = stored e0)) /\
    (err = None -> forall r e0, r ∈ s_history s2 -> req_event r = Some e0 -> at_or_after after e0 ->
       exists e, e ∈ out /\ BufferKey e = BufferKey e0) /\
    (err = None -> after <> [] -> exists e, e ∈ out /\ BufferKey e = after).
Proof.
  intros Hi%reachable_inv Hv Hr Hs. destruct (captures_history _ _ Hi Hr) as (Hi2 & Hh & Hf).
  destruct (validatePosition_ok _ _ _ _ Hv) as (Hc1 & _ & Hg & Hfl & Hp).
  destruct (scan_complete s2 after g it Hi2 Hg ltac:(by rewrite Hf) Hs) as (out & err & Hy & Hso & Hsd & Hco).
  exists out, err. split_and!; [done..|]. intros He Ha. specialize (Hp Ha).
  destruct (history_present s1 Hi Hc1) as (_ & _ & P3 & P4). destruct (P4 _ Hp) as (r & Hr1 & Hk).
  destruct (P3 r Hr1) as (e0 & t & E0 & _ & _ & _ & Hok & Hk' & _).
  destruct (Hco He r e0) as (e & He' & Ee); [by apply (elem_of_prefix _ _ _ Hr1 Hh)|done| |exists e; split; [done|congruence]].
  destruct (group_inv _ _ Hg) as [[? _]|(c & rest & Hc & -> & Ek & _)]; [done|]. right. exists c, rest. split_and!; [done|done|].
  rewrite Hk, Ek in Hk'. unfold BufferKey in Hk'. rewrite (FormatBufferKey_split (evt_ClusterTime e0)) in Hk'.
  apply FormatBufferKey_prefix in Hk' as ->; [|done|apply Hok]. by rewrite (proj2 (ct_Compare_eq _ _) eq_refl).
Qed.

(** ** The checkpoint *)

(** The write is in the database, with a value accepted under its key, or retention
    recorded that it may be gone. *)
Definition kept_or_pruned s (r : writeRequest) : Prop :=
  (exists r', r' ∈ writes (s_log s) /\ req_key r' = req_key r /\ s_content s !! req_key r = Some (req_value r')) \/
  key_le (req_key r) (floor_of (s_content s)).

(** C11: the checkpoint does not run ahead of the events. In every reachable state
    the token [LoadCheckpoint] returns is the last token among the durable entries,
    the durable writes are a prefix of the accepted ones in the order of their
    acceptance, and each of them is in the database, with a value accepted under its
    key, unless pruning removed it and recorded so: a capture that resumes after
    the token repeats no durable event and skips none that was accepted. *)
Theorem checkpoint_durable s t :
  reachable s -> LoadCheckpoint (s_buf s) = Ok t ->
  t = checkpoint_of (s_log s) /\ writes (s_log s) `prefix_of` s_history s /\
  (forall r, r ∈ writes (s_log s) -> kept_or_pruned s r).
Proof.
  intros Hi%reachable_inv Hl. pose proof Hi as [[D1 D2 D3 D4] I2 I3 I4 I5 I6 I7]. split_and!.
  - unfold LoadCheckpoint in Hl. destruct (b_closed _); [done|]. destruct (db_Get _ _) as [r|] eqn:E; [|done].
    apply db_Get_law in E. injection Hl as <-. rewrite E. exact D4.
  - destruct (s_flush s); try (rewrite I5; by apply prefix_app_r). by destruct I5.
  - intros r Hr. destruct (D3 r Hr) as [[v Hv]|Hle]; [left|by right]. rewrite Forall_forall in D1.
    destruct (D2 _ _ Hv (wf_request_key r (D1 r Hr))) as (r' & Hr' & Hk & <-). by exists r'.
Qed.

(** ** The queue *)
Lemma flush_take_spec b b' : flush_take b = Some b' -> 0 < b_batchSize b ->
  b_pending b = b_flushing b' ++ b_pending b' /\ b_db b' = b_db b /\ b_closed b' = b_closed b /\ b_failure b' = b_failure b /\
  b_batchSize b' = b_batchSize b /\ 0 < Z.of_nat (length (b_flushing b')) <= b_batchSize b.
Proof.
  unfold flush_take. destruct (b_pending b) as [|r l] eqn:E; [done|]. rewrite <- E. intros [= <-] Hb. cbn. split_and!; try done.
  - by rewrite take_drop.
  - rewrite length_take, E. cbn. lia.
  - rewrite length_take. lia.
Qed.

(** The queue is bounded. In every reachable state the requests waiting and in
    flight are at most [queueSize], and a batch the batcher takes is the oldest
    nonempty part of the queue, of at most [batchSize] requests. *)
Theorem queue_bounded s :
  reachable s ->
  0 <= queued (s_buf s) <= b_queueSize (s_buf s) /\
  (forall b, flush_take (s_buf s) = Some b ->
     b_pending (s_buf s) = b_flushing b ++ b_pending b /\ 0 < Z.of_nat (length (b_flushing b)) <= b_batchSize (s_buf s)).
Proof.
  intros Hi%reachable_inv. destruct (i_bound _ Hi) as [Hq Hb]. split; [unfold queued in *; lia|].
  intros b Hf. by destruct (flush_take_spec _ _ Hf Hb) as (? & _ & _ & _ & _ & ?).
Qed.

Lemma flush_outcome b b' err : flush b = (b', err) -> b_pending b <> [] -> 0 < b_batchSize b -> Forall wf_request (b_pending b) ->
  exists taken, b_pending b = taken ++ b_pending b' /\ taken <> [] /\ b_flushing b' = [] /\ b_batchSize b' = b_batchSize b /\
  match err with
  | Some e => b_failure b' = Some e /\ b_closed b' = true
  | None => b_failure b' = b_failure b /\ b_closed b' = b_closed b /\
      (forall r, r ∈ taken -> is_Some (content (b_db b') !! req_key r)) /\
      (forall k, isMetadataKey k = false -> is_Some (content (b_db b) !! k) -> is_Some (content (b_db b') !! k)) /\
      content (b_db b') !! checkpointKey = match checkpoint_token taken with Some t => Some t | None => content (b_db b) !! checkpointKey end
  end.
Proof.
  intros Hf Hp Hb Hw. unfold flush in Hf. destruct (flush_take b) as [b1|] eqn:E; [|by unfold flush_take in E; destruct (b_pending b)].
  destruct (flush_take_spec _ _ E Hb) as (Hq & Hd & Hcl & Hfa & Hbs & Hlen).
  destruct (flush_commit _ _) as [d e] eqn:Ec. injection Hf as <- <-. exists (b_flushing b1). cbn.
  split_and!; [done|by intros H; rewrite H in Hlen; cbn in Hlen; lia|done|done|]. destruct e as [e|]; [done|].
  rewrite Hq in Hw. apply Forall_app in Hw as [Hw _].
  destruct (flush_commit_cases _ _ _ _ Ec) as [(batch & Hba & ->)|[[? ?] _]]; [|done]. rewrite Hd in *.
  destruct (flush_batch_written _ _ _ Hw Hba) as (W1 & W2 & W3). split_and!; [done|done| | |].
  - intros r Hr. rewrite apply_ops_lookup. destruct (W3 r Hr) as [v ->]. done.
  - intros k Hk Hs. rewrite apply_ops_lookup. destruct (written batch k) as [w|] eqn:Ew; [|done].
    destruct (W2 k w Hk Ew) as (r & _ & _ & ->). done.
  - rewrite apply_ops_lookup, W1, decide_True by done. by destruct (checkpoint_token _).
Qed.

(** Every request that waited in [b] is in the database of [b'], with the token of
    the last one, and none waits. *)
Definition drained (b b' : Buffer) : Prop :=
  b_pending b' = [] /\ (forall r, r ∈ b_pending b -> is_Some (content (b_db b') !! req_key r)) /\
  (forall r, last (b_pending b) = Some r -> content (b_db b') !! checkpointKey = req_token r).

(** C13: closing drains the queue. Once the buffer is closed the batcher's loop ends
    after at most one flush per waiting request; either a flush failed and the
    buffer reports it, or the queue is empty, every request that waited is in the
    database and the checkpoint is the token of the last of them. *)
Theorem close_drains b :
  b_closed b = true -> b_failure b = None -> 0 < b_batchSize b -> Forall wf_request (b_pending b) ->
  exists b', runBatcher (length (b_pending b)) b = Some b' /\ (is_Some (b_failure b') \/ drained b b').
Proof.
  intros Hc Hf Hb Hw.
  cut (forall n b, (length (b_pending b) <= n)%nat -> b_closed b = true -> b_failure b = None -> 0 < b_batchSize b -> Forall wf_request (b_pending b) ->
    exists b', runBatcher n b = Some b' /\
      (is_Some (b_failure b') \/
       (b_pending b' = [] /\ (forall r, r ∈ b_pending b -> is_Some (content (b_db b') !! req_key r)) /\
        (forall k, isMetadataKey k = false -> is_Some (content (b_db b) !! k) -> is_Some (content (b_db b') !! k)) /\
        content (b_db b') !! checkpointKey =
          match checkpoint_token (b_pending b) with Some t => Some t | None => content (b_db b) !! checkpointKey end))).
  { intros H. destruct (H _ b (le_n _) Hc Hf Hb Hw) as (b' & Hr & [?|(? & ? & _ & Hk)]); exists b'; (split; [done|]); [by left|right].
    split_and!; [done|done|]. intros r Hl. rewrite Hk. apply last_Some in Hl as [l' El]. rewrite El in Hw |- *.
    apply Forall_app in Hw as [_ Hw]. apply Forall_cons in Hw as [(e & t & _ & Ht & _) _]. unfold checkpoint_token.
    rewrite foldl_app; cbn. by rewrite Ht. }
  clear. induction n as [|n IH]; intros b Hn Hc Hf Hb Hw.
  - destruct (b_pending b) as [|? ?] eqn:Ep; [|cbn in Hn; lia]. exists b. cbn. unfold batcher_returns. rewrite Hc, Ep, bool_decide_true by done.
    split; [done|right]. split_and!; [done|by intros ? ?%elem_of_nil|done|done].
  - cbn [runBatcher]. destruct (batcher_returns b) eqn:Er.
    + unfold batcher_returns in Er. apply andb_true_iff in Er as [_ Er%bool_decide_eq_true]. exists b. split; [done|right]. rewrite Er.
      split_and!; [done|by intros ? ?%elem_of_nil|done|done].
    + assert (b_pending b <> []) as Hp by (intros H; unfold batcher_returns in Er; by rewrite Hc, H in Er).
      destruct (flush b) as [b1 err] eqn:Efl. destruct (flush_outcome _ _ _ Efl Hp Hb Hw) as (taken & Hq & Hne & _ & Hbs & H).
      destruct err as [e|]; [exists b1; split; [done|left; destruct H as [-> _]; done]|].
      destruct H as (Hf1 & Hc1 & Ht & Hk & Hck). rewrite Hq in Hn, Hw. apply Forall_app in Hw as [Hwt Hw]. rewrite length_app in Hn.
      destruct (IH b1) as (b' & Hr & Hor); [destruct taken; [done|cbn in Hn; lia]|congruence|congruence|by rewrite Hbs|done|].
      exists b'. split; [done|]. destruct Hor as [?|(P1 & P2 & P3 & P4)]; [by left|right]. rewrite Hq. split_and!; [done| |auto|].
      * intros r [Hr'|Hr']%elem_of_app; [|auto]. apply P3; [|auto].
        rewrite Forall_forall in Hwt. by apply wf_request_key, Hwt.
      * rewrite P4, Hck. unfold checkpoint_token. rewrite foldl_app, (checkpoint_token_from (foldl _ None taken)).
        unfold checkpoint_token. by destruct (foldl _ None (b_pending b1)).
Qed.

(** ** Retention *)
Definition event_in (b : Buffer) (k : bytes) : Prop := is_Some (content (b_db b) !! k) /\ isMetadataKey k = false.

Lemma event_keys_sorted_back rows : StronglySorted (fun a b => row_lt b a) rows ->
  StronglySorted (fun a b => bytes_compare b a = Lt) (event_keys rows).
Proof.
  induction 1 as [|[k v] rows Hs IH Hx]; [constructor|]. unfold event_keys in *. cbn. destruct (isMetadataKey k); [done|]. cbn.
  constructor; [done|]. apply Forall_forall. intros k' Hk'. fold (event_keys rows) in Hk'. apply event_keys_elem in Hk' as [[v' Hv] _].
  rewrite Forall_forall in Hx. exact (Hx _ Hv).
Qed.

(** The newest event, among those before the cutoff when pruning by age. *)
Definition newest (b : Buffer) (before : bytes) (age : bool) (k : bytes) : Prop :=
  event_in b k /\ (age = true -> bytes_compare k before = Lt) /\
  forall k', event_in b k' -> (age = true -> bytes_compare k' before = Lt) -> key_le k' k.

Lemma protected_group_ok b before age g : protected_group (b_db b) before age = Ok g ->
  (g = [] /\ forall k, event_in b k -> age = true /\ bytes_compare k before <> Lt) \/
  (exists k, newest b before age k /\ timestampGroupStart k = Ok g).
Proof.
  unfold protected_group. destruct (db_IterBack _ _ _) as [[[rows e] c]|] eqn:Ei; [|done].
  apply db_IterBack_law in Ei as (Hs & Hr & Hall & Hpre). set (upper := if age then Some before else None) in *.
  assert (Hin : forall k, in_range [] upper k = true <-> (age = true -> bytes_compare k before = Lt)).
  { intros k. unfold in_range. assert (bytes_leb [] k = true) as -> by (apply bytes_leb_le, bytes_nil_le). cbn. unfold upper.
    destruct age; cbn; [rewrite bytes_ltb_lt; naive_solver|naive_solver]. }
  destruct (event_keys rows) as [|k0 ks] eqn:Ek.
  - destruct (errors_Join _) eqn:Ej; [done|]. intros [= <-]. left. split; [done|]. intros k [[v Hv] Hk].
    destruct e as [e|]; [done|].
    assert (~ (age = true -> bytes_compare k before = Lt)) as H.
    { intros H. pose proof (Hall eq_refl k v Hv (proj2 (Hin k) H)) as Hrow.
      assert (k ∈ event_keys rows) as H' by (apply event_keys_elem; split; [by exists v|done]). rewrite Ek in H'. by apply elem_of_nil in H'. }
    destruct age; [|by destruct H]. split; [done|]. intros E. by destruct H.
  - destruct (timestampGroupStart k0) as [g'|] eqn:Eg; [|by destruct c].
    destruct (errors_Join _); [done|]. intros [= ->]. right. exists k0. split; [|done].
    assert (k0 ∈ event_keys rows) as H0 by (rewrite Ek; by left). apply event_keys_elem in H0 as [[v Hv] Hk0].
    destruct (Hr _ Hv) as [Hc Hrange]. cbn in Hc, Hrange. split_and!; [split; [by eexists|done]|by apply Hin|].
    intros k' [[v' Hv'] Hk'] Hb. destruct (bytes_compare k' k0) eqn:C; [by unfold key_le; rewrite C..|]. exfalso.
    assert ((k', v') ∈ rows) as Hrow.
    { apply (Hpre k' v' (k0, v)); [done|by apply Hin|done|]. cbn. by apply bytes_compare_lt_gt. }
    assert (k' ∈ event_keys rows) as H' by (apply event_keys_elem; split; [by exists v'|done]).
    pose proof (event_keys_sorted_back rows Hs) as Hso. rewrite Ek in Hso, H'. apply StronglySorted_inv in Hso as [_ Hx].
    apply elem_of_cons in H' as [->|H']; [by rewrite bytes_compare_refl in C|]. rewrite Forall_forall in Hx. specialize (Hx _ H').
    cbn in Hx. congruence.
Qed.

Lemma deleteBeforeLocked_spec b before b' n : deleteBeforeLocked b before = (b', Ok n) ->
  exists keys, n = Z.of_nat (length keys) /\ NoDup keys /\
    (forall k, k ∈ keys <-> event_in b k /\ bytes_compare k before = Lt) /\
    (forall k, isMetadataKey k = false -> content (b_db b') !! k = if bool_decide (k ∈ keys) then None else content (b_db b) !! k) /\
    (forall k, k ∈ keys -> key_le k (floor_of (content (b_db b')))) /\
    key_le (floor_of (content (b_db b))) (floor_of (content (b_db b'))).
Proof.
  unfold deleteBeforeLocked. destruct (b_closed b); [done|]. destruct (prune_batch _ _) as [[[batch count]|]|] eqn:Ep; [| |done].
  - destruct (prune_commit _ _ _) as [d r] eqn:Ec. intros [= <- ->]. destruct (prune_batch_ok _ _ _ _ Ep) as ([_ Hfl] & keys & -> & Hnd & Hk & Hw & f & Hf & Hle).
    assert (n = Z.of_nat (length keys)) as ->.
    { unfold prune_commit in Ec. destruct (batch_Commit _ _) as [d1 [e|]]; [done|]. by injection Ec. }
    destruct (prune_commit_cases _ _ _ _ _ Ec) as [Hd|[_ ?]]; [|done]. cbn [b_db set_db]. rewrite Hd. exists keys.
    split_and!; [done|done| | | |done].
    + intros k. rewrite Hk. unfold event_in. naive_solver.
    + intros k Hm. rewrite apply_ops_lookup, Hw by (by intros ->). by case_bool_decide.
    + intros k Hin. destruct (Hk k) as [Hk1 _]. destruct (Hk1 Hin) as (_ & Hm & _).
      assert (written batch k = Some None) as Ew by (rewrite Hw, bool_decide_true; [done|done|by intros ->]).
      destruct (prune_batch_ok _ _ _ _ Ep) as ([Hp _] & _). destruct (Hp k None Ew) as [->|(_ & _ & ?)]; done.
  - intros [= <- <-]. exists []. unfold prune_batch in Ep. destruct (db_Iter _ _ _) as [[[rows e] c]|] eqn:Ei; [|done].
    apply db_Iter_law in Ei as (_ & _ & Hall & _). apply bind_ok in Ep as (b1 & _ & Ep). destruct e; [done|].
    destruct (last (event_keys rows)) as [f|] eqn:El; [by apply bind_ok in Ep as (? & _ & ?)|]. apply last_None in El.
    split_and!; [done|constructor| |done|by intros ? ?%elem_of_nil|apply key_le_refl].
    intros k. split; [by intros ?%elem_of_nil|]. intros [[[v Hv] Hm] Hlt]. exfalso.
    assert (k ∈ event_keys rows) as H; [|rewrite El in H; by apply elem_of_nil in H]. apply event_keys_elem. split; [|done].
    exists v. apply Hall; [done|done|]. unfold in_range. assert (bytes_leb [] k = true) as -> by (apply bytes_leb_le, bytes_nil_le).
    by apply bytes_ltb_lt.
Qed.

(** C12: retention keeps the newest group. When [PruneBefore] or [PruneExpired]
    succeeds it removed exactly the events before the cutoff and before the group of
    the newest event (for [PruneExpired], the newest one before the cutoff), it
    reports their number, the pruning floor is at or above each of them and did not
    go back; every other event is unchanged, so the newest group stays whole. *)
Theorem retention_keeps_group b before age b' n :
  wf_content (content (b_db b)) -> pruneBefore b before age = (b', Ok n) ->
  exists removed, n = Z.of_nat (length removed) /\ NoDup removed /\
    (forall k, isMetadataKey k = false -> content (b_db b') !! k = if bool_decide (k ∈ removed) then None else content (b_db b) !! k) /\
    (forall k, k ∈ removed <-> event_in b k /\ bytes_compare k before = Lt /\
       exists top g, newest b before age top /\ timestampGroupStart top = Ok g /\ bytes_compare k g = Lt) /\
    (forall k, k ∈ removed -> key_le k (floor_of (content (b_db b')))) /\
    key_le (floor_of (content (b_db b))) (floor_of (content (b_db b'))).
Proof.
  intros Hwf. unfold pruneBefore. destruct (b_closed b) eqn:Ecl; [done|].
  destruct (protected_group _ _ _) as [g|] eqn:Ep; [|done]. apply protected_group_ok in Ep as [[-> Hno]|(top & Htop & Hg)].
  { intros [= <- <-]. exists []. split_and!; try done; [constructor| |by intros ? ?%elem_of_nil|apply key_le_refl].
    intros k. split; [by intros ?%elem_of_nil|]. intros (He & Hlt & _). destruct (Hno k He) as [_ ?]. done. }
  assert (g <> []) as Hne.
  { destruct (group_inv _ _ Hg) as [[-> _]|(c & rest & Hc & -> & _)].
    - destruct Htop as ([[v Hv] Hm] & _). destruct (Hwf [] v Hv Hm) as (e & _ & Hok & E & _). by destruct (BufferKey_nonempty e Hok).
    - destruct (FormatBufferKey_head c "" Hc) as (? & ? & -> & _). done. }
  intros H. assert (deleteBeforeLocked b (min_key before g) = (b', Ok n)) as Hd by (by destruct g).
  destruct (deleteBeforeLocked_spec _ _ _ _ Hd) as (keys & Hn & Hnd & Hk & Hc & Hf & Hfl). exists keys. split_and!; try done.
  intros k. rewrite Hk. assert (bytes_compare k (min_key before g) = Lt <-> bytes_compare k before = Lt /\ bytes_compare k g = Lt) as Hmin.
  { unfold min_key. destruct (bytes_ltb g before) eqn:E; [apply bytes_ltb_lt in E|].
    - split; [|tauto]. intros Hkg. split; [by eapply bytes_compare_trans|done].
    - split; [|tauto]. intros Hkb. split; [done|]. apply key_le_not_lt in E. unfold key_le in E.
      destruct (bytes_compare before g) eqn:C; [by apply bytes_compare_eq in C as <-|by eapply bytes_compare_trans|done]. }
  rewrite Hmin. split; [intros (He & H1 & H2); split_and!; [done|done|by exists top, g]|].
  intros (He & Hlt & top' & g' & Htop' & Hg' & Hlt'). split_and!; [done|done|]. assert (top' = top) as ->.
  { destruct Htop as (T1 & T2 & T3), Htop' as (T1' & T2' & T3'). specialize (T3 top' T1' T2'). specialize (T3' top T1 T2).
    unfold key_le in *. destruct (bytes_compare top' top) eqn:C; [by apply bytes_compare_eq|by apply bytes_compare_lt_gt in C|done]. }
  congruence.
Qed.
End Facts.

(** ** A run: two events in one batch, a boundary, a third event in the queue *)
Section Witnesses.
#[local] Existing Instance map_pebble.
#[local] Existing Instance map_back.
#[local] Existing Instance tick_codec.

Definition sample_acts : list act := [AWrite "a" [1]; AWrite "bb" [2]; AFlush; ASave [3]; AWrite "ccc" [4]].
Definition sample_state : sys := tick_state sample_acts.

Lemma replay_complete_witness :
  exists g it out err, validatePosition (s_buf sample_state) (BufferKey (tick "bb")) (b_lineage (s_buf sample_state)) = Ok g /\
    ScanFrom (s_buf sample_state) g = Ok it /\ yields it out err /\ StronglySorted evt_lt out /\
    (err = None -> exists e, e ∈ out /\ BufferKey e = BufferKey (tick "bb")).
Proof.
  destruct (validatePosition (s_buf sample_state) (BufferKey (tick "bb")) (b_lineage (s_buf sample_state))) as [g|] eqn:Ev;
    [|vm_compute in Ev; discriminate].
  destruct (ScanFrom (s_buf sample_state) g) as [it|] eqn:Es; [|vm_compute in Ev; injection Ev as <-; vm_compute in Es; discriminate].
  destruct (replay_complete sample_state sample_state (BufferKey (tick "bb")) (b_lineage (s_buf sample_state)) g it
    (tick_reachable sample_acts) Ev (rtc_refl _ _) Es) as (out & err & Hy & Hs & _ & _ & Hp).
  exists g, it, out, err. split; [reflexivity|]. split; [exact Es|]. split; [exact Hy|]. split; [exact Hs|].
  intros He. apply Hp; [exact He|discriminate].
Defined.

Lemma checkpoint_durable_witness : checkpoint_of (s_log sample_state) = Some [3] /\ length (s_history sample_state) = 3%nat.
Proof.
  split; [|vm_compute; reflexivity].
  symmetry. apply (checkpoint_durable sample_state (Some [3]) (tick_reachable sample_acts)). vm_compute. reflexivity.
Defined.

Lemma queue_bounded_witness : 0 <= queued (s_buf sample_state) <= 3.
Proof. exact (proj1 (queue_bounded sample_state (tick_reachable sample_acts))). Defined.

(** A closed buffer with two requests waiting. *)
Definition sample_closed : Buffer := Close_begin (s_buf (tick_state [AWrite "a" [1]; AWrite "bb" [2]])).

Lemma close_drains_witness :
  exists b, runBatcher 2 sample_closed = Some b /\ (is_Some (b_failure b) \/ b_pending b = []).
Proof.
  destruct (close_drains sample_closed) as (b & Hr & Hor).
  - vm_compute. reflexivity.
  - vm_compute. reflexivity.
  - vm_compute. reflexivity.
  - repeat constructor; eexists _, _; repeat (split; try reflexivity; try discriminate); vm_compute; discriminate.
  - exists b. split; [exact Hr|]. destruct Hor as [H|[H _]]; [left|right]; exact H.
Defined.

(** Pruning everything keeps the event of the newest group. *)
Definition sample_pruned : Buffer * res buffer_error Z :=
  pruneBefore (s_buf sample_state) (BufferKey (tick "zzzz")) false.

Lemma retention_keeps_group_witness :
  exists removed, 1 = Z.of_nat (length removed) /\
    forall k, k ∈ removed -> key_le k (floor_of (content (b_db sample_pruned.1))).
Proof.
  destruct (retention_keeps_group (s_buf sample_state) (BufferKey (tick "zzzz")) false sample_pruned.1 1) as (removed & Hn & _ & _ & _ & Hf & _).
  - apply (inv_wf_content sample_state), reachable_inv, tick_reachable.
  - change (sample_pruned = (sample_pruned.1, Ok 1)). transitivity (sample_pruned.1, sample_pruned.2); [apply surjective_pairing|].
    apply (f_equal (pair sample_pruned.1)). vm_compute. reflexivity.
  - exists removed. split; [exact Hn|exact Hf].
Defined.
End Witnesses.
