(* ===== verification/Replay.v ===== *)
(** * Replay and capture boundaries: internal/puller/core/puller.go (Replay,
      ReplayFromAdmission, ReplayRetained, replay, backendInjectingIterator) and
      boundary.go

    The streams of the backends' buffers merged into one, opened only at positions
    the buffers still cover, and the readiness of the capture behind them. *)
From stdpp Require Import base list sorting gmap strings relations.
From Stdlib Require Import ZArith.
From S2P Require Import Prelude Value IndexStore Codec Projection Intervals Pebble Events Coalescer Merge Progress Admission Buffer BufferScan.
Local Open Scope Z_scope.

(** Errors of capture, as [errors.Is] tells them apart. *)
Inductive capture_error :=
| ErrCaptureUnavailable (detail : string)
| ErrCaptureFailed (detail : string)
| ErrCaptureCanceled
| ErrCaptureOther (detail : string).

Inductive replay_error :=
| NoFloors                                       (** admission replay requires backend floors *)
| UnknownReplayBackend (name : string) | UnknownRecoveryBackend (name : string)
| InvalidEventID (id name : string)
| BackendFailed (name : string) (e : buffer_error)
| BufferFailed (e : buffer_error)
| CaptureError (e : capture_error) | BackendCapture (name : string) (e : capture_error)
| NotAdmitted (name : string) | MissingCheckpoint (name : string) | NoBackends
| BufferNotEmpty (name : string) | NoSourceBoundary (name : string)
| InvalidMarker (e : string) | BoundaryMismatch | BoundaryMissing (name : string) | BoundaryNoLineage (name : string)
| BoundaryEventID (id : string)
| CanceledContext (e : string).

Section Replay.
Context `{PB : Pebble} {BK : PebbleBack} {EC : EventCodec} `{GH : GoHeap} `{RO : RangeOrder}.

(** A signal closes the channel [captureChanged] and makes a new one: the channel is
    the number of signals. *)
Record Backend := {
  be_buffer : Buffer; be_captureActive : bool; be_captureError : option capture_error;
  be_captureResponse : option Z; be_captureChanged : nat;
}.
Definition Backends : Type := gmap string Backend.

(** ** Iterators *)
Record backendInjectingIterator := { bj_Iterator : deduplicatingIterator; bj_backendName : string }.

Definition set_Backend (e : StoreChangeEvent) (backend : string) : StoreChangeEvent := {|
  evt_EventID := evt_EventID e; evt_Database := evt_Database e; evt_MgoColl := evt_MgoColl e; evt_MgoDocID := evt_MgoDocID e;
  evt_OpType := evt_OpType e; evt_FullDocument := evt_FullDocument e; evt_UpdateDesc := evt_UpdateDesc e;
  evt_ClusterTime := evt_ClusterTime e; evt_TxnNumber := evt_TxnNumber e; evt_Timestamp := evt_Timestamp e; evt_Backend := backend |}.

Definition inject (name : string) (e : StoreChangeEvent) : StoreChangeEvent :=
  if String.eqb (evt_Backend e) "" then set_Backend e name else e.
Definition bj_Event (i : backendInjectingIterator) : option StoreChangeEvent :=
  inject (bj_backendName i) <$> dd_Event (bj_Iterator i).
Definition bj_Next (i : backendInjectingIterator) : bool * backendInjectingIterator :=
  let '(more, it) := dd_Next (bj_Iterator i) in (more, {| bj_Iterator := it; bj_backendName := bj_backendName i |}).

#[export] Instance bj_iterator : EventIterator backendInjectingIterator.
Proof.
  refine {| iter_next := bj_Next; iter_event := bj_Event; iter_err i := iter_err (bj_Iterator i) |}.
  intros [it name] [it' name'] E. unfold bj_Next in *. cbn in *. destruct (dd_Next it) as [more it1] eqn:E1. injection E as -> <- <-.
  pose proof (iter_ended (EventIterator := dd_iterator) _ _ E1) as E2. cbn in E2. by rewrite E2.
Defined.

(** The merged stream, coalesced when asked. *)
Inductive replay_stream :=
| Merged (it : MergeIterator backendInjectingIterator)
| Coalesced (it : CoalescingIterator (MergeIterator backendInjectingIterator)).

(** ** replay *)

(** Where a backend starts: its saved event with its group, and the group to replay
    from. [None]: the backend has no floor and is skipped. *)
Record replay_start := { rs_startID : bytes; rs_savedGroup : bytes; rs_groupStart : bytes }.

Definition backend_start (name : string) (after : option (gmap string string)) (firstBroadcast : option (gmap string ClusterTime))
    : res replay_error (option replay_start) :=
  let floor := firstBroadcast ≫= fun m => m !! name in
  match firstBroadcast, floor with
  | Some _, None => Ok None
  | _, _ =>
      '(startID, groupStart) ←
        (let eventID := match after with Some m => default "" (m !! name) | None => "" end in
         if String.eqb eventID "" then Ok ([], [])
         else match ParseEventID eventID with
              | None => Err (InvalidEventID eventID name)
              | Some ct => Ok (FormatBufferKey ct eventID, FormatBufferKey ct "")
              end);
      let groupStart' := match floor with
                         | Some floor => let admissionStart := FormatBufferKey floor "" in
                             if bytes_ltb groupStart admissionStart then admissionStart else groupStart
                         | None => groupStart
                         end in
      Ok (Some {| rs_startID := startID; rs_savedGroup := groupStart; rs_groupStart := groupStart' |})
  end.

(** The iterator of a backend; [b] is its buffer when the loop reaches it. *)
Definition open_backend (name : string) (b : Buffer) (lineages : option (gmap string string))
    (floor : option ClusterTime) (retained : bool) (st : replay_start) : res buffer_error deduplicatingIterator :=
  if retained then
    let lineage := default (b_lineage b) (lineages ≫= fun m => m !! name) in
    match floor with
    | Some floor =>
        if bytes_eqb (rs_startID st) [] || bytes_ltb (rs_savedGroup st) (rs_groupStart st)
        then ScanFromGroup b floor lineage
        else ScanFromLineage b (rs_startID st) lineage
    | None => ScanFromLineage b (rs_startID st) lineage
    end
  else match lineages with
  | Some m => ScanFromLineage b (rs_startID st) (default "" (m !! name))
  | None => ScanFrom b (rs_groupStart st)
  end.

Fixpoint replay_loop (backends : list (string * Backend)) (after lineages : option (gmap string string))
    (firstBroadcast : option (gmap string ClusterTime)) (retained : bool) : res replay_error (list backendInjectingIterator) :=
  match backends with
  | [] => Ok []
  | (name, backend) :: backends =>
      start ← backend_start name after firstBroadcast;
      match start with
      | None => replay_loop backends after lineages firstBroadcast retained
      | Some st =>
          it ← map_err (BackendFailed name)
                 (open_backend name (be_buffer backend) lineages (firstBroadcast ≫= fun m => m !! name) retained st);
          its ← replay_loop backends after lineages firstBroadcast retained;
          Ok ({| bj_Iterator := it; bj_backendName := name |} :: its)
      end
  end.

Definition replay (p : Backends) (after lineages : option (gmap string string)) (firstBroadcast : option (gmap string ClusterTime))
    (coalesce retained : bool) : res replay_error replay_stream :=
  iters ← replay_loop (range p) after lineages firstBroadcast retained;
  let iter := NewMergeIterator iters in
  Ok (if coalesce then Coalesced (NewCoalescingIterator iter 100) else Merged iter).

Definition Replay (p : Backends) (after : option (gmap string string)) (coalesce : bool) : res replay_error replay_stream :=
  replay p after None None coalesce false.

Definition ReplayFromAdmission (p : Backends) (after : option (gmap string string)) (firstBroadcast : option (gmap string ClusterTime))
    : res replay_error replay_stream :=
  match firstBroadcast with
  | None => Err NoFloors
  | Some _ => replay p after None firstBroadcast false false
  end.

Definition ReplayRetained (p : Backends) (progress : ProgressMarker) (firstBroadcast : option (gmap string ClusterTime))
    : res replay_error replay_stream :=
  match List.find (fun x => bool_decide (p !! x.1 = None)) (range (pm_Positions progress)) with
  | Some (name, _) => Err (UnknownReplayBackend name)
  | None =>
      match List.find (fun x => bool_decide (p !! x.1 = None)) (range (default ∅ firstBroadcast)) with
      | Some (name, _) => Err (UnknownRecoveryBackend name)
      | None => replay p (Some (pm_Positions progress)) (pm_Lineages progress) firstBroadcast false true
      end
  end.

(** ** Capture state *)
Definition setCaptureState (b : Backend) (active : bool) (err : option capture_error) : Backend :=
  {| be_buffer := be_buffer b; be_captureActive := active; be_captureError := err;
     be_captureResponse := be_captureResponse b; be_captureChanged := S (be_captureChanged b) |}.
Definition recordCaptureResponse (b : Backend) (at_ : Z) : Backend :=
  {| be_buffer := be_buffer b; be_captureActive := be_captureActive b; be_captureError := be_captureError b;
     be_captureResponse := Some at_; be_captureChanged := be_captureChanged b |}.

(** Active only while the last native response is fresh. *)
Definition captureState (b : Backend) (now : Z) : bool * option capture_error :=
  if be_captureActive b && stale now (be_captureResponse b)
  then (false, Some (ErrCaptureUnavailable "")) else (be_captureActive b, be_captureError b).

(** One round of [waitCapture]; [ctx] is the reading of [ctx.Err()]. *)
Definition waitCapture (b : Backend) (now : Z) (ctx : option string) : attempt (res replay_error unit) :=
  match ctx with
  | Some e => Done (Err (CanceledContext e))
  | None =>
      let '(active, err) := captureState b now in
      if active then Done (Ok tt)
      else match err with Some e => Done (Err (CaptureError e)) | None => Waits end
  end.

Definition is_terminal (e : capture_error) : bool :=
  match e with ErrCaptureUnavailable _ | ErrCaptureCanceled => false | _ => true end.
Fixpoint terminal_loop (backends : list (string * Backend)) : option replay_error :=
  match backends with
  | [] => None
  | (name, b) :: backends =>
      match be_captureError b with
      | Some e => if is_terminal e then Some (BackendCapture name e) else terminal_loop backends
      | None => terminal_loop backends
      end
  end.
Definition TerminalError (p : Backends) : option replay_error := terminal_loop (range p).

Definition checkCapture (name : string) (b : Backend) (now : Z) : res replay_error unit :=
  let '(active, err) := captureState b now in
  if active then Ok tt else Err (match err with Some e => BackendCapture name e | None => NotAdmitted name end).

Definition ready_backend (now : Z) (x : string * Backend) : res replay_error unit :=
  _ ← checkCapture x.1 x.2 now;
  token ← map_err (BackendFailed x.1) (LoadCheckpoint (be_buffer x.2));
  match default [] token with [] => Err (MissingCheckpoint x.1) | _ => Ok tt end.

Definition done_or {A} (err : option string) (k : res replay_error A) : res replay_error A :=
  match err with Some e => Err (CanceledContext e) | None => k end.

(** [p1] and [p2] are the backends when the first and the second loop read them,
    the contexts the readings of [ctx.Err()] and [p.lifetime.Err()]. *)
Definition Readiness (p1 p2 : Backends) (now1 now2 : Z) (ctx1 life1 ctx2 life2 : option string) : res replay_error unit :=
  done_or ctx1 (done_or life1 (
    if (size p1 =? 0)%nat then Err NoBackends
    else
      _ ← mapM_res (ready_backend now1) (range p1);
      done_or ctx2 (done_or life2 (
        _ ← mapM_res (fun x => checkCapture x.1 x.2 now2) (range p2); Ok tt)))).

(** ** Boundaries *)

(** One backend of [BootstrapBoundary], once [waitCapture] and [Flush] have answered. *)
Definition bootstrap_backend (waited : res replay_error unit) (flushed : option buffer_error) (name : string) (b : Buffer)
    : res replay_error unit :=
  _ ← waited;
  match flushed with
  | Some e => Err (BufferFailed e)
  | None =>
      _ ← map_err BufferFailed (ValidatePosition b [] (b_lineage b));
      head ← map_err BufferFailed (Head b);
      if negb (bytes_eqb head []) then Err (BufferNotEmpty name)
      else
        token ← map_err BufferFailed (LoadCheckpoint b);
        match default [] token with [] => Err (NoSourceBoundary name) | _ => Ok tt end
  end.

(** The marker of the boundary: no event of any backend, with the lineages. The answers of
    [waitCapture] and [Flush] are given by backend. *)
Definition BootstrapBoundary (p : Backends) (waited : string -> res replay_error unit) (flushed : string -> option buffer_error)
    : res replay_error ProgressMarker :=
  if (size p =? 0)%nat then Err NoBackends
  else
    _ ← mapM_res (fun x => bootstrap_backend (waited x.1) (flushed x.1) x.1 (be_buffer x.2)) (range p);
    Ok {| pm_Positions := (fun _ => ""%string) <$> p; pm_Lineages := Some ((fun b => b_lineage (be_buffer b)) <$> p) |}.

(** [decoded]: what [DecodeProgressMarker] answered. *)
Definition parseBoundary (p : Backends) (decoded : res string ProgressMarker) : res replay_error ProgressMarker :=
  pm ← map_err InvalidMarker decoded;
  let lineages := default ∅ (pm_Lineages pm) in
  if negb (size (pm_Positions pm) =? size p)%nat || negb (size lineages =? size p)%nat || (size p =? 0)%nat then Err BoundaryMismatch
  else
    _ ← mapM_res (fun x => match pm_Positions pm !! x.1 with
                           | None => Err (BoundaryMissing x.1)
                           | Some _ => if String.eqb (default "" (lineages !! x.1)) "" then Err (BoundaryNoLineage x.1) else Ok tt
                           end) (range p);
    Ok pm.

Definition boundaryKey (id : string) : res replay_error bytes :=
  if String.eqb id "" then Ok []
  else match ParseEventID id with None => Err (BoundaryEventID id) | Some ct => Ok (FormatBufferKey ct id) end.

(** [waited]: the answers of [waitCapture] by backend. *)
Definition ValidateBoundary (p : Backends) (decoded : res string ProgressMarker) (waited : string -> res replay_error unit)
    : res replay_error unit :=
  pm ← parseBoundary p decoded;
  _ ← mapM_res (fun x =>
        _ ← waited x.1;
        key ← boundaryKey (GetPosition pm x.1);
        map_err (BackendFailed x.1) (ValidatePosition (be_buffer x.2) key (default "" (default ∅ (pm_Lineages pm) !! x.1)))) (range p);
  Ok tt.

Definition ReplayBoundary (p : Backends) (decoded : res string ProgressMarker) (coalesce : bool) : res replay_error replay_stream :=
  pm ← parseBoundary p decoded;
  replay p (Some (pm_Positions pm)) (Some (default ∅ (pm_Lineages pm))) None coalesce false.
End Replay.
