(* ===== verification/ReplayFacts.v ===== *)
(** * What a validated replay delivers

    The composition of the buffers with the merge: a replay that checks lineages and
    retention yields every captured event from the positions on, of every backend,
    once and in order. *)
From stdpp Require Import base list sorting gmap strings relations.
From Stdlib Require Import ZArith.
From S2P Require Import Prelude Value IndexStore Codec Projection Intervals Pebble PersistStore Events Coalescer Merge Progress Admission Buffer BufferScan BufferMachine BufferInv BufferModels BufferFacts Replay.
Local Open Scope Z_scope.

(** ** Starts *)
Lemma scan_uint32_u32 l v r : scan_uint32 l = Some (v, r) -> is_u32 v.
Proof.
  unfold scan_uint32. destruct (skip_space l) as [l'|]; [|done]. cbn. destruct (span_digits l') as [[|d ds] r']; [done|].
  destruct (digits_value 0 (d :: ds)) as [x|] eqn:E; [|done]. cbn [mbind option_bind]. destruct (Z.ltb_spec x (2 ^ 32)); [|done].
  intros [= <- <-]. pose proof (digits_value_nonneg 0 _ x ltac:(lia) E). unfold is_u32. lia.
Qed.
Lemma ParseEventID_time id c : ParseEventID id = Some c -> is_cluster_time c.
Proof.
  unfold ParseEventID. destruct (scan_uint32 _) as [[t r]|] eqn:E1; [|done]. cbn. destruct (scan_dash r) as [r1|]; [|done]. cbn.
  destruct (scan_uint32 r1) as [[i r2]|] eqn:E2; [|done]. cbn. destruct (scan_dash r2) as [r3|]; [|done]. cbn.
  destruct (skip_space r3) as [[|]|]; try done. intros [= <-]. apply scan_uint32_u32 in E1, E2. by split.
Qed.

Lemma FormatBufferKey_nonempty c id : FormatBufferKey c id <> [].
Proof. unfold FormatBufferKey. intros E. apply app_eq_nil in E as [_ E]. done. Qed.

(** A saved event and its group. *)
Definition start_ok (st : replay_start) : Prop :=
  (rs_startID st = [] /\ rs_savedGroup st = []) \/
  exists c id, is_cluster_time c /\ rs_startID st = FormatBufferKey c id /\ rs_savedGroup st = FormatBufferKey c "".

Lemma saved_start (eventID name : string) startID g :
  (if String.eqb eventID "" then Ok ([], [])
   else match ParseEventID eventID with
        | None => Err (InvalidEventID eventID name)
        | Some ct => Ok (FormatBufferKey ct eventID, FormatBufferKey ct "")
        end) = Ok (startID, g) ->
  (startID = [] /\ g = []) \/ exists c id, is_cluster_time c /\ startID = FormatBufferKey c id /\ g = FormatBufferKey c "".
Proof.
  destruct (String.eqb eventID ""); [intros [= <- <-]; by left|]. destruct (ParseEventID eventID) as [c|] eqn:E; [|done].
  intros [= <- <-]. right. exists c, eventID. split_and!; [by eapply ParseEventID_time|done|done].
Qed.

Lemma backend_start_ok name after first st : backend_start name after first = Ok (Some st) ->
  start_ok st /\
  rs_groupStart st = match first ≫= fun m => m !! name with
                     | Some floor => if bytes_ltb (rs_savedGroup st) (FormatBufferKey floor "") then FormatBufferKey floor "" else rs_savedGroup st
                     | None => rs_savedGroup st
                     end.
Proof.
  unfold backend_start. destruct first as [m|]; cbn [mbind option_bind]; [destruct (m !! name) as [f|]; [|done]|];
    intros ([startID groupStart] & H1%saved_start & [= <-])%bind_ok; by split.
Qed.

Section Facts.
Context `{PB : Pebble} {BK : PebbleBack} {EC : EventCodec} `{GH : GoHeap} `{RO : RangeOrder}.

(** The modes that validate: positions with lineages, or retained. *)
Definition validating (lineages : option (gmap string string)) (first : option (gmap string ClusterTime)) (retained : bool) : Prop :=
  retained = true \/ (is_Some lineages /\ first = None).

(** They scan from the group start, with nothing pruned after it. *)
Lemma open_backend_ok name b lineages first retained after st it :
  validating lineages first retained -> backend_start name after first = Ok (Some st) ->
  open_backend name b lineages (first ≫= fun m => m !! name) retained st = Ok it ->
  ScanFrom b (rs_groupStart st) = Ok it /\
  (floor_of (content (b_db b)) = [] \/ bytes_compare (floor_of (content (b_db b))) (rs_groupStart st) = Lt).
Proof.
  intros Hv [Hst Hg]%backend_start_ok. set (floor := first ≫= _) in *.
  assert (Hsaved : forall lineage, rs_groupStart st = rs_savedGroup st -> ScanFromLineage b (rs_startID st) lineage = Ok it ->
    ScanFrom b (rs_groupStart st) = Ok it /\
    (floor_of (content (b_db b)) = [] \/ bytes_compare (floor_of (content (b_db b))) (rs_groupStart st) = Lt)).
  { intros lineage E (g & (_ & _ & Htg & Hf & _)%validatePosition_ok & Hs)%bind_ok.
    assert (g = rs_savedGroup st) as ->; [|by rewrite E].
    destruct Hst as [[E1 ->]|(c & id & Hc & E1 & ->)]; rewrite E1 in Htg; [cbn in Htg; congruence|].
    destruct (group_inv _ _ Htg) as [[E2 _]|(c' & rest & Hc' & -> & E2 & _)]; [by destruct (FormatBufferKey_nonempty c id)|].
    rewrite (FormatBufferKey_split c id) in E2. by apply FormatBufferKey_prefix in E2 as ->. }
  unfold open_backend. destruct retained.
  - destruct floor as [f|]; [|by apply Hsaved].
    destruct (bytes_eqb (rs_startID st) [] || bytes_ltb (rs_savedGroup st) (rs_groupStart st)) eqn:E.
    + intros ([] & _ & ([] & Hf%validateHistoryFloor_ok & Hs)%bind_ok)%bind_ok.
      assert (rs_groupStart st = FormatBufferKey f "") as ->; [|done]. rewrite Hg in E |- *.
      destruct (bytes_ltb (rs_savedGroup st) (FormatBufferKey f "")) eqn:E'; [done|]. exfalso.
      apply orb_true_iff in E as [E|E].
      * apply bytes_eqb_eq in E. destruct Hst as [[_ E1]|(c & id & _ & E1 & _)].
        -- rewrite E1 in E'. pose proof (FormatBufferKey_nonempty f ""). by destruct (FormatBufferKey f "").
        -- rewrite E in E1. by destruct (FormatBufferKey_nonempty c id).
      * unfold bytes_ltb in E. by rewrite bytes_compare_refl in E.
    + apply Hsaved. apply orb_false_iff in E as [_ E]. rewrite Hg in E |- *.
      destruct (bytes_ltb (rs_savedGroup st) (FormatBufferKey f "")) eqn:E'; [congruence|done].
  - destruct Hv as [?|[[m ->] ->]]; [done|]. cbn in floor. subst floor. by apply Hsaved.
Qed.

(** ** Streams *)
Lemma inject_own name e : evt_Backend e = name -> inject name e = e.
Proof.
  intros <-. unfold inject. destruct (String.eqb_spec (evt_Backend e) "") as [E|]; [|done]. rewrite E. destruct e; cbn in *. by subst.
Qed.
Lemma bj_yields it name l err : yields it l err -> (forall e, e ∈ l -> evt_Backend e = name) ->
  yields {| bj_Iterator := it; bj_backendName := name |} l err.
Proof.
  induction 1 as [s s' E|s s' e l err E Ee Er Hy IH]; intros Hn.
  - change (iter_err s') with (iter_err (EventIterator := bj_iterator) {| bj_Iterator := s'; bj_backendName := name |}).
    apply (yields_end (H := bj_iterator)). cbn. unfold bj_Next; cbn. by rewrite (E : dd_Next s = _).
  - eapply (yields_step (H := bj_iterator) _ {| bj_Iterator := s'; bj_backendName := name |}); cbn.
    + unfold bj_Next; cbn. by rewrite (E : dd_Next s = _).
    + unfold bj_Event; cbn. rewrite (Ee : dd_Event s' = _). cbn. rewrite inject_own; [done|]. apply Hn. by left.
    + exact Er.
    + apply IH. intros e' He'. apply Hn. by right.
Qed.

Lemma keys_sorted_less l name : StronglySorted evt_lt l -> (forall e, e ∈ l -> event_ok e /\ evt_Backend e = name) -> sorted_by evt_less l.
Proof.
  induction 1 as [|e l Hs IH Hx]; intros Hn; constructor; [apply IH; intros; apply Hn; by right|].
  apply Forall_forall. intros e' He'. rewrite Forall_forall in Hx. specialize (Hx _ He'). unfold evt_lt, BufferKey in Hx.
  destruct (Hn e ltac:(by left)) as [[Hc _] Hb], (Hn e' ltac:(by right)) as [[Hc' _] Hb'].
  rewrite BufferKey_compare in Hx by done. unfold evt_less. rewrite Hb, Hb'.
  destruct (ct_Compare (evt_ClusterTime e) (evt_ClusterTime e')) eqn:C; cbn in Hx; [|..|done].
  - apply ct_Compare_eq in C. rewrite C, (proj2 (ct_Compare_eq _ _) eq_refl). unfold string_ltb, bytes_ltb. by rewrite bytes_compare_refl.
  - assert (ct_Compare (evt_ClusterTime e') (evt_ClusterTime e) = Gt) as ->; [|done].
    rewrite ct_Compare_lex in C |- *. rewrite (Z.compare_antisym (ct_T (evt_ClusterTime e))), (Z.compare_antisym (ct_I (evt_ClusterTime e))).
    by destruct (_ ?= _), (_ ?= _).
Qed.

(** The captured events of a backend, with its name. *)
Definition captured (p : Backends) (ss : string -> sys) : Prop :=
  forall name b, p !! name = Some b -> be_buffer b = s_buf (ss name) /\ reachable (ss name) /\
    forall r e, r ∈ s_history (ss name) -> req_event r = Some e -> evt_Backend e = name.

(** One stream of the merge. *)
Record part := { pt_name : string; pt_group : bytes; pt_events : list StoreChangeEvent; pt_err : option string }.
Definition part_ok (ss : string -> sys) (t : part) : Prop :=
  StronglySorted evt_lt (pt_events t) /\
  (forall e, e ∈ pt_events t -> event_ok e /\ evt_Backend e = pt_name t /\ bytes_compare (pt_group t) (BufferKey e) = Lt /\
     exists r e0, r ∈ s_history (ss (pt_name t)) /\ req_event r = Some e0 /\ (e = e0 \/ e = stored e0)) /\
  (pt_err t = None -> forall r e0, r ∈ s_history (ss (pt_name t)) -> req_event r = Some e0 ->
     bytes_compare (pt_group t) (BufferKey e0) = Lt -> exists e, e ∈ pt_events t /\ BufferKey e = BufferKey e0).

Lemma replay_loop_parts ss p bs after lineages first retained its :
  captured p ss -> (forall name b, (name, b) ∈ bs -> p !! name = Some b) -> NoDup (map fst bs) ->
  validating lineages first retained -> replay_loop bs after lineages first retained = Ok its ->
  exists parts, Forall2 (fun it t => yields it (pt_events t) (pt_err t) /\ part_ok ss t) its parts /\
    NoDup (map pt_name parts) /\
    (forall t, t ∈ parts -> exists b st, (pt_name t, b) ∈ bs /\ backend_start (pt_name t) after first = Ok (Some st) /\ pt_group t = rs_groupStart st) /\
    (forall name b st, (name, b) ∈ bs -> backend_start name after first = Ok (Some st) ->
       exists t, t ∈ parts /\ pt_name t = name /\ pt_group t = rs_groupStart st).
Proof.
  intros Hcap. revert its. induction bs as [|[name b] bs IH]; intros its Hin Hnd Hv; cbn [replay_loop].
  { intros [= <-]. exists []. split_and!; try constructor; intros; exfalso; by eapply not_elem_of_nil. }
  apply NoDup_cons in Hnd as [Hnew Hnd]. specialize (IH).
  intros (start & Hst & H)%bind_ok. destruct start as [st|].
  - apply bind_ok in H as (it & Hit%map_err_ok & (its' & Hits & [= <-])%bind_ok).
    destruct (IH its' ltac:(intros; apply Hin; by right) Hnd Hv Hits) as (parts & F & Hpn & Hp1 & Hp2).
    destruct (open_backend_ok _ _ _ _ _ _ _ _ Hv Hst Hit) as [Hscan Hfl].
    destruct (Hcap name b (Hin _ _ ltac:(by left))) as (Eb & Hr & Hbk). rewrite Eb in Hscan, Hfl.
    destruct (scan_above (ss name) _ _ (reachable_inv _ Hr) Hfl Hscan) as (out & err & Hy & Hso & Hsd & Hco).
    assert (Hown : forall e, e ∈ out -> evt_Backend e = name).
    { intros e He. destruct (Hsd e He) as (_ & _ & r & e0 & Hr0 & E0 & [->| ->]); rewrite ?stored_backend; by eapply Hbk. }
    exists ({| pt_name := name; pt_group := rs_groupStart st; pt_events := out; pt_err := err |} :: parts). split_and!.
    + constructor; [|done]. split; [by apply bj_yields|]. split_and!; cbn; [done| |done]. intros e He. destruct (Hsd e He) as (? & ? & ?). by split_and!; auto.
    + cbn. apply NoDup_cons. split; [|done]. intros (t & E & Ht)%list_elem_of_fmap. destruct (Hp1 t Ht) as (b' & _ & Hb' & _).
      apply Hnew. cbn in E. rewrite <- E in Hb'. by apply (list_elem_of_fmap_2 fst) in Hb'.
    + intros t [->|Ht]%elem_of_cons; [exists b, st; split_and!; [by left|done|done]|].
      destruct (Hp1 t Ht) as (b' & st' & ? & ? & ?). exists b', st'. split_and!; [by right|done|done].
    + intros name' b' st' [[= -> ->]|Hb']%elem_of_cons Hst'; [eexists; split_and!; [by left|done|cbn; congruence]|].
      destruct (Hp2 _ _ _ Hb' Hst') as (t & ? & ? & ?). exists t. split_and!; [by right|done|done].
  - destruct (IH its ltac:(intros; apply Hin; by right) Hnd Hv H) as (parts & F & Hpn & Hp1 & Hp2). exists parts. split_and!; [done|done| |].
    + intros t Ht. destruct (Hp1 t Ht) as (b' & st' & ? & ? & ?). exists b', st'. split_and!; [by right|done|done].
    + intros name' b' st' [[= -> ->]|Hb']%elem_of_cons Hst'; [congruence|by eapply Hp2].
Qed.

Lemma elem_of_concat {A} (x : A) ls : x ∈ concat ls <-> exists l, l ∈ ls /\ x ∈ l.
Proof. rewrite !list_elem_of_In, in_concat. setoid_rewrite list_elem_of_In. done. Qed.

(** Distinct backends and distinct keys: no event twice. *)
Definition evt_identity (e : StoreChangeEvent) : string * bytes := (evt_Backend e, BufferKey e).

Lemma parts_distinct ss parts : Forall (part_ok ss) parts -> NoDup (map pt_name parts) ->
  NoDup (map evt_identity (concat (map pt_events parts))).
Proof.
  induction 1 as [|t parts [Hs [Hn _]] F IH]; intros Hd; cbn; [constructor|]. apply NoDup_cons in Hd as [Hnew Hd].
  rewrite map_app. apply NoDup_app. split_and!; [| |by apply IH].
  - assert (Forall (fun e => evt_Backend e = pt_name t) (pt_events t)) as _ by (apply Forall_forall; intros e He; by apply Hn).
    clear -Hs. induction Hs as [|e l Hs IH Hx]; cbn; constructor; [|done]. intros (e' & [= _ E] & He')%list_elem_of_fmap.
    rewrite Forall_forall in Hx. specialize (Hx e' He'). unfold evt_lt in Hx. rewrite E in Hx. by rewrite bytes_compare_refl in Hx.
  - intros x (e & -> & He)%list_elem_of_fmap (e' & [= E _] & (l & Hl & He')%elem_of_concat)%list_elem_of_fmap.
    apply list_elem_of_fmap in Hl as (t' & -> & Ht'). apply Hnew. rewrite Forall_forall in F. destruct (F t' Ht') as (_ & Hn' & _).
    destruct (Hn e He) as (_ & <- & _). destruct (Hn' e' He') as (_ & E' & _). rewrite E, E'. by apply list_elem_of_fmap_2.
Qed.

(** C9: a replay that validates delivers everything. With positions and lineages
    (ReplayBoundary) or retained (ReplayRetained), when the replay opens its merged
    stream ends; it is sorted by cluster time and backend and has no event twice;
    each event was captured by its backend and is past that backend's start; and
    unless it reports an error it has every event captured by every backend past
    its start: the group of the saved event or of the first broadcast, whichever is
    later. Each buffer is in any reachable state, with restarts, pruning and flushes
    behind and in progress. *)
Theorem replay_validated p ss after lineages first retained mi :
  captured p ss -> validating lineages first retained ->
  replay p after lineages first false retained = Ok (Merged mi) ->
  exists out err, yields mi out err /\ sorted_by evt_less out /\ NoDup (map evt_identity out) /\
    (forall e, e ∈ out -> exists st r e0, backend_start (evt_Backend e) after first = Ok (Some st) /\
       bytes_compare (rs_groupStart st) (BufferKey e) = Lt /\
       r ∈ s_history (ss (evt_Backend e)) /\ req_event r = Some e0 /\ (e = e0 \/ e = stored e0)) /\
    (err = None -> forall name b st r e0, p !! name = Some b -> backend_start name after first = Ok (Some st) ->
       r ∈ s_history (ss name) -> req_event r = Some e0 -> bytes_compare (rs_groupStart st) (BufferKey e0) = Lt ->
       exists e, e ∈ out /\ evt_identity e = (name, BufferKey e0)).
Proof.
  intros Hcap Hv (its & Hl & [= <-])%bind_ok.
  destruct (replay_loop_parts ss p (range p) after lineages first retained its Hcap) as (parts & F & Hnd & Hp1 & Hp2); try done.
  { intros name b H. by apply elem_of_range. }
  { rewrite (fmap_Permutation fst _ _ (range_perm p)). apply NoDup_fst_map_to_list. }
  assert (Hok : Forall (part_ok ss) parts) by (clear -F; induction F as [|? ? ? ? []]; by constructor).
  pose proof Hok as Hok'. rewrite Forall_forall in Hok'.
  destruct (merge_stream its (map pt_events parts) (map pt_err parts)) as (out & rest & err & Hy & Hs & Hp & Hn & He).
  { clear -F. induction F as [|it t its parts [Hy (Hs & Hn & _)] F IH]; constructor; [|done]. split; [done|].
    apply (keys_sorted_less _ (pt_name t)); [done|]. intros e He. by destruct (Hn e He) as (? & ? & _). }
  exists out, err. split_and!; [done|done| | |].
  - pose proof (parts_distinct ss parts Hok Hnd) as Hd. rewrite <- Hp, map_app in Hd. by apply NoDup_app in Hd as (Hd & _ & _).
  - intros e He'. assert (e ∈ concat (map pt_events parts)) as Hin by (rewrite <- Hp; apply elem_of_app; by left).
    apply elem_of_concat in Hin as (l & (t & -> & Ht)%list_elem_of_fmap & Hin). destruct (Hok' t Ht) as (_ & Hsd & _).
    destruct (Hsd e Hin) as (_ & -> & Hlt & r & e0 & Hr & E0 & Hee). destruct (Hp1 t Ht) as (_ & st & _ & Hst & Hg). rewrite Hg in Hlt. by exists st, r, e0.
  - intros -> name b st r e0 Hb Hst Hr E0 Hlt. destruct (Hp2 name b st) as (t & Ht & Hname & Hg); [by apply elem_of_range|done|].
    destruct (Hok' t Ht) as (_ & Hsd & Hco). rewrite Hname, Hg in *.
    assert (pt_err t = None) as Ht0 by (apply (proj1 (Forall_forall _ _) (proj1 He eq_refl)), list_elem_of_fmap_2, Ht).
    destruct (Hco Ht0 r e0 Hr E0 Hlt) as (e & He1 & Ek). exists e. split; [|destruct (Hsd e He1) as (_ & Eb & _); unfold evt_identity; by rewrite Eb, Ek].
    rewrite (Hn eq_refl), app_nil_r in Hp. rewrite Hp. apply elem_of_concat. exists (pt_events t). split; [by apply list_elem_of_fmap_2|done].
Qed.
End Facts.

(** ** A replay of one backend from its beginning *)
Section Witness.
#[local] Existing Instance map_pebble.
#[local] Existing Instance map_back.
#[local] Existing Instance tick_codec.
#[local] Existing Instance sorted_heap.
#[local] Existing Instance any_range_order.

Definition sample_backend : Backend := {|
  be_buffer := s_buf sample_state; be_captureActive := true; be_captureError := None; be_captureResponse := None; be_captureChanged := 0 |}.
Definition sample_backends : gmap string Backend := {[ "a"%string := sample_backend ]}.

Lemma replay_validated_witness :
  exists mi out err, replay sample_backends (Some ∅) None None false true = Ok (Merged mi) /\ yields mi out err /\
    sorted_by evt_less out /\ NoDup (map evt_identity out) /\
    (err = None -> exists e, e ∈ out /\ evt_identity e = ("a"%string, BufferKey (tick "bb"))).
Proof.
  destruct (replay sample_backends (Some ∅) None None false true) as [[mi|it]|e] eqn:E; [|vm_compute in E; discriminate..].
  destruct (replay_validated sample_backends (fun _ => sample_state) (Some ∅) None None true mi) as (out & err & Hy & Hs & Hd & _ & Hc).
  - intros name b Hb. unfold sample_backends, Backends in Hb. apply lookup_singleton_Some in Hb as [<- <-]. split; [reflexivity|].
    split; [apply tick_reachable|]. intros r e Hr. assert (forallb (fun r => match req_event r with
      | Some e => String.eqb (evt_Backend e) "a" | None => true end) (s_history sample_state) = true) as H by (vm_compute; reflexivity).
    rewrite forallb_forall in H. apply list_elem_of_In in Hr. specialize (H r Hr). intros Er. rewrite Er in H. by apply String.eqb_eq.
  - left. reflexivity.
  - exact E.
  - exists mi, out, err. split; [reflexivity|]. split; [exact Hy|]. split; [exact Hs|]. split; [exact Hd|]. intros He.
    destruct (s_history sample_state !! 1%nat) as [r|] eqn:Er; [|vm_compute in Er; discriminate].
    apply (Hc He "a"%string sample_backend {| rs_startID := []; rs_savedGroup := []; rs_groupStart := [] |} r (tick "bb")).
    + reflexivity.
    + reflexivity.
    + by apply list_elem_of_lookup_2 in Er.
    + vm_compute in Er. injection Er as <-. reflexivity.
    + vm_compute. reflexivity.
Defined.
End Witness.
