(* ===== verification/EventWire.v ===== *)
(** * The durable form of change events: internal/puller/events/codec.go

    Envelopes of events, documents and update descriptions. encoding/json is an
    interface: what it writes for the structs of the file and reads back. The
    theorems discharge what the event buffer asks of the codec. *)
From stdpp Require Import base list sorting gmap strings.
From Stdlib Require Import ZArith.
From S2P Require Import Prelude Value IndexStore Codec Projection Events Documents TypedValue PushWire Buffer.
Local Open Scope Z_scope.

Definition WireVersion : Z := 2.
Definition MaxEventBytes : Z := 64 * 2 ^ 20.
Definition MaxRPCBytes : Z := MaxEventBytes + 2 ^ 20.

(** A [json.RawMessage] is its text; a nil one is empty. *)
Record eventWire := {
  ew_Version : Z; ew_EventID : string; ew_Database : string; ew_MgoColl : string; ew_MgoDocID : string;
  ew_OpType : StoreOperationType; ew_FullDocument : bytes; ew_UpdateDesc : bytes; ew_ClusterTime : ClusterTime;
  ew_TxnNumber : option Z; ew_Timestamp : Z; ew_Backend : string;
}.
Record documentWire := {
  dw_WireVersion : Z; dw_ID : string; dw_Database : string; dw_Fullpath : string; dw_Collection : string; dw_LogicalID : string;
  dw_CollectionHash : string; dw_Parent : string; dw_UpdatedAt : Z; dw_CreatedAt : Z; dw_Version : Z; dw_Data : bytes; dw_Deleted : bool;
}.
Record updateWire := {
  uw_Version : Z; uw_UpdatedFields : bytes; uw_RemovedFields : list string; uw_TruncatedArrays : list TruncatedArray;
}.

(** ** Values the text carries unchanged: UTF-8 strings and integers of their fields' width *)
Definition utf8 (s : string) : Prop := utf8_valid_string s = true.
Definition wf_op (o : StoreOperationType) : Prop :=
  match o with StoreOperationOther s => utf8 s /\ s ∉ ["insert"; "update"; "replace"; "delete"]%string | _ => True end.

Section TextPredicates.
Variable text : bytes -> Prop.
Definition wf_eventWire (w : eventWire) : Prop :=
  is_i64 (ew_Version w) /\ Forall utf8 [ew_EventID w; ew_Database w; ew_MgoColl w; ew_MgoDocID w; ew_Backend w] /\ wf_op (ew_OpType w) /\
  (ew_FullDocument w = [] \/ text (ew_FullDocument w)) /\ (ew_UpdateDesc w = [] \/ text (ew_UpdateDesc w)) /\
  is_cluster_time (ew_ClusterTime w) /\ match ew_TxnNumber w with Some n => is_i64 n | None => True end /\ is_i64 (ew_Timestamp w).
Definition wf_documentWire (w : documentWire) : Prop :=
  Forall is_i64 [dw_WireVersion w; dw_UpdatedAt w; dw_CreatedAt w; dw_Version w] /\
  Forall utf8 [dw_ID w; dw_Database w; dw_Fullpath w; dw_Collection w; dw_LogicalID w; dw_CollectionHash w; dw_Parent w] /\ text (dw_Data w).
Definition wf_updateWire (w : updateWire) : Prop :=
  is_i64 (uw_Version w) /\ text (uw_UpdatedFields w) /\ Forall utf8 (uw_RemovedFields w) /\
  Forall (fun t => utf8 (ta_Field t) /\ is_i64 (ta_NewSize t)) (uw_TruncatedArrays w).
End TextPredicates.

Definition without_payload (w : eventWire) : eventWire :=
  {| ew_Version := ew_Version w; ew_EventID := ew_EventID w; ew_Database := ew_Database w; ew_MgoColl := ew_MgoColl w;
     ew_MgoDocID := ew_MgoDocID w; ew_OpType := ew_OpType w; ew_FullDocument := []; ew_UpdateDesc := [];
     ew_ClusterTime := ew_ClusterTime w; ew_TxnNumber := ew_TxnNumber w; ew_Timestamp := ew_Timestamp w; ew_Backend := ew_Backend w |}.

(** The bytes an omitted-when-empty raw member adds: its comma, name and colon. *)
Definition raw_size (name : Z) (raw : bytes) : Z := match raw with [] => 0 | _ => name + Z.of_nat (length raw) end.

(** What [json.Marshal] and [json.Unmarshal] do with these structs and with the
    trees of typed values; [text]: a text that [json.Marshal] wrote. *)
Class EventJSON := {
  text : bytes -> Prop;
  marshal_tree : json -> bytes;
  unmarshal_tree : bytes -> res string json;
  marshal_event : eventWire -> bytes;
  unmarshal_event : bytes -> res string eventWire;
  marshal_document : documentWire -> bytes;
  unmarshal_document : bytes -> res string documentWire;
  marshal_update : updateWire -> bytes;
  unmarshal_update : bytes -> res string updateWire;

  text_nonempty : forall l, text l -> l <> [];
  text_tree : forall t, text (marshal_tree t);
  text_document : forall w, wf_documentWire text w -> text (marshal_document w);
  text_update : forall w, wf_updateWire text w -> text (marshal_update w);
  tree_law : forall n t, normal n -> wf_value n -> typedValueTree n = Some t -> unmarshal_tree (marshal_tree t) = Ok t;
  event_law : forall w, wf_eventWire text w -> unmarshal_event (marshal_event w) = Ok w;
  document_law : forall w, wf_documentWire text w -> unmarshal_document (marshal_document w) = Ok w;
  update_law : forall w, wf_updateWire text w -> unmarshal_update (marshal_update w) = Ok w;
  (** a member of a struct adds its length, its name and the separators *)
  event_size : forall w, Z.of_nat (length (marshal_event w)) =
    Z.of_nat (length (marshal_event (without_payload w))) + raw_size 11 (ew_FullDocument w) + raw_size 14 (ew_UpdateDesc w);
}.

Inductive codec_error :=
| ErrEventTooLarge (size : Z)
| ErrJSON (e : string)
| ErrEventVersion (v : Z) | ErrDocumentVersion (v : Z) | ErrUpdateVersion (v : Z)
| ErrFullDocument (e : codec_error) | ErrUpdateDescription (e : codec_error)
| ErrIdentity (e : projection_error) | ErrIdentityDisagrees
| ErrValue (e : value_error) | ErrTypedText (e : typed_error) | ErrFieldsObject | ErrTreePanic.

Section Codec.
Context {EJ : EventJSON}.

(** ** Documents and deltas *)

(** [model.EncodeTypedValue] of a map, as text. *)
Definition encode_fields (data : Document) : res codec_error bytes :=
  t ← map_err ErrValue (EncodeTypedValue (VMap (map_to_list data)));
  match t with None => Err ErrTreePanic | Some t => Ok (marshal_tree t) end.

Definition decodeObject (data : bytes) : res codec_error Document :=
  t ← map_err ErrJSON (unmarshal_tree data);
  v ← map_err ErrTypedText (decodeTypedValue t);
  match v with VNil => Ok ∅ | VMap m => Ok (list_to_map m) | _ => Err ErrFieldsObject end.

Definition MarshalDocument (doc : StoredDoc) : res codec_error bytes :=
  identity ← map_err ErrIdentity (LogicalDocumentID doc);
  data ← encode_fields (doc_Data doc);
  Ok (marshal_document {|
    dw_WireVersion := WireVersion; dw_ID := doc_Id doc; dw_Database := doc_Database doc; dw_Fullpath := doc_Fullpath doc;
    dw_Collection := doc_Collection doc; dw_LogicalID := identity; dw_CollectionHash := doc_CollectionHash doc;
    dw_Parent := doc_Parent doc; dw_UpdatedAt := doc_UpdatedAt doc; dw_CreatedAt := doc_CreatedAt doc; dw_Version := doc_Version doc;
    dw_Data := data; dw_Deleted := doc_Deleted doc |}).

Definition UnmarshalDocument (data : bytes) : res codec_error StoredDoc :=
  wire ← map_err ErrJSON (unmarshal_document data);
  if negb (dw_WireVersion wire =? WireVersion) then Err (ErrDocumentVersion (dw_WireVersion wire))
  else
    let doc d := {|
      doc_Id := dw_ID wire; doc_Database := dw_Database wire; doc_Fullpath := dw_Fullpath wire; doc_Collection := dw_Collection wire;
      doc_CollectionHash := dw_CollectionHash wire; doc_Parent := dw_Parent wire; doc_UpdatedAt := dw_UpdatedAt wire;
      doc_CreatedAt := dw_CreatedAt wire; doc_Version := dw_Version wire; doc_Data := d; doc_Deleted := dw_Deleted wire |} in
    identity ← map_err ErrIdentity (LogicalDocumentID (doc ∅));
    if negb (String.eqb identity (dw_LogicalID wire)) then Err ErrIdentityDisagrees
    else d ← decodeObject (dw_Data wire); Ok (doc d).

Definition MarshalUpdateDescription (desc : UpdateDescription) : res codec_error bytes :=
  fields ← encode_fields (ud_UpdatedFields desc);
  Ok (marshal_update {| uw_Version := WireVersion; uw_UpdatedFields := fields; uw_RemovedFields := ud_RemovedFields desc;
                        uw_TruncatedArrays := ud_TruncatedArrays desc |}).

Definition UnmarshalUpdateDescription (data : bytes) : res codec_error UpdateDescription :=
  wire ← map_err ErrJSON (unmarshal_update data);
  if negb (uw_Version wire =? WireVersion) then Err (ErrUpdateVersion (uw_Version wire))
  else
    fields ← decodeObject (uw_UpdatedFields wire);
    Ok {| ud_UpdatedFields := fields; ud_RemovedFields := uw_RemovedFields wire; ud_TruncatedArrays := uw_TruncatedArrays wire |}.

(** ** Events *)
Definition eventEnvelope (evt : StoreChangeEvent) (document delta : bytes) : eventWire :=
  {| ew_Version := WireVersion; ew_EventID := evt_EventID evt; ew_Database := evt_Database evt; ew_MgoColl := evt_MgoColl evt;
     ew_MgoDocID := evt_MgoDocID evt; ew_OpType := evt_OpType evt; ew_FullDocument := document; ew_UpdateDesc := delta;
     ew_ClusterTime := evt_ClusterTime evt; ew_TxnNumber := evt_TxnNumber evt; ew_Timestamp := evt_Timestamp evt;
     ew_Backend := evt_Backend evt |}.

Definition ValidateEncodedEventSize (evt : StoreChangeEvent) (document delta : bytes) : res codec_error unit :=
  let size := Z.of_nat (length (marshal_event (eventEnvelope evt [] []))) + raw_size 11 document + raw_size 14 delta in
  if MaxEventBytes <? size then Err (ErrEventTooLarge size) else Ok tt.

(** An optional part: empty when nil. *)
Definition marshal_part {A} (f : A -> res codec_error bytes) (wrap : codec_error -> codec_error) (x : option A) : res codec_error bytes :=
  match x with None => Ok [] | Some x => map_err wrap (f x) end.
Definition unmarshal_part {A} (f : bytes -> res codec_error A) (wrap : codec_error -> codec_error) (l : bytes) : res codec_error (option A) :=
  match l with [] => Ok None | _ => map_err wrap (Some <$> f l) end.

Definition encode_event (evt : StoreChangeEvent) : res codec_error bytes :=
  document ← marshal_part MarshalDocument ErrFullDocument (evt_FullDocument evt);
  delta ← marshal_part MarshalUpdateDescription ErrUpdateDescription (evt_UpdateDesc evt);
  _ ← ValidateEncodedEventSize evt document delta;
  Ok (marshal_event (eventEnvelope evt document delta)).

Definition decode_event (data : bytes) : res codec_error StoreChangeEvent :=
  if MaxEventBytes <? Z.of_nat (length data) then Err (ErrEventTooLarge (Z.of_nat (length data)))
  else
    wire ← map_err ErrJSON (unmarshal_event data);
    if negb (ew_Version wire =? WireVersion) then Err (ErrEventVersion (ew_Version wire))
    else
      document ← unmarshal_part UnmarshalDocument ErrFullDocument (ew_FullDocument wire);
      delta ← unmarshal_part UnmarshalUpdateDescription ErrUpdateDescription (ew_UpdateDesc wire);
      Ok {| evt_EventID := ew_EventID wire; evt_Database := ew_Database wire; evt_MgoColl := ew_MgoColl wire;
            evt_MgoDocID := ew_MgoDocID wire; evt_OpType := ew_OpType wire; evt_FullDocument := document; evt_UpdateDesc := delta;
            evt_ClusterTime := ew_ClusterTime wire; evt_TxnNumber := ew_TxnNumber wire; evt_Timestamp := ew_Timestamp wire;
            evt_Backend := ew_Backend wire |}.

(** ** Round trip *)

(** What reading back changes: values are normalised. *)
Definition settled_data (data : Document) : Document := match normalize_data data with Ok d => d | Err _ => data end.
Definition settled_update (desc : UpdateDescription) : UpdateDescription :=
  {| ud_UpdatedFields := settled_data (ud_UpdatedFields desc); ud_RemovedFields := ud_RemovedFields desc;
     ud_TruncatedArrays := ud_TruncatedArrays desc |}.
Definition settled (evt : StoreChangeEvent) : StoreChangeEvent := {|
  evt_EventID := evt_EventID evt; evt_Database := evt_Database evt; evt_MgoColl := evt_MgoColl evt; evt_MgoDocID := evt_MgoDocID evt;
  evt_OpType := evt_OpType evt;
  evt_FullDocument := (fun d => with_data (settled_data (doc_Data d)) d) <$> evt_FullDocument evt;
  evt_UpdateDesc := settled_update <$> evt_UpdateDesc evt;
  evt_ClusterTime := evt_ClusterTime evt; evt_TxnNumber := evt_TxnNumber evt; evt_Timestamp := evt_Timestamp evt;
  evt_Backend := evt_Backend evt |}.

(** Strings in UTF-8 and integers in range: what the driver hands to capture. *)
Definition wf_doc (d : StoredDoc) : Prop :=
  wf_data (doc_Data d) /\ Forall is_i64 [doc_UpdatedAt d; doc_CreatedAt d; doc_Version d] /\
  Forall utf8 [doc_Id d; doc_Database d; doc_Fullpath d; doc_Collection d; doc_CollectionHash d; doc_Parent d] /\
  (forall id, LogicalDocumentID d = Ok id -> utf8 id).
Definition wf_update (u : UpdateDescription) : Prop :=
  wf_data (ud_UpdatedFields u) /\ Forall utf8 (ud_RemovedFields u) /\
  Forall (fun t => utf8 (ta_Field t) /\ is_i64 (ta_NewSize t)) (ud_TruncatedArrays u).
Definition wf_event (e : StoreChangeEvent) : Prop :=
  Forall utf8 [evt_EventID e; evt_Database e; evt_MgoColl e; evt_MgoDocID e; evt_Backend e] /\ wf_op (evt_OpType e) /\
  match evt_FullDocument e with Some d => wf_doc d | None => True end /\
  match evt_UpdateDesc e with Some u => wf_update u | None => True end /\
  is_cluster_time (evt_ClusterTime e) /\ match evt_TxnNumber e with Some n => is_i64 n | None => True end /\ is_i64 (evt_Timestamp e).

Lemma fields_roundtrip data l : wf_data data -> encode_fields data = Ok l -> text l /\ decodeObject l = Ok (settled_data data).
Proof.
  intros Hw%wf_data_value. unfold encode_fields, EncodeTypedValue, settled_data, normalize_data.
  destruct (NormalizeValue _) as [n|] eqn:Hn; [|done]. cbn [mbind res_bind map_err].
  pose proof (NormalizeValue_normal _ _ Hn) as Hnn. pose proof (NormalizeValue_wf _ _ Hw Hn) as Hnw.
  destruct (decode_typedValueTree n Hnn Hnw) as (t & Ht & Hd). rewrite Ht. intros [= <-]. split; [apply text_tree|].
  unfold decodeObject. rewrite (tree_law n t Hnn Hnw Ht). cbn [map_err mbind res_bind]. unfold decodeTypedValue. rewrite Hd by done.
  cbn [NormalizeValue] in Hn. apply fmap_ok in Hn as (m & _ & ->). done.
Qed.

Lemma i64_2 : is_i64 WireVersion.
Proof. by vm_compute. Qed.

Lemma document_roundtrip_wire d l : wf_doc d -> MarshalDocument d = Ok l ->
  text l /\ UnmarshalDocument l = Ok (with_data (settled_data (doc_Data d)) d).
Proof.
  intros (Hw & Hi & Hs & Hid). unfold MarshalDocument. intros (id & Eid%map_err_ok & (data & [Ht Hd]%fields_roundtrip & [= <-])%bind_ok)%bind_ok; [|done].
  match goal with |- context [marshal_document ?w] => set (wire := w) end.
  assert (Hwf : wf_documentWire text wire).
  { split_and!; cbn; [constructor; [apply i64_2|done]| |done]. specialize (Hid _ Eid). repeat (apply Forall_cons in Hs as [? Hs]). repeat (constructor; [assumption|]). constructor. }
  split; [by apply text_document|]. unfold UnmarshalDocument. rewrite (document_law wire Hwf). cbn [map_err mbind res_bind].
  change (dw_WireVersion wire) with WireVersion. rewrite Z.eqb_refl. cbn [negb].
  assert (LogicalDocumentID (with_data ∅ d) = Ok id) as Eid' by exact Eid. 
  match goal with |- context [LogicalDocumentID ?x] => change (LogicalDocumentID x) with (LogicalDocumentID (with_data ∅ d)) end. rewrite Eid'.
  cbn [map_err mbind res_bind]. change (dw_LogicalID wire) with id. rewrite String.eqb_refl. cbn [negb].
  change (dw_Data wire) with data. by rewrite Hd.
Qed.

Lemma update_roundtrip_wire u l : wf_update u -> MarshalUpdateDescription u = Ok l ->
  text l /\ UnmarshalUpdateDescription l = Ok (settled_update u).
Proof.
  intros (Hw & Hr & Ha). unfold MarshalUpdateDescription. intros (data & [Ht Hd]%fields_roundtrip & [= <-])%bind_ok; [|done].
  match goal with |- context [marshal_update ?w] => set (wire := w) end.
  assert (Hwf : wf_updateWire text wire) by (split_and!; cbn; [apply i64_2|done..]).
  split; [by apply text_update|]. unfold UnmarshalUpdateDescription. rewrite (update_law wire Hwf). cbn [map_err mbind res_bind].
  change (uw_Version wire) with WireVersion. rewrite Z.eqb_refl. cbn [negb].
  change (uw_UpdatedFields wire) with data. by rewrite Hd.
Qed.

Lemma part_roundtrip {A} (f : A -> res codec_error bytes) (g : bytes -> res codec_error A) (h : A -> A) wrap wrap' x l :
  (forall y l, x = Some y -> f y = Ok l -> text l /\ g l = Ok (h y)) -> marshal_part f wrap x = Ok l ->
  (l = [] \/ text l) /\ unmarshal_part g wrap' l = Ok (h <$> x).
Proof.
  intros H. destruct x as [y|]; cbn; [|intros [= <-]; split; [by left|done]]. intros Hf%map_err_ok. destruct (H y l eq_refl Hf) as [Ht Hg].
  split; [by right|]. pose proof (text_nonempty l Ht). unfold unmarshal_part. destruct l; [done|]. by rewrite Hg.
Qed.

Lemma encode_decode_event evt data :
  wf_event evt -> encode_event evt = Ok data ->
  Z.of_nat (length data) <= MaxEventBytes /\ decode_event data = Ok (settled evt).
Proof.
  intros (Hs & Ho & Hd & Hu & Hc & Hn & Ht). unfold encode_event.
  intros (document & H1 & (delta & H2 & ([] & Hsz & [= <-])%bind_ok)%bind_ok)%bind_ok.
  apply (part_roundtrip _ UnmarshalDocument (fun d => with_data (settled_data (doc_Data d)) d) _ ErrFullDocument) in H1 as [T1 H1];
    [|intros d l E; rewrite E in Hd; by apply document_roundtrip_wire].
  apply (part_roundtrip _ UnmarshalUpdateDescription settled_update _ ErrUpdateDescription) in H2 as [T2 H2];
    [|intros u l E; rewrite E in Hu; by apply update_roundtrip_wire].
  set (wire := eventEnvelope evt document delta).
  assert (Z.of_nat (length (marshal_event wire)) <= MaxEventBytes) as Hlen.
  { rewrite event_size. unfold ValidateEncodedEventSize in Hsz. change (without_payload wire) with (eventEnvelope evt [] []).
    cbn [ew_FullDocument ew_UpdateDesc wire eventEnvelope]. destruct (Z.ltb_spec MaxEventBytes
      (Z.of_nat (length (marshal_event (eventEnvelope evt [] []))) + raw_size 11 document + raw_size 14 delta)); [done|lia]. }
  split; [done|]. unfold decode_event. rewrite (proj2 (Z.ltb_ge _ _) Hlen).
  assert (Hwf : wf_eventWire text wire) by (split_and!; cbn; try done; apply i64_2).
  rewrite (event_law wire Hwf). cbn [map_err mbind res_bind]. change (ew_Version wire) with WireVersion. rewrite Z.eqb_refl. cbn [negb].
  cbn [ew_FullDocument ew_UpdateDesc wire eventEnvelope]. rewrite H1. cbn [mbind res_bind]. rewrite H2. done.
Qed.

(** C14: durable events survive, when their strings are valid UTF-8 - which
    [MarshalEvent] does not check: [encoding/json] writes U+FFFD for invalid bytes,
    and such an event is not covered. What [MarshalEvent] accepts of these events is at
    most [MaxEventBytes] long, the limit [UnmarshalEvent] enforces, and reading it back
    gives the event with the values of its document and its delta normalised and
    everything else unchanged: identity, cluster time, operation, backend, the
    document's path and the order of removed fields. *)
Theorem event_roundtrip evt data :
  wf_event evt -> encode_event evt = Ok data ->
  Z.of_nat (length data) <= MaxEventBytes /\ decode_event data = Ok (settled evt).
Proof. apply encode_decode_event. Qed.
End Codec.

(** ** The buffer's interface *)
Fixpoint codec_text (e : codec_error) : string :=
  match e with
  | ErrEventTooLarge _ => "encoded event exceeds 64 MiB; reduce source data or change the event budget before rebuilding capture"
  | ErrJSON e => e
  | ErrEventVersion v => String.append "unsupported event wire version " (FormatInt v)
  | ErrDocumentVersion v => String.append "unsupported document wire version " (FormatInt v)
  | ErrUpdateVersion v => String.append "unsupported update description wire version " (FormatInt v)
  | ErrFullDocument e => String.append "full document: " (codec_text e)
  | ErrUpdateDescription e => String.append "update description: " (codec_text e)
  | ErrIdentity _ => "invalid document identity"
  | ErrIdentityDisagrees => "document logical identity disagrees with fullpath"
  | ErrValue _ | ErrTypedText _ => "invalid value"
  | ErrFieldsObject => "document fields must be an object"
  | ErrTreePanic => "unexpected value"
  end.

#[export] Instance event_codec {EJ : EventJSON} : EventCodec.
Proof.
  refine {| MarshalEvent e := map_err codec_text (encode_event e); UnmarshalEvent l := map_err codec_text (decode_event l);
            storable := wf_event; stored := settled |}; try done.
  intros e data Hw H%map_err_ok. by rewrite (proj2 (encode_decode_event e data Hw H)).
Defined.

(** ** A concrete encoding

    Structs written as the code of their fields in digits, with the separators of
    the payloads as long as those of the text: the assumptions on encoding/json
    hold together. *)
Fixpoint pos_digits (p : positive) : bytes :=
  match p with xH => [50] | xO p => 48 :: pos_digits p | xI p => 49 :: pos_digits p end.
Fixpoint digits_pos (l : bytes) : option positive :=
  match l with
  | [] => None
  | b :: l => if b =? 50 then Some xH else if b =? 48 then xO <$> digits_pos l else xI <$> digits_pos l
  end.
Lemma digits_pos_digits p rest : digits_pos (pos_digits p ++ rest) = Some p.
Proof. induction p as [p IH|p IH|]; cbn; [by rewrite IH|by rewrite IH|done]. Qed.

Definition is_digits (l : bytes) : Prop := l <> [] /\ Forall (fun b => 48 <= b <= 50) l.
Lemma pos_digits_ok p : is_digits (pos_digits p).
Proof. induction p as [p [_ IH]|p [_ IH]|]; (split; [done|]); cbn; repeat constructor; try lia; done. Qed.

Definition put_code {A} `{Countable A} (x : A) : bytes := pos_digits (encode x).
Definition get_code {A} `{Countable A} (l : bytes) : res string A :=
  match digits_pos l ≫= decode with Some x => Ok x | None => Err "syntax error" end.
Lemma get_put_code {A} `{Countable A} (x : A) rest : get_code (put_code x ++ rest) = Ok x.
Proof. unfold get_code, put_code. rewrite digits_pos_digits. cbn. by rewrite decode_encode. Qed.

Fixpoint json_gen (t : json) : gen_tree (bool + string + option Z) :=
  match t with
  | JNull => GenNode 0 []
  | JBool b => GenLeaf (inl (inl b))
  | JString s => GenLeaf (inl (inr s))
  | JNumber n => GenLeaf (inr n)
  | JArray l => GenNode 1 (map json_gen l)
  | JObject m => GenNode 2 (map (fun x => GenNode 3 [GenLeaf (inl (inr x.1)); json_gen x.2]) m)
  end.
Fixpoint gen_json (t : gen_tree (bool + string + option Z)) : json :=
  match t with
  | GenLeaf (inl (inl b)) => JBool b
  | GenLeaf (inl (inr s)) => JString s
  | GenLeaf (inr n) => JNumber n
  | GenNode 1 l => JArray (map gen_json l)
  | GenNode 2 l => JObject (map (fun x => match x with
                                          | GenNode _ [GenLeaf (inl (inr k)); v] => (k, gen_json v)
                                          | _ => (""%string, JNull)
                                          end) l)
  | GenNode _ _ => JNull
  end.
Fixpoint gen_json_gen (t : json) : gen_json (json_gen t) = t.
Proof.
  destruct t as [|b|s|n|l|m]; cbn; try done; f_equal.
  - induction l as [|x l IH]; cbn; [done|]. by rewrite gen_json_gen, IH.
  - induction m as [|[k x] m IH]; cbn; [done|]. by rewrite gen_json_gen, IH.
Qed.
#[export] Instance json_eq_dec : EqDecision json.
Proof. refine (inj_eq_dec json_gen). intros a b E. by rewrite <- (gen_json_gen a), <- (gen_json_gen b), E. Defined.
#[export] Instance json_countable : Countable json := inj_countable' json_gen gen_json gen_json_gen.

(** The fields of an envelope without its payloads. *)
Definition op_code (o : StoreOperationType) : Z * string :=
  match o with
  | StoreOperationInsert => (0, "") | StoreOperationUpdate => (1, "") | StoreOperationReplace => (2, "") | StoreOperationDelete => (3, "")
  | StoreOperationOther s => (4, s)
  end%string.
Definition code_op (x : Z * string) : StoreOperationType :=
  if x.1 =? 0 then StoreOperationInsert else if x.1 =? 1 then StoreOperationUpdate else if x.1 =? 2 then StoreOperationReplace
  else if x.1 =? 3 then StoreOperationDelete else StoreOperationOther x.2.
Definition header_code (w : eventWire) :=
  (ew_Version w, [ew_EventID w; ew_Database w; ew_MgoColl w; ew_MgoDocID w; ew_Backend w], op_code (ew_OpType w),
   (ct_T (ew_ClusterTime w), ct_I (ew_ClusterTime w)), ew_TxnNumber w, ew_Timestamp w).
Definition code_header (x : Z * list string * (Z * string) * (Z * Z) * option Z * Z) (document delta : bytes) : eventWire :=
  match x with
  | (v, ss, op, ct, txn, ts) =>
      {| ew_Version := v; ew_EventID := default "" (ss !! 0%nat); ew_Database := default "" (ss !! 1%nat); ew_MgoColl := default "" (ss !! 2%nat);
         ew_MgoDocID := default "" (ss !! 3%nat); ew_OpType := code_op op; ew_FullDocument := document; ew_UpdateDesc := delta;
         ew_ClusterTime := ClusterAt ct.1 ct.2; ew_TxnNumber := txn; ew_Timestamp := ts; ew_Backend := default "" (ss !! 4%nat) |}
  end.
Lemma code_header_code w : code_header (header_code w) (ew_FullDocument w) (ew_UpdateDesc w) = w.
Proof. destruct w as [v e d c i op fd ud [t ii] txn ts b]. cbn. by destruct op. Qed.

(** What follows a run of digits. *)
Fixpoint span_code (l : bytes) : bytes * bytes :=
  match l with
  | [] => ([], [])
  | b :: l' => if (48 <=? b) && (b <=? 50) then let '(p, r) := span_code l' in (b :: p, r) else ([], l)
  end.
Lemma span_code_app p r : Forall (fun b => 48 <= b <= 50) p -> (forall b r', r = b :: r' -> 50 < b) -> span_code (p ++ r) = (p, r).
Proof.
  intros Hp Hr. induction Hp as [|b p Hb Hp IH]; cbn.
  - destruct r as [|b r']; [done|]. cbn. specialize (Hr b r' eq_refl). rewrite (proj2 (Z.leb_gt b 50)) by lia. by rewrite andb_false_r.
  - rewrite (proj2 (Z.leb_le 48 b)), (proj2 (Z.leb_le b 50)) by lia. cbn. by rewrite IH.
Qed.
Definition put_part (mark : Z) (n : nat) (raw : bytes) : bytes := match raw with [] => [] | _ => repeat mark n ++ raw end.
Definition get_part (mark : Z) (n : nat) (l : bytes) : bytes * bytes :=
  match l with b :: _ => if b =? mark then span_code (drop n l) else ([], l) | [] => ([], []) end.
Lemma get_put_part mark n raw rest : (0 < n)%nat -> raw = [] \/ is_digits raw -> (forall b r', rest = b :: r' -> 50 < b /\ b <> mark) ->
  get_part mark n (put_part mark n raw ++ rest) = (raw, rest).
Proof.
  intros Hn Hraw Hr. unfold put_part, get_part. destruct Hraw as [->|[Hne Hd]].
  - cbn. destruct rest as [|b r']; [done|]. destruct (Hr b r' eq_refl) as [_ H]. by rewrite (proj2 (Z.eqb_neq b mark) H).
  - destruct raw as [|x raw]; [done|]. destruct n as [|n]; [lia|]. rewrite <- app_assoc.
    cbn [repeat app]. rewrite Z.eqb_refl. cbn [drop].
    rewrite drop_app_length' by (symmetry; apply repeat_length). apply (span_code_app (x :: raw) rest); [done|]. intros b r' E. by apply (Hr b r').
Qed.
Lemma length_put_part mark n raw : Z.of_nat (length (put_part mark n raw)) = raw_size (Z.of_nat n) raw.
Proof. unfold put_part, raw_size. destruct raw; [done|]. rewrite length_app, repeat_length. lia. Qed.

Definition put_event (w : eventWire) : bytes :=
  put_code (header_code w) ++ put_part 51 11 (ew_FullDocument w) ++ put_part 52 14 (ew_UpdateDesc w).
Definition get_event (l : bytes) : res string eventWire :=
  let '(head, rest) := span_code l in
  let '(document, rest) := get_part 51 11 rest in
  let '(delta, _) := get_part 52 14 rest in
  x ← get_code head; Ok (code_header x document delta).

Lemma put_part_mark mark n raw b r : (0 < n)%nat -> put_part mark n raw = b :: r -> b = mark.
Proof. unfold put_part. destruct raw, n; cbn; [done..|lia|]. by intros _ [= <- _]. Qed.
Lemma get_put_event w : wf_eventWire is_digits w -> get_event (put_event w) = Ok w.
Proof.
  intros (_ & _ & _ & Hd & Hu & _). unfold get_event, put_event.
  assert (H52 : forall b r, put_part 52 14 (ew_UpdateDesc w) = b :: r -> b = 52) by (intros b r; apply put_part_mark; lia).
  rewrite span_code_app; [|apply pos_digits_ok|].
  2: { intros b r E. destruct (put_part 51 11 (ew_FullDocument w)) as [|b' r'] eqn:E1; cbn in E.
       - apply H52 in E. lia.
       - injection E as -> _. apply put_part_mark in E1; lia. }
  rewrite get_put_part; [|lia|done|intros b r E; apply H52 in E; lia].
  rewrite <- (app_nil_r (put_part 52 14 (ew_UpdateDesc w))), get_put_part; [|lia|done|done].
  rewrite <- (app_nil_r (put_code (header_code w))), get_put_code. cbn. f_equal. apply code_header_code.
Qed.

Definition document_code (w : documentWire) :=
  ([dw_WireVersion w; dw_UpdatedAt w; dw_CreatedAt w; dw_Version w],
   [dw_ID w; dw_Database w; dw_Fullpath w; dw_Collection w; dw_LogicalID w; dw_CollectionHash w; dw_Parent w], dw_Data w, dw_Deleted w).
Definition code_document (x : list Z * list string * bytes * bool) : documentWire :=
  match x with
  | (zs, ss, data, deleted) =>
      {| dw_WireVersion := default 0 (zs !! 0%nat); dw_ID := default "" (ss !! 0%nat); dw_Database := default "" (ss !! 1%nat);
         dw_Fullpath := default "" (ss !! 2%nat); dw_Collection := default "" (ss !! 3%nat); dw_LogicalID := default "" (ss !! 4%nat);
         dw_CollectionHash := default "" (ss !! 5%nat); dw_Parent := default "" (ss !! 6%nat); dw_UpdatedAt := default 0 (zs !! 1%nat);
         dw_CreatedAt := default 0 (zs !! 2%nat); dw_Version := default 0 (zs !! 3%nat); dw_Data := data; dw_Deleted := deleted |}
  end%string.
Definition update_code (w : updateWire) :=
  (uw_Version w, uw_UpdatedFields w, uw_RemovedFields w, map (fun t => (ta_Field t, ta_NewSize t)) (uw_TruncatedArrays w)).
Definition code_update (x : Z * bytes * list string * list (string * Z)) : updateWire :=
  match x with
  | (v, fields, removed, truncated) =>
      {| uw_Version := v; uw_UpdatedFields := fields; uw_RemovedFields := removed;
         uw_TruncatedArrays := map (fun t => Truncated t.1 t.2) truncated |}
  end.

Definition code_json : EventJSON.
Proof.
  refine {|
    text := is_digits; marshal_tree t := put_code t; unmarshal_tree l := get_code l;
    marshal_event := put_event; unmarshal_event := get_event;
    marshal_document w := put_code (document_code w); unmarshal_document l := code_document <$> get_code l;
    marshal_update w := put_code (update_code w); unmarshal_update l := code_update <$> get_code l |}.
  - by intros l [? _].
  - intros t. apply pos_digits_ok.
  - intros w _. apply pos_digits_ok.
  - intros w _. apply pos_digits_ok.
  - intros n t _ _ _. rewrite <- (app_nil_r (put_code t)). apply get_put_code.
  - apply get_put_event.
  - intros w _. rewrite <- (app_nil_r (put_code _)), get_put_code. by destruct w.
  - intros [v f r ts] _. rewrite <- (app_nil_r (put_code _)), get_put_code. cbn. do 2 f_equal.
    induction ts as [|[a b] ts IH]; cbn; [done|]. by rewrite IH.
  - intros w. unfold put_event. rewrite !length_app, !Nat2Z.inj_add, !length_put_part. cbn [ew_FullDocument ew_UpdateDesc without_payload raw_size].
    change (header_code (without_payload w)) with (header_code w). change (Z.of_nat 11) with 11. change (Z.of_nat 14) with 14. lia.
Defined.

(** An update that removes a field. *)
Definition sample_update : StoreChangeEvent := {|
  evt_EventID := "5-1-ab"; evt_Database := "db"; evt_MgoColl := "documents"; evt_MgoDocID := "db:1";
  evt_OpType := StoreOperationUpdate; evt_FullDocument := None;
  evt_UpdateDesc := Some {| ud_UpdatedFields := ∅; ud_RemovedFields := ["x"%string]; ud_TruncatedArrays := [] |};
  evt_ClusterTime := ClusterAt 5 1; evt_TxnNumber := Some 3; evt_Timestamp := 0; evt_Backend := "a" |}.

Lemma event_roundtrip_witness :
  exists data, encode_event (EJ := code_json) sample_update = Ok data /\
    Z.of_nat (length data) <= MaxEventBytes /\ decode_event (EJ := code_json) data = Ok (settled sample_update).
Proof.
  assert (is_ok (encode_event (EJ := code_json) sample_update) = true) as Hok by (vm_compute; reflexivity).
  destruct (encode_event (EJ := code_json) sample_update) as [data|] eqn:E; [|discriminate].
  exists data. split; [reflexivity|]. apply (event_roundtrip (EJ := code_json) sample_update data); [|exact E].
  split_and!; [repeat constructor|done|done| |split; by vm_compute|by vm_compute|by vm_compute].
  split_and!; [apply map_Forall_empty|repeat constructor|repeat constructor].
Defined.
