(* ===== verification/Normalizer.v ===== *)
(** * From raw change-stream events to change events:
      internal/puller/normalizer/normalizer.go

    The decoded BSON of an event, and what [Normalize] makes of it. A [bson.M] is an
    association list with one entry per key. *)
From stdpp Require Import base list gmap strings.
From Stdlib Require Import ZArith.
From S2P Require Import Prelude Value IndexStore Codec Projection Events Progress Buffer BufferScan.
Local Open Scope Z_scope.

(** The values the driver decodes into an [any]; times are in milliseconds. *)
Inductive bson :=
| BNil | BBool (b : bool) | BString (s : string) | BInt (k : int_kind) (i : Z) | BDouble (bits : Z)
| BObjectID (id : bytes) | BDateTime (ms : Z) | BTime (ms : Z) | BTimestamp (t i : Z)
| BM (m : list (string * bson)) | BA (l : list bson)
| BOther (type_name : string).
Abbreviation bsonM := (list (string * bson)) (only parsing).

Definition bson_get (m : bsonM) (k : string) : option bson := snd <$> List.find (fun kv => String.eqb kv.1 k) m.
Definition bson_put (k : string) (v : bson) (m : bsonM) : bsonM :=
  map (fun kv => if String.eqb kv.1 k then (k, v) else kv) m.

(** The library go.mongodb.org/mongo-driver/bson: documents to bytes, and bytes to a
    [StoredDoc]. [sprint] is [fmt.Sprintf] with [%v] of a value that is neither an
    identifier, a string nor an integer. *)
Class BsonCodec := {
  bson_Marshal : bsonM -> res string bytes;
  bson_UnmarshalDoc : bytes -> res string StoredDoc;
  sprint : bson -> string;
}.

Record RawEvent := {
  raw_OperationType : string; raw_ClusterTime : ClusterTime; raw_TxnNumber : option Z;
  raw_FullDocument : option bsonM; raw_UpdateDescription : option bsonM; raw_DocumentKey : option bsonM;
  raw_DB : string; raw_Coll : string; raw_ResumeToken : bytes;
}.

Inductive normalize_error :=
| UnknownOperation (op : string) | DocumentKeyNil | MarshalFailed (e : string) | UnmarshalFailed (e : string)
| FullDocumentMissing (op : string).

(** [events.StoreOperationType(s)]. *)
Definition operation_type (s : string) : StoreOperationType :=
  if String.eqb s "insert" then StoreOperationInsert
  else if String.eqb s "update" then StoreOperationUpdate
  else if String.eqb s "replace" then StoreOperationReplace
  else if String.eqb s "delete" then StoreOperationDelete
  else StoreOperationOther s.

(** A date in one of the metadata fields becomes its milliseconds. *)
Definition fix_field (field : string) (doc : bsonM) : bsonM :=
  match bson_get doc field with
  | Some (BDateTime ms) | Some (BTime ms) => bson_put field (BInt KInt64 ms) doc
  | _ => doc
  end.
Definition fixTimestamps (doc : bsonM) : bsonM :=
  fold_left (fun doc field => fix_field field doc) ["created_at"; "updated_at"; "sys_expires_at"]%string doc.

Fixpoint convertBsonValue (v : bson) : value :=
  match v with
  | BM m => VMap (map (fun kv => (kv.1, convertBsonValue kv.2)) m)
  | BA l => VSlice (map convertBsonValue l)
  | BObjectID id => VString (string_of_bytes (hex_encode id))
  | BDateTime _ | BTime _ => VOther "time.Time"
  | BTimestamp _ _ => VMap [("T", VOther "uint32"); ("I", VOther "uint32")]%string
  | BNil => VNil
  | BBool b => VBool b
  | BString s => VString s
  | BInt k i => VInt k i
  | BDouble b => VFloat64 b
  | BOther t => VOther t
  end.
Definition convertBsonM (m : bsonM) : gmap string value :=
  list_to_map (map (fun kv => (kv.1, convertBsonValue kv.2)) m).

(** The fields of an unexpected type are left out; [newSize] is an [int32] or 0. *)
Definition convertUpdateDescription (m : bsonM) : UpdateDescription := {|
  ud_UpdatedFields := match bson_get m "updatedFields" with Some (BM f) => convertBsonM (fixTimestamps f) | _ => ∅ end;
  ud_RemovedFields := match bson_get m "removedFields" with
                      | Some (BA l) => omap (fun v => match v with BString s => Some s | _ => None end) l
                      | _ => []
                      end;
  ud_TruncatedArrays := match bson_get m "truncatedArrays" with
                        | Some (BA l) => omap (fun v => match v with
                            | BM ta => Some {| ta_Field := match bson_get ta "field" with Some (BString s) => s | _ => "" end;
                                               ta_NewSize := match bson_get ta "newSize" with Some (BInt KInt32 n) => n | _ => 0 end |}
                            | _ => None end) l
                        | _ => []
                        end |}.

Section Normalize.
Context {BC : BsonCodec}.

Definition formatID (id : bson) : string :=
  match id with
  | BObjectID id => string_of_bytes (hex_encode id)
  | BString s => s
  | BInt (KInt | KInt32 | KInt64) i => string_of_bytes (json_int i)
  | v => sprint v
  end.

(** The error of [bson.Marshal] is dropped: the bytes are then nil. *)
Definition formatCompoundKey (docKey : bsonM) : string :=
  let data := match bson_Marshal docKey with Ok data => data | Err _ => [] end in
  string_of_bytes (hex_encode (take 16 (Sha256.Sum256 data))).

Definition extractDocumentID (docKey : option bsonM) : res normalize_error string :=
  match docKey with
  | None => Err DocumentKeyNil
  | Some docKey => Ok (match bson_get docKey "_id" with Some id => formatID id | None => formatCompoundKey docKey end)
  end.

Definition convert_document (doc : option bsonM) : res normalize_error (option StoredDoc) :=
  match doc with
  | None => Ok None
  | Some doc =>
      data ← map_err MarshalFailed (bson_Marshal (fixTimestamps doc));
      Some <$> map_err UnmarshalFailed (bson_UnmarshalDoc data)
  end.

Definition requires_document (op : StoreOperationType) : bool :=
  bool_decide (op = StoreOperationUpdate) || bool_decide (op = StoreOperationReplace).

(** [now]: the clock, in milliseconds. *)
Definition Normalize (raw : RawEvent) (now : Z) : res normalize_error StoreChangeEvent :=
  let opType := operation_type (raw_OperationType raw) in
  if negb (op_IsValid opType) then Err (UnknownOperation (raw_OperationType raw))
  else
    docID ← extractDocumentID (raw_DocumentKey raw);
    fullDoc ← convert_document (raw_FullDocument raw);
    if requires_document opType && bool_decide (fullDoc = None) then Err (FullDocumentMissing (raw_OperationType raw))
    else Ok {|
      evt_EventID := generateEventID (raw_ClusterTime raw) (raw_Coll raw) docID;
      evt_Database := match fullDoc with Some doc => doc_Database doc | None => "" end;
      evt_MgoColl := raw_Coll raw; evt_MgoDocID := docID; evt_OpType := opType;
      evt_FullDocument := fullDoc;
      evt_UpdateDesc := convertUpdateDescription <$> raw_UpdateDescription raw;
      evt_ClusterTime := raw_ClusterTime raw; evt_TxnNumber := raw_TxnNumber raw; evt_Timestamp := now; evt_Backend := "" |}.

(** ** What a normalised event is *)
Lemma generateEventID_nonempty ct collection docID : generateEventID ct collection docID <> "".
Proof.
  unfold generateEventID. set (l := uintToString (ct_T ct)). set (r := 45 :: _). assert (l ++ r <> []) as H by (by destruct l).
  destruct (l ++ r); [done|]. cbn. done.
Qed.

(** The event carries the cluster time, collection and document of the raw event and
    an identifier that tells its time; its operation is one of the four, with a full
    document where it needs one. *)
Theorem Normalize_event raw now e :
  Normalize raw now = Ok e -> is_cluster_time (raw_ClusterTime raw) ->
  event_ok e /\ evt_ClusterTime e = raw_ClusterTime raw /\ ParseEventID (evt_EventID e) = Some (raw_ClusterTime raw) /\
  evt_MgoColl e = raw_Coll raw /\ extractDocumentID (raw_DocumentKey raw) = Ok (evt_MgoDocID e) /\
  op_IsValid (evt_OpType e) = true /\ (requires_document (evt_OpType e) = true -> is_Some (evt_FullDocument e)) /\
  (is_Some (evt_FullDocument e) <-> is_Some (raw_FullDocument raw)).
Proof.
  intros H Hct. unfold Normalize in H. destruct (op_IsValid (operation_type _)) eqn:Ev; [|done]. cbn [negb] in H.
  apply bind_ok in H as (docID & Hid & (doc & Hdoc & H)%bind_ok). destruct (_ && _) eqn:Er; [done|]. apply Ok_inj in H as <-. cbn.
  split_and!; try done.
  - split; [done|]. apply generateEventID_nonempty.
  - by apply ParseEventID_generateEventID.
  - intros Hr. rewrite Hr in Er. cbn in Er. apply bool_decide_eq_false in Er. by destruct doc.
  - unfold convert_document in Hdoc. destruct (raw_FullDocument raw); [|by apply Ok_inj in Hdoc as <-].
    apply bind_ok in Hdoc as (data & _ & Hdoc). destruct (map_err _ _); [|done]. apply Ok_inj in Hdoc as <-. by split.
Qed.

(** Capturing a raw event again gives an event under the same key. *)
Lemma Normalize_again raw now now' e e' :
  Normalize raw now = Ok e -> Normalize raw now' = Ok e' -> BufferKey e' = BufferKey e.
Proof.
  unfold Normalize. destruct (negb _); [done|]. destruct (extractDocumentID _) as [docID|]; [|done].
  destruct (convert_document _) as [doc|]; [|done]. cbn [mbind res_bind]. destruct (_ && _); [done|].
  intros <-%Ok_inj <-%Ok_inj. done.
Qed.
End Normalize.
