(* ===== verification/Capture.v ===== *)
(** * Capture: the change-stream loop of internal/puller/core/puller.go
      (runBackend, watchChangeStream, invokeHandlerWithBackpressure,
      buildWatchPipeline)

    The capture goroutine of a backend as a program: its calls go to the change
    stream, to the event buffer, to the capture state of boundary.go, to the recovery
    handler and to the subscribers. The batcher, retention and the process act between
    any two of them.

    The first part is internal/puller/recovery/recovery.go: the gap detector and the
    handler that decides what follows an error of the change stream. *)
From stdpp Require Import base list strings sorting gmap relations.
From Stdlib Require Import ZArith Ascii.
From S2P Require Import Prelude Value IndexStore Codec Projection Intervals Pebble Events Coalescer Merge Progress Admission FlowControl Prog Buffer BufferScan BufferMachine Replay Normalizer.
Local Open Scope Z_scope.

(** ** Gaps *)

(** Durations are nanoseconds. *)
Definition GapThreshold : Z := 5 * 60 * 1000000000.

(** [gd_lastEventTime] is in seconds; [None] is the zero time. *)
Record GapDetector := { gd_threshold : Z; gd_lastEventTime : option Z; gd_gapsDetected : Z }.

Definition NewGapDetector (threshold : Z) : GapDetector :=
  {| gd_threshold := if threshold =? 0 then GapThreshold else threshold; gd_lastEventTime := None; gd_gapsDetected := 0 |}.

(** A difference of two times of 32 bits does not overflow a duration. *)
Definition RecordEvent (g : GapDetector) (evt : StoreChangeEvent) : GapDetector * bool :=
  let eventTime := ct_T (evt_ClusterTime evt) in
  match gd_lastEventTime g with
  | None => ({| gd_threshold := gd_threshold g; gd_lastEventTime := Some eventTime; gd_gapsDetected := gd_gapsDetected g |}, false)
  | Some lastEventTime =>
      let gap := (eventTime - lastEventTime) * 1000000000 in
      if gd_threshold g <=? gap
      then ({| gd_threshold := gd_threshold g; gd_lastEventTime := Some eventTime; gd_gapsDetected := i64 (gd_gapsDetected g + 1) |}, true)
      else ({| gd_threshold := gd_threshold g; gd_lastEventTime := Some eventTime; gd_gapsDetected := gd_gapsDetected g |}, false)
  end.

Definition gd_Reset (g : GapDetector) : GapDetector :=
  {| gd_threshold := gd_threshold g; gd_lastEventTime := None; gd_gapsDetected := 0 |}.

(** ** Classes of errors *)
Definition fold_byte (b : Z) : Z := if Prelude.in_range 65 90 b then b + 32 else b.

(** [strings.EqualFold] of two strings of the same length, one of them ASCII: a rune
    of several bytes in the other leaves it with fewer runes. *)
Definition equalsIgnoreCase (a b : bytes) : bool := bytes_eqb (map fold_byte a) (map fold_byte b).

Definition contains (s substr : string) : bool :=
  let s := bytes_of_string s in
  let substr := bytes_of_string substr in
  if (length substr <=? length s)%nat
  then existsb (fun i => equalsIgnoreCase (take (length substr) (drop i s)) substr) (seq 0 (S (length s - length substr)))
  else false.

Definition resumeTokenErrors : list string :=
  ["resume token was not found"; "the resume token was not found"; "resume point may no longer be in the oplog";
   "ChangeStreamHistoryLost"; "ChangeStreamFatalError"]%string.
Definition transientErrors : list string :=
  ["connection reset"; "connection refused"; "broken pipe"; "EOF"; "timeout"; "context deadline exceeded"; "network";
   "temporary failure"]%string.

(** On the text of the error. *)
Definition isResumeTokenError (err : string) : bool := existsb (contains err) resumeTokenErrors.
Definition isTransientError (err : string) : bool := existsb (contains err) transientErrors.

(** ** The handler *)
Inductive Action := ActionNone | ActionReconnect | ActionRestart | ActionFatal.
#[export] Instance Action_eq_dec : EqDecision Action.
Proof. solve_decision. Defined.

Definition action_String (a : Action) : string :=
  match a with ActionNone => "none" | ActionReconnect => "reconnect" | ActionRestart => "restart" | ActionFatal => "fatal" end.

Record Handler := { h_consecutiveErrors : Z; h_maxConsecutiveErrors : Z; h_resumeTokenErrors : Z }.

Definition NewHandler (maxErrors : Z) : Handler :=
  {| h_consecutiveErrors := 0; h_maxConsecutiveErrors := if maxErrors =? 0 then 10 else maxErrors; h_resumeTokenErrors := 0 |}.

(** [err] is the text of the error, [None] when it is nil. *)
Definition HandleError (h : Handler) (err : option string) : Handler * Action :=
  match err with
  | None => ({| h_consecutiveErrors := 0; h_maxConsecutiveErrors := h_maxConsecutiveErrors h;
                h_resumeTokenErrors := h_resumeTokenErrors h |}, ActionNone)
  | Some err =>
      let consecutiveErrors := i64 (h_consecutiveErrors h + 1) in
      let counted resumeTokenErrors := {| h_consecutiveErrors := consecutiveErrors;
        h_maxConsecutiveErrors := h_maxConsecutiveErrors h; h_resumeTokenErrors := resumeTokenErrors |} in
      if isResumeTokenError err then (counted (i64 (h_resumeTokenErrors h + 1)), ActionFatal)
      else (counted (h_resumeTokenErrors h),
            if isTransientError err then ActionReconnect
            else if h_maxConsecutiveErrors h <=? consecutiveErrors then ActionFatal
            else ActionReconnect)
  end.

Definition ResetErrorCount (h : Handler) : Handler :=
  {| h_consecutiveErrors := 0; h_maxConsecutiveErrors := h_maxConsecutiveErrors h; h_resumeTokenErrors := h_resumeTokenErrors h |}.

(** [DeleteCheckpoint], [None] without a checkpoint manager, and its error. *)
Definition RecoverFromResumeTokenError (deleteCheckpoint : option (option string)) : option string :=
  match deleteCheckpoint with
  | Some (Some e) => Some ("failed to delete checkpoint: " +:+ e)
  | _ => None
  end.

(** ** Facts *)
Example contains_folds : contains "read tcp: Connection RESET by peer" "connection reset" = true.
Proof. vm_compute. reflexivity. Qed.
Example contains_short : contains "eo" "EOF" = false.
Proof. vm_compute. reflexivity. Qed.

(** [contains] finds exactly the occurrences up to case. *)
Lemma contains_spec s substr :
  contains s substr = true <->
  exists p m q, bytes_of_string s = p ++ m ++ q /\ map fold_byte m = map fold_byte (bytes_of_string substr).
Proof.
  unfold contains. set (l := bytes_of_string s). set (u := bytes_of_string substr). split.
  - destruct (Nat.leb_spec (length u) (length l)); [|done]. intros (i & _ & Hi)%existsb_exists. apply bytes_eqb_eq in Hi.
    exists (take i l), (take (length u) (drop i l)), (drop (length u) (drop i l)). by rewrite !take_drop.
  - intros (p & m & q & -> & Hm). assert (length m = length u) as Hl by (by rewrite <- (length_map fold_byte m), Hm, length_map).
    rewrite !length_app, Hl. destruct (Nat.leb_spec (length u) (length p + (length u + length q))); [|lia].
    apply existsb_exists. exists (length p). split; [apply in_seq; lia|]. rewrite drop_app_length, <- Hl, take_app_length.
    by apply bytes_eqb_eq.
Qed.

(** The errors of a handler, each with its text, and the actions taken. *)
Fixpoint handle_all (h : Handler) (errs : list string) : Handler * list Action :=
  match errs with
  | [] => (h, [])
  | err :: errs =>
      let '(h, a) := HandleError h (Some err) in
      let '(h, l) := handle_all h errs in (h, a :: l)
  end.

Lemma handle_all_count h errs : 0 <= h_consecutiveErrors h -> h_consecutiveErrors h + Z.of_nat (length errs) < 2 ^ 63 ->
  h_consecutiveErrors (handle_all h errs).1 = h_consecutiveErrors h + Z.of_nat (length errs) /\
  h_maxConsecutiveErrors (handle_all h errs).1 = h_maxConsecutiveErrors h.
Proof.
  revert h. induction errs as [|err errs IH]; intros h H0 Hb; cbn [handle_all length fst] in *; [split; [lia|done]|].
  destruct (HandleError h (Some err)) as [h1 a] eqn:E. destruct (handle_all h1 errs) as [h2 l] eqn:E2.
  assert (h_consecutiveErrors h1 = h_consecutiveErrors h + 1 /\ h_maxConsecutiveErrors h1 = h_maxConsecutiveErrors h) as [Hc Hm].
  { unfold HandleError in E. rewrite i64_id in E by (unfold is_i64; lia). destruct (isResumeTokenError err); by injection E as <- _. }
  specialize (IH h1). rewrite E2 in IH. cbn [fst] in *. destruct IH as [-> ->]; [lia|lia|]. split; [lia|done].
Qed.

(** A handler that is never reset counts every error, the transient ones too: after
    nine errors it has recovered from, whatever their distance, the next one it does
    not know is fatal. *)
Theorem errors_accumulate errs err :
  length errs = 9%nat -> isResumeTokenError err = false -> isTransientError err = false ->
  (HandleError (handle_all (NewHandler 10) errs).1 (Some err)).2 = ActionFatal.
Proof.
  intros Hl H1 H2. destruct (handle_all_count (NewHandler 10) errs) as [Hc Hm]; [done|by rewrite Hl|].
  unfold HandleError. rewrite H1, H2, Hc, Hm, Hl. done.
Qed.

Lemma errors_accumulate_witness :
  (HandleError (handle_all (NewHandler 10) (repeat "connection reset by peer"%string 9)).1 (Some "not primary"%string)).2 = ActionFatal /\
  (handle_all (NewHandler 10) (repeat "connection reset by peer"%string 9)).2 = repeat ActionReconnect 9.
Proof. split; [apply errors_accumulate; vm_compute; reflexivity|vm_compute; reflexivity]. Defined.

(** The gaps counted: a step of the threshold or more between two events in the
    order they arrive. *)
Fixpoint gaps (threshold last : Z) (times : list Z) : Z :=
  match times with
  | [] => 0
  | t :: times => (if threshold <=? (t - last) * 1000000000 then 1 else 0) + gaps threshold t times
  end.
Definition record_all (g : GapDetector) (evts : list StoreChangeEvent) : GapDetector :=
  fold_left (fun g e => (RecordEvent g e).1) evts g.

Lemma gaps_bound threshold l times : 0 <= gaps threshold l times <= Z.of_nat (length times).
Proof. revert l; induction times as [|t times IH]; intros l; cbn [gaps length]; [lia|]. specialize (IH t). destruct (_ <=? _); lia. Qed.

Theorem gap_count threshold evt evts : Z.of_nat (length evts) < 2 ^ 63 ->
  gd_gapsDetected (record_all (NewGapDetector threshold) (evt :: evts)) =
  gaps (if threshold =? 0 then GapThreshold else threshold) (ct_T (evt_ClusterTime evt)) (map (fun e => ct_T (evt_ClusterTime e)) evts).
Proof.
  intros Hb. set (th := if threshold =? 0 then _ else _).
  enough (forall g l, gd_threshold g = th -> gd_lastEventTime g = Some l -> 0 <= gd_gapsDetected g ->
    gd_gapsDetected g + Z.of_nat (length evts) < 2 ^ 63 ->
    gd_gapsDetected (record_all g evts) = gd_gapsDetected g + gaps th l (map (fun e => ct_T (evt_ClusterTime e)) evts)) as H.
  { unfold record_all. cbn [fold_left]. fold (record_all (RecordEvent (NewGapDetector threshold) evt).1 evts).
    rewrite (H _ (ct_T (evt_ClusterTime evt))); [done..|cbn; lia]. }
  clear. induction evts as [|e evts IH]; intros g l Ht Hl H0 Hb; cbn [length map gaps] in *; [cbn; lia|].
  unfold record_all. cbn [fold_left]. fold (record_all (RecordEvent g e).1 evts). unfold RecordEvent. rewrite Hl, Ht.
  destruct (th <=? _) eqn:E; cbn [fst]; rewrite (IH _ (ct_T (evt_ClusterTime e))); cbn; rewrite ?i64_id; try done; unfold is_i64; try lia.
Qed.

(** ** The loop *)
(** ** Errors

    The text of an error and the sentinels [errors.Is] finds in it. *)
Inductive sentinel := SCaptureFailed | SCaptureUnavailable | SCanceled.
#[export] Instance sentinel_eq_dec : EqDecision sentinel.
Proof. solve_decision. Defined.
Record go_error := GoError { ge_text : string; ge_is : list sentinel }.
Definition errors_Is (e : go_error) (s : sentinel) : bool := bool_decide (s ∈ ge_is e).

Definition errCaptureFailed : go_error := GoError "capture failed" [SCaptureFailed].
Definition errCaptureUnavailable : go_error := GoError "source capture temporarily unavailable" [SCaptureUnavailable].
(** [fmt.Errorf] with one and with two wrapped errors. *)
Definition errorf (what : string) (e : go_error) : go_error := GoError (what +:+ ": " +:+ ge_text e) (ge_is e).
Definition errorf2 (s : go_error) (what : string) (e : go_error) : go_error :=
  GoError (ge_text s +:+ ": " +:+ what +:+ ": " +:+ ge_text e) (ge_is s ++ ge_is e).
Definition errorf_wrap (s e : go_error) : go_error := GoError (ge_text s +:+ ": " +:+ ge_text e) (ge_is s ++ ge_is e).
Definition newline : string := String.String (Ascii.ascii_of_nat 10) String.EmptyString.
(** [errors.Join] of an error with another or nil. *)
Definition join (e : go_error) (e' : option go_error) : go_error :=
  match e' with Some e' => GoError (ge_text e +:+ newline +:+ ge_text e') (ge_is e ++ ge_is e') | None => e end.

(** The error as the capture state keeps it. *)
Definition classify (e : go_error) : capture_error :=
  if errors_Is e SCaptureUnavailable then Replay.ErrCaptureUnavailable (ge_text e)
  else if errors_Is e SCanceled then ErrCaptureCanceled
  else if errors_Is e SCaptureFailed then ErrCaptureFailed (ge_text e)
  else ErrCaptureOther (ge_text e).

(** ** The calls *)
Inductive stream_start := ResumeAfter (token : bytes) | FromBeginning | FromNow.

Inductive captureE : Type -> Type :=
| ECtxErr : captureE (option go_error)
| ELoadCheckpoint : captureE (res buffer_error (option bytes))
| EOpenStream (pipeline : option (list string)) (start : stream_start) : captureE (option go_error)
| ENow : captureE Z
| ERecordResponse (at_ : Z) : captureE unit
| ERemainingBatchLength : captureE Z
| ETryNext : captureE (bool * option go_error * option go_error)   (** with [stream.Err()] and [pollCtx.Err()] *)
| EStreamID : captureE Z
| EResumeToken : captureE bytes
| EDecode : captureE (res go_error RawEvent)
| ECloseStream : captureE (option go_error)
| EFlush : captureE (option buffer_error)
| ESaveCheckpoint (token : bytes) : captureE (option buffer_error)
| EWrite (evt : StoreChangeEvent) (token : bytes) : captureE (option buffer_error)
| ESetCaptureState (active : bool) (err : option capture_error) : captureE unit
| ERecordEvent (evt : StoreChangeEvent) : captureE bool
| EBroadcast (evt : StoreChangeEvent) : captureE unit
| EHandleEvent (evt : StoreChangeEvent) : captureE (option go_error)
| ESleep (d : Z) : captureE unit
| ECleanerStart : captureE unit
| ECleanerStop : captureE unit
| EWaitRetry : captureE bool
| EHandleError (err : go_error) : captureE Action
| EResetErrorCount : captureE unit.
Abbreviation cprog := (prog captureE) (only parsing).

(** ** The program *)
Section Program.
Context {BC : BsonCodec}.
(** The backend's name and collections, [Bootstrap.Mode == "from_beginning"], the
    event handler and its delays. The texts of these errors are not read. *)
Context (name : string) (collections : list string) (from_beginning has_handler : bool).
Context (monitor : BackpressureMonitor) (slowDownDelay pauseDelay : Z).
Context (buffer_text : buffer_error -> string) (normalize_text : normalize_error -> string).

(** The collections of the [$match] stage; [None]: no stage. *)
Definition buildWatchPipeline : option (list string) :=
  match collections with [] => None | _ => Some collections end.

Definition invokeHandlerWithBackpressure (evt : StoreChangeEvent) : cprog unit :=
  _ ← call (EBroadcast evt);
  if has_handler then
    start ← call ENow;
    _ ← call (EHandleEvent evt);
    now ← call ENow;
    match HandleBackpressure monitor (now - start) with
    | FlowControl.ActionNone => Ret tt
    | FlowControl.ActionSlowDown => call (ESleep slowDownDelay)
    | FlowControl.ActionPause => call (ESleep pauseDelay)
    end
  else Ret tt.

Definition failed (what text : string) : go_error := errorf2 errCaptureFailed what (GoError text []).

(** The boundary behind an empty batch; [Ok]: it is durable and capture is active. *)
Definition save_boundary : cprog (res go_error unit) :=
  token ← call EResumeToken;
  match token with
  | [] => Ret (Err (errorf_wrap errCaptureFailed (GoError "source returned no resume boundary" [])))
  | _ =>
      e ← call EFlush;
      match e with
      | Some e => Ret (Err (failed "flush source boundary" (buffer_text e)))
      | None =>
          e ← call (ESaveCheckpoint token);
          match e with
          | Some e => Ret (Err (failed "save source boundary" (buffer_text e)))
          | None => _ ← call (ESetCaptureState true None); Ret (Ok tt)
          end
      end
  end.

(** An event of the stream: decoded, normalised, buffered and broadcast. *)
Definition capture_event : cprog (res go_error unit) :=
  raw ← call EDecode;
  match raw with
  | Err e => Ret (Err (errorf2 errCaptureFailed "failed to decode event" e))
  | Ok raw =>
      now ← call ENow;
      match Normalize raw now with
      | Err e => Ret (Err (failed "failed to normalize event" (normalize_text e)))
      | Ok evt =>
          let evt := set_Backend evt name in
          _ ← call (ERecordEvent evt);
          e ← call (EWrite evt (raw_ResumeToken raw));
          match e with
          | Some e => Ret (Err (failed "failed to write event to buffer" (buffer_text e)))
          | None => _ ← invokeHandlerWithBackpressure evt; Ret (Ok tt)
          end
      end
  end.

(** One iteration of the loop: the error it returns, or [ready] for the next. *)
Definition watch_round (ready firstPoll : bool) : cprog (res go_error bool) :=
  response ← (if firstPoll then Ret false else n ← call ERemainingBatchLength; Ret (n =? 0));
  '(hasNext, streamErr, pollErr) ← call ETryNext;
  match pollErr, streamErr with
  | Some pollErr, _ =>
      e ← call ECtxErr;
      Ret (Err (match e with Some e => e | None => errorf2 errCaptureUnavailable "native response deadline" pollErr end))
  | None, Some streamErr => Ret (Err (errorf "change stream error" streamErr))
  | None, None =>
      alive ← (if response : bool then (if hasNext : bool then Ret true else id ← call EStreamID; Ret (negb (id =? 0))) else Ret false);
      _ ← (if alive : bool then now ← call ENow; call (ERecordResponse now) else Ret tt);
      if hasNext : bool then r ← capture_event; Ret (_ ← r; Ok ready)
      else
        id ← call EStreamID;
        if id =? 0 then Ret (Err (GoError "change stream closed" []))
        else
          e ← call ECtxErr;
          match e with
          | Some e => Ret (Err e)
          | None => if ready then Ret (Ok true) else r ← save_boundary; Ret (_ ← r; Ok true)
          end
  end.

Inductive watch_result := Returned (err : option go_error) | OutOfFuel.

Fixpoint watch_loop (fuel : nat) (ready firstPoll : bool) : cprog watch_result :=
  match fuel with
  | O => Ret OutOfFuel
  | S fuel =>
      r ← watch_round ready firstPoll;
      match r with Err e => Ret (Returned (Some e)) | Ok ready => watch_loop fuel ready false end
  end.

Definition stream_opts (resumeToken : option bytes) : stream_start :=
  match resumeToken with Some token => ResumeAfter token | None => if from_beginning then FromBeginning else FromNow end.

(** Up to the deferred change of the capture state. *)
Definition watch_stream (fuel : nat) : cprog watch_result :=
  resumeToken ← call ELoadCheckpoint;
  match resumeToken with
  | Err e => Ret (Returned (Some (failed "failed to load checkpoint" (buffer_text e))))
  | Ok resumeToken =>
      e ← call (EOpenStream buildWatchPipeline (stream_opts resumeToken));
      match e with
      | Some e => Ret (Returned (Some (errorf "failed to open change stream" e)))
      | None =>
          now ← call ENow;
          _ ← call (ERecordResponse now);
          r ← watch_loop fuel false true;
          match r with
          | Returned (Some e) => c ← call ECloseStream; Ret (Returned (Some (join e c)))
          | Returned None => c ← call ECloseStream; Ret (Returned c)
          | OutOfFuel => Ret OutOfFuel
          end
      end
  end.

Definition watchChangeStream (fuel : nat) : cprog watch_result :=
  r ← watch_stream fuel;
  match r with
  | OutOfFuel => Ret OutOfFuel
  | Returned result =>
      let stateErr := (fun e => if errors_Is e SCaptureFailed then e else errorf_wrap errCaptureUnavailable e) <$> result in
      _ ← call (ESetCaptureState false (classify <$> stateErr));
      Ret (Returned result)
  end.

Fixpoint backend_loop (fuel : nat) : cprog unit :=
  match fuel with
  | O => Ret tt
  | S fuel =>
      e ← call ECtxErr;
      match e with
      | Some _ => Ret tt
      | None =>
          r ← watchChangeStream fuel;
          match r with
          | OutOfFuel => Ret tt
          | Returned None => _ ← call EResetErrorCount; backend_loop fuel
          | Returned (Some err) =>
              c ← call ECtxErr;
              match c with
              | Some _ => Ret tt
              | None =>
                  if errors_Is err SCaptureFailed then call (ESetCaptureState false (Some (classify err)))
                  else if errors_Is err SCaptureUnavailable then
                    _ ← call (ESetCaptureState false (Some (classify err)));
                    again ← call EWaitRetry;
                    if again : bool then backend_loop fuel else Ret tt
                  else
                    action ← call (EHandleError err);
                    match action with
                    | ActionRestart | ActionFatal => call (ESetCaptureState false (Some (classify err)))
                    | ActionReconnect =>
                        _ ← call (ESetCaptureState false (Some (classify (errorf_wrap errCaptureUnavailable err))));
                        again ← call EWaitRetry;
                        if again : bool then backend_loop fuel else Ret tt
                    | ActionNone => backend_loop fuel
                    end
              end
          end
      end
  end.

Definition runBackend (fuel : nat) : cprog unit :=
  _ ← call ECleanerStart;
  _ ← backend_loop fuel;
  call ECleanerStop.
End Program.

(** ** The world it acts on *)

(** The change events of a backend in the order of the source, and the position a
    resume token stands for: the stream opened after it starts there. The token of
    an event stands for the position behind it. *)
Class ChangeSource := {
  source : list RawEvent;
  token_at : bytes -> nat -> Prop;
  token_at_functional : forall t n m, token_at t n -> token_at t m -> n = m;
  token_at_event : forall i raw, source !! i = Some raw -> token_at (raw_ResumeToken raw) (S i);
}.

Definition matches (pipeline : option (list string)) (raw : RawEvent) : bool :=
  match pipeline with None => true | Some colls => existsb (String.eqb (raw_Coll raw)) colls end.

Section World.
Context `{PB : Pebble} {BK : PebbleBack} {EC : EventCodec} {BC : BsonCodec} {SRC : ChangeSource}.

(** No event from [i] to before [j] passes the pipeline. *)
Definition skipped (pipeline : option (list string)) (i j : nat) : Prop :=
  forall k raw, (i <= k < j)%nat -> source !! k = Some raw -> matches pipeline raw = false.

(** An open stream has its pipeline and its position; the event it is at, and its
    resume token after an empty batch. *)
Record world := {
  w_sys : sys; w_stream : option (option (list string) * nat); w_current : option RawEvent; w_token : bytes;
  w_captureActive : bool; w_captureError : option capture_error; w_captureResponse : option Z; w_captureChanged : nat;
  w_gap : GapDetector; w_recovery : Handler;
}.
Implicit Types w : world.

Definition w_backend w : Backend :=
  {| be_buffer := s_buf (w_sys w); be_captureActive := w_captureActive w; be_captureError := w_captureError w;
     be_captureResponse := w_captureResponse w; be_captureChanged := w_captureChanged w |}.
Definition put_backend w (b : Backend) : world :=
  {| w_sys := w_sys w; w_stream := w_stream w; w_current := w_current w; w_token := w_token w;
     w_captureActive := be_captureActive b; w_captureError := be_captureError b;
     w_captureResponse := be_captureResponse b; w_captureChanged := be_captureChanged b;
     w_gap := w_gap w; w_recovery := w_recovery w |}.
Definition put_sys w (s : sys) : world :=
  {| w_sys := s; w_stream := w_stream w; w_current := w_current w; w_token := w_token w;
     w_captureActive := w_captureActive w; w_captureError := w_captureError w;
     w_captureResponse := w_captureResponse w; w_captureChanged := w_captureChanged w;
     w_gap := w_gap w; w_recovery := w_recovery w |}.
Definition put_stream w (stream : option (option (list string) * nat)) (current : option RawEvent) (token : bytes) : world :=
  {| w_sys := w_sys w; w_stream := stream; w_current := current; w_token := token;
     w_captureActive := w_captureActive w; w_captureError := w_captureError w;
     w_captureResponse := w_captureResponse w; w_captureChanged := w_captureChanged w;
     w_gap := w_gap w; w_recovery := w_recovery w |}.
Definition put_handlers w (gap : GapDetector) (recovery : Handler) : world :=
  {| w_sys := w_sys w; w_stream := w_stream w; w_current := w_current w; w_token := w_token w;
     w_captureActive := w_captureActive w; w_captureError := w_captureError w;
     w_captureResponse := w_captureResponse w; w_captureChanged := w_captureChanged w;
     w_gap := gap; w_recovery := recovery |}.

(** Where a stream starts: after the token, with the first event of the source, or
    with whatever comes next. *)
Definition starts_at (start : stream_start) (n : nat) : Prop :=
  match start with ResumeAfter t => token_at t n | FromBeginning => n = 0%nat | FromNow => True end.

(** The driver documents that a stream yields the events that match its pipeline in
    the order of the source, each once, and that its resume token after an empty
    batch stands for a position with no such event before it. *)
Definition next_event w (x : bool * option go_error * option go_error) w' : Prop :=
  (exists pipeline c i raw, x = (true, None, None) /\ w_stream w = Some (pipeline, c) /\ (c <= i)%nat /\ source !! i = Some raw /\
     matches pipeline raw = true /\ skipped pipeline c i /\ w' = put_stream w (Some (pipeline, S i)) (Some raw) []) \/
  (exists pipeline c n t, x = (false, None, None) /\ w_stream w = Some (pipeline, c) /\ (c <= n)%nat /\ skipped pipeline c n /\
     (t = [] \/ token_at t n) /\ w' = put_stream w (Some (pipeline, n)) None t) \/
  (exists hasNext streamErr pollErr stream, x = (hasNext, streamErr, pollErr) /\ (is_Some streamErr \/ is_Some pollErr) /\
     w' = put_stream w stream None []).

(** The token is durable, or it is not and there is an error. *)
Definition save_step (s : sys) (token : bytes) (e : option buffer_error) (s' : sys) : Prop :=
  exists b, SaveCheckpoint (s_buf s) (Some token) = (b, e) /\
    ((b_closed (s_buf s) = false /\ token <> [] /\ queued (s_buf s) = 0 /\
      content (b_db b) = <[checkpointKey := token]> (s_content s) /\ s' = log_entry s b (Saved token)) \/
     (is_Some e /\ content (b_db b) = s_content s /\ s' = set_buf s b)).

Definition write_step (s : sys) (evt : StoreChangeEvent) (token : bytes) (e : option buffer_error) (s' : sys) : Prop :=
  exists c1 c2 b, Write (s_buf s) evt (Some token) c1 c2 = Done (b, e) /\
    s' = match e with
         | Some _ => s
         | None => {| s_buf := b; s_flush := s_flush s; s_prune := s_prune s; s_log := s_log s;
                      s_history := s_history s ++ drop (length (b_pending (s_buf s))) (b_pending b) |}
         end.

Definition call_step X (e : captureE X) : world -> X -> world -> Prop :=
  match e with
  | ECtxErr => fun w _ w' => w' = w
  | ELoadCheckpoint => fun w r w' => r = LoadCheckpoint (s_buf (w_sys w)) /\ w' = w
  | EOpenStream pipeline start => fun w e w' =>
      match e with
      | Some _ => w' = w
      | None => exists n, starts_at start n /\ w' = put_stream w (Some (pipeline, n)) None []
      end
  | ENow => fun w _ w' => w' = w
  | ERecordResponse at_ => fun w _ w' => w' = put_backend w (recordCaptureResponse (w_backend w) at_)
  | ERemainingBatchLength => fun w _ w' => w' = w
  | ETryNext => next_event
  | EStreamID => fun w _ w' => w' = w
  | EResumeToken => fun w t w' => t = w_token w /\ w' = w
  | EDecode => fun w r w' => (match r with Ok raw => w_current w = Some raw | Err _ => True end) /\ w' = w
  | ECloseStream => fun w _ w' => w' = put_stream w None None []
  | EFlush => fun w r w' => (Flush (s_buf (w_sys w)) = Done r \/ exists e, r = Some (ContextDone e)) /\ w' = w
  | ESaveCheckpoint token => fun w e w' => exists s', save_step (w_sys w) token e s' /\ w' = put_sys w s'
  | EWrite evt token => fun w e w' => exists s', write_step (w_sys w) evt token e s' /\ w' = put_sys w s'
  | ESetCaptureState active err => fun w _ w' => w' = put_backend w (setCaptureState (w_backend w) active err)
  | ERecordEvent evt => fun w found w' => exists g, RecordEvent (w_gap w) evt = (g, found) /\ w' = put_handlers w g (w_recovery w)
  | EBroadcast _ => fun w _ w' => w' = w
  | EHandleEvent _ => fun w _ w' => w' = w
  | ESleep _ => fun w _ w' => w' = w
  | ECleanerStart => fun w _ w' => w' = w
  | ECleanerStop => fun w _ w' => w' = w
  | EWaitRetry => fun w _ w' => w' = w
  | EHandleError err => fun w action w' =>
      exists h, HandleError (w_recovery w) (Some (ge_text err)) = (h, action) /\ w' = put_handlers w (w_gap w) h
  | EResetErrorCount => fun w _ w' => w' = put_handlers w (w_gap w) (ResetErrorCount (w_recovery w))
  end.

(** The other goroutines: the batcher, which makes accepted writes durable, Close and
    retention. Only the capture goroutine writes and saves. *)
Definition background (s s' : sys) : Prop :=
  retention_step s s' \/
  (capture_step s s' /\ s_history s' = s_history s /\ exists reqs, s_log s' = s_log s ++ map Written reqs).
Inductive other_step w : world -> Prop :=
| step_background s' : background (w_sys w) s' -> other_step w (put_sys w s').

(** A process begins without a stream, on the database it finds. *)
Definition booted (s : sys) : world :=
  {| w_sys := s; w_stream := None; w_current := None; w_token := []; w_captureActive := false; w_captureError := None;
     w_captureResponse := None; w_captureChanged := 0; w_gap := NewGapDetector 0; w_recovery := NewHandler 10 |}.
End World.
