(* ===== verification/CaptureFacts.v ===== *)
(** * What capture has when it says so

    The capture goroutine with the batcher, retention and restarts: from the boundary
    it saved before it became active, the event buffer misses no event of the source. *)
From stdpp Require Import base list sorting gmap strings relations.
From Stdlib Require Import ZArith.
From S2P Require Import Prelude Value IndexStore Codec Projection Intervals Pebble PersistStore Events Coalescer Merge Progress Admission FlowControl Prog Buffer BufferScan BufferMachine BufferInv BufferModels BufferFacts Replay ReplayFacts Normalizer Capture.
Local Open Scope Z_scope.

(** ** The trail: the durable entries and the writes that will follow them *)
Section Trail.
Context `{PB : Pebble} {BK : PebbleBack} {EC : EventCodec}.
Implicit Types (s : sys).

(** After a failed batch nothing follows. *)
Definition trail s : list entry :=
  s_log s ++ map Written (match s_flush s with FStopped => [] | _ => uncommitted s end).

Lemma trail_cases s : s_flush s = FStopped /\ trail s = s_log s \/ s_flush s <> FStopped /\ trail s = s_log s ++ map Written (uncommitted s).
Proof. unfold trail. destruct (s_flush s); [right..|left]; try done. by rewrite app_nil_r. Qed.

Lemma log_prefix s : s_log s `prefix_of` trail s.
Proof. unfold trail. by eexists. Qed.

Lemma writes_not_saved reqs t : Saved t ∉ map Written reqs.
Proof. by intros (r & ? & _)%list_elem_of_fmap. Qed.

(** Parts of the queue move to the log in order. *)
Lemma trail_same s s' : s_flush s' = s_flush s -> s_log s' = s_log s ->
  b_pending (s_buf s') = b_pending (s_buf s) -> b_flushing (s_buf s') = b_flushing (s_buf s) -> trail s' = trail s.
Proof. intros H1 H2 H3 H4. unfold trail, uncommitted. by rewrite H1, H2, H3, H4. Qed.
Lemma SaveCheckpoint_queues b token b' e : SaveCheckpoint b token = (b', e) ->
  b_pending b' = b_pending b /\ b_flushing b' = b_flushing b.
Proof.
  unfold SaveCheckpoint. destruct (b_closed b); [by intros [= <- _]|]. destruct token as [[|]|]; [by intros [= <- _]| |by intros [= <- _]].
  destruct (negb _); [by intros [= <- _]|]. destruct (applyBatch _ _). by intros [= <- _].
Qed.
Lemma DeleteCheckpoint_queues b b' e : DeleteCheckpoint b = (b', e) -> b_pending b' = b_pending b /\ b_flushing b' = b_flushing b.
Proof. unfold DeleteCheckpoint. destruct (b_closed b); [by intros [= <- _]|]. destruct (applyBatch _ _). by intros [= <- _]. Qed.

Lemma background_trail s s' : inv s -> background s s' ->
  s_history s' = s_history s /\ trail s' `prefix_of` trail s /\ (s_flush s' <> FStopped -> trail s' = trail s /\ s_flush s <> FStopped).
Proof.
  intros Hi [Hr|(Hc & Hh & reqs & Hl)].
  { assert (trail s' = trail s /\ s_flush s' = s_flush s /\ s_history s' = s_history s) as (-> & -> & ->); [|done]. by destruct Hr. }
  split; [done|].
  assert (Hsame : trail s' = trail s -> (s_flush s' <> FStopped -> s_flush s <> FStopped) ->
    trail s' `prefix_of` trail s /\ (s_flush s' <> FStopped -> trail s' = trail s /\ s_flush s <> FStopped)) by (intros ->; auto).
  destruct Hc as [evt token c1 c2 b Hs Hok Hw|notified|b Hf Ht|d err batch Hf Hc Hb Hd|d err Hf Hc Hd|applied err Hf|token b e Hcl Ht Hq Hsv Hd|token b e Hsv Hd|b e Hsv Hd|b e Hsv Hd|].
  - exfalso. apply write_spec in Hw as (t & v & n & _ & _ & _ & _ & ->). cbn in Hh.
    rewrite drop_app_length in Hh. apply (f_equal length) in Hh. rewrite length_app in Hh. cbn in Hh. lia.
  - by apply Hsame.
  - apply Hsame; [|by rewrite Hf]. unfold flush_take in Ht. destruct (b_pending (s_buf s)) as [|r0 q0] eqn:Ep; [done|].
    rewrite <- Ep in Ht. injection Ht as <-. unfold trail, uncommitted. rewrite Hf. cbn. by rewrite take_drop.
  - apply Hsame; [|by rewrite Hf]. unfold trail, uncommitted. rewrite Hf. cbn. by rewrite map_app, app_assoc.
  - apply Hsame; [|by rewrite Hf]. unfold trail, uncommitted. by rewrite Hf.
  - destruct err as [err|].
    + split; [|done]. unfold trail. cbn. rewrite app_nil_r. by eexists.
    + apply Hsame; [|by rewrite Hf]. pose proof (i_phase _ Hi) as Hp. rewrite Hf in Hp. destruct applied; [|by destruct Hp].
      unfold trail, uncommitted. by rewrite Hf.
  - exfalso. cbn in Hl. apply app_inv_head in Hl. by destruct reqs.
  - apply SaveCheckpoint_queues in Hsv as [? ?]. apply Hsame; [by apply trail_same|done].
  - exfalso. cbn in Hl. apply app_inv_head in Hl. by destruct reqs.
  - apply DeleteCheckpoint_queues in Hsv as [? ?]. apply Hsame; [by apply trail_same|done].
  - by apply Hsame.
Qed.

Lemma background_step s s' : background s s' -> step s s'.
Proof. intros [?|[? _]]; [by apply step_retention|by apply step_capture]. Qed.

Lemma written_trail s evt token c1 c2 b : inv s -> Write (s_buf s) evt (Some token) c1 c2 = Done (b, None) ->
  exists value, let r := {| req_key := BufferKey evt; req_value := value; req_token := Some token; req_event := Some evt |} in
  let s' := {| s_buf := b; s_flush := s_flush s; s_prune := s_prune s; s_log := s_log s;
               s_history := s_history s ++ drop (length (b_pending (s_buf s))) (b_pending b) |} in
  trail s' = trail s ++ [Written r] /\ s_history s' = s_history s ++ [r] /\ s_flush s <> FStopped.
Proof.
  intros Hi Hw. assert (token = default [] (Some token)) as Et by done.
  assert (exists value n, b_closed (s_buf s) = false /\ b = set_queues (s_buf s) (b_pending (s_buf s) ++
    [{| req_key := BufferKey evt; req_value := value; req_token := Some token; req_event := Some evt |}]) (b_flushing (s_buf s)) n) as (value & n & Hc & ->).
  { unfold Write in Hw. destruct (b_closed (s_buf s)); [done|]. destruct c1; [done|]. cbn [default from_option id] in Hw.
    destruct token; [done|]. destruct (queued (s_buf s) <? _); [|done].
    destruct (MarshalEvent evt) as [value|]; [|done]. destruct c2; [done|]. injection Hw as <-. by eexists _, _. }
  assert (s_flush s <> FStopped) as Hf.
  { intros Hf. pose proof (i_history _ Hi) as H. rewrite Hf in H. destruct H. congruence. }
  exists value. cbn zeta. split_and!; [| |done].
  - unfold trail, uncommitted. cbn. destruct (s_flush s) as [| |[] ?|]; try done; by rewrite ?map_app, ?app_assoc.
  - cbn. by rewrite drop_app_length.
Qed.

Lemma saved_trail s b t : inv s -> b_closed (s_buf s) = false -> queued (s_buf s) = 0 ->
  b_pending b = b_pending (s_buf s) -> b_flushing b = b_flushing (s_buf s) ->
  trail s = s_log s /\ trail (log_entry s b (Saved t)) = trail s ++ [Saved t] /\ s_flush s <> FStopped.
Proof.
  intros Hi Hc Hq H1 H2. assert (b_pending (s_buf s) = [] /\ b_flushing (s_buf s) = []) as [E1 E2].
  { unfold queued in Hq. split; apply length_zero_iff_nil; lia. }
  assert (uncommitted s = [] /\ uncommitted (log_entry s b (Saved t)) = []) as [U1 U2].
  { unfold uncommitted. cbn. rewrite H1, H2, E1, E2. by destruct (s_flush s) as [| |[] ?|]. }
  split_and!.
  - unfold trail. rewrite U1. destruct (s_flush s); cbn; by rewrite app_nil_r.
  - unfold trail. rewrite U1, U2. cbn. by destruct (s_flush s); cbn; rewrite !app_nil_r.
  - intros Hf. pose proof (i_history _ Hi) as H. rewrite Hf in H. destruct H. congruence.
Qed.

Lemma restart_trail s b : inv s -> opens (s_content s) b -> trail (opened b (s_log s)) = s_log s.
Proof.
  intros Hi Ho. assert (lineage_ok (s_content s)) as Hl.
  { intros v Hv. rewrite (i_lineage _ Hi) in Hv. injection Hv as <-. apply bytes_of_string_bytes. }
  destruct (opens_spec _ _ Ho Hl) as (_ & _ & _ & Hp & _). unfold trail, uncommitted. cbn. by rewrite Hp, app_nil_r.
Qed.
End Trail.

(** ** Coverage *)
Section Coverage.
Context `{PB : Pebble} {BK : PebbleBack} {EC : EventCodec} {BC : BsonCodec} {SRC : ChangeSource}.
Context (name : string) (pipeline : option (list string)).
Implicit Types (tr : list entry) (rs : list writeRequest).

(** The write of a source event. *)
Definition captures (raw : RawEvent) (r : writeRequest) : Prop :=
  exists now e, Normalize raw now = Ok e /\ req_event r = Some (set_Backend e name) /\ req_token r = Some (raw_ResumeToken raw).

(** The writes have every event of the source from [n] to before [m] that passes the
    pipeline. *)
Definition covers (n m : nat) rs : Prop :=
  forall i raw, (n <= i < m)%nat -> source !! i = Some raw -> matches pipeline raw = true -> exists r, r ∈ rs /\ captures raw r.

(** After each boundary the entries have every event up to their last token. *)
Definition gapless tr : Prop :=
  forall before t after, tr = before ++ Saved t :: after ->
  exists n t' n', token_at t n /\ checkpoint_of tr = Some t' /\ token_at t' n' /\ (n <= n')%nat /\ covers n n' (writes after).
Definition trail_ok tr : Prop := forall tr', tr' `prefix_of` tr -> gapless tr'.

(** After each boundary the entries have every event before the position. *)
Definition reaches tr (c : nat) : Prop :=
  forall before t after n, tr = before ++ Saved t :: after -> token_at t n -> (n <= c)%nat /\ covers n c (writes after).

Lemma covers_mono n m rs rs' : rs ⊆ rs' -> covers n m rs -> covers n m rs'.
Proof. intros Hs Hc i raw Hi Hr Hm. destruct (Hc i raw Hi Hr Hm) as (r & Hin & ?). exists r. auto. Qed.
Lemma covers_skip n m m' rs : skipped pipeline m m' -> covers n m rs -> covers n m' rs.
Proof.
  intros Hs Hc i raw Hi Hr Hm. destruct (decide (i < m)%nat); [apply (Hc i); auto with lia|].
  rewrite (Hs i raw) in Hm; [done|lia|done].
Qed.
Lemma covers_event n i raw r rs : source !! i = Some raw -> captures raw r -> covers n i rs -> covers n (S i) (rs ++ [r]).
Proof.
  intros Hr Hc Hco j raw' Hj Hr' Hm. destruct (decide (j = i)) as [->|].
  - simplify_eq. exists r. split; [apply elem_of_app; right; by left|done].
  - destruct (Hco j raw') as (r' & ? & ?); [lia|done|done|]. exists r'. split; [apply elem_of_app; by left|done].
Qed.

Lemma trail_ok_prefix tr tr' : trail_ok tr -> tr' `prefix_of` tr -> trail_ok tr'.
Proof. intros H Hp tr1 H1. apply H. by etrans. Qed.
Lemma prefix_of_snoc {A} (l l' : list A) x : l' `prefix_of` l ++ [x] -> l' = l ++ [x] \/ l' `prefix_of` l.
Proof.
  intros [k E]. destruct k as [|y k _] using rev_ind; [left; by rewrite app_nil_r in E|].
  right. rewrite app_assoc in E. apply app_inj_tail in E as [-> _]. by eexists.
Qed.
Lemma trail_ok_snoc tr e : trail_ok tr -> gapless (tr ++ [e]) -> trail_ok (tr ++ [e]).
Proof. intros H Hg tr' [->|Hp]%prefix_of_snoc; auto. Qed.
Lemma trail_ok_nil : trail_ok [].
Proof. intros tr' ->%prefix_nil_inv before t after E. by destruct before. Qed.

Lemma reaches_skip tr c c' : reaches tr c -> (c <= c')%nat -> skipped pipeline c c' -> reaches tr c'.
Proof.
  intros H Hle Hs before t after n E Ht. destruct (H before t after n E Ht) as [? ?]. split; [lia|]. by eapply covers_skip.
Qed.

(** A boundary of an extended trail is one of the trail, or the new entry. *)
Lemma snoc_boundary tr e before t after : tr ++ [e] = before ++ Saved t :: after ->
  (e = Saved t /\ before = tr /\ after = []) \/ exists after', after = after' ++ [e] /\ tr = before ++ Saved t :: after'.
Proof.
  destruct after as [|a after' _] using rev_ind; intros E.
  - apply app_inj_tail in E as [-> ->]. by left.
  - right. exists after'. rewrite app_comm_cons, app_assoc in E. apply app_inj_tail in E as [-> ->]. done.
Qed.

Lemma write_reaches tr i raw r : source !! i = Some raw -> captures raw r -> reaches tr i ->
  reaches (tr ++ [Written r]) (S i) /\ (trail_ok tr -> trail_ok (tr ++ [Written r])).
Proof.
  intros Hr Hc Hre.
  assert (Hb : forall before t after n, tr ++ [Written r] = before ++ Saved t :: after -> token_at t n -> (n <= i)%nat /\ covers n (S i) (writes after)).
  { intros before t after n [(? & _)|(after' & -> & E)]%snoc_boundary Ht; [done|]. destruct (Hre before t after' n E Ht) as [? Hco].
    split; [done|]. rewrite writes_app. by eapply covers_event. }
  split.
  - intros before t after n E Ht. destruct (Hb before t after n E Ht). split; [lia|done].
  - intros Hok. apply trail_ok_snoc; [done|]. intros before t after E. pose proof E as [(? & _)|(after' & -> & E')]%snoc_boundary; [done|].
    destruct (Hok tr ltac:(done) before t after' E') as (n & _ & _ & Ht & _). destruct (Hb before t _ n E Ht).
    exists n, (raw_ResumeToken raw), (S i). split_and!; [done| |by apply token_at_event|lia|done].
    destruct Hc as (? & ? & _ & _ & Htk). change [Written r] with (map Written [r]). rewrite checkpoint_of_writes. unfold checkpoint_token. cbn. by rewrite Htk.
Qed.

Lemma save_reaches tr c t : token_at t c -> reaches tr c ->
  reaches (tr ++ [Saved t]) c /\ (trail_ok tr -> trail_ok (tr ++ [Saved t])).
Proof.
  intros Hc Hre.
  assert (Hb : forall before t' after n, tr ++ [Saved t] = before ++ Saved t' :: after -> token_at t' n -> (n <= c)%nat /\ covers n c (writes after)).
  { intros before t' after n [([= ->] & _ & ->)|(after' & -> & E)]%snoc_boundary Ht.
    - rewrite (token_at_functional t' n c) by done. split; [lia|]. intros i raw Hi. lia.
    - destruct (Hre before t' after' n E Ht). split; [done|]. rewrite writes_app. cbn. by rewrite app_nil_r. }
  split; [done|]. intros Hok. apply trail_ok_snoc; [done|]. intros before t' after E.
  assert (exists n, token_at t' n) as [n Hn].
  { pose proof E as [([= ->] & _)|(after' & -> & E')]%snoc_boundary; [by exists c|].
    destruct (Hok tr ltac:(done) before t' after' E') as (n & _ & _ & Ht & _). by exists n. }
  destruct (Hb before t' after n E Hn). exists n, t, c. split_and!; try done. by rewrite checkpoint_of_app.
Qed.

(** Resuming after the checkpoint of a prefix. *)
Lemma resume_reaches log reqs t n : trail_ok (log ++ map Written reqs) ->
  checkpoint_of log = Some t -> token_at t n -> reaches (log ++ map Written reqs) n.
Proof.
  intros Hok Hck Ht before t0 after m E Hm.
  assert (exists after', log = before ++ Saved t0 :: after' /\ writes after' ⊆ writes after) as (after' & E' & Hs).
  { clear -E. revert after E. induction reqs as [|r reqs IH] using rev_ind; intros after E.
    - cbn in E. rewrite app_nil_r in E. by exists after.
    - rewrite map_app, app_assoc in E. cbn in E. apply snoc_boundary in E as [(? & _)|(a & -> & E)]; [done|].
      destruct (IH a E) as (a' & -> & Ha). exists a'. split; [done|]. rewrite writes_app. set_solver. }
  destruct (Hok log (prefix_app_r _ _ _ ltac:(done)) before t0 after' E') as (m' & t' & n' & H1 & H2 & H3 & H4 & H5).
  rewrite (token_at_functional t0 m m') by done. rewrite Hck in H2. injection H2 as <-.
  rewrite (token_at_functional t n n') by done. split; [done|]. by eapply covers_mono.
Qed.
(** Without a checkpoint there is no boundary. *)
Lemma fresh_reaches log reqs c : trail_ok (log ++ map Written reqs) -> checkpoint_of log = None -> reaches (log ++ map Written reqs) c.
Proof.
  intros Hok Hck before t0 after m E Hm.
  assert (Saved t0 ∈ log) as (b & a & E')%list_elem_of_split.
  { assert (Saved t0 ∈ log ++ map Written reqs) as [?|?]%elem_of_app; [rewrite E; set_solver|done|by apply writes_not_saved in H]. }
  destruct (Hok log (prefix_app_r _ _ _ ltac:(done)) b t0 a E') as (? & ? & ? & _ & H & _). congruence.
Qed.
End Coverage.

(** ** The capture goroutine *)
Section Facts.
Context `{PB : Pebble} {BK : PebbleBack} {EC : EventCodec} {BC : BsonCodec} {SRC : ChangeSource}.
Context (name : string) (collections : list string) (from_beginning has_handler : bool).
Context (monitor : BackpressureMonitor) (slowDownDelay pauseDelay : Z).
Context (buffer_text : buffer_error -> string) (normalize_text : normalize_error -> string).
Implicit Types w : world.
Abbreviation pipeline := (buildWatchPipeline collections) (only parsing).
Abbreviation run := (runBackend name collections from_beginning has_handler monitor slowDownDelay pauseDelay buffer_text normalize_text) (only parsing).

(** The source has cluster times of 32 bits, and events the codec of the buffer can
    store. *)
Definition source_storable : Prop :=
  forall i raw now e, source !! i = Some raw -> Normalize raw now = Ok e ->
  is_cluster_time (raw_ClusterTime raw) /\ storable (set_Backend e name).

Definition sourced (r : writeRequest) : Prop :=
  exists i raw, source !! i = Some raw /\ matches pipeline raw = true /\ captures name raw r.

Record world_inv w : Prop := {
  wi_reachable : reachable (w_sys w);
  wi_trail : trail_ok name pipeline (trail (w_sys w));
  wi_history : forall r, r ∈ s_history (w_sys w) -> sourced r;
  wi_active : w_captureActive w = true -> exists t, Saved t ∈ s_log (w_sys w);
}.

Lemma reachable_step s s' : reachable s -> step s s' -> reachable s'.
Proof. intros (b & Hb & Hr) Hs. exists b. split; [done|]. by eapply rtc_r. Qed.

Lemma background_log s s' : background s s' -> exists reqs, s_log s' = s_log s ++ map Written reqs.
Proof. intros [Hr|(_ & _ & H)]; [|done]. exists []. rewrite app_nil_r. by destruct Hr. Qed.

Lemma world_inv_stable : stable other_step world_inv.
Proof.
  intros w w' [I1 I2 I3 I4] [s' Hb]. destruct (background_trail _ _ (reachable_inv _ I1) Hb) as (Hh & Hp & _).
  destruct (background_log _ _ Hb) as [reqs Hl]. split; cbn.
  - by eapply reachable_step, background_step.
  - by eapply trail_ok_prefix.
  - by rewrite Hh.
  - intros [t Ht]%I4. exists t. rewrite Hl. apply elem_of_app. by left.
Qed.

(** *** Assertions

    The stream, its event and token, and a position up to which the trail is
    complete, unless the batcher has failed. *)
Definition tracks (stream : option (option (list string) * nat)) (current : option RawEvent) (token : bytes) (c : nat) w : Prop :=
  w_stream w = stream /\ w_current w = current /\ w_token w = token /\
  (s_flush (w_sys w) <> FStopped -> reaches name pipeline (trail (w_sys w)) c).
Definition following w : Prop := exists c current token, tracks (Some (pipeline, c)) current token c w.
Definition bounded w : Prop := exists t, Saved t ∈ s_log (w_sys w).

(** Calls that leave the buffer and the stream, and do not make capture active. *)
Definition calm w w' : Prop := w_sys w' = w_sys w /\ (w_captureActive w' = true -> w_captureActive w = true).
Definition quiet w w' : Prop :=
  calm w w' /\ w_stream w' = w_stream w /\ w_current w' = w_current w /\ w_token w' = w_token w.

Record robust (P : world -> Prop) : Prop := {
  robust_stable : forall w w', world_inv w -> P w -> other_step w w' -> P w';
  robust_quiet : forall w w', P w -> quiet w w' -> P w';
}.

Lemma calm_inv w w' : world_inv w -> calm w w' -> world_inv w'.
Proof. intros [I1 I2 I3 I4] [Hs Ha]. split; rewrite Hs; auto. Qed.

Lemma tracks_robust stream current token c : robust (tracks stream current token c).
Proof.
  split.
  - intros w w' Hi (H1 & H2 & H3 & Hr) [s' Hb]. split_and!; try done. cbn. intros Hf.
    destruct (background_trail _ _ (reachable_inv _ (wi_reachable _ Hi)) Hb) as (_ & _ & H). destruct (H Hf) as [-> ?]. auto.
  - intros w w' (H1 & H2 & H3 & Hr) ([Hs _] & Q1 & Q2 & Q3). unfold tracks. rewrite Hs, Q1, Q2, Q3. done.
Qed.
Lemma following_robust : robust following.
Proof.
  split; intros w w'; [intros Hi|]; intros (c & cur & tok & Ht) Ho; exists c, cur, tok;
    [by eapply (robust_stable _ (tracks_robust _ _ _ _))|by eapply (robust_quiet _ (tracks_robust _ _ _ _))].
Qed.
Lemma bounded_robust : robust bounded.
Proof.
  split.
  - intros w w' _ [t Ht] [s' Hb]. destruct (background_log _ _ Hb) as [reqs Hl]. exists t. cbn. rewrite Hl. apply elem_of_app. by left.
  - intros w w' [t Ht] ([Hs _] & _). exists t. by rewrite Hs.
Qed.
Lemma true_robust : robust (fun _ => True).
Proof. by split. Qed.
Lemma and_robust P P' : robust P -> robust P' -> robust (fun w => P w /\ P' w).
Proof. intros [S1 Q1] [S2 Q2]. split; [intros w w' Hi [] Ho|intros w w' [] Hq]; eauto. Qed.

(** *** Rules *)
Abbreviation W := (wp call_step other_step world_inv) (only parsing).

Lemma call_rule {A X} P (e : captureE X) (k : X -> prog captureE A) Q w :
  robust P -> world_inv w -> P w ->
  (forall w1 x w2, world_inv w1 -> P w1 -> call_step X e w1 x w2 -> world_inv w2 /\ W (k x) Q w2) -> W (Call e k) Q w.
Proof.
  intros HP Hi Hw H. apply (wp_call _ _ _ world_inv_stable (fun w => world_inv w /\ P w)); [|done|done|].
  - intros w1 w2 [H1 H2] Ho. split; [by eapply world_inv_stable|by eapply robust_stable].
  - intros w1 x w2 H1 [_ H2] Hc. by eapply H.
Qed.

Lemma quiet_rule {A X} P (e : captureE X) (k : X -> prog captureE A) Q w :
  (forall w x w', call_step X e w x w' -> quiet w w') -> robust P -> world_inv w -> P w ->
  (forall x w', world_inv w' -> P w' -> W (k x) Q w') -> W (Call e k) Q w.
Proof.
  intros Hq HP Hi Hw H. apply (call_rule P); [done..|]. intros w1 x w2 H1 H2 Hc. pose proof (Hq _ _ _ Hc) as Hqq.
  assert (world_inv w2) by (eapply calm_inv; [done|by apply Hqq]). split; [done|]. apply H; [done|]. by eapply robust_quiet.
Qed.
Lemma calm_rule {A X} (e : captureE X) (k : X -> prog captureE A) Q w :
  (forall w x w', call_step X e w x w' -> calm w w') -> world_inv w ->
  (forall x w', world_inv w' -> W (k x) Q w') -> W (Call e k) Q w.
Proof.
  intros Hq Hi H. apply (call_rule (fun _ => True)); [apply true_robust|done..|]. intros w1 x w2 H1 _ Hc.
  assert (world_inv w2) by (eapply calm_inv; [done|by eapply Hq]). auto.
Qed.
Definition is_calm {X} (e : captureE X) : bool :=
  match e with ESaveCheckpoint _ | EWrite _ _ | ESetCaptureState true _ => false | _ => true end.
Definition is_quiet {X} (e : captureE X) : bool :=
  match e with EOpenStream _ _ | ETryNext | ECloseStream => false | _ => is_calm e end.

Lemma calm_call {X} (e : captureE X) w x w' : is_calm e = true -> call_step X e w x w' -> calm w w'.
Proof.
  unfold calm. destruct e; cbn; try done; intros He; try (by intros ->); try (by intros [_ ->]).
  - destruct x; [by intros ->|]. by intros (n & _ & ->).
  - by intros [(? & ? & ? & ? & _ & _ & _ & _ & _ & _ & ->)|[(? & ? & ? & ? & _ & _ & _ & _ & _ & ->)|(? & ? & ? & ? & _ & _ & ->)]].
  - destruct active; [done|]. by intros ->.
  - by intros (? & _ & ->).
  - by intros (? & _ & ->).
Qed.
Lemma quiet_call {X} (e : captureE X) w x w' : is_quiet e = true -> call_step X e w x w' -> quiet w w'.
Proof.
  intros He Hc. split; [apply (calm_call e w x w'); [by destruct e|done]|]. destruct e; cbn in *; try done; try (by subst); try (by destruct Hc; subst).
  - by destruct Hc as (? & _ & ->).
  - by destruct Hc as (? & _ & ->).
Qed.

Ltac unbind :=
  lazymatch goal with
  | |- wp _ _ _ (call ?e ≫= ?k) ?Q ?w => change (W (Call e k) Q w)
  | |- wp _ _ _ (call ?e) ?Q ?w => change (W (Call e Ret) Q w)
  end; cbv beta.
(** A call that the assertion [P] survives. *)
Ltac quietly P := unbind; apply (quiet_rule P); [by intros ? ? ?; apply quiet_call|eauto using tracks_robust, following_robust, bounded_robust, and_robust, true_robust|eassumption|eauto|].
Ltac calmly := unbind; apply calm_rule; [by intros ? ? ?; apply calm_call|eassumption|].

Lemma handler_wp P evt Q w : robust P -> world_inv w -> P w -> (forall w', world_inv w' -> P w' -> Q tt w') ->
  W (invokeHandlerWithBackpressure has_handler monitor slowDownDelay pauseDelay evt) Q w.
Proof.
  intros HP Hi Hw HQ. unfold invokeHandlerWithBackpressure. quietly P. intros _ w1 H1 H2. destruct has_handler; [|by apply HQ].
  quietly P. intros z w2 ? ?. quietly P. intros e w3 ? ?. quietly P. intros z' w4 ? ?.
  destruct (HandleBackpressure _ _); [by apply HQ| |]; quietly P; intros [] w5 ? ?; by apply HQ.
Qed.

Lemma write_wp {A} (src_ok : source_storable) i raw now evt (k : option buffer_error -> prog captureE A) Q w :
  let st := tracks (Some (pipeline, S i)) (Some raw) [] in
  world_inv w -> st i w -> source !! i = Some raw -> matches pipeline raw = true -> Normalize raw now = Ok evt ->
  (forall e w', world_inv w' -> (e = None -> st (S i) w') -> W (k e) Q w') ->
  W (Call (EWrite (set_Backend evt name) (raw_ResumeToken raw)) k) Q w.
Proof.
  intros st Hi Hw Hs Hm Hn Hk. apply (call_rule (st i)); [apply tracks_robust|done..|].
  intros w1 e w2 H1 H2 (s' & (c1 & c2 & b & Hwr & ->) & ->). destruct e as [e|].
  { assert (world_inv (put_sys w1 (w_sys w1))) by (by eapply calm_inv; [exact H1|]). split; [done|]. by apply Hk. }
  pose proof (reachable_inv _ (wi_reachable _ H1)) as Hinv.
  destruct (written_trail _ _ _ _ _ _ Hinv Hwr) as (value & Ht & Hh & Hf). cbn zeta in Ht, Hh. set (s' := {| s_buf := b |}) in *.
  set (r := {| req_key := _ |}) in *.
  assert (captures name raw r) as Hc by (by exists now, evt).
  destruct H2 as (T1 & T2 & T3 & T4).
  destruct (write_reaches name pipeline (trail (w_sys w1)) i raw r Hs Hc (T4 Hf)) as [R1 R2].
  destruct (src_ok i raw now evt Hs Hn) as [Hct Hst].
  assert (world_inv (put_sys w1 s')) as Hi'.
  { split; cbn [put_sys w_sys w_captureActive].
    - eapply reachable_step; [exact (wi_reachable _ H1)|]. apply step_capture. eapply step_write; [exact Hst| |exact Hwr].
      destruct (Normalize_event raw now evt Hn Hct) as (Hok & _). exact Hok.
    - rewrite Ht. apply R2, (wi_trail _ H1).
    - intros r' Hr'. rewrite Hh in Hr'. apply elem_of_app in Hr' as [Hr'| ->%list_elem_of_singleton]; [by apply (wi_history _ H1)|by exists i, raw].
    - intros Ha. by apply (wi_active _ H1). }
  split; [done|]. apply Hk; [done|]. intros _. split_and!; try done. intros _. cbn [put_sys w_sys]. by rewrite Ht.
Qed.

Lemma save_wp {A} c t (k : option buffer_error -> prog captureE A) Q w :
  let st := tracks (Some (pipeline, c)) None t c in
  world_inv w -> st w -> token_at t c ->
  (forall e w', world_inv w' -> (e = None -> st w' /\ bounded w') -> W (k e) Q w') ->
  W (Call (ESaveCheckpoint t) k) Q w.
Proof.
  intros st Hi Hw Ht Hk. apply (call_rule st); [apply tracks_robust|done..|].
  intros w1 e w2 H1 H2 (s' & (b & Hs & Hor) & ->). pose proof (SaveCheckpoint_queues _ _ _ _ Hs) as [Hq1 Hq2].
  pose proof (reachable_inv _ (wi_reachable _ H1)) as Hinv. destruct H2 as (T1 & T2 & T3 & T4).
  destruct Hor as [(Hc & Hne & Hq & Hd & ->)|([err ->] & Hd & ->)].
  - destruct (saved_trail _ b t Hinv Hc Hq Hq1 Hq2) as (E1 & E2 & Hf).
    destruct (save_reaches name pipeline (trail (w_sys w1)) c t Ht (T4 Hf)) as [R1 R2].
    assert (bounded (put_sys w1 (log_entry (w_sys w1) b (Saved t)))) as Hb by (exists t; cbn; apply elem_of_app; right; by left).
    assert (world_inv (put_sys w1 (log_entry (w_sys w1) b (Saved t)))) as Hi'.
    { split; cbn [put_sys w_sys w_captureActive].
      - eapply reachable_step; [exact (wi_reachable _ H1)|]. apply step_capture. by eapply step_save.
      - rewrite E2. apply R2, (wi_trail _ H1).
      - apply (wi_history _ H1).
      - intros _. exact Hb. }
    split; [done|]. apply Hk; [done|]. intros _. split; [|done]. split_and!; try done. intros _. cbn [put_sys w_sys]. by rewrite E2.
  - assert (world_inv (put_sys w1 (set_buf (w_sys w1) b))) as Hi'.
    { split; cbn [put_sys w_sys w_captureActive].
      - eapply reachable_step; [exact (wi_reachable _ H1)|]. apply step_capture. by eapply step_save_lost.
      - rewrite (trail_same (w_sys w1)) by done. apply (wi_trail _ H1).
      - apply (wi_history _ H1).
      - apply (wi_active _ H1). }
    split; [done|]. by apply Hk.
Qed.
(** *** The program *)
Lemma save_boundary_wp c t w : world_inv w -> tracks (Some (pipeline, c)) None t c w -> t = [] \/ token_at t c ->
  W (save_boundary buffer_text) (fun r w => r = Ok tt -> following w) w.
Proof.
  intros Hi Ht Htok. unfold save_boundary. set (P := tracks (Some (pipeline, c)) None t c). unbind.
  apply (call_rule P); [apply tracks_robust|done..|]. intros w1 x w2 H1 H2 [-> ->]. split; [done|].
  pose proof H2 as (_ & _ & Et & _). rewrite Et. destruct Htok as [->|Htok]; [by cbn|].
  destruct t as [|x t]; [by cbn|]. quietly P. intros [e|] w3 H3 HP3; [by cbn|]. unbind.
  apply (save_wp c); [done|done|done|]. intros [e|] w4 H4 HP4; [by cbn|]. destruct (HP4 eq_refl) as [HP Hb]. unbind.
  apply (call_rule (fun w => P w /\ bounded w)); [eauto using tracks_robust, bounded_robust, and_robust|done|done|].
  intros w5 [] w6 H5 [HP5 Hb5] ->. split.
  - destruct H5 as [I1 I2 I3 I4]. split; try done.
  - cbn. intros _. exists c, None, (x :: t). exact HP5.
Qed.

Lemma capture_event_wp (src_ok : source_storable) i raw w :
  world_inv w -> tracks (Some (pipeline, S i)) (Some raw) [] i w -> source !! i = Some raw -> matches pipeline raw = true ->
  W (capture_event name has_handler monitor slowDownDelay pauseDelay buffer_text normalize_text) (fun r w => r = Ok tt -> following w) w.
Proof.
  intros Hi Ht Hs Hm. unfold capture_event. set (P := tracks (Some (pipeline, S i)) (Some raw) []). unbind.
  apply (call_rule (P i)); [apply tracks_robust|done..|]. intros w1 x w2 H1 H2 [Hx ->]. split; [done|]. destruct x as [raw'|e]; [|by cbn].
  destruct (H2) as (_ & Hcur & _). rewrite Hcur in Hx. injection Hx as <-. quietly (P i). intros now w3 H3 HP3.
  destruct (Normalize raw now) as [evt|] eqn:En; [|by cbn]. quietly (P i). intros found w4 H4 HP4. unbind.
  apply (write_wp src_ok i raw now evt); [done..|]. intros [e|] w5 H5 HP5; [by cbn|]. specialize (HP5 eq_refl). cbv beta iota.
  apply wp_bind, (handler_wp (P (S i))); [apply tracks_robust|done..|]. intros w6 H6 HP6. cbn. intros _. exists (S i), (Some raw), []. exact HP6.
Qed.

(** The response of the source is recorded when it is one. *)
Lemma response_wp {A} P (response hasNext : bool) (k : prog captureE A) Q w :
  robust P -> world_inv w -> P w -> (forall w, world_inv w -> P w -> W k Q w) ->
  W (alive ← (if response then (if hasNext then Ret true else id ← call EStreamID; Ret (negb (id =? 0))) else Ret false);
     _ ← (if alive : bool then now ← call ENow; call (ERecordResponse now) else Ret tt); k) Q w.
Proof.
  intros HP Hi Hw Hk. apply wp_bind.
  assert (Hlast : forall alive w, world_inv w -> P w -> W (_ ← (if alive : bool then now ← call ENow; call (ERecordResponse now) else Ret tt); k) Q w).
  { intros [] w' ? ?; apply wp_bind; [|by apply Hk]. quietly P. intros z w2 ? ?. quietly P. intros ? w3 ? ?. by apply Hk. }
  destruct response; [|by apply Hlast]. destruct hasNext; [by apply Hlast|]. quietly P. intros id w' ? ?. by apply Hlast.
Qed.

Lemma watch_round_wp (src_ok : source_storable) ready firstPoll w : world_inv w -> following w ->
  W (watch_round name has_handler monitor slowDownDelay pauseDelay buffer_text normalize_text ready firstPoll)
    (fun r w => forall ready', r = Ok ready' -> following w) w.
Proof.
  intros Hi Hw. unfold watch_round. apply wp_bind.
  assert (Hfirst : forall R, (forall x w, world_inv w -> following w -> R x w) ->
    W (if firstPoll then Ret false else n ← call ERemainingBatchLength; Ret (n =? 0)) R w).
  { intros R HR. destruct firstPoll; [by apply HR|]. quietly following. intros n w' ? ?. by apply HR. }
  apply Hfirst. clear w Hi Hw Hfirst. intros response w Hi (c & cur & tok & Ht). unbind.
  apply (call_rule (tracks (Some (pipeline, c)) cur tok c)); [apply tracks_robust|done..|].
  intros w1 x w2 H1 H2 Hx. assert (world_inv w2) as Hi2 by (eapply calm_inv; [done|by apply (calm_call ETryNext w1 x w2)]).
  split; [done|]. destruct H2 as (T1 & T2 & T3 & T4).
  destruct Hx as [(pl & c' & i & raw & -> & E1 & Hle & Hs & Hm & Hsk & ->)|[(pl & c' & n & t & -> & E1 & Hle & Hsk & Htok & ->)|(hasNext & se & pe & st & -> & Hor & ->)]].
  - rewrite T1 in E1. injection E1 as <- <-.
    assert (tracks (Some (pipeline, S i)) (Some raw) [] i (put_stream w1 (Some (pipeline, S i)) (Some raw) [])) as Ht'.
    { split_and!; try done. intros Hf. by eapply reaches_skip; [apply T4|..]. }
    cbv beta iota. apply (response_wp (tracks (Some (pipeline, S i)) (Some raw) [] i) response true); [apply tracks_robust|done..|]. intros w3 H3 HP3.
    apply wp_bind. eapply wp_mono; [by eapply capture_event_wp| |done].
    intros [[]|e] w4 H4 Hf; cbn; [intros ready' _; by apply Hf|done].
  - rewrite T1 in E1. injection E1 as <- <-.
    assert (tracks (Some (pipeline, n)) None t n (put_stream w1 (Some (pipeline, n)) None t)) as Ht'.
    { split_and!; try done. intros Hf. by eapply reaches_skip; [apply T4|..]. }
    set (P := tracks (Some (pipeline, n)) None t n).
    cbv beta iota. apply (response_wp P response false); [apply tracks_robust|done..|]. intros w3 H3 HP3. quietly P. intros id w4 ? ?.
    destruct (id =? 0); [done|]. quietly P. intros [e|] w5 ? ?; [done|]. destruct ready; [cbn; intros _ _; by exists n, None, t|].
    apply wp_bind. eapply wp_mono; [by eapply save_boundary_wp| |done].
    intros [[]|e] w6 H6 Hf; cbn; [intros ready' _; by apply Hf|done].
  - destruct pe as [pe|]; [|destruct se as [se|]; [done|by destruct Hor as [[? ?]|[? ?]]]].
    calmly. intros e w3 ?. done.
Qed.

Lemma watch_loop_wp (src_ok : source_storable) fuel ready firstPoll w : world_inv w -> following w ->
  W (watch_loop name has_handler monitor slowDownDelay pauseDelay buffer_text normalize_text fuel ready firstPoll) (fun _ _ => True) w.
Proof.
  revert ready firstPoll w. induction fuel as [|fuel IH]; intros ready firstPoll w Hi Hw; cbn [watch_loop]; [done|].
  apply wp_bind. eapply wp_mono; [by apply watch_round_wp| |done].
  intros [ready'|e] w' Hi' Hf; [|done]. apply IH; [done|]. by eapply Hf.
Qed.
(** Wherever the stream may start, the trail is complete up to there. *)
Definition resumable (start : stream_start) w : Prop :=
  forall n, starts_at start n -> s_flush (w_sys w) <> FStopped -> reaches name pipeline (trail (w_sys w)) n.

Lemma resumable_robust start : robust (resumable start).
Proof.
  split.
  - intros w w' Hi Hr [s' Hb] n Hn. cbn. intros Hf.
    destruct (background_trail _ _ (reachable_inv _ (wi_reachable _ Hi)) Hb) as (_ & _ & H). destruct (H Hf) as [-> ?]. by apply Hr.
  - intros w w' Hr ([Hs _] & _). unfold resumable. by rewrite Hs.
Qed.

Lemma load_checkpoint s t : inv s -> LoadCheckpoint (s_buf s) = Ok t -> t = checkpoint_of (s_log s).
Proof.
  intros Hi. unfold LoadCheckpoint. destruct (b_closed _); [done|]. destruct (db_Get _ _) as [r|] eqn:E; [|done].
  apply db_Get_law in E. intros [= <-]. rewrite E. apply (d_checkpoint _ _ (i_durable _ Hi)).
Qed.

Lemma load_resumable w t : world_inv w -> LoadCheckpoint (s_buf (w_sys w)) = Ok t -> resumable (stream_opts from_beginning t) w.
Proof.
  intros Hi Hl n Hn Hf. pose proof (load_checkpoint _ _ (reachable_inv _ (wi_reachable _ Hi)) Hl) as ->.
  pose proof (wi_trail _ Hi) as Hok. unfold trail in *. destruct (checkpoint_of (s_log (w_sys w))) as [t|] eqn:Ec.
  - by eapply resume_reaches.
  - by apply fresh_reaches.
Qed.

Lemma watch_stream_wp (src_ok : source_storable) fuel w : world_inv w ->
  W (watch_stream name collections from_beginning has_handler monitor slowDownDelay pauseDelay buffer_text normalize_text fuel) (fun _ _ => True) w.
Proof.
  intros Hi. unfold watch_stream. unbind. apply (call_rule (fun _ => True)); [apply true_robust|done..|].
  intros w1 x w2 H1 _ [Hx ->]. split; [done|]. destruct x as [tok|e]; [|done]. symmetry in Hx.
  pose proof (load_resumable w1 tok H1 Hx) as Hr. unbind.
  apply (call_rule (resumable (stream_opts from_beginning tok))); [apply resumable_robust|done..|].
  intros w3 e w4 H3 HP3 Hc. assert (world_inv w4) as H4 by (eapply calm_inv; [done|by eapply (calm_call (EOpenStream _ _))]).
  split; [done|]. destruct e as [e|]; [done|]. destruct Hc as (n & Hn & ->).
  assert (following (put_stream w3 (Some (pipeline, n)) None [])) as Hf.
  { exists n, None, []. split_and!; try done. intros Hf. by apply HP3. }
  quietly following. intros z w5 ? ?. quietly following. intros ? w6 ? ?. apply wp_bind.
  eapply wp_mono; [by apply watch_loop_wp| |done]. intros [[e|]|] w7 ? _; [calmly; intros c w8 ?; done..|done].
Qed.

Lemma watchChangeStream_wp (src_ok : source_storable) fuel w : world_inv w ->
  W (watchChangeStream name collections from_beginning has_handler monitor slowDownDelay pauseDelay buffer_text normalize_text fuel) (fun _ _ => True) w.
Proof.
  intros Hi. unfold watchChangeStream. apply wp_bind. eapply wp_mono; [by apply watch_stream_wp| |done].
  intros [err|] w1 ? _; [|done]. calmly. intros ? w2 ?. done.
Qed.

Lemma backend_loop_wp (src_ok : source_storable) fuel w : world_inv w ->
  W (backend_loop name collections from_beginning has_handler monitor slowDownDelay pauseDelay buffer_text normalize_text fuel) (fun _ _ => True) w.
Proof.
  revert w. induction fuel as [|fuel IH]; intros w Hi; cbn [backend_loop]; [done|].
  calmly. intros [e|] w1 ?; [done|]. apply wp_bind. eapply wp_mono; [by apply watchChangeStream_wp| |done].
  intros [[err|]|] w2 ? _; [|calmly; intros ? w3 ?; by apply IH|done].
  calmly. intros [e|] w3 ?; [done|].
  assert (Hwait : forall w, world_inv w -> W (again ← call EWaitRetry; if again : bool then
    backend_loop name collections from_beginning has_handler monitor slowDownDelay pauseDelay buffer_text normalize_text fuel else Ret tt) (fun _ _ => True) w).
  { intros w' ?. calmly. intros [] w4 ?; [by apply IH|done]. }
  destruct (errors_Is err SCaptureFailed); [calmly; done|].
  destruct (errors_Is err SCaptureUnavailable); [calmly; intros ? w4 ?; by apply Hwait|].
  calmly. intros [] w4 ?; [by apply IH|calmly; intros ? w5 ?; by apply Hwait|calmly; done..].
Qed.

Lemma runBackend_wp (src_ok : source_storable) fuel w : world_inv w -> W (run fuel) (fun _ _ => True) w.
Proof.
  intros Hi. unfold runBackend. calmly. intros ? w1 ?. apply wp_bind. eapply wp_mono; [by apply backend_loop_wp| |done].
  intros ? w2 ? _. calmly. done.
Qed.

(** ** Executions of the process *)

(** The goroutine and the others; the process may end at any point and start again
    on the database it left. *)
Inductive process_step : world * prog captureE unit -> world * prog captureE unit -> Prop :=
| process_thread c c' : thread_step call_step other_step c c' -> process_step c c'
| process_restart w p b fuel : opens (s_content (w_sys w)) b -> process_step (w, p) (booted (opened b (s_log (w_sys w))), run fuel).
Definition process_reachable w : Prop :=
  exists b fuel p, opens ∅ b /\ rtc process_step (booted (opened b []), run fuel) (w, p).

Lemma booted_inv s : reachable s -> trail_ok name pipeline (trail s) -> (forall r, r ∈ s_history s -> sourced r) -> world_inv (booted s).
Proof. intros H1 H2 H3. by split. Qed.

Lemma restart_inv w b : world_inv w -> opens (s_content (w_sys w)) b -> world_inv (booted (opened b (s_log (w_sys w)))).
Proof.
  intros [I1 I2 I3 I4] Ho. pose proof (reachable_inv _ I1) as Hinv. apply booted_inv.
  - eapply reachable_step; [done|]. by apply step_restart.
  - rewrite restart_trail by done. eapply trail_ok_prefix; [done|]. apply log_prefix.
  - intros r Hr. apply I3. cbn in Hr. pose proof (i_history _ Hinv) as Hh. destruct (s_flush (w_sys w)).
    4: destruct Hh as [_ [k ->]]; apply elem_of_app; by left.
    all: rewrite Hh; apply elem_of_app; by left.
Qed.

Lemma process_inv (src_ok : source_storable) w : process_reachable w -> world_inv w.
Proof.
  intros (b & fuel & p & Ho & Hr).
  assert (forall c c', rtc process_step c c' -> world_inv c.1 /\ W c.2 (fun _ _ => True) c.1 -> world_inv c'.1) as H.
  { clear -src_ok. induction 1 as [|c c1 c2 Hs Hr IH]; [by intros []|]. intros [H1 H2]. apply IH. destruct Hs as [[w p] [w' p'] Hs|w p b fuel Ho].
    - apply (wp_adequate _ _ _ world_inv_stable p p' w w' H1 H2). by apply rtc_once.
    - cbn in *. pose proof (restart_inv w b H1 Ho). split; [done|]. by apply runBackend_wp. }
  apply (H _ _ Hr). cbn. assert (world_inv (booted (opened b []))) as Hi.
  { assert (lineage_ok ∅) as Hl by (intros v Hv; by rewrite lookup_empty in Hv).
    destruct (opens_spec _ _ Ho Hl) as (_ & _ & _ & Hp & _). apply booted_inv.
    - by exists b.
    - unfold trail, uncommitted. cbn. rewrite Hp. apply trail_ok_nil.
    - intros r Hx. by apply elem_of_nil in Hx. }
  split; [done|]. by apply runBackend_wp.
Qed.
(** C8: capture has no gaps. In every state of the process, with the batcher,
    retention, reconnections and restarts behind and in progress: every write the
    buffer accepted is an event of the source that passes the collection filter,
    normalised, with the backend's name and the event's own token; when capture is
    active a boundary was saved; and for every boundary saved, the checkpoint from
    which a restart resumes is at its position or later, and every event of the
    source in between that passes the filter became durable after it. *)
Theorem capture_gapless w :
  source_storable -> process_reachable w ->
  (forall r, r ∈ s_history (w_sys w) -> sourced r) /\
  (w_captureActive w = true -> exists t, Saved t ∈ s_log (w_sys w)) /\
  (forall before t after, s_log (w_sys w) = before ++ Saved t :: after ->
     exists n t' n', token_at t n /\ s_content (w_sys w) !! checkpointKey = Some t' /\ token_at t' n' /\ (n <= n')%nat /\
       covers name pipeline n n' (writes after)).
Proof.
  intros src_ok Hr. destruct (process_inv src_ok w Hr) as [I1 I2 I3 I4]. split_and!; [done|done|].
  rewrite (d_checkpoint _ _ (i_durable _ (reachable_inv _ I1))). exact (I2 _ (log_prefix _)).
Qed.

(** The error count is never reset: the loop of the stream always returns an error. *)
Theorem watch_never_nil fuel :
  leaves (fun r => r <> Returned None)
    (watchChangeStream name collections from_beginning has_handler monitor slowDownDelay pauseDelay buffer_text normalize_text fuel).
Proof.
  assert (forall ready firstPoll, leaves (fun r => r <> Returned None)
    (watch_loop name has_handler monitor slowDownDelay pauseDelay buffer_text normalize_text fuel ready firstPoll)) as Hl.
  { induction fuel as [|fuel IH]; intros ready firstPoll; cbn [watch_loop]; [done|].
    eapply leaves_bind; [apply leaves_True|]. intros [ready'|e] _; [apply IH|done]. }
  unfold watchChangeStream. apply (leaves_bind (fun r => r <> Returned None)).
  - unfold watch_stream. intros [tok|e]; [|done]. intros [e|]; [done|]. intros now []. apply (leaves_bind (fun r => r <> Returned None)); [apply Hl|].
    intros [[e|]|] Hr; [by intros c|done|done].
  - intros [[e|]|] Hr; [by intros []|done|done].
Qed.
End Facts.

(** ** Replay from the buffers that capture fills *)
Section Replay.
Context `{PB : Pebble} {BK : PebbleBack} {EC : EventCodec} {BC : BsonCodec} `{GH : GoHeap} `{RO : RangeOrder}.
Context (collections : string -> list string) (from_beginning has_handler : bool).
Context (monitor : BackpressureMonitor) (slowDownDelay pauseDelay : Z).
Context (buffer_text : buffer_error -> string) (normalize_text : normalize_error -> string).
Context (sources : string -> ChangeSource).

(** The assumption of the replay theorem on the buffers holds for backends whose
    capture runs. *)
Theorem capture_captured (p : Backends) (ws : string -> world) :
  (forall name, source_storable (SRC := sources name) name) ->
  (forall name, process_reachable (SRC := sources name) name (collections name) from_beginning has_handler monitor slowDownDelay pauseDelay
     buffer_text normalize_text (ws name)) ->
  (forall name b, p !! name = Some b -> be_buffer b = s_buf (w_sys (ws name))) ->
  captured p (fun name => w_sys (ws name)).
Proof.
  intros Hs Hr Hb name b Hp. destruct (process_inv (SRC := sources name) _ _ _ _ _ _ _ _ _ (Hs name) _ (Hr name)) as [I1 I2 I3 I4].
  split; [by apply Hb|]. split; [done|]. intros r e Hin Hre. destruct (I3 r Hin) as (i & raw & _ & _ & now & e' & _ & He & _).
  rewrite He in Hre. injection Hre as <-. done.
Qed.
End Replay.

(** ** A run

    A source with one deletion per document, and a process that answers its calls by
    a script: the next event, an empty batch, a broken connection, and where a stream
    without a token starts. *)
Section Run.
#[local] Existing Instance map_pebble.
#[local] Existing Instance map_back.

Definition sample_raw (doc : string) : RawEvent := {|
  raw_OperationType := "delete"; raw_ClusterTime := ClusterAt (Z.of_nat (String.length doc)) 0; raw_TxnNumber := None;
  raw_FullDocument := None; raw_UpdateDescription := None; raw_DocumentKey := Some [("_id", BString doc)]; raw_DB := "syntrix";
  raw_Coll := "documents"; raw_ResumeToken := repeat 1 (String.length doc) |}.
Definition sample_event (doc : string) (now : Z) : StoreChangeEvent := {|
  evt_EventID := generateEventID (ClusterAt (Z.of_nat (String.length doc)) 0) "documents" doc; evt_Database := "";
  evt_MgoColl := "documents"; evt_MgoDocID := doc; evt_OpType := StoreOperationDelete; evt_FullDocument := None;
  evt_UpdateDesc := None; evt_ClusterTime := ClusterAt (Z.of_nat (String.length doc)) 0; evt_TxnNumber := None;
  evt_Timestamp := now; evt_Backend := "a" |}.

Definition sample_codec : EventCodec.
Proof.
  refine {| MarshalEvent e := Ok (evt_Timestamp e :: bytes_of_string (evt_MgoDocID e));
            UnmarshalEvent l := match l with now :: l => Ok (sample_event (string_of_bytes l) now) | [] => Err ""%string end;
            storable e := e = sample_event (evt_MgoDocID e) (evt_Timestamp e); stored e := e |}; try done.
  intros e data He [= <-]. rewrite He. cbn. by rewrite string_of_bytes_of_string.
Defined.
#[local] Existing Instance sample_codec.
Definition sample_bson : BsonCodec :=
  {| bson_Marshal _ := Err ""%string; bson_UnmarshalDoc _ := Err ""%string; sprint _ := ""%string |}.
#[local] Existing Instance sample_bson.

Definition sample_docs : list string := ["a"; "bb"; "ccc"].
Definition sample_source : ChangeSource.
Proof.
  refine {| source := map sample_raw sample_docs; token_at t n := t = repeat 1 n |}.
  - intros t n m -> H. apply (f_equal length) in H. by rewrite !repeat_length in H.
  - intros [|[|[|i]]] raw; cbn; try (by intros [= <-]).
Defined.
#[local] Existing Instance sample_source.

Lemma sample_storable : source_storable "a".
Proof.
  intros i raw now e Hs Hn. destruct i as [|[|[|i]]]; cbn in Hs; try done; injection Hs as <-; injection Hn as <-; (split; [by split|done]).
Qed.

Inductive answer := NextEvent | EmptyBatch | Broken | FreshAt (n : nat).
Definition broken : go_error := GoError "connection reset" [].

(** The batcher first, where the goroutine waits for it. *)
Definition flushed (s : sys) : sys := match b_pending (s_buf s) with [] => s | _ => default s (do_flush s) end.

Definition next_answer (w : world) (script : list answer) : option ((bool * option go_error * option go_error) * world * list answer) :=
  match script, w_stream w with
  | NextEvent :: script, Some (None, c) =>
      raw ← source !! c; Some ((true, None, None), put_stream w (Some (None, S c)) (Some raw) [], script)
  | EmptyBatch :: script, Some (None, c) => Some ((false, None, None), put_stream w (Some (None, c)) None (repeat 1 c), script)
  | Broken :: script, _ => Some ((false, Some broken, None), put_stream w None None [], script)
  | _, _ => None
  end.
Definition open_at (start : stream_start) (script : list answer) : option (nat * list answer) :=
  match start, script with
  | ResumeAfter t, _ => if bytes_eqb t (repeat 1 (length t)) then Some (length t, script) else None
  | FromBeginning, _ => Some (0%nat, script)
  | FromNow, FreshAt n :: script => Some (n, script)
  | FromNow, _ => None
  end.
Definition save_at (s : sys) (token : bytes) : option sys :=
  if negb (b_closed (s_buf s)) && negb (bytes_eqb token []) && (queued (s_buf s) =? 0)
  then Some (log_entry s (SaveCheckpoint (s_buf s) (Some token)).1 (Saved token)) else None.
Definition write_at (s : sys) (evt : StoreChangeEvent) (token : bytes) : option sys :=
  match Write (s_buf s) evt (Some token) None None with
  | Done (b, None) => Some {| s_buf := b; s_flush := s_flush s; s_prune := s_prune s; s_log := s_log s;
                              s_history := s_history s ++ drop (length (b_pending (s_buf s))) (b_pending b) |}
  | _ => None
  end.

Definition respond {X} (e : captureE X) (w : world) (script : list answer) : option (X * world * list answer) :=
  match e in captureE X return option (X * world * list answer) with
  | ECtxErr => Some (None, w, script)
  | ELoadCheckpoint => Some (LoadCheckpoint (s_buf (w_sys w)), w, script)
  | EOpenStream pipeline start => '(n, script) ← open_at start script; Some (None, put_stream w (Some (pipeline, n)) None [], script)
  | ENow => Some (0, w, script)
  | ERecordResponse at_ => Some (tt, put_backend w (recordCaptureResponse (w_backend w) at_), script)
  | ERemainingBatchLength => Some (0, w, script)
  | ETryNext => next_answer w script
  | EStreamID => Some (1, w, script)
  | EResumeToken => Some (w_token w, w, script)
  | EDecode => raw ← w_current w; Some (Ok raw, w, script)
  | ECloseStream => Some (None, put_stream w None None [], script)
  | EFlush => match Flush (s_buf (flushed (w_sys w))) with Done r => Some (r, put_sys w (flushed (w_sys w)), script) | Waits => None end
  | ESaveCheckpoint token => s ← save_at (w_sys w) token; Some (None, put_sys w s, script)
  | EWrite evt token => s ← write_at (w_sys w) evt token; Some (None, put_sys w s, script)
  | ESetCaptureState active err => Some (tt, put_backend w (setCaptureState (w_backend w) active err), script)
  | ERecordEvent evt => let '(g, found) := RecordEvent (w_gap w) evt in Some (found, put_handlers w g (w_recovery w), script)
  | EBroadcast _ => Some (tt, w, script)
  | EHandleEvent _ => Some (None, w, script)
  | ESleep _ => Some (tt, w, script)
  | ECleanerStart => Some (tt, w, script)
  | ECleanerStop => Some (tt, w, script)
  | EWaitRetry => Some (true, w, script)
  | EHandleError err =>
      let '(h, action) := HandleError (w_recovery w) (Some (ge_text err)) in Some (action, put_handlers w (w_gap w) h, script)
  | EResetErrorCount => Some (tt, put_handlers w (w_gap w) (ResetErrorCount (w_recovery w)), script)
  end.

Fixpoint drive {A} (p : prog captureE A) (w : world) (script : list answer) : world * prog captureE A :=
  match p with
  | Ret a => (w, Ret a)
  | Call e k => match respond e w script with Some (x, w', script') => drive (k x) w' script' | None => (w, p) end
  end.
Lemma flushed_background s : rtc background s (flushed s).
Proof.
  unfold flushed. destruct (b_pending (s_buf s)) eqn:Ep; [constructor|]. destruct (do_flush s) as [s'|] eqn:E; [|constructor]. cbn.
  unfold do_flush in E. destruct (s_flush s) eqn:Ef; try done. destruct (flush_take (s_buf s)) as [b|] eqn:Et; [|done].
  destruct (flush_batch _ _) as [batch|] eqn:Eb; [|done]. injection E as <-.
  set (s1 := set_flush s b FTaken (s_log s)). set (d := (batch_Commit (b_db b) batch).1).
  set (s2 := set_flush s (set_db b d) (FCommitted true None) (s_log s ++ map Written (b_flushing b))).
  apply (rtc_l _ s s1); [right; split; [by apply step_take|split; [done|exists []; by rewrite app_nil_r]]|].
  apply (rtc_l _ s1 s2); [right|].
  { split; [|split; [done|by eexists]]. apply (step_commit s1 d None batch); [done| |exact Eb|done]. unfold flush_commit. cbn [s_buf set_flush s1]. by rewrite Eb. }
  apply rtc_once. right. split; [exact (step_finish s2 true None eq_refl)|]. split; [done|]. exists []. by rewrite app_nil_r.
Qed.
Lemma background_other w s s' : rtc background s s' -> rtc other_step (put_sys w s) (put_sys w s').
Proof. induction 1 as [|s s1 s2 Hs Hr IH]; [constructor|]. eapply rtc_l; [|exact IH]. exact (step_background (put_sys w s) s1 Hs). Qed.

Lemma next_answer_ok w script x w' script' : next_answer w script = Some (x, w', script') -> next_event w x w'.
Proof.
  unfold next_answer. destruct script as [|[| | |n] script]; try done; destruct (w_stream w) as [[[pl|] c]|] eqn:Es; try done.
  - destruct (source !! c) as [raw|] eqn:E; [|done]. intros [= <- <- <-]. left. exists None, c, c, raw. split_and!; try done.
    intros k raw' Hk. lia.
  - intros [= <- <- <-]. right; left. exists None, c, c, (repeat 1 c). split_and!; try done; [intros k raw' Hk; lia|by right].
  - intros [= <- <- <-]. right; right. exists false, (Some broken), None, None. by split_and!; [|left|].
  - intros [= <- <- <-]. right; right. exists false, (Some broken), None, None. by split_and!; [|left|].
  - intros [= <- <- <-]. right; right. exists false, (Some broken), None, None. by split_and!; [|left|].
Qed.

Lemma respond_ok {X} (e : captureE X) w script x w' script' : respond e w script = Some (x, w', script') ->
  exists w1, rtc other_step w w1 /\ call_step X e w1 x w'.
Proof.
  destruct e; cbn [respond]; intros H; try (injection H as <- <- <-; exists w; split; [constructor|done]).
  - destruct (open_at start script) as [[n sc]|] eqn:E; [|done]. injection H as <- <- <-. exists w. split; [constructor|]. exists n. split; [|done].
    unfold open_at in E. destruct start as [t| |]; [|by injection E as <- <-|done].
    destruct (bytes_eqb _ _) eqn:Eb; [|done]. apply bytes_eqb_eq in Eb. by injection E as <- <-.
  - exists w. split; [constructor|]. by eapply next_answer_ok.
  - destruct (w_current w) as [raw|] eqn:E; [|done]. injection H as <- <- <-. exists w. split; [constructor|done].
  - destruct (Flush _) as [|r] eqn:E; [done|]. injection H as <- <- <-. exists (put_sys w (flushed (w_sys w))). split; [|split; [by left|done]].
    pose proof (background_other w _ _ (flushed_background (w_sys w))) as Hb. by destruct w.
  - destruct (save_at _ _) as [s|] eqn:E; [|done]. injection H as <- <- <-. exists w. split; [constructor|]. exists s. split; [|done].
    unfold save_at in E. destruct (_ && _) eqn:Ec; [|done]. injection E as <-. apply andb_true_iff in Ec as [[E1 E2]%andb_true_iff E3].
    apply negb_true_iff in E1, E2. apply Z.eqb_eq in E3. destruct token as [|y token]; [done|].
    destruct (SaveCheckpoint (s_buf (w_sys w)) (Some (y :: token))) as [b e] eqn:Es. pose proof Es as Es'.
    unfold SaveCheckpoint in Es'. rewrite E1, E3 in Es'. cbn in Es'. injection Es' as <- <-.
    eexists. split; [exact Es|]. left. by split_and!.
  - destruct (write_at _ _ _) as [s|] eqn:E; [|done]. injection H as <- <- <-. exists w. split; [constructor|]. exists s. split; [|done].
    unfold write_at in E. destruct (Write _ _ _ _ _) as [|[b [e|]]] eqn:Ew; try done. injection E as <-. by exists None, None, b.
  - destruct (RecordEvent _ _) as [g found] eqn:E. injection H as <- <- <-. exists w. split; [constructor|by exists g].
  - destruct (HandleError _ _) as [h a] eqn:E. injection H as <- <- <-. exists w. split; [constructor|by exists h].
Qed.

Lemma drive_ok {A} (p : prog captureE A) w script : rtc (thread_step call_step other_step) (w, p) (drive p w script).
Proof.
  revert w script. induction p as [a|X e k IH]; intros w script; cbn [drive]; [constructor|].
  destruct (respond e w script) as [[[x w'] script']|] eqn:E; [|constructor].
  destruct (respond_ok e w script x w' script' E) as (w1 & Ho & Hc). etrans; [|eapply rtc_l; [by apply thread_call|apply IH]].
  clear -Ho. induction Ho as [|w w2 w3 Hs Hr IH]; [constructor|]. eapply rtc_l; [by apply thread_other|done].
Qed.
(** The process on an empty directory, without a filter or a handler, and the
    batcher after it. *)
Definition sample_program : prog captureE unit :=
  runBackend "a" [] false false (NewBackpressureMonitor 0 0) 0 0 (fun _ => ""%string) (fun _ => ""%string) 12.
Definition sample_world (script : list answer) : world :=
  let w := (drive sample_program (booted (opened tick_buffer [])) script).1 in put_sys w (flushed (w_sys w)).
Abbreviation sample_reachable :=
  (process_reachable "a" [] false false (NewBackpressureMonitor 0 0) 0 0 (fun _ => ""%string) (fun _ => ""%string)) (only parsing).

Lemma sample_world_reachable script : sample_reachable (sample_world script).
Proof.
  unfold sample_world. destruct (drive sample_program (booted (opened tick_buffer [])) script) as [w p] eqn:E. cbn [fst].
  exists tick_buffer, 12%nat, p. split.
  - apply (opens_ok ∅ tick_buffer ∅ tick_options tick_token (New tick_options ∅ tick_token).1); [done|repeat constructor; by unfold is_byte|reflexivity].
  - assert (forall c c', rtc (thread_step call_step other_step) c c' -> rtc (process_step "a" [] false false (NewBackpressureMonitor 0 0) 0 0
      (fun _ => ""%string) (fun _ => ""%string)) c c') as H.
    { induction 1; [constructor|]. eapply rtc_l; [by apply process_thread|done]. }
    apply H. etrans; [apply (drive_ok sample_program _ script)|]. rewrite E.
    pose proof (background_other w _ _ (flushed_background (w_sys w))) as Hb.
    assert (forall w1 w2, rtc other_step w1 w2 -> rtc (thread_step call_step other_step) (w1, p) (w2, p)) as Ho.
    { induction 1; [constructor|]. eapply rtc_l; [by apply thread_other|done]. }
    apply Ho. by destruct w.
Qed.

(** An event before the boundary and one after it. *)
Definition boundary_script : list answer := [FreshAt 0; NextEvent; EmptyBatch; NextEvent].

Lemma capture_gapless_witness :
  exists t', s_content (w_sys (sample_world boundary_script)) !! checkpointKey = Some t' /\ token_at t' 2 /\
    exists r, r ∈ s_history (w_sys (sample_world boundary_script)) /\ captures "a" (sample_raw "bb") r.
Proof.
  set (w := sample_world boundary_script).
  destruct (capture_gapless "a" [] false false (NewBackpressureMonitor 0 0) 0 0 (fun _ => ""%string) (fun _ => ""%string) w
    sample_storable (sample_world_reachable boundary_script)) as (_ & _ & H).
  assert (s_log (w_sys w) = take 1 (s_log (w_sys w)) ++ Saved [1] :: drop 2 (s_log (w_sys w))) as E by (vm_compute; reflexivity).
  destruct (H _ _ _ E) as (n & t' & n' & H1 & H2 & H3 & H4 & H5).
  assert (t' = [1; 1]) as ->.
  { assert (bool_decide (s_content (w_sys w) !! checkpointKey = Some [1; 1]) = true) as Hc by (vm_compute; reflexivity).
    apply bool_decide_eq_true in Hc. rewrite Hc in H2. by injection H2. }
  exists [1; 1]. split; [exact H2|]. split; [reflexivity|].
  assert (n = 1%nat) as -> by (by apply (token_at_functional [1])).
  assert (n' = 2%nat) as -> by (by apply (token_at_functional [1; 1])).
  destruct (H5 1%nat (sample_raw "bb")) as (r & Hr & Hc); [lia|reflexivity|reflexivity|].
  exists r. split; [|exact Hc].
  assert (writes (drop 2 (s_log (w_sys w))) = drop 1 (s_history (w_sys w))) as Eh by (vm_compute; reflexivity).
  rewrite Eh in Hr. rewrite <- (take_drop 1 (s_history (w_sys w))). apply elem_of_app. by right.
Defined.

(** Before the first boundary a broken connection may skip events: the stream opens
    again without a token although an event is in the queue, and starts with what
    comes next. The first event is captured, the second is not, and the boundary that
    follows lies behind both. *)
Definition reopen_script : list answer := [FreshAt 0; NextEvent; Broken; FreshAt 2; EmptyBatch].

Theorem reopen_skips :
  exists w, sample_reachable w /\ w_captureActive w = true /\
    (exists r, r ∈ s_history (w_sys w) /\ captures "a" (sample_raw "a") r) /\
    (exists t, Saved t ∈ s_log (w_sys w) /\ token_at t 2) /\
    (forall r, r ∈ s_history (w_sys w) -> ~ captures "a" (sample_raw "bb") r).
Proof.
  set (w := sample_world reopen_script). exists w. split; [apply sample_world_reachable|]. split; [vm_compute; reflexivity|].
  assert (req_token <$> s_history (w_sys w) = [Some [1]]) as Et by (vm_compute; reflexivity).
  assert (req_event <$> s_history (w_sys w) = [Some (sample_event "a" 0)]) as Ee by (vm_compute; reflexivity). split_and!.
  - destruct (s_history (w_sys w)) as [|r l] eqn:Eh; [done|]. exists r. split; [by left|].
    exists 0, (set_Backend (sample_event "a" 0) ""). split; [reflexivity|]. apply (f_equal head), (inj Some) in Et, Ee.
    split; [exact Ee|exact Et].
  - exists [1; 1]. split; [|reflexivity]. assert (s_log (w_sys w) !! 1%nat = Some (Saved [1; 1])) as E by (vm_compute; reflexivity).
    by apply list_elem_of_lookup_2 in E.
  - intros r Hr (now & e & _ & _ & Ht). apply (list_elem_of_fmap_2 req_token) in Hr. rewrite Et in Hr.
    apply list_elem_of_singleton in Hr. rewrite Ht in Hr. discriminate.
Qed.
End Run.
