(* ===== verification/Cleaner.v ===== *)
(** * Retention of the event buffer: internal/puller/buffer/cleaner.go

    A cleanup as a program over the calls of the buffer, each of which takes and
    releases its locks. *)
From stdpp Require Import base list sorting gmap strings.
From Stdlib Require Import ZArith SpecFloat.
From S2P Require Import Prelude Value IndexStore Codec Projection Intervals Pebble PersistStore Events ReplicaBudget Prog Buffer BufferScan BufferMachine BufferInv BufferModels BufferFacts.
Local Open Scope Z_scope.

(** Durations are nanoseconds. *)
Record Cleaner := { cl_retention : Z; cl_maxSize : Z; cl_interval : Z }.

Inductive clean_error :=
| CleanCanceled (e : string) | CleanPrune (e : buffer_error) | CleanSize (e : buffer_error) | CleanFirst (e : buffer_error)
| CleanScan (e : buffer_error) | CleanCandidates (e : list buffer_error) | CleanEvict (e : buffer_error) | CleanFuel.

Section Cleaner.
Context `{PB : Pebble} {BK : PebbleBack} {EC : EventCodec}.

Inductive cleanE : Type -> Type :=
| CCtxErr : cleanE (option string)
| CNow : cleanE Z
| CPruneExpired (beforeKey : bytes) : cleanE (res buffer_error Z)
| CSize : cleanE (res buffer_error Z)
| CFirst : cleanE (res buffer_error bytes)
| CScanFrom (afterKey : bytes) : cleanE (res buffer_error deduplicatingIterator)
| CCloseIterator : cleanE (option buffer_error)
| CPruneBefore (beforeKey : bytes) : cleanE (res buffer_error Z).
Abbreviation clprog := (prog cleanE) (only parsing).

(** The last key of the first events, and the iterator behind them. *)
Fixpoint scan_last (n : nat) (lastKey : bytes) (it : deduplicatingIterator) : bytes * deduplicatingIterator :=
  match n with
  | O => (lastKey, it)
  | S n => let '(more, it) := dd_Next it in if more : bool then scan_last n (dd_Key it) it else (lastKey, it)
  end.

(** The constant 0.9. *)
Definition nine_tenths : spec_float := S754_finite false 8106479329266893 (-53).
Definition target_size (maxSize : Z) : Z := int_of_f64 (f64_mul (f64_of_Z maxSize) nine_tenths).

Definition scan_limit : nat := Z.to_nat 1000.

(** The loop while the size exceeds the target. *)
Fixpoint evict (fuel : nat) (targetSize size : Z) : clprog (res clean_error unit) :=
  match fuel with
  | O => Ret (Err CleanFuel)
  | S fuel =>
      if targetSize <? size then
        e ← call CCtxErr;
        match e with
        | Some e => Ret (Err (CleanCanceled e))
        | None =>
            first <-! (r ← call CFirst; Ret (map_err CleanFirst r));
            match first with
            | [] => Ret (Ok tt)
            | _ =>
                it <-! (r ← call (CScanFrom first); Ret (map_err CleanScan r));
                let '(lastKey, it) := scan_last scan_limit first it in
                c ← call CCloseIterator;
                match omap id [dd_err it; c] with
                | (_ :: _) as es => Ret (Err (CleanCandidates es))
                | [] =>
                    deleted <-! (r ← call (CPruneBefore (lastKey ++ [0])); Ret (map_err CleanEvict r));
                    if deleted =? 0 then Ret (Ok tt)
                    else
                      size <-! (r ← call CSize; Ret (map_err CleanSize r));
                      evict fuel targetSize size
                end
            end
        end
      else Ret (Ok tt)
  end.

(** The key of the cutoff; the seconds are converted to a [uint32]. *)
Definition cutoff_key (now retention : Z) : bytes :=
  FormatBufferKey (ClusterAt (((now - retention) / 1000000000) mod 2 ^ 32) 0) "".

Definition cleanup (fuel : nat) (c : Cleaner) : clprog (res clean_error unit) :=
  e ← call CCtxErr;
  match e with
  | Some e => Ret (Err (CleanCanceled e))
  | None =>
      now ← call CNow;
      _ <-! (r ← call (CPruneExpired (cutoff_key now (cl_retention c))); Ret (map_err CleanPrune r));
      if 0 <? cl_maxSize c then
        size <-! (r ← call CSize; Ret (map_err CleanSize r));
        if cl_maxSize c <? size then evict fuel (target_size (cl_maxSize c)) size else Ret (Ok tt)
      else Ret (Ok tt)
  end.
Definition CleanupNow (fuel : nat) (c : Cleaner) : clprog (res clean_error unit) := cleanup fuel c.

(** ** The cleanup on a buffer no other goroutine changes *)
Definition clean_step X (e : cleanE X) : Buffer -> X -> Buffer -> list unit -> Prop :=
  match e with
  | CCtxErr => fun b _ b' _ => b' = b
  | CNow => fun b _ b' _ => b' = b
  | CPruneExpired k => fun b r b' _ => (b', r) = PruneExpired b k
  | CSize => fun b r b' _ => r = Size b /\ b' = b
  | CFirst => fun b r b' _ => r = First b /\ b' = b
  | CScanFrom k => fun b r b' _ => r = ScanFrom b k /\ b' = b
  | CCloseIterator => fun b _ b' _ => b' = b
  | CPruneBefore k => fun b r b' _ => (b', r) = PruneBefore b k
  end.
Abbreviation cruns := (runs clean_step) (only parsing).

(** The number of events in the database. *)
Definition stored_events (b : Buffer) : nat := size (filter (fun kv => isMetadataKey kv.1 = false) (content (b_db b))).

Lemma pruneBefore_events b before age b' n : pruneBefore b before age = (b', Ok n) ->
  (stored_events b' <= stored_events b)%nat /\ (n <> 0 -> (stored_events b' < stored_events b)%nat).
Proof.
  unfold pruneBefore. destruct (b_closed b); [done|]. destruct (protected_group _ _ _) as [[|x g]|]; [by intros [= <- <-]| |done].
  intros (keys & -> & Hnd & Hk & Hc & _)%deleteBeforeLocked_spec.
  assert (filter (fun kv => isMetadataKey kv.1 = false) (content (b_db b')) ⊆ filter (fun kv => isMetadataKey kv.1 = false) (content (b_db b))) as Hs.
  { apply map_subseteq_spec. intros k' v'. rewrite !map_lookup_filter_Some. intros [H1 H2]. cbn in H2. rewrite Hc in H1 by done.
    by case_bool_decide. }
  split; [by apply map_subseteq_size|]. intros Hn. destruct keys as [|k keys]; [done|].
  assert (event_in b k) as [[v Hv] Hm] by (by apply (Hk k); left).
  apply map_subset_size. apply map_subset_alt. split; [done|]. exists k. split; [|exists v; by rewrite map_lookup_filter_Some].
  apply map_lookup_filter_None. left. rewrite Hc, bool_decide_true; [done|by left|done].
Qed.

(** A call whose error is returned with a name of its own. *)
Lemma named_call_inv {A B} (e : cleanE (res buffer_error A)) (f : buffer_error -> clean_error) (k : A -> prog cleanE (res clean_error B)) b b' os r :
  (forall x, f x <> CleanFuel) -> cruns (try (r ← call e; Ret (map_err f r)) k) b b' os r -> r = Err CleanFuel ->
  exists a b1 o os', clean_step _ e b (Ok a) b1 o /\ cruns (k a) b1 b' os' r.
Proof.
  intros Hf Hx ->. apply runs_try_inv in Hx as [(e' & H & [= <-])|(a & b1 & o1 & o2 & H & Hk & _)];
    destruct H as (x & s1 & o & os' & He & (-> & _ & Hr) & _); destruct x as [x|x]; try done.
  - injection Hr as Hr. by destruct (Hf x).
  - injection Hr as <-. by exists a, s1, o, o2.
Qed.

Ltac step_call H :=
  let x := fresh "x" in let s := fresh "b" in let o := fresh "o" in let os := fresh "os" in let He := fresh "He" in
  destruct H as (x & s & o & os & He & H & _); cbn in He; unfold prog_mbind at 1 in H; cbn [prog_bind] in H.

Lemma evict_ends fuel targetSize size b b' os r : (stored_events b < fuel)%nat ->
  cruns (evict fuel targetSize size) b b' os r -> r <> Err CleanFuel.
Proof.
  revert size b os. induction fuel as [|fuel IH]; intros size b os Hb Hx Hr; [lia|]. cbn [evict] in Hx.
  destruct (targetSize <? size); [|destruct Hx as (_ & _ & Hx); congruence]. step_call Hx. subst.
  destruct x as [e|]; [by destruct Hx as (_ & _ & ?)|].
  apply named_call_inv in Hx as (first & b1 & o1 & os1 & [_ ->] & Hx); [|done|done].
  destruct first as [|z first]; [by destruct Hx as (_ & _ & ?)|].
  apply named_call_inv in Hx as (it & b1 & o2 & os2 & [_ ->] & Hx); [|done|done].
  destruct (scan_last _ _ _) as [lastKey it']. step_call Hx. subst. destruct (omap id [dd_err it'; x]); [|by destruct Hx as (_ & _ & ?)].
  apply named_call_inv in Hx as (deleted & b1 & o4 & os4 & Hp & Hx); [|done|done]. cbn in Hp.
  destruct (deleted =? 0) eqn:Ed; [by destruct Hx as (_ & _ & ?)|].
  apply named_call_inv in Hx as (size' & b2 & o5 & os5 & [_ ->] & Hx); [|done|done].
  symmetry in Hp. apply pruneBefore_events in Hp as [_ Hp]. apply Z.eqb_neq in Ed. specialize (Hp Ed).
  refine (IH _ _ _ _ Hx eq_refl). lia.
Qed.

(** A cleanup ends: each round of the eviction removes at least one event, so with
    one more round than the buffer has events it returns, whatever the sizes the
    database reports, the clock and the context. *)
Theorem cleanup_ends fuel c b b' os r : (stored_events b < fuel)%nat ->
  cruns (cleanup fuel c) b b' os r -> r <> Err CleanFuel.
Proof.
  intros Hb Hx Hr. unfold cleanup in Hx. step_call Hx. subst. destruct x as [e|]; [by destruct Hx as (_ & _ & ?)|].
  step_call Hx. subst. apply named_call_inv in Hx as (n & b2 & o9 & os9 & Hp & Hx); [|done|done]. cbn in Hp.
  symmetry in Hp. apply pruneBefore_events in Hp as [Hp _].
  destruct (0 <? cl_maxSize c); [|by destruct Hx as (_ & _ & ?)].
  apply named_call_inv in Hx as (size & b3 & o8 & os8 & [_ ->] & Hx); [|done|done].
  destruct (cl_maxSize c <? size); [|by destruct Hx as (_ & _ & ?)]. refine (evict_ends fuel _ _ _ _ _ _ _ Hx eq_refl). lia.
Qed.
(** Every call has an answer, so there is such a run. *)
Lemma clean_runs {A} (p : prog cleanE A) b : exists b' os r, cruns p b b' os r.
Proof.
  revert b. induction p as [a|X e k IH]; intros b; cbn; [by exists b, [], a|].
  assert (exists x b1, clean_step X e b x b1 []) as (x & b1 & He).
  { destruct e; cbn; [exists None, b; done|exists 0, b; done| |eexists _, b; done|eexists _, b; done|eexists _, b; done|exists None, b; done|].
    - destruct (PruneExpired b beforeKey) as [b1 r]. by exists r, b1.
    - destruct (PruneBefore b beforeKey) as [b1 r]. by exists r, b1. }
  destruct (IH x b1) as (b' & os & r & Hr). exists b', ([] ++ os), r, x, b1, [], os. done.
Qed.
Corollary cleanup_returns c b : exists b' os r, cruns (cleanup (S (stored_events b)) c) b b' os r /\ r <> Err CleanFuel.
Proof.
  destruct (clean_runs (cleanup (S (stored_events b)) c) b) as (b' & os & r & Hx). exists b', os, r. split; [done|].
  by eapply cleanup_ends; [|exact Hx]; lia.
Qed.
End Cleaner.

(** The target is nine tenths of the limit. *)
Example target_size_sample : target_size 1000000 = 900000.
Proof. vm_compute. reflexivity. Qed.
