(* ===== verification/Service.v ===== *)
(** * The indexer service: internal/indexer/service.go

    How change events reach the index: the application of an event, the start and
    the end of the service, the loop over the puller's subscription, the readiness of
    queries and the health report. The store is the interface [IndexWriter]. *)
From stdpp Require Import base list sorting gmap strings.
From Stdlib Require Import ZArith.
From S2P Require Import Prelude Value OrderKey Filter IndexStore BTree MemIndex MemStore Codec Template Projection Intervals Candidates Planner Stream Open Events Admission Prog.
Local Open Scope Z_scope.

Lemma compact_elem l x : x ∈ compact l <-> x ∈ l.
Proof.
  induction l as [|y l IH]; [done|]. destruct l as [|z l]; [done|]. cbn [compact]. destruct (String.eqb_spec y z) as [->|].
  - rewrite IH. set_solver.
  - rewrite elem_of_cons, IH, (elem_of_cons (z :: l)). done.
Qed.
Lemma compact_sort_elem l x : x ∈ compact (sort_strings l) <-> x ∈ l.
Proof. rewrite compact_elem. unfold sort_strings. by rewrite insertion_sort_perm. Qed.

(** ** The store

    The calls of internal/indexer/store/store.go the service makes, what a state of
    the store holds ([posts]: a posting key of a document; [marked]: a failure of the
    generation is on record), and what the calls promise. *)

(** A generation is not answered as ready. *)
Definition withdrawn_by (read : string -> string -> string -> res store_error (option Generation)) (r : QueryIndexRef) : Prop :=
  forall g, read (ref_Database r) (ref_Collection r) (ref_TemplateFingerprint r) = Ok (Some g) -> gen_ID g = ref_Generation r -> gen_Ready g = false.

Class IndexWriter := {
  index : Type;
  ix_IsDatabaseRetired : index -> string -> res store_error bool;
  ix_ReadGeneration : index -> string -> string -> string -> res store_error (option Generation);
  ix_ApplyDocumentProjection : index -> list Projection -> string -> index * option store_error;
  ix_SetFailure : index -> QueryIndexRef -> string -> index * option store_error;
  ix_DeleteDatabase : index -> string -> index * option store_error;
  ix_LoadProgress : index -> res store_error string;
  ix_Flush : index -> index * option store_error;
  ix_ListBootstrapCatalogs : index -> res store_error (list BootstrapCatalog);
  ix_ListQueryIndexes : index -> res store_error (list QueryIndexRef);
  ix_PublishBootstrapCatalogs : index -> list BootstrapCatalog -> string -> index * option store_error;

  ix_ok : index -> Prop;
  posts : index -> QueryIndexRef -> string -> bytes -> Prop;
  marked : index -> QueryIndexRef -> Prop;

  (** Replaced all together, with the progress, or not at all. *)
  ix_Apply_law : forall s ps progress s' e, ix_ok s -> ix_ApplyDocumentProjection s ps progress = (s', e) ->
    ix_ok s' /\ (forall db c f, ix_ReadGeneration s' db c f = ix_ReadGeneration s db c f) /\
    (forall db, ix_IsDatabaseRetired s' db = ix_IsDatabaseRetired s db) /\ (forall r, marked s' r <-> marked s r) /\
    match e with
    | None => NoDup (map (fun p => (proj_Index p, proj_DocumentID p)) ps) /\
        (forall r doc k, posts s' r doc k <-> match replacement_for ps r doc with Some p => k ∈ proj_PostingKeys p | None => posts s r doc k end) /\
        (forall p, ix_LoadProgress s = Ok p -> ix_LoadProgress s' = Ok (if String.eqb progress "" then p else progress))
    | Some _ => (forall r doc k, posts s' r doc k <-> posts s r doc k) /\ ix_LoadProgress s' = ix_LoadProgress s
    end;
  ix_SetFailure_law : forall s r failure s' e, ix_ok s -> ix_SetFailure s r failure = (s', e) ->
    ix_ok s' /\ (forall r doc k, posts s' r doc k <-> posts s r doc k) /\ ix_LoadProgress s' = ix_LoadProgress s /\
    (forall r', withdrawn_by (ix_ReadGeneration s) r' -> withdrawn_by (ix_ReadGeneration s') r') /\
    (e = None -> withdrawn_by (ix_ReadGeneration s') r);
  ix_Delete_law : forall s db s' e, ix_ok s -> ix_DeleteDatabase s db = (s', e) ->
    ix_ok s' /\ ix_LoadProgress s' = ix_LoadProgress s /\
    forall db', db' <> db ->
      (forall c f, ix_ReadGeneration s' db' c f = ix_ReadGeneration s db' c f) /\ ix_IsDatabaseRetired s' db' = ix_IsDatabaseRetired s db' /\
      (forall r doc k, ref_Database r = db' -> posts s' r doc k <-> posts s r doc k);
  ix_Flush_law : forall s s' e, ix_ok s -> ix_Flush s = (s', e) ->
    ix_ok s' /\ (forall db c f, ix_ReadGeneration s' db c f = ix_ReadGeneration s db c f) /\
    (forall db, ix_IsDatabaseRetired s' db = ix_IsDatabaseRetired s db) /\ (forall r, marked s' r <-> marked s r) /\
    (forall r doc k, posts s' r doc k <-> posts s r doc k) /\ ix_LoadProgress s' = ix_LoadProgress s;
  ix_empty_law : forall s, ix_ok s -> ix_ListQueryIndexes s = Ok [] -> (forall r doc k, ~ posts s r doc k) /\ (forall r, ~ marked s r);
  (** A catalog answers for the generations of its templates, whatever the collection. *)
  ix_Publish_law : forall s catalogs progress s', ix_ok s -> ix_PublishBootstrapCatalogs s catalogs progress = (s', None) ->
    ix_ok s' /\ (forall r doc k, posts s' r doc k <-> posts s r doc k) /\ ix_LoadProgress s' = Ok progress /\
    (forall c collection fingerprint, c ∈ catalogs -> fingerprint ∈ cat_TemplateFingerprints c ->
       ~ marked s (IndexRef (cat_Database c) collection fingerprint (cat_Generation c)) ->
       ix_IsDatabaseRetired s' (cat_Database c) = Ok false /\
       exists g, ix_ReadGeneration s' (cat_Database c) collection fingerprint = Ok (Some g) /\
         gen_ID g = cat_Generation c /\ gen_Ready g = true /\ gen_Failure g = ""%string);
}.

Inductive service_error :=
| SvcContext (e : string) | SvcNoEnvelope | SvcDatabaseDiffers | SvcStore (e : store_error) | SvcIdentity (e : projection_error)
| SvcGeneration (collection : string) | SvcProjection (e : projection_error) | SvcJoined (e : service_error) (es : list store_error)
| SvcNotReady | SvcNilEvent | SvcInvalidError | SvcInvalidBarrier | SvcBarrierDiffers | SvcPuller (e : string) | SvcClosed
| SvcTerminated | SvcExhausted (e : service_error) | SvcBusy | SvcTemplates (e : string) | SvcSource (e : string) | SvcNoProgress | SvcClosedDuringStart
| SvcCatalogMissing | SvcCatalogsInconsistent | SvcTemplatesChanged (database : string) | SvcBootstrap (reason : string).

Section Service.
Context `{SS : SliceSort} {IW : IndexWriter}.
(** The templates of the manager, and the text of an error. *)
Context (templates : list Template) (dbTemplates : gmap string (list Template)) (error_text : service_error -> string).

Definition databaseTemplates (database : string) : list Template :=
  if bool_decide (dbTemplates = ∅) then templates else default [] (dbTemplates !! database).
Definition templateFingerprints (database : string) : list string := compact (sort_strings (map Fingerprint (databaseTemplates database))).
(** [databases] is [cfg.Databases]. *)
Definition requiredDatabases (databases : list string) : list string := compact (sort_strings (databases ++ (map_to_list dbTemplates).*1)).

(** The fields under the mutex [mu]. A signal closes the channel [readyChanged] and
    makes a new one: the channel is the number of signals. *)
Record life := {
  lf_running : bool; lf_bootstrapping : bool; lf_starting : bool; lf_closed : bool; lf_ready : bool; lf_retrying : bool;
  lf_lifecycleErr : option service_error; lf_readyChanged : nat;
}.
Record service := {
  sv_store : index; sv_progress : string; sv_life : life; sv_databases : list string; sv_eventsApplied : Z; sv_lastEventTime : Z;
}.
Definition set_store (s : service) (st : index) : service :=
  {| sv_store := st; sv_progress := sv_progress s; sv_life := sv_life s; sv_databases := sv_databases s;
     sv_eventsApplied := sv_eventsApplied s; sv_lastEventTime := sv_lastEventTime s |}.
Definition set_progress (s : service) (progress : string) : service :=
  {| sv_store := sv_store s; sv_progress := progress; sv_life := sv_life s; sv_databases := sv_databases s;
     sv_eventsApplied := sv_eventsApplied s; sv_lastEventTime := sv_lastEventTime s |}.
Definition set_life (s : service) (l : life) : service :=
  {| sv_store := sv_store s; sv_progress := sv_progress s; sv_life := l; sv_databases := sv_databases s;
     sv_eventsApplied := sv_eventsApplied s; sv_lastEventTime := sv_lastEventTime s |}.
Definition set_phase (s : service) (running bootstrapping starting closed : bool) : service :=
  set_life s {| lf_running := running; lf_bootstrapping := bootstrapping; lf_starting := starting; lf_closed := closed;
    lf_ready := lf_ready (sv_life s); lf_retrying := lf_retrying (sv_life s); lf_lifecycleErr := lf_lifecycleErr (sv_life s);
    lf_readyChanged := lf_readyChanged (sv_life s) |}.
Definition set_readiness (s : service) (ready retrying : bool) (err : option service_error) (changed : nat) : service :=
  set_life s {| lf_running := lf_running (sv_life s); lf_bootstrapping := lf_bootstrapping (sv_life s); lf_starting := lf_starting (sv_life s);
    lf_closed := lf_closed (sv_life s); lf_ready := ready; lf_retrying := retrying; lf_lifecycleErr := err; lf_readyChanged := changed |}.

(** ** Applying an event *)
Definition commitProjection (s : service) (replacements : list Projection) (progress : string) (now : Z) : service * option service_error :=
  match ix_ApplyDocumentProjection (sv_store s) replacements progress with
  | (st, Some e) => (set_store s st, Some (SvcStore e))
  | (st, None) =>
      ({| sv_store := st; sv_progress := if String.eqb progress "" then sv_progress s else progress; sv_life := sv_life s;
          sv_databases := sv_databases s; sv_eventsApplied := i64 (sv_eventsApplied s + 1); sv_lastEventTime := now |}, None)
  end.

Fixpoint fail_refs (st : index) (refs : list QueryIndexRef) (text : string) : index * list store_error :=
  match refs with
  | [] => (st, [])
  | ref :: refs =>
      let '(st, e) := ix_SetFailure st ref text in
      let '(st, es) := fail_refs st refs text in
      (st, match e with Some e => e :: es | None => es end)
  end.
Definition failEvent (s : service) (refs : list QueryIndexRef) (cause : service_error) : service * option service_error :=
  let '(st, es) := fail_refs (sv_store s) refs (error_text cause) in
  (set_store s st, Some (match es with [] => cause | _ => SvcJoined cause es end)).

(** The generations the matching templates write to. *)
Fixpoint event_refs (st : index) (doc : StoredDoc) (matches : list MatchResult) : res service_error (list QueryIndexRef) :=
  match matches with
  | [] => Ok []
  | m :: matches =>
      let fingerprint := Fingerprint (match_Template m) in
      found ← map_err SvcStore (ix_ReadGeneration st (doc_Database doc) (doc_Collection doc) fingerprint);
      match found with
      | Some g =>
          if negb (gen_Ready g) || negb (String.eqb (gen_Failure g) "") then Err (SvcGeneration (doc_Collection doc))
          else
            refs ← event_refs st doc matches;
            Ok (IndexRef (doc_Database doc) (doc_Collection doc) fingerprint (gen_ID g) :: refs)
      | None => Err (SvcGeneration (doc_Collection doc))
      end
  end.

Fixpoint event_projections (doc : StoredDoc) (matches : list MatchResult) (refs : list QueryIndexRef) : res projection_error (list Projection) :=
  match matches, refs with
  | m :: matches, ref :: refs =>
      p ← BuildDocumentProjection doc (match_Template m) (ref_Generation ref) DefaultProjectionLimits;
      ps ← event_projections doc matches refs;
      Ok (p :: ps)
  | _, _ => Ok []
  end.

(** [ctx1] to [ctx3] are the readings of [ctx.Err()]; the event is [None] when nil. *)
Definition ApplyEvent (s : service) (evt : option StoreChangeEvent) (progress : string) (now : Z) (ctx1 ctx2 ctx3 : option string)
    : service * option service_error :=
  match ctx1 with
  | Some e => (s, Some (SvcContext e))
  | None =>
      match evt with
      | None => (s, None)
      | Some evt =>
          match ctx2 with
          | Some e => (s, Some (SvcContext e))
          | None =>
              match evt_FullDocument evt with
              | None => if bool_decide (evt_OpType evt = StoreOperationDelete) then commitProjection s [] progress now else (s, Some SvcNoEnvelope)
              | Some doc =>
                  if negb (String.eqb (evt_Database evt) (doc_Database doc)) then (s, Some SvcDatabaseDiffers)
                  else match ix_IsDatabaseRetired (sv_store s) (doc_Database doc) with
                  | Err e => (s, Some (SvcStore e))
                  | Ok true => commitProjection s [] progress now
                  | Ok false =>
                      match LogicalDocumentID doc with
                      | Err e => (s, Some (SvcIdentity e))
                      | Ok _ =>
                          let matches := MatchTemplates (doc_Collection doc) (databaseTemplates (doc_Database doc)) in
                          match event_refs (sv_store s) doc matches with
                          | Err e => (s, Some e)
                          | Ok refs =>
                              match event_projections doc matches refs with
                              | Err e => failEvent s refs (SvcProjection e)
                              | Ok replacements =>
                                  match ctx3 with
                                  | Some e => (s, Some (SvcContext e))
                                  | None =>
                                      match commitProjection s replacements progress now with
                                      | (s, Some e) => failEvent s refs e
                                      | (s, None) => (s, None)
                                      end
                                  end
                              end
                          end
                      end
                  end
              end
          end
      end
  end.

(** ** Readiness *)
Definition setReadyLocked (s : service) (ready : bool) (err : option service_error) : service :=
  set_readiness s ready (if ready then false else lf_retrying (sv_life s)) err (S (lf_readyChanged (sv_life s))).
Definition set_retrying (s : service) (retrying : bool) : service :=
  set_readiness s (lf_ready (sv_life s)) retrying (lf_lifecycleErr (sv_life s)) (lf_readyChanged (sv_life s)).
Definition failSubscription (s : service) (err : option service_error) : service := setReadyLocked (set_retrying s false) false err.

(** [subscribed]: the service has a puller. *)
Definition queryReady (subscribed : bool) (s : service) : res service_error unit :=
  if negb subscribed then Ok tt
  else if negb (lf_running (sv_life s)) || negb (lf_ready (sv_life s)) then Err SvcNotReady else Ok tt.

(** One round of [WaitReady]; [None]: it waits for a signal. *)
Definition WaitReady (s : service) : option (res service_error unit) :=
  match lf_lifecycleErr (sv_life s), lf_retrying (sv_life s) with
  | Some e, false => Some (Err e)
  | _, _ =>
      if lf_ready (sv_life s) && lf_running (sv_life s) then Some (Ok tt)
      else if negb (lf_running (sv_life s)) then Some (Err SvcNotReady) else None
  end.
Definition TerminalError (s : service) : option service_error := if lf_retrying (sv_life s) then None else lf_lifecycleErr (sv_life s).

Definition InvalidateDatabase (s : service) (ctx : option string) (database : string) : service * option service_error :=
  match ctx with
  | Some e => (s, Some (SvcContext e))
  | None => let '(st, e) := ix_DeleteDatabase (sv_store s) database in (set_store s st, SvcStore <$> e)
  end.

(** ** Start and stop *)
Fixpoint all_retired (st : index) (databases : list string) : res service_error unit :=
  match databases with
  | [] => Ok tt
  | database :: databases =>
      retired ← map_err SvcStore (ix_IsDatabaseRetired st database);
      if negb retired then Err SvcCatalogMissing else all_retired st databases
  end.
Fixpoint check_catalogs (generation boundary : string) (catalogs : list BootstrapCatalog) : res service_error unit :=
  match catalogs with
  | [] => Ok tt
  | c :: catalogs =>
      if String.eqb (cat_Generation c) "" || String.eqb (cat_BootstrapProgress c) "" || negb (String.eqb (cat_Generation c) generation)
         || negb (String.eqb (cat_BootstrapProgress c) boundary)
      then Err SvcCatalogsInconsistent
      else if negb (bool_decide (sort_strings (cat_TemplateFingerprints c) = templateFingerprints (cat_Database c)))
      then Err (SvcTemplatesChanged (cat_Database c))
      else check_catalogs generation boundary catalogs
  end.
Definition validateCatalogs (s : service) : res service_error unit :=
  catalogs ← map_err SvcStore (ix_ListBootstrapCatalogs (sv_store s));
  match catalogs with
  | [] =>
      match requiredDatabases (sv_databases s) with
      | [] => Err SvcCatalogMissing
      | required => all_retired (sv_store s) required
      end
  | c :: _ =>
      _ ← check_catalogs (cat_Generation c) (cat_BootstrapProgress c) catalogs;
      all_retired (sv_store s)
        (List.filter (fun database => negb (bool_decide (database ∈ map cat_Database catalogs))) (requiredDatabases (sv_databases s)))
  end.

(** What [puller.Service] is: absent, or with and without boundaries. *)
Inductive puller_kind := NoPuller | PlainPuller | BoundaryPuller.
Definition is_verified (p : puller_kind) : bool := match p with BoundaryPuller => true | _ => false end.

(** The part before the subscription: the templates were loaded with the error
    [loadErr], and [ValidateBoundary] answers [validation]. *)
Definition start_progress (p : puller_kind) (s : service) (loadErr : option string) (validation : string -> option string) : res service_error string :=
  match loadErr with
  | Some e => Err (SvcTemplates e)
  | None =>
      progress ← map_err SvcStore (ix_LoadProgress (sv_store s));
      match p with
      | BoundaryPuller =>
          _ ← validateCatalogs s;
          if String.eqb progress "" then Err SvcNoProgress
          else match validation progress with Some e => Err (SvcPuller e) | None => Ok progress end
      | _ => Ok progress
      end
  end.
(** [ctxs] are the readings of the contexts, [closed]: Stop was called meanwhile. *)
Definition StartWithValidationContext (p : puller_kind) (s : service) (loadErr : option string) (validation : string -> option string)
    (ctxs : nat -> option string) (closed : bool) : service * option service_error :=
  match ctxs 0%nat, ctxs 1%nat with
  | Some e, _ | None, Some e => (s, Some (SvcContext e))
  | None, None =>
      let l := sv_life s in
      if lf_running l || lf_bootstrapping l || lf_starting l || lf_closed l then (s, Some SvcBusy)
      else
        let stopped := set_phase s false false false closed in
        match start_progress p s loadErr validation with
        | Err e => (stopped, Some e)
        | Ok progress =>
            match ctxs 2%nat, ctxs 3%nat with
            | Some e, _ | None, Some e => (stopped, Some (SvcContext e))
            | None, None =>
                if closed then (stopped, Some SvcClosedDuringStart)
                else (setReadyLocked (set_readiness (set_progress (set_phase s true false false false) progress) false false None (lf_readyChanged l))
                        (match p with NoPuller => true | _ => false end) None, None)
            end
        end
  end.

(** The part of [Stop] under the mutex: every context is cancelled. *)
Definition Stop (s : service) : service :=
  setReadyLocked (set_retrying (set_phase s false (lf_bootstrapping (sv_life s)) (lf_starting (sv_life s)) true) false) false (lf_lifecycleErr (sv_life s)).

(** ** The subscription loop *)

(** What follows a message: the next one, a new attachment after the cause, or the
    end of the loop. *)
Inductive loop_next := LoopNext | LoopReconnect (cause : service_error) | LoopReturn.

(** One message of the stream; [None]: the stream was closed. [verified]: the puller
    has boundaries; [retries] counts the attachments since it was last reset. *)
Definition handle_message (verified : bool) (s : service) (retries : Z) (msg : option (option PullerEvent)) (now : Z)
    (ctx0 ctx1 ctx2 ctx3 ctx4 : option string) : service * Z * loop_next :=
  match ctx0 with
  | Some _ => (s, retries, LoopReturn)
  | None =>
      match msg with
      | None => (s, retries, LoopReconnect SvcClosed)
      | Some None => (failSubscription s (Some SvcNilEvent), retries, LoopReturn)
      | Some (Some evt) =>
          match pe_Error evt with
          | Some e =>
              if bool_decide (is_Some (pe_Change evt)) || pe_Ready evt then (failSubscription s (Some SvcInvalidError), retries, LoopReturn)
              else if pe_Retryable evt then (s, retries, LoopReconnect (SvcPuller e))
              else (failSubscription s (Some (SvcPuller e)), retries, LoopReturn)
          | None =>
              if pe_Ready evt then
                if negb verified || bool_decide (is_Some (pe_Change evt)) || String.eqb (pe_Progress evt) ""
                then (failSubscription s (Some SvcInvalidBarrier), retries, LoopReturn)
                else if negb (String.eqb (sv_progress s) (pe_Progress evt)) then (failSubscription s (Some SvcBarrierDiffers), retries, LoopReturn)
                else match ix_Flush (sv_store s) with
                | (st, Some e) => (failSubscription (set_store s st) (Some (SvcStore e)), retries, LoopReturn)
                | (st, None) =>
                    match ctx4 with
                    | Some _ => (set_store s st, retries, LoopReturn)
                    | None => (setReadyLocked (set_store s st) true None, 0, LoopNext)
                    end
                end
              else match pe_Change evt with
              | None => (s, retries, LoopNext)
              | Some change =>
                  match ApplyEvent s (Some change) (pe_Progress evt) now ctx1 ctx2 ctx3 with
                  | (s, Some e) => (failSubscription s (Some e), retries, LoopReturn)
                  | (s, None) => (s, if verified then retries else 0, LoopNext)
                  end
              end
          end
      end
  end.

(** The deferred end of the loop; [ctx] is the reading of [ctx.Err()]. *)
Definition loop_exit (s : service) (ctx : option string) : service :=
  let failure := match lf_lifecycleErr (sv_life s), ctx with Some e, _ => e | None, Some e => SvcContext e | None, None => SvcTerminated end in
  setReadyLocked (set_retrying s false) false (Some failure).

(** [reconnect] up to the attempts: queries are refused, and the progress is read
    again from the store. *)
Definition reconnect_begin (s : service) (cause : service_error) : service * option string :=
  let s := setReadyLocked (set_retrying s true) false (Some cause) in
  match ix_Flush (sv_store s) with
  | (st, Some e) => (failSubscription (set_store s st) (Some (SvcStore e)), None)
  | (st, None) =>
      let s := set_store s st in
      match ix_LoadProgress (sv_store s) with
      | Err e => (failSubscription s (Some (SvcStore e)), None)
      | Ok progress =>
          (set_progress s progress, Some progress)
      end
  end.

(** The stream from the progress on; without boundaries queries are answered at once. *)
Definition attach (verified : bool) (s : service) : service := if verified then s else setReadyLocked s true None.

(** An attempt: the context ended during the wait, or the boundary was validated with
    an error that is temporary or not, and the context after it. Without boundaries
    nothing is validated. *)
Inductive attempt_result := AttemptCanceled | AttemptValid | AttemptInvalid (e : string) (temporary canceled : bool).

(** The attempts, at most ten since the count was reset; the service, the count, and
    whether the stream was attached again. *)
Fixpoint reconnect_loop (verified : bool) (fuel : nat) (s : service) (retries : Z) (cause : service_error) (attempts : nat -> attempt_result)
    : service * Z * bool :=
  match fuel with
  | O => (failSubscription s (Some (SvcExhausted cause)), retries, false)
  | S fuel =>
      if retries <? 10 then
        let retries := retries + 1 in
        match attempts fuel with
        | AttemptCanceled => (s, retries, false)
        | AttemptValid => (attach verified s, retries, true)
        | AttemptInvalid e temporary canceled =>
            if negb verified then (attach verified s, retries, true) else
            if canceled : bool then (s, retries, false)
            else if negb temporary then (failSubscription s (Some (SvcPuller e)), retries, false)
            else reconnect_loop verified fuel (setReadyLocked s false (Some (SvcPuller e))) retries (SvcPuller e) attempts
        end
      else (failSubscription s (Some (SvcExhausted cause)), retries, false)
  end.
(** Eleven rounds: ten attempts and the end. *)
Definition reconnect (verified : bool) (s : service) (retries : Z) (cause : service_error) (attempts : nat -> attempt_result)
    : service * Z * bool :=
  match reconnect_begin s cause with
  | (s, None) => (s, retries, false)
  | (s, Some _) => reconnect_loop verified 11 s retries cause attempts
  end.

(** ** The loop as a machine

    What the loop meets next, with the readings of clock and context. *)
Record loop_input := {
  in_message : option (option PullerEvent); in_now : Z; in_ctx : nat -> option string; in_attempts : nat -> attempt_result;
}.
Definition loop_step (verified : bool) (s : service) (retries : Z) (i : loop_input) : service * Z * bool :=
  match handle_message verified s retries (in_message i) (in_now i) (in_ctx i 0) (in_ctx i 1) (in_ctx i 2) (in_ctx i 3) (in_ctx i 4) with
  | (s, retries, LoopNext) => (s, retries, true)
  | (s, retries, LoopReconnect cause) =>
      match reconnect verified s retries cause (in_attempts i) with
      | (s, retries, true) => (s, retries, true)
      | (s, retries, false) => (loop_exit s (in_ctx i 5), retries, false)
      end
  | (s, retries, LoopReturn) => (loop_exit s (in_ctx i 5), retries, false)
  end.

(** The loop and the calls of other threads, one critical section at a time. [Stop]
    cancels the context of the loop, which then ends at its next turn. *)
Inductive svc_input := InMessage (i : loop_input) | InInvalidate (ctx : option string) (database : string) | InStop.
Definition svc_step (verified : bool) (x : service * Z * bool) (i : svc_input) : service * Z * bool :=
  let '(s, retries, live) := x in
  match i with
  | InMessage i =>
      if live : bool then
        if lf_closed (sv_life s) then (loop_exit s (in_ctx i 5), retries, false) else loop_step verified s retries i
      else x
  | InInvalidate ctx database => ((InvalidateDatabase s ctx database).1, retries, live)
  | InStop => (Stop s, retries, live)
  end.
(** The service, the retries and whether the loop goes on. *)
Definition subscriptionLoop (verified : bool) (s : service) (inputs : list svc_input) : service * Z * bool :=
  foldl (svc_step verified) (attach verified s, 0, true) inputs.

(** ** Health *)
Inductive HealthStatus := HealthOK | HealthDegraded | HealthUnhealthy.
Definition index_name (r : QueryIndexRef) : string :=
  ref_Database r +:+ "|" +:+ ref_Collection r +:+ "|" +:+ ref_TemplateFingerprint r +:+ "|" +:+ ref_Generation r.
Fixpoint index_health (ctx : nat -> option string) (st : index) (refs : list QueryIndexRef) (status : HealthStatus) (indexes : gmap string IndexState)
    : res service_error (HealthStatus * gmap string IndexState) :=
  match refs with
  | [] => Ok (status, indexes)
  | ref :: refs' =>
      match ctx (length refs') with
      | Some e => Err (SvcContext e)
      | None =>
          found ← map_err SvcStore (ix_ReadGeneration st (ref_Database ref) (ref_Collection ref) (ref_TemplateFingerprint ref));
          match found with
          | Some g =>
              if negb (String.eqb (gen_ID g) (ref_Generation ref)) then index_health ctx st refs' status indexes
              else if negb (String.eqb (gen_Failure g) "") then index_health ctx st refs' HealthUnhealthy (<[index_name ref := IndexStateFailed]> indexes)
              else if gen_Ready g then index_health ctx st refs' status (<[index_name ref := IndexStateHealthy]> indexes)
              else index_health ctx st refs' (match status with HealthOK => HealthDegraded | _ => status end) (<[index_name ref := IndexStateRebuilding]> indexes)
          | None => index_health ctx st refs' (match status with HealthOK => HealthDegraded | _ => status end) (<[index_name ref := IndexStateRebuilding]> indexes)
          end
      end
  end.
(** The status, the indexes and the last error. *)
Definition Health (p : puller_kind) (s : service) (ctx : nat -> option string) : res service_error (HealthStatus * gmap string IndexState * string) :=
  let l := sv_life s in
  let status := if negb (lf_running l) || (negb (match p with NoPuller => true | _ => false end) && negb (lf_ready l))
                   || bool_decide (is_Some (lf_lifecycleErr l)) then HealthUnhealthy else HealthOK in
  refs ← map_err SvcStore (ix_ListQueryIndexes (sv_store s));
  r ← index_health ctx (sv_store s) refs status ∅;
  Ok (r.1, r.2, match lf_lifecycleErr l with Some e => error_text e | None => "" end).
End Service.

(** * Queries of the indexer service: internal/indexer/service.go

    The construction of the service, and Search, the bounded reading of a candidate
    stream. *)
(** ** Construction *)
Record indexer_config := {
  ic_Databases : list string; ic_StartupTimeout : Z; ic_BootstrapBatchSize : Z; ic_BootstrapPageBytes : Z; ic_ConsumerID : string;
  ic_ProgressPath : string; ic_StorageMode : string;
}.
Inductive store_kind := MemoryStore | PebbleIndexStore.
Definition newStore (mode : string) : res string store_kind :=
  if String.eqb mode "memory" || String.eqb mode "" then Ok MemoryStore
  else if String.eqb mode "pebble" then Ok PebbleIndexStore
  else Err "unknown storage mode".
(** The configuration in use and the kind of the store. *)
Definition NewService (cfg : indexer_config) : res string (indexer_config * store_kind) :=
  let or_default v d := if v =? 0 then d else v in
  let timeout := or_default (ic_StartupTimeout cfg) 30000000000 in
  let size := or_default (ic_BootstrapBatchSize cfg) 256 in
  let page := or_default (ic_BootstrapPageBytes cfg) (8 * 2 ^ 20) in
  if (timeout <? 0) || (size <? 0) || (page <? 0) then Err "indexer maintenance limits must be positive"
  else
    kind ← newStore (ic_StorageMode cfg);
    Ok ({| ic_Databases := ic_Databases cfg; ic_StartupTimeout := timeout; ic_BootstrapBatchSize := size; ic_BootstrapPageBytes := page;
           ic_ConsumerID := if String.eqb (ic_ConsumerID cfg) "" then "indexer" else ic_ConsumerID cfg;
           ic_ProgressPath := if String.eqb (ic_ProgressPath cfg) "" then "data/indexer/progress" else ic_ProgressPath cfg;
           ic_StorageMode := ic_StorageMode cfg |}, kind).

(** A bootstrap of a service that was constructed reads pages of at least one element. *)
Lemma NewService_limits cfg cfg' kind : NewService cfg = Ok (cfg', kind) ->
  0 < ic_StartupTimeout cfg' /\ 0 < ic_BootstrapBatchSize cfg' /\ 0 < ic_BootstrapPageBytes cfg'.
Proof.
  unfold NewService. destruct (_ || _) eqn:E; [done|]. intros (k & _ & H)%bind_ok. injection H as <- _.
  cbn [ic_StartupTimeout ic_BootstrapBatchSize ic_BootstrapPageBytes].
  apply orb_false_iff in E as [[E1%Z.ltb_ge E2%Z.ltb_ge]%orb_false_iff E3%Z.ltb_ge].
  revert E1 E2 E3. destruct (Z.eqb_spec (ic_StartupTimeout cfg) 0), (Z.eqb_spec (ic_BootstrapBatchSize cfg) 0), (Z.eqb_spec (ic_BootstrapPageBytes cfg) 0); lia.
Qed.

(** ** Search *)
Inductive search_error := SearchNotReady (e : service_error) | SearchPlan | SearchOpen (e : open_error) | SearchStream (e : stream_error).

Section Search.
Context `{SS : SliceSort} `{GH : GoHeap} `{IR : IndexReads}.

(** [ctxs] are the readings of the context in the calls of the stream; [None]: the
    number of calls has run out. *)
Fixpoint search_loop (calls fuel : nat) (ctxs : nat -> nat -> Context) (limit : Z) (s : candidateStream) (results : list DocRef)
    : candidateStream * option (res stream_error (list DocRef)) :=
  match calls with
  | O => (s, None)
  | S calls =>
      if (limit =? 0) || (Z.of_nat (length results) <? limit) then
        match cs_Next (ctxs calls) fuel s with
        | (s, Err e) => (s, Some (Err e))
        | (s, Ok None) => (s, Some (Ok results))
        | (s, Ok (Some group)) =>
            search_loop calls fuel ctxs limit s (results ++ [{| docref_ID := cg_ID group; docref_OrderKey := cg_Position group |}])
        end
      else (s, Some (Ok results))
  end.

Definition with_position (plan : Plan) (position : bytes) : Plan :=
  {| plan_Collection := plan_Collection plan; plan_Filters := plan_Filters plan; plan_OrderBy := plan_OrderBy plan; plan_Limit := plan_Limit plan;
     plan_StartAfter := plan_StartAfter plan; plan_ShowDeleted := plan_ShowDeleted plan; plan_AfterPosition := position;
     plan_TemplateFingerprint := plan_TemplateFingerprint plan; plan_Generation := plan_Generation plan; plan_BranchHash := plan_BranchHash plan;
     plan_MaxExamined := plan_MaxExamined plan |}.

(** The plan that is opened: the cursor is decoded into its position. *)
Definition search_plan (plan : Plan) : option Plan :=
  if plan_Limit plan <? 0 then None
  else if String.eqb (plan_StartAfter plan) "" then Some plan
  else if negb (length (plan_AfterPosition plan) =? 0)%nat then None
  else
    position ← DecodeBase64 (plan_StartAfter plan);
    Some (with_position plan position).

(** The references, the errors of the closed stream, or the error. *)
Definition Search (calls fuel : nat) (ready : res service_error unit) (ctx : nat -> Context) (ctxs : nat -> nat -> Context) (m : Manager) (database : string) (plan : Plan)
    : option (res search_error (list DocRef) * list store_error) :=
  match ready with
  | Err e => Some (Err (SearchNotReady e), [])
  | Ok _ =>
      match search_plan plan with
      | None => Some (Err SearchPlan, [])
      | Some plan =>
          match OpenCandidates ctx m database plan with
          | Err e => Some (Err (SearchOpen e), [])
          | Ok stream =>
              let '(stream, r) := search_loop calls fuel ctxs (plan_Limit plan) stream [] in
              r ← r; Some (map_err SearchStream r, (cs_Close stream).2)
          end
      end
  end.

Definition group_ref (g : CandidateGroup) : DocRef := {| docref_ID := cg_ID g; docref_OrderKey := cg_Position g |}.

Lemma search_loop_S calls fuel ctxs limit s results : search_loop (S calls) fuel ctxs limit s results =
  if (limit =? 0) || (Z.of_nat (length results) <? limit) then
    match cs_Next (ctxs calls) fuel s with
    | (s, Err e) => (s, Some (Err e))
    | (s, Ok None) => (s, Some (Ok results))
    | (s, Ok (Some group)) => search_loop calls fuel ctxs limit s (results ++ [group_ref group])
    end
  else (s, Some (Ok results)).
Proof. done. Qed.

(** A search reads the stream up to its limit: it answers with the first groups, or, when
    the stream has fewer, with all of them or the error the stream ends with. *)
Lemma search_loop_drain calls fuel limit s results gs e :
  cs_drain calls fuel s = (gs, e) -> e <> StreamUnread -> 0 <= limit -> (limit = 0 \/ Z.of_nat (length results) <= limit) ->
  (search_loop (S calls) fuel (fun _ _ => Background) limit s results).2 =
  Some (if bool_decide (limit <> 0 /\ limit <= Z.of_nat (length results + length gs))
        then Ok (take (Z.to_nat limit) (results ++ map group_ref gs))
        else match e with StreamFailed e => Err e | _ => Ok (results ++ map group_ref gs) end).
Proof.
  revert s results gs. induction calls as [|calls IH]; intros s results gs; [by intros [= <- <-]|]. intros Hd He Hl Hr.
  cbn [cs_drain] in Hd. rewrite search_loop_S.
  destruct ((limit =? 0) || (Z.of_nat (length results) <? limit)) eqn:Eg.
  2: { apply orb_false_iff in Eg as [Eg%Z.eqb_neq Eg2%Z.ltb_ge]. rewrite bool_decide_true by lia. destruct Hr as [|Hr]; [done|].
       rewrite take_app_le by lia. by rewrite take_ge by lia. }
  assert (Hlt : limit = 0 \/ Z.of_nat (length results) < limit).
  { apply orb_true_iff in Eg as [Eg%Z.eqb_eq|Eg%Z.ltb_lt]; [by left|by right]. }
  destruct (cs_Next _ fuel s) as [s1 [[g|]|e1]]; [|injection Hd as <- <-..].
  - destruct (cs_drain calls fuel s1) as [gs1 e'] eqn:Ed. injection Hd as <- <-. rewrite (IH _ _ gs1) by (done || rewrite ?length_app; cbn; lia).
    rewrite length_app. cbn [length map]. rewrite <- app_assoc. cbn [app]. replace (length results + 1 + length gs1)%nat with (length results + S (length gs1))%nat by lia. done.
  - rewrite bool_decide_false by (cbn; lia). cbn. by rewrite app_nil_r.
  - rewrite bool_decide_false by (cbn; lia). done.
Qed.
End Search.
