(* ===== verification/ServiceFacts.v ===== *)
(** * What the index holds after the events

    The application of events against the source documents they carry, the loop of
    the subscription, and the in-memory store as an [IndexWriter]. *)
From stdpp Require Import base list sorting gmap strings.
From Stdlib Require Import ZArith.
From S2P Require Import Prelude Value OrderKey Filter IndexStore BTree MemIndex MemStore Codec Template Projection Events Admission Prog Service.
Local Open Scope Z_scope.

Section Facts.
Context `{SS : SliceSort} {IW : IndexWriter}.
Context (templates : list Template) (dbTemplates : gmap string (list Template)) (error_text : service_error -> string).
Implicit Types (s : service) (st : index).
Abbreviation apply := (ApplyEvent templates dbTemplates error_text) (only parsing).
Abbreviation templates_for := (databaseTemplates templates dbTemplates) (only parsing).

Lemma Build_identity doc t generation limits p : BuildDocumentProjection doc t generation limits = Ok p ->
  proj_Index p = IndexRef (doc_Database doc) (doc_Collection doc) (Fingerprint t) generation /\
  LogicalDocumentID doc = Ok (proj_DocumentID p).
Proof.
  unfold BuildDocumentProjection. destruct (_ || _); [done|]. intros (u & _ & (id & Hid & H)%bind_ok)%bind_ok.
  destruct (String.eqb generation ""); [done|]. destruct (_ && _); [by apply Ok_inj in H as <-|].
  apply bind_ok in H as ([[fields membership] members] & _ & (position & _ & H)%bind_ok). destruct (_ <? _); [done|].
  by apply bind_ok in H as (keys & _ & <-%Ok_inj).
Qed.

Lemma event_refs_ok st doc matches refs : event_refs st doc matches = Ok refs ->
  Forall2 (fun m ref => exists g, ix_ReadGeneration st (doc_Database doc) (doc_Collection doc) (Fingerprint (match_Template m)) = Ok (Some g) /\
    gen_Ready g = true /\ gen_Failure g = ""%string /\
    ref = IndexRef (doc_Database doc) (doc_Collection doc) (Fingerprint (match_Template m)) (gen_ID g)) matches refs.
Proof.
  revert refs. induction matches as [|m matches IH]; intros refs; cbn [event_refs]; [intros <-%Ok_inj; constructor|].
  intros (found & Hf & H)%bind_ok. apply map_err_ok in Hf. destruct found as [g|]; [|done].
  destruct (_ || _) eqn:Eg; [done|]. apply bind_ok in H as (refs' & Hr & <-%Ok_inj). apply orb_false_iff in Eg as [E1 E2].
  apply negb_false_iff in E1, E2. apply String.eqb_eq in E2. constructor; [by exists g|by apply IH].
Qed.

Lemma event_refs_error st doc matches e : event_refs st doc matches = Err e -> forall pe, e <> SvcProjection pe.
Proof.
  induction matches as [|m matches IH]; cbn [event_refs]; [done|]. destruct (ix_ReadGeneration _ _ _ _) as [[g|]|]; cbn [mbind res_bind map_err]; [|by intros [= <-]..].
  destruct (_ || _); [by intros [= <-]|]. destruct (event_refs st doc matches); [done|]. cbn [mbind res_bind]. intros [= <-]. by apply IH.
Qed.

Lemma event_projections_ok doc matches refs ps : event_projections doc matches refs = Ok ps -> length refs = length matches ->
  Forall2 (fun mr p => BuildDocumentProjection doc (match_Template mr.1) (ref_Generation mr.2) DefaultProjectionLimits = Ok p) (zip matches refs) ps.
Proof.
  revert refs ps. induction matches as [|m matches IH]; intros [|ref refs] ps; cbn; try done; [intros <-%Ok_inj; constructor|].
  intros (p & Hp & (ps' & Hps & <-%Ok_inj)%bind_ok)%bind_ok [= Hl]. constructor; [done|by apply IH].
Qed.

(** The posting keys of a document under a template. *)
Definition keys_of (doc : StoredDoc) (t : Template) (generation : string) (k : bytes) : Prop :=
  exists p, BuildDocumentProjection doc t generation DefaultProjectionLimits = Ok p /\ k ∈ proj_PostingKeys p.

Definition has_identity (db collection id : string) (doc : StoredDoc) : bool :=
  bool_decide (doc_Database doc = db /\ doc_Collection doc = collection) &&
  match LogicalDocumentID doc with Ok i => String.eqb i id | Err _ => false end.
(** The last of the documents with an identity. *)
Definition latest (docs : list StoredDoc) (db collection id : string) : option StoredDoc :=
  last (List.filter (has_identity db collection id) docs).
Definition posts_doc st (ref : QueryIndexRef) (id : string) (doc : option StoredDoc) (t : Template) (k : bytes) : Prop :=
  match doc with Some doc => keys_of doc t (ref_Generation ref) k | None => posts st ref id k end.

(** The postings of a template's generation after the documents were applied one after
    the other. *)
Definition tracks st (docs : list StoredDoc) st' (db collection : string) (t : Template) (generation : string) : Prop :=
  let ref := IndexRef db collection (Fingerprint t) generation in
  forall id k, posts st' ref id k <-> posts_doc st ref id (latest docs db collection id) t k.

Lemma tracks_nothing st st' db c t g :
  (forall r id k, ref_Database r = db -> posts st' r id k <-> posts st r id k) -> tracks st [] st' db c t g.
Proof. intros H id k. by apply H. Qed.

Lemma tracks_app st st1 st2 d1 d2 db c t g : tracks st d1 st1 db c t g -> tracks st1 d2 st2 db c t g -> tracks st (d1 ++ d2) st2 db c t g.
Proof.
  intros H1 H2 id k. rewrite (H2 id k). unfold latest. rewrite List.filter_app, last_app.
  destruct (last (List.filter _ d2)) as [d|]; [done|]. apply H1.
Qed.

Lemma commitProjection_ok s ps progress now s' e : ix_ok (sv_store s) -> commitProjection s ps progress now = (s', e) ->
  ix_ok (sv_store s') /\ (forall db c f, ix_ReadGeneration (sv_store s') db c f = ix_ReadGeneration (sv_store s) db c f) /\
  (forall db, ix_IsDatabaseRetired (sv_store s') db = ix_IsDatabaseRetired (sv_store s) db) /\ sv_life s' = sv_life s /\
  match e with
  | None => NoDup (map (fun p => (proj_Index p, proj_DocumentID p)) ps) /\
      (forall r doc k, posts (sv_store s') r doc k <-> match replacement_for ps r doc with Some p => k ∈ proj_PostingKeys p | None => posts (sv_store s) r doc k end) /\
      (forall p, ix_LoadProgress (sv_store s) = Ok p -> ix_LoadProgress (sv_store s') = Ok (if String.eqb progress "" then p else progress)) /\
      sv_progress s' = (if String.eqb progress "" then sv_progress s else progress)
  | Some _ => (forall r doc k, posts (sv_store s') r doc k <-> posts (sv_store s) r doc k) /\ ix_LoadProgress (sv_store s') = ix_LoadProgress (sv_store s) /\
      sv_progress s' = sv_progress s
  end.
Proof.
  intros Hok. unfold commitProjection. destruct (ix_ApplyDocumentProjection _ _ _) as [st e1] eqn:E.
  apply ix_Apply_law in E as (H1 & H2 & H3 & _ & H4); [|done]. destruct e1; intros [= <- <-]; cbn; naive_solver.
Qed.

Lemma replacement_for_elem ps p : NoDup (map (fun p => (proj_Index p, proj_DocumentID p)) ps) -> p ∈ ps ->
  replacement_for ps (proj_Index p) (proj_DocumentID p) = Some p.
Proof.
  induction ps as [|q ps IH]; [by intros _ ?%elem_of_nil|]. cbn [map]. intros [Hq Hnd]%NoDup_cons [->|Hp]%elem_of_cons; unfold replacement_for; cbn [List.find].
  - by rewrite !bool_decide_true.
  - destruct (bool_decide (proj_Index q = _) && _) eqn:E; [|by apply IH]. apply andb_true_iff in E as [E1%bool_decide_eq_true E2%bool_decide_eq_true].
    destruct Hq. rewrite E1, E2. by apply (list_elem_of_fmap_2 (fun p => (proj_Index p, proj_DocumentID p))).
Qed.
Lemma replacement_for_none ps r id : (forall p, p ∈ ps -> proj_Index p = r -> proj_DocumentID p = id -> False) -> replacement_for ps r id = None.
Proof.
  intros H. destruct (replacement_for ps r id) as [p|] eqn:E; [|done]. apply find_some in E as [Hp E].
  apply andb_true_iff in E as [E1%bool_decide_eq_true E2%bool_decide_eq_true]. exfalso. apply (H p); [by apply list_elem_of_In|done|done].
Qed.

Lemma match_template_of segs t m : match_template segs t = Some m -> match_Template m = t.
Proof. unfold match_template. destruct (negb _); [done|]. destruct (negb _); [done|]. by intros [= <-]. Qed.

(** Replacing the projections of a document under all templates that match it. *)
Lemma replaced_tracks st st' doc docid matches refs ps db collection t m g :
  LogicalDocumentID doc = Ok docid -> length refs = length matches ->
  event_projections doc matches refs = Ok ps -> NoDup (map (fun p => (proj_Index p, proj_DocumentID p)) ps) ->
  (forall r id k, posts st' r id k <-> match replacement_for ps r id with Some p => k ∈ proj_PostingKeys p | None => posts st r id k end) ->
  (doc_Database doc = db -> doc_Collection doc = collection ->
     exists i ref, matches !! i = Some m /\ refs !! i = Some ref /\ ref_Generation ref = g /\ match_Template m = t) ->
  tracks st [doc] st' db collection t g.
Proof.
  intros Eid Hlen Ep%event_projections_ok Hnd Hp Hm id k; [|done]. rewrite Hp. unfold latest. cbn [List.filter].
  assert (Hin : forall p, p ∈ ps -> exists t' gen, proj_Index p = IndexRef (doc_Database doc) (doc_Collection doc) (Fingerprint t') gen /\ proj_DocumentID p = docid).
  { intros p (i & Hi)%list_elem_of_lookup. apply (Forall2_lookup_r _ _ _ _ _ Ep) in Hi as (mr & _ & [H1 H2]%Build_identity).
    rewrite Eid in H2. injection H2 as H2. by eexists _, _. }
  unfold has_identity. rewrite Eid. case_bool_decide as Hdb; cbn [andb].
  2: { rewrite replacement_for_none; [done|]. intros p Hps Hi _. destruct (Hin p Hps) as (t' & gen & E & _). apply Hdb. rewrite E in Hi. by injection Hi. }
  destruct (String.eqb_spec docid id) as [<-|Hne].
  2: { rewrite replacement_for_none; [done|]. intros p Hps _ Hi. destruct (Hin p Hps) as (t' & gen & _ & E). congruence. }
  destruct Hdb as [Edb Ecoll]. destruct (Hm Edb Ecoll) as (i & ref & H1 & H2 & H3 & H4).
  destruct (Forall2_lookup_l _ _ _ i (m, ref) Ep) as (p & Hi & HB); [by rewrite lookup_zip_with, H1, H2|].
  cbn [fst snd] in HB. rewrite H3, H4 in HB. pose proof (Build_identity _ _ _ _ _ HB) as [EI EID].
  rewrite Eid in EID. injection EID as ->. rewrite Edb, Ecoll in EI. rewrite <- EI, replacement_for_elem; [|done|by eapply list_elem_of_lookup_2].
  cbn. unfold keys_of. rewrite EI. cbn [ref_Generation]. rewrite HB. naive_solver.
Qed.

Definition event_docs (evt : StoreChangeEvent) : list StoredDoc := match evt_FullDocument evt with Some doc => [doc] | None => [] end.

(** A template whose generation is published for a collection. *)
Record serves st (db collection : string) (t : Template) (generation : string) : Prop := {
  sv_live : ix_IsDatabaseRetired st db = Ok false;
  sv_template : t ∈ templates_for db;
  sv_match : is_Some (match_template (split slash collection) t);
  sv_generation : exists g, ix_ReadGeneration st db collection (Fingerprint t) = Ok (Some g) /\ gen_ID g = generation;
}.
Lemma serves_same st st' db collection t g :
  ix_IsDatabaseRetired st' db = ix_IsDatabaseRetired st db ->
  (forall c f, ix_ReadGeneration st' db c f = ix_ReadGeneration st db c f) -> serves st db collection t g -> serves st' db collection t g.
Proof. intros H1 H2 [? ? ? (g' & ? & ?)]. split; [by rewrite H1|done|done|]. exists g'. by rewrite H2. Qed.

(** What an application that succeeds leaves: the document of the event is in place
    under every template, the progress is noted with it. *)
Lemma ApplyEvent_ok s evt progress now c1 c2 c3 s' :
  ix_ok (sv_store s) -> apply s (Some evt) progress now c1 c2 c3 = (s', None) ->
  ix_ok (sv_store s') /\ (forall db c f, ix_ReadGeneration (sv_store s') db c f = ix_ReadGeneration (sv_store s) db c f) /\
  (forall db, ix_IsDatabaseRetired (sv_store s') db = ix_IsDatabaseRetired (sv_store s) db) /\ sv_life s' = sv_life s /\
  (forall p, ix_LoadProgress (sv_store s) = Ok p -> ix_LoadProgress (sv_store s') = Ok (if String.eqb progress "" then p else progress)) /\
  sv_progress s' = (if String.eqb progress "" then sv_progress s else progress) /\
  forall db collection t g, serves (sv_store s) db collection t g -> tracks (sv_store s) (event_docs evt) (sv_store s') db collection t g.
Proof.
  intros Hok Ha. unfold ApplyEvent in Ha. destruct c1; [done|]. destruct c2; [done|]. unfold event_docs.
  assert (Hnil : forall progress s', commitProjection s [] progress now = (s', None) -> forall r id k, posts (sv_store s') r id k <-> posts (sv_store s) r id k).
  { intros pr s2 Hc. by destruct (commitProjection_ok _ _ _ _ _ _ Hok Hc) as (_ & _ & _ & _ & _ & Hp & _). }
  destruct (evt_FullDocument evt) as [doc|].
  2: { case_bool_decide; [|done]. pose proof (commitProjection_ok _ _ _ _ _ _ Hok Ha) as (? & ? & ? & ? & _ & _ & ? & ?).
       split_and!; try done. intros. apply tracks_nothing. intros. by eapply Hnil. }
  destruct (negb _); [done|]. destruct (ix_IsDatabaseRetired _ (doc_Database doc)) as [[]|] eqn:Er; [| |done].
  { pose proof (commitProjection_ok _ _ _ _ _ _ Hok Ha) as (? & ? & ? & ? & _ & _ & ? & ?).
    split_and!; try done. intros db c t g [Hl _ _ _] id k. unfold latest, has_identity. cbn [List.filter].
    case_bool_decide as Hdb; cbn [andb]; [destruct Hdb as [<- _]; congruence|by eapply Hnil]. }
  destruct (LogicalDocumentID doc) as [docid|] eqn:Eid; [|done].
  destruct (event_refs _ _ _) as [refs|] eqn:Ere; [|done]. destruct (event_projections _ _ _) as [ps|] eqn:Ep; [|by unfold failEvent in Ha; destruct (fail_refs _ _ _)].
  destruct c3; [done|]. destruct (commitProjection s ps progress now) as [s1 [e|]] eqn:Ec; [by unfold failEvent in Ha; destruct (fail_refs _ _ _)|].
  injection Ha as <-. destruct (commitProjection_ok _ _ _ _ _ _ Hok Ec) as (? & ? & ? & ? & Hnd & Hp & ? & ?). split_and!; try done.
  intros db c t g [_ Ht [m Hm] (g' & Hg & <-)]. apply event_refs_ok in Ere.
  eapply (replaced_tracks _ _ _ _ _ _ _ _ _ _ m); [exact Eid|symmetry; by eapply Forall2_length|exact Ep|exact Hnd|exact Hp|].
  intros Edb Ecoll. assert (m ∈ MatchTemplates (doc_Collection doc) (templates_for (doc_Database doc))) as (i & Hi)%list_elem_of_lookup
    by (apply MatchTemplates_elem; exists t; by rewrite Edb, Ecoll).
  destruct (Forall2_lookup_l _ _ _ _ _ Ere Hi) as (ref & Href & g1 & Hg1 & _ & _ & ->). pose proof (match_template_of _ _ _ Hm) as Emt.
  rewrite Edb, Ecoll, Emt in Hg1. exists i. eexists. split_and!; [exact Hi|exact Href| |exact Emt]. cbn. congruence.
Qed.

(** An event that fails changes no posting, no progress and, before the generations
    of the event are withdrawn, nothing else. *)
Lemma fail_refs_ok st refs text st' es : ix_ok st -> fail_refs st refs text = (st', es) ->
  ix_ok st' /\ (forall r doc k, posts st' r doc k <-> posts st r doc k) /\ ix_LoadProgress st' = ix_LoadProgress st /\
  (forall r, withdrawn_by (ix_ReadGeneration st) r -> withdrawn_by (ix_ReadGeneration st') r) /\
  (es = [] -> forall r, r ∈ refs -> withdrawn_by (ix_ReadGeneration st') r).
Proof.
  revert st es. induction refs as [|ref refs IH]; intros st es Hok; cbn [fail_refs].
  { intros [= <- <-]. split_and!; try done. intros _ r ?%elem_of_nil. done. }
  destruct (ix_SetFailure st ref text) as [st1 e1] eqn:E1. destruct (fail_refs st1 refs text) as [st2 es2] eqn:E2.
  intros [= <- <-]. destruct (ix_SetFailure_law _ _ _ _ _ Hok E1) as (Hok1 & Hp1 & Hl1 & Hm1 & Hw1).
  destruct (IH _ _ Hok1 E2) as (Hok2 & Hp2 & Hl2 & Hm2 & Hw2). split_and!; [done| |congruence|auto|].
  - intros r doc k. by rewrite Hp2.
  - destruct e1; [done|]. intros -> r [->|Hr]%elem_of_cons; [by apply Hm2, Hw1|by apply Hw2].
Qed.

(** An event that is refused: no posting and no progress changes; when its projection or
    the commit failed, every generation it would have written is withdrawn, or the
    error tells that the withdrawal failed too. *)
Lemma failEvent_ok s refs cause s' e : ix_ok (sv_store s) -> failEvent error_text s refs cause = (s', e) ->
  ix_ok (sv_store s') /\ (forall r id k, posts (sv_store s') r id k <-> posts (sv_store s) r id k) /\
  ix_LoadProgress (sv_store s') = ix_LoadProgress (sv_store s) /\ sv_progress s' = sv_progress s /\
  ((exists es, e = Some (SvcJoined cause es)) \/ e = Some cause /\ forall r, r ∈ refs -> withdrawn_by (ix_ReadGeneration (sv_store s')) r).
Proof.
  intros Hok. unfold failEvent. destruct (fail_refs _ _ _) as [st es] eqn:E. intros [= <- <-].
  destruct (fail_refs_ok _ _ _ _ _ Hok E) as (? & ? & ? & _ & Hw). cbn. split_and!; try done.
  destruct es; [right|left]; naive_solver.
Qed.

(** A refused event leaves the postings and the progress alone, so that it is delivered
    again; one whose projection cannot be built withdraws the generations of its
    collection, which queries then refuse. *)
Theorem ApplyEvent_refused s evt progress now c1 c2 c3 s' e :
  ix_ok (sv_store s) -> apply s (Some evt) progress now c1 c2 c3 = (s', Some e) ->
  ix_ok (sv_store s') /\ (forall r id k, posts (sv_store s') r id k <-> posts (sv_store s) r id k) /\
  ix_LoadProgress (sv_store s') = ix_LoadProgress (sv_store s) /\ sv_progress s' = sv_progress s /\
  forall pe doc t generation, e = SvcProjection pe -> evt_FullDocument evt = Some doc ->
    serves (sv_store s) (doc_Database doc) (doc_Collection doc) t generation ->
    withdrawn_by (ix_ReadGeneration (sv_store s')) (IndexRef (doc_Database doc) (doc_Collection doc) (Fingerprint t) generation).
Proof.
  intros Hok Ha. unfold ApplyEvent in Ha.
  assert (Hsame : forall e', (s, Some e') = (s', Some e) -> (forall pe, e' <> SvcProjection pe) -> ix_ok (sv_store s') /\ (forall r id k, posts (sv_store s') r id k <-> posts (sv_store s) r id k) /\
    ix_LoadProgress (sv_store s') = ix_LoadProgress (sv_store s) /\ sv_progress s' = sv_progress s /\ forall pe, e <> SvcProjection pe).
  { intros e' [= <- <-] Hn. by split_and!. }
  destruct c1; [naive_solver|]. destruct c2; [naive_solver|].
  assert (Hcommit : forall ps s1 e1, commitProjection s ps progress now = (s1, Some e1) -> ix_ok (sv_store s1) /\ (forall r id k, posts (sv_store s1) r id k <-> posts (sv_store s) r id k) /\
    ix_LoadProgress (sv_store s1) = ix_LoadProgress (sv_store s) /\ sv_progress s1 = sv_progress s /\ forall pe, e1 <> SvcProjection pe).
  { intros ps s1 e1 Hc. pose proof (commitProjection_ok _ _ _ _ _ _ Hok Hc) as (? & _ & _ & _ & ? & ? & ?). split_and!; try done.
    unfold commitProjection in Hc. destruct (ix_ApplyDocumentProjection _ _ _) as [? []]; [|done]. by injection Hc as _ <-. }
  destruct (evt_FullDocument evt) as [doc|]; [|case_bool_decide; naive_solver].
  destruct (negb _); [naive_solver|]. destruct (ix_IsDatabaseRetired _ (doc_Database doc)) as [[]|]; [naive_solver| |naive_solver].
  destruct (LogicalDocumentID doc) as [docid|]; [|naive_solver].
  destruct (event_refs _ _ _) as [refs|e1] eqn:Ere; [|pose proof (event_refs_error _ _ _ _ Ere); naive_solver].
  destruct (event_projections _ _ _) as [ps|pe] eqn:Ep.
  - destruct c3; [naive_solver|]. destruct (commitProjection s ps progress now) as [s1 [e1|]] eqn:Ec; [|done].
    destruct (Hcommit _ _ _ Ec) as (Hok1 & Hp1 & Hl1 & Hpr1 & Hn1).
    apply failEvent_ok in Ha as (Hok2 & Hp2 & Hl2 & Hpr2 & He); [|done].
    split_and!; [done|intros; by rewrite Hp2|congruence|congruence|]. intros pe doc' t g ->. destruct He as [(es & He)|[He _]]; injection He as He; [discriminate He|]. by destruct (Hn1 pe).
  - apply failEvent_ok in Ha as (Hok2 & Hp2 & Hl2 & Hpr2 & He); [|done]. split_and!; try done.
    intros pe' doc' t g -> [= <-] [_ Ht [m Hm] (g' & Hg & <-)]. destruct He as [(es & [=])|[_ Hw]]. apply event_refs_ok in Ere.
    assert (m ∈ MatchTemplates (doc_Collection doc) (templates_for (doc_Database doc))) as (i & Hi)%list_elem_of_lookup by (apply MatchTemplates_elem; by exists t).
    destruct (Forall2_lookup_l _ _ _ _ _ Ere Hi) as (ref & Href & g1 & Hg1 & _ & _ & ->). rewrite (match_template_of _ _ _ Hm) in *.
    rewrite Hg in Hg1. injection Hg1 as ->. apply Hw. by eapply list_elem_of_lookup_2.
Qed.

(** ** The loop *)

(** How a store moves on while documents are applied, seen from the databases
    outside [gone]. *)
Record evolves (gone : list string) st (docs : list StoredDoc) st' : Prop := {
  ev_ok : ix_ok st';
  ev_generation : forall db c f, db ∉ gone -> ix_ReadGeneration st' db c f = ix_ReadGeneration st db c f;
  ev_retired : forall db, db ∉ gone -> ix_IsDatabaseRetired st' db = ix_IsDatabaseRetired st db;
  ev_tracks : forall db c t g, db ∉ gone -> serves st db c t g -> tracks st docs st' db c t g;
}.
Lemma evolves_refl st : ix_ok st -> evolves [] st [] st.
Proof. intros H. split; try done. Qed.
Lemma evolves_trans g1 g2 st st1 st2 d1 d2 : evolves g1 st d1 st1 -> evolves g2 st1 d2 st2 -> evolves (g1 ++ g2) st (d1 ++ d2) st2.
Proof.
  intros [_ H1 H2 H3] [Hok K1 K2 K3]. split; [done|..].
  - intros db c f [??]%not_elem_of_app. by rewrite K1, H1.
  - intros db [??]%not_elem_of_app. by rewrite K2, H2.
  - intros db c t g [??]%not_elem_of_app Hs. eapply tracks_app; [by apply H3|]. apply K3; [done|].
    eapply serves_same; [| |exact Hs]; [by apply H2|intros; by apply H1].
Qed.
Lemma flush_evolves st st' e : ix_ok st -> ix_Flush st = (st', e) -> evolves [] st [] st' /\ ix_LoadProgress st' = ix_LoadProgress st.
Proof.
  intros Hok Hf. destruct (ix_Flush_law _ _ _ Hok Hf) as (? & ? & ? & _ & Hp & ?). split; [|done]. split; auto.
  intros. apply tracks_nothing. intros. apply Hp.
Qed.

(** The change a message brings, and the progress after it. *)
Definition message_change (i : loop_input) : option (StoreChangeEvent * string) :=
  match in_message i with
  | Some (Some evt) =>
      match pe_Error evt, pe_Ready evt, pe_Change evt with None, false, Some change => Some (change, pe_Progress evt) | _, _, _ => None end
  | _ => None
  end.
Definition message_docs (i : loop_input) : list StoredDoc := match message_change i with Some (change, _) => event_docs change | None => [] end.
Definition message_progress (p : string) (i : loop_input) : string :=
  match message_change i with Some (_, q) => if String.eqb q "" then p else q | None => p end.
(** The barrier of the puller: everything up to [p] was sent. *)
Definition is_barrier (p : string) (i : loop_input) : Prop :=
  exists evt, in_message i = Some (Some evt) /\ pe_Error evt = None /\ pe_Ready evt = true /\ pe_Progress evt = p.

Lemma reconnect_loop_keeps verified fuel s retries cause attempts s' retries' live :
  reconnect_loop verified fuel s retries cause attempts = (s', retries', live) ->
  sv_store s' = sv_store s /\ sv_progress s' = sv_progress s /\ (verified = true -> lf_ready (sv_life s) = false -> lf_ready (sv_life s') = false).
Proof.
  revert s retries cause. induction fuel as [|fuel IH]; intros s retries cause; cbn [reconnect_loop]; [by intros [= <- _ _]|].
  destruct (retries <? 10); [|by intros [= <- _ _]]. destruct (attempts fuel) as [| |e temporary canceled].
  - by intros [= <- _ _].
  - intros [= <- _ _]. by destruct verified.
  - destruct verified; cbn [negb]; [|by intros [= <- _ _]]. destruct canceled; [by intros [= <- _ _]|].
    destruct temporary; cbn [negb]; [|by intros [= <- _ _]]. intros H. apply IH in H as (-> & -> & H). split_and!; try done. intros _ _. by apply H.
Qed.
Lemma reconnect_keeps verified s retries cause attempts s' retries' :
  ix_ok (sv_store s) -> ix_LoadProgress (sv_store s) = Ok (sv_progress s) ->
  reconnect verified s retries cause attempts = (s', retries', true) ->
  evolves [] (sv_store s) [] (sv_store s') /\ ix_LoadProgress (sv_store s') = Ok (sv_progress s') /\ sv_progress s' = sv_progress s /\
  (verified = true -> lf_ready (sv_life s') = false).
Proof.
  intros Hok Hl. unfold reconnect, reconnect_begin. cbn [sv_store set_retrying set_readiness set_life setReadyLocked].
  destruct (ix_Flush (sv_store s)) as [st [e|]] eqn:Ef; [done|]. destruct (flush_evolves _ _ _ Hok Ef) as [He Hp].
  cbn [sv_store set_store]. rewrite Hp, Hl. intros H. apply reconnect_loop_keeps in H as (-> & -> & H). cbn.
  rewrite Hp, Hl. split_and!; try done. intros Hv. by apply H.
Qed.

Lemma loop_step_live verified s retries i s' retries' :
  ix_ok (sv_store s) -> ix_LoadProgress (sv_store s) = Ok (sv_progress s) ->
  loop_step templates dbTemplates error_text verified s retries i = (s', retries', true) ->
  evolves [] (sv_store s) (message_docs i) (sv_store s') /\ ix_LoadProgress (sv_store s') = Ok (sv_progress s') /\
  sv_progress s' = message_progress (sv_progress s) i /\
  (verified = true -> lf_ready (sv_life s') = true -> lf_ready (sv_life s) = true \/ is_barrier (sv_progress s) i).
Proof.
  intros Hok Hl. unfold loop_step, handle_message, message_docs, message_progress, message_change, is_barrier.
  assert (Hre : forall cause, match reconnect verified s retries cause (in_attempts i) with (s, r, true) => (s, r, true) | (s, r, false) => (loop_exit s (in_ctx i 5), r, false) end = (s', retries', true) ->
    evolves [] (sv_store s) [] (sv_store s') /\ ix_LoadProgress (sv_store s') = Ok (sv_progress s') /\ sv_progress s' = sv_progress s /\ (verified = true -> lf_ready (sv_life s') = false)).
  { intros cause. destruct (reconnect _ _ _ _ _) as [[s1 r1] []] eqn:E; [|done]. intros [= <- <-]. by eapply reconnect_keeps. }
  destruct (in_ctx i 0); [done|]. destruct (in_message i) as [[evt|]|]; [|done|].
  2: { intros H%Hre. destruct H as (? & ? & ? & H). split_and!; try done. intros Hv. by rewrite H. }
  destruct (pe_Error evt) as [e|] eqn:Ee.
  { destruct (_ || _); [done|]. destruct (pe_Retryable evt); [|done]. intros H%Hre. destruct H as (? & ? & ? & H). split_and!; try done. intros Hv. by rewrite H. }
  destruct (pe_Ready evt) eqn:Er.
  - destruct (_ || _); [done|]. destruct (String.eqb_spec (sv_progress s) (pe_Progress evt)) as [Ep|]; cbn [negb]; [|done].
    destruct (ix_Flush (sv_store s)) as [st [e|]] eqn:Ef; [done|]. destruct (flush_evolves _ _ _ Hok Ef) as [He Hp].
    destruct (in_ctx i 4); [done|]. intros [= <- <-]. cbn. rewrite Hp, Hl. split_and!; try done. intros _ _. right. by exists evt.
  - destruct (pe_Change evt) as [change|].
    2: { intros [= <- <-]. split_and!; auto using evolves_refl. }
    destruct (ApplyEvent _ _ _ _ _ _ _ _ _ _) as [s1 [e|]] eqn:Ea; [done|]. intros [= <- <-].
    destruct (ApplyEvent_ok _ _ _ _ _ _ _ _ Hok Ea) as (? & ? & ? & El & HL & Hp & Ht). split_and!; [by split; auto| |done|rewrite El; auto].
    rewrite (HL _ Hl), Hp. by destruct (String.eqb (pe_Progress evt) "").
Qed.

Definition input_docs (i : svc_input) : list StoredDoc := match i with InMessage i => message_docs i | _ => [] end.
Definition input_progress (p : string) (i : svc_input) : string := match i with InMessage i => message_progress p i | _ => p end.
Definition input_gone (i : svc_input) : list string := match i with InInvalidate _ db => [db] | _ => [] end.
(** The barrier that was met when the progress was the one it names. *)
Definition barrier_met (p : string) (inputs : list svc_input) : Prop :=
  exists pre b post, inputs = pre ++ InMessage b :: post /\ is_barrier (foldl input_progress p pre) b.

Lemma svc_step_live verified s retries live i s' retries' :
  ix_ok (sv_store s) -> ix_LoadProgress (sv_store s) = Ok (sv_progress s) ->
  svc_step templates dbTemplates error_text verified (s, retries, live) i = (s', retries', true) ->
  live = true /\ evolves (input_gone i) (sv_store s) (input_docs i) (sv_store s') /\ ix_LoadProgress (sv_store s') = Ok (sv_progress s') /\
  sv_progress s' = input_progress (sv_progress s) i /\
  (verified = true -> lf_ready (sv_life s') = true -> lf_ready (sv_life s) = true \/ exists b, i = InMessage b /\ is_barrier (sv_progress s) b).
Proof.
  intros Hok Hl. destruct i as [i|ctx db|]; cbn [svc_step].
  - destruct live; [|done]. destruct (lf_closed _); [done|]. intros H. apply loop_step_live in H as (? & ? & ? & Hr); [|done..].
    split_and!; try done. intros Hv Hy. destruct (Hr Hv Hy); [by left|right; by eexists].
  - unfold InvalidateDatabase. destruct ctx.
    { intros [= <- _ ->]. split_and!; auto. split; intros; try done. }
    destruct (ix_DeleteDatabase _ db) as [st e] eqn:Ed. intros [= <- _ ->]. cbn [sv_store set_store fst].
    destruct (ix_Delete_law _ _ _ _ Hok Ed) as (Hok' & Hp & Ho). split_and!; auto; [|by rewrite Hp].
    assert (Hne : forall db', db' ∉ [db] -> db' <> db) by set_solver.
    split; [done|intros db' c f H; by apply Ho, Hne|intros db' H; by apply Ho, Hne|].
    intros db' c t g H _. apply tracks_nothing. intros r id k Er. destruct (Ho db') as (_ & _ & H3); [by apply Hne|]. by apply H3.
  - intros [= <- _ ->]. cbn. split_and!; [done|by apply evolves_refl|done|done|done].
Qed.

Lemma run_live verified s retries inputs s' retries' :
  ix_ok (sv_store s) -> ix_LoadProgress (sv_store s) = Ok (sv_progress s) ->
  foldl (svc_step templates dbTemplates error_text verified) (s, retries, true) inputs = (s', retries', true) ->
  evolves (concat (map input_gone inputs)) (sv_store s) (concat (map input_docs inputs)) (sv_store s') /\
  ix_LoadProgress (sv_store s') = Ok (sv_progress s') /\ sv_progress s' = foldl input_progress (sv_progress s) inputs /\
  (verified = true -> lf_ready (sv_life s) = false -> lf_ready (sv_life s') = true -> barrier_met (sv_progress s) inputs).
Proof.
  intros Hok Hl. revert s' retries'. induction inputs as [|i inputs IH] using rev_ind; intros s' retries'.
  { intros [= <- <-]. split_and!; [by apply evolves_refl|done|done|]. intros _ Hn Hy. congruence. }
  rewrite !foldl_app. cbn [foldl]. destruct (foldl _ _ inputs) as [[s1 r1] live] eqn:E. intros H.
  assert (Hlive : live = true).
  { destruct i as [i|ctx db|]; cbn in H; [destruct live; [done|by injection H]|by injection H|by injection H]. }
  subst live. destruct (IH _ _ eq_refl) as (He & Hl1 & Hp1 & Hr1). apply svc_step_live in H as (_ & He2 & Hl2 & Hp2 & Hr2); [|apply He|done].
  rewrite !map_app, !concat_app. cbn [map concat]. rewrite !app_nil_r. split_and!; [by eapply evolves_trans|done|by rewrite Hp2, Hp1|].
  intros Hv H0 H. destruct (Hr2 Hv H) as [H1|(b & -> & Hb)].
  - destruct (Hr1 Hv H0 H1) as (pre & b & post & -> & Hb). exists pre, b, (post ++ [i]). by rewrite <- app_assoc.
  - exists inputs, b, []. split; [done|]. by rewrite <- Hp1.
Qed.

(** A healthy report: the service runs, its subscription has caught up without an error,
    and no generation in use is failed or unfinished. *)
Theorem Health_ok p s ctx indexes lastError : Health error_text p s ctx = Ok (HealthOK, indexes, lastError) ->
  lf_running (sv_life s) = true /\ (p <> NoPuller -> lf_ready (sv_life s) = true) /\ lf_lifecycleErr (sv_life s) = None /\
  exists refs, ix_ListQueryIndexes (sv_store s) = Ok refs /\
    forall r, r ∈ refs -> exists g, ix_ReadGeneration (sv_store s) (ref_Database r) (ref_Collection r) (ref_TemplateFingerprint r) = Ok (Some g) /\
      (gen_ID g = ref_Generation r -> gen_Ready g = true /\ gen_Failure g = ""%string).
Proof.
  assert (Hidx : forall refs status m m' ctx, index_health ctx (sv_store s) refs status m = Ok (HealthOK, m') -> status = HealthOK /\
    forall r, r ∈ refs -> exists g, ix_ReadGeneration (sv_store s) (ref_Database r) (ref_Collection r) (ref_TemplateFingerprint r) = Ok (Some g) /\
      (gen_ID g = ref_Generation r -> gen_Ready g = true /\ gen_Failure g = ""%string)).
  { clear. intros refs. induction refs as [|r refs IH]; intros status m m' ctx; cbn [index_health]; [intros [= -> _]; split; [done|by intros r ?%elem_of_nil]|].
    destruct (ctx (length refs)); [done|]. intros (found & Hf%map_err_ok & H)%bind_ok. destruct found as [g|].
    2: { apply IH in H as [H _]. by destruct status. }
    assert (Hg : forall m2 status2, (gen_ID g = ref_Generation r -> gen_Ready g = true /\ gen_Failure g = ""%string) ->
      index_health ctx (sv_store s) refs status2 m2 = Ok (HealthOK, m') -> status2 = HealthOK /\ forall r', r' ∈ r :: refs -> exists g,
        ix_ReadGeneration (sv_store s) (ref_Database r') (ref_Collection r') (ref_TemplateFingerprint r') = Ok (Some g) /\ (gen_ID g = ref_Generation r' -> gen_Ready g = true /\ gen_Failure g = ""%string)).
    { intros m2 st2 Hr Hi. apply IH in Hi as [-> Hi]. split; [done|]. intros r' [->|Hr']%elem_of_cons; [by exists g|by apply Hi]. }
    destruct (String.eqb_spec (gen_ID g) (ref_Generation r)); cbn [negb] in H; [|by apply Hg in H].
    destruct (String.eqb_spec (gen_Failure g) ""); cbn [negb] in H; [|apply IH in H as [H _]; done].
    destruct (gen_Ready g) eqn:Er; [by apply Hg in H|]. apply IH in H as [H _]. by destruct status. }
  unfold Health. intros (refs & Hr%map_err_ok & (r & Hi & H)%bind_ok)%bind_ok. destruct r as [status m]. injection H as -> _ _.
  apply Hidx in Hi as [Hst Hall]. destruct (_ || _) eqn:E; [done|]. apply orb_false_iff in E as [[E1%negb_false_iff E2]%orb_false_iff E3%bool_decide_eq_false].
  split_and!; [done| | |by exists refs].
  - intros Hp. destruct p; [done|by apply negb_false_iff in E2..].
  - by apply eq_None_not_Some.
Qed.
End Facts.

(** * The in-memory store behind the indexer service

    internal/indexer/mem_store as an [IndexWriter]. *)
Local Close Scope Z_scope.

Section MemWriter.
Context `{BT : BTree} `{SS : SliceSort}.
Implicit Types s : Store (BT := BT).

(** A call of the store that fails leaves it. *)
Definition attempt s (r : res store_error (Store (BT := BT))) : Store (BT := BT) * option store_error :=
  match r with Ok s' => (s', None) | Err e => (s, Some e) end.
Definition posted s (r : QueryIndexRef) (doc : string) (k : bytes) : Prop := BtreeItem k doc ∈ postings s r.
Definition failure_marked s (r : QueryIndexRef) : Prop :=
  exists l, st_generations s !! generationIdentity r = Some l /\ gen_ID l = ref_Generation r /\ gen_Failure l <> ""%string.
Definition reads s (db c f : string) : res store_error (option Generation) := Ok (ReadGeneration s db c f).

Lemma applied_same s ps : st_generations (foldl apply_projection s ps) = st_generations s /\ st_catalogs (foldl apply_projection s ps) = st_catalogs s /\
  st_inventoryPublished (foldl apply_projection s ps) = st_inventoryPublished s /\ st_retired (foldl apply_projection s ps) = st_retired s /\
  st_progress (foldl apply_projection s ps) = st_progress s.
Proof. revert s. induction ps as [|p ps IH]; intros s; cbn [foldl]; [done|]. by destruct (IH (apply_projection s p)) as (-> & -> & -> & -> & ->). Qed.

Lemma mem_Apply_law s ps progress s' e : partitions_inv s -> attempt s (ApplyDocumentProjection s ps progress) = (s', e) ->
  partitions_inv s' /\ (forall db c f, reads s' db c f = reads s db c f) /\ (forall db, IsDatabaseRetired s' db = IsDatabaseRetired s db) /\
  (forall r, failure_marked s' r <-> failure_marked s r) /\
  match e with
  | None => NoDup (map (fun p => (proj_Index p, proj_DocumentID p)) ps) /\
      (forall r doc k, posted s' r doc k <-> match replacement_for ps r doc with Some p => k ∈ proj_PostingKeys p | None => posted s r doc k end) /\
      LoadProgress s' = (if String.eqb progress "" then LoadProgress s else progress)
  | Some _ => s' = s
  end.
Proof.
  intros Hinv. unfold ApplyDocumentProjection. destruct (OwnProjections ps) as [qs|] eqn:Eo; cbn; [|by intros [= <- <-]].
  intros [= <- <-]. apply own_projections_spec in Eo as (Hown & Hnd & _). destruct (apply_projections_spec s qs Hinv Hnd) as [H1 H2].
  destruct (applied_same s qs) as (E1 & E2 & E3 & E4 & E5).
  assert (Hkeys : map (fun p => (proj_Index p, proj_DocumentID p)) ps = map (fun p => (proj_Index p, proj_DocumentID p)) qs).
  { clear -Hown. induction Hown as [|p q ps qs Hpq _ IH]; cbn; [done|]. destruct Hpq as (-> & -> & _). by rewrite IH. }
  split_and!.
  - exact H1.
  - intros db c f. unfold reads, ReadGeneration. cbn. by rewrite E1, E2, E3, E4.
  - intros db. unfold IsDatabaseRetired. cbn. by rewrite E4.
  - intros r. unfold failure_marked. cbn. by rewrite E1.
  - by rewrite Hkeys.
  - intros r doc k. unfold posted. change (postings (note_progress _ progress) r) with (postings (foldl apply_projection s qs) r).
    rewrite (H2 r (BtreeItem k doc)). cbn [item_id item_key]. pose proof (replacement_owned ps qs r doc Hown) as Ho.
    destruct (replacement_for ps r doc), (replacement_for qs r doc); naive_solver.
  - unfold LoadProgress. cbn. by rewrite E5.
Qed.

Lemma reads_at s r : reads s (ref_Database r) (ref_Collection r) (ref_TemplateFingerprint r) =
  Ok (if bool_decide (ref_Database r ∈ st_retired s) then None
      else match st_catalogs s !! ref_Database r with
           | None => if st_inventoryPublished s then None else st_generations s !! generationIdentity r
           | Some c => ResolveGeneration (Some c) (ref_TemplateFingerprint r) (st_generations s !! generationIdentity r)
           end).
Proof. unfold reads, ReadGeneration, generationIdentity. cbn [ResolveGeneration]. done. Qed.

(** A generation that was withdrawn stays so when another one fails: the failure of
    an older generation is not recorded over that of the one in the catalog. *)
Lemma mem_SetFailure_law s r failure s' e : partitions_inv s -> attempt s (SetFailure s r failure) = (s', e) ->
  partitions_inv s' /\ (forall r doc k, posted s' r doc k <-> posted s r doc k) /\ LoadProgress s' = LoadProgress s /\
  (forall r', withdrawn_by (reads s) r' -> withdrawn_by (reads s') r') /\ (e = None -> withdrawn_by (reads s') r).
Proof.
  intros Hinv. destruct (SetFailure s r failure) as [s1|e1] eqn:Es; cbn [attempt]; intros [= <- <-]; [|by split_and!].
  assert (Hw : withdrawn_by (reads s1) r).
  { intros g Hg Hid. destruct (generation_withdrawn s r failure s1 g) as [? _]; [by left| |done|done]. by injection Hg. }
  pose proof Es as Es'. unfold SetFailure in Es. destruct (_ || _) eqn:E0; [done|]. apply orb_false_iff in E0 as [_ E0%String.eqb_neq].
  destruct (catalog_covers s r false) eqn:Ec; injection Es as <-; [by split_and!|].
  split_and!; [|intros r' doc k|done| |done].
  - intros r1 idx Hl. by apply (insert_partition_inv s _ r Hinv eq_refl r1 idx Hl).
  - unfold posted, postings, partition_or_new. cbn. destruct (decide (r = r')) as [<-|]; [by rewrite lookup_insert_eq|by rewrite lookup_insert_ne].
  - intros r' Hr' g Hg Hid. revert Hg. rewrite reads_at. cbn [st_retired st_catalogs st_inventoryPublished st_generations set_partitions set_generations].
    destruct (decide (generationIdentity r' = generationIdentity r)) as [Ek|Hne].
    + rewrite Ek, lookup_insert_eq. injection Ek as Edb Ecoll Efp.
      destruct (bool_decide _); [done|]. rewrite Edb. unfold catalog_covers in Ec. destruct (st_catalogs s !! ref_Database r) as [c|]; [|by destruct (st_inventoryPublished s); intros [= <-]].
      cbn [ResolveGeneration]. rewrite Efp. case_bool_decide as Hf; cbn [negb]; [|done]. intros [= <-]. cbn [gen_Ready gen_ID gen_Failure].
      destruct (String.eqb_spec (cat_Generation c) (ref_Generation r)) as [E|]; [|done].
      rewrite (proj2 (String.eqb_neq failure "") E0). cbn [negb].
      match goal with |- context [String.eqb (gen_ID ?x) (cat_Generation c)] => assert (gen_ID x = ref_Generation r) as -> end.
      { by destruct (String.eqb_spec (gen_ID (default no_generation (st_generations s !! generationIdentity r))) (ref_Generation r)). }
      by rewrite E, String.eqb_refl.
    + rewrite lookup_insert_ne by done. intros Hg. apply Hr'; [|done]. by rewrite reads_at.
Qed.

Lemma mem_Delete_law s db : partitions_inv s ->
  partitions_inv (DeleteDatabase s db) /\ LoadProgress (DeleteDatabase s db) = LoadProgress s /\
  forall db', db' <> db ->
    (forall c f, reads (DeleteDatabase s db) db' c f = reads s db' c f) /\ IsDatabaseRetired (DeleteDatabase s db) db' = IsDatabaseRetired s db' /\
    (forall r doc k, ref_Database r = db' -> posted (DeleteDatabase s db) r doc k <-> posted s r doc k).
Proof.
  intros Hinv. split_and!; [|done|].
  - intros r idx. cbn. intros [H _]%map_lookup_filter_Some. by eapply Hinv.
  - intros db' Hne.
    assert (Er : bool_decide (db' ∈ st_retired (DeleteDatabase s db)) = bool_decide (db' ∈ st_retired s)) by (apply bool_decide_ext; cbn; set_solver).
    split_and!; [|done|].
    + intros c f. unfold reads, ReadGeneration. rewrite Er. cbn. rewrite lookup_delete_ne by done.
      assert (base.filter (fun kv => gk_database kv.1 <> db) (st_generations s) !! GenKey db' c f = st_generations s !! GenKey db' c f) as ->; [|done].
      destruct (st_generations s !! GenKey db' c f) as [g|] eqn:E.
      * by apply map_lookup_filter_Some.
      * apply map_lookup_filter_None. by left.
    + intros r doc k <-. unfold posted, postings, partition_or_new. cbn.
      assert (base.filter (fun kv => ref_Database kv.1 <> db) (st_partitions s) !! r = st_partitions s !! r) as ->; [|done].
      destruct (st_partitions s !! r) as [idx|] eqn:E.
      * by apply map_lookup_filter_Some.
      * apply map_lookup_filter_None. by left.
Qed.

Lemma mem_empty_law s : ListQueryIndexes s = [] -> (forall r doc k, ~ posted s r doc k) /\ (forall r, ~ failure_marked s r).
Proof.
  unfold ListQueryIndexes. set (refs := _ ∪ _). intros E. assert (refs = ∅) as Hr.
  { apply leibniz_equiv, elements_empty_iff, Permutation_nil_r. by rewrite <- E, sort_slice_perm. }
  split.
  - intros r doc k. unfold posted, postings, partition_or_new.
    assert (st_partitions s !! r = None) as ->; [apply not_elem_of_dom; set_solver|]. cbn. rewrite tree_new_items. by intros ?%elem_of_nil.
  - intros r (l & Hl & _). assert (generation_ref (generationIdentity r) l ∈ refs) as H; [|set_solver].
    apply elem_of_union_r, elem_of_list_to_set, list_elem_of_fmap. exists (generationIdentity r, l). split; [done|by apply elem_of_map_to_list].
Qed.

Lemma owned_catalogs_elem g p dbs h cs r c : own_catalogs g p dbs h cs = Ok r -> c ∈ cs ->
  NoDup (map cat_Database cs) /\ exists owned, owned ∈ r.1 /\ OwnBootstrapCatalog c = Ok owned.
Proof.
  intros H Hc. assert (Hall : NoDup (map cat_Database cs) /\ (forall c, c ∈ cs -> cat_Database c ∉ dbs) /\ forall c, c ∈ cs -> exists owned, owned ∈ r.1 /\ OwnBootstrapCatalog c = Ok owned).
  2: { destruct Hall as (? & _ & Hx). split; [done|by apply Hx]. }
  clear c Hc. revert dbs h r H; induction cs as [|c cs IH]; intros dbs h r; cbn [own_catalogs].
  { intros _. split_and!; [constructor|by intros c ?%elem_of_nil|by intros c ?%elem_of_nil]. }
  intros (o & Ho & H)%bind_ok. destruct (_ || _); [done|]. case_bool_decide as Hin; [done|].
  apply bind_ok in H as (r' & Hr & <-%Ok_inj). destruct (IH _ _ _ Hr) as (H1 & H2 & H3). split_and!.
  - cbn. constructor; [|done]. intros (c' & E & Hc')%list_elem_of_fmap. apply (H2 c' Hc'). rewrite <- E. set_solver.
  - intros c' [->|Hc']%elem_of_cons; [done|]. specialize (H2 c' Hc'). set_solver.
  - intros c' [->|Hc']%elem_of_cons; [exists o; split; [by left|done]|]. destruct (H3 c' Hc') as (o' & ? & ?). exists o'. split; [by right|done].
Qed.
Lemma insert_catalogs_lookup (m : gmap string BootstrapCatalog) cs c : NoDup (map cat_Database cs) -> c ∈ cs ->
  foldl (fun m c => <[cat_Database c := c]> m) m cs !! cat_Database c = Some c.
Proof.
  assert (Hk : forall cs m db, db ∉ map cat_Database cs -> foldl (fun m c => <[cat_Database c := c]> m) m cs !! db = (m : gmap string BootstrapCatalog) !! db).
  { clear. induction cs as [|c cs IH]; intros m db Hdb; cbn in *; [done|]. rewrite IH by set_solver. apply lookup_insert_ne. set_solver. }
  revert m. induction cs as [|c' cs IH]; intros m Hnd; [by intros ?%elem_of_nil|]. cbn in *. apply NoDup_cons in Hnd as [Hn Hnd].
  intros [->|Hc]%elem_of_cons; [|by apply IH]. rewrite Hk by done. apply lookup_insert_eq.
Qed.

Lemma mem_Publish_law s catalogs progress s' : partitions_inv s -> PublishBootstrapCatalogs s catalogs progress = Ok s' ->
  partitions_inv s' /\ (forall r doc k, posted s' r doc k <-> posted s r doc k) /\ LoadProgress s' = progress /\
  (forall c collection fingerprint, c ∈ catalogs -> fingerprint ∈ cat_TemplateFingerprints c ->
     ~ failure_marked s (IndexRef (cat_Database c) collection fingerprint (cat_Generation c)) ->
     IsDatabaseRetired s' (cat_Database c) = false /\
     exists g, reads s' (cat_Database c) collection fingerprint = Ok (Some g) /\ gen_ID g = cat_Generation c /\ gen_Ready g = true /\ gen_Failure g = ""%string).
Proof.
  intros Hinv. unfold PublishBootstrapCatalogs. intros (owned & Ho & <-%Ok_inj)%bind_ok. split_and!; [exact Hinv|done|done|].
  intros c collection fp Hc Hfp Hm. unfold OwnBootstrapCatalogs in Ho. destruct catalogs as [|c0 cs]; [done|].
  apply bind_ok in Ho as (r & Hr & Ho). destruct (negb _); [done|]. apply Ok_inj in Ho as <-.
  destruct (owned_catalogs_elem _ _ _ _ _ _ _ Hr Hc) as (Hnd & o & Hin & Hoc). pose proof (owned_databases _ _ _ _ _ _ Hr) as Edbs.
  unfold OwnBootstrapCatalog in Hoc. destruct (_ || _); [done|]. destruct (existsb _ _); [done|]. apply Ok_inj in Hoc.
  pose proof (insert_catalogs_lookup ∅ r.1 o) as Hlook. rewrite Edbs in Hlook. specialize (Hlook Hnd Hin). rewrite <- Hoc in Hlook. cbn [cat_Database] in Hlook.
  set (catalogs := foldl _ _ _) in *.
  assert (Hret : cat_Database c ∉ st_retired s ∖ dom catalogs) by (intros [_ H]%elem_of_difference; apply H; by eapply elem_of_dom_2).
  unfold IsDatabaseRetired, reads, ReadGeneration. cbn [st_retired st_catalogs st_generations]. rewrite bool_decide_false by done. split; [done|].
  eexists. rewrite Hlook. cbn [ResolveGeneration cat_TemplateFingerprints cat_Generation]. rewrite bool_decide_true by (by apply compact_sort_elem). cbn [negb].
  split; [done|]. cbn [gen_ID gen_Ready gen_Failure]. split; [done|].
  destruct (st_generations s !! _) as [l|] eqn:El; [|done].
  destruct (String.eqb_spec (gen_ID l) (cat_Generation c)) as [E1|]; cbn [andb]; [|done].
  destruct (String.eqb_spec (gen_Failure l) "") as [|E2]; cbn [negb]; [done|]. destruct Hm. by exists l.
Qed.

(** [Flush] of the in-memory store has nothing to write. *)
#[refine] Instance mem_writer : IndexWriter := {|
  index := Store (BT := BT);
  ix_IsDatabaseRetired s db := Ok (IsDatabaseRetired s db);
  ix_ReadGeneration := reads;
  ix_ApplyDocumentProjection s ps progress := attempt s (ApplyDocumentProjection s ps progress);
  ix_SetFailure s r failure := attempt s (SetFailure s r failure);
  ix_DeleteDatabase s db := (DeleteDatabase s db, None);
  ix_LoadProgress s := Ok (LoadProgress s);
  ix_Flush s := (s, None);
  ix_ListBootstrapCatalogs s := Ok (ListBootstrapCatalogs s);
  ix_ListQueryIndexes s := Ok (ListQueryIndexes s);
  ix_PublishBootstrapCatalogs s cs progress := attempt s (PublishBootstrapCatalogs s cs progress);
  ix_ok := partitions_inv;
  posts := posted;
  marked := failure_marked;
|}.
Proof.
  - intros s ps progress s' e Hok H. destruct (mem_Apply_law _ _ _ _ _ Hok H) as (? & ? & Hr & ? & He).
    split_and!; [done|done|intros db; by rewrite Hr|done|]. destruct e; [by subst|]. destruct He as (? & ? & Hp). split_and!; [done|done|].
    intros p [= <-]. by rewrite Hp.
  - intros s r failure s' e Hok H. destruct (mem_SetFailure_law _ _ _ _ _ Hok H) as (? & ? & -> & ? & ?). done.
  - intros s db s' e Hok [= <- <-]. destruct (mem_Delete_law s db Hok) as (? & -> & H). split_and!; [done|done|].
    intros db' Hne. destruct (H db' Hne) as (? & -> & ?). done.
  - intros s s' e Hok [= <- <-]. by split_and!.
  - intros s Hok [= H]. by apply mem_empty_law.
  - intros s catalogs progress s' Hok H. destruct (PublishBootstrapCatalogs s catalogs progress) as [s1|] eqn:E; cbn in H; [|done]. injection H as <-.
    destruct (mem_Publish_law _ _ _ _ Hok E) as (? & ? & -> & Hc). split_and!; [done|done|done|]. intros c collection fp H1 H2 H3.
    destruct (Hc c collection fp H1 H2 H3) as [-> ?]. done.
Defined.
End MemWriter.
