(* ===== verification/Bootstrap.v ===== *)
(** * The bootstrap of the index: internal/indexer/bootstrap.go

    A complete rebuild while the writers of the source are quiet: the collections of
    every database are enumerated, their documents scanned and projected, and the
    catalogs published last. *)
From stdpp Require Import base list gmap strings sorting.
From Stdlib Require Import ZArith.
From S2P Require Import Prelude Value OrderKey Filter IndexStore BTree MemIndex MemStore Codec Template Projection Completeness Positions Events Admission Prog QueryPage Service ServiceFacts.
Local Open Scope Z_scope.

Record BootstrapRequest := {
  br_Databases : list string; br_hasSource : bool; br_WritesQuiesced : bool; br_ExpectedBoundary : string;
  (** what [ValidateInventory] answers, when it is given *)
  br_ValidateInventory : option (option string);
}.

(** What the puller and the context answer: the boundary, its validation at the end,
    and the readings of [ctx.Err()] before a page of collections, before a document
    and before the publication. *)
Record bootstrap_env := {
  be_boundary : res string string; be_validation : option string;
  be_ctx_page : string -> string -> option string; be_ctx_doc : string -> string -> string -> option string; be_ctx_publish : option string;
}.

Section Bootstrap.
Context `{SS : SliceSort} {IW : IndexWriter}.
Context (templates : list Template) (dbTemplates : gmap string (list Template)).
Context (batch : Z).
(** [EnumerateCollections] of a database after a name, [ScanDocuments] of a
    collection after an id. *)
Context (enumerate : string -> string -> res string (list string)) (scan : string -> string -> string -> res string SourceScanPage).
Context (env : bootstrap_env) (generation : string).

Fixpoint bootstrap_projections (doc : StoredDoc) (matches : list MatchResult) : res projection_error (list Projection) :=
  match matches with
  | [] => Ok []
  | m :: matches =>
      p ← BuildDocumentProjection doc (match_Template m) generation DefaultProjectionLimits;
      ps ← bootstrap_projections doc matches;
      Ok (p :: ps)
  end.

(** The documents of a page; the id of the last one. *)
Fixpoint bootstrap_documents (st : index) (database collection : string) (matches : list MatchResult) (after : string) (docs : list StoredDoc)
    : index * res service_error string :=
  match docs with
  | [] => (st, Ok after)
  | doc :: docs =>
      match be_ctx_doc env database collection after with
      | Some e => (st, Err (SvcContext e))
      | None =>
          match LogicalDocumentID doc with
          | Err e => (st, Err (SvcIdentity e))
          | Ok id =>
              if negb (String.eqb (doc_Database doc) database) || negb (String.eqb (doc_Collection doc) collection) || negb (string_ltb after id)
              then (st, Err (SvcBootstrap "source scan returned an out-of-scope or unordered document"))
              else match bootstrap_projections doc matches with
              | Err e => (st, Err (SvcProjection e))
              | Ok projections =>
                  match ix_ApplyDocumentProjection st projections "" with
                  | (st, Some e) => (st, Err (SvcStore e))
                  | (st, None) => bootstrap_documents st database collection matches id docs
                  end
              end
          end
      end
  end.

(** The pages of a collection; [None]: the fuel has run out. *)
Fixpoint bootstrapCollection (fuel : nat) (st : index) (database collection : string) (matches : list MatchResult) (after : string)
    : index * option (res service_error unit) :=
  match fuel with
  | O => (st, None)
  | S fuel =>
      match scan database collection after with
      | Err e => (st, Some (Err (SvcSource e)))
      | Ok page =>
          if batch <? Z.of_nat (length (ssp_Documents page)) then (st, Some (Err (SvcBootstrap "source scan exceeded its page bound")))
          else match bootstrap_documents st database collection matches after (ssp_Documents page) with
          | (st, Err e) => (st, Some (Err e))
          | (st, Ok last) =>
              if (0 <? Z.of_nat (length (ssp_Documents page))) && negb (String.eqb (ssp_NextAfter page) last)
              then (st, Some (Err (SvcBootstrap "source scan continuation does not match its last document")))
              else if ssp_Exhausted page then (st, Some (Ok tt))
              else if String.eqb last after then (st, Some (Err (SvcBootstrap "source scan did not advance")))
              else bootstrapCollection fuel st database collection matches last
          end
      end
  end.

(** The collections of a page; the last name. *)
Fixpoint bootstrap_collections (fuel : nat) (st : index) (database after : string) (collections : list string) : index * option (res service_error string) :=
  match collections with
  | [] => (st, Some (Ok after))
  | collection :: collections =>
      if negb (string_ltb after collection) then (st, Some (Err (SvcBootstrap "source collection enumeration did not advance")))
      else match MatchTemplates collection (databaseTemplates templates dbTemplates database) with
      | [] => bootstrap_collections fuel st database collection collections
      | matches =>
          match bootstrapCollection fuel st database collection matches "" with
          | (st, Some (Ok _)) => bootstrap_collections fuel st database collection collections
          | (st, Some (Err e)) => (st, Some (Err e))
          | (st, None) => (st, None)
          end
      end
  end.

(** The pages of collections of a database; [fuel'] bounds those of documents. *)
Fixpoint bootstrap_database (fuel fuel' : nat) (st : index) (database after : string) : index * option (res service_error unit) :=
  match fuel with
  | O => (st, None)
  | S fuel =>
      match be_ctx_page env database after with
      | Some e => (st, Some (Err (SvcContext e)))
      | None =>
          match enumerate database after with
          | Err e => (st, Some (Err (SvcSource e)))
          | Ok collections =>
              if batch <? Z.of_nat (length collections) then (st, Some (Err (SvcBootstrap "source enumeration exceeded its page bound")))
              else match bootstrap_collections fuel' st database after collections with
              | (st, Some (Ok last)) =>
                  if Z.of_nat (length collections) <? batch then (st, Some (Ok tt)) else bootstrap_database fuel fuel' st database last
              | (st, Some (Err e)) => (st, Some (Err e))
              | (st, None) => (st, None)
              end
          end
      end
  end.
Fixpoint bootstrap_databases (fuel fuel' : nat) (st : index) (databases : list string) : index * option (res service_error unit) :=
  match databases with
  | [] => (st, Some (Ok tt))
  | database :: databases =>
      match bootstrap_database fuel fuel' st database "" with
      | (st, Some (Ok _)) => bootstrap_databases fuel fuel' st databases
      | other => other
      end
  end.

Definition bootstrap_catalog (boundary database : string) : BootstrapCatalog :=
  {| cat_Database := database; cat_Generation := generation;
     cat_TemplateFingerprints := templateFingerprints templates dbTemplates database; cat_BootstrapProgress := boundary |}.
Definition bootstrap_catalogs (databases : list string) (boundary : string) : list BootstrapCatalog := map (bootstrap_catalog boundary) databases.

(** The checks before the scan: the databases and the boundary. *)
Definition bootstrap_checks (s : service) (request : BootstrapRequest) (loadErr : option string) : res service_error (list string * string) :=
  match loadErr with
  | Some e => Err (SvcTemplates e)
  | None =>
      let databases := compact (sort_strings (br_Databases request)) in
      match databases with
      | [] | EmptyString :: _ => Err (SvcBootstrap "bootstrap requires a complete nonempty database inventory")
      | _ =>
          if negb (forallb (fun database => bool_decide (database ∈ databases)) (requiredDatabases dbTemplates (sv_databases s)))
          then Err (SvcBootstrap "bootstrap inventory does not cover configured database")
          else
            catalogs ← map_err SvcStore (ix_ListBootstrapCatalogs (sv_store s));
            indexes ← map_err SvcStore (ix_ListQueryIndexes (sv_store s));
            match catalogs, indexes with
            | [], [] =>
                boundary ← map_err SvcPuller (be_boundary env);
                if negb (String.eqb (br_ExpectedBoundary request) "") && negb (String.eqb boundary (br_ExpectedBoundary request))
                then Err (SvcBootstrap "configured Puller does not own the maintenance capture boundary")
                else Ok (databases, boundary)
            | _, _ => Err (SvcBootstrap "index store is not empty; explicit derived-data reset required")
            end
      end
  end.

(** The publication after the scan. *)
Definition bootstrap_publish (st : index) (request : BootstrapRequest) (databases : list string) (boundary : string) : index * option service_error :=
  match ix_Flush st with
  | (st, Some e) => (st, Some (SvcStore e))
  | (st, None) =>
      match be_validation env, br_ValidateInventory request with
      | Some e, _ => (st, Some (SvcPuller e))
      | None, Some (Some e) => (st, Some (SvcSource e))
      | None, _ =>
          match be_ctx_publish env with
          | Some e => (st, Some (SvcContext e))
          | None =>
              match ix_PublishBootstrapCatalogs st (bootstrap_catalogs databases boundary) boundary with
              | (st, Some e) => (st, Some (SvcStore e))
              | (st, None) => (st, None)
              end
          end
      end
  end.

(** [stopped]: Stop was called meanwhile. The service when it has ended; [None]: the
    fuel has run out. *)
Definition Bootstrap (fuel fuel' : nat) (p : puller_kind) (s : service) (request : BootstrapRequest) (loadErr : option string) (stopped : bool)
    : service * option (res service_error unit) :=
  if negb (br_WritesQuiesced request) then (s, Some (Err (SvcBootstrap "bootstrap requires all source writers and TTL deletion to remain quiesced")))
  else if negb (br_hasSource request) then (s, Some (Err (SvcBootstrap "bootstrap requires authoritative source scanning and collection enumeration")))
  else if negb (is_verified p) then (s, Some (Err (SvcBootstrap "bootstrap requires verified native Puller boundaries")))
  else
    let l := sv_life s in
    if lf_running l || lf_bootstrapping l || lf_starting l || lf_closed l then (s, Some (Err SvcBusy))
    else
      let s := set_readiness (set_phase s false false false stopped) false (lf_retrying l) (lf_lifecycleErr l) (lf_readyChanged l) in
      match bootstrap_checks s request loadErr with
      | Err e => (s, Some (Err e))
      | Ok (databases, boundary) =>
          match bootstrap_databases fuel fuel' (sv_store s) databases with
          | (st, None) => (set_store s st, None)
          | (st, Some (Err e)) => (set_store s st, Some (Err e))
          | (st, Some (Ok _)) =>
              match bootstrap_publish st request databases boundary with
              | (st, Some e) => (set_store s st, Some (Err e))
              | (st, None) =>
                  ({| sv_store := st; sv_progress := boundary; sv_life := sv_life s; sv_databases := databases;
                      sv_eventsApplied := sv_eventsApplied s; sv_lastEventTime := sv_lastEventTime s |}, Some (Ok tt))
              end
          end
      end.
End Bootstrap.

(** * The index mirrors the source

    A bootstrap leaves the postings of exactly the documents of the source, and the
    subscription after it keeps them those of the newest versions. *)
Lemma string_ltb_trans a b c : string_ltb a b = true -> string_ltb b c = true -> string_ltb a c = true.
Proof. unfold string_ltb. rewrite !bytes_ltb_lt. apply bytes_compare_trans. Qed.
Lemma string_ltb_irrefl a : string_ltb a a = false.
Proof. unfold string_ltb. apply not_true_iff_false. rewrite bytes_ltb_lt. by rewrite (proj2 (bytes_compare_eq _ _) eq_refl). Qed.

(** The id a document is scanned under. *)
Definition id_of (doc : StoredDoc) : string := match LogicalDocumentID doc with Ok id => id | Err _ => "" end.
(** The place a listing resumes at. *)
Definition is_after (after x : string) : Prop := after = ""%string \/ string_ltb after x = true.

Lemma filter_length_lt {A} (P Q : A -> bool) l x :
  (forall y, P y = true -> Q y = true) -> x ∈ l -> Q x = true -> P x = false -> (length (List.filter P l) < length (List.filter Q l))%nat.
Proof.
  intros HPQ Hx HQ HP.
  assert (Hle : forall l', (length (List.filter P l') <= length (List.filter Q l'))%nat).
  { induction l' as [|y l' IH]; cbn; [lia|]. specialize (HPQ y). destruct (P y), (Q y); cbn; try lia; try (by discriminate HPQ). }
  induction l as [|y l IH]; [by apply elem_of_nil in Hx|]. cbn. apply elem_of_cons in Hx as [->|Hx].
  - rewrite HP, HQ. cbn. specialize (Hle l). lia.
  - specialize (IH Hx). specialize (HPQ y). destruct (P y), (Q y); cbn; try lia; by discriminate HPQ.
Qed.
Definition afterb (after x : string) : bool := String.eqb after "" || string_ltb after x.
Lemma afterb_mono after last x : string_ltb after last = true -> afterb last x = true -> afterb after x = true.
Proof.
  intros Hl [->%String.eqb_eq|H]%orb_true_iff; apply orb_true_iff; right; [by destruct after|by eapply string_ltb_trans].
Qed.
Lemma afterb_self after last : string_ltb after last = true -> afterb last last = false.
Proof. intros H. apply orb_false_iff. split; [|apply string_ltb_irrefl]. apply String.eqb_neq. intros ->. by destruct after. Qed.

Section Facts.
Context `{SS : SliceSort} {IW : IndexWriter}.
Context (templates : list Template) (dbTemplates : gmap string (list Template)) (error_text : service_error -> string).
Context (batch : Z) (enumerate : string -> string -> res string (list string)) (scan : string -> string -> string -> res string SourceScanPage).
Context (env : bootstrap_env) (generation : string).
Implicit Types (st : index) (s : service).
Abbreviation templates_for := (databaseTemplates templates dbTemplates) (only parsing).

(** ** The source

    The collections and documents while the writers are quiet, and what the
    enumeration and the scan promise of them: pages in the order of the names, each
    resuming after the last name of the one before. *)
Context (collections : string -> list string) (documents : string -> string -> list StoredDoc).
Record quiet_source : Prop := {
  qs_enumerate : forall db after cs c, enumerate db after = Ok cs -> c ∈ collections db -> is_after after c ->
    c ∈ cs \/ batch <= Z.of_nat (length cs) /\ string_ltb (default after (last cs)) c = true;
  qs_enumerated : forall db after cs c, enumerate db after = Ok cs -> c ∈ cs -> c ∈ collections db;
  qs_scan : forall db c after page doc, scan db c after = Ok page -> doc ∈ documents db c -> is_after after (id_of doc) ->
    doc ∈ ssp_Documents page \/ ssp_Exhausted page = false /\ string_ltb (ssp_NextAfter page) (id_of doc) = true;
  qs_scanned : forall db c after page doc, scan db c after = Ok page -> doc ∈ ssp_Documents page -> doc ∈ documents db c;
  qs_collection : forall db c doc, doc ∈ documents db c -> c ∈ collections db;
  qs_unique : forall db c d1 d2, d1 ∈ documents db c -> d2 ∈ documents db c -> id_of d1 = id_of d2 -> d1 = d2;
}.

(** ** The scan *)

(** The postings after documents were projected. *)
Record scanned st (docs : list StoredDoc) st' : Prop := {
  sc_ok : ix_ok st';
  sc_marked : forall r, marked st' r <-> marked st r;
  sc_tracks : forall db c t m, t ∈ templates_for db -> match_template (split slash c) t = Some m -> tracks st docs st' db c t generation;
}.
Lemma scanned_refl st : ix_ok st -> scanned st [] st.
Proof. intros H. by split. Qed.
Lemma scanned_trans st st1 st2 d1 d2 : scanned st d1 st1 -> scanned st1 d2 st2 -> scanned st (d1 ++ d2) st2.
Proof.
  intros [_ H1 H2] [Hok K1 K2]. split; [done| |].
  - intros r. by rewrite K1.
  - intros db c t m Ht Hm. eapply tracks_app; [by eapply H2|by eapply K2].
Qed.

Lemma bootstrap_projections_refs doc db c matches :
  bootstrap_projections generation doc matches =
  event_projections doc matches (map (fun m => IndexRef db c (Fingerprint (match_Template m)) generation) matches).
Proof. induction matches as [|m matches IH]; cbn [bootstrap_projections event_projections map ref_Generation]; [done|]. by rewrite IH. Qed.

Definition in_scope (db c : string) (doc : StoredDoc) : Prop := doc_Database doc = db /\ doc_Collection doc = c /\ is_ok (LogicalDocumentID doc) = true.

Lemma bootstrap_documents_ok st db c after docs st' last' : ix_ok st ->
  bootstrap_documents env generation st db c (MatchTemplates c (templates_for db)) after docs = (st', Ok last') ->
  scanned st docs st' /\ Forall (in_scope db c) docs /\ last' = default after (id_of <$> last docs) /\
  (docs <> [] -> string_ltb after last' = true).
Proof.
  intros Hok. revert st after Hok. induction docs as [|doc docs IH]; intros st after Hok; cbn [bootstrap_documents].
  { intros [= <- <-]. split_and!; [by apply scanned_refl|done|done|done]. }
  destruct (be_ctx_doc env db c after); [done|]. destruct (LogicalDocumentID doc) as [id|] eqn:Eid; [|done].
  destruct (_ || _) eqn:Es; [done|]. apply orb_false_iff in Es as [[E1 E2]%orb_false_iff E3].
  apply negb_false_iff in E1, E2, E3. apply String.eqb_eq in E1, E2.
  destruct (bootstrap_projections _ _ _) as [ps|] eqn:Ep; [|done].
  destruct (ix_ApplyDocumentProjection st ps "") as [st1 [e|]] eqn:Ea; [done|].
  destruct (ix_Apply_law _ _ _ _ _ Hok Ea) as (Hok1 & _ & _ & Hmk & Hnd & Hp & _). intros H.
  destruct (IH _ _ Hok1 H) as (Hsc & Hall & Hlast & Hlt).
  assert (scanned st [doc] st1) as Hdoc.
  { split; [done|done|]. intros db' c' t m Ht Hm. rewrite (bootstrap_projections_refs _ db c) in Ep.
    eapply (replaced_tracks _ _ _ _ _ _ _ _ _ _ m); [exact Eid|by rewrite length_map|exact Ep|exact Hnd|exact Hp|].
    intros Edb Ec. assert (m ∈ MatchTemplates c (templates_for db)) as (i & Hi)%list_elem_of_lookup
      by (apply MatchTemplates_elem; exists t; by rewrite <- E1, <- E2, Edb, Ec).
    exists i. eexists. split_and!; [exact Hi|by rewrite list_lookup_fmap, Hi|done|by eapply match_template_of]. }
  split_and!.
  - apply (scanned_trans _ _ _ [doc] docs Hdoc Hsc).
  - constructor; [|done]. split_and!; [done|done|by rewrite Eid].
  - rewrite Hlast, last_cons. unfold id_of at 2. by destruct (last docs); cbn; rewrite ?Eid.
  - intros _. destruct docs as [|d docs]; [by rewrite Hlast|]. eapply string_ltb_trans; [exact E3|by apply Hlt].
Qed.

Lemma last_elem {A} (l : list A) x : last l = Some x -> x ∈ l.
Proof. rewrite last_Some. intros (l' & ->). set_solver. Qed.

(** A collection that was scanned to its end: all of its documents from [after] on, and
    nothing else, were projected. *)
Definition scanned_collection st (db c after : string) st' : Prop :=
  exists docs, scanned st docs st' /\ (forall d, d ∈ docs -> d ∈ documents db c /\ in_scope db c d) /\
    (forall d, d ∈ documents db c -> is_after after (id_of d) -> d ∈ docs).

Lemma bootstrapCollection_ok (Q : quiet_source) fuel st db c after st' : ix_ok st ->
  bootstrapCollection batch scan env generation fuel st db c (MatchTemplates c (templates_for db)) after = (st', Some (Ok tt)) ->
  scanned_collection st db c after st'.
Proof.
  revert st after. induction fuel as [|fuel IH]; intros st after Hok; cbn [bootstrapCollection]; [done|].
  destruct (scan db c after) as [page|] eqn:Es; [|done]. destruct (batch <? _); [done|].
  destruct (bootstrap_documents _ _ _ _ _ _ _ _) as [st1 [last'|]] eqn:Ed; [|done].
  apply bootstrap_documents_ok in Ed as (Hsc & Hall & Hlast & Hlt); [|done]. rewrite Forall_forall in Hall.
  destruct (_ && _) eqn:En; [done|].
  assert (Hpage : forall d, d ∈ ssp_Documents page -> d ∈ documents db c /\ in_scope db c d).
  { intros d Hd. split; [by eapply (qs_scanned Q)|]. by apply Hall, Hd. }
  destruct (ssp_Exhausted page) eqn:Ex.
  - intros [= <-]. exists (ssp_Documents page). split_and!; [done|done|]. intros d Hd Ha.
    destruct (qs_scan Q _ _ _ _ _ Es Hd Ha) as [?|[? _]]; [done|congruence].
  - destruct (String.eqb_spec last' after) as [|Hne]; [done|]. intros H. apply IH in H as (docs & H1 & H2 & H3); [|apply Hsc].
    exists (ssp_Documents page ++ docs). split_and!; [by eapply scanned_trans|intros d [?|?]%elem_of_app; auto|].
    intros d Hd Ha. apply elem_of_app. destruct (qs_scan Q _ _ _ _ _ Es Hd Ha) as [?|[_ Hn]]; [by left|right].
    apply H3; [done|right]. destruct (ssp_Documents page); [done|]. cbn [length] in En. apply andb_false_iff in En as [En|En]; [by apply Z.ltb_ge in En; lia|].
    apply negb_false_iff, String.eqb_eq in En. by rewrite <- En.
Qed.

Definition scanned_collections st (db : string) (scope : string -> Prop) st' : Prop :=
  exists docs, scanned st docs st' /\ (forall d, d ∈ docs -> exists c, d ∈ documents db c /\ in_scope db c d) /\
    (forall c d t m, c ∈ collections db -> scope c -> t ∈ templates_for db -> match_template (split slash c) t = Some m -> d ∈ documents db c -> d ∈ docs).

Lemma bootstrap_collections_ok (Q : quiet_source) fuel st db after cs st' last' : ix_ok st ->
  bootstrap_collections templates dbTemplates batch scan env generation fuel st db after cs = (st', Some (Ok last')) ->
  scanned_collections st db (fun c => c ∈ cs) st' /\ last' = default after (last cs) /\ (cs <> [] -> string_ltb after last' = true).
Proof.
  revert st after. induction cs as [|c cs IH]; intros st after Hok; cbn [bootstrap_collections].
  { intros [= <- <-]. split_and!; [|done|done]. exists []. split_and!; [by apply scanned_refl|by intros d ?%elem_of_nil|]. intros c d t m _ ?%elem_of_nil. done. }
  destruct (string_ltb after c) eqn:El; cbn [negb]; [|done]. intros H.
  assert (exists st1, scanned_collections st db (fun c' => c' = c) st1 /\ bootstrap_collections templates dbTemplates batch scan env generation fuel st1 db c cs = (st', Some (Ok last')))
    as (st1 & (d1 & A1 & A2 & A3) & Hrest).
  { destruct (MatchTemplates c (templates_for db)) as [|m0 ms] eqn:Em.
    - exists st. split; [|done]. exists []. split_and!; [by apply scanned_refl|by intros d ?%elem_of_nil|].
      intros c' d t m _ -> Ht Hm. assert (m ∈ MatchTemplates c (templates_for db)) as Hx by (apply MatchTemplates_elem; by exists t). rewrite Em in Hx. by apply elem_of_nil in Hx.
    - rewrite <- Em in H. destruct (bootstrapCollection _ _ _ _ _ _ _ _ _ _) as [st1 [[[]|]|]] eqn:Ec; [|done|done].
      apply bootstrapCollection_ok in Ec as (docs & B1 & B2 & B3); [|done|done]. exists st1. split; [|done].
      exists docs. split_and!; [done|intros d Hd; exists c; by apply B2|]. intros c' d t m _ -> _ _ Hd. apply B3; [done|by left]. }
  apply IH in Hrest as ((d2 & C1 & C2 & C3) & Hl & Hlt); [|apply A1]. split_and!.
  - exists (d1 ++ d2). split_and!; [by eapply scanned_trans|intros d [?|?]%elem_of_app; auto|].
    intros c' d t m Hc [->|Hin]%elem_of_cons Ht Hm Hd; apply elem_of_app; [left; by eapply (A3 c)|right; by eapply (C3 c')].
  - rewrite last_cons. rewrite Hl. by destruct (last cs).
  - intros _. destruct cs as [|c' cs]; [by rewrite Hl|]. eapply string_ltb_trans; [exact El|by apply Hlt].
Qed.

Lemma bootstrap_database_ok (Q : quiet_source) fuel fuel' st db after st' : ix_ok st ->
  bootstrap_database templates dbTemplates batch enumerate scan env generation fuel fuel' st db after = (st', Some (Ok tt)) ->
  scanned_collections st db (is_after after) st'.
Proof.
  revert st after. induction fuel as [|fuel IH]; intros st after Hok; cbn [bootstrap_database]; [done|].
  destruct (be_ctx_page env db after); [done|]. destruct (enumerate db after) as [cs|] eqn:Ee; [|done]. destruct (batch <? _); [done|].
  destruct (bootstrap_collections _ _ _ _ _ _ _ _ _ _ _) as [st1 [[last'|]|]] eqn:Ec; [|done|done].
  apply bootstrap_collections_ok in Ec as ((d1 & A1 & A2 & A3) & Hl & Hlt); [|done|done].
  destruct (Z.ltb_spec (Z.of_nat (length cs)) batch) as [Hb|Hb].
  - intros [= <-]. exists d1. split_and!; [done|done|]. intros c d t m Hc Ha.
    destruct (qs_enumerate Q _ _ _ _ Ee Hc Ha) as [Hin|[? _]]; [by apply A3|lia].
  - intros H. apply IH in H as (d2 & C1 & C2 & C3); [|apply A1]. exists (d1 ++ d2).
    split_and!; [by eapply scanned_trans|intros d [?|?]%elem_of_app; auto|]. intros c d t m Hc Ha Ht Hm Hd. apply elem_of_app.
    destruct (qs_enumerate Q _ _ _ _ Ee Hc Ha) as [Hin|[_ Hn]]; [left; by eapply A3|right]. eapply C3; [done| |done|done|done]. right. by rewrite Hl.
Qed.

Lemma bootstrap_databases_ok (Q : quiet_source) fuel fuel' st dbs st' : ix_ok st ->
  bootstrap_databases templates dbTemplates batch enumerate scan env generation fuel fuel' st dbs = (st', Some (Ok tt)) ->
  exists docs, scanned st docs st' /\ (forall d, d ∈ docs -> exists db c, d ∈ documents db c /\ in_scope db c d) /\
    (forall db c d t m, db ∈ dbs -> t ∈ templates_for db -> match_template (split slash c) t = Some m -> d ∈ documents db c -> d ∈ docs).
Proof.
  revert st. induction dbs as [|db dbs IH]; intros st Hok; cbn [bootstrap_databases].
  { intros [= <-]. exists []. split_and!; [by apply scanned_refl|by intros d ?%elem_of_nil|]. by intros db c d t m ?%elem_of_nil. }
  destruct (bootstrap_database _ _ _ _ _ _ _ _ _ _ _ _) as [st1 [[[]|]|]] eqn:Ed; [|done|done].
  apply bootstrap_database_ok in Ed as (d1 & A1 & A2 & A3); [|done|done]. intros H. apply IH in H as (d2 & C1 & C2 & C3); [|apply A1].
  exists (d1 ++ d2). split_and!; [by eapply scanned_trans|intros d [?|?]%elem_of_app; [exists db; auto|auto]|].
  intros db' c d t m [->|Hin]%elem_of_cons Ht Hm Hd; apply elem_of_app; [left|right; by eapply (C3 db')].
  eapply (A3 c); [by eapply (qs_collection Q)|by left|done|done|done].
Qed.

(** The newest version is the document of the source. *)
Lemma latest_source (Q : quiet_source) docs db c id :
  (forall d, d ∈ docs -> exists db c, d ∈ documents db c /\ in_scope db c d) -> (forall d, d ∈ documents db c -> d ∈ docs) ->
  forall d, latest docs db c id = Some d <-> d ∈ documents db c /\ has_identity db c id d = true.
Proof.
  intros Hin Hall.
  assert (Hid : forall d, d ∈ docs -> has_identity db c id d = true -> d ∈ documents db c /\ id_of d = id).
  { intros d Hd. unfold has_identity, id_of. destruct (Hin d Hd) as (db' & c' & H1 & E1 & E2 & _).
    rewrite andb_true_iff, bool_decide_eq_true. intros [[E3 E4] H]. rewrite E1, E2 in *. subst.
    destruct (LogicalDocumentID d); [|done]. by apply String.eqb_eq in H. }
  intros d. unfold latest. split.
  - intros H%last_elem. apply list_elem_of_In, filter_In in H as [H1%list_elem_of_In H2]. split; [|done]. by apply Hid.
  - intros [H1 H2]. pose proof (Hall _ H1) as H3. assert (d ∈ List.filter (has_identity db c id) docs) as H4
      by (apply list_elem_of_In, filter_In; split; [by apply list_elem_of_In|done]).
    destruct (last (List.filter (has_identity db c id) docs)) as [d'|] eqn:El.
    + f_equal. apply last_elem, list_elem_of_In, filter_In in El as [K1%list_elem_of_In K2].
      destruct (Hid d' K1 K2) as [? ?], (Hid d H3 H2) as [? ?]. eapply (qs_unique Q); [done|done|congruence].
    + apply last_None in El. rewrite El in H4. by apply elem_of_nil in H4.
Qed.

(** ** Termination: a page that is not the last one advances *)
Lemma bootstrapCollection_returns (Q : quiet_source) fuel st db c after : ix_ok st ->
  (length (List.filter (fun d => afterb after (id_of d)) (documents db c)) < fuel)%nat ->
  is_Some (bootstrapCollection batch scan env generation fuel st db c (MatchTemplates c (templates_for db)) after).2.
Proof.
  revert st after. induction fuel as [|fuel IH]; intros st after Hok Hf; [lia|]. cbn [bootstrapCollection].
  destruct (scan db c after) as [page|] eqn:Es; [|by eexists]. destruct (batch <? _); [by eexists|].
  destruct (bootstrap_documents _ _ _ _ _ _ _ _) as [st1 [last'|]] eqn:Ed; [|by eexists].
  apply bootstrap_documents_ok in Ed as (Hsc & _ & Hlast & Hlt); [|done]. destruct (_ && _); [by eexists|].
  destruct (ssp_Exhausted page); [by eexists|]. destruct (String.eqb_spec last' after) as [|Hne]; [by eexists|].
  apply IH; [apply Hsc|]. destruct (last (ssp_Documents page)) as [d|] eqn:El; [|by rewrite Hlast in Hne].
  assert (string_ltb after last' = true) as Hl by (apply Hlt; intros E; by rewrite E in El).
  eapply Nat.lt_le_trans; [|apply Nat.lt_succ_r, Hf]. cbn in Hlast. apply (filter_length_lt _ _ _ d).
  - intros x. by apply afterb_mono.
  - eapply (qs_scanned Q); [exact Es|by apply last_elem].
  - rewrite <- Hlast. apply orb_true_iff. by right.
  - rewrite <- Hlast. by eapply afterb_self.
Qed.
Lemma bootstrap_collections_returns (Q : quiet_source) fuel st db after cs : ix_ok st -> (forall c, length (documents db c) < fuel)%nat ->
  is_Some (bootstrap_collections templates dbTemplates batch scan env generation fuel st db after cs).2.
Proof.
  intros Hok Hf. revert st after Hok. induction cs as [|c cs IH]; intros st after Hok; cbn [bootstrap_collections]; [by eexists|].
  destruct (negb _); [by eexists|]. destruct (MatchTemplates c (templates_for db)) as [|m0 ms] eqn:Em; [by apply IH|]. rewrite <- Em.
  destruct (bootstrapCollection_returns Q fuel st db c "" Hok) as [r Hr].
  { eapply Nat.le_lt_trans; [apply filter_length_le|apply Hf]. }
  destruct (bootstrapCollection _ _ _ _ _ _ _ _ _ _) as [st1 o] eqn:Ec. cbn in Hr. subst o. destruct r as [[]|]; [|by eexists].
  apply bootstrapCollection_ok in Ec as (docs & H & _); [|done|done]. apply IH, H.
Qed.
Lemma bootstrap_database_returns (Q : quiet_source) fuel fuel' st db after : 0 < batch -> ix_ok st -> (forall c, length (documents db c) < fuel')%nat ->
  (length (List.filter (afterb after) (collections db)) < fuel)%nat ->
  is_Some (bootstrap_database templates dbTemplates batch enumerate scan env generation fuel fuel' st db after).2.
Proof.
  intros Hb Hok Hf'. revert st after Hok. induction fuel as [|fuel IH]; intros st after Hok Hf; [lia|]. cbn [bootstrap_database].
  destruct (be_ctx_page env db after); [by eexists|]. destruct (enumerate db after) as [cs|] eqn:Ee; [|by eexists]. destruct (batch <? _); [by eexists|].
  destruct (bootstrap_collections_returns Q fuel' st db after cs Hok Hf') as [r Hr].
  destruct (bootstrap_collections _ _ _ _ _ _ _ _ _ _ _) as [st1 o] eqn:Ec. cbn in Hr. subst o. destruct r as [last'|]; [|by eexists].
  apply bootstrap_collections_ok in Ec as ((docs & Hsc & _) & Hl & Hlt); [|done|done].
  destruct (Z.ltb_spec (Z.of_nat (length cs)) batch) as [|Hlen]; [by eexists|]. apply IH; [apply Hsc|].
  assert (string_ltb after last' = true) as Hlast by (apply Hlt; intros ->; cbn in Hlen; lia).
  destruct (last cs) as [c|] eqn:El; cbn in Hl; [|apply last_None in El; subst cs; cbn in Hlen; lia]. subst c.
  eapply Nat.lt_le_trans; [|apply Nat.lt_succ_r, Hf]. apply (filter_length_lt _ _ _ last').
  - intros x. by apply afterb_mono.
  - eapply (qs_enumerated Q); [exact Ee|by apply last_elem].
  - apply orb_true_iff. by right.
  - by eapply afterb_self.
Qed.

Abbreviation bootstrap := (Bootstrap templates dbTemplates batch enumerate scan env generation) (only parsing).
Abbreviation start := (StartWithValidationContext templates dbTemplates) (only parsing).
Abbreviation loop := (subscriptionLoop templates dbTemplates error_text) (only parsing).

Lemma bootstrap_checks_ok s request loadErr databases boundary :
  bootstrap_checks dbTemplates env s request loadErr = Ok (databases, boundary) ->
  databases = compact (sort_strings (br_Databases request)) /\ ix_ListQueryIndexes (sv_store s) = Ok [] /\ be_boundary env = Ok boundary.
Proof.
  unfold bootstrap_checks. destruct loadErr; [done|]. set (dbs := compact _). destruct dbs as [|d0 dbs'] eqn:Ed; [done|].
  assert (Hd : forall X (a b : X), match d0 with EmptyString => a | _ => b end = if String.eqb d0 "" then a else b) by (by intros; destruct d0).
  destruct d0 as [|a0 d0]; [done|]. destruct (negb _); [done|].
  intros (catalogs & _ & (indexes & Hi%map_err_ok & H)%bind_ok)%bind_ok. destruct catalogs; [|done]. destruct indexes; [|done].
  apply bind_ok in H as (b & Hb%map_err_ok & H). destruct (_ && _); [done|]. by injection H as <- <-.
Qed.

(** It ends as long as the source is finite. *)
Theorem Bootstrap_returns (Q : quiet_source) fuel fuel' p s request loadErr stopped : 0 < batch -> ix_ok (sv_store s) ->
  (forall db, length (collections db) < fuel)%nat -> (forall db c, length (documents db c) < fuel')%nat ->
  is_Some (bootstrap fuel fuel' p s request loadErr stopped).2.
Proof.
  intros Hb Hok Hf Hf'. unfold Bootstrap. destruct (negb _); [by eexists|]. destruct (negb _); [by eexists|]. destruct (negb _); [by eexists|].
  destruct (_ || _); [by eexists|]. set (s0 := set_readiness _ _ _ _ _). destruct (bootstrap_checks _ _ _ _ _) as [[dbs boundary]|]; [|by eexists].
  assert (is_Some (bootstrap_databases templates dbTemplates batch enumerate scan env generation fuel fuel' (sv_store s0) dbs).2) as [r Hr].
  { change (sv_store s0) with (sv_store s). clear s0. revert Hok. generalize (sv_store s). induction dbs as [|db dbs IH]; intros st Hok; cbn [bootstrap_databases]; [by eexists|].
    destruct (bootstrap_database_returns Q fuel fuel' st db "" Hb Hok (Hf' db)) as [r Hr].
    { eapply Nat.le_lt_trans; [apply filter_length_le|apply Hf]. }
    destruct (bootstrap_database _ _ _ _ _ _ _ _ _ _ _ _) as [st1 o] eqn:Ed. cbn in Hr. subst o. destruct r as [[]|]; [|by eexists].
    apply bootstrap_database_ok in Ed as (docs & H & _); [|done|done]. apply IH, H. }
  destruct (bootstrap_databases _ _ _ _ _ _ _ _ _ _ _) as [st o]. cbn in Hr. subst o. destruct r as [[]|]; [|by eexists].
  destruct (bootstrap_publish _ _ _ _ _ _ _ _) as [st1 [e|]]; by eexists.
Qed.

Lemma bootstrap_publish_ok st request databases boundary st' : ix_ok st ->
  bootstrap_publish templates dbTemplates env generation st request databases boundary = (st', None) ->
  ix_ok st' /\ (forall r id k, posts st' r id k <-> posts st r id k) /\ ix_LoadProgress st' = Ok boundary /\
  (forall db c t, db ∈ databases -> t ∈ templates_for db -> ~ marked st (IndexRef db c (Fingerprint t) generation) ->
     ix_IsDatabaseRetired st' db = Ok false /\
     exists g, ix_ReadGeneration st' db c (Fingerprint t) = Ok (Some g) /\ gen_ID g = generation /\ gen_Ready g = true /\ gen_Failure g = ""%string).
Proof.
  intros Hok. unfold bootstrap_publish. destruct (ix_Flush st) as [st1 [e|]] eqn:Ef; [done|]. destruct (ix_Flush_law _ _ _ Hok Ef) as (Hok1 & _ & _ & Hmk & Hp & _).
  destruct (be_validation env); [done|].
  assert (Hpub : match ix_PublishBootstrapCatalogs st1 (bootstrap_catalogs templates dbTemplates generation databases boundary) boundary with
    | (st, Some e) => (st, Some (SvcStore e)) | (st, None) => (st, None) end = (st', None) ->
    ix_PublishBootstrapCatalogs st1 (bootstrap_catalogs templates dbTemplates generation databases boundary) boundary = (st', None)).
  { destruct (ix_PublishBootstrapCatalogs _ _ _) as [st2 [e|]]; intros H; [discriminate H|by injection H as ->]. }
  intros H. assert (ix_PublishBootstrapCatalogs st1 (bootstrap_catalogs templates dbTemplates generation databases boundary) boundary = (st', None)) as Ep.
  { destruct (br_ValidateInventory request) as [[e|]|]; [done|..]; (destruct (be_ctx_publish env); [done|by apply Hpub]). }
  destruct (ix_Publish_law _ _ _ _ Hok1 Ep) as (Hok2 & Hp2 & Hl & Hc). split_and!; [done|intros; by rewrite Hp2|done|].
  intros db c t Hdb Ht Hm. refine (Hc (bootstrap_catalog templates dbTemplates generation boundary db) c (Fingerprint t) _ _ _).
  - by apply (list_elem_of_fmap_2 (bootstrap_catalog templates dbTemplates generation boundary)).
  - apply compact_sort_elem. exact (list_elem_of_fmap_2 Fingerprint _ _ Ht).
  - intros H'. by apply Hm, Hmk.
Qed.

(** What a bootstrap leaves: the documents of the source are posted, and only they. *)
Lemma Bootstrap_ok (Q : quiet_source) fuel fuel' p s request loadErr stopped s' : ix_ok (sv_store s) ->
  bootstrap fuel fuel' p s request loadErr stopped = (s', Some (Ok tt)) ->
  ix_ok (sv_store s') /\ be_boundary env = Ok (sv_progress s') /\ ix_LoadProgress (sv_store s') = Ok (sv_progress s') /\
  forall db c t m, db ∈ br_Databases request -> t ∈ templates_for db -> match_template (split slash c) t = Some m ->
    serves templates dbTemplates (sv_store s') db c t generation /\
    (exists g, ix_ReadGeneration (sv_store s') db c (Fingerprint t) = Ok (Some g) /\ gen_ID g = generation /\ gen_Ready g = true /\ gen_Failure g = ""%string) /\
    forall id k, posts (sv_store s') (IndexRef db c (Fingerprint t) generation) id k <->
      exists doc, (doc ∈ documents db c /\ has_identity db c id doc = true) /\ keys_of doc t generation k.
Proof.
  intros Hok. unfold Bootstrap. destruct (negb _); [done|]. destruct (negb _); [done|]. destruct (negb _); [done|]. destruct (_ || _); [done|].
  set (s0 := set_readiness _ _ _ _ _). destruct (bootstrap_checks _ _ _ _ _) as [[dbs boundary]|] eqn:Ec; [|done].
  apply bootstrap_checks_ok in Ec as (-> & Hempty & Hbound). change (sv_store s0) with (sv_store s) in *.
  apply ix_empty_law in Hempty as [Hnp Hnm]; [|done].
  destruct (bootstrap_databases _ _ _ _ _ _ _ _ _ _ _) as [st [[[]|]|]] eqn:Ed; [|done|done].
  apply bootstrap_databases_ok in Ed as (docs & Hsc & Hin & Hall); [|done|done].
  destruct (bootstrap_publish _ _ _ _ _ _ _ _) as [st1 [e|]] eqn:Ep; [done|]. intros [= <-]. cbn [sv_store sv_progress].
  destruct (bootstrap_publish_ok _ _ _ _ _ (sc_ok _ _ _ Hsc) Ep) as (Hok1 & Hp & Hl & Hcat). split_and!; [done|done|done|].
  intros db c t m Hdb Ht Hm. rewrite <- compact_sort_elem in Hdb. destruct (Hcat db c t Hdb Ht) as (Hret & g & Hg & Hid & Hready & Hf).
  { rewrite (sc_marked _ _ _ Hsc). apply Hnm. }
  split_and!; [split; [exact Hret|exact Ht|by exists m|exists g; by split]|exists g; by split_and!|]. intros id k. rewrite Hp. rewrite (sc_tracks _ _ _ Hsc db c t m Ht Hm id k).
  pose proof (latest_source Q docs db c id Hin (fun d Hd => Hall db c d t m Hdb Ht Hm Hd)) as Hlat. unfold posts_doc.
  destruct (latest docs db c id) as [d|]; cbn [ref_Generation].
  - split; [intros Hk; exists d; split; [by apply Hlat|done]|]. intros (d' & [= <-]%Hlat & Hk). done.
  - split; [intros H; by apply Hnp in H|]. intros (d' & [=]%Hlat & _).
Qed.

Lemma start_ok s loadErr validation ctxs closed s' :
  start BoundaryPuller s loadErr validation ctxs closed = (s', None) ->
  sv_store s' = sv_store s /\ ix_LoadProgress (sv_store s) = Ok (sv_progress s') /\ lf_ready (sv_life s') = false /\
  validation (sv_progress s') = None /\ validateCatalogs templates dbTemplates s = Ok tt.
Proof.
  unfold StartWithValidationContext. destruct (ctxs 0%nat); [done|]. destruct (ctxs 1%nat); [done|]. destruct (_ || _); [done|].
  destruct (start_progress _ _ _ _ _ _) as [progress|] eqn:Ep; [|done]. unfold start_progress in Ep. destruct loadErr; [done|].
  apply bind_ok in Ep as (pr & Hl%map_err_ok & ([] & Hv & Ep)%bind_ok). destruct (String.eqb pr ""); [done|].
  destruct (validation pr) eqn:Ev; [done|]. injection Ep as ->.
  destruct (ctxs 2%nat); [done|]. destruct (ctxs 3%nat); [done|]. destruct closed; [done|]. intros [= <-]. cbn. by split_and!.
Qed.

(** C4: the index mirrors the source. An empty index is built by Bootstrap while the
    source is quiet, the service is started and its subscription loop has handled any
    messages, with databases invalidated and attachments retried in between, and has not
    ended. Then in every listed database that was not invalidated, for every template
    that matches a collection: the generation queries read is the one that was built,
    the keys posted for an id are exactly the posting keys of the newest version of that
    document (the one the last change with this identity carried, else the one in the
    source), the stored progress is the one of the last change, or the boundary captured
    before the scan, and queries are answered only if the puller's barrier was met at
    the progress that had been applied when it came. *)
Theorem index_mirrors_source (Q : quiet_source) fuel fuel' s request loadErr loadErr' validation ctxs s1 s2 inputs s3 retries db c t m id k :
  ix_ok (sv_store s) ->
  bootstrap fuel fuel' BoundaryPuller s request loadErr false = (s1, Some (Ok tt)) ->
  start BoundaryPuller s1 loadErr' validation ctxs false = (s2, None) ->
  loop true s2 inputs = (s3, retries, true) ->
  db ∈ br_Databases request -> db ∉ concat (map input_gone inputs) ->
  t ∈ templates_for db -> match_template (split slash c) t = Some m ->
  let boundary := sv_progress s1 in
  (exists g, ix_ReadGeneration (sv_store s3) db c (Fingerprint t) = Ok (Some g) /\ gen_ID g = generation /\ gen_Ready g = true /\ gen_Failure g = ""%string) /\
  (posts (sv_store s3) (IndexRef db c (Fingerprint t) generation) id k <->
     exists doc, match latest (concat (map input_docs inputs)) db c id with
                 | Some newest => doc = newest
                 | None => doc ∈ documents db c /\ has_identity db c id doc = true
                 end /\ keys_of doc t generation k) /\
  be_boundary env = Ok boundary /\ ix_LoadProgress (sv_store s3) = Ok (foldl input_progress boundary inputs) /\
  (queryReady true s3 = Ok tt -> barrier_met boundary inputs).
Proof.
  intros Hok Hb Hs Hr Hdb Hgone Ht Hm. cbv zeta. apply (Bootstrap_ok Q) in Hb as (Hok1 & Hbound & Hl1 & Hboot); [|exact Hok].
  apply start_ok in Hs as (Est & Hp2 & Hnr & _ & _). rewrite Hl1 in Hp2. injection Hp2 as Ep2.
  destruct (Hboot db c t m Hdb Ht Hm) as (Hserves & (g & Hg & Hgid & Hgr & Hgf) & Hposts). unfold subscriptionLoop in Hr. cbn [attach] in Hr.
  apply run_live in Hr as (Hev & Hl3 & Hp3 & Hready); [|by rewrite Est|by rewrite Est, Hl1, Ep2]. rewrite Est in Hev.
  split_and!.
  - exists g. by rewrite (ev_generation _ _ _ _ _ _ Hev).
  - rewrite (ev_tracks _ _ _ _ _ _ Hev db c t generation Hgone Hserves id k). unfold posts_doc.
    destruct (latest _ db c id) as [d|]; [|apply Hposts]. cbn [ref_Generation]. split; [intros Hk; by exists d|by intros (d' & -> & Hk)].
  - exact Hbound.
  - by rewrite Hl3, Hp3, Ep2.
  - unfold queryReady. cbn [negb]. destruct (negb _ || _) eqn:Eq; [done|]. intros _. apply orb_false_iff in Eq as [_ Eq%negb_false_iff].
    rewrite Ep2. by apply Hready.
Qed.
End Facts.

Lemma pair_snd {A B} (x : A * B) b : x.2 = b -> x = (x.1, b).
Proof. intros <-. apply surjective_pairing. Qed.

(** ** Two documents, one of them changed later *)
Section Example.
Local Existing Instance insertion_slice_sort.
Abbreviation demo_writer := (mem_writer (BT := list_btree)) (only parsing).

Definition demo_documents (db c : string) : list StoredDoc :=
  if String.eqb db "db" && String.eqb c "users" then [tagged_doc; older_doc] else [].
Definition demo_enumerate (db after : string) : res string (list string) := Ok (List.filter (afterb after) ["users"]).
Definition demo_scan (db c after : string) : res string SourceScanPage :=
  let docs := List.filter (fun d => afterb after (id_of d)) (demo_documents db c) in
  Ok {| ssp_Documents := docs; ssp_NextAfter := default after (id_of <$> last docs); ssp_Exhausted := true; ssp_Bytes := 0 |}.
Definition demo_env : bootstrap_env :=
  {| be_boundary := Ok "p0"; be_validation := None; be_ctx_page := fun _ _ => None; be_ctx_doc := fun _ _ _ => None; be_ctx_publish := None |}.

Lemma demo_quiet : quiet_source 10 demo_enumerate demo_scan (fun _ => ["users"]) demo_documents.
Proof.
  assert (Hafter : forall a x, is_after a x -> afterb a x = true).
  { intros a x [->|H]; apply orb_true_iff; [by left|by right]. }
  split.
  - intros db after cs c <-%Ok_inj Hc Ha. left. apply list_elem_of_In, filter_In. split; [by apply list_elem_of_In|by apply Hafter].
  - intros db after cs c <-%Ok_inj [H _]%list_elem_of_In%filter_In. by apply list_elem_of_In.
  - intros db c after page doc <-%Ok_inj Hd Ha. left. apply list_elem_of_In, filter_In. split; [by apply list_elem_of_In|by apply Hafter].
  - intros db c after page doc <-%Ok_inj [H _]%list_elem_of_In%filter_In. by apply list_elem_of_In.
  - intros db c doc. unfold demo_documents. destruct (String.eqb_spec c "users") as [->|]; [by left|]. rewrite andb_false_r. by intros ?%elem_of_nil.
  - intros db c d1 d2. unfold demo_documents. destruct (_ && _); [|by intros ?%elem_of_nil].
    intros [->|[->|[]%elem_of_nil]%elem_of_cons]%elem_of_cons [->|[->|[]%elem_of_nil]%elem_of_cons]%elem_of_cons E;
    try reflexivity; exfalso; vm_compute in E; discriminate E.
Qed.

Definition demo_service : service (IW := demo_writer) :=
  {| sv_store := (New (BT := list_btree) : index (IndexWriter := demo_writer)); sv_progress := "";
     sv_life := {| lf_running := false; lf_bootstrapping := false; lf_starting := false; lf_closed := false; lf_ready := false;
                   lf_retrying := false; lf_lifecycleErr := None; lf_readyChanged := 0 |};
     sv_databases := ["db"]; sv_eventsApplied := 0; sv_lastEventTime := 0 |}.
Definition demo_request : BootstrapRequest :=
  {| br_Databases := ["db"]; br_hasSource := true; br_WritesQuiesced := true; br_ExpectedBoundary := ""; br_ValidateInventory := None |}.
Definition demo_bootstrap := Bootstrap (IW := demo_writer) [tagged_template] ∅ 10 demo_enumerate demo_scan demo_env "g1" 3 4 BoundaryPuller demo_service demo_request None false.
Definition demo_start := StartWithValidationContext (IW := demo_writer) [tagged_template] ∅ BoundaryPuller demo_bootstrap.1 None (fun _ => None) (fun _ => None) false.

(** The second document is deleted. *)
Definition deleted_doc : StoredDoc :=
  {| doc_Id := "db:h2"; doc_Database := "db"; doc_Fullpath := "users/u2"; doc_Collection := "users"; doc_CollectionHash := ""; doc_Parent := "";
     doc_UpdatedAt := 3; doc_CreatedAt := 1; doc_Version := 2; doc_Data := ∅; doc_Deleted := true |}.
Definition demo_event : StoreChangeEvent :=
  {| evt_EventID := "e1"; evt_Database := "db"; evt_MgoColl := "documents"; evt_MgoDocID := "db:h2"; evt_OpType := StoreOperationUpdate;
     evt_FullDocument := Some deleted_doc; evt_UpdateDesc := None; evt_ClusterTime := {| ct_T := 5; ct_I := 0 |}; evt_TxnNumber := None;
     evt_Timestamp := 0; evt_Backend := "b" |}.
Definition demo_message (change : option StoreChangeEvent) (progress : string) (ready : bool) : svc_input :=
  InMessage {| in_message := Some (Some {| pe_Change := change; pe_Progress := progress; pe_Ready := ready; pe_Error := None; pe_Retryable := false;
       pe_AdmissionState := ""; pe_AdmissionGeneration := 0; pe_AdmissionReason := ""; pe_TransportGeneration := 0; pe_admissionReceived := None |});
     in_now := 1; in_ctx := fun _ => None; in_attempts := fun _ => AttemptValid |}.
Definition demo_inputs : list svc_input := [demo_message (Some demo_event) "p1" false; demo_message None "p1" true].
Definition demo_loop := subscriptionLoop (IW := demo_writer) [tagged_template] ∅ (fun _ => "failed"%string) true demo_start.1 demo_inputs.

Lemma index_mirrors_source_witness :
  queryReady true demo_loop.1.1 = Ok tt /\ ix_LoadProgress (sv_store demo_loop.1.1) = Ok "p1"%string /\
  forall k, ~ posts (sv_store demo_loop.1.1) (IndexRef "db" "users" (Fingerprint tagged_template) "g1") "u2" k.
Proof.
  assert (demo_bootstrap = (demo_bootstrap.1, Some (Ok tt))) as Hb by (apply pair_snd; vm_compute; reflexivity).
  assert (demo_start = (demo_start.1, None)) as Hs by (apply pair_snd; vm_compute; reflexivity).
  assert (demo_loop = (demo_loop.1.1, demo_loop.1.2, true)) as Hl by (rewrite <- (surjective_pairing demo_loop.1); apply pair_snd; vm_compute; reflexivity).
  assert (exists m, match_template (split slash "users") tagged_template = Some m) as [m Hm] by (eexists; vm_compute; reflexivity).
  assert (db_gone : "db"%string ∉ concat (map input_gone demo_inputs)) by (cbn; by intros ?%elem_of_nil).
  assert (in_templates : tagged_template ∈ databaseTemplates [tagged_template] ∅ "db") by (vm_compute; left).
  assert (E : latest (concat (map input_docs demo_inputs)) "db" "users" "u2" = Some deleted_doc) by (vm_compute; reflexivity).
  assert (Hok : ix_ok (sv_store demo_service)) by (exact (run_store_inv (BT := list_btree) [])).
  split; [vm_compute; reflexivity|]. split.
  - destruct (index_mirrors_source (IW := demo_writer) [tagged_template] ∅ (fun _ => "failed"%string) 10 demo_enumerate demo_scan demo_env "g1" (fun _ => ["users"]) demo_documents
      demo_quiet 3 4 demo_service demo_request None None (fun _ => None) (fun _ => None) demo_bootstrap.1 demo_start.1 demo_inputs demo_loop.1.1 demo_loop.1.2
      "db" "users" tagged_template m "u2" [] Hok Hb Hs Hl (list_elem_of_here _ _) db_gone in_templates Hm) as (_ & _ & _ & Hp & _).
    rewrite Hp. vm_compute. reflexivity.
  - intros k Hk.
    destruct (index_mirrors_source (IW := demo_writer) [tagged_template] ∅ (fun _ => "failed"%string) 10 demo_enumerate demo_scan demo_env "g1" (fun _ => ["users"]) demo_documents
      demo_quiet 3 4 demo_service demo_request None None (fun _ => None) (fun _ => None) demo_bootstrap.1 demo_start.1 demo_inputs demo_loop.1.1 demo_loop.1.2
      "db" "users" tagged_template m "u2" k Hok Hb Hs Hl (list_elem_of_here _ _) db_gone in_templates Hm) as (_ & Hp & _).
    apply Hp in Hk as (doc & Hdoc & proj & Hproj & Hin). rewrite E in Hdoc. subst doc.
    assert (EP : match BuildDocumentProjection deleted_doc tagged_template "g1" DefaultProjectionLimits with Ok p => proj_PostingKeys p | Err _ => [] end = [])
      by (vm_compute; reflexivity).
    rewrite Hproj in EP. rewrite EP in Hin. by apply elem_of_nil in Hin.
Defined.
End Example.
